(* ===== verification/_CoqProject ===== *)
-Q . S2P
Prelude.v
Json.v
Text.v
Template.v
TemplateError.v
GitRef.v
JobModel.v
DependsOn.v
Gate.v
Workflow.v
Dag.v
Db.v
Pins.v
StepRepo.v
StepRepoProps.v
JobRepo.v
Cascade.v
CascadeRows.v
CascadeProps.v
CascadeSpec.v
CascadeLive.v
JobRepoProps.v
CascadeApply.v
Settle.v
Retry.v
Terminal.v
Settlement.v
CancelProps.v
Restart.v
Acl.v
Duration.v
Leader.v
WorkerRepo.v
Lines.v
Utf8.v
FileField.v
RenderContext.v
InputFiles.v
InputFileLife.v
Errors.v
Engine.v
JsonField.v
TypedInput.v
Connections.v
ConnectionsProps.v
WorkspaceSet.v
Refs.v
Manager.v
Redact.v
JobCreator.v
JobCreatorProps.v
Trigger.v
Scheduler.v
ScriptExec.v
Validation.v
ValidationProps.v
Server.v
EventSources.v
ClaimRender.v
WorkerApi.v
Deferred.v
Dispatch.v
Hooks.v
TarballCache.v
Recovery.v
Retention.v
LogSplit.v
LogTail.v
LogMerge.v
RedactClosure.v
Witnesses.v
SupportWitnesses.v
CreationWitnesses.v
TriggerWitnesses.v
ValidationWitnesses.v
WorkerWitnesses.v
HookWitnesses.v
