(* ===== verification/Prelude.v ===== *)
(** * Stroem: a verified model of the orchestration core

    Stroem is a workflow engine: a server keeps jobs and their steps in
    PostgreSQL, decides after every event which steps may run, workers claim
    ready steps and report results, and when all steps of a job are terminal
    the server settles the job, propagates to its parent, retries it or fires
    its hooks. This library models the Rust code that takes those decisions
    and the SQL that makes them durable, and proves it correct. This file
    holds the shared prelude; the header describes the whole library.

    ** Parts and how they interact

    - Flow definitions ([crates/stroem-common]). [JobModel] has the status
      enums and their spellings ([models/job.rs]); [DependsOn] the dependency
      trees and their validation ([depends_on.rs]); [Gate] the outcome of a
      dependency and the readiness gate ([gate.rs]); [Workflow] connections,
      inputs, actions, flow steps, tasks, triggers and workspaces
      ([models/workflow.rs]); [Dag] the topological check ([dag.rs]);
      [Duration] the duration syntax ([duration.rs]); [GitRef] the syntax of
      refs ([git_ref.rs]). [Json] and [Text] model what these use of
      [serde_json] and of Rust's strings.
    - Templates and connections ([crates/stroem-common]). [Template] is the
      truth of a [when] condition, [Engine] the rendering of strings, maps and
      trees ([template.rs]); [TemplateError] the value-free error
      ([template_error.rs]); [JsonField] the [json] input type
      ([json_field.rs]); [Connections] the resolution of connection inputs,
      the gate of shared connections, defaults and roles ([template.rs],
      [validation.rs]); [TypedInput] typed inputs with files ([template.rs]);
      [RenderContext] the variables a template of a step sees
      ([render_context.rs]).
    - Validation ([crates/stroem-common/src/validation.rs]). [Validation] is
      [validate_workflow_config] with all its checks, as an error monad that
      collects warnings.
    - The database ([crates/stroem-db/src/repos]). [Db] has the rows of the
      tables [job], [job_step], [worker] and [job_ref_pin] as records, a table
      as a finite map from its primary key, and [sql_update] and [sql_select].
      [StepRepo] ([job_step.rs]) and [JobRepo] ([job.rs]) have one definition
      per repository function: the [WHERE] clause as a guard, the [SET] clause
      as assignments on the old row, the affected-row count as result. A
      transaction is the composition of its statements; row locks make each
      repository call atomic, so a history is a sequence of calls.
    - Job creation ([crates/stroem-server/src]). [Pins] has the pins of rows
      and their errors ([workspace/pins.rs]); [Errors] the typed errors of the
      path and the HTTP answer ([refs.rs], [templated_ref.rs],
      [web/api/mod.rs]); [WorkspaceSet] the snapshot of all configurations and
      the values to mask ([workspace_set.rs]); [Refs] the resolution of names
      at refs with the memo of a creation ([refs.rs], [job_creator.rs]) over
      an interface of the workspaces ([Workspaces]) whose answers may change
      from call to call; [Manager] the configuration at a pin
      ([workspace/mod.rs]); [JobCreator] the step rows and the creation
      transaction ([job_creator.rs], [job_ref_pin.rs]).
    - The cascade ([crates/stroem-server/src/cascade.rs]). [Cascade] is the
      in-memory fixpoint over a snapshot of the rows: rollup of loops,
      promotion, expansion of loops. [CascadeApply] writes the plan with
      guarded statements in one transaction, three attempts.
    - Settlement ([crates/stroem-server/src/settlement]). [Settle] decides a
      job ([settle.rs]); [Retry] computes delays and creates retry jobs
      ([retry.rs], with the columns of [job_creator.rs] and the checks of
      [validation.rs]); [Terminal] is the terminal block of [advance] with its
      drain gate, one-shot claim and plan ([terminal.rs], [propagate.rs],
      [mod.rs]) and the agent conversation it edits
      ([crates/stroem-agent/src/state.rs]); [Settlement] the entries of the
      component ([mod.rs]): [advance] with its dispatch rounds and nested
      calls, the entries of workers and agents, and the cancellation of a
      tree of jobs. Dispatch, deferred refs, hooks and the job creator are
      functions it takes ([Services]); they are modelled one by one over the
      state and error monad of [Server] (rows, calls to the workspaces, ids,
      files, panics): [Deferred] resolves steps whose ref is a template, under
      a lease ([deferred.rs]); [Dispatch] turns task steps into child jobs and
      suspends approval steps ([dispatch.rs]); [Hooks] fires the hooks of a
      job ([hooks.rs]).
    - Triggers ([crates/stroem-server/src]). [Trigger] finds what a trigger
      runs ([trigger_target.rs]); [Scheduler] is the loop that fires cron
      triggers ([scheduler.rs]), over an interface of the cron library
      ([CronLib]); [EventSources] the manager of long-lived consumer jobs
      ([event_source.rs]).
    - The worker's interface ([crates/stroem-server/src/web/worker_api]).
      [ClaimRender] renders the input and the body of a claimed step
      ([rendering.rs]); [WorkerApi] has registration, heartbeats, the claim
      and the reports of a worker ([jobs.rs]); [ScriptExec] the commands a
      runner builds for a script
      ([crates/stroem-runner/src/script_exec.rs], [language.rs]).
    - Recovery ([crates/stroem-server/src]). [WorkerRepo] is the [worker]
      table ([worker.rs]); [Recovery] the phases of a sweep over the
      repositories and the settlement entries ([recovery.rs]); [Retention]
      its last phase: workers, tarballs, jobs, input files; [Leader] the
      election that lets one replica sweep ([leader.rs]), as steps of
      replicas, sessions and an advisory lock.
    - Files. [FileField] has names, ids and paths of input files
      ([file_field.rs]); [InputFiles] their tables, upload, acceptance and
      sweep ([input_file.rs], [input_files/]); [InputFileLife] their
      interleavings; [TarballCache] the cache of workspace tarballs
      ([tarball_cache.rs]).
    - Logs and redaction. [Lines] and [Utf8] are facts on bytes; [LogSplit]
      splits a stream into lines ([log_read/splitter.rs]); [LogTail] reads
      tails of local files and archives ([log_read/]); [LogMerge] stores,
      archives, merges and reads job logs ([log_storage.rs]); [Redact] masks
      secrets in text and responses ([workspace_set.rs], [redaction.rs]);
      [RedactClosure] finds the commits whose secrets can occur in a job (the
      recursive query of [job.rs] and its memo in [redaction.rs]).
    - Around it. [Restart] plans which steps a restart reruns ([restart.rs]);
      [Acl] evaluates access rules and the scopes of job lists ([acl.rs]).

    [StepRepoProps], [JobRepoProps], [CascadeRows], [CascadeProps],
    [CascadeSpec], [CascadeLive], [CancelProps], [ConnectionsProps],
    [JobCreatorProps] and [ValidationProps] hold the theorems of the larger
    components, the other files end with their own; [Witnesses],
    [SupportWitnesses], [CreationWitnesses], [TriggerWitnesses],
    [ValidationWitnesses], [WorkerWitnesses] and [HookWitnesses] apply the
    theorems with hypotheses to a concrete job, database and configuration.

    ** What the theorems show

    - The flow: [validate_dag] accepts exactly when it returns a topological
      order, and its errors are truthful; the gate opens, waits or omits by
      the meaning of the tree; tree validation rejects exactly ill-formed
      trees.
    - Rows: terminal steps keep their verdict under every statement with a
      status guard (the unguarded ones are listed); a claim
      takes a matching ready step and nobody else can take it; the unmatched
      sweep is the complement of the claim; releases, leases and retries do
      what their comments promise; a job ends exactly once; keep sets cover
      every commit a live step needs.
    - Templates: an error message is a member of a closed list; a literal
      [json] value is not rendered and error positions are the author's; a ref
      value parses to the one spec it denotes.
    - Connections: a caller gets its own or a shared connection and nothing
      else, defaults are rendered once with the owner's secrets, the order of
      hash maps and the identity of a borrowed configuration do not matter;
      what a resolution puts under a secret property is masked.
    - Creation: one commit per owner and ref in a job; a committed creation
      has all its rows, each ready, pending or carried over as it should be;
      no panic on validated settings; no text of a rendered ref or of a loader
      in an answer.
    - The cascade: it terminates below its own pass bound, is idempotent,
      decides rightly about the final rows, touches nothing it should not and
      leaves no job stalled; the SQL statements refine the in-memory plan as
      long as every loop fits one insert (2184 items), and are refused as a
      whole otherwise; the retried transaction succeeds when one attempt is
      undisturbed.
    - Settlement: the verdict and output of a job; progress of one round;
      terminal side effects at most once and completely; tool results reach
      their agent; retry settings are honoured and delays bounded; a
      cancellation stops the whole tree, but for an agent step a tool job
      releases.
    - Dispatch: a task step has one dispatcher, which marks it before the
      child exists and pins the child to the stamp; a deferred step gets the
      commit its job already has for a ref; hook chains are bounded and every
      failure is reported to a hook once.
    - Triggers: no occurrence fires twice, a skipped fire leaves one row and
      no job, no text of a rendered target leaves the server; a pass over the
      event sources cancels exactly the superseded consumers and starts the
      missing ones, where at most one recent ended job is there.
    - Workers: a claim never leaves the step it took stranded; a registration
      stores known abilities only; the input of a claimed step is complete,
      with files as paths; visible errors are free of the owner's secrets; a
      container runs exactly the intended commands.
    - Validation: what is accepted is well formed, and the verdict does not
      depend on the order of hash maps; templates see the variables their
      scope has.
    - Recovery: exactly the silent workers are marked, and a step of theirs or
      past its timeout is failed or retried only under the claim that was
      seen; retention deletes only what is over and unused; at most one
      replica leads.
    - Files: an attached file keeps its row and its bytes through every
      interleaving; only granted files are attached; names are harmless and
      paths resolve to their file; needed tarballs survive.
    - Logs: a tail is the same from disk and from the archive, is the newest
      whole lines, and an archived log reads as the local one did.
    - Redaction: no known secret is left in masked text or in the content of a
      job response (identifier fields are served as they are), and the closure query finds every related commit or says that it cannot.
    - Restart sets, access decisions, list scopes, globs and durations are
      characterised completely.

    ** Conventions and bounds

    Machine integers are [Z] with their ranges and wrap-around written out
    where the code can leave them ([i32_wrap], [as_u64], saturating and checked
    operations). Strings are byte strings; a slice off a character boundary is
    an error value ([Panic]). The iteration order of a hash map is a parameter
    ([HashIter]), as are the database's collation ([Collation]), the template
    engine ([TemplateEngine], [Tera]), Unicode classes ([Unicode]), the JSON
    parser ([JsonParser]), the serde codecs of an action and of the agent state
    ([Serde], [AgentCodec]) and the clock ([now], an instant in
    microseconds). Loops that are not structural take fuel: the cascade's
    passes run under the bound the code computes, and the termination
    theorem of [CascadeSpec] shows that fewer are needed; Kahn's loop, the
    restart closure and the glob search get fuel from the size of their input,
    and their theorems exclude exhaustion. The line splitter, the backward
    scan and the search for occurrences get fuel from the bytes that are left,
    the closure query from its hop bounds, and the lemmas show that it is
    enough. The fuel of [Settlement.advance] and the depth of [cancel] are the
    nesting of calls (dispatch rounds, levels of the tree): the code recurses
    on the depth of the job tree. The cancellation theorem holds for any fuel
    and asks for the depth of the tree. Concurrent sessions are modelled by what each attempt finds in
    the database ([execute]) or by arbitrary events between calls
    ([run_events]).

    ** Not modelled

    The Tera engine, workspace and git storage, the pin store (listing, fetch,
    checkout and eviction on the local disk), the blob backends and gzip
    (parameters, with the laws the code relies on), the other HTTP handlers,
    authentication, the worker's processes and containers, the agent's loop
    with a model and the command line: I/O or third-party code. Paged listings
    and statistics queries of the repositories; full log downloads. Of the
    worker's interface the log and agent-tool handlers are left
    out; of the dispatch the hooks of steps suspended at a creation. *)
From stdpp Require Export base gmap strings list fin_maps sorting pretty.
From Stdlib Require Export ZArith.
From Stdlib Require Export Ascii.
From Stdlib Require Export Lia.

Declare Scope stroem_scope.
Delimit Scope stroem_scope with stroem.
Open Scope stroem_scope.

(** Lemmas the components register: rewriting of table lookups, and facts
    closed by [auto]. *)
Create HintDb stroem.
Create Rewrite HintDb stroem.

(** Boolean equality of values of a decidable type, as Rust's [==]. *)
Notation "x ==? y" := (bool_decide (x = y)) (at level 70, no associativity) : stroem_scope.
Notation "x <>? y" := (negb (bool_decide (x = y))) (at level 70, no associativity) : stroem_scope.

(** ** Fallible code: Rust's [Result] *)

Inductive result (E A : Type) : Type :=
| Ok (a : A)
| Err (e : E).
Arguments Ok {E A} a.
Arguments Err {E A} e.

Definition res_bind {E A B} (r : result E A) (f : A → result E B) : result E B :=
  match r with Ok a => f a | Err e => Err e end.

Definition res_map {E A B} (f : A → B) (r : result E A) : result E B :=
  match r with Ok a => Ok (f a) | Err e => Err e end.

Definition res_map_err {E F A} (f : E → F) (r : result E A) : result F A :=
  match r with Ok a => Ok a | Err e => Err (f e) end.

Definition res_ok {E A} (r : result E A) : option A :=
  match r with Ok a => Some a | Err _ => None end.

Definition is_ok {E A} (r : result E A) : bool :=
  match r with Ok _ => true | Err _ => false end.

Notation "'let?' x ':=' r 'in' k" := (res_bind r (λ x, k))
  (at level 10, x pattern, k at level 200) : stroem_scope.

Lemma res_bind_ok {E A B} (r : result E A) (f : A → result E B) b :
  res_bind r f = Ok b → ∃ a, r = Ok a ∧ f a = Ok b.
Proof. destruct r; naive_solver. Qed.

(** ** Record update

    [mk_setter eta proj] builds the function that replaces the field [proj]
    in the eta-expanded constructor [eta : R → R]. *)
Ltac mk_setter eta proj :=
  let e := eval cbv beta delta [eta] in eta in
  let t := eval pattern proj in e in
  match t with
  | ?f _ => let g := constr:(λ v r, f (λ _, v) r) in
            let g' := eval cbv beta in g in exact g'
  end.

(** Discharges the first premise of a hypothesis as a new goal. *)
Ltac feed H :=
  match type of H with
  | ?P → _ => let HP := fresh in assert (HP : P); [clear H|specialize (H HP); clear HP]
  end.

(** ** Machine integers *)

Definition u64_max : Z := 18446744073709551615.
Definition u64_modulus : Z := 18446744073709551616.
Definition i32_min : Z := -2147483648.
Definition i32_max : Z := 2147483647.

(** Two's-complement wrap to [i32], what an unchecked [+] gives in a release
    build. *)
Definition i32_wrap (z : Z) : Z := (z + 2147483648) `mod` 4294967296 - 2147483648.

(** [as u64]: sign extension followed by reinterpretation. *)
Definition as_u64 (z : Z) : Z := z `mod` u64_modulus.

Definition u64_saturating_add (a b : Z) : Z := Z.min u64_max (a + b).
Definition u64_saturating_mul (a b : Z) : Z := Z.min u64_max (a * b).
Definition u64_checked_mul (a b : Z) : option Z :=
  if Z.leb (a * b) u64_max then Some (a * b)%Z else None.

Definition is_u64 (z : Z) : Prop := (0 ≤ z ≤ u64_max)%Z.
Definition is_i32 (z : Z) : Prop := (i32_min ≤ z ≤ i32_max)%Z.

Lemma i32_wrap_id z : is_i32 z → i32_wrap z = z.
Proof.
  unfold is_i32, i32_min, i32_max, i32_wrap. intros H.
  rewrite Z.mod_small; lia.
Qed.

Lemma i32_wrap_range z : is_i32 (i32_wrap z).
Proof.
  unfold is_i32, i32_min, i32_max, i32_wrap.
  pose proof (Z.mod_pos_bound (z + 2147483648) 4294967296). lia.
Qed.

(** ** Stable sorts

    Insertion sort: an element goes before the first later element it is not
    above, so equal elements keep their order ([slice::sort_by]). *)

Section sort_by.
Context {A : Type} (leb : A → A → bool).

Fixpoint insert_by (x : A) (l : list A) : list A :=
  match l with
  | [] => [x]
  | y :: l' => if leb x y then x :: l else y :: insert_by x l'
  end.

Fixpoint sort_by (l : list A) : list A :=
  match l with
  | [] => []
  | x :: l' => insert_by x (sort_by l')
  end.

Lemma insert_by_perm x l : insert_by x l ≡ₚ x :: l.
Proof.
  induction l as [|y l IH]; simpl; [done|].
  destruct (leb x y); [done|].
  rewrite IH. apply Permutation_swap.
Qed.

Lemma sort_by_perm l : sort_by l ≡ₚ l.
Proof.
  induction l as [|x l IH]; simpl; [done|].
  by rewrite insert_by_perm, IH.
Qed.

Lemma elem_of_sort_by x l : x ∈ sort_by l ↔ x ∈ l.
Proof. by rewrite sort_by_perm. Qed.

Lemma sort_by_nil l : sort_by l = [] ↔ l = [].
Proof.
  split; [|by intros ->].
  intros H. apply Permutation_nil. by rewrite <-(sort_by_perm l), H.
Qed.
End sort_by.

(** [slice::sort_by_key] with an integer key. *)
Definition sort_by_key {A} (key : A → Z) : list A → list A :=
  sort_by (λ x y, Z.leb (key x) (key y)).

Lemma insert_by_sorted {A} (key : A → Z) x l :
  StronglySorted (λ a b, key a ≤ key b)%Z l →
  StronglySorted (λ a b, key a ≤ key b)%Z (insert_by (λ a b, Z.leb (key a) (key b)) x l).
Proof.
  induction 1 as [|y l Hs IH Hy]; simpl; [by repeat constructor|].
  destruct (Z.leb_spec (key x) (key y)).
  - constructor; [by constructor|]. constructor; [done|]. eapply Forall_impl; [done|]. simpl. lia.
  - constructor; [done|]. rewrite insert_by_perm. constructor; [lia|done].
Qed.

Lemma sort_by_key_sorted {A} (key : A → Z) l :
  StronglySorted (λ a b, key a ≤ key b)%Z (sort_by_key key l).
Proof.
  unfold sort_by_key. induction l as [|x l IH]; simpl; [constructor|]. by apply insert_by_sorted.
Qed.

Lemma StronglySorted_impl {A} (R S : A → A → Prop) l :
  (∀ a b, R a b → S a b) → StronglySorted R l → StronglySorted S l.
Proof.
  intros HRS. induction 1 as [|a l Hs IH Ha]; constructor; [done|].
  eapply Forall_impl; [done|]. auto.
Qed.

(** A strictly increasing list of naturals without gaps counts from its start. *)
Lemma increasing_no_gaps (ks : list nat) a :
  StronglySorted lt ks → Forall (λ k, a ≤ k)%nat ks →
  (∀ k j, k ∈ ks → (a ≤ j ≤ k)%nat → j ∈ ks) → ks = seq a (length ks).
Proof.
  intros Hs. revert a. induction Hs as [|k ks Hs IH Hk]; intros a Ha Hc; [done|]. simpl.
  apply Forall_cons in Ha as [Hka Ha]. rewrite Forall_forall in Hk.
  assert (k = a) as ->.
  { assert (a ∈ k :: ks) as [->|Hin]%elem_of_cons; [apply (Hc k); [left|lia]|done|].
    specialize (Hk a Hin). lia. }
  f_equal. apply IH.
  - apply Forall_forall. intros j Hj. specialize (Hk j Hj). lia.
  - intros k j Hin Hj. assert (j ∈ a :: ks) as [->|]%elem_of_cons; [apply (Hc k); [by right|lia]|lia|done].
Qed.

(** A text collation of the database ([ORDER BY] on a text column): which one
    it is depends on the server's locale, so definitions that order by text
    take it as an argument. *)
Class Collation := text_leb : string → string → bool.

(** ** Lists *)

Lemma filter_nil_iff {A} (P : A → Prop) `{∀ x, Decision (P x)} (l : list A) :
  filter P l = [] ↔ Forall (λ x, ¬ P x) l.
Proof.
  split.
  - intros Hnil. apply Forall_forall. intros x Hx HP. by eapply filter_nil_not_elem_of.
  - induction 1; [done|]. by rewrite filter_cons_False.
Qed.

Lemma forallb_Forall' {A} (f : A → bool) l : forallb f l = true ↔ Forall (λ x, f x = true) l.
Proof.
  induction l as [|x l IH]; simpl; [split; [constructor|done]|].
  by rewrite andb_true_iff, Forall_cons, IH.
Qed.

Lemma existsb_exists' {A} (f : A → bool) l : existsb f l = true ↔ ∃ x, x ∈ l ∧ f x = true.
Proof.
  rewrite existsb_exists. split; intros (x & Hin & Hx); exists x;
    split; auto; by apply list_elem_of_In.
Qed.

Lemma forallb_false_exists {A} (f : A → bool) l : forallb f l = false ↔ ∃ x, x ∈ l ∧ f x = false.
Proof.
  induction l as [|y l IH]; simpl; [split; [done|by intros (x & ?%elem_of_nil & _)]|].
  rewrite andb_false_iff, IH. setoid_rewrite elem_of_cons. naive_solver.
Qed.

Lemma existsb_false_Forall {A} (f : A → bool) l : existsb f l = false ↔ Forall (λ x, f x = false) l.
Proof.
  induction l as [|x l IH]; simpl; [split; [constructor|done]|].
  by rewrite orb_false_iff, Forall_cons, IH.
Qed.

Lemma elem_of_flat_map {A B} (f : A → list B) l y :
  y ∈ flat_map f l ↔ ∃ x, x ∈ l ∧ y ∈ f x.
Proof.
  induction l as [|a l IH]; simpl; [split; [by intros ?%elem_of_nil|]|].
  { intros (x & ?%elem_of_nil & _). done. }
  rewrite elem_of_app, IH. split.
  - intros [?|(x & ? & ?)]; [exists a; split; [by left|done]|exists x; split; [by right|done]].
  - intros (x & [->|?]%elem_of_cons & ?); eauto.
Qed.

Lemma elem_of_lfilter {A} (f : A → bool) l x : x ∈ List.filter f l ↔ x ∈ l ∧ f x = true.
Proof. rewrite !list_elem_of_In. apply filter_In. Qed.

Lemma lfilter_none {A} (f : A → bool) l : Forall (λ x, f x = false) l → List.filter f l = [].
Proof. induction 1 as [|x l Hx Hl IH]; simpl; [done|by rewrite Hx]. Qed.

(** ** Strings as byte sequences *)

(** [haystack.contains(needle)] *)
Fixpoint str_contains (needle hay : string) : bool :=
  String.prefix needle hay ||
  match hay with
  | EmptyString => false
  | String _ t => str_contains needle t
  end.

(** [s.find(c)] for an ASCII [c]: the byte offset of the first occurrence. *)
Fixpoint str_find (c : ascii) (s : string) : option nat :=
  match s with
  | EmptyString => None
  | String d t => if bool_decide (c = d) then Some 0%nat else S <$> str_find c t
  end.

(** [&s[..n]] and [&s[n..]] on byte offsets. *)
Fixpoint str_take (n : nat) (s : string) : string :=
  match n, s with
  | S n', String c t => String c (str_take n' t)
  | _, _ => EmptyString
  end.
Fixpoint str_drop (n : nat) (s : string) : string :=
  match n, s with
  | S n', String _ t => str_drop n' t
  | _, _ => s
  end.

(** [s.starts_with(p)], [s.ends_with(p)]. *)
Definition starts_with (p s : string) : bool := String.prefix p s.
Definition ends_with (p s : string) : bool :=
  (String.length p <=? String.length s)%nat &&
  (str_drop (String.length s - String.length p) s ==? p).

(** [v.join(sep)] *)
Fixpoint str_join (sep : string) (l : list string) : string :=
  match l with
  | [] => ""
  | [x] => x
  | x :: l' => x +:+ sep +:+ str_join sep l'
  end.

(** The step name of a loop instance, [format!("{}[{}]", name, i)]. *)
Definition instance_name (p : string) (i : nat) : string :=
  p +:+ "[" +:+ pretty i +:+ "]".

(** ** HashMap iteration

    Rust's [HashMap] iterates in an unspecified order. A definition that
    iterates a map takes the enumeration from this class, whose law is all the
    order guarantees: each entry once. *)
Class HashIter := {
  hash_iter {V : Type} : gmap string V → list (string * V);
  hash_iter_perm {V : Type} (m : gmap string V) : hash_iter m ≡ₚ map_to_list m;
}.

Definition hash_keys `{HashIter} {V} (m : gmap string V) : list string := (hash_iter m).*1.

(** One admissible order, used by the concrete witnesses. *)
#[export] Instance map_to_list_iter : HashIter | 100 :=
  {| hash_iter V m := map_to_list m; hash_iter_perm V m := Permutation_refl _ |}.

Section hash_iter_facts.
Context `{HashIter} {V : Type}.
Implicit Types m : gmap string V.

Lemma elem_of_hash_iter m k v : (k, v) ∈ hash_iter m ↔ m !! k = Some v.
Proof. by rewrite hash_iter_perm, elem_of_map_to_list. Qed.

Lemma elem_of_hash_keys m k : k ∈ hash_keys m ↔ is_Some (m !! k).
Proof.
  unfold hash_keys. rewrite list_elem_of_fmap. split.
  - intros ([k' v] & -> & Hin%elem_of_hash_iter). eauto.
  - intros [v Hv]. exists (k, v). by rewrite elem_of_hash_iter.
Qed.

Lemma NoDup_hash_keys m : NoDup (hash_keys m).
Proof. unfold hash_keys. rewrite hash_iter_perm. apply NoDup_fst_map_to_list. Qed.

Lemma length_hash_keys m : length (hash_keys m) = size m.
Proof.
  unfold hash_keys. rewrite length_fmap, hash_iter_perm. apply length_map_to_list.
Qed.
End hash_iter_facts.

(** ** Loop instance names are injective *)

(** The bytes of a string. *)
Fixpoint bytes (s : string) : list ascii :=
  match s with EmptyString => [] | String c t => c :: bytes t end.

Lemma bytes_app s t : bytes (s +:+ t) = bytes s ++ bytes t.
Proof. induction s as [|c s IH]; simpl; [done|by rewrite IH]. Qed.

#[export] Instance bytes_inj : Inj (=) (=) bytes.
Proof.
  intros s; induction s as [|c s IH]; intros [|d t]; simpl; try done.
  intros [= -> E]. f_equal. by apply IH.
Qed.

Lemma length_bytes s : length (bytes s) = String.length s.
Proof. induction s; simpl; auto. Qed.

Definition is_digit (c : ascii) : bool :=
  (48 <=? N_of_ascii c)%N && (N_of_ascii c <=? 57)%N.

Lemma pretty_N_char_digit x : is_digit (pretty_N_char x) = true.
Proof. unfold pretty_N_char. repeat case_match; reflexivity. Qed.

Lemma pretty_N_go_digits x s :
  Forall (λ c, is_digit c = true) (bytes s) →
  Forall (λ c, is_digit c = true) (bytes (pretty_N_go x s)).
Proof.
  revert s. induction (N.lt_wf_0 x) as [x _ IH]; intros s Hs.
  destruct (decide (x = 0)%N) as [->|]; [by rewrite pretty_N_go_0|].
  rewrite pretty_N_go_step by lia. apply IH.
  - apply N.div_lt; lia.
  - simpl. constructor; [apply pretty_N_char_digit|done].
Qed.

Lemma pretty_nat_digits (n : nat) : Forall (λ c, is_digit c = true) (bytes (pretty n)).
Proof.
  unfold pretty, pretty_nat, pretty, pretty_N. case_decide; simpl.
  - by repeat constructor.
  - apply pretty_N_go_digits. constructor.
Qed.

Lemma app_cons_sep_inj {A} (x : A) l1 l2 d1 d2 :
  x ∉ d1 → x ∉ d2 → l1 ++ x :: d1 = l2 ++ x :: d2 → l1 = l2 ∧ d1 = d2.
Proof.
  revert l2. induction l1 as [|a l1 IH]; intros [|b l2] H1 H2; simpl.
  - by intros [= ->].
  - intros [= -> ->]. destruct H1. apply elem_of_app. right. by left.
  - intros [= -> <-]. destruct H2. apply elem_of_app. right. by left.
  - intros [= -> E]. by apply IH in E as [-> ->].
Qed.

Lemma instance_name_inj p1 p2 i1 i2 :
  instance_name p1 i1 = instance_name p2 i2 → p1 = p2 ∧ i1 = i2.
Proof.
  intros E%(f_equal bytes). unfold instance_name in E.
  rewrite !bytes_app in E. simpl in E.
  assert (Hd : ∀ i : nat, "["%char ∉ bytes (pretty i) ++ ["]"%char]).
  { intros i [Hin|Hin]%elem_of_app; [|by apply list_elem_of_singleton in Hin].
    pose proof (pretty_nat_digits i) as Hall. rewrite Forall_forall in Hall.
    by specialize (Hall _ Hin). }
  apply app_cons_sep_inj in E as [Ep%(inj bytes) Ei]; [|apply Hd..].
  apply app_inj_tail in Ei as [Ei%(inj bytes) _].
  split; [done|]. by apply (inj (pretty : nat → string)).
Qed.
