(* ===== verification/Json.v ===== *)
(** * JSON values

    [serde_json::Value] as the sources use it: the six variants, numbers as
    serde_json stores them (a [u64], a negative [i64] or the bits of an
    [f64]), objects as key-ordered maps (the workspace builds serde_json
    without [preserve_order], so [Map] is a [BTreeMap]: keys in byte order,
    each once). [json_type_name] is [template.rs]'s helper; [json_to_strings]
    is [serde_json::from_value::<Vec<String>>]. *)
From S2P Require Import Prelude.

Inductive json_number : Type :=
| PosInt (n : N)
| NegInt (z : Z)
| Float (bits : N).

Inductive json : Type :=
| JNull
| JBool (b : bool)
| JNumber (n : json_number)
| JString (s : string)
| JArray (l : list json)
| JObject (m : list (string * json)).

Definition json_type_name (v : json) : string :=
  match v with
  | JNull => "null"
  | JBool _ => "boolean"
  | JNumber _ => "number"
  | JString _ => "string"
  | JArray _ => "array"
  | JObject _ => "object"
  end.

(** [serde_json::to_value(&Vec<String>)] *)
Definition strings_to_json (l : list string) : json := JArray (JString <$> l).

(** [serde_json::from_value::<Vec<String>>(v).ok()] *)
Definition json_to_strings (v : json) : option (list string) :=
  match v with
  | JArray l => mapM (λ x, match x with JString s => Some s | _ => None end) l
  | _ => None
  end.

Lemma json_to_strings_to_json l : json_to_strings (strings_to_json l) = Some l.
Proof.
  unfold strings_to_json. simpl. induction l as [|x l IH]; simpl; [done|].
  unfold fmap in IH. by rewrite IH.
Qed.

(** [Map::insert] on a [BTreeMap]: key order kept, an existing key replaced. *)
Fixpoint json_map_insert (k : string) (v : json) (m : list (string * json)) : list (string * json) :=
  match m with
  | [] => [(k, v)]
  | (k', v') :: m' =>
      match String.compare k k' with
      | Lt => (k, v) :: m
      | Eq => (k, v) :: m'
      | Gt => (k', v') :: json_map_insert k v m'
      end
  end.

Fixpoint json_map_lookup (k : string) (m : list (string * json)) : option json :=
  match m with
  | [] => None
  | (k', v) :: m' => if bool_decide (k = k') then Some v else json_map_lookup k m'
  end.

Lemma string_compare_refl s : String.compare s s = Eq.
Proof.
  induction s as [|c s IH]; simpl; [done|].
  unfold Ascii.compare. by rewrite N.compare_refl.
Qed.

Lemma json_map_lookup_insert k v m : json_map_lookup k (json_map_insert k v m) = Some v.
Proof.
  induction m as [|[k' v'] m IH]; simpl; [by rewrite bool_decide_true|].
  destruct (String.compare k k') eqn:E; simpl.
  - by rewrite bool_decide_true.
  - by rewrite bool_decide_true.
  - case_bool_decide as Hk; [|done]. subst.
    by rewrite string_compare_refl in E.
Qed.

Lemma json_map_lookup_insert_ne k k' v m :
  k ≠ k' → json_map_lookup k' (json_map_insert k v m) = json_map_lookup k' m.
Proof.
  intros Hne. induction m as [|[k2 v2] m IH]; simpl; [by rewrite bool_decide_false|].
  destruct (String.compare k k2) eqn:E; simpl.
  - apply String.compare_eq_iff in E as ->. by rewrite !bool_decide_false.
  - by rewrite (bool_decide_false (k' = k)).
  - case_bool_decide; [done|apply IH].
Qed.

Lemma json_ind' (P : json → Prop) :
  P JNull → (∀ b, P (JBool b)) → (∀ n, P (JNumber n)) → (∀ s, P (JString s)) →
  (∀ l, Forall P l → P (JArray l)) → (∀ m, Forall (λ e, P e.2) m → P (JObject m)) → ∀ v, P v.
Proof.
  intros H1 H2 H3 H4 H5 H6. fix IH 1. intros [|b|n|s|l|m]; [exact H1|apply H2|apply H3|apply H4|..].
  - apply H5. induction l as [|v l IHl]; constructor; [apply IH|apply IHl].
  - apply H6. induction m as [|[k v] m IHm]; constructor; [apply IH|apply IHm].
Qed.

(** [Value]'s [==]; the two zeroes of an [f64] are equal. *)
Definition number_eqb (a b : json_number) : bool :=
  match a, b with
  | PosInt m, PosInt n => (m =? n)%N
  | NegInt m, NegInt n => (m =? n)%Z
  | Float m, Float n => (m =? n)%N || ((N.land m (2 ^ 63 - 1) =? 0)%N && (N.land n (2 ^ 63 - 1) =? 0)%N)
  | _, _ => false
  end.
Fixpoint json_eqb (a b : json) : bool :=
  match a, b with
  | JNull, JNull => true
  | JBool x, JBool y => Bool.eqb x y
  | JNumber m, JNumber n => number_eqb m n
  | JString s, JString t => bool_decide (s = t)
  | JArray l, JArray l' =>
      (fix go (l l' : list json) : bool :=
         match l, l' with [], [] => true | x :: l, y :: l' => json_eqb x y && go l l' | _, _ => false end) l l'
  | JObject m, JObject m' =>
      (fix go (m m' : list (string * json)) : bool :=
         match m, m' with
         | [], [] => true
         | (k, x) :: m, (k', y) :: m' => bool_decide (k = k') && json_eqb x y && go m m'
         | _, _ => false
         end) m m'
  | _, _ => false
  end.

Lemma json_eqb_refl v : json_eqb v v = true.
Proof.
  induction v as [|b|n|s|l IH|m IH] using json_ind'; cbn [json_eqb]; [done|by destruct b| |by apply bool_decide_eq_true| |].
  - destruct n; cbn [number_eqb]; [apply N.eqb_refl|apply Z.eqb_refl|by rewrite N.eqb_refl].
  - induction IH as [|x l Hx _ IH]; [done|]. by rewrite Hx, IH.
  - induction IH as [|[k x] m Hx _ IH]; [done|]. simpl in Hx. by rewrite bool_decide_true, Hx, IH.
Qed.

(** ** Parsing *)

(** A serde_json parse error: what its message shows of it. *)
Record JsonError := mkJsonError { je_classify : string; je_line : nat; je_column : nat }.

Class JsonParser := json_from_str : string → result JsonError json.

(** ** Objects as maps *)

Abbreviation jmap := (list (string * json)).

(** [Map::remove] *)
Fixpoint json_map_remove (k : string) (m : jmap) : jmap :=
  match m with
  | [] => []
  | (k', v) :: m' => if bool_decide (k = k') then m' else (k', v) :: json_map_remove k m'
  end.

(** [v.as_object()], its entries or none; [v.get(k)]. *)
Definition entries (v : json) : jmap := match v with JObject m => m | _ => [] end.
Definition json_get (k : string) (v : json) : option json := match v with JObject m => json_map_lookup k m | _ => None end.
Definition is_object (v : json) : bool := match v with JObject _ => true | _ => false end.
Definition is_array (v : json) : bool := match v with JArray _ => true | _ => false end.
Definition as_str (v : json) : option string := match v with JString s => Some s | _ => None end.

(** A [HashMap]'s JSON object. *)
Definition object_of (m : gmap string json) : json :=
  JObject (fold_left (λ acc '(k, v), json_map_insert k v acc) (map_to_list m) []).

(** Keys in strict byte order, the invariant of a [BTreeMap]. *)
Definition key_lt (a b : string) : Prop := String.compare a b = Lt.
Definition sorted_map (m : jmap) : Prop := StronglySorted key_lt m.*1.

Lemma string_compare_antisym s t : String.compare s t = CompOpp (String.compare t s).
Proof. apply String.compare_antisym. Qed.

Lemma key_lt_irrefl s : ¬ key_lt s s.
Proof. unfold key_lt. by rewrite string_compare_refl. Qed.

Lemma ascii_compare_trans (a b c : ascii) : Ascii.compare a b = Lt → Ascii.compare b c = Lt → Ascii.compare a c = Lt.
Proof. unfold Ascii.compare. rewrite !N.compare_lt_iff. lia. Qed.

Lemma ascii_compare_eq (a b : ascii) : Ascii.compare a b = Eq → a = b.
Proof.
  unfold Ascii.compare. rewrite N.compare_eq_iff. intros E.
  by rewrite <-(ascii_N_embedding a), E, ascii_N_embedding.
Qed.

Lemma key_lt_trans s t u : key_lt s t → key_lt t u → key_lt s u.
Proof.
  unfold key_lt. revert t u. induction s as [|a s IH]; intros [|b t] [|c u]; simpl; try done.
  destruct (Ascii.compare a b) eqn:E1; try done.
  - apply ascii_compare_eq in E1 as ->. destruct (Ascii.compare b c) eqn:E2; try done. apply IH.
  - intros _. destruct (Ascii.compare b c) eqn:E2; try done.
    + apply ascii_compare_eq in E2 as ->. by rewrite E1.
    + by rewrite (ascii_compare_trans _ _ _ E1 E2).
Qed.

Lemma key_gt_lt s t : String.compare s t = Gt → key_lt t s.
Proof. unfold key_lt. rewrite (string_compare_antisym t s). intros ->. done. Qed.

Lemma insert_keys k v m x : x ∈ (json_map_insert k v m).*1 → x = k ∨ x ∈ m.*1.
Proof.
  induction m as [|[k' v'] m IH]; simpl; [rewrite list_elem_of_singleton; auto|].
  destruct (String.compare k k'); simpl; rewrite !elem_of_cons; naive_solver.
Qed.

Lemma json_map_insert_sorted k v m : sorted_map m → sorted_map (json_map_insert k v m).
Proof.
  unfold sorted_map. induction m as [|[k' v'] m IH]; simpl; [intros; by repeat constructor|].
  intros Hs. apply StronglySorted_inv in Hs as [Hs Hk].
  destruct (String.compare k k') eqn:E; simpl.
  - apply String.compare_eq_iff in E as ->. by constructor.
  - constructor; [by constructor|]. constructor; [done|]. eapply Forall_impl; [done|].
    intros x Hx. by eapply key_lt_trans.
  - constructor; [by apply IH|]. apply Forall_forall. intros x Hx. apply insert_keys in Hx as [->|Hx].
    + by apply key_gt_lt.
    + rewrite Forall_forall in Hk. by apply Hk.
Qed.

Lemma remove_keys k m x : x ∈ (json_map_remove k m).*1 → x ∈ m.*1.
Proof.
  induction m as [|[k' v'] m IH]; simpl; [done|]. case_bool_decide; simpl; rewrite ?elem_of_cons; naive_solver.
Qed.

Lemma json_map_remove_sorted k m : sorted_map m → sorted_map (json_map_remove k m).
Proof.
  unfold sorted_map. induction m as [|[k' v'] m IH]; simpl; [done|].
  intros Hs. apply StronglySorted_inv in Hs as [Hs Hk]. case_bool_decide; [done|]. simpl.
  constructor; [by apply IH|]. apply Forall_forall. intros x Hx%remove_keys. rewrite Forall_forall in Hk. by apply Hk.
Qed.

Lemma json_map_lookup_key k m v : json_map_lookup k m = Some v → k ∈ m.*1.
Proof.
  induction m as [|[k' v'] m IH]; simpl; [done|]. case_bool_decide; rewrite elem_of_cons; naive_solver.
Qed.

Lemma json_map_lookup_remove k m : sorted_map m → json_map_lookup k (json_map_remove k m) = None.
Proof.
  unfold sorted_map. induction m as [|[k' v'] m IH]; simpl; [done|]. intros Hs.
  apply StronglySorted_inv in Hs as [Hs Hk]. case_bool_decide as E.
  - subst. destruct (json_map_lookup k' m) eqn:El; [|done]. apply json_map_lookup_key in El.
    rewrite Forall_forall in Hk. by destruct (key_lt_irrefl k'); apply Hk.
  - simpl. rewrite bool_decide_false by done. by apply IH.
Qed.

Lemma json_map_lookup_remove_ne k k' m : k ≠ k' → json_map_lookup k' (json_map_remove k m) = json_map_lookup k' m.
Proof.
  intros Hne. induction m as [|[k2 v2] m IH]; simpl; [done|].
  case_bool_decide as E; simpl; [subst; by rewrite bool_decide_false|]. by rewrite IH.
Qed.

(** Two objects with the same lookups are the same object. *)
Lemma json_map_ext m m' :
  sorted_map m → sorted_map m' → (∀ k, json_map_lookup k m = json_map_lookup k m') → m = m'.
Proof.
  unfold sorted_map. revert m'. induction m as [|[k v] m IH]; intros [|[k' v'] m'] Hs Hs' Hl; simpl in *; [done|..].
  - specialize (Hl k'). by rewrite bool_decide_true in Hl.
  - specialize (Hl k). by rewrite bool_decide_true in Hl.
  - apply StronglySorted_inv in Hs as [Hs Hk], Hs' as [Hs' Hk']. rewrite Forall_forall in Hk, Hk'.
    assert (k = k') as <-.
    { destruct (decide (k = k')) as [|Hne]; [done|]. exfalso.
      pose proof (Hl k) as H1. pose proof (Hl k') as H2.
      rewrite bool_decide_true, bool_decide_false in H1 by done. symmetry in H1.
      rewrite (bool_decide_true (k' = k')), bool_decide_false in H2 by congruence.
      apply json_map_lookup_key, Hk' in H1. apply json_map_lookup_key, Hk in H2.
      apply (key_lt_irrefl k). by apply (key_lt_trans k k' k). }
    assert (v = v') as <- by (specialize (Hl k); rewrite !bool_decide_true in Hl by done; congruence).
    f_equal. apply IH; [done..|]. intros j. destruct (decide (j = k)) as [->|Hne].
    + destruct (json_map_lookup k m) eqn:E1, (json_map_lookup k m') eqn:E2; try done.
      all: exfalso; apply (key_lt_irrefl k);
        first [apply json_map_lookup_key, Hk in E1|apply json_map_lookup_key, Hk' in E2]; done.
    + specialize (Hl j). by rewrite !bool_decide_false in Hl.
Qed.

(** ** One pass over the fields of a schema

    The loops over an input schema read and write only the entry of the field
    they are at: a field is left, put or dropped. *)
Inductive Upd := Keep | Put (v : json) | Drop.

Definition apply_upd (u : Upd) (k : string) (m : jmap) : jmap :=
  match u with Keep => m | Put v => json_map_insert k v m | Drop => json_map_remove k m end.
Definition upd_value (u : Upd) (old : option json) : option json :=
  match u with Keep => old | Put v => Some v | Drop => None end.

Section per_field.
Context {E D : Type} (g : string → D → option json → result E Upd).

Fixpoint per_field (fields : list (string * D)) (m : jmap) : result E jmap :=
  match fields with
  | [] => Ok m
  | (k, d) :: rest =>
      match g k d (json_map_lookup k m) with
      | Ok u => per_field rest (apply_upd u k m)
      | Err e => Err e
      end
  end.

Lemma apply_upd_sorted u k m : sorted_map m → sorted_map (apply_upd u k m).
Proof. destruct u; simpl; auto using json_map_insert_sorted, json_map_remove_sorted. Qed.

Lemma apply_upd_lookup u k m : sorted_map m → json_map_lookup k (apply_upd u k m) = upd_value u (json_map_lookup k m).
Proof. destruct u; simpl; auto using json_map_lookup_insert, json_map_lookup_remove. Qed.

Lemma apply_upd_lookup_ne u k k' m : k ≠ k' → json_map_lookup k' (apply_upd u k m) = json_map_lookup k' m.
Proof. destruct u; simpl; auto using json_map_lookup_insert_ne, json_map_lookup_remove_ne. Qed.

(** What the pass did, field by field. *)
Definition field_done (fields : list (string * D)) (m m' : jmap) (k : string) : Prop :=
  (∀ d, (k, d) ∈ fields → ∃ u, g k d (json_map_lookup k m) = Ok u ∧ json_map_lookup k m' = upd_value u (json_map_lookup k m)) ∧
  (k ∉ fields.*1 → json_map_lookup k m' = json_map_lookup k m).

Lemma per_field_ok fields m m' :
  NoDup fields.*1 → sorted_map m → per_field fields m = Ok m' → sorted_map m' ∧ ∀ k, field_done fields m m' k.
Proof.
  revert m. induction fields as [|[k d] rest IH]; simpl; intros m Hnd Hs.
  { intros [= <-]. split; [done|]. intros k. split; [by intros d ?%elem_of_nil|done]. }
  apply NoDup_cons in Hnd as [Hk Hnd]. destruct (g k d _) as [u|e] eqn:Eg; [|done].
  intros H. apply IH in H as [Hs' Hd]; [|done|by apply apply_upd_sorted]. split; [done|].
  intros j. destruct (Hd j) as [H1 H2]. destruct (decide (j = k)) as [->|Hne].
  - split.
    + intros d' [[= ->]|Hin]%elem_of_cons.
      * exists u. split; [done|]. rewrite H2 by done. by apply apply_upd_lookup.
      * destruct Hk. apply list_elem_of_fmap. by exists (k, d').
    + intros Hno. destruct Hno. simpl. by left.
  - rewrite apply_upd_lookup_ne in H1, H2 by done. split.
    + intros d' [[= -> ->]|Hin]%elem_of_cons; [done|]. by apply H1.
    + simpl. intros Hno. apply H2. intros Hin. apply Hno. by right.
Qed.

(** It succeeds when no field fails. *)
Lemma per_field_succeeds fields m :
  NoDup fields.*1 → (∀ k d, (k, d) ∈ fields → is_ok (g k d (json_map_lookup k m)) = true) →
  ∃ m', per_field fields m = Ok m'.
Proof.
  revert m. induction fields as [|[k d] rest IH]; simpl; intros m Hnd Hok; [by eexists|].
  apply NoDup_cons in Hnd as [Hk Hnd]. pose proof (Hok k d ltac:(by left)) as H0.
  destruct (g k d _) as [u|e]; [|done]. apply IH; [done|]. intros j d' Hin.
  rewrite apply_upd_lookup_ne; [apply Hok; by right|].
  intros <-. destruct Hk. apply list_elem_of_fmap. by exists (k, d').
Qed.
End per_field.

(** The order the fields are visited in does not matter to the result. *)
Lemma per_field_perm {E D} (g : string → D → option json → result E Upd) f1 f2 m m1 :
  f1 ≡ₚ f2 → NoDup f1.*1 → sorted_map m → per_field g f1 m = Ok m1 → per_field g f2 m = Ok m1.
Proof.
  intros Hp Hnd Hs H1. assert (Hnd2 : NoDup f2.*1) by by rewrite <-Hp.
  destruct (per_field_ok g f1 m m1 Hnd Hs H1) as [Hs1 Hd1].
  destruct (per_field_succeeds g f2 m Hnd2) as [m2 H2].
  { intros k d Hin. rewrite <-Hp in Hin. destruct (Hd1 k) as [Hk _]. by destruct (Hk d Hin) as (u & -> & _). }
  rewrite H2. f_equal. destruct (per_field_ok g f2 m m2 Hnd2 Hs H2) as [Hs2 Hd2].
  apply json_map_ext; [done..|]. intros k. destruct (Hd1 k) as [Ha Hb], (Hd2 k) as [Hc He].
  destruct (decide (k ∈ f1.*1)) as [Hin|Hno].
  - apply list_elem_of_fmap in Hin as ([k' d] & -> & Hin). simpl in *.
    destruct (Ha d Hin) as (u & Eu & ->). rewrite Hp in Hin. destruct (Hc d Hin) as (u' & Eu' & ->). congruence.
  - rewrite Hb by done. apply He. by rewrite <-Hp.
Qed.
