(* ===== verification/Text.v ===== *)
(** * Text operations of Rust's standard library

    What the sources use of [str]: [trim], ASCII case folding, the decimal
    parsers. A string is its UTF-8 bytes. *)
From S2P Require Import Prelude.

Fixpoint of_bytes (l : list ascii) : string :=
  match l with [] => EmptyString | c :: l' => String c (of_bytes l') end.

Lemma of_bytes_bytes s : of_bytes (bytes s) = s.
Proof. induction s; simpl; by f_equal. Qed.

Lemma bytes_of_bytes l : bytes (of_bytes l) = l.
Proof. induction l; simpl; by f_equal. Qed.

(** ** [str::trim] *)

Definition byte_is (n : N) (c : ascii) : bool := N.eqb (N_of_ascii c) n.
Definition byte_in (lo hi : N) (c : ascii) : bool :=
  N.leb lo (N_of_ascii c) && N.leb (N_of_ascii c) hi.

(** The White_Space code points and their encodings: U+0009..000D, U+0020,
    U+0085, U+00A0, U+1680, U+2000..200A, U+2028, U+2029, U+202F, U+205F,
    U+3000. *)
Definition is_ws1 (a : ascii) : bool := byte_in 9 13 a || byte_is 32 a.
Definition is_ws2 (a b : ascii) : bool := byte_is 194 a && (byte_is 133 b || byte_is 160 b).
Definition is_ws3 (a b c : ascii) : bool :=
  (byte_is 225 a && byte_is 154 b && byte_is 128 c) ||
  (byte_is 226 a && byte_is 128 b &&
     (byte_in 128 138 c || byte_is 168 c || byte_is 169 c || byte_is 175 c)) ||
  (byte_is 226 a && byte_is 129 b && byte_is 159 c) ||
  (byte_is 227 a && byte_is 128 b && byte_is 128 c).

Fixpoint trim_start_bytes (l : list ascii) : list ascii :=
  match l with
  | a :: l1 =>
      if is_ws1 a then trim_start_bytes l1
      else match l1 with
           | b :: l2 =>
               if is_ws2 a b then trim_start_bytes l2
               else match l2 with
                    | c :: l3 => if is_ws3 a b c then trim_start_bytes l3 else l
                    | [] => l
                    end
           | [] => l
           end
  | [] => []
  end.

(** The same from the end, on the reversed bytes: the lead byte comes last. *)
Fixpoint trim_end_rev (l : list ascii) : list ascii :=
  match l with
  | a :: l1 =>
      if is_ws1 a then trim_end_rev l1
      else match l1 with
           | b :: l2 =>
               if is_ws2 b a then trim_end_rev l2
               else match l2 with
                    | c :: l3 => if is_ws3 c b a then trim_end_rev l3 else l
                    | [] => l
                    end
           | [] => l
           end
  | [] => []
  end.

Definition trim (s : string) : string :=
  of_bytes (rev (trim_end_rev (rev (trim_start_bytes (bytes s))))).

(** ** Prefixes and pieces *)

(** [s.strip_prefix(p)] *)
Definition strip_prefix_str (p s : string) : option string :=
  if starts_with p s then Some (str_drop (String.length p) s) else None.

(** [s.split(sep)] for an ASCII separator *)
Fixpoint split_on (sep : ascii) (l : list ascii) : list (list ascii) :=
  match l with
  | [] => [[]]
  | c :: l' =>
      match split_on sep l' with
      | x :: xs => if c ==? sep then [] :: x :: xs else (c :: x) :: xs
      | [] => [[c]]
      end
  end.

(** ** Case *)

Definition ascii_lower (c : ascii) : ascii :=
  if byte_in 65 90 c then ascii_of_N (N_of_ascii c + 32) else c.
Definition to_ascii_lowercase (s : string) : string := of_bytes (map ascii_lower (bytes s)).

(** ** Decimal numbers *)

Definition digit_value (c : ascii) : Z := Z.of_N (N_of_ascii c) - 48.

(** The leading digits and the rest. *)
Fixpoint span_digits (l : list ascii) : list ascii * list ascii :=
  match l with
  | c :: l' => if is_digit c then let '(d, r) := span_digits l' in (c :: d, r) else ([], l)
  | [] => ([], [])
  end.

Definition digits_value (l : list ascii) : Z := fold_left (λ a c, 10 * a + digit_value c)%Z l 0%Z.

(** [str::parse::<u64>]: an optional [+], then one or more digits, [None] on
    anything else and on overflow. *)
Definition parse_u64 (s : string) : option Z :=
  let l := match bytes s with c :: l' => if byte_is 43 c then l' else bytes s | [] => [] end in
  match span_digits l with
  | (d, []) =>
      if bool_decide (d = []) then None
      else if (digits_value d <=? u64_max)%Z then Some (digits_value d) else None
  | _ => None
  end.

(** The sign a number may start with. *)
Definition strip_sign (l : list ascii) : bool * list ascii :=
  match l with
  | c :: l' => if byte_is 43 c then (false, l') else if byte_is 45 c then (true, l') else (false, l)
  | [] => (false, [])
  end.

(** [Sign? Digit+] to the end, after an [e]. *)
Definition parse_exponent (l : list ascii) : option Z :=
  let '(neg, l') := strip_sign l in
  match span_digits l' with
  | (d, []) => if bool_decide (d = []) then None
               else Some (if neg : bool then - digits_value d else digits_value d)%Z
  | _ => None
  end.

(** The mantissa and exponent of a decimal literal [f64::from_str] accepts;
    [None] for [inf], [nan] and what it rejects. *)
Definition parse_decimal (s : string) : option (Z * Z) :=
  let '(_, l) := strip_sign (bytes s) in
  let '(int, l1) := span_digits l in
  let '(frac, l2) := match l1 with
                     | c :: l' => if byte_is 46 c then span_digits l' else ([], l1)
                     | [] => ([], [])
                     end in
  if bool_decide (int ++ frac = []) then None
  else
    let m := digits_value (int ++ frac) in
    match l2 with
    | [] => Some (m, - Z.of_nat (length frac))%Z
    | c :: l' =>
        if byte_is 101 c || byte_is 69 c
        then (λ e, (m, e - Z.of_nat (length frac)))%Z <$> parse_exponent l'
        else None
    end.

(** [s.parse::<f64>().is_ok_and(|n| n == 0.0)]: the literal is zero or rounds
    to it, that is, it is at most half the least subnormal, [2^-1075]. *)
Definition f64_parses_to_zero (s : string) : bool :=
  match parse_decimal s with
  | Some (m, e) =>
      (m =? 0)%Z || ((e <? 0)%Z && (m * 2 ^ 1075 <=? 10 ^ (- e))%Z)
  | None => false
  end.

Lemma span_digits_app d l :
  Forall (λ c, is_digit c = true) d →
  match l with c :: _ => is_digit c = false | [] => True end →
  span_digits (d ++ l) = (d, l).
Proof.
  intros Hd Hl. induction Hd as [|c d Hc Hd IH]; simpl.
  - destruct l as [|c l]; [done|]. simpl. by rewrite Hl.
  - by rewrite Hc, IH.
Qed.

(** ** Ordering *)

(** [Vec<String>::sort]: byte order. *)
Definition str_leb (a b : string) : bool := match String.compare a b with Gt => false | _ => true end.
Definition sort_strings : list string → list string := sort_by str_leb.

Lemma elem_of_sort_strings x l : x ∈ sort_strings l ↔ x ∈ l.
Proof. apply elem_of_sort_by. Qed.
