(* ===== verification/Template.v ===== *)
(** * Conditions

    [evaluate_condition] of [crates/stroem-common/src/template.rs]. The
    template engine (Tera) is a parameter: [render_template template context]
    is the rendered text or an error, a chain of messages outermost first. *)
From S2P Require Import Prelude Json Text.

(** An [anyhow::Error]: its messages, outermost first; ["{:#}"] joins them. *)
Definition Error := list string.
Definition error_chain (e : Error) : string := str_join ": " e.
Definition context {A} (msg : string) (r : result Error A) : result Error A :=
  res_map_err (cons msg) r.

Class TemplateEngine := {
  render_template : string → json → result Error string;
}.

(** The texts a condition counts as false. [to_lowercase] folds Unicode, but
    no character outside ASCII folds to a letter of these words, so folding
    ASCII letters decides the same. *)
Definition FALSY : list string := [""; "false"; "null"; "none"; "[]"; "{}"].

Definition truthy (rendered : string) : bool :=
  let trimmed := trim rendered in
  let lower := to_ascii_lowercase trimmed in
  if bool_decide (lower ∈ FALSY) then false
  else negb (f64_parses_to_zero trimmed).

Definition evaluate_condition `{TemplateEngine} (template : string) (ctx : json) : result Error bool :=
  let? rendered := render_template template ctx in
  Ok (truthy rendered).

Example truthy_samples :
  map truthy ["true"; " FALSE "; "None"; "0"; "-0.0"; "+0e9"; "1e-400"; "0x"; "."; "[1]"; "[]"] =
  [true; false; false; false; false; false; false; true; true; true; false].
Proof. vm_compute. reflexivity. Qed.
