(* ===== verification/TemplateError.v ===== *)
(** * Value-free template errors

    [crates/stroem-common/src/template_error.rs]: what an error of the
    template engine becomes. The engine (Tera) is a library; its error is data
    here: the kind, the report text, the span. Its text can quote values and
    template source, and [from_tera] keeps none of it but members of closed
    lists. *)
From S2P Require Import Prelude Text.

(** ** Data *)

Inductive ValsFailureKind := Exited (code : option Z) | TimedOut | SpawnFailed | BadOutput.

Record ValsFailure := mkValsFailure { vf_kind : ValsFailureKind; vf_stderr : string }.

Record TemplateError := mkTemplateError {
  te_message : string;
  te_line : option nat;
  te_column : option nat;
  te_vals : option ValsFailure;
  te_raw : string;
}.

(** [tera::Error]: the kind with what the code reads of it, and its [Display]. *)
Record Span := mkSpan { start_line : nat; start_col : nat; range : nat * nat }.

Inductive ErrorKind :=
| SyntaxError (message : string) (span : Span)
| RenderingError (message : string) (span : Span)
| Msg (text : string)
| InvalidArgument
| MissingArgument
| OutOfRangeArgument
| OtherKind.

Record TeraError := mkTeraError { tera_kind : ErrorKind; tera_text : string }.

(** ** The closed lists *)

Definition TERA1_BUILTIN_NAMES : list string :=
  ["upper"; "lower"; "trim"; "trim_start"; "trim_end"; "trim_start_matches"; "trim_end_matches"; "truncate";
   "wordcount"; "replace"; "capitalize"; "title"; "linebreaksbr"; "indent"; "striptags"; "spaceless"; "urlencode";
   "urlencode_strict"; "escape"; "escape_xml"; "slugify"; "addslashes"; "split"; "int"; "float"; "first"; "last";
   "nth"; "join"; "sort"; "unique"; "slice"; "group_by"; "filter"; "map"; "concat"; "abs"; "pluralize"; "round";
   "filesizeformat"; "length"; "reverse"; "date"; "json_encode"; "as_str"; "get"; "default"; "safe"; "defined";
   "undefined"; "odd"; "even"; "string"; "number"; "divisibleby"; "iterable"; "object"; "starting_with";
   "ending_with"; "containing"; "matching"; "range"; "now"; "throw"; "get_random"; "get_env"].

Definition TERA_TYPE_NAMES : list string :=
  ["undefined"; "none"; "bool"; "u64"; "i64"; "f64"; "u128"; "i128"; "array"; "bytes"; "string"; "map/struct"].

Definition TERA_CONSTANT_MESSAGES : list string :=
  ["Cannot divide by 0"; "Slicing step cannot be 0"; "Slice step is undefined"; "Slice start is undefined";
   "Slice end is undefined"; "Not a valid key type"; "Tried to escape an undefined value";
   "Tried to render a variable that is undefined"; "Cannot slice an undefined value";
   "Function `range` was called with arguments that overflow i128"].

Definition REGISTERED_FILTERS : list string :=
  ["safe"; "default"; "upper"; "lower"; "wordcount"; "escape"; "escape_html"; "escape_xml"; "newlines_to_br";
   "pluralize"; "trim"; "trim_start"; "trim_end"; "as_str"; "trim_start_matches"; "trim_end_matches";
   "linebreaksbr"; "map"; "filter"; "concat"; "slice"; "date"; "replace"; "capitalize"; "title"; "truncate";
   "indent"; "str"; "int"; "float"; "length"; "reverse"; "split"; "abs"; "round"; "first"; "last"; "nth"; "join";
   "sort"; "unique"; "get"; "values"; "keys"; "pairs"; "group_by"; "json_encode"; "vals"].

(** ** Text helpers *)

(** [s.lines().next()]: the first line without its terminator. *)
Fixpoint first_line_bytes (l : list ascii) : list ascii * bool :=
  match l with
  | [] => ([], false)
  | c :: l' => if c ==? "010"%char then ([], true) else let '(x, t) := first_line_bytes l' in (c :: x, t)
  end.
Definition first_line (s : string) : option string :=
  if s ==? "" then None
  else let '(x, terminated) := first_line_bytes (bytes s) in
       let x := if terminated : bool
                then match rev x with c :: r => if c ==? "013"%char then rev r else x | [] => x end
                else x in
       Some (of_bytes x).

(** [s.get(a..b)]: on character boundaries only. *)
Definition boundary (l : list ascii) (i : nat) : bool :=
  (i =? length l)%nat || match drop i l with b :: _ => negb (byte_in 128 191 b) | [] => false end.
Definition str_get (s : string) (r : nat * nat) : option string :=
  let l := bytes s in
  if (r.1 <=? r.2)%nat && (r.2 <=? length l)%nat && boundary l r.1 && boundary l r.2
  then Some (of_bytes (take (r.2 - r.1) (drop r.1 l))) else None.

Definition is_ident_byte (c : ascii) : bool :=
  byte_in 48 57 c || byte_in 65 90 c || byte_in 97 122 c || byte_is 95 c.
Fixpoint span_ident (l : list ascii) : list ascii * list ascii :=
  match l with
  | c :: l' => if is_ident_byte c then let '(i, r) := span_ident l' in (c :: i, r) else ([], l)
  | [] => ([], [])
  end.

(** ** The conversion *)

Definition strip_error (first : string) : string := default first (strip_prefix_str "error: " first).

Definition msg_category (text : string) : string :=
  let first := strip_error (default "" (first_line text)) in
  if starts_with "Unknown filter `" first then "template uses an unknown filter"
  else if starts_with "Unknown test `" first then "template uses an unknown test"
  else if starts_with "Unknown function `" first then "template uses an unknown function"
  else if starts_with "Template inheritance ({% extends %}) is not supported" first then "{% extends %} is not supported"
  else if starts_with "Blocks not supported" first then "{% block %} is not supported"
  else "template could not be compiled".

Definition WRONG_TYPE : string := "a filter received a value of the wrong type".
Definition wrong_type_of (expected actual : string) : string :=
  WRONG_TYPE +:+ " (expected " +:+ expected +:+ ", got " +:+ actual +:+ ")".

Definition enrich (tera_message : string) : option string :=
  let m := trim tera_message in
  if bool_decide (m ∈ TERA_CONSTANT_MESSAGES) then Some m
  else if (starts_with "Variable `" m &&
             (str_contains "` is not defined" m || str_contains "` exists but its value is undefined" m)) ||
          (starts_with "Field `" m && str_contains "` is not defined" m)
  then Some "undefined variable or field"
  else match strip_prefix_str "Invalid type for the value, expected `" m with
       | Some rest =>
           let parts := split_on "`" (bytes rest) in
           expected ← of_bytes <$> parts !! 0%nat;
           actual ← of_bytes <$> parts !! 2%nat;
           if bool_decide (expected ∈ TERA_TYPE_NAMES) && bool_decide (actual ∈ TERA_TYPE_NAMES)
           then Some (wrong_type_of expected actual) else Some WRONG_TYPE
       | None => None
       end.

Definition removed_text (kind known : string) : string :=
  kind +:+ " `" +:+ known +:+ "` is not available in Tera 2; see the upgrade guide".

Definition UNKNOWN_PREFIXES : list (string * string) :=
  [("Unknown filter `", "filter"); ("Unknown test `", "test"); ("Unknown function `", "function")].

Fixpoint removed_loop (first : string) (prefixes : list (string * string)) : option string :=
  match prefixes with
  | [] => None
  | (prefix, kind) :: rest =>
      match strip_prefix_str prefix first with
      | Some r =>
          name ← of_bytes <$> split_on "`" (bytes r) !! 0%nat;
          known ← List.find (λ n, n ==? name) TERA1_BUILTIN_NAMES;
          Some (removed_text kind known)
      | None => removed_loop first rest
      end
  end.
Definition removed_builtin_hint (msg_text : string) : option string :=
  line ← first_line msg_text; removed_loop (strip_error line) UNKNOWN_PREFIXES.

Definition failing_filter (src : option string) (span : Span) : option string :=
  s ← src;
  text ← str_get s (range span);
  let '(ident, rest) := span_ident (trim_start_bytes (bytes text)) in
  if bool_decide (rest = []) || bool_decide (head rest = Some "("%char)
  then List.find (λ f, f ==? of_bytes ident) REGISTERED_FILTERS
  else None.

Definition vals_category (kind : ValsFailureKind) : string :=
  match kind with
  | Exited (Some code) => "vals failed (exit status " +:+ pretty code +:+ ")"
  | Exited None => "vals failed (killed by a signal)"
  | TimedOut => "vals timed out"
  | SpawnFailed => "vals could not be started"
  | BadOutput => "vals returned invalid output"
  end.

(** The category, the span and the closed-list detail of an error. *)
Definition tera_parts (src : option string) (k : ErrorKind) : string * option Span * option string :=
  match k with
  | SyntaxError message span => ("template syntax error", Some span, enrich message)
  | RenderingError message span =>
      ("template rendering failed", Some span,
       match enrich message with
       | Some e => Some e
       | None => (λ f, "filter `" +:+ f +:+ "` failed") <$> failing_filter src span
       end)
  | Msg text => (msg_category text, None, removed_builtin_hint text)
  | InvalidArgument => (WRONG_TYPE, None, None)
  | MissingArgument => ("a filter call is missing a required argument", None, None)
  | OutOfRangeArgument => ("a number is out of range", None, None)
  | OtherKind => ("template rendering failed", None, None)
  end.

Definition from_tera (err : TeraError) (src : option string) (vals : option ValsFailure) : TemplateError :=
  let '(category, span, enriched) := tera_parts src (tera_kind err) in
  mkTemplateError
    (match vals with Some v => vals_category (vf_kind v) | None => default category enriched end)
    (start_line <$> span) ((λ s, S (start_col s)) <$> span) vals (tera_text err).

Definition context_conversion (err : TeraError) : TemplateError :=
  mkTemplateError "template context could not be prepared" None None None (tera_text err).

Definition position (t : TemplateError) : option (nat * nat) :=
  line ← te_line t; column ← te_column t; Some (line, column).
Definition with_position (t : TemplateError) (pos : option (nat * nat)) : TemplateError :=
  mkTemplateError (te_message t) (fst <$> pos) (snd <$> pos) (te_vals t) (te_raw t).
Definition is_vals_failure (t : TemplateError) : bool := bool_decide (is_Some (te_vals t)).

Definition TemplateError_fmt (t : TemplateError) : string :=
  match te_line t, te_column t with
  | Some l, Some c => te_message t +:+ " (line " +:+ pretty l +:+ ", column " +:+ pretty c +:+ ")"
  | _, _ => te_message t
  end.

(** ** Nothing of the engine's text gets out *)

(** Every message but the exit status of [vals]. *)
Definition MESSAGES : list string :=
  ["template syntax error"; "template rendering failed"; "template uses an unknown filter";
   "template uses an unknown test"; "template uses an unknown function"; "{% extends %} is not supported";
   "{% block %} is not supported"; "template could not be compiled"; WRONG_TYPE;
   "a filter call is missing a required argument"; "a number is out of range"; "undefined variable or field";
   "template context could not be prepared"; "vals failed (killed by a signal)"; "vals timed out";
   "vals could not be started"; "vals returned invalid output"] ++
  TERA_CONSTANT_MESSAGES ++
  flat_map (λ e, wrong_type_of e <$> TERA_TYPE_NAMES) TERA_TYPE_NAMES ++
  ((λ f, "filter `" +:+ f +:+ "` failed") <$> REGISTERED_FILTERS) ++
  flat_map (λ x, removed_text x.2 <$> TERA1_BUILTIN_NAMES) UNKNOWN_PREFIXES.

#[local] Arguments List.find : simpl never.
Ltac in_messages := unfold MESSAGES; rewrite ?elem_of_app.

Lemma fixed_message m :
  m ∈ ["template syntax error"; "template rendering failed"; "template uses an unknown filter";
   "template uses an unknown test"; "template uses an unknown function"; "{% extends %} is not supported";
   "{% block %} is not supported"; "template could not be compiled"; WRONG_TYPE;
   "a filter call is missing a required argument"; "a number is out of range"; "undefined variable or field";
   "template context could not be prepared"; "vals failed (killed by a signal)"; "vals timed out";
   "vals could not be started"; "vals returned invalid output"] → m ∈ MESSAGES.
Proof. intros H. apply elem_of_app. by left. Qed.

Ltac fixed := apply fixed_message; rewrite !elem_of_cons; tauto.

Lemma enrich_closed m e : enrich m = Some e → e ∈ MESSAGES.
Proof.
  unfold enrich. case_bool_decide as Hc; [intros [= <-]; in_messages; tauto|].
  destruct (_ || _); [intros [= <-]; fixed|].
  destruct (strip_prefix_str _ _) as [rest|]; [|done].
  destruct (split_on _ _ !! 0%nat) as [x|]; simpl; [|done].
  destruct (split_on _ _ !! 2%nat) as [y|]; simpl; [|done].
  case_bool_decide as Hx; simpl; [|intros [= <-]; fixed].
  case_bool_decide as Hy; simpl; [|intros [= <-]; fixed].
  intros [= <-]. in_messages. do 2 right. left. apply elem_of_flat_map. exists (of_bytes x).
  split; [done|]. by apply list_elem_of_fmap_2.
Qed.

Lemma find_elem {A} (f : A → bool) l x : List.find f l = Some x → x ∈ l.
Proof. intros H. apply list_elem_of_In. by eapply find_some. Qed.

Lemma removed_closed text e : removed_builtin_hint text = Some e → e ∈ MESSAGES.
Proof.
  unfold removed_builtin_hint. destruct (first_line text) as [line|]; cbn [mbind option_bind]; [|done].
  assert (H : ∀ ps, (∀ x, x ∈ ps → x ∈ UNKNOWN_PREFIXES) → removed_loop (strip_error line) ps = Some e → e ∈ MESSAGES).
  { induction ps as [|[p k] ps IH]; simpl; [done|]. intros Hps.
    destruct (strip_prefix_str p _) as [r|]; [|apply IH; intros; apply Hps; by right].
    destruct (split_on _ _ !! 0%nat) as [x|]; simpl; [|done].
    destruct (List.find _ TERA1_BUILTIN_NAMES) as [known|] eqn:Hf; simpl; [|done].
    intros [= <-]. apply find_elem in Hf. in_messages. do 4 right. apply elem_of_flat_map. exists (p, k).
    split; [apply Hps; by left|]. by apply list_elem_of_fmap_2. }
  by apply (H UNKNOWN_PREFIXES).
Qed.

Lemma failing_filter_closed src span f : failing_filter src span = Some f → f ∈ REGISTERED_FILTERS.
Proof.
  unfold failing_filter. destruct src as [s|]; simpl; [|done].
  destruct (str_get s _) as [t|]; simpl; [|done]. destruct (span_ident _) as [i r].
  destruct (_ || _); [|done]. apply find_elem.
Qed.

Lemma tera_parts_closed src k category span enriched :
  tera_parts src k = (category, span, enriched) → default category enriched ∈ MESSAGES.
Proof.
  destruct k as [m s|m s|t| | | |]; simpl; intros [= <- <- <-]; simpl; try fixed.
  - destruct (enrich m) as [e|] eqn:E; [by eapply enrich_closed|simpl; fixed].
  - destruct (enrich m) as [e|] eqn:E; [by eapply enrich_closed|]. simpl.
    destruct (failing_filter src s) as [f|] eqn:Ef; simpl; [|fixed].
    apply failing_filter_closed in Ef. in_messages. do 3 right. left.
    by apply (list_elem_of_fmap_2 (λ f, "filter `" +:+ f +:+ "` failed")).
  - destruct (removed_builtin_hint t) as [e|] eqn:E; [by eapply removed_closed|]. simpl.
    unfold msg_category. repeat case_match; fixed.
Qed.

(** A template error's message is a member of a fixed list, or the exit status
    of [vals]: whatever the engine reported, whatever the template and the
    values, none of that text is in it. *)
Theorem template_error_message_closed err src vals :
  te_message (from_tera err src vals) ∈ MESSAGES ∨
  ∃ code : Z, te_message (from_tera err src vals) = "vals failed (exit status " +:+ pretty code +:+ ")".
Proof.
  unfold from_tera. destruct (tera_parts src (tera_kind err)) as [[category span] enriched] eqn:E.
  destruct vals as [[[ [code|]| | | ] stderr]|]; simpl; try (left; fixed); [right; by eexists|].
  left. by eapply tera_parts_closed.
Qed.
