(* ===== verification/GitRef.v ===== *)
(** * Ref syntax

    [crates/stroem-common/src/git_ref.rs]: what a [ref:] value may be, the
    check of a rendered ref, and the [git check-ref-format] rules they
    enforce. Whether the branch, tag or commit exists is the pin store's
    question ([PinStore.v]). A string is its UTF-8 bytes. *)
From Stdlib Require Import Wf_nat.
From S2P Require Import Prelude Text.

Definition HEADS : string := "refs/heads/".
Definition TAGS : string := "refs/tags/".

Inductive GitRefSpec :=
| Commit (sha : string)
| Branch (name : string)
| Tag (name : string)
| Name (name : string).

Inductive GitRefError :=
| Empty
| Templated (r : string)
| InvalidName (r : string).

#[export] Instance GitRefSpec_eq_dec : EqDecision GitRefSpec.
Proof. solve_decision. Defined.
#[export] Instance GitRefError_eq_dec : EqDecision GitRefError.
Proof. solve_decision. Defined.

Definition GitRefError_fmt (e : GitRefError) : string :=
  match e with
  | Empty => "`ref` must not be empty"
  | Templated r => "`ref` '" +:+ r +:+ "' is a template; refs are static strings"
  | InvalidName r => "'" +:+ r +:+ "' is not a valid git branch or tag name"
  end.

(** [u8::is_ascii_hexdigit] *)
Definition is_ascii_hexdigit (c : ascii) : bool := byte_in 48 57 c || byte_in 65 70 c || byte_in 97 102 c.

(** The bytes no refname contains. *)
Definition forbidden (b : ascii) : bool :=
  (N_of_ascii b <? 32)%N || byte_is 127 b ||
  existsb (λ c, b ==? c) [" "; "~"; "^"; ":"; "?"; "*"; "["; "\"]%char.

Definition is_valid_refname (name : string) : bool :=
  if (name ==? "") || (name ==? "@") then false
  else if starts_with "/" name || ends_with "/" name || ends_with "." name then false
  else if str_contains ".." name || str_contains "//" name || str_contains "@{" name then false
  else if existsb forbidden (bytes name) then false
  else forallb (λ c, negb (starts_with "." (of_bytes c)) && negb (ends_with ".lock" (of_bytes c)))
         (split_on "/" (bytes name)).

Definition checked (name written : string) : result GitRefError string :=
  if is_valid_refname name then Ok name else Err (InvalidName written).

Definition full_sha (s : string) : bool :=
  (String.length s =? 40)%nat && forallb is_ascii_hexdigit (bytes s).

Definition is_template (s : string) : bool := str_contains "{{" s || str_contains "{%" s.

Definition parse_git_ref (s : string) : result GitRefError GitRefSpec :=
  if s ==? "" then Err Empty
  else if is_template s then Err (Templated s)
  else if full_sha s then Ok (Commit (to_ascii_lowercase s))
  else match strip_prefix_str HEADS s with
       | Some name => res_map Branch (checked name s)
       | None =>
           match strip_prefix_str TAGS s with
           | Some name => res_map Tag (checked name s)
           | None =>
               if starts_with "refs/" s then Err (InvalidName s)
               else res_map Name (checked s s)
           end
       end.

Definition SHORT_SHA_HINT : string := "short commit SHAs are not supported; use the full 40-character SHA".

Definition short_sha_hint (s : string) : option string :=
  if (4 <=? String.length s)%nat && (String.length s <=? 39)%nat && forallb is_ascii_hexdigit (bytes s)
  then Some SHORT_SHA_HINT else None.

Inductive RefKind := Static | Template.

#[export] Instance RefKind_eq_dec : EqDecision RefKind.
Proof. solve_decision. Defined.

Definition classify_ref (s : string) : RefKind := if is_template s then Template else Static.

Definition rendered_ref_value (rendered : string) : option string :=
  let value := trim rendered in
  if value ==? "" then None else Some value.

Inductive RenderedRefRejection := RejSecretValue | RejInvalid.

#[export] Instance RenderedRefRejection_eq_dec : EqDecision RenderedRefRejection.
Proof. solve_decision. Defined.

Definition check_rendered_ref (rendered : string) (secrets : list string) : result RenderedRefRejection string :=
  let value := trim rendered in
  if existsb (λ s, (s <>? "") && str_contains s value) secrets then Err RejSecretValue
  else match parse_git_ref value with Ok _ => Ok value | Err _ => Err RejInvalid end.

Example git_ref_samples :
  parse_git_ref "refs/heads/release/2.3" = Ok (Branch "release/2.3") ∧
  parse_git_ref "v4.1.0" = Ok (Name "v4.1.0") ∧
  parse_git_ref "3F2A9C0E1B2C3D4E5F60718293A4B5C6D7E8F901" = Ok (Commit "3f2a9c0e1b2c3d4e5f60718293a4b5c6d7e8f901") ∧
  Forall (λ s, parse_git_ref s = Err (InvalidName s))
    ["a..b"; "a b"; "a~1"; "/a"; "a/"; "a//b"; "a."; ".a"; "a/.b"; "a.lock"; "a/b.lock/c"; "@"; "a@{1}";
     "refs/pull/1/head"; "refs/heads/"; "refs/tags/"; " v1"; "v1 "].
Proof. repeat split; [vm_compute; reflexivity..|]. repeat constructor; vm_compute; reflexivity. Qed.

(** ** Text as bytes *)

Lemma prefix_bytes p s : starts_with p s = true ↔ bytes p `prefix_of` bytes s.
Proof.
  unfold starts_with. revert s. induction p as [|c p IH]; intros s; simpl.
  { split; [intros; apply prefix_nil|by destruct s]. }
  destruct s as [|d s]; simpl; [split; [done|by intros ?%prefix_nil_inv]|].
  destruct (ascii_dec c d) as [->|Hne].
  - rewrite IH. split; [apply prefix_cons|apply prefix_cons_inv_2].
  - split; [done|]. by intros ?%prefix_cons_inv_1.
Qed.

Lemma str_drop_bytes n s : bytes (str_drop n s) = drop n (bytes s).
Proof. revert s. induction n as [|n IH]; intros [|c s]; simpl; auto. Qed.

Lemma suffix_bytes p s : ends_with p s = true ↔ bytes p `suffix_of` bytes s.
Proof.
  unfold ends_with. rewrite andb_true_iff, Nat.leb_le, bool_decide_eq_true. split.
  - intros [Hle E]. exists (take (String.length s - String.length p) (bytes s)).
    rewrite <-E at 2. rewrite str_drop_bytes. by rewrite take_drop.
  - intros [k Hk]. assert (String.length s = length k + String.length p)%nat as Hl.
    { by rewrite <-!length_bytes, Hk, length_app. }
    split; [lia|]. apply (inj bytes). rewrite str_drop_bytes, Hk, Hl, Nat.add_sub.
    by rewrite drop_app_length.
Qed.

(** [p] occurs in [l]. *)
Definition infix {A} (p l : list A) : Prop := ∃ a b, l = a ++ p ++ b.

Lemma infix_cons {A} (p : list A) x l : infix p (x :: l) ↔ p `prefix_of` x :: l ∨ infix p l.
Proof.
  split.
  - intros ([|y a] & b & E); simplify_eq/=; [left; by exists b|right; by exists a, b].
  - intros [[b E]|(a & b & ->)]; [by exists [], b|by exists (x :: a), b].
Qed.

Lemma infix_nil {A} (p : list A) : infix p [] ↔ p = [].
Proof.
  split; [|by intros ->; exists [], []].
  intros (a & b & E). symmetry in E. by apply app_eq_nil in E as [_ [? _]%app_eq_nil].
Qed.

Lemma contains_bytes p s : str_contains p s = true ↔ infix (bytes p) (bytes s).
Proof.
  induction s as [|c s IH].
  - cbn [str_contains]. rewrite orb_false_r. fold (starts_with p "").
    rewrite prefix_bytes. cbn [bytes]. rewrite infix_nil. split; [apply prefix_nil_inv|by intros ->].
  - cbn [str_contains]. fold (starts_with p (String c s)). rewrite orb_true_iff, IH, prefix_bytes.
    by rewrite (infix_cons (bytes p) c (bytes s)).
Qed.

Lemma contains_bytes_false p s : str_contains p s = false ↔ ¬ infix (bytes p) (bytes s).
Proof. rewrite <-not_true_iff_false. by rewrite contains_bytes. Qed.

Lemma prefix_bytes_false p s : starts_with p s = false ↔ ¬ bytes p `prefix_of` bytes s.
Proof. rewrite <-not_true_iff_false. by rewrite prefix_bytes. Qed.

Lemma suffix_bytes_false p s : ends_with p s = false ↔ ¬ bytes p `suffix_of` bytes s.
Proof. rewrite <-not_true_iff_false. by rewrite suffix_bytes. Qed.

Lemma strip_prefix_str_spec p s r : strip_prefix_str p s = Some r ↔ s = p +:+ r.
Proof.
  unfold strip_prefix_str. split.
  - destruct (starts_with p s) eqn:E; [|done]. intros [= <-]. apply prefix_bytes in E as [k Hk].
    apply (inj bytes). rewrite bytes_app, str_drop_bytes, Hk, <-length_bytes.
    by rewrite drop_app_length.
  - intros ->. assert (starts_with p (p +:+ r) = true) as ->.
    { apply prefix_bytes. rewrite bytes_app. by eexists. }
    f_equal. apply (inj bytes). rewrite str_drop_bytes, bytes_app, <-length_bytes.
    by rewrite drop_app_length.
Qed.

Lemma strip_prefix_none p s : strip_prefix_str p s = None ↔ starts_with p s = false.
Proof. unfold strip_prefix_str. by destruct (starts_with p s). Qed.

(** ** Components of a path *)

(** [c] is a maximal run of [l] without the separator. *)
Definition component (sep : ascii) (l c : list ascii) : Prop :=
  (sep ∉ c) ∧ ∃ xs ys, l = xs ++ c ++ ys ∧ (xs = [] ∨ last xs = Some sep) ∧ (ys = [] ∨ head ys = Some sep).

Lemma split_on_nonempty sep l : split_on sep l ≠ [].
Proof. destruct l as [|c l]; simpl; [done|]. repeat case_match; done. Qed.

Lemma split_on_join sep l x xs :
  split_on sep l = x :: xs → (sep ∉ x) ∧ ∃ ys, l = x ++ ys ∧ (xs = [] ∧ ys = [] ∨ ∃ r, ys = sep :: r ∧ xs = split_on sep r).
Proof.
  revert x xs. induction l as [|c l IH]; simpl; intros x xs.
  { intros [= <- <-]. split; [apply not_elem_of_nil|]. exists []. auto. }
  destruct (split_on sep l) as [|y ys] eqn:El; [by apply split_on_nonempty in El|].
  destruct (IH y ys eq_refl) as (Hy & zs & -> & Hz). case_bool_decide as Hc; intros [= <- <-].
  - subst. split; [apply not_elem_of_nil|]. exists (sep :: y ++ zs). split; [done|]. right. by exists (y ++ zs).
  - split; [by apply not_elem_of_cons|]. exists zs. done.
Qed.

Lemma split_on_app sep x r : (sep ∉ x) → split_on sep (x ++ sep :: r) = x :: split_on sep r.
Proof.
  intros Hx. induction x as [|c x IH]; simpl.
  - destruct (split_on sep r) as [|y ys] eqn:E; [by apply split_on_nonempty in E|]. by rewrite bool_decide_true.
  - apply not_elem_of_cons in Hx as [Hc Hx]. rewrite IH by done. by rewrite bool_decide_false.
Qed.

Lemma split_on_single sep x : (sep ∉ x) → split_on sep x = [x].
Proof.
  induction x as [|c x IH]; simpl; [done|].
  intros [Hc Hx]%not_elem_of_cons. rewrite IH by done. by rewrite bool_decide_false.
Qed.

Lemma split_on_sep_app sep xs l : last xs = Some sep → split_on sep l `suffix_of` split_on sep (xs ++ l).
Proof.
  intros [ys ->]%last_Some. rewrite <-app_assoc. simpl.
  induction ys as [|c ys IH]; simpl.
  - destruct (split_on sep l) as [|x xs]; simpl; [by exists [[sep]]|]. rewrite bool_decide_true by done. by exists [[]].
  - destruct (split_on sep (ys ++ sep :: l)) as [|x xs] eqn:E; [by apply split_on_nonempty in E|].
    assert (Hx : split_on sep l `suffix_of` xs).
    { destruct IH as [[|y k] Hk]; simpl in Hk.
      - exfalso. assert (length (split_on sep l) < length (split_on sep (ys ++ sep :: l)))%nat as Hlt.
        { clear. induction ys as [|c ys IH]; simpl.
          - destruct (split_on sep l) as [|x xs] eqn:E; [by apply split_on_nonempty in E|].
            rewrite bool_decide_true by done. simpl. lia.
          - destruct (split_on sep (ys ++ sep :: l)) as [|x xs]; simpl in *; [lia|].
            case_bool_decide; simpl in *; lia. }
        rewrite E, Hk in Hlt. lia.
      - simplify_eq. by exists k. }
    case_bool_decide; [apply suffix_cons_r|]; by apply suffix_cons_r.
Qed.

Lemma split_on_components sep l c : c ∈ split_on sep l ↔ component sep l c.
Proof.
  split.
  - revert c. induction l as [l IH] using (induction_ltof1 _ length). unfold ltof in IH. intros c.
    destruct (split_on sep l) as [|x xs] eqn:E; [by intros ?%elem_of_nil|].
    destruct (split_on_join _ _ _ _ E) as (Hx & ys & -> & Hys).
    intros [->|Hin]%elem_of_cons.
    + split; [done|]. exists [], ys. split; [done|]. split; [by left|].
      destruct Hys as [[_ ->]|(r & -> & _)]; [by left|by right].
    + destruct Hys as [[-> _]|(r & -> & ->)]; [by apply elem_of_nil in Hin|].
      destruct (IH r) with (c := c) as (Hc & us & vs & -> & Hu & Hv); [|done|].
      { rewrite length_app. simpl. lia. }
      split; [done|]. exists (x ++ sep :: us), vs. split; [by rewrite <-app_assoc|]. split; [right|done].
      destruct Hu as [->|[us' ->]%last_Some]; [by rewrite last_snoc|].
      by rewrite app_comm_cons, app_assoc, last_snoc.
  - intros (Hc & xs & ys & -> & Hxs & Hys).
    assert (Hin : c ∈ split_on sep (c ++ ys)).
    { destruct ys as [|d ys]; [rewrite app_nil_r, split_on_single by done; by left|].
      destruct Hys as [|[= ->]]; [done|]. rewrite split_on_app by done. by left. }
    destruct Hxs as [->|Hl]; [done|]. destruct (split_on_sep_app sep xs (c ++ ys) Hl) as [k ->].
    apply elem_of_app. by right.
Qed.

(** ** [git check-ref-format]

    The rules as git documents them: slash-separated components, none empty,
    none starting with a dot or ending in [.lock]; no two dots in a row, no
    control character, space or [~ ^ : ? * [ \]; no final dot; no [@{]; not the
    single character [@]. *)
Record refname (l : list ascii) : Prop := {
  rn_components c : component "/" l c → c ≠ [] ∧ head c ≠ Some "."%char ∧ ¬ bytes ".lock" `suffix_of` c;
  rn_no_dotdot : ¬ infix (bytes "..") l;
  rn_chars : Forall (λ b, forbidden b = false) l;
  rn_no_final_dot : last l ≠ Some "."%char;
  rn_no_at_brace : ¬ infix (bytes "@{") l;
  rn_not_at : l ≠ bytes "@";
}.

(** Components are non-empty exactly when no slash starts or ends the name
    and no two touch. *)
Lemma components_nonempty (sep : ascii) l :
  (∀ c, component sep l c → c ≠ []) ↔ l ≠ [] ∧ head l ≠ Some sep ∧ last l ≠ Some sep ∧ ¬ infix [sep; sep] l.
Proof.
  split.
  - intros H. assert (Hx : ¬ component sep l []) by naive_solver.
    repeat split; intros E; apply Hx; (split; [apply not_elem_of_nil|]).
    + exists [], []. subst. auto.
    + exists [], l. auto.
    + exists l, []. rewrite !app_nil_r. auto.
    + destruct E as (a & b & ->). exists (a ++ [sep]), (sep :: b). rewrite <-app_assoc. simpl.
      rewrite last_snoc. auto.
  - intros (Hne & Hh & Hl & Hi) c (_ & xs & ys & -> & Hxs & Hys) ->. simpl in *.
    destruct Hxs as [->|[us ->]%last_Some]; [simpl in *; destruct Hys as [->|]; done|].
    destruct Hys as [->|Hys]; [rewrite app_nil_r, last_snoc in Hl; done|].
    apply Hi. destruct ys as [|y ys]; simplify_eq/=. exists us, ys. by rewrite <-app_assoc.
Qed.

Lemma prefix_singleton (c : ascii) l : [c] `prefix_of` l ↔ head l = Some c.
Proof.
  destruct l as [|d l]; simpl; [split; [by intros ?%prefix_nil_inv|done]|].
  split; [by intros ->%prefix_cons_inv_1|intros [= ->]; by eexists].
Qed.

Lemma suffix_singleton (c : ascii) l : [c] `suffix_of` l ↔ last l = Some c.
Proof. rewrite last_Some. reflexivity. Qed.

(** The byte scan of [is_valid_refname] decides the rules. *)
Theorem is_valid_refname_correct name : is_valid_refname name = true ↔ refname (bytes name).
Proof.
  set (tests :=
    ((bytes name ≠ [] ∧ bytes name ≠ bytes "@") ∧
     (head (bytes name) ≠ Some "/"%char ∧ last (bytes name) ≠ Some "/"%char ∧ last (bytes name) ≠ Some "."%char) ∧
     (¬ infix (bytes "..") (bytes name) ∧ ¬ infix (bytes "//") (bytes name) ∧ ¬ infix (bytes "@{") (bytes name)) ∧
     Forall (λ b, forbidden b = false) (bytes name) ∧
     ∀ c, component "/" (bytes name) c → head c ≠ Some "."%char ∧ ¬ bytes ".lock" `suffix_of` c)).
  assert (Htests : is_valid_refname name = true ↔ tests).
  { unfold is_valid_refname, tests.
    assert (E1 : (name ==? "") || (name ==? "@") = false ↔ bytes name ≠ [] ∧ bytes name ≠ bytes "@").
    { rewrite orb_false_iff, !bool_decide_eq_false. change (@nil ascii) with (bytes ""). split.
      - intros [H1 H2]. split; by intros ?%(inj bytes).
      - intros [H1 H2]. split; by intros ->. }
    assert (E2 : starts_with "/" name || ends_with "/" name || ends_with "." name = false ↔
      head (bytes name) ≠ Some "/"%char ∧ last (bytes name) ≠ Some "/"%char ∧ last (bytes name) ≠ Some "."%char).
    { rewrite !orb_false_iff, prefix_bytes_false, !suffix_bytes_false. simpl.
      rewrite prefix_singleton, !suffix_singleton. tauto. }
    assert (E3 : str_contains ".." name || str_contains "//" name || str_contains "@{" name = false ↔
      ¬ infix (bytes "..") (bytes name) ∧ ¬ infix (bytes "//") (bytes name) ∧ ¬ infix (bytes "@{") (bytes name)).
    { rewrite !orb_false_iff, !contains_bytes_false. tauto. }
    assert (E4 : forallb (λ c, negb (starts_with "." (of_bytes c)) && negb (ends_with ".lock" (of_bytes c)))
        (split_on "/" (bytes name)) = true ↔
      ∀ c, component "/" (bytes name) c → head c ≠ Some "."%char ∧ ¬ bytes ".lock" `suffix_of` c).
    { rewrite forallb_Forall', Forall_forall. setoid_rewrite split_on_components.
      setoid_rewrite andb_true_iff. setoid_rewrite negb_true_iff.
      setoid_rewrite prefix_bytes_false. setoid_rewrite suffix_bytes_false. setoid_rewrite bytes_of_bytes.
      by setoid_rewrite prefix_singleton. }
    rewrite <-E1, <-E2, <-E3, <-E4, <-existsb_false_Forall.
    repeat match goal with |- context [if ?b then _ else _] => destruct b eqn:? end; intuition congruence. }
  rewrite Htests. unfold tests. split.
  - intros ([? ?] & (? & ? & ?) & (? & ? & ?) & ? & Hc). split; try done.
    intros c Hcomp. split; [|by apply Hc].
    revert c Hcomp. apply components_nonempty. done.
  - intros [Hc ? ? ? ? ?].
    assert (Hne : ∀ c, component "/" (bytes name) c → c ≠ []) by (intros; by apply Hc).
    apply components_nonempty in Hne as (? & ? & ? & ?). repeat split; try done; by apply Hc.
Qed.

(** ** What a [ref:] value denotes *)

Inductive denotes : string → GitRefSpec → Prop :=
| denotes_commit s : full_sha s = true → denotes s (Commit (to_ascii_lowercase s))
| denotes_branch n : refname (bytes n) → denotes (HEADS +:+ n) (Branch n)
| denotes_tag n : refname (bytes n) → denotes (TAGS +:+ n) (Tag n)
| denotes_name n :
    refname (bytes n) → full_sha n = false → starts_with "refs/" n = false → denotes n (Name n).

Lemma full_sha_no_refs n : full_sha ("refs/" +:+ n) = false.
Proof. unfold full_sha. simpl. apply andb_false_r. Qed.

Lemma starts_with_app p s : starts_with p (p +:+ s) = true.
Proof. apply prefix_bytes. rewrite bytes_app. by eexists. Qed.

Lemma checked_spec name written :
  (checked name written = Ok name ∧ refname (bytes name)) ∨
  (checked name written = Err (InvalidName written) ∧ ¬ refname (bytes name)).
Proof.
  unfold checked. destruct (is_valid_refname name) eqn:E; [left|right]; (split; [done|]).
  - by apply is_valid_refname_correct.
  - by rewrite <-is_valid_refname_correct, E.
Qed.

Lemma heads_refs n : HEADS +:+ n = "refs/" +:+ ("heads/" +:+ n).
Proof. done. Qed.
Lemma tags_refs n : TAGS +:+ n = "refs/" +:+ ("tags/" +:+ n).
Proof. done. Qed.
Lemma heads_not_tags n m : HEADS +:+ n ≠ TAGS +:+ m.
Proof. done. Qed.

(** A value denotes at most one spec. *)
Lemma denotes_functional s a b : denotes s a → denotes s b → a = b.
Proof.
  intros Ha Hb.
  destruct Ha as [s Hs|n Hn|n Hn|n Hn Hf Hr]; inversion Hb as [s' Hs'|n' Hn' E|n' Hn' E|n' Hn' Hf' Hr']; subst; try done;
    repeat match goal with
    | H : full_sha (HEADS +:+ ?n) = _ |- _ => rewrite heads_refs, full_sha_no_refs in H
    | H : full_sha (TAGS +:+ ?n) = _ |- _ => rewrite tags_refs, full_sha_no_refs in H
    | H : starts_with "refs/" (HEADS +:+ ?n) = _ |- _ => rewrite heads_refs, starts_with_app in H
    | H : starts_with "refs/" (TAGS +:+ ?n) = _ |- _ => rewrite tags_refs, starts_with_app in H
    end; try congruence.
  - by simplify_eq/=.
  - by simplify_eq/=.
Qed.

Definition parse_outcome (s : string) (r : result GitRefError GitRefSpec) : Prop :=
  match r with
  | Ok spec => classify_ref s = Static ∧ ∀ spec', denotes s spec' ↔ spec' = spec
  | Err Empty => s = ""
  | Err (Templated r) => r = s ∧ s ≠ "" ∧ classify_ref s = Template
  | Err (InvalidName r) => r = s ∧ s ≠ "" ∧ classify_ref s = Static ∧ ∀ spec, ¬ denotes s spec
  end.

Lemma parse_outcome_ok s spec : classify_ref s = Static → denotes s spec → parse_outcome s (Ok spec).
Proof. intros Hs Hd. split; [done|]. intros spec'. split; [intros H; by eapply denotes_functional|by intros ->]. Qed.

Lemma parse_git_ref_outcome s : parse_outcome s (parse_git_ref s).
Proof.
  unfold parse_git_ref. case_bool_decide as Hne; [done|].
  destruct (is_template s) eqn:Ht; [simpl; unfold classify_ref; by rewrite Ht|].
  assert (Hst : classify_ref s = Static) by (unfold classify_ref; by rewrite Ht).
  destruct (full_sha s) eqn:Hs; [apply parse_outcome_ok; [done|by constructor]|].
  destruct (strip_prefix_str HEADS s) as [n|] eqn:Hh.
  { apply strip_prefix_str_spec in Hh as ->. destruct (checked_spec n (HEADS +:+ n)) as [[-> Hn]|[-> Hn]]; simpl.
    - apply parse_outcome_ok; [done|by constructor].
    - repeat split; try done. intros spec Hd. inversion Hd as [?|m ? E|m ? E|m ? ? Hr]; subst; try congruence.
      + by simplify_eq/=.
      + by rewrite heads_refs, starts_with_app in Hr. }
  destruct (strip_prefix_str TAGS s) as [n|] eqn:Hg.
  { apply strip_prefix_str_spec in Hg as ->. destruct (checked_spec n (TAGS +:+ n)) as [[-> Hn]|[-> Hn]]; simpl.
    - apply parse_outcome_ok; [done|by constructor].
    - repeat split; try done. intros spec Hd. inversion Hd as [?|m ? E|m ? E|m ? ? Hr]; subst; try congruence.
      + by simplify_eq/=.
      + by rewrite tags_refs, starts_with_app in Hr. }
  apply strip_prefix_none in Hh, Hg.
  assert (Hno : ∀ spec, denotes s spec → spec = Name s ∧ refname (bytes s) ∧ starts_with "refs/" s = false).
  { intros spec Hd. inversion Hd as [?|m ? E|m ? E|m]; subst; try congruence; [..|done].
    - by rewrite starts_with_app in Hh.
    - by rewrite starts_with_app in Hg. }
  destruct (starts_with "refs/" s) eqn:Hr; [repeat split; try done; by intros spec (_ & _ & ?)%Hno|].
  destruct (checked_spec s s) as [[-> Hn]|[-> Hn]]; simpl.
  - apply parse_outcome_ok; [done|by constructor].
  - repeat split; try done. by intros spec (_ & ? & _)%Hno.
Qed.

(** ** A spec's canonical spelling *)

Definition canonical (spec : GitRefSpec) : string :=
  match spec with
  | Commit sha => sha
  | Branch name => HEADS +:+ name
  | Tag name => TAGS +:+ name
  | Name name => name
  end.

Lemma ascii_lower_hex c :
  is_ascii_hexdigit c = true → is_ascii_hexdigit (ascii_lower c) = true ∧ ascii_lower (ascii_lower c) = ascii_lower c.
Proof. destruct c as [[] [] [] [] [] [] [] []]; by vm_compute. Qed.

Lemma full_sha_lower s :
  full_sha s = true → full_sha (to_ascii_lowercase s) = true ∧ to_ascii_lowercase (to_ascii_lowercase s) = to_ascii_lowercase s.
Proof.
  unfold full_sha, to_ascii_lowercase. rewrite !andb_true_iff, !forallb_Forall', <-!length_bytes, !bytes_of_bytes, !length_map.
  intros [Hl Hh]. split.
  - split; [done|]. apply Forall_map. eapply Forall_impl; [done|]. intros c Hc. by apply ascii_lower_hex.
  - f_equal. rewrite map_map. apply map_ext_in. intros c Hc%list_elem_of_In. rewrite Forall_forall in Hh.
    by apply ascii_lower_hex, Hh.
Qed.

Lemma full_sha_static s : full_sha s = true → classify_ref s = Static.
Proof.
  unfold full_sha, classify_ref, is_template. rewrite andb_true_iff, forallb_Forall', Forall_forall. intros [_ Hh].
  assert (Hno : ∀ c l, ¬ infix ("{"%char :: c :: l) (bytes s)).
  { intros c l (a & b & E). assert (H : is_ascii_hexdigit "{" = true); [|by vm_compute in H].
    apply Hh. rewrite E. apply elem_of_app. right. by left. }
  replace (str_contains "{{" s) with false; [replace (str_contains "{%" s) with false; [done|]|];
    symmetry; apply contains_bytes_false, Hno.
Qed.

(** A parsed ref, spelled canonically, parses to itself: a commit is already
    lower case and the namespace of a branch or tag is kept. *)
Theorem parse_git_ref_canonical s spec : parse_git_ref s = Ok spec → parse_git_ref (canonical spec) = Ok spec.
Proof.
  intros E. pose proof (parse_git_ref_outcome s) as H. rewrite E in H. destruct H as [Hst Hd].
  assert (Hsp : denotes s spec) by by apply Hd.
  destruct Hsp as [s' Hs|n|n|n]; cbn [canonical]; try exact E.
  destruct (full_sha_lower s' Hs) as [Hl Hi]. pose proof (full_sha_static _ Hl) as Hst'.
  unfold parse_git_ref. cbn [canonical]. rewrite bool_decide_false by (by intros Heq; rewrite Heq in Hl).
  unfold classify_ref in Hst'. destruct (is_template _); [done|]. by rewrite Hl, Hi.
Qed.

(** The trimmed value passes when no secret is in it and it is a ref. *)
Lemma check_rendered_ref_ok rendered secrets v :
  check_rendered_ref rendered secrets = Ok v ↔
  v = trim rendered ∧ (∃ spec, parse_git_ref v = Ok spec) ∧
  ∀ s, s ∈ secrets → s ≠ "" → ¬ infix (bytes s) (bytes v).
Proof.
  unfold check_rendered_ref. destruct (existsb _ secrets) eqn:E.
  - apply existsb_exists' in E as (s & Hin & [Hne Hc]%andb_true_iff). split; [done|]. intros (-> & _ & H).
    apply negb_true_iff, bool_decide_eq_false in Hne. apply contains_bytes in Hc. by destruct (H s Hin Hne).
  - apply existsb_false_Forall in E. rewrite Forall_forall in E.
    destruct (parse_git_ref (trim rendered)) as [spec|e] eqn:Ep.
    + split; [|by intros (-> & _)]. intros [= <-]. split; [done|]. split; [by eexists|].
      intros s Hin Hne Hc%contains_bytes. specialize (E s Hin). rewrite Hc, bool_decide_false in E; done.
    + split; [done|]. intros (-> & [spec' Hs] & _). congruence.
Qed.

(** [parse_git_ref] answers each value with the one spec it denotes, and
    refuses exactly the empty, templated and meaningless ones, each with its
    own error. *)
Theorem parse_git_ref_correct s :
  parse_outcome s (parse_git_ref s) ∧ ∀ spec spec', denotes s spec → denotes s spec' → spec = spec'.
Proof. split; [apply parse_git_ref_outcome|apply denotes_functional]. Qed.
