(* ===== verification/JobModel.v ===== *)
(** * Job and step statuses

    [crates/stroem-common/src/models/job.rs]: the status enums, their database
    spelling ([AsRef<str>]/[Display]) and their parsers ([FromStr]). Rows hold
    a status as text, so the rest of the development compares strings and
    parses them with these functions, as the code does. *)
From S2P Require Import Prelude.

Inductive JobStatus := JobPending | JobRunning | JobCompleted | JobFailed | JobCancelled | JobSkipped.

#[export] Instance JobStatus_eq_dec : EqDecision JobStatus.
Proof. solve_decision. Defined.

Module JobStatus.
Definition as_ref (s : JobStatus) : string :=
  match s with
  | JobPending => "pending"
  | JobRunning => "running"
  | JobCompleted => "completed"
  | JobFailed => "failed"
  | JobCancelled => "cancelled"
  | JobSkipped => "skipped"
  end.

Definition from_str (s : string) : option JobStatus :=
  if s ==? "pending" then Some JobPending
  else if s ==? "running" then Some JobRunning
  else if s ==? "completed" then Some JobCompleted
  else if s ==? "failed" then Some JobFailed
  else if s ==? "cancelled" then Some JobCancelled
  else if s ==? "skipped" then Some JobSkipped
  else None.

Definition is_terminal (s : JobStatus) : bool :=
  match s with
  | JobCompleted | JobFailed | JobCancelled | JobSkipped => true
  | _ => false
  end.
End JobStatus.

Definition is_terminal_status (status : string) : bool :=
  match JobStatus.from_str status with
  | Some s => JobStatus.is_terminal s
  | None => false
  end.

Definition DEFERRED_ACTION_TYPE : string := "deferred".

Inductive StepStatus :=
| StepPending | StepReady | StepClaimed | StepRunning | StepCompleted
| StepFailed | StepSkipped | StepCancelled | StepSuspended.

#[export] Instance StepStatus_eq_dec : EqDecision StepStatus.
Proof. solve_decision. Defined.

Module StepStatus.
Definition as_ref (s : StepStatus) : string :=
  match s with
  | StepPending => "pending"
  | StepReady => "ready"
  | StepClaimed => "claimed"
  | StepRunning => "running"
  | StepCompleted => "completed"
  | StepFailed => "failed"
  | StepSkipped => "skipped"
  | StepCancelled => "cancelled"
  | StepSuspended => "suspended"
  end.

Definition from_str (s : string) : option StepStatus :=
  if s ==? "pending" then Some StepPending
  else if s ==? "ready" then Some StepReady
  else if s ==? "claimed" then Some StepClaimed
  else if s ==? "running" then Some StepRunning
  else if s ==? "completed" then Some StepCompleted
  else if s ==? "failed" then Some StepFailed
  else if s ==? "skipped" then Some StepSkipped
  else if s ==? "cancelled" then Some StepCancelled
  else if s ==? "suspended" then Some StepSuspended
  else None.
End StepStatus.

Inductive SkipReason := Condition | Empty | Cascade | Unreachable.

#[export] Instance SkipReason_eq_dec : EqDecision SkipReason.
Proof. solve_decision. Defined.

Module SkipReason.
Definition as_str (r : SkipReason) : string :=
  match r with
  | Condition => "condition"
  | Empty => "empty"
  | Cascade => "cascade"
  | Unreachable => "unreachable"
  end.

Definition from_str (s : string) : option SkipReason :=
  if s ==? "condition" then Some Condition
  else if s ==? "empty" then Some Empty
  else if s ==? "cascade" then Some Cascade
  else if s ==? "unreachable" then Some Unreachable
  else None.
End SkipReason.

Inductive SourceType := Api | User | Trigger | Webhook | Hook | SourceTask | EventSource | Retry.

Module SourceType.
Definition as_ref (s : SourceType) : string :=
  match s with
  | Api => "api"
  | User => "user"
  | Trigger => "trigger"
  | Webhook => "webhook"
  | Hook => "hook"
  | SourceTask => "task"
  | EventSource => "event_source"
  | Retry => "retry"
  end.

Definition from_str (s : string) : option SourceType :=
  if s ==? "api" then Some Api
  else if s ==? "user" then Some User
  else if s ==? "trigger" then Some Trigger
  else if s ==? "webhook" then Some Webhook
  else if s ==? "hook" then Some Hook
  else if s ==? "task" then Some SourceTask
  else if s ==? "event_source" then Some EventSource
  else if s ==? "retry" then Some Retry
  else None.
End SourceType.

Inductive ActionType := Script | Docker | Pod | ActionTask | Agent | Approval.

Module ActionType.
Definition as_ref (s : ActionType) : string :=
  match s with
  | Script => "script"
  | Docker => "docker"
  | Pod => "pod"
  | ActionTask => "task"
  | Agent => "agent"
  | Approval => "approval"
  end.

Definition from_str (s : string) : option ActionType :=
  if s ==? "script" then Some Script
  else if s ==? "docker" then Some Docker
  else if s ==? "pod" then Some Pod
  else if s ==? "task" then Some ActionTask
  else if s ==? "agent" then Some Agent
  else if s ==? "approval" then Some Approval
  else None.
End ActionType.

(** ** Parsing is the inverse of printing *)

(** Splits a chain of string comparisons in a hypothesis. *)
Ltac split_str_tests :=
  repeat match goal with
  | H : context [if bool_decide (?x = ?y) then _ else _] |- _ =>
      destruct (bool_decide_reflect (x = y)); simplify_eq
  end.

Lemma StepStatus_roundtrip st s :
  StepStatus.from_str s = Some st ↔ s = StepStatus.as_ref st.
Proof.
  split; [|by intros ->; destruct st].
  unfold StepStatus.from_str. intros H. split_str_tests; done.
Qed.

Lemma JobStatus_roundtrip st s :
  JobStatus.from_str s = Some st ↔ s = JobStatus.as_ref st.
Proof.
  split; [|by intros ->; destruct st].
  unfold JobStatus.from_str. intros H. split_str_tests; done.
Qed.

Lemma SkipReason_roundtrip r s :
  SkipReason.from_str s = Some r ↔ s = SkipReason.as_str r.
Proof.
  split; [|by intros ->; destruct r].
  unfold SkipReason.from_str. intros H. split_str_tests; done.
Qed.

(** The five parsers accept exactly the spellings their printers produce. *)
Lemma status_codecs_inverse :
  (∀ st s, StepStatus.from_str s = Some st ↔ s = StepStatus.as_ref st) ∧
  (∀ st s, JobStatus.from_str s = Some st ↔ s = JobStatus.as_ref st) ∧
  (∀ r s, SkipReason.from_str s = Some r ↔ s = SkipReason.as_str r) ∧
  (∀ t s, SourceType.from_str s = Some t ↔ s = SourceType.as_ref t) ∧
  (∀ t s, ActionType.from_str s = Some t ↔ s = ActionType.as_ref t).
Proof.
  split_and!; [exact StepStatus_roundtrip|exact JobStatus_roundtrip
    |exact SkipReason_roundtrip| |].
  - intros t s. split; [|by intros ->; destruct t].
    unfold SourceType.from_str. intros H. split_str_tests; done.
  - intros t s. split; [|by intros ->; destruct t].
    unfold ActionType.from_str. intros H. split_str_tests; done.
Qed.
