(* ===== verification/DependsOn.v ===== *)
(** * Dependency trees

    [crates/stroem-common/src/depends_on.rs]: the outcome vocabulary, accept
    sets, the four kinds of [depends_on] entries, the name collector and the
    structural validator. The serde visitors (YAML decoding of these types)
    belong to the serde crate and are not modelled. *)
From S2P Require Import Prelude.

Inductive Outcome := Completed | Failed | Cancelled | Skipped | Omitted.

#[export] Instance Outcome_eq_dec : EqDecision Outcome.
Proof. solve_decision. Defined.

Definition Outcome_ALL : list Outcome := [Completed; Failed; Cancelled; Skipped; Omitted].

Definition Outcome_as_str (o : Outcome) : string :=
  match o with
  | Completed => "completed"
  | Failed => "failed"
  | Cancelled => "cancelled"
  | Skipped => "skipped"
  | Omitted => "omitted"
  end.

Inductive AcceptSet :=
| AcceptAny
| AcceptOutcomes (v : list Outcome).

(** [AcceptSet::contains] *)
Definition accept_contains (a : AcceptSet) (o : Outcome) : bool :=
  match a with
  | AcceptAny => true
  | AcceptOutcomes v => bool_decide (o ∈ v)
  end.

Definition default_completed_only : AcceptSet := AcceptOutcomes [Completed].

Inductive DependsOnEntry :=
| Name (n : string)
| Step (step : string) (accept : AcceptSet)
| All (all : list DependsOnEntry)
| Any (any : list DependsOnEntry).

Definition leaf_name (e : DependsOnEntry) : option string :=
  match e with
  | Name n => Some n
  | Step s _ => Some s
  | All _ | Any _ => None
  end.

Definition children (e : DependsOnEntry) : option (list DependsOnEntry) :=
  match e with
  | All l | Any l => Some l
  | Name _ | Step _ _ => None
  end.

(** The body of [collect_names]'s loop for one entry: its own name when it is
    a leaf, the names of its children when it is a group. *)
Fixpoint entry_names (e : DependsOnEntry) : list string :=
  match e with
  | Name n => [n]
  | Step s _ => [s]
  | All l | Any l => flat_map entry_names l
  end.

Definition collect_names (entries : list DependsOnEntry) : list string :=
  flat_map entry_names entries.

(** ** Structural validation *)

(** The messages of a scan that reports every element already in [seen];
    [fmt] builds the message. *)
Fixpoint report_duplicates {A} `{EqDecision A} (fmt : A → string) (seen : list A) (l : list A)
    : list string :=
  match l with
  | [] => []
  | x :: l' =>
      (if bool_decide (x ∈ seen) then [fmt x] else []) ++ report_duplicates fmt (x :: seen) l'
  end.

Definition check_siblings (l : list DependsOnEntry) : list string :=
  report_duplicates
    (λ name, "duplicate dependency '" +:+ name +:+ "' in the same depends_on group")
    [] (omap leaf_name l).

Fixpoint check_nested (e : DependsOnEntry) : list string :=
  match e with
  | Name _ => []
  | Step s accept =>
      match accept with
      | AcceptAny => []
      | AcceptOutcomes v =>
          (if bool_decide (v = []) then ["'" +:+ s +:+ "' has an empty accept list"] else []) ++
          report_duplicates
            (λ o, "'" +:+ s +:+ "' has a duplicate outcome '" +:+ Outcome_as_str o
                  +:+ "' in its accept list") [] v
      end
  | All l =>
      (if match l with [] => true | _ => false end then ["an 'all' group must not be empty"] else []) ++
      check_siblings l ++ flat_map check_nested l
  | Any l =>
      (if match l with [] => true | _ => false end then ["an 'any' group must not be empty"] else []) ++
      check_siblings l ++ flat_map check_nested l
  end.

Definition validate_tree (entries : list DependsOnEntry) : result (list string) unit :=
  let errors := check_siblings entries ++ flat_map check_nested entries in
  match errors with
  | [] => Ok tt
  | _ => Err errors
  end.

(** ** Induction over trees *)

Section entry_ind.
Context (P : DependsOnEntry → Prop).
Context (HName : ∀ n, P (Name n)) (HStep : ∀ s a, P (Step s a)).
Context (HAll : ∀ l, Forall P l → P (All l)) (HAny : ∀ l, Forall P l → P (Any l)).

Fixpoint entry_ind' (e : DependsOnEntry) : P e :=
  let fix go (l : list DependsOnEntry) : Forall P l :=
    match l with
    | [] => Forall_nil_2 P
    | x :: l' => Forall_cons_2 P x l' (entry_ind' x) (go l')
    end in
  match e with
  | Name n => HName n
  | Step s a => HStep s a
  | All l => HAll l (go l)
  | Any l => HAny l (go l)
  end.
End entry_ind.

(** ** What a structurally valid tree is *)

Definition siblings_ok (l : list DependsOnEntry) : Prop := NoDup (omap leaf_name l).

Definition accept_ok (a : AcceptSet) : Prop :=
  match a with AcceptAny => True | AcceptOutcomes v => v ≠ [] ∧ NoDup v end.

Inductive entry_ok : DependsOnEntry → Prop :=
| name_ok n : entry_ok (Name n)
| step_ok s a : accept_ok a → entry_ok (Step s a)
| all_ok l : l ≠ [] → siblings_ok l → Forall entry_ok l → entry_ok (All l)
| any_ok l : l ≠ [] → siblings_ok l → Forall entry_ok l → entry_ok (Any l).

Lemma report_duplicates_nil {A} `{EqDecision A} fmt (seen l : list A) :
  report_duplicates fmt seen l = [] ↔ NoDup l ∧ (∀ x, x ∈ l → x ∉ seen).
Proof.
  revert seen. induction l as [|x l IH]; intros seen; simpl.
  { split; [|done]. intros _. split; [constructor|]. by intros x ?%elem_of_nil. }
  rewrite app_nil, IH, NoDup_cons.
  case_bool_decide as Hx; simpl.
  - split; [intros []; done|]. intros [_ H]. destruct (H x); [by left|done].
  - split.
    + intros (_ & Hnd & H). split_and!; [|done|].
      * intros Hin. apply (H x Hin). by left.
      * intros y [->|Hy]%elem_of_cons; [done|]. intros Hs. apply (H y Hy). by right.
    + intros ((Hnx & Hnd) & H). split_and!; [done..|].
      intros y Hy [->|Hs]%elem_of_cons; [done|]. apply (H y); [by right|done].
Qed.

Lemma check_siblings_nil l : check_siblings l = [] ↔ siblings_ok l.
Proof.
  unfold check_siblings, siblings_ok. rewrite report_duplicates_nil.
  split; [by intros []|]. intros H; split; [done|]. by intros x _ ?%elem_of_nil.
Qed.

Lemma flat_map_nil {A B} (f : A → list B) l : flat_map f l = [] ↔ Forall (λ x, f x = []) l.
Proof.
  induction l as [|x l IH]; simpl; [split; [constructor|done]|].
  by rewrite app_nil, Forall_cons, IH.
Qed.

Lemma Forall_iff_pointwise {A} (P Q : A → Prop) l :
  Forall (λ x, P x ↔ Q x) l → Forall P l ↔ Forall Q l.
Proof. induction 1; rewrite ?Forall_nil, ?Forall_cons; tauto. Qed.

Lemma group_nonempty {A B} (l : list A) (m : B) :
  (if match l with [] => true | _ => false end then [m] else []) = [] ↔ l ≠ [].
Proof. destruct l; naive_solver. Qed.

Lemma check_nested_nil e : check_nested e = [] ↔ entry_ok e.
Proof.
  induction e as [n|s a|l IH|l IH] using entry_ind'; simpl.
  - split; [constructor|done].
  - destruct a as [|v]; simpl; [split; [by constructor|done]|].
    rewrite app_nil, report_duplicates_nil.
    split.
    + intros (Hv & Hnd & _). constructor. split; [|done]. by case_bool_decide.
    + intros H. inversion H as [|? ? Ha| |]; subst. destruct Ha as [Hv Hnd].
      split_and!; [by rewrite bool_decide_false|done|]. by intros x _ ?%elem_of_nil.
  - apply Forall_iff_pointwise in IH.
    rewrite !app_nil, group_nonempty, check_siblings_nil, flat_map_nil, IH.
    split; [intros (? & ? & ?); by constructor|by inversion 1].
  - apply Forall_iff_pointwise in IH.
    rewrite !app_nil, group_nonempty, check_siblings_nil, flat_map_nil, IH.
    split; [intros (? & ? & ?); by constructor|by inversion 1].
Qed.

(** [validate_tree] accepts exactly the trees with no repeated sibling, no
    empty group and no empty or repeating accept list, at every depth. *)
Theorem validate_tree_ok_iff entries :
  validate_tree entries = Ok tt ↔ siblings_ok entries ∧ Forall entry_ok entries.
Proof.
  unfold validate_tree.
  assert (check_siblings entries ++ flat_map check_nested entries = [] ↔
          siblings_ok entries ∧ Forall entry_ok entries) as <-.
  { rewrite app_nil, check_siblings_nil, flat_map_nil.
    by setoid_rewrite check_nested_nil. }
  destruct (check_siblings entries ++ _); naive_solver.
Qed.
