(* ===== verification/Gate.v ===== *)
(** * The dependency gate

    [crates/stroem-common/src/gate.rs]: a dependency's live outcome, the
    readiness barrier ([all_terminal]) and the tree evaluation ([satisfied])
    that together decide whether a flow step waits, runs or is omitted. *)
From S2P Require Import Prelude JobModel DependsOn.

Inductive DepOutcome := DepPending | DepCompleted | DepFailed | DepCancelled | DepSkipped | DepOmitted.

#[export] Instance DepOutcome_eq_dec : EqDecision DepOutcome.
Proof. solve_decision. Defined.

(** [DepOutcome::from_row] *)
Definition from_row (status : string) (skip_reason : option string) : DepOutcome :=
  match StepStatus.from_str status with
  | Some StepCompleted => DepCompleted
  | Some StepFailed => DepFailed
  | Some StepCancelled => DepCancelled
  | Some StepSkipped =>
      match skip_reason ≫= SkipReason.from_str with
      | Some Condition | Some Empty => DepSkipped
      | Some Cascade | Some Unreachable | None => DepOmitted
      end
  | _ => DepPending
  end.

Definition as_schema_outcome (d : DepOutcome) : option Outcome :=
  match d with
  | DepPending => None
  | DepCompleted => Some Completed
  | DepFailed => Some Failed
  | DepCancelled => Some Cancelled
  | DepSkipped => Some Skipped
  | DepOmitted => Some Omitted
  end.

Inductive GateDecision := GateOpen | GateWait | GateOmitted.

#[export] Instance GateDecision_eq_dec : EqDecision GateDecision.
Proof. solve_decision. Defined.

Section gate.
Context (outcome_of : string → DepOutcome).

Fixpoint all_terminal (e : DependsOnEntry) : bool :=
  match e with
  | Name n | Step n _ => outcome_of n <>? DepPending
  | All l | Any l => forallb all_terminal l
  end.

Fixpoint satisfied (e : DependsOnEntry) : bool :=
  match e with
  | Name n => outcome_of n ==? DepCompleted
  | Step s accept =>
      match as_schema_outcome (outcome_of s) with
      | Some o => accept_contains accept o
      | None => false
      end
  | All l => forallb satisfied l
  | Any l => existsb satisfied l
  end.

Definition gate (depends_on : list DependsOnEntry) : GateDecision :=
  if negb (forallb all_terminal depends_on) then GateWait
  else if forallb satisfied depends_on then GateOpen
  else GateOmitted.
End gate.

(** [flow_step_name]: a loop instance is judged by its placeholder. *)
Definition flow_step_name (step_name : string) (loop_source : option string) : string :=
  match loop_source with
  | Some src => src
  | None =>
      match str_find "["%char step_name with
      | Some i => str_take i step_name
      | None => step_name
      end
  end.

(** ** Specification: when an entry is satisfied *)

Inductive Sat (o : string → DepOutcome) : DependsOnEntry → Prop :=
| sat_name n : o n = DepCompleted → Sat o (Name n)
| sat_step s a out : as_schema_outcome (o s) = Some out → accept_contains a out = true → Sat o (Step s a)
| sat_all l : Forall (Sat o) l → Sat o (All l)
| sat_any l e : e ∈ l → Sat o e → Sat o (Any l).

Lemma all_terminal_spec o e :
  all_terminal o e = true ↔ ∀ n, n ∈ entry_names e → o n ≠ DepPending.
Proof.
  induction e as [n|n a|l IH|l IH] using entry_ind'; simpl.
  1,2: rewrite negb_true_iff, bool_decide_eq_false; set_solver.
  all: rewrite forallb_Forall'; apply Forall_iff_pointwise in IH; rewrite IH, Forall_forall;
       setoid_rewrite elem_of_flat_map; naive_solver.
Qed.

Lemma satisfied_spec o e : satisfied o e = true ↔ Sat o e.
Proof.
  induction e as [n|n a|l IH|l IH] using entry_ind'; simpl.
  - rewrite bool_decide_eq_true. split; [by constructor|by inversion 1].
  - destruct (as_schema_outcome (o n)) as [out|] eqn:E.
    + split; [by econstructor|]. inversion 1; simplify_eq. congruence.
    + split; [done|]. inversion 1; congruence.
  - rewrite forallb_Forall'. apply Forall_iff_pointwise in IH. rewrite IH.
    split; [by constructor|by inversion 1].
  - rewrite existsb_exists'. rewrite Forall_forall in IH. split.
    + intros (e & Hin & He). econstructor; [done|]. by apply IH.
    + inversion 1 as [| | |? e Hin He]; subst. exists e. split; [done|]. by apply IH.
Qed.

Lemma gate_terminal_iff o deps :
  forallb (all_terminal o) deps = true ↔ ∀ n, n ∈ collect_names deps → o n ≠ DepPending.
Proof.
  rewrite forallb_Forall', Forall_forall. unfold collect_names.
  setoid_rewrite elem_of_flat_map. setoid_rewrite all_terminal_spec. naive_solver.
Qed.

Lemma gate_wait_iff o deps :
  gate o deps = GateWait ↔ ∃ n, n ∈ collect_names deps ∧ o n = DepPending.
Proof.
  unfold gate. destruct (forallb (all_terminal o) deps) eqn:E; simpl.
  - rewrite gate_terminal_iff in E. split; [by case_match|].
    intros (n & Hn & Ho). by destruct (E n Hn).
  - split; [intros _|done].
    destruct (decide (Exists (λ n, o n = DepPending) (collect_names deps))) as [Hex|Hnex].
    + apply Exists_exists in Hex. naive_solver.
    + exfalso. apply not_true_iff_false in E. apply E, gate_terminal_iff.
      intros n Hn Ho. apply Hnex, Exists_exists. eauto.
Qed.

Lemma gate_open_iff o deps :
  gate o deps = GateOpen ↔
  (∀ n, n ∈ collect_names deps → o n ≠ DepPending) ∧ Forall (Sat o) deps.
Proof.
  rewrite <-gate_terminal_iff.
  assert (forallb (satisfied o) deps = true ↔ Forall (Sat o) deps) as <-.
  { rewrite forallb_Forall'. by setoid_rewrite satisfied_spec. }
  unfold gate. destruct (forallb (all_terminal o) deps), (forallb (satisfied o) deps); naive_solver.
Qed.

(** C15. The gate decides by the readiness barrier and then by the accept tree:
    it waits exactly while some referenced step is not terminal, opens
    exactly when none is pending and every entry is satisfied, and omits the
    step otherwise. *)
Theorem gate_correct o deps :
  (gate o deps = GateWait ↔ ∃ n, n ∈ collect_names deps ∧ o n = DepPending) ∧
  (gate o deps = GateOpen ↔
     (∀ n, n ∈ collect_names deps → o n ≠ DepPending) ∧ Forall (Sat o) deps) ∧
  (gate o deps = GateOmitted ↔
     (∀ n, n ∈ collect_names deps → o n ≠ DepPending) ∧ ¬ Forall (Sat o) deps).
Proof.
  split_and!; [apply gate_wait_iff|apply gate_open_iff|].
  pose proof (gate_wait_iff o deps) as Hw. pose proof (gate_open_iff o deps) as Ho.
  destruct (gate o deps); split; naive_solver.
Qed.

(** ** The gate only looks at the referenced steps *)

Lemma all_terminal_ext o1 o2 e :
  (∀ n, n ∈ entry_names e → o1 n = o2 n) → all_terminal o1 e = all_terminal o2 e.
Proof.
  intros H. apply eq_true_iff_eq. rewrite !all_terminal_spec. naive_solver congruence.
Qed.

Lemma satisfied_ext o1 o2 e :
  (∀ n, n ∈ entry_names e → o1 n = o2 n) → satisfied o1 e = satisfied o2 e.
Proof.
  induction e as [n|n a|l IH|l IH] using entry_ind'; simpl; intros H.
  1,2: rewrite H by set_solver; done.
  all: assert (∀ e, e ∈ l → satisfied o1 e = satisfied o2 e) as Hl by
    (intros e He; rewrite Forall_forall in IH; apply IH; [done|];
     intros n Hn; apply H, elem_of_flat_map; eauto); clear IH H.
  all: induction l as [|e l IHl]; simpl; [done|];
    rewrite Hl by (by left); f_equal; apply IHl; intros; apply Hl; by right.
Qed.

Lemma gate_ext o1 o2 deps :
  (∀ n, n ∈ collect_names deps → o1 n = o2 n) → gate o1 deps = gate o2 deps.
Proof.
  intros H. unfold gate, collect_names in *.
  assert (∀ e, e ∈ deps → all_terminal o1 e = all_terminal o2 e ∧
                          satisfied o1 e = satisfied o2 e) as He.
  { intros e Hin. split; [apply all_terminal_ext|apply satisfied_ext];
      intros n Hn; apply H, elem_of_flat_map; eauto. }
  assert (forallb (all_terminal o1) deps = forallb (all_terminal o2) deps ∧
          forallb (satisfied o1) deps = forallb (satisfied o2) deps) as [-> ->]; [|done].
  clear H. induction deps as [|e deps IH]; simpl; [done|].
  destruct (He e) as [-> ->]; [by left|]. destruct IH as [-> ->]; [|done].
  intros e' ?; apply He; by right.
Qed.

(** Outcomes only settle: a step that is terminal keeps its outcome. *)
Definition outcomes_extend (o1 o2 : string → DepOutcome) : Prop :=
  ∀ n, o1 n ≠ DepPending → o2 n = o1 n.

#[export] Instance outcomes_extend_preorder : PreOrder outcomes_extend.
Proof.
  split; [by intros o n|]. intros o1 o2 o3 H12 H23 n H. rewrite H23; rewrite H12; auto.
Qed.

(** A decision of the gate is final: once it is not [Wait], later outcomes
    (terminal ones never change) leave it as it was. *)
Theorem gate_decision_final o1 o2 deps :
  outcomes_extend o1 o2 → gate o1 deps ≠ GateWait → gate o2 deps = gate o1 deps.
Proof.
  intros Hext Hw. symmetry. apply gate_ext. intros n Hn. symmetry. apply Hext.
  intros Hp. apply Hw, gate_wait_iff. eauto.
Qed.
