(* ===== verification/Workflow.v ===== *)
(** * Workflow definitions

    [crates/stroem-common/src/models/workflow.rs]: the data of a workspace's
    YAML after decoding, and the operations on it: type defaults of a
    connection, hoisting of inline actions, merging of files. A [HashMap] is a
    [gmap]; a duration is the [u64] seconds of its [HumanDuration]; a
    temperature is the bits of the number. *)
From S2P Require Import Prelude Json DependsOn.

(** ** Connections *)

Record ConnectionPropertyDef := mkConnProperty {
  property_type : string;
  cp_required : bool;
  cp_default : option json;
  cp_secret : bool;
}.

Record ConnectionTypeDef := mkConnType { properties : gmap string ConnectionPropertyDef }.

Record ConnectionDef := mkConn {
  connection_type : option string;
  shared : bool;
  values : gmap string json;
}.

(** The properties the connection does not set take the type's defaults. The
    loop's writes are independent, so the order of the map does not matter. *)
Definition values_with_type_defaults (conn : ConnectionDef) (type_def : ConnectionTypeDef) : gmap string json :=
  values conn ∪ omap cp_default (properties type_def).

(** ** Inputs and outputs *)

Definition canonicalize_field_type (raw : string) : string := if raw ==? "bool" then "boolean" else raw.

Record InputFieldDef := mkInputField {
  field_type : string;
  if_name : option string;
  if_description : option string;
  if_required : bool;
  if_secret : bool;
  if_default : option json;
  if_options : option (list string);
  if_allow_custom : bool;
  if_multiple : bool;
  if_order : option Z;
}.

Record OutputFieldDef := mkOutputField {
  of_type : string;
  of_description : option string;
  of_required : bool;
  of_default : option json;
  of_options : option (list json);
}.

(** A [BTreeMap]: its entries in key order. *)
Record OutputDef := mkOutputDef { out_properties : list (string * OutputFieldDef) }.

Definition output_property (field : OutputFieldDef) : json :=
  JObject (
    json_map_insert "type" (JString (of_type field)) (
    (match of_description field with Some d => json_map_insert "description" (JString d) | None => id end) (
    (match of_default field with Some d => json_map_insert "default" d | None => id end) (
    (match of_options field with Some o => json_map_insert "enum" (JArray o) | None => id end) [])))).

Definition to_json_schema (o : OutputDef) : json :=
  let properties := fold_left (λ m '(name, field), json_map_insert name (output_property field) m) (out_properties o) [] in
  let required := (λ x, JString x.1) <$> List.filter (λ x, of_required x.2) (out_properties o) in
  let schema := json_map_insert "type" (JString "object") (json_map_insert "properties" (JObject properties) []) in
  JObject (if bool_decide (required = []) then schema else json_map_insert "required" (JArray required) schema).

(** ** Retries *)

Inductive BackoffStrategy := Fixed | Exponential.

#[export] Instance BackoffStrategy_eq_dec : EqDecision BackoffStrategy.
Proof. solve_decision. Defined.

Record RetryConfig := {
  max_attempts : Z;
  delay : Z;
  backoff : BackoffStrategy;
  jitter : bool;
}.

(** ** Actions *)

Record ResourceDef := mkResource { cpu : option string; memory : option string }.

Inductive AgentToolRef :=
| ToolTask (task : string) (git_ref : option string)
| ToolMcp (mcp : string).

Record McpServerDef := mkMcpServer {
  transport : string;
  mcp_command : option string;
  mcp_args : option (list string);
  mcp_url : option string;
  auth_token : option string;
  mcp_env : gmap string string;
  mcp_timeout_secs : option Z;
}.

Record ActionDef := mkAction {
  a_action_type : string;
  a_name : option string;
  a_description : option string;
  a_task : option string;
  a_git_ref : option string;
  a_cmd : option string;
  a_script : option string;
  a_source : option string;
  a_runner : option string;
  a_language : option string;
  a_dependencies : list string;
  a_interpreter : option string;
  a_args : list string;
  a_tags : list string;
  a_image : option string;
  a_command : option (list string);
  a_entrypoint : option (list string);
  a_env : option (gmap string string);
  a_workdir : option string;
  a_resources : option ResourceDef;
  a_input : gmap string InputFieldDef;
  a_output : option OutputDef;
  a_manifest : option json;
  a_provider : option string;
  a_model : option string;
  a_system_prompt : option string;
  a_prompt : option string;
  a_temperature : option N;
  a_max_tokens : option Z;
  a_tools : list AgentToolRef;
  a_max_turns : option Z;
  a_interactive : bool;
  a_message : option string;
  a_retry : option RetryConfig;
}.

(** ** Hooks, flow steps and tasks *)

Record HookDef := mkHook {
  h_action : string;
  h_input : gmap string json;
  h_git_ref : option string;
}.

Record FlowStep := mkFlowStep {
  action : string;
  depends_on : list DependsOnEntry;
  continue_on_failure : bool;
  when_ : option string;
  for_each : option json;
  sequential : bool;
  retry : option RetryConfig;
  git_ref : option string;
  fs_name : option string;
  fs_description : option string;
  fs_input : gmap string json;
  legacy_continue_when_skipped : option bool;
  fs_timeout : option Z;
  inline_action : option ActionDef;
}.

Record TaskDef := mkTaskDef {
  mode : string;
  flow : gmap string FlowStep;
  task_retry : option RetryConfig;
  td_name : option string;
  td_description : option string;
  folder : option string;
  td_input : gmap string InputFieldDef;
  td_timeout : option Z;
  td_on_success : list HookDef;
  td_on_error : list HookDef;
  td_on_suspended : list HookDef;
  td_on_cancel : list HookDef;
}.

(** Steps and tasks that leave the rest of the fields at their defaults. *)
Definition flow_step (action : string) (depends_on : list DependsOnEntry) (continue_on_failure : bool)
    (when_ : option string) (for_each : option json) (sequential : bool) (retry : option RetryConfig)
    (git_ref : option string) : FlowStep :=
  mkFlowStep action depends_on continue_on_failure when_ for_each sequential retry git_ref None None ∅ None None None.
Definition bare_task (mode : string) (flow : gmap string FlowStep) (task_retry : option RetryConfig) : TaskDef :=
  mkTaskDef mode flow task_retry None None None ∅ None [] [] [] [].

(** The names a step depends on, anywhere in its tree. *)
Definition step_deps (fs : FlowStep) : list string := collect_names (depends_on fs).

(** ** Triggers *)

Inductive ConcurrencyPolicy := Allow | Skip | CancelPrevious.

#[export] Instance ConcurrencyPolicy_eq_dec : EqDecision ConcurrencyPolicy.
Proof. solve_decision. Defined.

Inductive RestartPolicy := Always | OnFailure | Never.

#[export] Instance RestartPolicy_eq_dec : EqDecision RestartPolicy.
Proof. solve_decision. Defined.

Record SchedulerTrigger := mkScheduler {
  sc_cron : string; sc_task : string; sc_input : gmap string json; sc_enabled : bool;
  sc_concurrency : ConcurrencyPolicy; sc_timezone : option string; sc_force_refresh : bool; sc_git_ref : option string }.
Record WebhookTrigger := mkWebhook {
  wh_name : string; wh_task : string; wh_secret : option string; wh_input : gmap string json; wh_enabled : bool;
  wh_mode : option string; wh_timeout_secs : option Z; wh_force_refresh : bool; wh_git_ref : option string }.
Record EventSourceTrigger := mkEventSource {
  es_task : string; es_target_task : string; es_enabled : bool; es_input : gmap string json; es_env : gmap string string;
  es_restart_policy : RestartPolicy; es_backoff_secs : Z; es_max_in_flight : option Z; es_git_ref : option string }.

Inductive TriggerDef :=
| TScheduler (t : SchedulerTrigger)
| TWebhook (t : WebhookTrigger)
| TEventSource (t : EventSourceTrigger).

Module TriggerDef.
Definition task (t : TriggerDef) : string :=
  match t with TScheduler s => sc_task s | TWebhook w => wh_task w | TEventSource e => es_task e end.
Definition input (t : TriggerDef) : gmap string json :=
  match t with TScheduler s => sc_input s | TWebhook w => wh_input w | TEventSource e => es_input e end.
Definition enabled (t : TriggerDef) : bool :=
  match t with TScheduler s => sc_enabled s | TWebhook w => wh_enabled w | TEventSource e => es_enabled e end.
Definition trigger_type_str (t : TriggerDef) : string :=
  match t with TScheduler _ => "scheduler" | TWebhook _ => "webhook" | TEventSource _ => "event_source" end.
Definition concurrency (t : TriggerDef) : ConcurrencyPolicy :=
  match t with TScheduler s => sc_concurrency s | TWebhook _ | TEventSource _ => Allow end.
Definition timezone (t : TriggerDef) : option string :=
  match t with TScheduler s => sc_timezone s | TWebhook _ | TEventSource _ => None end.
Definition force_refresh (t : TriggerDef) : bool :=
  match t with TScheduler s => sc_force_refresh s | TWebhook w => wh_force_refresh w | TEventSource _ => false end.
Definition target_task (t : TriggerDef) : option string :=
  match t with TEventSource e => Some (es_target_task e) | _ => None end.
Definition git_ref (t : TriggerDef) : option string :=
  match t with TScheduler s => sc_git_ref s | TWebhook w => wh_git_ref w | TEventSource e => es_git_ref e end.
End TriggerDef.

(** ** Workspaces *)

Record WorkspaceConfig := mkWorkspace {
  secrets : gmap string json;
  connection_types : gmap string ConnectionTypeDef;
  connections : gmap string ConnectionDef;
  actions : gmap string ActionDef;
  tasks : gmap string TaskDef;
  triggers : gmap string TriggerDef;
  on_success : list HookDef;
  on_error : list HookDef;
  on_suspended : list HookDef;
  on_cancel : list HookDef;
  mcp_servers : gmap string McpServerDef;
}.

Definition empty_workspace : WorkspaceConfig := mkWorkspace ∅ ∅ ∅ ∅ ∅ ∅ [] [] [] [] ∅.

(** [merge]: the later file's entries win, its hooks follow. *)
Definition merge (c d : WorkspaceConfig) : WorkspaceConfig :=
  mkWorkspace (secrets d ∪ secrets c) (connection_types d ∪ connection_types c) (connections d ∪ connections c)
    (actions d ∪ actions c) (tasks d ∪ tasks c) (triggers d ∪ triggers c)
    (on_success c ++ on_success d) (on_error c ++ on_error d) (on_suspended c ++ on_suspended d)
    (on_cancel c ++ on_cancel d) (mcp_servers d ∪ mcp_servers c).
