(* ===== verification/Dag.v ===== *)
(** * Flow validation: topological order

    [crates/stroem-common/src/dag.rs]: [ready_steps] and [validate_dag]
    (Kahn's algorithm). [HashMap] iteration orders come from [HashIter]; the
    [expect]s and the [usize] decrement of the source are explicit [Panic]
    results, and the work loop has fuel, whose exhaustion is [OutOfFuel]: the
    theorems show neither ever happens. *)
From S2P Require Import Prelude DependsOn Workflow Gate.

Inductive DagError :=
| MissingDep (step dep : string)   (* bail!("Step '{}' depends on non-existent step '{}'") *)
| CycleDetected                    (* bail!("Cycle detected in workflow DAG") *)
| Panic
| OutOfFuel.

Section dag.
Context `{HashIter}.
Implicit Types fl : gmap string FlowStep.

Definition ready_steps (fl : gmap string FlowStep) (completed : gset string) : list string :=
  omap (λ '(step_name, step),
    if bool_decide (step_name ∈ completed) then None
    else if forallb (λ dep, bool_decide (dep ∈ completed)) (step_deps step)
    then Some step_name else None) (hash_iter fl).

(** The in-degree map and the adjacency list under construction. *)
Record graph := mkGraph { in_degree : gmap string nat; adj_list : gmap string (list string) }.

Definition init_graph fl : graph :=
  mkGraph ((λ _, 0%nat) <$> fl) ((λ _, []) <$> fl).

(** The loop over one step's collected names. *)
Fixpoint add_edges fl (step_name : string) (names : list string) (g : graph) : result DagError graph :=
  match names with
  | [] => Ok g
  | dep :: names' =>
      match fl !! dep with
      | None => Err (MissingDep step_name dep)
      | Some _ =>
          match adj_list g !! dep, in_degree g !! step_name with
          | Some l, Some d =>
              add_edges fl step_name names'
                (mkGraph (<[step_name := S d]> (in_degree g))
                         (<[dep := l ++ [step_name]]> (adj_list g)))
          | _, _ => Err Panic
          end
      end
  end.

Fixpoint build_graph fl (entries : list (string * FlowStep)) (g : graph) : result DagError graph :=
  match entries with
  | [] => Ok g
  | (step_name, step) :: entries' =>
      let? g' := add_edges fl step_name (step_deps step) g in
      build_graph fl entries' g'
  end.

(** [for dependent in dependents]: decrement, enqueue at zero. *)
Fixpoint relax (dependents : list string) (deg : gmap string nat) (queue : list string)
    : result DagError (gmap string nat * list string) :=
  match dependents with
  | [] => Ok (deg, queue)
  | d :: rest =>
      match deg !! d with
      | Some (S k) =>
          relax rest (<[d := k]> deg) (if k ==? 0%nat then queue ++ [d] else queue)
      | _ => Err Panic
      end
  end.

Fixpoint kahn (fuel : nat) (adj : gmap string (list string)) (deg : gmap string nat)
    (queue result_ : list string) : result DagError (list string) :=
  match queue with
  | [] => Ok result_
  | step_name :: queue' =>
      match fuel with
      | 0%nat => Err OutOfFuel
      | S fuel' =>
          match adj !! step_name with
          | Some dependents =>
              let? r := relax dependents deg queue' in
              kahn fuel' adj r.1 r.2 (result_ ++ [step_name])
          | None => kahn fuel' adj deg queue' (result_ ++ [step_name])
          end
      end
  end.

Definition validate_dag fl : result DagError (list string) :=
  let? g := build_graph fl (hash_iter fl) (init_graph fl) in
  let queue := omap (λ '(step_name, degree), if degree ==? 0%nat then Some step_name else None)
                    (hash_iter (in_degree g)) in
  let? order := kahn (size fl) (adj_list g) (in_degree g) queue [] in
  if length order ==? size fl then Ok order else Err CycleDetected.
End dag.

(** ** Specification *)

(** [dep] is named somewhere in the [depends_on] tree of [step]. *)
Definition depends (fl : gmap string FlowStep) (step dep : string) : Prop :=
  ∃ fs, fl !! step = Some fs ∧ dep ∈ step_deps fs.

(** Every step of the order comes after all the steps it depends on. *)
Definition topological (fl : gmap string FlowStep) (order : list string) : Prop :=
  ∀ i s, order !! i = Some s → ∀ d, depends fl s d → d ∈ take i order.

(** ** Edges as a list *)

Definition edges_of (entries : list (string * FlowStep)) : list (string * string) :=
  flat_map (λ '(s, fs), (λ d, (d, s)) <$> step_deps fs) entries.

Definition adj_of (E : list (string * string)) (d : string) : list string :=
  (filter (λ e, e.1 = d) E).*2.
Definition deg_of (E : list (string * string)) (s : string) : nat :=
  length (filter (λ e, e.2 = s) E).
(** In-edges from steps not yet emitted. *)
Definition deg_rem (E : list (string * string)) (res : list string) (s : string) : nat :=
  length (filter (λ e, e.2 = s ∧ e.1 ∉ res) E).

Definition graph_of (fl : gmap string FlowStep) (E : list (string * string)) (g : graph) : Prop :=
  (∀ k, in_degree g !! k = (λ _, deg_of E k) <$> fl !! k) ∧
  (∀ k, adj_list g !! k = (λ _, adj_of E k) <$> fl !! k).

Lemma adj_of_app E F d : adj_of (E ++ F) d = adj_of E d ++ adj_of F d.
Proof. unfold adj_of. by rewrite filter_app, fmap_app. Qed.
Lemma deg_of_app E F s : deg_of (E ++ F) s = (deg_of E s + deg_of F s)%nat.
Proof. unfold deg_of. by rewrite filter_app, length_app. Qed.

Lemma adj_of_single d s k : adj_of [(d, s)] k = if decide (d = k) then [s] else [].
Proof. unfold adj_of. destruct (decide (d = k)); [by rewrite filter_cons_True|by rewrite filter_cons_False]. Qed.
Lemma deg_of_single d s k : deg_of [(d, s)] k = if decide (s = k) then 1%nat else 0%nat.
Proof. unfold deg_of. destruct (decide (s = k)); [by rewrite filter_cons_True|by rewrite filter_cons_False]. Qed.

Lemma graph_of_init fl : graph_of fl [] (init_graph fl).
Proof. split; intros k; simpl; rewrite lookup_fmap; by destruct (fl !! k). Qed.

Lemma add_edges_ok fl s names E g :
  is_Some (fl !! s) → graph_of fl E g →
  match add_edges fl s names g with
  | Ok g' => graph_of fl (E ++ ((λ d, (d, s)) <$> names)) g' ∧ ∀ d, d ∈ names → is_Some (fl !! d)
  | Err (MissingDep s' d) => s' = s ∧ d ∈ names ∧ fl !! d = None
  | Err _ => False
  end.
Proof.
  intros Hs. revert E g. induction names as [|d names IH]; intros E g Hg; simpl.
  { rewrite app_nil_r. split; [done|]. by intros ? ?%elem_of_nil. }
  destruct (fl !! d) as [fd|] eqn:Hd; [|split_and!; [done|by left|done]].
  destruct Hg as [Hdeg Hadj]. destruct Hs as [fs Hs].
  rewrite Hadj, Hd, Hdeg, Hs; simpl.
  specialize (IH (E ++ [(d, s)])
    (mkGraph (<[s:=S (deg_of E s)]> (in_degree g)) (<[d:=adj_of E d ++ [s]]> (adj_list g)))).
  feed IH.
  { split; intros k; simpl.
    - rewrite lookup_insert, deg_of_app, deg_of_single. case_decide; subst.
      + rewrite Hs; simpl. f_equal. lia.
      + by rewrite Hdeg, Nat.add_0_r.
    - rewrite lookup_insert, adj_of_app, adj_of_single. case_decide; subst.
      + by rewrite Hd.
      + by rewrite Hadj, app_nil_r. }
  rewrite <-app_assoc in IH. simpl in IH.
  destruct (add_edges fl s names _) as [g'|[]]; try done.
  - destruct IH as [IH1 IH2]. split; [done|].
    intros d' [->|?]%elem_of_cons; [by rewrite Hd|auto].
  - destruct IH as (-> & ? & ?). split_and!; [done|by right|done].
Qed.

Lemma build_graph_ok fl entries E g :
  (∀ s fs, (s, fs) ∈ entries → fl !! s = Some fs) → graph_of fl E g →
  match build_graph fl entries g with
  | Ok g' => graph_of fl (E ++ edges_of entries) g' ∧
             ∀ s fs d, (s, fs) ∈ entries → d ∈ step_deps fs → is_Some (fl !! d)
  | Err (MissingDep s d) => depends fl s d ∧ fl !! d = None
  | Err _ => False
  end.
Proof.
  revert E g. induction entries as [|[s fs] entries IH]; intros E g Hin Hg; simpl.
  { rewrite app_nil_r. split; [done|]. by intros ? ? ? ?%elem_of_nil. }
  assert (Hs : fl !! s = Some fs) by (apply Hin; by left).
  pose proof (add_edges_ok fl s (step_deps fs) E g) as Hadd.
  feed Hadd; [by rewrite Hs|]. feed Hadd; [done|].
  destruct (add_edges fl s (step_deps fs) g) as [g1|[]]; simpl; try done.
  2: { destruct Hadd as (-> & ? & ?). split; [by exists fs|done]. }
  destruct Hadd as [Hg1 Hex].
  specialize (IH (E ++ ((λ d, (d, s)) <$> step_deps fs)) g1).
  feed IH; [intros; apply Hin; by right|]. feed IH; [done|].
  rewrite <-app_assoc in IH.
  destruct (build_graph fl entries g1) as [g'|[]]; try done.
  destruct IH as [? IH2]. split; [done|].
  intros s' fs' d [[= -> ->]|?]%elem_of_cons ?; eauto.
Qed.

(** ** The relaxation loop *)

Definition occ (s : string) (l : list string) : nat := length (filter (λ x, x = s) l).

Lemma occ_cons s d l : occ s (d :: l) = ((if decide (d = s) then 1 else 0) + occ s l)%nat.
Proof.
  unfold occ. destruct (decide (d = s));
    [by rewrite filter_cons_True|by rewrite filter_cons_False].
Qed.

Lemma occ_pos s l : (0 < occ s l)%nat ↔ s ∈ l.
Proof.
  induction l as [|d l IH]; [split; [by inversion 1|by intros ?%elem_of_nil]|].
  rewrite occ_cons, elem_of_cons. case_decide; subst; [naive_solver lia|].
  rewrite <-IH. naive_solver lia.
Qed.

(** [m] holds [f] on the keys of [fl]. *)
Definition represents (fl : gmap string FlowStep) (f : string → nat) (m : gmap string nat) : Prop :=
  ∀ k, m !! k = (λ _, f k) <$> fl !! k.

Lemma relax_ok fl l f deg q :
  represents fl f deg → (∀ s, s ∈ l → is_Some (fl !! s)) → (∀ s, occ s l ≤ f s)%nat →
  ∃ deg' zs, relax l deg q = Ok (deg', q ++ zs) ∧
    represents fl (λ s, f s - occ s l)%nat deg' ∧ NoDup zs ∧
    ∀ x, x ∈ zs ↔ x ∈ l ∧ f x = occ x l.
Proof.
  revert f deg q. induction l as [|d l IH]; intros f deg q Hdeg Hin Hocc; simpl.
  { exists deg, []. rewrite app_nil_r. split_and!; [done| |constructor|].
    - intros k. rewrite Hdeg. by rewrite Nat.sub_0_r.
    - intros x. set_solver. }
  destruct (Hin d) as [fd Hd]; [by left|].
  rewrite Hdeg, Hd; simpl.
  pose proof (Hocc d) as Hod. rewrite occ_cons, decide_True in Hod by done.
  destruct (f d) as [|k] eqn:Hfd; [lia|].
  set (f' := λ s, if decide (d = s) then k else f s).
  destruct (IH f' (<[d:=k]> deg) (if k ==? 0%nat then q ++ [d] else q))
    as (deg' & zs & Hr & Hdeg' & Hnd & Hzs).
  - intros s. unfold f'. rewrite lookup_insert. case_decide; subst; [by rewrite Hd|apply Hdeg].
  - intros s ?. apply Hin. by right.
  - intros s. unfold f'. case_decide; subst; [lia|].
    specialize (Hocc s). rewrite occ_cons, decide_False in Hocc by done. done.
  - assert (Hrep : represents fl (λ s, f s - occ s (d :: l))%nat deg').
    { intros s. rewrite Hdeg'. unfold f'. rewrite occ_cons.
      destruct (fl !! s); simpl; [|done]. destruct (decide (d = s)); subst; f_equal; lia. }
    case_bool_decide as Hk0; subst.
    + assert (d ∉ l) by (rewrite <-occ_pos; lia).
      exists deg', (d :: zs). rewrite <-app_assoc in Hr. split_and!; [done|done| |].
      * constructor; [|done]. rewrite Hzs. tauto.
      * intros x. rewrite elem_of_cons, Hzs, elem_of_cons, occ_cons. unfold f'.
        destruct (decide (d = x)); subst; [|naive_solver].
        assert (occ x l = 0%nat) by lia. split; [|by left]. intros _. split; [by left|lia].
    + exists deg', zs. split_and!; [done..|].
      intros x. rewrite Hzs, elem_of_cons, occ_cons. unfold f'.
      destruct (decide (d = x)); subst; [|naive_solver].
      split; [intros [? ?]; split; [by left|lia]|].
      intros [_ ?]. split; [apply occ_pos; lia|lia].
Qed.

Lemma deg_rem_step E res n s :
  n ∉ res → deg_rem E res s = (deg_rem E (res ++ [n]) s + occ s (adj_of E n))%nat.
Proof.
  intros Hn. unfold deg_rem, adj_of, occ.
  induction E as [|[d x] E IH]; [done|].
  destruct (decide (d = n)) as [->|Hd].
  - rewrite (filter_cons_True (λ e : string * string, e.1 = n)) by done.
    rewrite (filter_cons_False (λ e : string * string, e.2 = s ∧ e.1 ∉ res ++ [n])) by set_solver.
    rewrite fmap_cons; cbn [snd].
    destruct (decide (x = s)) as [->|Hx].
    + rewrite filter_cons_True, (filter_cons_True (λ x, x = s)) by done. cbn [length]. lia.
    + rewrite filter_cons_False, (filter_cons_False (λ x, x = s)) by naive_solver. lia.
  - rewrite (filter_cons_False (λ e : string * string, e.1 = n)) by done.
    destruct (decide (x = s ∧ d ∉ res)) as [[-> Hr]|Hx].
    + rewrite !filter_cons_True by set_solver. cbn [length]. lia.
    + rewrite !filter_cons_False by set_solver. lia.
Qed.

Lemma deg_rem_zero E res s : deg_rem E res s = 0%nat ↔ ∀ d, (d, s) ∈ E → d ∈ res.
Proof.
  unfold deg_rem. rewrite length_zero_iff_nil. split.
  - intros Hnil d Hd. destruct (decide (d ∈ res)); [done|]. exfalso.
    assert ((d, s) ∈ filter (λ e, e.2 = s ∧ e.1 ∉ res) E) as Hin.
    { by apply list_elem_of_filter. }
    rewrite Hnil in Hin. by apply elem_of_nil in Hin.
  - intros Hall. apply filter_nil_iff. apply Forall_forall.
    intros [d s'] Hin [? Hd]; simpl in *; subst. by apply Hd, Hall.
Qed.

Lemma deg_rem_pos E res s : deg_rem E res s ≠ 0%nat → ∃ d, (d, s) ∈ E ∧ d ∉ res.
Proof.
  unfold deg_rem. intros Hpos.
  destruct (filter _ E) as [|[d s'] l] eqn:Hf; [done|].
  assert ((d, s') ∈ filter (λ e, e.2 = s ∧ e.1 ∉ res) E) as Hin by (rewrite Hf; by left).
  apply list_elem_of_filter in Hin as [[? ?] ?]; simpl in *; subst. eauto.
Qed.

Lemma elem_of_adj_of E d s : s ∈ adj_of E d ↔ (d, s) ∈ E.
Proof.
  unfold adj_of. rewrite list_elem_of_fmap. setoid_rewrite list_elem_of_filter. split.
  - intros ([d' s'] & -> & Hd & Hin). simpl in *. by subst.
  - intros Hin. by exists (d, s).
Qed.

(** ** The invariant of Kahn's loop *)

Record kahn_inv (fl : gmap string FlowStep) (E : list (string * string))
    (res q : list string) (deg : gmap string nat) : Prop := {
  ki_nodup : NoDup (res ++ q);
  ki_keys : ∀ x, x ∈ res ++ q → is_Some (fl !! x);
  ki_deg : represents fl (deg_rem E res) deg;
  ki_zero : ∀ x, is_Some (fl !! x) → (x ∈ res ++ q ↔ deg_rem E res x = 0%nat);
  ki_topo : ∀ i s, res !! i = Some s → ∀ d, (d, s) ∈ E → d ∈ take i res;
}.

Definition edges_in (fl : gmap string FlowStep) (E : list (string * string)) : Prop :=
  ∀ d s, (d, s) ∈ E → is_Some (fl !! d) ∧ is_Some (fl !! s).

Lemma nodup_keys_length {V} (fl : gmap string V) l :
  NoDup l → (∀ x, x ∈ l → is_Some (fl !! x)) → (length l ≤ size fl)%nat.
Proof.
  intros Hnd Hin. rewrite <-size_dom, <-(size_list_to_set (C:=gset string) l) by done.
  apply subseteq_size. intros x Hx%elem_of_list_to_set. apply elem_of_dom. auto.
Qed.

Lemma kahn_inv_step fl E res n q deg :
  edges_in fl E → kahn_inv fl E res (n :: q) deg →
  ∃ deg' zs, relax (adj_of E n) deg q = Ok (deg', q ++ zs) ∧
             kahn_inv fl E (res ++ [n]) (q ++ zs) deg'.
Proof.
  intros HE [Hnd Hk Hdeg Hz Ht].
  assert (Hn : n ∉ res).
  { intros Hin. apply NoDup_app in Hnd as (_ & Hd & _). apply (Hd n Hin). by left. }
  assert (Hstep := λ s, deg_rem_step E res n s Hn).
  destruct (relax_ok fl (adj_of E n) (deg_rem E res) deg q) as (deg' & zs & Hr & Hdeg' & Hndz & Hzs).
  { done. }
  { intros s Hs%elem_of_adj_of. by destruct (HE n s). }
  { intros s. rewrite Hstep. lia. }
  exists deg', zs. split; [done|].
  assert (Hin : ∀ x, x ∈ (res ++ [n]) ++ q ++ zs ↔ x ∈ res ++ n :: q ∨ x ∈ zs).
  { intros x. rewrite !elem_of_app, !elem_of_cons, elem_of_nil. tauto. }
  assert (Hzdisj : ∀ x, x ∈ zs → x ∉ res ++ n :: q).
  { intros x [Hx Heq]%Hzs Hx'. apply Hz in Hx'; [|by apply Hk].
    apply occ_pos in Hx. lia. }
  split.
  - rewrite <-app_assoc. simpl. rewrite app_comm_cons, app_assoc. apply NoDup_app.
    split_and!; [done|by intros x Hx Hx'; apply (Hzdisj x)|done].
  - intros x [?|[Hx%elem_of_adj_of _]%Hzs]%Hin; [by apply Hk|]. by destruct (HE n x).
  - intros k. rewrite Hdeg'. destruct (fl !! k); simpl; [|done]. f_equal. rewrite Hstep. lia.
  - intros x Hx. rewrite Hin, Hz, Hzs by done. pose proof (occ_pos x (adj_of E n)) as Hp.
    rewrite Hstep. split; [intros [?|[_ ?]]; lia|].
    intros Heq. destruct (decide (x ∈ adj_of E n)) as [Ha|Ha]; [right; split; [done|lia]|left].
    assert (¬ (0 < occ x (adj_of E n))%nat) by tauto. lia.
  - intros i s Hi d Hd.
    apply lookup_app_Some in Hi as [Hi|[Hlen Hi]].
    + rewrite take_app_le by (apply lookup_lt_Some in Hi; lia). eauto.
    + apply list_lookup_singleton_Some in Hi as [Hi <-].
      rewrite take_app_le, take_ge by lia.
      apply (deg_rem_zero E res n); [|done]. apply Hz; [|set_solver].
      apply Hk. set_solver.
Qed.

Lemma kahn_ok fl E adj fuel deg q res :
  edges_in fl E → (∀ k, adj !! k = (λ _, adj_of E k) <$> fl !! k) →
  kahn_inv fl E res q deg → (size fl ≤ length res + fuel)%nat →
  ∃ order deg', kahn fuel adj deg q res = Ok order ∧ kahn_inv fl E order [] deg'.
Proof.
  intros HE Hadj. revert deg q res. induction fuel as [|fuel IH]; intros deg q res Hinv Hfuel.
  - destruct q as [|n q]; simpl; [by eauto|]. exfalso.
    pose proof (nodup_keys_length fl (res ++ n :: q) (ki_nodup _ _ _ _ _ Hinv) (ki_keys _ _ _ _ _ Hinv)).
    rewrite length_app in *. simpl in *. lia.
  - destruct q as [|n q]; simpl; [by eauto|].
    destruct (ki_keys _ _ _ _ _ Hinv n) as [fn Hfn]; [set_solver|].
    rewrite Hadj, Hfn; simpl.
    destruct (kahn_inv_step fl E res n q deg HE Hinv) as (deg' & zs & -> & Hinv'); simpl.
    apply IH; [done|]. rewrite length_app; simpl. lia.
Qed.

(** ** A finite set where every element has a successor contains a cycle *)

Section cycle.
Context {A : Type} `{EqDecision A} (R : A → A → Prop).

(** [w] is a walk: each element is reached from the one after it. *)
Definition walk (w : list A) : Prop :=
  ∀ i a b, w !! i = Some a → w !! S i = Some b → R b a.

Lemma walk_tc w i j a b :
  walk w → (i < j)%nat → w !! i = Some a → w !! j = Some b → tc R b a.
Proof.
  intros Hw Hij. revert b. induction Hij as [|j Hij IH]; intros b Ha Hb.
  - apply tc_once. eauto.
  - destruct (lookup_lt_is_Some_2 w j) as [c Hc]; [apply lookup_lt_Some in Hb; lia|].
    eapply tc_l; [by eapply Hw|]. by apply IH.
Qed.

Lemma not_NoDup_repeat (w : list A) :
  ¬ NoDup w → ∃ i j x, (i < j)%nat ∧ w !! i = Some x ∧ w !! j = Some x.
Proof.
  induction w as [|x w IH]; intros Hnd; [by destruct Hnd; constructor|].
  destruct (decide (x ∈ w)) as [[j Hj]%list_elem_of_lookup|Hx].
  - exists 0%nat, (S j), x. split_and!; [lia|done..].
  - destruct IH as (i & j & y & ? & ? & ?); [by intros ?; destruct Hnd; constructor|].
    exists (S i), (S j), y. split_and!; [lia|done..].
Qed.

Lemma finite_cycle (l : list A) x0 :
  x0 ∈ l → (∀ x, x ∈ l → ∃ y, y ∈ l ∧ R x y) → ∃ x, tc R x x.
Proof.
  intros Hx0 Hsucc.
  assert (∀ n, ∃ w, length w = S n ∧ (∀ x, x ∈ w → x ∈ l) ∧ walk w) as Hwalk.
  { induction n as [|n (w & Hlen & Hsub & Hw)].
    - exists [x0]. split_and!; [done|set_solver|]. by intros [|i] a b.
    - destruct w as [|x w]; [done|]. destruct (Hsucc x) as (y & Hy & HR); [apply Hsub; by left|].
      exists (y :: x :: w). split_and!; [simpl in *; lia|set_solver|].
      intros [|i] a b; simpl; [by intros [= <-] [= <-]|apply Hw]. }
  destruct (Hwalk (length l)) as (w & Hlen & Hsub & Hw).
  destruct (decide (NoDup w)) as [Hnd|Hnd].
  - exfalso. assert (w ⊆+ l) as Hsm%submseteq_length by by apply NoDup_submseteq. lia.
  - apply not_NoDup_repeat in Hnd as (i & j & x & Hij & Hi & Hj).
    exists x. by eapply walk_tc.
Qed.
End cycle.

(** ** Correctness of [validate_dag] *)

Section validate.
Context `{HashIter}.
Implicit Types fl : gmap string FlowStep.

Lemma elem_of_edges_of entries d s :
  (d, s) ∈ edges_of entries ↔ ∃ fs, (s, fs) ∈ entries ∧ d ∈ step_deps fs.
Proof.
  unfold edges_of. rewrite elem_of_flat_map. split.
  - intros ([s' fs] & Hin & Hd). apply list_elem_of_fmap in Hd as (d' & [= -> ->] & Hd). eauto.
  - intros (fs & Hin & Hd). exists (s, fs). split; [done|]. apply list_elem_of_fmap. eauto.
Qed.

Lemma flow_edges fl d s : (d, s) ∈ edges_of (hash_iter fl) ↔ depends fl s d.
Proof.
  rewrite elem_of_edges_of. unfold depends. by setoid_rewrite elem_of_hash_iter.
Qed.

Lemma deg_rem_nil E s : deg_rem E [] s = deg_of E s.
Proof.
  unfold deg_rem, deg_of. f_equal. apply list_filter_iff.
  intros e. split; [by intros []|]. intros ?; split; [done|]. by intros ?%elem_of_nil.
Qed.

Lemma initial_queue_inv fl E g :
  graph_of fl E g →
  kahn_inv fl E [] (omap (λ '(s, d), if d ==? 0%nat then Some s else None)
                         (hash_iter (in_degree g))) (in_degree g).
Proof.
  intros [Hdeg _].
  assert (Hq : ∀ x, x ∈ omap (λ '(s, d), if d ==? 0%nat then Some s else None)
                   (hash_iter (in_degree g)) ↔ in_degree g !! x = Some 0%nat).
  { intros x. rewrite list_elem_of_omap. split.
    - intros ([s d] & Hin & Hx). case_bool_decide; simplify_eq. by apply elem_of_hash_iter.
    - intros Hx. exists (x, 0%nat). by rewrite elem_of_hash_iter. }
  split; simpl.
  - assert (Hsub : sublist (omap (λ '(s, d), if d ==? 0%nat then Some s else None)
                   (hash_iter (in_degree g))) (hash_keys (in_degree g))).
    { unfold hash_keys. clear. induction (hash_iter (in_degree g)) as [|[s d] l IH]; simpl; [constructor|].
      destruct (d ==? 0%nat); simpl; [apply sublist_skip|apply sublist_cons]; apply IH. }
    eapply sublist_NoDup; [|done]. apply NoDup_hash_keys.
  - intros x Hx%Hq. rewrite Hdeg in Hx. by destruct (fl !! x).
  - intros k. rewrite Hdeg. by rewrite deg_rem_nil.
  - intros x [fx Hx]. rewrite Hq, Hdeg, Hx, deg_rem_nil. naive_solver.
  - intros i s Hi. by rewrite lookup_nil in Hi.
Qed.

(** The outcome of [validate_dag], whatever the iteration order. *)
Lemma validate_dag_outcome fl :
  match validate_dag fl with
  | Ok order => order ≡ₚ hash_keys fl ∧ topological fl order
  | Err (MissingDep s d) => depends fl s d ∧ fl !! d = None
  | Err CycleDetected =>
      (∀ s d, depends fl s d → is_Some (fl !! d)) ∧ ∃ x, tc (depends fl) x x
  | Err _ => False
  end.
Proof.
  unfold validate_dag.
  pose proof (build_graph_ok fl (hash_iter fl) [] (init_graph fl)) as Hb.
  feed Hb; [by intros s fs ?%elem_of_hash_iter|]. feed Hb; [apply graph_of_init|].
  destruct (build_graph fl (hash_iter fl) (init_graph fl)) as [g|[]]; simpl; try done.
  destruct Hb as [Hg Hex]. simpl in Hg. set (E := edges_of (hash_iter fl)) in *.
  assert (HE : edges_in fl E).
  { intros d s (fs & Hin & Hd)%elem_of_edges_of. split; [by eapply Hex|].
    apply elem_of_hash_iter in Hin. by rewrite Hin. }
  destruct (kahn_ok fl E (adj_list g) (size fl) (in_degree g) _ [] HE (proj2 Hg)
    (initial_queue_inv fl E g Hg)) as (order & deg' & -> & Hinv); [simpl; lia|]. simpl.
  destruct Hinv as [Hnd Hk Hdeg Hz Ht]. rewrite app_nil_r in *.
  case_bool_decide as Hlen.
  - split.
    + apply submseteq_length_Permutation; [|rewrite length_hash_keys; lia].
      apply NoDup_submseteq; [done|]. intros x Hx. by apply elem_of_hash_keys, Hk.
    + intros i s Hi d Hd. by eapply Ht, flow_edges.
  - split.
    { intros s d (fs & Hs & Hd). eapply Hex; [by apply elem_of_hash_iter|done]. }
    pose proof (nodup_keys_length fl order Hnd Hk).
    assert (∃ x0, x0 ∈ filter (λ x, x ∉ order) (hash_keys fl)) as [x0 Hx0].
    { destruct (filter (λ x, x ∉ order) (hash_keys fl)) as [|x0 l] eqn:Hf; [|exists x0; by left].
      exfalso. apply filter_nil_iff in Hf. rewrite Forall_forall in Hf.
      assert (hash_keys fl ⊆+ order) as Hs%submseteq_length.
      { apply NoDup_submseteq; [apply NoDup_hash_keys|]. intros x Hx.
        destruct (decide (x ∈ order)); [done|]. by destruct (Hf x Hx). }
      rewrite length_hash_keys in Hs. lia. }
    apply (finite_cycle (depends fl) (filter (λ x, x ∉ order) (hash_keys fl)) x0 Hx0).
    intros x [Hx Hkx]%list_elem_of_filter. rewrite elem_of_hash_keys in Hkx.
    destruct (deg_rem_pos E order x) as (d & Hd & Hdo).
    { intros Hz0. by apply Hx, Hz. }
    exists d. split; [|by apply flow_edges]. apply list_elem_of_filter.
    split; [done|]. apply elem_of_hash_keys. by destruct (HE d x).
Qed.

(** C17. What a flow's validation says is true, whatever order the flow is iterated
    in. It always answers, and never runs out of passes: with an order that
    lists every step once, each after all the steps its [depends_on] tree
    names; with a dependency that names no step of the flow; or, when all of
    them do, with a cycle that is there. *)
Theorem validate_dag_correct fl :
  match validate_dag fl with
  | Ok order => order ≡ₚ hash_keys fl ∧ topological fl order
  | Err (MissingDep s d) => depends fl s d ∧ fl !! d = None
  | Err CycleDetected => (∀ s d, depends fl s d → is_Some (fl !! d)) ∧ ∃ x, tc (depends fl) x x
  | Err _ => False
  end.
Proof. apply validate_dag_outcome. Qed.

(** When [validate_dag] returns an order, it is a permutation of the flow's
    step names in which every step comes after all the steps its
    [depends_on] tree names. *)
Theorem validate_dag_topological fl order :
  validate_dag fl = Ok order → order ≡ₚ hash_keys fl ∧ topological fl order.
Proof. intros E. pose proof (validate_dag_outcome fl) as Ho. by rewrite E in Ho. Qed.

(** [validate_dag] is total and its errors are truthful: it never panics
    and never runs out of fuel; it reports a missing step only when a
    dependency names one, and a cycle only when the flow really has one. *)
Theorem validate_dag_error fl e :
  validate_dag fl = Err e →
  (∃ s d, e = MissingDep s d ∧ depends fl s d ∧ fl !! d = None) ∨
  (e = CycleDetected ∧ (∀ s d, depends fl s d → is_Some (fl !! d)) ∧ ∃ x, tc (depends fl) x x).
Proof.
  intros E. pose proof (validate_dag_outcome fl) as Ho. rewrite E in Ho.
  destruct e; naive_solver.
Qed.

(** An accepted flow has no cycle. *)
Lemma topological_acyclic fl order :
  order ≡ₚ hash_keys fl → topological fl order → ∀ x, ¬ tc (depends fl) x x.
Proof.
  intros Hp Ht.
  assert (Hnd : NoDup order) by (rewrite Hp; apply NoDup_hash_keys).
  assert (Hlt : ∀ x y, tc (depends fl) x y → ∀ i, order !! i = Some x →
                ∃ j, order !! j = Some y ∧ (j < i)%nat).
  { induction 1 as [x y Hxy|x y z Hxy Hyz IH]; intros i Hi.
    - destruct (list_elem_of_lookup_1 _ _ (Ht i x Hi y Hxy)) as [j Hj].
      apply lookup_take_Some in Hj as [Hj ?]. eauto.
    - destruct (list_elem_of_lookup_1 _ _ (Ht i x Hi y Hxy)) as [j Hj].
      apply lookup_take_Some in Hj as [Hj ?].
      destruct (IH j Hj) as (k & Hk & ?). exists k. split; [done|lia]. }
  intros x Hx.
  assert (x ∈ order) as [i Hi]%list_elem_of_lookup.
  { rewrite Hp, elem_of_hash_keys.
    assert (∃ y, depends fl x y) as (y & fs & Hfs & _).
    { clear -Hx. inversion Hx; eauto. }
    by rewrite Hfs. }
  destruct (Hlt x x Hx i Hi) as (j & Hj & ?).
  rewrite NoDup_alt in Hnd. assert (i = j) by (by eapply Hnd). lia.
Qed.
End validate.

(** ** Witnesses *)

Definition plain_step (deps : list DependsOnEntry) : FlowStep :=
  flow_step "noop" deps false None None false None None.

(** build → {test, lint} → deploy *)
Definition diamond_flow : gmap string FlowStep :=
  {[ "build" := plain_step [];
     "test" := plain_step [Name "build"];
     "lint" := plain_step [Step "build" (AcceptOutcomes [Completed; Skipped])];
     "deploy" := plain_step [All [Name "test"; Any [Name "lint"; Name "build"]]] ]}.

Definition cyclic_flow : gmap string FlowStep :=
  {[ "a" := plain_step [Name "b"]; "b" := plain_step [Name "a"] ]}.

Lemma validate_dag_topological_witness :
  ∃ order, validate_dag diamond_flow = Ok order ∧ topological diamond_flow order.
Proof.
  destruct (validate_dag diamond_flow) as [order|e] eqn:E; [|exfalso; vm_compute in E; discriminate E].
  exists order. split; [reflexivity|]. exact (proj2 (validate_dag_topological diamond_flow order E)).
Defined.

Lemma validate_dag_error_witness :
  validate_dag cyclic_flow = Err CycleDetected ∧ ∃ x, tc (depends cyclic_flow) x x.
Proof.
  assert (E : validate_dag cyclic_flow = Err CycleDetected) by (vm_compute; reflexivity).
  split; [exact E|].
  destruct (validate_dag_error cyclic_flow CycleDetected E) as [(s & d & Hc & _)|(_ & _ & Hc)];
    [discriminate Hc|exact Hc].
Defined.
