(* ===== verification/Db.v ===== *)
(** * The database

    The rows the repositories read and write, as the structs of
    [crates/stroem-db/src/repos/] declare them, and the SQL statements they
    use. A table is a finite map from its primary key to its row. An [UPDATE]
    rewrites the rows its [WHERE] clause selects and reports how many it
    selected, a [SELECT] filters, an [INSERT] fails on a duplicate key.
    [NOW()] is an argument. Uuids are 128-bit naturals, timestamps are
    microseconds. Connection errors are not modelled here. *)
From S2P Require Import Prelude Json.

Definition Uuid := N.
Definition Time := Z.

(** [Uuid]'s [Display]: lower-case hexadecimal in groups of 8, 4, 4, 4 and 12. *)
Definition hex_char (d : N) : ascii := ascii_of_N (if (d <? 10)%N then 48 + d else 87 + d)%N.
Fixpoint hex_text (n : nat) (v : N) : string :=
  match n with
  | O => EmptyString
  | S n' => String (hex_char (N.land (N.shiftr v (4 * N.of_nat n')%N) 15)) (hex_text n' v)
  end.
Definition uuid_text (id : Uuid) : string :=
  hex_text 8 (N.shiftr id 96) +:+ "-" +:+ hex_text 4 (N.shiftr id 80) +:+ "-" +:+ hex_text 4 (N.shiftr id 64) +:+ "-" +:+
  hex_text 4 (N.shiftr id 48) +:+ "-" +:+ hex_text 12 id.

(** [JobStepRow] *)
Record JobStepRow := mkJobStepRow {
  js_job_id : Uuid;
  js_step_name : string;
  js_action_name : string;
  js_action_type : string;
  js_action_image : option string;
  js_action_spec : option json;
  js_input : option json;
  js_output : option json;
  js_status : string;
  js_worker_id : option Uuid;
  js_started_at : option Time;
  js_completed_at : option Time;
  js_error_message : option string;
  js_required_ability : string;
  js_required_tags : json;
  js_runner : string;
  js_timeout_secs : option Z;
  js_when_condition : option string;
  js_for_each_expr : option string;
  js_loop_source : option string;
  js_loop_index : option Z;
  js_loop_total : option Z;
  js_loop_item : option json;
  js_agent_state : option json;
  js_suspended_at : option Time;
  js_retry_attempt : Z;
  js_max_retries : option Z;
  js_retry_backoff_secs : option Z;
  js_retry_strategy : option string;
  js_retry_jitter : bool;
  js_retry_history : json;
  js_retry_at : option Time;
  js_action_workspace : option string;
  js_action_revision : option string;
  js_carried_over : bool;
  js_skip_reason : option string;
  js_action_ref : option string;
  js_task_workspace : option string;
  js_task_ref : option string;
  js_task_revision : option string;
  js_pin_releases : Z;
  js_ref_template : option string;
}.

Definition js_eta (r : JobStepRow) : JobStepRow := mkJobStepRow
  (js_job_id r) (js_step_name r) (js_action_name r) (js_action_type r) (js_action_image r)
  (js_action_spec r) (js_input r) (js_output r) (js_status r) (js_worker_id r)
  (js_started_at r) (js_completed_at r) (js_error_message r) (js_required_ability r)
  (js_required_tags r) (js_runner r) (js_timeout_secs r) (js_when_condition r)
  (js_for_each_expr r) (js_loop_source r) (js_loop_index r) (js_loop_total r) (js_loop_item r)
  (js_agent_state r) (js_suspended_at r) (js_retry_attempt r) (js_max_retries r)
  (js_retry_backoff_secs r) (js_retry_strategy r) (js_retry_jitter r) (js_retry_history r)
  (js_retry_at r) (js_action_workspace r) (js_action_revision r) (js_carried_over r)
  (js_skip_reason r) (js_action_ref r) (js_task_workspace r) (js_task_ref r)
  (js_task_revision r) (js_pin_releases r) (js_ref_template r).

Definition set_action_name : string → JobStepRow → JobStepRow := ltac:(mk_setter js_eta js_action_name).
Definition set_action_type : string → JobStepRow → JobStepRow := ltac:(mk_setter js_eta js_action_type).
Definition set_action_image : option string → JobStepRow → JobStepRow := ltac:(mk_setter js_eta js_action_image).
Definition set_action_spec : option json → JobStepRow → JobStepRow := ltac:(mk_setter js_eta js_action_spec).
Definition set_input : option json → JobStepRow → JobStepRow := ltac:(mk_setter js_eta js_input).
Definition set_output : option json → JobStepRow → JobStepRow := ltac:(mk_setter js_eta js_output).
Definition set_status : string → JobStepRow → JobStepRow := ltac:(mk_setter js_eta js_status).
Definition set_worker_id : option Uuid → JobStepRow → JobStepRow := ltac:(mk_setter js_eta js_worker_id).
Definition set_started_at : option Time → JobStepRow → JobStepRow := ltac:(mk_setter js_eta js_started_at).
Definition set_completed_at : option Time → JobStepRow → JobStepRow := ltac:(mk_setter js_eta js_completed_at).
Definition set_error_message : option string → JobStepRow → JobStepRow := ltac:(mk_setter js_eta js_error_message).
Definition set_required_ability : string → JobStepRow → JobStepRow := ltac:(mk_setter js_eta js_required_ability).
Definition set_required_tags : json → JobStepRow → JobStepRow := ltac:(mk_setter js_eta js_required_tags).
Definition set_runner : string → JobStepRow → JobStepRow := ltac:(mk_setter js_eta js_runner).
Definition set_agent_state : option json → JobStepRow → JobStepRow := ltac:(mk_setter js_eta js_agent_state).
Definition set_suspended_at : option Time → JobStepRow → JobStepRow := ltac:(mk_setter js_eta js_suspended_at).
Definition set_retry_attempt : Z → JobStepRow → JobStepRow := ltac:(mk_setter js_eta js_retry_attempt).
Definition set_max_retries : option Z → JobStepRow → JobStepRow := ltac:(mk_setter js_eta js_max_retries).
Definition set_retry_backoff_secs : option Z → JobStepRow → JobStepRow := ltac:(mk_setter js_eta js_retry_backoff_secs).
Definition set_retry_strategy : option string → JobStepRow → JobStepRow := ltac:(mk_setter js_eta js_retry_strategy).
Definition set_retry_jitter : bool → JobStepRow → JobStepRow := ltac:(mk_setter js_eta js_retry_jitter).
Definition set_retry_history : json → JobStepRow → JobStepRow := ltac:(mk_setter js_eta js_retry_history).
Definition set_retry_at : option Time → JobStepRow → JobStepRow := ltac:(mk_setter js_eta js_retry_at).
Definition set_action_workspace : option string → JobStepRow → JobStepRow := ltac:(mk_setter js_eta js_action_workspace).
Definition set_action_revision : option string → JobStepRow → JobStepRow := ltac:(mk_setter js_eta js_action_revision).
Definition set_carried_over : bool → JobStepRow → JobStepRow := ltac:(mk_setter js_eta js_carried_over).
Definition set_skip_reason : option string → JobStepRow → JobStepRow := ltac:(mk_setter js_eta js_skip_reason).
Definition set_action_ref : option string → JobStepRow → JobStepRow := ltac:(mk_setter js_eta js_action_ref).
Definition set_task_workspace : option string → JobStepRow → JobStepRow := ltac:(mk_setter js_eta js_task_workspace).
Definition set_task_ref : option string → JobStepRow → JobStepRow := ltac:(mk_setter js_eta js_task_ref).
Definition set_task_revision : option string → JobStepRow → JobStepRow := ltac:(mk_setter js_eta js_task_revision).
Definition set_pin_releases : Z → JobStepRow → JobStepRow := ltac:(mk_setter js_eta js_pin_releases).

(** [JobStepRow::default()] with a job and a name. *)
Definition default_step_row (job_id : Uuid) (step_name : string) : JobStepRow :=
  mkJobStepRow job_id step_name "" "" None None None None "" None None None None
    "" JNull "" None None None None None None None None None 0 None None None false JNull None
    None None false None None None None None 0 None.

(** [NewJobStep] *)
Record NewJobStep := mkNewJobStep {
  nj_job_id : Uuid;
  nj_step_name : string;
  nj_action_name : string;
  nj_action_type : string;
  nj_action_image : option string;
  nj_action_spec : option json;
  nj_input : option json;
  nj_status : string;
  nj_required_ability : string;
  nj_required_tags : list string;
  nj_runner : string;
  nj_timeout_secs : option Z;
  nj_when_condition : option string;
  nj_for_each_expr : option string;
  nj_loop_source : option string;
  nj_loop_index : option Z;
  nj_loop_total : option Z;
  nj_loop_item : option json;
  nj_max_retries : option Z;
  nj_retry_backoff_secs : option Z;
  nj_retry_strategy : option string;
  nj_retry_jitter : bool;
  nj_action_workspace : option string;
  nj_action_revision : option string;
  nj_action_ref : option string;
  nj_task_workspace : option string;
  nj_task_ref : option string;
  nj_task_revision : option string;
  nj_ref_template : option string;
}.

(** [Seed]: one carried-over row of a restart job. *)
Record Seed := mkSeed {
  seed_step_name : string;
  seed_status : string;
  seed_output : option json;
  seed_error_message : option string;
  seed_skip_reason : option string;
}.

(** [JobRow] *)
Record JobRow := mkJobRow {
  j_job_id : Uuid;
  j_workspace : string;
  j_task_name : string;
  j_mode : string;
  j_input : option json;
  j_output : option json;
  j_status : string;
  j_source_type : string;
  j_source_id : option string;
  j_worker_id : option Uuid;
  j_revision : option string;
  j_created_at : Time;
  j_started_at : option Time;
  j_completed_at : option Time;
  j_log_path : option string;
  j_parent_job_id : option Uuid;
  j_parent_step_name : option string;
  j_timeout_secs : option Z;
  j_retry_of_job_id : option Uuid;
  j_retry_job_id : option Uuid;
  j_retry_attempt : Z;
  j_max_retries : option Z;
  j_raw_input : option json;
  j_source_job_id : option Uuid;
  j_restart_from_step : option string;
  j_restart_from_steps : option (list string);
  j_git_ref : option string;
  j_task_folder : option string;
}.

Definition j_eta (r : JobRow) : JobRow := mkJobRow
  (j_job_id r) (j_workspace r) (j_task_name r) (j_mode r) (j_input r) (j_output r) (j_status r)
  (j_source_type r) (j_source_id r) (j_worker_id r) (j_revision r) (j_created_at r)
  (j_started_at r) (j_completed_at r) (j_log_path r) (j_parent_job_id r) (j_parent_step_name r)
  (j_timeout_secs r) (j_retry_of_job_id r) (j_retry_job_id r) (j_retry_attempt r)
  (j_max_retries r) (j_raw_input r) (j_source_job_id r) (j_restart_from_step r)
  (j_restart_from_steps r) (j_git_ref r) (j_task_folder r).

Definition jset_output : option json → JobRow → JobRow := ltac:(mk_setter j_eta j_output).
Definition jset_status : string → JobRow → JobRow := ltac:(mk_setter j_eta j_status).
Definition jset_worker_id : option Uuid → JobRow → JobRow := ltac:(mk_setter j_eta j_worker_id).
Definition jset_started_at : option Time → JobRow → JobRow := ltac:(mk_setter j_eta j_started_at).
Definition jset_completed_at : option Time → JobRow → JobRow := ltac:(mk_setter j_eta j_completed_at).
Definition jset_log_path : option string → JobRow → JobRow := ltac:(mk_setter j_eta j_log_path).
Definition jset_retry_of_job_id : option Uuid → JobRow → JobRow := ltac:(mk_setter j_eta j_retry_of_job_id).
Definition jset_retry_job_id : option Uuid → JobRow → JobRow := ltac:(mk_setter j_eta j_retry_job_id).
Definition jset_retry_attempt : Z → JobRow → JobRow := ltac:(mk_setter j_eta j_retry_attempt).

(** A [job_step] row: the columns of [JobStepRow] and the three the struct
    does not carry. *)
Record StepRec := mkStepRec {
  sr_row : JobStepRow;
  sr_ready_at : option Time;
  sr_resolve_lease_owner : option Uuid;
  sr_resolve_lease_until : option Time;
}.

Definition sr_eta (r : StepRec) : StepRec :=
  mkStepRec (sr_row r) (sr_ready_at r) (sr_resolve_lease_owner r) (sr_resolve_lease_until r).
Definition set_row : JobStepRow → StepRec → StepRec := ltac:(mk_setter sr_eta sr_row).
Definition set_ready_at : option Time → StepRec → StepRec := ltac:(mk_setter sr_eta sr_ready_at).
Definition set_resolve_lease_owner : option Uuid → StepRec → StepRec :=
  ltac:(mk_setter sr_eta sr_resolve_lease_owner).
Definition set_resolve_lease_until : option Time → StepRec → StepRec :=
  ltac:(mk_setter sr_eta sr_resolve_lease_until).
(** Rewrites the [JobStepRow] columns. *)
Definition upd_row (f : JobStepRow → JobStepRow) (r : StepRec) : StepRec := set_row (f (sr_row r)) r.
Definition sr_status (r : StepRec) : string := js_status (sr_row r).

(** A [job] row: [JobRow] and the terminal-handling claim column. *)
Record JobRec := mkJobRec {
  jr_row : JobRow;
  jr_metrics_recorded_at : option Time;
}.
Definition upd_job (f : JobRow → JobRow) (r : JobRec) : JobRec :=
  mkJobRec (f (jr_row r)) (jr_metrics_recorded_at r).
Definition jr_status (r : JobRec) : string := j_status (jr_row r).

(** A [worker] row. *)
Record WorkerRec := mkWorkerRec {
  w_name : string;
  w_capabilities : json;
  w_tags : json;
  w_exclusive : bool;
  w_last_heartbeat : option Time;
  w_registered_at : Time;
  w_status : string;
  w_version : option string;
}.

(** A [job_ref_pin] row; its key is the job, the workspace and the ref. *)
Record RefPinRec := mkRefPinRec {
  rp_job_id : Uuid;
  rp_workspace : string;
  rp_git_ref : string;
  rp_commit : string;
}.

Record Db := mkDb {
  db_job : gmap Uuid JobRec;
  db_step : gmap (Uuid * string) StepRec;
  db_worker : gmap Uuid WorkerRec;
  db_ref_pin : list RefPinRec;
}.

Definition with_job (t : gmap Uuid JobRec) (db : Db) : Db :=
  mkDb t (db_step db) (db_worker db) (db_ref_pin db).
Definition with_ref_pin (t : list RefPinRec) (db : Db) : Db :=
  mkDb (db_job db) (db_step db) (db_worker db) t.
Definition with_step (t : gmap (Uuid * string) StepRec) (db : Db) : Db :=
  mkDb (db_job db) t (db_worker db) (db_ref_pin db).

(** ** SQL *)

Section sql.
Context {K R : Type} `{Countable K}.

(** [UPDATE t SET s WHERE w]: the new table and [rows_affected]. *)
Definition sql_update (w : K → R → bool) (s : R → R) (t : gmap K R) : gmap K R * nat :=
  (map_imap (λ k r, Some (if w k r then s r else r)) t,
   size (filter (λ '(k, r), w k r = true) t)).

(** [SELECT * FROM t WHERE w], in no particular order. *)
Definition sql_select (w : K → R → bool) (t : gmap K R) : list R :=
  (map_to_list (filter (λ '(k, r), w k r = true) t)).*2.

Lemma lookup_sql_update w s t k :
  (sql_update w s t).1 !! k = (λ r, if w k r then s r else r) <$> t !! k.
Proof. simpl. rewrite map_lookup_imap. by destruct (t !! k). Qed.

(** A statement that names one key selects at most that row. *)
Lemma sql_update_single_count w s t k :
  (∀ k' r, w k' r = true → k' = k) →
  (sql_update w s t).2 = match t !! k with Some r => if w k r then 1%nat else 0%nat | None => 0%nat end.
Proof.
  intros Hk. simpl.
  destruct (t !! k) as [r|] eqn:Hr; [destruct (w k r) eqn:Hw|].
  - assert (filter (λ '(k, r), w k r = true) t = {[k := r]}) as ->.
    { apply map_eq. intros k'. rewrite map_lookup_filter.
      destruct (decide (k' = k)) as [->|Hne].
      - rewrite Hr, lookup_singleton_eq. simpl. by rewrite option_guard_True.
      - rewrite lookup_singleton_ne by done. destruct (t !! k') as [r'|]; [|done]. simpl.
        rewrite option_guard_False; [done|]. intros Hw'. by apply Hne, (Hk k' r'). }
    by rewrite map_size_singleton.
  - apply map_size_empty_iff, map_eq. intros k'. rewrite lookup_empty.
    apply map_lookup_filter_None_2. right. intros r' Hr' Hw'.
    pose proof (Hk k' r' Hw'). simplify_eq/=. congruence.
  - apply map_size_empty_iff, map_eq. intros k'. rewrite lookup_empty.
    apply map_lookup_filter_None_2. right. intros r' Hr' Hw'.
    pose proof (Hk k' r' Hw'). by simplify_eq/=.
Qed.

Lemma elem_of_sql_select w t r : r ∈ sql_select w t ↔ ∃ k, t !! k = Some r ∧ w k r = true.
Proof.
  unfold sql_select. rewrite list_elem_of_fmap. split.
  - intros ([k r'] & -> & Hin%elem_of_map_to_list). apply map_lookup_filter_Some in Hin. eauto.
  - intros (k & Hr & Hw). exists (k, r). split; [done|].
    by apply elem_of_map_to_list, map_lookup_filter_Some.
Qed.
End sql.

(** [s = ANY(names)] / [s IN (...)] *)
Definition sql_in (s : string) (l : list string) : bool := bool_decide (s ∈ l).

(** ** jsonb containment ([@>])

    PostgreSQL's rule: an object contains an object whose every member it
    contains under the same key, an array contains an array whose every
    element is contained in one of its own, equal scalars contain each other,
    and at the top level an array contains a scalar equal to an element. *)

Definition json_scalar_eq (a b : json) : bool :=
  match a, b with
  | JNull, JNull => true
  | JBool x, JBool y => Bool.eqb x y
  | JNumber (PosInt x), JNumber (PosInt y) => N.eqb x y
  | JNumber (NegInt x), JNumber (NegInt y) => Z.eqb x y
  | JNumber (Float x), JNumber (Float y) => N.eqb x y
  | JString x, JString y => x ==? y
  | _, _ => false
  end.

Fixpoint jsonb_contains_deep (a b : json) {struct b} : bool :=
  match b with
  | JArray lb =>
      match a with
      | JArray la => forallb (λ y, existsb (λ x, jsonb_contains_deep x y) la) lb
      | _ => false
      end
  | JObject mb =>
      match a with
      | JObject ma =>
          forallb (λ '(k, y), match json_map_lookup k ma with
                              | Some x => jsonb_contains_deep x y
                              | None => false
                              end) mb
      | _ => false
      end
  | _ => json_scalar_eq a b
  end.

Definition jsonb_contains (a b : json) : bool :=
  jsonb_contains_deep a b ||
  match a, b with
  | _, (JArray _ | JObject _) => false
  | JArray la, _ => existsb (λ x, json_scalar_eq x b) la
  | _, _ => false
  end.

Lemma existsb_string_elem (la : list string) y :
  existsb (λ x, jsonb_contains_deep x (JString y)) (map JString la) = bool_decide (y ∈ la).
Proof.
  induction la as [|x la IH]; [done|]. cbn [map existsb]. rewrite IH. simpl.
  repeat case_bool_decide; set_solver.
Qed.

(** On arrays of strings containment is inclusion. *)
Lemma jsonb_contains_strings la lb :
  jsonb_contains (strings_to_json la) (strings_to_json lb) = forallb (λ y, bool_decide (y ∈ la)) lb.
Proof.
  unfold jsonb_contains, strings_to_json. rewrite orb_false_r.
  change (JString <$> la) with (map JString la). change (JString <$> lb) with (map JString lb).
  cbn [jsonb_contains_deep].
  induction lb as [|y lb IH]; [done|]. cbn [map forallb]. rewrite IH. f_equal.
  apply existsb_string_elem.
Qed.

Lemma jsonb_contains_string la s :
  jsonb_contains (strings_to_json la) (JString s) = bool_decide (s ∈ la).
Proof. unfold jsonb_contains, strings_to_json. simpl. apply existsb_string_elem. Qed.
