(* ===== verification/Pins.v ===== *)
(** * Pins and pin errors

    The data of [crates/stroem-server/src/workspace/pins.rs] other components
    exchange: a ref with the commit it resolved to, the pins of job and step
    rows, and the store's typed failures with the texts users see. The store
    itself is [PinStore.v]. *)
From S2P Require Import Prelude Json Text GitRef JobModel Db.

Record PinRef := mkPinRef { git_ref : string; commit : string }.

#[export] Instance PinRef_eq_dec : EqDecision PinRef.
Proof. solve_decision. Defined.

Definition of_job (j : JobRow) : option PinRef :=
  git_ref ← j_git_ref j; commit ← j_revision j; Some (mkPinRef git_ref commit).
Definition of_step_action (s : JobStepRow) : option PinRef :=
  git_ref ← js_action_ref s; commit ← js_action_revision s; Some (mkPinRef git_ref commit).
Definition of_step_task (s : JobStepRow) : option (string * PinRef) :=
  ws ← js_task_workspace s; git_ref ← js_task_ref s; commit ← js_task_revision s; Some (ws, mkPinRef git_ref commit).

Inductive PinError :=
| NotGit (workspace : string)
| RefNotFound (workspace git_ref : string)
| CommitNotFound (workspace commit : string)
| PinLoadFailed (workspace commit message : string)
| PinUnavailable (workspace message : string).

Definition is_transient (e : PinError) : bool := match e with PinUnavailable _ _ => true | _ => false end.

#[export] Instance PinError_eq_dec : EqDecision PinError.
Proof. solve_decision. Defined.

Definition PinError_fmt (e : PinError) : string :=
  match e with
  | NotGit ws => "workspace '" +:+ ws +:+ "' is not a git workspace; `ref` needs a git source"
  | RefNotFound ws r =>
      "ref '" +:+ r +:+ "' not found in workspace '" +:+ ws +:+ "'" +:+
      match short_sha_hint r with Some hint => " (" +:+ hint +:+ ")" | None => "" end
  | CommitNotFound ws c => "commit " +:+ c +:+ " not found in workspace '" +:+ ws +:+ "'"
  | PinLoadFailed ws c m => "workspace '" +:+ ws +:+ "' at commit " +:+ c +:+ " does not load: " +:+ m
  | PinUnavailable ws m => "workspace '" +:+ ws +:+ "' is not available at the requested ref yet: " +:+ m
  end.

(** [commit.get(..7).unwrap_or(commit)]: the first seven bytes when they end a
    character. *)
Definition short_sha (commit : string) : string :=
  if (7 <=? String.length commit)%nat &&
     match bytes (str_drop 7 commit) with [] => true | b :: _ => negb (byte_in 128 191 b) end
  then str_take 7 commit else commit.

Definition pin_label (ws : string) (pin : PinRef) : string :=
  ws +:+ "@" +:+ git_ref pin +:+ " (" +:+ short_sha (commit pin) +:+ ")".

(** All a user sees of a configuration that does not load. *)
Record PinLoadWithheld := mkWithheld { label : string }.

#[export] Instance PinLoadWithheld_eq_dec : EqDecision PinLoadWithheld.
Proof. solve_decision. Defined.

Definition withheld_new (ws : string) (pin : PinRef) : PinLoadWithheld := mkWithheld (pin_label ws pin).
Definition withheld_for_commit (ws commit : string) : PinLoadWithheld :=
  mkWithheld (ws +:+ " (" +:+ short_sha commit +:+ ")").
Definition PinLoadWithheld_fmt (w : PinLoadWithheld) : string :=
  "[pin] " +:+ label w +:+ " cannot be loaded: its configuration does not load".

Definition unavailable (ws message : string) : PinError := PinUnavailable ws message.

(** A full sha in lower case, or [CommitNotFound]. *)
Definition normalize_commit (ws commit : string) : result PinError string :=
  if full_sha commit then Ok (to_ascii_lowercase commit) else Err (CommitNotFound ws commit).

Definition result_label {A} (r : result PinError A) : string :=
  match r with
  | Ok _ => "ok"
  | Err (NotGit _) => "not_git"
  | Err (RefNotFound _ _) => "ref_not_found"
  | Err (CommitNotFound _ _) => "commit_not_found"
  | Err (PinLoadFailed _ _ _) => "load_failed"
  | Err (PinUnavailable _ _) => "unavailable"
  end.
