(* ===== verification/StepRepo.v ===== *)
(** * The step repository

    [crates/stroem-db/src/repos/job_step.rs]: every operation of
    [JobStepRepo] that writes [job_step], and the selections the engine
    decides on. A write is a function from the database to the database and
    what the operation returns; [now] is the database clock. An interval the
    code passes as seconds is passed here as microseconds. *)
From S2P Require Import Prelude Json JobModel Db.

(** ** Statement helpers *)

(** A [SET] clause: the assignments in order. No clause of this file reads a
    column it has already assigned. *)
Definition assign {A} (fs : list (A → A)) (r : A) : A := fold_left (λ r f, f r) fs r.

(** [UPDATE job_step SET f WHERE job_id = $1 AND step_name = $2 AND guard] *)
Definition update_step (job_id : Uuid) (step_name : string) (guard : StepRec → bool)
    (f : StepRec → StepRec) (db : Db) : Db * nat :=
  let '(t, n) := sql_update (λ k r, (k ==? (job_id, step_name)) && guard r) f (db_step db) in
  (with_step t db, n).

(** [UPDATE job_step SET f WHERE job_id = $1 AND guard] *)
Definition update_job_steps (job_id : Uuid) (guard : string → StepRec → bool)
    (f : StepRec → StepRec) (db : Db) : Db * nat :=
  let '(t, n) := sql_update (λ k r, (k.1 ==? job_id) && guard k.2 r) f (db_step db) in
  (with_step t db, n).

#[global] Arguments update_step : simpl never.
#[global] Arguments update_job_steps : simpl never.

Definition status_is (s : string) (r : StepRec) : bool := sr_status r ==? s.
Definition status_in (l : list string) (r : StepRec) : bool := sql_in (sr_status r) l.
Definition any_row (r : StepRec) : bool := true.

(** The row writes that recur. *)
Definition put_status (s : string) : StepRec → StepRec := upd_row (set_status s).
Definition put_completed_at (now : Time) : StepRec → StepRec := upd_row (set_completed_at (Some now)).
Definition put_error (e : string) : StepRec → StepRec := upd_row (set_error_message (Some e)).

(** ** Creation *)

(** The row [create_steps_tx] inserts: the 30 bound columns, the column
    defaults for the others. [host_now] is [Utc::now()]. *)
Definition new_step_rec (host_now : Time) (s : NewJobStep) : StepRec :=
  mkStepRec
    (mkJobStepRow (nj_job_id s) (nj_step_name s) (nj_action_name s) (nj_action_type s)
       (nj_action_image s) (nj_action_spec s) (nj_input s) None (nj_status s) None None None None
       (nj_required_ability s) (strings_to_json (nj_required_tags s)) (nj_runner s)
       (nj_timeout_secs s) (nj_when_condition s) (nj_for_each_expr s) (nj_loop_source s)
       (nj_loop_index s) (nj_loop_total s) (nj_loop_item s) None None 0 (nj_max_retries s)
       (nj_retry_backoff_secs s) (nj_retry_strategy s) (nj_retry_jitter s) (JArray []) None
       (nj_action_workspace s) (nj_action_revision s) false None (nj_action_ref s)
       (nj_task_workspace s) (nj_task_ref s) (nj_task_revision s) 0 (nj_ref_template s))
    (if nj_status s ==? "ready" then Some host_now else None)
    None None.

Definition step_key (s : NewJobStep) : Uuid * string := (nj_job_id s, nj_step_name s).

(** The most bind parameters one statement can carry: the protocol's count is
    16 bits wide, and sqlx refuses more. *)
Definition MAX_BIND_PARAMS : nat := Z.to_nat 65535.
Definition cols_per_row : nat := 30.

(** One multi-row [INSERT]: it fails as a whole when a row's key is taken, in
    the table or earlier in the same statement, or when its job does not
    exist (the foreign key). *)
Fixpoint insert_steps (host_now : Time) (jobs : gmap Uuid JobRec) (steps : list NewJobStep)
    (t : gmap (Uuid * string) StepRec) : result string (gmap (Uuid * string) StepRec) :=
  match steps with
  | [] => Ok t
  | s :: rest =>
      match jobs !! nj_job_id s, t !! step_key s with
      | Some _, None => insert_steps host_now jobs rest (<[step_key s := new_step_rec host_now s]> t)
      | _, _ => Err "Failed to create job steps"
      end
  end.

Definition create_steps_tx (host_now : Time) (steps : list NewJobStep) (db : Db) : result string Db :=
  if bool_decide (steps = []) then Ok db
  else if (MAX_BIND_PARAMS <? cols_per_row * length steps)%nat then Err "Failed to create job steps"
  else res_map (λ t, with_step t db) (insert_steps host_now (db_job db) steps (db_step db)).

Definition create_steps := create_steps_tx.

(** ** Cascade primitives *)

Definition promote_steps_tx (now : Time) (job_id : Uuid) (names : list string) (db : Db) : Db * nat :=
  update_job_steps job_id (λ n r, sql_in n names && status_is "pending" r)
    (assign [put_status "ready"; set_ready_at (Some now)]) db.

Definition skip_steps_tx (now : Time) (job_id : Uuid) (names : list string) (reason : string)
    (db : Db) : Db * nat :=
  update_job_steps job_id (λ n r, sql_in n names && status_is "pending" r)
    (assign [put_status "skipped"; upd_row (set_skip_reason (Some reason)); put_completed_at now]) db.

Definition fail_pending_step_tx (now : Time) (job_id : Uuid) (name error : string) (db : Db) : Db * nat :=
  update_step job_id name (status_is "pending")
    (assign [put_status "failed"; put_error error; put_completed_at now]) db.

Definition start_placeholder_tx (now : Time) (job_id : Uuid) (name : string) (db : Db) : Db * nat :=
  update_step job_id name (status_is "pending")
    (assign [put_status "running"; upd_row (set_started_at (Some now))]) db.

Definition complete_placeholder_tx (now : Time) (job_id : Uuid) (name : string) (output : json)
    (db : Db) : Db * nat :=
  update_step job_id name (status_is "running")
    (assign [put_status "completed"; upd_row (set_output (Some output)); put_completed_at now]) db.

Definition fail_placeholder_tx (now : Time) (job_id : Uuid) (name error : string) (output : json)
    (db : Db) : Db * nat :=
  update_step job_id name (status_is "running")
    (assign [put_status "failed"; put_error error; upd_row (set_output (Some output));
             put_completed_at now]) db.

(** ** Restart seeds *)

Definition seed_row (now : Time) (s : Seed) : StepRec → StepRec :=
  assign [put_status (seed_status s); upd_row (set_output (seed_output s));
          upd_row (set_error_message (seed_error_message s));
          upd_row (set_skip_reason (seed_skip_reason s));
          put_completed_at now; upd_row (set_carried_over true);
          set_ready_at None; upd_row (set_retry_at None); upd_row (set_started_at None);
          upd_row (set_worker_id None); upd_row (set_agent_state None);
          upd_row (set_suspended_at None)].

(** An error makes the caller roll its transaction back. *)
Fixpoint seed_steps_tx (now : Time) (job_id : Uuid) (seeds : list Seed) (db : Db) : result string Db :=
  match seeds with
  | [] => Ok db
  | s :: rest =>
      let '(db', n) := update_step job_id (seed_step_name s) any_row (seed_row now s) db in
      if (n =? 1)%nat then seed_steps_tx now job_id rest db'
      else Err ("seed step '" +:+ seed_step_name s +:+ "' matched " +:+ pretty n +:+
                " rows (expected 1)")
  end.

(** ** The worker claim *)

(** [ORDER BY random() LIMIT 1]: one of the candidates, whichever. *)
Class RowPick := {
  pick_row : list (Uuid * string) → option (Uuid * string);
  pick_row_none l : pick_row l = None → l = [];
  pick_row_some l k : pick_row l = Some k → k ∈ l;
}.

#[export] Instance pick_first : RowPick | 100.
Proof. by refine {| pick_row := head |}; intros [|x l]; simpl; intros; simplify_eq; [..|left]. Defined.

Definition SERVER_DISPATCHED : list string := ["task"; "approval"; "event_source"].

(** What the claim asks of a step and a worker. *)
Definition worker_matches (capabilities tags : json) (exclusive : bool) (r : StepRec) : bool :=
  jsonb_contains capabilities (JString (js_required_ability (sr_row r))) &&
  jsonb_contains tags (js_required_tags (sr_row r)) &&
  (negb exclusive || jsonb_contains (js_required_tags (sr_row r)) tags).

Definition retry_due (now : Time) (r : StepRec) : bool :=
  match js_retry_at (sr_row r) with None => true | Some t => (t <=? now)%Z end.

Definition claimable (now : Time) (capabilities tags : json) (exclusive : bool) (r : StepRec) : bool :=
  status_is "ready" r && worker_matches capabilities tags exclusive r &&
  negb (sql_in (js_action_type (sr_row r)) SERVER_DISPATCHED) && retry_due now r.

(** The subquery: the keys of the claimable rows no other transaction has
    locked. *)
Definition claim_candidates (now : Time) (locked : Uuid * string → bool)
    (worker_capabilities worker_tags : list string) (worker_exclusive : bool) (db : Db)
    : list (Uuid * string) :=
  (map_to_list (filter (λ '(k, r),
     claimable now (strings_to_json worker_capabilities) (strings_to_json worker_tags)
       worker_exclusive r && negb (locked k) = true) (db_step db))).*1.

Definition claim_row (now : Time) (worker_id : Uuid) : StepRec → StepRec :=
  assign [put_status "running"; upd_row (set_worker_id (Some worker_id));
          upd_row (set_started_at (Some now))].

Definition claim_ready_step `{RowPick} (now : Time) (locked : Uuid * string → bool)
    (worker_capabilities worker_tags : list string) (worker_exclusive : bool) (worker_id : Uuid)
    (db : Db) : Db * option JobStepRow :=
  match pick_row (claim_candidates now locked worker_capabilities worker_tags worker_exclusive db) with
  | None => (db, None)
  | Some k =>
      let '(db', _) := update_step k.1 k.2 any_row (claim_row now worker_id) db in
      (db', sr_row <$> db_step db' !! k)
  end.

(** ** Reads of one job *)

Definition job_steps (job_id : Uuid) (w : StepRec → bool) (db : Db) : list JobStepRow :=
  sr_row <$> sql_select (λ k r, (k.1 ==? job_id) && w r) (db_step db).

Definition order_by_step_name `{Collation} : list JobStepRow → list JobStepRow :=
  sort_by (λ a b, text_leb (js_step_name a) (js_step_name b)).

Definition get_steps_for_job `{Collation} (job_id : Uuid) (db : Db) : list JobStepRow :=
  order_by_step_name (job_steps job_id any_row db).
Definition get_ready_deferred_steps `{Collation} (job_id : Uuid) (db : Db) : list JobStepRow :=
  order_by_step_name (job_steps job_id
    (λ r, status_is "ready" r && (js_action_type (sr_row r) ==? "deferred")) db).
Definition get_step (job_id : Uuid) (step_name : string) (db : Db) : option JobStepRow :=
  sr_row <$> db_step db !! (job_id, step_name).
Definition get_ready_steps `{Collation} (job_id : Uuid) (db : Db) : list JobStepRow :=
  order_by_step_name (job_steps job_id (status_is "ready") db).
Definition all_steps_terminal (job_id : Uuid) (db : Db) : bool :=
  (length (job_steps job_id
     (λ r, negb (status_in ["completed"; "failed"; "skipped"; "cancelled"] r)) db) =? 0)%nat.
Definition get_failed_step_names (job_id : Uuid) (db : Db) : list string :=
  js_step_name <$> job_steps job_id (status_is "failed") db.
Definition any_step_failed (job_id : Uuid) (db : Db) : bool :=
  (0 <? length (job_steps job_id (status_is "failed") db))%nat.
Definition has_live_steps (job_id : Uuid) (db : Db) : bool :=
  negb (bool_decide (job_steps job_id (status_in ["running"; "claimed"]) db = [])).
Definition get_running_steps (job_id : Uuid) (db : Db) : list JobStepRow :=
  job_steps job_id (status_is "running") db.

(** ** Status writes *)

Definition mark_running (now : Time) (job_id : Uuid) (step_name : string) (worker_id : Uuid)
    (db : Db) : Db :=
  (update_step job_id step_name any_row (claim_row now worker_id) db).1.

Definition mark_running_server (now : Time) (job_id : Uuid) (step_name : string) (db : Db) : Db :=
  (update_step job_id step_name (status_in ["pending"; "ready"])
     (assign [put_status "running"; upd_row (set_started_at (Some now))]) db).1.

(** [task_workspace], [task_ref] and [task_revision] [IS NOT DISTINCT FROM]
    the pin's parts. *)
Definition task_pin_is (task_pin : option (string * string * string)) (r : StepRec) : bool :=
  let '(w, g, c) := match task_pin with
                    | Some (w, g, c) => (Some w, Some g, Some c)
                    | None => (None, None, None)
                    end in
  (js_task_workspace (sr_row r) ==? w) && (js_task_ref (sr_row r) ==? g) &&
  (js_task_revision (sr_row r) ==? c).

Definition claim_task_dispatch (now : Time) (job_id : Uuid) (step_name : string)
    (task_pin : option (string * string * string)) (db : Db) : Db * bool :=
  let '(db', n) := update_step job_id step_name
    (λ r, status_is "ready" r && task_pin_is task_pin r)
    (assign [put_status "running"; upd_row (set_started_at (Some now))]) db in
  (db', (n =? 1)%nat).

Definition cancel_server_managed_steps (now : Time) (job_id : Uuid) (db : Db) : Db * nat :=
  update_job_steps job_id
    (λ _ r, status_is "running" r && (js_worker_id (sr_row r) ==? None))
    (assign [put_status "cancelled"; put_error "Job cancelled"; put_completed_at now]) db.

Definition mark_completed (now : Time) (job_id : Uuid) (step_name : string) (output : option json)
    (db : Db) : Db :=
  (update_step job_id step_name any_row
     (assign [put_status "completed"; upd_row (set_output output); put_completed_at now]) db).1.

Definition mark_failed (now : Time) (job_id : Uuid) (step_name error : string) (db : Db) : Db :=
  (update_step job_id step_name any_row
     (assign [put_status "failed"; put_error error; put_completed_at now]) db).1.

Definition fail_task_dispatch (now : Time) (job_id : Uuid) (step_name error : string)
    (expected : StepStatus) (task_pin : option (string * string * string)) (db : Db) : Db * bool :=
  let '(db', n) := update_step job_id step_name
    (λ r, status_is (StepStatus.as_ref expected) r && task_pin_is task_pin r)
    (assign [put_status "failed"; put_error error; put_completed_at now]) db in
  (db', (n =? 1)%nat).

Definition update_input (job_id : Uuid) (step_name : string) (input : option json) (db : Db) : Db :=
  (update_step job_id step_name any_row (upd_row (set_input input)) db).1.

Definition mark_skipped (now : Time) (job_id : Uuid) (step_name reason : string) (db : Db) : Db :=
  (update_step job_id step_name (status_is "pending")
     (assign [put_status "skipped"; upd_row (set_skip_reason (Some reason)); put_completed_at now])
     db).1.

Definition cancel_pending_steps_tx (now : Time) (job_id : Uuid) (db : Db) : Db * nat :=
  update_job_steps job_id (λ _, status_in ["pending"; "ready"; "suspended"])
    (assign [put_status "cancelled"; put_completed_at now]) db.
Definition cancel_pending_steps := cancel_pending_steps_tx.

Definition fail_non_terminal_steps_tx (now : Time) (job_id : Uuid) (error : string) (db : Db)
    : Db * nat :=
  update_job_steps job_id (λ _, status_in ["pending"; "ready"; "claimed"; "running"; "suspended"])
    (assign [put_status "failed"; put_error error; put_completed_at now]) db.
Definition fail_non_terminal_steps := fail_non_terminal_steps_tx.

Definition mark_cancelled (now : Time) (job_id : Uuid) (step_name : string) (db : Db) : Db :=
  (update_step job_id step_name (status_is "running")
     (assign [put_status "cancelled"; put_error "Job cancelled"; put_completed_at now]) db).1.

Definition approve_step (now : Time) (job_id : Uuid) (step_name : string) (output : option json)
    (db : Db) : Db * bool :=
  let '(db', n) := update_step job_id step_name (status_is "suspended")
    (assign [put_status "completed"; upd_row (set_output output); put_completed_at now]) db in
  (db', (0 <? n)%nat).

Definition mark_suspended (now : Time) (job_id : Uuid) (step_name : string) (db : Db) : Db :=
  (update_step job_id step_name (status_is "ready")
     (assign [put_status "suspended"; upd_row (set_suspended_at (Some now))]) db).1.

Definition update_agent_state (job_id : Uuid) (step_name : string) (agent_state : json) (db : Db) : Db :=
  (update_step job_id step_name any_row (upd_row (set_agent_state (Some agent_state))) db).1.

(** ** Failure and retry *)

Inductive FailOutcome :=
| FailNotApplied
| Failed (attempt : Z) (max : option Z)
| RetryScheduled (attempt max delay_secs : Z).

Record ClaimIdentity := mkClaim { claim_worker_id : Uuid; claim_started_at : Time }.

(** [Utc::now() + chrono::Duration::seconds(delay as i64)]: [None] is the
    panic of an out-of-range duration or date. *)
Definition chrono_max_secs : Z := 9223372036854775.
Definition chrono_max_date : Time := 8210266876799000000%Z.
Definition retry_instant (host_now : Time) (delay_secs : Z) : option Time :=
  let secs := if (delay_secs <? 9223372036854775808)%Z then delay_secs
              else (delay_secs - u64_modulus)%Z in
  let t := (host_now + secs * 1000000)%Z in
  if (Z.abs secs <=? chrono_max_secs)%Z && (t <=? chrono_max_date)%Z then Some t else None.

(** [a || b] on jsonb where [b] is an array. *)
Definition jsonb_append (a : json) (b : list json) : json :=
  match a with JArray l => JArray (l ++ b) | _ => JArray (a :: b) end.

(** [jsonb_build_object('attempt', .., 'error', .., 'started_at', ..,
    'failed_at', ..)]; [render] is the database's rendering of a timestamp. *)
Definition history_entry (render : Time → string) (now : Time) (error : string) (r : JobStepRow) : json :=
  JObject [("attempt", JNumber (if (js_retry_attempt r <? 0)%Z then NegInt (js_retry_attempt r)
                                else PosInt (Z.to_N (js_retry_attempt r))));
           ("error", JString error);
           ("failed_at", JString (render now));
           ("started_at", match js_started_at r with Some t => JString (render t) | None => JNull end)].

Definition retry_row (render : Time → string) (now retry_at : Time) (error : string) (r : StepRec) : StepRec :=
  assign [upd_row (set_retry_history (jsonb_append (js_retry_history (sr_row r))
                                        [history_entry render now error (sr_row r)]));
          upd_row (set_retry_attempt (js_retry_attempt (sr_row r) + 1)%Z);
          put_status "ready"; set_ready_at (Some now); upd_row (set_retry_at (Some retry_at));
          upd_row (set_worker_id None); upd_row (set_started_at None);
          upd_row (set_completed_at None); upd_row (set_error_message None);
          upd_row (set_output None); upd_row (set_agent_state None);
          upd_row (set_suspended_at None)] r.

Definition claim_is (c : ClaimIdentity) (r : JobStepRow) : bool :=
  (js_worker_id r ==? Some (claim_worker_id c)) && (js_started_at r ==? Some (claim_started_at c)).

(** [None]: the retry delay is out of chrono's range and the call panics,
    which rolls the transaction back. *)
Definition fail_or_retry (render : Time → string) (now host_now : Time) (job_id : Uuid)
    (step_name error : string) (expected : list StepStatus) (delay_for : JobStepRow → Z)
    (expected_claim : option ClaimIdentity) (db : Db) : option (Db * FailOutcome) :=
  match db_step db !! (job_id, step_name) with
  | None => Some (db, FailNotApplied)
  | Some rec =>
      let row := sr_row rec in
      if negb (bool_decide (expected = [])) &&
         negb (existsb (λ s, StepStatus.as_ref s ==? js_status row) expected)
      then Some (db, FailNotApplied)
      else if match expected_claim with Some c => negb (claim_is c row) | None => false end
      then Some (db, FailNotApplied)
      else
        let fail :=
          Some ((update_step job_id step_name any_row
                   (assign [put_status "failed"; put_error error; put_completed_at now]) db).1,
                Failed (js_retry_attempt row) (js_max_retries row)) in
        match js_max_retries row with
        | Some max =>
            if (js_retry_attempt row <? max)%Z then
              let delay_secs := delay_for row in
              match retry_instant host_now delay_secs with
              | None => None
              | Some retry_at =>
                  Some ((update_step job_id step_name any_row
                           (retry_row render now retry_at error) db).1,
                        RetryScheduled (js_retry_attempt row + 1)%Z max delay_secs)
              end
            else fail
        | None => fail
        end
  end.

(** ** Releasing a claim *)

Inductive ReleaseOutcome := Released | ReleaseCancelled | CapReached | ReleaseNotApplied.

(** [pin_releases + 1] is an [i32] sum in the check and an SQL [INTEGER] sum
    in the write, where an overflow is an error. *)
Definition release_claim (now : Time) (job_id : Uuid) (step_name : string) (claim : ClaimIdentity)
    (retry_after : Time) (max_releases : Z) (db : Db) : result string (Db * ReleaseOutcome) :=
  match db_job db !! job_id with
  | None => Ok (db, ReleaseNotApplied)
  | Some job =>
      match db_step db !! (job_id, step_name) with
      | Some rec =>
          if status_is "running" rec && claim_is claim (sr_row rec) then
            let pin_releases := js_pin_releases (sr_row rec) in
            if (jr_status job <>? "pending") && (jr_status job <>? "running") then
              let db1 := (update_step job_id step_name any_row
                            (assign [put_status "cancelled"; put_completed_at now]) db).1 in
              let db2 := (cancel_pending_steps_tx now job_id db1).1 in
              Ok (db2, ReleaseCancelled)
            else if (max_releases <? i32_wrap (pin_releases + 1))%Z then Ok (db, CapReached)
            else if (i32_max <? pin_releases + 1)%Z then Err "release claimed step"
            else
              Ok ((update_step job_id step_name any_row
                     (assign [put_status "ready"; upd_row (set_worker_id None);
                              upd_row (set_started_at None); set_ready_at (Some now);
                              upd_row (set_retry_at (Some (now + retry_after)%Z));
                              upd_row (set_pin_releases (pin_releases + 1)%Z)]) db).1, Released)
          else Ok (db, ReleaseNotApplied)
      | None => Ok (db, ReleaseNotApplied)
      end
  end.

(** ** Deferred steps *)

Inductive DeferredWrite := Applied | JobTerminal | NotApplied.

Definition ready_deferred (r : StepRec) : bool :=
  status_is "ready" r && (js_action_type (sr_row r) ==? "deferred").
Definition lease_owner_is (token : Uuid) (r : StepRec) : bool :=
  sr_resolve_lease_owner r ==? Some token.
(** [resolve_lease_until IS NULL OR resolve_lease_until < NOW()] *)
Definition lease_free (now : Time) (r : StepRec) : bool :=
  match sr_resolve_lease_until r with None => true | Some t => (t <? now)%Z end.

Definition take_resolve_lease (now : Time) (job_id : Uuid) (step_name : string) (token : Uuid)
    (lease : Time) (db : Db) : Db * bool :=
  let '(db', n) := update_step job_id step_name (λ r, ready_deferred r && lease_free now r)
    (assign [set_resolve_lease_owner (Some token); set_resolve_lease_until (Some (now + lease)%Z)])
    db in
  (db', (n =? 1)%nat).

Definition renew_resolve_lease (now : Time) (job_id : Uuid) (step_name : string) (token : Uuid)
    (lease : Time) (db : Db) : Db * bool :=
  let '(db', n) := update_step job_id step_name (λ r, lease_owner_is token r && ready_deferred r)
    (set_resolve_lease_until (Some (now + lease)%Z)) db in
  (db', (n =? 1)%nat).

Definition deferred_job_gate (job_id : Uuid) (db : Db) : option DeferredWrite :=
  match db_job db !! job_id with
  | None => Some NotApplied
  | Some job => if sql_in (jr_status job) ["pending"; "running"] then None else Some JobTerminal
  end.

(** The columns [resolve_deferred_tx] writes from the resolved step. *)
Definition resolved_row (now : Time) (s : NewJobStep) : StepRec → StepRec :=
  assign [upd_row (set_action_name (nj_action_name s)); upd_row (set_action_type (nj_action_type s));
          upd_row (set_action_image (nj_action_image s)); upd_row (set_action_spec (nj_action_spec s));
          upd_row (set_required_ability (nj_required_ability s));
          upd_row (set_required_tags (strings_to_json (nj_required_tags s)));
          upd_row (set_runner (nj_runner s)); upd_row (set_max_retries (nj_max_retries s));
          upd_row (set_retry_backoff_secs (nj_retry_backoff_secs s));
          upd_row (set_retry_strategy (nj_retry_strategy s));
          upd_row (set_retry_jitter (nj_retry_jitter s));
          upd_row (set_action_workspace (nj_action_workspace s));
          upd_row (set_action_revision (nj_action_revision s));
          upd_row (set_action_ref (nj_action_ref s));
          upd_row (set_task_workspace (nj_task_workspace s)); upd_row (set_task_ref (nj_task_ref s));
          upd_row (set_task_revision (nj_task_revision s));
          set_ready_at (Some now); set_resolve_lease_owner None; set_resolve_lease_until None].

(** The guarded write both deferred operations make under the job lock. *)
Definition deferred_write (job_id : Uuid) (step_name : string) (token : Uuid)
    (f : StepRec → StepRec) (db : Db) : Db * DeferredWrite :=
  match deferred_job_gate job_id db with
  | Some outcome => (db, outcome)
  | None =>
      let '(db', n) := update_step job_id step_name
        (λ r, ready_deferred r && lease_owner_is token r) f db in
      (db', if (n =? 1)%nat then Applied else NotApplied)
  end.

Definition resolve_deferred_tx (now : Time) (job_id : Uuid) (step_name : string) (token : Uuid)
    (resolved : NewJobStep) (db : Db) : Db * DeferredWrite :=
  deferred_write job_id step_name token (resolved_row now resolved) db.

Definition fail_deferred_tx (now : Time) (job_id : Uuid) (step_name : string) (token : Uuid)
    (error : string) (db : Db) : Db * DeferredWrite :=
  deferred_write job_id step_name token
    (assign [put_status "failed"; put_error error; put_completed_at now;
             set_resolve_lease_owner None; set_resolve_lease_until None]) db.

Definition stamp_task_pin (job_id : Uuid) (step_name workspace git_ref commit : string) (db : Db)
    : Db * bool :=
  let '(db', n) := update_step job_id step_name
    (λ r, status_is "ready" r && (js_task_ref (sr_row r) ==? None))
    (assign [upd_row (set_task_workspace (Some workspace)); upd_row (set_task_ref (Some git_ref));
             upd_row (set_task_revision (Some commit))]) db in
  (db', (n =? 1)%nat).

(** ** Sweeps *)

Record StaleStepInfo := mkStale {
  st_job_id : Uuid;
  st_step_name : string;
  st_worker_id : option Uuid;
  st_started_at : option Time;
}.

Definition stale_claim (s : StaleStepInfo) : option ClaimIdentity :=
  match st_worker_id s, st_started_at s with
  | Some w, Some t => Some (mkClaim w t)
  | _, _ => None
  end.

Definition stale_of (r : StepRec) : StaleStepInfo :=
  mkStale (js_job_id (sr_row r)) (js_step_name (sr_row r)) (js_worker_id (sr_row r))
    (js_started_at (sr_row r)).
(** The selections that report [NULL] for the claim. *)
Definition stale_unclaimed (r : StepRec) : StaleStepInfo :=
  mkStale (js_job_id (sr_row r)) (js_step_name (sr_row r)) None None.

Definition get_running_steps_for_workers (worker_ids : list Uuid) (db : Db) : list StaleStepInfo :=
  if bool_decide (worker_ids = []) then []
  else stale_of <$> sql_select (λ _ r, status_is "running" r &&
         match js_worker_id (sr_row r) with
         | Some w => bool_decide (w ∈ worker_ids)
         | None => false
         end) (db_step db).

(** [since + timeout_secs < NOW()], [NULL] (not selected) when either is. *)
Definition deadline_passed (now : Time) (since : option Time) (timeout_secs : option Z) : bool :=
  match timeout_secs, since with
  | Some secs, Some t => (t + secs * 1000000 <? now)%Z
  | _, _ => false
  end.

Definition get_timed_out_steps (now : Time) (db : Db) : list StaleStepInfo :=
  stale_of <$> sql_select (λ _ r, status_is "running" r &&
    deadline_passed now (js_started_at (sr_row r)) (js_timeout_secs (sr_row r))) (db_step db).

Definition get_timed_out_suspended_steps (now : Time) (db : Db) : list StaleStepInfo :=
  stale_unclaimed <$> sql_select (λ _ r, status_is "suspended" r &&
    deadline_passed now (js_suspended_at (sr_row r)) (js_timeout_secs (sr_row r))) (db_step db).

(** [EXISTS (SELECT 1 FROM worker w WHERE ...)] of the sweep. *)
Definition matching_worker_exists (db : Db) (r : StepRec) : bool :=
  negb (bool_decide (sql_select (λ _ w, (w_status w ==? "active") &&
    worker_matches (w_capabilities w) (w_tags w) (w_exclusive w) r) (db_worker db) = [])).

Definition unmatched (now timeout : Time) (db : Db) (r : StepRec) : bool :=
  status_is "ready" r &&
  negb (sql_in (js_action_type (sr_row r)) SERVER_DISPATCHED) &&
  (js_action_type (sr_row r) <>? "deferred") &&
  match sr_ready_at r with Some t => (t <? now - timeout)%Z | None => false end &&
  negb (matching_worker_exists db r).

Definition get_unmatched_ready_steps (now timeout : Time) (db : Db) : list StaleStepInfo :=
  stale_unclaimed <$> sql_select (λ _ r, unmatched now timeout db r) (db_step db).

(** ** Steps of a worker *)

Definition steps_of_worker (worker_id : Uuid) (db : Db) : list StepRec :=
  sql_select (λ _ r, js_worker_id (sr_row r) ==? Some worker_id) (db_step db).

(** [ORDER BY started_at DESC NULLS LAST] *)
Definition started_desc (a b : StepRec) : bool :=
  match js_started_at (sr_row a), js_started_at (sr_row b) with
  | Some x, Some y => (y <=? x)%Z
  | Some _, None => true
  | None, Some _ => false
  | None, None => true
  end.

(** The step and the job it is joined with. *)
Definition list_by_worker (worker_id : Uuid) (limit offset : nat) (db : Db)
    : list (JobStepRow * JobRow) :=
  take limit (drop offset (omap (λ r, (λ j, (sr_row r, jr_row j)) <$>
                                        db_job db !! js_job_id (sr_row r))
                             (sort_by started_desc (steps_of_worker worker_id db)))).

Definition count_by_worker (worker_id : Uuid) (db : Db) : nat := length (steps_of_worker worker_id db).
