(* ===== verification/StepRepoProps.v ===== *)
(** * Properties of the step repository

    What the statements of [StepRepo] do to a row, the transitions they allow,
    the retry budget, the claim, the release and the resolution lease. *)
From S2P Require Import Prelude Json JobModel Db StepRepo.

(** ** Statements on one table *)

Lemma lookup_update_step j n g f db k :
  db_step (update_step j n g f db).1 !! k =
  (λ r, if (k ==? (j, n)) && g r then f r else r) <$> db_step db !! k.
Proof.
  exact (lookup_sql_update (λ k r, (k ==? (j, n)) && g r) f (db_step db) k).
Qed.

Lemma lookup_update_job_steps j g f db k :
  db_step (update_job_steps j g f db).1 !! k =
  (λ r, if (k.1 ==? j) && g k.2 r then f r else r) <$> db_step db !! k.
Proof.
  exact (lookup_sql_update (λ k r, (k.1 ==? j) && g k.2 r) f (db_step db) k).
Qed.

Lemma lookup_update_step_ne j n g f db k :
  k ≠ (j, n) → db_step (update_step j n g f db).1 !! k = db_step db !! k.
Proof.
  intros Hk. rewrite lookup_update_step. rewrite bool_decide_false by done.
  by destruct (db_step db !! k).
Qed.

Lemma lookup_update_step_eq j n g f db :
  db_step (update_step j n g f db).1 !! (j, n) =
  (λ r, if g r then f r else r) <$> db_step db !! (j, n).
Proof. rewrite lookup_update_step. by rewrite bool_decide_true by done. Qed.

Lemma update_step_db_job j n g f db : db_job (update_step j n g f db).1 = db_job db.
Proof. done. Qed.

Lemma update_job_steps_db_job j g f db : db_job (update_job_steps j g f db).1 = db_job db.
Proof. done. Qed.

Lemma update_step_db_ref_pin j n g f db : db_ref_pin (update_step j n g f db).1 = db_ref_pin db.
Proof. done. Qed.

Lemma update_job_steps_db_ref_pin j g f db : db_ref_pin (update_job_steps j g f db).1 = db_ref_pin db.
Proof. done. Qed.

(** A statement on one key reports one row, or none when it is absent or its
    guard fails. *)
Lemma update_step_count j n g f db :
  (update_step j n g f db).2 =
  match db_step db !! (j, n) with
  | Some r => if g r then 1%nat else 0%nat
  | None => 0%nat
  end.
Proof.
  unfold update_step.
  pose proof (sql_update_single_count (λ k r, (k ==? (j, n)) && g r) f (db_step db) (j, n)) as Hc.
  destruct (sql_update _ _ _) as [t c] eqn:E. simpl in *. rewrite Hc.
  - by rewrite bool_decide_true by done.
  - intros k' r [Hk%bool_decide_eq_true _]%andb_true_iff. done.
Qed.

(** A statement whose guard holds on no row leaves the table alone. *)
Lemma update_step_noop j n g f db :
  (∀ r, db_step db !! (j, n) = Some r → g r = false) → (update_step j n g f db).1 = db.
Proof.
  intros Hg. destruct db as [dj ds dw dp]. unfold update_step. simpl. unfold with_step. simpl. f_equal.
  apply map_eq. intros k. rewrite map_lookup_imap. simpl in *.
  destruct (decide (k = (j, n))) as [->|Hk].
  - destruct (ds !! (j, n)) as [r|] eqn:Hr; [|done]. simpl.
    by rewrite (Hg r), andb_false_r.
  - rewrite bool_decide_false by done. by destruct (ds !! k).
Qed.

#[export] Hint Rewrite lookup_update_step_eq update_step_db_job : stroem.

(** A statement on a job reports the rows it selects. *)
Lemma update_job_steps_count j g f db (ns : list string) :
  NoDup ns → (∀ n, n ∈ ns ↔ ∃ r, db_step db !! (j, n) = Some r ∧ g n r = true) →
  (update_job_steps j g f db).2 = length ns.
Proof.
  intros Hnd Hns. unfold update_job_steps, sql_update. cbn [fst snd].
  set (m := filter _ (db_step db)).
  rewrite <-length_map_to_list, <-(length_fmap fst (map_to_list m)), <-(length_fmap (λ n, (j, n)) ns).
  apply Permutation_length, NoDup_Permutation.
  - apply NoDup_fst_map_to_list.
  - apply NoDup_fmap_2; [intros a b; congruence|done].
  - intros [k n]. rewrite !list_elem_of_fmap. split.
    + intros ([k' r] & E & [Hr [Hk%bool_decide_eq_true Hg]%andb_true_iff]%elem_of_map_to_list%map_lookup_filter_Some).
      exists n. simplify_eq/=. split; [done|]. apply Hns. eauto.
    + intros (n' & [= -> ->] & (r & Hr & Hg)%Hns). exists ((j, n'), r). split; [done|].
      apply elem_of_map_to_list, map_lookup_filter_Some. split; [done|]. simpl.
      by rewrite bool_decide_true, Hg.
Qed.

(** From here on the statements are known by the lemmas above. *)
#[global] Opaque update_step update_job_steps.

(** ** Operations as data *)

(** Every operation of the repository that rewrites a row of a live job, with
    its arguments. Creation and seeding run before the job is visible. *)
Inductive StepOp :=
| OpPromote (names : list string)
| OpSkip (names : list string) (reason : string)
| OpFailPending (name error : string)
| OpStartPlaceholder (name : string)
| OpCompletePlaceholder (name : string) (output : json)
| OpFailPlaceholder (name error : string) (output : json)
| OpClaim (locked : Uuid * string → bool) (caps tags : list string) (exclusive : bool) (worker : Uuid)
| OpMarkRunning (name : string) (worker : Uuid)
| OpMarkRunningServer (name : string)
| OpClaimTaskDispatch (name : string) (pin : option (string * string * string))
| OpCancelServerManaged
| OpMarkCompleted (name : string) (output : option json)
| OpMarkFailed (name error : string)
| OpFailTaskDispatch (name error : string) (expected : StepStatus)
    (pin : option (string * string * string))
| OpFailOrRetry (name error : string) (expected : list StepStatus) (delay_for : JobStepRow → Z)
    (claim : option ClaimIdentity)
| OpReleaseClaim (name : string) (claim : ClaimIdentity) (retry_after : Time) (max_releases : Z)
| OpTakeLease (name : string) (token : Uuid) (lease : Time)
| OpRenewLease (name : string) (token : Uuid) (lease : Time)
| OpResolveDeferred (name : string) (token : Uuid) (resolved : NewJobStep)
| OpFailDeferred (name : string) (token : Uuid) (error : string)
| OpStampTaskPin (name workspace git_ref commit : string)
| OpUpdateInput (name : string) (input : option json)
| OpMarkSkipped (name reason : string)
| OpCancelPending
| OpFailNonTerminal (error : string)
| OpMarkCancelled (name : string)
| OpApprove (name : string) (output : option json)
| OpMarkSuspended (name : string)
| OpUpdateAgentState (name : string) (agent_state : json).

Section exec.
Context `{RowPick} (render : Time → string).

(** The database after one operation on a job. A panic or an SQL error rolls
    its transaction back. *)
Definition exec (now host_now : Time) (job_id : Uuid) (op : StepOp) (db : Db) : Db :=
  match op with
  | OpPromote names => (promote_steps_tx now job_id names db).1
  | OpSkip names reason => (skip_steps_tx now job_id names reason db).1
  | OpFailPending n e => (fail_pending_step_tx now job_id n e db).1
  | OpStartPlaceholder n => (start_placeholder_tx now job_id n db).1
  | OpCompletePlaceholder n o => (complete_placeholder_tx now job_id n o db).1
  | OpFailPlaceholder n e o => (fail_placeholder_tx now job_id n e o db).1
  | OpClaim locked caps tags ex w => (claim_ready_step now locked caps tags ex w db).1
  | OpMarkRunning n w => mark_running now job_id n w db
  | OpMarkRunningServer n => mark_running_server now job_id n db
  | OpClaimTaskDispatch n pin => (claim_task_dispatch now job_id n pin db).1
  | OpCancelServerManaged => (cancel_server_managed_steps now job_id db).1
  | OpMarkCompleted n o => mark_completed now job_id n o db
  | OpMarkFailed n e => mark_failed now job_id n e db
  | OpFailTaskDispatch n e ex pin => (fail_task_dispatch now job_id n e ex pin db).1
  | OpFailOrRetry n e ex d c =>
      match fail_or_retry render now host_now job_id n e ex d c db with
      | Some (db', _) => db'
      | None => db
      end
  | OpReleaseClaim n c ra m =>
      match release_claim now job_id n c ra m db with Ok (db', _) => db' | Err _ => db end
  | OpTakeLease n t l => (take_resolve_lease now job_id n t l db).1
  | OpRenewLease n t l => (renew_resolve_lease now job_id n t l db).1
  | OpResolveDeferred n t r => (resolve_deferred_tx now job_id n t r db).1
  | OpFailDeferred n t e => (fail_deferred_tx now job_id n t e db).1
  | OpStampTaskPin n w g c => (stamp_task_pin job_id n w g c db).1
  | OpUpdateInput n i => update_input job_id n i db
  | OpMarkSkipped n r => mark_skipped now job_id n r db
  | OpCancelPending => (cancel_pending_steps now job_id db).1
  | OpFailNonTerminal e => (fail_non_terminal_steps now job_id e db).1
  | OpMarkCancelled n => mark_cancelled now job_id n db
  | OpApprove n o => (approve_step now job_id n o db).1
  | OpMarkSuspended n => mark_suspended now job_id n db
  | OpUpdateAgentState n a => update_agent_state job_id n a db
  end.

Definition step_terminal (s : string) : bool :=
  sql_in s ["completed"; "failed"; "skipped"; "cancelled"].

(** The operations whose statement names the status it moves from, or moves
    none: all but the three unconditional [mark_*], and [fail_or_retry] and
    [fail_task_dispatch] when the caller passes terminal or no statuses. *)
Definition guarded (op : StepOp) : bool :=
  match op with
  | OpMarkRunning _ _ | OpMarkCompleted _ _ | OpMarkFailed _ _ => false
  | OpFailTaskDispatch _ _ ex _ => negb (step_terminal (StepStatus.as_ref ex))
  | OpFailOrRetry _ _ ex _ _ =>
      negb (bool_decide (ex = [])) && forallb (λ s, negb (step_terminal (StepStatus.as_ref s))) ex
  | _ => true
  end.

(** The columns that record how a step ended. *)
Definition verdict (r : StepRec) : string * option json * option string * option string * option Time :=
  (sr_status r, js_output (sr_row r), js_error_message (sr_row r), js_skip_reason (sr_row r),
   js_completed_at (sr_row r)).

(** The status changes the guarded operations make. *)
Definition transition (s s' : string) : bool :=
  (s ==? s') ||
  ((s ==? "pending") && sql_in s' ["ready"; "skipped"; "failed"; "running"; "cancelled"]) ||
  ((s ==? "ready") && sql_in s' ["running"; "suspended"; "failed"; "cancelled"]) ||
  ((s ==? "running") && sql_in s' ["completed"; "failed"; "cancelled"; "ready"]) ||
  ((s ==? "suspended") && sql_in s' ["completed"; "failed"; "cancelled"; "ready"]) ||
  ((s ==? "claimed") && sql_in s' ["failed"; "ready"]).
End exec.

(** ** Rows before and after *)

(** Every row of [db] is still there, related to its old value by [P], and no
    row is new. *)
Definition rows_rel (P : StepRec → StepRec → Prop) (db db' : Db) : Prop :=
  ∀ k, option_relation P (λ _, False) (λ _, False) (db_step db !! k) (db_step db' !! k).

Section rows_rel.
Context (P : StepRec → StepRec → Prop) `{!Reflexive P}.

Lemma rows_rel_refl db : rows_rel P db db.
Proof. intros k. destruct (db_step db !! k); simpl; [reflexivity|done]. Qed.

Lemma rows_rel_update_step j n g f db :
  (∀ r, db_step db !! (j, n) = Some r → g r = true → P r (f r)) →
  rows_rel P db (update_step j n g f db).1.
Proof.
  intros HP k. rewrite lookup_update_step. destruct (db_step db !! k) as [r|] eqn:Hr; [|done].
  simpl. destruct (bool_decide_reflect (k = (j, n))) as [->|]; simpl; [|reflexivity].
  destruct (g r) eqn:Hg; [by eapply HP|reflexivity].
Qed.

Lemma rows_rel_update_job_steps j g f db :
  (∀ n r, g n r = true → P r (f r)) → rows_rel P db (update_job_steps j g f db).1.
Proof.
  intros HP k. rewrite lookup_update_job_steps. destruct (db_step db !! k) as [r|]; [|done].
  simpl. destruct (_ && _) eqn:Hg; [|reflexivity]. apply andb_true_iff in Hg as [_ Hg]. by eapply HP.
Qed.
End rows_rel.

(** Turns a guard of an update into equations on the row's columns. *)
Ltac split_guard :=
  repeat match goal with
  | H : _ && _ = true |- _ => apply andb_true_iff in H as [? ?]
  | H : (_ ==? _) = true |- _ => apply bool_decide_eq_true in H
  | H : status_is _ _ = true |- _ => unfold status_is in H
  | H : status_in _ _ = true |- _ => unfold status_in in H
  | H : ready_deferred _ = true |- _ => unfold ready_deferred in H
  | H : sql_in _ _ = true |- _ => apply bool_decide_eq_true in H
  | H : _ ∈ _ :: _ |- _ => apply elem_of_cons in H as [H|H]
  | H : _ ∈ [] |- _ => by apply elem_of_nil in H
  end.

(** A row may move only along [transition], and a terminal one keeps its
    verdict. *)
Definition legal (r r' : StepRec) : Prop :=
  transition (sr_status r) (sr_status r') = true ∧
  (step_terminal (sr_status r) = true → verdict r' = verdict r).

#[export] Instance legal_refl : Reflexive legal.
Proof.
  intros r. split; [|done]. unfold transition. by rewrite bool_decide_true by done.
Qed.

(** A write that keeps every verdict column is legal. *)
Lemma legal_same r r' : verdict r' = verdict r → legal r r'.
Proof.
  intros E. split; [|done]. assert (sr_status r' = sr_status r) as -> by (unfold verdict in E; congruence).
  apply legal_refl.
Qed.

(** A row that leaves a live status along [transition] is legal. *)
Lemma legal_move r r' :
  step_terminal (sr_status r) = false → transition (sr_status r) (sr_status r') = true → legal r r'.
Proof. intros Ht Hm. split; [done|]. by rewrite Ht. Qed.

(** Closes the two premises of [legal_move] once the old status is known. *)
Ltac legal_by_status :=
  split_guard;
  match goal with
  | H : sr_status ?r = _ |- legal ?r _ =>
      apply legal_move; [rewrite H|rewrite H]; vm_compute; reflexivity
  end.

Lemma as_ref_transition s s' :
  step_terminal (StepStatus.as_ref s) = false → s' ∈ ["failed"; "ready"] →
  transition (StepStatus.as_ref s) s' = true.
Proof.
  intros Ht [->|[->|[]%elem_of_nil]%elem_of_cons]%elem_of_cons; destruct s; try done.
Qed.

Section transitions.
Context `{RowPick} (render : Time → string).

Lemma claim_candidates_spec now locked caps tags ex db k :
  k ∈ claim_candidates now locked caps tags ex db →
  ∃ r, db_step db !! k = Some r ∧ locked k = false ∧
       claimable now (strings_to_json caps) (strings_to_json tags) ex r = true.
Proof.
  intros ([k' r] & -> & Hin)%list_elem_of_fmap.
  apply elem_of_map_to_list, map_lookup_filter_Some in Hin as [Hr Hc].
  apply andb_true_iff in Hc as [Hc Hl]. exists r. split_and!; [done| |done].
  by apply negb_true_iff.
Qed.

Lemma claim_legal now locked caps tags ex w db :
  rows_rel legal db (claim_ready_step now locked caps tags ex w db).1.
Proof.
  unfold claim_ready_step. destruct (pick_row _) as [k|] eqn:Hp; [|apply rows_rel_refl, _].
  apply pick_row_some, claim_candidates_spec in Hp as (r & Hr & _ & Hc).
  destruct (update_step _ _ _ _ _) as [db' n] eqn:E. simpl.
  replace db' with (update_step k.1 k.2 any_row (claim_row now w) db).1 by by rewrite E.
  apply rows_rel_update_step; [apply _|]. destruct k as [j s]. simpl. intros r' Hr' _.
  simplify_eq. unfold claimable in Hc. legal_by_status.
Qed.

Lemma release_legal now j n c ra m db db' o :
  release_claim now j n c ra m db = Ok (db', o) → rows_rel legal db db'.
Proof.
  unfold release_claim. intros E. destruct (db_job db !! j) as [job|]; [|simplify_eq; apply rows_rel_refl, _].
  destruct (db_step db !! (j, n)) as [rec|] eqn:Hr; [|simplify_eq; apply rows_rel_refl, _].
  destruct (_ && claim_is _ _) eqn:Hg; [|simplify_eq; apply rows_rel_refl, _].
  repeat case_match; simplify_eq; try apply rows_rel_refl, _.
  - intros k. unfold cancel_pending_steps_tx. rewrite lookup_update_job_steps, lookup_update_step.
    destruct (db_step db !! k) as [r|] eqn:Hk; [|done]. simpl.
    destruct (bool_decide_reflect (k = (j, n))) as [->|]; simpl.
    + simplify_eq. rewrite bool_decide_true by done. simpl. legal_by_status.
    + clear Hg. destruct (_ && status_in _ r) eqn:Hc; [|apply legal_refl].
      split_guard; legal_by_status.
  - apply rows_rel_update_step; [apply _|]. intros r Hr' _. simplify_eq. legal_by_status.
Qed.

Lemma fail_or_retry_legal now hn j n e ex d c db db' o :
  ex ≠ [] → forallb (λ s, negb (step_terminal (StepStatus.as_ref s))) ex = true →
  fail_or_retry render now hn j n e ex d c db = Some (db', o) → rows_rel legal db db'.
Proof.
  intros Hne Hex E. unfold fail_or_retry in E.
  destruct (db_step db !! (j, n)) as [rec|] eqn:Hr; [|simplify_eq; apply rows_rel_refl, _].
  destruct (negb _ && _) eqn:Hg; [simplify_eq; apply rows_rel_refl, _|].
  rewrite bool_decide_false in Hg by done. simpl in Hg.
  apply negb_false_iff, existsb_exists in Hg as (s & Hs & Est%bool_decide_eq_true).
  assert (Ht : step_terminal (StepStatus.as_ref s) = false).
  { rewrite forallb_forall in Hex. by apply negb_true_iff, Hex. }
  assert (Hmove : ∀ r', sr_status r' ∈ ["failed"; "ready"] → legal rec r').
  { intros r' Hr'. apply legal_move; unfold sr_status at 1; rewrite <-Est; [done|].
    by apply as_ref_transition. }
  repeat case_match; simplify_eq; try apply rows_rel_refl, _;
    (apply rows_rel_update_step; [apply _|]); intros r Hr' _; simplify_eq; apply Hmove; set_solver.
Qed.

Lemma deferred_write_legal j n t f db :
  (∀ r, ready_deferred r = true → legal r (f r)) → rows_rel legal db (deferred_write j n t f db).1.
Proof.
  intros Hf. unfold deferred_write. destruct (deferred_job_gate _ _); [apply rows_rel_refl, _|].
  destruct (update_step _ _ _ _ _) as [db' c] eqn:E. simpl.
  change db' with (db', c).1. rewrite <-E. apply rows_rel_update_step; [apply _|].
  intros r _ [? ?]%andb_true_iff. by apply Hf.
Qed.

Lemma fst_let {A B C} (p : A * B) (g : B → C) : (let '(x, y) := p in (x, g y)).1 = p.1.
Proof. by destruct p. Qed.

(** Reduces a statement of an operation to its effect on the rows its guard
    selects. *)
Ltac on_rows :=
  rewrite ?fst_let;
  lazymatch goal with
  | |- rows_rel _ _ (update_step _ _ _ _ _).1 =>
      apply rows_rel_update_step; [apply _|]; intros r _ ?
  | |- rows_rel _ _ (update_job_steps _ _ _ _).1 =>
      apply rows_rel_update_job_steps; [apply _|]; intros ? r ?
  | |- rows_rel _ _ (deferred_write _ _ _ _ _).1 =>
      apply deferred_write_legal; intros r ?
  end.

(** Every guarded operation moves rows along [transition] and leaves the
    verdict of a terminal row alone. *)
Lemma exec_legal now hn j op db :
  guarded op = true → rows_rel legal db (exec render now hn j op db).
Proof.
  intros Hop. destruct op; try discriminate Hop; cbn [exec].
  7: apply claim_legal.
  10: { unfold fail_task_dispatch. on_rows. simpl in Hop.
    apply negb_true_iff in Hop. split_guard.
    match goal with Hs : sr_status r = _ |- _ => apply legal_move; rewrite Hs; [done|] end.
    apply as_ref_transition; [done|set_solver]. }
  10: { simpl in Hop. apply andb_true_iff in Hop as [Hne Hex].
    apply negb_true_iff, bool_decide_eq_false in Hne.
    destruct (fail_or_retry _ _ _ _ _ _ _ _ _ _) as [[db' o]|] eqn:E; [|apply rows_rel_refl, _].
    by eapply fail_or_retry_legal. }
  10: { destruct (release_claim _ _ _ _ _ _ _) as [[db' o]|] eqn:E; [|apply rows_rel_refl, _].
    by eapply release_legal. }
  all: clear Hop; unfold promote_steps_tx, skip_steps_tx, fail_pending_step_tx,
    start_placeholder_tx, complete_placeholder_tx, fail_placeholder_tx, mark_running_server,
    claim_task_dispatch, cancel_server_managed_steps, take_resolve_lease, renew_resolve_lease,
    resolve_deferred_tx, fail_deferred_tx, stamp_task_pin, update_input, mark_skipped,
    cancel_pending_steps, cancel_pending_steps_tx, fail_non_terminal_steps,
    fail_non_terminal_steps_tx, mark_cancelled, approve_step, mark_suspended, update_agent_state;
    on_rows.
  all: first [by apply legal_same | legal_by_status].
Qed.
End transitions.

(** ** The life of a step *)

Section lifecycle.
Context `{RowPick} (render : Time → string).

(** One guarded operation on some job, or the insertion of rows (the loop
    instances a cascade creates). *)
Inductive live_step : Db → Db → Prop :=
| live_exec now hn j op db :
    guarded op = true → live_step db (exec render now hn j op db)
| live_create hn steps db db' :
    create_steps_tx hn steps db = Ok db' → live_step db db'.

Lemma insert_steps_keeps hn jobs steps t t' k r :
  insert_steps hn jobs steps t = Ok t' → t !! k = Some r → t' !! k = Some r.
Proof.
  revert t. induction steps as [|s steps IH]; simpl; intros t E Hr; [by simplify_eq|].
  repeat case_match; simplify_eq. eapply IH; [done|].
  rewrite lookup_insert_ne; [done|]. intros <-. congruence.
Qed.

Lemma live_step_legal db db' k r :
  live_step db db' → db_step db !! k = Some r → ∃ r', db_step db' !! k = Some r' ∧ legal r r'.
Proof.
  intros [now hn j op db0 Hop|hn steps db0 db0' E] Hr.
  - pose proof (exec_legal render now hn j op db0 Hop k) as Hk. rewrite Hr in Hk.
    destruct (db_step (exec render now hn j op db0) !! k) as [r'|]; [|done]. by eexists.
  - exists r. split; [|apply legal_refl]. unfold create_steps_tx in E. case_match; simplify_eq; [done|].
    destruct (_ <? _)%nat; [done|].
    destruct (insert_steps _ _ _ _) as [t|] eqn:Ei; simplify_eq/=. by eapply insert_steps_keeps.
Qed.

(** The step a statement without a guard of its own writes. *)
Definition named_step (op : StepOp) : option string :=
  match op with
  | OpMarkRunning n _ | OpMarkCompleted n _ | OpMarkFailed n _ | OpFailTaskDispatch n _ _ _ | OpFailOrRetry n _ _ _ _ => Some n
  | _ => None
  end.

(** Every statement of the repository, but for the unguarded ones that name
    this very row. *)
Inductive spares (k : Uuid * string) : Db → Db → Prop :=
| spares_live db db' : live_step db db' → spares k db db'
| spares_named now hn j op n db :
    named_step op = Some n → (j, n) ≠ k → spares k db (exec render now hn j op db)
| spares_seed now j seeds db db' :
    (∀ s, s ∈ seeds → (j, seed_step_name s) ≠ k) → seed_steps_tx now j seeds db = Ok db' → spares k db db'.

Lemma named_elsewhere now hn j op n db k :
  named_step op = Some n → (j, n) ≠ k → db_step (exec render now hn j op db) !! k = db_step db !! k.
Proof.
  intros Hn Hk. assert (Hne : k ≠ (j, n)) by congruence.
  destruct op; try discriminate Hn; injection Hn as ->; cbn [exec];
    unfold mark_running, mark_completed, mark_failed, fail_task_dispatch; rewrite ?fst_let; try by apply lookup_update_step_ne.
  unfold fail_or_retry. repeat case_match; simplify_eq; rewrite ?fst_let in *; try done; by apply lookup_update_step_ne.
Qed.

Lemma seed_elsewhere now j seeds db db' k :
  (∀ s, s ∈ seeds → (j, seed_step_name s) ≠ k) → seed_steps_tx now j seeds db = Ok db' → db_step db' !! k = db_step db !! k.
Proof.
  revert db. induction seeds as [|s seeds IH]; intros db Hs E; simpl in E; [by injection E as <-|].
  destruct (update_step _ _ _ _ db) as [db1 n] eqn:Eu. destruct (n =? 1)%nat; [|done].
  rewrite (IH db1 (λ s' Hin, Hs s' (list_elem_of_further _ _ _ Hin)) E). apply (f_equal fst) in Eu. simpl in Eu. subst db1.
  apply lookup_update_step_ne. intros ->. by apply (Hs s); [left|].
Qed.

(** C10. A step that has reached completed, failed, skipped or cancelled
    keeps its status, output, error, skip reason and completion time under
    every sequence of statements of the repository in which no statement
    without a status guard names that step: promotion, claims, releases,
    cancellation sweeps, approvals, deferred resolution and fenced failures
    cannot resurrect or rewrite a finished step. Without a guard are
    [mark_running], [mark_completed], [mark_failed], [fail_or_retry] called
    with no expected status (a worker's failure report) or a terminal one,
    [fail_task_dispatch] called with a terminal one, and the seeds of a
    restart. *)
Theorem step_terminal_final db db' k r :
  rtc (spares k) db db' → db_step db !! k = Some r → step_terminal (sr_status r) = true →
  ∃ r', db_step db' !! k = Some r' ∧ verdict r' = verdict r.
Proof.
  intros Hrun. revert r. induction Hrun as [db|db db1 db' Hs _ IH]; intros r Hr Ht; [eauto|].
  destruct Hs as [db db1 Hs|now hn j op n db Hn Hk|now j seeds db db1 Hsd E].
  - destruct (live_step_legal _ _ _ _ Hs Hr) as (r1 & Hr1 & _ & Hv). specialize (Hv Ht).
    assert (sr_status r1 = sr_status r) as Est by (unfold verdict in Hv; congruence).
    destruct (IH r1 Hr1) as (r' & Hr' & Hv'); [by rewrite Est|]. exists r'. split; [done|congruence].
  - apply IH; [|done]. by rewrite (named_elsewhere _ _ _ _ _ _ _ Hn Hk).
  - apply IH; [|done]. by rewrite (seed_elsewhere _ _ _ _ _ _ Hsd E).
Qed.
End lifecycle.

(** ** The retry budget *)

(** A worker runs the step and it fails, [n] times over: the outcomes. *)
Fixpoint run_failures (render : Time → string) (clock : nat → Time) (job_id : Uuid)
    (step_name error : string) (worker : Uuid) (delay_for : JobStepRow → Z) (n : nat) (db : Db)
    : option (Db * list FailOutcome) :=
  match n with
  | O => Some (db, [])
  | S n' =>
      let db1 := mark_running (clock n) job_id step_name worker db in
      match fail_or_retry render (clock n) (clock n) job_id step_name error [StepRunning]
              delay_for (Some (mkClaim worker (clock n))) db1 with
      | None => None
      | Some (db2, o) =>
          match run_failures render clock job_id step_name error worker delay_for n' db2 with
          | None => None
          | Some (db3, os) => Some (db3, o :: os)
          end
      end
  end.

(** The outcomes a budget of [max] retries allows from attempt [a]. *)
Fixpoint budget_outcomes (a max : nat) (delays : nat → Z) (n : nat) : list FailOutcome :=
  match n with
  | O => []
  | S n' =>
      if (a <? max)%nat
      then RetryScheduled (Z.of_nat (S a)) (Z.of_nat max) (delays a) :: budget_outcomes (S a) max delays n'
      else Failed (Z.of_nat a) (Some (Z.of_nat max)) :: budget_outcomes a max delays n'
  end.

(** The columns a retry delay is computed from, the attempt apart. *)
Definition retry_settings (r : JobStepRow) : option Z * option string * bool :=
  (js_retry_backoff_secs r, js_retry_strategy r, js_retry_jitter r).

(** The row a retry budget is read from, whatever its other columns. *)
Definition budget_row (r : StepRec) (s : option Z * option string * bool) (a max : nat) (hist : list json) : Prop :=
  retry_settings (sr_row r) = s ∧
  js_retry_attempt (sr_row r) = Z.of_nat a ∧ js_max_retries (sr_row r) = Some (Z.of_nat max) ∧
  js_retry_history (sr_row r) = JArray hist.

Section retry.
Context (render : Time → string) (delay_for : JobStepRow → Z) (delays : nat → Z).
Context (settings : option Z * option string * bool) (clock : nat → Time).
(** The delay depends on the retry columns alone, and is in range. *)
Hypothesis delay_for_settings : ∀ r a,
  retry_settings r = settings → js_retry_attempt r = Z.of_nat a → delay_for r = delays a.
Hypothesis delay_in_range : ∀ n a, is_Some (retry_instant (clock n) (delays a)).

Lemma fail_running_step now j n e w db r a max hist :
  (∃ m, now = clock m) →
  db_step db !! (j, n) = Some r → sr_status r = "running" →
  js_worker_id (sr_row r) = Some w → js_started_at (sr_row r) = Some now →
  budget_row r settings a max hist →
  ∃ db' r' o, fail_or_retry render now now j n e [StepRunning] delay_for (Some (mkClaim w now)) db
              = Some (db', o) ∧
    db_step db' !! (j, n) = Some r' ∧
    if (a <? max)%nat then
      o = RetryScheduled (Z.of_nat (S a)) (Z.of_nat max) (delays a) ∧
      sr_status r' = "ready" ∧
      ∃ h, budget_row r' settings (S a) max (hist ++ [h])
    else
      o = Failed (Z.of_nat a) (Some (Z.of_nat max)) ∧ sr_status r' = "failed" ∧
      budget_row r' settings a max hist.
Proof.
  intros [m ->] Hr Hs Hw Ht (Hset & Ha & Hm & Hh). unfold fail_or_retry. rewrite Hr.
  change (js_status (sr_row r)) with (sr_status r). rewrite Hs, Hm, Ha. simpl.
  unfold claim_is. rewrite Hw, Ht, !bool_decide_true by done. simpl.
  destruct (Nat.ltb_spec a max) as [Hlt|Hge].
  - replace (Z.of_nat a <? Z.of_nat max)%Z with true by (symmetry; apply Z.ltb_lt; lia).
    rewrite (delay_for_settings (sr_row r) a Hset Ha).
    destruct (delay_in_range m a) as [t Ht']. rewrite Ht'.
    eexists _, _, _. split; [reflexivity|]. rewrite lookup_update_step_eq, Hr. simpl.
    split; [reflexivity|]. split_and!.
    + f_equal. lia.
    + done.
    + eexists. unfold budget_row. simpl. rewrite Ha, Hh, Hm. split_and!; [done|lia|done|done].
  - replace (Z.of_nat a <? Z.of_nat max)%Z with false by (symmetry; apply Z.ltb_ge; lia).
    eexists _, _, _. split; [reflexivity|]. rewrite lookup_update_step_eq, Hr. simpl.
    split; [reflexivity|]. done.
Qed.

(** The retry budget: a step run and failed over and over is rescheduled
    until its budget is spent, and every later failure is final. *)
Lemma fail_or_retry_budget j n e w max k db r a hist :
  db_step db !! (j, n) = Some r → budget_row r settings a max hist → (a ≤ max)%nat →
  ∃ db' r' hist',
    run_failures render clock j n e w delay_for k db =
      Some (db', budget_outcomes a max delays k) ∧
    db_step db' !! (j, n) = Some r' ∧
    budget_row r' settings (Nat.min (a + k) max) max (hist ++ hist') ∧
    length hist' = Nat.min k (max - a).
Proof.
  revert db r a hist. induction k as [|k IH]; intros db r a hist Hr Hb Ha.
  - exists db, r, []. simpl. rewrite Nat.add_0_r, Nat.min_l, app_nil_r by done. done.
  - cbn [run_failures]. set (now := clock (S k)).
    assert (Hr1 : db_step (mark_running now j n w db) !! (j, n) = Some (claim_row now w r)).
    { unfold mark_running. by rewrite lookup_update_step_eq, Hr. }
    destruct (fail_running_step now j n e w _ _ a max hist ltac:(by eexists) Hr1 eq_refl eq_refl eq_refl Hb)
      as (db2 & r2 & o & E & Hr2 & Hout).
    rewrite E. cbn [budget_outcomes]. destruct (Nat.ltb_spec a max) as [Hlt|Hge].
    + destruct Hout as (-> & _ & h & Hb2).
      destruct (IH db2 r2 (S a) (hist ++ [h]) Hr2 Hb2 ltac:(lia))
        as (db' & r' & hist' & E' & Hr' & Hb' & Hl).
      rewrite E'. exists db', r', (h :: hist'). split_and!; [done|done| |].
      * replace (a + S k)%nat with (S a + k)%nat by lia. by rewrite <-app_assoc in Hb'.
      * rewrite length_cons, Hl. clear -Hlt. lia.
    + destruct Hout as (-> & _ & Hb2).
      destruct (IH db2 r2 a hist Hr2 Hb2 ltac:(lia)) as (db' & r' & hist' & E' & Hr' & Hb' & Hl).
      rewrite E'. exists db', r', hist'. split_and!; [done|done| |lia].
      by replace (Nat.min (a + S k) max) with (Nat.min (a + k) max) by lia.
Qed.
End retry.

(** ** The worker claim *)

(** Keys and tags as the statements of this repository write them. *)
Definition steps_wf (db : Db) : Prop :=
  ∀ k r, db_step db !! k = Some r →
    js_job_id (sr_row r) = k.1 ∧ js_step_name (sr_row r) = k.2 ∧
    ∃ ts, js_required_tags (sr_row r) = strings_to_json ts.

(** What a worker must offer to run a step. *)
Definition Matches (caps tags : list string) (exclusive : bool) (r : StepRec) : Prop :=
  js_required_ability (sr_row r) ∈ caps ∧
  ∃ ts, js_required_tags (sr_row r) = strings_to_json ts ∧ ts ⊆ tags ∧ (exclusive = true → tags ⊆ ts).

Definition Claimable (now : Time) (caps tags : list string) (exclusive : bool) (r : StepRec) : Prop :=
  sr_status r = "ready" ∧ Matches caps tags exclusive r ∧
  (js_action_type (sr_row r) ∉ SERVER_DISPATCHED) ∧
  (∀ t, js_retry_at (sr_row r) = Some t → (t ≤ now)%Z).

Lemma forallb_elem_of (l l' : list string) :
  (forallb (λ y, bool_decide (y ∈ l')) l = true) ↔ l ⊆ l'.
Proof.
  rewrite forallb_forall. split.
  - intros H x Hx%list_elem_of_In. apply H in Hx. by apply bool_decide_eq_true in Hx.
  - intros H x Hx%list_elem_of_In. apply bool_decide_eq_true. by apply H.
Qed.

Lemma worker_matches_spec caps tags ex r ts :
  js_required_tags (sr_row r) = strings_to_json ts →
  (worker_matches (strings_to_json caps) (strings_to_json tags) ex r = true) ↔ Matches caps tags ex r.
Proof.
  intros Hts. unfold worker_matches, Matches. rewrite Hts.
  rewrite !andb_true_iff, orb_true_iff, negb_true_iff, jsonb_contains_string,
    !jsonb_contains_strings, !forallb_elem_of, bool_decide_eq_true.
  split.
  - intros [[Ha Ht] He]. split; [done|]. exists ts. split_and!; [done|done|].
    intros ->. by destruct He.
  - intros (Ha & ts' & Hts'%(f_equal json_to_strings) & Ht & He).
    rewrite !json_to_strings_to_json in Hts'. simplify_eq.
    split; [done|]. destruct ex; [right; by apply He|by left].
Qed.

Lemma claimable_spec now caps tags ex r ts :
  js_required_tags (sr_row r) = strings_to_json ts →
  (claimable now (strings_to_json caps) (strings_to_json tags) ex r = true) ↔ Claimable now caps tags ex r.
Proof.
  intros Hts. unfold claimable, Claimable, status_is, retry_due, sql_in.
  rewrite !andb_true_iff, (worker_matches_spec _ _ _ _ ts) by done.
  rewrite negb_true_iff, bool_decide_eq_true, bool_decide_eq_false.
  destruct (js_retry_at (sr_row r)) as [t|].
  - rewrite Z.leb_le. naive_solver.
  - naive_solver.
Qed.

Lemma elem_of_claim_candidates now locked caps tags ex db k r :
  db_step db !! k = Some r → locked k = false →
  claimable now (strings_to_json caps) (strings_to_json tags) ex r = true →
  k ∈ claim_candidates now locked caps tags ex db.
Proof.
  intros Hr Hl Hc. unfold claim_candidates. apply list_elem_of_fmap. exists (k, r).
  split; [done|]. apply elem_of_map_to_list, map_lookup_filter_Some. split; [done|].
  by rewrite Hc, Hl.
Qed.

Lemma update_step_insert j n f db r :
  db_step db !! (j, n) = Some r →
  db_step (update_step j n any_row f db).1 = <[(j, n) := f r]> (db_step db).
Proof.
  intros Hr. apply map_eq. intros k. destruct (decide (k = (j, n))) as [->|Hk].
  - by rewrite lookup_update_step_eq, Hr, lookup_insert_eq.
  - by rewrite lookup_update_step_ne, lookup_insert_ne by done.
Qed.

(** C14. What a claim takes. A claim that returns a row took one step that was
    ready, offered to this worker (its ability among the worker's, its tags
    among the worker's tags, and for an exclusive worker the worker's tags
    among its own), not server-dispatched, past its retry time and not locked
    by another claim; that row alone changes, to running under this worker,
    and no later claim on the new state can take it again. A claim that
    returns nothing changes nothing, and no unlocked step was claimable. *)
Theorem claim_ready_step_sound `{RowPick} now locked caps tags ex w db db' res :
  steps_wf db →
  claim_ready_step now locked caps tags ex w db = (db', res) →
  match res with
  | Some row =>
      ∃ k r, db_step db !! k = Some r ∧ locked k = false ∧ Claimable now caps tags ex r ∧
        row = sr_row (claim_row now w r) ∧ db_step db' = <[k := claim_row now w r]> (db_step db) ∧
        ∀ now' locked' caps' tags' ex', k ∉ claim_candidates now' locked' caps' tags' ex' db'
  | None =>
      db' = db ∧ ∀ k r, db_step db !! k = Some r → locked k = false → ¬ Claimable now caps tags ex r
  end.
Proof.
  intros Hwf. unfold claim_ready_step. destruct (pick_row _) as [[j n]|] eqn:Hp.
  - apply pick_row_some, claim_candidates_spec in Hp as (r & Hr & Hl & Hc).
    destruct (Hwf _ _ Hr) as (_ & _ & ts & Hts). simpl.
    destruct (update_step j n any_row (claim_row now w) db) as [db1 c] eqn:E.
    pose proof (update_step_insert j n (claim_row now w) db r Hr) as Hins. rewrite E in Hins.
    simpl in Hins. intros [= <- <-]. rewrite Hins, lookup_insert_eq. simpl.
    exists (j, n), r. split_and!; [done|done|by apply (claimable_spec _ _ _ _ _ ts)|done|done|].
    intros now' l' c' t' e' (r2 & Hr2 & _ & Hc2)%claim_candidates_spec.
    rewrite Hins, lookup_insert_eq in Hr2. by simplify_eq.
  - intros [= <- <-]. split; [done|]. intros k r Hr Hl Hc.
    destruct (Hwf _ _ Hr) as (_ & _ & ts & Hts).
    apply pick_row_none in Hp. apply (claimable_spec _ _ _ _ _ ts) in Hc; [|done].
    pose proof (elem_of_claim_candidates now locked caps tags ex db k r Hr Hl Hc) as Hin.
    rewrite Hp in Hin. by apply elem_of_nil in Hin.
Qed.

(** ** The sweep of unmatched steps *)

(** Workers as the registration writes them. *)
Definition workers_wf (db : Db) : Prop :=
  ∀ i w, db_worker db !! i = Some w →
    ∃ caps tags, w_capabilities w = strings_to_json caps ∧ w_tags w = strings_to_json tags.

Lemma matching_worker_exists_spec db r :
  matching_worker_exists db r = true ↔
  ∃ i w, db_worker db !! i = Some w ∧ w_status w = "active" ∧
    worker_matches (w_capabilities w) (w_tags w) (w_exclusive w) r = true.
Proof.
  unfold matching_worker_exists. rewrite negb_true_iff, bool_decide_eq_false.
  set (f := λ (_ : Uuid) w, _). split.
  - intros Hne. destruct (sql_select f (db_worker db)) as [|w l] eqn:E; [done|].
    assert (Hin : w ∈ sql_select f (db_worker db)) by (rewrite E; left).
    apply elem_of_sql_select in Hin as (i & Hw & [Hst%bool_decide_eq_true Hm]%andb_true_iff). eauto.
  - intros (i & w & Hw & Hst & Hm) E.
    assert (Hin : w ∈ sql_select f (db_worker db)).
    { apply elem_of_sql_select. exists i. split; [done|]. unfold f. by rewrite Hst, Hm. }
    rewrite E in Hin. by apply elem_of_nil in Hin.
Qed.

(** The unmatched sweep mirrors the claim. On rows and workers as the
    server writes them, the sweep reports exactly the steps that are ready,
    worker-run (neither server-dispatched nor deferred), waiting longer than
    the timeout, and that no active worker's claim could take at any time: a
    step is never declared unmatched while a compatible worker is active. *)
Theorem unmatched_sweep_mirrors_claim now timeout db j n :
  steps_wf db → workers_wf db →
  (mkStale j n None None ∈ get_unmatched_ready_steps now timeout db) ↔
  ∃ r t, db_step db !! (j, n) = Some r ∧ sr_status r = "ready" ∧
    (js_action_type (sr_row r) ∉ SERVER_DISPATCHED) ∧ js_action_type (sr_row r) ≠ "deferred" ∧
    sr_ready_at r = Some t ∧ (t < now - timeout)%Z ∧
    ∀ i w caps tags, db_worker db !! i = Some w → w_status w = "active" →
      w_capabilities w = strings_to_json caps → w_tags w = strings_to_json tags →
      ∀ now', (j, n) ∉ claim_candidates now' (λ _, false) caps tags (w_exclusive w) db.
Proof.
  intros Hs Hw. unfold get_unmatched_ready_steps. rewrite list_elem_of_fmap. split.
  - intros (r & Hst & ([j' n'] & Hr & Hu)%elem_of_sql_select).
    destruct (Hs _ _ Hr) as (Ej & En & _). unfold stale_unclaimed in Hst. simplify_eq/=.
    unfold unmatched in Hu. rewrite !andb_true_iff, !negb_true_iff in Hu.
    destruct Hu as [[[[Hrd Hsd%bool_decide_eq_false] Hdf%bool_decide_eq_false] Hat] Hnw].
    destruct (sr_ready_at r) as [t|] eqn:Ht; [|done]. apply Z.ltb_lt in Hat.
    apply bool_decide_eq_true in Hrd. exists r, t. split_and!; try done.
    intros i w caps tags Hi Ha Hc Htg now' (r' & Hr' & _ & Hcl)%claim_candidates_spec. simplify_eq.
    unfold claimable in Hcl. rewrite !andb_true_iff in Hcl. destruct Hcl as [[[_ Hm] _] _].
    apply not_true_iff_false in Hnw. apply Hnw, matching_worker_exists_spec.
    exists i, w. by rewrite Hc, Htg.
  - intros (r & t & Hr & Hst & Hsd & Hdf & Ht & Hat & Hno). destruct (Hs _ _ Hr) as (Ej & En & _).
    exists r. split; [unfold stale_unclaimed; simpl in *; congruence|].
    apply elem_of_sql_select. exists (j, n). split; [done|]. unfold unmatched.
    rewrite !andb_true_iff, !negb_true_iff, Ht. split_and!.
    + by apply bool_decide_eq_true.
    + by apply bool_decide_eq_false.
    + by apply bool_decide_eq_false.
    + by apply Z.ltb_lt.
    + apply not_true_iff_false. rewrite matching_worker_exists_spec. intros (i & w & Hi & Ha & Hm).
      destruct (Hw _ _ Hi) as (caps & tags & Hc & Htg).
      apply (Hno i w caps tags Hi Ha Hc Htg (default 0%Z (js_retry_at (sr_row r)))).
      eapply elem_of_claim_candidates; [done|done|]. unfold claimable, status_is, retry_due, sql_in.
      rewrite <-Hc, <-Htg, Hm, bool_decide_true, bool_decide_false by done.
      destruct (js_retry_at (sr_row r)); simpl; [|done]. apply Z.leb_refl.
Qed.

(** ** Releasing a claim *)

Definition job_live (job : JobRec) : Prop := jr_status job = "pending" ∨ jr_status job = "running".

(** The row a release writes. *)
Definition released (now retry_after : Time) (r r' : StepRec) : Prop :=
  sr_status r' = "ready" ∧ js_worker_id (sr_row r') = None ∧ js_started_at (sr_row r') = None ∧
  sr_ready_at r' = Some now ∧ js_retry_at (sr_row r') = Some (now + retry_after)%Z ∧
  js_pin_releases (sr_row r') = (js_pin_releases (sr_row r) + 1)%Z ∧
  js_retry_attempt (sr_row r') = js_retry_attempt (sr_row r) ∧
  js_retry_history (sr_row r') = js_retry_history (sr_row r).

(** Releasing a claim. When the row is still the claim, a job that is no
    longer pending or running gets the step cancelled and no step of it left
    pending, ready or suspended; otherwise the release is refused at the cap
    with nothing written, and below it the step goes back to ready with its
    claim cleared, one more release counted and no retry attempt consumed.
    When the row is not the claim (released, reclaimed, finished) nothing is
    written; in particular a second release under the same claim does
    nothing. *)
Theorem release_claim_correct now j n c ra max db job r :
  db_job db !! j = Some job → db_step db !! (j, n) = Some r →
  is_i32 max → is_i32 (js_pin_releases (sr_row r)) → (js_pin_releases (sr_row r) ≤ max)%Z → (max < i32_max)%Z →
  if status_is "running" r && claim_is c (sr_row r) then
    (¬ job_live job ∧ ∃ db', release_claim now j n c ra max db = Ok (db', ReleaseCancelled) ∧
       (∃ r', db_step db' !! (j, n) = Some r' ∧ sr_status r' = "cancelled") ∧
       ∀ m s, db_step db' !! (j, m) = Some s → sr_status s ∉ ["pending"; "ready"; "suspended"]) ∨
    (job_live job ∧ (js_pin_releases (sr_row r) = max)%Z ∧
       release_claim now j n c ra max db = Ok (db, CapReached)) ∨
    (job_live job ∧ (js_pin_releases (sr_row r) < max)%Z ∧
     ∃ db' r', release_claim now j n c ra max db = Ok (db', Released) ∧
       db_step db' = <[(j, n) := r']> (db_step db) ∧ released now ra r r' ∧
       ∀ now' ra', release_claim now' j n c ra' max db' = Ok (db', ReleaseNotApplied))
  else release_claim now j n c ra max db = Ok (db, ReleaseNotApplied).
Proof.
  intros Hj Hr Hmax Hpin Hle Hmx. unfold release_claim at 1 2 3 5. rewrite Hj, Hr.
  destruct (status_is "running" r && claim_is c (sr_row r)) eqn:Hc; [|done].
  unfold is_i32, i32_max, i32_min in *.
  rewrite (i32_wrap_id (js_pin_releases (sr_row r) + 1)) by (unfold is_i32, i32_max, i32_min; lia).
  destruct (decide (jr_status job = "pending" ∨ jr_status job = "running")) as [Hlive|Hdead].
  - right. assert ((jr_status job <>? "pending") && (jr_status job <>? "running") = false) as ->.
    { destruct Hlive as [-> | ->]; done. }
    destruct (Z.ltb_spec max (js_pin_releases (sr_row r) + 1)) as [Hcap|Hok].
    { left. split_and!; [done|lia|done]. }
    right. split_and!; [done|lia|]. unfold i32_max. rewrite (proj2 (Z.ltb_ge _ _)) by lia.
    eexists _, _. split; [reflexivity|]. split; [by apply update_step_insert|]. split.
    + unfold released. simpl. done.
    + intros now' ra'. unfold release_claim. rewrite update_step_db_job, Hj, lookup_update_step_eq, Hr.
      done.
  - left. split; [done|]. assert ((jr_status job <>? "pending") && (jr_status job <>? "running") = true) as ->.
    { apply andb_true_iff. rewrite !negb_true_iff, !bool_decide_eq_false. naive_solver. }
    eexists. split; [reflexivity|]. unfold cancel_pending_steps_tx. split.
    + rewrite lookup_update_job_steps, lookup_update_step_eq, Hr. simpl.
      rewrite bool_decide_true by done. simpl. by eexists.
    + intros m s. rewrite lookup_update_job_steps. simpl. rewrite bool_decide_true by done. simpl.
      destruct (db_step _ !! (j, m)) as [s0|]; [|done]. simpl. intros [= <-].
      unfold status_in, sql_in. case_bool_decide as Hin; [|done]. simpl. set_solver.
Qed.

(** ** The resolution lease *)

(** What resolvers do to a deferred step under a token. *)
Inductive LeaseOp :=
| LTake (token : Uuid) (lease : Time)
| LRenew (token : Uuid) (lease : Time)
| LResolve (token : Uuid) (resolved : NewJobStep)
| LFail (token : Uuid) (error : string).

Definition lease_token (op : LeaseOp) : Uuid :=
  match op with LTake t _ | LRenew t _ | LResolve t _ | LFail t _ => t end.

Definition lease_exec (now : Time) (j : Uuid) (n : string) (op : LeaseOp) (db : Db) : Db :=
  match op with
  | LTake t l => (take_resolve_lease now j n t l db).1
  | LRenew t l => (renew_resolve_lease now j n t l db).1
  | LResolve t s => (resolve_deferred_tx now j n t s db).1
  | LFail t e => (fail_deferred_tx now j n t e db).1
  end.

Fixpoint lease_run (j : Uuid) (n : string) (ops : list (Time * LeaseOp)) (db : Db) : Db :=
  match ops with
  | [] => db
  | (now, op) :: ops' => lease_run j n ops' (lease_exec now j n op db)
  end.

Lemma lease_exec_fenced now j n op db r a until :
  db_step db !! (j, n) = Some r → sr_resolve_lease_owner r = Some a →
  sr_resolve_lease_until r = Some until → (now ≤ until)%Z → lease_token op ≠ a →
  lease_exec now j n op db = db.
Proof.
  intros Hr Ho Hu Hnow Hne.
  assert (Hfree : lease_free now r = false).
  { unfold lease_free. rewrite Hu. by apply Z.ltb_ge. }
  assert (Hown : lease_owner_is (lease_token op) r = false).
  { unfold lease_owner_is. rewrite Ho. apply bool_decide_eq_false. naive_solver. }
  destruct op; simpl in *; unfold take_resolve_lease, renew_resolve_lease, resolve_deferred_tx,
    fail_deferred_tx, deferred_write; try (destruct (deferred_job_gate _ _); [done|]);
    rewrite fst_let; apply update_step_noop; intros r' Hr'; simplify_eq;
    rewrite ?Hfree, ?Hown, ?andb_false_r; done.
Qed.

(** The resolution lease is exclusive. After a resolver takes the lease,
    and until it expires, any sequence of attempts by resolvers with other
    tokens to take, renew, resolve or fail the step changes nothing; and as
    long as the row is the resolver's, its own resolve is applied, provided
    the job is still live. *)
Theorem resolve_lease_exclusive now j n a lease db db1 ops :
  take_resolve_lease now j n a lease db = (db1, true) →
  Forall (λ p, (p.1 ≤ now + lease)%Z ∧ lease_token p.2 ≠ a) ops →
  lease_run j n ops db1 = db1 ∧
  (∀ now' resolved, deferred_job_gate j db1 = None →
     (resolve_deferred_tx now' j n a resolved (lease_run j n ops db1)).2 = Applied).
Proof.
  intros Htake Hops.
  assert (∃ r, db_step db1 !! (j, n) = Some r ∧ ready_deferred r = true ∧
            sr_resolve_lease_owner r = Some a ∧ sr_resolve_lease_until r = Some (now + lease)%Z)
    as (r & Hr & Hrd & Ho & Hu).
  { unfold take_resolve_lease in Htake.
    destruct (update_step _ _ _ _ _) as [db' c] eqn:E. simplify_eq.
    apply (f_equal snd) in E as Ec. apply (f_equal fst) in E. simpl in *. subst db1.
    rewrite update_step_count in Ec. rewrite lookup_update_step_eq.
    destruct (db_step db !! (j, n)) as [r0|]; [|by subst]. simpl.
    destruct (ready_deferred r0 && lease_free now r0) eqn:Hg; [|by subst].
    apply andb_true_iff in Hg as [Hg _]. by eexists. }
  assert (Hrun : lease_run j n ops db1 = db1).
  { clear Htake. induction Hops as [|[t op] ops [Ht Hne] _ IH]; [done|]. simpl in *.
    by rewrite (lease_exec_fenced t j n op db1 r a (now + lease)%Z). }
  split; [done|]. intros now' resolved Hg. rewrite Hrun. unfold resolve_deferred_tx, deferred_write.
  rewrite Hg. destruct (update_step _ _ _ _ _) as [db' c] eqn:E. simpl.
  apply (f_equal snd) in E. rewrite update_step_count, Hr, Hrd in E. unfold lease_owner_is in E.
  rewrite Ho, bool_decide_true in E by done. simpl in E. by subst c.
Qed.

(** ** Step rows stay well typed

    The columns the rest of the program parses: whatever operations run, in
    whatever order, a row of [job_step] stays under its own key, its status is
    one that [StepStatus] reads, and rows never disappear. *)

(** The row is under its key and its status column parses. *)
Definition row_typed (k : Uuid * string) (r : StepRec) : Prop :=
  js_job_id (sr_row r) = k.1 ∧ js_step_name (sr_row r) = k.2 ∧ is_Some (StepStatus.from_str (sr_status r)).

Definition rows_typed (db : Db) : Prop := ∀ k r, db_step db !! k = Some r → row_typed k r.

(** A write that keeps the key columns and a status that parses. *)
Definition same_type (r r' : StepRec) : Prop :=
  js_job_id (sr_row r') = js_job_id (sr_row r) ∧ js_step_name (sr_row r') = js_step_name (sr_row r) ∧
  (is_Some (StepStatus.from_str (sr_status r)) → is_Some (StepStatus.from_str (sr_status r'))).

#[export] Instance same_type_refl : Reflexive same_type.
Proof. done. Qed.

Lemma rows_rel_typed db db' : rows_rel same_type db db' → rows_typed db → rows_typed db'.
Proof.
  intros Hrel Ht k r' Hr'. specialize (Hrel k). rewrite Hr' in Hrel. destruct (db_step db !! k) as [r|] eqn:Hr; [|done].
  simpl in Hrel. destruct Hrel as (E1 & E2 & E3), (Ht k r Hr) as (T1 & T2 & T3). split_and!; [congruence..|auto].
Qed.

Lemma rows_rel_trans a b c : rows_rel same_type a b → rows_rel same_type b c → rows_rel same_type a c.
Proof.
  intros Hab Hbc k. specialize (Hab k). specialize (Hbc k).
  destruct (db_step a !! k), (db_step b !! k), (db_step c !! k); simpl in *; try done.
  destruct Hab as (? & ? & ?), Hbc as (? & ? & ?). split_and!; [congruence..|auto].
Qed.

Ltac keeps_type := split_and!; [done..|]; intros; first [assumption|by eexists].

Section exec.
Context `{RowPick} (render : Time → string).

Ltac on_typed_rows :=
  rewrite ?fst_let;
  lazymatch goal with
  | |- rows_rel _ _ (update_step _ _ _ _ _).1 => apply rows_rel_update_step; [apply _|]; intros r _ _
  | |- rows_rel _ _ (update_job_steps _ _ _ _).1 => apply rows_rel_update_job_steps; [apply _|]; intros ? r _
  end.

Lemma exec_same_type now hn j op db : rows_rel same_type db (exec render now hn j op db).
Proof.
  destruct op; cbn [exec];
    unfold promote_steps_tx, skip_steps_tx, fail_pending_step_tx, start_placeholder_tx, complete_placeholder_tx,
      fail_placeholder_tx, mark_running, mark_running_server, claim_task_dispatch, cancel_server_managed_steps, mark_completed,
      mark_failed, fail_task_dispatch, take_resolve_lease, renew_resolve_lease, resolve_deferred_tx, fail_deferred_tx, deferred_write,
      stamp_task_pin, update_input, mark_skipped, cancel_pending_steps, cancel_pending_steps_tx, fail_non_terminal_steps,
      fail_non_terminal_steps_tx, mark_cancelled, approve_step, mark_suspended, update_agent_state;
    try (on_typed_rows; keeps_type).
  - unfold claim_ready_step. destruct (pick_row _) as [k|]; [|apply rows_rel_refl, _].
    destruct (update_step _ _ _ _ _) as [db' n] eqn:E. simpl.
    replace db' with (update_step k.1 k.2 any_row (claim_row now worker) db).1 by by rewrite E. on_typed_rows. keeps_type.
  - unfold fail_or_retry. repeat case_match; simplify_eq; try apply rows_rel_refl, _; on_typed_rows; keeps_type.
  - unfold release_claim. repeat case_match; simplify_eq; try apply rows_rel_refl, _.
    + eapply rows_rel_trans; [|unfold cancel_pending_steps_tx; on_typed_rows; keeps_type]. on_typed_rows. keeps_type.
    + on_typed_rows. keeps_type.
  - destruct (deferred_job_gate _ _); [apply rows_rel_refl, _|]. on_typed_rows. keeps_type.
  - destruct (deferred_job_gate _ _); [apply rows_rel_refl, _|]. on_typed_rows. keeps_type.
Qed.
End exec.

Lemma insert_steps_typed hn jobs steps t t' :
  Forall (λ s, is_Some (StepStatus.from_str (nj_status s))) steps →
  (∀ k r, t !! k = Some r → row_typed k r) → insert_steps hn jobs steps t = Ok t' → ∀ k r, t' !! k = Some r → row_typed k r.
Proof.
  intros Hs. revert t. induction Hs as [|s steps Hs _ IH]; intros t Ht; simpl; [by intros [= <-]|].
  destruct (jobs !! nj_job_id s); [|done]. destruct (t !! step_key s); [done|]. apply IH.
  intros k r [[<- <-]|[_ Hr]]%lookup_insert_Some; [by split_and!|auto].
Qed.

Section life.
Context `{RowPick} (render : Time → string).

(** Any operation on the steps of some job, guarded or not, the insertion of
    rows and the seeds of a restart, these two with statuses that parse. *)
Inductive any_step : Db → Db → Prop :=
| any_exec now hn j op db : any_step db (exec render now hn j op db)
| any_create hn steps db db' :
    Forall (λ s, is_Some (StepStatus.from_str (nj_status s))) steps → create_steps_tx hn steps db = Ok db' → any_step db db'
| any_seed now j seeds db db' :
    Forall (λ s, is_Some (StepStatus.from_str (seed_status s))) seeds → seed_steps_tx now j seeds db = Ok db' → any_step db db'.

Lemma seed_same_type now j seeds db db' :
  Forall (λ s, is_Some (StepStatus.from_str (seed_status s))) seeds → seed_steps_tx now j seeds db = Ok db' → rows_rel same_type db db'.
Proof.
  intros Hs. revert db. induction Hs as [|s seeds Hs _ IH]; intros db E; simpl in E; [injection E as <-; apply rows_rel_refl, _|].
  destruct (update_step _ _ _ _ db) as [db1 n] eqn:Eu. destruct (n =? 1)%nat; [|done]. eapply rows_rel_trans; [|by apply IH].
  apply (f_equal fst) in Eu. simpl in Eu. subst db1. apply rows_rel_update_step; [apply _|]. intros r _ _. by split_and!.
Qed.

(** C40. Step rows stay well typed. Over any sequence of the repository's
    operations, the unconditional ones included, insertions and restart seeds,
    every row is under the key its own columns spell, its status is one the
    program can parse (given that the statuses inserted and seeded are), and no
    row disappears. *)
Theorem step_rows_well_typed db db' :
  rtc any_step db db' → rows_typed db →
  rows_typed db' ∧ ∀ k, is_Some (db_step db !! k) → is_Some (db_step db' !! k).
Proof.
  assert (Hrel : ∀ a b, rows_rel same_type a b → rows_typed a → rows_typed b ∧ ∀ k, is_Some (db_step a !! k) → is_Some (db_step b !! k)).
  { intros a b Hrel Ht. split; [by eapply rows_rel_typed|]. intros k [r Hr]. specialize (Hrel k). rewrite Hr in Hrel.
    destruct (db_step b !! k); [by eexists|done]. }
  induction 1 as [db|db db1 db' Hs _ IH]; intros Ht; [done|].
  assert (H1 : rows_typed db1 ∧ ∀ k, is_Some (db_step db !! k) → is_Some (db_step db1 !! k)).
  { destruct Hs as [now hn j op db0|hn steps db0 db0' Hs Hc|now j seeds db0 db0' Hs Hc].
    - by apply (Hrel _ _ (exec_same_type render now hn j op db0)).
    - unfold create_steps_tx in Hc. case_bool_decide; [by injection Hc as <-|]. destruct (_ <? _)%nat; [done|].
      destruct (insert_steps _ _ _ _) as [t|] eqn:Ei; simplify_eq/=. split; [intros k r; by eapply insert_steps_typed|].
      intros k [r Hr]. exists r. by eapply insert_steps_keeps.
    - by apply (Hrel _ _ (seed_same_type _ _ _ _ _ Hs Hc)). }
  destruct H1 as [T1 K1], (IH T1) as [T K]. auto.
Qed.
End life.
