(* ===== verification/JobRepo.v ===== *)
(** * The job repository

    [crates/stroem-db/src/repos/job.rs]: the operations of [JobRepo] that
    write [job], and the selections settlement, recovery and retention decide
    on. Conventions as in [StepRepo]. *)
From S2P Require Import Prelude Json JobModel Db StepRepo.

(** [UPDATE job SET f WHERE job_id = $1 AND guard] *)
Definition update_job (job_id : Uuid) (guard : JobRec → bool) (f : JobRec → JobRec) (db : Db) : Db * nat :=
  let '(t, n) := sql_update (λ k r, (k ==? job_id) && guard r) f (db_job db) in
  (with_job t db, n).

Definition job_status_in (l : list string) (r : JobRec) : bool := sql_in (jr_status r) l.
Definition ACTIVE : list string := ["pending"; "running"].
Definition any_job (r : JobRec) : bool := true.
Definition put_job_status (s : string) : JobRec → JobRec := upd_job (jset_status s).
Definition put_job_completed_at (now : Time) : JobRec → JobRec := upd_job (jset_completed_at (Some now)).

(** ** Creation *)

Inductive RestartLineage :=
| FromStep (step : string)
| FromSteps (steps : list string).

Record JobPinCols := mkJobPinCols { pin_git_ref : string; pin_task_folder : option string }.

(** The columns a caller passes to the creation functions. *)
Record NewJob := mkNewJob {
  new_workspace : string;
  new_task_name : string;
  new_mode : string;
  new_input : option json;
  new_source_type : string;
  new_source_id : option string;
  new_parent_job_id : option Uuid;
  new_parent_step_name : option string;
  new_timeout_secs : option Z;
  new_revision : option string;
  new_raw_input : option json;
  new_source_job_id : option Uuid;
  new_restart : option RestartLineage;
  new_max_retries : option Z;
  new_pin : option JobPinCols;
}.

Definition new_job_rec (now : Time) (job_id : Uuid) (n : NewJob) : JobRec :=
  mkJobRec
    (mkJobRow job_id (new_workspace n) (new_task_name n) (new_mode n) (new_input n) None "pending"
       (new_source_type n) (new_source_id n) None (new_revision n) now None None None
       (new_parent_job_id n) (new_parent_step_name n) (new_timeout_secs n) None None 0
       (new_max_retries n) (new_raw_input n) (new_source_job_id n)
       (match new_restart n with Some (FromStep s) => Some s | _ => None end)
       (match new_restart n with Some (FromSteps l) => Some l | _ => None end)
       (pin_git_ref <$> new_pin n) (new_pin n ≫= pin_task_folder))
    None.

(** The references of the row to other jobs must exist. *)
Definition job_refs_exist (n : NewJob) (db : Db) : bool :=
  forallb (λ o : option Uuid, match o with
                              | Some j => bool_decide (is_Some (db_job db !! j))
                              | None => true
                              end) [new_parent_job_id n; new_source_job_id n].

Definition create_with_parent_tx_id (now : Time) (job_id : Uuid) (n : NewJob) (db : Db) : result string Db :=
  if bool_decide (is_Some (db_job db !! job_id)) || negb (job_refs_exist n db)
  then Err "Failed to create job"
  else Ok (with_job (<[job_id := new_job_rec now job_id n]> (db_job db)) db).

(** [Uuid::new_v4()] is an argument. *)
Definition create_with_parent_tx (now : Time) (fresh : Uuid) (n : NewJob) (db : Db) : result string (Db * Uuid) :=
  res_map (λ db', (db', fresh)) (create_with_parent_tx_id now fresh n db).

Definition create_with_parent (now : Time) (fresh : Uuid) (n : NewJob) (db : Db) : result string (Db * Uuid) :=
  create_with_parent_tx now fresh
    (mkNewJob (new_workspace n) (new_task_name n) (new_mode n) (new_input n) (new_source_type n)
       (new_source_id n) (new_parent_job_id n) (new_parent_step_name n) (new_timeout_secs n)
       (new_revision n) (new_raw_input n) (new_source_job_id n) (new_restart n) None None) db.

Definition create (now : Time) (fresh : Uuid) (workspace task_name mode : string) (input : option json)
    (source_type : string) (source_id revision : option string) (raw_input : option json) (db : Db)
    : result string (Db * Uuid) :=
  create_with_parent now fresh
    (mkNewJob workspace task_name mode input source_type source_id None None None revision raw_input
       None None None None) db.

Definition create_skipped (now : Time) (fresh : Uuid) (workspace task_name : string) (input : option json)
    (source_type : string) (source_id revision : option string) (pin : option JobPinCols) (db : Db)
    : result string (Db * Uuid) :=
  if bool_decide (is_Some (db_job db !! fresh)) then Err "Failed to create skipped job"
  else
    let r := mkJobRec
      (mkJobRow fresh workspace task_name "distributed" input None "skipped" source_type source_id None
         revision now None (Some now) None None None None None None 0 None None None None None
         (pin_git_ref <$> pin) (pin ≫= pin_task_folder)) None in
    Ok (with_job (<[fresh := r]> (db_job db)) db, fresh).

(** ** Status writes *)

Definition get (job_id : Uuid) (db : Db) : option JobRow := jr_row <$> db_job db !! job_id.

Definition update_status (job_id : Uuid) (status : string) (db : Db) : Db :=
  (update_job job_id any_job (put_job_status status) db).1.

Definition job_mark_running (now : Time) (job_id worker_id : Uuid) (db : Db) : Db :=
  (update_job job_id any_job
     (assign [put_job_status "running"; upd_job (jset_worker_id (Some worker_id));
              upd_job (jset_started_at (Some now))]) db).1.

Definition mark_running_if_pending (now : Time) (job_id worker_id : Uuid) (db : Db) : Db :=
  (update_job job_id (job_status_in ["pending"])
     (assign [put_job_status "running"; upd_job (jset_worker_id (Some worker_id));
              upd_job (jset_started_at (Some now))]) db).1.

Definition mark_running_if_pending_tx (now : Time) (job_id : Uuid) (db : Db) : Db :=
  (update_job job_id (job_status_in ["pending"])
     (assign [put_job_status "running"; upd_job (jset_started_at (Some now))]) db).1.
Definition mark_running_if_pending_server := mark_running_if_pending_tx.

Definition job_mark_completed (now : Time) (job_id : Uuid) (output : option json) (db : Db) : Db :=
  (update_job job_id any_job
     (assign [put_job_status "completed"; upd_job (jset_output output); put_job_completed_at now]) db).1.

(** [COALESCE($3, output)] *)
Definition coalesce_output (output : option json) (r : JobRec) : JobRec :=
  upd_job (jset_output (match output with Some v => Some v | None => j_output (jr_row r) end)) r.

Definition settle_tx (now : Time) (job_id : Uuid) (status : JobStatus) (output : option json) (db : Db)
    : Db * bool :=
  let '(db', n) := update_job job_id (job_status_in ACTIVE)
    (assign [put_job_status (JobStatus.as_ref status); coalesce_output output; put_job_completed_at now])
    db in
  (db', (0 <? n)%nat).
Definition settle := settle_tx.

Definition mark_failed_tx (now : Time) (job_id : Uuid) (db : Db) : Db :=
  (update_job job_id any_job (assign [put_job_status "failed"; put_job_completed_at now]) db).1.
Definition job_mark_failed := mark_failed_tx.

Definition job_mark_cancelled (now : Time) (job_id : Uuid) (db : Db) : Db :=
  (update_job job_id any_job (assign [put_job_status "cancelled"; put_job_completed_at now]) db).1.

Definition set_retry_job_id (job_id retry_job_id : Uuid) (db : Db) : Db :=
  (update_job job_id any_job (upd_job (jset_retry_job_id (Some retry_job_id))) db).1.

Definition link_retry_tx (failed_job_id retry_job_id root_job_id : Uuid) (retry_attempt : Z) (db : Db)
    : result string Db :=
  let '(db', n) := update_job retry_job_id any_job
    (assign [upd_job (jset_retry_of_job_id (Some root_job_id)); upd_job (jset_retry_attempt retry_attempt)])
    db in
  if negb (n =? 1)%nat then Err "retry job not found while linking its lineage"
  else Ok (update_job failed_job_id any_job (upd_job (jset_retry_job_id (Some retry_job_id))) db').1.

Definition cancel (now : Time) (job_id : Uuid) (db : Db) : Db * bool :=
  let '(db', n) := update_job job_id (job_status_in ACTIVE)
    (assign [put_job_status "cancelled"; put_job_completed_at now]) db in
  (db', (0 <? n)%nat).

Definition set_log_path (job_id : Uuid) (log_path : string) (db : Db) : Db :=
  (update_job job_id any_job (upd_job (jset_log_path (Some log_path))) db).1.

(** Steps go with the job, references to it are set to null. *)
Definition unlink_job (job_id : Uuid) (r : JobRec) : JobRec :=
  let keep (o : option Uuid) := if o ==? Some job_id then None else o in
  upd_job (λ j, mkJobRow (j_job_id j) (j_workspace j) (j_task_name j) (j_mode j) (j_input j) (j_output j)
    (j_status j) (j_source_type j) (j_source_id j) (j_worker_id j) (j_revision j) (j_created_at j)
    (j_started_at j) (j_completed_at j) (j_log_path j) (keep (j_parent_job_id j)) (j_parent_step_name j)
    (j_timeout_secs j) (keep (j_retry_of_job_id j)) (j_retry_job_id j) (j_retry_attempt j)
    (j_max_retries j) (j_raw_input j) (keep (j_source_job_id j)) (j_restart_from_step j)
    (j_restart_from_steps j) (j_git_ref j) (j_task_folder j)) r.

Definition delete_job (job_id : Uuid) (db : Db) : Db :=
  mkDb (unlink_job job_id <$> delete job_id (db_job db))
       (filter (λ p, p.1.1 ≠ job_id) (db_step db))
       (db_worker db)
       (filter (λ p, rp_job_id p ≠ job_id) (db_ref_pin db)).

(** ** Selections *)

Definition select_jobs (w : JobRow → bool) (db : Db) : list JobRow :=
  jr_row <$> sql_select (λ _ r, w (jr_row r)) (db_job db).

Definition is_active (j : JobRow) : bool := sql_in (j_status j) ACTIVE.

Definition get_child_jobs (parent_job_id : Uuid) (db : Db) : list JobRow :=
  select_jobs (λ j, (j_parent_job_id j ==? Some parent_job_id) && is_active j) db.

(** [ORDER BY created_at DESC, job_id DESC] *)
Definition newest_first (a b : JobRow) : bool :=
  (j_created_at b <? j_created_at a)%Z ||
  ((j_created_at a =? j_created_at b)%Z && (j_job_id b <=? j_job_id a)%N).

Definition list_children (parent_job_id : Uuid) (db : Db) : list JobRow :=
  sort_by newest_first (select_jobs (λ j, j_parent_job_id j ==? Some parent_job_id) db).

Definition list_derived_runs (source_job_id : Uuid) (db : Db) : list JobRow :=
  sort_by newest_first (select_jobs (λ j, (j_source_job_id j ==? Some source_job_id) &&
    sql_in (j_source_type j) ["restart"; "rerun"]) db).

Definition get_timed_out_jobs (now : Time) (db : Db) : list Uuid :=
  j_job_id <$> select_jobs (λ j, is_active j &&
    deadline_passed now (Some (j_created_at j)) (j_timeout_secs j)) db.

Definition count_active_by_source (source_type source_id : string) (db : Db) : nat :=
  length (select_jobs (λ j, (j_source_type j ==? source_type) && (j_source_id j ==? Some source_id) &&
    is_active j) db).
Definition get_active_by_source (source_type source_id : string) (db : Db) : list JobRow :=
  select_jobs (λ j, (j_source_type j ==? source_type) && (j_source_id j ==? Some source_id) && is_active j) db.
Definition get_active_job_ids_by_source (source_type source_id : string) (db : Db) : list Uuid :=
  j_job_id <$> get_active_by_source source_type source_id db.

Definition get_old_terminal_jobs (now retention : Time) (batch_size : nat) (db : Db) : list JobRow :=
  take batch_size (select_jobs (λ j,
    sql_in (j_status j) ["completed"; "failed"; "cancelled"; "skipped"] &&
    (j_created_at j <? now - retention)%Z &&
    (default (j_created_at j) (j_completed_at j) <? now - retention)%Z) db).

(** Any step of a job with a property ([EXISTS (SELECT 1 FROM job_step ...)]). *)
Definition has_step (job_id : Uuid) (w : StepRec → bool) (db : Db) : bool :=
  negb (bool_decide (job_steps job_id w db = [])).

(** [ORDER BY ($1 IS NOT NULL AND job_id <= $1), job_id]: the ids after the
    cursor first, then the ones up to it, each in id order. *)
Definition after_cursor (after : option Uuid) (a b : JobRow) : bool :=
  let wrapped (j : JobRow) := match after with Some c => (j_job_id j <=? c)%N | None => false end in
  (negb (wrapped a) && wrapped b) ||
  (Bool.eqb (wrapped a) (wrapped b) && (j_job_id a <=? j_job_id b)%N).

Definition get_stalled_pinned_jobs (after : option Uuid) (limit : nat) (db : Db) : list JobRow :=
  take limit (sort_by (after_cursor after) (select_jobs (λ j,
    is_active j && (j_git_ref j <>? None) &&
    negb (has_step (j_job_id j) (status_in ["ready"; "claimed"; "running"; "suspended"]) db) &&
    ((j_status j ==? "running") ||
     has_step (j_job_id j) (λ s, status_in ["completed"; "failed"; "skipped"; "cancelled"] s &&
                                 negb (js_carried_over (sr_row s))) db)) db)).

Definition get_jobs_with_stranded_deferred_steps (now older_than : Time) (after : option Uuid) (limit : nat)
    (db : Db) : list Uuid :=
  j_job_id <$> take limit (sort_by (after_cursor after) (select_jobs (λ j,
    is_active j &&
    has_step (j_job_id j) (λ s, ready_deferred s &&
      match sr_ready_at s with Some t => (t <? now - older_than)%Z | None => false end &&
      lease_free now s) db) db)).

(** ** Settled descendants *)

Definition MAX_TASK_DEPTH : nat := 10.

Definition children_of (parents : list JobRow) (db : Db) : list JobRow :=
  flat_map (λ p, select_jobs (λ j, j_parent_job_id j ==? Some (j_job_id p)) db) parents.

(** The recursive query: the jobs of each depth, one list per depth. *)
Fixpoint descendants (fuel : nat) (level : list JobRow) (depth : nat) (db : Db) : list (JobRow * nat) :=
  ((λ j, (j, depth)) <$> level) ++
  match fuel with
  | O => []
  | S fuel' => descendants fuel' (children_of level db) (S depth) db
  end.

Definition settled_under_running_step (db : Db) (j : JobRow) : bool :=
  (j_source_type j ==? "task") &&
  sql_in (j_status j) ["completed"; "failed"; "cancelled"; "skipped"] &&
  match j_parent_job_id j, j_parent_step_name j with
  | Some p, Some s => match db_step db !! (p, s) with
                      | Some r => status_is "running" r
                      | None => false
                      end
  | _, _ => false
  end &&
  negb (has_live_steps (j_job_id j) db).

Definition get_settled_descendants_with_running_parent_step (root_job_id : Uuid) (db : Db) : list JobRow :=
  fst <$> sort_by_key (λ p : JobRow * nat, (- Z.of_nat p.2)%Z)
    (List.filter (λ p, settled_under_running_step db p.1)
       (descendants (MAX_TASK_DEPTH - 1)
          (select_jobs (λ j, j_parent_job_id j ==? Some root_job_id) db) 1 db)).

(** ** What the caches must keep *)

(** A failed top-level job still owed a task-level retry. *)
Definition owed_retry (now : Time) (j : JobRow) : bool :=
  (j_status j ==? "failed") && (j_parent_job_id j ==? None) && (j_retry_job_id j ==? None) &&
  match j_max_retries j with Some m => (j_retry_attempt j <? m)%Z | None => false end &&
  match j_completed_at j with Some t => (now - 3600000000 <? t)%Z | None => false end.

Definition pair_of (a b : option string) : list (string * string) :=
  match a, b with Some x, Some y => [(x, y)] | _, _ => [] end.

(** The steps of active jobs. *)
Definition active_steps (db : Db) : list JobStepRow :=
  sr_row <$> sql_select (λ k _, match db_job db !! k.1 with
                                | Some j => is_active (jr_row j)
                                | None => false
                                end) (db_step db).

(** [UNION]: without duplicates; the order is the database's. *)
Definition tarball_keep_revisions (now : Time) (db : Db) : list (string * string) :=
  remove_dups
    (flat_map (λ j, pair_of (Some (j_workspace j)) (j_revision j)) (select_jobs is_active db) ++
     flat_map (λ s, pair_of (js_action_workspace s) (js_action_revision s)) (active_steps db) ++
     flat_map (λ j, pair_of (Some (j_workspace j)) (j_revision j)) (select_jobs (owed_retry now) db)).

Definition pin_keep_set (now : Time) (db : Db) : list (string * string) :=
  remove_dups
    (flat_map (λ j, pair_of (Some (j_workspace j)) (j_revision j))
       (select_jobs (λ j, is_active j && (j_git_ref j <>? None)) db) ++
     flat_map (λ s, if js_action_ref s ==? None then [] else pair_of (js_action_workspace s) (js_action_revision s))
       (active_steps db) ++
     flat_map (λ s, if js_task_ref s ==? None then [] else pair_of (js_task_workspace s) (js_task_revision s))
       (active_steps db) ++
     flat_map (λ p, match db_job db !! rp_job_id p with
                    | Some j => if is_active (jr_row j) then [(rp_workspace p, rp_commit p)] else []
                    | None => []
                    end) (db_ref_pin db) ++
     flat_map (λ j, pair_of (Some (j_workspace j)) (j_revision j))
       (select_jobs (λ j, owed_retry now j && (j_git_ref j <>? None)) db)).
