(* ===== verification/Cascade.v ===== *)
(** * The step cascade

    [crates/stroem-server/src/cascade.rs]: the in-memory fixpoint that moves a
    job's non-running steps ([run]), and the transaction that writes its plan
    ([apply], [execute]). The template engine, serde_json's parser, the
    rendering context and the secret scrub are arguments. *)
From S2P Require Import Prelude Json Template JobModel Gate Workflow Db StepRepo.

Inductive RollupOutcome :=
| RollupCompleted (output : json)
| RollupFailed (error : string) (output : json).

Inductive Change :=
| Promote (step : string)
| Skip (step : string) (reason : SkipReason)
| Fail (step error : string)
| Expand (placeholder : string) (instances : list NewJobStep)
| Adopt (placeholder : string)
| Rollup (placeholder : string) (outcome : RollupOutcome).

Definition is_terminal (status : string) : bool :=
  sql_in status ["completed"; "failed"; "skipped"; "cancelled"].

Definition MAX_FOR_EACH_ITEMS : Z := 10000.

(** ** The for_each items *)

Definition not_an_array (v : json) : Error :=
  ["for_each must render a JSON array, got a JSON " +:+ json_type_name v].

Definition render_for_each_template `{TemplateEngine, JsonParser} (template : string) (ctx : json)
    : result Error (list json) :=
  let? rendered := context "Failed to render for_each template" (render_template template ctx) in
  match json_from_str rendered with
  | Err e =>
      Err ["for_each must render a JSON array; the rendered text (" +:+
           pretty (String.length rendered) +:+ " bytes) is not valid JSON (" +:+ je_classify e +:+
           " error at line " +:+ pretty (je_line e) +:+ ", column " +:+ pretty (je_column e) +:+
           "). Render arrays and objects with `| json_encode()`, e.g. {{ step.output.items | json_encode() }}"]
  | Ok (JArray arr) => Ok arr
  | Ok other => Err (not_an_array other)
  end.

Definition parse_for_each_items `{TemplateEngine, JsonParser} (expr : string) (ctx : json)
    : result Error (list json) :=
  match json_from_str expr with
  | Ok (JArray arr) => Ok arr
  | Ok (JString template) => render_for_each_template template ctx
  | Ok other => Err (not_an_array other)
  | Err _ => render_for_each_template expr ctx
  end.

(** ** The snapshot *)

Record Snapshot := mkSnapshot {
  sn_rows : list JobStepRow;
  sn_index : gmap string nat;
}.

(** [rows.iter().enumerate().map(..).collect()]: a later row of the same name
    replaces the earlier one's index. *)
Fixpoint index_from (i : nat) (rows : list JobStepRow) (m : gmap string nat) : gmap string nat :=
  match rows with
  | [] => m
  | r :: rest => index_from (S i) rest (<[js_step_name r := i]> m)
  end.

Module Snapshot.
Definition new (rows : list JobStepRow) : Snapshot := mkSnapshot rows (index_from 0 rows ∅).

Definition row (snap : Snapshot) (name : string) : option JobStepRow :=
  i ← sn_index snap !! name; sn_rows snap !! i.

Definition status (snap : Snapshot) (name : string) : option string := js_status <$> row snap name.

Definition outcome (snap : Snapshot) (name : string) : DepOutcome :=
  match row snap name with
  | Some r => from_row (js_status r) (js_skip_reason r)
  | None => DepPending
  end.

(** [if let Some(r) = self.get_mut(name) { .. }] *)
Definition modify (name : string) (f : JobStepRow → JobStepRow) (snap : Snapshot) : Snapshot :=
  match sn_index snap !! name with
  | Some i => mkSnapshot (alter f i (sn_rows snap)) (sn_index snap)
  | None => snap
  end.

Definition push (row : JobStepRow) (snap : Snapshot) : Snapshot :=
  mkSnapshot (sn_rows snap ++ [row]) (<[js_step_name row := length (sn_rows snap)]> (sn_index snap)).
End Snapshot.

Definition synthetic_row (inst : NewJobStep) : JobStepRow :=
  mkJobStepRow (nj_job_id inst) (nj_step_name inst) (nj_action_name inst) (nj_action_type inst)
    (nj_action_image inst) (nj_action_spec inst) (nj_input inst) None (nj_status inst) None None None
    None (nj_required_ability inst) (strings_to_json (nj_required_tags inst)) (nj_runner inst)
    (nj_timeout_secs inst) None None (nj_loop_source inst) (nj_loop_index inst) (nj_loop_total inst)
    (nj_loop_item inst) None None 0 (nj_max_retries inst) (nj_retry_backoff_secs inst)
    (nj_retry_strategy inst) (nj_retry_jitter inst) (JArray []) None (nj_action_workspace inst)
    (nj_action_revision inst) false None None None None None 0 None.

(** [Snapshot::apply] *)
Definition snap_apply (snap : Snapshot) (change : Change) : Snapshot :=
  match change with
  | Promote step => Snapshot.modify step (set_status "ready") snap
  | Skip step reason =>
      Snapshot.modify step
        (assign [set_status "skipped"; set_skip_reason (Some (SkipReason.as_str reason))]) snap
  | Fail step error =>
      Snapshot.modify step (assign [set_status "failed"; set_error_message (Some error)]) snap
  | Expand placeholder instances =>
      fold_left (λ s inst, Snapshot.push (synthetic_row inst) s) instances
        (Snapshot.modify placeholder (set_status "running") snap)
  | Adopt placeholder => Snapshot.modify placeholder (set_status "running") snap
  | Rollup placeholder (RollupCompleted out) =>
      Snapshot.modify placeholder (assign [set_status "completed"; set_output (Some out)]) snap
  | Rollup placeholder (RollupFailed e out) =>
      Snapshot.modify placeholder
        (assign [set_status "failed"; set_error_message (Some e); set_output (Some out)]) snap
  end.

Definition apply_all (snap : Snapshot) (changes : list Change) : Snapshot :=
  fold_left snap_apply changes snap.

Definition gate_for (snap : Snapshot) (fs : FlowStep) : GateDecision :=
  gate (Snapshot.outcome snap) (depends_on fs).

Definition is_placeholder (r : JobStepRow) : bool :=
  match js_for_each_expr r with Some _ => true | None => false end.

(** ** Phase 0: sequential advance and rollup *)

(** ["{:?}"] of a [Vec<i32>]. *)
Definition debug_ints (l : list Z) : string := "[" +:+ str_join ", " (pretty <$> l) +:+ "]".

(** The rows of a loop, in index order. *)
Definition loop_instances (rows : list JobStepRow) (ph : string) : list JobStepRow :=
  sort_by_key (λ r, default 0%Z (js_loop_index r))
    (filter (λ r, js_loop_source r = Some ph) rows).

(** R5's advance: the pending successor of a terminal instance. *)
Definition advance_from (instances : list JobStepRow) (i : JobStepRow) : list Change :=
  match js_loop_index i with
  | None => []
  | Some idx =>
      let next_idx := i32_wrap (idx + 1) in
      match find (λ n, (js_loop_index n ==? Some next_idx) && (js_status n ==? "pending")) instances with
      | Some next => [Promote (js_step_name next)]
      | None => []
      end
  end.

Definition advance (instances : list JobStepRow) : list Change :=
  flat_map (advance_from instances) (List.filter (λ i, is_terminal (js_status i)) instances).

(** R6 *)
Definition rollup_change (ph : string) (instances : list JobStepRow) : list Change :=
  if forallb (λ i, is_terminal (js_status i)) instances then
    let failed := List.filter (λ i, js_status i ==? "failed") instances in
    let output_array := JArray (map (λ i, default JNull (js_output i)) instances) in
    [Rollup ph
       (if bool_decide (failed = []) then RollupCompleted output_array
        else RollupFailed ("for_each loop failed: instances " +:+
                           debug_ints (omap js_loop_index failed) +:+ " failed") output_array)]
  else [].

Definition rollup_placeholder (snap : Snapshot) (task : TaskDef) (ph : JobStepRow) : list Change :=
  let instances := loop_instances (sn_rows snap) (js_step_name ph) in
  if bool_decide (instances = []) then []
  else
    let flow_step := flow task !! js_step_name ph in
    let seq := default false (sequential <$> flow_step) in
    let cof := default false (continue_on_failure <$> flow_step) in
    let any_bad := existsb (λ i, sql_in (js_status i) ["failed"; "cancelled"]) instances in
    let pending := List.filter (λ i, js_status i ==? "pending") instances in
    if seq && any_bad && negb cof && negb (bool_decide (pending = []))
    then map (λ i, Skip (js_step_name i) Unreachable) pending
    else (if seq then advance instances else []) ++ rollup_change (js_step_name ph) instances.

Definition phase_rollup (snap : Snapshot) (task : TaskDef) : list Change :=
  flat_map (rollup_placeholder snap task)
    (List.filter (λ r, is_placeholder r && (js_status r ==? "running")) (sn_rows snap)).

Section fixpoint.
Context `{TemplateEngine, JsonParser}.

(** [evaluate_condition]'s outcome as the change it causes; [None] lets the
    step through. *)
Definition when_change (step w : string) (ctx : json) : option Change :=
  match evaluate_condition w ctx with
  | Ok true => None
  | Ok false => Some (Skip step Condition)
  | Err e => Some (Fail step ("when condition error: " +:+ error_chain e))
  end.

(** ** Phase 1: promotion *)

Definition promote_row (snap : Snapshot) (task : TaskDef) (ctx : option json) (r : JobStepRow)
    : list Change :=
  let step := js_step_name r in
  match flow task !! step with
  | None => []
  | Some fs =>
      match gate_for snap fs with
      | GateWait => []
      | GateOmitted => [Skip step Unreachable]
      | GateOpen =>
          match js_when_condition r, ctx with
          | None, _ => [Promote step]
          | Some _, None => []
          | Some w, Some c => [default (Promote step) (when_change step w c)]
          end
      end
  end.

Definition promote_batch (snap : Snapshot) (task : TaskDef) (ctx : option json) : list Change :=
  flat_map (promote_row snap task ctx)
    (List.filter (λ r, (js_status r ==? "pending") && negb (is_placeholder r)) (sn_rows snap)).

(** The inner loop; [None] only when [fuel] iterations were not enough. *)
Fixpoint phase_promote (fuel : nat) (task : TaskDef) (build_ctx : list JobStepRow → option json)
    (snap : Snapshot) : option (Snapshot * list Change) :=
  match fuel with
  | O => None
  | S fuel' =>
      let batch := promote_batch snap task (build_ctx (sn_rows snap)) in
      if bool_decide (batch = []) then Some (snap, [])
      else
        '(snap', rest) ← phase_promote fuel' task build_ctx (apply_all snap batch);
        Some (snap', batch ++ rest)
  end.

(** ** Phase 3: placeholders *)

Definition loop_instance (job_id : Uuid) (fs : FlowStep) (r : JobStepRow) (total : Z)
    (i : nat) (item : json) : NewJobStep :=
  mkNewJobStep job_id (instance_name (js_step_name r) i) (js_action_name r) (js_action_type r)
    (js_action_image r) (js_action_spec r) (js_input r)
    (StepStatus.as_ref (if sequential fs && (0 <? i)%nat then StepPending else StepReady))
    (js_required_ability r) (default [] (json_to_strings (js_required_tags r))) (js_runner r)
    (js_timeout_secs r) None None (Some (js_step_name r)) (Some (Z.of_nat i)) (Some total)
    (Some item) (js_max_retries r) (js_retry_backoff_secs r) (js_retry_strategy r)
    (js_retry_jitter r) (js_action_workspace r) (js_action_revision r) (js_action_ref r)
    (js_task_workspace r) (js_task_ref r) (js_task_revision r) (js_ref_template r).

(** A placeholder whose gate is open and whose condition let it through. *)
Definition expand_row (job_id : Uuid) (fs : FlowStep) (ctx : json) (r : JobStepRow) : Change :=
  let step := js_step_name r in
  match parse_for_each_items (default "" (js_for_each_expr r)) ctx with
  | Err e => Fail step ("for_each expression error: " +:+ error_chain e)
  | Ok items =>
      let n := Z.of_nat (length items) in
      if (n =? 0)%Z then Skip step Empty
      else if (MAX_FOR_EACH_ITEMS <? n)%Z then
        Fail step ("for_each produced " +:+ pretty n +:+ " items (max " +:+
                   pretty MAX_FOR_EACH_ITEMS +:+ ")")
      else Expand step (imap (loop_instance job_id fs r n) items)
  end.

Definition placeholder_row (snap : Snapshot) (task : TaskDef) (ctx : json) (job_id : Uuid)
    (r : JobStepRow) : list Change :=
  let step := js_step_name r in
  match flow task !! step with
  | None => []
  | Some fs =>
      match Snapshot.status snap (instance_name step 0) with
      | Some _ => [Adopt step]
      | None =>
          match gate_for snap fs with
          | GateWait => []
          | GateOmitted => [Skip step Unreachable]
          | GateOpen =>
              match js_when_condition r ≫= λ w, when_change step w ctx with
              | Some c => [c]
              | None => [expand_row job_id fs ctx r]
              end
          end
      end
  end.

Definition phase_placeholders (snap : Snapshot) (task : TaskDef) (ctx : option json) (job_id : Uuid)
    : list Change :=
  match ctx with
  | None => []
  | Some c =>
      flat_map (placeholder_row snap task c job_id)
        (List.filter (λ r, (js_status r ==? "pending") && is_placeholder r) (sn_rows snap))
  end.

(** ** The fixpoint *)

(** One pass: the snapshot after it and what it changed. *)
Definition cascade_pass (task : TaskDef) (build_ctx : list JobStepRow → option json) (job_id : Uuid)
    (snap : Snapshot) : option (Snapshot * list Change) :=
  let p0 := phase_rollup snap task in
  let snap0 := apply_all snap p0 in
  '(snap1, p1) ← phase_promote (S (length (sn_rows snap0))) task build_ctx snap0;
  let p3 := phase_placeholders snap1 task (build_ctx (sn_rows snap1)) job_id in
  Some (apply_all snap1 p3, p0 ++ p1 ++ p3).

(** [passes_left] is [bound] less the passes made; at zero the code logs a
    warning and breaks (a debug build panics). The flag records it. *)
Fixpoint run_loop (passes_left : nat) (task : TaskDef) (build_ctx : list JobStepRow → option json)
    (job_id : Uuid) (snap : Snapshot) : option (Snapshot * list Change * bool) :=
  match passes_left with
  | O => Some (snap, [], true)
  | S passes_left' =>
      '(snap', pass) ← cascade_pass task build_ctx job_id snap;
      if bool_decide (pass = []) then Some (snap', [], false)
      else
        '(snap'', rest, hit) ← run_loop passes_left' task build_ctx job_id snap';
        Some (snap'', pass ++ rest, hit)
  end.

Definition pass_bound (steps : list JobStepRow) : Z :=
  let pending_placeholders :=
    length (List.filter (λ r, is_placeholder r && (js_status r ==? "pending")) steps) in
  let universe := (Z.of_nat (length steps) + MAX_FOR_EACH_ITEMS * Z.of_nat pending_placeholders)%Z in
  (4 * universe + 1)%Z.

(** The scrub of the failure messages; [redact] is [None] without a
    workspace configuration, and [Some f] with [f] the scrub of that
    configuration's secret values (the identity when it has none). *)
Definition scrub (redact : option (string → string)) (c : Change) : Change :=
  match redact, c with
  | Some f, Fail step error => Fail step (f error)
  | _, _ => c
  end.

(** The fixpoint's last snapshot, its changes as made, and whether the pass
    bound stopped it. *)
Definition fixpoint (task : TaskDef) (job_id : Uuid) (steps : list JobStepRow)
    (build_ctx : list JobStepRow → option json) : option (Snapshot * list Change * bool) :=
  run_loop (Z.to_nat (pass_bound steps)) task build_ctx job_id (Snapshot.new steps).

Definition run (task : TaskDef) (job_id : Uuid) (steps : list JobStepRow)
    (build_ctx : list JobStepRow → option json) (redact : option (string → string))
    : option (list Change) :=
  '(_, changes, _) ← fixpoint task job_id steps build_ctx;
  Some (map (scrub redact) changes).
End fixpoint.
