(* ===== verification/CascadeRows.v ===== *)
(** * The cascade on rows

    The snapshot's index is a cache of its rows: under the index invariant a
    change acts on the list of rows alone. This file states what a legal
    change is ([valid]), what rows a job can have ([wf_rows]), and that legal
    changes keep them and shrink a measure. *)
From S2P Require Import Prelude Json Template JobModel Gate Workflow Db StepRepo Cascade.

(** ** The index invariant *)

Definition indexed (snap : Snapshot) : Prop :=
  ∀ name i, sn_index snap !! name = Some i ↔ js_step_name <$> sn_rows snap !! i = Some name.

Definition names (rows : list JobStepRow) : list string := js_step_name <$> rows.

Lemma index_from_spec rows k m name i :
  NoDup (names rows) → (∀ n, n ∈ names rows → m !! n = None) →
  index_from k rows m !! name = Some i ↔
  m !! name = Some i ∨ ∃ j, i = (k + j)%nat ∧ js_step_name <$> rows !! j = Some name.
Proof.
  revert k m. induction rows as [|r rows IH]; intros k m Hnd Hm; cbn [index_from].
  { split; [by left|]. intros [?|(j & _ & Hj)]; [done|]. by rewrite lookup_nil in Hj. }
  unfold names in Hnd, Hm. rewrite fmap_cons in Hnd, Hm. apply NoDup_cons in Hnd as [Hni Hnd].
  rewrite IH; [|done|].
  2:{ intros n Hn. rewrite lookup_insert_ne; [apply Hm; by right|]. by intros <-. }
  split.
  - intros [Hi|(j & -> & Hj)]; [|right; exists (S j); split; [lia|done]].
    apply lookup_insert_Some in Hi as [[<- <-]|[_ Hi]]; [right; exists 0%nat; split; [lia|done]|by left].
  - intros [Hi|([|j] & -> & Hj)].
    + left. rewrite lookup_insert_ne; [done|]. intros Heq. rewrite Hm in Hi; [done|]. set_solver.
    + simpl in Hj. simplify_eq. left. rewrite Nat.add_0_r. apply lookup_insert_eq.
    + right. exists j. split; [lia|done].
Qed.

Lemma snapshot_new_indexed rows : NoDup (names rows) → indexed (Snapshot.new rows).
Proof.
  intros Hnd name i. unfold Snapshot.new. simpl. rewrite index_from_spec; [|done|by intros; apply lookup_empty].
  rewrite lookup_empty. split; [intros [?|(j & -> & Hj)]; done|]. intros Hi. right. by exists i.
Qed.

Lemma indexed_NoDup snap : indexed snap → NoDup (names (sn_rows snap)).
Proof.
  intros Hx. apply NoDup_alt. intros i j n Hi Hj. unfold names in *.
  rewrite list_lookup_fmap in Hi, Hj. apply Hx in Hi, Hj. congruence.
Qed.

(** The index is determined by the rows. *)
Lemma indexed_new snap : indexed snap → snap = Snapshot.new (sn_rows snap).
Proof.
  intros Hx. pose proof (snapshot_new_indexed _ (indexed_NoDup _ Hx)) as Hn.
  destruct snap as [rows idx]. unfold Snapshot.new in *. f_equal. simpl in *.
  apply map_eq. intros n. apply option_eq. intros i. rewrite (Hx n i), (Hn n i). done.
Qed.

Lemma snapshot_row_Some snap name r :
  indexed snap → Snapshot.row snap name = Some r ↔ r ∈ sn_rows snap ∧ js_step_name r = name.
Proof.
  intros Hx. unfold Snapshot.row. split.
  - intros (i & Hi & Hr)%bind_Some. apply Hx in Hi. rewrite Hr in Hi. simplify_eq/=.
    split; [by eapply list_elem_of_lookup_2|done].
  - intros [(i & Hi)%list_elem_of_lookup_1 Hn]. apply bind_Some. exists i. split; [|done].
    apply Hx. by rewrite Hi, <-Hn.
Qed.

Lemma snapshot_row_None snap name :
  indexed snap → Snapshot.row snap name = None ↔ name ∉ names (sn_rows snap).
Proof.
  intros Hx. unfold names. rewrite list_elem_of_fmap. destruct (Snapshot.row snap name) as [r|] eqn:E.
  - apply snapshot_row_Some in E as [Hr <-]; [|done]. split; [done|]. intros []. by exists r.
  - split; [|done]. intros _ (r & -> & Hr).
    assert (Snapshot.row snap (js_step_name r) = Some r) by (by apply snapshot_row_Some). congruence.
Qed.

(** ** Changes on rows *)

Definition map_row (name : string) (f : JobStepRow → JobStepRow) (rows : list JobStepRow) : list JobStepRow :=
  (λ r, if js_step_name r ==? name then f r else r) <$> rows.

Definition change_row (c : Change) : JobStepRow → JobStepRow :=
  match c with
  | Promote _ => set_status "ready"
  | Skip _ reason => assign [set_status "skipped"; set_skip_reason (Some (SkipReason.as_str reason))]
  | Fail _ error => assign [set_status "failed"; set_error_message (Some error)]
  | Expand _ _ | Adopt _ => set_status "running"
  | Rollup _ (RollupCompleted out) => assign [set_status "completed"; set_output (Some out)]
  | Rollup _ (RollupFailed e out) =>
      assign [set_status "failed"; set_error_message (Some e); set_output (Some out)]
  end.

Definition change_target (c : Change) : string :=
  match c with
  | Promote s | Skip s _ | Fail s _ => s
  | Expand p _ | Adopt p | Rollup p _ => p
  end.

Definition change_instances (c : Change) : list NewJobStep :=
  match c with Expand _ instances => instances | _ => [] end.

Definition rows_apply (rows : list JobStepRow) (c : Change) : list JobStepRow :=
  map_row (change_target c) (change_row c) rows ++ (synthetic_row <$> change_instances c).

Lemma change_row_name c r : js_step_name (change_row c r) = js_step_name r.
Proof. by destruct c as [| | | | |? []]. Qed.

Lemma names_map_row name f rows :
  (∀ r, js_step_name (f r) = js_step_name r) → names (map_row name f rows) = names rows.
Proof.
  intros Hf. unfold names, map_row. rewrite <-list_fmap_compose. apply list_fmap_ext.
  intros i r _. simpl. by case_bool_decide.
Qed.

Lemma names_rows_apply rows c :
  names (rows_apply rows c) = names rows ++ (nj_step_name <$> change_instances c).
Proof.
  unfold rows_apply. unfold names at 1. rewrite fmap_app. f_equal.
  - apply names_map_row, change_row_name.
  - rewrite <-list_fmap_compose. done.
Qed.

Lemma modify_rows name f snap :
  indexed snap → (∀ r, js_step_name (f r) = js_step_name r) →
  sn_rows (Snapshot.modify name f snap) = map_row name f (sn_rows snap) ∧
  indexed (Snapshot.modify name f snap).
Proof.
  intros Hx Hf. unfold Snapshot.modify. destruct (sn_index snap !! name) as [i|] eqn:Hi; simpl.
  - split.
    + apply list_eq. intros j. unfold map_row. rewrite list_lookup_fmap.
      destruct (decide (i = j)) as [<-|Hne].
      * rewrite list_lookup_alter_eq. apply Hx in Hi. destruct (sn_rows snap !! i) as [r|]; [|done].
        simpl in *. simplify_eq. by rewrite bool_decide_true by done.
      * rewrite list_lookup_alter_ne by done. destruct (sn_rows snap !! j) as [r|] eqn:Hj; [|done].
        simpl. case_bool_decide as Hn; [|done]. exfalso. apply Hne.
        assert (sn_index snap !! name = Some j) by (apply Hx; rewrite Hj; simpl; congruence). congruence.
    + intros n j. simpl. rewrite (Hx n j). destruct (decide (i = j)) as [<-|Hne].
      * rewrite list_lookup_alter_eq. destruct (sn_rows snap !! i) as [r|]; simpl; [by rewrite Hf|done].
      * by rewrite list_lookup_alter_ne.
  - split; [|done]. unfold map_row. rewrite <-(list_fmap_id (sn_rows snap)) at 1.
    apply list_fmap_ext. intros j r Hj. simpl. case_bool_decide as Hn; [|done].
    assert (sn_index snap !! name = Some j) by (apply Hx; rewrite Hj; simpl; congruence). congruence.
Qed.

Lemma push_rows row snap :
  indexed snap → js_step_name row ∉ names (sn_rows snap) →
  sn_rows (Snapshot.push row snap) = sn_rows snap ++ [row] ∧ indexed (Snapshot.push row snap).
Proof.
  intros Hx Hni. split; [done|]. intros n i. simpl. rewrite lookup_insert_Some, (Hx n i).
  destruct (decide (i < length (sn_rows snap))%nat) as [Hlt|Hge].
  - rewrite lookup_app_l by done. split; [intros [[_ ?]|[_ ?]]; [lia|done]|].
    intros Hr. right. split; [|done]. intros <-. apply Hni.
    destruct (sn_rows snap !! i) as [r|] eqn:Hi; [|done]. simpl in Hr. simplify_eq.
    unfold names. rewrite list_elem_of_fmap. exists r. split; [congruence|].
    by eapply list_elem_of_lookup_2.
  - rewrite lookup_app_r by lia. rewrite (lookup_ge_None_2 (sn_rows snap) i) by lia.
    destruct (decide (i = length (sn_rows snap))) as [->|Hne].
    + rewrite Nat.sub_diag. simpl. naive_solver.
    + rewrite (lookup_ge_None_2 [row]) by (simpl; lia). naive_solver.
Qed.

Lemma push_all_rows insts snap :
  indexed snap → NoDup (names (sn_rows snap) ++ (nj_step_name <$> insts)) →
  let s := fold_left (λ s inst, Snapshot.push (synthetic_row inst) s) insts snap in
  sn_rows s = sn_rows snap ++ (synthetic_row <$> insts) ∧ indexed s.
Proof.
  revert snap. induction insts as [|inst insts IH]; intros snap Hx Hnd.
  { split; [|done]. by rewrite fmap_nil, app_nil_r. }
  rewrite fmap_cons in Hnd. cbn [fold_left].
  destruct (push_rows (synthetic_row inst) snap Hx) as [Hr Hx'].
  { apply NoDup_app in Hnd as (_ & Hd & _). intros Hin. apply (Hd _ Hin). left. }
  destruct (IH _ Hx') as [Hr' Hx''].
  { rewrite Hr. unfold names. rewrite fmap_app, <-app_assoc. exact Hnd. }
  split; [|done]. rewrite Hr', Hr, fmap_cons, <-app_assoc. done.
Qed.

(** A change whose instances are new acts on the rows and keeps the index. *)
Lemma snap_apply_rows snap c :
  indexed snap → NoDup (names (sn_rows snap) ++ (nj_step_name <$> change_instances c)) →
  sn_rows (snap_apply snap c) = rows_apply (sn_rows snap) c ∧ indexed (snap_apply snap c).
Proof.
  intros Hx Hnd.
  assert (Hm : ∀ p f, (∀ r, js_step_name (f r) = js_step_name r) →
    change_instances c = [] → change_target c = p → change_row c = f →
    sn_rows (Snapshot.modify p f snap) = rows_apply (sn_rows snap) c ∧
    indexed (Snapshot.modify p f snap)).
  { intros p f Hf Hi <- <-. unfold rows_apply. rewrite Hi, fmap_nil, app_nil_r. by apply modify_rows. }
  destruct c as [s|s reason|s e|p insts|p|p [out|e out]]; try (by apply Hm).
  destruct (modify_rows p (set_status "running") snap Hx) as [Hr Hx']; [done|].
  cbn [snap_apply]. unfold rows_apply. simpl. rewrite <-Hr. apply push_all_rows; [done|].
  rewrite Hr, names_map_row by done. exact Hnd.
Qed.

(** ** The rows of a job *)

(** Names are unique; a loop instance is named after its placeholder and its
    index, is no placeholder itself, and the indices of a loop start at 0
    without gaps; only instances are named like instances. *)
Record wf_rows (rows : list JobStepRow) : Prop := {
  wf_names : NoDup (names rows);
  wf_source r p : r ∈ rows → js_loop_source r = Some p →
    ∃ i, js_step_name r = instance_name p i ∧ js_loop_index r = Some (Z.of_nat i) ∧
         (Z.of_nat i < MAX_FOR_EACH_ITEMS)%Z ∧ js_for_each_expr r = None;
  wf_instance r p i : r ∈ rows → js_step_name r = instance_name p i → js_loop_source r = Some p;
  wf_closed p i j : (j ≤ i)%nat → instance_name p i ∈ names rows → instance_name p j ∈ names rows;
}.

(** The instances an expansion of [p] inserts. *)
Definition instances_of (p : string) (insts : list NewJobStep) : Prop :=
  insts ≠ [] ∧ (Z.of_nat (length insts) ≤ MAX_FOR_EACH_ITEMS)%Z ∧
  ∀ i inst, insts !! i = Some inst →
    nj_step_name inst = instance_name p i ∧ nj_loop_source inst = Some p ∧
    nj_loop_index inst = Some (Z.of_nat i) ∧ nj_for_each_expr inst = None ∧
    (nj_status inst = "ready" ∨ nj_status inst = "pending" ∧ (0 < i)%nat).

(** What a change expects of the rows it is applied to. *)
Definition valid (rows : list JobStepRow) (c : Change) : Prop :=
  ∃ r, r ∈ rows ∧ js_step_name r = change_target c ∧
    match c with
    | Promote _ => js_status r = "pending" ∧ js_for_each_expr r = None
    | Skip p _ | Fail p _ =>
        js_status r = "pending" ∧ (is_placeholder r = true → instance_name p 0 ∉ names rows)
    | Expand p insts =>
        js_status r = "pending" ∧ is_placeholder r = true ∧ instances_of p insts ∧
        instance_name p 0 ∉ names rows
    | Adopt p => js_status r = "pending" ∧ is_placeholder r = true ∧ instance_name p 0 ∈ names rows
    | Rollup p _ =>
        js_status r = "running" ∧ is_placeholder r = true ∧
        ∀ i, i ∈ rows → js_loop_source i = Some p → is_terminal (js_status i) = true
    end.

(** Each change is legal where the ones before it lead. *)
Fixpoint valid_seq (rows : list JobStepRow) (cs : list Change) : Prop :=
  match cs with
  | [] => True
  | c :: cs' => valid rows c ∧ valid_seq (rows_apply rows c) cs'
  end.

Definition rows_after (rows : list JobStepRow) (cs : list Change) : list JobStepRow :=
  fold_left rows_apply cs rows.

Lemma valid_seq_app rows cs1 cs2 :
  valid_seq rows (cs1 ++ cs2) ↔ valid_seq rows cs1 ∧ valid_seq (rows_after rows cs1) cs2.
Proof.
  revert rows. induction cs1 as [|c cs1 IH]; intros rows; simpl; [tauto|]. rewrite IH. tauto.
Qed.

Lemma rows_after_app rows cs1 cs2 : rows_after rows (cs1 ++ cs2) = rows_after (rows_after rows cs1) cs2.
Proof. apply fold_left_app. Qed.

(** Rows before and after a change. *)
Lemma elem_of_rows_apply rows c r' :
  r' ∈ rows_apply rows c ↔
  (∃ r, r ∈ rows ∧ r' = if js_step_name r ==? change_target c then change_row c r else r) ∨
  (∃ inst, inst ∈ change_instances c ∧ r' = synthetic_row inst).
Proof.
  unfold rows_apply, map_row. rewrite elem_of_app, !list_elem_of_fmap. naive_solver.
Qed.

Lemma change_row_loop c r :
  js_loop_source (change_row c r) = js_loop_source r ∧
  js_loop_index (change_row c r) = js_loop_index r ∧
  js_for_each_expr (change_row c r) = js_for_each_expr r ∧
  js_when_condition (change_row c r) = js_when_condition r.
Proof. by destruct c as [| | | | |? []]. Qed.

Lemma instance_names_NoDup p insts :
  (∀ i inst, insts !! i = Some inst → nj_step_name inst = instance_name p i) →
  NoDup (nj_step_name <$> insts).
Proof.
  intros Hn. apply NoDup_alt. intros i j x. rewrite !list_lookup_fmap.
  destruct (insts !! i) as [a|] eqn:Hi; [|done]. destruct (insts !! j) as [b|] eqn:Hj; [|done].
  simpl. intros [= Ha] [= Hb]. rewrite (Hn _ _ Hi) in Ha. rewrite (Hn _ _ Hj), <-Ha in Hb.
  apply instance_name_inj in Hb. naive_solver.
Qed.

(** The names of a legal change's instances are new and distinct. *)
Lemma valid_fresh rows c :
  wf_rows rows → valid rows c → NoDup (names rows ++ (nj_step_name <$> change_instances c)).
Proof.
  intros Hwf (r & Hr & Hn & Hc).
  destruct c as [| | |p insts| |]; simpl; rewrite ?fmap_nil, ?app_nil_r; try apply (wf_names _ Hwf).
  destruct Hc as (_ & _ & (_ & _ & Hi) & H0).
  apply NoDup_app. split_and!; [apply (wf_names _ Hwf)| |].
  - intros x Hx Hin. apply list_elem_of_fmap in Hin as (inst & -> & (i & Hl)%list_elem_of_lookup_1).
    destruct (Hi _ _ Hl) as (E & _). rewrite E in Hx. apply H0. eapply (wf_closed _ Hwf); [|done]. lia.
  - apply (instance_names_NoDup p). intros i inst Hl. by destruct (Hi _ _ Hl).
Qed.

Lemma valid_wf rows c : wf_rows rows → valid rows c → wf_rows (rows_apply rows c).
Proof.
  intros Hwf Hv. pose proof (valid_fresh _ _ Hwf Hv) as Hnd.
  assert (Hinst : ∀ inst, inst ∈ change_instances c → ∃ p insts i, c = Expand p insts ∧
            instances_of p insts ∧ insts !! i = Some inst).
  { destruct Hv as (r & _ & _ & Hc). intros inst Hin. destruct c as [| | |p insts| |];
      try by apply elem_of_nil in Hin. destruct Hc as (_ & _ & Hi & _). simpl in Hin.
    apply list_elem_of_lookup_1 in Hin as [i Hin]. naive_solver. }
  split.
  - by rewrite names_rows_apply.
  - intros r' p [(r & Hr & ->)|(inst & Hin & ->)]%elem_of_rows_apply.
    + destruct (change_row_loop c r) as (E1 & E2 & E3 & _). intros Hs.
      destruct (wf_source _ Hwf r p) as (i & ? & ? & ? & ?); [done| |].
      { case_bool_decide; [by rewrite E1 in Hs|done]. }
      exists i. case_bool_decide; [|done]. by rewrite change_row_name, E2, E3.
    + destruct (Hinst _ Hin) as (q & insts & i & -> & (_ & Hlen & Hi) & Hl).
      destruct (Hi _ _ Hl) as (? & ? & ? & ? & _). simpl. intros ?. simplify_eq.
      exists i. split_and!; try done. apply lookup_lt_Some in Hl. lia.
  - intros r' p i [(r & Hr & ->)|(inst & Hin & ->)]%elem_of_rows_apply.
    + destruct (change_row_loop c r) as (E1 & _). intros Hn.
      assert (js_step_name r = instance_name p i) as Hn' by (case_bool_decide; by rewrite ?change_row_name in Hn).
      pose proof (wf_instance _ Hwf _ _ _ Hr Hn') as Hs. case_bool_decide; [by rewrite E1|done].
    + destruct (Hinst _ Hin) as (q & insts & j & -> & (_ & _ & Hi) & Hl).
      destruct (Hi _ _ Hl) as (En & Es & _). simpl. rewrite En. intros [-> _]%instance_name_inj. done.
  - intros p i j Hij. rewrite names_rows_apply, !elem_of_app. intros [Hin|Hin].
    + left. by eapply (wf_closed _ Hwf).
    + right. apply list_elem_of_fmap in Hin as (inst & En & Hin).
      destruct (Hinst _ Hin) as (q & insts & k & -> & (_ & _ & Hi) & Hl).
      destruct (Hi _ _ Hl) as (En' & _). rewrite En' in En. apply instance_name_inj in En as [-> ->].
      destruct (lookup_lt_is_Some_2 insts j) as [inst' Hl'].
      { apply lookup_lt_Some in Hl. lia. }
      destruct (Hi _ _ Hl') as (En'' & _). simpl. rewrite <-En''. apply list_elem_of_fmap.
      exists inst'. split; [done|]. by eapply list_elem_of_lookup_2.
Qed.

(** ** The measure

    A pending placeholder weighs more than the running placeholder and the
    instances it can become; a pending step and a running placeholder weigh
    one; other rows nothing. *)

Definition weight (r : JobStepRow) : Z :=
  if js_status r ==? "pending" then (if is_placeholder r then MAX_FOR_EACH_ITEMS + 2 else 1)%Z
  else if (js_status r ==? "running") && is_placeholder r then 1%Z else 0%Z.

(** The sum of a weight over rows. *)
Definition total (w : JobStepRow → Z) (rows : list JobStepRow) : Z :=
  foldr (λ r a, w r + a)%Z 0%Z rows.
Definition measure : list JobStepRow → Z := total weight.

Lemma weight_nonneg r : (0 ≤ weight r)%Z.
Proof. unfold weight, MAX_FOR_EACH_ITEMS. repeat case_match; lia. Qed.

Lemma total_nonneg w rows : (∀ r, 0 ≤ w r)%Z → (0 ≤ total w rows)%Z.
Proof. intros Hw. induction rows as [|r rows IH]; simpl; [lia|]. specialize (Hw r). lia. Qed.

Lemma measure_nonneg rows : (0 ≤ measure rows)%Z.
Proof. apply total_nonneg, weight_nonneg. Qed.

Lemma total_app w rows1 rows2 : total w (rows1 ++ rows2) = (total w rows1 + total w rows2)%Z.
Proof. induction rows1 as [|r rows1 IH]; simpl; [done|]. rewrite IH. lia. Qed.

Lemma map_row_notin name f rows : name ∉ names rows → map_row name f rows = rows.
Proof.
  intros Hn. unfold map_row. rewrite <-(list_fmap_id rows) at 2. apply list_fmap_ext.
  intros i r Hr. simpl. case_bool_decide as E; [|done]. destruct Hn. unfold names.
  apply list_elem_of_fmap. exists r. split; [done|]. by eapply list_elem_of_lookup_2.
Qed.

Lemma total_map_row w name f rows r :
  NoDup (names rows) → r ∈ rows → js_step_name r = name →
  total w (map_row name f rows) = (total w rows - w r + w (f r))%Z.
Proof.
  induction rows as [|a rows IH]; intros Hnd Hr Hn; [by apply elem_of_nil in Hr|].
  unfold names in Hnd. rewrite fmap_cons in Hnd. apply NoDup_cons in Hnd as [Hni Hnd].
  unfold map_row in *. rewrite fmap_cons. cbn [total foldr] in *.
  apply elem_of_cons in Hr as [<-|Hr].
  - rewrite bool_decide_true by done. fold (map_row name f rows).
    rewrite map_row_notin by (rewrite <-Hn; exact Hni). unfold total. lia.
  - rewrite bool_decide_false.
    2:{ intros E. apply Hni. rewrite E, <-Hn. apply list_elem_of_fmap. by exists r. }
    unfold total in *. rewrite (IH Hnd Hr Hn). lia.
Qed.

Lemma total_le_length w rows :
  Forall (λ r, (w r ≤ 1)%Z) rows → (total w rows ≤ Z.of_nat (length rows))%Z.
Proof. induction 1; simpl; lia. Qed.

Lemma measure_instances p insts :
  instances_of p insts → (measure (synthetic_row <$> insts) ≤ Z.of_nat (length insts))%Z.
Proof.
  intros (_ & _ & Hi). rewrite <-(length_fmap synthetic_row insts). apply total_le_length.
  apply Forall_fmap, Forall_forall. intros inst (i & Hl)%list_elem_of_lookup_1.
  unfold weight, compose, is_placeholder. simpl. repeat case_match; lia.
Qed.

(** The weight of the target after a change, pending or running before it. *)
Lemma weight_change_row c r :
  (weight (change_row c r) ≤ match c with Expand _ _ | Adopt _ => 1 | _ => 0 end)%Z.
Proof.
  destruct c as [| | | | |? []]; unfold weight; simpl; repeat case_match; done || lia.
Qed.

(** Every legal change shrinks the measure. *)
Lemma valid_measure rows c :
  wf_rows rows → valid rows c → (measure (rows_apply rows c) + 1 ≤ measure rows)%Z.
Proof.
  intros Hwf (r & Hr & Hn & Hc). unfold rows_apply, measure. rewrite total_app.
  rewrite (total_map_row _ _ _ _ r (wf_names _ Hwf) Hr Hn).
  pose proof (weight_change_row c r) as Hw.
  assert (Hpend : js_status r = "pending" →
    weight r = (if is_placeholder r then MAX_FOR_EACH_ITEMS + 2 else 1)%Z).
  { intros E. unfold weight. by rewrite bool_decide_true. }
  unfold MAX_FOR_EACH_ITEMS in *.
  destruct c as [s|s re|s e|p insts|p|p o]; cbn [change_instances]; rewrite ?fmap_nil; cbn [total foldr]; fold (total weight rows).
  - destruct Hc as [Hc _]. rewrite (Hpend Hc). case_match; lia.
  - destruct Hc as [Hc _]. rewrite (Hpend Hc). case_match; lia.
  - destruct Hc as [Hc _]. rewrite (Hpend Hc). case_match; lia.
  - destruct Hc as (Hs & Hp & Hi & _). rewrite (Hpend Hs), Hp.
    pose proof (measure_instances _ _ Hi) as Hm. unfold measure in Hm. destruct Hi as (_ & Hlen & _).
    unfold MAX_FOR_EACH_ITEMS in *. lia.
  - destruct Hc as (Hs & Hp & _). rewrite (Hpend Hs), Hp. lia.
  - destruct Hc as (Hs & Hp & _). assert (weight r = 1%Z) as ->; [|lia].
    unfold weight. by rewrite Hs, Hp.
Qed.

Lemma valid_seq_wf rows cs : wf_rows rows → valid_seq rows cs → wf_rows (rows_after rows cs).
Proof.
  revert rows. induction cs as [|c cs IH]; intros rows Hwf Hv; [done|]. destruct Hv as [Hv Hvs].
  apply IH; [by apply valid_wf|done].
Qed.

Lemma valid_seq_measure rows cs :
  wf_rows rows → valid_seq rows cs →
  (measure (rows_after rows cs) + Z.of_nat (length cs) ≤ measure rows)%Z.
Proof.
  revert rows. induction cs as [|c cs IH]; intros rows Hwf Hv; [simpl; lia|]. destruct Hv as [Hv Hvs].
  pose proof (valid_measure _ _ Hwf Hv). specialize (IH _ (valid_wf _ _ Hwf Hv) Hvs).
  change (rows_after rows (c :: cs)) with (rows_after (rows_apply rows c) cs).
  rewrite length_cons. lia.
Qed.

(** ** Batches *)

(** A change leaves the rows it does not target as they are. *)
Lemma rows_apply_keeps rows c r :
  r ∈ rows → js_step_name r ≠ change_target c → r ∈ rows_apply rows c.
Proof.
  intros Hr Hn. apply elem_of_rows_apply. left. exists r. by rewrite bool_decide_false.
Qed.

Lemma rows_name_inj rows r r' :
  NoDup (names rows) → r ∈ rows → r' ∈ rows → js_step_name r = js_step_name r' → r = r'.
Proof.
  intros Hnd (i & Hi)%list_elem_of_lookup_1 (j & Hj)%list_elem_of_lookup_1 E.
  assert (i = j) as <-; [|congruence]. eapply (proj1 (NoDup_alt _) Hnd); unfold names;
    rewrite list_lookup_fmap, ?Hi, ?Hj; simpl; [done|congruence].
Qed.

(** A legal change targets a row that has not ended. *)
Lemma valid_target_unsettled rows c r :
  NoDup (names rows) → valid rows c → r ∈ rows → js_step_name r = change_target c →
  js_status r = "pending" ∨ js_status r = "running".
Proof.
  intros Hnd (r' & Hr' & Hn' & Hc) Hr Hn.
  assert (r' = r) as -> by (apply (rows_name_inj rows); [done..|congruence]).
  destruct c; naive_solver.
Qed.

(** The names a legal change adds are instances of its target. *)
Lemma valid_new_name rows c x :
  valid rows c → x ∈ nj_step_name <$> change_instances c → ∃ i, x = instance_name (change_target c) i.
Proof.
  intros (r & _ & _ & Hc) (inst & -> & Hin)%list_elem_of_fmap.
  destruct c as [| | |p insts| |]; try by apply elem_of_nil in Hin.
  destruct Hc as (_ & _ & (_ & _ & Hi) & _). apply list_elem_of_lookup_1 in Hin as [i Hl].
  exists i. by destruct (Hi _ _ Hl).
Qed.

Lemma first_instance_stable rows c p :
  valid rows c → change_target c ≠ p → instance_name p 0 ∉ names rows →
  instance_name p 0 ∉ names (rows_apply rows c).
Proof.
  intros Hv Hne Hp. rewrite names_rows_apply, elem_of_app. intros [?|Hin]; [done|].
  apply (valid_new_name _ _ _ Hv) in Hin as [i E]. by apply instance_name_inj in E as [-> _].
Qed.

Lemma valid_stable rows c c' :
  NoDup (names rows) → valid rows c → valid rows c' → change_target c ≠ change_target c' →
  valid (rows_apply rows c) c'.
Proof.
  intros Hnd Hv (r & Hr & Hn & Hc) Hd. exists r. split_and!; [|done|].
  - apply rows_apply_keeps; [done|]. rewrite Hn. congruence.
  - destruct c' as [|p|p|p insts|p|p o]; try done; simpl in *.
    1,2: destruct Hc as [Hs Hi]; split; [done|]; intros Hpl; apply first_instance_stable; auto.
    + destruct Hc as (? & ? & ? & ?). split_and!; try done. by apply first_instance_stable.
    + destruct Hc as (? & ? & ?). split_and!; try done. rewrite names_rows_apply. set_solver.
    + destruct Hc as (? & ? & Ht). split_and!; try done.
      intros i [(i0 & Hi0 & ->)|(inst & Hin & ->)]%elem_of_rows_apply Hs.
      * destruct (bool_decide_reflect (js_step_name i0 = change_target c)) as [E|]; [|by apply Ht].
        destruct (change_row_loop c i0) as (Es & _). rewrite Es in Hs. specialize (Ht _ Hi0 Hs).
        destruct (valid_target_unsettled _ _ _ Hnd Hv Hi0 E) as [Ep|Ep]; by rewrite Ep in Ht.
      * destruct Hv as (rc & _ & _ & Hv). destruct c as [| | |q insts| |]; try by apply elem_of_nil in Hin.
        destruct Hv as (_ & _ & (_ & _ & Hi) & _). apply list_elem_of_lookup_1 in Hin as [k Hl].
        destruct (Hi _ _ Hl) as (_ & Es & _). simpl in *. congruence.
Qed.

(** Changes decided on the same rows, on distinct targets, are legal in turn. *)
Lemma valid_batch rows cs :
  wf_rows rows → Forall (valid rows) cs → NoDup (change_target <$> cs) → valid_seq rows cs.
Proof.
  revert rows. induction cs as [|c cs IH]; intros rows Hwf Hv Hnd; [done|].
  apply Forall_cons in Hv as [Hc Hv]. rewrite fmap_cons in Hnd. apply NoDup_cons in Hnd as [Hd Hnd].
  split; [done|]. apply IH; [by apply valid_wf| |done].
  rewrite Forall_forall in Hv |- *. intros c' Hc'. apply valid_stable; [apply Hwf|done|by apply Hv|].
  intros E. apply Hd. rewrite E. by apply list_elem_of_fmap_2.
Qed.

(** A legal sequence applied to the snapshot: the rows it leads to, the index
    and the well-formedness kept. *)
Definition good (snap : Snapshot) : Prop := indexed snap ∧ wf_rows (sn_rows snap).

Lemma good_new steps : wf_rows steps → good (Snapshot.new steps).
Proof. intros Hwf. split; [|done]. apply snapshot_new_indexed, Hwf. Qed.

Lemma apply_all_valid snap cs :
  good snap → valid_seq (sn_rows snap) cs →
  good (apply_all snap cs) ∧ sn_rows (apply_all snap cs) = rows_after (sn_rows snap) cs.
Proof.
  revert snap. induction cs as [|c cs IH]; intros snap [Hx Hwf] Hv; [done|]. destruct Hv as [Hv Hvs].
  destruct (snap_apply_rows snap c Hx (valid_fresh _ _ Hwf Hv)) as [Er Hx'].
  cbn [apply_all fold_left]. unfold rows_after. cbn [fold_left]. rewrite <-Er in *.
  apply IH; [|done]. split; [done|]. rewrite Er. by apply valid_wf.
Qed.
