(* ===== verification/CascadeProps.v ===== *)
(** * The cascade fixpoint

    Every phase decides legal changes on distinct rows, so the whole plan is a
    legal sequence; the fixpoint therefore stops before its pass bound, and
    where it stops no phase has anything left to do. *)
From S2P Require Import Prelude Json Template JobModel DependsOn Gate Workflow Dag Db StepRepo Cascade CascadeRows.

(** ** Lists *)

Lemma NoDup_lfilter {A} (f : A → bool) l : NoDup l → NoDup (List.filter f l).
Proof. rewrite !NoDup_ListNoDup. apply List.NoDup_filter. Qed.

Lemma flat_map_flat_map {A B C} (f : A → list B) (g : B → list C) l :
  flat_map g (flat_map f l) = flat_map (λ a, flat_map g (f a)) l.
Proof. induction l as [|a l IH]; simpl; [done|]. by rewrite flat_map_app, IH. Qed.

Lemma NoDup_flat_map {A B} (g : A → list B) l :
  NoDup l → (∀ a, a ∈ l → NoDup (g a)) →
  (∀ a b x, a ∈ l → b ∈ l → x ∈ g a → x ∈ g b → a = b) → NoDup (flat_map g l).
Proof.
  induction 1 as [|a l Hni Hnd IH]; intros Hg Hd; simpl; [constructor|].
  apply NoDup_app. split_and!; [apply Hg; by left| |].
  - intros x Hx (b & Hb & Hxb)%elem_of_flat_map. apply Hni.
    by rewrite (Hd a b x ltac:(by left) ltac:(by right) Hx Hxb).
  - apply IH; [intros; apply Hg; by right|]. intros b c x Hb Hc. apply Hd; by right.
Qed.

Lemma Forall_flat_map' {A B} (P : B → Prop) (g : A → list B) l :
  (∀ a, a ∈ l → Forall P (g a)) → Forall P (flat_map g l).
Proof.
  intros H. apply Forall_forall. intros b (a & Ha & Hb)%elem_of_flat_map.
  by apply (proj1 (Forall_forall _ _) (H a Ha)).
Qed.

(** ** Rows by name *)

Lemma NoDup_rows rows : NoDup (names rows) → NoDup rows.
Proof. apply NoDup_fmap_1. Qed.

Lemma fmap_flat_map {A B C} (f : A → list B) (g : B → C) l :
  g <$> flat_map f l = flat_map (λ a, g <$> f a) l.
Proof. induction l as [|a l IH]; simpl; [done|]. by rewrite fmap_app, IH. Qed.

(** Rows with changes of their own: legal changes that name each row once. *)
Lemma one_change_per_row rows sel (f : JobStepRow → list Change) :
  wf_rows rows → (∀ r, r ∈ sel → r ∈ rows) → NoDup sel →
  (∀ r, r ∈ sel → f r = [] ∨ ∃ c, f r = [c] ∧ change_target c = js_step_name r ∧ valid rows c) →
  valid_seq rows (flat_map f sel).
Proof.
  intros Hwf Hsel Hnd Hf. apply valid_batch; [done| |].
  - apply Forall_flat_map'. intros r Hr. destruct (Hf r Hr) as [->|(c & -> & _ & Hv)]; [constructor|].
    by repeat constructor.
  - rewrite fmap_flat_map. apply NoDup_flat_map; [done| |].
    + intros r Hr. destruct (Hf r Hr) as [->|(c & -> & _)]; [constructor|apply NoDup_singleton].
    + intros a b x Ha Hb Hxa Hxb. apply (rows_name_inj rows); [apply Hwf|by apply Hsel..|].
      destruct (Hf a Ha) as [Ea|(c & Ea & Ta & _)]; rewrite Ea in Hxa; [by apply elem_of_nil in Hxa|].
      destruct (Hf b Hb) as [Eb|(d & Eb & Tb & _)]; rewrite Eb in Hxb; [by apply elem_of_nil in Hxb|].
      apply list_elem_of_singleton in Hxa, Hxb. congruence.
Qed.

Section phases.
Context `{TemplateEngine, JsonParser}.

Lemma is_placeholder_false r : is_placeholder r = false → js_for_each_expr r = None.
Proof. unfold is_placeholder. by case_match. Qed.

(** ** Phase 1 *)

Lemma when_change_spec step w ctx c :
  when_change step w ctx = Some c → c = Skip step Condition ∨ ∃ e, c = Fail step e.
Proof. unfold when_change. repeat case_match; intros; simplify_eq; eauto. Qed.

(** A change of phase 1 takes a pending step with no loop. *)
Lemma promote_row_shape snap task ctx r c :
  c ∈ promote_row snap task ctx r →
  promote_row snap task ctx r = [c] ∧ change_target c = js_step_name r ∧
  (c = Promote (js_step_name r) ∨ (∃ re, c = Skip (js_step_name r) re) ∨ ∃ e, c = Fail (js_step_name r) e).
Proof.
  unfold promote_row. repeat case_match; try (by intros ?%elem_of_nil);
    intros ->%list_elem_of_singleton; try naive_solver.
  destruct (when_change _ _ _) as [c|] eqn:E; simpl; [|naive_solver].
  destruct (when_change_spec _ _ _ _ E) as [->|[e ->]]; naive_solver.
Qed.

Lemma list_cases {A} (l : list A) : l = [] ∨ ∃ x, x ∈ l.
Proof. destruct l as [|x l]; [by left|]. right. exists x. by left. Qed.

Lemma promote_batch_valid snap task ctx :
  good snap → valid_seq (sn_rows snap) (promote_batch snap task ctx).
Proof.
  intros [Hx Hwf]. unfold promote_batch. apply one_change_per_row; [done| | |].
  - intros r [Hr _]%elem_of_lfilter. done.
  - apply NoDup_lfilter, NoDup_rows, Hwf.
  - intros r [Hr Hp]%elem_of_lfilter. apply andb_true_iff in Hp as [Hp Hph].
    apply bool_decide_eq_true in Hp. apply negb_true_iff, is_placeholder_false in Hph.
    destruct (list_cases (promote_row snap task ctx r)) as [->|[c Hc]]; [by left|].
    apply promote_row_shape in Hc as (E & Ht & Hs). right. exists c. split_and!; [done|done|].
    exists r. split_and!; [done|done|]. assert (is_placeholder r = true → False) by (unfold is_placeholder; by rewrite Hph).
    destruct Hs as [->|[[re ->]|[e ->]]]; split; done || (intros ?; exfalso; auto).
Qed.

(** The weight phase 1 consumes. *)
Definition plain_pending (r : JobStepRow) : Z :=
  if (js_status r ==? "pending") && negb (is_placeholder r) then 1%Z else 0%Z.

Lemma plain_pending_range r : (0 ≤ plain_pending r ≤ 1)%Z.
Proof. unfold plain_pending. case_match; lia. Qed.

(** Changes that take plain pending rows out of that state. *)
Definition settles_plain (rows : list JobStepRow) (c : Change) : Prop :=
  change_instances c = [] ∧ (∀ r, plain_pending (change_row c r) = 0%Z) ∧
  ∃ r, r ∈ rows ∧ js_step_name r = change_target c ∧ plain_pending r = 1%Z.

Lemma settles_plain_total rows c :
  NoDup (names rows) → settles_plain rows c →
  total plain_pending (rows_apply rows c) = (total plain_pending rows - 1)%Z.
Proof.
  intros Hnd (Hi & Hz & r & Hr & Hn & H1). unfold rows_apply.
  rewrite Hi, fmap_nil, app_nil_r, (total_map_row _ _ _ _ r Hnd Hr Hn), Hz, H1. lia.
Qed.

Lemma settles_plain_batch rows cs :
  NoDup (names rows) → Forall (settles_plain rows) cs → NoDup (change_target <$> cs) →
  total plain_pending (rows_after rows cs) = (total plain_pending rows - Z.of_nat (length cs))%Z.
Proof.
  revert rows. induction cs as [|c cs IH]; intros rows Hnd Hs Ht; [simpl; lia|].
  apply Forall_cons in Hs as [Hc Hs]. rewrite fmap_cons in Ht. apply NoDup_cons in Ht as [Hni Ht].
  change (rows_after rows (c :: cs)) with (rows_after (rows_apply rows c) cs).
  rewrite IH; [|..|done].
  - rewrite settles_plain_total by done. rewrite length_cons. lia.
  - rewrite names_rows_apply. destruct Hc as (-> & _). by rewrite fmap_nil, app_nil_r.
  - rewrite Forall_forall in Hs |- *. intros c' Hc'. destruct (Hs c' Hc') as (? & ? & r & Hr & Hn & H1).
    split_and!; [done|done|]. exists r. split_and!; [|done|done]. apply rows_apply_keeps; [done|].
    rewrite Hn. intros E. apply Hni. rewrite <-E. by apply list_elem_of_fmap_2.
Qed.

Lemma promote_batch_settles snap task ctx :
  good snap →
  Forall (settles_plain (sn_rows snap)) (promote_batch snap task ctx) ∧
  NoDup (change_target <$> promote_batch snap task ctx).
Proof.
  intros [Hx Hwf]. unfold promote_batch. split.
  - apply Forall_flat_map'. intros r [Hr Hp]%elem_of_lfilter. apply Forall_forall. intros c Hc.
    apply promote_row_shape in Hc as (_ & Ht & Hs). split_and!.
    + by destruct Hs as [->|[[re ->]|[e ->]]].
    + intros r'. by destruct Hs as [->|[[re ->]|[e ->]]].
    + exists r. split_and!; [done|done|]. unfold plain_pending. by rewrite Hp.
  - rewrite fmap_flat_map. apply NoDup_flat_map; [apply NoDup_lfilter, NoDup_rows, Hwf| |].
    + intros r _. destruct (list_cases (promote_row snap task ctx r)) as [->|[c Hc]]; [constructor|].
      apply promote_row_shape in Hc as (-> & _). apply NoDup_singleton.
    + intros a b x [Ha _]%elem_of_lfilter [Hb _]%elem_of_lfilter
        (c & -> & Hc)%list_elem_of_fmap (d & Ed & Hd)%list_elem_of_fmap.
      apply promote_row_shape in Hc as (_ & Tc & _), Hd as (_ & Td & _).
      apply (rows_name_inj (sn_rows snap)); [apply Hwf|done..|congruence].
Qed.

(** The inner loop ends within its fuel, with a legal sequence, where no
    step of phase 1 can move. *)
Lemma phase_promote_spec task build_ctx fuel snap :
  good snap → (total plain_pending (sn_rows snap) < Z.of_nat fuel)%Z →
  ∃ snap' cs, phase_promote fuel task build_ctx snap = Some (snap', cs) ∧
    good snap' ∧ valid_seq (sn_rows snap) cs ∧ sn_rows snap' = rows_after (sn_rows snap) cs ∧
    promote_batch snap' task (build_ctx (sn_rows snap')) = [] ∧
    (cs = [] → snap' = snap).
Proof.
  revert snap. induction fuel as [|fuel IH]; intros snap Hg Hf.
  { pose proof (total_nonneg plain_pending (sn_rows snap) (λ r, proj1 (plain_pending_range r))). lia. }
  cbn [phase_promote]. set (batch := promote_batch snap task (build_ctx (sn_rows snap))).
  case_bool_decide as Hb; [by exists snap, []|].
  pose proof (promote_batch_valid snap task (build_ctx (sn_rows snap)) Hg) as Hv.
  destruct (promote_batch_settles snap task (build_ctx (sn_rows snap)) Hg) as [Hs Ht].
  fold batch in Hv, Hs, Ht. destruct (apply_all_valid snap batch Hg Hv) as [Hg' Er].
  destruct (IH (apply_all snap batch) Hg') as (snap' & cs & E & Hg'' & Hvs & Er' & He & _).
  { rewrite Er, settles_plain_batch; [|apply Hg|done|done].
    assert (length batch ≠ 0)%nat by (by destruct batch). lia. }
  rewrite E. simpl. exists snap', (batch ++ cs). split_and!; [done|done| | |done|].
  - rewrite valid_seq_app, <-Er. done.
  - rewrite rows_after_app, <-Er. done.
  - intros Happ. by destruct batch.
Qed.

(** ** Phase 0 *)

Lemma elem_of_loop_instances rows ph r :
  r ∈ loop_instances rows ph ↔ r ∈ rows ∧ js_loop_source r = Some ph.
Proof.
  unfold loop_instances, sort_by_key. rewrite elem_of_sort_by, list_elem_of_filter. naive_solver.
Qed.

Lemma NoDup_loop_instances rows ph : NoDup rows → NoDup (loop_instances rows ph).
Proof.
  intros Hnd. unfold loop_instances, sort_by_key. rewrite sort_by_perm. by apply NoDup_filter.
Qed.

(** What R5 promotes: a pending instance, the successor of a terminal one. *)
Lemma advance_from_spec instances i c :
  c ∈ advance_from instances i →
  ∃ idx next, js_loop_index i = Some idx ∧ next ∈ instances ∧
    js_loop_index next = Some (i32_wrap (idx + 1)) ∧ js_status next = "pending" ∧
    advance_from instances i = [c] ∧ c = Promote (js_step_name next).
Proof.
  unfold advance_from. destruct (js_loop_index i) as [idx|]; [|by intros ?%elem_of_nil].
  destruct (find _ _) as [next|] eqn:E; [|by intros ?%elem_of_nil].
  intros ->%list_elem_of_singleton. apply find_some in E as [Hin Hp].
  apply andb_true_iff in Hp as [Hi%bool_decide_eq_true Hs%bool_decide_eq_true].
  apply list_elem_of_In in Hin. exists idx, next. done.
Qed.

Section one_loop.
Context (rows : list JobStepRow) (ph : JobStepRow) (task : TaskDef).
Hypothesis Hwf : wf_rows rows.
Hypothesis Hph : ph ∈ rows.
Hypothesis Hplace : is_placeholder ph = true.
Hypothesis Hrun : js_status ph = "running".
Abbreviation instances := (loop_instances rows (js_step_name ph)).

Lemma instance_index r : r ∈ instances →
  ∃ i, js_step_name r = instance_name (js_step_name ph) i ∧ js_loop_index r = Some (Z.of_nat i) ∧
       (Z.of_nat i < MAX_FOR_EACH_ITEMS)%Z ∧ js_for_each_expr r = None.
Proof. intros [Hr Hs]%elem_of_loop_instances. by apply (wf_source _ Hwf). Qed.

Lemma instance_by_index r r' :
  r ∈ instances → r' ∈ instances → js_loop_index r = js_loop_index r' → r = r'.
Proof.
  intros Hr Hr' E. destruct (instance_index r Hr) as (i & Hn & Hi & _).
  destruct (instance_index r' Hr') as (j & Hn' & Hj & _).
  apply (rows_name_inj rows); [apply Hwf|by apply elem_of_loop_instances in Hr as [? _]
    |by apply elem_of_loop_instances in Hr' as [? _]|].
  rewrite Hn, Hn'. f_equal. rewrite Hi, Hj in E. injection E. lia.
Qed.

Lemma placeholder_not_instance r : r ∈ instances → js_step_name r ≠ js_step_name ph.
Proof.
  intros Hr E. destruct (instance_index r Hr) as (i & _ & _ & _ & Hn).
  apply elem_of_loop_instances in Hr as [Hr _].
  assert (r = ph) as -> by (apply (rows_name_inj rows); [apply Hwf|done..]).
  unfold is_placeholder in Hplace. by rewrite Hn in Hplace.
Qed.

(** A change phase 0 makes for this loop. *)
Definition loop_change (c : Change) : Prop :=
  valid rows c ∧ change_instances c = [] ∧
  (change_target c = js_step_name ph ∨ ∃ r, r ∈ instances ∧ change_target c = js_step_name r).

Lemma advance_valid :
  Forall loop_change (advance instances) ∧ NoDup (change_target <$> advance instances) ∧
  Forall (λ c, change_target c ≠ js_step_name ph) (advance instances).
Proof.
  unfold advance. split_and!.
  - apply Forall_flat_map'. intros i Hi. apply Forall_forall. intros c Hc.
    apply advance_from_spec in Hc as (idx & next & _ & Hn & _ & Hp & _ & ->).
    destruct (instance_index next Hn) as (k & _ & _ & _ & Hnone).
    pose proof (proj1 (elem_of_loop_instances _ _ _) Hn) as [Hr _].
    split_and!; [exists next; done|done|]. right. by exists next.
  - rewrite fmap_flat_map. apply NoDup_flat_map.
    + apply NoDup_lfilter, NoDup_loop_instances, NoDup_rows, Hwf.
    + intros i _. destruct (list_cases (advance_from instances i)) as [->|[c Hc]]; [constructor|].
      apply advance_from_spec in Hc as (_ & next & _ & _ & _ & _ & -> & ->). apply NoDup_singleton.
    + intros a b x [Ha _]%elem_of_lfilter [Hb _]%elem_of_lfilter
        (c & Hxc & Hc)%list_elem_of_fmap (d & Hxd & Hd)%list_elem_of_fmap.
      apply advance_from_spec in Hc as (ia & na & Ia & Na & Wa & _ & _ & ->).
      apply advance_from_spec in Hd as (ib & nb & Ib & Nb & Wb & _ & _ & ->).
      simplify_eq/=.
      assert (na = nb) as -> by (apply (rows_name_inj rows); [apply Hwf|..|done];
        by apply elem_of_loop_instances in Na as [? _], Nb as [? _]).
      apply instance_by_index; [done..|]. rewrite Ia, Ib. f_equal.
      destruct (instance_index a Ha) as (i & _ & Hi & Li & _).
      destruct (instance_index b Hb) as (j & _ & Hj & Lj & _).
      rewrite Wa in Wb. unfold MAX_FOR_EACH_ITEMS in *. simplify_eq.
      rewrite !i32_wrap_id in Wb by (unfold is_i32, i32_min, i32_max; lia). lia.
  - apply Forall_flat_map'. intros i Hi. apply Forall_forall. intros c Hc.
    apply advance_from_spec in Hc as (idx & next & _ & Hn & _ & Hp & _ & ->).
    by apply placeholder_not_instance.
Qed.

Lemma rollup_change_valid :
  Forall loop_change (rollup_change (js_step_name ph) instances) ∧
  NoDup (change_target <$> rollup_change (js_step_name ph) instances) ∧
  Forall (λ c, change_target c = js_step_name ph) (rollup_change (js_step_name ph) instances).
Proof.
  unfold rollup_change. destruct (forallb _ _) eqn:Hall; [|repeat split; constructor].
  split_and!; [|apply NoDup_singleton|by repeat constructor].
  apply Forall_singleton. split_and!; [|done|by left]. exists ph. split_and!; [done..|].
  intros i Hi Hs. rewrite forallb_forall in Hall. apply Hall, list_elem_of_In.
  by apply elem_of_loop_instances.
Qed.

Lemma skips_valid (pending : list JobStepRow) :
  NoDup pending → (∀ r, r ∈ pending → r ∈ instances ∧ js_status r = "pending") →
  let cs := map (λ i, Skip (js_step_name i) Unreachable) pending in
  Forall loop_change cs ∧ NoDup (change_target <$> cs).
Proof.
  intros Hnd Hin cs. split.
  - apply Forall_forall. intros c (r & <- & Hr)%list_elem_of_In%in_map_iff.
    apply list_elem_of_In in Hr. destruct (Hin r Hr) as [Hi Hp].
    pose proof (proj1 (elem_of_loop_instances _ _ _) Hi) as [Hr' _].
    destruct (instance_index r Hi) as (_ & _ & _ & _ & Hnone).
    split_and!; [|done|right; by exists r]. exists r. split_and!; [done..|].
    unfold is_placeholder. by rewrite Hnone.
  - assert (change_target <$> cs = names pending) as ->.
    { subst cs. clear. induction pending as [|r l IH]; [done|]. simpl. f_equal. exact IH. }
    apply NoDup_fmap_2_strong; [|done]. intros a b Ha Hb E. destruct (Hin a Ha), (Hin b Hb).
    apply (rows_name_inj rows); [apply Hwf|by eapply elem_of_loop_instances..|done].
Qed.
End one_loop.

Lemma rollup_placeholder_valid snap task ph :
  wf_rows (sn_rows snap) → ph ∈ sn_rows snap → is_placeholder ph = true → js_status ph = "running" →
  Forall (loop_change (sn_rows snap) ph) (rollup_placeholder snap task ph) ∧
  NoDup (change_target <$> rollup_placeholder snap task ph).
Proof.
  intros Hwf Hph Hpl Hrun. unfold rollup_placeholder. case_bool_decide; [split; constructor|].
  destruct (_ && _ && _ && _).
  - apply skips_valid; [done|apply NoDup_lfilter, NoDup_loop_instances, NoDup_rows, Hwf|].
    intros r [Hr Hs%bool_decide_eq_true]%elem_of_lfilter. done.
  - destruct (advance_valid (sn_rows snap) ph Hwf Hph Hpl) as (Ha & Hna & Hta).
    destruct (rollup_change_valid (sn_rows snap) ph Hph Hpl Hrun) as (Hr & Hnr & Htr).
    destruct (default false _); [|done]. split; [by apply Forall_app|].
    rewrite fmap_app. apply NoDup_app. split_and!; [done| |done].
    intros x (c & -> & Hc)%list_elem_of_fmap (d & Ed & Hd)%list_elem_of_fmap.
    rewrite Forall_forall in Hta, Htr. apply (Hta c Hc). by rewrite Ed, (Htr d Hd).
Qed.

Lemma phase_rollup_valid snap task : good snap → valid_seq (sn_rows snap) (phase_rollup snap task).
Proof.
  intros [Hx Hwf]. unfold phase_rollup.
  set (sel := List.filter _ _).
  assert (Hsel : ∀ r, r ∈ sel → r ∈ sn_rows snap ∧ is_placeholder r = true ∧ js_status r = "running").
  { intros r [Hr [Hp Hs%bool_decide_eq_true]%andb_true_iff]%elem_of_lfilter. done. }
  apply valid_batch; [done| |].
  - apply Forall_flat_map'. intros r Hr. destruct (Hsel r Hr) as (? & ? & ?).
    eapply Forall_impl; [by apply rollup_placeholder_valid|]. intros c Hc. apply Hc.
  - rewrite fmap_flat_map. apply NoDup_flat_map; [apply NoDup_lfilter, NoDup_rows, Hwf| |].
    + intros r Hr. destruct (Hsel r Hr) as (? & ? & ?). by apply rollup_placeholder_valid.
    + intros a b x Ha Hb (c & -> & Hc)%list_elem_of_fmap (d & Hxd & Hd)%list_elem_of_fmap.
      destruct (Hsel a Ha) as (Ra & Pa & Sa), (Hsel b Hb) as (Rb & Pb & Sb).
      destruct (rollup_placeholder_valid snap task a Hwf Ra Pa Sa) as [Fa _].
      destruct (rollup_placeholder_valid snap task b Hwf Rb Pb Sb) as [Fb _].
      rewrite Forall_forall in Fa, Fb. destruct (Fa c Hc) as (_ & Ic & Tc), (Fb d Hd) as (_ & Id & Td).
      rewrite Hxd in Tc.
      destruct Tc as [Tc|(r & Hr & Tc)], Td as [Td|(r' & Hr' & Td)].
      * apply (rows_name_inj (sn_rows snap)); [apply Hwf|done..|congruence].
      * exfalso. eapply (placeholder_not_instance (sn_rows snap) b Hwf Rb Pb r' Hr').
        rewrite <-Td, Tc. destruct (instance_index (sn_rows snap) b Hwf r' Hr') as (_ & _ & _ & _ & Hn).
        apply elem_of_loop_instances in Hr' as [Hr' _].
        assert (r' = a) as -> by (apply (rows_name_inj (sn_rows snap)); [apply Hwf|done..|congruence]).
        unfold is_placeholder in Pa. by rewrite Hn in Pa.
      * exfalso. destruct (instance_index (sn_rows snap) a Hwf r Hr) as (_ & _ & _ & _ & Hn).
        apply elem_of_loop_instances in Hr as [Hr _].
        assert (r = b) as -> by (apply (rows_name_inj (sn_rows snap)); [apply Hwf|done..|congruence]).
        unfold is_placeholder in Pb. by rewrite Hn in Pb.
      * apply elem_of_loop_instances in Hr as [Hr Sr], Hr' as [Hr' Sr'].
        assert (r = r') as <- by (apply (rows_name_inj (sn_rows snap)); [apply Hwf|done..|congruence]).
        apply (rows_name_inj (sn_rows snap)); [apply Hwf|done..|congruence].
Qed.

(** ** Phase 3 *)

Lemma expand_row_valid snap job_id fs ctx r :
  indexed snap → r ∈ sn_rows snap → js_status r = "pending" → is_placeholder r = true →
  Snapshot.status snap (instance_name (js_step_name r) 0) = None →
  change_target (expand_row job_id fs ctx r) = js_step_name r ∧
  valid (sn_rows snap) (expand_row job_id fs ctx r).
Proof.
  intros Hx Hr Hs Hp Hz. unfold expand_row.
  assert (Hni : instance_name (js_step_name r) 0 ∉ names (sn_rows snap)).
  { apply (snapshot_row_None snap); [done|]. unfold Snapshot.status in Hz. by destruct (Snapshot.row _ _). }
  destruct (parse_for_each_items _ _) as [items|e]; [|split; [done|by exists r]].
  destruct (Z.eqb_spec (Z.of_nat (length items)) 0) as [|Hne]; [split; [done|by exists r]|].
  destruct (Z.ltb_spec MAX_FOR_EACH_ITEMS (Z.of_nat (length items))) as [|Hle];
    [split; [done|by exists r]|].
  split; [done|]. exists r. split_and!; [done..| |].
  - split_and!.
    + intros E%(f_equal length). rewrite length_imap in E. simpl in E. lia.
    + by rewrite length_imap.
    + intros i inst. rewrite list_lookup_imap. destruct (items !! i) as [item|]; [|done].
      simpl. intros [= <-]. simpl. split_and!; try done.
      destruct (sequential fs); simpl; [|by left]. destruct (Nat.ltb_spec 0 i); simpl; auto.
  - done.
Qed.

Lemma placeholder_row_valid snap task ctx job_id r :
  indexed snap → r ∈ sn_rows snap → js_status r = "pending" → is_placeholder r = true →
  placeholder_row snap task ctx job_id r = [] ∨
  ∃ c, placeholder_row snap task ctx job_id r = [c] ∧ change_target c = js_step_name r ∧
       valid (sn_rows snap) c.
Proof.
  intros Hx Hr Hs Hp. unfold placeholder_row. destruct (flow task !! _) as [fs|]; [|by left].
  destruct (Snapshot.status _ _) as [st|] eqn:Hz.
  { right. eexists. split_and!; [done|done|]. exists r. split_and!; [done..|].
    unfold Snapshot.status in Hz. destruct (Snapshot.row _ _) as [r0|] eqn:E; [|done].
    apply snapshot_row_Some in E as [Hr0 En]; [|done]. simpl. rewrite <-En. by apply list_elem_of_fmap_2. }
  assert (Hni : instance_name (js_step_name r) 0 ∉ names (sn_rows snap)).
  { apply (snapshot_row_None snap); [done|]. unfold Snapshot.status in Hz. by destruct (Snapshot.row _ _). }
  destruct (gate_for snap fs); [|by left|right; eexists; split_and!; [done|done|by exists r]].
  right. destruct (js_when_condition r ≫= _) as [c|] eqn:Hw.
  - apply bind_Some in Hw as (w & _ & Hw). exists c.
    destruct (when_change_spec _ _ _ _ Hw) as [->|[e ->]]; split_and!; done || by exists r.
  - eexists. split; [done|]. by apply expand_row_valid.
Qed.

Lemma phase_placeholders_valid snap task ctx job_id :
  good snap → valid_seq (sn_rows snap) (phase_placeholders snap task ctx job_id).
Proof.
  intros [Hx Hwf]. unfold phase_placeholders. destruct ctx as [ctx|]; [|done].
  apply one_change_per_row; [done| | |].
  - by intros r [Hr _]%elem_of_lfilter.
  - apply NoDup_lfilter, NoDup_rows, Hwf.
  - intros r [Hr [Hs%bool_decide_eq_true Hp]%andb_true_iff]%elem_of_lfilter.
    by apply placeholder_row_valid.
Qed.
End phases.

(** ** Outcomes only settle *)

Lemma unsettled_outcome r :
  js_status r = "pending" ∨ js_status r = "running" → from_row (js_status r) (js_skip_reason r) = DepPending.
Proof. by intros [-> | ->]. Qed.

(** The outcome of a name in a list of rows. *)
Definition rows_outcome (rows : list JobStepRow) (n : string) (d : DepOutcome) : Prop :=
  ∃ r, r ∈ rows ∧ js_step_name r = n ∧ from_row (js_status r) (js_skip_reason r) = d.

Lemma snapshot_outcome snap n d :
  indexed snap → d ≠ DepPending → Snapshot.outcome snap n = d ↔ rows_outcome (sn_rows snap) n d.
Proof.
  intros Hx Hd. unfold Snapshot.outcome, rows_outcome. split.
  - destruct (Snapshot.row snap n) as [r|] eqn:E; [|naive_solver].
    apply snapshot_row_Some in E as [? ?]; [|done]. naive_solver.
  - intros (r & Hr & Hn & Ho). assert (Snapshot.row snap n = Some r) as -> by by apply snapshot_row_Some.
    done.
Qed.

Lemma rows_outcome_after rows cs n d :
  wf_rows rows → valid_seq rows cs → d ≠ DepPending →
  rows_outcome rows n d → rows_outcome (rows_after rows cs) n d.
Proof.
  revert rows. induction cs as [|c cs IH]; intros rows Hwf Hv Hd Ho; [done|]. destruct Hv as [Hv Hvs].
  apply (IH (rows_apply rows c)); [by apply valid_wf|done|done|].
  destruct Ho as (r & Hr & Hn & Ho). exists r. split_and!; [|done|done].
  apply rows_apply_keeps; [done|]. intros E.
  pose proof (valid_target_unsettled rows c r (wf_names _ Hwf) Hv Hr E) as Hs.
  by rewrite (unsettled_outcome r Hs) in Ho.
Qed.

(** Along a legal sequence the settled outcomes stay. *)
Lemma outcomes_extend_after snap snap' cs :
  good snap → indexed snap' → valid_seq (sn_rows snap) cs →
  sn_rows snap' = rows_after (sn_rows snap) cs →
  outcomes_extend (Snapshot.outcome snap) (Snapshot.outcome snap').
Proof.
  intros [Hx Hwf] Hx' Hv E n Hd. apply (snapshot_outcome snap' n _ Hx' Hd). rewrite E.
  apply rows_outcome_after; [done..|]. by apply (snapshot_outcome snap n _ Hx Hd).
Qed.

(** ** Decisions *)

(** A change of a flow step agrees with the gate on the outcomes [o]. *)
Definition decision_ok (task : TaskDef) (o : string → DepOutcome) (c : Change) : Prop :=
  match c with
  | Promote n | Skip n (Condition | Empty) | Fail n _ =>
      ∀ fs, flow task !! n = Some fs → gate o (depends_on fs) = GateOpen
  | Expand n insts =>
      ∃ fs, flow task !! n = Some fs ∧ gate o (depends_on fs) = GateOpen ∧
        ∀ inst, inst ∈ insts → nj_status inst = "pending" → sequential fs = true
  | Skip n (Unreachable | JobModel.Cascade) =>
      ∀ fs, flow task !! n = Some fs → gate o (depends_on fs) = GateOmitted
  | Adopt _ | Rollup _ _ => True
  end.

Lemma decision_ok_extend task o o' c :
  outcomes_extend o o' → decision_ok task o c → decision_ok task o' c.
Proof.
  intros He. assert (Hg : ∀ deps, gate o deps ≠ GateWait → gate o' deps = gate o deps)
    by (intros; by apply gate_decision_final).
  destruct c as [n|n []|n e|n insts|n|n out]; simpl; try done;
    try (intros Hd fs Hfs; specialize (Hd fs Hfs); rewrite Hg; rewrite Hd; done).
  intros (fs & Hfs & Hd & Hi). exists fs. split_and!; [done| |done]. rewrite Hg; by rewrite Hd.
Qed.

Lemma decisions_extend task o o' cs :
  outcomes_extend o o' → Forall (decision_ok task o) cs → Forall (decision_ok task o') cs.
Proof. intros He Hcs. eapply Forall_impl; [done|]. intros c. by apply decision_ok_extend. Qed.

Section decisions.
Context `{TemplateEngine, JsonParser}.
Context (task : TaskDef).
(** Flow steps are not named like loop instances ([validation.rs] rejects
    brackets in step names). *)
Definition flow_names_ok : Prop := ∀ p i, flow task !! instance_name p i = None.

Lemma promote_row_decision snap ctx r :
  Forall (decision_ok task (Snapshot.outcome snap)) (promote_row snap task ctx r).
Proof.
  unfold promote_row. destruct (flow task !! js_step_name r) as [fs|] eqn:Hf; [|constructor].
  destruct (gate_for snap fs) eqn:Hg; unfold gate_for in Hg; [|constructor|].
  - destruct (js_when_condition r) as [w|]; [destruct ctx as [c|]; [|constructor]|];
      apply Forall_singleton.
    + destruct (when_change _ _ _) as [ch|] eqn:E; simpl.
      * destruct (when_change_spec _ _ _ _ E) as [->|[e ->]]; simpl; congruence.
      * congruence.
    + simpl. congruence.
  - apply Forall_singleton. simpl. congruence.
Qed.

Lemma placeholder_row_decision snap ctx job_id r :
  Forall (decision_ok task (Snapshot.outcome snap)) (placeholder_row snap task ctx job_id r).
Proof.
  unfold placeholder_row. destruct (flow task !! js_step_name r) as [fs|] eqn:Hf; [|constructor].
  destruct (Snapshot.status _ _); [by apply Forall_singleton|].
  destruct (gate_for snap fs) eqn:Hg; unfold gate_for in Hg; [|constructor|].
  - destruct (js_when_condition r ≫= _) as [c|] eqn:Hw; apply Forall_singleton.
    + apply bind_Some in Hw as (w & _ & Hw).
      destruct (when_change_spec _ _ _ _ Hw) as [->|[e ->]]; simpl; congruence.
    + unfold expand_row. repeat case_match; simpl; try congruence.
      exists fs. split_and!; [done|done|]. intros inst (i & Hl)%list_elem_of_lookup_1.
      rewrite list_lookup_imap in Hl. apply fmap_Some in Hl as (item & _ & ->). simpl.
      by destruct (sequential fs).
  - apply Forall_singleton. simpl. congruence.
Qed.

Lemma phase_rollup_decision snap :
  flow_names_ok → good snap → Forall (decision_ok task (Snapshot.outcome snap)) (phase_rollup snap task).
Proof.
  intros Hfl [Hx Hwf]. unfold phase_rollup. apply Forall_flat_map'.
  intros ph [Hph [Hpl Hrun%bool_decide_eq_true]%andb_true_iff]%elem_of_lfilter.
  destruct (rollup_placeholder_valid snap task ph Hwf Hph Hpl Hrun) as [Hv _].
  rewrite Forall_forall in Hv |- *. intros c Hc. destruct (Hv c Hc) as ((rt & Hrt & Hnt & Ht) & Hi & Hor).
  destruct Hor as [Htgt|(r & Hr & Htgt)].
  - assert (rt = ph) as -> by (apply (rows_name_inj (sn_rows snap)); [apply Hwf|done..|congruence]).
    assert (js_status ph ≠ "pending") by by rewrite Hrun.
    destruct c as [n|n []|n e|n insts|n|n out]; simpl in *; done || (destruct Ht; done).
  - destruct (instance_index (sn_rows snap) ph Hwf r Hr) as (i & Hni & _ & _ & _).
    destruct c as [n|n []|n e|n insts|n|n out]; simpl in *; try done;
      try (intros fs Hfs; rewrite Htgt, Hni, Hfl in Hfs; done).
    by destruct Ht as (_ & _ & (Hne & _) & _).
Qed.

Lemma phase_promote_reaches build_ctx fuel snap snap' cs :
  good snap → phase_promote fuel task build_ctx snap = Some (snap', cs) →
  good snap' ∧ valid_seq (sn_rows snap) cs ∧ sn_rows snap' = rows_after (sn_rows snap) cs.
Proof.
  revert snap cs. induction fuel as [|fuel IH]; intros snap cs Hg E; [done|]. cbn [phase_promote] in E.
  case_bool_decide; [by simplify_eq|].
  apply bind_Some in E as ([s2 rest] & E & [= -> <-]).
  pose proof (promote_batch_valid snap task (build_ctx (sn_rows snap)) Hg) as Hv.
  destruct (apply_all_valid snap _ Hg Hv) as [Hg' Er].
  destruct (IH _ _ Hg' E) as (? & ? & E').
  rewrite valid_seq_app, rows_after_app, <-Er. done.
Qed.

Lemma phase_promote_decision build_ctx fuel snap snap' cs :
  good snap → phase_promote fuel task build_ctx snap = Some (snap', cs) →
  Forall (decision_ok task (Snapshot.outcome snap')) cs.
Proof.
  revert snap snap' cs. induction fuel as [|fuel IH]; intros snap snap' cs Hg; [done|].
  cbn [phase_promote]. set (batch := promote_batch snap task (build_ctx (sn_rows snap))).
  case_bool_decide as Hb; [intros [= <- <-]; constructor|].
  pose proof (promote_batch_valid snap task (build_ctx (sn_rows snap)) Hg) as Hv. fold batch in Hv.
  destruct (apply_all_valid snap batch Hg Hv) as [Hg' Er].
  intros ([s1 rest] & E & [= <- <-])%bind_Some. apply Forall_app. split; [|by eapply IH].
  destruct (phase_promote_reaches _ _ _ _ _ Hg' E) as (Hg1 & Hv1 & E1).
  apply (decisions_extend task (Snapshot.outcome snap)).
  - apply (outcomes_extend_after snap s1 (batch ++ rest)); [done|apply Hg1| |].
    + by rewrite valid_seq_app, <-Er.
    + by rewrite rows_after_app, <-Er.
  - apply Forall_flat_map'. intros r _. apply promote_row_decision.
Qed.
End decisions.

(** ** The fixpoint *)

Section fixpoint.
Context `{TemplateEngine, JsonParser}.
Context (task : TaskDef) (build_ctx : list JobStepRow → option json) (job_id : Uuid).

(** A pass that changes nothing. *)
Definition stable (snap : Snapshot) : Prop :=
  phase_rollup snap task = [] ∧ promote_batch snap task (build_ctx (sn_rows snap)) = [] ∧
  phase_placeholders snap task (build_ctx (sn_rows snap)) job_id = [].

Lemma total_plain_le rows : (total plain_pending rows ≤ Z.of_nat (length rows))%Z.
Proof. apply total_le_length, Forall_forall. intros r _. apply plain_pending_range. Qed.

Lemma cascade_pass_spec snap :
  good snap →
  ∃ snap' cs, cascade_pass task build_ctx job_id snap = Some (snap', cs) ∧ good snap' ∧
    valid_seq (sn_rows snap) cs ∧ sn_rows snap' = rows_after (sn_rows snap) cs ∧
    (cs = [] → snap' = snap ∧ stable snap).
Proof.
  intros Hg. unfold cascade_pass.
  pose proof (phase_rollup_valid snap task Hg) as V0.
  destruct (apply_all_valid snap _ Hg V0) as [Hg0 E0].
  destruct (phase_promote_spec task build_ctx (S (length (sn_rows (apply_all snap (phase_rollup snap task)))))
              _ Hg0) as (snap1 & p1 & -> & Hg1 & V1 & E1 & Hdone & Hnil).
  { pose proof (total_plain_le (sn_rows (apply_all snap (phase_rollup snap task)))). lia. }
  simpl. pose proof (phase_placeholders_valid snap1 task (build_ctx (sn_rows snap1)) job_id Hg1) as V3.
  destruct (apply_all_valid snap1 _ Hg1 V3) as [Hg3 E3].
  eexists _, _. split; [reflexivity|]. split_and!; [done| | |].
  - rewrite !valid_seq_app, <-E0, <-E1. done.
  - rewrite !rows_after_app, <-E0, <-E1. done.
  - intros [Hz [H1 H3]%app_eq_nil]%app_eq_nil. specialize (Hnil H1). unfold stable.
    rewrite Hz in *. cbn [apply_all fold_left] in *. subst snap1. rewrite H3. done.
Qed.

Lemma run_loop_spec n snap :
  good snap → (measure (sn_rows snap) < Z.of_nat n)%Z →
  ∃ snap' cs, run_loop n task build_ctx job_id snap = Some (snap', cs, false) ∧ good snap' ∧
    valid_seq (sn_rows snap) cs ∧ sn_rows snap' = rows_after (sn_rows snap) cs ∧ stable snap'.
Proof.
  revert snap. induction n as [|n IH]; intros snap Hg Hn.
  { pose proof (measure_nonneg (sn_rows snap)). lia. }
  cbn [run_loop]. destruct (cascade_pass_spec snap Hg) as (snap1 & pass & -> & Hg1 & V1 & E1 & Hnil).
  simpl. case_bool_decide as Hp.
  { subst pass. destruct (Hnil eq_refl) as [-> Hst]. by exists snap, []. }
  destruct (IH snap1 Hg1) as (snap2 & cs & -> & Hg2 & V2 & E2 & Hst).
  { pose proof (valid_seq_measure _ _ (proj2 Hg) V1) as Hm. rewrite E1.
    assert (length pass ≠ 0)%nat by (by destruct pass). lia. }
  simpl. exists snap2, (pass ++ cs). split_and!; [done|done| | |done].
  - by rewrite valid_seq_app, <-E1.
  - by rewrite rows_after_app, <-E1.
Qed.

(** The measure of the initial rows is below the pass bound. *)
Lemma measure_lt_bound rows : (measure rows < pass_bound rows)%Z.
Proof.
  unfold pass_bound, measure. cbv zeta.
  assert ((total weight rows ≤ Z.of_nat (length rows) + (MAX_FOR_EACH_ITEMS + 1) * Z.of_nat (length
    (List.filter (λ r, is_placeholder r && (js_status r ==? "pending")) rows)))%Z); [|unfold MAX_FOR_EACH_ITEMS in *; lia].
  induction rows as [|r rows IH]; simpl; [unfold MAX_FOR_EACH_ITEMS; lia|].
  unfold weight at 1. unfold MAX_FOR_EACH_ITEMS in *.
  destruct (bool_decide_reflect (js_status r = "pending")), (is_placeholder r);
    cbn [andb]; rewrite ?andb_true_r, ?andb_false_r; cbn [length]; try lia.
  all: case_match; lia.
Qed.

Lemma fixpoint_spec steps :
  wf_rows steps →
  ∃ snap cs, fixpoint task job_id steps build_ctx = Some (snap, cs, false) ∧ good snap ∧
    valid_seq steps cs ∧ sn_rows snap = rows_after steps cs ∧ stable snap.
Proof.
  intros Hwf. unfold fixpoint. apply (run_loop_spec _ (Snapshot.new steps) (good_new _ Hwf)).
  simpl. pose proof (measure_lt_bound steps). pose proof (measure_nonneg steps). lia.
Qed.
End fixpoint.
