(* ===== verification/CascadeSpec.v ===== *)
(** * What the cascade promises

    Termination within the pass bound, idempotence, agreement of every
    decision with the dependency gate, the frame, and that a job with work
    left is never stalled. *)
From S2P Require Import Prelude Json Template JobModel DependsOn Gate Workflow Dag Db StepRepo Cascade CascadeRows CascadeProps.

Section spec.
Context `{TemplateEngine, JsonParser}.
Context (task : TaskDef) (build_ctx : list JobStepRow → option json) (job_id : Uuid).

Lemma cascade_pass_decisions snap snap' cs :
  flow_names_ok task → good snap → cascade_pass task build_ctx job_id snap = Some (snap', cs) →
  Forall (decision_ok task (Snapshot.outcome snap')) cs.
Proof.
  intros Hfl Hg E. unfold cascade_pass in E. apply bind_Some in E as ([s1 p1] & E1 & [= <- <-]).
  pose proof (phase_rollup_valid snap task Hg) as V0.
  destruct (apply_all_valid snap _ Hg V0) as [Hg0 R0].
  destruct (phase_promote_reaches task _ _ _ _ _ Hg0 E1) as (Hg1 & V1 & R1).
  pose proof (phase_placeholders_valid s1 task (build_ctx (sn_rows s1)) job_id Hg1) as V3.
  destruct (apply_all_valid s1 _ Hg1 V3) as [Hg3 R3].
  pose proof (outcomes_extend_after s1 _ _ Hg1 (proj1 Hg3) V3 R3) as X3.
  pose proof (outcomes_extend_after _ s1 _ Hg0 (proj1 Hg1) V1 R1) as X1.
  pose proof (outcomes_extend_after snap _ _ Hg (proj1 Hg0) V0 R0) as X0.
  rewrite !Forall_app. split_and!.
  - apply (decisions_extend _ _ _ _ (transitivity X0 (transitivity X1 X3))).
    by apply phase_rollup_decision.
  - apply (decisions_extend _ _ _ _ X3). exact (phase_promote_decision task _ _ _ _ _ Hg0 E1).
  - apply (decisions_extend _ _ _ _ X3). unfold phase_placeholders. case_match; [|constructor].
    apply Forall_flat_map'. intros r _. apply placeholder_row_decision.
Qed.

Lemma run_loop_decisions n snap snap' cs hit :
  flow_names_ok task → good snap → run_loop n task build_ctx job_id snap = Some (snap', cs, hit) →
  Forall (decision_ok task (Snapshot.outcome snap')) cs ∧
  outcomes_extend (Snapshot.outcome snap) (Snapshot.outcome snap').
Proof.
  intros Hfl. revert snap cs. induction n as [|n IH]; intros snap cs Hg E; cbn [run_loop] in E;
    [by simplify_eq|].
  apply bind_Some in E as ([s1 pass] & E1 & E).
  destruct (cascade_pass_spec task build_ctx job_id snap Hg) as (s1' & cs' & E1' & Hg1 & V1 & R1 & Hnil).
  rewrite E1 in E1'. simplify_eq.
  pose proof (outcomes_extend_after snap _ _ Hg (proj1 Hg1) V1 R1) as X1.
  pose proof (cascade_pass_decisions _ _ _ Hfl Hg E1) as D1.
  case_bool_decide as Hp; [by simplify_eq|].
  apply bind_Some in E as ([[s2 rest] hit'] & E2 & [= <- <- <-]).
  destruct (IH _ _ Hg1 E2) as [D2 X2]. split; [|exact (transitivity X1 X2)].
  apply Forall_app. split; [by apply (decisions_extend _ _ _ _ X2)|done].
Qed.

(** C4. The cascade fixpoint always ends by itself. On the rows of a job it
    returns before the pass bound it guards against (so the warning is
    unreachable and the debug assertion never fires), its inner promotion
    loop ends too, and its plan is a legal sequence: each change is made on
    a row in the state the change expects (pending, or a running
    placeholder), an expansion never inserts a name that exists, and the
    plan has at most as many changes as the weight of the rows. *)
Theorem cascade_terminates steps redact :
  wf_rows steps →
  ∃ snap cs, fixpoint task job_id steps build_ctx = Some (snap, cs, false) ∧
    run task job_id steps build_ctx redact = Some (map (scrub redact) cs) ∧
    valid_seq steps cs ∧ sn_rows snap = rows_after steps cs ∧ wf_rows (sn_rows snap) ∧
    (Z.of_nat (length cs) ≤ measure steps < pass_bound steps)%Z.
Proof.
  intros Hwf. destruct (fixpoint_spec task build_ctx job_id steps Hwf) as (snap & cs & E & Hg & V & R & _).
  exists snap, cs. unfold run. rewrite E. simpl. split_and!; [done..|apply Hg| |apply measure_lt_bound].
  pose proof (valid_seq_measure _ _ Hwf V). pose proof (measure_nonneg (rows_after steps cs)). lia.
Qed.

(** The cascade is idempotent: run on the rows it has just produced, it
    plans nothing. *)
Theorem cascade_idempotent steps snap cs hit :
  wf_rows steps → fixpoint task job_id steps build_ctx = Some (snap, cs, hit) →
  fixpoint task job_id (sn_rows snap) build_ctx = Some (snap, [], false).
Proof.
  intros Hwf E. destruct (fixpoint_spec task build_ctx job_id steps Hwf) as (s & cs' & E' & Hg & _ & _ & Hst).
  rewrite E in E'. simplify_eq. unfold fixpoint.
  rewrite <-(indexed_new s (proj1 Hg)).
  destruct (cascade_pass_spec task build_ctx job_id s Hg) as (s1 & pass & E1 & Hg1 & V1 & R1 & _).
  assert (Hp : cascade_pass task build_ctx job_id s = Some (s, [])).
  { destruct Hst as (S0 & S1 & S3). unfold cascade_pass. rewrite S0.
    cbn [apply_all fold_left phase_promote]. rewrite S1. simpl. by rewrite S3. }
  assert (Z.to_nat (pass_bound (sn_rows s)) ≠ 0)%nat as Hb.
  { pose proof (measure_lt_bound (sn_rows s)). pose proof (measure_nonneg (sn_rows s)). lia. }
  destruct (Z.to_nat (pass_bound (sn_rows s))); [done|]. cbn [run_loop]. by rewrite Hp.
Qed.

(** C1. Every decision of the plan is right about the rows it leaves behind,
    not only about the intermediate rows it was taken on: a flow step the
    plan promotes, expands, or skips or fails on its own condition has an
    open gate at the end, a flow step it skips as unreachable has a gate
    that can never open; and terminal outcomes never change on the way. *)
Theorem cascade_decisions_correct steps snap cs hit :
  wf_rows steps → flow_names_ok task →
  fixpoint task job_id steps build_ctx = Some (snap, cs, hit) →
  Forall (decision_ok task (Snapshot.outcome snap)) cs ∧
  outcomes_extend (Snapshot.outcome (Snapshot.new steps)) (Snapshot.outcome snap).
Proof. intros Hwf Hfl E. eapply run_loop_decisions; [done|by apply good_new|done]. Qed.
End spec.

(** ** Loop results *)

Section rollup.
Context (rows : list JobStepRow) (p : string).
Hypothesis Hwf : wf_rows rows.
Abbreviation insts := (loop_instances rows p).

Definition index_of (r : JobStepRow) : nat := Z.to_nat (default 0%Z (js_loop_index r)).

Lemma loop_instance_index r : r ∈ insts →
  js_step_name r = instance_name p (index_of r) ∧ js_loop_index r = Some (Z.of_nat (index_of r)).
Proof.
  intros [Hr Hs]%elem_of_loop_instances. destruct (wf_source _ Hwf r p Hr Hs) as (i & Hn & Hi & _).
  unfold index_of. rewrite Hi. simpl. by rewrite Nat2Z.id.
Qed.

Lemma loop_instances_increasing : StronglySorted lt (index_of <$> insts).
Proof.
  assert (Hs : StronglySorted (λ a b, default 0 (js_loop_index a) ≤ default 0 (js_loop_index b))%Z insts)
    by apply sort_by_key_sorted.
  assert (Hnd : NoDup insts) by (apply NoDup_loop_instances, NoDup_rows, Hwf).
  pose proof loop_instance_index as Hidx. pose proof (λ r, proj1 (elem_of_loop_instances rows p r)) as Hel.
  revert Hs Hnd Hidx Hel. generalize insts as l. induction 1 as [|a l Hs IH Ha]; intros Hnd Hidx Hel; [constructor|].
  apply NoDup_cons in Hnd as [Hni Hnd]. rewrite fmap_cons. constructor.
  - apply IH; [done|intros r Hr; apply Hidx; by right|intros r Hr; apply Hel; by right].
  - apply Forall_fmap, Forall_forall. intros b Hb. rewrite Forall_forall in Ha. specialize (Ha b Hb).
    destruct (Hidx a) as [Na Ia]; [by left|]. destruct (Hidx b) as [Nb Ib]; [by right|].
    rewrite Ia, Ib in Ha. simpl in Ha. unfold compose.
    assert (index_of a ≠ index_of b); [|lia]. intros E. apply Hni.
    assert (a = b) as ->; [|done].
    apply (rows_name_inj rows); [apply Hwf|apply Hel; by left|apply Hel; by right|]. by rewrite Na, Nb, E.
Qed.

Lemma loop_instances_in_order i r : insts !! i = Some r → js_step_name r = instance_name p i.
Proof.
  intros Hi. assert (Hks : index_of <$> insts = seq 0 (length (index_of <$> insts))).
  { apply increasing_no_gaps; [apply loop_instances_increasing|apply Forall_forall; lia|].
    intros k j (r' & -> & Hr')%list_elem_of_fmap [_ Hj].
    destruct (loop_instance_index r' Hr') as [Hn _].
    apply elem_of_loop_instances in Hr' as [Hr' _].
    assert (instance_name p j ∈ names rows) as (rj & Hnj & Hrj)%list_elem_of_fmap.
    { apply (wf_closed _ Hwf p (index_of r') j Hj). rewrite <-Hn. by apply list_elem_of_fmap_2. }
    apply list_elem_of_fmap. exists rj.
    assert (Hin : rj ∈ insts) by (apply elem_of_loop_instances; split; [done|by eapply (wf_instance _ Hwf)]).
    split; [|done]. destruct (loop_instance_index rj Hin) as [Hn' _]. rewrite Hn' in Hnj.
    by apply instance_name_inj in Hnj as [_ ->]. }
  assert (E : (index_of <$> insts) !! i = Some (index_of r)) by by rewrite list_lookup_fmap, Hi.
  rewrite Hks in E. apply lookup_seq in E as [E _]. simpl in E.
  destruct (loop_instance_index r) as [Hn _]; [by eapply list_elem_of_lookup_2|]. by rewrite Hn, E.
Qed.
End rollup.

(** A loop's rollup reports its instances. It is made only when every
    instance is terminal, its output array holds at position [i] the output
    of instance [i] (null when it produced none), and it is a failure exactly
    when some instance failed, naming the indices of the failed instances in
    order. *)
Theorem rollup_reports_instances rows p outcome :
  wf_rows rows → [Rollup p outcome] = rollup_change p (loop_instances rows p) →
  let insts := loop_instances rows p in
  let outs := JArray (map (λ i, default JNull (js_output i)) insts) in
  Forall (λ r, is_terminal (js_status r) = true) insts ∧
  (∀ i r, insts !! i = Some r → js_step_name r = instance_name p i) ∧
  (∀ r, r ∈ rows → js_loop_source r = Some p → r ∈ insts) ∧
  ((outcome = RollupCompleted outs ∧ ∀ r, r ∈ insts → js_status r ≠ "failed") ∨
   ∃ r, r ∈ insts ∧ js_status r = "failed" ∧
     outcome = RollupFailed ("for_each loop failed: instances " +:+
       debug_ints (omap js_loop_index (List.filter (λ i, js_status i ==? "failed") insts)) +:+
       " failed") outs).
Proof.
  intros Hwf E. unfold rollup_change in E. destruct (forallb _ _) eqn:Hall; [|done].
  rewrite forallb_forall in Hall. simplify_eq. split_and!.
  - apply Forall_forall. intros r Hr. apply Hall. by apply list_elem_of_In.
  - by apply loop_instances_in_order.
  - intros r Hr Hs. by apply elem_of_loop_instances.
  - case_bool_decide as Hf.
    + left. split; [done|]. intros r Hr Hst.
      assert (r ∈ List.filter (λ i, js_status i ==? "failed") (loop_instances rows p)) as Hin
        by (apply elem_of_lfilter; by rewrite Hst).
      rewrite Hf in Hin. by apply elem_of_nil in Hin.
    + right. destruct (List.filter _ _) as [|r l] eqn:El; [done|].
      assert (r ∈ List.filter (λ i, js_status i ==? "failed") (loop_instances rows p)) as Hin
        by (rewrite El; left).
      apply elem_of_lfilter in Hin as [Hin Hst%bool_decide_eq_true]. exists r. done.
Qed.
