(* ===== verification/CascadeLive.v ===== *)
(** * The cascade leaves no job stalled

    The loop invariant the cascade keeps, and the theorem that a validated
    flow with work left always has a step some worker or the server will
    move. *)
From S2P Require Import Prelude Json Template JobModel DependsOn Gate Workflow Dag Db StepRepo Cascade CascadeRows CascadeProps CascadeSpec.

(** A running loop has its first instance; an instance waits only in a
    sequential loop, is not the first, and its placeholder has not ended. *)
Record loops_ok (task : TaskDef) (rows : list JobStepRow) : Prop := {
  lo_first r : r ∈ rows → is_placeholder r = true → js_status r = "running" →
    instance_name (js_step_name r) 0 ∈ names rows;
  lo_pending r p : r ∈ rows → js_loop_source r = Some p → js_status r = "pending" →
    js_step_name r ≠ instance_name p 0 ∧
    (∃ fs, flow task !! p = Some fs ∧ sequential fs = true) ∧
    ∃ ph, ph ∈ rows ∧ js_step_name ph = p ∧ is_placeholder ph = true ∧
          (js_status ph = "pending" ∨ js_status ph = "running");
}.

Lemma change_row_status c r : js_status (change_row c r) ≠ "pending".
Proof. by destruct c as [| | | | |? []]. Qed.

Lemma loops_ok_apply task o rows c :
  wf_rows rows → valid rows c → decision_ok task o c → loops_ok task rows →
  loops_ok task (rows_apply rows c).
Proof.
  intros Hwf Hv Hd [Hfirst Hpend]. pose proof Hv as (rt & Hrt & Hnt & Ht).
  assert (Htarget : ∀ r, r ∈ rows → js_step_name r = change_target c → r = rt).
  { intros r Hr E. apply (rows_name_inj rows); [apply Hwf|done..|congruence]. }
  split.
  - intros r' Hin Hp Hs. rewrite names_rows_apply, elem_of_app.
    apply elem_of_rows_apply in Hin as [(r & Hr & ->)|(inst & Hin & ->)]; [|done].
    destruct (bool_decide_reflect (js_step_name r = change_target c)) as [E|]; [|left; by apply Hfirst].
    rewrite change_row_name, E. assert (r = rt) as -> by auto.
    destruct c as [n|n re|n e|n insts|n|n [out|e out]]; try done; simpl in *.
    + right. destruct Ht as (_ & _ & (Hne & _ & Hi) & _). destruct insts as [|inst insts]; [done|].
      destruct (Hi 0%nat inst eq_refl) as (<- & _). rewrite fmap_cons. left.
    + left. apply Ht.
  - intros r' p Hin Hs Hst. apply elem_of_rows_apply in Hin as [(r & Hr & ->)|(inst & Hin & ->)].
    + case_bool_decide as E; [by apply change_row_status in Hst|].
      destruct (Hpend r p Hr Hs Hst) as (Hn0 & Hfs & ph & Hph & Hnp & Hpp & Hsp). split_and!; [done..|].
      destruct (decide (js_step_name ph = change_target c)) as [Et|Et].
      2:{ exists ph. split_and!; [by apply rows_apply_keeps|done..]. }
      assert (ph = rt) as -> by auto. exists (change_row c rt).
      assert (Hex : instance_name p 0 ∈ names rows).
      { destruct (wf_source _ Hwf r p Hr Hs) as (i & Hni & _).
        apply (wf_closed _ Hwf p i 0); [lia|]. rewrite <-Hni. by apply list_elem_of_fmap_2. }
      rewrite change_row_name. split_and!; [|done| |].
      * apply elem_of_rows_apply. left. exists rt. by rewrite bool_decide_true.
      * unfold is_placeholder in *. destruct (change_row_loop c rt) as (_ & _ & -> & _). done.
      * destruct c as [n|n re|n e|n insts|n|n out]; simpl in *; try (by right); exfalso; subst p.
        -- destruct Ht as [_ Hnone]. unfold is_placeholder in Hpp. by rewrite Hnone in Hpp.
        -- destruct Ht as [_ Hni]. apply Hni; [done|]. by rewrite <-Et.
        -- destruct Ht as [_ Hni]. apply Hni; [done|]. by rewrite <-Et.
        -- destruct Ht as (_ & _ & Hall). rewrite Et in Hs. specialize (Hall r Hr Hs). by rewrite Hst in Hall.
    + destruct c as [| | |q insts| |]; try by apply elem_of_nil in Hin. simpl in *.
      destruct Ht as (_ & Hpp & (_ & _ & Hi) & _). pose proof Hin as Hin'.
      apply list_elem_of_lookup_1 in Hin as [i Hl]. destruct (Hi _ _ Hl) as (Hn & Hsrc & _ & _ & Hor).
      assert (p = q) as -> by congruence. destruct Hd as (fs & Hfs & _ & Hseq). split_and!.
      * rewrite Hn. intros [_ ->]%instance_name_inj. destruct Hor as [Hr|[_ ?]]; [congruence|lia].
      * exists fs. split; [done|]. by eapply Hseq.
      * exists (set_status "running" rt). split_and!; [|done|done|by right].
        apply elem_of_rows_apply. left. exists rt. simpl. by rewrite bool_decide_true.
Qed.

Lemma loops_ok_after task o rows cs :
  wf_rows rows → valid_seq rows cs → Forall (decision_ok task o) cs → loops_ok task rows →
  loops_ok task (rows_after rows cs).
Proof.
  revert rows. induction cs as [|c cs IH]; intros rows Hwf Hv Hd Hl; [done|]. destruct Hv as [Hv Hvs].
  apply Forall_cons in Hd as [Hc Hd].
  apply (IH (rows_apply rows c)); [by apply valid_wf|done|done|]. by apply (loops_ok_apply _ o).
Qed.

(** ** Statuses *)

Definition known_status (r : JobStepRow) : Prop := is_Some (StepStatus.from_str (js_status r)).

(** Somebody other than the cascade moves this row: a worker, the server's
    dispatch, or a person. *)
Definition live (r : JobStepRow) : Prop :=
  js_status r ∈ ["ready"; "claimed"; "running"; "suspended"] ∧
  (js_status r = "running" → is_placeholder r = false).

Lemma status_cases r :
  known_status r →
  is_terminal (js_status r) = true ∨ live r ∨ js_status r = "pending" ∨
  (js_status r = "running" ∧ is_placeholder r = true).
Proof.
  intros [st Hst%StepStatus_roundtrip]. unfold live. rewrite Hst.
  destruct st; simpl; try (by left); try (right; left; split; [set_solver|done]); [tauto|].
  destruct (is_placeholder r); [right; right; right; tauto|]. right. left. split; [set_solver|done].
Qed.

Lemma known_status_apply rows c :
  valid rows c → (∀ r, r ∈ rows → known_status r) → ∀ r, r ∈ rows_apply rows c → known_status r.
Proof.
  intros Hv Hk r' [(r & Hr & ->)|(inst & Hin & ->)]%elem_of_rows_apply.
  - case_bool_decide; [|by apply Hk]. destruct c as [| | | | |? []]; by eexists.
  - destruct Hv as (rt & _ & _ & Ht). destruct c as [| | |q insts| |]; try by apply elem_of_nil in Hin.
    destruct Ht as (_ & _ & (_ & _ & Hi) & _). apply list_elem_of_lookup_1 in Hin as [i Hl].
    destruct (Hi _ _ Hl) as (_ & _ & _ & _ & Hor). unfold known_status. simpl.
    destruct Hor as [->|[-> _]]; by eexists.
Qed.

Lemma known_status_after rows cs :
  valid_seq rows cs → (∀ r, r ∈ rows → known_status r) → ∀ r, r ∈ rows_after rows cs → known_status r.
Proof.
  revert rows. induction cs as [|c cs IH]; intros rows Hv Hk; [done|]. destruct Hv as [Hv Hvs].
  apply (IH (rows_apply rows c)); [done|]. by apply known_status_apply.
Qed.

(** A name's row stays, under its name and with its loop columns. *)
Lemma names_after rows cs n : n ∈ names rows → n ∈ names (rows_after rows cs).
Proof.
  revert rows. induction cs as [|c cs IH]; intros rows Hn; [done|].
  apply (IH (rows_apply rows c)). rewrite names_rows_apply. set_solver.
Qed.

Lemma from_row_skipped sr : from_row "skipped" sr ≠ DepPending.
Proof.
  unfold from_row. change (StepStatus.from_str "skipped") with (Some StepSkipped).
  destruct sr as [s|]; [|done]. simpl. by destruct (SkipReason.from_str s) as [[]|].
Qed.

Lemma outcome_pending_unsettled snap r :
  indexed snap → r ∈ sn_rows snap →
  Snapshot.outcome snap (js_step_name r) = DepPending → is_terminal (js_status r) = false.
Proof.
  intros Hx Hr. unfold Snapshot.outcome.
  assert (Snapshot.row snap (js_step_name r) = Some r) as -> by by apply snapshot_row_Some.
  intros Ho. destruct (is_terminal (js_status r)) eqn:Ht; [|done]. exfalso.
  unfold is_terminal in Ht. apply bool_decide_eq_true in Ht.
  repeat (apply elem_of_cons in Ht as [Ht|Ht]; [rewrite Ht in Ho; first [discriminate Ho|by apply from_row_skipped in Ho]|]).
  by apply elem_of_nil in Ht.
Qed.

(** ** No stall *)

Section no_stall.
Context `{TemplateEngine, JsonParser}.
Context (task : TaskDef) (build_ctx : list JobStepRow → option json) (job_id : Uuid).
Context (snap : Snapshot).
Hypothesis Hg : good snap.
Hypothesis Hst : stable task build_ctx job_id snap.
Hypothesis Hloops : loops_ok task (sn_rows snap).
Hypothesis Hctx : is_Some (build_ctx (sn_rows snap)).
Hypothesis Hknown : ∀ r, r ∈ sn_rows snap → known_status r.
Hypothesis Hdead : ∀ r, r ∈ sn_rows snap → ¬ live r.
Hypothesis Hnames : flow_names_ok task.
Hypothesis Hcover : ∀ n fs, flow task !! n = Some fs → n ∈ names (sn_rows snap).
Hypothesis Hflow : ∀ r, r ∈ sn_rows snap → js_loop_source r = None → is_Some (flow task !! js_step_name r).
Abbreviation rows := (sn_rows snap).

Lemma flat_map_nil_elem {A B} (f : A → list B) l a : flat_map f l = [] → a ∈ l → f a = [].
Proof.
  intros E Ha. destruct (f a) as [|b l'] eqn:Hb; [done|]. exfalso.
  assert (b ∈ flat_map f l) as Hin by (apply elem_of_flat_map; exists a; rewrite Hb; split; [done|left]).
  rewrite E in Hin. by apply elem_of_nil in Hin.
Qed.

Lemma pending_or_terminal r :
  r ∈ rows → ¬ (js_status r = "running" ∧ is_placeholder r = true) →
  js_status r = "pending" ∨ is_terminal (js_status r) = true.
Proof. intros Hr Hn. destruct (status_cases r (Hknown r Hr)) as [?|[?|[?|?]]]; auto. by destruct (Hdead r Hr). Qed.

(** The instance that a pending one waits for. *)
Lemma first_pending p :
  (∃ r, r ∈ loop_instances rows p ∧ js_status r = "pending") →
  (∀ r, r ∈ loop_instances rows p → js_status r = "pending" ∨ is_terminal (js_status r) = true) →
  ∃ prev next k, prev ∈ loop_instances rows p ∧ is_terminal (js_status prev) = true ∧
    js_loop_index prev = Some (Z.of_nat k) ∧ (Z.of_nat (S k) < MAX_FOR_EACH_ITEMS)%Z ∧
    next ∈ loop_instances rows p ∧ js_loop_index next = Some (Z.of_nat (S k)) ∧ js_status next = "pending".
Proof.
  destruct Hg as [Hx Hwf]. intros (r & Hin & Hp) Hall.
  assert (Hidx : ∀ r, r ∈ loop_instances rows p → ∃ i, js_step_name r = instance_name p i ∧
            js_loop_index r = Some (Z.of_nat i) ∧ (Z.of_nat i < MAX_FOR_EACH_ITEMS)%Z).
  { intros r' [Hr' Hs]%elem_of_loop_instances.
    destruct (wf_source _ Hwf r' p Hr' Hs) as (i & ? & ? & ? & _). eauto. }
  destruct (Hidx r Hin) as (i & Hni & Hi & Hlt). clear Hni.
  assert (∃ n, n = i) as [n Hn] by eauto. revert r Hin Hp Hi. rewrite <-Hn in *. clear Hn i.
  induction n as [|k IH]; intros r Hin Hp Hi.
  - exfalso. destruct (Hidx r Hin) as (i & Hni & Hi' & _). apply elem_of_loop_instances in Hin as [Hr Hs].
    destruct (lo_pending _ _ Hloops r p Hr Hs Hp) as (Hn0 & _). apply Hn0. rewrite Hni. f_equal.
    rewrite Hi in Hi'. injection Hi'. lia.
  - destruct (Hidx r Hin) as (i & Hni & Hi' & _). assert (i = S k) as -> by (rewrite Hi in Hi'; injection Hi'; lia).
    pose proof (proj1 (elem_of_loop_instances _ _ _) Hin) as [Hr Hs].
    assert (instance_name p k ∈ names rows) as (r' & Hn' & Hr')%list_elem_of_fmap.
    { apply (wf_closed _ Hwf p (S k) k); [lia|]. rewrite <-Hni. by apply list_elem_of_fmap_2. }
    assert (Hin' : r' ∈ loop_instances rows p).
    { apply elem_of_loop_instances. split; [done|]. by apply (wf_instance _ Hwf r' p k). }
    destruct (Hidx r' Hin') as (j & Hj & Hij & _). rewrite Hj in Hn'.
    apply instance_name_inj in Hn' as [_ <-].
    destruct (Hall r' Hin') as [Hp'|Ht]; [apply (IH ltac:(lia) r' Hin' Hp'); done|].
    exists r', r, k. done.
Qed.

Lemma no_running_loop r : r ∈ rows → ¬ (js_status r = "running" ∧ is_placeholder r = true).
Proof.
  destruct Hg as [Hx Hwf]. intros Hr [Hs Hp].
  destruct Hst as (S0 & _ & _). unfold phase_rollup in S0.
  assert (Hroll : rollup_placeholder snap task r = []).
  { eapply flat_map_nil_elem; [done|]. apply elem_of_lfilter. by rewrite Hp, Hs. }
  clear S0. set (p := js_step_name r) in *.
  pose proof (lo_first _ _ Hloops r Hr Hp Hs) as (r0 & Hn0 & Hr0)%list_elem_of_fmap.
  assert (Hin0 : r0 ∈ loop_instances rows p).
  { apply elem_of_loop_instances. split; [done|]. by apply (wf_instance _ Hwf r0 p 0). }
  assert (Hall : ∀ i, i ∈ loop_instances rows p → js_status i = "pending" ∨ is_terminal (js_status i) = true).
  { intros i [Hi Hsrc]%elem_of_loop_instances. apply pending_or_terminal; [done|]. intros [_ Hpl].
    destruct (wf_source _ Hwf i p Hi Hsrc) as (_ & _ & _ & _ & Hnone).
    unfold is_placeholder in Hpl. by rewrite Hnone in Hpl. }
  unfold rollup_placeholder in Hroll. fold p in Hroll. case_bool_decide as Hnil.
  { rewrite Hnil in Hin0. by apply elem_of_nil in Hin0. }
  destruct (decide (Exists (λ i, js_status i = "pending") (loop_instances rows p))) as [Hex|Hno].
  - apply Exists_exists in Hex as (i & Hi & Hip).
    destruct (first_pending p) as (prev & next & k & Hpr & Hpt & Hpi & Hlt & Hnx & Hni & Hnp); [eauto|done|].
    pose proof (proj1 (elem_of_loop_instances _ _ _) Hi) as [Hi' Hsrc].
    destruct (lo_pending _ _ Hloops i p Hi' Hsrc Hip) as (_ & (fs & Hfs & Hseq) & _).
    rewrite Hfs in Hroll. simpl in Hroll. rewrite Hseq in Hroll.
    destruct (true && _ && _ && _) eqn:Hbad.
    + apply map_eq_nil in Hroll. rewrite Hroll in Hbad.
      rewrite bool_decide_true, andb_false_r in Hbad by done. done.
    + apply app_eq_nil in Hroll as [Hadv _]. unfold advance in Hadv.
      pose proof (flat_map_nil_elem _ _ prev Hadv ltac:(by apply elem_of_lfilter)) as Hfrom.
      unfold advance_from in Hfrom. rewrite Hpi in Hfrom.
      destruct (find _ _) eqn:Hfind; [done|]. apply list_elem_of_In in Hnx. pose proof (find_none _ _ Hfind next Hnx) as Hf. simpl in Hf.
      rewrite Hni, Hnp, i32_wrap_id in Hf by (unfold is_i32, i32_min, i32_max, MAX_FOR_EACH_ITEMS in *; lia).
      rewrite !bool_decide_true in Hf by (f_equal; lia). done.
  - destruct (_ && _ && _ && _) eqn:Hbad.
    + apply map_eq_nil in Hroll. rewrite Hroll in Hbad. by rewrite andb_false_r in Hbad.
    + apply app_eq_nil in Hroll as [_ Hru]. unfold rollup_change in Hru.
      destruct (forallb _ _) eqn:Hf; [done|]. apply not_true_iff_false in Hf. apply Hf.
      apply forallb_forall. intros i Hi%list_elem_of_In.
      destruct (Hall i Hi) as [Hip|]; [|done]. exfalso. apply Hno, Exists_exists. eauto.
Qed.

Lemma no_pending_instance r p : r ∈ rows → js_loop_source r = Some p → js_status r ≠ "pending".
Proof.
  destruct Hg as [Hx Hwf]. intros Hr Hs Hp.
  destruct (lo_pending _ _ Hloops r p Hr Hs Hp) as (_ & (fs & Hfs & _) & ph & Hph & Hn & Hpl & [Hpp|Hpr]).
  2:{ by apply (no_running_loop ph Hph). }
  destruct Hst as (_ & _ & S3). destruct Hctx as [ctx Ec]. unfold phase_placeholders in S3. rewrite Ec in S3.
  apply (flat_map_nil_elem _ _ ph) in S3; [|apply elem_of_lfilter; by rewrite Hpp, Hpl].
  unfold placeholder_row in S3. rewrite Hn, Hfs in S3.
  destruct (wf_source _ Hwf r p Hr Hs) as (i & Hni & _).
  assert (instance_name p 0 ∈ names rows) as (r0 & Hn0 & Hr0)%list_elem_of_fmap.
  { apply (wf_closed _ Hwf p i 0); [lia|]. rewrite <-Hni. by apply list_elem_of_fmap_2. }
  unfold Snapshot.status in S3.
  assert (Snapshot.row snap (instance_name p 0) = Some r0) as E by by apply snapshot_row_Some.
  by rewrite E in S3.
Qed.

(** A pending flow step waits for a pending flow step. *)
Lemma pending_waits_for_pending r fs :
  r ∈ rows → js_status r = "pending" → flow task !! js_step_name r = Some fs →
  ∃ d, d ∈ step_deps fs ∧ Snapshot.outcome snap d = DepPending.
Proof.
  destruct Hg as [Hx Hwf]. intros Hr Hp Hfs. apply gate_wait_iff. fold (gate_for snap fs).
  destruct Hst as (_ & S1 & S3). destruct Hctx as [ctx Ec].
  destruct (is_placeholder r) eqn:Hpl.
  - unfold phase_placeholders in S3. rewrite Ec in S3.
    apply (flat_map_nil_elem _ _ r) in S3; [|apply elem_of_lfilter; by rewrite Hp, Hpl].
    unfold placeholder_row in S3. rewrite Hfs in S3.
    destruct (Snapshot.status _ _); [done|]. destruct (gate_for snap fs); [|done|done].
    by destruct (js_when_condition r ≫= _).
  - unfold promote_batch in S1. apply (flat_map_nil_elem _ _ r) in S1; [|apply elem_of_lfilter; by rewrite Hp, Hpl].
    unfold promote_row in S1. rewrite Hfs, Ec in S1.
    destruct (gate_for snap fs); [|done|done]. by destruct (js_when_condition r).
Qed.

Lemma all_settled `{HashIter} order :
  validate_dag (flow task) = Ok order → ∀ r, r ∈ rows → is_terminal (js_status r) = true.
Proof.
  intros Hdag. pose proof (validate_dag_outcome (flow task)) as Ho. rewrite Hdag in Ho. destruct Ho as [Hperm Htop].
  assert (Hnone : ∀ r, r ∈ rows → js_status r ≠ "pending").
  2:{ intros r Hr. destruct (pending_or_terminal r Hr (no_running_loop r Hr)); [|done]. by destruct (Hnone r Hr). }
  destruct Hg as [Hx Hwf].
  set (S := names (List.filter (λ r, js_status r ==? "pending") rows)).
  assert (HS : ∀ r, r ∈ rows → js_status r = "pending" → js_step_name r ∈ S).
  { intros r Hr Hp. apply list_elem_of_fmap_2, elem_of_lfilter. by rewrite Hp. }
  intros r Hr Hp. destruct (finite_cycle (depends (flow task)) S (js_step_name r)) as [x Hc]; [by apply HS| |].
  - intros x (rx & -> & [Hrx Hpx%bool_decide_eq_true]%elem_of_lfilter)%list_elem_of_fmap.
    assert (js_loop_source rx = None) as Hl.
    { destruct (js_loop_source rx) as [p|] eqn:Hl; [|done]. by destruct (no_pending_instance rx p Hrx Hl). }
    destruct (Hflow rx Hrx Hl) as [fs Hfs].
    destruct (pending_waits_for_pending rx fs Hrx Hpx Hfs) as (d & Hd & Hod).
    assert (Hdep : depends (flow task) (js_step_name rx) d) by by exists fs.
    exists d. split; [|done].
    assert (is_Some (flow task !! d)) as [fd Hfd].
    { apply elem_of_hash_keys. rewrite <-Hperm.
      assert (js_step_name rx ∈ order) as (i & Hi)%list_elem_of_lookup_1
        by (rewrite Hperm; apply elem_of_hash_keys; eauto).
      pose proof (Htop i _ Hi d Hdep) as Hin. eapply list_elem_of_lookup_1 in Hin as [k Hk].
      apply lookup_take_Some in Hk as [Hk _]. by eapply list_elem_of_lookup_2. }
    pose proof (Hcover d fd Hfd) as (rd & -> & Hrd)%list_elem_of_fmap.
    apply HS; [done|]. destruct (pending_or_terminal rd Hrd (no_running_loop rd Hrd)) as [|Ht]; [done|].
    by rewrite (outcome_pending_unsettled snap rd Hx Hrd Hod) in Ht.
  - by apply (topological_acyclic (flow task) order Hperm Htop x).
Qed.
End no_stall.

(** The rows of a job of this task, as job creation and the cascade write
    them: every flow step has its row, every row outside a loop is a flow
    step, statuses are statuses. *)
Record job_rows (task : TaskDef) (rows : list JobStepRow) : Prop := {
  jr_wf : wf_rows rows;
  jr_loops : loops_ok task rows;
  jr_known r : r ∈ rows → known_status r;
  jr_cover n fs : flow task !! n = Some fs → n ∈ names rows;
  jr_flow r : r ∈ rows → js_loop_source r = None → is_Some (flow task !! js_step_name r);
}.

#[export] Instance live_dec r : Decision (live r).
Proof. unfold live. apply _. Defined.

Lemma flow_rows_after task rows cs :
  valid_seq rows cs →
  (∀ r, r ∈ rows → js_loop_source r = None → is_Some (flow task !! js_step_name r)) →
  ∀ r, r ∈ rows_after rows cs → js_loop_source r = None → is_Some (flow task !! js_step_name r).
Proof.
  revert rows. induction cs as [|c cs IH]; intros rows Hv Hf; [done|]. destruct Hv as [Hv Hvs].
  apply (IH (rows_apply rows c)); [done|].
  intros r' [(r & Hr & ->)|(inst & Hin & ->)]%elem_of_rows_apply Hs.
  - destruct (change_row_loop c r) as (E & _).
    case_bool_decide; [rewrite E in Hs; rewrite change_row_name|]; by apply Hf.
  - destruct Hv as (rt & _ & _ & Ht). destruct c as [| | |q insts| |]; try by apply elem_of_nil in Hin.
    destruct Ht as (_ & _ & (_ & _ & Hi) & _). apply list_elem_of_lookup_1 in Hin as [i Hl].
    destruct (Hi _ _ Hl) as (_ & Es & _). simpl in Hs. congruence.
Qed.

(** The cascade keeps a job's rows well-formed. *)
Lemma job_rows_after task o rows cs :
  job_rows task rows → valid_seq rows cs → Forall (decision_ok task o) cs →
  job_rows task (rows_after rows cs).
Proof.
  intros [Hwf Hl Hk Hc Hf] Hv Hd. split.
  - by apply valid_seq_wf.
  - by apply (loops_ok_after _ o).
  - by apply known_status_after.
  - intros n fs Hn. by eapply names_after, Hc.
  - by apply flow_rows_after.
Qed.

Lemma no_stall `{TemplateEngine, JsonParser, HashIter} task build_ctx job_id steps snap cs hit order :
  job_rows task steps → flow_names_ok task → validate_dag (flow task) = Ok order →
  (∀ rows, is_Some (build_ctx rows)) →
  fixpoint task job_id steps build_ctx = Some (snap, cs, hit) →
  job_rows task (sn_rows snap) ∧
  ((∃ r, r ∈ sn_rows snap ∧ live r) ∨ ∀ r, r ∈ sn_rows snap → is_terminal (js_status r) = true).
Proof.
  intros Hj Hfl Hdag Hctx E.
  destruct (fixpoint_spec task build_ctx job_id steps (jr_wf _ _ Hj)) as (s & cs' & E' & Hg & V & R & Hst).
  rewrite E in E'. simplify_eq.
  assert (Hd : Forall (decision_ok task (Snapshot.outcome s)) cs').
  { eapply run_loop_decisions; [done|by apply good_new, Hj|done]. }
  pose proof (job_rows_after task _ steps cs' Hj V Hd) as Hj'. rewrite <-R in Hj'. split; [done|].
  destruct (decide (Exists live (sn_rows s))) as [Hex|Hno]; [left; by apply Exists_exists|right].
  destruct Hj' as [Hwf' Hl' Hk' Hc' Hf'].
  eapply (all_settled task build_ctx job_id s); try done.
  intros r Hr Hlr. apply Hno, Exists_exists. eauto.
Qed.

(** C2. No job is left stalled. For a flow the DAG check accepts, rows in the
    shape job creation gives them and a rendering context, the rows the
    cascade leaves keep that shape and either every step is terminal (so the
    job can settle) or some step is ready, claimed, running or suspended
    outside the cascade's hands: no set of steps waits on each other, no loop
    waits for itself. *)
Theorem cascade_never_stalls `{TemplateEngine, JsonParser, HashIter} task build_ctx job_id steps snap cs hit order :
  job_rows task steps → flow_names_ok task → validate_dag (flow task) = Ok order →
  (∀ rows, is_Some (build_ctx rows)) →
  fixpoint task job_id steps build_ctx = Some (snap, cs, hit) →
  job_rows task (sn_rows snap) ∧
  ((∃ r, r ∈ sn_rows snap ∧ live r) ∨ ∀ r, r ∈ sn_rows snap → is_terminal (js_status r) = true).
Proof. apply no_stall. Qed.

(** The frame of the cascade. Rows it has no business with, terminal
    ones and those a worker, the server or a person holds, are in the result
    untouched, column by column; every other row of the result is a pending
    row or running placeholder moved on, or a new loop instance. *)
Theorem cascade_frame `{TemplateEngine, JsonParser} task build_ctx job_id steps snap cs hit :
  wf_rows steps → fixpoint task job_id steps build_ctx = Some (snap, cs, hit) →
  (∀ r, r ∈ steps → js_status r ≠ "pending" → ¬ (js_status r = "running" ∧ is_placeholder r = true) →
     r ∈ sn_rows snap) ∧
  (∀ r', r' ∈ sn_rows snap → js_step_name r' ∉ names steps →
     ∃ p, js_loop_source r' = Some p ∧ p ∈ names (sn_rows snap)) ∧
  (∀ n, n ∈ names steps → n ∈ names (sn_rows snap)).
Proof.
  intros Hwf E. destruct (fixpoint_spec task build_ctx job_id steps Hwf) as (s & cs' & E' & Hg & V & R & _).
  rewrite E in E'. simplify_eq. rewrite R. clear -V Hwf. split_and!.
  - revert steps Hwf V. induction cs' as [|c cs IH]; intros steps Hwf V r Hr Hp Hrun; [done|].
    destruct V as [V Vs]. apply (IH (rows_apply steps c)); [by apply valid_wf|done| |done..].
    apply rows_apply_keeps; [done|]. intros Et. destruct V as (rt & Hrt & Hn & Ht).
    assert (rt = r) as -> by (apply (rows_name_inj steps); [apply Hwf|done..|congruence]).
    destruct c; naive_solver.
  - assert (Hgen : ∀ rows, wf_rows rows → valid_seq rows cs' → (∀ n, n ∈ names steps → n ∈ names rows) →
      (∀ r', r' ∈ rows → js_step_name r' ∉ names steps → ∃ p, js_loop_source r' = Some p ∧ p ∈ names rows) →
      ∀ r', r' ∈ rows_after rows cs' → js_step_name r' ∉ names steps →
      ∃ p, js_loop_source r' = Some p ∧ p ∈ names (rows_after rows cs')).
    2:{ apply Hgen; [done..|]. intros r' Hr' Hn. destruct Hn. by apply list_elem_of_fmap_2. }
    clear V Hwf. induction cs' as [|c cs IH]; intros rows Hwf V Hsub Hnew; [done|]. destruct V as [V Vs].
    apply (IH (rows_apply rows c)); [by apply valid_wf|done| |].
    + intros n Hn. rewrite names_rows_apply. set_solver.
    + intros r' [(r & Hr & ->)|(inst & Hin & ->)]%elem_of_rows_apply Hn.
      * destruct (change_row_loop c r) as (Es & _).
        destruct (Hnew r Hr) as (p & Hs & Hp).
        { case_bool_decide; [by rewrite change_row_name in Hn|done]. }
        exists p. rewrite names_rows_apply. split; [case_bool_decide; by rewrite ?Es|set_solver].
      * destruct V as (rt & Hrt & Hnt & Ht). destruct c as [| | |q insts| |]; try by apply elem_of_nil in Hin.
        destruct Ht as (_ & _ & (_ & _ & Hi) & _). apply list_elem_of_lookup_1 in Hin as [i Hl].
        destruct (Hi _ _ Hl) as (_ & Es & _). exists q. split; [done|]. rewrite names_rows_apply.
        apply elem_of_app. left. simpl in Hnt. rewrite <-Hnt. by apply list_elem_of_fmap_2.
  - intros n. apply names_after.
Qed.
