(* ===== verification/JobRepoProps.v ===== *)
(** * Properties of the job repository

    Settlement is a compare-and-set, terminal jobs keep their verdict, the
    caches keep what a claim can ask for, and the descendant walk. *)
From S2P Require Import Prelude Json JobModel Gate Db StepRepo StepRepoProps JobRepo CascadeProps.

Lemma lookup_update_job j g f db k :
  db_job (update_job j g f db).1 !! k = (λ r, if (k ==? j) && g r then f r else r) <$> db_job db !! k.
Proof. exact (lookup_sql_update (λ k r, (k ==? j) && g r) f (db_job db) k). Qed.

Lemma lookup_update_job_eq j g f db :
  db_job (update_job j g f db).1 !! j = (λ r, if g r then f r else r) <$> db_job db !! j.
Proof. rewrite lookup_update_job. by rewrite bool_decide_true by done. Qed.

Lemma update_job_count j g f db :
  (update_job j g f db).2 =
  match db_job db !! j with Some r => if g r then 1%nat else 0%nat | None => 0%nat end.
Proof.
  unfold update_job. pose proof (sql_update_single_count (λ k r, (k ==? j) && g r) f (db_job db) j) as Hc.
  destruct (sql_update _ _ _) as [t c] eqn:E. simpl in *. rewrite Hc.
  - by rewrite bool_decide_true by done.
  - intros k' r [Hk%bool_decide_eq_true _]%andb_true_iff. done.
Qed.

Lemma update_job_noop j g f db :
  (∀ r, db_job db !! j = Some r → g r = false) → (update_job j g f db).1 = db.
Proof.
  intros Hg. destruct db as [dj ds dw dp]. unfold update_job. simpl. unfold with_job. simpl. f_equal.
  apply map_eq. intros k. rewrite map_lookup_imap. simpl in *.
  destruct (decide (k = j)) as [->|Hk].
  - destruct (dj !! j) as [r|] eqn:Hr; [|done]. simpl. by rewrite (Hg r), andb_false_r.
  - rewrite bool_decide_false by done. by destruct (dj !! k).
Qed.

Lemma update_job_db_step j g f db : db_step (update_job j g f db).1 = db_step db.
Proof. done. Qed.

Lemma update_job_with_job j g f db : (update_job j g f db).1 = with_job (db_job (update_job j g f db).1) db.
Proof. unfold update_job. by destruct (sql_update _ _ _). Qed.

Lemma update_job_db_ref_pin j g f db : db_ref_pin (update_job j g f db).1 = db_ref_pin db.
Proof. done. Qed.

#[export] Hint Rewrite lookup_update_job_eq : stroem.
#[global] Opaque update_job.

(** ** Settlement *)

(** The writes that end a job. *)
Inductive Ending :=
| ESettle (status : JobStatus) (output : option json)
| ECancel.

Definition end_job (now : Time) (job_id : Uuid) (e : Ending) (db : Db) : Db * bool :=
  match e with
  | ESettle st out => settle now job_id st out db
  | ECancel => cancel now job_id db
  end.

(** Endings that race on one job, in the order the database serialises them:
    what each call returned. *)
Fixpoint end_all (job_id : Uuid) (es : list (Time * Ending)) (db : Db) : Db * list bool :=
  match es with
  | [] => (db, [])
  | (now, e) :: es' =>
      let '(db1, won) := end_job now job_id e db in
      let '(db2, rest) := end_all job_id es' db1 in
      (db2, won :: rest)
  end.

Definition ending_status (e : Ending) : string :=
  match e with ESettle st _ => JobStatus.as_ref st | ECancel => "cancelled" end.
Definition ending_output (e : Ending) (old : option json) : option json :=
  match e with ESettle _ (Some v) => Some v | _ => old end.

Definition job_verdict (r : JobRec) : string * option json * option Time :=
  (jr_status r, j_output (jr_row r), j_completed_at (jr_row r)).

Lemma end_job_active now j e db r :
  db_job db !! j = Some r → jr_status r ∈ ACTIVE →
  ∃ r', (end_job now j e db).2 = true ∧ db_job (end_job now j e db).1 !! j = Some r' ∧
    job_verdict r' = (ending_status e, ending_output e (j_output (jr_row r)), Some now).
Proof.
  intros Hr Ha. assert (Hg : job_status_in ACTIVE r = true) by by apply bool_decide_eq_true.
  destruct e as [st out|]; simpl; unfold settle, settle_tx, cancel;
    (destruct (update_job _ _ _ _) as [db' c] eqn:E; simpl;
     apply (f_equal snd) in E as Ec; apply (f_equal fst) in E; simpl in *;
     rewrite update_job_count, Hr, Hg in Ec; subst c db';
     rewrite lookup_update_job_eq, Hr; simpl; rewrite Hg; eexists; split_and!; [done|done|]).
  - unfold job_verdict. simpl. by destruct out.
  - done.
Qed.

Lemma end_job_terminal now j e db :
  (∀ r, db_job db !! j = Some r → jr_status r ∉ ACTIVE) → end_job now j e db = (db, false).
Proof.
  intros Ht. assert (Hg : ∀ r, db_job db !! j = Some r → job_status_in ACTIVE r = false).
  { intros r Hr. by apply bool_decide_eq_false, Ht. }
  destruct e as [st out|]; simpl; unfold settle, settle_tx, cancel;
    (destruct (update_job _ _ _ _) as [db' c] eqn:E; simpl;
     apply (f_equal snd) in E as Ec; apply (f_equal fst) in E; simpl in *;
     rewrite update_job_count in Ec; rewrite update_job_noop in E by done; subst db';
     destruct (db_job db !! j) as [r|] eqn:Hr; [rewrite Hg in Ec by done|]; by subst c).
Qed.

Lemma end_all_terminal j es db :
  (∀ r, db_job db !! j = Some r → jr_status r ∉ ACTIVE) →
  end_all j es db = (db, replicate (length es) false).
Proof.
  intros Ht. induction es as [|[now e] es IH]; [done|]. simpl.
  rewrite end_job_terminal by done. by rewrite IH.
Qed.

(** C13. A job ends exactly once. Of any race of settlements and cancellations
    on a pending or running job exactly the first the database serialises
    reports that it wrote the row; the final row carries its status, its
    output (or, when it passes none, the output already there) and its
    completion time, whatever the later ones asked for. *)
Theorem job_ends_once j now e es db r :
  db_job db !! j = Some r → jr_status r ∈ ACTIVE →
  ending_status e ∉ ACTIVE →
  (end_all j ((now, e) :: es) db).2 = true :: replicate (length es) false ∧
  ∃ r', db_job (end_all j ((now, e) :: es) db).1 !! j = Some r' ∧
    job_verdict r' = (ending_status e, ending_output e (j_output (jr_row r)), Some now).
Proof.
  intros Hr Ha He. destruct (end_job_active now j e db r Hr Ha) as (r' & Hw & Hr' & Hv). simpl.
  destruct (end_job now j e db) as [db1 won]. simpl in Hw, Hr'. subst won.
  rewrite end_all_terminal; [simpl; eauto|].
  intros r1 Hr1. rewrite Hr' in Hr1. simplify_eq.
  assert (jr_status r1 = ending_status e) as -> by (unfold job_verdict in Hv; congruence). done.
Qed.

(** ** The keep sets *)

Lemma elem_of_select_jobs w db j :
  j ∈ select_jobs w db ↔ ∃ k r, db_job db !! k = Some r ∧ j = jr_row r ∧ w j = true.
Proof.
  unfold select_jobs. rewrite list_elem_of_fmap. split.
  - intros (r & -> & (k & Hk & Hw)%elem_of_sql_select). eauto.
  - intros (k & r & Hk & -> & Hw). exists r. split; [done|]. apply elem_of_sql_select. eauto.
Qed.

Lemma elem_of_active_steps db k s r :
  db_step db !! k = Some s → db_job db !! k.1 = Some r → jr_status r ∈ ACTIVE →
  sr_row s ∈ active_steps db.
Proof.
  intros Hs Hr Ha. unfold active_steps. apply list_elem_of_fmap_2, elem_of_sql_select.
  exists k. split; [done|]. rewrite Hr. by apply bool_decide_eq_true.
Qed.

(** The commit a step of a job runs: its own action's when it has one (a
    cross-workspace or pinned action), the job's otherwise. *)
Definition needed_revision (j : JobRow) (s : JobStepRow) : option (string * string) :=
  match js_action_workspace s, js_action_revision s with
  | Some w, Some r => Some (w, r)
  | _, _ => (λ r, (j_workspace j, r)) <$> j_revision j
  end.

(** No commit a live step needs is evicted. For every step of a pending
    or running job, the commit it runs is in the tarball keep set; when the
    job or the step is pinned, the pin is in the pin keep set too, and so are
    the step's task pin and every ref the job resolved; and the commit of a
    failed job still owed a retry stays kept for an hour. *)
Theorem keep_sets_cover now db k s r :
  db_step db !! k = Some s → db_job db !! k.1 = Some r → jr_status r ∈ ACTIVE →
  (∀ p, needed_revision (jr_row r) (sr_row s) = Some p → p ∈ tarball_keep_revisions now db) ∧
  (∀ rev, j_git_ref (jr_row r) ≠ None → j_revision (jr_row r) = Some rev →
     (j_workspace (jr_row r), rev) ∈ pin_keep_set now db) ∧
  (∀ w c, js_action_ref (sr_row s) ≠ None → js_action_workspace (sr_row s) = Some w →
     js_action_revision (sr_row s) = Some c → (w, c) ∈ pin_keep_set now db) ∧
  (∀ w c, js_task_ref (sr_row s) ≠ None → js_task_workspace (sr_row s) = Some w →
     js_task_revision (sr_row s) = Some c → (w, c) ∈ pin_keep_set now db) ∧
  (∀ pin, pin ∈ db_ref_pin db → rp_job_id pin = k.1 → (rp_workspace pin, rp_commit pin) ∈ pin_keep_set now db) ∧
  (∀ k' f rev, db_job db !! k' = Some f → owed_retry now (jr_row f) = true →
     j_revision (jr_row f) = Some rev → (j_workspace (jr_row f), rev) ∈ tarball_keep_revisions now db).
Proof.
  intros Hs Hr Ha. pose proof (elem_of_active_steps db k s r Hs Hr Ha) as Hin.
  assert (Hact : is_active (jr_row r) = true) by by apply bool_decide_eq_true.
  unfold tarball_keep_revisions, pin_keep_set.
  setoid_rewrite elem_of_remove_dups. setoid_rewrite elem_of_app. setoid_rewrite elem_of_app.
  setoid_rewrite elem_of_app. setoid_rewrite elem_of_app. setoid_rewrite elem_of_flat_map.
  assert (Hjob : ∀ w, w (jr_row r) = true → jr_row r ∈ select_jobs w db).
  { intros w Hw. apply elem_of_select_jobs. eauto. }
  split_and!.
  - intros p Hp. unfold needed_revision in Hp.
    destruct (js_action_workspace (sr_row s)) as [w|] eqn:Hw, (js_action_revision (sr_row s)) as [c|] eqn:Hc.
    1: { right. left. exists (sr_row s). rewrite Hw, Hc. simplify_eq. set_solver. }
    all: left; exists (jr_row r); split; [by apply Hjob|]; apply fmap_Some in Hp as (rev & -> & ->);
         set_solver.
  - intros rev Hg Hrev. left. exists (jr_row r). rewrite Hrev. split; [|set_solver]. apply Hjob.
    rewrite Hact. by rewrite bool_decide_false.
  - intros w c Hne Hw Hc. right. left. exists (sr_row s). rewrite bool_decide_false, Hw, Hc by done. set_solver.
  - intros w c Hne Hw Hc. right. right. left. exists (sr_row s). rewrite bool_decide_false, Hw, Hc by done. set_solver.
  - intros pin Hpin Hj. right. right. right. left. exists pin. rewrite Hj, Hr, Hact. set_solver.
  - intros k' f rev Hf Ho Hrev. right. right. exists (jr_row f). rewrite Hrev. split; [|set_solver].
    apply elem_of_select_jobs. eauto.
Qed.

(** ** The descendant walk *)

(** [j] is [d] parent links below [root]. *)
Inductive descends (db : Db) (root : Uuid) : nat → JobRow → Prop :=
| descends_child k r :
    db_job db !! k = Some r → j_parent_job_id (jr_row r) = Some root → descends db root 1 (jr_row r)
| descends_below d p k r :
    descends db root d p → db_job db !! k = Some r →
    j_parent_job_id (jr_row r) = Some (j_job_id p) → descends db root (S d) (jr_row r).

Lemma elem_of_children_of level db j :
  j ∈ children_of level db ↔
  ∃ p k r, p ∈ level ∧ db_job db !! k = Some r ∧ j = jr_row r ∧ j_parent_job_id j = Some (j_job_id p).
Proof.
  unfold children_of. rewrite elem_of_flat_map. setoid_rewrite elem_of_select_jobs.
  setoid_rewrite bool_decide_eq_true. naive_solver.
Qed.

Lemma elem_of_descendants db root fuel level depth j d :
  (1 ≤ depth)%nat → (∀ p, p ∈ level ↔ descends db root depth p) →
  ((j, d) ∈ descendants fuel level depth db ↔ (depth ≤ d ≤ depth + fuel)%nat ∧ descends db root d j).
Proof.
  revert level depth. induction fuel as [|fuel IH]; intros level depth H1 Hl; cbn [descendants];
    rewrite elem_of_app, list_elem_of_fmap.
  - rewrite elem_of_nil. split.
    + intros [(p & [= -> ->] & Hp)|[]]. split; [lia|]. by apply Hl.
    + intros [Hd Hj]. assert (d = depth) as -> by lia. left. exists j. by rewrite Hl.
  - rewrite (IH (children_of level db) (S depth)); [|lia|].
    + split.
      * intros [(p & [= -> ->] & Hp)|[? ?]]; [split; [lia|by apply Hl]|split; [lia|done]].
      * intros [Hd Hj]. destruct (decide (d = depth)) as [->|]; [left; exists j; by rewrite Hl|].
        right. split; [lia|done].
    + intros p. rewrite elem_of_children_of. split.
      * intros (q & k & r & Hq & Hk & -> & Hpar). apply Hl in Hq. by econstructor.
      * intros Hp. inversion Hp as [k r Hk Hpar|d' q k r Hq Hk Hpar]; subst; [lia|].
        exists q, k, r. by rewrite Hl.
Qed.

(** The reconciliation walk. It returns exactly the terminal type-task
    jobs, at most ten levels below the root, whose parent step still runs and
    none of whose own steps a worker holds; deeper jobs come first, so a job
    is settled before the ancestor it propagates into. *)
Theorem settled_descendants_correct root db :
  (∀ j, j ∈ get_settled_descendants_with_running_parent_step root db ↔
     ∃ d, (1 ≤ d ≤ MAX_TASK_DEPTH)%nat ∧ descends db root d j ∧ settled_under_running_step db j = true) ∧
  ∃ l, get_settled_descendants_with_running_parent_step root db = l.*1 ∧
    Forall (λ p, descends db root p.2 p.1) l ∧ StronglySorted (λ a b, (b.2 ≤ a.2)%nat) l.
Proof.
  unfold get_settled_descendants_with_running_parent_step.
  set (level := select_jobs _ db).
  assert (Hl : ∀ p, p ∈ level ↔ descends db root 1 p).
  { intros p. unfold level. rewrite elem_of_select_jobs. setoid_rewrite bool_decide_eq_true. split.
    - intros (k & r & Hk & -> & Hp). by econstructor.
    - intros Hp. inversion Hp as [k r Hk Hpar|d q k r Hq Hk Hpar]; subst; [eauto|]. by inversion Hq. }
  pose proof (λ j d, elem_of_descendants db root (MAX_TASK_DEPTH - 1) level 1 j d (le_n 1) Hl) as Hd.
  split.
  - intros j. rewrite list_elem_of_fmap. unfold sort_by_key. setoid_rewrite elem_of_sort_by.
    setoid_rewrite elem_of_lfilter. split.
    + intros ([j' d] & -> & [Hin Hs]). apply Hd in Hin as [? ?]. exists d. unfold MAX_TASK_DEPTH in *.
      split_and!; [lia..|done|done].
    + intros (d & Hr & Hj & Hs). exists (j, d). split_and!; [done| |done]. apply Hd.
      unfold MAX_TASK_DEPTH in *. split; [lia|done].
  - eexists. split; [reflexivity|]. split.
    + unfold sort_by_key. rewrite sort_by_perm. apply Forall_forall.
      intros [j d] [Hin _]%elem_of_lfilter. by apply Hd in Hin as [_ ?].
    + eapply StronglySorted_impl; [|apply sort_by_key_sorted]. simpl. lia.
Qed.
