(* ===== verification/CascadeApply.v ===== *)
(** * Writing a cascade plan

    [apply] and [execute] of [crates/stroem-server/src/cascade.rs]: the
    statements of a plan inside one transaction, and the read, run, apply loop
    with its re-runs. *)
From S2P Require Import Prelude Json Template JobModel DependsOn Gate Workflow Dag Db StepRepo StepRepoProps JobRepo JobRepoProps Cascade CascadeRows CascadeProps CascadeSpec CascadeLive.

Inductive ApplyError :=
| GuardMiss (step : string)
| DbErr (e : string).

(** [Applied] *)
Record Applied := mkApplied {
  promoted : nat;
  skipped : nat;
  failed : nat;
  expanded : nat;
  adopted : nat;
  rolled_up : nat;
}.
Definition applied_zero : Applied := mkApplied 0 0 0 0 0 0.
Definition applied_add (a b : Applied) : Applied :=
  mkApplied (promoted a + promoted b) (skipped a + skipped b) (failed a + failed b)
    (expanded a + expanded b) (adopted a + adopted b) (rolled_up a + rolled_up b).

Definition expect_rows (n expected : nat) (step : string) : result ApplyError unit :=
  if (n =? expected)%nat then Ok () else Err (GuardMiss step).

(** One turn of the [while] loop: a run of promotions, a run of skips, or one
    other change. *)
Inductive Stmt :=
| SPromotes (names : list string)
| SSkips (skips : list (string * SkipReason))
| SOne (c : Change).

Fixpoint statements (changes : list Change) : list Stmt :=
  match changes with
  | [] => []
  | Promote s :: cs =>
      match statements cs with
      | SPromotes l :: rest => SPromotes (s :: l) :: rest
      | rest => SPromotes [s] :: rest
      end
  | Skip s reason :: cs =>
      match statements cs with
      | SSkips l :: rest => SSkips ((s, reason) :: l) :: rest
      | rest => SSkips [(s, reason)] :: rest
      end
  | c :: cs => SOne c :: statements cs
  end.

(** Adds a skip to the bucket of its reason, or opens one at the end. *)
Fixpoint bucket_add (buckets : list (SkipReason * list string)) (p : string * SkipReason)
    : list (SkipReason * list string) :=
  match buckets with
  | [] => [(p.2, [p.1])]
  | (r, names) :: rest =>
      if r ==? p.2 then (r, names ++ [p.1]) :: rest else (r, names) :: bucket_add rest p
  end.
Definition buckets (skips : list (string * SkipReason)) : list (SkipReason * list string) :=
  fold_left bucket_add skips [].

Fixpoint apply_buckets (now : Time) (job_id : Uuid) (bs : list (SkipReason * list string)) (db : Db)
    : result ApplyError Db :=
  match bs with
  | [] => Ok db
  | (reason, names) :: rest =>
      let '(db', n) := skip_steps_tx now job_id names (SkipReason.as_str reason) db in
      let? _ := expect_rows n (length names) (str_join "," names) in
      apply_buckets now job_id rest db'
  end.

(** One statement: the database, its counts, and whether the job must be
    marked running. *)
Definition apply_stmt (now : Time) (job_id : Uuid) (s : Stmt) (db : Db)
    : result ApplyError (Db * Applied * bool) :=
  match s with
  | SPromotes names =>
      let '(db', n) := promote_steps_tx now job_id names db in
      let? _ := expect_rows n (length names) (str_join "," names) in
      Ok (db', mkApplied (length names) 0 0 0 0 0, false)
  | SSkips skips =>
      let? db' := apply_buckets now job_id (buckets skips) db in
      Ok (db', mkApplied 0 (length skips) 0 0 0 0, false)
  | SOne (Fail step error) =>
      let '(db', n) := fail_pending_step_tx now job_id step error db in
      let? _ := expect_rows n 1 step in
      Ok (db', mkApplied 0 0 1 0 0 0, false)
  | SOne (Expand placeholder instances) =>
      let '(db', n) := start_placeholder_tx now job_id placeholder db in
      let? _ := expect_rows n 1 placeholder in
      let? db'' := res_map_err DbErr (create_steps_tx now instances db') in
      Ok (db'', mkApplied 0 0 0 1 0 0, true)
  | SOne (Adopt placeholder) =>
      let '(db', n) := start_placeholder_tx now job_id placeholder db in
      let? _ := expect_rows n 1 placeholder in
      Ok (db', mkApplied 0 0 0 0 1 0, true)
  | SOne (Rollup placeholder outcome) =>
      let '(db', n) := match outcome with
                       | RollupCompleted out => complete_placeholder_tx now job_id placeholder out db
                       | RollupFailed err out => fail_placeholder_tx now job_id placeholder err out db
                       end in
      let? _ := expect_rows n 1 placeholder in
      Ok (db', mkApplied 0 0 0 0 0 1, false)
  | SOne _ => Ok (db, applied_zero, false)
  end.

Fixpoint apply_stmts (now : Time) (job_id : Uuid) (ss : list Stmt) (db : Db)
    : result ApplyError (Db * Applied * bool) :=
  match ss with
  | [] => Ok (db, applied_zero, false)
  | s :: rest =>
      let? (db1, a1, m1) := apply_stmt now job_id s db in
      let? (db2, a2, m2) := apply_stmts now job_id rest db1 in
      Ok (db2, applied_add a1 a2, m1 || m2)
  end.

Definition apply (now : Time) (job_id : Uuid) (plan : list Change) (db : Db)
    : result ApplyError (Db * Applied) :=
  let? (db', a, mark_job_running) := apply_stmts now job_id (statements plan) db in
  Ok (if mark_job_running : bool then mark_running_if_pending_tx now job_id db' else db', a).

(** ** The entry point *)

Definition MAX_ATTEMPTS : nat := 3.

Inductive ExecuteError :=
| JobNotFound
| ExecDb (e : string)
| Exhausted (last_cause : string)
| FixpointStuck.

Section execute.
Context `{TemplateEngine, JsonParser, Collation}.
Context (now : Time) (job_id : Uuid) (task : TaskDef).
Context (build_ctx : JobRow → list JobStepRow → option json) (redact : option (string → string)).
(** Attempt [i] reads the database [seen i]; when it opens its transaction
    the database is [found i]; [deadlock i] is a Postgres deadlock there. *)
Context (seen found : nat → Db) (deadlock : nat → bool).

(** The committed database, when something was written, and the plan. *)
Fixpoint attempts (left attempt : nat) (last_cause : string)
    : result ExecuteError (option Db * list Change) :=
  match left with
  | O => Err (Exhausted last_cause)
  | S left' =>
      match get job_id (seen attempt) with
      | None => Err JobNotFound
      | Some job =>
          match run task (j_job_id job) (get_steps_for_job job_id (seen attempt)) (build_ctx job) redact with
          | None => Err FixpointStuck
          | Some plan =>
              if bool_decide (plan = []) then Ok (None, [])
              else if deadlock attempt then attempts left' (S attempt) "deadlock (40P01)"
              else
                match apply now job_id plan (found attempt) with
                | Ok (db', _) => Ok (Some db', plan)
                | Err (GuardMiss step) =>
                    attempts left' (S attempt) ("guard miss on step '" +:+ step +:+ "'")
                | Err (DbErr e) => Err (ExecDb e)
                end
          end
      end
  end.

Definition execute : result ExecuteError (option Db * list Change) :=
  attempts MAX_ATTEMPTS 1 "no re-run recorded".
End execute.

(** ** Writing a plan refines the fixpoint

    On a database whose rows are the snapshot's, the statements of a plan
    never miss a guard and lead to the rows the fixpoint ends with. *)

(** The columns no change writes. *)
Definition fixed_cols (r : JobStepRow) :=
  ((js_job_id r, js_action_name r, js_action_type r, js_action_image r, js_action_spec r, js_input r),
   (js_worker_id r, js_required_ability r, js_required_tags r, js_runner r, js_timeout_secs r, js_loop_total r, js_loop_item r),
   (js_agent_state r, js_suspended_at r, js_retry_attempt r, js_max_retries r, js_retry_backoff_secs r, js_retry_strategy r),
   (js_retry_jitter r, js_retry_history r, js_retry_at r, js_action_workspace r, js_action_revision r, js_carried_over r, js_pin_releases r)).

(** The pin columns; the snapshot does not fill in those of a loop's instance. *)
Definition pin_cols (r : JobStepRow) :=
  (js_action_ref r, js_task_workspace r, js_task_ref r, js_task_revision r, js_ref_template r).

(** A database row agrees with a snapshot row: on every column but its
    timestamps, the text of its error (which the plan scrubs) and the pins of
    an instance. *)
Definition sim (r r' : JobStepRow) : Prop :=
  js_step_name r' = js_step_name r ∧ js_status r' = js_status r ∧
  js_skip_reason r' = js_skip_reason r ∧ js_output r' = js_output r ∧
  js_when_condition r' = js_when_condition r ∧ js_for_each_expr r' = js_for_each_expr r ∧
  js_loop_source r' = js_loop_source r ∧ js_loop_index r' = js_loop_index r ∧
  fixed_cols r' = fixed_cols r ∧ (pin_cols r' = pin_cols r ∨ is_Some (js_loop_source r)) ∧
  (is_Some (js_error_message r') ↔ is_Some (js_error_message r)).

Definition rows_match (db : Db) (j : Uuid) (rows : list JobStepRow) : Prop :=
  (∀ r, r ∈ rows → ∃ rec, db_step db !! (j, js_step_name r) = Some rec ∧ sim r (sr_row rec)) ∧
  (∀ n rec, db_step db !! (j, n) = Some rec → n ∈ names rows).

(** The rows of other jobs. *)
Definition same_elsewhere (j : Uuid) (db db' : Db) : Prop :=
  ∀ k, k.1 ≠ j → db_step db' !! k = db_step db !! k.

#[export] Instance same_elsewhere_preorder j : PreOrder (same_elsewhere j).
Proof. split; [by intros db k|]. intros a b c H1 H2 k Hk. by rewrite H2, H1. Qed.

Lemma same_elsewhere_step j n g f db : same_elsewhere j db (update_step j n g f db).1.
Proof. intros k Hk. apply lookup_update_step_ne. intros ->. by apply Hk. Qed.

Lemma same_elsewhere_steps j g f db : same_elsewhere j db (update_job_steps j g f db).1.
Proof.
  intros k Hk. rewrite lookup_update_job_steps, bool_decide_false by done. by destruct (db_step db !! k).
Qed.

(** ** Runs of simple changes *)

(** Changes without instances, on distinct rows. *)
Lemma elem_of_rows_after_simple rows cs r' :
  Forall (λ c, change_instances c = []) cs → NoDup (change_target <$> cs) →
  r' ∈ rows_after rows cs ↔
  (∃ r c, r ∈ rows ∧ c ∈ cs ∧ js_step_name r = change_target c ∧ r' = change_row c r) ∨
  (r' ∈ rows ∧ js_step_name r' ∉ change_target <$> cs).
Proof.
  revert rows. induction cs as [|c cs IH]; intros rows Hi Hnd.
  { split; [intros ?; right; split; [done|apply not_elem_of_nil]|].
    intros [(r & c & _ & Hc & _)|[? _]]; [by apply elem_of_nil in Hc|done]. }
  apply Forall_cons in Hi as [Hc Hi]. rewrite fmap_cons in Hnd |- *. apply NoDup_cons in Hnd as [Hni Hnd].
  change (rows_after rows (c :: cs)) with (rows_after (rows_apply rows c) cs). rewrite IH by done.
  setoid_rewrite elem_of_rows_apply. setoid_rewrite Hc. setoid_rewrite elem_of_nil.
  setoid_rewrite elem_of_cons. split.
  - intros [(r & d & [(r0 & Hr0 & ->)|(? & [] & _)] & Hd & En & ->)|[[(r0 & Hr0 & ->)|(? & [] & _)] Hn]].
    + destruct (bool_decide_reflect (js_step_name r0 = change_target c)) as [E|].
      * rewrite change_row_name in En. destruct Hni. rewrite <-E, En. by apply list_elem_of_fmap_2.
      * left. exists r0, d. split_and!; auto.
    + destruct (bool_decide_reflect (js_step_name r0 = change_target c)) as [E|].
      * left. exists r0, c. auto.
      * right. tauto.
  - intros [(r & d & Hr & [->|Hd] & En & ->)|[Hr Hn]].
    + right. split; [left; exists r; by rewrite bool_decide_true|]. by rewrite change_row_name, En.
    + left. exists r, d. split_and!; try done. left. exists r. split; [done|].
      rewrite bool_decide_false; [done|]. intros E. apply Hni. rewrite <-E, En. by apply list_elem_of_fmap_2.
    + right. split; [|tauto]. left. exists r'. split; [done|]. rewrite bool_decide_false; tauto.
Qed.

(** A change that takes a pending row: what a run of them needs. *)
Definition takes_pending (c : Change) : Prop :=
  match c with Promote _ | Skip _ _ => True | _ => False end.

Lemma takes_pending_names rows c :
  takes_pending c → change_instances c = [] ∧ names (rows_apply rows c) = names rows.
Proof.
  intros Hc. assert (Hi : change_instances c = []) by by destruct c. split; [done|].
  by rewrite names_rows_apply, Hi, fmap_nil, app_nil_r.
Qed.

(** A run of them is legal on the rows it starts from, each on its own row. *)
Lemma valid_run rows cs :
  wf_rows rows → Forall takes_pending cs → valid_seq rows cs →
  NoDup (change_target <$> cs) ∧ Forall (valid rows) cs.
Proof.
  revert rows. induction cs as [|c cs IH]; intros rows Hwf Ht Hv; [split; constructor|].
  apply Forall_cons in Ht as [Hc Ht]. destruct Hv as [Hv Hvs].
  destruct (IH _ (valid_wf _ _ Hwf Hv) Ht Hvs) as [Hnd Hp]. rewrite Forall_forall in Hp, Ht.
  destruct (takes_pending_names rows c Hc) as [Hinst Hnames].
  assert (Hold : ∀ d, d ∈ cs → valid rows d ∧ change_target d ≠ change_target c).
  { intros d Hd. destruct (Hp d Hd) as (r' & Hr' & Hn & Hs). rewrite Hnames in Hs.
    apply elem_of_rows_apply in Hr' as [(r & Hr & ->)|(inst & Hin & _)];
      [|rewrite Hinst in Hin; by apply elem_of_nil in Hin].
    destruct (bool_decide_reflect (js_step_name r = change_target c)) as [E|E].
    - exfalso. specialize (Ht d Hd). destruct d; try done; destruct Hs as [Hs _];
        by apply change_row_status in Hs.
    - split; [exists r; split_and!; [done|done|]|congruence].
      specialize (Ht d Hd). by destruct d. }
  rewrite fmap_cons. split.
  - apply NoDup_cons. split; [|done]. intros (d & E & Hd)%list_elem_of_fmap.
    by destruct (Hold d Hd) as [_ []].
  - constructor; [done|]. apply Forall_forall. intros d Hd. by apply Hold.
Qed.

Lemma valid_pending rows c :
  takes_pending c → valid rows c →
  ∃ r, r ∈ rows ∧ js_step_name r = change_target c ∧ js_status r = "pending".
Proof. intros Hc (r & Hr & Hn & Hs). exists r. destruct c; naive_solver. Qed.

(** One statement over a run of names. *)
Lemma run_match db j rows (mk : string → Change) (h : JobStepRow → JobStepRow) f ns :
  wf_rows rows → rows_match db j rows →
  (∀ n, change_target (mk n) = n ∧ change_instances (mk n) = [] ∧ change_row (mk n) = h) →
  (∀ r rec, sim r (sr_row rec) → sim (h r) (sr_row (f rec))) →
  NoDup ns → (∀ n, n ∈ ns → ∃ r, r ∈ rows ∧ js_step_name r = n ∧ js_status r = "pending") →
  let u := update_job_steps j (λ n r, sql_in n ns && status_is "pending" r) f db in
  u.2 = length ns ∧ rows_match u.1 j (rows_after rows (mk <$> ns)) ∧ same_elsewhere j db u.1.
Proof.
  intros Hwf [Hm1 Hm2] Hmk Hf Hnd Hp u.
  assert (Hsel : ∀ n r rec, r ∈ rows → js_step_name r = n → db_step db !! (j, n) = Some rec → sim r (sr_row rec)).
  { intros n r rec Hr Hn Hrec. destruct (Hm1 r Hr) as (rec' & Hrec' & Hs). rewrite Hn in Hrec'. by simplify_eq. }
  assert (Htgt : change_target <$> (mk <$> ns) = ns).
  { rewrite <-list_fmap_compose. rewrite <-(list_fmap_id ns) at 2. apply list_fmap_ext. intros i n _. apply Hmk. }
  assert (Hel : ∀ r', r' ∈ rows_after rows (mk <$> ns) ↔
            (∃ r, r ∈ rows ∧ js_step_name r ∈ ns ∧ r' = h r) ∨ (r' ∈ rows ∧ js_step_name r' ∉ ns)).
  { intros r'. rewrite elem_of_rows_after_simple, Htgt; [| |by rewrite Htgt].
    - setoid_rewrite list_elem_of_fmap. split.
      + intros [(r & c & Hr & (n & -> & Hn) & E & ->)|?]; [|by right].
        destruct (Hmk n) as (Et & _ & ->). left. exists r. rewrite E, Et. done.
      + intros [(r & Hr & Hn & ->)|?]; [|by right]. left. exists r, (mk (js_step_name r)).
        destruct (Hmk (js_step_name r)) as (-> & _ & ->). eauto 6.
    - apply Forall_forall. intros c (n & -> & _)%list_elem_of_fmap. apply Hmk. }
  assert (Hname : ∀ r, r ∈ rows → js_step_name (h r) = js_step_name r).
  { intros r _. destruct (Hmk "") as (_ & _ & <-). apply change_row_name. }
  subst u. split_and!; [| |apply same_elsewhere_steps].
  - apply update_job_steps_count; [done|]. intros n. split.
    + intros Hn. destruct (Hp n Hn) as (r & Hr & Er & Hs). destruct (Hm1 r Hr) as (rec & Hrec & Hsim).
      rewrite Er in Hrec. exists rec. split; [done|]. apply andb_true_iff. split; [by apply bool_decide_eq_true|].
      apply bool_decide_eq_true. destruct Hsim as (_ & E & _). unfold sr_status. congruence.
    + by intros (r & _ & [Hn%bool_decide_eq_true _]%andb_true_iff).
  - split.
    + intros r' [(r & Hr & Hn & ->)|[Hr Hn]]%Hel.
      * destruct (Hm1 r Hr) as (rec & Hrec & Hsim). rewrite (Hname r Hr). exists (f rec).
        split; [|by apply Hf]. rewrite lookup_update_job_steps, Hrec. simpl.
        rewrite bool_decide_true by done. simpl. unfold sql_in. rewrite bool_decide_true by done. simpl.
        destruct (Hp _ Hn) as (r2 & Hr2 & E2 & Hs2).
        assert (r2 = r) as -> by (apply (rows_name_inj rows); [apply Hwf|done..]).
        unfold status_is, sr_status. destruct Hsim as (_ & -> & _). by rewrite Hs2.
      * destruct (Hm1 r' Hr) as (rec & Hrec & Hsim). exists rec. split; [|done].
        rewrite lookup_update_job_steps, Hrec. simpl. rewrite bool_decide_true by done. simpl.
        unfold sql_in. by rewrite bool_decide_false.
    + intros n rec. rewrite lookup_update_job_steps. intros (rec0 & Hrec0 & _)%fmap_Some.
      apply Hm2 in Hrec0 as (r & -> & Hr)%list_elem_of_fmap. apply list_elem_of_fmap.
      destruct (decide (js_step_name r ∈ ns)) as [Hin|Hin].
      * exists (h r). split; [by rewrite Hname|]. apply Hel. left. eauto.
      * exists r. split; [done|]. apply Hel. by right.
Qed.

(** ** Skips by reason *)

Definition unbucket (bs : list (SkipReason * list string)) : list (string * SkipReason) :=
  flat_map (λ b, (λ n, (n, b.1)) <$> b.2) bs.

Lemma unbucket_add bs p : unbucket (bucket_add bs p) ≡ₚ p :: unbucket bs.
Proof.
  destruct p as [n r]. induction bs as [|[r' ns] bs IH]; [done|]. cbn [bucket_add].
  case_bool_decide as E; simpl in E; cbn [unbucket flat_map].
  - subst r'. cbn [fst snd]. rewrite fmap_app, <-app_assoc. symmetry. apply Permutation_middle.
  - change (flat_map _ (bucket_add bs (n, r))) with (unbucket (bucket_add bs (n, r))).
    rewrite IH. symmetry. apply Permutation_middle.
Qed.

Lemma unbucket_buckets skips : unbucket (buckets skips) ≡ₚ skips.
Proof.
  unfold buckets. assert (∀ bs, unbucket (fold_left bucket_add skips bs) ≡ₚ unbucket bs ++ skips) as H.
  { induction skips as [|p skips IH]; intros bs; simpl; [by rewrite app_nil_r|].
    rewrite IH, unbucket_add. simpl. by rewrite Permutation_middle. }
  by rewrite H.
Qed.

Definition skip_of (p : string * SkipReason) : Change := Skip p.1 p.2.

(** The same assignments on both sides. *)
Ltac solve_sim :=
  unfold sim; intros (? & ? & ? & ? & ? & ? & ? & ? & ? & ? & ?); split_and!; cbn; try done;
  match goal with |- is_Some (Some _) ↔ is_Some (Some _) => split; intros _; eexists; reflexivity end.

Lemma sim_skip now reason r rec :
  sim r (sr_row rec) →
  sim (change_row (Skip "" reason) r)
    (sr_row (assign [put_status "skipped"; upd_row (set_skip_reason (Some (SkipReason.as_str reason)));
                     put_completed_at now] rec)).
Proof. solve_sim. Qed.

Lemma sim_promote now r rec :
  sim r (sr_row rec) →
  sim (set_status "ready" r) (sr_row (assign [put_status "ready"; set_ready_at (Some now)] rec)).
Proof. solve_sim. Qed.

Lemma skip_targets skips : change_target <$> (skip_of <$> skips) = skips.*1.
Proof. rewrite <-list_fmap_compose. done. Qed.

Lemma skips_seq rows skips :
  wf_rows rows → NoDup skips.*1 →
  (∀ n, n ∈ skips.*1 → ∃ r, r ∈ rows ∧ js_step_name r = n ∧ js_status r = "pending") →
  (∀ n r, n ∈ skips.*1 → r ∈ rows → js_step_name r = n → is_placeholder r = true → instance_name n 0 ∉ names rows) →
  valid_seq rows (skip_of <$> skips).
Proof.
  intros Hwf Hnd Hp Hph. apply valid_batch; [done| |by rewrite skip_targets].
  apply Forall_forall. intros c ([n re] & -> & Hin)%list_elem_of_fmap.
  assert (Hn : n ∈ skips.*1) by (apply list_elem_of_fmap; by exists (n, re)).
  destruct (Hp n Hn) as (r & Hr & Er & Hs). exists r. split_and!; [done..|]. split; [done|]. intros Hpl. by apply (Hph n r).
Qed.

Lemma valid_skip_first rows n re r :
  wf_rows rows → valid rows (Skip n re) → r ∈ rows → js_step_name r = n → is_placeholder r = true →
  instance_name n 0 ∉ names rows.
Proof.
  intros Hwf (r' & Hr' & Hn' & _ & Hi) Hr Hn.
  assert (r = r') as <- by (apply (rows_name_inj rows); [apply Hwf|done..|simpl in *; congruence]).
  exact Hi.
Qed.

Lemma apply_buckets_match now j bs db rows :
  wf_rows rows → rows_match db j rows → valid_seq rows (skip_of <$> unbucket bs) →
  ∃ db', apply_buckets now j bs db = Ok db' ∧ rows_match db' j (rows_after rows (skip_of <$> unbucket bs)) ∧
    same_elsewhere j db db' ∧ db_job db' = db_job db.
Proof.
  revert db rows. induction bs as [|[reason ns] bs IH]; intros db rows Hwf Hm Hv; [by exists db|].
  cbn [unbucket flat_map] in *. change (flat_map _ bs) with (unbucket bs) in *. simpl in Hv |- *.
  rewrite fmap_app in Hv |- *. apply valid_seq_app in Hv as [Hv1 Hv2].
  assert (Emk : skip_of <$> ((λ n, (n, reason)) <$> ns) = (λ n, Skip n reason) <$> ns)
    by by rewrite <-list_fmap_compose.
  rewrite Emk in *.
  assert (Htp : Forall takes_pending ((λ n, Skip n reason) <$> ns)).
  { apply Forall_forall. by intros c (n & -> & _)%list_elem_of_fmap. }
  destruct (valid_run rows _ Hwf Htp Hv1) as [Hnd Hp]. rewrite Forall_forall in Hp.
  rewrite <-list_fmap_compose in Hnd. unfold compose in Hnd. simpl in Hnd. rewrite list_fmap_id in Hnd.
  destruct (run_match db j rows (λ n, Skip n reason) (change_row (Skip "" reason))
    (assign [put_status "skipped"; upd_row (set_skip_reason (Some (SkipReason.as_str reason)));
             put_completed_at now]) ns Hwf Hm) as (Hc & Hm' & He); [done| |done| |].
  { intros r rec. apply sim_skip. }
  { intros n Hn. apply (valid_pending rows (Skip n reason)); [done|]. apply Hp, list_elem_of_fmap. by exists n. }
  unfold skip_steps_tx. destruct (update_job_steps _ _ _ _) as [db1 c] eqn:E. simpl in Hc, Hm', He.
  rewrite Hc. unfold expect_rows. rewrite Nat.eqb_refl. simpl.
  destruct (IH db1 _ (valid_seq_wf _ _ Hwf Hv1) Hm' Hv2) as (db' & -> & Hm'' & He' & Hj).
  exists db'. split_and!; [done|by rewrite rows_after_app|by transitivity db1|].
  rewrite Hj. change db1 with (db1, c).1. rewrite <-E. done.
Qed.

(** ** One change, one statement *)

Lemma one_match db j rows c g f :
  wf_rows rows → rows_match db j rows → change_instances c = [] →
  (∃ r, r ∈ rows ∧ js_step_name r = change_target c ∧ ∀ rec, sim r (sr_row rec) → g rec = true) →
  (∀ r rec, sim r (sr_row rec) → sim (change_row c r) (sr_row (f rec))) →
  let u := update_step j (change_target c) g f db in
  u.2 = 1%nat ∧ rows_match u.1 j (rows_apply rows c) ∧ same_elsewhere j db u.1 ∧ db_job u.1 = db_job db.
Proof.
  intros Hwf [Hm1 Hm2] Hi (rt & Hrt & Hnt & Hg) Hf u.
  destruct (Hm1 rt Hrt) as (rec & Hrec & Hsim). rewrite Hnt in Hrec. specialize (Hg rec Hsim).
  subst u. split_and!; [| |apply same_elsewhere_step|done].
  - by rewrite update_step_count, Hrec, Hg.
  - split.
    + intros r' [(r & Hr & ->)|(inst & Hin & _)]%elem_of_rows_apply;
        [|rewrite Hi in Hin; by apply elem_of_nil in Hin].
      destruct (bool_decide_reflect (js_step_name r = change_target c)) as [E|E].
      * assert (r = rt) as -> by (apply (rows_name_inj rows); [apply Hwf|done..|congruence]).
        rewrite change_row_name, Hnt, lookup_update_step_eq, Hrec. simpl. rewrite Hg. eauto.
      * destruct (Hm1 r Hr) as (rec' & Hrec' & Hsim'). exists rec'.
        rewrite lookup_update_step_ne by congruence. done.
    + intros n rec'. rewrite names_rows_apply, Hi, fmap_nil, app_nil_r.
      destruct (decide (n = change_target c)) as [->|Hne].
      * intros _. rewrite <-Hnt. by apply list_elem_of_fmap_2.
      * rewrite lookup_update_step_ne by congruence. apply Hm2.
Qed.

(** Inserting the instances of an expansion. *)
Lemma insert_steps_lookup now jobs insts t t' k :
  insert_steps now jobs insts t = Ok t' →
  t' !! k = match list_find (λ s, step_key s = k) insts with
            | Some (_, s) => match t !! k with Some r => Some r | None => Some (new_step_rec now s) end
            | None => t !! k
            end.
Proof.
  revert t. induction insts as [|s insts IH]; intros t E; cbn [insert_steps list_find] in *; [by simplify_eq|].
  destruct (jobs !! _) as [?|]; [|done]. destruct (t !! step_key s) eqn:Hs; [done|]. rewrite (IH _ E).
  destruct (decide (step_key s = k)) as [<-|Hne].
  - simpl. rewrite Hs. rewrite lookup_insert_eq. by destruct (list_find _ insts) as [[? ?]|].
  - rewrite lookup_insert_ne by done. by destruct (list_find _ insts) as [[? ?]|].
Qed.

Lemma insert_steps_ok now jobs insts t j job :
  jobs !! j = Some job → Forall (λ s, nj_job_id s = j) insts → NoDup (nj_step_name <$> insts) →
  (∀ s, s ∈ insts → t !! (j, nj_step_name s) = None) → ∃ t', insert_steps now jobs insts t = Ok t'.
Proof.
  intros Hj. revert t. induction insts as [|s insts IH]; intros t Hjid Hnd Hf; cbn [insert_steps]; [by eexists|].
  apply Forall_cons in Hjid as [Hs Hjid]. rewrite fmap_cons in Hnd. apply NoDup_cons in Hnd as [Hni Hnd].
  unfold step_key. rewrite Hs, Hj, Hf by left. apply IH; [done|done|].
  intros s' Hs'. rewrite lookup_insert_ne; [apply Hf; by right|]. intros [= E]. apply Hni. rewrite E.
  by apply list_elem_of_fmap_2.
Qed.

Lemma sim_synthetic now inst :
  nj_for_each_expr inst = None → nj_when_condition inst = None → is_Some (nj_loop_source inst) →
  sim (synthetic_row inst) (sr_row (new_step_rec now inst)).
Proof. intros H1 H2 H3. unfold sim. simpl. rewrite H1, H2. split_and!; try done. by right. Qed.

(** Instances as [phase_placeholders] builds them: of this job, with no
    condition of their own. *)
Definition instances_for (j : Uuid) (c : Change) : Prop :=
  ∀ inst, inst ∈ change_instances c → nj_job_id inst = j ∧ nj_when_condition inst = None.

(** A loop small enough for the one statement that creates its instances. *)
Definition fits (c : Change) : Prop := (cols_per_row * length (change_instances c) ≤ MAX_BIND_PARAMS)%nat.
Definition loadable (j : Uuid) (c : Change) : Prop := instances_for j c ∧ fits c.

Lemma expand_match now db j rows job p insts :
  wf_rows rows → rows_match db j rows → valid rows (Expand p insts) → loadable j (Expand p insts) →
  db_job db !! j = Some job →
  let u := start_placeholder_tx now j p db in
  u.2 = 1%nat ∧ ∃ db', create_steps_tx now insts u.1 = Ok db' ∧
    rows_match db' j (rows_apply rows (Expand p insts)) ∧ same_elsewhere j db db' ∧ db_job db' = db_job db.
Proof.
  intros Hwf Hm Hv [Hfor Hfit] Hj u. pose proof (valid_fresh _ _ Hwf Hv) as Hfresh.
  destruct Hv as (r & Hr & Hn & Hs & Hpl & (Hne & Hlen & Hi) & H0).
  destruct (one_match db j rows (Adopt p) (status_is "pending")
    (assign [put_status "running"; upd_row (set_started_at (Some now))]) Hwf Hm) as (Hc & Hm' & He & Hj'); [done| |..].
  { exists r. split_and!; [done..|]. intros rec (_ & E & _). unfold status_is, sr_status. rewrite E, Hs. done. }
  { intros r' rec. solve_sim. }
  cbn [change_target] in *. subst u. unfold start_placeholder_tx in *. split; [done|].
  set (db1 := (update_step _ _ _ _ db).1) in *. unfold create_steps_tx. rewrite bool_decide_false by done.
  rewrite (proj2 (Nat.ltb_ge _ _)) by exact Hfit.
  apply NoDup_app in Hfresh as (_ & Hdis & Hnd). cbn [change_instances] in *.
  assert (Hnames : names (rows_apply rows (Adopt p)) = names rows)
    by (rewrite names_rows_apply; exact (app_nil_r _)).
  assert (Hnone : ∀ s, s ∈ insts → db_step db1 !! (j, nj_step_name s) = None).
  { intros s Hin. destruct (db_step db1 !! (j, nj_step_name s)) as [rec|] eqn:Hrec; [|done]. exfalso.
    destruct Hm' as [_ Hm2]. apply Hm2 in Hrec. rewrite Hnames in Hrec.
    apply (Hdis _ Hrec). by apply list_elem_of_fmap_2. }
  destruct (insert_steps_ok now (db_job db1) insts (db_step db1) j job) as [t Et]; [by rewrite Hj'| |done|done|].
  { apply Forall_forall. intros s Hin. by apply Hfor. }
  rewrite Et. simpl. eexists. split; [done|]. split_and!.
  - split.
    + intros r' Hin. rewrite elem_of_rows_apply in Hin. cbn [change_instances change_target change_row] in Hin.
      simpl. rewrite (insert_steps_lookup _ _ _ _ _ _ Et).
      destruct Hin as [(r0 & Hr0 & ->)|(inst & Hin & ->)].
      * assert (Hin1 : (if js_step_name r0 ==? p then set_status "running" r0 else r0) ∈ rows_apply rows (Adopt p))
          by (apply elem_of_rows_apply; left; eauto).
        destruct (proj1 Hm' _ Hin1) as (rec & Hrec & Hsim). rewrite Hrec.
        exists rec. split; [by repeat case_match|done].
      * destruct (list_find _ insts) as [[i s]|] eqn:Hfind.
        -- apply list_find_Some in Hfind as (Hl & Ek & _). cbn [js_step_name synthetic_row].
           assert (s ∈ insts) as Hsin by by eapply list_elem_of_lookup_2.
           rewrite (Hnone inst Hin).
           assert (s = inst) as ->.
           { unfold step_key in Ek. injection Ek as _ En. apply list_elem_of_lookup_1 in Hin as [k Hk].
             assert (i = k) as <-; [|congruence].
             apply (proj1 (NoDup_alt _) Hnd i k (nj_step_name inst)); rewrite list_lookup_fmap.
             - rewrite Hl. simpl. f_equal. exact En.
             - by rewrite Hk. }
           eexists. split; [done|]. apply list_elem_of_lookup_1 in Hin as [k Hk].
           apply sim_synthetic; [by destruct (Hi _ _ Hk) as (_ & _ & _ & ? & _)|by apply Hfor|]. destruct (Hi _ _ Hk) as (_ & -> & _). done.
        -- apply list_find_None in Hfind. rewrite Forall_forall in Hfind. exfalso. apply (Hfind inst Hin).
           unfold step_key. f_equal. by apply Hfor.
    + intros n rec. simpl. rewrite (insert_steps_lookup _ _ _ _ _ _ Et), names_rows_apply, elem_of_app.
      destruct (list_find _ insts) as [[i s]|] eqn:Hfind.
      * intros _. right. apply list_find_Some in Hfind as (Hl & Ek & _). unfold step_key in Ek. simplify_eq.
        apply list_elem_of_fmap_2. by eapply list_elem_of_lookup_2.
      * intros Hrec. left. rewrite <-Hnames. by eapply (proj2 Hm').
  - intros k Hk. simpl. rewrite (insert_steps_lookup _ _ _ _ _ _ Et), <-(He k Hk).
    destruct (list_find _ insts) as [[i s]|] eqn:Hfind; [|done].
    apply list_find_Some in Hfind as (Hl & Ek & _). destruct Hk. rewrite <-Ek. simpl.
    apply Hfor. by eapply list_elem_of_lookup_2.
  - done.
Qed.

(** ** Statements *)

Definition flatten (s : Stmt) : list Change :=
  match s with
  | SPromotes ns => Promote <$> ns
  | SSkips l => skip_of <$> l
  | SOne c => [c]
  end.

Lemma statements_flatten cs : flat_map flatten (statements cs) = cs.
Proof.
  induction cs as [|c cs IH]; [done|].
  destruct c; cbn [statements]; try (simpl; by rewrite IH);
    (destruct (statements cs) as [|[| |] rest]; rewrite <-IH; done).
Qed.

(** The runs hold no single promotion or skip. *)
Definition proper_stmt (s : Stmt) : Prop :=
  match s with SOne (Promote _ | Skip _ _) => False | _ => True end.

Lemma statements_proper cs : Forall proper_stmt (statements cs).
Proof.
  induction cs as [|c cs IH]; [constructor|].
  destruct c; cbn [statements]; try (by constructor);
    (destruct (statements cs) as [|[| |] rest]; try (by constructor);
     apply Forall_cons in IH as [? ?]; by repeat constructor).
Qed.

Definition scrub_stmt (redact : option (string → string)) (s : Stmt) : Stmt :=
  match s with SOne c => SOne (scrub redact c) | _ => s end.

Lemma statements_scrub redact cs :
  statements (map (scrub redact) cs) = map (scrub_stmt redact) (statements cs).
Proof.
  induction cs as [|c cs IH]; [done|].
  destruct c; simpl; destruct redact; simpl; rewrite ?IH; try done;
    by destruct (statements cs) as [|[| |] rest].
Qed.

(** Whether a plan starts a loop. *)
Definition starts_loop (c : Change) : bool :=
  match c with Expand _ _ | Adopt _ => true | _ => false end.

Section apply.
Context (now : Time) (j : Uuid) (job : JobRec) (redact : option (string → string)).

(** What a statement must do to follow the changes [cs]. *)
Definition follows (cs : list Change) (rows : list JobStepRow) (db : Db) (s : Stmt) : Prop :=
  ∃ db' a, apply_stmt now j (scrub_stmt redact s) db = Ok (db', a, existsb starts_loop cs) ∧
    rows_match db' j (rows_after rows cs) ∧ same_elsewhere j db db' ∧ db_job db' = db_job db.

Lemma rows_match_perm db rows cs cs' :
  Forall (λ c, change_instances c = []) cs → NoDup (change_target <$> cs) → cs ≡ₚ cs' →
  rows_match db j (rows_after rows cs) → rows_match db j (rows_after rows cs').
Proof.
  intros Hi Hnd Hperm [Hm1 Hm2].
  assert (Hi' : Forall (λ c, change_instances c = []) cs') by by rewrite <-Hperm.
  assert (Hnd' : NoDup (change_target <$> cs')) by by rewrite <-Hperm.
  assert (Hel : ∀ r, r ∈ rows_after rows cs' ↔ r ∈ rows_after rows cs).
  { intros r. rewrite !elem_of_rows_after_simple by done. by setoid_rewrite Hperm. }
  split.
  - intros r Hr. by apply Hm1, Hel.
  - intros n rec Hrec. apply Hm2 in Hrec as (r & -> & Hr)%list_elem_of_fmap.
    by apply list_elem_of_fmap_2, Hel.
Qed.

Lemma apply_skips_match skips db rows :
  wf_rows rows → rows_match db j rows → valid_seq rows (skip_of <$> skips) →
  follows (skip_of <$> skips) rows db (SSkips skips).
Proof.
  intros Hwf Hm Hv.
  assert (Htp : Forall takes_pending (skip_of <$> skips))
    by (apply Forall_forall; by intros c (n & -> & _)%list_elem_of_fmap).
  destruct (valid_run rows _ Hwf Htp Hv) as [Hnd Hp].
  pose proof (unbucket_buckets skips) as Hperm.
  assert (Hv' : valid_seq rows (skip_of <$> unbucket (buckets skips))).
  { apply valid_batch; [done| |]; by rewrite Hperm. }
  destruct (apply_buckets_match now j _ db rows Hwf Hm Hv') as (db' & E & Hm' & He & Hj).
  unfold follows. simpl. rewrite E. simpl. eexists _, _. split.
  { f_equal. f_equal. clear. induction skips; [done|]. simpl. done. }
  split_and!; [|done|done].
  eapply rows_match_perm; [| | |done].
  - apply Forall_forall. by intros c (n & -> & _)%list_elem_of_fmap.
  - by rewrite Hperm.
  - by rewrite Hperm.
Qed.

(** A change that is a statement of its own. *)
Lemma apply_one_match c db rows :
  wf_rows rows → rows_match db j rows → db_job db !! j = Some job →
  proper_stmt (SOne c) → valid rows c → loadable j c → follows [c] rows db (SOne c).
Proof.
  intros Hwf Hm Hj Hproper Hv Hfor.
  assert (Hst : ∀ r rec st, js_status r = st → sim r (sr_row rec) → status_is st rec = true).
  { intros r rec st <- (_ & E & _). unfold status_is, sr_status. rewrite E. by apply bool_decide_eq_true. }
  unfold follows. destruct c as [|  |n e|p insts|p|p o]; try done.
  - destruct Hv as (r & Hr & Hn & Hs & _).
    destruct (one_match db j rows (Fail n e) (status_is "pending")
      (assign [put_status "failed"; put_error (match redact with Some f => f e | None => e end);
               put_completed_at now]) Hwf Hm) as (Hc & ? & ? & ?); [done|naive_solver| |].
    { intros r' rec. solve_sim. }
    simpl. destruct redact as [f|]; simpl; unfold fail_pending_step_tx in *; cbn [change_target] in *;
      destruct (update_step _ _ _ _ _) as [db1 cnt]; simpl in *; subst cnt; by eexists _, _.
  - destruct (expand_match now db j rows job p insts Hwf Hm Hv Hfor Hj) as (Hc & db' & E & ? & ? & ?).
    replace (scrub_stmt redact (SOne (Expand p insts))) with (SOne (Expand p insts)) by by destruct redact.
    simpl. destruct (start_placeholder_tx _ _ _ _) as [db1 cnt]. simpl in *. subst cnt. simpl.
    rewrite E. by eexists _, _.
  - destruct Hv as (r & Hr & Hn & Hs & _).
    destruct (one_match db j rows (Adopt p) (status_is "pending")
      (assign [put_status "running"; upd_row (set_started_at (Some now))]) Hwf Hm) as (Hc & ? & ? & ?);
      [done|naive_solver| |].
    { intros r' rec. solve_sim. }
    replace (scrub_stmt redact (SOne (Adopt p))) with (SOne (Adopt p)) by by destruct redact.
    simpl. unfold start_placeholder_tx in *. cbn [change_target] in *.
    destruct (update_step _ _ _ _ _) as [db1 cnt]; simpl in *; subst cnt. by eexists _, _.
  - destruct Hv as (r & Hr & Hn & Hs & _).
    replace (scrub_stmt redact (SOne (Rollup p o))) with (SOne (Rollup p o)) by by destruct redact.
    destruct o as [out|e out].
    + destruct (one_match db j rows (Rollup p (RollupCompleted out)) (status_is "running")
        (assign [put_status "completed"; upd_row (set_output (Some out)); put_completed_at now]) Hwf Hm)
        as (Hc & ? & ? & ?); [done|naive_solver| |].
      { intros r' rec. solve_sim. }
      simpl. unfold complete_placeholder_tx in *. cbn [change_target] in *.
      destruct (update_step _ _ _ _ _) as [db1 cnt]; simpl in *; subst cnt. by eexists _, _.
    + destruct (one_match db j rows (Rollup p (RollupFailed e out)) (status_is "running")
        (assign [put_status "failed"; put_error e; upd_row (set_output (Some out)); put_completed_at now]) Hwf Hm)
        as (Hc & ? & ? & ?); [done|naive_solver| |].
      { intros r' rec. solve_sim. }
      simpl. unfold fail_placeholder_tx in *. cbn [change_target] in *.
      destruct (update_step _ _ _ _ _) as [db1 cnt]; simpl in *; subst cnt. by eexists _, _.
Qed.

Lemma apply_stmt_match s db rows :
  wf_rows rows → rows_match db j rows → db_job db !! j = Some job →
  proper_stmt s → valid_seq rows (flatten s) → Forall (loadable j) (flatten s) →
  follows (flatten s) rows db s.
Proof.
  intros Hwf Hm Hj Hproper Hv Hfor. destruct s as [ns|skips|c]; cbn [flatten] in *.
  - assert (Htp : Forall takes_pending (Promote <$> ns))
      by (apply Forall_forall; by intros c (n & -> & _)%list_elem_of_fmap).
    destruct (valid_run rows _ Hwf Htp Hv) as [Hnd Hp]. rewrite Forall_forall in Hp.
    assert (Et : change_target <$> (Promote <$> ns) = ns)
      by (rewrite <-list_fmap_compose; apply list_fmap_id). rewrite Et in Hnd.
    destruct (run_match db j rows Promote (set_status "ready")
      (assign [put_status "ready"; set_ready_at (Some now)]) ns Hwf Hm) as (Hc & Hm' & He); [done| |done| |].
    { intros r rec. apply sim_promote. }
    { intros n Hn. apply (valid_pending rows (Promote n)); [done|]. apply Hp. by apply list_elem_of_fmap_2. }
    destruct (update_job_steps _ _ _ _) as [db1 c] eqn:E. simpl in Hc, Hm', He.
    unfold follows. simpl. unfold promote_steps_tx. rewrite E, Hc. unfold expect_rows.
    rewrite Nat.eqb_refl. simpl. eexists _, _. split.
    { f_equal. f_equal. clear. induction ns; [done|]. simpl. done. }
    split_and!; [done|done|]. change db1 with (db1, c).1. by rewrite <-E.
  - by apply apply_skips_match.
  - apply Forall_cons in Hfor as [Hfor _]. destruct Hv as [Hv _]. by apply apply_one_match.
Qed.

Lemma apply_stmts_match ss db rows :
  wf_rows rows → rows_match db j rows → db_job db !! j = Some job →
  Forall proper_stmt ss → valid_seq rows (flat_map flatten ss) →
  Forall (loadable j) (flat_map flatten ss) →
  ∃ db' a, apply_stmts now j (map (scrub_stmt redact) ss) db =
             Ok (db', a, existsb starts_loop (flat_map flatten ss)) ∧
    rows_match db' j (rows_after rows (flat_map flatten ss)) ∧ same_elsewhere j db db' ∧
    db_job db' = db_job db.
Proof.
  revert db rows. induction ss as [|s ss IH]; intros db rows Hwf Hm Hj Hpr Hv Hfor; [by eexists _, _|].
  cbn [flat_map map apply_stmts] in *. apply Forall_cons in Hpr as [Hs Hpr].
  apply valid_seq_app in Hv as [Hv1 Hv2]. apply Forall_app in Hfor as [Hf1 Hf2].
  destruct (apply_stmt_match s db rows Hwf Hm Hj Hs Hv1 Hf1) as (db1 & a1 & -> & Hm1 & He1 & Hj1).
  destruct (IH db1 _ (valid_seq_wf _ _ Hwf Hv1) Hm1) as (db2 & a2 & E2 & Hm2 & He2 & Hj2);
    [by rewrite Hj1|done|done|done|].
  simpl. rewrite E2. simpl. eexists _, _. split; [by rewrite existsb_app|].
  split_and!; [by rewrite rows_after_app|by transitivity db1|congruence].
Qed.

Lemma apply_match cs db rows :
  wf_rows rows → rows_match db j rows → db_job db !! j = Some job → valid_seq rows cs →
  Forall (loadable j) cs →
  ∃ db' a, apply now j (map (scrub redact) cs) db = Ok (db', a) ∧
    rows_match db' j (rows_after rows cs) ∧ same_elsewhere j db db' ∧
    db_job db' !! j = Some (if existsb starts_loop cs && (jr_status job ==? "pending")
                            then assign [put_job_status "running"; upd_job (jset_started_at (Some now))] job
                            else job).
Proof.
  intros Hwf Hm Hj Hv Hfor. unfold apply. rewrite statements_scrub.
  destruct (apply_stmts_match (statements cs) db rows Hwf Hm Hj) as (db' & a & E & Hm' & He & Hj');
    [apply statements_proper|by rewrite statements_flatten..|].
  rewrite statements_flatten in E, Hm'. rewrite E. simpl. eexists _, _. split; [done|].
  destruct (existsb starts_loop cs); simpl; [|split_and!; [done|done|by rewrite Hj']].
  split_and!; [done|done|]. unfold mark_running_if_pending_tx.
  rewrite lookup_update_job_eq, Hj', Hj. simpl. unfold job_status_in, sql_in. f_equal.
  destruct (bool_decide_reflect (jr_status job = "pending")) as [->|Hne]; [done|].
  rewrite bool_decide_false; [done|]. by intros ?%list_elem_of_singleton.
Qed.
End apply.

(** ** The instances of a plan *)

Section instances.
Context `{TemplateEngine, JsonParser}.
Context (task : TaskDef) (build_ctx : list JobStepRow → option json) (j : Uuid).

Lemma placeholder_row_instances snap ctx r : Forall (instances_for j) (placeholder_row snap task ctx j r).
Proof.
  unfold placeholder_row. destruct (flow task !! _); [|constructor].
  destruct (Snapshot.status _ _); [apply Forall_singleton; by intros ? ?%elem_of_nil|].
  destruct (gate_for _ _); [|constructor|apply Forall_singleton; by intros ? ?%elem_of_nil].
  destruct (js_when_condition r ≫= _) as [c|] eqn:Hw; apply Forall_singleton.
  - apply bind_Some in Hw as (w & _ & Hw).
    destruct (when_change_spec _ _ _ _ Hw) as [->|[e ->]]; by intros ? ?%elem_of_nil.
  - unfold expand_row. repeat case_match; try (by intros ? ?%elem_of_nil).
    intros inst (i & Hi)%list_elem_of_lookup_1. simpl in Hi. rewrite list_lookup_imap in Hi.
    apply fmap_Some in Hi as (item & _ & ->). done.
Qed.

Lemma no_instances cs : Forall (λ c, change_instances c = []) cs → Forall (instances_for j) cs.
Proof. intros Hcs. eapply Forall_impl; [done|]. intros c E inst Hin. rewrite E in Hin. by apply elem_of_nil in Hin. Qed.

Lemma phase_promote_instances fuel snap snap' cs :
  phase_promote fuel task build_ctx snap = Some (snap', cs) → Forall (instances_for j) cs.
Proof.
  revert snap cs. induction fuel as [|fuel IH]; intros snap cs E; [done|]. cbn [phase_promote] in E.
  case_bool_decide; [simplify_eq; constructor|]. apply bind_Some in E as ([s rest] & E & [= -> <-]).
  apply Forall_app. split; [|by eapply IH]. apply no_instances, Forall_flat_map'. intros r _.
  apply Forall_forall. intros c Hc. apply promote_row_shape in Hc as (_ & _ & [->|[[re ->]|[e ->]]]); done.
Qed.

Lemma rollup_no_instances snap ph : Forall (λ c, change_instances c = []) (rollup_placeholder snap task ph).
Proof.
  unfold rollup_placeholder. case_bool_decide; [constructor|]. case_match.
  - apply Forall_forall. by intros c (i & <- & _)%list_elem_of_In%in_map_iff.
  - apply Forall_app. split; [|unfold rollup_change; case_match; by repeat constructor].
    case_match; [|constructor]. apply Forall_flat_map'. intros i _. unfold advance_from.
    repeat case_match; by repeat constructor.
Qed.

Lemma cascade_pass_instances snap snap' cs :
  cascade_pass task build_ctx j snap = Some (snap', cs) → Forall (instances_for j) cs.
Proof.
  unfold cascade_pass. intros ([s1 p1] & E1 & [= <- <-])%bind_Some. rewrite !Forall_app. split_and!.
  - apply no_instances, Forall_flat_map'. intros ph _. apply rollup_no_instances.
  - by eapply phase_promote_instances.
  - unfold phase_placeholders. case_match; [|constructor]. apply Forall_flat_map'.
    intros r _. apply placeholder_row_instances.
Qed.

Lemma run_loop_instances n snap snap' cs hit :
  run_loop n task build_ctx j snap = Some (snap', cs, hit) → Forall (instances_for j) cs.
Proof.
  revert snap cs hit. induction n as [|n IH]; intros snap cs hit E; cbn [run_loop] in E; [simplify_eq; constructor|].
  apply bind_Some in E as ([s1 pass] & E1 & E). pose proof (cascade_pass_instances _ _ _ E1) as D1.
  case_bool_decide; [simplify_eq; constructor|].
  apply bind_Some in E as ([[s2 rest] hit'] & E2 & [= <- <- <-]).
  apply Forall_app. split; [done|by eapply IH].
Qed.

Lemma run_instances steps redact plan :
  run task j steps build_ctx redact = Some plan → Forall (instances_for j) plan.
Proof.
  unfold run, fixpoint. intros ([[snap cs] hit] & E & [= <-])%bind_Some. apply run_loop_instances in E.
  rewrite Forall_forall in E |- *. intros c' (c & <- & Hc%list_elem_of_In)%list_elem_of_In%in_map_iff. specialize (E c Hc).
  by destruct redact, c.
Qed.
End instances.

(** ** What a plan cannot touch *)

Lemma apply_buckets_elsewhere now j bs db db' :
  apply_buckets now j bs db = Ok db' → same_elsewhere j db db' ∧ db_job db' = db_job db.
Proof.
  revert db. induction bs as [|[re ns] bs IH]; intros db E; cbn [apply_buckets] in E; [by simplify_eq|].
  unfold skip_steps_tx in E.
  destruct (update_job_steps _ _ _ db) as [db1 n] eqn:Eu. apply (f_equal fst) in Eu. simpl in Eu. subst db1.
  apply res_bind_ok in E as (_ & _ & E). apply IH in E as [E1 ->].
  split; [etrans; [apply same_elsewhere_steps|exact E1]|apply update_job_steps_db_job].
Qed.

Lemma create_steps_elsewhere now j steps db db' :
  (∀ s, s ∈ steps → nj_job_id s = j) → create_steps_tx now steps db = Ok db' →
  same_elsewhere j db db' ∧ db_job db' = db_job db.
Proof.
  intros Hj E. unfold create_steps_tx in E. case_bool_decide; [by simplify_eq|]. case_match; [done|].
  destruct (insert_steps _ _ _ _) as [t|] eqn:Ei; simplify_eq/=. split; [|done]. intros k Hk. simpl.
  rewrite (insert_steps_lookup _ _ _ _ _ _ Ei).
  destruct (list_find _ steps) as [[i s]|] eqn:Hf; [|done].
  apply list_find_Some in Hf as (Hl & <- & _). apply list_elem_of_lookup_2 in Hl. destruct Hk. by apply Hj.
Qed.

Lemma apply_stmt_elsewhere now j s db db' a m :
  Forall (instances_for j) (flatten s) → apply_stmt now j s db = Ok (db', a, m) →
  same_elsewhere j db db' ∧ db_job db' = db_job db.
Proof.
  unfold apply_stmt. intros Hi E. destruct s as [ns|sk|[| | | | |p o]].
  1: unfold promote_steps_tx in E; destruct (update_job_steps _ _ _ db) as [db1 n] eqn:Eu;
     apply (f_equal fst) in Eu; simpl in Eu; subst db1; apply res_bind_ok in E as (_ & _ & [= <- _ _]);
     split; [apply same_elsewhere_steps|apply update_job_steps_db_job].
  1: apply res_bind_ok in E as (db1 & E & [= <- _ _]); by apply apply_buckets_elsewhere in E.
  1,2: by simplify_eq.
  all: unfold fail_pending_step_tx, start_placeholder_tx, complete_placeholder_tx, fail_placeholder_tx in E;
    try destruct o; destruct (update_step _ _ _ _ db) as [db1 n] eqn:Eu; apply (f_equal fst) in Eu; simpl in Eu;
    subst db1; apply res_bind_ok in E as (_ & _ & E).
  2:{ apply res_bind_ok in E as (db2 & E & [= <- _ _]).
      destruct (create_steps_tx _ _ _) as [db3|] eqn:Ec; [|done]. simpl in E. simplify_eq.
      cbn [flatten] in Hi. apply Forall_cons in Hi as [Hi _]. apply create_steps_elsewhere with (j := j) in Ec as [E1 ->];
        [|intros s Hs; by apply Hi].
      split; [etrans; [apply same_elsewhere_step|exact E1]|apply update_step_db_job]. }
  all: simplify_eq; split; [apply same_elsewhere_step|apply update_step_db_job].
Qed.

Lemma apply_stmts_elsewhere now j ss db db' a m :
  Forall (instances_for j) (flat_map flatten ss) → apply_stmts now j ss db = Ok (db', a, m) →
  same_elsewhere j db db' ∧ db_job db' = db_job db.
Proof.
  revert db a m. induction ss as [|s ss IH]; intros db a m Hi E; cbn [apply_stmts flat_map] in *; [by simplify_eq|].
  apply Forall_app in Hi as [H1 H2]. apply res_bind_ok in E as ([[db1 a1] m1] & E1 & E).
  apply res_bind_ok in E as ([[db2 a2] m2] & E2 & [= <- _ _]).
  destruct (apply_stmt_elsewhere _ _ _ _ _ _ _ H1 E1) as [S1 J1].
  destruct (IH _ _ _ H2 E2) as [S2 J2]. split; [by etrans|congruence].
Qed.

(** A plan of one job changes no other job's steps, and of the job rows at
    most its own, from pending to running. *)
Lemma apply_elsewhere now j plan db db' a :
  Forall (instances_for j) plan → apply now j plan db = Ok (db', a) →
  same_elsewhere j db db' ∧ (db_job db' = db_job db ∨ db_job db' = db_job (mark_running_if_pending_tx now j db)).
Proof.
  intros Hi E. unfold apply in E. apply res_bind_ok in E as ([[db1 a1] m] & E & [= <- _]).
  apply apply_stmts_elsewhere in E as [S J]; [|by rewrite statements_flatten].
  destruct m; [|by auto]. unfold mark_running_if_pending_tx. split.
  - intros k Hk. by rewrite update_job_db_step, S.
  - right. apply map_eq. intros k. rewrite !lookup_update_job, J. done.
Qed.

(** The rows read for a job match the database. *)
Lemma elem_of_steps_for_job `{Collation} db j r :
  r ∈ get_steps_for_job j db ↔ ∃ n rec, db_step db !! (j, n) = Some rec ∧ r = sr_row rec.
Proof.
  unfold get_steps_for_job, order_by_step_name, job_steps. rewrite elem_of_sort_by, list_elem_of_fmap. split.
  - intros (rec & -> & ([j' n] & Hrec & [E%bool_decide_eq_true _]%andb_true_iff)%elem_of_sql_select).
    simpl in E. subst j'. eauto.
  - intros (n & rec & Hrec & ->). exists rec. split; [done|]. apply elem_of_sql_select.
    exists (j, n). split; [done|]. by rewrite bool_decide_true.
Qed.

Lemma steps_match `{Collation} db j : steps_wf db → rows_match db j (get_steps_for_job j db).
Proof.
  intros Hwf. split.
  - intros r (n & rec & Hrec & ->)%elem_of_steps_for_job. destruct (Hwf _ _ Hrec) as (_ & En & _).
    simpl in En. rewrite En. exists rec. split; [done|]. split_and!; try done. by left.
  - intros n rec Hrec. destruct (Hwf _ _ Hrec) as (_ & En & _). simpl in En. rewrite <-En.
    apply list_elem_of_fmap_2, elem_of_steps_for_job. eauto.
Qed.

Lemma fixpoint_loadable `{TemplateEngine, JsonParser} task build_ctx j steps snap cs hit :
  wf_rows steps → fixpoint task j steps build_ctx = Some (snap, cs, hit) → Forall fits cs →
  Forall (loadable j) cs.
Proof.
  intros Hwf E Hfit. pose proof (run_loop_instances task build_ctx j _ _ _ _ _ E) as Hfor.
  apply Forall_and. done.
Qed.

(** ** Re-running *)

Section execute.
Context `{TemplateEngine, JsonParser, Collation}.
Context (now : Time) (j : Uuid) (task : TaskDef).
Context (build_ctx : JobRow → list JobStepRow → option json) (redact : option (string → string)).
Context (seen found : nat → Db) (deadlock : nat → bool).

(** The database an attempt reads holds the job, with its rows in shape and
    no loop too long for one insert. *)
Definition readable (k : nat) : Prop :=
  steps_wf (seen k) ∧ wf_rows (get_steps_for_job j (seen k)) ∧
  ∃ job, db_job (seen k) !! j = Some job ∧ j_job_id (jr_row job) = j ∧
    ∀ snap cs hit, fixpoint task j (get_steps_for_job j (seen k)) (build_ctx (jr_row job)) = Some (snap, cs, hit) →
      Forall fits cs.

(** What a returned plan is. *)
Definition committed (k : nat) (res : option Db * list Change) : Prop :=
  match res with
  | (None, plan) => plan = []
  | (Some db', plan) =>
      plan ≠ [] ∧ (∃ job, run task j (get_steps_for_job j (seen k)) (build_ctx job) redact = Some plan) ∧
      ∃ a, apply now j plan (found k) = Ok (db', a)
  end.

Abbreviation attempts := (attempts now j task build_ctx redact seen found deadlock).

Lemma attempts_succeed left k i cause :
  (k ≤ i < k + left)%nat → found i = seen i → deadlock i = false →
  (∀ m, (k ≤ m ≤ i)%nat → readable m) →
  (∀ m jb plan e, (k ≤ m < i)%nat →
     run task j (get_steps_for_job j (seen m)) (build_ctx jb) redact = Some plan →
     apply now j plan (found m) ≠ Err (DbErr e)) →
  ∃ res m, attempts left k cause = Ok res ∧ (k ≤ m ≤ i)%nat ∧ committed m res.
Proof.
  revert k cause. induction left as [|left IH]; intros k cause Hki Hf Hdl Hr Hdb; [lia|].
  cbn [CascadeApply.attempts].
  destruct (Hr k ltac:(lia)) as (Hwfdb & Hwf & job & Hj & Hid & Hfit). unfold get. rewrite Hj. simpl. rewrite Hid.
  destruct (fixpoint_spec task (build_ctx (jr_row job)) j _ Hwf) as (snap & cs & E & Hg & V & R & _).
  assert (Hrun : run task j (get_steps_for_job j (seen k)) (build_ctx (jr_row job)) redact =
                 Some (map (scrub redact) cs)) by (unfold run; by rewrite E).
  rewrite Hrun. case_bool_decide as Hnil; [exists (None, []), k; split_and!; [done|lia..|done]|].
  assert (Hnext : ∀ cause', k ≠ i → ∃ res m, attempts left (S k) cause' = Ok res ∧
            (k ≤ m ≤ i)%nat ∧ committed m res).
  { intros cause' Hne. destruct (IH (S k) cause') as (res & m & ? & ? & ?); [lia|done|done|..].
    - intros m Hm. apply Hr. lia.
    - intros m jb plan e Hm. apply (Hdb m jb). lia.
    - exists res, m. split_and!; [done|lia..|done]. }
  destruct (deadlock k) eqn:Hd; [apply Hnext; congruence|].
  destruct (apply now j _ (found k)) as [[db' a]|[step|e]] eqn:Ea.
  - exists (Some db', map (scrub redact) cs), k. split_and!; [done|lia..|].
    split_and!; [done|eauto|eauto].
  - apply Hnext. intros ->.
    pose proof (fixpoint_loadable _ _ _ _ _ _ _ Hwf E (Hfit _ _ _ E)) as Hfor.
    destruct (apply_match now j job redact cs (seen i) _ Hwf (steps_match _ j Hwfdb) Hj V Hfor)
      as (db' & a & Ea' & _). rewrite Hf, Ea' in Ea. done.
  - destruct (decide (k = i)) as [->|Hne]; [|by apply (Hdb k (jr_row job) _ e) in Ea; [|lia|exact Hrun]].
    pose proof (fixpoint_loadable _ _ _ _ _ _ _ Hwf E (Hfit _ _ _ E)) as Hfor.
    destruct (apply_match now j job redact cs (seen i) _ Hwf (steps_match _ j Hwfdb) Hj V Hfor)
      as (db' & a & Ea' & _). rewrite Hf, Ea' in Ea. done.
Qed.

(** The cascade survives interference. If any of its three attempts
    runs undisturbed (nothing else changed the database between its read
    and its transaction, and there was no deadlock) and the earlier ones met
    no other database error, the call succeeds by then; what it commits is one plan, computed from the rows one attempt
    read and applied whole by that attempt's transaction, and attempts that
    missed a guard or hit a deadlock wrote nothing. *)
Theorem cascade_execute_succeeds i :
  (1 ≤ i ≤ MAX_ATTEMPTS)%nat → found i = seen i → deadlock i = false →
  (∀ m, (1 ≤ m ≤ i)%nat → readable m) →
  (∀ m jb plan e, (1 ≤ m < i)%nat →
     run task j (get_steps_for_job j (seen m)) (build_ctx jb) redact = Some plan →
     apply now j plan (found m) ≠ Err (DbErr e)) →
  ∃ res m, execute now j task build_ctx redact seen found deadlock = Ok res ∧
    (1 ≤ m ≤ i)%nat ∧ committed m res.
Proof.
  intros Hi Hf Hd Hr Hdb. apply (attempts_succeed MAX_ATTEMPTS 1 i); [unfold MAX_ATTEMPTS in *; lia|done..].
Qed.
End execute.

(** ** Loops beyond the bind limit *)

Lemma apply_stmts_unfit now j p insts ss db res :
  SOne (Expand p insts) ∈ ss → ¬ fits (Expand p insts) → apply_stmts now j ss db ≠ Ok res.
Proof.
  intros Hin Hfit. revert db res. induction ss as [|s ss IH]; intros db res; [by apply elem_of_nil in Hin|].
  cbn [apply_stmts]. intros ([[db1 a1] m1] & E1 & E)%res_bind_ok.
  apply res_bind_ok in E as ([[db2 a2] m2] & E2 & _).
  apply elem_of_cons in Hin as [<-|Hin]; [|by apply (IH Hin db1 _ E2)].
  cbn [apply_stmt] in E1. destruct (start_placeholder_tx _ _ _ _) as [db' n].
  apply res_bind_ok in E1 as (_ & _ & (db'' & Ec & _)%res_bind_ok).
  unfold fits in Hfit. cbn [change_instances] in Hfit.
  unfold create_steps_tx in Ec. case_bool_decide as Hnil; [subst insts; simpl in Hfit; lia|].
  destruct (Nat.ltb_spec MAX_BIND_PARAMS (cols_per_row * length insts)); [done|lia].
Qed.

Lemma apply_unfit now j plan p insts db res :
  Expand p insts ∈ plan → ¬ fits (Expand p insts) → apply now j plan db ≠ Ok res.
Proof.
  intros Hin Hfit E. unfold apply in E. apply res_bind_ok in E as ([[db' a] m] & E & _).
  rewrite <-(statements_flatten plan) in Hin. apply elem_of_flat_map in Hin as (s & Hs & Hin).
  destruct s as [ns|skips|c]; simpl in Hin.
  - by apply list_elem_of_fmap in Hin as (? & ? & _).
  - by apply list_elem_of_fmap in Hin as (? & ? & _).
  - apply list_elem_of_singleton in Hin as <-. by eapply apply_stmts_unfit.
Qed.

Lemma unfit_expands cs : ¬ Forall fits cs → ∃ p insts, Expand p insts ∈ cs ∧ ¬ fits (Expand p insts).
Proof.
  intros (c & Hc & Hn)%not_Forall_Exists%Exists_exists; [|intros c; unfold fits; apply _].
  destruct c as [| | |p insts| |]; try (destruct Hn; unfold fits; cbn [change_instances length]; rewrite Nat.mul_0_r; apply Nat.le_0_l). eauto.
Qed.

Lemma expand_scrubbed redact p insts cs : Expand p insts ∈ cs → Expand p insts ∈ map (scrub redact) cs.
Proof. intros Hin. apply list_elem_of_In, in_map_iff. exists (Expand p insts). split; [by destruct redact|by apply list_elem_of_In]. Qed.

(** C3. Writing the plan refines computing it. On the database the cascade
    read, with the rows in a job's shape: when every loop the plan starts fits
    one insert (at most 2184 items), every statement finds exactly the rows it
    names (no guard miss, no duplicate key), the transaction commits, and the
    job's rows are the ones the in-memory fixpoint ended with, on every column
    but timestamps, the wording of an error and the pins of a new instance;
    other jobs are untouched, and the job moves from pending to running exactly
    when the plan starts a loop. When a loop does not fit, the transaction is
    refused as a whole. *)
Theorem cascade_apply_refines `{TemplateEngine, JsonParser, Collation} now task build_ctx redact db j job snap cs hit :
  steps_wf db → db_job db !! j = Some job → wf_rows (get_steps_for_job j db) →
  fixpoint task j (get_steps_for_job j db) build_ctx = Some (snap, cs, hit) →
  run task j (get_steps_for_job j db) build_ctx redact = Some (map (scrub redact) cs) ∧
  (Forall fits cs → ∃ db' a,
    apply now j (map (scrub redact) cs) db = Ok (db', a) ∧
    rows_match db' j (sn_rows snap) ∧ same_elsewhere j db db' ∧
    db_job db' !! j = Some (if existsb starts_loop cs && (jr_status job ==? "pending")
                            then assign [put_job_status "running"; upd_job (jset_started_at (Some now))] job
                            else job)) ∧
  (¬ Forall fits cs → ∃ e, apply now j (map (scrub redact) cs) db = Err e).
Proof.
  intros Hdb Hj Hwf E.
  destruct (fixpoint_spec task build_ctx j _ Hwf) as (snap' & cs' & E' & Hg & V & R & _).
  rewrite E in E'. simplify_eq. split; [unfold run; by rewrite E|]. split.
  - intros Hfit. pose proof (fixpoint_loadable _ _ _ _ _ _ _ Hwf E Hfit) as Hload.
    destruct (apply_match now j job redact cs' db _ Hwf (steps_match db j Hdb) Hj V Hload)
      as (db' & a & Ea & Hm & He & Hjob). exists db', a. rewrite R. done.
  - intros (p & insts & Hin & Hn)%unfit_expands. destruct (apply now j _ db) as [res|e] eqn:Ea; [|eauto].
    by apply (apply_unfit now j _ p insts) in Ea; [|apply expand_scrubbed|].
Qed.

(** With nobody else at work, a plan with a loop that does not fit fails at
    every attempt. *)
Lemma unfit_execute_fails `{TemplateEngine, JsonParser, Collation} now task build_ctx redact db j job snap cs hit :
  db_job db !! j = Some job → j_job_id (jr_row job) = j →
  fixpoint task j (get_steps_for_job j db) (build_ctx (jr_row job)) = Some (snap, cs, hit) → ¬ Forall fits cs →
  ∃ e, execute now j task build_ctx redact (λ _, db) (λ _, db) (λ _, false) = Err e.
Proof.
  intros Hj Hid E (p & insts & Hin & Hfit)%unfit_expands. apply (expand_scrubbed redact) in Hin.
  enough (Hat : ∀ left k cause, ∃ e,
    attempts now j task build_ctx redact (λ _, db) (λ _, db) (λ _, false) left k cause = Err e) by apply Hat.
  induction left as [|left IH]; intros k cause; cbn [attempts]; [by eexists|].
  unfold get. rewrite Hj. simpl. rewrite Hid. unfold run. rewrite E. simpl.
  rewrite bool_decide_false by (intros Hnil; rewrite Hnil in Hin; by apply elem_of_nil in Hin).
  destruct (apply now j _ db) as [[db' a]|[step|e]] eqn:Ea; [|apply IH|by eexists].
  by apply (apply_unfit now j _ p insts) in Ea.
Qed.

(** A loop of more than 2184 items never starts, although the cascade
    allows 10000: its instances are inserted by one statement of 30 parameters
    each, which exceeds the 65535 a statement can carry, so with nobody else
    at work every attempt fails and the call returns an error; nothing is
    written and the next call fails the same way. *)
Theorem long_loop_never_starts `{TemplateEngine, JsonParser, Collation} now task build_ctx redact db j job snap cs hit p insts :
  db_job db !! j = Some job → j_job_id (jr_row job) = j →
  fixpoint task j (get_steps_for_job j db) (build_ctx (jr_row job)) = Some (snap, cs, hit) →
  Expand p insts ∈ cs → (2184 < length insts)%nat →
  ∃ e, execute now j task build_ctx redact (λ _, db) (λ _, db) (λ _, false) = Err e.
Proof.
  intros Hj Hid E Hin Hlen. eapply unfit_execute_fails; [done..|]. rewrite Forall_forall. intros Hall. specialize (Hall _ Hin). revert Hall.
  unfold fits, cols_per_row, MAX_BIND_PARAMS. cbn [change_instances]. lia.
Qed.
