(* ===== verification/Settle.v ===== *)
(** * Settlement

    [crates/stroem-server/src/settlement/settle.rs]: deciding a job's terminal
    status and output from its steps ([decide]), writing it
    ([settle_if_all_terminal]) and the cascade followed by settlement
    ([cascade_and_settle]). *)
From S2P Require Import Prelude Json Template JobModel DependsOn Gate Workflow Dag Db StepRepo StepRepoProps JobRepo JobRepoProps Cascade CascadeRows CascadeProps CascadeSpec CascadeLive CascadeApply.

Record Settled := mkSettled {
  settled_status : JobStatus;
  settled_output : option json;
}.

Definition terminal (s : JobStepRow) : bool :=
  match StepStatus.from_str (js_status s) with
  | Some StepCompleted | Some StepFailed | Some StepSkipped | Some StepCancelled => true
  | _ => false
  end.

(** The failed row is not excused by its own flow step. *)
Definition untolerated (task : TaskDef) (s : JobStepRow) : bool :=
  (js_status s ==? "failed") &&
  negb (match flow task !! flow_step_name (js_step_name s) (js_loop_source s) with
        | Some fs => continue_on_failure fs
        | None => false
        end).

(** The names some flow step depends on (a set: the iteration order of the
    flow does not matter). *)
Definition depended_on (task : TaskDef) : list string :=
  flat_map (λ kv, step_deps kv.2) (map_to_list (flow task)).

Definition is_terminal_step (task : TaskDef) (name : string) : bool :=
  bool_decide (is_Some (flow task !! name)) && negb (bool_decide (name ∈ depended_on task)).

Definition job_output (task : TaskDef) (steps : list JobStepRow) : list (string * json) :=
  fold_left (λ m s,
    if is_terminal_step task (js_step_name s) then
      match js_output s with
      | Some output => json_map_insert (js_step_name s) output m
      | None => m
      end
    else m) steps [].

Definition decide_job (task : TaskDef) (steps : list JobStepRow) : option Settled :=
  if negb (forallb terminal steps) then None
  else if existsb (untolerated task) steps then Some (mkSettled JobFailed None)
  else if existsb (λ s, js_status s ==? "cancelled") steps then Some (mkSettled JobCancelled None)
  else
    let m := job_output task steps in
    Some (mkSettled JobCompleted (if bool_decide (m = []) then None else Some (JObject m))).

(** The steps are read from [read], the row is written to [written] (what
    other transactions left by then). The first component is the database
    afterwards, the second the status reported. *)
Definition settle_if_all_terminal `{Collation} (now : Time) (job_id : Uuid) (task : TaskDef)
    (read written : Db) : Db * option JobStatus :=
  match decide_job task (get_steps_for_job job_id read) with
  | None => (written, None)
  | Some settled =>
      let '(db', wrote) := settle now job_id (settled_status settled) (settled_output settled) written in
      if wrote : bool then (db', Some (settled_status settled))
      else (db', get job_id db' ≫= λ j, JobStatus.from_str (j_status j))
  end.

Section cascade_and_settle.
Context `{TemplateEngine, JsonParser, Collation}.
Context (now : Time) (job_id : Uuid) (task : TaskDef).
Context (build_ctx : JobRow → list JobStepRow → option json) (redact : option (string → string)).

(** [seen], [found] and [deadlock] as in [execute]; [between] is what other
    transactions do between the cascade and the settlement. *)
Definition cascade_and_settle (seen found : nat → Db) (deadlock : nat → bool) (between : Db → Db)
    : result ExecuteError (Db * option JobStatus) :=
  let? (committed, plan) := execute now job_id task build_ctx redact seen found deadlock in
  let db := between (default (seen 1%nat) committed) in
  Ok (settle_if_all_terminal now job_id task db db).
End cascade_and_settle.

(** ** The decision *)

Lemma terminal_is_terminal s : terminal s = is_terminal (js_status s).
Proof.
  unfold terminal, is_terminal, sql_in. generalize (js_status s) as x; intros x.
  destruct (StepStatus.from_str x) as [st|] eqn:E.
  - apply StepStatus_roundtrip in E as ->. by destruct st.
  - symmetry. apply bool_decide_eq_false. intros Hin. repeat (apply elem_of_cons in Hin as [->|Hin]; [done|]).
    by apply elem_of_nil in Hin.
Qed.

Lemma is_terminal_step_spec task name :
  is_terminal_step task name = true ↔
  is_Some (flow task !! name) ∧ ∀ n fs, flow task !! n = Some fs → name ∉ step_deps fs.
Proof.
  unfold is_terminal_step, depended_on. rewrite andb_true_iff, negb_true_iff, bool_decide_eq_true,
    bool_decide_eq_false, elem_of_flat_map.
  apply and_iff_compat_l. split.
  - intros Hno n fs Hn Hin. apply Hno. exists (n, fs). by rewrite elem_of_map_to_list.
  - intros Hno ([n fs] & Hn%elem_of_map_to_list & Hin). by eapply Hno.
Qed.

(** The output object after a run of rows. *)
Lemma job_output_lookup task steps name v :
  NoDup (js_step_name <$> steps) →
  json_map_lookup name (job_output task steps) = Some v ↔
  is_terminal_step task name = true ∧ ∃ s, s ∈ steps ∧ js_step_name s = name ∧ js_output s = Some v.
Proof.
  unfold job_output. intros Hnd.
  assert (Hgen : ∀ m, (∀ s, s ∈ steps → json_map_lookup (js_step_name s) m = None) →
    json_map_lookup name (fold_left (λ m s,
      if is_terminal_step task (js_step_name s) then
        match js_output s with Some o => json_map_insert (js_step_name s) o m | None => m end
      else m) steps m) = Some v ↔
    json_map_lookup name m = Some v ∨
    (is_terminal_step task name = true ∧ ∃ s, s ∈ steps ∧ js_step_name s = name ∧ js_output s = Some v)).
  2:{ rewrite Hgen by done. simpl. naive_solver. }
  induction steps as [|s steps IH]; intros m Hm; cbn [fold_left]; [set_solver|].
  rewrite fmap_cons in Hnd. apply NoDup_cons in Hnd as [Hni Hnd].
  assert (Hne : ∀ t, t ∈ steps → js_step_name s ≠ js_step_name t).
  { intros t Ht E. apply Hni. rewrite E. by apply list_elem_of_fmap_2. }
  pose proof (Hm s ltac:(left)) as Hs.
  rewrite IH; [|done|].
  2:{ intros t Ht. specialize (Hm t ltac:(by right)). repeat case_match; try done.
      by rewrite json_map_lookup_insert_ne by auto. }
  setoid_rewrite elem_of_cons.
  destruct (is_terminal_step task (js_step_name s)) eqn:Et; [destruct (js_output s) as [o|] eqn:Eo|].
  - destruct (decide (js_step_name s = name)) as [<-|Hnn].
    + rewrite json_map_lookup_insert. naive_solver.
    + rewrite json_map_lookup_insert_ne by done. naive_solver.
  - naive_solver.
  - split; [naive_solver|]. intros [?|(Ht & t & [->|?] & Hn & ?)]; [naive_solver| |naive_solver].
    subst name. congruence.
Qed.

(** A row whose failure its own flow step tolerates. *)
Definition excused (task : TaskDef) (s : JobStepRow) : Prop :=
  ∃ fs, flow task !! flow_step_name (js_step_name s) (js_loop_source s) = Some fs ∧
        continue_on_failure fs = true.

#[export] Instance excused_dec task s : Decision (excused task s).
Proof.
  refine (match flow task !! flow_step_name (js_step_name s) (js_loop_source s) as o
          return flow task !! flow_step_name (js_step_name s) (js_loop_source s) = o → _ with
          | Some fs => λ E, cast_if (decide (continue_on_failure fs = true))
          | None => λ E, right _
          end eq_refl); unfold excused; naive_solver.
Defined.

Lemma untolerated_spec task s : untolerated task s = true ↔ js_status s = "failed" ∧ ¬ excused task s.
Proof.
  unfold untolerated, excused. rewrite andb_true_iff, bool_decide_eq_true, negb_true_iff.
  apply and_iff_compat_l. destruct (flow task !! _) as [fs|].
  - split; [intros E (fs' & [= <-] & E'); congruence|].
    intros Hn. apply not_true_is_false. intros E. apply Hn. eauto.
  - split; [by intros _ (fs & ? & _)|done].
Qed.

(** C5. Settlement decides a job rightly. There is no decision exactly while
    some step is not terminal. Otherwise the job failed when some failed row
    is not excused by its own flow step's [continue_on_failure] (a loop
    instance by its placeholder's), else it was cancelled when some row was,
    else it completed, and its output maps exactly the flow steps no step
    depends on to the outputs their rows carry. *)
Theorem settlement_decision_correct task steps :
  NoDup (js_step_name <$> steps) →
  match decide_job task steps with
  | None => ∃ s, s ∈ steps ∧ is_terminal (js_status s) = false
  | Some d =>
      (∀ s, s ∈ steps → is_terminal (js_status s) = true) ∧
      match settled_status d with
      | JobFailed => settled_output d = None ∧
          ∃ s, s ∈ steps ∧ js_status s = "failed" ∧ ¬ excused task s
      | JobCancelled => settled_output d = None ∧
          (∀ s, s ∈ steps → js_status s = "failed" → excused task s) ∧
          ∃ s, s ∈ steps ∧ js_status s = "cancelled"
      | JobCompleted =>
          (∀ s, s ∈ steps → js_status s = "failed" → excused task s) ∧
          (∀ s, s ∈ steps → js_status s ≠ "cancelled") ∧
          ∀ name v,
            (∃ m, settled_output d = Some (JObject m) ∧ json_map_lookup name m = Some v) ↔
            is_Some (flow task !! name) ∧ (∀ n fs, flow task !! n = Some fs → name ∉ step_deps fs) ∧
            ∃ s, s ∈ steps ∧ js_step_name s = name ∧ js_output s = Some v
      | _ => False
      end
  end.
Proof.
  intros Hnd. unfold decide_job. destruct (forallb terminal steps) eqn:Hall; simpl.
  2:{ apply forallb_false_exists in Hall as (s & Hs & Ht). rewrite terminal_is_terminal in Ht. eauto. }
  assert (Hterm : ∀ s, s ∈ steps → is_terminal (js_status s) = true).
  { intros s Hs. rewrite <-terminal_is_terminal. rewrite forallb_Forall', Forall_forall in Hall. by apply Hall. }
  destruct (existsb (untolerated task) steps) eqn:Hu.
  { apply existsb_exists' in Hu as (s & Hs & Hu%untolerated_spec). naive_solver. }
  assert (Hex : ∀ s, s ∈ steps → js_status s = "failed" → excused task s).
  { intros s Hs Hf. rewrite existsb_false_Forall, Forall_forall in Hu. specialize (Hu s Hs).
    apply dec_stable. intros Hn. by rewrite (proj2 (untolerated_spec task s)) in Hu. }
  destruct (existsb (λ s, js_status s ==? "cancelled") steps) eqn:Hc.
  { apply existsb_exists' in Hc as (s & Hs & Hc%bool_decide_eq_true). simpl. eauto 10. }
  simpl. split_and!; [done|done| |].
  - intros s Hs Hst. rewrite existsb_false_Forall, Forall_forall in Hc. specialize (Hc s Hs). by rewrite Hst in Hc.
  - intros name v. rewrite (assoc (∧)), <-is_terminal_step_spec, <-job_output_lookup by done.
    case_bool_decide as Hm; [rewrite Hm; simpl; naive_solver|]. naive_solver.
Qed.

(** ** Writing the decision *)

Lemma settled_status_terminal task steps d :
  decide_job task steps = Some d → JobStatus.as_ref (settled_status d) ∉ ACTIVE.
Proof.
  unfold decide_job. intros E. repeat case_match; simplify_eq/=;
    intros Hin; repeat (apply elem_of_cons in Hin as [?|Hin]; [done|]); by apply elem_of_nil in Hin.
Qed.

Lemma settled_status_is_terminal task steps d :
  decide_job task steps = Some d → JobStatus.is_terminal (settled_status d) = true.
Proof. unfold decide_job. intros E. repeat case_match; by simplify_eq/=. Qed.

(** There is a decision exactly when every row is terminal. *)
Lemma decide_job_some task steps :
  is_Some (decide_job task steps) ↔ ∀ s, s ∈ steps → is_terminal (js_status s) = true.
Proof.
  rewrite <-Forall_forall. setoid_rewrite <-terminal_is_terminal. rewrite <-forallb_Forall'.
  unfold decide_job. destruct (forallb terminal steps); simpl.
  - split; [done|]. intros _. repeat case_match; eauto.
  - split; [by intros [? ?]|done].
Qed.

Lemma sim_live r r' : sim r r' → live r → live r'.
Proof. unfold live, is_placeholder. intros (_ & -> & _ & _ & _ & -> & _). done. Qed.

Lemma settle_db_step now j st out db : db_step (settle now j st out db).1 = db_step db.
Proof.
  unfold settle, settle_tx. destruct (update_job j _ _ db) as [db' n] eqn:E. simpl.
  apply (f_equal fst) in E. simpl in E. rewrite <-E. apply update_job_db_step.
Qed.

(** Rows that match a list have its statuses, and no others. *)
Lemma rows_match_forall `{Collation} db j rows (P : JobStepRow → Prop) :
  rows_match db j rows → (∀ r r', sim r r' → P r → P r') →
  (∀ r, r ∈ rows → P r) → ∀ r, r ∈ get_steps_for_job j db → P r.
Proof.
  intros [Hm1 Hm2] HP Hall r (n & rec & Hrec & ->)%elem_of_steps_for_job.
  apply Hm2 in Hrec as Hn. apply list_elem_of_fmap in Hn as (r0 & -> & Hr0).
  destruct (Hm1 r0 Hr0) as (rec' & Hrec' & Hsim). simplify_eq. eauto.
Qed.

Lemma rows_match_exists `{Collation} db j rows (P : JobStepRow → Prop) :
  rows_match db j rows → (∀ r r', sim r r' → P r → P r') →
  (∃ r, r ∈ rows ∧ P r) → ∃ r, r ∈ get_steps_for_job j db ∧ P r.
Proof.
  intros [Hm1 Hm2] HP (r & Hr & Hpr). destruct (Hm1 r Hr) as (rec & Hrec & Hsim).
  exists (sr_row rec). split; [apply elem_of_steps_for_job; eauto|eauto].
Qed.

(** The status the call reports is the one the row carries. *)
Lemma settle_written `{Collation} now j task db job d :
  db_job db !! j = Some job → jr_status job ∈ ACTIVE →
  decide_job task (get_steps_for_job j db) = Some d →
  ∃ db' job', settle_if_all_terminal now j task db db = (db', Some (settled_status d)) ∧
    db_step db' = db_step db ∧ db_job db' !! j = Some job' ∧
    jr_status job' = JobStatus.as_ref (settled_status d) ∧ j_completed_at (jr_row job') = Some now ∧
    j_output (jr_row job') = match settled_output d with Some v => Some v | None => j_output (jr_row job) end.
Proof.
  intros Hj Ha Ed. unfold settle_if_all_terminal. rewrite Ed.
  destruct (end_job_active now j (ESettle (settled_status d) (settled_output d)) db job Hj Ha)
    as (job' & Hw & Hj' & Hv). simpl in *.
  pose proof (settle_db_step now j (settled_status d) (settled_output d) db) as Hs.
  destruct (settle now j _ _ db) as [db' w]. simpl in *. subst w. exists db', job'.
  unfold job_verdict in Hv. simplify_eq. split_and!; try done; try congruence.
Qed.

(** The cascade with nobody else at work. *)
Lemma execute_quiet `{TemplateEngine, JsonParser, Collation} now task build_ctx redact db j job :
  steps_wf db → db_job db !! j = Some job → j_job_id (jr_row job) = j → wf_rows (get_steps_for_job j db) →
  (∀ snap cs hit, fixpoint task j (get_steps_for_job j db) (build_ctx (jr_row job)) = Some (snap, cs, hit) →
     Forall fits cs) →
  ∃ snap cs committed plan job',
    fixpoint task j (get_steps_for_job j db) (build_ctx (jr_row job)) = Some (snap, cs, false) ∧
    execute now j task build_ctx redact (λ _, db) (λ _, db) (λ _, false) = Ok (committed, plan) ∧
    rows_match (default db committed) j (sn_rows snap) ∧ same_elsewhere j db (default db committed) ∧
    db_job (default db committed) !! j = Some job' ∧ (jr_status job ∈ ACTIVE → jr_status job' ∈ ACTIVE).
Proof.
  intros Hdb Hj Hid Hwf Hfit. unfold execute, MAX_ATTEMPTS. cbn [attempts]. unfold get. rewrite Hj. simpl. rewrite Hid.
  destruct (fixpoint_spec task (build_ctx (jr_row job)) j _ Hwf) as (snap & cs & E & Hg & V & R & _).
  pose proof (fixpoint_loadable _ _ _ _ _ _ _ Hwf E (Hfit _ _ _ E)) as Hfor.
  destruct (apply_match now j job redact cs db _ Hwf (steps_match db j Hdb) Hj V Hfor)
    as (db' & a & Ea & Hm & He & Hjob).
  exists snap, cs. unfold run. rewrite E. simpl.
  destruct (bool_decide_reflect (map (scrub redact) cs = [])) as [Hnil|Hnil].
  - apply map_eq_nil in Hnil as ->. exists None, [], job. simpl in *. rewrite R.
    split_and!; [done|done|by apply steps_match|done|done|done].
  - rewrite Ea. eexists (Some db'), _, _. simpl. rewrite R. split_and!; [done|done|done|done|exact Hjob|].
    destruct (existsb _ _ && _); [|done]. intros _. right. by left.
Qed.

(** C6. One round of cascade and settlement makes progress. Undisturbed, on a
    pending or running job of a validated task whose rows have the shape job
    creation gives them: when every loop the cascade starts fits one insert
    (at most 2184 items), the round succeeds and leaves other jobs' steps
    alone; it reports a status exactly when every step is terminal, and that
    status is terminal and is what the job row now carries, with its completion
    time; when it reports none, some step of the job is ready, claimed, running
    or suspended in other hands, so the job is not forgotten. When a loop does
    not fit, the round fails. *)
Theorem cascade_and_settle_progress `{TemplateEngine, JsonParser, Collation, HashIter}
    now task build_ctx redact db j job order snap cs hit :
  steps_wf db → db_job db !! j = Some job → j_job_id (jr_row job) = j → jr_status job ∈ ACTIVE →
  job_rows task (get_steps_for_job j db) → flow_names_ok task → validate_dag (flow task) = Ok order →
  (∀ job rows, is_Some (build_ctx job rows)) →
  fixpoint task j (get_steps_for_job j db) (build_ctx (jr_row job)) = Some (snap, cs, hit) →
  let round := cascade_and_settle now j task build_ctx redact (λ _, db) (λ _, db) (λ _, false) id in
  (Forall fits cs → ∃ db' res,
    round = Ok (db', res) ∧ same_elsewhere j db db' ∧
    ∃ job', db_job db' !! j = Some job' ∧
    match res with
    | Some st => JobStatus.is_terminal st = true ∧ jr_status job' = JobStatus.as_ref st ∧
        j_completed_at (jr_row job') = Some now ∧
        ∀ r, r ∈ get_steps_for_job j db' → is_terminal (js_status r) = true
    | None => jr_status job' ∈ ACTIVE ∧ ∃ r, r ∈ get_steps_for_job j db' ∧ live r
    end) ∧
  (¬ Forall fits cs → ∃ e, round = Err e).
Proof.
  intros Hdb Hj Hid Ha Hrows Hfl Hdag Hctx Ef0 round. subst round. split; [intros Hf0|]; last first.
  { intros Hn. destruct (unfit_execute_fails now task build_ctx redact db j job _ _ _ Hj Hid Ef0 Hn) as [e Ee].
    unfold cascade_and_settle. rewrite Ee. by eexists. }
  assert (Hfit : ∀ snap cs hit, fixpoint task j (get_steps_for_job j db) (build_ctx (jr_row job)) = Some (snap, cs, hit) → Forall fits cs)
    by (intros ? ? ? E; rewrite Ef0 in E; by simplify_eq).
  clear snap cs hit Ef0 Hf0.
  destruct (execute_quiet now task build_ctx redact db j job Hdb Hj Hid (jr_wf _ _ Hrows) Hfit)
    as (snap & cs & committed & plan & job1 & Ef & Ee & Hm & Hse & Hj1 & Ha1).
  unfold cascade_and_settle. rewrite Ee. cbn beta iota delta [res_bind id].
  set (db1 := default db committed) in *.
  destruct (no_stall task (build_ctx (jr_row job)) j _ _ _ _ order Hrows Hfl Hdag (Hctx (jr_row job)) Ef)
    as [_ Hor].
  assert (Hlive : ∀ r r', sim r r' → live r → live r') by apply sim_live.
  assert (Hterm : ∀ r r', sim r r' → is_terminal (js_status r) = true → is_terminal (js_status r') = true)
    by (intros r r' (_ & -> & _); done).
  destruct (decide_job task (get_steps_for_job j db1)) as [d|] eqn:Ed.
  - destruct (settle_written now j task db1 job1 d Hj1 (Ha1 Ha) Ed) as (db2 & job2 & Es & Hst & Hj2 & Hs2 & Hc2 & _).
    exists db2, (Some (settled_status d)). rewrite Es. split_and!; [done|by intros k Hk; rewrite Hst; apply Hse|].
    exists job2. split_and!; [done|by eapply settled_status_is_terminal|done|done|].
    assert (get_steps_for_job j db2 = get_steps_for_job j db1) as ->
      by (unfold get_steps_for_job, job_steps; by rewrite Hst).
    by apply (decide_job_some task), mk_is_Some with d.
  - exists db1, None. unfold settle_if_all_terminal. rewrite Ed. split_and!; [done|done|].
    exists job1. split_and!; [done|by apply Ha1|].
    destruct Hor as [Hl|Hall]; [by eapply rows_match_exists|].
    pose proof (rows_match_forall _ _ _ _ Hm Hterm Hall) as Hall'.
    apply (decide_job_some task) in Hall' as [d Hd]. congruence.
Qed.
