(* ===== verification/Retry.v ===== *)
(** * Retries

    The retry configuration and its validation
    ([crates/stroem-common/src/models/workflow.rs], [validation.rs]), the
    columns job creation derives from it ([job_creator.rs]: [retry_cols]), and
    [crates/stroem-server/src/settlement/retry.rs]: the backoff computation,
    the server-log lines and the delay and linkage of a task-level retry. *)
From S2P Require Import Prelude Json Workflow Db StepRepo StepRepoProps JobRepo JobRepoProps.

(** ** Configuration *)

(** [validate_retry_config]: [None] when it accepts. *)
Definition validate_retry_config (retry : RetryConfig) (ctx : string) : option string :=
  if (max_attempts retry =? 0)%Z || (10 <? max_attempts retry)%Z then
    Some (ctx +:+ " retry max_attempts " +:+ pretty (max_attempts retry) +:+ " out of range (1..=10)")
  else if (3600 <? delay retry)%Z then
    Some (ctx +:+ " retry delay " +:+ pretty (delay retry) +:+ "s exceeds maximum of 3600s (1h)")
  else None.

(** [resolve_step_retry_config]: the step's own configuration, else the
    action's. *)
Definition resolve_step_retry_config (step : FlowStep) (action_retry : option RetryConfig) : option RetryConfig :=
  match retry step with Some r => Some r | None => action_retry end.

Record RetryCols := mkRetryCols {
  rc_max_retries : option Z;
  rc_backoff_secs : option Z;
  rc_strategy : option string;
  rc_jitter : bool;
}.

(** [i32::try_from(n).expect(..)]: [None] is the panic. *)
Definition i32_try_from (n : Z) : option Z :=
  if (i32_min <=? n)%Z && (n <=? i32_max)%Z then Some n else None.

(** [retry_cols]; [None] when a conversion (or the [u32] subtraction)
    panics. *)
Definition retry_cols (r : option RetryConfig) : option RetryCols :=
  match r with
  | None => Some (mkRetryCols None None None false)
  | Some r =>
      if (max_attempts r =? 0)%Z then None
      else
        m ← i32_try_from (max_attempts r - 1);
        d ← i32_try_from (delay r);
        Some (mkRetryCols (Some m) (Some d)
                (Some (if backoff r ==? Exponential then "exponential" else "fixed")) (jitter r))
  end.

(** ** Delays *)

(** The delay before jitter. *)
Definition backoff_delay (exponential : bool) (base_secs retry_attempt : Z) : Z :=
  let attempt := Z.max 0 retry_attempt in
  if exponential then u64_saturating_mul base_secs (Z.shiftl 1 (Z.min attempt 6)) else base_secs.

(** [compute_retry_delay]; [random] is [rand::random::<u64>()]. *)
Definition compute_retry_delay (random : Z) (step : JobStepRow) : Z :=
  let base_secs := as_u64 (default 30%Z (js_retry_backoff_secs step)) in
  let strategy := default "fixed" (js_retry_strategy step) in
  let delay := backoff_delay (strategy ==? "exponential") base_secs (js_retry_attempt step) in
  if js_retry_jitter step then
    let jitter_max := (delay / 4 + 1)%Z in
    u64_saturating_add delay (random mod jitter_max)%Z
  else delay.

(** The delay of a task-level retry. *)
Definition task_retry_delay (task : TaskDef) (failed_job : JobRow) : Z :=
  match task_retry task with
  | Some r => backoff_delay (backoff r ==? Exponential) (delay r) (j_retry_attempt failed_job)
  | None => 30
  end.

(** ** Server-log lines *)

Definition step_retry_message (step_name : string) (retry_attempt max_retries delay_secs : Z) : string :=
  "[retry] Step '" +:+ step_name +:+ "' attempt " +:+ pretty (retry_attempt + 1)%Z +:+ "/" +:+
  pretty (max_retries + 1)%Z +:+ " failed, retrying in " +:+ pretty delay_secs +:+ "s".

Definition step_retries_exhausted_message (step_name : string) (retry_attempt max_retries : Z) : string :=
  "[retry] Step '" +:+ step_name +:+ "' retries exhausted (" +:+ pretty (retry_attempt + 1)%Z +:+ "/" +:+
  pretty (max_retries + 1)%Z +:+ ")".

Definition retry_log_line (step_name : string) (outcome : FailOutcome) : option string :=
  match outcome with
  | RetryScheduled attempt max delay_secs =>
      Some (step_retry_message step_name (attempt - 1) max delay_secs)
  | Failed attempt (Some max) => Some (step_retries_exhausted_message step_name attempt max)
  | Failed _ None | FailNotApplied => None
  end.

(** ** Task-level retry *)

(** What [create_retry_job] decides before it creates the job: [None] when
    no retry is due, else the root of the chain, the new attempt number and
    the delay. *)
Definition retry_job_decision (failed_job : JobRow) (task : TaskDef) : option (Uuid * Z * Z) :=
  match j_max_retries failed_job with
  | None => None
  | Some max =>
      if (max <=? j_retry_attempt failed_job)%Z then None
      else Some (default (j_job_id failed_job) (j_retry_of_job_id failed_job),
                 (j_retry_attempt failed_job + 1)%Z, task_retry_delay task failed_job)
  end.

(** [UPDATE job_step SET retry_at = $1 WHERE job_id = $2 AND status = 'ready'] *)
Definition set_retry_at_ready (retry_job_id : Uuid) (retry_at : Time) (db : Db) : Db :=
  (update_job_steps retry_job_id (λ _, status_is "ready") (upd_row (set_retry_at (Some retry_at))) db).1.

Inductive RetryError :=
| RefWithoutCommit
| CreateFailed (e : string)
| RetryPanic (db : Db).   (** the instant overflows; the job is created by then *)

(** Result of job creation ([settlement/mod.rs]). *)
Record CreatedJob := mkCreatedJob { created_job_id : Uuid; terminal_at_creation : bool }.

(** [create_retry_job]. [create_job] stands for the job creator: given the
    root, the attempt number and whether the creation is pinned, it returns
    the database with the linked retry job, or an error. *)
Definition create_retry_job (host_now : Time) (failed_job : JobRow) (task : TaskDef)
    (create_job : Uuid → Z → bool → Db → result string (Db * CreatedJob)) (db : Db)
    : result RetryError (Db * option CreatedJob) :=
  match retry_job_decision failed_job task with
  | None => Ok (db, None)
  | Some (root_job_id, retry_attempt, delay_secs) =>
      let? (db', created) :=
        match j_git_ref failed_job, j_revision failed_job with
        | Some _, Some _ => res_map_err CreateFailed (create_job root_job_id retry_attempt true db)
        | Some _, None => Err RefWithoutCommit
        | None, _ => res_map_err CreateFailed (create_job root_job_id retry_attempt false db)
        end in
      if (0 <? delay_secs)%Z then
        match retry_instant host_now delay_secs with
        | Some retry_at => Ok (set_retry_at_ready (created_job_id created) retry_at db', Some created)
        | None => Err (RetryPanic db')
        end
      else Ok (db', Some created)
  end.

(** ** Bounds *)

(** The exponent of the backoff: capped at six doublings. *)
Definition backoff_exponent (exponential : bool) (retry_attempt : Z) : Z :=
  if exponential then Z.min (Z.max 0 retry_attempt) 6 else 0.

Lemma backoff_delay_eq exponential base attempt :
  (0 ≤ base ≤ i32_max)%Z →
  backoff_delay exponential base attempt = (base * 2 ^ backoff_exponent exponential attempt)%Z.
Proof.
  intros Hb. unfold backoff_delay, backoff_exponent, u64_saturating_mul. destruct exponential; [|lia].
  rewrite Z.shiftl_mul_pow2, Z.mul_1_l by lia. apply Z.min_r.
  assert (2 ^ Z.min (Z.max 0 attempt) 6 ≤ 2 ^ 6)%Z by (apply Z.pow_le_mono_r; lia).
  unfold i32_max, u64_max in *. change (2 ^ 6)%Z with 64%Z in *. nia.
Qed.

Lemma backoff_delay_range exponential base attempt :
  (0 ≤ base ≤ i32_max)%Z → (0 ≤ backoff_delay exponential base attempt ≤ base * 64)%Z.
Proof.
  intros Hb. rewrite backoff_delay_eq by done. unfold backoff_exponent.
  assert (2 ^ (if exponential then Z.min (Z.max 0 attempt) 6 else 0) ≤ 2 ^ 6)%Z
    by (apply Z.pow_le_mono_r; destruct exponential; lia).
  assert (0 < 2 ^ (if exponential then Z.min (Z.max 0 attempt) 6 else 0))%Z
    by (apply Z.pow_pos_nonneg; destruct exponential; lia).
  change (2 ^ 6)%Z with 64%Z in *. nia.
Qed.

(** The delay of a row whose backoff column is not negative: the capped
    doubling of its base, and at most a quarter more with jitter. *)
Lemma compute_retry_delay_bounds random step :
  (0 ≤ default 30 (js_retry_backoff_secs step) ≤ i32_max)%Z → is_u64 random →
  let base := default 30%Z (js_retry_backoff_secs step) in
  let d := (base * 2 ^ backoff_exponent (default "fixed" (js_retry_strategy step) ==? "exponential")
                                        (js_retry_attempt step))%Z in
  (d ≤ compute_retry_delay random step ≤ d + d / 4)%Z ∧
  (js_retry_jitter step = false → compute_retry_delay random step = d) ∧
  (compute_retry_delay random step ≤ 80 * base)%Z.
Proof.
  intros Hb Hr base d. unfold compute_retry_delay. fold base.
  assert (Hu : as_u64 base = base).
  { unfold as_u64. apply Z.mod_small. unfold u64_modulus, i32_max in *. subst base. lia. }
  rewrite Hu. set (ex := default "fixed" (js_retry_strategy step) ==? "exponential") in *.
  pose proof (backoff_delay_range ex base (js_retry_attempt step) Hb) as Hd.
  rewrite backoff_delay_eq by done. rewrite backoff_delay_eq in Hd by done. fold d in Hd |- *.
  assert (Hd4 : (0 ≤ d / 4)%Z) by (apply Z.div_pos; lia).
  assert (Hd5 : (d / 4 ≤ base * 16)%Z) by (apply Z.div_le_upper_bound; lia).
  destruct (js_retry_jitter step); [|split_and!; [lia|lia|done|lia]].
  pose proof (Z.mod_pos_bound random (d / 4 + 1) ltac:(lia)) as Hm.
  unfold u64_saturating_add. rewrite Z.min_r; [split_and!; [lia|lia|done|lia]|].
  unfold i32_max, u64_max in *. subst base. lia.
Qed.

Lemma retry_instant_some host_now d :
  (0 ≤ d ≤ 80 * i32_max)%Z → (0 ≤ host_now ≤ chrono_max_date - 80 * i32_max * 1000000)%Z →
  retry_instant host_now d = Some (host_now + d * 1000000)%Z.
Proof.
  intros Hd Hn. unfold retry_instant, chrono_max_date, chrono_max_secs, i32_max in *.
  rewrite (proj2 (Z.ltb_lt d _)) by lia.
  rewrite (proj2 (Z.leb_le (Z.abs d) _)), (proj2 (Z.leb_le _ 8210266876799000000)) by lia. done.
Qed.

(** Retry delays are bounded. A row whose backoff column is absent or not
    negative waits its base delay, doubled once per attempt made and at most
    six times for an exponential strategy; jitter only adds, at most a quarter
    of that; and while the clock is before the year 262000 the instant the
    step is rescheduled for exists, so the arithmetic never panics. *)
Theorem retry_delay_bounded random step host_now :
  (0 ≤ default 30 (js_retry_backoff_secs step) ≤ i32_max)%Z → is_u64 random →
  (0 ≤ host_now ≤ chrono_max_date - 80 * i32_max * 1000000)%Z →
  let base := default 30%Z (js_retry_backoff_secs step) in
  let doublings := if default "fixed" (js_retry_strategy step) ==? "exponential"
                   then Z.min (Z.max 0 (js_retry_attempt step)) 6 else 0%Z in
  let d := (base * 2 ^ doublings)%Z in
  (d ≤ compute_retry_delay random step ≤ d + d / 4)%Z ∧
  (js_retry_jitter step = false → compute_retry_delay random step = d) ∧
  retry_instant host_now (compute_retry_delay random step) =
    Some (host_now + compute_retry_delay random step * 1000000)%Z.
Proof.
  intros Hb Hr Hn base doublings d.
  destruct (compute_retry_delay_bounds random step Hb Hr) as (H1 & H2 & H3).
  split_and!; [apply H1|apply H1|apply H2|].
  apply retry_instant_some; [|done]. split; [|unfold i32_max in *; lia].
  destruct H1 as [H1 _]. etrans; [|apply H1]. apply Z.mul_nonneg_nonneg; [lia|].
  apply Z.pow_nonneg. lia.
Qed.

(** ** A configuration is honoured *)

Lemma budget_outcomes_step delays max a n :
  (a < max)%nat →
  budget_outcomes a max delays (S n) =
  RetryScheduled (Z.of_nat (S a)) (Z.of_nat max) (delays a) :: budget_outcomes (S a) max delays n.
Proof. intros Ha. cbn [budget_outcomes]. by rewrite (proj2 (Nat.ltb_lt a max)). Qed.

Lemma budget_outcomes_exact delays max a :
  (a ≤ max)%nat →
  budget_outcomes a max delays (S (max - a)) =
  map (λ i, RetryScheduled (Z.of_nat (S i)) (Z.of_nat max) (delays i)) (seq a (max - a)) ++
  [Failed (Z.of_nat max) (Some (Z.of_nat max))].
Proof.
  intros Ha. remember (max - a)%nat as k eqn:Ek. revert a Ha Ek.
  induction k as [|k IH]; intros a Ha Ek.
  - replace a with max by lia. cbn [budget_outcomes]. by rewrite Nat.ltb_irrefl.
  - rewrite budget_outcomes_step by lia. rewrite IH by lia. done.
Qed.

(** The row a flow step with these retry columns starts from. *)
Definition fresh_retry_row (cols : RetryCols) (r : StepRec) : Prop :=
  js_max_retries (sr_row r) = rc_max_retries cols ∧
  js_retry_backoff_secs (sr_row r) = rc_backoff_secs cols ∧
  js_retry_strategy (sr_row r) = rc_strategy cols ∧
  js_retry_jitter (sr_row r) = rc_jitter cols ∧
  js_retry_attempt (sr_row r) = 0%Z ∧ js_retry_history (sr_row r) = JArray [].

(** A validated retry configuration is honoured. Its columns are always
    derived without a panic; and a step that starts with them and fails every
    time it is run is executed exactly [max_attempts] times: all failures but
    the last reschedule it, each with its attempt number and a delay between
    the configured backoff and a quarter more, the last one is final, and the
    history has one entry per retry. *)
Theorem retry_config_honoured cfg ctx render clock rnd j n e w db :
  validate_retry_config cfg ctx = None → (0 ≤ max_attempts cfg)%Z → (0 ≤ delay cfg)%Z →
  (∀ m, 0 ≤ clock m ≤ chrono_max_date - 80 * i32_max * 1000000)%Z → (∀ a, is_u64 (rnd a)) →
  ∃ cols, retry_cols (Some cfg) = Some cols ∧
  ∀ r, db_step db !! (j, n) = Some r → fresh_retry_row cols r →
  let retries := (Z.to_nat (max_attempts cfg) - 1)%nat in
  ∃ delays db' r' hist,
    run_failures render clock j n e w (λ row, compute_retry_delay (rnd (js_retry_attempt row)) row)
      (Z.to_nat (max_attempts cfg)) db =
    Some (db', map (λ i, RetryScheduled (Z.of_nat (S i)) (Z.of_nat retries) (delays i)) (seq 0 retries) ++
               [Failed (Z.of_nat retries) (Some (Z.of_nat retries))]) ∧
    (∀ i, let d := (delay cfg * (if backoff cfg ==? Exponential then 2 ^ Z.min (Z.of_nat i) 6 else 1))%Z in
          (d ≤ delays i ≤ d + d / 4)%Z) ∧
    db_step db' !! (j, n) = Some r' ∧ js_retry_history (sr_row r') = JArray hist ∧ length hist = retries.
Proof.
  intros Hv Hm0 Hd0 Hclock Hrnd. unfold validate_retry_config in Hv.
  destruct (Z.eqb_spec (max_attempts cfg) 0); [done|]. simpl in Hv.
  destruct (Z.ltb_spec 10 (max_attempts cfg)); [done|]. destruct (Z.ltb_spec 3600 (delay cfg)); [done|].
  unfold retry_cols, i32_try_from, i32_min, i32_max.
  rewrite (proj2 (Z.eqb_neq _ _)) by done.
  rewrite !(proj2 (Z.leb_le _ _)) by lia. simpl. eexists. split; [reflexivity|].
  intros r Hr (F1 & F2 & F3 & F4 & F5 & F6). simpl in F1, F2, F3, F4.
  set (retries := (Z.to_nat (max_attempts cfg) - 1)%nat).
  set (st := if backoff cfg ==? Exponential then "exponential" else "fixed") in *.
  set (row i := set_retry_attempt (Z.of_nat i) (sr_row r)).
  set (delays i := compute_retry_delay (rnd (Z.of_nat i)) (row i)).
  assert (Hb : ∀ i, (0 ≤ default 30 (js_retry_backoff_secs (row i)) ≤ i32_max)%Z).
  { intros i. simpl. rewrite F2. unfold i32_max. simpl. lia. }
  assert (Hbounds : ∀ i, let d := (delay cfg * (if backoff cfg ==? Exponential then 2 ^ Z.min (Z.of_nat i) 6 else 1))%Z in
    (d ≤ delays i ≤ d + d / 4 ∧ delays i ≤ 80 * i32_max)%Z).
  { intros i. destruct (compute_retry_delay_bounds (rnd (Z.of_nat i)) (row i) (Hb i) (Hrnd _)) as (B1 & _ & B3).
    unfold backoff_exponent in B1. simpl in B1, B3. rewrite F2, F3 in B1. rewrite F2 in B3. simpl in *.
    assert (Ex : (st ==? "exponential") = (backoff cfg ==? Exponential)) by (unfold st; by destruct (backoff cfg)).
    rewrite Ex in B1. fold (delays i) in B1, B3. cut (delays i ≤ 80 * i32_max)%Z; [|unfold i32_max; lia].
    destruct (backoff cfg ==? Exponential); [by rewrite Z.max_r in B1 by lia|done]. }
  destruct (fail_or_retry_budget render (λ row, compute_retry_delay (rnd (js_retry_attempt row)) row) delays
      (retry_settings (sr_row r)) clock) with (j := j) (n := n) (e := e) (w := w) (max := retries)
      (k := S (retries - 0)) (db := db) (r := r) (a := 0%nat) (hist := @nil json)
    as (db' & r' & hist & E & Hr' & (_ & _ & _ & Hh) & Hl).
  - intros r0 a Hs Ha. unfold delays, compute_retry_delay, retry_settings in *. simpl.
    injection Hs as -> -> ->. by rewrite Ha.
  - intros m a. destruct (Hbounds a) as [B1 B2]. rewrite retry_instant_some; [by eexists| |done].
    split; [|done]. etrans; [|apply B1]. apply Z.mul_nonneg_nonneg; [done|].
    destruct (backoff cfg ==? Exponential); [apply Z.pow_nonneg|]; lia.
  - done.
  - unfold budget_row. rewrite F1, F5, F6. split_and!; [done|done| |done]. f_equal. unfold retries. lia.
  - lia.
  - rewrite budget_outcomes_exact, Nat.sub_0_r in E by lia.
    replace (S retries) with (Z.to_nat (max_attempts cfg)) in E by (unfold retries; lia).
    exists delays, db', r', hist. split_and!; [done|apply Hbounds|done|done|]. rewrite Hl. lia.
Qed.
