(* ===== verification/Terminal.v ===== *)
(** * Terminal handling

    [crates/stroem-server/src/settlement/terminal.rs] (the drain gate, the
    exactly-once claim, the plan of side effects), the terminal block of
    [Settlement::advance] ([settlement/mod.rs]), [propagate.rs] (a settled
    child marks its parent step) and the agent conversation state it edits
    ([crates/stroem-agent/src/state.rs]). Hooks, log upload and completion
    events are external effects: the model reports which of them run. *)
From S2P Require Import Prelude Json JobModel Gate Workflow Db StepRepo StepRepoProps JobRepo JobRepoProps CascadeApply Retry.

(** ** The gates *)

(** [UPDATE job SET metrics_recorded_at = NOW() WHERE job_id = $1 AND
    metrics_recorded_at IS NULL]; [fails] is a database error, which claims
    nothing. *)
Definition claim (now : Time) (fails : bool) (job_id : Uuid) (db : Db) : Db * bool :=
  if fails then (db, false)
  else
    let '(db', n) := update_job job_id (λ r, jr_metrics_recorded_at r ==? None)
                       (λ r, mkJobRec (jr_row r) (Some now)) db in
    (db', (0 <? n)%nat).

(** A failed query counts as drained. *)
Definition drained (fails : bool) (job_id : Uuid) (db : Db) : bool :=
  if fails then true else negb (has_live_steps job_id db).

(** ** The plan *)

Inductive HookKind := HookSuccess | HookError | HookCancel | HookNone.

Record TerminalPlan := mkTerminalPlan {
  plan_propagate : bool;
  plan_retry : bool;
  plan_hooks : HookKind;
}.

Definition hook_kind (status : string) : HookKind :=
  match JobStatus.from_str status with
  | Some JobCompleted => HookSuccess
  | Some JobFailed => HookError
  | Some JobCancelled => HookCancel
  | _ => HookNone
  end.

Definition plan (job : JobRow) : TerminalPlan :=
  let status := JobStatus.from_str (j_status job) in
  let propagate := bool_decide (is_Some (j_parent_job_id job)) && bool_decide (is_Some (j_parent_step_name job)) in
  let retry := (status ==? Some JobFailed) && negb (bool_decide (is_Some (j_parent_job_id job))) &&
               match j_max_retries job with Some max => (j_retry_attempt job <? max)%Z | None => false end in
  mkTerminalPlan propagate retry (if retry then HookNone else hook_kind (j_status job)).

(** The task of a hook job: its steps, with nothing to wait for. *)
Definition build_minimal_task_def `{Collation} (job_id : Uuid) (db : Db) : TaskDef :=
  bare_task "distributed"
    (fold_left (λ m s, <[js_step_name s := flow_step (js_action_name s) [] false None None false None None]> m)
       (get_steps_for_job job_id db) ∅)
    None.

Fixpoint extract_first_failure (steps : list JobStepRow) : string :=
  match steps with
  | [] => "unknown error"
  | s :: rest =>
      match js_status s ==? "failed", js_error_message s with
      | true, Some msg => msg
      | _, _ => extract_first_failure rest
      end
  end.

(** ** The agent conversation *)

Record PendingToolCall := mkPendingToolCall { tool_call_id : string; tool_name : string; child_job_id : Uuid }.
Record AskUserCall := mkAskUserCall { ask_tool_call_id : string; ask_message : string }.
Record ResolvedToolResult := mkResolvedToolResult { result_tool_call_id : string; result_text : string }.

Record AgentConversationState := mkConv {
  messages : list json;
  turn : Z;
  total_input_tokens : Z;
  total_output_tokens : Z;
  pending_tool_calls : list PendingToolCall;
  suspended_for_ask_user : bool;
  ask_user_call : option AskUserCall;
  resolved_tool_results : list ResolvedToolResult;
}.

Definition with_pending (l : list PendingToolCall) (c : AgentConversationState) : AgentConversationState :=
  mkConv (messages c) (turn c) (total_input_tokens c) (total_output_tokens c) l
    (suspended_for_ask_user c) (ask_user_call c) (resolved_tool_results c).
Definition push_result (r : ResolvedToolResult) (c : AgentConversationState) : AgentConversationState :=
  mkConv (messages c) (turn c) (total_input_tokens c) (total_output_tokens c) (pending_tool_calls c)
    (suspended_for_ask_user c) (ask_user_call c) (resolved_tool_results c ++ [r]).

Definition all_tool_calls_resolved (c : AgentConversationState) : bool :=
  match pending_tool_calls c with [] => true | _ => false end.

(** Removes the first call of the child. *)
Fixpoint take_call (child : Uuid) (l : list PendingToolCall) : option (PendingToolCall * list PendingToolCall) :=
  match l with
  | [] => None
  | tc :: rest =>
      if child_job_id tc ==? child then Some (tc, rest)
      else '(x, rest') ← take_call child rest; Some (x, tc :: rest')
  end.

Definition resolve_tool_call (child : Uuid) (c : AgentConversationState)
    : option PendingToolCall * AgentConversationState :=
  match take_call child (pending_tool_calls c) with
  | Some (x, rest) => (Some x, with_pending rest c)
  | None => (None, c)
  end.

(** The serde codec of the conversation and [serde_json::to_string]. *)
Class AgentCodec := {
  conv_from_value : json → option AgentConversationState;
  conv_to_value : AgentConversationState → json;
  json_to_string : json → string;
}.

(** ** Propagation *)

Inductive Propagated :=
| Deferred          (** the child is not registered yet *)
| ToolResolved      (** a tool result was recorded *)
| StepMarked.       (** the parent step was marked; the parent advances *)

Definition tool_result_text `{AgentCodec} (child : JobRow) : string :=
  if j_status child ==? "completed" then
    match j_output child with
    | Some o => json_to_string o
    | None => "Task completed successfully"
    end
  else "Task failed: " +:+ j_status child.

(** [UPDATE job_step SET status = 'ready', ready_at = NOW(), worker_id = NULL
    WHERE .. AND status = 'running'] *)
Definition release_agent_step (now : Time) (job_id : Uuid) (step_name : string) (db : Db) : Db :=
  (update_step job_id step_name (status_is "running")
     (assign [put_status "ready"; set_ready_at (Some now); upd_row (set_worker_id None)]) db).1.

(** The ordinary marking of the parent step; [show] prints a uuid. *)
Definition mark_parent (show : Uuid → string) (now : Time) (child : JobRow) (parent_job_id : Uuid)
    (parent_step : string) (db : Db) : Db :=
  if j_status child ==? "completed" then mark_completed now parent_job_id parent_step (j_output child) db
  else if j_status child ==? "cancelled" then mark_cancelled now parent_job_id parent_step db
  else mark_failed now parent_job_id parent_step ("Child job " +:+ show (j_job_id child) +:+ " failed") db.

(** [propagate] up to the recursive [advance] of the parent, which follows
    exactly when the result is [StepMarked]. *)
Definition propagate `{AgentCodec, Collation} (show : Uuid → string) (now : Time) (child : JobRow)
    (parent_job_id : Uuid) (parent_step : string) (db : Db) : Db * Propagated :=
  let ordinary := (mark_parent show now child parent_job_id parent_step db, StepMarked) in
  if j_source_type child ==? "agent_tool" then
    match find (λ s, js_step_name s ==? parent_step) (get_steps_for_job parent_job_id db) with
    | None => ordinary
    | Some row =>
        match js_agent_state row with
        | None => (db, Deferred)
        | Some state_val =>
            match conv_from_value state_val with
            | None => ordinary
            | Some conv =>
                if negb (existsb (λ tc, child_job_id tc ==? j_job_id child) (pending_tool_calls conv))
                then (db, Deferred)
                else
                  let '(resolved, conv1) := resolve_tool_call (j_job_id child) conv in
                  let conv2 := match resolved with
                               | Some tc => push_result (mkResolvedToolResult (tool_call_id tc)
                                                           (tool_result_text child)) conv1
                               | None => conv1
                               end in
                  let db' := update_agent_state parent_job_id parent_step (conv_to_value conv2) db in
                  ((if all_tool_calls_resolved conv2
                    then release_agent_step now parent_job_id parent_step db' else db'), ToolResolved)
            end
        end
    end
  else ordinary.

(** ** The terminal block of [advance] *)

(** The server's state the block touches: the database and the in-memory set
    of cancelled jobs. *)
Record ServerState := mkServerState { st_db : Db; st_cancelled : gset Uuid }.
Definition with_db (db : Db) (st : ServerState) : ServerState := mkServerState db (st_cancelled st).

Inductive AfterClaim :=
| Unresolved                     (** no workspace or task: hooks and archive skipped *)
| RetriedAs (retry_job_id : Uuid) (** a retry job was created: no hooks *)
| RanActions (kind : HookKind)    (** hooks, notification, archive *)
| RetryPanicked.

Inductive TerminalOutcome :=
| JobMissing
| StillActive
| NotDrained
| NotClaimed
| Handled (propagated : option Propagated) (after : AfterClaim).

(** What one call meets: errors of the two queries, the task when it
    resolves, the job creator for a retry, the [advance] of the parent job and
    the [job_created] of a retry job, which run the same code on other jobs,
    and [run_terminal_actions], whose hooks create jobs. *)
Record AdvanceEnv := mkAdvanceEnv {
  env_now : Time;
  env_drain_fails : bool;
  env_claim_fails : bool;
  env_task : option TaskDef;
  env_create_job : Uuid → Z → bool → Db → result string (Db * CreatedJob);
  env_advance : Uuid → ServerState → ServerState;
  env_job_created : CreatedJob → ServerState → ServerState;
  env_actions : JobRow → HookKind → ServerState → ServerState;
}.

Section advance_terminal.
Context `{AgentCodec, Collation} (show : Uuid → string).

(** Propagation to the parent, when the plan asks for it; a marked parent
    step advances the parent. *)
Definition propagate_planned (env : AdvanceEnv) (job : JobRow) (st : ServerState)
    : ServerState * option Propagated :=
  match plan_propagate (plan job), j_parent_job_id job, j_parent_step_name job with
  | true, Some p, Some s =>
      let '(db', x) := propagate show (env_now env) job p s (st_db st) in
      let st' := with_db db' st in
      (match x with StepMarked => env_advance env p st' | _ => st' end, Some x)
  | _, _, _ => (st, None)
  end.

(** Retry or terminal actions. *)
Definition after_claim (env : AdvanceEnv) (job : JobRow) (st : ServerState) : ServerState * AfterClaim :=
  match env_task env with
  | None => (st, Unresolved)
  | Some task =>
      let hooks := if plan_retry (plan job) then hook_kind (j_status job) else plan_hooks (plan job) in
      let actions st := (env_actions env job hooks st, RanActions hooks) in
      if plan_retry (plan job) then
        match create_retry_job (env_now env) job task (env_create_job env) (st_db st) with
        | Ok (db', Some created) =>
            (env_job_created env created (with_db db' st), RetriedAs (created_job_id created))
        | Err (RetryPanic db') => (with_db db' st, RetryPanicked)
        | Ok (db', None) => actions (with_db db' st)
        | Err _ => actions st
        end
      else actions st
  end.

Definition advance_terminal (env : AdvanceEnv) (job_id : Uuid) (st : ServerState)
    : ServerState * TerminalOutcome :=
  match get job_id (st_db st) with
  | None => (st, JobMissing)
  | Some job =>
      if negb (is_terminal_status (j_status job)) then (st, StillActive)
      else if negb (drained (env_drain_fails env) job_id (st_db st)) then (st, NotDrained)
      else
        let cancelled := st_cancelled st ∖ {[job_id]} in
        let '(db1, won) := claim (env_now env) (env_claim_fails env) job_id (st_db st) in
        let st1 := mkServerState db1 cancelled in
        if negb won then (st1, NotClaimed)
        else
          let '(st2, propagated) := propagate_planned env job st1 in
          let '(st3, after) := after_claim env job st2 in
          (st3, Handled propagated after)
  end.
End advance_terminal.

(** ** The plan is right *)

Lemma hook_kind_iff s :
  (hook_kind s = HookSuccess ↔ s = "completed") ∧ (hook_kind s = HookError ↔ s = "failed") ∧
  (hook_kind s = HookCancel ↔ s = "cancelled").
Proof.
  unfold hook_kind. split_and!; (split; [|by intros ->]);
    destruct (JobStatus.from_str s) as [[]|] eqn:E; try done; by apply JobStatus_roundtrip in E.
Qed.

Lemma plan_retry_iff job task :
  plan_retry (plan job) = true ↔
  j_status job = "failed" ∧ j_parent_job_id job = None ∧ is_Some (retry_job_decision job task).
Proof.
  assert (Hf : (JobStatus.from_str (j_status job) ==? Some JobFailed) = true ↔ j_status job = "failed")
    by (rewrite bool_decide_eq_true; apply (JobStatus_roundtrip JobFailed)).
  unfold plan. cbn [plan_retry]. rewrite !andb_true_iff, Hf, negb_true_iff, bool_decide_eq_false, <-eq_None_not_Some.
  rewrite <-(assoc (∧)). do 2 apply and_iff_compat_l. unfold retry_job_decision.
  destruct (j_max_retries job) as [max|]; [|split; [done|by intros [? ?]]].
  destruct (Z.leb_spec max (j_retry_attempt job)), (Z.ltb_spec (j_retry_attempt job) max); try lia;
    [split; [done|by intros [? ?]]|split; [by eexists|done]].
Qed.

Lemma plan_propagate_iff job :
  plan_propagate (plan job) = true ↔ is_Some (j_parent_job_id job) ∧ is_Some (j_parent_step_name job).
Proof. unfold plan. cbn [plan_propagate]. by rewrite andb_true_iff, !bool_decide_eq_true. Qed.

(** The plan of a settled job. A retry is planned exactly for a failed
    top-level job with attempts left, which is when the retry creator makes
    one; then no hooks fire. Otherwise the hooks are those of the status.
    Propagation is planned exactly for a job with a parent step, never
    together with a retry. *)
Theorem terminal_plan_correct job task :
  (plan_retry (plan job) = true ↔
     j_status job = "failed" ∧ j_parent_job_id job = None ∧ is_Some (retry_job_decision job task)) ∧
  (plan_retry (plan job) = true → plan_hooks (plan job) = HookNone) ∧
  (plan_retry (plan job) = false → plan_hooks (plan job) = hook_kind (j_status job)) ∧
  (plan_hooks (plan job) = HookSuccess ↔ j_status job = "completed") ∧
  (plan_hooks (plan job) = HookCancel ↔ j_status job = "cancelled") ∧
  (plan_hooks (plan job) = HookError → j_status job = "failed") ∧
  (plan_propagate (plan job) = true ↔ is_Some (j_parent_job_id job) ∧ is_Some (j_parent_step_name job)) ∧
  ¬ (plan_retry (plan job) = true ∧ plan_propagate (plan job) = true).
Proof.
  destruct (hook_kind_iff (j_status job)) as (Hs & He & Hc).
  pose proof (plan_retry_iff job task) as Hret.
  assert (Hh : plan_hooks (plan job) = if plan_retry (plan job) then HookNone else hook_kind (j_status job)) by done.
  pose proof (plan_propagate_iff job) as Hp.
  split_and!; [done|by intros E; rewrite Hh, E|by intros E; rewrite Hh, E| | | |done|].
  - rewrite Hh. destruct (plan_retry _); [|done]. apply proj1 in Hret. specialize (Hret eq_refl).
    split; [done|]. destruct Hret as [-> _]. done.
  - rewrite Hh. destruct (plan_retry _); [|done]. apply proj1 in Hret. specialize (Hret eq_refl).
    split; [done|]. destruct Hret as [-> _]. done.
  - rewrite Hh. destruct (plan_retry _); [done|]. apply He.
  - rewrite Hret, Hp. intros [(_ & -> & _) [[? ?] _]]. done.
Qed.

(** ** Exactly once *)

Lemma not_live_steps j n r db :
  has_live_steps j db = false → db_step db !! (j, n) = Some r →
  sr_status r ≠ "running" ∧ sr_status r ≠ "claimed".
Proof.
  unfold has_live_steps, job_steps. rewrite negb_false_iff, bool_decide_eq_true. intros E Hr.
  assert (Hno : ¬ status_in ["running"; "claimed"] r = true).
  { intros Hs. assert (r ∈ sql_select (λ k r, (k.1 ==? j) && status_in ["running"; "claimed"] r) (db_step db)) as Hin.
    { apply elem_of_sql_select. exists (j, n). by rewrite bool_decide_true. }
    apply (list_elem_of_fmap_2 sr_row) in Hin. rewrite E in Hin. by apply elem_of_nil in Hin. }
  unfold status_in, sql_in in Hno. rewrite bool_decide_eq_true in Hno. set_solver.
Qed.

Section exactly_once.
Context `{AgentCodec, Collation} (show : Uuid → string) (j : Uuid).

(** The job's terminal handling is taken. *)
Definition claimed (db : Db) : Prop := ∀ r, db_job db !! j = Some r → jr_metrics_recorded_at r ≠ None.

(** What happens around the calls: another call, or any other work on the
    server's state. *)
Inductive Event :=
| EAdvance (env : AdvanceEnv)
| EOther (f : ServerState → ServerState).

(** Nothing but [claim] writes the claim column: other work never clears
    it. *)
Definition event_ok (e : Event) : Prop :=
  match e with
  | EAdvance env =>
      (∀ root a pinned db db' id,
         env_create_job env root a pinned db = Ok (db', id) → claimed db → claimed db') ∧
      (∀ i st, claimed (st_db st) → claimed (st_db (env_advance env i st))) ∧
      (∀ c st, claimed (st_db st) → claimed (st_db (env_job_created env c st))) ∧
      (∀ job k st, claimed (st_db st) → claimed (st_db (env_actions env job k st)))
  | EOther f => ∀ st, claimed (st_db st) → claimed (st_db (f st))
  end.

Fixpoint run_events (evs : list Event) (st : ServerState) : ServerState * list TerminalOutcome :=
  match evs with
  | [] => (st, [])
  | EOther f :: rest => run_events rest (f st)
  | EAdvance env :: rest =>
      let '(st1, o) := advance_terminal show env j st in
      let '(st2, os) := run_events rest st1 in
      (st2, o :: os)
  end.

Definition is_handled (o : TerminalOutcome) : bool := match o with Handled _ _ => true | _ => false end.

Lemma claim_wins now fails db db' :
  claim now fails j db = (db', true) →
  claimed db' ∧ db_step db' = db_step db ∧
  ∃ r, db_job db !! j = Some r ∧ jr_metrics_recorded_at r = None ∧
       db_job db' !! j = Some (mkJobRec (jr_row r) (Some now)).
Proof.
  unfold claim. destruct fails; [done|].
  destruct (update_job j _ _ db) as [db1 n] eqn:E. intros [= -> Hn]. apply Nat.ltb_lt in Hn.
  pose proof (f_equal snd E) as En. rewrite update_job_count in En. simpl in En.
  apply (f_equal fst) in E. simpl in E. subst db'.
  destruct (db_job db !! j) as [r|] eqn:Hr; [|lia].
  destruct (bool_decide_reflect (jr_metrics_recorded_at r = None)) as [Hm|]; [|lia].
  assert (Hl : db_job (update_job j (λ r, jr_metrics_recorded_at r ==? None)
                 (λ r, mkJobRec (jr_row r) (Some now)) db).1 !! j = Some (mkJobRec (jr_row r) (Some now))).
  { rewrite lookup_update_job_eq, Hr. simpl. by rewrite bool_decide_true. }
  split_and!; [|apply update_job_db_step|eauto].
  intros r'. rewrite Hl. by intros [= <-].
Qed.

Lemma claim_loses now fails db : claimed db → claim now fails j db = (db, false).
Proof.
  intros Hc. unfold claim. destruct fails; [done|].
  destruct (update_job j _ _ db) as [db1 n] eqn:E.
  pose proof (f_equal snd E) as En. rewrite update_job_count in En. simpl in En.
  apply (f_equal fst) in E. rewrite update_job_noop in E.
  2:{ intros r Hr. apply bool_decide_eq_false. by apply Hc. }
  simpl in E. subst db1. f_equal. destruct (db_job db !! j) as [r|] eqn:Hr; [|by subst n].
  rewrite bool_decide_false in En by (by apply Hc). by subst n.
Qed.

Lemma propagate_db_job now child p s db : db_job (propagate show now child p s db).1 = db_job db.
Proof.
  unfold propagate, mark_parent, mark_completed, mark_cancelled, mark_failed, update_agent_state,
    release_agent_step.
  repeat case_match; simpl; by rewrite ?update_step_db_job.
Qed.

Lemma propagate_planned_claimed env job st :
  event_ok (EAdvance env) → claimed (st_db st) → claimed (st_db (propagate_planned show env job st).1).
Proof.
  intros (_ & Ha & _) Hc. unfold propagate_planned.
  destruct (plan_propagate _), (j_parent_job_id job) as [p|], (j_parent_step_name job) as [s|]; try done.
  pose proof (propagate_db_job (env_now env) job p s (st_db st)) as E.
  assert (claimed (propagate show (env_now env) job p s (st_db st)).1) by (unfold claimed in *; by rewrite E).
  destruct (propagate _ _ _ _ _ _) as [db' []]; simpl in *; try done. by apply Ha.
Qed.

Lemma create_retry_claimed env job task db db' o :
  event_ok (EAdvance env) → create_retry_job (env_now env) job task (env_create_job env) db = Ok (db', o) →
  claimed db → claimed db'.
Proof.
  intros Hok E Hc. unfold create_retry_job in E. destruct (retry_job_decision job task) as [[[root a] d]|]; [|by simplify_eq].
  apply res_bind_ok in E as ([db1 id] & E1 & E).
  assert (Hc1 : claimed db1).
  { destruct (j_git_ref job), (j_revision job); try done; simpl in E1;
      (destruct (env_create_job env _ _ _ _) as [[db2 id']|] eqn:Ec; [|done]); simpl in E1; simplify_eq;
      by eapply (proj1 Hok). }
  destruct (0 <? d)%Z; [|by simplify_eq]. destruct (retry_instant _ _); [|done]. simplify_eq.
  unfold claimed, set_retry_at_ready. by rewrite update_job_steps_db_job.
Qed.

Lemma create_retry_panic_claimed env job task db db' :
  event_ok (EAdvance env) → create_retry_job (env_now env) job task (env_create_job env) db = Err (RetryPanic db') →
  claimed db → claimed db'.
Proof.
  intros Hok E Hc. unfold create_retry_job in E. destruct (retry_job_decision job task) as [[[root a] d]|]; [|done].
  destruct (j_git_ref job), (j_revision job); simpl in E; try done;
    (destruct (env_create_job env _ _ _ _) as [[db2 id']|] eqn:Ec; [|done]); simpl in E;
    (destruct (0 <? d)%Z; [|done]); (destruct (retry_instant _ _); [done|]); simplify_eq; by eapply (proj1 Hok).
Qed.

Lemma after_claim_claimed env job st :
  event_ok (EAdvance env) → claimed (st_db st) → claimed (st_db (after_claim env job st).1).
Proof.
  intros Hok Hc. destruct (Hok) as (_ & _ & Hj & Hact). unfold after_claim. destruct (env_task env) as [task|]; [|done].
  destruct (plan_retry _); [|by apply Hact].
  destruct (create_retry_job _ _ _ _ _) as [[db' [id|]]|[]] eqn:E; simpl.
  - apply Hj. by eapply create_retry_claimed.
  - apply Hact. by eapply create_retry_claimed.
  - by apply Hact.
  - by apply Hact.
  - by eapply create_retry_panic_claimed.
Qed.

Lemma advance_claimed env st :
  event_ok (EAdvance env) →
  let '(st', o) := advance_terminal show env j st in
  (is_handled o = true → claimed (st_db st')) ∧
  (claimed (st_db st) → is_handled o = false ∧ claimed (st_db st')).
Proof.
  intros Hok. unfold advance_terminal. destruct (get j (st_db st)) as [job|]; [|done].
  destruct (negb (is_terminal_status _)); [done|]. destruct (negb (drained _ _ _)); [done|].
  destruct (claim (env_now env) (env_claim_fails env) j (st_db st)) as [db1 won] eqn:Ec.
  destruct won; simpl.
  - pose proof (claim_wins _ _ _ _ Ec) as (Hc1 & _ & r & Hr & Hm & _).
    destruct (propagate_planned show env job (mkServerState db1 (st_cancelled st ∖ {[j]}))) as [st2 pr] eqn:Ep.
    destruct (after_claim env job st2) as [st3 af] eqn:Ea. simpl. split.
    + intros _. apply (f_equal fst) in Ea. simpl in Ea. subst st3. apply after_claim_claimed; [done|].
      apply (f_equal fst) in Ep. simpl in Ep. subst st2. by apply propagate_planned_claimed.
    + intros Hc. by apply Hc in Hr.
  - split; [done|]. intros Hc. rewrite claim_loses in Ec by done. by simplify_eq.
Qed.

Lemma run_events_claimed evs st :
  Forall event_ok evs → claimed (st_db st) →
  Forall (λ o, is_handled o = false) (run_events evs st).2.
Proof.
  intros Hok. revert st. induction Hok as [|[env|f] evs He Hok IH]; intros st Hc; simpl; [constructor| |].
  - pose proof (advance_claimed env st He) as Hadv.
    destruct (advance_terminal show env j st) as [st1 o]. destruct Hadv as [_ Hadv].
    destruct (Hadv Hc) as [Ho Hc1]. specialize (IH st1 Hc1).
    destruct (run_events evs st1) as [st2 os]. simpl in *. by constructor.
  - apply IH, He, Hc.
Qed.

(** C7. A job's terminal side effects run at most once, whatever calls race
    and whatever else happens to the server's state in between: of any
    sequence of [advance] calls on the job at most one reaches propagation,
    retry and hooks; and it does so only when the job is terminal and none
    of its steps is running or claimed (a failed drain query apart). *)
Theorem terminal_handling_at_most_once evs st :
  Forall event_ok evs →
  (length (List.filter is_handled (run_events evs st).2) ≤ 1)%nat ∧
  ∀ env st0, is_handled (advance_terminal show env j st0).2 = true →
    (∃ r, db_job (st_db st0) !! j = Some r ∧ is_terminal_status (jr_status r) = true ∧
          jr_metrics_recorded_at r = None) ∧
    (env_drain_fails env = false → ∀ n r, db_step (st_db st0) !! (j, n) = Some r →
       sr_status r ≠ "running" ∧ sr_status r ≠ "claimed").
Proof.
  intros Hok. split.
  - revert st. induction Hok as [|[env|f] evs He Hok IH]; intros st; simpl; [lia| |apply IH].
    pose proof (advance_claimed env st He) as Hadv.
    destruct (advance_terminal show env j st) as [st1 o]. destruct Hadv as [Hh _].
    specialize (IH st1). destruct (is_handled o) eqn:Ho.
    + pose proof (run_events_claimed evs st1 Hok (Hh eq_refl)) as Hno.
      destruct (run_events evs st1) as [st2 os]. simpl in *. rewrite Ho. simpl.
      rewrite lfilter_none; [simpl; lia|done].
    + destruct (run_events evs st1) as [st2 os]. simpl in *. by rewrite Ho.
  - intros env st0. unfold advance_terminal, get. destruct (db_job (st_db st0) !! j) as [r|] eqn:Hr; [|done].
    simpl. destruct (is_terminal_status _) eqn:Ht; [|done]. simpl.
    destruct (drained _ _ _) eqn:Hd; [|done]. simpl.
    destruct (claim _ _ _ _) as [db1 []] eqn:Ec; [|done]. intros _.
    apply claim_wins in Ec as (_ & _ & r' & Hr' & Hm & _). split; [exists r; split_and!; [done|done|congruence]|].
    intros Hf n s Hs. unfold drained in Hd. rewrite Hf in Hd.
    apply (not_live_steps j n s (st_db st0)); [by apply negb_true_iff in Hd|done].
Qed.
End exactly_once.

(** *** What a terminal job's handling must do *)

(** The claim is written, the cancellation signal dropped, nothing else. *)
Definition claim_taken (now : Time) (j : Uuid) (st : ServerState) : ServerState :=
  mkServerState (with_job (alter (λ r, mkJobRec (jr_row r) (Some now)) j (db_job (st_db st))) (st_db st)) (st_cancelled st ∖ {[j]}).

Definition hooks_for (status : string) : HookKind :=
  if status ==? "completed" then HookSuccess else if status ==? "failed" then HookError
  else if status ==? "cancelled" then HookCancel else HookNone.

(** The parent's step gets the child's verdict (a cancelled child's only while
    it is running), and its output when it completed. *)
Definition parent_marked (child : JobRow) (p : Uuid) (s : string) (db db' : Db) : Prop :=
  db_job db' = db_job db ∧ (∀ k, k ≠ (p, s) → db_step db' !! k = db_step db !! k) ∧
  ∀ old, db_step db !! (p, s) = Some old → ∃ new, db_step db' !! (p, s) = Some new ∧
    sr_status new = (if j_status child ==? "completed" then "completed"
                     else if j_status child ==? "cancelled" then (if sr_status old ==? "running" then "cancelled" else sr_status old)
                     else "failed") ∧
    (j_status child = "completed" → js_output (sr_row new) = j_output child).

Definition retry_due (job : JobRow) : Prop :=
  j_status job = "failed" ∧ j_parent_job_id job = None ∧ ∃ max, j_max_retries job = Some max ∧ (j_retry_attempt job < max)%Z.

(** The next attempt of the chain, started after its delay; a delay beyond
    the calendar panics. [None]: no job was created. *)
Definition retried (env : AdvanceEnv) (job : JobRow) (task : TaskDef) (st : ServerState) : option (ServerState * AfterClaim) :=
  let root := default (j_job_id job) (j_retry_of_job_id job) in
  let creation :=
    match j_git_ref job, j_revision job with
    | Some _, None => None
    | g, _ => res_ok (env_create_job env root (j_retry_attempt job + 1) (bool_decide (is_Some g)) (st_db st))
    end in
  '(db, created) ← creation;
  Some (if (0 <? task_retry_delay task job)%Z
        then match retry_instant (env_now env) (task_retry_delay task job) with
             | Some at_ => (env_job_created env created (with_db (set_retry_at_ready (created_job_id created) at_ db) st),
                            RetriedAs (created_job_id created))
             | None => (with_db db st, RetryPanicked)
             end
        else (env_job_created env created (with_db db st), RetriedAs (created_job_id created))).

Lemma hook_kind_hooks_for s : hook_kind s = hooks_for s.
Proof.
  destruct (hook_kind_iff s) as (H1 & H2 & H3). unfold hooks_for. repeat case_bool_decide; [by apply H1|by apply H2|by apply H3|].
  destruct (hook_kind s); tauto.
Qed.

Lemma retry_due_plan job : plan_retry (plan job) = true ↔ retry_due job.
Proof.
  rewrite (plan_retry_iff job (mkTaskDef "" ∅ None None None None ∅ None [] [] [] [])). unfold retry_due, retry_job_decision. do 2 apply and_iff_compat_l.
  destruct (j_max_retries job) as [m|]; [|split; [by intros [? ?]|by intros (? & ? & _)]].
  destruct (Z.leb_spec m (j_retry_attempt job)); split; [by intros [? ?]|intros (m' & [= <-] & ?); lia|eauto|eauto].
Qed.

Lemma mark_parent_marked show now child p s db : parent_marked child p s db (mark_parent show now child p s db).
Proof.
  unfold parent_marked, mark_parent. repeat case_bool_decide; unfold mark_completed, mark_cancelled, mark_failed;
    (split; [done|]); (split; [intros k Hk; by apply lookup_update_step_ne|]); intros old Ho; rewrite lookup_update_step_eq, Ho; simpl;
    eexists; (split; [reflexivity|]).
  - done.
  - unfold status_is. case_bool_decide; by split.
  - by split.
Qed.

Lemma claim_takes now j db r :
  db_job db !! j = Some r → jr_metrics_recorded_at r = None →
  claim now false j db = (with_job (alter (λ r, mkJobRec (jr_row r) (Some now)) j (db_job db)) db, true).
Proof.
  intros Hr Hm. unfold claim. destruct (update_job j _ _ db) as [db1 n] eqn:E.
  pose proof (f_equal snd E) as En. rewrite update_job_count, Hr, bool_decide_true in En by done. simpl in En. subst n. f_equal.
  assert (Hj : db_job db1 = alter (λ r, mkJobRec (jr_row r) (Some now)) j (db_job db)).
  { apply map_eq. intros k. apply (f_equal fst) in E. simpl in E. subst db1. rewrite lookup_update_job. destruct (decide (k = j)) as [->|Hk].
    - rewrite lookup_alter_eq, Hr. simpl. by rewrite !bool_decide_true.
    - rewrite lookup_alter_ne by done. rewrite bool_decide_false by done. by destruct (db_job db !! k). }
  rewrite <-Hj. apply (f_equal fst) in E. simpl in E. subst db1. apply update_job_with_job.
Qed.

Lemma after_claim_retried env job task st :
  env_task env = Some task →
  after_claim env job st =
  let actions := (env_actions env job (hooks_for (j_status job)) st, RanActions (hooks_for (j_status job))) in
  if plan_retry (plan job) then default actions (retried env job task st) else actions.
Proof.
  intros Et. unfold after_claim. rewrite Et. destruct (plan_retry (plan job)) eqn:Hr; [|by cbn [plan_hooks plan]; rewrite <-hook_kind_hooks_for; unfold plan in Hr |- *; cbn in Hr |- *; rewrite Hr].
  cbn zeta. rewrite hook_kind_hooks_for. unfold retried, create_retry_job.
  pose proof (proj1 (plan_retry_iff job task) Hr) as (_ & _ & [[[root att] d] Hd]). rewrite Hd.
  assert (root = default (j_job_id job) (j_retry_of_job_id job) ∧ att = (j_retry_attempt job + 1)%Z ∧ d = task_retry_delay task job) as (-> & -> & ->).
  { unfold retry_job_decision in Hd. destruct (j_max_retries job); [|done]. case_match; [done|]. by injection Hd as <- <- <-. }
  destruct (j_git_ref job) as [g|], (j_revision job) as [v|]; try done; simpl;
    destruct (env_create_job _ _ _ _ _) as [[db' c]|e]; simpl; try done; destruct (0 <? _)%Z; try done; by destruct (retry_instant _ _).
Qed.

(** C8. Terminal handling is complete. While a step of a terminal job is
    running or claimed nothing changes, so a cancelled job's workers keep
    seeing the signal. Once none is, the first call whose queries succeed
    writes the claim and drops the cancellation signal. A child job's verdict
    (and output) is then put on its parent's step, and an ordinary child's
    parent is advanced; then its hooks run. A job without parent that failed
    with attempts left is retried as the next attempt of its chain, after the
    delay; if no retry is due, or none could be created, the hooks of its
    status run, and nothing else happens. *)
Theorem terminal_handling_complete `{AgentCodec, Collation} show env j st r :
  db_job (st_db st) !! j = Some r → is_terminal_status (jr_status r) = true →
  jr_metrics_recorded_at r = None → env_drain_fails env = false → env_claim_fails env = false →
  let job := jr_row r in
  let st1 := claim_taken (env_now env) j st in
  let actions st := (env_actions env job (hooks_for (j_status job)) st, RanActions (hooks_for (j_status job))) in
  let handled p (x : ServerState * AfterClaim) := advance_terminal show env j st = (x.1, Handled p x.2) in
  if has_live_steps j (st_db st) then advance_terminal show env j st = (st, NotDrained)
  else
    match j_parent_job_id job, j_parent_step_name job with
    | Some p, Some s =>
        ∃ db2 x, propagate show (env_now env) job p s (st_db st1) = (db2, x) ∧
          (j_source_type job ≠ "agent_tool" → x = StepMarked ∧ parent_marked job p s (st_db st1) db2) ∧
          let st2 := match x with StepMarked => env_advance env p (with_db db2 st1) | _ => with_db db2 st1 end in
          handled (Some x) (match env_task env with None => (st2, Unresolved) | Some _ => actions st2 end)
    | _, _ =>
        match env_task env with
        | None => handled None (st1, Unresolved)
        | Some task =>
            (retry_due job → handled None (default (actions st1) (retried env job task st1))) ∧
            (¬ retry_due job → handled None (actions st1))
        end
    end.
Proof.
  intros Hr Ht Hm Hd Hc job st1 actions handled. unfold handled, advance_terminal, get. rewrite Hr. cbn [fmap option_fmap option_map].
  change (j_status (jr_row r)) with (jr_status r). rewrite Ht. unfold drained. rewrite Hd.
  destruct (has_live_steps j (st_db st)); [done|]. cbn [negb]. rewrite Hc, (claim_takes _ _ _ _ Hr Hm). cbn [negb]. fold (claim_taken (env_now env) j st). fold st1 job.
  assert (Hafter : ∀ st2, after_claim env job st2 = match env_task env with
            | None => (st2, Unresolved)
            | Some task => if plan_retry (plan job) then default (actions st2) (retried env job task st2) else actions st2 end).
  { intros st2. destruct (env_task env) as [task|] eqn:Et; [by rewrite (after_claim_retried _ _ _ _ Et)|]. unfold after_claim. by rewrite Et. }
  unfold propagate_planned. pose proof (plan_propagate_iff job) as Hp. pose proof (retry_due_plan job) as Hdue.
  destruct (j_parent_job_id job) as [p|] eqn:Ep; [destruct (j_parent_step_name job) as [s|] eqn:Es|].
  - rewrite (proj2 Hp) by (split; by eexists). destruct (propagate show (env_now env) job p s (st_db st1)) as [db2 x] eqn:Ex.
    exists db2, x. split; [done|]. split.
    + intros Hs. unfold propagate in Ex. rewrite bool_decide_false in Ex by done. injection Ex as <- <-. split; [done|apply mark_parent_marked].
    + destruct (plan_retry (plan job)); [destruct (proj1 Hdue eq_refl) as (_ & E & _); congruence|]. rewrite Hafter. by destruct (env_task env).
  - assert (plan_propagate (plan job) = false) as -> by (apply not_true_is_false; intros [_ [? ?]]%Hp; done).
    rewrite Hafter. destruct (env_task env) as [task|]; [|done].
    destruct (plan_retry (plan job)); (split; intros Hx); [by destruct (default _ _)|destruct (Hx (proj1 Hdue eq_refl))|by apply (proj2 Hdue) in Hx|done].
  - assert (plan_propagate (plan job) = false) as -> by (apply not_true_is_false; intros [[? ?] _]%Hp; done).
    rewrite Hafter. destruct (env_task env) as [task|]; [|done].
    destruct (plan_retry (plan job)); (split; intros Hx); [by destruct (default _ _)|destruct (Hx (proj1 Hdue eq_refl))|by apply (proj2 Hdue) in Hx|done].
Qed.

(** ** Agent tool results *)

Section agent.
Context `{AgentCodec, Collation} (show : Uuid → string) (p : Uuid) (s : string).
(** What the server writes it reads back. *)
Hypothesis conv_roundtrip : ∀ c, conv_from_value (conv_to_value c) = Some c.

(** The agent step's row and its conversation. *)
Definition agent_row (db : Db) (status : string) (worker : option Uuid) (conv : AgentConversationState) : Prop :=
  ∃ r v, db_step db !! (p, s) = Some r ∧ sr_status r = status ∧ js_worker_id (sr_row r) = worker ∧
    js_agent_state (sr_row r) = Some v ∧ conv_from_value v = Some conv.

(** The children settle one after another. *)
Fixpoint propagate_all (children : list (Time * JobRow)) (db : Db) : Db * list Propagated :=
  match children with
  | [] => (db, [])
  | (now, c) :: rest =>
      let '(db1, o) := propagate show now c p s db in
      let '(db2, os) := propagate_all rest db1 in
      (db2, o :: os)
  end.

Lemma take_call_found child l :
  child ∈ child_job_id <$> l →
  ∃ tc rest, take_call child l = Some (tc, rest) ∧ child_job_id tc = child ∧ l ≡ₚ tc :: rest.
Proof.
  induction l as [|x l IH]; [by intros ?%elem_of_nil|].
  rewrite fmap_cons. cbn [take_call]. intros [E|Hin]%elem_of_cons.
  - rewrite bool_decide_true by done. eauto.
  - case_bool_decide as Hx; [eauto|]. destruct (IH Hin) as (tc & rest & -> & Hc & Hp). simpl.
    exists tc, (x :: rest). split_and!; [done|done|]. rewrite Hp. apply Permutation_swap.
Qed.

Lemma find_parent_row db r :
  steps_wf db → db_step db !! (p, s) = Some r →
  find (λ x, js_step_name x ==? s) (get_steps_for_job p db) = Some (sr_row r).
Proof.
  intros Hwf Hr. destruct (find _ _) as [x|] eqn:E.
  - apply find_some in E as [Hin%list_elem_of_In Hn%bool_decide_eq_true].
    apply elem_of_steps_for_job in Hin as (n & rec & Hrec & ->).
    destruct (Hwf _ _ Hrec) as (_ & En & _). simpl in En. rewrite En in Hn. subst n. by simplify_eq.
  - exfalso. assert (Hin : sr_row r ∈ get_steps_for_job p db) by (apply elem_of_steps_for_job; eauto).
    apply list_elem_of_In in Hin. eapply find_none in E; [|done]. apply bool_decide_eq_false in E.
    destruct (Hwf _ _ Hr) as (_ & En & _). done.
Qed.

Lemma update_step_wf n g f db :
  (∀ r, js_job_id (sr_row (f r)) = js_job_id (sr_row r) ∧ js_step_name (sr_row (f r)) = js_step_name (sr_row r) ∧
        js_required_tags (sr_row (f r)) = js_required_tags (sr_row r)) →
  steps_wf db → steps_wf (update_step p n g f db).1.
Proof.
  intros Hf Hwf k r'. rewrite lookup_update_step. destruct (db_step db !! k) as [r|] eqn:Hr; [|done].
  simpl. intros [= <-]. destruct (Hf r) as (E1 & E2 & E3). destruct (Hwf k r Hr) as (? & ? & ?).
  case_match; rewrite ?E1, ?E2, ?E3; eauto.
Qed.

(** One child of the conversation settles. *)
Lemma propagate_tool now c db worker conv :
  steps_wf db → agent_row db "running" worker conv → j_source_type c = "agent_tool" →
  j_job_id c ∈ child_job_id <$> pending_tool_calls conv →
  ∃ db' tc rest conv', propagate show now c p s db = (db', ToolResolved) ∧ steps_wf db' ∧
    child_job_id tc = j_job_id c ∧ pending_tool_calls conv ≡ₚ tc :: rest ∧
    pending_tool_calls conv' = rest ∧ messages conv' = messages conv ∧
    resolved_tool_results conv' =
      resolved_tool_results conv ++ [mkResolvedToolResult (tool_call_id tc) (tool_result_text c)] ∧
    (if all_tool_calls_resolved conv' then agent_row db' "ready" None conv'
     else agent_row db' "running" worker conv') ∧
    ∀ k, k ≠ (p, s) → db_step db' !! k = db_step db !! k.
Proof.
  intros Hwf (r & v & Hr & Hst & Hw & Hv & Hconv) Hsrc Hin.
  destruct (take_call_found _ _ Hin) as (tc & rest & Et & Hc & Hp).
  unfold propagate. rewrite bool_decide_true by done. rewrite (find_parent_row db r Hwf Hr), Hv, Hconv.
  assert (existsb (λ tc, child_job_id tc ==? j_job_id c) (pending_tool_calls conv) = true) as ->.
  { apply existsb_exists'. exists tc. split; [rewrite Hp; left|by apply bool_decide_eq_true]. }
  unfold resolve_tool_call. rewrite Et. cbn [negb].
  set (conv' := push_result _ _).
  set (db1 := update_agent_state p s (conv_to_value conv') db).
  assert (Hwf1 : steps_wf db1) by (apply update_step_wf; [done|done]).
  assert (Hr1 : db_step db1 !! (p, s) = Some (upd_row (set_agent_state (Some (conv_to_value conv'))) r))
    by (unfold db1, update_agent_state; by rewrite lookup_update_step_eq, Hr).
  assert (Hk1 : ∀ k, k ≠ (p, s) → db_step db1 !! k = db_step db !! k)
    by (intros k Hk; unfold db1, update_agent_state; by apply lookup_update_step_ne).
  eexists _, tc, rest, conv'. split; [reflexivity|]. destruct (all_tool_calls_resolved conv') eqn:Ea.
  - split_and!; try done; [by apply update_step_wf| |].
    + eexists _, _. unfold release_agent_step. rewrite lookup_update_step_eq, Hr1.
      assert (Hg : status_is "running" (upd_row (set_agent_state (Some (conv_to_value conv'))) r) = true)
        by by apply bool_decide_eq_true.
      simpl. rewrite Hg. done.
    + intros k Hk. unfold release_agent_step. rewrite lookup_update_step_ne by done. by apply Hk1.
  - split_and!; try done. eexists _, _. done.
Qed.

End agent.
