(* ===== verification/Settlement.v ===== *)
(** * The settlement entries

    [crates/stroem-server/src/settlement/mod.rs]: resolving a job's task,
    [advance] (one cascade round, the dispatch rounds, terminal handling),
    [reconcile], the entries workers and the API call, and cancellation. The
    dispatch of task, approval and deferred steps, the hooks and the job
    creator are services the functions take; [kept] is what every settlement
    promises about jobs that are already over, provided the services do. *)
From S2P Require Import Prelude Json Template JobModel Gate Workflow Db StepRepo StepRepoProps JobRepo JobRepoProps Cascade CascadeApply Settle Retry Terminal.

(** ** Services *)

(** [WorkspaceManager::config_for_user]: the tasks of the configuration a job
    runs with, no such workspace, or a failure, which for a pin may be
    permanent. *)
Inductive ConfigAnswer :=
| ConfigFound (tasks : gmap string TaskDef)
| ConfigMissing
| ConfigFailed (permanent : bool).

Record Services := mkServices {
  sv_now : Time;
  sv_show : Uuid → string;
  sv_random : JobStepRow → Z;
  sv_render : Time → string;
  sv_drain_fails : bool;
  sv_claim_fails : bool;
  sv_config : JobRow → ConfigAnswer;
  (** the render context of the cascade and the scrub of its errors *)
  sv_context : JobRow → list JobStepRow → option json;
  sv_redact : option (string → string);
  (** [deferred::resolve_deferred_steps], [dispatch::handle_task_steps] and
      [dispatch_approvals], the last with whether it succeeded *)
  sv_deferred : Uuid → TaskDef → ServerState → ServerState;
  sv_tasks : Uuid → TaskDef → ServerState → ServerState;
  sv_approvals : JobRow → TaskDef → ServerState → ServerState * bool;
  sv_actions : JobRow → HookKind → ServerState → ServerState;
  sv_create_job : Uuid → Z → bool → Db → result string (Db * CreatedJob);
}.

(** ** Resolving the task *)

Definition pin_unavailable (now : Time) (job : JobRow) (permanent : bool) (db : Db) : Db :=
  if is_terminal_status (j_status job) then db
  else if negb permanent then db
  else
    let '(db', settled) := settle_tx now (j_job_id job) JobFailed None db in
    if settled : bool then (cancel_pending_steps_tx now (j_job_id job) db').1 else db'.

(** [None] in an [Ok]: no flow to execute. *)
Definition resolve `{Collation} (sv : Services) (job : JobRow) (db : Db) : result unit (Db * option TaskDef) :=
  match sv_config sv job with
  | ConfigMissing => Ok (db, None)
  | ConfigFailed permanent =>
      match j_git_ref job, j_revision job with
      | Some _, Some _ => Ok (pin_unavailable (sv_now sv) job permanent db, None)
      | _, _ => Err tt
      end
  | ConfigFound tasks =>
      match tasks !! j_task_name job with
      | Some t => Ok (db, Some t)
      | None =>
          if (j_source_type job ==? SourceType.as_ref Hook) ||
             (j_source_type job ==? SourceType.as_ref EventSource)
          then Ok (db, Some (build_minimal_task_def (j_job_id job) db))
          else Ok (db, None)
      end
  end.

(** ** Dispatch rounds *)

(** [absorb_new] and [within_bound] of [deferred.rs] *)
Definition absorb_new (seen : gset string) (names : list string) : gset string * bool :=
  (seen ∪ list_to_set names, existsb (λ n, negb (bool_decide (n ∈ seen))) names).
Definition within_bound (repeats step_count : nat) : bool := (repeats <=? step_count)%nat.

Definition deferred_names `{Collation} (job_id : Uuid) (db : Db) : list string :=
  js_step_name <$> get_ready_deferred_steps job_id db.

Section advance.
Context `{AgentCodec, Collation, TemplateEngine, JsonParser} (sv : Services).

Section nested.
(** The [advance] of the nested calls. *)
Context (adv : Uuid → ServerState → ServerState).

Definition reconcile (root_job_id : Uuid) (st : ServerState) : ServerState :=
  fold_left (λ st child, adv (j_job_id child) st)
    (get_settled_descendants_with_running_parent_step root_job_id (st_db st)) st.

Definition job_created (created : CreatedJob) (st : ServerState) : ServerState :=
  let st1 := if terminal_at_creation created then adv (created_job_id created) st else st in
  reconcile (created_job_id created) st1.

(** One round after another while a round leaves a new deferred step; the
    flag is false when the approvals fail. [rounds] bounds the repeats. *)
Fixpoint dispatch_rounds (rounds : nat) (job_id : Uuid) (job : JobRow) (task : TaskDef) (seen : gset string)
    (repeats : nat) (st : ServerState) : ServerState * bool :=
  let st1 := sv_tasks sv job_id task (sv_deferred sv job_id task st) in
  let '(st2, ok) := sv_approvals sv job task (reconcile job_id st1) in
  if negb ok then (st2, false)
  else
    let '(seen', new) := absorb_new seen (deferred_names job_id (st_db st2)) in
    if new && within_bound (S repeats) (length (get_steps_for_job job_id (st_db st2))) then
      match rounds with
      | O => (st2, true)
      | S rounds' => dispatch_rounds rounds' job_id job task seen' (S repeats) st2
      end
    else (st2, true).

(** Steps 1 to 3 of [advance]: the state, the task when it resolved, and
    whether the call goes on. *)
Definition advance_flow (rounds : nat) (job_id : Uuid) (job : JobRow) (st : ServerState)
    : ServerState * option TaskDef * bool :=
  match resolve sv job (st_db st) with
  | Err _ => (st, None, false)
  | Ok (db1, resolved) =>
      let st1 := with_db db1 st in
      match is_terminal_status (j_status job), resolved with
      | false, Some task =>
          match cascade_and_settle (sv_now sv) job_id task (sv_context sv) (sv_redact sv)
                  (λ _, db1) (λ _, db1) (λ _, false) id with
          | Err _ => (st1, resolved, false)
          | Ok (db2, _) =>
              let st2 := with_db db2 st1 in
              let '(st3, ok) := dispatch_rounds rounds job_id job task
                                  (list_to_set (deferred_names job_id db2)) 0 st2 in
              (st3, resolved, ok)
          end
      | _, _ => (st1, resolved, true)
      end
  end.

Definition env_of (task : option TaskDef) : AdvanceEnv :=
  mkAdvanceEnv (sv_now sv) (sv_drain_fails sv) (sv_claim_fails sv) task (sv_create_job sv) adv job_created
    (sv_actions sv).

Definition advance_body (rounds : nat) (job_id : Uuid) (st : ServerState) : ServerState * bool :=
  match get job_id (st_db st) with
  | None => (st, true)
  | Some job =>
      let '(st1, resolved, ok) := advance_flow rounds job_id job st in
      if negb ok then (st1, false)
      else ((advance_terminal (sv_show sv) (env_of resolved) job_id st1).1, true)
  end.
End nested.

(** [fuel] bounds the nesting of the calls and the dispatch rounds of each;
    beyond it a nested call does nothing. *)
Fixpoint advance (fuel : nat) (job_id : Uuid) (st : ServerState) : ServerState * bool :=
  match fuel with
  | O => (st, true)
  | S fuel' => advance_body (λ i s, (advance fuel' i s).1) fuel' job_id st
  end.

(** ** Entries *)

Section entries.
Context (fuel : nat).
Let adv (i : Uuid) (st : ServerState) : ServerState := (advance fuel i st).1.

(** The database, the outcome, the server-log line. *)
Definition step_failed (job_id : Uuid) (step_name error : string) (expected : list StepStatus)
    (expected_claim : option ClaimIdentity) (st : ServerState)
    : option (ServerState * FailOutcome * option string) :=
  '(db', outcome) ← fail_or_retry (sv_render sv) (sv_now sv) (sv_now sv) job_id step_name error expected
                      (λ row, compute_retry_delay (sv_random sv row) row) expected_claim (st_db st);
  let st1 := with_db db' st in
  let line := retry_log_line step_name outcome in
  Some (match outcome with
        | Failed _ _ => (adv job_id st1, outcome, line)
        | _ => (st1, outcome, line)
        end).

Definition claimed_step_failed (job_id : Uuid) (step_name error : string) (claim : option ClaimIdentity)
    (st : ServerState) : option (ServerState * FailOutcome * option string) :=
  step_failed job_id step_name error [StepRunning] claim st.

Definition worker_completed_job (job_id : Uuid) (output : option json) (st : ServerState) : ServerState :=
  let '(db', _) := settle (sv_now sv) job_id JobCompleted output (st_db st) in
  adv job_id (with_db db' st).

(** [inl]: the child's id; [inr]: it can never deliver a result. *)
Definition agent_child_created (created : CreatedJob) (st : ServerState) : ServerState * (Uuid + Uuid * string) :=
  let st' := reconcile adv (created_job_id created) st in
  let status := default "unknown" (j_status <$> get (created_job_id created) (st_db st')) in
  (st', if terminal_at_creation created || is_terminal_status status
        then inr (created_job_id created, status) else inl (created_job_id created)).

Definition replay_child (job_id : Uuid) (step_name : string) (st : ServerState) (tc : PendingToolCall)
    : ServerState :=
  match get (child_job_id tc) (st_db st) with
  | None => st
  | Some child =>
      if negb (is_terminal_status (j_status child)) then st
      else
        let '(db', x) := propagate (sv_show sv) (sv_now sv) child job_id step_name (st_db st) in
        let st' := with_db db' st in
        match x with StepMarked => adv job_id st' | _ => st' end
  end.

Definition agent_children_registered (job_id : Uuid) (step_name : string) (st : ServerState) : ServerState :=
  match find (λ s, js_step_name s ==? step_name) (get_steps_for_job job_id (st_db st)) ≫= js_agent_state with
  | None => st
  | Some v =>
      match conv_from_value v with
      | None => st
      | Some conv => fold_left (replay_child job_id step_name) (pending_tool_calls conv) st
      end
  end.
End entries.

(** ** Cancellation *)

Inductive CancelResult := Cancelled | NotFound | AlreadyTerminal.

Section cancel.
Context (adv : Uuid → ServerState → ServerState).

(** The writes to the job itself: its row, the steps no worker holds, and the
    signal for those a worker does. *)
Definition cancel_own (job_id : Uuid) (db : Db) (st : ServerState) : ServerState :=
  let db1 := (cancel_pending_steps (sv_now sv) job_id db).1 in
  let db2 := (cancel_server_managed_steps (sv_now sv) job_id db1).1 in
  mkServerState db2
    (if bool_decide (get_running_steps job_id db2 = []) then st_cancelled st else {[job_id]} ∪ st_cancelled st).

(** [depth] bounds the depth of the tree of active child jobs. *)
Fixpoint cancel (depth : nat) (job_id : Uuid) (st : ServerState) : option (ServerState * CancelResult) :=
  match get job_id (st_db st) with
  | None => Some (st, NotFound)
  | Some _ =>
      let '(db', updated) := JobRepo.cancel (sv_now sv) job_id (st_db st) in
      if negb updated then Some (with_db db' st, AlreadyTerminal)
      else
        match depth with
        | O => None
        | S depth' =>
            let st1 := cancel_own job_id db' st in
            st2 ← fold_left (λ acc child, st ← acc; '(st', _) ← cancel depth' (j_job_id child) st; Some st')
                    (get_child_jobs job_id (st_db st1)) (Some st1);
            Some (adv job_id st2, Cancelled)
        end
  end.
End cancel.
End advance.

(** ** Jobs that are over

    The statements cancellation is made of leave the verdict of a job that is
    over alone and make none of its steps wait. *)

(** ** Over stays over *)

Definition over (r : JobRec) : Prop := is_terminal_status (jr_status r) = true.
(** The status column of a job row parses. *)
Definition job_typed (r : JobRec) : Prop := is_Some (JobStatus.from_str (jr_status r)).
Definition jobs_wf (db : Db) : Prop := ∀ k r, db_job db !! k = Some r → j_job_id (jr_row r) = k ∧ job_typed r.

(** A step that waits to run: pending, suspended, or ready. A ready step with
    a saved conversation is an agent step the result of its last tool job has
    released. *)
Definition waiting (s : StepRec) : Prop :=
  sr_status s ∈ ["pending"; "suspended"] ∨ (sr_status s = "ready" ∧ js_agent_state (sr_row s) = None).

(** Jobs stay, with their parent; one that is over keeps its verdict and its
    terminal claim, and none of its steps starts to wait. *)
Record kept (db db' : Db) : Prop := {
  kept_wf : jobs_wf db';
  kept_job k r : db_job db !! k = Some r →
    ∃ r', db_job db' !! k = Some r' ∧ j_parent_job_id (jr_row r') = j_parent_job_id (jr_row r) ∧
      (over r → job_verdict r' = job_verdict r) ∧
      (jr_metrics_recorded_at r ≠ None → jr_metrics_recorded_at r' ≠ None);
  kept_step k n r s' : db_job db !! k = Some r → over r → db_step db' !! (k, n) = Some s' → waiting s' →
    ∃ s, db_step db !! (k, n) = Some s ∧ waiting s;
}.
Definition keeps (db db' : Db) : Prop := jobs_wf db → kept db db'.

Lemma typed_not_active r : job_typed r → jr_status r ∉ ACTIVE → over r.
Proof.
  unfold job_typed, over, JobStatus.from_str. intros Ht Hn. repeat case_bool_decide; try (by destruct Ht);
    match goal with E : jr_status r = _ |- _ => rewrite E in *; try done; destruct Hn; unfold ACTIVE; set_solver end.
Qed.

Lemma over_verdict r r' : job_verdict r' = job_verdict r → over r → over r'.
Proof. unfold job_verdict, over. intros [= -> _ _]. done. Qed.

#[export] Instance keeps_preorder : PreOrder keeps.
Proof.
  split.
  - intros db Hwf. split; [done|by eauto|by eauto].
  - intros a b c Hab Hbc Hwf. specialize (Hab Hwf). specialize (Hbc (kept_wf _ _ Hab)). split.
    + apply Hbc.
    + intros k r Hr. destruct (kept_job _ _ Hab k r Hr) as (r1 & H1 & P1 & V1 & M1).
      destruct (kept_job _ _ Hbc k r1 H1) as (r2 & H2 & P2 & V2 & M2). exists r2. split_and!; [done|congruence| |tauto].
      intros Ho. rewrite V2, V1 by eauto using over_verdict. done.
    + intros k n r s Hr Ho Hs Hw. destruct (kept_job _ _ Hab k r Hr) as (r1 & H1 & _ & V1 & _).
      destruct (kept_step _ _ Hbc k n r1 s H1) as (s1 & Hs1 & Hw1); [by eauto using over_verdict|done|done|].
      by destruct (kept_step _ _ Hab k n r s1 Hr Ho Hs1 Hw1) as (s0 & Hs0 & Hw0); eauto.
Qed.

(** A statement on the job table. *)
Lemma keeps_update_job j g f db :
  (∀ r, g r = true → j_job_id (jr_row (f r)) = j_job_id (jr_row r) ∧
        j_parent_job_id (jr_row (f r)) = j_parent_job_id (jr_row r) ∧ (over r → job_verdict (f r) = job_verdict r) ∧
        (jr_metrics_recorded_at r ≠ None → jr_metrics_recorded_at (f r) ≠ None) ∧ (job_typed r → job_typed (f r))) →
  keeps db (update_job j g f db).1.
Proof.
  intros Hf Hwf. split.
  - intros k r. rewrite lookup_update_job. destruct (db_job db !! k) as [r0|] eqn:Hr; [|done].
    simpl. intros [= <-]. case_match eqn:Hg; [|by apply Hwf]. apply andb_true_iff in Hg as [_ Hg].
    destruct (Hf _ Hg) as (-> & _ & _ & _ & Ht). destruct (Hwf _ _ Hr) as [? ?]. auto.
  - intros k r Hr. rewrite lookup_update_job, Hr. eexists. split; [done|].
    destruct ((k ==? j) && g r) eqn:Hg; [|done]. apply andb_true_iff in Hg as [_ Hg].
    destruct (Hf _ Hg) as (_ & ? & ? & ? & _). done.
  - intros k n r s Hr Ho. rewrite update_job_db_step. eauto.
Qed.

(** A change of the step table alone that makes no step wait. *)
Lemma keeps_steps db db' :
  db_job db' = db_job db →
  (∀ k s', db_step db' !! k = Some s' → waiting s' → ∃ s, db_step db !! k = Some s ∧ waiting s) →
  keeps db db'.
Proof.
  intros Ej Hs Hwf. split.
  - intros k r. rewrite Ej. apply Hwf.
  - intros k r Hr. rewrite Ej. eauto.
  - intros k n r s' _ _ Hs' Hw. by eapply Hs.
Qed.

Lemma keeps_update_step j n g f db :
  (∀ s, g s = true → waiting (f s) → waiting s) → keeps db (update_step j n g f db).1.
Proof.
  intros Hf. apply keeps_steps; [done|]. intros k s'. rewrite lookup_update_step.
  destruct (db_step db !! k) as [s|]; [|done]. simpl. intros [= <-] Hw. exists s. split; [done|].
  destruct ((k ==? (j, n)) && g s) eqn:Hg; [|done]. apply andb_true_iff in Hg as [_ Hg]. by eapply Hf.
Qed.

Lemma keeps_update_job_steps j g f db :
  (∀ n s, g n s = true → waiting (f s) → waiting s) → keeps db (update_job_steps j g f db).1.
Proof.
  intros Hf. apply keeps_steps; [done|]. intros k s'. rewrite lookup_update_job_steps.
  destruct (db_step db !! k) as [s|]; [|done]. simpl. intros [= <-] Hw. exists s. split; [done|].
  destruct ((k.1 ==? j) && g k.2 s) eqn:Hg; [|done]. apply andb_true_iff in Hg as [_ Hg]. by eapply Hf.
Qed.

Lemma active_not_over r : job_status_in ACTIVE r = true → ¬ over r.
Proof.
  unfold job_status_in, sql_in, over. rewrite bool_decide_eq_true. intros Hin.
  repeat (apply elem_of_cons in Hin as [->|Hin]; [done|]). by apply elem_of_nil in Hin.
Qed.

(** A status the statement writes that is not a waiting one. *)
Ltac not_waiting := intros; match goal with Hw : waiting _ |- _ => exfalso; revert Hw end; unfold waiting; simpl; set_solver.

Lemma keeps_cancel now j db : keeps db (JobRepo.cancel now j db).1.
Proof.
  unfold JobRepo.cancel. destruct (update_job _ _ _ db) as [db' n] eqn:E. apply (f_equal fst) in E. simpl in E. subst db'.
  simpl. apply keeps_update_job. intros r Hr%active_not_over. split_and!; try done. intros _. by eexists.
Qed.

Lemma keeps_claim now fails j db : keeps db (claim now fails j db).1.
Proof.
  unfold claim. destruct fails; [reflexivity|].
  destruct (update_job _ _ _ db) as [db' n] eqn:E. apply (f_equal fst) in E. simpl in E. subst db'.
  simpl. apply keeps_update_job. intros r _. done.
Qed.

Lemma keeps_cancel_pending now j db : keeps db (cancel_pending_steps_tx now j db).1.
Proof. apply keeps_update_job_steps. not_waiting. Qed.

Lemma keeps_mark_parent show now child p s db : keeps db (mark_parent show now child p s db).
Proof. unfold mark_parent. repeat case_match; apply keeps_update_step; not_waiting. Qed.

(** A released agent step has its conversation saved. *)
Lemma keeps_agent_state p s v db : keeps db (update_agent_state p s v db).
Proof. apply keeps_update_step. intros r _ [?|[_ [=]]]. by left. Qed.

Lemma keeps_release now p s v db : keeps db (release_agent_step now p s (update_agent_state p s v db)).
Proof.
  apply keeps_steps; [done|]. intros k s'. unfold release_agent_step, update_agent_state. rewrite !lookup_update_step.
  destruct (db_step db !! k) as [r|]; [|done]. simpl. intros [= <-] Hw. exists r. split; [done|]. revert Hw.
  destruct (bool_decide (k = (p, s))); [|done]. unfold any_row, waiting. cbn [andb]. case_match; simpl; set_solver.
Qed.

Lemma keeps_propagate `{AgentCodec, Collation} show now child p s db :
  keeps db (propagate show now child p s db).1.
Proof.
  pose proof (keeps_mark_parent show now child p s db) as Hm.
  unfold propagate. repeat case_match; simpl; try done; try reflexivity; auto using keeps_release, keeps_agent_state.
Qed.

Lemma keeps_cancel_own sv j db st : keeps db (st_db (cancel_own sv j db st)).
Proof.
  unfold cancel_own. simpl. etrans; [apply keeps_cancel_pending|]. apply keeps_update_job_steps. not_waiting.
Qed.
