(* ===== verification/CancelProps.v ===== *)
(** * Cancellation reaches the whole tree

    [Settlement::cancel] walks the active child jobs of a job. On a finite
    tree, with nothing else settling or adding jobs in it meanwhile, the walk
    returns and leaves every job of the tree cancelled, with no step left
    waiting but for an agent step a tool job has released. *)
From S2P Require Import Prelude Json Template JobModel Gate Workflow Db StepRepo StepRepoProps JobRepo JobRepoProps Cascade CascadeApply Settle Retry Terminal Settlement.

Definition active (db : Db) (j : Uuid) : Prop := ∃ r, db_job db !! j = Some r ∧ jr_status r ∈ ACTIVE.

(** An active job and the job it is a child of. *)
Definition child (db : Db) (p c : Uuid) : Prop :=
  ∃ r, db_job db !! c = Some r ∧ j_parent_job_id (jr_row r) = Some p ∧ jr_status r ∈ ACTIVE.

(** Cancelled at [now], with no step left waiting: none is pending, suspended
    or ready, save a ready agent step with a saved conversation. *)
Definition stopped (now : Time) (db : Db) (j : Uuid) : Prop :=
  ∃ r, db_job db !! j = Some r ∧ jr_status r = "cancelled" ∧ j_completed_at (jr_row r) = Some now ∧
    ∀ n s, db_step db !! (j, n) = Some s → ¬ waiting s.

(** The tree of active children below a job has at most [n] levels. *)
Fixpoint levels (db : Db) (n : nat) (j : Uuid) : Prop :=
  match n with O => False | S n' => ∀ c, child db j c → levels db n' c end.

Lemma stopped_kept now db db' j : kept db db' → stopped now db j → stopped now db' j.
Proof.
  intros Hk (r & Hr & Hs & Hc & Hw). assert (Ho : over r) by (unfold over; by rewrite Hs).
  destruct (kept_job _ _ Hk j r Hr) as (r' & Hr' & _ & Hv & _). specialize (Hv Ho). unfold job_verdict in Hv.
  injection Hv as E1 _ E2. exists r'. split_and!; [done|congruence|congruence|].
  intros n s' Hs' Hws. destruct (kept_step _ _ Hk j n r s' Hr Ho Hs' Hws) as (s & Hs0 & Hws0). by apply (Hw n s Hs0).
Qed.

(** A cancelled job whose ancestors, if any, are all cancelled. *)
Inductive cancelled_up (db : Db) : Uuid → Prop :=
| cancelled_up_intro i r :
    db_job db !! i = Some r → jr_status r = "cancelled" →
    (∀ p, j_parent_job_id (jr_row r) = Some p → cancelled_up db p) → cancelled_up db i.

Lemma cancelled_up_kept db db' i : kept db db' → cancelled_up db i → cancelled_up db' i.
Proof.
  intros Hk. induction 1 as [i r Hr Hs Hp IH]. destruct (kept_job _ _ Hk i r Hr) as (r' & Hr' & Ep & Hv & _).
  assert (Ho : over r) by (unfold over; by rewrite Hs). specialize (Hv Ho). unfold job_verdict in Hv.
  apply (cancelled_up_intro _ i r' Hr'); [congruence|]. rewrite Ep. exact IH.
Qed.

(** The ancestors of a job are cancelled, or it has none. *)
Definition up (db : Db) (j : Uuid) : Prop :=
  ∀ r p, db_job db !! j = Some r → j_parent_job_id (jr_row r) = Some p → cancelled_up db p.

#[export] Instance active_dec db j : Decision (active db j).
Proof.
  unfold active. destruct (db_job db !! j) as [r|].
  - destruct (decide (jr_status r ∈ ACTIVE)) as [Ha|Ha]; [left; by exists r|right; intros (r' & [= <-] & ?); done].
  - right. by intros (r & ? & _).
Defined.

Section tree.
Context (now : Time) (T : Uuid → Prop).

Definition closed (db : Db) : Prop := ∀ p c, T p → child db p c → T c.

(** What may happen to the jobs of a tree: finished ones are left alone, none
    gets a new active child, and an active one stays active unless it is
    stopped with everything below it. *)
Record calm (db db' : Db) : Prop := {
  calm_kept : kept db db';
  calm_child p c : T p → child db' p c → child db p c;
  calm_active c : T c → active db c → active db' c ∨ ∀ d, rtc (child db) c d → stopped now db' d;
}.

Lemma calm_closed db db' : calm db db' → closed db → closed db'.
Proof. intros Hc Hcl p c Hp Hch. eapply Hcl; [done|]. by apply (calm_child _ _ Hc). Qed.

Lemma levels_calm_sub db db' n j :
  (∀ p c, T p → child db' p c → child db p c ∧ T c) → T j → levels db n j → levels db' n j.
Proof.
  intros Hsub. revert j. induction n as [|n IH]; intros j Hj; [done|]. intros Hl c Hch.
  destruct (Hsub _ _ Hj Hch) as [Hch' Hc]. apply IH; [done|by apply Hl].
Qed.

Lemma levels_calm db db' n j : calm db db' → closed db → T j → levels db n j → levels db' n j.
Proof.
  intros Hc Hcl. apply levels_calm_sub. intros p c Hp Hch. apply (calm_child _ _ Hc) in Hch; [|done].
  split; [done|by eapply Hcl].
Qed.

Lemma child_active db p c : child db p c → active db c.
Proof. intros (r & ? & _ & ?). by exists r. Qed.

(** A child keeps its parent as long as it is active. *)
Lemma child_kept db db' p c : kept db db' → child db p c → active db' c → child db' p c.
Proof.
  intros Hk (r & Hr & Hp & _) (r' & Hr' & Ha). destruct (kept_job _ _ Hk c r Hr) as (r1 & H1 & Hp1 & _).
  simplify_eq. exists r'. split_and!; [done|congruence|done].
Qed.

Lemma calm_trans db db1 db2 : closed db → calm db db1 → calm db1 db2 → jobs_wf db → calm db db2.
Proof.
  intros Hcl H1 H2 Hwf.
  assert (Hk : kept db db2).
  { assert (keeps db db2) as Hk; [|by apply Hk]. etrans; [intros _; apply H1|intros _; apply H2]. }
  split; [done| |].
  - intros p c Hp Hch. apply (calm_child _ _ H1); [done|]. by apply (calm_child _ _ H2).
  - intros c Hc Ha. destruct (calm_active _ _ H1 c Hc Ha) as [Ha1|Hst].
    2:{ right. intros d Hd. eapply stopped_kept; [apply H2|]. by apply Hst. }
    destruct (calm_active _ _ H2 c Hc Ha1) as [Ha2|Hst]; [by left|right].
    assert (Hgo : ∀ x d, rtc (child db) x d → T x → rtc (child db1) c x → stopped now db2 d).
    { intros x d Hxd. induction Hxd as [x|x y d Hxy Hyd IH]; intros Hx Hcx; [by apply Hst|].
      assert (Hy : T y) by by eapply Hcl. pose proof (child_active _ _ _ Hxy) as Hay.
      destruct (calm_active _ _ H1 y Hy Hay) as [Hy1|Hsy].
      - apply IH; [done|]. eapply rtc_r; [done|]. eapply child_kept; [apply H1|done|done].
      - eapply stopped_kept; [apply H2|]. by apply Hsy. }
    intros d Hd. by apply (Hgo c d).
Qed.

(** ** The walk *)

Section walk.
Context `{AgentCodec, Collation, TemplateEngine, JsonParser} (sv : Services).
Context (adv : Uuid → ServerState → ServerState).
Hypothesis Hnow : sv_now sv = now.
Hypothesis quiet : ∀ i st,
  jobs_wf (st_db st) → closed (st_db st) → cancelled_up (st_db st) i → calm (st_db st) (st_db (adv i st)).

(** The job's own writes. *)
Lemma cancel_own_spec j db st db1 :
  jobs_wf db → active db j → db1 = (JobRepo.cancel now j db).1 → let db2 := st_db (cancel_own sv j db1 st) in
  (JobRepo.cancel now j db).2 = true ∧ kept db db2 ∧ stopped now db2 j ∧
  ∀ k, k ≠ j → db_job db2 !! k = db_job db !! k.
Proof.
  intros Hwf (r & Hr & Ha) -> db2.
  assert (Hg : job_status_in ACTIVE r = true) by by apply bool_decide_eq_true.
  assert (Ej : db_job db2 = db_job (JobRepo.cancel now j db).1) by done.
  assert (Hk : keeps db db2) by (etrans; [apply (keeps_cancel now j)|apply keeps_cancel_own]).
  split_and!.
  - unfold JobRepo.cancel. destruct (update_job _ _ _ db) as [db' n] eqn:E. apply (f_equal snd) in E.
    rewrite update_job_count, Hr, Hg in E. simpl in E. by subst n.
  - by apply Hk.
  - eexists. rewrite Ej. unfold JobRepo.cancel. destruct (update_job _ _ _ db) as [db' n] eqn:E.
    apply (f_equal fst) in E. simpl in E. subst db'. simpl. rewrite lookup_update_job_eq, Hr. simpl. rewrite Hg.
    split_and!; [done..|]. intros i s. unfold db2, cancel_own, cancel_pending_steps, cancel_pending_steps_tx,
      cancel_server_managed_steps. cbn [st_db]. rewrite !lookup_update_job_steps. cbn [fst snd].
    destruct (db_step _ !! (j, i)) as [s0|]; [|done]. rewrite bool_decide_true by done. cbn [andb fmap option_fmap option_map].
    intros [= <-]. unfold waiting. intros Hw.
    destruct (status_in ["pending"; "ready"; "suspended"] s0) eqn:Hs; [revert Hw; case_match; simpl; set_solver|].
    revert Hw. case_match; [simpl; set_solver|]. intros Hw. unfold status_in, sql_in in Hs.
    apply bool_decide_eq_false in Hs. unfold sr_status in *. destruct Hw as [Hw|[Hw _]]; set_solver.
  - intros k Hne. rewrite Ej. unfold JobRepo.cancel. destruct (update_job _ _ _ db) as [db' n] eqn:E.
    apply (f_equal fst) in E. simpl in E. subst db'. simpl. rewrite lookup_update_job, bool_decide_false by done.
    by destruct (db_job db !! k).
Qed.

Lemma stopped_not_active db j : stopped now db j → ¬ active db j.
Proof.
  intros (r & Hr & Hs & _) (r' & Hr' & Ha). simplify_eq. rewrite Hs in Ha. unfold ACTIVE in Ha. set_solver.
Qed.

Lemma not_active_cancel j db : ¬ active db j → JobRepo.cancel now j db = (db, false).
Proof.
  intros Hn. unfold JobRepo.cancel. destruct (update_job _ _ _ db) as [db' n] eqn:E.
  assert (Hf : ∀ r, db_job db !! j = Some r → job_status_in ACTIVE r = false).
  { intros r Hr. apply bool_decide_eq_false. intros Ha. apply Hn. by exists r. }
  pose proof (f_equal snd E) as En. rewrite update_job_count in En. apply (f_equal fst) in E.
  rewrite update_job_noop in E by done. simpl in *. subst db'. f_equal.
  destruct (db_job db !! j) as [r|]; [rewrite Hf in En by done|]; by subst n.
Qed.

(** Reaching a job of the tree without passing [j], or from [j]. *)
Lemma rtc_avoiding (R R' : Uuid → Uuid → Prop) j x d :
  (∀ a b, R a b → b ≠ j → R' a b) → rtc R x d →
  rtc R' x d ∨ d = j ∨ ∃ c, R' j c ∧ rtc R' c d.
Proof.
  intros HR. revert d. apply (rtc_ind_r (λ d, _)); [by left; apply rtc_refl|]. intros y d _ Hyd IH.
  destruct (decide (d = j)) as [->|Hd]; [by auto|]. specialize (HR _ _ Hyd Hd).
  destruct IH as [IH|[->|(c & Hc & IH)]]; [left; by eapply rtc_r| |].
  - right. right. exists d. split; [done|apply rtc_refl].
  - right. right. exists c. split; [done|by eapply rtc_r].
Qed.

Lemma children_loop depth db2 j0 l st :
  (∀ j st, jobs_wf (st_db st) → closed (st_db st) → T j → up (st_db st) j → (active (st_db st) j → levels (st_db st) depth j) →
     ∃ st' res, cancel sv adv depth j st = Some (st', res) ∧ calm (st_db st) (st_db st') ∧
       (active (st_db st) j → stopped now (st_db st') j)) →
  jobs_wf db2 → closed db2 → cancelled_up db2 j0 → calm db2 (st_db st) →
  (∀ c, c ∈ l → T (j_job_id c) ∧ child db2 j0 (j_job_id c) ∧ levels db2 depth (j_job_id c)) →
  ∃ st', fold_left (λ acc c, st ← acc; '(st', _) ← cancel sv adv depth (j_job_id c) st; Some st') l (Some st) = Some st' ∧
    calm db2 (st_db st') ∧ kept (st_db st) (st_db st') ∧ ∀ c, c ∈ l → stopped now (st_db st') (j_job_id c).
Proof.
  intros IH Hwf Hcl Hup. revert st. induction l as [|c l IHl]; intros st Hst Hl.
  { exists st. split_and!; [done|done|apply keeps_preorder; apply Hst|]. by intros c ?%elem_of_nil. }
  cbn [fold_left mbind option_bind]. destruct (Hl c ltac:(left)) as (HT & Hch & Hlev).
  pose proof (child_active _ _ _ Hch) as Ha.
  destruct (IH (j_job_id c) st) as (s1 & res & Ec & Hc1 & Hstop).
  { apply Hst. } { by eapply calm_closed. } { done. }
  { intros r p Hr Hp. destruct Hch as (rc & Hrc & Hpc & _).
    destruct (kept_job _ _ (calm_kept _ _ Hst) _ _ Hrc) as (r' & Hr' & Ep & _). simplify_eq.
    rewrite Ep, Hpc in Hp. injection Hp as <-. eapply cancelled_up_kept; [apply Hst|done]. }
  { intros _. by eapply levels_calm. }
  rewrite Ec. simpl. assert (Hs1 : calm db2 (st_db s1)) by by eapply calm_trans.
  assert (Hc0 : stopped now (st_db s1) (j_job_id c)).
  { destruct (calm_active _ _ Hst _ HT Ha) as [Has|Hall]; [by apply Hstop|].
    eapply stopped_kept; [apply Hc1|]. apply Hall, rtc_refl. }
  destruct (IHl s1 Hs1) as (s2 & E2 & Hs2 & Hk2 & Hall); [intros x Hx; apply Hl; by right|].
  exists s2. split_and!; [done|done| |].
  - assert (keeps (st_db st) (st_db s2)) as Hk; [|apply Hk, Hst]. etrans; [intros _; apply Hc1|by intros _].
  - intros x [->|Hx]%elem_of_cons; [|by apply Hall]. by eapply stopped_kept.
Qed.

Lemma cancel_inactive depth j st :
  ¬ active (st_db st) j →
  cancel sv adv depth j st = Some (st, match get j (st_db st) with Some _ => AlreadyTerminal | None => NotFound end).
Proof.
  intros Hn. destruct depth; cbn [cancel]; rewrite Hnow, not_active_cancel by done; destruct st; by destruct (get _ _).
Qed.

(** The tree below a job that has just been cancelled. *)
Lemma tree_stopped j db db2 st :
  jobs_wf db → closed db → T j → kept db db2 → stopped now db2 j → (∀ k, k ≠ j → db_job db2 !! k = db_job db !! k) →
  calm db2 (st_db st) → stopped now (st_db st) j → (∀ c, child db2 j c → stopped now (st_db st) c) →
  calm db (st_db st) ∧ ∀ d, rtc (child db) j d → stopped now (st_db st) d.
Proof.
  intros Hwf Hcl HT Hk Hj Hsame Hc Hjs Hch.
  assert (Hsub : ∀ a b, child db2 a b → child db a b).
  { intros a b (r & Hr & ?). destruct (decide (b = j)) as [->|Hb]; [|exists r; by rewrite <-Hsame].
    destruct Hj as (r1 & Hr1 & Hs & _). simplify_eq. destruct H3 as [_ Ha]. rewrite Hs in Ha. unfold ACTIVE in Ha. set_solver. }
  assert (Hback : ∀ a b, child db a b → b ≠ j → child db2 a b).
  { intros a b (r & Hr & ?) Hb. exists r. by rewrite Hsame. }
  assert (Hcl2 : closed db2) by (intros p c Hp Hpc; eapply Hcl; [done|by apply Hsub]).
  assert (Hbelow : ∀ c d, T c → child db2 j c → rtc (child db2) c d → stopped now (st_db st) d).
  { intros c d Hc0 Hjc Hd. destruct (calm_active _ _ Hc c Hc0) as [Ha|Hall]; [by eapply child_active| |by apply Hall].
    destruct (stopped_not_active _ _ (Hch c Hjc) Ha). }
  assert (Htree : ∀ d, rtc (child db) j d → stopped now (st_db st) d).
  { intros d Hd. destruct (rtc_avoiding (child db) (child db2) j j d Hback Hd) as [Hr|[->|(c & Hjc & Hr)]]; [|done|].
    - apply rtc_inv in Hr as [<-|(c & Hjc & Hr)]; [done|]. apply (Hbelow c d); [by apply (Hcl2 j)|done|done].
    - apply (Hbelow c d); [by apply (Hcl2 j)|done|done]. }
  split; [|done]. split.
  - assert (keeps db (st_db st)) as Hks; [|by apply Hks]. etrans; [by intros _|intros _; apply Hc].
  - intros p c Hp Hpc. apply Hsub. by apply (calm_child _ _ Hc).
  - intros c Hc0 (r & Hr & Ha). destruct (decide (c = j)) as [->|Hne]; [by right|].
    destruct (calm_active _ _ Hc c Hc0) as [Hact|Hall]; [exists r; by rewrite Hsame|by left|right].
    intros d Hd. destruct (rtc_avoiding (child db) (child db2) j c d Hback Hd) as [Hr'|[->|(e & Hje & Hr')]].
    + by apply Hall.
    + done.
    + apply (Hbelow e d); [by apply (Hcl2 j)|done|done].
Qed.

Lemma cancel_walk depth j st :
  jobs_wf (st_db st) → closed (st_db st) → T j → up (st_db st) j →
  (active (st_db st) j → levels (st_db st) depth j) →
  ∃ st' res, cancel sv adv depth j st = Some (st', res) ∧ calm (st_db st) (st_db st') ∧
    (active (st_db st) j → res = Cancelled ∧ ∀ d, rtc (child (st_db st)) j d → stopped now (st_db st') d).
Proof.
  revert j st. induction depth as [|depth IH]; intros j st Hwf Hcl HT Hanc Hlev.
  { assert (Hn : ¬ active (st_db st) j) by done. rewrite cancel_inactive by done. eexists _, _. split; [done|].
    split; [|done]. split; [by apply keeps_preorder|done|by left]. }
  destruct (decide (active (st_db st) j)) as [Ha|Hn].
  2:{ rewrite cancel_inactive by done. eexists _, _. split; [done|].
      split; [|done]. split; [by apply keeps_preorder|done|by left]. }
  destruct (cancel_own_spec j _ st _ Hwf Ha eq_refl) as (Hup & Hk & Hj & Hsame). specialize (Hlev Ha).
  cbn [cancel]. destruct Ha as (r & Hr & Hact). unfold get at 1. rewrite Hr. cbn [fmap option_fmap option_map].
  rewrite Hnow. destruct (JobRepo.cancel now j (st_db st)) as [db1 up]. simpl in Hup, Hk, Hj, Hsame. subst up.
  cbn [negb]. set (st1 := cancel_own sv j db1 st) in *.
  assert (Hc1 : calm (st_db st1) (st_db st1)) by (split; [apply keeps_preorder, Hk|done|by left]).
  assert (Hcl1 : closed (st_db st1)).
  { intros p c Hp (r' & Hr' & Hpc & Hac). eapply Hcl; [exact Hp|]. destruct (decide (c = j)) as [->|Hne].
    - destruct (stopped_not_active _ _ Hj). by exists r'.
    - rewrite Hsame in Hr' by done. by exists r'. }
  assert (Hkids : ∀ c, c ∈ get_child_jobs j (st_db st1) ↔
            ∃ k rc, db_job (st_db st1) !! k = Some rc ∧ c = jr_row rc ∧ j_job_id c = k ∧ child (st_db st1) j k).
  { intros c. unfold get_child_jobs. rewrite elem_of_select_jobs. split.
    - intros (k & rc & Hk' & -> & [Hp%bool_decide_eq_true Ha%bool_decide_eq_true]%andb_true_iff).
      exists k, rc. split_and!; [done|done|by apply (kept_wf _ _ Hk)|by exists rc].
    - intros (k & rc & Hk' & -> & _ & (rc' & Hk2 & Hp & Ha)). rewrite Hk' in Hk2. injection Hk2 as <-. exists k, rc. split_and!; [done|done|].
      apply andb_true_iff. split; by apply bool_decide_eq_true. }
  assert (Hcu : cancelled_up (st_db st1) j).
  { destruct Hj as (r1 & Hr1 & Hs1 & _). apply (cancelled_up_intro _ j r1 Hr1 Hs1). intros p Hp.
    eapply cancelled_up_kept; [exact Hk|]. apply (Hanc r p Hr).
    destruct (kept_job _ _ Hk j r Hr) as (r' & Hr' & Ep & _). simplify_eq. congruence. }
  destruct (children_loop depth (st_db st1) j (get_child_jobs j (st_db st1)) st1) as (st2 & Ef & Hc2 & Hk2 & Hst2).
  { intros i s Hw Hc0 Ht Hu Hl. destruct (IH i s Hw Hc0 Ht Hu Hl) as (s' & res & E & Hcs & Hact').
    exists s', res. split_and!; [done|done|]. intros Hi. apply (Hact' Hi), rtc_refl. }
  { apply Hk. } { done. } { done. } { done. }
  { intros c (k & rc & Hrc & -> & Hid & Hch)%Hkids. rewrite Hid. split_and!; [by eapply Hcl1|done|].
    apply (levels_calm_sub (st_db st)); [|by eapply Hcl1|].
    - intros p c Hp (r' & Hr' & Hpc & Hac). destruct (decide (c = j)) as [->|Hne].
      + destruct (stopped_not_active _ _ Hj). by exists r'.
      + rewrite Hsame in Hr' by done. split; [by exists r'|]. eapply Hcl; [exact Hp|by exists r'].
    - apply Hlev. destruct Hch as (r' & Hr' & Hpc & Hac). destruct (decide (k = j)) as [->|Hne].
      + destruct (stopped_not_active _ _ Hj). by exists r'.
      + rewrite Hsame in Hr' by done. by exists r'. }
  rewrite Ef. simpl. eexists _, _. split; [done|].
  assert (Hc3 : calm (st_db st1) (st_db (adv j st2))).
  { eapply calm_trans; [done|exact Hc2|apply quiet; [apply Hc2|by eapply calm_closed|eapply cancelled_up_kept; [apply Hc2|done]]|apply Hk]. }
  destruct (tree_stopped j (st_db st) (st_db st1) (adv j st2) Hwf Hcl HT Hk Hj Hsame Hc3) as [Hcalm Hall].
  - eapply stopped_kept; [apply Hc3|done].
  - intros c Hch. eapply stopped_kept; [apply quiet; [apply Hc2|by eapply calm_closed|eapply cancelled_up_kept; [apply Hc2|done]]|]. destruct (Hch) as (rc & Hrc & _).
    assert (Hid : j_job_id (jr_row rc) = c) by by apply (kept_wf _ _ Hk).
    rewrite <-Hid. apply Hst2, Hkids. exists c, rc. done.
  - split; [done|]. intros _. done.
Qed.
End walk.

(** ** [advance] on a cancelled job *)

Lemma calm_refl db : jobs_wf db → calm db db.
Proof. intros Hwf. split; [by apply keeps_preorder|done|by left]. Qed.

(** Nothing the tree is made of changed. *)
Lemma calm_same_jobs db db' :
  kept db db' →
  (∀ k r', db_job db' !! k = Some r' → ∃ r, db_job db !! k = Some r ∧ jr_status r = jr_status r' ∧
     j_parent_job_id (jr_row r) = j_parent_job_id (jr_row r')) →
  (∀ k r, db_job db !! k = Some r → ∃ r', db_job db' !! k = Some r' ∧ jr_status r' = jr_status r) → calm db db'.
Proof.
  intros Hk Hback Hforw. split; [done| |].
  - intros p c _ (r' & Hr' & Hp & Ha). destruct (Hback c r' Hr') as (r & Hr & Es & Ep).
    exists r. split_and!; [done|congruence|by rewrite Es].
  - intros c _ (r & Hr & Ha). destruct (Hforw c r Hr) as (r' & Hr' & Es). left. exists r'. by rewrite Es.
Qed.

Lemma claim_calm n fails j db : jobs_wf db → calm db (claim n fails j db).1.
Proof.
  intros Hwf. apply calm_same_jobs; [by apply keeps_claim| |]; unfold claim; (destruct fails; [by eauto|]);
    destruct (update_job _ _ _ db) as [db' c] eqn:E; apply (f_equal fst) in E; simpl in E; subst db'; simpl; intros k r;
    rewrite lookup_update_job.
  - destruct (db_job db !! k) as [r0|]; [|done]. simpl. intros [= <-]. exists r0. by case_match.
  - intros ->. simpl. eexists. split; [done|]. by case_match.
Qed.

Lemma propagate_calm `{AgentCodec, Collation} show n child p s db :
  jobs_wf db → calm db (propagate show n child p s db).1.
Proof.
  intros Hwf. apply calm_same_jobs; [by apply keeps_propagate|rewrite propagate_db_job; eauto..].
Qed.

Section advance.
Context `{AgentCodec, Collation, TemplateEngine, JsonParser} (sv : Services).
Hypothesis Hact : ∀ job k st, jobs_wf (st_db st) → calm (st_db st) (st_db (sv_actions sv job k st)).

Lemma advance_flow_terminal adv rounds j job st :
  is_terminal_status (j_status job) = true → ∃ t ok, advance_flow sv adv rounds j job st = (st, t, ok).
Proof.
  intros Ht. assert (Est : with_db (st_db st) st = st) by by destruct st.
  unfold advance_flow, resolve, pin_unavailable. rewrite Ht. repeat case_match; simplify_eq; rewrite ?Est; eauto.
Qed.

Lemma terminal_calm adv t j st :
  (∀ i st, jobs_wf (st_db st) → closed (st_db st) → cancelled_up (st_db st) i → calm (st_db st) (st_db (adv i st))) →
  jobs_wf (st_db st) → closed (st_db st) → cancelled_up (st_db st) j →
  calm (st_db st) (st_db (advance_terminal (sv_show sv) (env_of sv adv t) j st).1).
Proof.
  intros Hadv Hwf Hcl Hcu. destruct (Hcu) as [j r Hr Hs Hp]. unfold advance_terminal, get. rewrite Hr. cbn [fmap option_fmap option_map].
  destruct (negb (is_terminal_status _)); [by apply calm_refl|]. destruct (negb (drained _ _ _)); [by apply calm_refl|].
  pose proof (claim_calm (sv_now sv) (sv_claim_fails sv) j (st_db st) Hwf) as Hc.
  cbn [env_of env_now env_claim_fails]. destruct (claim _ _ _ _) as [db1 won]. simpl in Hc. destruct (negb won); [done|].
  set (st1 := mkServerState db1 _).
  assert (Hp1 : calm db1 (st_db (propagate_planned (sv_show sv) (env_of sv adv t) (jr_row r) st1).1)).
  { unfold propagate_planned. destruct (plan_propagate _); [|apply calm_refl, Hc].
    destruct (j_parent_job_id (jr_row r)) as [p|] eqn:Ep; [|apply calm_refl, Hc].
    destruct (j_parent_step_name (jr_row r)) as [s|]; [|apply calm_refl, Hc].
    pose proof (propagate_calm (sv_show sv) (sv_now sv) (jr_row r) p s db1 (kept_wf _ _ (calm_kept _ _ Hc))) as Hk.
    cbn [env_of env_now st_db st1]. destruct (propagate _ _ _ _ _ _) as [db2 x]. simpl in Hk.
    assert (Hcl1 : closed db1) by by eapply calm_closed.
    destruct x; simpl; [done|done|]. eapply calm_trans; [done|exact Hk| |apply Hc].
    apply (Hadv p (with_db db2 st1)); [apply Hk|by eapply calm_closed|].
    eapply cancelled_up_kept; [apply Hk|]. eapply cancelled_up_kept; [apply Hc|]. by apply Hp. }
  destruct (propagate_planned _ _ _ _) as [st2 pr]. simpl in Hp1.
  assert (Ha : calm (st_db st2) (st_db (after_claim (env_of sv adv t) (jr_row r) st2).1)).
  { unfold after_claim. cbn [env_of env_task env_actions]. destruct t as [task|]; [|apply calm_refl, Hp1].
    assert (plan_retry (plan (jr_row r)) = false) as ->; [|by apply Hact, Hp1].
    apply not_true_is_false. intros (Hf & _)%(plan_retry_iff _ task). unfold jr_status in Hs. congruence. }
  destruct (after_claim _ _ _) as [st3 af]. simpl in *.
  eapply calm_trans; [done|exact Hc| |done]. eapply calm_trans; [by eapply calm_closed|done|done|apply Hc].
Qed.

Lemma advance_calm fuel j st :
  jobs_wf (st_db st) → closed (st_db st) → cancelled_up (st_db st) j →
  calm (st_db st) (st_db (advance sv fuel j st).1).
Proof.
  revert j st. induction fuel as [|fuel IH]; intros j st Hwf Hcl Hcu; [by apply calm_refl|].
  cbn [advance]. unfold advance_body, get. destruct (Hcu) as [j r Hr Hs Hp]. rewrite Hr.
  cbn [fmap option_fmap option_map].
  destruct (advance_flow_terminal (λ i s, (advance sv fuel i s).1) fuel j (jr_row r) st) as (t & ok & ->);
    [unfold jr_status in Hs; by rewrite Hs|].
  destruct (negb ok); [by apply calm_refl|]. by apply terminal_calm.
Qed.
End advance.
End tree.

(** What the actions of a job that ended (hooks, notification, archive) do to
    the tables: the rows there stay as they are, and new jobs, with their
    steps, are children of none of [T]. *)
Record adds_outside (T : Uuid → Prop) (db db' : Db) : Prop := {
  ao_job k r : db_job db !! k = Some r → db_job db' !! k = Some r;
  ao_step k n : is_Some (db_job db !! k) → db_step db' !! (k, n) = db_step db !! (k, n);
  ao_new k r : db_job db !! k = None → db_job db' !! k = Some r →
    j_job_id (jr_row r) = k ∧ job_typed r ∧ ∀ p, j_parent_job_id (jr_row r) = Some p → ¬ T p;
}.

Lemma adds_outside_calm now T db db' : jobs_wf db → adds_outside T db db' → calm now T db db'.
Proof.
  intros Hwf [Hjob Hstep Hnew]. split; [split| |].
  - intros k r Hr. destruct (db_job db !! k) as [r0|] eqn:Hk; [|by destruct (Hnew k r Hk Hr) as (? & ? & _)].
    pose proof (Hjob k r0 Hk). simplify_eq. by apply Hwf.
  - intros k r Hr. apply Hjob in Hr. eauto.
  - intros k n r s Hr _. rewrite Hstep by done. eauto.
  - intros p c Hp (r & Hr & Hpc & Ha). destruct (db_job db !! c) as [r0|] eqn:Hk.
    + pose proof (Hjob c r0 Hk). simplify_eq. by exists r.
    + destruct (Hnew c r Hk Hr) as (_ & _ & Hn). by destruct (Hn p Hpc).
  - intros c _ (r & Hr & Ha). left. exists r. auto.
Qed.

(** C12. Cancelling a job stops its whole tree. For a job without a parent (or
    with cancelled ancestors), a depth that covers the tree of its active
    children, and hooks that only add jobs outside that tree, the call
    returns: it reports and changes nothing when there is no such job or it is
    over; otherwise the job and every active job below it, at any depth, is
    cancelled now with no pending, suspended or ready step left, save an agent
    step whose saved conversation a cancelled tool job has released, while
    every job that was already over keeps its verdict. *)
Theorem cancel_stops_tree `{AgentCodec, Collation, TemplateEngine, JsonParser} sv fuel depth j st :
  jobs_wf (st_db st) → up (st_db st) j → levels (st_db st) depth j →
  (∀ job k s, adds_outside (rtc (child (st_db st)) j) (st_db s) (st_db (sv_actions sv job k s))) →
  ∃ st' res, cancel sv (λ i s, (advance sv fuel i s).1) depth j st = Some (st', res) ∧
    kept (st_db st) (st_db st') ∧
    match get j (st_db st) with
    | None => res = NotFound ∧ st' = st
    | Some row =>
        if is_active row
        then res = Cancelled ∧ ∀ d, rtc (child (st_db st)) j d → stopped (sv_now sv) (st_db st') d
        else res = AlreadyTerminal ∧ st' = st
    end.
Proof.
  intros Hwf Hup Hlev Hact. set (T := rtc (child (st_db st)) j) in *.
  assert (Hcl : closed T (st_db st)) by (intros p c Hp Hc; by eapply rtc_r).
  destruct (cancel_walk (sv_now sv) T sv (λ i s, (advance sv fuel i s).1) eq_refl) with (depth := depth) (j := j) (st := st)
    as (st' & res & E & Hc & Ha); [|done|done|apply rtc_refl|done|done|].
  { intros i s Hs Hcs Hcu. apply advance_calm; [|done..]. intros job k s1 Hs1. by apply adds_outside_calm. }
  exists st', res. split_and!; [done|apply Hc|].
  destruct (decide (active (st_db st) j)) as [Hact'|Hn].
  - specialize (Ha Hact'). destruct Hact' as (r & Hr & Hst). unfold get. rewrite Hr. simpl.
    assert (is_active (jr_row r) = true) as -> by by apply bool_decide_eq_true. done.
  - rewrite (cancel_inactive (sv_now sv)) in E by done. injection E as <- <-. unfold get in *.
    destruct (db_job (st_db st) !! j) as [r|] eqn:Hr; simpl; [|done].
    assert (is_active (jr_row r) = false) as ->; [|done]. apply bool_decide_eq_false. intros Hin. apply Hn. by exists r.
Qed.

(** A failure reported for a job that is over puts the step back in the
    queue. When a worker reports the failure of a step (a killed process
    included) after its job was cancelled or otherwise ended, and the step has
    retries left, the row becomes ready again although the job stays over, and
    from the scheduled instant on every matching worker can claim it. *)
Theorem ended_job_step_retried `{AgentCodec, Collation, TemplateEngine, JsonParser} sv fuel j n error st job r max t
    caps tags ex :
  db_job (st_db st) !! j = Some job → over job →
  db_step (st_db st) !! (j, n) = Some r → js_max_retries (sr_row r) = Some max →
  (js_retry_attempt (sr_row r) < max)%Z →
  retry_instant (sv_now sv) (compute_retry_delay (sv_random sv (sr_row r)) (sr_row r)) = Some t →
  Matches caps tags ex r → (js_action_type (sr_row r) ∉ SERVER_DISPATCHED) →
  ∃ st' o l r', step_failed sv fuel j n error [] None st = Some (st', o, l) ∧
    db_job (st_db st') = db_job (st_db st) ∧ db_step (st_db st') !! (j, n) = Some r' ∧
    Claimable t caps tags ex r'.
Proof.
  intros Hj Ho Hr Hm Hlt Ht HM Hty. unfold step_failed, fail_or_retry. rewrite Hr. rewrite bool_decide_true by done.
  cbn [negb andb]. rewrite Hm. destruct (Z.ltb_spec (js_retry_attempt (sr_row r)) max) as [_|]; [|lia]. rewrite Ht.
  cbn [mbind option_bind]. eexists _, _, _, _. split; [reflexivity|]. split; [apply update_step_db_job|].
  split; [cbn [st_db with_db]; by rewrite lookup_update_step_eq, Hr|].
  split_and!; [done|done|done|]. simpl. intros t' [= <-]. lia.
Qed.
