(* ===== verification/Restart.v ===== *)
(** * Restart planning

    [crates/stroem-server/src/restart.rs]: which steps of a finished job a
    restart runs again and what it carries over. Flow maps are iterated in an
    unspecified order ([HashIter]); the restart set is a set ([BTreeSet]), read
    out in byte order. *)
From S2P Require Import Prelude Json Text JobModel DependsOn Gate Workflow Db.

Inductive RestartError :=
| UnknownStep (s : string)
| LoopInstance (base : string)
| NoFailedSteps.

Definition RestartError_fmt (e : RestartError) : string :=
  match e with
  | UnknownStep s => "Step '" +:+ s +:+ "' is not in the current flow"
  | LoopInstance base => "Restart from the loop step '" +:+ base +:+ "', not an instance"
  | NoFailedSteps => "No failed or cancelled steps to restart"
  end.

Inductive RestartFrom :=
| RFStep (s : string)
| AllFailed.

Record RestartPlan := mkRestartPlan {
  rp_from : RestartFrom;
  start_steps : list string;
  restart_steps : list string;
  carried : list Seed;
  carried_failed : list string;
  carried_failed_tolerated : list string;
}.

Definition CARRIED_CANCELLED_MSG : string := "carried over from cancelled source job".

Definition restart_is_terminal (status : string) : bool :=
  (status ==? "completed") || (status ==? "failed") || (status ==? "skipped") || (status ==? "cancelled").

Definition carried_status (status : string) : string :=
  if restart_is_terminal status then status else "cancelled".

(** The rows outside loops, by name; a later row replaces an earlier one. *)
Definition source_by_name (source_steps : list JobStepRow) : gmap string JobStepRow :=
  fold_left (λ m s, if js_loop_source s ==? None then <[js_step_name s := s]> m else m) source_steps ∅.

Definition carried_bad (src : gmap string JobStepRow) (name : string) : bool :=
  match src !! name with
  | Some r => let st := carried_status (js_status r) in (st ==? "failed") || (st ==? "cancelled")
  | None => false
  end.

Section plan.
Context `{HashIter} (flow : gmap string FlowStep).

Definition choose_start (src : gmap string JobStepRow) (from : RestartFrom) : result RestartError (list string) :=
  match from with
  | RFStep from_step =>
      match str_find "["%char from_step with
      | Some i => Err (LoopInstance (str_take i from_step))
      | None => if bool_decide (is_Some (flow !! from_step)) then Ok [from_step] else Err (UnknownStep from_step)
      end
  | AllFailed =>
      let v := List.filter (carried_bad src) (hash_keys flow) in
      if bool_decide (v = []) then Err NoFailedSteps else Ok (sort_strings v)
  end.

(** The start steps and the steps the source job does not have. *)
Definition restart_roots (src : gmap string JobStepRow) (start : list string) : gset string :=
  fold_left (λ acc name, if bool_decide (is_Some (src !! name)) then acc else {[name]} ∪ acc)
    (hash_keys flow) (list_to_set start).

(** The body of the closure loop. *)
Definition restart_pass (restart : gset string) : gset string :=
  fold_left (λ acc '(name, fs),
    if bool_decide (name ∈ acc) then acc
    else if existsb (λ d, bool_decide (d ∈ acc)) (step_deps fs) then {[name]} ∪ acc
    else acc) (hash_iter flow) restart.

Fixpoint restart_loop (fuel : nat) (restart : gset string) : option (gset string) :=
  match fuel with
  | O => None
  | S fuel' =>
      let next := restart_pass restart in
      if (size next =? size restart)%nat then Some next else restart_loop fuel' next
  end.

Definition carried_seed (name : string) (src : JobStepRow) : Seed :=
  if restart_is_terminal (js_status src)
  then mkSeed name (js_status src) (js_output src) (js_error_message src) (js_skip_reason src)
  else mkSeed name "cancelled" None (Some CARRIED_CANCELLED_MSG) None.

(** The names left over, in byte order, with their source rows. *)
Definition carried_seeds (src : gmap string JobStepRow) (restart : gset string) : list Seed :=
  omap (λ name, carried_seed name <$> src !! name)
    (sort_strings (List.filter (λ n, negb (bool_decide (n ∈ restart))) (hash_keys flow))).

Definition tolerates (name : string) : bool :=
  match flow !! name with Some fs => continue_on_failure fs | None => false end.

(** [None] only if the closure loop ran out of fuel. *)
Definition plan_restart (source_steps : list JobStepRow) (from : RestartFrom)
    : option (result RestartError RestartPlan) :=
  let src := source_by_name source_steps in
  match choose_start src from with
  | Err e => Some (Err e)
  | Ok start =>
      restart ← restart_loop (S (size flow)) (restart_roots src start);
      let seeds := carried_seeds src restart in
      let failed := seed_step_name <$> List.filter (λ s, seed_status s ==? "failed") seeds in
      Some (Ok (mkRestartPlan from start (sort_strings (elements restart)) seeds
                  (List.filter (λ n, negb (tolerates n)) failed)
                  (List.filter tolerates failed)))
  end.

Definition compute_restart_set (source_steps : list JobStepRow) (from_step : string) :=
  plan_restart source_steps (RFStep from_step).
End plan.

(** ** The restart set is a closure *)

Section closure.
Context `{HashIter} (flow : gmap string FlowStep).
Implicit Types acc : gset string.

(** [b] depends on [a]. *)
Definition depends (a b : string) : Prop := ∃ fs, flow !! b = Some fs ∧ a ∈ step_deps fs.

(** Nothing outside the set depends on something in it. *)
Definition dep_closed acc : Prop := ∀ a b, depends a b → a ∈ acc → b ∈ acc.

Abbreviation body := (λ acc '(name, fs),
    if bool_decide (name ∈ acc) then acc
    else if existsb (λ d, bool_decide (d ∈ acc)) (step_deps fs) then {[name]} ∪ acc
    else acc).

Lemma body_mono acc x : acc ⊆ body acc x.
Proof. destruct x as [name fs]. repeat case_match; set_solver. Qed.

Lemma pass_mono l acc : acc ⊆ fold_left body l acc.
Proof.
  revert acc. induction l as [|x l IH]; intros acc; simpl; [done|].
  etrans; [apply (body_mono acc x)|apply IH].
Qed.

Lemma pass_sound l acc :
  (∀ n fs, (n, fs) ∈ l → flow !! n = Some fs) →
  ∀ n, n ∈ fold_left body l acc → ∃ m, m ∈ acc ∧ rtc depends m n.
Proof.
  revert acc. induction l as [|[name fs] l IH]; intros acc Hl n Hn; simpl in Hn; [by exists n|].
  destruct (IH _ (λ n fs Hin, Hl n fs (list_elem_of_further _ _ _ Hin)) n Hn) as (m & Hm & Hr).
  revert Hm. case_bool_decide; [by exists m|]. destruct (existsb _ _) eqn:E; [|by exists m].
  rewrite elem_of_union, elem_of_singleton. intros [->|?]; [|by exists m].
  apply existsb_exists' in E as (d & Hd & Hda%bool_decide_eq_true). exists d. split; [done|].
  eapply rtc_l; [|done]. exists fs. split; [apply Hl; left|done].
Qed.

Lemma pass_closed l acc :
  fold_left body l acc = acc →
  ∀ name fs d, (name, fs) ∈ l → d ∈ step_deps fs → d ∈ acc → name ∈ acc.
Proof.
  revert acc. induction l as [|x l IH]; intros acc E name fs d Hin Hd Hda; [by apply elem_of_nil in Hin|].
  simpl in E.
  assert (Hx : body acc x = acc).
  { apply (anti_symm (⊆)); [|apply body_mono].
    transitivity (fold_left body l (body acc x)); [apply pass_mono|by rewrite E]. }
  rewrite Hx in E. apply elem_of_cons in Hin as [<-|Hin]; [|by eapply IH].
  case_bool_decide as Hn; [done|].
  assert (existsb (λ d, bool_decide (d ∈ acc)) (step_deps fs) = true) as Ht.
  { apply existsb_exists'. exists d. by rewrite bool_decide_true. }
  rewrite Ht in Hx. rewrite <-Hx. set_solver.
Qed.

Lemma pass_dom acc : acc ⊆ dom flow → restart_pass flow acc ⊆ dom flow.
Proof.
  intros Hacc. unfold restart_pass.
  assert (Hl : ∀ n fs, (n, fs) ∈ hash_iter flow → n ∈ dom flow).
  { intros n fs Hin%elem_of_hash_iter. by apply elem_of_dom_2 in Hin. }
  revert acc Hacc. generalize (hash_iter flow) Hl. clear Hl. intros l Hl.
  induction l as [|[name fs] l IH]; intros acc Hacc; simpl; [done|].
  apply IH; [intros n f Hin; eapply Hl; by right|].
  pose proof (Hl name fs ltac:(left)). repeat case_match; set_solver.
Qed.

(** Enough fuel: every pass but the last adds a step of the flow. *)
Lemma restart_loop_spec fuel acc :
  acc ⊆ dom flow → (size flow - size acc < fuel)%nat →
  ∃ res, restart_loop flow fuel acc = Some res ∧ acc ⊆ res ∧ res ⊆ dom flow ∧ dep_closed res ∧
    ∀ n, n ∈ res → ∃ m, m ∈ acc ∧ rtc depends m n.
Proof.
  revert acc. induction fuel as [|fuel IH]; intros acc Hacc Hf; [lia|]. cbn [restart_loop].
  pose proof (pass_mono (hash_iter flow) acc) as Hmono. pose proof (pass_dom acc Hacc) as Hdom.
  assert (Hs : ∀ n, n ∈ restart_pass flow acc → ∃ m, m ∈ acc ∧ rtc depends m n).
  { apply pass_sound. intros n fs. apply elem_of_hash_iter. }
  change (fold_left _ _ _) with (restart_pass flow acc) in Hmono.
  destruct (Nat.eqb_spec (size (restart_pass flow acc)) (size acc)) as [E|Hne].
  - exists (restart_pass flow acc). split_and!; try done.
    assert (Eq : restart_pass flow acc = acc).
    { symmetry. apply leibniz_equiv, set_subseteq_size_equiv; [done|lia]. }
    intros a b (fs & Hb & Ha) Hin. rewrite Eq in Hin |- *.
    eapply (pass_closed (hash_iter flow)); [exact Eq|by apply elem_of_hash_iter|done|done].
  - assert (Hlt : (size acc < size (restart_pass flow acc))%nat).
    { pose proof (subseteq_size _ _ Hmono). lia. }
    destruct (IH (restart_pass flow acc) Hdom) as (res & E & H1 & H2 & H3 & H4).
    { pose proof (subseteq_size _ _ Hdom) as Hle. rewrite size_dom in Hle. lia. }
    exists res. split_and!; [done|by etrans|done|done|].
    intros n (m & Hm & Hr)%H4. destruct (Hs m Hm) as (m' & Hm' & Hr'). exists m'. split; [done|by etrans].
Qed.
End closure.

(** ** The plan *)

Section plan_spec.
Context `{HashIter} (flow : gmap string FlowStep) (src : gmap string JobStepRow).

Lemma elem_of_restart_roots start n :
  n ∈ restart_roots flow src start ↔ n ∈ start ∨ (is_Some (flow !! n) ∧ src !! n = None).
Proof.
  unfold restart_roots. rewrite <-elem_of_hash_keys.
  assert (Hgen : ∀ l (acc : gset string),
    n ∈ fold_left (λ acc name, if bool_decide (is_Some (src !! name)) then acc else {[name]} ∪ acc) l acc ↔
    n ∈ acc ∨ (n ∈ l ∧ src !! n = None)).
  { induction l as [|x l IH]; intros acc; simpl; [set_solver|]. rewrite IH, elem_of_cons.
    case_bool_decide as Hx; [|set_unfold; rewrite <-eq_None_not_Some in Hx; naive_solver].
    split; [naive_solver|]. intros [?|[[->|?] Hn]]; [naive_solver| |naive_solver]. rewrite Hn in Hx. by destruct Hx. }
  rewrite Hgen. set_solver.
Qed.

Lemma choose_start_dom from start :
  choose_start flow src from = Ok start →
  (∀ n, n ∈ start → is_Some (flow !! n)) ∧
  (from = AllFailed → ∀ n, n ∈ start ↔ is_Some (flow !! n) ∧ carried_bad src n = true) ∧
  (∀ s, from = RFStep s → start = [s]).
Proof.
  unfold choose_start. destruct from as [s|].
  - destruct (str_find _ s); [done|]. case_bool_decide; [|done]. intros [= <-].
    split_and!; [by intros n ->%list_elem_of_singleton|done|by intros s' [= ->]].
  - case_bool_decide; [done|]. intros [= <-].
    assert (Hn : ∀ n, n ∈ sort_strings (List.filter (carried_bad src) (hash_keys flow)) ↔
              is_Some (flow !! n) ∧ carried_bad src n = true).
    { intros n. unfold sort_strings. rewrite elem_of_sort_by, <-elem_of_hash_keys.
      by rewrite elem_of_lfilter. }
    split_and!; [by intros n [? _]%Hn|done|done].
Qed.

Lemma elem_of_carried_seeds restart seed :
  seed ∈ carried_seeds flow src restart ↔
  ∃ n r, is_Some (flow !! n) ∧ (n ∉ restart) ∧ src !! n = Some r ∧ seed = carried_seed n r.
Proof.
  unfold carried_seeds. rewrite list_elem_of_omap. unfold sort_strings. setoid_rewrite elem_of_sort_by.
  setoid_rewrite elem_of_lfilter. setoid_rewrite elem_of_hash_keys. setoid_rewrite negb_true_iff. setoid_rewrite bool_decide_eq_false.
  split.
  - intros (n & [? ?] & E). destruct (src !! n) as [r|] eqn:Hr; [|done]. simpl in E. simplify_eq. eauto 10.
  - intros (n & r & ? & ? & Hr & ->). exists n. by rewrite Hr.
Qed.

Lemma carried_seed_name n r : seed_step_name (carried_seed n r) = n.
Proof. unfold carried_seed. by case_match. Qed.

Lemma carried_seed_status n r : seed_status (carried_seed n r) = carried_status (js_status r).
Proof. unfold carried_seed, carried_status. by destruct (restart_is_terminal _). Qed.
End plan_spec.

(** The last row of that name outside loops. *)
Definition source_row (source : list JobStepRow) (n : string) (r : JobStepRow) : Prop :=
  ∃ l1 l2, source = l1 ++ r :: l2 ∧ js_loop_source r = None ∧ js_step_name r = n ∧
    ∀ r', r' ∈ l2 → js_loop_source r' = None → js_step_name r' ≠ n.

Lemma source_by_name_spec source n r : source_by_name source !! n = Some r ↔ source_row source n r.
Proof.
  unfold source_by_name. induction source as [|x source IH] using rev_ind.
  { simpl. rewrite lookup_empty. split; [done|]. intros (l1 & l2 & E & _). by destruct l1. }
  rewrite fold_left_app. cbn [fold_left]. split.
  - destruct (js_loop_source x ==? None) eqn:El; [apply bool_decide_eq_true in El; rewrite lookup_insert_Some; intros [[Hn <-]|[Hne Hr]]|intros Hr].
    + exists source, []. split_and!; [done..|]. intros r' ?%elem_of_nil. done.
    + apply IH in Hr as (l1 & l2 & -> & Hl & Hn & Hl2). exists l1, (l2 ++ [x]). rewrite <-app_assoc. split_and!; [done..|].
      intros r' [?| ->%list_elem_of_singleton]%elem_of_app; [by apply Hl2|done].
    + apply bool_decide_eq_false in El. apply IH in Hr as (l1 & l2 & -> & Hl & Hn & Hl2). exists l1, (l2 ++ [x]). rewrite <-app_assoc.
      split_and!; [done..|]. intros r' [?| ->%list_elem_of_singleton]%elem_of_app; [by apply Hl2|done].
  - intros (l1 & l2 & E & Hl & Hn & Hl2). destruct l2 as [|y l2 _] using rev_ind.
    + apply app_inj_tail in E as [-> ->]. rewrite Hl, bool_decide_true by done. by rewrite <-Hn, lookup_insert_eq.
    + rewrite app_comm_cons, app_assoc in E. apply app_inj_tail in E as [-> ->].
      assert (Hr : source_row (l1 ++ r :: l2) n r).
      { exists l1, l2. split_and!; [done..|]. intros r' Hr'. apply Hl2. apply elem_of_app. by left. }
      apply IH in Hr. destruct (js_loop_source y ==? None) eqn:Ey; [|done]. apply bool_decide_eq_true in Ey.
      rewrite lookup_insert_ne; [done|]. apply Hl2; [|done]. apply elem_of_app. right. by apply list_elem_of_singleton.
Qed.

(** A row whose step failed, was cancelled, or never finished. *)
Definition unsuccessful (r : JobStepRow) : Prop := js_status r ≠ "completed" ∧ js_status r ≠ "skipped".

Lemma carried_bad_spec source n :
  carried_bad (source_by_name source) n = true ↔ ∃ r, source_row source n r ∧ unsuccessful r.
Proof.
  unfold carried_bad. setoid_rewrite <-source_by_name_spec. destruct (source_by_name source !! n) as [r|]; [|naive_solver].
  assert (Hr : (carried_status (js_status r) ==? "failed") || (carried_status (js_status r) ==? "cancelled") = true ↔ unsuccessful r).
  { unfold carried_status, restart_is_terminal, unsuccessful. rewrite orb_true_iff, !bool_decide_eq_true.
    destruct (decide (js_status r = "completed")) as [E|]; [rewrite E; naive_solver|]. rewrite (bool_decide_false (js_status r = "completed")) by done.
    destruct (decide (js_status r = "skipped")) as [E|]; [rewrite E; naive_solver|]. rewrite (bool_decide_false (js_status r = "skipped")) by done.
    destruct (decide (js_status r = "failed")) as [E|]; [rewrite E; naive_solver|]. rewrite (bool_decide_false (js_status r = "failed")) by done.
    destruct (decide (js_status r = "cancelled")) as [E|]; [rewrite E; naive_solver|]. rewrite (bool_decide_false (js_status r = "cancelled")) by done.
    naive_solver. }
  rewrite Hr. naive_solver.
Qed.

(** What is carried over of a row: its result, or a cancellation when it never
    finished. *)
Definition carries (seed : Seed) (n : string) (r : JobStepRow) : Prop :=
  seed_step_name seed = n ∧
  if bool_decide (js_status r ∈ ["completed"; "failed"; "skipped"; "cancelled"])
  then seed_status seed = js_status r ∧ seed_output seed = js_output r ∧ seed_error_message seed = js_error_message r ∧
       seed_skip_reason seed = js_skip_reason r
  else seed_status seed = "cancelled" ∧ seed_output seed = None ∧
       seed_error_message seed = Some "carried over from cancelled source job" ∧ seed_skip_reason seed = None.

Lemma carries_spec seed n r : seed = carried_seed n r ↔ carries seed n r.
Proof.
  unfold carries, carried_seed. replace (bool_decide (js_status r ∈ ["completed"; "failed"; "skipped"; "cancelled"])) with (restart_is_terminal (js_status r)).
  2:{ unfold restart_is_terminal. apply eq_true_iff_eq. rewrite !orb_true_iff, !bool_decide_eq_true. set_solver. }
  destruct seed. destruct (restart_is_terminal _); simpl; split; [intros [= -> -> -> -> ->]; done|naive_solver|intros [= -> -> -> -> ->]; done|naive_solver].
Qed.

Lemma choose_start_err `{HashIter} flow src from e :
  choose_start flow src from = Err e →
  match e with
  | LoopInstance base => ∃ s i, from = RFStep s ∧ str_find "["%char s = Some i ∧ base = str_take i s
  | UnknownStep s => from = RFStep s ∧ str_find "["%char s = None ∧ flow !! s = None
  | NoFailedSteps => from = AllFailed ∧ ∀ n, is_Some (flow !! n) → carried_bad src n = false
  end.
Proof.
  unfold choose_start. destruct from as [s|].
  - destruct (str_find _ s) eqn:E; [intros [= <-]; eauto|]. case_bool_decide as Hs; [done|]. intros [= <-].
    by rewrite <-eq_None_not_Some in Hs.
  - case_bool_decide as Hnil; [|done]. intros [= <-]. split; [done|]. intros n Hn%elem_of_hash_keys.
    destruct (carried_bad src n) eqn:Hb; [|done].
    assert (Hin : n ∈ List.filter (carried_bad src) (hash_keys flow)) by (by apply elem_of_lfilter).
    rewrite Hnil in Hin. by apply elem_of_nil in Hin.
Qed.

(** The steps a plan starts from. *)
Lemma start_spec `{HashIter} flow source from start :
  choose_start flow (source_by_name source) from = Ok start →
  match from with
  | RFStep s => str_find "["%char s = None ∧ is_Some (flow !! s) ∧ start = [s]
  | AllFailed => start ≠ [] ∧ ∀ n, n ∈ start ↔ is_Some (flow !! n) ∧ ∃ r, source_row source n r ∧ unsuccessful r
  end.
Proof.
  intros Es. pose proof (choose_start_dom _ _ _ _ Es) as (_ & Hall & _). unfold choose_start in Es. destruct from as [s|].
  - destruct (str_find _ s); [done|]. case_bool_decide; [|done]. by injection Es as <-.
  - split; [|intros n; by rewrite Hall, carried_bad_spec by done]. case_bool_decide as Hnil; [done|]. injection Es as <-. intros E. apply Hnil.
    destruct (List.filter _ _) as [|x l] eqn:El; [done|].
    assert (Hx : x ∈ sort_strings (x :: l)) by (unfold sort_strings; rewrite elem_of_sort_by; left). rewrite E in Hx. by apply elem_of_nil in Hx.
Qed.

Lemma failed_names seeds n :
  n ∈ seed_step_name <$> List.filter (λ s, seed_status s ==? "failed") seeds ↔
  ∃ seed, seed ∈ seeds ∧ seed_step_name seed = n ∧ seed_status seed = "failed".
Proof. rewrite list_elem_of_fmap. setoid_rewrite elem_of_lfilter. setoid_rewrite bool_decide_eq_true. naive_solver. Qed.

(** C33. A restart plan is right, whatever order the flow is iterated in. The
    planner always returns. It refuses exactly a loop instance, a step that
    is not in the flow, and a restart of failed steps when none failed, was
    cancelled or never finished. Otherwise it starts from the requested step,
    or from all those steps, and the steps to run again are the start steps,
    the flow steps the source job did not have, and everything that depends on
    one of them. Every other flow step is carried over with the status,
    output, error and skip reason of its source row (as cancelled, without an
    output, when the source had not finished it), and depends on no step that
    runs again; the carried failures are listed, split by whether the flow
    tolerates them; and restarting all failed steps carries over no failure
    and no cancellation. The source row of a step is the last one of that name
    outside loops. *)
Theorem restart_plan_correct `{HashIter} (flow : gmap string FlowStep) source from :
  match plan_restart flow source from with
  | None => False
  | Some (Err (LoopInstance base)) =>
      ∃ s i, from = RFStep s ∧ str_find "["%char s = Some i ∧ base = str_take i s
  | Some (Err (UnknownStep s)) => from = RFStep s ∧ str_find "["%char s = None ∧ flow !! s = None
  | Some (Err NoFailedSteps) => from = AllFailed ∧ ∀ n r, is_Some (flow !! n) → source_row source n r → ¬ unsuccessful r
  | Some (Ok p) =>
      match from with
      | RFStep s => str_find "["%char s = None ∧ is_Some (flow !! s) ∧ start_steps p = [s]
      | AllFailed => start_steps p ≠ [] ∧ ∀ n, n ∈ start_steps p ↔ is_Some (flow !! n) ∧ ∃ r, source_row source n r ∧ unsuccessful r
      end ∧
      (∀ n, n ∈ restart_steps p ↔ ∃ root, rtc (depends flow) root n ∧ is_Some (flow !! root) ∧
              (root ∈ start_steps p ∨ ∀ r, ¬ source_row source root r)) ∧
      (∀ seed, seed ∈ carried p ↔ ∃ n r, is_Some (flow !! n) ∧ (n ∉ restart_steps p) ∧ source_row source n r ∧ carries seed n r) ∧
      (∀ n, is_Some (flow !! n) → (n ∉ restart_steps p) → n ∈ seed_step_name <$> carried p) ∧
      (∀ a b, depends flow a b → b ∈ seed_step_name <$> carried p → a ∉ restart_steps p) ∧
      (∀ n, n ∈ carried_failed p ↔ (∃ seed, seed ∈ carried p ∧ seed_step_name seed = n ∧ seed_status seed = "failed") ∧
              ∃ fs, flow !! n = Some fs ∧ continue_on_failure fs = false) ∧
      (∀ n, n ∈ carried_failed_tolerated p ↔ (∃ seed, seed ∈ carried p ∧ seed_step_name seed = n ∧ seed_status seed = "failed") ∧
              ∃ fs, flow !! n = Some fs ∧ continue_on_failure fs = true) ∧
      (from = AllFailed → ∀ seed, seed ∈ carried p →
         seed_status seed ≠ "failed" ∧ seed_status seed ≠ "cancelled")
  end.
Proof.
  set (src := source_by_name source). unfold plan_restart. fold src. destruct (choose_start flow src from) as [start|e] eqn:Es.
  2:{ apply choose_start_err in Es. destruct e; [done|done|]. destruct Es as [-> Hno]. split; [done|]. intros n r Hf Hr Hu.
      pose proof (proj2 (carried_bad_spec source n) (ex_intro _ r (conj Hr Hu))) as Hb. fold src in Hb. rewrite Hno in Hb; done. }
  pose proof (start_spec flow source from start Es) as Hstart.
  destruct (choose_start_dom _ _ _ _ Es) as (Hdom & Hall & _).
  assert (Hno : ∀ n, src !! n = None ↔ ∀ r, ¬ source_row source n r).
  { intros n. setoid_rewrite <-source_by_name_spec. fold src. destruct (src !! n); naive_solver. }
  set (roots := restart_roots flow src start).
  assert (Hroots : ∀ n, n ∈ roots ↔ is_Some (flow !! n) ∧ (n ∈ start ∨ src !! n = None)).
  { intros n. unfold roots. rewrite elem_of_restart_roots. naive_solver. }
  destruct (restart_loop_spec flow (S (size flow)) roots) as (res & E & Hsub & Hres & Hcl & Hsound).
  { intros n [? _]%Hroots. by apply elem_of_dom. }
  { lia. }
  rewrite E. simpl.
  assert (Hin : ∀ n, n ∈ sort_strings (elements res) ↔ n ∈ res)
    by (intros n; unfold sort_strings; by rewrite elem_of_sort_by, elem_of_elements).
  assert (Hclosure : ∀ a b, rtc (depends flow) a b → a ∈ res → b ∈ res)
    by (induction 1; [done|]; eauto).
  assert (Hcar : ∀ seed, seed ∈ carried_seeds flow src res ↔ ∃ n r, is_Some (flow !! n) ∧ (n ∉ res) ∧
              src !! n = Some r ∧ seed = carried_seed n r) by (intros; apply elem_of_carried_seeds).
  assert (Hname : ∀ b, b ∈ seed_step_name <$> carried_seeds flow src res → b ∉ res).
  { intros b (seed & -> & (n & r & _ & Hn & _ & ->)%Hcar)%list_elem_of_fmap. by rewrite carried_seed_name. }
  assert (Hseeds : ∀ n seed, seed ∈ carried_seeds flow src res → seed_step_name seed = n → is_Some (flow !! n)).
  { intros n seed (m & r & Hf & _ & _ & ->)%Hcar. rewrite carried_seed_name. by intros <-. }
  split_and!.
  - exact Hstart.
  - intros n. rewrite Hin. setoid_rewrite <-Hno. split.
    + intros (m & [? ?]%Hroots & Hr)%Hsound. eauto.
    + intros (root & Hr & Hf & Ho). eapply Hclosure; [done|]. apply Hsub, Hroots. done.
  - intros seed. rewrite Hcar. setoid_rewrite Hin. setoid_rewrite <-source_by_name_spec. by setoid_rewrite <-carries_spec.
  - intros n Hf Hn. rewrite Hin in Hn. apply list_elem_of_fmap.
    destruct (src !! n) as [r|] eqn:Hr; [|destruct Hn; apply Hsub, Hroots; auto].
    exists (carried_seed n r). rewrite carried_seed_name. split; [done|]. apply Hcar. eauto 10.
  - intros a b Hd Hb Ha%Hin. by apply (Hname b Hb), (Hcl a).
  - intros n. rewrite elem_of_lfilter, negb_true_iff, failed_names. unfold tolerates. split.
    + intros [(seed & H1 & H2 & H3) Ht]. split; [by exists seed|]. destruct (Hseeds n seed H1 H2) as [fs Hfs]. rewrite Hfs in Ht. eauto.
    + intros [Hs (fs & Hfs & Ht)]. by rewrite Hfs.
  - intros n. rewrite elem_of_lfilter, failed_names. unfold tolerates. split.
    + intros [(seed & H1 & H2 & H3) Ht]. split; [by exists seed|]. destruct (Hseeds n seed H1 H2) as [fs Hfs]. rewrite Hfs in Ht. eauto.
    + intros [Hs (fs & Hfs & Ht)]. by rewrite Hfs.
  - intros -> seed (n & r & Hf & Hn & Hr & ->)%Hcar. rewrite carried_seed_status.
    assert (Hb : carried_bad src n ≠ true).
    { intros Hb. apply Hn, Hsub, Hroots. split; [done|left]. by apply Hall. }
    unfold carried_bad in Hb. rewrite Hr in Hb. apply not_true_iff_false, orb_false_iff in Hb as [Hb1 Hb2].
    by rewrite bool_decide_eq_false in Hb1, Hb2.
Qed.
