(* ===== verification/Acl.v ===== *)
(** * Access control

    [crates/stroem-server/src/acl.rs]: glob patterns, the evaluation of the
    rules, task paths, and the scope a job list is filtered with, whose SQL
    predicate is [JobAclScope::predicate] of
    [crates/stroem-db/src/repos/job.rs]. Strings are UTF-8 bytes: slicing off
    a character boundary panics, and the model returns that as an error. *)
From S2P Require Import Prelude Text Db JobRepo.

Inductive AclAction := Run | View | Deny.
#[export] Instance AclAction_eq_dec : EqDecision AclAction.
Proof. solve_decision. Defined.

(** [TaskPermission] has the same three values; [From] is the identity. *)
Definition TaskPermission := AclAction.

Definition priority (a : AclAction) : Z := match a with Deny => 1 | View => 2 | Run => 3 end.

Record AclRule := mkAclRule {
  rule_workspace : string;
  rule_tasks : list string;
  rule_action : AclAction;
  rule_groups : list string;
  rule_users : list string;
}.

Record AclConfig := mkAclConfig {
  acl_default : AclAction;
  acl_rules : list AclRule;
}.

(** ** Glob patterns *)

Inductive GlobStop := Panic | OutOfFuel.

Definition STAR : ascii := "*"%char.

(** A UTF-8 continuation byte: no character starts there. *)
Definition is_cont (c : ascii) : bool := byte_in 128 191 c.

(** [pattern.find('*')] with the parts before and after it. *)
Fixpoint split_star (p : list ascii) : option (list ascii * list ascii) :=
  match p with
  | [] => None
  | c :: p' => if c ==? STAR then Some ([], p')
               else '(pre, rest) ← split_star p'; Some (c :: pre, rest)
  end.

(** [v.strip_prefix(p)] *)
Fixpoint strip_prefix (p v : list ascii) : option (list ascii) :=
  match p, v with
  | [], _ => Some v
  | c :: p', d :: v' => if c ==? d then strip_prefix p' v' else None
  | _ :: _, [] => None
  end.

Definition bytes_end_with (suf v : list ascii) : bool :=
  (length suf <=? length v)%nat && (drop (length v - length suf) v ==? suf).

(** [for i in 0..=remaining.len()]: the slice panics off a boundary. *)
Fixpoint try_tails (g : list ascii → result GlobStop bool) (remaining : list ascii) : result GlobStop bool :=
  let at_i := match remaining with
              | c :: _ => if is_cont c then Err Panic else g remaining
              | [] => g remaining
              end in
  match at_i with
  | Err e => Err e
  | Ok true => Ok true
  | Ok false => match remaining with [] => Ok false | _ :: r => try_tails g r end
  end.

Fixpoint glob_bytes (fuel : nat) (pattern value : list ascii) : result GlobStop bool :=
  match fuel with
  | O => Err OutOfFuel
  | S fuel' =>
      if pattern ==? [STAR] then Ok true
      else
        match split_star pattern with
        | None => Ok (pattern ==? value)
        | Some (prefix, rest_pattern) =>
            match strip_prefix prefix value with
            | None => Ok false
            | Some remaining =>
                match split_star rest_pattern with
                | None => Ok (bytes_end_with rest_pattern remaining)
                | Some _ => try_tails (glob_bytes fuel' rest_pattern) remaining
                end
            end
        end
  end.

(** The recursive call's pattern is shorter, so its length is fuel enough. *)
Definition glob_match (pattern value : string) : result GlobStop bool :=
  glob_bytes (S (String.length pattern)) (bytes pattern) (bytes value).

(** ** Rules *)

(** [iter().any(f)], which stops at the first hit. *)
Fixpoint any_match (patterns : list string) (value : string) : result GlobStop bool :=
  match patterns with
  | [] => Ok false
  | p :: rest =>
      let? b := glob_match p value in
      if b : bool then Ok true else any_match rest value
  end.

Section evaluate.
Context (config : option AclConfig).

Definition rule_matches (rule : AclRule) (workspace task_path email : string) (groups : gset string)
    : result GlobStop bool :=
  let? w := glob_match (rule_workspace rule) workspace in
  if negb w then Ok false
  else
    let? t := any_match (rule_tasks rule) task_path in
    if negb t then Ok false
    else Ok (existsb (λ u, u ==? email) (rule_users rule) ||
             existsb (λ g, bool_decide (g ∈ groups)) (rule_groups rule)).

Fixpoint highest (rules : list AclRule) (workspace task_path email : string) (groups : gset string)
    (highest_priority : Z) : result GlobStop Z :=
  match rules with
  | [] => Ok highest_priority
  | rule :: rest =>
      let? m := rule_matches rule workspace task_path email groups in
      highest rest workspace task_path email groups
        (if m && (highest_priority <? priority (rule_action rule))%Z
         then priority (rule_action rule) else highest_priority)
  end.

Definition evaluate (workspace task_path email : string) (groups : gset string) (is_admin : bool)
    : result GlobStop TaskPermission :=
  if is_admin then Ok Run
  else
    match config with
    | None => Ok Run
    | Some c =>
        let? h := highest (acl_rules c) workspace task_path email groups 0 in
        Ok (if (0 <? h)%Z then (if (h =? 3)%Z then Run else if (h =? 2)%Z then View else Deny)
            else acl_default c)
    end.
End evaluate.

(** ** Task paths and the list scope *)

Definition make_task_path (folder : option string) (task_name : string) : string :=
  match folder with
  | Some f => if f ==? "" then task_name else f +:+ "/" +:+ task_name
  | None => task_name
  end.

Definition acl_folder (git_ref task_folder live_folder : option string) : option string :=
  match git_ref with Some _ => task_folder | None => live_folder end.

(** The live tasks: [(workspace, task_name, folder)]. *)
Definition LiveTasks := gmap (string * string) (option string).

(** [coords_folder] and [job_coords_task_path] *)
Definition coords_folder (live : LiveTasks) (workspace task_name : string) (git_ref task_folder : option string)
    : option string :=
  let live_folder := match git_ref with Some _ => None | None => live !! (workspace, task_name) ≫= id end in
  acl_folder git_ref task_folder live_folder.

Definition job_task_path (live : LiveTasks) (job : JobRow) : string :=
  make_task_path (coords_folder live (j_workspace job) (j_task_name job) (j_git_ref job) (j_task_folder job))
    (j_task_name job).

Record JobAclScope := mkJobAclScope {
  live_pairs : list (string * string);
  pinned_triples : list (string * string * string);
}.

Inductive AllowedScope := All | Filtered (l : list (string * string * TaskPermission)).

(** The tasks the user is not denied, with the permission; both loops below. *)
Fixpoint filter_allowed (ev : string → string → result GlobStop TaskPermission)
    (l : list (string * string * option string)) : result GlobStop (list (string * string * option string * TaskPermission)) :=
  match l with
  | [] => Ok []
  | (ws, task, folder) :: rest =>
      let? p := ev ws (make_task_path folder task) in
      let? r := filter_allowed ev rest in
      Ok (if p ==? Deny then r else (ws, task, folder, p) :: r)
  end.

Definition allowed_scope (config : option AclConfig) (workspace_tasks : list (string * string * option string))
    (email : string) (groups : gset string) (is_admin : bool) : result GlobStop AllowedScope :=
  if is_admin || bool_decide (config = None) then Ok All
  else
    let? l := filter_allowed (λ ws path, evaluate config ws path email groups false) workspace_tasks in
    Ok (Filtered ((λ '(ws, t, _, p), (ws, t, p)) <$> l)).

Definition allowed_triples (config : option AclConfig) (triples : list (string * string * option string))
    (email : string) (groups : gset string) : result GlobStop (list (string * string * string)) :=
  let? l := filter_allowed (λ ws path, evaluate config ws path email groups false) triples in
  Ok ((λ '(ws, t, f, _), (ws, t, default "" f)) <$> l).

(** The tasks of every workspace, in some order. *)
Definition live_task_folders (live : LiveTasks) : list (string * string * option string) :=
  (λ '((ws, t), f), (ws, t, f)) <$> map_to_list live.

Definition pinned_task_triples (db : Db) : list (string * string * option string) :=
  remove_dups ((λ j, (j_workspace j, j_task_name j, j_task_folder j)) <$>
               select_jobs (λ j, negb (j_git_ref j ==? None)) db).

(** [build_job_acl_scope]; [None]: no filtering. *)
Definition build_job_acl_scope (config : option AclConfig) (live : LiveTasks) (db : Db) (email : string)
    (groups : gset string) (is_admin : bool) : result GlobStop (option JobAclScope) :=
  if is_admin || bool_decide (config = None) then Ok None
  else
    let? scope := allowed_scope config (live_task_folders live) email groups false in
    match scope with
    | All => Ok None
    | Filtered items =>
        let? pt := allowed_triples config (pinned_task_triples db) email groups in
        Ok (Some (mkJobAclScope ((λ '(ws, t, _), (ws, t)) <$> items) pt))
    end.

(** The SQL predicate of a scope. *)
Definition in_scope (scope : JobAclScope) (job : JobRow) : bool :=
  match j_git_ref job with
  | None => bool_decide ((j_workspace job, j_task_name job) ∈ live_pairs scope)
  | Some _ => bool_decide ((j_workspace job, j_task_name job, default "" (j_task_folder job))
                           ∈ pinned_triples scope)
  end.

Definition narrow_job_scope (scope : JobAclScope) (workspace task : option string) : JobAclScope :=
  let keep w t := match workspace with Some ws => ws ==? w | None => true end &&
                  match task with Some tn => tn ==? t | None => true end in
  mkJobAclScope (List.filter (λ '(w, t), keep w t) (live_pairs scope))
    (List.filter (λ '(w, t, _), keep w t) (pinned_triples scope)).

(** ** What a pattern matches *)

(** A star stands for any bytes, every other byte for itself. *)
Inductive Glob : list ascii → list ascii → Prop :=
| glob_nil : Glob [] []
| glob_byte c p v : c ≠ STAR → Glob p v → Glob (c :: p) (c :: v)
| glob_star p v1 v2 : Glob p v2 → Glob (STAR :: p) (v1 ++ v2).

Lemma split_star_some p pre rest :
  split_star p = Some (pre, rest) → p = pre ++ STAR :: rest ∧ STAR ∉ pre.
Proof.
  revert pre. induction p as [|c p IH]; intros pre; simpl; [done|]. case_bool_decide as Hc.
  - intros [= <- <-]. subst. split; [done|apply not_elem_of_nil].
  - intros ([pre' rest'] & E & [= <- <-])%bind_Some. apply IH in E as [-> Hs]. split; [done|].
    rewrite elem_of_cons. intros [?|?]; congruence.
Qed.

Lemma split_star_none p : split_star p = None → STAR ∉ p.
Proof.
  induction p as [|c p IH]; simpl; [intros _; apply not_elem_of_nil|]. case_bool_decide as Hc; [done|].
  destruct (split_star p) as [[? ?]|]; [done|]. intros _. rewrite elem_of_cons. intros [?|?]; [congruence|by apply IH].
Qed.

Lemma strip_prefix_spec p v r : strip_prefix p v = Some r ↔ v = p ++ r.
Proof.
  revert v. induction p as [|c p IH]; intros v; simpl; [naive_solver|].
  destruct v as [|d v]; [naive_solver|]. case_bool_decide as Hc; [|naive_solver]. subst d. rewrite IH. naive_solver.
Qed.

Lemma bytes_end_with_spec suf v : bytes_end_with suf v = true ↔ ∃ v1, v = v1 ++ suf.
Proof.
  unfold bytes_end_with. rewrite andb_true_iff, Nat.leb_le, bool_decide_eq_true. split.
  - intros [Hl E]. exists (take (length v - length suf) v). rewrite <-E at 2. by rewrite take_drop.
  - intros [v1 ->]. rewrite length_app. split; [lia|].
    replace (length v1 + length suf - length suf)%nat with (length v1) by lia. by rewrite drop_app_length.
Qed.

(** Bytes before the first star match themselves. *)
Lemma Glob_prefix pre p v : STAR ∉ pre → Glob (pre ++ p) v ↔ ∃ r, v = pre ++ r ∧ Glob p r.
Proof.
  revert v. induction pre as [|c pre IH]; intros v Hs; simpl; [naive_solver|].
  rewrite elem_of_cons in Hs. split.
  - inversion 1; subst; [|naive_solver]. match goal with H : Glob (pre ++ _) _ |- _ => apply IH in H as (r & -> & ?) end; [|tauto].
    eauto.
  - intros (r & -> & Hr). constructor; [intros ->; tauto|]. apply IH; [tauto|]. eauto.
Qed.

Lemma Glob_literal p v : STAR ∉ p → Glob p v ↔ p = v.
Proof.
  intros Hs. rewrite <-(app_nil_r p) at 1. rewrite Glob_prefix by done. split.
  - intros (r & -> & Hr). inversion Hr. by rewrite app_nil_r.
  - intros ->. exists []. rewrite app_nil_r. split; [done|constructor].
Qed.

Lemma Glob_star p v : Glob (STAR :: p) v ↔ ∃ v1 v2, v = v1 ++ v2 ∧ Glob p v2.
Proof.
  split; [|intros (v1 & v2 & -> & ?); by constructor].
  inversion 1; subst; [by destruct (H2 eq_refl)|eauto].
Qed.

(** What a call decided: right when it returns, and it fails to return only
    on a value with a continuation byte. *)
Definition glob_ok (p v : list ascii) (r : result GlobStop bool) : Prop :=
  match r with
  | Ok b => b = true ↔ Glob p v
  | Err Panic => ∃ c, c ∈ v ∧ is_cont c = true
  | Err OutOfFuel => False
  end.

Lemma try_tails_ok p g v :
  (∀ v', glob_ok p v' (g v')) → glob_ok (STAR :: p) v (try_tails g v).
Proof.
  intros Hg. induction v as [|c v IH]; simpl.
  - pose proof (Hg []) as H0. destruct (g []) as [[]|[]]; simpl in *; try done.
    + split; [intros _|done]. apply (glob_star p [] []). by apply H0.
    + split; [done|]. intros (v1 & v2 & E & Hm)%Glob_star. symmetry in E. apply app_nil in E as [-> ->].
      by apply H0 in Hm.
  - destruct (is_cont c) eqn:Hc; [exists c; split; [left|done]|].
    pose proof (Hg (c :: v)) as H0. destruct (g (c :: v)) as [[]|[]]; simpl in *; try done.
    + split; [intros _|done]. apply (glob_star p [] (c :: v)). by apply H0.
    + destruct (try_tails g v) as [b|[]]; simpl in *; [|naive_solver set_solver|done].
      rewrite IH. split.
      * intros (v1 & v2 & -> & Hm)%Glob_star. by apply (glob_star p (c :: v1)).
      * intros (v1 & v2 & E & Hm)%Glob_star. destruct v1 as [|d v1].
        { simpl in E. subst v2. by apply H0 in Hm. }
        simpl in E. simplify_eq. by apply glob_star.
Qed.

Lemma glob_bytes_ok fuel p v : (length p < fuel)%nat → glob_ok p v (glob_bytes fuel p v).
Proof.
  revert p v. induction fuel as [|fuel IH]; intros p v Hf; [lia|]. cbn [glob_bytes].
  case_bool_decide as Hp.
  { subst p. simpl. split; [intros _|done]. rewrite <-(app_nil_r v). apply glob_star. constructor. }
  destruct (split_star p) as [[pre rest]|] eqn:Es.
  2:{ simpl. rewrite bool_decide_eq_true, Glob_literal by by apply split_star_none. done. }
  apply split_star_some in Es as [-> Hpre]. destruct (strip_prefix pre v) as [r|] eqn:Er.
  2:{ simpl. split; [done|]. rewrite Glob_prefix by done. intros (r & E & _).
      apply strip_prefix_spec in E. congruence. }
  apply strip_prefix_spec in Er as ->. rewrite length_app in Hf. simpl in Hf.
  assert (Hlift : ∀ res, glob_ok (STAR :: rest) r res → glob_ok (pre ++ STAR :: rest) (pre ++ r) res).
  { intros [b|[]]; simpl; [|set_solver|done]. intros ->. rewrite (Glob_prefix pre) by done.
    split; [eauto|]. intros (r' & E & ?). simplify_list_eq. done. }
  apply Hlift. destruct (split_star rest) as [[? ?]|] eqn:Es'.
  - apply try_tails_ok. intros v'. apply IH. lia.
  - apply split_star_none in Es'. simpl. rewrite bytes_end_with_spec, Glob_star.
    setoid_rewrite Glob_literal; [|done|done..]. naive_solver.
Qed.

Lemma glob_match_ok p v : glob_ok (bytes p) (bytes v) (glob_match p v).
Proof. apply glob_bytes_ok. rewrite length_bytes. lia. Qed.

(** Glob patterns match what they say: whenever [glob_match] returns, it
    returns true exactly when the value is the pattern with each star replaced
    by some text; and the only calls that do not return are on values with a
    character outside ASCII. *)
Theorem glob_match_correct p v :
  match glob_match p v with
  | Ok b => b = true ↔ Glob (bytes p) (bytes v)
  | Err Panic => ∃ c, c ∈ bytes v ∧ is_cont c = true
  | Err OutOfFuel => False
  end.
Proof. apply glob_match_ok. Qed.

Lemma split_star_literal a p : STAR ∉ a → split_star (a ++ STAR :: p) = Some (a, p).
Proof.
  induction a as [|c a IH]; intros Ha; [by vm_compute|]. rewrite elem_of_cons in Ha. cbn [split_star app].
  rewrite bool_decide_false by (intros ->; tauto). rewrite IH by tauto. done.
Qed.

(** The last segment of a search: some text, then anything. *)
Lemma glob_bytes_segment fuel a v :
  STAR ∉ a → ∃ b, glob_bytes (S fuel) (a ++ [STAR]) v = Ok b ∧ (b = true ↔ a `prefix_of` v).
Proof.
  intros Ha. cbn [glob_bytes]. case_bool_decide as E.
  { exists true. split; [done|]. split; [intros _|done]. destruct a as [|x a]; [apply prefix_nil|].
    simpl in E. injection E as -> E. destruct a; done. }
  rewrite split_star_literal by done. destruct (strip_prefix a v) as [r|] eqn:Er.
  - exists true. apply strip_prefix_spec in Er as ->. split; [|split; [intros _; by exists r|done]].
    unfold bytes_end_with. cbn [split_star length]. rewrite bool_decide_true; [done|]. by rewrite Nat.sub_0_r, drop_all.
  - exists false. split; [done|]. split; [done|]. intros [r E']. apply strip_prefix_spec in E'. congruence.
Qed.

(** Searching past a character outside ASCII panics. A pattern that looks
    for a literal text anywhere in the value (star, text, star) panics on
    every value with such a character unless the text occurs before it: the
    next slice of the search falls inside the character. *)
Theorem glob_match_panics_outside_ascii a v1 c v2 :
  STAR ∉ a → is_cont c = true →
  (∀ k, (k < length v1)%nat → ¬ a `prefix_of` drop k (v1 ++ c :: v2)) →
  glob_match (of_bytes (STAR :: a ++ [STAR])) (of_bytes (v1 ++ c :: v2)) = Err Panic.
Proof.
  intros Ha Hc Hno. unfold glob_match. rewrite !bytes_of_bytes. cbn [glob_bytes].
  rewrite bool_decide_false by (by destruct a).
  rewrite (split_star_literal [] (a ++ [STAR]) (not_elem_of_nil STAR) : split_star (STAR :: a ++ [STAR]) = _).
  cbn [strip_prefix].
  rewrite split_star_literal by done.
  assert (Hl : ∃ fuel, String.length (of_bytes (STAR :: a ++ [STAR])) = S fuel)
    by (rewrite <-length_bytes, bytes_of_bytes; by eexists).
  destruct Hl as [fuel ->]. clear -Ha Hc Hno.
  induction v1 as [|x v1 IH]; cbn [try_tails app]; [by rewrite Hc|].
  destruct (is_cont x); [done|].
  destruct (glob_bytes_segment fuel a (x :: v1 ++ c :: v2) Ha) as (b & -> & Hb).
  destruct b; [destruct (Hno 0%nat); [simpl; lia|by apply Hb]|]. apply IH.
  intros k Hk. apply (Hno (S k)). simpl. lia.
Qed.

(** ** The rules *)

(** A value in ASCII. *)
Definition ascii_only (s : string) : Prop := ∀ c, c ∈ bytes s → is_cont c = false.

Definition rule_applies (r : AclRule) (workspace task_path email : string) (groups : gset string) : Prop :=
  Glob (bytes (rule_workspace r)) (bytes workspace) ∧
  (∃ p, p ∈ rule_tasks r ∧ Glob (bytes p) (bytes task_path)) ∧
  (email ∈ rule_users r ∨ ∃ g, g ∈ rule_groups r ∧ g ∈ groups).

Lemma glob_match_ascii p v : ascii_only v → ∃ b, glob_match p v = Ok b ∧ (b = true ↔ Glob (bytes p) (bytes v)).
Proof.
  intros Ha. pose proof (glob_match_ok p v) as Hg. destruct (glob_match p v) as [b|[]]; simpl in Hg; [eauto| |done].
  destruct Hg as (c & Hc & Hcont). by rewrite Ha in Hcont.
Qed.

Lemma any_match_ascii ps v :
  ascii_only v → ∃ b, any_match ps v = Ok b ∧ (b = true ↔ ∃ p, p ∈ ps ∧ Glob (bytes p) (bytes v)).
Proof.
  intros Ha. induction ps as [|p ps (b & E & IH)]; simpl; [exists false; set_solver|].
  destruct (glob_match_ascii p v Ha) as (b1 & -> & H1). simpl. destruct b1.
  - exists true. split; [done|]. split; [|done]. intros _. exists p. split; [left|by apply H1].
  - exists b. split; [done|]. rewrite IH. setoid_rewrite elem_of_cons. naive_solver.
Qed.

Lemma rule_matches_ascii r ws path email groups :
  ascii_only ws → ascii_only path →
  ∃ b, rule_matches r ws path email groups = Ok b ∧ (b = true ↔ rule_applies r ws path email groups).
Proof.
  intros Hw Hp. unfold rule_matches, rule_applies.
  destruct (glob_match_ascii (rule_workspace r) ws Hw) as (b1 & -> & H1). simpl.
  destruct b1; simpl; [|exists false; naive_solver].
  destruct (any_match_ascii (rule_tasks r) path Hp) as (b2 & -> & H2). simpl.
  destruct b2; simpl; [|exists false; naive_solver].
  eexists. split; [done|]. rewrite orb_true_iff, !existsb_exists'. setoid_rewrite bool_decide_eq_true. naive_solver.
Qed.

(** Some rule with this action applies. *)
Definition grants (rules : list AclRule) (a : AclAction) (ws path email : string) (groups : gset string) : Prop :=
  ∃ r, r ∈ rules ∧ rule_action r = a ∧ rule_applies r ws path email groups.

Lemma highest_ascii rules ws path email groups h0 :
  ascii_only ws → ascii_only path → (0 ≤ h0 ≤ 3)%Z →
  ∃ h, highest rules ws path email groups h0 = Ok h ∧ (h0 ≤ h ≤ 3)%Z ∧
    (∀ a, grants rules a ws path email groups → (priority a ≤ h)%Z) ∧
    (h = h0 ∨ ∃ a, h = priority a ∧ grants rules a ws path email groups).
Proof.
  intros Hw Hp. revert h0. induction rules as [|r rules IH]; intros h0 Hh; simpl.
  { exists h0. split_and!; [done|lia|lia| |by left]. intros a (r & Hr & _). by apply elem_of_nil in Hr. }
  destruct (rule_matches_ascii r ws path email groups Hw Hp) as (b & -> & Hb). simpl.
  set (h1 := if b && _ then _ else _).
  assert (Hpr : (1 ≤ priority (rule_action r) ≤ 3)%Z) by (destruct (rule_action r); simpl; lia).
  assert (H1 : (h0 ≤ h1 ≤ 3)%Z ∧ (b = true → (priority (rule_action r) ≤ h1)%Z) ∧
               (h1 = h0 ∨ b = true ∧ h1 = priority (rule_action r))).
  { unfold h1. destruct b; simpl; [|split_and!; [lia|lia|done|by left]].
    destruct (Z.ltb_spec h0 (priority (rule_action r))); split_and!; try lia; auto. }
  destruct H1 as (H1 & H1b & H1c). destruct (IH h1 ltac:(lia)) as (h & -> & Hr & Hge & Hor).
  exists h. split_and!; [done|lia|lia| |].
  - intros a (r' & [->|Hin]%elem_of_cons & Ha & Happ).
    + rewrite <-Ha. etrans; [apply H1b; by apply Hb|]. lia.
    + apply Hge. by exists r'.
  - destruct Hor as [->|(a & -> & r' & Hin & Ha & Happ)].
    + destruct H1c as [->|[Hbt ->]]; [by left|right]. exists (rule_action r). split; [done|].
      exists r. split; [left|]. split; [done|]. by apply Hb.
    + right. exists a. split; [done|]. exists r'. split; [by right|done].
Qed.

(** The strongest applicable rule decides. For a workspace and task path
    in ASCII the evaluation returns; an administrator, and anyone when no
    rules are configured, may run; otherwise run is granted when some
    applicable rule grants it, else view when some applicable rule grants
    that, else the task is denied when some applicable rule denies it, and
    the default decides only when no rule applies. *)
Theorem acl_strongest_rule_wins config ws path email groups is_admin :
  ascii_only ws → ascii_only path →
  ∃ perm, evaluate config ws path email groups is_admin = Ok perm ∧
  match is_admin, config with
  | true, _ | _, None => perm = Run
  | false, Some c =>
      let granted a := grants (acl_rules c) a ws path email groups in
      (granted Run → perm = Run) ∧
      (¬ granted Run → granted View → perm = View) ∧
      (¬ granted Run → ¬ granted View → granted Deny → perm = Deny) ∧
      (¬ granted Run → ¬ granted View → ¬ granted Deny → perm = acl_default c)
  end.
Proof.
  intros Hw Hp. unfold evaluate. destruct is_admin; [by exists Run|]. destruct config as [c|]; [|by exists Run].
  destruct (highest_ascii (acl_rules c) ws path email groups 0 Hw Hp) as (h & -> & Hr & Hge & Hor); [lia|]. simpl.
  eexists. split; [done|]. cbv zeta.
  assert (Hh : h = 0%Z ∨ h = 1%Z ∨ h = 2%Z ∨ h = 3%Z) by lia.
  pose proof (Hge Run) as GR. pose proof (Hge View) as GV. pose proof (Hge Deny) as GD. simpl in GR, GV, GD.
  assert (Hex : h ≠ 0%Z → ∃ a, h = priority a ∧ grants (acl_rules c) a ws path email groups) by naive_solver.
  destruct Hh as [->|[->|[->| ->]]]; simpl.
  - split_and!; try done; intros; exfalso; try (apply GR in H; lia); try (apply GV in H0; lia); apply GD in H1; lia.
  - destruct Hex as ([] & ? & Hg); [done|done|done|]. split_and!; try done; intros; exfalso.
    + apply GR in H0. lia.
    + apply GV in H1. lia.
  - destruct Hex as ([] & ? & Hg); [done|done| |done]. split_and!; try done; intros.
    exfalso. apply GR in H0. lia.
  - destruct Hex as ([] & ? & Hg); [done| |done|done]. split_and!; done.
Qed.

(** ** The list scope *)

Lemma filter_allowed_spec ev l r :
  filter_allowed ev l = Ok r →
  ∀ ws t f p, (ws, t, f, p) ∈ r ↔ (ws, t, f) ∈ l ∧ ev ws (make_task_path f t) = Ok p ∧ p ≠ Deny.
Proof.
  revert r. induction l as [|[[ws0 t0] f0] l IH]; intros r; simpl.
  { intros [= <-] ws t f p. split; [by intros ?%elem_of_nil|by intros [?%elem_of_nil _]]. }
  intros (p0 & Ep & (r' & Er & [= <-])%res_bind_ok)%res_bind_ok ws t f p. specialize (IH r' Er ws t f p).
  case_bool_decide as Hp; rewrite ?elem_of_cons, IH.
  - split; [by intros [? ?]; auto|]. intros [[[= -> -> ->]|?] HQ]; [|done].
    destruct HQ as (E' & Hd). congruence.
  - split; [intros [[= -> -> -> ->]|[? ?]]; eauto|]. intros [[[= -> -> ->]|?] [E' ?]]; [left; congruence|auto].
Qed.

Lemma make_task_path_default f t : make_task_path (Some (default "" f)) t = make_task_path f t.
Proof. by destruct f. Qed.

Lemma elem_of_pinned_task_triples db j r :
  db_job db !! j = Some r → j_git_ref (jr_row r) ≠ None →
  (j_workspace (jr_row r), j_task_name (jr_row r), j_task_folder (jr_row r)) ∈ pinned_task_triples db.
Proof.
  intros Hr Hg. unfold pinned_task_triples. apply elem_of_remove_dups, list_elem_of_fmap. exists (jr_row r).
  split; [done|]. unfold select_jobs. apply list_elem_of_fmap_2, elem_of_sql_select. exists j. split; [done|].
  by rewrite bool_decide_false.
Qed.

(** The user may see a task path. *)
Definition visible (config : option AclConfig) (ws path email : string) (groups : gset string) : Prop :=
  ∃ p, evaluate config ws path email groups false = Ok p ∧ p ≠ Deny.

(** C39. A job list shows what the job pages allow. When a list is filtered, a
    job of the database is in its scope exactly when the user may see the
    task path the job itself is authorised with (a pinned job by the folder of
    its own commit, whatever the live configuration says, an unpinned one by
    the live task's folder), except that an unpinned job whose task no longer
    exists is not listed; narrowing the scope to a workspace and a task keeps
    exactly its jobs there. *)
Theorem job_scope_agrees config live db email groups scope j r w t :
  build_job_acl_scope config live db email groups false = Ok (Some scope) → db_job db !! j = Some r →
  let job := jr_row r in
  (in_scope scope job = true ↔
     visible config (j_workspace job) (job_task_path live job) email groups ∧
     (j_git_ref job = None → is_Some (live !! (j_workspace job, j_task_name job)))) ∧
  (in_scope (narrow_job_scope scope w t) job = true ↔
     in_scope scope job = true ∧ (∀ ws, w = Some ws → j_workspace job = ws) ∧
     (∀ tn, t = Some tn → j_task_name job = tn)).
Proof.
  intros E Hr job. destruct config as [c|]; [|done]. unfold build_job_acl_scope, allowed_scope, allowed_triples in E.
  cbn [orb] in E. rewrite bool_decide_false in E by done. cbn [orb] in E.
  apply res_bind_ok in E as (sc & (lp & El & [= <-])%res_bind_ok & (pt & (pl & Ep & [= <-])%res_bind_ok & [= <-])%res_bind_ok).
  pose proof (filter_allowed_spec _ _ _ El) as Hl. pose proof (filter_allowed_spec _ _ _ Ep) as Hp.
  split.
  - unfold in_scope, job_task_path, coords_folder, acl_folder, visible. cbn [live_pairs pinned_triples].
    destruct (j_git_ref job) as [g|] eqn:Hg; rewrite bool_decide_eq_true.
    + rewrite list_elem_of_fmap. split.
      * intros ([[[ws tn] f] p] & [= Hws Htn Hf] & (Hin & Hev & Hd)%Hp). subst ws tn.
        split; [|done]. exists p. rewrite <-(make_task_path_default (j_task_folder job)), Hf, make_task_path_default. done.
      * intros [(p & Hev & Hd) _]. exists (j_workspace job, j_task_name job, j_task_folder job, p).
        split; [done|]. apply Hp. split; [apply (elem_of_pinned_task_triples db j r); [done|by fold job; rewrite Hg]|done].
    + rewrite <-list_fmap_compose, list_elem_of_fmap. split.
      * intros ([[[ws tn] f] p] & [= Hws Htn] & (Hin & Hev & Hd)%Hl). subst ws tn.
        apply list_elem_of_fmap in Hin as ([[ws' tn'] f'] & [= <- <- <-] & Hin%elem_of_map_to_list).
        assert (Hlive : live !! (j_workspace job, j_task_name job) = Some f) by exact Hin.
        rewrite Hlive. simpl. split; [by exists p|by eexists].
      * intros [(p & Hev & Hd) Hlive]. destruct (Hlive eq_refl) as [f Hf]. rewrite Hf in Hev. simpl in Hev.
        exists (j_workspace job, j_task_name job, f, p). split; [done|]. apply Hl. split; [|done].
        apply list_elem_of_fmap. exists ((j_workspace job, j_task_name job), f).
        split; [done|]. by apply elem_of_map_to_list.
  - unfold in_scope, narrow_job_scope. cbn [live_pairs pinned_triples].
    destruct (j_git_ref job); rewrite !bool_decide_eq_true, elem_of_lfilter; apply and_iff_compat_l;
      rewrite andb_true_iff; destruct w, t; rewrite ?bool_decide_eq_true; naive_solver.
Qed.
