(* ===== verification/Duration.v ===== *)
(** * Durations

    [crates/stroem-common/src/duration.rs]: the printed form of a
    [HumanDuration] and its parser. A duration is its [u64] seconds. *)
From S2P Require Import Prelude Text.

(** [impl Display for HumanDuration] *)
Definition duration_fmt (secs : Z) : string :=
  if (secs =? 0)%Z then "0s"
  else
    let h := (secs / 3600)%Z in
    let m := ((secs mod 3600) / 60)%Z in
    let s := (secs mod 60)%Z in
    (if (0 <? h)%Z then pretty h +:+ "h" else "") +:+
    (if (0 <? m)%Z then pretty m +:+ "m" else "") +:+
    (if (0 <? s)%Z || ((h =? 0)%Z && (m =? 0)%Z) then pretty s +:+ "s" else "").

(** The character at the start of these bytes: its lead byte and the
    continuation bytes after it. *)
Fixpoint take_cont (l : list ascii) : list ascii :=
  match l with c :: l' => if byte_in 128 191 c then c :: take_cont l' else [] | [] => [] end.
Definition char_at (c : ascii) (l : list ascii) : string := of_bytes (c :: take_cont l).

Definition unit_seconds (n : Z) (c : ascii) (ch : string) : result string Z :=
  if byte_is 104 c then
    match u64_checked_mul n 3600 with
    | Some v => Ok v
    | None => Err ("duration value " +:+ pretty n +:+ "h overflows")
    end
  else if byte_is 109 c then
    match u64_checked_mul n 60 with
    | Some v => Ok v
    | None => Err ("duration value " +:+ pretty n +:+ "m overflows")
    end
  else if byte_is 115 c then Ok n
  else Err ("unknown duration unit '" +:+ ch +:+ "' (expected h, m, or s)").

(** The loop over the characters: the total, the digits read and not yet used
    (in order), and whether a unit was seen. Every byte of a character that is
    not a digit ends the number, and an error ends the loop, so a byte of a
    longer character is never visited on its own. *)
Fixpoint duration_loop (l : list ascii) (total : Z) (current_num : list ascii) (has_any_unit : bool)
    : result string (Z * list ascii * bool) :=
  match l with
  | [] => Ok (total, current_num, has_any_unit)
  | c :: l' =>
      if is_digit c then duration_loop l' total (current_num ++ [c]) has_any_unit
      else if bool_decide (current_num = []) then
        Err ("unexpected character '" +:+ char_at c l' +:+ "' without preceding number")
      else
        match parse_u64 (of_bytes current_num) with
        | None => Err ("invalid number: " +:+ of_bytes current_num)
        | Some n =>
            let? component := unit_seconds n c (char_at c l') in
            duration_loop l' (u64_saturating_add total component) [] true
        end
  end.

Definition parse_duration (s : string) : result string Z :=
  let s := trim s in
  if s ==? "" then Err "duration string is empty"
  else
    match parse_u64 s with
    | Some n => if (n =? 0)%Z then Err "duration must be greater than 0" else Ok n
    | None =>
        let? (total_secs, current_num, has_any_unit) := duration_loop (bytes s) 0 [] false in
        if negb (bool_decide (current_num = [])) then
          Err ("trailing number '" +:+ of_bytes current_num +:+ "' without unit (expected h, m, or s)")
        else if negb has_any_unit then Err ("invalid duration format: '" +:+ s +:+ "'")
        else if (total_secs =? 0)%Z then Err "duration must be greater than 0"
        else Ok total_secs
    end.

Example parse_duration_samples :
  map parse_duration ["300"; " 1h30m "; "2h15m30s"; "0"; "5"; "5x"; "m"; "10m5"; "99999999999999999999h"] =
  [Ok 300; Ok 5400; Ok 8130; Err "duration must be greater than 0"; Ok 5;
   Err "unknown duration unit 'x' (expected h, m, or s)"; Err "unexpected character 'm' without preceding number";
   Err "trailing number '5' without unit (expected h, m, or s)"; Err "invalid number: 99999999999999999999"]%Z.
Proof. vm_compute. reflexivity. Qed.

(** ** Bounds *)

Lemma digits_value_nonneg l : Forall (λ c, is_digit c = true) l → (0 ≤ digits_value l)%Z.
Proof.
  unfold digits_value. intros Hl. assert (H : ∀ a, (0 ≤ a)%Z → (0 ≤ fold_left (λ a c, 10 * a + digit_value c)%Z l a)%Z).
  { induction Hl as [|c l Hc Hl IH]; intros a Ha; simpl; [done|]. apply IH.
    unfold is_digit in Hc. apply andb_true_iff in Hc as [Hc%N.leb_le _]. unfold digit_value. lia. }
  by apply H.
Qed.

Lemma span_digits_digits l d r : span_digits l = (d, r) → Forall (λ c, is_digit c = true) d.
Proof.
  revert d r. induction l as [|c l IH]; intros d r; simpl; [by intros [= <- <-]|].
  destruct (is_digit c) eqn:Hc; [|by intros [= <- <-]].
  destruct (span_digits l) as [d' r']. intros [= <- <-]. constructor; [done|by eapply IH].
Qed.

Lemma parse_u64_range s n : parse_u64 s = Some n → is_u64 n.
Proof.
  unfold parse_u64. destruct (span_digits _) as [d [|c r]] eqn:E; [|done]. case_bool_decide; [done|].
  destruct (Z.leb_spec (digits_value d) u64_max); [|done]. intros [= <-]. split; [|done].
  by eapply digits_value_nonneg, span_digits_digits.
Qed.

Lemma unit_seconds_range n c ch v : is_u64 n → unit_seconds n c ch = Ok v → is_u64 v.
Proof.
  unfold unit_seconds, u64_checked_mul, is_u64. intros Hn.
  destruct (byte_is 104 c); [destruct (Z.leb_spec (n * 3600) u64_max); [intros [= <-]; lia|done]|].
  destruct (byte_is 109 c); [destruct (Z.leb_spec (n * 60) u64_max); [intros [= <-]; lia|done]|].
  destruct (byte_is 115 c); [by intros [= <-]|done].
Qed.

Lemma duration_loop_range l total cur has t c h :
  is_u64 total → duration_loop l total cur has = Ok (t, c, h) → is_u64 t.
Proof.
  revert total cur has. induction l as [|x l IH]; intros total cur has Ht; simpl; [by intros [= <- <- <-]|].
  destruct (is_digit x); [by apply IH|]. case_bool_decide; [done|].
  destruct (parse_u64 _) as [n|] eqn:En; [|done]. intros (v & Ev & E)%res_bind_ok.
  eapply IH; [|exact E]. apply parse_u64_range in En. apply unit_seconds_range in Ev; [|done].
  unfold u64_saturating_add, is_u64 in *. lia.
Qed.

(** ** Printing and parsing *)

Lemma digits_value_app l1 l2 :
  digits_value (l1 ++ l2) = (digits_value l1 * 10 ^ Z.of_nat (length l2) + digits_value l2)%Z.
Proof.
  unfold digits_value.
  assert (Hgen : ∀ a, fold_left (λ a c, 10 * a + digit_value c)%Z l2 a =
    (a * 10 ^ Z.of_nat (length l2) + fold_left (λ a c, 10 * a + digit_value c)%Z l2 0)%Z).
  { induction l2 as [|c l2 IH]; intros a; cbn [fold_left length]; [lia|].
    rewrite (IH (10 * a + digit_value c)%Z), (IH (10 * 0 + digit_value c)%Z).
    rewrite Nat2Z.inj_succ, Z.pow_succ_r by lia. ring. }
  by rewrite fold_left_app, Hgen.
Qed.

Lemma digits_value_cons c l :
  digits_value (c :: l) = (digit_value c * 10 ^ Z.of_nat (length l) + digits_value l)%Z.
Proof. change (c :: l) with ([c] ++ l). rewrite digits_value_app. done. Qed.

Lemma digit_value_pretty_N_char x : (x < 10)%N → digit_value (pretty_N_char x) = Z.of_N x.
Proof. intros Hx. assert (Hc : x ∈ (N.of_nat <$> seq 0 10)).
  { apply list_elem_of_fmap. exists (N.to_nat x). split; [lia|]. apply elem_of_seq. lia. }
  repeat (apply elem_of_cons in Hc as [->|Hc]; [done|]). by apply elem_of_nil in Hc.
Qed.

Lemma digits_value_pretty_N_go x s :
  digits_value (bytes (pretty_N_go x s)) =
  (Z.of_N x * 10 ^ Z.of_nat (String.length s) + digits_value (bytes s))%Z.
Proof.
  revert s. induction (N.lt_wf_0 x) as [x _ IH]; intros s.
  destruct (decide (x = 0)%N) as [->|Hx]; [by rewrite pretty_N_go_0|].
  rewrite pretty_N_go_step by lia. rewrite IH by (apply N.div_lt; lia).
  cbn [bytes String.length]. rewrite digits_value_cons, digit_value_pretty_N_char by (apply N.mod_lt; lia).
  rewrite length_bytes, Nat2Z.inj_succ, Z.pow_succ_r, N2Z.inj_div, N2Z.inj_mod by lia.
  pose proof (Z.div_mod (Z.of_N x) 10 ltac:(lia)) as Hdm. change (Z.of_N 10) with 10%Z. nia.
Qed.

(** A printed natural is digits, at least one, and reads back. *)
Lemma pretty_Z_digits z :
  (0 ≤ z)%Z → Forall (λ c, is_digit c = true) (bytes (pretty z)) ∧ bytes (pretty z) ≠ [] ∧
  digits_value (bytes (pretty z)) = z.
Proof.
  intros Hz. assert (pretty z = pretty (Z.to_N z)) as -> by (destruct z; done || lia).
  unfold pretty, pretty_N. case_decide as H0.
  - split_and!; [by repeat constructor|done|]. change (digits_value (bytes "0")) with 0%Z. lia.
  - split_and!; [apply pretty_N_go_digits; constructor| |].
    + intros Hnil. pose proof (digits_value_pretty_N_go (Z.to_N z) "") as Hv. rewrite Hnil in Hv.
      change (digits_value []) with 0%Z in Hv. cbn in Hv. lia.
    + rewrite digits_value_pretty_N_go. change (digits_value (bytes "")) with 0%Z. cbn [String.length].
      change (10 ^ Z.of_nat 0)%Z with 1%Z. lia.
Qed.

Lemma parse_u64_pretty z : is_u64 z → parse_u64 (pretty z) = Some z.
Proof.
  intros [Hz Hm]. destruct (pretty_Z_digits z Hz) as (Hd & Hne & Hv). unfold parse_u64.
  destruct (bytes (pretty z)) as [|c l] eqn:E; [done|]. apply Forall_cons in Hd as [Hc Hd].
  assert (byte_is 43 c = false) as ->.
  { unfold byte_is, is_digit in *. apply andb_true_iff in Hc as [Hc%N.leb_le _]. apply N.eqb_neq. lia. }
  rewrite <-(app_nil_r (c :: l)), span_digits_app by (by constructor || done).
  rewrite bool_decide_false by done. rewrite Hv. by rewrite (proj2 (Z.leb_le z u64_max)).
Qed.

(** One printed component: a number and its unit. *)
Definition piece (p : Z * ascii) : list ascii := bytes (pretty p.1) ++ [p.2].
Definition unit_weight (c : ascii) : Z := if byte_is 104 c then 3600 else if byte_is 109 c then 60 else 1.
Definition piece_ok (p : Z * ascii) : Prop :=
  p.2 ∈ ["h"%char; "m"%char; "s"%char] ∧ (0 < p.1)%Z ∧ (p.1 * unit_weight p.2 ≤ u64_max)%Z.
Definition pieces_total (ps : list (Z * ascii)) : Z := foldr (λ p a, p.1 * unit_weight p.2 + a)%Z 0%Z ps.

Lemma unit_seconds_ok z c ch : piece_ok (z, c) → unit_seconds z c ch = Ok (z * unit_weight c)%Z.
Proof.
  intros (Hc & Hz & Hm). simpl in *. unfold unit_seconds, unit_weight, u64_checked_mul in *.
  repeat (apply elem_of_cons in Hc as [->|Hc]; [simpl in *; rewrite ?(proj2 (Z.leb_le _ _)) by done; f_equal; lia|]).
  by apply elem_of_nil in Hc.
Qed.

Lemma unit_not_digit p : piece_ok p → is_digit p.2 = false ∧ is_ws1 p.2 = false ∧ (N_of_ascii p.2 < 128)%N.
Proof.
  intros (Hc & _). repeat (apply elem_of_cons in Hc as [->|Hc]; [done|]). by apply elem_of_nil in Hc.
Qed.

Lemma duration_loop_digits d l total cur has :
  Forall (λ c, is_digit c = true) d → duration_loop (d ++ l) total cur has = duration_loop l total (cur ++ d) has.
Proof.
  intros Hd. revert cur. induction Hd as [|c d Hc Hd IH]; intros cur; simpl; [by rewrite app_nil_r|].
  rewrite Hc, IH. by rewrite <-app_assoc.
Qed.

Lemma duration_loop_pieces ps total has :
  Forall piece_ok ps → (0 ≤ total)%Z → (total + pieces_total ps ≤ u64_max)%Z →
  duration_loop (flat_map piece ps) total [] has =
  Ok ((total + pieces_total ps)%Z, [], has || negb (bool_decide (ps = []))).
Proof.
  intros Hps. revert total has. induction Hps as [|[z c] ps Hp Hps IH]; intros total has Ht Hs.
  { simpl in *. by rewrite Z.add_0_r, orb_false_r. }
  cbn [flat_map pieces_total foldr] in *. fold (pieces_total ps) in *. unfold piece at 1.
  assert (Hpos : (0 ≤ pieces_total ps)%Z).
  { clear -Hps. induction Hps as [|p ps (_ & Hz & _) _ IH]; [done|].
    change (pieces_total (p :: ps)) with (p.1 * unit_weight p.2 + pieces_total ps)%Z.
    assert (0 < unit_weight p.2)%Z by (unfold unit_weight; repeat case_match; lia). nia. }
  pose proof Hp as (_ & Hz & Hm). simpl in Hz, Hm. rewrite <-app_assoc.
  assert (Hw : (1 ≤ unit_weight c)%Z) by (unfold unit_weight; repeat case_match; lia).
  destruct (pretty_Z_digits z ltac:(lia)) as (Hd & Hne & _). rewrite duration_loop_digits by done. simpl.
  destruct (unit_not_digit (z, c) Hp) as (Hnd & _). simpl in Hnd. rewrite Hnd, bool_decide_false by done.
  rewrite of_bytes_bytes, parse_u64_pretty by (split; [lia|nia]).
  rewrite unit_seconds_ok by done. cbn [res_bind]. unfold u64_saturating_add. simpl in Hs.
  rewrite Z.min_r by lia. rewrite IH by lia. simpl. rewrite orb_true_r. do 3 f_equal. lia.
Qed.

(** The components of a printed duration. *)
Definition duration_pieces (secs : Z) : list (Z * ascii) :=
  List.filter (λ p, (0 <? p.1)%Z)
    [((secs / 3600)%Z, "h"%char); (((secs mod 3600) / 60)%Z, "m"%char); ((secs mod 60)%Z, "s"%char)].

Lemma duration_fmt_pieces secs : (0 < secs)%Z → bytes (duration_fmt secs) = flat_map piece (duration_pieces secs).
Proof.
  intros Hs. unfold duration_fmt, duration_pieces. rewrite (proj2 (Z.eqb_neq secs 0)) by lia. cbv zeta.
  assert (Hh : (0 ≤ secs / 3600)%Z) by (apply Z.div_pos; lia).
  assert (Hm : (0 ≤ (secs mod 3600) / 60)%Z) by (apply Z.div_pos; [apply Z.mod_pos_bound|]; lia).
  assert (Hz : (secs / 3600 = 0 → (secs mod 3600) / 60 = 0 → 0 < secs mod 60)%Z).
  { intros E1 E2. apply Z.div_small_iff in E1 as [E1|E1]; [|lia|lia]. rewrite Z.mod_small in E2 by done.
    apply Z.div_small_iff in E2 as [E2|E2]; [|lia|lia]. rewrite Z.mod_small by done. done. }
  cbn [List.filter fst]. rewrite !bytes_app. unfold piece.
  destruct (Z.ltb_spec 0 (secs / 3600)), (Z.ltb_spec 0 ((secs mod 3600) / 60)), (Z.ltb_spec 0 (secs mod 60)),
    (Z.eqb_spec (secs / 3600) 0), (Z.eqb_spec ((secs mod 3600) / 60) 0); try (exfalso; lia);
    cbn [andb orb flat_map fst snd]; rewrite ?bytes_app; cbn [bytes app]; by rewrite ?app_nil_r.
Qed.

(** ** Nothing to trim *)

Definition ascii_word (c : ascii) : Prop := is_ws1 c = false ∧ (N_of_ascii c < 128)%N.

Lemma ascii_word_ws c : ascii_word c → ∀ a b, is_ws2 c a = false ∧ is_ws2 a c = false ∧
  is_ws3 c a b = false ∧ is_ws3 a b c = false.
Proof.
  intros [_ Hc] a b. unfold is_ws2, is_ws3, byte_is, byte_in.
  assert (Hn : ∀ n, (128 ≤ n)%N → (N_of_ascii c =? n)%N = false) by (intros n Hn; apply N.eqb_neq; lia).
  assert (Hl : (128 <=? N_of_ascii c)%N = false) by (apply N.leb_gt; lia).
  rewrite !Hn, Hl by lia. rewrite ?andb_false_r, ?andb_false_l, ?orb_false_r. split_and!; done.
Qed.

Lemma trim_start_id c l : ascii_word c → trim_start_bytes (c :: l) = c :: l.
Proof.
  intros Hc. cbn [trim_start_bytes].
  rewrite (proj1 Hc). destruct l as [|b l]; [done|]. destruct (ascii_word_ws c Hc b b) as (-> & _).
  destruct l as [|d l]; [done|]. by destruct (ascii_word_ws c Hc b d) as (_ & _ & -> & _).
Qed.

Lemma trim_end_id c l : ascii_word c → trim_end_rev (c :: l) = c :: l.
Proof.
  intros Hc. cbn [trim_end_rev]. rewrite (proj1 Hc). destruct l as [|b l]; [done|].
  destruct (ascii_word_ws c Hc b b) as (_ & -> & _). destruct l as [|d l]; [done|].
  by destruct (ascii_word_ws c Hc d b) as (_ & _ & _ & ->).
Qed.

Lemma trim_id s c l l' c' : bytes s = c :: l → bytes s = l' ++ [c'] → ascii_word c → ascii_word c' → trim s = s.
Proof.
  intros E1 E2 Hc Hc'. unfold trim. rewrite E1, trim_start_id, <-E1, E2, rev_app_distr by done.
  cbn [rev app]. rewrite trim_end_id by done. cbn [rev]. by rewrite rev_involutive, <-E2, of_bytes_bytes.
Qed.

Lemma digit_ascii_word c : is_digit c = true → ascii_word c.
Proof.
  unfold is_digit, ascii_word, is_ws1, byte_in, byte_is. rewrite andb_true_iff, !N.leb_le. intros [? ?].
  split; [|lia]. rewrite orb_false_iff, andb_false_iff, !N.leb_gt, N.eqb_neq. lia.
Qed.

Lemma duration_pieces_ok secs :
  (0 < secs ≤ u64_max)%Z → Forall piece_ok (duration_pieces secs) ∧ pieces_total (duration_pieces secs) = secs ∧
  duration_pieces secs ≠ [].
Proof.
  intros Hs. pose proof (Z.div_mod secs 3600 ltac:(lia)) as D1.
  pose proof (Z.div_mod (secs mod 3600) 60 ltac:(lia)) as D2.
  pose proof (Z.mod_pos_bound secs 3600 ltac:(lia)). pose proof (Z.mod_pos_bound secs 60 ltac:(lia)).
  assert (M : ((secs mod 3600) mod 60 = secs mod 60)%Z) by (apply Z.mod_mod_divide; by exists 60%Z).
  assert (0 ≤ (secs mod 3600) / 60)%Z by (apply Z.div_pos; lia).
  assert (0 ≤ secs / 3600)%Z by (apply Z.div_pos; lia). rewrite M in D2.
  assert (Ht : pieces_total (duration_pieces secs) = secs).
  { unfold duration_pieces, pieces_total. cbn [List.filter fst].
    destruct (Z.ltb_spec 0 (secs / 3600)), (Z.ltb_spec 0 ((secs mod 3600) / 60)), (Z.ltb_spec 0 (secs mod 60));
      cbn [foldr fst snd]; unfold unit_weight, byte_is; simpl; lia. }
  split_and!; [|done|intros E; rewrite E in Ht; simpl in Ht; lia].
  apply Forall_forall. intros [z c] [Hin Hz%Z.ltb_lt]%elem_of_lfilter. simpl in Hz.
  apply elem_of_cons in Hin as [[= -> ->]|Hin]; [split_and!; simpl; [set_solver|lia|unfold unit_weight; simpl; lia]|].
  apply elem_of_cons in Hin as [[= -> ->]|Hin]; [split_and!; simpl; [set_solver|lia|unfold unit_weight; simpl; lia]|].
  apply list_elem_of_singleton in Hin as [= -> ->]. split_and!; simpl; [set_solver|lia|unfold unit_weight; simpl; lia].
Qed.

Lemma pieces_last p ps :
  Forall piece_ok (p :: ps) → ∃ l c, flat_map piece (p :: ps) = l ++ [c] ∧ ascii_word c.
Proof.
  revert p. induction ps as [|q ps IH]; intros p Hp; apply Forall_cons in Hp as [Hp Hps].
  - destruct (unit_not_digit p Hp) as (_ & ? & ?). exists (bytes (pretty p.1)), p.2. simpl. by rewrite app_nil_r.
  - destruct (IH q Hps) as (l & c & E & Hc). exists (piece p ++ l), c. cbn [flat_map] in E |- *. by rewrite E, app_assoc.
Qed.

(** Durations round-trip. Every positive [u64] of seconds is printed to
    text the parser reads back as that number, and everything the parser
    accepts is a positive [u64]. *)
Theorem duration_roundtrip secs :
  (0 < secs ≤ u64_max)%Z →
  parse_duration (duration_fmt secs) = Ok secs ∧
  ∀ s n, parse_duration s = Ok n → (0 < n ≤ u64_max)%Z.
Proof.
  intros Hs. split.
  - destruct (duration_pieces_ok secs Hs) as (Hp & Ht & Hne). pose proof (duration_fmt_pieces secs ltac:(lia)) as Hb.
    destruct (duration_pieces secs) as [|[z c] ps] eqn:Eps; [done|]. clear Hne.
    pose proof Hp as Hp'. apply Forall_cons in Hp as [Hpc Hp]. destruct (unit_not_digit (z, c) Hpc) as (Hnd & _). simpl in Hnd.
    destruct (pretty_Z_digits z) as (Hd & Hdne & _); [destruct Hpc as (_ & ? & _); simpl in *; lia|].
    destruct (bytes (pretty z)) as [|d ds] eqn:Ez; [done|]. pose proof Hd as Hd'. apply Forall_cons in Hd' as [Hd1 _].
    destruct (pieces_last (z, c) ps Hp') as (l' & c' & El & Hc'). rewrite <-Hb in El.
    assert (Eh : bytes (duration_fmt secs) = d :: (ds ++ [c]) ++ flat_map piece ps).
    { rewrite Hb. cbn [flat_map]. unfold piece at 1. cbn [fst snd]. by rewrite Ez. }
    unfold parse_duration.
    rewrite (trim_id _ _ _ _ _ Eh El (digit_ascii_word d Hd1) Hc').
    rewrite bool_decide_false by (intros E0; by rewrite E0 in Eh).
    assert (parse_u64 (duration_fmt secs) = None) as ->.
    { unfold parse_u64. rewrite Eh. assert (byte_is 43 d = false) as ->.
      { unfold byte_is, is_digit in *. apply andb_true_iff in Hd1 as [Hd1%N.leb_le _]. apply N.eqb_neq. lia. }
      change (d :: (ds ++ [c]) ++ flat_map piece ps) with ((d :: ds ++ [c]) ++ flat_map piece ps).
      rewrite app_comm_cons, <-app_assoc, span_digits_app by done. done. }
    rewrite Hb, duration_loop_pieces by (done || lia). cbn [res_bind]. rewrite Z.add_0_l, Ht. simpl.
    by rewrite (proj2 (Z.eqb_neq secs 0)) by lia.
  - intros s n. unfold parse_duration. case_bool_decide; [done|]. destruct (parse_u64 (trim s)) as [k|] eqn:Ek.
    + apply parse_u64_range in Ek. destruct (Z.eqb_spec k 0); [done|]. intros [= <-]. unfold is_u64 in Ek. lia.
    + intros ([[t c] h] & Et & E)%res_bind_ok. apply duration_loop_range in Et; [|unfold is_u64, u64_max; lia].
      destruct (negb (bool_decide (c = []))); [done|]. destruct (negb h); [done|]. destruct (Z.eqb_spec t 0); [done|].
      simplify_eq. unfold is_u64 in Et. lia.
Qed.
