(* ===== verification/Leader.v ===== *)
(** * Leader election

    [crates/stroem-server/src/leader.rs] and the [leader:] section of
    [config.rs]: the timing derived from the lease, the handle the background
    tasks ask, the election loop as one function per await-free stretch, and
    the protocol of several replicas against the database as a step relation.
    Fields that only decide what is logged are left out. Time is in
    nanoseconds. *)
From S2P Require Import Prelude.

Local Open Scope Z_scope.

(** ** Timing *)

Definition Instant : Set := Z.
Definition Nanos : Set := Z.

Definition i64_min : Z := -9223372036854775808.
Definition i64_max : Z := 9223372036854775807.

Definition from_millis (ms : Z) : Nanos := ms * 1000000.
Definition from_secs (s : Z) : Nanos := s * 1000000000.
Definition as_millis (d : Nanos) : Z := d / 1000000.

Record LeaderTiming := mkTiming {
  retry_interval : Nanos;
  ping_timeout : Nanos;
  acquire_timeout : Nanos;
  validity : Nanos;
  lease : Nanos;
  release_after : option Nanos;
}.

Definition MAX_RETRY_INTERVAL : Nanos := from_secs 5.
Definition MAX_ACQUIRE_TIMEOUT : Nanos := from_secs 10.

Definition from_lease (lease : Nanos) (release_after : option Nanos) : LeaderTiming :=
  let ms := Z.min u64_max (as_millis lease) in
  let sixth := Z.min (from_millis (ms / 6)) MAX_RETRY_INTERVAL in
  mkTiming sixth sixth (Z.min (from_millis (ms / 3)) MAX_ACQUIRE_TIMEOUT)
    (from_millis (u64_saturating_mul ms 2 / 3)) lease release_after.

(** Which invariant is violated; the messages name the values. *)
Inductive TimingError := ValidityTooShort | ValidityAboveLease | LeaseBelowRetries.

Definition check (t : LeaderTiming) : result TimingError unit :=
  if 2 * ping_timeout t + retry_interval t >=? validity t then Err ValidityTooShort
  else if validity t >=? lease t then Err ValidityAboveLease
  else if lease t <? 3 * retry_interval t then Err LeaseBelowRetries
  else Ok tt.

Record LeaderConfig := mkLeaderConfig { lease_secs : Z; self_release_after_secs : Z }.

Definition MIN_LEADER_LEASE_SECS : Z := 10.
Definition MAX_LEADER_LEASE_SECS : Z := 3600.
Definition MAX_SELF_RELEASE_AFTER_SECS : Z := 3600.

Definition timing (c : LeaderConfig) : LeaderTiming :=
  let after := self_release_after_secs c in
  from_lease (from_secs (lease_secs c)) (if 0 <? after then Some (from_secs after) else None).

Inductive LeaderConfigError := LeaseOutOfRange | SelfReleaseOutOfRange | InvalidTiming (e : TimingError).

Definition validate (c : LeaderConfig) : result LeaderConfigError unit :=
  if negb ((MIN_LEADER_LEASE_SECS <=? lease_secs c) && (lease_secs c <=? MAX_LEADER_LEASE_SECS))
  then Err LeaseOutOfRange
  else if MAX_SELF_RELEASE_AFTER_SECS <? self_release_after_secs c then Err SelfReleaseOutOfRange
  else res_map_err InvalidTiming (check (timing c)).

(** ** The handle *)

Inductive LoopFault := Stalled | Stopped.
Record UnfitLoop := mkUnfitLoop { loop_name : string; fault : LoopFault }.

#[export] Instance LoopFault_eq_dec : EqDecision LoopFault.
Proof. solve_decision. Defined.
#[export] Instance UnfitLoop_eq_dec : EqDecision UnfitLoop.
Proof. solve_decision. Defined.

(** A probe answers at an instant. *)
Definition FitnessProbe : Type := Instant → option UnfitLoop.

Record LeaderElection := mkElection {
  valid_until_ms : Z;
  paused : bool;
  fitness : option FitnessProbe;
}.

Definition with_valid_until (v : Z) : LeaderElection := mkElection v false None.
Definition always : LeaderElection := with_valid_until i64_max.
Definition never : LeaderElection := with_valid_until i64_min.

(** [monotonic_ms] of [state.rs]: milliseconds since the process's epoch. *)
Definition monotonic_ms (epoch now : Instant) : Z := Z.min i64_max (as_millis (Z.max 0 (now - epoch))).

Definition is_leader (now_ms : Z) (l : LeaderElection) : bool := now_ms <? valid_until_ms l.

(** Only the first probe is kept. *)
Definition set_fitness_probe (probe : FitnessProbe) (l : LeaderElection) : LeaderElection :=
  mkElection (valid_until_ms l) (paused l) (Some (default probe (fitness l))).

Definition pause_for_test (p : bool) (l : LeaderElection) : LeaderElection :=
  mkElection (valid_until_ms l) p (fitness l).

(** [i64::saturating_add] of non-negative values *)
Definition renew (sent_ms : Z) (validity : Nanos) (l : LeaderElection) : LeaderElection :=
  let validity_ms := Z.min i64_max (as_millis validity) in
  mkElection (Z.min i64_max (sent_ms + validity_ms)) (paused l) (fitness l).

Definition clear (l : LeaderElection) : LeaderElection := mkElection i64_min (paused l) (fitness l).

(** ** The loop *)

Inductive Action := Release | Ping | StayFollower | Acquire.

Definition next_action (holding : bool) (unfit_for : option Nanos) (release_after : Nanos) : Action :=
  match holding, unfit_for with
  | true, Some d => if release_after <=? d then Release else Ping
  | true, None => Ping
  | false, Some _ => StayFollower
  | false, None => Acquire
  end.

Inductive LeaseStatus := Enforced | Unsupported.

Definition Session : Set := nat.

Record LoopState := mkLoopState {
  conn : option Session;
  unfit : option (UnfitLoop * Instant);
}.

Definition observe_fitness (probe : option FitnessProbe) (release_after : option Nanos) (now : Instant)
    : option UnfitLoop :=
  _ ← release_after; probe ← probe; probe now.

Definition track_fitness (observed : option UnfitLoop) (now : Instant) (st : LoopState) : LoopState :=
  match observed, unfit st with
  | Some u, None => mkLoopState (conn st) (Some (u, now))
  | Some u, Some (before, since) => if u ==? before then st else mkLoopState (conn st) (Some (u, since))
  | None, Some _ => mkLoopState (conn st) None
  | None, None => st
  end.

(** [Duration::MAX]: [u64::MAX] seconds and 999999999 nanoseconds. *)
Definition Duration_MAX : Nanos := u64_max * 1000000000 + 999999999.

(** [iterate] up to its first await: the action, and the state after a
    release. *)
Definition iterate (t : LeaderTiming) (now : Instant) (l : LeaderElection) (st : LoopState)
    : LeaderElection * LoopState * Action :=
  let st1 := track_fitness (observe_fitness (fitness l) (release_after t) now) now st in
  let unfit_for := (λ '(_, since), Z.max 0 (now - since)) <$> unfit st1 in
  let after := default Duration_MAX (release_after t) in
  match next_action (bool_decide (is_Some (conn st1))) unfit_for after with
  | Release => (clear l, mkLoopState None (unfit st1), Release)
  | a => (l, st1, a)
  end.

(** What a query sent on a connection comes to: its answer, an error of the
    connection, or the timeout. *)
Inductive QueryOutcome (A : Type) := Answered (a : A) | Failed | TimedOut.
Arguments Answered {A} a.
Arguments Failed {A}.
Arguments TimedOut {A}.

(** [ping] after its await. *)
Definition ping (t : LeaderTiming) (sent_ms : Z) (outcome : QueryOutcome unit) (l : LeaderElection)
    (st : LoopState) : LeaderElection * LoopState :=
  match outcome with
  | Answered _ => (renew sent_ms (validity t) l, st)
  | Failed | TimedOut => (clear l, mkLoopState None (unfit st))
  end.

(** [acquire] after its await, with what [try_acquire] made of the lock query
    on session [s]. *)
Definition acquire (t : LeaderTiming) (s : Session) (sent_ms : Z) (outcome : QueryOutcome bool)
    (l : LeaderElection) (st : LoopState) : LeaderElection * LoopState :=
  match outcome with
  | Answered true => (renew sent_ms (validity t) l, mkLoopState (Some s) (unfit st))
  | Answered false | Failed | TimedOut => (l, st)
  end.

(** ** Replicas and the database *)

(** Where the loop of a replica stands: asleep between iterations, awaiting
    the reply to a ping, connecting, connected with the lease set, awaiting
    the reply to the lock query, or shut down. A reply is in the slot once the
    database has produced it. *)
Inductive Phase :=
| Sleeping
| Pinging (sent : Instant) (reply : option (QueryOutcome unit))
| Connecting
| Connected (s : Session)
| Locking (s : Session) (sent : Instant) (reply : option (QueryOutcome bool))
| ShutDown.

Record Replica := mkReplica {
  r_timing : LeaderTiming;
  r_epoch : Instant;
  r_leader : LeaderElection;
  r_st : LoopState;
  r_phase : Phase;
}.

(** Why the database ended a session: the client dropped the connection, the
    idle timeout of the lease, or anything else (a crash, an administrator). *)
Inductive EndCause := ClientClosed | IdleTimeout | Lost.

Record SessionState := mkSession { last_query : Instant; idle_timeout : option Nanos }.

Record System := mkSystem {
  now : Instant;
  replicas : gmap nat Replica;
  holder : option Session;
  sessions : gmap Session SessionState;
  ended : gmap Session (Instant * EndCause);
}.

Definition uses (r : Replica) (s : Session) : Prop :=
  conn (r_st r) = Some s ∨ r_phase r = Connected s ∨ ∃ t x, r_phase r = Locking s t x.

Definition unused (sys : System) (s : Session) : Prop := ∀ i r, replicas sys !! i = Some r → ¬ uses r s.

Definition put_replica (i : nat) (r : Replica) (sys : System) : System :=
  mkSystem (now sys) (<[i := r]> (replicas sys)) (holder sys) (sessions sys) (ended sys).

(** A query reaches session [s]: its idle timer starts again. *)
Definition touch (s : Session) (sys : System) : System :=
  mkSystem (now sys) (replicas sys) (holder sys)
    (alter (λ x, mkSession (now sys) (idle_timeout x)) s (sessions sys)) (ended sys).

(** [pg_try_advisory_lock] on session [s]. *)
Definition try_lock (s : Session) (sys : System) : System * bool :=
  match holder sys with
  | None => (mkSystem (now sys) (replicas sys) (Some s) (sessions sys) (ended sys), true)
  | Some _ => (sys, false)
  end.

(** A query on session [s]: it is served when the session is live. *)
Definition serve_ping (s : Session) (sys : System) : System * QueryOutcome unit :=
  match sessions sys !! s with Some _ => (touch s sys, Answered tt) | None => (sys, Failed) end.
Definition serve_lock (s : Session) (sys : System) : System * QueryOutcome bool :=
  match sessions sys !! s with
  | Some _ => let '(sys', got) := try_lock s (touch s sys) in (sys', Answered got)
  | None => (sys, Failed)
  end.

Definition end_session (s : Session) (c : EndCause) (sys : System) : System :=
  mkSystem (now sys) (replicas sys) (if holder sys ==? Some s then None else holder sys)
    (delete s (sessions sys)) (<[s := (now sys, c)]> (ended sys)).

Definition after_iterate (a : Action) (now : Instant) : Phase :=
  match a with Ping => Pinging now None | Acquire => Connecting | Release | StayFollower => Sleeping end.

Definition lease_of (ls : LeaseStatus) (t : LeaderTiming) : option Nanos :=
  match ls with Enforced => Some (lease t) | Unsupported => None end.

Inductive step : System → System → Prop :=
| step_time sys t : now sys ≤ t →
    step sys (mkSystem t (replicas sys) (holder sys) (sessions sys) (ended sys))
| step_start sys i t l : replicas sys !! i = None → check t = Ok tt → valid_until_ms l = i64_min →
    step sys (put_replica i (mkReplica t (now sys) l (mkLoopState None None) Sleeping) sys)
| step_probe sys i r probe : replicas sys !! i = Some r →
    step sys (put_replica i (mkReplica (r_timing r) (r_epoch r) (set_fitness_probe probe (r_leader r)) (r_st r) (r_phase r)) sys)
| step_pause sys i r p : replicas sys !! i = Some r →
    step sys (put_replica i (mkReplica (r_timing r) (r_epoch r) (pause_for_test p (r_leader r)) (r_st r) (r_phase r)) sys)
| step_iterate sys i r l st a :
    replicas sys !! i = Some r → r_phase r = Sleeping → paused (r_leader r) = false →
    iterate (r_timing r) (now sys) (r_leader r) (r_st r) = (l, st, a) →
    step sys (put_replica i (mkReplica (r_timing r) (r_epoch r) l st (after_iterate a (now sys))) sys)
| step_connect sys i r s ls :
    replicas sys !! i = Some r → r_phase r = Connecting → sessions sys !! s = None → ended sys !! s = None →
    step sys (mkSystem (now sys)
      (<[i := mkReplica (r_timing r) (r_epoch r) (r_leader r) (r_st r) (Connected s)]> (replicas sys)) (holder sys)
      (<[s := mkSession (now sys) (lease_of ls (r_timing r))]> (sessions sys)) (ended sys))
| step_connect_fails sys i r :
    replicas sys !! i = Some r → r_phase r = Connecting →
    step sys (put_replica i (mkReplica (r_timing r) (r_epoch r) (r_leader r) (r_st r) Sleeping) sys)
| step_send_lock sys i r s :
    replicas sys !! i = Some r → r_phase r = Connected s →
    step sys (put_replica i (mkReplica (r_timing r) (r_epoch r) (r_leader r) (r_st r) (Locking s (now sys) None)) sys)
| step_serve_ping sys i r s t sys' reply :
    replicas sys !! i = Some r → r_phase r = Pinging t None → conn (r_st r) = Some s →
    serve_ping s sys = (sys', reply) →
    step sys (put_replica i (mkReplica (r_timing r) (r_epoch r) (r_leader r) (r_st r) (Pinging t (Some reply))) sys')
| step_serve_lock sys i r s t sys' reply :
    replicas sys !! i = Some r → r_phase r = Locking s t None →
    serve_lock s sys = (sys', reply) →
    step sys (put_replica i (mkReplica (r_timing r) (r_epoch r) (r_leader r) (r_st r) (Locking s t (Some reply))) sys')
| step_ping_done sys i r t reply outcome l st :
    replicas sys !! i = Some r → r_phase r = Pinging t reply →
    reply = Some outcome ∨ outcome = Failed ∨ outcome = TimedOut ∧ ping_timeout (r_timing r) ≤ now sys - t →
    ping (r_timing r) (monotonic_ms (r_epoch r) t) outcome (r_leader r) (r_st r) = (l, st) →
    step sys (put_replica i (mkReplica (r_timing r) (r_epoch r) l st Sleeping) sys)
| step_acquire_done sys i r s t reply outcome l st :
    replicas sys !! i = Some r → r_phase r = Locking s t reply →
    reply = Some outcome ∨ outcome = Failed ∨ outcome = TimedOut →
    acquire (r_timing r) s (monotonic_ms (r_epoch r) t) outcome (r_leader r) (r_st r) = (l, st) →
    step sys (put_replica i (mkReplica (r_timing r) (r_epoch r) l st Sleeping) sys)
| step_cancel sys i r :
    replicas sys !! i = Some r →
    step sys (put_replica i (mkReplica (r_timing r) (r_epoch r) (clear (r_leader r))
      (mkLoopState None (unfit (r_st r))) ShutDown) sys)
(** Queries of a connection the client has dropped may still be served. *)
| step_late_query sys s :
    is_Some (sessions sys !! s) → unused sys s → step sys (touch s sys)
| step_late_lock sys s :
    is_Some (sessions sys !! s) → unused sys s → step sys (try_lock s (touch s sys)).1
| step_closed sys s :
    is_Some (sessions sys !! s) → unused sys s → step sys (end_session s ClientClosed sys)
| step_idle sys s x l :
    sessions sys !! s = Some x → idle_timeout x = Some l → last_query x + l ≤ now sys →
    step sys (end_session s IdleTimeout sys)
| step_lost sys s : is_Some (sessions sys !! s) → step sys (end_session s Lost sys).

(** Before any replica has started. *)
Definition initial (t : Instant) : System := mkSystem t ∅ None ∅ ∅.

Definition reachable (sys : System) : Prop := ∃ t, rtc step (initial t) sys.

(** Replica [r] acts as the leader. *)
Definition leads (sys : System) (r : Replica) : Prop :=
  is_leader (monotonic_ms (r_epoch r) (now sys)) (r_leader r) = true.

(** ** Leadership is backed by the lock *)

(** The session [s] has the lock, with a query at or after [t]; or it was
    ended after that, by its lease at the earliest. *)
Definition backed (sys : System) (tm : LeaderTiming) (t : Instant) (s : Session) : Prop :=
  t ≤ now sys ∧
  ((holder sys = Some s ∧ ∃ x, sessions sys !! s = Some x ∧ t ≤ last_query x ∧
      (idle_timeout x = None ∨ idle_timeout x = Some (lease tm))) ∨
   sessions sys !! s = None ∧ ∃ te c, ended sys !! s = Some (te, c) ∧ te ≤ now sys ∧
      (c = IdleTimeout ∧ t + lease tm ≤ te ∨ c = Lost ∧ t ≤ te)).

(** A session the replica has opened for the lock. *)
Definition opened (sys : System) (tm : LeaderTiming) (s : Session) : Prop :=
  match sessions sys !! s with
  | Some x => idle_timeout x = None ∨ idle_timeout x = Some (lease tm)
  | None => is_Some (ended sys !! s)
  end.

Definition valid_from (r : Replica) (t : Instant) : Prop :=
  valid_until_ms (r_leader r) ≤ Z.min i64_max (monotonic_ms (r_epoch r) t + as_millis (validity (r_timing r))).

Record replica_ok (sys : System) (r : Replica) : Prop := {
  ok_timing : check (r_timing r) = Ok tt;
  ok_epoch : r_epoch r ≤ now sys;
  (** without a connection the handle is cleared *)
  ok_follower : conn (r_st r) = None → valid_until_ms (r_leader r) = i64_min;
  (** with one, it is valid from an instant the session backs *)
  ok_leader s : conn (r_st r) = Some s →
    ∃ t, r_epoch r ≤ t ∧ valid_from r t ∧ backed sys (r_timing r) t s;
  ok_ping t reply : r_phase r = Pinging t reply → ∃ s, conn (r_st r) = Some s ∧ r_epoch r ≤ t ∧ t ≤ now sys ∧
    (reply = Some (Answered tt) → backed sys (r_timing r) t s);
  ok_connecting : r_phase r = Connecting → conn (r_st r) = None;
  ok_connected s : r_phase r = Connected s → conn (r_st r) = None ∧ opened sys (r_timing r) s;
  ok_locking s t reply : r_phase r = Locking s t reply → conn (r_st r) = None ∧ opened sys (r_timing r) s ∧
    r_epoch r ≤ t ∧ t ≤ now sys ∧ (reply = Some (Answered true) → backed sys (r_timing r) t s);
}.

Record system_ok (sys : System) : Prop := {
  ok_replicas i r : replicas sys !! i = Some r → replica_ok sys r;
  ok_unique i j r1 r2 s : replicas sys !! i = Some r1 → replicas sys !! j = Some r2 →
    uses r1 s → uses r2 s → i = j;
  ok_holder s : holder sys = Some s → is_Some (sessions sys !! s);
  ok_ended s : is_Some (ended sys !! s) → sessions sys !! s = None;
  ok_last s x : sessions sys !! s = Some x → last_query x ≤ now sys;
}.

(** What may happen to a session somebody uses. *)
Record evolves (sys sys' : System) (s : Session) : Prop := {
  ev_now : now sys ≤ now sys';
  ev_ended : sessions sys !! s = None → sessions sys' !! s = None ∧
    ∀ v, ended sys !! s = Some v → ended sys' !! s = Some v;
  ev_live x : sessions sys !! s = Some x →
    (∃ x', sessions sys' !! s = Some x' ∧ last_query x ≤ last_query x' ∧ idle_timeout x' = idle_timeout x ∧
       (holder sys = Some s → holder sys' = Some s)) ∨
    (sessions sys' !! s = None ∧ ∃ te c, ended sys' !! s = Some (te, c) ∧ last_query x ≤ te ≤ now sys' ∧
       (c = Lost ∨ c = IdleTimeout ∧ ∃ l, idle_timeout x = Some l ∧ last_query x + l ≤ te));
}.

Lemma backed_evolves sys sys' tm t s : evolves sys sys' s → backed sys tm t s → backed sys' tm t s.
Proof.
  intros [Hn He Hl] [Ht [(Hh & x & Hx & Hq & Hi)|(Hx & te & c & Hte & Hle & Hc)]]; (split; [lia|]).
  - destruct (Hl x Hx) as [(x' & Hx' & Hq' & Hi' & Hh')|(Hx' & te & c & Hte & Hb & Hc)].
    + left. split; [auto|]. exists x'. rewrite Hi'. split_and!; [done|lia|done].
    + right. split; [done|]. exists te, c. split_and!; [done|lia|].
      destruct Hc as [->|(-> & l & El & Hll)]; [right; split; [done|lia]|left].
      rewrite El in Hi. destruct Hi as [|[= ->]]; [done|]. split; [done|lia].
  - right. destruct (He Hx) as [Hx' He']. split; [done|]. exists te, c. split_and!; [by apply He'|lia|done].
Qed.

Lemma opened_evolves sys sys' tm s : evolves sys sys' s → opened sys tm s → opened sys' tm s.
Proof.
  intros [Hn He Hl]. unfold opened. destruct (sessions sys !! s) as [x|] eqn:Hx.
  - destruct (Hl x eq_refl) as [(x' & Hx' & _ & Hi & _)|(Hx' & te & c & He' & _)]; rewrite Hx'; [by rewrite Hi|].
    intros _. by exists (te, c).
  - destruct (He eq_refl) as [Hx' He']. rewrite Hx'. intros [v Hv]. exists v. by apply He'.
Qed.

Lemma replica_ok_evolves sys sys' r :
  now sys ≤ now sys' → (∀ s, uses r s → evolves sys sys' s) → replica_ok sys r → replica_ok sys' r.
Proof.
  intros Hn Hev [H1 H2 H3 H4 H5 H6 H7 H8]. split; [done|lia|done| | |done| |].
  - intros s Hs. destruct (H4 s Hs) as (t & Ht & Hv & Hb). exists t. split_and!; [done|done|].
    eapply backed_evolves; [apply Hev; by left|done].
  - intros t reply Hp. destruct (H5 t reply Hp) as (s & Hs & Ht & Hle & Hb). exists s. split_and!; [done|done|lia|].
    intros Hr. eapply backed_evolves; [apply Hev; by left|auto].
  - intros s Hp. destruct (H7 s Hp) as [Hc Ho]. split; [done|].
    eapply opened_evolves; [|done]. apply Hev. by right; left.
  - intros s t reply Hp. destruct (H8 s t reply Hp) as (Hc & Ho & Ht & Hle & Hb).
    assert (evolves sys sys' s) by (apply Hev; right; right; eauto).
    split_and!; [done|by eapply opened_evolves|done|lia|]. intros Hr. eapply backed_evolves; eauto.
Qed.

(** The sessions of a replica are known to the database. *)
Lemma used_known sys r s :
  replica_ok sys r → uses r s → is_Some (sessions sys !! s) ∨ is_Some (ended sys !! s).
Proof.
  intros Hr. assert (Ho : ∀ s, opened sys (r_timing r) s → is_Some (sessions sys !! s) ∨ is_Some (ended sys !! s)).
  { intros s'. unfold opened. destruct (sessions sys !! s'); eauto. }
  intros [Hs|[Hs|(t & x & Hs)]].
  - destruct (ok_leader _ _ Hr s Hs) as (t & _ & _ & _ & [(_ & x & Hx & _)|(_ & te & c & He & _)]); eauto.
  - by apply Ho, (ok_connected _ _ Hr).
  - by apply Ho, (ok_locking _ _ Hr s t x).
Qed.

(** The database's own part of the invariant. *)
Definition db_ok (sys : System) : Prop :=
  (∀ s, holder sys = Some s → is_Some (sessions sys !! s)) ∧
  (∀ s, is_Some (ended sys !! s) → sessions sys !! s = None) ∧
  (∀ s x, sessions sys !! s = Some x → last_query x ≤ now sys).

Lemma system_db_ok sys : system_ok sys → db_ok sys.
Proof. intros [_ _ H1 H2 H3]. done. Qed.

(** A step of the database alone. *)
Lemma db_moves sys sys' :
  system_ok sys → replicas sys' = replicas sys → now sys ≤ now sys' → db_ok sys' →
  (∀ i r s, replicas sys !! i = Some r → uses r s → evolves sys sys' s) → system_ok sys'.
Proof.
  intros Hok Hr Hn (D1 & D2 & D3) Hev. split; [| |done..]; rewrite Hr.
  - intros i r Hi. eapply replica_ok_evolves; [done| |by eapply ok_replicas]. intros s Hs. by eapply Hev.
  - apply ok_unique, Hok.
Qed.

(** A step of one replica, with what the database makes of it. *)
Lemma replica_moves sys sys' i r r' :
  system_ok sys → replicas sys' = replicas sys → now sys ≤ now sys' → db_ok sys' →
  (∀ j rj s, replicas sys !! j = Some rj → uses rj s → evolves sys sys' s) →
  replicas sys !! i = Some r → replica_ok sys' r' →
  (∀ s, uses r' s → uses r s ∨ ∀ j rj, replicas sys !! j = Some rj → ¬ uses rj s) →
  system_ok (put_replica i r' sys').
Proof.
  intros Hok Hr Hn (D1 & D2 & D3) Hev Hi Hr' Hu.
  assert (Hne : ∀ j rj s, j ≠ i → replicas sys !! j = Some rj → uses rj s → ¬ uses r' s).
  { intros j rj s Hj Hrj Hs Hs'. destruct (Hu s Hs') as [Hs2|Hf]; [|by eapply Hf].
    apply Hj. by apply (ok_unique _ Hok j i rj r s). }
  split; simpl; [| |done..]; rewrite Hr.
  - intros j rj. rewrite lookup_insert_Some. intros [[<- <-]|[Hj Hrj]].
    + destruct Hr'. by split.
    + eapply (replica_ok_evolves sys); [done| |by eapply ok_replicas]. intros s Hs.
      destruct (Hev j rj s Hrj Hs). split; done.
  - intros j k r1 r2 s. rewrite !lookup_insert_Some.
    intros [[<- <-]|[Hj H1]] [[<- <-]|[Hk H2]] U1 U2; [done|..|by eapply ok_unique].
    + by destruct (Hne k r2 s (not_eq_sym Hk) H2 U2).
    + by destruct (Hne j r1 s (not_eq_sym Hj) H1 U1).
Qed.

(** ** The invariant is kept *)

Lemma evolves_same sys sys' s :
  now sys ≤ now sys' → holder sys' = holder sys → sessions sys' = sessions sys → ended sys' = ended sys →
  evolves sys sys' s.
Proof.
  intros Hn Hh Hs He. split; [done|by rewrite Hs, He|]. intros x Hx. left. exists x. rewrite Hs, Hh. done.
Qed.

Lemma evolves_touch sys s0 s : db_ok sys → evolves sys (touch s0 sys) s.
Proof.
  intros (_ & _ & D3). split; simpl; [done| |].
  - intros Hs. split; [|done]. destruct (decide (s0 = s)) as [->|]; [|by rewrite lookup_alter_ne].
    by rewrite lookup_alter_eq, Hs.
  - intros x Hx. left. destruct (decide (s0 = s)) as [->|Hne].
    + eexists. rewrite lookup_alter_eq, Hx. simpl. split_and!; [done|by eapply D3|done..].
    + exists x. by rewrite lookup_alter_ne.
Qed.

Lemma evolves_trans_lock sys sys1 s0 s : evolves sys sys1 s → evolves sys (try_lock s0 sys1).1 s.
Proof.
  intros Hev. unfold try_lock. destruct (holder sys1) as [h|] eqn:Hh; cbn [fst]; [exact Hev|].
  destruct Hev as [Hn He Hl].
  split; cbn; [done|done|]. intros x Hx. destruct (Hl x Hx) as [(x' & ? & ? & ? & Hk)|?]; [left|by right].
  exists x'. split_and!; [done..|]. intros Hs. specialize (Hk Hs). congruence.
Qed.

Lemma evolves_end sys s0 c s :
  db_ok sys → (∀ x, sessions sys !! s0 = Some x → c = Lost ∨ c = IdleTimeout ∧
     ∃ l, idle_timeout x = Some l ∧ last_query x + l ≤ now sys) → is_Some (sessions sys !! s0) →
  evolves sys (end_session s0 c sys) s.
Proof.
  intros (_ & D2 & D3) Hc [x0 Hx0]. split; simpl; [done| |].
  - intros Hs. assert (s0 ≠ s) by congruence. rewrite lookup_delete_ne, lookup_insert_ne by done. done.
  - intros x Hx. destruct (decide (s0 = s)) as [->|Hne].
    + right. rewrite lookup_delete_eq. split; [done|]. exists (now sys), c. rewrite lookup_insert_eq.
      split_and!; [done|by eapply D3|done|]. by apply Hc.
    + left. exists x. rewrite lookup_delete_ne by done. split_and!; [done..|].
      intros Hh. rewrite Hh. by rewrite bool_decide_false by congruence.
Qed.

Lemma evolves_end_other sys s0 c s : s0 ≠ s → evolves sys (end_session s0 c sys) s.
Proof.
  intros Hne. split; simpl; [done|by rewrite lookup_delete_ne, lookup_insert_ne|]. intros x Hx. left. exists x.
  rewrite lookup_delete_ne by done. split_and!; [done..|]. intros Hh. rewrite Hh.
  by rewrite bool_decide_false by congruence.
Qed.

Lemma db_ok_touch sys s : db_ok sys → db_ok (touch s sys).
Proof.
  intros (D1 & D2 & D3). unfold db_ok, touch; simpl. split_and!.
  - intros s' Hs. rewrite lookup_alter_is_Some. auto.
  - intros s' He. destruct (decide (s = s')) as [->|]; [|rewrite lookup_alter_ne by done; auto].
    by rewrite lookup_alter_eq, (D2 _ He).
  - intros s' x. rewrite lookup_alter_Some. intros [(<- & y & Hy & ->)|[_ Hx]]; [done|by eapply D3].
Qed.

Lemma db_ok_try_lock sys s : db_ok sys → is_Some (sessions sys !! s) → db_ok (try_lock s sys).1.
Proof.
  intros (D1 & D2 & D3) Hs. unfold try_lock. destruct (holder sys) as [h|] eqn:Hh; simpl; [by split_and!; rewrite ?Hh|].
  split_and!; simpl; [|done..]. by intros s' [= <-].
Qed.

Lemma db_ok_end sys s c : db_ok sys → is_Some (sessions sys !! s) → db_ok (end_session s c sys).
Proof.
  intros (D1 & D2 & D3) Hs. unfold db_ok; simpl. split_and!.
  - intros s'. case_bool_decide as Hh; [done|]. intros E. rewrite lookup_delete_ne by congruence. auto.
  - intros s'. rewrite lookup_insert_is_Some. intros [->|[Hne He]]; [apply lookup_delete_eq|].
    rewrite lookup_delete_ne by done. auto.
  - intros s' x [_ Hx]%lookup_delete_Some. by eapply D3.
Qed.

Lemma sessions_touch sys s s' : is_Some (sessions (touch s sys) !! s') ↔ is_Some (sessions sys !! s').
Proof. simpl. by rewrite lookup_alter_is_Some. Qed.

Lemma replica_moves_alone sys i r r' :
  system_ok sys → replicas sys !! i = Some r → replica_ok sys r' → (∀ s, uses r' s → uses r s) →
  system_ok (put_replica i r' sys).
Proof.
  intros Hok Hi Hr' Hu. apply (replica_moves sys sys i r r'); [done|done|done|by apply system_db_ok| |done|done|].
  - intros. by apply evolves_same.
  - intros s Hs. left. auto.
Qed.

(** A replica that gave its connection up. *)
Lemma replica_ok_dropped sys r l u p :
  replica_ok sys r → valid_until_ms l = i64_min → p = Sleeping ∨ p = ShutDown →
  replica_ok sys (mkReplica (r_timing r) (r_epoch r) l (mkLoopState None u) p).
Proof. intros [H1 H2 _ _ _ _ _ _] Hl Hp. by split; simpl; destruct Hp; subst. Qed.

(** The handle's other fields and the fitness do not matter. *)
Lemma replica_ok_handle sys r l u :
  replica_ok sys r → valid_until_ms l = valid_until_ms (r_leader r) →
  replica_ok sys (mkReplica (r_timing r) (r_epoch r) l (mkLoopState (conn (r_st r)) u) (r_phase r)).
Proof.
  intros [H1 H2 H3 H4 H5 H6 H7 H8] Hl. split; simpl; try done; rewrite ?Hl; [done|].
  intros s Hs. destruct (H4 s Hs) as (t & Ht & Hv & Hb). exists t. split_and!; [done| |done].
  unfold valid_from in *. simpl. by rewrite Hl.
Qed.

Lemma track_fitness_conn o t st : conn (track_fitness o t st) = conn st.
Proof. unfold track_fitness. repeat case_match; done. Qed.

Lemma iterate_ok sys r l st a :
  replica_ok sys r → r_phase r = Sleeping → iterate (r_timing r) (now sys) (r_leader r) (r_st r) = (l, st, a) →
  replica_ok sys (mkReplica (r_timing r) (r_epoch r) l st (after_iterate a (now sys))) ∧
  (conn st = None ∨ conn st = conn (r_st r)).
Proof.
  intros Hr Hp. unfold iterate. set (st1 := track_fitness _ _ _).
  assert (Ec : conn st1 = conn (r_st r)) by apply track_fitness_conn.
  pose proof (replica_ok_handle sys r (r_leader r) (unfit st1) Hr eq_refl) as Hok. rewrite <-Ec in Hok.
  destruct (conn st1) as [s|] eqn:Es.
  - rewrite bool_decide_true by done.
    assert (Hping : replica_ok sys (mkReplica (r_timing r) (r_epoch r) (r_leader r) st1 (Pinging (now sys) None))).
    { destruct Hok as [H1 H2 H3 H4 _ _ _ _]. simpl in *. split; simpl; try done; [by rewrite Es..|].
      intros t reply [= <- <-]. by exists s. }
    match goal with |- context [next_action _ ?d _] => destruct d as [d'|]; simpl end;
      [destruct (_ <=? d')|]; intros [= <- <- <-]; simpl.
    + split; [|by left]. apply (replica_ok_dropped sys r); [done|done|by left].
    + split; [done|by right; rewrite Es].
    + split; [done|by right; rewrite Es].
  - rewrite bool_decide_false by (intros [? ?]; done).
    assert (st1 = mkLoopState None (unfit st1)) as Est by (destruct st1; simpl in *; by subst).
    match goal with |- context [next_action _ ?d _] => destruct d as [d'|]; simpl end;
      intros [= <- <- <-]; rewrite Est; simpl; (split; [|by left]);
      destruct Hok as [H1 H2 H3 H4 _ _ _ _]; by split.
Qed.

(** Renewing from an instant the session backs. *)
Lemma renew_ok sys r t s u :
  replica_ok sys r → r_epoch r ≤ t → backed sys (r_timing r) t s →
  replica_ok sys (mkReplica (r_timing r) (r_epoch r)
    (renew (monotonic_ms (r_epoch r) t) (validity (r_timing r)) (r_leader r)) (mkLoopState (Some s) u) Sleeping).
Proof.
  intros [H1 H2 _ _ _ _ _ _] Ht Hb. split; simpl; try done. intros s' [= <-]. exists t. split_and!; [done| |done].
  unfold valid_from. simpl. lia.
Qed.

Lemma serve_ping_ok sys i r s t sys' reply :
  system_ok sys → replicas sys !! i = Some r → r_phase r = Pinging t None → conn (r_st r) = Some s →
  serve_ping s sys = (sys', reply) →
  system_ok (put_replica i (mkReplica (r_timing r) (r_epoch r) (r_leader r) (r_st r) (Pinging t (Some reply))) sys').
Proof.
  intros Hok Hi Hp Hs E. assert (Hr : replica_ok sys r) by by eapply ok_replicas.
  pose proof (system_db_ok _ Hok) as Hdb. pose proof (ok_ping _ _ Hr t None Hp) as (s' & Hs' & Ht & Hle & _).
  rewrite Hs in Hs'. injection Hs' as <-. unfold serve_ping in E.
  destruct (ok_leader _ _ Hr s Hs) as (t0 & Ht0 & Hv & Hb).
  assert (Hu : ∀ p s0, uses (mkReplica (r_timing r) (r_epoch r) (r_leader r) (r_st r) (Pinging t p)) s0 → uses r s0).
  { intros p s0 [H|[H|(x & y & H)]]; simpl in H; [by left|discriminate..]. }
  destruct (sessions sys !! s) as [x|] eqn:Hx; injection E as <- <-.
  - apply (replica_moves sys _ i r); [done|done|done|by apply db_ok_touch| |done| |].
    + intros. by apply evolves_touch.
    + pose proof (evolves_touch sys s s Hdb) as Hev.
      assert (replica_ok (touch s sys) r) as [H1 H2 H3 H4 _ _ _ _].
      { eapply replica_ok_evolves; [|intros; by apply evolves_touch|done]. done. }
      split; simpl; try done. intros t1 rep [= <- <-]. exists s. split_and!; [done|done|done|]. intros _.
      destruct Hb as [_ [(Hh & x' & Hx' & _ & Hi')|(Hn & _)]]; [|congruence].
      split; [done|]. left. split; [done|]. eexists. simpl. rewrite lookup_alter_eq, Hx. split_and!; [done|done|].
      rewrite Hx in Hx'. by injection Hx' as <-.
    + intros s0 H0. left. by eapply Hu.
  - apply (replica_moves_alone _ _ r); [done|done| |by apply Hu].
    destruct Hr as [H1 H2 H3 H4 _ _ _ _]. split; simpl; try done. intros t1 rep [= <- <-]. by exists s.
Qed.

Lemma serve_lock_ok sys i r s t sys' reply :
  system_ok sys → replicas sys !! i = Some r → r_phase r = Locking s t None → serve_lock s sys = (sys', reply) →
  system_ok (put_replica i (mkReplica (r_timing r) (r_epoch r) (r_leader r) (r_st r) (Locking s t (Some reply))) sys').
Proof.
  intros Hok Hi Hp E. assert (Hr : replica_ok sys r) by by eapply ok_replicas.
  pose proof (system_db_ok _ Hok) as Hdb. destruct (ok_locking _ _ Hr s t None Hp) as (Hc & Ho & Ht & Hle & _).
  assert (Hu : ∀ p s0, uses (mkReplica (r_timing r) (r_epoch r) (r_leader r) (r_st r) (Locking s t p)) s0 → uses r s0).
  { intros p s0 [H|[H|(x & y & H)]]; simpl in H; [by left|done|]. injection H as -> -> ->. right; right; eauto. }
  unfold serve_lock in E. destruct (sessions sys !! s) as [x|] eqn:Hx.
  2:{ injection E as <- <-. apply (replica_moves_alone _ _ r); [done|done| |by apply Hu].
      destruct Hr as [H1 H2 H3 H4 _ _ _ _]. split; simpl; try done. by intros s1 t1 rep [= <- <- <-]. }
  destruct (try_lock s (touch s sys)) as [sys1 got] eqn:Et. injection E as <- <-.
  assert (E1 : sys1 = (try_lock s (touch s sys)).1) by by rewrite Et.
  assert (Hev : ∀ s0, evolves sys sys1 s0) by (intros s0; rewrite E1; by apply evolves_trans_lock, evolves_touch).
  assert (Hsame : replicas sys1 = replicas sys ∧ now sys1 = now sys).
  { rewrite E1. unfold try_lock. by case_match. }
  destruct Hsame as [Hs1 Hs2].
  apply (replica_moves sys _ i r); [done|done|by rewrite Hs2| | |done| |].
  - rewrite E1. apply db_ok_try_lock; [by apply db_ok_touch|]. apply sessions_touch. by exists x.
  - intros. apply Hev.
  - assert (replica_ok sys1 r) as [H1 H2 H3 H4 _ _ _ _].
    { apply (replica_ok_evolves sys); [by rewrite Hs2| |done]. intros s0 _. apply Hev. }
    split; simpl; try done. intros s1 t1 rep [= <- <- <-]. split_and!; [done| |done|by rewrite Hs2|].
    + by apply (opened_evolves sys).
    + intros [= ->]. unfold try_lock in Et. destruct (holder (touch s sys)); [done|]. injection Et as <-.
      split; [done|]. left. split; [done|]. eexists. simpl. rewrite lookup_alter_eq, Hx. split_and!; [done|done|].
      unfold opened in Ho. by rewrite Hx in Ho.
  - intros s0 H0. left. by eapply Hu.
Qed.

Lemma connect_ok sys i r s ls :
  system_ok sys → replicas sys !! i = Some r → r_phase r = Connecting →
  sessions sys !! s = None → ended sys !! s = None →
  system_ok (mkSystem (now sys)
    (<[i := mkReplica (r_timing r) (r_epoch r) (r_leader r) (r_st r) (Connected s)]> (replicas sys)) (holder sys)
    (<[s := mkSession (now sys) (lease_of ls (r_timing r))]> (sessions sys)) (ended sys)).
Proof.
  intros Hok Hi Hp Hs He. pose proof (system_db_ok _ Hok) as (D1 & D2 & D3).
  set (sys1 := mkSystem (now sys) (replicas sys) (holder sys)
    (<[s := mkSession (now sys) (lease_of ls (r_timing r))]> (sessions sys)) (ended sys)).
  assert (Hfresh : ∀ j rj, replicas sys !! j = Some rj → ¬ uses rj s).
  { intros j rj Hj Hu. destruct (used_known sys rj s) as [[? E]|[? E]]; [by eapply ok_replicas|done|congruence..]. }
  assert (Hev : ∀ s0, s0 ≠ s → evolves sys sys1 s0).
  { intros s0 Hne. split; simpl; [done|by rewrite lookup_insert_ne|]. intros x Hx. left. exists x.
    by rewrite lookup_insert_ne. }
  apply (replica_moves sys sys1 i r); [done|done|done| | |done| |].
  - split_and!; simpl.
    + intros s0 H0. rewrite lookup_insert_is_Some. destruct (decide (s = s0)); [by left|right; auto].
    + intros s0 H0. rewrite lookup_insert_ne; [by apply D2|]. intros ->. rewrite He in H0. by destruct H0.
    + intros s0 x. rewrite lookup_insert_Some. intros [[<- <-]|[_ Hx]]; [done|by eapply D3].
  - intros j rj s0 Hj Hu. apply Hev. intros ->. by eapply Hfresh.
  - assert (Hr : replica_ok sys r) by by eapply ok_replicas.
    assert (replica_ok sys1 r) as [H1 H2 H3 H4 _ H6 _ _].
    { apply (replica_ok_evolves sys); [done| |done]. intros s0 Hu. apply Hev. intros ->. by eapply Hfresh. }
    split; simpl; try done. intros s0 [= <-]. split; [auto|]. unfold opened. simpl. rewrite lookup_insert_eq. simpl.
    destruct ls; [by right|by left].
  - intros s0 [Hu|[[= <-]|(x & y & Hu)]]; simpl in *; [left; by left|by right|done].
Qed.

Lemma ping_done_ok sys i r t reply outcome l st :
  system_ok sys → replicas sys !! i = Some r → r_phase r = Pinging t reply →
  reply = Some outcome ∨ outcome = Failed ∨ outcome = TimedOut →
  ping (r_timing r) (monotonic_ms (r_epoch r) t) outcome (r_leader r) (r_st r) = (l, st) →
  system_ok (put_replica i (mkReplica (r_timing r) (r_epoch r) l st Sleeping) sys).
Proof.
  intros Hok Hi Hp Ho E. assert (Hr : replica_ok sys r) by by eapply ok_replicas.
  destruct (ok_ping _ _ Hr t reply Hp) as (s & Hs & Ht & _ & Hb).
  assert (Hd : replica_ok sys (mkReplica (r_timing r) (r_epoch r) (clear (r_leader r)) (mkLoopState None (unfit (r_st r))) Sleeping))
    by (apply replica_ok_dropped; [done|done|by left]).
  destruct outcome as [[]| |]; injection E as <- <-; apply (replica_moves_alone _ _ r); try done.
  - destruct Ho as [->|[|]]; [|done..]. destruct (r_st r) as [c u] eqn:Est. simpl in Hs. subst c.
    by apply renew_ok; [..|apply Hb].
  - intros s0 [H|[H|(x & y & H)]]; simpl in H; [by left|done..].
  - intros s0 [H|[H|(x & y & H)]]; simpl in H; done.
  - intros s0 [H|[H|(x & y & H)]]; simpl in H; done.
Qed.

Lemma acquire_done_ok sys i r s t reply outcome l st :
  system_ok sys → replicas sys !! i = Some r → r_phase r = Locking s t reply →
  reply = Some outcome ∨ outcome = Failed ∨ outcome = TimedOut →
  acquire (r_timing r) s (monotonic_ms (r_epoch r) t) outcome (r_leader r) (r_st r) = (l, st) →
  system_ok (put_replica i (mkReplica (r_timing r) (r_epoch r) l st Sleeping) sys).
Proof.
  intros Hok Hi Hp Ho E. assert (Hr : replica_ok sys r) by by eapply ok_replicas.
  destruct (ok_locking _ _ Hr s t reply Hp) as (Hc & _ & Ht & _ & Hb).
  destruct (r_st r) as [c u] eqn:Est. simpl in Hc. subst c.
  assert (Hd : replica_ok sys (mkReplica (r_timing r) (r_epoch r) (r_leader r) (mkLoopState None u) Sleeping)).
  { apply replica_ok_dropped; [done| |by left]. apply (ok_follower _ _ Hr). by rewrite Est. }
  assert (Hnone : ∀ s0, ¬ uses (mkReplica (r_timing r) (r_epoch r) (r_leader r) (mkLoopState None u) Sleeping) s0).
  { intros s0 [H|[H|(x & y & H)]]; simpl in H; done. }
  destruct outcome as [[]| |]; injection E as <- <-; apply (replica_moves_alone _ _ r); try done;
    try (intros s0 H; by destruct (Hnone s0 H)).
  - destruct Ho as [->|[|]]; [|done..]. by apply renew_ok; [..|apply Hb].
  - intros s0 [H|[H|(x & y & H)]]; simpl in H; [|done..]. injection H as ->. right; right; eauto.
Qed.

Lemma step_ok sys sys' : step sys sys' → system_ok sys → system_ok sys'.
Proof.
  intros Hst Hok. pose proof (system_db_ok _ Hok) as Hdb.
  destruct Hst as [sys t Ht|sys i tm l Hi Hch Hl|sys i r probe Hi|sys i r p Hi|sys i r l st a Hi Hp _ E
    |sys i r s ls Hi Hp Hs He|sys i r Hi Hp|sys i r s Hi Hp|sys i r s t sys' reply Hi Hp Hs E|sys i r s t sys' reply Hi Hp E
    |sys i r t reply o l st Hi Hp Ho E|sys i r s t reply o l st Hi Hp Ho E|sys i r Hi|sys s Hs Hu|sys s Hs Hu|sys s Hs Hu
    |sys s x l Hx Hl Hn|sys s Hs].
  - destruct Hdb as (D1 & D2 & D3). apply (db_moves sys); [done|done|done| |intros; by apply evolves_same].
    split_and!; [done|done|]. simpl. intros s x Hx. specialize (D3 s x Hx). lia.
  - assert (Hno : ∀ s, ¬ uses (mkReplica tm (now sys) l (mkLoopState None None) Sleeping) s)
      by (intros s [H|[H|(x & y & H)]]; simpl in H; done).
    destruct Hok as [R U H1 H2 H3]. split; simpl; [| |done..].
    + intros j rj. rewrite lookup_insert_Some. intros [[<- <-]|[_ Hj]]; [by split|].
      specialize (R j rj Hj). destruct R. by split.
    + intros j k r1 r2 s. rewrite !lookup_insert_Some. intros [[<- <-]|[_ Hj]] [[<- <-]|[_ Hk]] U1 U2;
        [done|by destruct (Hno s)..|by eapply U].
  - apply (replica_moves_alone _ _ r); [done|done| |done].
    assert (Hr : replica_ok sys r) by by eapply ok_replicas. destruct r as [tm e l [c u] p].
    by apply (replica_ok_handle _ _ (set_fitness_probe probe l) u) in Hr.
  - apply (replica_moves_alone _ _ r); [done|done| |done].
    assert (Hr : replica_ok sys r) by by eapply ok_replicas. destruct r as [tm e l [c u] q].
    by apply (replica_ok_handle _ _ (pause_for_test p l) u) in Hr.
  - assert (Hr : replica_ok sys r) by by eapply ok_replicas.
    destruct (iterate_ok _ _ _ _ _ Hr Hp E) as [Hr' Hc]. apply (replica_moves_alone _ _ r); [done|done|done|].
    intros s [H|[H|(x & y & H)]]; simpl in H; [|by destruct a..]. left. destruct Hc as [Hc|Hc]; congruence.
  - by apply connect_ok.
  - apply (replica_moves_alone _ _ r); [done|done| |].
    + assert (Hr : replica_ok sys r) by by eapply ok_replicas. destruct Hr as [H1 H2 H3 H4 _ _ _ _]. by split.
    + intros s0 [H|[H|(x & y & H)]]; simpl in H; [by left|done..].
  - apply (replica_moves_alone _ _ r); [done|done| |].
    + assert (Hr : replica_ok sys r) by by eapply ok_replicas. destruct Hr as [H1 H2 H3 H4 _ _ H7 _].
      destruct (H7 s Hp). split; simpl; try done. by intros s0 t0 rep [= <- <- <-].
    + intros s0 [H|[H|(x & y & H)]]; simpl in H; [by left|done|]. injection H as -> _ _. by right; left.
  - by eapply serve_ping_ok.
  - by eapply serve_lock_ok.
  - eapply ping_done_ok; [done..| |done]. destruct Ho as [|[|[? _]]]; auto.
  - by eapply acquire_done_ok.
  - apply (replica_moves_alone _ _ r); [done|done| |].
    + apply replica_ok_dropped; [by eapply ok_replicas|done|by right].
    + intros s0 [H|[H|(x & y & H)]]; simpl in H; done.
  - apply (db_moves sys); [done|done|done|by apply db_ok_touch|intros; by apply evolves_touch].
  - apply (db_moves sys); [done|by unfold try_lock; case_match|by unfold try_lock; case_match| |].
    + apply db_ok_try_lock; [by apply db_ok_touch|by apply sessions_touch].
    + intros. by apply evolves_trans_lock, evolves_touch.
  - apply (db_moves sys); [done|done|done|by apply db_ok_end|]. intros i r s0 Hi Hu0. apply evolves_end_other.
    intros ->. by eapply Hu.
  - apply (db_moves sys); [done|done|done|by apply db_ok_end|]. intros i r s0 Hi Hu0. apply evolves_end; [done| |done].
    intros y Hy. rewrite Hx in Hy. injection Hy as <-. right. eauto.
  - apply (db_moves sys); [done|done|done|by apply db_ok_end|]. intros i r s0 Hi Hu0. apply evolves_end; [done| |done].
    by left.
Qed.

Lemma reachable_ok sys : reachable sys → system_ok sys.
Proof.
  intros [t Hst]. assert (H0 : system_ok (initial t)).
  { split; simpl; intros *; rewrite ?lookup_empty; try done. }
  revert H0. induction Hst as [|s0 s1 s2 H1 _ IH]; [done|]. intros H0. by eapply IH, step_ok.
Qed.

(** The session of [r] was lost, less than its validity ago. *)
Definition lost_recently (sys : System) (r : Replica) : Prop :=
  ∃ s te, conn (r_st r) = Some s ∧ ended sys !! s = Some (te, Lost) ∧ now sys < te + validity (r_timing r).

Lemma leads_valid sys r t : r_epoch r ≤ t → t ≤ now sys → valid_from r t → leads sys r → now sys < t + validity (r_timing r).
Proof.
  unfold leads, is_leader, valid_from, monotonic_ms, as_millis. intros H1 H2 H3 H4%Z.ltb_lt.
  rewrite !Z.max_r in * by lia.
  pose proof (Z.div_mod (now sys - r_epoch r) 1000000). pose proof (Z.mod_pos_bound (now sys - r_epoch r) 1000000).
  pose proof (Z.div_mod (t - r_epoch r) 1000000). pose proof (Z.mod_pos_bound (t - r_epoch r) 1000000).
  pose proof (Z.div_mod (validity (r_timing r)) 1000000). pose proof (Z.mod_pos_bound (validity (r_timing r)) 1000000).
  lia.
Qed.

Lemma check_ok t : check t = Ok tt ↔
  2 * ping_timeout t + retry_interval t < validity t ∧ validity t < lease t ∧ 3 * retry_interval t ≤ lease t.
Proof.
  unfold check. rewrite !Z.geb_leb. repeat case_match; rewrite ?Z.leb_le, ?Z.leb_gt, ?Z.ltb_lt, ?Z.ltb_ge in *; split;
    intros; try done; lia.
Qed.

Lemma leader_holds sys i r :
  system_ok sys → replicas sys !! i = Some r → leads sys r →
  (∃ s, conn (r_st r) = Some s ∧ holder sys = Some s) ∨ lost_recently sys r.
Proof.
  intros Hok Hi Hl. assert (Hr : replica_ok sys r) by by eapply ok_replicas.
  destruct (conn (r_st r)) as [s|] eqn:Hs.
  2:{ unfold leads, is_leader, monotonic_ms, as_millis in Hl. rewrite (ok_follower _ _ Hr Hs) in Hl.
      apply Z.ltb_lt in Hl. pose proof (Z.div_pos (Z.max 0 (now sys - r_epoch r)) 1000000). unfold i64_min, i64_max in *. lia. }
  destruct (ok_leader _ _ Hr s Hs) as (t & Ht & Hv & Hle & [(Hh & _)|(_ & te & c & He & Hte & Hc)]); [left; by exists s|].
  pose proof (leads_valid sys r t Ht Hle Hv Hl). destruct Hc as [[-> Hc]|[-> Hc]].
  - pose proof (proj1 (check_ok _) (ok_timing _ _ Hr)). lia.
  - right. exists s, te. split_and!; [done|done|lia].
Qed.

(** C9. No two replicas lead at once: in every reachable system, two replicas
    that both answer [is_leader] with true are the same one, unless the
    database lost the session of one of them (for another reason than its
    idle timeout) less than [validity] ago. *)
Theorem leader_exclusive sys i j r1 r2 :
  reachable sys → replicas sys !! i = Some r1 → replicas sys !! j = Some r2 → leads sys r1 → leads sys r2 →
  i = j ∨ lost_recently sys r1 ∨ lost_recently sys r2.
Proof.
  intros Hok%reachable_ok H1 H2 L1 L2.
  destruct (leader_holds sys i r1 Hok H1 L1) as [(s1 & C1 & E1)|]; [|by right; left].
  destruct (leader_holds sys j r2 Hok H2 L2) as [(s2 & C2 & E2)|]; [|by right; right].
  left. apply (ok_unique _ Hok i j r1 r2 s1 H1 H2); [by left|left; congruence].
Qed.

(** ** The derived timing *)

Lemma timing_values c :
  MIN_LEADER_LEASE_SECS ≤ lease_secs c ≤ MAX_LEADER_LEASE_SECS → ∃ k v,
    retry_interval (timing c) = from_millis k ∧ ping_timeout (timing c) = from_millis k ∧
    validity (timing c) = from_millis v ∧ 0 < k ∧ 3 * k < v ∧ v < 1000 * lease_secs c ∧ v < i64_max ∧
    lease (timing c) = from_millis (1000 * lease_secs c).
Proof.
  unfold MIN_LEADER_LEASE_SECS, MAX_LEADER_LEASE_SECS. intros H. unfold timing, from_lease. simpl.
  assert (as_millis (from_secs (lease_secs c)) = 1000 * lease_secs c) as ->.
  { unfold as_millis, from_secs. replace (lease_secs c * 1000000000) with (1000 * lease_secs c * 1000000) by lia.
    by rewrite Z.div_mul. }
  rewrite (Z.min_r u64_max (1000 * lease_secs c)) by (unfold u64_max; lia).
  unfold u64_saturating_mul. rewrite (Z.min_r u64_max (1000 * lease_secs c * 2)) by (unfold u64_max; lia).
  exists (Z.min (1000 * lease_secs c / 6) 5000), (1000 * lease_secs c * 2 / 3).
  unfold from_millis, from_secs, MAX_RETRY_INTERVAL, from_secs, i64_max.
  pose proof (Z.div_mod (1000 * lease_secs c) 6). pose proof (Z.mod_pos_bound (1000 * lease_secs c) 6).
  pose proof (Z.div_mod (1000 * lease_secs c * 2) 3). pose proof (Z.mod_pos_bound (1000 * lease_secs c * 2) 3).
  split_and!; lia.
Qed.

(** A leader keeps the role: every configuration in range is accepted, with a
    timing that meets the election's invariants; and after a ping sent at [t]
    succeeded, the handle answers true until the latest instant the reply of
    the next ping can be handled, two ping timeouts and one retry interval
    later. *)
Theorem leader_timing_sound c :
  MIN_LEADER_LEASE_SECS ≤ lease_secs c ≤ MAX_LEADER_LEASE_SECS →
  self_release_after_secs c ≤ MAX_SELF_RELEASE_AFTER_SECS →
  validate c = Ok tt ∧ check (timing c) = Ok tt ∧
  ∀ l epoch t t', epoch ≤ t → t ≤ t' → monotonic_ms epoch t' < i64_max →
    t' ≤ t + 2 * ping_timeout (timing c) + retry_interval (timing c) →
    is_leader (monotonic_ms epoch t') (renew (monotonic_ms epoch t) (validity (timing c)) l) = true.
Proof.
  intros H Hs. destruct (timing_values c H) as (k & v & E1 & E2 & E3 & Hk & Hkv & Hv & Hmax & E4).
  assert (Hc : check (timing c) = Ok tt).
  { apply check_ok. rewrite E1, E2, E3, E4. unfold from_millis. lia. }
  split_and!; [|done|].
  - unfold validate. rewrite Hc. unfold MIN_LEADER_LEASE_SECS, MAX_LEADER_LEASE_SECS, MAX_SELF_RELEASE_AFTER_SECS in *.
    destruct (Z.leb_spec 10 (lease_secs c)); [|lia]. destruct (Z.leb_spec (lease_secs c) 3600); [|lia].
    destruct (Z.ltb_spec 3600 (self_release_after_secs c)); [lia|]. done.
  - intros l epoch t t' He Ht Hm Hle. rewrite E1, E2 in Hle. rewrite E3.
    unfold is_leader, renew, monotonic_ms, as_millis, from_millis in *. simpl. rewrite Z.div_mul by lia.
    rewrite !Z.max_r in * by lia. apply Z.ltb_lt.
    pose proof (Z.div_mod (t' - epoch) 1000000). pose proof (Z.mod_pos_bound (t' - epoch) 1000000).
    pose proof (Z.div_mod (t - epoch) 1000000). pose proof (Z.mod_pos_bound (t - epoch) 1000000). lia.
Qed.

(** ** An overlap after a lost session *)

Definition sample_config : LeaderConfig := mkLeaderConfig 30 30.
Definition sample_timing : LeaderTiming := timing sample_config.

(** A replica at [p], started at the epoch. *)
Definition waiting_at (p : Phase) : Replica := mkReplica sample_timing 0 never (mkLoopState None None) p.
Definition leading_on (s : Session) : Replica :=
  mkReplica sample_timing 0 (renew 0 (validity sample_timing) never) (mkLoopState (Some s) None) Sleeping.

(** Any follower can take a lock nobody holds. *)
Lemma sample_takes sys i s :
  now sys = 0 → replicas sys !! i = Some (waiting_at Sleeping) → holder sys = None →
  sessions sys !! s = None → ended sys !! s = None →
  rtc step sys (mkSystem 0 (<[i := leading_on s]> (replicas sys)) (Some s)
    (<[s := mkSession 0 (Some (lease sample_timing))]> (sessions sys)) (ended sys)).
Proof.
  intros Hn Hi Hh Hs He. destruct sys as [n rs h ss es]; simpl in *. subst n h.
  eapply rtc_l; [eapply (step_iterate _ i (waiting_at Sleeping)); [done|done|done|reflexivity]|]. unfold put_replica; simpl.
  eapply rtc_l; [eapply (step_connect _ i (waiting_at Connecting) s Enforced); simpl; [by rewrite lookup_insert_eq|done|done|done]|].
  simpl. rewrite insert_insert_eq.
  eapply rtc_l; [eapply (step_send_lock _ i (waiting_at (Connected s)) s); simpl; [by rewrite lookup_insert_eq|done]|].
  unfold put_replica; simpl. rewrite insert_insert_eq.
  eapply rtc_l; [eapply (step_serve_lock _ i (waiting_at (Locking s 0 None)) s 0); simpl;
    [by rewrite lookup_insert_eq|done|unfold serve_lock; simpl; by rewrite lookup_insert_eq]|].
  unfold put_replica; simpl. rewrite insert_insert_eq, alter_insert_eq.
  eapply rtc_l; [eapply (step_acquire_done _ i (waiting_at (Locking s 0 (Some (Answered true)))) s 0 _ (Answered true)); simpl;
    [by rewrite lookup_insert_eq|done|by left|reflexivity]|].
  unfold put_replica; simpl. rewrite insert_insert_eq. apply rtc_refl.
Qed.

Definition split_system : System :=
  mkSystem 0 (<[1%nat := leading_on 1%nat]> (<[0%nat := leading_on 0%nat]> (<[1%nat := waiting_at Sleeping]> {[0%nat := waiting_at Sleeping]})))
    (Some 1%nat) (<[1%nat := mkSession 0 (Some (lease sample_timing))]> (delete 0%nat {[0%nat := mkSession 0 (Some (lease sample_timing))]}))
    {[0%nat := (0, Lost)]}.

Lemma split_reachable : reachable split_system.
Proof.
  exists 0. eapply rtc_l; [apply (step_start _ 0%nat sample_timing never); done|].
  eapply rtc_l; [apply (step_start _ 1%nat sample_timing never); done|]. unfold put_replica; simpl.
  etrans; [apply (sample_takes _ 0%nat 0%nat); done|]. simpl.
  eapply rtc_l; [apply (step_lost _ 0%nat); simpl; by eexists|]. unfold end_session; simpl.
  etrans; [apply (sample_takes _ 1%nat 1%nat); done|]. apply rtc_refl.
Qed.

Lemma leader_exclusive_witness :
  leads split_system (leading_on 0%nat) ∧ leads split_system (leading_on 1%nat) ∧
  (lost_recently split_system (leading_on 0%nat) ∨ lost_recently split_system (leading_on 1%nat)).
Proof.
  split; [reflexivity|]. split; [reflexivity|].
  destruct (leader_exclusive split_system 0%nat 1%nat (leading_on 0%nat) (leading_on 1%nat) split_reachable) as [E|H];
    [reflexivity|reflexivity|reflexivity|reflexivity|discriminate E|exact H].
Defined.

Lemma leader_timing_sound_witness :
  validate sample_config = Ok tt ∧
  is_leader (monotonic_ms 0 15000000000) (renew (monotonic_ms 0 0) (validity (timing sample_config)) never) = true.
Proof.
  destruct (leader_timing_sound sample_config) as (Hv & _ & Hl).
  - unfold MIN_LEADER_LEASE_SECS, MAX_LEADER_LEASE_SECS. simpl. lia.
  - unfold MAX_SELF_RELEASE_AFTER_SECS. simpl. lia.
  - split; [exact Hv|]. apply Hl; [lia|lia|reflexivity|vm_compute; discriminate].
Defined.
