(* ===== verification/WorkerRepo.v ===== *)
(** * The worker repository

    [crates/stroem-db/src/repos/worker.rs]: registration, heartbeats, the
    stale sweep and retention of the [worker] table. *)
From S2P Require Import Prelude Json Db.

Definition with_worker (t : gmap Uuid WorkerRec) (db : Db) : Db := mkDb (db_job db) (db_step db) t (db_ref_pin db).

Definition set_w_status (status : string) (w : WorkerRec) : WorkerRec :=
  mkWorkerRec (w_name w) (w_capabilities w) (w_tags w) (w_exclusive w) (w_last_heartbeat w) (w_registered_at w) status (w_version w).
Definition set_w_heartbeat (t : Time) (w : WorkerRec) : WorkerRec :=
  mkWorkerRec (w_name w) (w_capabilities w) (w_tags w) (w_exclusive w) (Some t) (w_registered_at w) (w_status w) (w_version w).

(** The insert fails on a key that is taken; [status] and [registered_at] have
    their column defaults. *)
Definition register (now : Time) (worker_id : Uuid) (name : string) (capabilities tags : list string) (exclusive : bool)
    (version : option string) (db : Db) : result string Db :=
  match db_worker db !! worker_id with
  | Some _ => Err "Failed to register worker"
  | None =>
      Ok (with_worker (<[worker_id := mkWorkerRec name (strings_to_json capabilities) (strings_to_json tags) exclusive
                                        (Some now) now "active" version]> (db_worker db)) db)
  end.

Definition heartbeat (now : Time) (worker_id : Uuid) (db : Db) : Db :=
  with_worker (sql_update (λ k _, k ==? worker_id) (λ w, set_w_status "active" (set_w_heartbeat now w)) (db_worker db)).1 db.

(** [last_heartbeat < NOW() - interval]; no heartbeat is [NULL], not older. *)
Definition heartbeat_before (t : Time) (w : WorkerRec) : bool :=
  match w_last_heartbeat w with Some h => (h <? t)%Z | None => false end.

Definition stale (now timeout : Time) (w : WorkerRec) : bool := (w_status w ==? "active") && heartbeat_before (now - timeout)%Z w.

Definition mark_stale_inactive (now timeout : Time) (db : Db) : Db * list Uuid :=
  (with_worker (sql_update (λ _ w, stale now timeout w) (set_w_status "inactive") (db_worker db)).1 db,
   (map_to_list (filter (λ '(_, w), stale now timeout w = true) (db_worker db))).*1).

Definition get_worker (worker_id : Uuid) (db : Db) : option WorkerRec := db_worker db !! worker_id.
Definition count_workers (db : Db) : nat := size (db_worker db).

Definition delete_stale (now retention : Time) (db : Db) : Db * nat :=
  let gone (w : WorkerRec) := (w_status w ==? "inactive") && heartbeat_before (now - retention)%Z w in
  (with_worker (filter (λ p, gone p.2 = false) (db_worker db)) db,
   size (filter (λ p, gone p.2 = true) (db_worker db))).

(** [ORDER BY status ASC, registered_at DESC] *)
Definition active_then_newest `{Collation} (a b : WorkerRec) : bool :=
  if w_status a ==? w_status b then (w_registered_at b <=? w_registered_at a)%Z else text_leb (w_status a) (w_status b).
Definition list_workers `{Collation} (limit offset : nat) (db : Db) : list WorkerRec :=
  take limit (drop offset (sort_by active_then_newest (map_to_list (db_worker db)).*2)).

(** ** Lemmas *)

Lemma elem_of_mark_stale now timeout db k :
  k ∈ (mark_stale_inactive now timeout db).2 ↔ ∃ w, db_worker db !! k = Some w ∧ stale now timeout w = true.
Proof.
  simpl. rewrite list_elem_of_fmap. split.
  - intros ([k' w] & -> & Hin%elem_of_map_to_list). apply map_lookup_filter_Some in Hin as [Hw Hs]. eauto.
  - intros (w & Hw & Hs). exists (k, w). split; [done|]. by apply elem_of_map_to_list, map_lookup_filter_Some.
Qed.

Lemma lookup_mark_stale now timeout db k :
  db_worker (mark_stale_inactive now timeout db).1 !! k =
  (λ w, if stale now timeout w then set_w_status "inactive" w else w) <$> db_worker db !! k.
Proof. exact (lookup_sql_update (λ _ w, stale now timeout w) (set_w_status "inactive") (db_worker db) k). Qed.
