(* ===== verification/Lines.v ===== *)
(** * Lines of a byte string

    The line structure the log readers work on, independent of how they read:
    splitting at newlines, the newest whole lines within a byte budget, and
    UTF-8 validity ([str::from_utf8]), which a cut at a newline keeps. *)
From S2P Require Import Prelude Text.

Abbreviation Bytes := (list ascii) (only parsing).

Definition nl : ascii := "010"%char.

(** [iter().position(|b| b == '\n')] and [rposition]. *)
Fixpoint nl_position (l : Bytes) : option nat :=
  match l with [] => None | c :: l' => if c ==? nl then Some O else S <$> nl_position l' end.
Fixpoint nl_rposition (l : Bytes) : option nat :=
  match l with
  | [] => None
  | c :: l' => match nl_rposition l' with Some k => Some (S k) | None => if c ==? nl then Some O else None end
  end.

(** ** Splitting *)

(** The terminated lines, without their newlines, and the rest. *)
Fixpoint split_nl (l : Bytes) : list Bytes * Bytes :=
  match l with
  | [] => ([], [])
  | c :: l' =>
      let '(ls, r) := split_nl l' in
      if c ==? nl then ([] :: ls, r)
      else match ls with [] => ([], c :: r) | x :: ls' => ((c :: x) :: ls', r) end
  end.

Definition terminated (x : Bytes) : Bytes := x ++ [nl].
Definition unlines (ls : list Bytes) : Bytes := concat (terminated <$> ls).

(** No newline inside. *)
Definition flat (x : Bytes) : Prop := nl ∉ x.

Lemma unlines_cons x ls : unlines (x :: ls) = x ++ nl :: unlines ls.
Proof. unfold unlines, terminated. simpl. by rewrite <-app_assoc. Qed.

Lemma unlines_app a b : unlines (a ++ b) = unlines a ++ unlines b.
Proof. unfold unlines. by rewrite fmap_app, concat_app. Qed.

Lemma unlines_snoc ls x : unlines (ls ++ [x]) = unlines ls ++ x ++ [nl].
Proof. by rewrite unlines_app, unlines_cons. Qed.

Lemma length_unlines_cons x ls : length (unlines (x :: ls)) = (S (length x) + length (unlines ls))%nat.
Proof. rewrite unlines_cons, length_app. simpl. lia. Qed.

Lemma length_unlines_app a b : length (unlines (a ++ b)) = (length (unlines a) + length (unlines b))%nat.
Proof. by rewrite unlines_app, length_app. Qed.

Lemma flat_nil : flat [].
Proof. apply not_elem_of_nil. Qed.
Lemma flat_cons c x : flat (c :: x) ↔ c ≠ nl ∧ flat x.
Proof. unfold flat. rewrite not_elem_of_cons. naive_solver. Qed.
Lemma flat_app a b : flat (a ++ b) ↔ flat a ∧ flat b.
Proof. unfold flat. rewrite not_elem_of_app. done. Qed.

#[export] Hint Resolve flat_nil : stroem.

Lemma split_nl_sound l ls r : split_nl l = (ls, r) → l = unlines ls ++ r ∧ Forall flat ls ∧ flat r.
Proof.
  revert ls r. induction l as [|c l IH]; intros ls r; simpl.
  { intros [= <- <-]. split_and!; [done|constructor|apply flat_nil]. }
  destruct (split_nl l) as [ls0 r0] eqn:E. destruct (IH _ _ eq_refl) as (-> & Hls & Hr). case_bool_decide as Hc.
  - intros [= <- <-]. subst c. rewrite unlines_cons. split_and!; [done| |done]. constructor; [apply flat_nil|done].
  - destruct ls0 as [|x ls0]; intros [= <- <-].
    + split_and!; [done|constructor|]. by apply flat_cons.
    + apply Forall_cons in Hls as [Hx Hls]. rewrite !unlines_cons. split_and!; [done| |done].
      constructor; [|done]. by apply flat_cons.
Qed.

Lemma split_nl_flat x : flat x → split_nl x = ([], x).
Proof.
  induction x as [|c x IH]; [done|]. intros [Hc Hx]%flat_cons. simpl. rewrite (IH Hx).
  by rewrite bool_decide_false.
Qed.

Lemma split_nl_line x l : flat x → split_nl (x ++ nl :: l) = (x :: (split_nl l).1, (split_nl l).2).
Proof.
  induction x as [|c x IH]; simpl.
  - intros _. by destruct (split_nl l).
  - intros [Hc Hx]%flat_cons. rewrite (IH Hx). by rewrite bool_decide_false.
Qed.

(** The current line of a text: up to its first newline. *)
Definition head_line (l : Bytes) : Bytes := default (split_nl l).2 (head (split_nl l).1).

Lemma split_nl_prepend b l : flat b →
  split_nl (b ++ l) = match split_nl l with ([], r) => ([], b ++ r) | (x :: ls, r) => ((b ++ x) :: ls, r) end.
Proof.
  induction b as [|c b IH]; simpl.
  - intros _. by destruct (split_nl l) as [[|? ?] ?].
  - intros [Hc Hb]%flat_cons. rewrite (IH Hb). destruct (split_nl l) as [[|x ls] r]; by rewrite bool_decide_false.
Qed.

Lemma head_line_prepend b l : flat b → head_line (b ++ l) = b ++ head_line l.
Proof. intros Hb. unfold head_line. rewrite split_nl_prepend by done. by destruct (split_nl l) as [[|x ls] r]. Qed.

Lemma head_line_line x l : flat x → head_line (x ++ nl :: l) = x.
Proof. intros Hx. unfold head_line. by rewrite split_nl_line. Qed.

Lemma split_nl_complete ls r : Forall flat ls → flat r → split_nl (unlines ls ++ r) = (ls, r).
Proof.
  intros Hls Hr. induction Hls as [|x ls Hx Hls IH]; [by apply split_nl_flat|].
  rewrite unlines_cons, <-app_assoc. simpl. rewrite split_nl_line by done. by rewrite IH.
Qed.

Lemma split_nl_app_lines ls l :
  Forall flat ls → split_nl (unlines ls ++ l) = (ls ++ (split_nl l).1, (split_nl l).2).
Proof.
  intros Hls. destruct (split_nl l) as [ls' r] eqn:E. apply split_nl_sound in E as (-> & Hls' & Hr).
  rewrite app_assoc, <-unlines_app. simpl. apply split_nl_complete; [|done]. by apply Forall_app.
Qed.

Lemma unlines_inj a b : Forall flat a → Forall flat b → unlines a = unlines b → a = b.
Proof.
  intros Ha Hb E. pose proof (split_nl_complete a [] Ha flat_nil) as Ea.
  pose proof (split_nl_complete b [] Hb flat_nil) as Eb. rewrite E in Ea. congruence.
Qed.

(** ** Positions *)

Lemma nl_position_flat x : flat x → nl_position x = None.
Proof.
  induction x as [|c x IH]; [done|]. intros [Hc Hx]%flat_cons. simpl. rewrite bool_decide_false by done.
  by rewrite IH.
Qed.

Lemma nl_position_line x l : flat x → nl_position (x ++ nl :: l) = Some (length x).
Proof.
  induction x as [|c x IH]; [done|]. intros [Hc Hx]%flat_cons. simpl. rewrite bool_decide_false by done.
  by rewrite IH.
Qed.

(** Every string is flat, or a flat line and the text after it. *)
Lemma first_line l : flat l ∨ ∃ x l', l = x ++ nl :: l' ∧ flat x.
Proof.
  induction l as [|c l IH]; [left; apply flat_nil|]. destruct (decide (c = nl)) as [->|Hc].
  - right. exists [], l. split; [done|apply flat_nil].
  - destruct IH as [Hl|(x & l' & -> & Hx)]; [left; by apply flat_cons|].
    right. exists (c :: x), l'. split; [done|by apply flat_cons].
Qed.

Lemma nl_position_cases l :
  match nl_position l with
  | Some k => l = take k l ++ nl :: drop (S k) l ∧ flat (take k l) ∧ (k < length l)%nat
  | None => flat l
  end.
Proof.
  destruct (first_line l) as [Hl|(x & l' & -> & Hx)]; [by rewrite nl_position_flat|].
  rewrite nl_position_line by done. rewrite take_app_length.
  replace (S (length x)) with (length x + 1)%nat by lia. rewrite drop_app_add. simpl.
  split_and!; [by rewrite drop_0|done|]. rewrite length_app. simpl. lia.
Qed.

Lemma nl_rposition_flat x : flat x → nl_rposition x = None.
Proof.
  induction x as [|c x IH]; [done|]. intros [Hc Hx]%flat_cons. simpl. rewrite IH by done.
  by rewrite bool_decide_false.
Qed.

Lemma nl_rposition_last l x : flat x → nl_rposition (l ++ nl :: x) = Some (length l).
Proof.
  intros Hx. induction l as [|c l IH]; simpl; [|by rewrite IH]. by rewrite nl_rposition_flat.
Qed.

Lemma last_line l : flat l ∨ ∃ l' x, l = l' ++ nl :: x ∧ flat x.
Proof.
  induction l as [|c l IH]; [left; apply flat_nil|]. destruct IH as [Hl|(l' & x & -> & Hx)].
  - destruct (decide (c = nl)) as [->|Hc]; [right; by exists [], l|left; by apply flat_cons].
  - right. by exists (c :: l'), x.
Qed.

(** The newline before the unterminated rest. *)
Lemma unlines_last ls : ls ≠ [] → ∃ l, unlines ls = l ++ [nl].
Proof.
  destruct ls as [|x ls _] using rev_ind; [done|]. intros _. exists (unlines ls ++ x).
  by rewrite unlines_snoc, app_assoc.
Qed.

Lemma unlines_nil ls : unlines ls = [] ↔ ls = [].
Proof. split; [|by intros ->]. destruct ls; [done|]. rewrite unlines_cons. by destruct l. Qed.

(** ** The newest lines within a budget *)

(** From the newest on, while the next line and its newline fit. *)
Fixpoint take_fit (budget : nat) (newest_first : list Bytes) : list Bytes :=
  match newest_first with
  | [] => []
  | x :: l => if (S (length x) <=? budget)%nat then x :: take_fit (budget - S (length x)) l else []
  end.
Definition newest_fit (budget : nat) (ls : list Bytes) : list Bytes := rev (take_fit budget (rev ls)).

Lemma newest_fit_nil budget : newest_fit budget [] = [].
Proof. done. Qed.

Lemma newest_fit_snoc budget ls x :
  newest_fit budget (ls ++ [x]) =
  if (S (length x) <=? budget)%nat then newest_fit (budget - S (length x)) ls ++ [x] else [].
Proof. unfold newest_fit. rewrite rev_app_distr. cbn [rev app take_fit].
  by destruct (Nat.leb (S (length x)) budget). Qed.

Lemma newest_fit_suffix budget ls : newest_fit budget ls `suffix_of` ls.
Proof.
  revert budget. induction ls as [|x ls IH] using rev_ind; intros budget; [done|]. rewrite newest_fit_snoc.
  destruct (Nat.leb (S (length x)) budget); [|apply suffix_nil]. destruct (IH (budget - S (length x))%nat) as [k E]. exists k.
  rewrite app_assoc. f_equal. done.
Qed.

Lemma newest_fit_bound budget ls : (length (unlines (newest_fit budget ls)) ≤ budget)%nat.
Proof.
  revert budget. induction ls as [|x ls IH] using rev_ind; intros budget; [simpl; lia|]. rewrite newest_fit_snoc.
  destruct (Nat.leb_spec (S (length x)) budget); [|simpl; lia]. rewrite length_unlines_app, length_unlines_cons.
  specialize (IH (budget - S (length x))%nat). simpl. lia.
Qed.

(** It is the longest suffix that fits. *)
Lemma newest_fit_longest budget ls s :
  s `suffix_of` ls → (length (unlines s) ≤ budget)%nat → s `suffix_of` newest_fit budget ls.
Proof.
  revert budget s. induction ls as [|x ls IH] using rev_ind; intros budget s Hs Hb.
  { apply suffix_nil_inv in Hs as ->. done. }
  destruct s as [|y s _] using rev_ind; [apply suffix_nil|].
  apply suffix_snoc_inv_1 in Hs as Exy. apply suffix_snoc_inv_2 in Hs. subst y.
  rewrite length_unlines_app, length_unlines_cons in Hb. simpl in Hb. rewrite newest_fit_snoc.
  destruct (Nat.leb_spec (S (length x)) budget); [|lia]. destruct (IH (budget - S (length x))%nat s) as [k ->]; [done|lia|].
  exists k. by rewrite app_assoc.
Qed.

Lemma newest_fit_all budget ls : (length (unlines ls) ≤ budget)%nat → newest_fit budget ls = ls.
Proof.
  intros H. apply suffix_length_eq; [apply newest_fit_suffix|]. by apply suffix_length, newest_fit_longest.
Qed.

(** A smaller budget applied afterwards. *)
Lemma newest_fit_fit a b ls : (a ≤ b)%nat → newest_fit a (newest_fit b ls) = newest_fit a ls.
Proof.
  revert a b. induction ls as [|x ls IH] using rev_ind; intros a b Hab; [done|]. rewrite (newest_fit_snoc b).
  destruct (Nat.leb_spec (S (length x)) b).
  - rewrite !newest_fit_snoc. destruct (Nat.leb_spec (S (length x)) a); [|done]. by rewrite IH by lia.
  - rewrite newest_fit_snoc. destruct (Nat.leb_spec (S (length x)) a); [lia|done].
Qed.

(** ** UTF-8 *)

Definition utf8_two (a b : ascii) : bool := byte_in 194 223 a && byte_in 128 191 b.
Definition utf8_three (a b c : ascii) : bool :=
  (byte_is 224 a && byte_in 160 191 b || byte_in 225 236 a && byte_in 128 191 b ||
   byte_is 237 a && byte_in 128 159 b || byte_in 238 239 a && byte_in 128 191 b) && byte_in 128 191 c.
Definition utf8_four (a b c d : ascii) : bool :=
  (byte_is 240 a && byte_in 144 191 b || byte_in 241 243 a && byte_in 128 191 b ||
   byte_is 244 a && byte_in 128 143 b) && byte_in 128 191 c && byte_in 128 191 d.

Fixpoint valid_utf8 (l : Bytes) : bool :=
  match l with
  | [] => true
  | a :: l1 =>
      if byte_in 0 127 a then valid_utf8 l1
      else match l1 with
           | [] => false
           | b :: l2 =>
               if utf8_two a b then valid_utf8 l2
               else match l2 with
                    | [] => false
                    | c :: l3 =>
                        if utf8_three a b c then valid_utf8 l3
                        else match l3 with [] => false | d :: l4 => utf8_four a b c d && valid_utf8 l4 end
                    end
           end
  end.

Lemma utf8_two_nl a : utf8_two a nl = false.
Proof. unfold utf8_two. by rewrite andb_false_r. Qed.
Lemma utf8_three_nl a b c : (b = nl ∨ c = nl) → utf8_three a b c = false.
Proof. unfold utf8_three. intros [->| ->]; [by rewrite !andb_false_r|by rewrite andb_false_r]. Qed.
Lemma utf8_four_nl a b c d : (b = nl ∨ c = nl ∨ d = nl) → utf8_four a b c d = false.
Proof. unfold utf8_four. intros [->|[->| ->]]; [by rewrite !andb_false_r|by rewrite andb_false_r|by rewrite andb_false_r]. Qed.

Lemma valid_utf8_cons a l1 :
  valid_utf8 (a :: l1) =
  if byte_in 0 127 a then valid_utf8 l1
  else match l1 with
       | [] => false
       | b :: l2 =>
           if utf8_two a b then valid_utf8 l2
           else match l2 with
                | [] => false
                | c :: l3 =>
                    if utf8_three a b c then valid_utf8 l3
                    else match l3 with [] => false | d :: l4 => utf8_four a b c d && valid_utf8 l4 end
                end
       end.
Proof. done. Qed.

(** A newline is a character boundary. *)
Lemma valid_utf8_line n x l : (length x ≤ n)%nat → valid_utf8 (x ++ nl :: l) = valid_utf8 x && valid_utf8 l.
Proof.
  revert x. induction n as [|n IH]; intros x Hn; [by destruct x; [|simpl in Hn; lia]|].
  destruct x as [|a [|b [|c [|d x]]]]; simpl in Hn; [done|..]; cbn [app];
    rewrite !(valid_utf8_cons a); cbv iota.
  - rewrite utf8_two_nl. destruct (byte_in 0 127 a); [done|]. destruct l as [|c l]; [done|].
    rewrite utf8_three_nl by auto. destruct l as [|d l]; [done|]. by rewrite utf8_four_nl by auto.
  - destruct (byte_in 0 127 a). { exact (IH [b] ltac:(simpl; lia)). }
    destruct (utf8_two a b). { exact (IH [] ltac:(simpl; lia)). }
    rewrite utf8_three_nl by auto. destruct l as [|d l]; [done|]. by rewrite utf8_four_nl by auto.
  - destruct (byte_in 0 127 a). { exact (IH [b; c] ltac:(simpl; lia)). }
    destruct (utf8_two a b). { exact (IH [c] ltac:(simpl; lia)). }
    destruct (utf8_three a b c). { exact (IH [] ltac:(simpl; lia)). }
    by rewrite utf8_four_nl by auto.
  - destruct (byte_in 0 127 a). { exact (IH (b :: c :: d :: x) ltac:(simpl; lia)). }
    destruct (utf8_two a b). { exact (IH (c :: d :: x) ltac:(simpl; lia)). }
    destruct (utf8_three a b c). { exact (IH (d :: x) ltac:(simpl; lia)). }
    rewrite (IH x) by lia. apply andb_assoc.
Qed.

Lemma valid_utf8_unlines ls r : valid_utf8 (unlines ls ++ r) = forallb valid_utf8 ls && valid_utf8 r.
Proof.
  induction ls as [|x ls IH]; [done|]. rewrite unlines_cons, <-app_assoc. simpl.
  rewrite (valid_utf8_line (length x)) by done. by rewrite IH, andb_assoc.
Qed.

Lemma valid_utf8_sublist ls ls' : (∀ x, x ∈ ls' → x ∈ ls) → forallb valid_utf8 ls = true → valid_utf8 (unlines ls') = true.
Proof.
  intros Hsub H. rewrite <-(app_nil_r (unlines ls')), valid_utf8_unlines, andb_true_r.
  rewrite forallb_Forall' in *. rewrite Forall_forall in *. auto.
Qed.
