(* ===== verification/Utf8.v ===== *)
(** * UTF-8 is self-synchronising

    A valid text is a concatenation of characters, a character's first byte
    tells its length, and a byte that is not a continuation byte starts one.
    So an occurrence of one valid text in another starts and ends at character
    boundaries: what [str] slicing and searching rely on. *)
From S2P Require Import Prelude Text Lines.

Definition is_cont (b : ascii) : bool := byte_in 128 191 b.

(** [char::len_utf8] of the character that starts with a byte. *)
Definition char_len (b : ascii) : nat :=
  if byte_in 0 127 b then 1 else if byte_in 194 223 b then 2 else if byte_in 224 239 b then 3 else 4.

(** The bytes of one character. *)
Definition is_char (c : Bytes) : bool :=
  match c with
  | [a] => byte_in 0 127 a
  | [a; b] => utf8_two a b
  | [a; b; c] => utf8_three a b c
  | [a; b; c; d] => utf8_four a b c d
  | _ => false
  end.

Lemma byte_in_spec lo hi a : byte_in lo hi a = true ↔ (lo ≤ N_of_ascii a ≤ hi)%N.
Proof. unfold byte_in. rewrite andb_true_iff, !N.leb_le. done. Qed.

Lemma byte_is_spec n a : byte_is n a = true ↔ N_of_ascii a = n.
Proof. unfold byte_is. apply N.eqb_eq. Qed.

(** Byte tests as inequalities. *)
Ltac byte_cases :=
  unfold is_char, utf8_two, utf8_three, utf8_four, is_cont, char_len in *;
  rewrite ?andb_true_iff, ?orb_true_iff, ?andb_true_iff, ?byte_in_spec, ?byte_is_spec in *.

Lemma byte_in_false lo hi a : ¬ (lo ≤ N_of_ascii a ≤ hi)%N → byte_in lo hi a = false.
Proof. rewrite <-byte_in_spec. apply not_true_is_false. Qed.

Lemma byte_in_true lo hi a : (lo ≤ N_of_ascii a ≤ hi)%N → byte_in lo hi a = true.
Proof. apply byte_in_spec. Qed.

Lemma is_char_shape c : is_char c = true →
  ∃ a t, c = a :: t ∧ is_cont a = false ∧ Forall (λ b, is_cont b = true) t ∧ length c = char_len a.
Proof.
  destruct c as [|a [|b [|d [|e [|]]]]]; try done; intros Hc; exists a; eexists; (split; [done|]); byte_cases;
    (split; [apply byte_in_false; lia|split; [repeat constructor; apply byte_in_spec; lia|]]);
    repeat (rewrite byte_in_false by lia); rewrite ?byte_in_true by lia; done.
Qed.

Lemma valid_utf8_char c l : is_char c = true → valid_utf8 (c ++ l) = valid_utf8 l.
Proof.
  destruct c as [|a [|b [|d [|e [|]]]]]; try done; intros Hc; cbn [app]; rewrite valid_utf8_cons; cbv iota.
  - simpl in Hc. by rewrite Hc.
  - assert (byte_in 0 127 a = false) as -> by (byte_cases; apply byte_in_false; lia). simpl in Hc. by rewrite Hc.
  - assert (byte_in 0 127 a = false) as -> by (byte_cases; apply byte_in_false; lia).
    assert (utf8_two a b = false) as -> by (byte_cases; unfold utf8_two; rewrite (byte_in_false 194 223 a) by lia; done).
    simpl in Hc. by rewrite Hc.
  - assert (byte_in 0 127 a = false) as -> by (byte_cases; apply byte_in_false; lia).
    assert (utf8_two a b = false) as -> by (byte_cases; unfold utf8_two; rewrite (byte_in_false 194 223 a) by lia; done).
    assert (utf8_three a b d = false) as ->.
    { byte_cases. apply not_true_is_false. rewrite andb_true_iff, !orb_true_iff, !andb_true_iff, !byte_in_spec, !byte_is_spec. lia. }
    simpl in Hc. by rewrite Hc.
Qed.

Lemma valid_utf8_first l : l ≠ [] → valid_utf8 l = true → ∃ c l', l = c ++ l' ∧ is_char c = true ∧ valid_utf8 l' = true.
Proof.
  destruct l as [|a l1]; [done|]. intros _ Hv. rewrite valid_utf8_cons in Hv.
  destruct (byte_in 0 127 a) eqn:E1; [by exists [a], l1|]. destruct l1 as [|b l2]; [done|].
  destruct (utf8_two a b) eqn:E2; [by exists [a; b], l2|]. destruct l2 as [|c l3]; [done|].
  destruct (utf8_three a b c) eqn:E3; [by exists [a; b; c], l3|]. destruct l3 as [|d l4]; [done|].
  apply andb_true_iff in Hv as [H4 Hv]. by exists [a; b; c; d], l4.
Qed.

(** Characters, one by one. *)
Lemma valid_utf8_ind (P : Bytes → Prop) :
  P [] → (∀ c l, is_char c = true → valid_utf8 l = true → P l → P (c ++ l)) → ∀ l, valid_utf8 l = true → P l.
Proof.
  intros H0 HS. enough (H : ∀ n l, (length l ≤ n)%nat → valid_utf8 l = true → P l) by (intros l; by apply (H (length l))).
  induction n as [|n IH]; intros l Hn Hv; [by destruct l; [|simpl in Hn; lia]|].
  destruct (decide (l = [])) as [->|Hl]; [done|]. destruct (valid_utf8_first l Hl Hv) as (c & l' & -> & Hc & Hv').
  apply HS; [done..|]. apply IH; [|done]. rewrite length_app in Hn. destruct (is_char_shape _ Hc) as (a & t & -> & _). simpl in Hn. lia.
Qed.

Lemma valid_utf8_app x y : valid_utf8 x = true → valid_utf8 (x ++ y) = valid_utf8 y.
Proof.
  revert x. refine (valid_utf8_ind _ _ _); [done|]. intros c x Hc Hx IH.
  by rewrite <-app_assoc, valid_utf8_char.
Qed.

Definition starts_char (l : Bytes) : Prop := match l with [] => True | b :: _ => is_cont b = false end.

Lemma valid_starts l : valid_utf8 l = true → starts_char l.
Proof.
  intros Hv. destruct (decide (l = [])) as [->|Hl]; [done|]. destruct (valid_utf8_first l Hl Hv) as (c & l' & -> & Hc & _).
  by destruct (is_char_shape _ Hc) as (a & t & -> & Ha & _).
Qed.

(** A byte that is not a continuation byte is a boundary. *)
Lemma valid_utf8_split x y : valid_utf8 (x ++ y) = true → starts_char y → valid_utf8 x = true ∧ valid_utf8 y = true.
Proof.
  intros Hv Hy. remember (x ++ y) as l eqn:El. revert x El. revert l Hv.
  refine (valid_utf8_ind _ _ _); [|intros c l Hc Hl IH]; intros x El.
  { symmetry in El. by apply app_nil in El as [-> ->]. }
  destruct x as [|b x]; [simpl in El; subst y; rewrite valid_utf8_char by done; done|].
  destruct (is_char_shape _ Hc) as (a & t & -> & Ha & Ht & _). simpl in El. injection El as <- El.
  apply app_eq_inv in El as [(k & -> & El)|(k & -> & ->)].
  - destruct k as [|b k].
    + simpl in El. subst y. destruct (IH [] eq_refl) as [_ Hl']. rewrite app_nil_r in *.
      split; [|done]. change (valid_utf8 (a :: x) = true). rewrite <-(app_nil_r (a :: x)). by rewrite valid_utf8_char.
    + subst y. apply Forall_app in Ht as [_ Ht]. apply Forall_cons in Ht as [Hb _]. simpl in Hy. congruence.
  - destruct (IH k eq_refl) as [Hk Hy']. split; [|done].
    change (valid_utf8 ((a :: t) ++ k) = true). by rewrite valid_utf8_char.
Qed.

(** ** Occurrences *)

Definition occurs (v l : Bytes) : Prop := ∃ x y, l = x ++ v ++ y.

Lemma occurs_nil v : v ≠ [] → ¬ occurs v [].
Proof. intros Hv (x & y & E). symmetry in E. apply app_nil in E as [_ E]. by apply app_nil in E as [? _]. Qed.

(** An occurrence of a text in a text cuts it at boundaries. *)
Lemma occurs_valid v x y :
  v ≠ [] → valid_utf8 v = true → valid_utf8 (x ++ v ++ y) = true → valid_utf8 x = true ∧ valid_utf8 y = true.
Proof.
  intros Hne Hv Hl. destruct (valid_utf8_split x (v ++ y) Hl) as [Hx Hvy].
  { pose proof (valid_starts _ Hv). by destruct v. }
  split; [done|]. by rewrite valid_utf8_app in Hvy.
Qed.

Lemma is_char_prefix c c' b b' : is_char c = true → is_char c' = true → c ++ b = c' ++ b' → c = c' ∧ b = b'.
Proof.
  intros Hc Hc' E. destruct (is_char_shape _ Hc) as (a & t & -> & _ & _ & Hlen).
  destruct (is_char_shape _ Hc') as (a' & t' & -> & _ & _ & Hlen'). simpl in E. injection E as <- E.
  apply app_inj_1 in E as [-> ->]; [done|]. simpl in *. lia.
Qed.

(** An occurrence that touches a character [c] of the text has [c] in it. *)
Lemma occurs_around v a c b :
  v ≠ [] → valid_utf8 v = true → is_char c = true → ¬ occurs c v → valid_utf8 a = true → valid_utf8 b = true →
  occurs v (a ++ c ++ b) → occurs v a ∨ occurs v b.
Proof.
  intros Hne Hv Hc Hnc Ha Hb (x & y & E).
  assert (Hl : valid_utf8 (a ++ c ++ b) = true) by by rewrite valid_utf8_app, valid_utf8_char.
  pose proof Hl as Hl'. rewrite E in Hl'. destruct (occurs_valid v x y Hne Hv Hl') as [Hx Hy].
  apply app_eq_inv in E as [(k & Ea & E)|(k & Ex & E)].
  - (* the occurrence starts in [a] *)
    symmetry in E. apply app_eq_inv in E as [(m & Ek & Ey)|(m & Ev & E)].
    + left. exists x, m. by rewrite Ea, Ek.
    + (* it reaches past [a]: [v = k ++ m] and [m ++ y = c ++ b] *)
      rewrite Ea in Ha. destruct (decide (m = [])) as [->|Hm].
      { left. exists x, []. by rewrite Ea, Ev, !app_nil_r. }
      assert (Hk : valid_utf8 k = true). { by rewrite valid_utf8_app in Ha. }
      assert (Hvm : valid_utf8 m = true). { by rewrite Ev, valid_utf8_app in Hv. }
      destruct (valid_utf8_first m Hm Hvm) as (c' & m' & -> & Hc' & _). rewrite <-app_assoc in E.
      destruct (is_char_prefix c c' b (m' ++ y) Hc Hc' E) as [<- _]. destruct Hnc. by exists k, m'.
  - (* it starts after [a] *)
    destruct (decide (k = [])) as [->|Hk].
    { destruct (valid_utf8_first v Hne Hv) as (c' & v' & -> & Hc' & _). simpl in E. rewrite <-app_assoc in E.
      destruct (is_char_prefix c c' b (v' ++ y) Hc Hc' E) as [<- _]. destruct Hnc. by exists [], v'. }
    assert (Hvk : valid_utf8 k = true). { by rewrite Ex, valid_utf8_app in Hx. }
    destruct (valid_utf8_first k Hk Hvk) as (c' & k' & -> & Hc' & _). rewrite <-app_assoc in E.
    destruct (is_char_prefix c c' b (k' ++ v ++ y) Hc Hc' E) as [_ ->]. right. by exists k', y.
Qed.

(** ** Searching *)

Definition quote : ascii := "034"%char.

(** [hay.find(needle)] *)
Fixpoint find_bytes (needle hay : Bytes) : option nat :=
  if bool_decide (needle `prefix_of` hay) then Some O
  else match hay with [] => None | _ :: hay' => S <$> find_bytes needle hay' end.

Lemma find_bytes_spec needle hay :
  match find_bytes needle hay with
  | Some k => needle `prefix_of` drop k hay ∧ (k ≤ length hay)%nat ∧ ∀ j, (j < k)%nat → ¬ needle `prefix_of` drop j hay
  | None => ∀ j, ¬ needle `prefix_of` drop j hay
  end.
Proof.
  induction hay as [|c hay IH]; simpl; case_bool_decide as Hp.
  - split_and!; [done|lia|lia].
  - intros j. by rewrite drop_nil.
  - split_and!; [done|lia|lia].
  - destruct (find_bytes needle hay) as [k|]; simpl.
    + destruct IH as (H1 & H2 & H3). split_and!; [done|lia|]. intros [|j] Hj; [done|]. apply H3. lia.
    + intros [|j]; [done|]. apply IH.
Qed.
