(* ===== verification/FileField.v ===== *)
(** * File inputs: names, ids and paths

    [file_field.rs]: the safe name of an upload, the shape of a file id, and
    [JobFiles], the files attached to a job with the fields that hold them:
    how a file value becomes a path and how a target value finds its file. *)
From S2P Require Import Prelude Json Text Lines Utf8 Workflow.

Definition FILE_TYPE : string := "file".
Definition CANONICAL_INPUTS_ROOT : string := "/inputs".
Definition MAX_SAFE_NAME_BYTES : nat := 128.
Definition MAX_KEPT_EXTENSION_BYTES : nat := 32.
Definition ID_PREFIX : string := "file_".

(** ** Safe names *)

Definition is_ascii_alphanumeric (c : ascii) : bool := byte_in 48 57 c || byte_in 65 90 c || byte_in 97 122 c.
Definition safe_char (c : ascii) : bool := is_ascii_alphanumeric c || (c ==? "."%char) || (c ==? "_"%char) || (c ==? "-"%char).

(** [chars().map(..).collect()] on the bytes of a text: one character for each
    character, which is where a byte that is not a continuation byte is. *)
Definition sanitize_char (c : ascii) : list ascii :=
  if is_cont c then [] else [if safe_char c then c else "_"%char].
Definition sanitize (l : Bytes) : Bytes := flat_map sanitize_char l.

(** [rsplit(['/', '\\']).next()] *)
Definition is_separator (c : ascii) : bool := (c ==? "/"%char) || (c ==? "\"%char).
Fixpoint base_name (l : Bytes) : Bytes :=
  match l with
  | [] => []
  | c :: l' => if is_separator c then base_name l' else if existsb is_separator l' then base_name l' else c :: l'
  end.

(** [rfind('.')] *)
Fixpoint dot_rposition (l : Bytes) : option nat :=
  match l with
  | [] => None
  | c :: l' =>
      match dot_rposition l' with
      | Some p => Some (S p)
      | None => if c ==? "."%char then Some 0%nat else None
      end
  end.

Definition unhide (name : Bytes) : Bytes :=
  match name with
  | c :: l => if (c ==? "."%char) || (c ==? "-"%char) then "_"%char :: l else c :: l
  | [] => []
  end.

Definition shorten (name : Bytes) : Bytes :=
  if (length name <=? MAX_SAFE_NAME_BYTES)%nat then name
  else
    match dot_rposition name with
    | Some pos =>
        if (0 <? pos)%nat && (length name - pos <=? MAX_KEPT_EXTENSION_BYTES)%nat then
          let ext := drop pos name in take (MAX_SAFE_NAME_BYTES - length ext) name ++ ext
        else take MAX_SAFE_NAME_BYTES name
    | None => take MAX_SAFE_NAME_BYTES name
    end.

Definition safe_name (original : string) : option string :=
  let base := base_name (bytes original) in
  if bool_decide (base ∈ [[]; bytes "."; bytes ".."]) then None
  else Some (of_bytes (shorten (unhide (sanitize base)))).

(** ** File ids *)

Definition lower_hex (c : ascii) : bool := byte_in 48 57 c || byte_in 97 102 c.
Definition strip_prefix_bytes (p l : Bytes) : option Bytes :=
  if bool_decide (take (length p) l = p) then Some (drop (length p) l) else None.

Definition is_file_id (s : string) : bool :=
  match strip_prefix_bytes (bytes ID_PREFIX) (bytes s) with
  | Some hex => (length hex =? 32)%nat && forallb lower_hex hex
  | None => false
  end.

Definition file_path (root file_id safe_name : string) : string := root +:+ "/" +:+ file_id +:+ "/" +:+ safe_name.

(** ** The files of a job *)

Record FileRef := mkFileRef { fr_file_id : string; fr_safe_name : string }.

#[export] Instance FileRef_eq_dec : EqDecision FileRef.
Proof. solve_decision. Defined.

Record JobFiles := mkJobFiles { root : string; fields : gmap string string; files : gmap string FileRef }.

Definition attach_file (jf : JobFiles) (a : string * FileRef) : JobFiles :=
  mkJobFiles (root jf) (<[a.1 := fr_file_id a.2]> (fields jf)) (<[fr_file_id a.2 := a.2]> (files jf)).
Definition job_files_new (r : string) (attachments : list (string * FileRef)) : JobFiles :=
  fold_left attach_file attachments (mkJobFiles r ∅ ∅).

Definition with_root (jf : JobFiles) (r : string) : JobFiles := mkJobFiles r (fields jf) (files jf).
Definition field_file (jf : JobFiles) (field : string) : option FileRef := fields jf !! field ≫= λ id, files jf !! id.
Definition ref_path (r : string) (f : FileRef) : string := file_path r (fr_file_id f) (fr_safe_name f).
Definition path_of (jf : JobFiles) (file_id : string) : option string := ref_path (root jf) <$> files jf !! file_id.

(** A [BTreeMap] is read in key order; the replacements are independent. *)
Definition template_input (jf : JobFiles) (input : json) : json :=
  match input with
  | JObject m =>
      JObject (map (λ '(k, v),
        (k, match v, fields jf !! k with
            | JString s, Some id => if s ==? id then default v (JString <$> path_of jf id) else v
            | _, _ => v
            end)) m)
  | _ => input
  end.

Definition template_prepared (jf : JobFiles) (prepared : json) (schema : gmap string InputFieldDef) : json :=
  match prepared with
  | JObject m =>
      JObject (map (λ '(k, v),
        (k, match v, schema !! k with
            | JString s, Some def => if field_type def ==? FILE_TYPE then default v (JString <$> path_of jf s) else v
            | _, _ => v
            end)) m)
  | _ => prepared
  end.

(** [split_once(c)] *)
Fixpoint split_once (c : ascii) (l : Bytes) : option (Bytes * Bytes) :=
  match l with
  | [] => None
  | d :: l' => if d ==? c then Some ([], l') else '(a, b) ← split_once c l'; Some (d :: a, b)
  end.

(** [value.strip_prefix(root)?.strip_prefix('/')?.split_once('/')?] and the
    exact path of the file it names. *)
Definition file_at (jf : JobFiles) (r : string) (value : string) : option FileRef :=
  rest ← strip_prefix_bytes (bytes r) (bytes value);
  rest ← strip_prefix_bytes (bytes "/") rest;
  '(id, _) ← split_once "/" rest;
  f ← files jf !! of_bytes id;
  if ref_path r f ==? value then Some f else None.

Definition canonical_file (jf : JobFiles) (value : string) : option FileRef := file_at jf CANONICAL_INPUTS_ROOT value.

Definition resolve_target (jf : JobFiles) (value : string) : option FileRef :=
  match files jf !! value with
  | Some f => Some f
  | None => file_at jf (root jf) value
  end.

Definition rebase_string (jf : JobFiles) (s : string) : string :=
  match canonical_file jf s with Some f => ref_path (root jf) f | None => s end.

Fixpoint rebase_walk (jf : JobFiles) (v : json) : json :=
  match v with
  | JString s => JString (rebase_string jf s)
  | JArray l => JArray (map (rebase_walk jf) l)
  | JObject m => JObject (map (λ '(k, x), (k, rebase_walk jf x)) m)
  | _ => v
  end.

Definition rebase_canonical (jf : JobFiles) (v : json) : json :=
  if (root jf ==? CANONICAL_INPUTS_ROOT) || bool_decide (files jf = ∅) then v else rebase_walk jf v.

(** ** Facts *)

Lemma strip_prefix_bytes_app p l : strip_prefix_bytes p (p ++ l) = Some l.
Proof. unfold strip_prefix_bytes. by rewrite take_app_length, drop_app_length, bool_decide_true. Qed.

Lemma split_once_app c x l : (c ∉ x) → split_once c (x ++ c :: l) = Some (x, l).
Proof.
  induction x as [|d x IH]; intros Hc; cbn [app split_once]; [by rewrite bool_decide_true|].
  apply not_elem_of_cons in Hc as [Hd Hx]. rewrite bool_decide_false by congruence. by rewrite (IH Hx).
Qed.

Lemma bytes_ref_path r f :
  bytes (ref_path r f) = bytes r ++ bytes "/" ++ bytes (fr_file_id f) ++ "/"%char :: bytes (fr_safe_name f).
Proof. unfold ref_path, file_path. by rewrite !bytes_app. Qed.

(** An id is 37 bytes without a slash. *)
Lemma is_file_id_spec s : is_file_id s = true →
  length (bytes s) = 37%nat ∧ ("/"%char ∉ bytes s) ∧ take 5 (bytes s) = bytes ID_PREFIX.
Proof.
  unfold is_file_id, strip_prefix_bytes. case_bool_decide as E; [|done]. rewrite andb_true_iff, Nat.eqb_eq. intros [Hl Hx].
  assert (Hs : bytes s = bytes ID_PREFIX ++ drop 5 (bytes s)) by (rewrite <-E at 1; symmetry; apply take_drop).
  change (length (bytes ID_PREFIX)) with 5%nat in *. split_and!; [rewrite Hs, length_app, Hl; done| |exact E].
  rewrite Hs. intros [Hin|Hin]%elem_of_app; [by repeat (apply elem_of_cons in Hin as [?|Hin]; [done|]); apply elem_of_nil in Hin|].
  rewrite forallb_Forall', Forall_forall in Hx. by specialize (Hx _ Hin).
Qed.

(** *** Names *)

Lemma existsb_base l : existsb is_separator (base_name l) = false.
Proof.
  induction l as [|c l IH]; simpl; [done|]. destruct (is_separator c) eqn:Ec; [done|]. destruct (existsb is_separator l) eqn:El; [done|].
  simpl. by rewrite Ec, El.
Qed.

Lemma base_name_id l : existsb is_separator l = false → base_name l = l.
Proof. destruct l as [|c l]; simpl; [done|]. intros [-> ->]%orb_false_iff. done. Qed.

Lemma base_name_suffix l : base_name l = [] ∨ l = base_name l ∨ ∃ x c, l = x ++ c :: base_name l ∧ is_separator c = true.
Proof.
  induction l as [|c l IH]; simpl; [by left|]. destruct (is_separator c) eqn:Ec.
  - destruct IH as [->|[E|(x & d & E & Hd)]]; [by left| |].
    + right; right. exists [], c. split; [by rewrite <-E|done].
    + right; right. exists (c :: x), d. split; [by rewrite E at 1|done].
  - destruct (existsb is_separator l) eqn:El; [|by right; left].
    destruct IH as [->|[E|(x & d & E & Hd)]]; [by left| |].
    + rewrite E, existsb_base in El. done.
    + right; right. exists (c :: x), d. split; [by rewrite E at 1|done].
Qed.

(** Every text keeps one character for each of its own. *)
Lemma sanitize_one c l : is_char c = true → ∃ d, sanitize (c ++ l) = d :: sanitize l ∧ safe_char d = true.
Proof.
  intros Hc. destruct (is_char_shape c Hc) as (a & t & -> & Ha & Ht & _).
  exists (if safe_char a then a else "_"%char). unfold sanitize. rewrite flat_map_app. simpl. unfold sanitize_char at 1. rewrite Ha.
  assert (flat_map sanitize_char t = []) as ->.
  { clear Hc. induction Ht as [|b t Hb Ht IH]; simpl; [done|]. unfold sanitize_char at 1. by rewrite Hb, IH. }
  split; [done|]. by destruct (safe_char a) eqn:E.
Qed.

Lemma sanitize_safe l : Forall (λ c, safe_char c = true) (sanitize l).
Proof.
  induction l as [|c l IH]; simpl; [constructor|]. apply Forall_app. split; [|done]. unfold sanitize_char.
  destruct (is_cont c); [constructor|]. constructor; [|constructor]. by destruct (safe_char c) eqn:E.
Qed.

Lemma safe_not_cont c : safe_char c = true → is_cont c = false ∧ is_separator c = false.
Proof.
  intros Hc. unfold safe_char in Hc. rewrite !orb_true_iff in Hc.
  destruct Hc as [[[Hc|Hc]|Hc]|Hc]; try (apply bool_decide_eq_true in Hc as ->; done).
  unfold is_ascii_alphanumeric in Hc. rewrite !orb_true_iff, !byte_in_spec in Hc. unfold is_cont, is_separator.
  split; [apply byte_in_false; lia|]. apply orb_false_iff. split; apply bool_decide_eq_false; intros ->; vm_compute in Hc; intuition lia.
Qed.

Lemma sanitize_id l : Forall (λ c, safe_char c = true) l → sanitize l = l.
Proof.
  induction 1 as [|c l Hc Hl IH]; simpl; [done|]. unfold sanitize_char. rewrite (proj1 (safe_not_cont c Hc)), Hc. by rewrite IH.
Qed.

Lemma dot_rposition_lt l p : dot_rposition l = Some p → (p < length l)%nat ∧ l !! p = Some "."%char.
Proof.
  revert p. induction l as [|c l IH]; intros p; simpl; [done|]. destruct (dot_rposition l) as [q|].
  - intros [= <-]. destruct (IH q eq_refl). split; [lia|done].
  - case_bool_decide as E; [|done]. intros [= <-]. subst c. split; [lia|done].
Qed.

(** The first byte stays, every byte is one of the name's, and at most 128 are left. *)
Lemma shorten_spec l : l ≠ [] →
  head (shorten l) = head l ∧ (length (shorten l) ≤ MAX_SAFE_NAME_BYTES)%nat ∧ ∀ P, Forall P l → Forall P (shorten l).
Proof.
  intros Hl. unfold shorten. destruct (length l <=? MAX_SAFE_NAME_BYTES)%nat eqn:E.
  { apply Nat.leb_le in E. done. }
  apply Nat.leb_gt in E. destruct l as [|c l]; [done|].
  assert (Htake : head (take MAX_SAFE_NAME_BYTES (c :: l)) = Some c ∧
    (length (take MAX_SAFE_NAME_BYTES (c :: l)) ≤ MAX_SAFE_NAME_BYTES)%nat ∧ ∀ P, Forall P (c :: l) → Forall P (take MAX_SAFE_NAME_BYTES (c :: l))).
  { split_and!; [done|rewrite length_take; lia|]. intros P. apply Forall_take. }
  destruct (dot_rposition (c :: l)) as [p|] eqn:Ep; [|done]. apply dot_rposition_lt in Ep as [Hp _].
  destruct ((0 <? p)%nat && (length (c :: l) - p <=? MAX_KEPT_EXTENSION_BYTES)%nat) eqn:Ek; [|done].
  apply andb_true_iff in Ek as [_ Ek%Nat.leb_le]. unfold MAX_KEPT_EXTENSION_BYTES, MAX_SAFE_NAME_BYTES in *. clear Htake.
  assert (Hd : (length (drop p (c :: l)) ≤ 32)%nat) by (rewrite length_drop; exact Ek).
  split_and!.
  - destruct (128 - length (drop p (c :: l)))%nat as [|k] eqn:Ek2; [lia|]. done.
  - rewrite length_app, length_take. lia.
  - intros P HP. apply Forall_app. split; [by apply Forall_take|by apply Forall_drop].
Qed.

Lemma dot_rposition_last stem ext : ("."%char ∉ ext) → dot_rposition (stem ++ "."%char :: ext) = Some (length stem).
Proof.
  intros He. induction stem as [|c stem IH]; cbn [app dot_rposition length]; [|by rewrite IH].
  assert (dot_rposition ext = None) as ->; [|by rewrite bool_decide_true].
  clear -He. induction ext as [|c ext IH]; cbn [dot_rposition]; [done|]. apply not_elem_of_cons in He as [Hc He].
  by rewrite (IH He), bool_decide_false.
Qed.

(** A short extension survives. *)
Lemma shorten_extension stem ext : stem ≠ [] → ("."%char ∉ ext) → (length ext < MAX_KEPT_EXTENSION_BYTES)%nat →
  "."%char :: ext `suffix_of` shorten (stem ++ "."%char :: ext).
Proof.
  intros Hs He Hl. unfold shorten. destruct (length _ <=? _)%nat; [by exists stem|]. rewrite dot_rposition_last by done.
  rewrite length_app, drop_app_length. destruct (0 <? length stem)%nat eqn:E0; [|apply Nat.ltb_ge in E0; destruct stem; simpl in E0; [done|lia]].
  assert ((length stem + length ("."%char :: ext) - length stem <=? MAX_KEPT_EXTENSION_BYTES)%nat = true) as ->
    by (apply Nat.leb_le; simpl; lia). by eexists.
Qed.

Lemma shorten_short l : (length l ≤ MAX_SAFE_NAME_BYTES)%nat → shorten l = l.
Proof. intros H. unfold shorten. by rewrite (proj2 (Nat.leb_le _ _) H). Qed.

Definition unhidden (c : ascii) : Prop := c ≠ "."%char ∧ c ≠ "-"%char.

Lemma unhide_spec c l : safe_char c = true → ∃ d, unhide (c :: l) = d :: l ∧ safe_char d = true ∧ unhidden d.
Proof.
  intros Hc. simpl. destruct ((c ==? "."%char) || (c ==? "-"%char)) eqn:E; [by exists "_"%char|].
  apply orb_false_iff in E as [E1%bool_decide_eq_false E2%bool_decide_eq_false]. by exists c.
Qed.

Lemma unhide_id c l : unhidden c → unhide (c :: l) = c :: l.
Proof. intros [H1 H2]. simpl. by rewrite !bool_decide_false. Qed.

Lemma valid_after x c y : is_cont c = false → valid_utf8 (x ++ c :: y) = true → valid_utf8 (c :: y) = true.
Proof. intros Hc H. apply (valid_utf8_split x (c :: y) H Hc). Qed.

(** The base of a text is a text. *)
Lemma base_name_valid l : valid_utf8 l = true → valid_utf8 (base_name l) = true.
Proof.
  intros Hv. destruct (base_name_suffix l) as [->|[E|(x & c & E & Hc)]]; [done|by rewrite <-E|].
  assert (Ha : is_char [c] = true).
  { simpl. unfold is_separator in Hc. apply orb_true_iff in Hc as [Hc|Hc]; apply bool_decide_eq_true in Hc as ->; done. }
  rewrite E in Hv. apply valid_after in Hv; [by rewrite <-(valid_utf8_char [c])|].
  unfold is_separator in Hc. apply orb_true_iff in Hc as [Hc|Hc]; apply bool_decide_eq_true in Hc as ->; done.
Qed.

(** A name that is already safe. *)
Definition is_safe_name (n : string) : Prop :=
  ∃ c l, bytes n = c :: l ∧ unhidden c ∧ Forall (λ c, safe_char c = true) (c :: l) ∧ (length (c :: l) ≤ MAX_SAFE_NAME_BYTES)%nat.

Lemma safe_name_fixed n : is_safe_name n → safe_name n = Some n.
Proof.
  intros (c & l & E & Hu & Hs & Hn). unfold safe_name. rewrite E.
  assert (Hsep : existsb is_separator (c :: l) = false).
  { apply existsb_false_Forall. eapply Forall_impl; [exact Hs|]. intros d Hd. exact (proj2 (safe_not_cont d Hd)). }
  rewrite base_name_id by done. rewrite bool_decide_false.
  2:{ intros Hin. destruct Hu as [Hu _]. repeat (apply elem_of_cons in Hin as [Hin|Hin]; [simpl in Hin; congruence|]). by apply elem_of_nil in Hin. }
  rewrite sanitize_id by done. rewrite unhide_id by done. rewrite shorten_short by done. by rewrite <-E, of_bytes_bytes.
Qed.

(** The name stored for an upload is a single harmless path component:
    between 1 and 128 bytes, only ASCII letters, digits, dots, dashes and
    underscores, not starting with a dot or a dash; so it is never [.], [..]
    or a path. It keeps a short extension, it is its own safe name, and only
    a text whose last component is empty, [.] or [..] has none. *)
Theorem safe_name_is_safe original :
  valid_utf8 (bytes original) = true →
  (safe_name original = None ↔ base_name (bytes original) ∈ [[]; bytes "."; bytes ".."]) ∧
  (∀ n, safe_name original = Some n → is_safe_name n ∧ safe_name n = Some n ∧
     ∀ stem ext, unhide (sanitize (base_name (bytes original))) = stem ++ "."%char :: ext → stem ≠ [] → ("."%char ∉ ext) →
       (length ext < MAX_KEPT_EXTENSION_BYTES)%nat → "."%char :: ext `suffix_of` bytes n).
Proof.
  intros Hv. unfold safe_name at 1. split; [case_bool_decide; naive_solver|]. intros n Hn.
  enough (H : is_safe_name n).
  { split; [done|]. split; [by apply safe_name_fixed|]. intros stem ext E Hst Hext Hlen. unfold safe_name in Hn. case_bool_decide; [done|].
    injection Hn as <-. rewrite bytes_of_bytes, E. by apply shorten_extension. }
  unfold safe_name in Hn. case_bool_decide as Hb; [done|]. injection Hn as <-.
  assert (Hne : base_name (bytes original) ≠ []) by (intros E; apply Hb; rewrite E; by left).
  destruct (valid_utf8_first _ Hne (base_name_valid _ Hv)) as (c & l & E & Hc & _). rewrite E.
  destruct (sanitize_one c l Hc) as (d & -> & Hd). destruct (unhide_spec d (sanitize l) Hd) as (e & -> & He & Hu).
  destruct (shorten_spec (e :: sanitize l) ltac:(done)) as (Hh & Hlen & Hall).
  assert (HF := Hall _ (proj2 (Forall_cons _ _ _) (conj He (sanitize_safe l)))).
  destruct (shorten (e :: sanitize l)) as [|x y] eqn:Es; [done|]. injection Hh as ->. rewrite <-Es in *.
  exists e, y. rewrite bytes_of_bytes, Es. rewrite Es in *. done.
Qed.

(** *** Paths *)

(** Each key is the id of its file, and every id is one. *)
Definition files_wf (jf : JobFiles) : Prop := ∀ id f, files jf !! id = Some f → fr_file_id f = id ∧ is_file_id id = true.

Lemma attach_file_wf jf a : files_wf jf → is_file_id (fr_file_id a.2) = true → files_wf (attach_file jf a).
Proof.
  intros Hwf Ha id f. cbn [attach_file files]. destruct (decide (fr_file_id a.2 = id)) as [<-|Hne].
  - rewrite lookup_insert_eq. by intros [= <-].
  - rewrite lookup_insert_ne by done. apply Hwf.
Qed.

Lemma job_files_wf r atts : Forall (λ a, is_file_id (fr_file_id a.2) = true) atts → files_wf (job_files_new r atts).
Proof.
  unfold job_files_new. assert (H0 : files_wf (mkJobFiles r ∅ ∅)) by (intros id f H; cbn [files] in H; rewrite lookup_empty in H; done).
  revert H0. generalize (mkJobFiles r ∅ ∅). induction atts as [|a atts IH]; intros jf Hwf Hall; [done|].
  apply Forall_cons in Hall as [Ha Hall]. apply IH; [by apply attach_file_wf|done].
Qed.

Lemma root_new r atts : root (job_files_new r atts) = r.
Proof. unfold job_files_new. change r with (root (mkJobFiles r ∅ ∅)) at 2. generalize (mkJobFiles r ∅ ∅). induction atts as [|a atts IH]; intros jf; [done|]. cbn [fold_left]. by rewrite IH. Qed.

Lemma file_at_path jf r f : files_wf jf → files jf !! fr_file_id f = Some f → file_at jf r (ref_path r f) = Some f.
Proof.
  intros Hwf Hf. destruct (Hwf _ _ Hf) as [_ Hid]. unfold file_at. rewrite bytes_ref_path, strip_prefix_bytes_app.
  cbn [mbind option_bind]. rewrite strip_prefix_bytes_app. cbn [mbind option_bind].
  rewrite split_once_app by apply (is_file_id_spec _ Hid). cbn [mbind option_bind]. rewrite of_bytes_bytes, Hf. cbn [mbind option_bind].
  by rewrite bool_decide_true.
Qed.

Lemma file_at_some jf r v f : file_at jf r v = Some f → v = ref_path r f ∧ ∃ id, files jf !! id = Some f.
Proof.
  unfold file_at. intros (x & _ & H)%bind_Some. apply bind_Some in H as (y & _ & H). apply bind_Some in H as ([id rest] & _ & H).
  apply bind_Some in H as (f' & Hf & H). case_bool_decide; [|done]. injection H as ->. eauto.
Qed.

Lemma ref_path_slash r f : "/"%char ∈ bytes (ref_path r f).
Proof. rewrite bytes_ref_path. apply elem_of_app. right. by left. Qed.

(** The path ends at the slashes: two files under one root have two paths. *)
Lemma ref_path_inj jf r f f' : files_wf jf → files jf !! fr_file_id f = Some f → files jf !! fr_file_id f' = Some f' →
  ref_path r f = ref_path r f' → f = f'.
Proof.
  intros Hwf Hf Hf' E. pose proof (file_at_path jf r f Hwf Hf) as H. rewrite E, (file_at_path jf r f' Hwf Hf') in H. by injection H.
Qed.

(** File values and paths are two names of the same file. For a job with
    attached files under any root: a field's file id and the file's path both
    resolve to the file, and nothing else does; the canonical path of a file,
    stored when a loop item was rendered, is moved to the path under the
    job's root, at any place of a value; two files never share a path; and a
    template sees the path exactly where the input holds the attached id. *)
Theorem file_values_resolve r atts :
  Forall (λ a, is_file_id (fr_file_id a.2) = true) atts →
  let jf := job_files_new r atts in
  (∀ v f, resolve_target jf v = Some f ↔
     files jf !! fr_file_id f = Some f ∧ (v = fr_file_id f ∨ path_of jf (fr_file_id f) = Some v)) ∧
  (∀ f, files jf !! fr_file_id f = Some f →
     rebase_canonical jf (JString (ref_path CANONICAL_INPUTS_ROOT f)) = JString (ref_path r f)) ∧
  (∀ f f', files jf !! fr_file_id f = Some f → files jf !! fr_file_id f' = Some f' → ref_path r f = ref_path r f' → f = f') ∧
  (∀ m, ∃ m', template_input jf (JObject m) = JObject m' ∧ ∀ i k v, m !! i = Some (k, v) →
     m' !! i = Some (k, match field_file jf k, v with
                        | Some f, JString s => if s ==? fr_file_id f then JString (ref_path r f) else v
                        | _, _ => v
                        end)).
Proof.
  intros Hatts jf. assert (Hwf : files_wf jf) by by apply job_files_wf. assert (Hr : root jf = r) by apply root_new.
  assert (Hkey : ∀ id f, files jf !! id = Some f → files jf !! fr_file_id f = Some f ∧ id = fr_file_id f).
  { intros id f Hf. destruct (Hwf _ _ Hf) as [-> _]. done. }
  split_and!.
  - intros v f. unfold resolve_target, path_of. split.
    + destruct (files jf !! v) as [f'|] eqn:Ev.
      * intros [= ->]. apply Hkey in Ev as [? ->]. eauto.
      * intros [-> (id & Hid)]%file_at_some. apply Hkey in Hid as [Hf ->]. split; [done|]. right. by rewrite Hf.
    + intros [Hf [->|Hv]]; [by rewrite Hf|]. rewrite Hf in Hv. injection Hv as <-.
      destruct (files jf !! ref_path (root jf) f) as [f'|] eqn:Ev; [|by apply file_at_path].
      destruct (Hwf _ _ Ev) as [_ Hid]. apply is_file_id_spec in Hid as (_ & Hs & _). destruct Hs. apply ref_path_slash.
  - intros f Hf. unfold rebase_canonical. rewrite (bool_decide_false (files jf = ∅)) by (intros E; rewrite E, lookup_empty in Hf; done).
    rewrite orb_false_r, Hr. case_bool_decide as E; [by rewrite E|]. cbn [rebase_walk]. unfold rebase_string, canonical_file.
    by rewrite file_at_path, Hr.
  - intros f f' Hf Hf'. by apply (ref_path_inj jf).
  - intros m. eexists. split; [reflexivity|]. intros i k v Hi. rewrite list_lookup_fmap, Hi. cbn [fmap option_fmap option_map]. do 2 f_equal.
    unfold field_file, path_of. destruct (fields jf !! k) as [id|] eqn:Ek; [|by destruct v]. cbn [mbind option_bind].
    destruct (files jf !! id) as [f|] eqn:Ef; cbn [fmap option_fmap option_map default]; [|by destruct v; try case_bool_decide].
    destruct (Hwf _ _ Ef) as [-> _]. by rewrite Hr.
Qed.
