(* ===== verification/RenderContext.v ===== *)
(** * The render context

    [crates/stroem-server/src/render_context.rs]: the variables a template of a
    step sees, one field at a time. *)
From S2P Require Import Prelude Json Text JobModel Db Workflow FileField.

Definition FRAMEWORK_KEYS : list string := ["input"; "secret"; "state"; "global_state"; "job"; "each"].
Definition TERA_KEYWORDS : list string :=
  ["none"; "None"; "null"; "self"; "loop"; "break"; "continue"; "true"; "True"; "false"; "False";
   "and"; "or"; "not"; "is"; "in"; "if"; "else"].

Record Snapshot := mkSnapshot { sn_id : Uuid; sn_storage_key : string; sn_has_json : bool; sn_json : option json }.
Record Snapshots := mkSnapshots { sn_task : option Snapshot; sn_global : option Snapshot; sn_files : JobFiles }.

Record StepView := mkView {
  sv_step_name : string;
  sv_status : string;
  sv_output : option json;
  sv_error_message : option string;
  sv_loop_source : option string;
  sv_is_placeholder : bool;
}.
Definition view_of (r : JobStepRow) : StepView :=
  mkView (js_step_name r) (js_status r) (js_output r) (js_error_message r) (js_loop_source r)
    (bool_decide (is_Some (js_for_each_expr r))).
Definition views (rows : list JobStepRow) : list StepView := view_of <$> rows.

Record LoopSlot := mkSlot { sl_item : json; sl_index : Z; sl_total : option Z }.
Definition slot_of (row : JobStepRow) : option LoopSlot :=
  match js_loop_item row, js_loop_index row with
  | Some item, Some index => Some (mkSlot item index (js_loop_total row))
  | _, _ => None
  end.

Record JobContext := mkJobContext {
  jc_job_id : Uuid;
  jc_job_input : option json;
  jc_caller_secrets : gmap string json;
  jc_owner_secrets : gmap string json;
  jc_snapshots : Snapshots;
  jc_job_revision : option string;
  jc_job_ref : option string;
}.

Inductive Scope :=
| StepInput
| ActionBody (prepared_input : option json) (action_schema : option (gmap string InputFieldDef))
| AgentPrompt
| Condition
| ChildTaskInput
| ApprovalMessage (rendered_input : option json)
| StepRef
| TaskActionRef (ref_input : json).

Record Collision := mkCollision { co_step : string; co_key : string }.
Record RenderContext := mkRender { rc_value : json; rc_collisions : list Collision }.

Definition collision_line (c : Collision) : string :=
  if bool_decide (co_key c ∈ TERA_KEYWORDS)
  then "[render] step '" +:+ co_step c +:+ "' is a Tera keyword and cannot be referenced in templates"
  else "[render] step '" +:+ co_step c +:+ "' shadows template variable '" +:+ co_key c +:+ "'".
Definition log_lines (r : RenderContext) : list string := collision_line <$> rc_collisions r.

(** [json!] of an optional text and of an [i32]. *)
Definition json_opt_str (o : option string) : json := match o with Some s => JString s | None => JNull end.
Definition json_int (z : Z) : json := JNumber (if (z <? 0)%Z then NegInt z else PosInt (Z.to_N z)).
Definition json_obj (l : list (string * json)) : json := JObject (fold_left (λ m p, json_map_insert p.1 p.2 m) l []).

Definition job_context (revision git_ref : option string) : json :=
  json_obj [("revision", json_opt_str revision); ("ref", json_opt_str git_ref)].

Abbreviation Entries := (list (string * json)).

(** A key keeps its first position. *)
Fixpoint upsert (entries : Entries) (key : string) (value : json) : Entries :=
  match entries with
  | [] => [(key, value)]
  | (k, v) :: rest => if k ==? key then (k, value) :: rest else (k, v) :: upsert rest key value
  end.

(** [s.replace('-', "_")] *)
Definition sanitize_name (s : string) : string := of_bytes ((λ c, if byte_is 45 c then "_"%char else c) <$> bytes s).

(** What a step row contributes; [None]: nothing. *)
Definition step_entry (s : StepView) : option json :=
  if bool_decide (is_Some (sv_loop_source s)) then None
  else if sv_status s ==? "completed" then Some (json_obj [("output", default JNull (sv_output s))])
  else if (sv_status s ==? "skipped") || (sv_status s ==? "suspended") then Some (json_obj [("output", JNull)])
  else if sv_status s ==? "failed" then
    let output := if sv_is_placeholder s then default JNull (sv_output s) else JNull in
    Some (json_obj (("output", output) :: match sv_error_message s with Some e => [("error", JString e)] | None => [] end))
  else None.

Definition collisions_of (s : StepView) (name : string) : list Collision :=
  (if bool_decide (name ∈ FRAMEWORK_KEYS) then [mkCollision (sv_step_name s) name] else []) ++
  (if bool_decide (name ∈ TERA_KEYWORDS) then [mkCollision (sv_step_name s) name] else []).

Definition add_step (acc : Entries * list Collision) (s : StepView) : Entries * list Collision :=
  match step_entry s with
  | None => acc
  | Some entry =>
      let name := sanitize_name (sv_step_name s) in
      (upsert acc.1 name entry, acc.2 ++ collisions_of s name)
  end.

(** The scope's input and secrets. *)
Definition scope_axes (job : JobContext) (scope : Scope) : option json * option (gmap string json) :=
  let files := sn_files (jc_snapshots job) in
  let job_input := template_input files <$> jc_job_input job in
  match scope with
  | ActionBody prepared schema =>
      ((λ v, match schema with Some s => template_prepared files v s | None => v end) <$> prepared, Some (jc_owner_secrets job))
  | StepRef | TaskActionRef _ => (job_input, None)
  | _ => (job_input, Some (jc_caller_secrets job))
  end.

Definition opt_upsert (e : Entries) (key : string) (o : option json) : Entries :=
  match o with Some v => upsert e key v | None => e end.

Definition snapshot_json (o : option Snapshot) : json := default JNull (o ≫= sn_json).

Definition each_value (files : JobFiles) (slot : LoopSlot) : json :=
  json_obj [("item", rebase_canonical files (sl_item slot)); ("index", json_int (sl_index slot));
            ("total", match sl_total slot with Some t => json_int t | None => JNull end)].

Definition is_condition (scope : Scope) : bool := match scope with Condition => true | _ => false end.

(** The framework's variables, before the steps. *)
Definition framework_entries (job : JobContext) (scope : Scope) : Entries :=
  let '(input, secrets) := scope_axes job scope in
  let e := opt_upsert [] "input" input in
  let e := opt_upsert e "secret" (object_of <$> secrets) in
  let e := upsert e "state" (snapshot_json (sn_task (jc_snapshots job))) in
  let e := upsert e "global_state" (snapshot_json (sn_global (jc_snapshots job))) in
  upsert e "job" (job_context (jc_job_revision job) (jc_job_ref job)).

Definition build_entries (job : JobContext) (steps : list StepView) (loop_slot : option LoopSlot) (scope : Scope)
    : Entries * list Collision :=
  let files := sn_files (jc_snapshots job) in
  match scope with
  | TaskActionRef ref_input =>
      (upsert (upsert [] "input" (template_input files ref_input)) "job" (job_context (jc_job_revision job) (jc_job_ref job)), [])
  | _ =>
      let '(e, collisions) := fold_left add_step steps (framework_entries job scope, []) in
      let e := if is_condition scope then e else opt_upsert e "each" (each_value files <$> loop_slot) in
      let e := match scope with
               | ApprovalMessage (Some (JObject ((_ :: _) as m))) => upsert e "input" (JObject m)
               | _ => e
               end in
      (e, collisions)
  end.

Definition build (job : JobContext) (steps : list StepView) (loop_slot : option LoopSlot) (scope : Scope) : RenderContext :=
  let '(e, collisions) := build_entries job steps loop_slot scope in
  mkRender (json_obj e) collisions.

Definition webhook_ref (input : json) : RenderContext := mkRender (json_obj [("input", input)]) [].

(** ** Lookups *)

Lemma lookup_upsert e k v k' : json_map_lookup k' (upsert e k v) = if k' ==? k then Some v else json_map_lookup k' e.
Proof.
  induction e as [|[k0 v0] e IH]; [done|]. cbn [upsert json_map_lookup]. destruct (bool_decide (k0 = k)) eqn:E0; cbn [json_map_lookup].
  - apply bool_decide_eq_true in E0 as ->. by destruct (bool_decide (k' = k)).
  - apply bool_decide_eq_false in E0. rewrite IH. repeat case_bool_decide; congruence.
Qed.

Lemma upsert_keys e k v x : x ∈ (upsert e k v).*1 ↔ x = k ∨ x ∈ e.*1.
Proof.
  induction e as [|[k0 v0] e IH]; cbn [upsert fmap list_fmap fst].
  - rewrite list_elem_of_singleton. set_solver.
  - case_bool_decide as E0; cbn [fmap list_fmap fst]; rewrite !elem_of_cons; [naive_solver|]. rewrite IH. tauto.
Qed.

Lemma NoDup_upsert e k v : NoDup e.*1 → NoDup (upsert e k v).*1.
Proof.
  induction e as [|[k0 v0] e IH]; cbn [upsert fmap list_fmap fst]; intros Hnd; [apply NoDup_singleton|].
  apply NoDup_cons in Hnd as [Hn Hnd]. case_bool_decide as E0; cbn [fmap list_fmap fst]; apply NoDup_cons; [done|].
  split; [|by apply IH]. rewrite upsert_keys. naive_solver.
Qed.

Lemma lookup_collect (e m : Entries) k :
  NoDup e.*1 →
  json_map_lookup k (fold_left (λ m p, json_map_insert p.1 p.2 m) e m) =
  match json_map_lookup k e with Some v => Some v | None => json_map_lookup k m end.
Proof.
  revert m. induction e as [|[k0 v0] e IH]; intros m Hnd; [done|]. cbn [fold_left fst snd]. cbn in Hnd.
  apply NoDup_cons in Hnd as [Hn Hnd]. rewrite IH by done. simpl. case_bool_decide as E0.
  - subst k0. rewrite json_map_lookup_insert. destruct (json_map_lookup k e) as [v|] eqn:El; [|done].
    destruct Hn. clear -El. induction e as [|[k1 v1] e IH]; [done|]. simpl in El. case_bool_decide; [subst; left|right; by apply IH].
  - destruct (json_map_lookup k e); [done|]. by rewrite json_map_lookup_insert_ne.
Qed.

Lemma json_get_obj e k : NoDup e.*1 → json_get k (json_obj e) = json_map_lookup k e.
Proof. intros Hnd. unfold json_obj. cbn [json_get]. rewrite lookup_collect by done. by destruct (json_map_lookup k e). Qed.

(** The entry of the last step whose sanitized name is the key. *)
Definition entry_for (k : string) (s : StepView) : option json :=
  e ← step_entry s; if sanitize_name (sv_step_name s) ==? k then Some e else None.
Definition last_entry (k : string) (steps : list StepView) : option json := last (omap (entry_for k) steps).

Lemma lookup_add_steps steps acc k :
  NoDup acc.1.*1 →
  NoDup (fold_left add_step steps acc).1.*1 ∧
  json_map_lookup k (fold_left add_step steps acc).1 =
  match last_entry k steps with Some v => Some v | None => json_map_lookup k acc.1 end.
Proof.
  revert acc. induction steps as [|s steps IH]; intros acc Hnd; [done|]. cbn [fold_left]. unfold last_entry, entry_for. cbn [omap list_omap].
  unfold add_step at 2 4. destruct (step_entry s) as [e|]; simpl; [|by apply IH].
  destruct (IH (upsert acc.1 (sanitize_name (sv_step_name s)) e, acc.2 ++ collisions_of s (sanitize_name (sv_step_name s)))) as [Hnd' Hl].
  { by apply NoDup_upsert. }
  split; [done|]. rewrite Hl. cbn [fst]. rewrite lookup_upsert. fold (entry_for k). fold (last_entry k steps).
  unfold last_entry. rewrite (bool_decide_ext (k = _) (sanitize_name (sv_step_name s) = k)) by done.
  case_bool_decide as Ek; [|done]. destruct (omap (entry_for k) steps) as [|x l]; [done|].
  change (last (e :: x :: l)) with (last (x :: l)). destruct (last (x :: l)) eqn:El; [done|]. by apply last_None in El.
Qed.

(** ** What a template sees *)

(** The framework's value of a variable. *)
Definition framework_value (job : JobContext) (scope : Scope) (k : string) : option json :=
  if k ==? "job" then Some (job_context (jc_job_revision job) (jc_job_ref job))
  else if k ==? "global_state" then Some (snapshot_json (sn_global (jc_snapshots job)))
  else if k ==? "state" then Some (snapshot_json (sn_task (jc_snapshots job)))
  else if k ==? "secret" then object_of <$> (scope_axes job scope).2
  else if k ==? "input" then (scope_axes job scope).1
  else None.

Lemma NoDup_opt_upsert e k o : NoDup e.*1 → NoDup (opt_upsert e k o).*1.
Proof. destruct o; [apply NoDup_upsert|done]. Qed.

Lemma lookup_opt_upsert e k o k' :
  json_map_lookup k' (opt_upsert e k o) = if k' ==? k then match o with Some v => Some v | None => json_map_lookup k' e end else json_map_lookup k' e.
Proof. destruct o; simpl; [apply lookup_upsert|by case_bool_decide]. Qed.

Lemma framework_entries_spec job scope k :
  NoDup (framework_entries job scope).*1 ∧ json_map_lookup k (framework_entries job scope) = framework_value job scope k.
Proof.
  unfold framework_entries, framework_value. destruct (scope_axes job scope) as [input secrets]. split.
  - repeat apply NoDup_upsert. do 2 apply NoDup_opt_upsert. apply NoDup_nil_2.
  - rewrite !lookup_upsert, !lookup_opt_upsert. cbn [fst snd json_map_lookup].
    repeat (case_bool_decide; [subst; try done|]); try done; by destruct input, secrets.
Qed.

(** The value an approval's rendered input overrides [input] with. *)
Definition approval_input (scope : Scope) : option json :=
  match scope with ApprovalMessage (Some (JObject ((_ :: _) as m))) => Some (JObject m) | _ => None end.

Definition is_task_ref (scope : Scope) : bool := match scope with TaskActionRef _ => true | _ => false end.

(** The lookup of a variable, by precedence. *)
Lemma build_lookup job steps slot scope k :
  json_get k (rc_value (build job steps slot scope)) =
  match scope with
  | TaskActionRef ref_input =>
      if k ==? "job" then Some (job_context (jc_job_revision job) (jc_job_ref job))
      else if k ==? "input" then Some (template_input (sn_files (jc_snapshots job)) ref_input) else None
  | _ =>
      match (if k ==? "input" then approval_input scope else None),
            (if (k ==? "each") && negb (is_condition scope) then each_value (sn_files (jc_snapshots job)) <$> slot else None) with
      | Some v, _ | None, Some v => Some v
      | None, None => match last_entry k steps with Some v => Some v | None => framework_value job scope k end
      end
  end.
Proof.
  destruct (is_task_ref scope) eqn:Et.
  - destruct scope; try done. unfold build, build_entries. cbn [rc_value]. rewrite json_get_obj by (repeat apply NoDup_upsert; apply NoDup_nil_2).
    rewrite !lookup_upsert. by repeat case_bool_decide.
  - unfold build, build_entries. destruct (framework_entries_spec job scope k) as [Hnd Hf].
    destruct (lookup_add_steps steps (framework_entries job scope, []) k Hnd) as [Hnd' Hl].
    destruct (fold_left add_step steps (framework_entries job scope, [])) as [e cs] eqn:Ea. cbn [fst] in Hnd', Hl. rewrite Hf in Hl.
    set (e1 := if is_condition scope then e else opt_upsert e "each" (each_value (sn_files (jc_snapshots job)) <$> slot)).
    set (e2 := match scope with ApprovalMessage (Some (JObject ((_ :: _) as m))) => upsert e1 "input" (JObject m) | _ => e1 end).
    assert (H1 : NoDup e1.*1) by (unfold e1; destruct (is_condition scope); [done|by apply NoDup_opt_upsert]).
    assert (He2 : e2 = opt_upsert e1 "input" (approval_input scope)) by (unfold e2, approval_input; by repeat case_match).
    assert (Hg : json_get k (json_obj e2) =
      match (if k ==? "input" then approval_input scope else None),
            (if (k ==? "each") && negb (is_condition scope) then each_value (sn_files (jc_snapshots job)) <$> slot else None) with
      | Some v, _ | None, Some v => Some v
      | None, None => match last_entry k steps with Some v => Some v | None => framework_value job scope k end
      end).
    { rewrite json_get_obj by (rewrite He2; by apply NoDup_opt_upsert). rewrite He2, lookup_opt_upsert, <-Hl. unfold e1.
      destruct (is_condition scope); rewrite ?lookup_opt_upsert; repeat (case_bool_decide; subst); cbn [andb negb];
        destruct (approval_input scope), slot; done. }
    destruct scope; exact Hg || done.
Qed.

(** ** The variables, spelled out *)

(** A row that gives the variable [k]: outside loops, completed, skipped,
    suspended or failed, with this name once its dashes are underscores. *)
Definition gives (k : string) (s : StepView) : Prop :=
  sv_loop_source s = None ∧ sv_status s ∈ ["completed"; "skipped"; "suspended"; "failed"] ∧ sanitize_name (sv_step_name s) = k.
Definition last_giving (k : string) (steps : list StepView) (s : StepView) : Prop :=
  ∃ l1 l2, steps = l1 ++ s :: l2 ∧ gives k s ∧ ∀ s', s' ∈ l2 → ¬ gives k s'.

(** Its output when it completed (or is the failed placeholder of a loop), else
    null; its error when it failed with one; nothing else. *)
Definition step_variable (s : StepView) (v : json) : Prop :=
  json_get "output" v = Some (if (sv_status s ==? "completed") || ((sv_status s ==? "failed") && sv_is_placeholder s)
                              then default JNull (sv_output s) else JNull) ∧
  json_get "error" v = (if sv_status s ==? "failed" then JString <$> sv_error_message s else None) ∧
  ∀ x, x ≠ "output" → x ≠ "error" → json_get x v = None.

Lemma step_entry_spec k s :
  match entry_for k s with Some v => gives k s ∧ step_variable s v | None => ¬ gives k s end.
Proof.
  unfold entry_for, step_entry, gives, step_variable. destruct s as [name status output err src ph]; cbn [sv_step_name sv_status sv_output sv_error_message sv_loop_source sv_is_placeholder].
  destruct src as [src|]; [rewrite (bool_decide_true (is_Some _)) by (by eexists); simpl; by intros [? _]|].
  rewrite (bool_decide_false (is_Some _)) by by intros [].
  destruct (decide (sanitize_name name = k)) as [Hk|Hk].
  2:{ destruct (if status ==? "completed" then _ else _); cbn [mbind option_bind]; rewrite ?bool_decide_false by done; by intros (_ & _ & ?). }
  destruct (decide (status = "completed")) as [->|Hc].
  { cbn. rewrite bool_decide_true by done. split_and!; [done|left|done|done|done|]. intros x H1 H2. cbn. by rewrite !bool_decide_false. }
  rewrite (bool_decide_false (status = "completed")) by done.
  destruct (decide (status = "skipped")) as [->|Hsk].
  { cbn. rewrite bool_decide_true by done. split_and!; [done|set_solver|done|done|done|]. intros x H1 H2. cbn. by rewrite !bool_decide_false. }
  rewrite (bool_decide_false (status = "skipped")) by done.
  destruct (decide (status = "suspended")) as [->|Hsu].
  { cbn. rewrite bool_decide_true by done. split_and!; [done|set_solver|done|done|done|]. intros x H1 H2. cbn. by rewrite !bool_decide_false. }
  rewrite (bool_decide_false (status = "suspended")) by done.
  destruct (decide (status = "failed")) as [->|Hf].
  { cbn. rewrite bool_decide_true by done. split_and!; [done|set_solver|done|by destruct ph, err|by destruct err|].
    intros x H1 H2. unfold json_obj; destruct err; cbn [json_get fold_left fst snd]; by rewrite !json_map_lookup_insert_ne by done. }
  rewrite (bool_decide_false (status = "failed")) by done. simpl. intros (_ & Hin & _). set_solver.
Qed.

Lemma last_entry_spec k steps :
  match last_entry k steps with
  | Some v => ∃ s, last_giving k steps s ∧ step_variable s v
  | None => ∀ s, ¬ last_giving k steps s
  end.
Proof.
  unfold last_entry. induction steps as [|x steps IH] using rev_ind.
  { simpl. intros s (l1 & l2 & E & _). by destruct l1. }
  rewrite omap_app. cbn [omap list_omap]. pose proof (step_entry_spec k x) as Hx. destruct (entry_for k x) as [v|].
  - rewrite last_snoc. exists x. split; [|apply Hx]. exists steps, []. split_and!; [done|apply Hx|]. intros s' H%elem_of_nil. done.
  - rewrite app_nil_r. destruct (last (omap (entry_for k) steps)) as [v|].
    + destruct IH as (s & (l1 & l2 & -> & Hg & Hl) & Hv). exists s. split; [|done]. exists l1, (l2 ++ [x]). rewrite <-app_assoc. split_and!; [done|done|].
      intros s' [?| ->%list_elem_of_singleton]%elem_of_app; [by apply Hl|done].
    + intros s (l1 & l2 & E & Hg & Hl). destruct l2 as [|y l2 _] using rev_ind.
      * apply app_inj_tail in E as [-> ->]. done.
      * rewrite app_comm_cons, app_assoc in E. apply app_inj_tail in E as [-> ->]. apply (IH s). exists l1, l2. split_and!; [done|done|].
        intros s' Hs'. apply Hl, elem_of_app. by left.
Qed.

Lemma last_giving_unique k steps s s' : last_giving k steps s → last_giving k steps s' → s = s'.
Proof.
  intros (l1 & l2 & -> & Hg & Hl) (m1 & m2 & E & Hg' & Hm). apply app_eq_inv in E as [(k' & -> & E)|(k' & -> & E)].
  - destruct k' as [|y k']; simpl in E; [by injection E as -> ->|]. injection E as <- ->. destruct (Hm s); [|done]. apply elem_of_app. right. left.
  - destruct k' as [|y k']; simpl in E; [by injection E as -> ->|]. injection E as <- ->. destruct (Hl s'); [|done]. apply elem_of_app. right. left.
Qed.

Definition job_variable (job : JobContext) (v : json) : Prop :=
  json_get "revision" v = Some (match jc_job_revision job with Some x => JString x | None => JNull end) ∧
  json_get "ref" v = Some (match jc_job_ref job with Some x => JString x | None => JNull end).
Definition loop_variable (files : JobFiles) (s : LoopSlot) (v : json) : Prop :=
  json_get "item" v = Some (rebase_canonical files (sl_item s)) ∧ json_get "index" v = Some (json_int (sl_index s)) ∧
  json_get "total" v = Some (match sl_total s with Some t => json_int t | None => JNull end).

(** What each scope may see of the secrets, and which input. *)
Definition visible_secrets (job : JobContext) (scope : Scope) : option (gmap string json) :=
  match scope with
  | StepInput | AgentPrompt | Condition | ChildTaskInput | ApprovalMessage _ => Some (jc_caller_secrets job)
  | ActionBody _ _ => Some (jc_owner_secrets job)
  | StepRef | TaskActionRef _ => None
  end.
Definition visible_input (job : JobContext) (scope : Scope) : option json :=
  let files := sn_files (jc_snapshots job) in
  match scope with
  | ActionBody (Some v) (Some schema) => Some (template_prepared files v schema)
  | ActionBody prepared _ => prepared
  | TaskActionRef ref_input => Some (template_input files ref_input)
  | _ => template_input files <$> jc_job_input job
  end.

(** C34. What a template sees, variable by variable. In a task action's ref:
    its projected input and the job, and nothing else. Elsewhere: an
    approval's message sees its rendered input, when that is a non-empty
    object; inside a loop [each] has the item, the index and the total (never
    in a condition); any other variable with the name of a step outside loops
    that completed, failed, was skipped or is suspended is the last such
    step's, with its output (null unless it completed or is the failed
    placeholder of a loop) and its error when it failed; and without such a
    step [job] has the revision and the ref, [state] and [global_state] the
    snapshots, [secret] the caller's secrets (the owner's in an action's body,
    none in a ref), [input] the job's input with its files as paths (the
    prepared one in an action's body), and nothing else is defined. *)
Theorem render_context_correct job steps slot scope :
  let get k := json_get k (rc_value (build job steps slot scope)) in
  let files := sn_files (jc_snapshots job) in
  if is_task_ref scope
  then get "input" = visible_input job scope ∧ (∃ v, get "job" = Some v ∧ job_variable job v) ∧
       ∀ k, k ≠ "input" → k ≠ "job" → get k = None
  else
    let each_set := is_Some slot ∧ scope ≠ Condition in
    let approved m := scope = ApprovalMessage (Some (JObject m)) ∧ m ≠ [] in
    (∀ m, approved m → get "input" = Some (JObject m)) ∧
    (∀ s, slot = Some s → scope ≠ Condition → ∃ v, get "each" = Some v ∧ loop_variable files s v) ∧
    (∀ k s, last_giving k steps s → ¬ (k = "each" ∧ each_set) → ¬ (k = "input" ∧ ∃ m, approved m) → ∃ v, get k = Some v ∧ step_variable s v) ∧
    (∀ k, (∀ s, ¬ last_giving k steps s) →
      (k = "job" → ∃ v, get k = Some v ∧ job_variable job v) ∧
      (k = "state" → get k = Some (default JNull (sn_task (jc_snapshots job) ≫= sn_json))) ∧
      (k = "global_state" → get k = Some (default JNull (sn_global (jc_snapshots job) ≫= sn_json))) ∧
      (k = "secret" → get k = object_of <$> visible_secrets job scope) ∧
      (k = "input" → (∀ m, ¬ approved m) → get k = visible_input job scope) ∧
      (k = "each" → ¬ each_set → get k = None) ∧
      (k ∉ ["job"; "state"; "global_state"; "secret"; "input"; "each"] → get k = None)).
Proof.
  cbv zeta. assert (Hjob : job_variable job (job_context (jc_job_revision job) (jc_job_ref job))).
  { unfold job_variable, job_context. by destruct (jc_job_revision job), (jc_job_ref job). }
  assert (Hax : is_task_ref scope = false → scope_axes job scope = (visible_input job scope, visible_secrets job scope)).
  { intros Et. destruct scope as [|[] []| | | | | |]; done. }
  assert (Hcond : is_condition scope = true ↔ scope = Condition) by (by destruct scope).
  assert (Happ : ∀ v, approval_input scope = Some v ↔ ∃ m, (scope = ApprovalMessage (Some (JObject m)) ∧ m ≠ []) ∧ v = JObject m).
  { intros v. unfold approval_input. destruct scope as [| | | | |[[| | | | |[|x l]]|]| |]; naive_solver. }
  destruct (is_task_ref scope) eqn:Et.
  { destruct scope; try done. split_and!; [by rewrite build_lookup|eexists; by rewrite build_lookup|]. intros k H1 H2. rewrite build_lookup.
    by rewrite !bool_decide_false. }
  assert (Hl : ∀ k, json_get k (rc_value (build job steps slot scope)) =
      match (if k ==? "input" then approval_input scope else None),
            (if (k ==? "each") && negb (is_condition scope) then each_value (sn_files (jc_snapshots job)) <$> slot else None) with
      | Some v, _ | None, Some v => Some v
      | None, None => match last_entry k steps with Some v => Some v | None => framework_value job scope k end
      end) by (intros k; rewrite build_lookup; by destruct scope).
  specialize (Hax eq_refl). split_and!.
  - intros m Hm. rewrite Hl. simpl. by rewrite (proj2 (Happ (JObject m))) by by exists m.
  - intros s -> Hc. rewrite Hl. rewrite bool_decide_false, bool_decide_true by done. destruct (is_condition scope); [by destruct Hc; apply Hcond|].
    eexists. split; [done|]. unfold loop_variable, each_value. by destruct (sl_total s).
  - intros k s Hg Hne Hni. rewrite Hl. pose proof (last_entry_spec k steps) as Hs.
    destruct (last_entry k steps) as [v|]; [destruct Hs as (s' & Hg' & Hv); rewrite (last_giving_unique _ _ _ _ Hg Hg')|by destruct (Hs s)].
    exists v. split; [|done]. case_bool_decide as Ei.
    + destruct (approval_input scope) as [w|] eqn:Ea; [|subst; by rewrite bool_decide_false]. destruct (proj1 (Happ w) eq_refl) as (m & Hm & _). destruct Hni. eauto.
    + case_bool_decide as Ee; [|done]. destruct (is_condition scope) eqn:Ec; [done|]. destruct slot as [sl|]; [|done]. destruct Hne. split; [done|].
      split; [by eexists|]. intros E. apply Hcond in E. congruence.
  - intros k Hno. pose proof (last_entry_spec k steps) as Hs. rewrite Hl.
    destruct (last_entry k steps) as [v|]; [destruct Hs as (s & Hg & _); by destruct (Hno s)|].
    unfold framework_value. rewrite Hax. cbn [fst snd]. split_and!.
    + intros ->. simpl. eauto.
    + by intros ->.
    + by intros ->.
    + by intros ->.
    + intros -> Hna. simpl. destruct (approval_input scope) as [w|] eqn:Ea; [|done]. destruct (proj1 (Happ w) eq_refl) as (m & Hm & _). by destruct (Hna m).
    + intros -> Hne. simpl. destruct (is_condition scope) eqn:Ec; [done|]. destruct slot as [sl|]; [|done]. destruct Hne. split; [by eexists|].
      intros E. apply Hcond in E. congruence.
    + intros Hk. rewrite !bool_decide_false by set_solver. done.
Qed.

(** A templated ref is never masked, so no secret is in reach of it: its
    context is the same whatever the secrets are. *)
Definition with_secrets (c o : gmap string json) (job : JobContext) : JobContext :=
  mkJobContext (jc_job_id job) (jc_job_input job) c o (jc_snapshots job) (jc_job_revision job) (jc_job_ref job).
Theorem ref_context_secret_free job steps slot scope c o :
  scope = StepRef ∨ (∃ i, scope = TaskActionRef i) → build (with_secrets c o job) steps slot scope = build job steps slot scope.
Proof. by intros [->|[i ->]]. Qed.
