(* ===== verification/InputFiles.v ===== *)
(** * Uploaded input files

    The tables and statements of [crates/stroem-db/src/repos/input_file.rs]
    with their constraints (migration 054), the upload of
    [input_files/upload.rs] and [stream.rs], the acceptance of file values at
    job creation ([input_files/accept.rs]), the files a claim hands out
    ([attachments.rs]), and the sweep of unused files
    ([recovery.rs::sweep_input_files]).

    [attach_tx] locks the file row [FOR SHARE] and [mark_deleting_tx] locks it
    [FOR UPDATE], so the two transactions on one file are serial: each is one
    function here. *)
From S2P Require Import Prelude Json Text Lines Utf8 Workflow Db FileField.

(** ** Tables *)

Record InputFileRow := mkInputFile {
  f_file_id : string;
  f_workspace : string;
  f_task_name : string;
  f_uploaded_by_user_id : option Uuid;
  f_origin : string;
  f_original_name : string;
  f_safe_name : string;
  f_content_type : string;
  f_size_bytes : Z;
  f_sha256 : string;
  f_storage_key : string;
  f_created_at : Time;
  f_deleting_at : option Time;
}.

Record NewInputFile := mkNewInputFile {
  nf_file_id : string;
  nf_workspace : string;
  nf_task_name : string;
  nf_uploaded_by_user_id : option Uuid;
  nf_origin : string;
  nf_original_name : string;
  nf_safe_name : string;
  nf_content_type : string;
  nf_size_bytes : Z;
  nf_sha256 : string;
  nf_storage_key : string;
}.

Record UploadTokenRow := mkUploadToken { ut_user_id : Uuid; ut_workspace : string; ut_task_name : string; ut_original_name : string }.
Record UploadTokenRec := mkTokenRec { tk_row : UploadTokenRow; tk_expires_at : Time; tk_used_at : option Time }.

Record FileTables := mkFileTables {
  input_file : gmap string InputFileRow;
  job_input_file : gmap (Uuid * string) string;
  upload_token : gmap string UploadTokenRec;
}.

Definition with_input_file (t : gmap string InputFileRow) (db : FileTables) : FileTables :=
  mkFileTables t (job_input_file db) (upload_token db).
Definition with_attachments (t : gmap (Uuid * string) string) (db : FileTables) : FileTables :=
  mkFileTables (input_file db) t (upload_token db).
Definition with_tokens (t : gmap string UploadTokenRec) (db : FileTables) : FileTables :=
  mkFileTables (input_file db) (job_input_file db) t.

(** ** [InputFileRepo] *)

Definition ORIGINS : list string := ["api"; "mcp_inline"; "mcp_url"].

(** The checks of the table; [created_at] has its default. *)
Definition insert_file (now : Time) (f : NewInputFile) (db : FileTables) : result string FileTables :=
  if is_file_id (nf_file_id f) && bool_decide (nf_origin f ∈ ORIGINS) && (0 <=? nf_size_bytes f)%Z &&
     bool_decide (input_file db !! nf_file_id f = None)
  then Ok (with_input_file (<[nf_file_id f :=
         mkInputFile (nf_file_id f) (nf_workspace f) (nf_task_name f) (nf_uploaded_by_user_id f) (nf_origin f) (nf_original_name f)
           (nf_safe_name f) (nf_content_type f) (nf_size_bytes f) (nf_sha256 f) (nf_storage_key f) now None]> (input_file db)) db)
  else Err "insert input_file".

Definition get_file (file_id : string) (db : FileTables) : option InputFileRow := input_file db !! file_id.

(** [EXISTS (SELECT 1 FROM job_input_file WHERE file_id = $1)] *)
Definition attached (file_id : string) (db : FileTables) : bool :=
  bool_decide (filter (λ p, p.2 = file_id) (job_input_file db) ≠ ∅).

Definition sweepable (now ttl : Time) (db : FileTables) (f : InputFileRow) : bool :=
  (f_deleting_at f <>? None) || negb (attached (f_file_id f) db) && (f_created_at f <? now - ttl)%Z.

(** [ORDER BY f.created_at, f.file_id] *)
Definition oldest_first `{Collation} (a b : InputFileRow) : bool :=
  if (f_created_at a =? f_created_at b)%Z then text_leb (f_file_id a) (f_file_id b) else (f_created_at a <? f_created_at b)%Z.

Definition sweep_candidates `{Collation} (now ttl : Time) (limit : nat) (db : FileTables) : list string :=
  f_file_id <$> take limit (sort_by oldest_first (sql_select (λ _ f, sweepable now ttl db f) (input_file db))).

Definition set_deleting (now : Time) (f : InputFileRow) : InputFileRow :=
  mkInputFile (f_file_id f) (f_workspace f) (f_task_name f) (f_uploaded_by_user_id f) (f_origin f) (f_original_name f) (f_safe_name f)
    (f_content_type f) (f_size_bytes f) (f_sha256 f) (f_storage_key f) (f_created_at f) (Some (default now (f_deleting_at f))).

Definition mark_deleting_tx (now : Time) (file_id : string) (db : FileTables) : FileTables * option InputFileRow :=
  match input_file db !! file_id with
  | None => (db, None)
  | Some f =>
      if attached file_id db then (db, None)
      else (with_input_file (<[file_id := set_deleting now f]> (input_file db)) db, Some (set_deleting now f))
  end.

Definition delete_file (file_id : string) (db : FileTables) : FileTables * bool :=
  match input_file db !! file_id with
  | Some f =>
      if (f_deleting_at f <>? None) && negb (attached file_id db)
      then (with_input_file (delete file_id (input_file db)) db, true) else (db, false)
  | None => (db, false)
  end.

(** ** [JobInputFileRepo] *)

Inductive AttachRule :=
| Own (workspace task_name : string) (user_id : option Uuid) (ttl : Time)
| Lineage (job_id : Uuid).

Definition rule_allows (now : Time) (file_id : string) (rule : AttachRule) (db : FileTables) : bool :=
  match rule with
  | Own ws task user ttl =>
      match input_file db !! file_id with
      | Some f => (f_workspace f ==? ws) && (f_task_name f ==? task) && (f_uploaded_by_user_id f ==? user) &&
                  (now - ttl <? f_created_at f)%Z
      | None => false
      end
  | Lineage source => bool_decide (filter (λ p, p.1.1 = source ∧ p.2 = file_id) (job_input_file db) ≠ ∅)
  end.

(** [Err]: the primary key [(job_id, field)] is taken. *)
Definition attach_tx (now : Time) (job_id : Uuid) (field file_id : string) (rules : list AttachRule) (db : FileTables) :
    result string (FileTables * bool) :=
  match f_deleting_at <$> input_file db !! file_id with
  | Some None =>
      if existsb (λ r, rule_allows now file_id r db) rules then
        match job_input_file db !! (job_id, field) with
        | None => Ok (with_attachments (<[(job_id, field) := file_id]> (job_input_file db)) db, true)
        | Some _ => Err "insert job_input_file"
        end
      else Ok (db, false)
  | _ => Ok (db, false)
  end.

Record JobInputFileRow := mkJobInputFile { jf_job_id : Uuid; jf_field : string; jf_file : InputFileRow }.

(** The join of the attachments of a job with their files. *)
Definition attachment_rows (w : Uuid * string → string → bool) (db : FileTables) : list JobInputFileRow :=
  flat_map (λ '(k, id), if w k id then match input_file db !! id with Some f => [mkJobInputFile k.1 k.2 f] | None => [] end else [])
    (map_to_list (job_input_file db)).

Definition by_field `{Collation} (a b : JobInputFileRow) : bool := text_leb (jf_field a) (jf_field b).

Definition list_for_job `{Collation} (job_id : Uuid) (db : FileTables) : list JobInputFileRow :=
  sort_by by_field (attachment_rows (λ k _, k.1 ==? job_id) db).
Definition get_for_field (job_id : Uuid) (field : string) (db : FileTables) : option JobInputFileRow :=
  head (attachment_rows (λ k _, k ==? (job_id, field)) db).
Definition get_attached `{Collation} (job_id : Uuid) (file_id : string) (db : FileTables) : option JobInputFileRow :=
  head (sort_by by_field (attachment_rows (λ k id, (k.1 ==? job_id) && (id ==? file_id)) db)).

(** [DELETE FROM job_input_file WHERE job_id = $1], of [JobRepo::delete]. *)
Definition delete_attachments (job_id : Uuid) (db : FileTables) : FileTables :=
  with_attachments (filter (λ p, p.1.1 ≠ job_id) (job_input_file db)) db.

(** ** [UploadTokenRepo] *)

Definition insert_token (token : string) (row : UploadTokenRow) (expires_at : Time) (db : FileTables) : result string FileTables :=
  match upload_token db !! token with
  | Some _ => Err "insert upload token"
  | None => Ok (with_tokens (<[token := mkTokenRec row expires_at None]> (upload_token db)) db)
  end.

Definition consume_token (now : Time) (token : string) (db : FileTables) : FileTables * option UploadTokenRow :=
  match upload_token db !! token with
  | Some t =>
      if (tk_used_at t ==? None) && (now <? tk_expires_at t)%Z
      then (with_tokens (<[token := mkTokenRec (tk_row t) (tk_expires_at t) (Some now)]> (upload_token db)) db, Some (tk_row t))
      else (db, None)
  | None => (db, None)
  end.

Definition delete_expired (now : Time) (db : FileTables) : FileTables * nat :=
  (with_tokens (filter (λ p, (now < tk_expires_at p.2)%Z) (upload_token db)) db,
   size (filter (λ p, (tk_expires_at p.2 ≤ now)%Z) (upload_token db))).

(** ** Acceptance of file values *)

Inductive FileInputErrorKind := CannotUse | Required | InlineTooLarge (cap : Z).
Record FileInputError := mkFileInputError { fe_field : string; fe_kind : FileInputErrorKind }.

Inductive FileGrant := Indirect | Direct (user_id : option Uuid) (ttl : Time) | TaskChild.

(** Absent, [null] and the empty string are no file. *)
Definition is_no_file (v : option json) : bool :=
  match v with
  | None | Some JNull => true
  | Some (JString s) => s ==? ""
  | Some _ => false
  end.

(** [a.0.cmp(b.0)] on the bytes of the names. *)
Definition name_leb (a b : string * InputFieldDef) : bool := String.leb a.1 b.1.
Definition sorted_file_fields `{HashIter} (schema : gmap string InputFieldDef) : list (string * InputFieldDef) :=
  sort_by name_leb (List.filter (λ p, field_type p.2 ==? FILE_TYPE) (hash_iter schema)).

Fixpoint file_values_loop (input : json) (fields : list (string * InputFieldDef)) (values : list (string * string)) :
    result FileInputError (list (string * string)) :=
  match fields with
  | [] => Ok values
  | (name, def) :: rest =>
      let v := json_get name input in
      if is_no_file v then
        if if_required def then Err (mkFileInputError name Required) else file_values_loop input rest values
      else
        match v with
        | Some (JString s) =>
            if is_file_id s then file_values_loop input rest (values ++ [(name, s)]) else Err (mkFileInputError name CannotUse)
        | _ => Err (mkFileInputError name CannotUse)
        end
  end.

Definition task_file_values `{HashIter} (schema : gmap string InputFieldDef) (input : json) :
    result FileInputError (list (string * string)) :=
  file_values_loop input (sorted_file_fields schema) [].

Definition preflight `{HashIter} (schema : gmap string InputFieldDef) (input : json) : result FileInputError unit :=
  let fields := sorted_file_fields schema in
  match find (λ p, if_required p.2) fields with
  | Some (name, _) => Err (mkFileInputError name Required)
  | None =>
      match find (λ p, negb (is_no_file (json_get p.1 input))) fields with
      | Some (name, _) => Err (mkFileInputError name CannotUse)
      | None => Ok tt
      end
  end.

Inductive AttachError := AttachDb (e : string) | AttachInput (e : FileInputError).

Fixpoint attach_loop (now : Time) (job_id : Uuid) (rules : list AttachRule) (values : list (string * string)) (db : FileTables) :
    result AttachError FileTables :=
  match values with
  | [] => Ok db
  | (field, file_id) :: rest =>
      match attach_tx now job_id field file_id rules db with
      | Err e => Err (AttachDb e)
      | Ok (db', true) => attach_loop now job_id rules rest db'
      | Ok (_, false) => Err (AttachInput (mkFileInputError field CannotUse))
      end
  end.

Definition grant_rules (workspace task_name : string) (grant : FileGrant) (lineage : option Uuid) : list AttachRule :=
  option_list (Lineage <$> lineage) ++
  match grant with Direct user_id ttl => [Own workspace task_name user_id ttl] | _ => [] end.

Definition attach_all_tx (now : Time) (job_id : Uuid) (workspace task_name : string) (values : list (string * string))
    (grant : FileGrant) (lineage : option Uuid) (db : FileTables) : result AttachError FileTables :=
  attach_loop now job_id (grant_rules workspace task_name grant lineage) values db.

(** ** The files of a claim *)

Definition job_files (rows : list JobInputFileRow) (root : string) : JobFiles :=
  job_files_new root ((λ r, (jf_field r, mkFileRef (f_file_id (jf_file r)) (f_safe_name (jf_file r)))) <$> rows).

Record ClaimedInputFile := mkClaimed { cf_file_id : string; cf_safe_name : string; cf_size_bytes : Z; cf_sha256 : string }.

Definition claim_file (by_id : gmap string ClaimedInputFile) (r : JobInputFileRow) : gmap string ClaimedInputFile :=
  let f := jf_file r in
  match by_id !! f_file_id f with
  | Some _ => by_id
  | None => <[f_file_id f := mkClaimed (f_file_id f) (f_safe_name f) (as_u64 (f_size_bytes f)) (f_sha256 f)]> by_id
  end.

Definition id_leb (a b : string * ClaimedInputFile) : bool := String.leb a.1 b.1.
Definition claimed_files (rows : list JobInputFileRow) : list ClaimedInputFile :=
  (sort_by id_leb (map_to_list (fold_left claim_file rows ∅))).*2.

(** ** Uploads *)

Abbreviation Blobs := (gmap string Bytes).

Inductive PutError := PutTooLarge (max : Z) | PutBody (e : string) | PutStorage.
Record Stored := mkStored { size_bytes : Z; sha256 : string }.

(** What the counted stream has seen. *)
Record Tally := mkTally { t_size : Z; t_hashed : Bytes; t_too_large : bool; t_body_err : option string }.

(** The items of the body the backend has drained. After the first error the
    stream ends. *)
Fixpoint counted (max : Z) (body : list (result string Bytes)) (t : Tally) : list Bytes * Tally :=
  match body with
  | [] => ([], t)
  | Ok chunk :: rest =>
      let size := u64_saturating_add (t_size t) (Z.of_nat (length chunk)) in
      if (max <? size)%Z then ([], mkTally size (t_hashed t) true (t_body_err t))
      else
        let '(out, t') := counted max rest (mkTally size (t_hashed t ++ chunk) (t_too_large t) (t_body_err t)) in
        (chunk :: out, t')
  | Err e :: _ => ([], mkTally (t_size t) (t_hashed t) (t_too_large t) (Some e))
  end.

(** How a backend treated one stream: the items it drained, whether it
    reported success, and the objects afterwards. *)
Record PutRun := mkPutRun { drained : nat; put_ok : bool; after_put : Blobs }.

(** What [BlobArchive::put_stream] is relied on for: only the object under
    the key changes; a success for a stream without an error means that the
    whole stream is stored. *)
Definition lawful_put (key : string) (body : list (result string Bytes)) (blobs : Blobs) (run : PutRun) : Prop :=
  (∀ k, k ≠ key → after_put run !! k = blobs !! k) ∧
  (put_ok run = true → (∃ e, Err e ∈ take (drained run) body) ∨
     ((length body ≤ drained run)%nat ∧
      after_put run !! key = Some (concat (omap (λ c, match c with Ok b => Some b | Err _ => None end) body)))).

Section upload.
Context (sha256_hex : Bytes → string).

(** [discarded]: the [delete] of the backend succeeds. *)
Definition put_counted (key : string) (body : list (result string Bytes)) (max : Z) (run : PutRun) (discarded : bool) :
    Blobs * result PutError Stored :=
  let t := (counted max (take (drained run) body) (mkTally 0 [] false None)).2 in
  let discard := if discarded then delete key (after_put run) else after_put run in
  if t_too_large t || bool_decide (is_Some (t_body_err t)) then
    (if put_ok run then discard else after_put run,
     Err (match t_body_err t with
          | Some e => if t_too_large t then PutTooLarge max else PutBody e
          | None => PutTooLarge max
          end))
  else if put_ok run then (after_put run, Ok (mkStored (t_size t) (sha256_hex (t_hashed t))))
  else (discard, Err PutStorage).

Record UploadTarget := mkTarget {
  ut_ws : string; ut_task : string; ut_name : string; ut_content_type : string; ut_user : option Uuid; ut_origin : string }.

Inductive UploadError := InvalidName | TooLarge (max : Z) | NotConfigured | Internal.

Definition storage_key (prefix workspace file_id : string) : string := prefix +:+ workspace +:+ "/" +:+ file_id.

(** [n as i64] of a [u64]. *)
Definition as_i64 (n : Z) : Z := ((n + 9223372036854775808) mod u64_modulus - 9223372036854775808)%Z.

(** [store_upload_inner] up to the insert: the row to be recorded, with the
    object stored. [length_limited] tells which body errors are the length
    limit of the HTTP stack. *)
Definition store_blob (length_limited : string → bool) (configured : bool) (prefix : string) (max : Z) (t : UploadTarget) (content_length : option Z) (file_id : string)
    (body : list (result string Bytes)) (run : PutRun) (discarded : bool) (blobs : Blobs) : Blobs * result UploadError NewInputFile :=
  match safe_name (ut_name t) with
  | None => (blobs, Err InvalidName)
  | Some safe =>
      if negb configured then (blobs, Err NotConfigured)
      else if match content_length with Some n => (max <? n)%Z | None => false end then (blobs, Err (TooLarge max))
      else
        let key := storage_key prefix (ut_ws t) file_id in
        match put_counted key body max run discarded with
        | (blobs', Ok stored) =>
            (blobs', Ok (mkNewInputFile file_id (ut_ws t) (ut_task t) (ut_user t) (ut_origin t) (ut_name t) safe
                           (ut_content_type t) (as_i64 (size_bytes stored)) (sha256 stored) key))
        | (blobs', Err (PutTooLarge m)) => (blobs', Err (TooLarge m))
        | (blobs', Err (PutBody e)) => (blobs', Err (if length_limited e then TooLarge max else Internal))
        | (blobs', Err PutStorage) => (blobs', Err Internal)
        end
  end.
End upload.

(** ** The sweep *)

(** The failures of the statements and of the backend. *)
Record SweepEnv := mkSweepEnv {
  tokens_fail : bool;
  list_fails : bool;
  mark_fails : string → bool;
  blob_delete_fails : string → bool;
  row_delete_fails : string → bool;
}.

Definition sweep_file (env : SweepEnv) (now : Time) (st : FileTables * Blobs) (file_id : string) : FileTables * Blobs :=
  let '(db, blobs) := st in
  if mark_fails env file_id then st
  else
    match mark_deleting_tx now file_id db with
    | (db', None) => (db', blobs)
    | (db', Some row) =>
        if blob_delete_fails env (f_storage_key row) then (db', blobs)
        else
          let blobs' := delete (f_storage_key row) blobs in
          (if row_delete_fails env file_id then db' else (delete_file file_id db').1, blobs')
    end.

Definition sweep_input_files `{Collation} (env : SweepEnv) (configured : bool) (now ttl : Time) (st : FileTables * Blobs) :
    FileTables * Blobs :=
  let st := if tokens_fail env then st else ((delete_expired now st.1).1, st.2) in
  if negb configured then st
  else if list_fails env then st
  else fold_left (sweep_file env now) (sweep_candidates now ttl 1000 st.1) st.

(** ** Facts *)

Lemma attached_spec file_id db : attached file_id db = true ↔ ∃ k, job_input_file db !! k = Some file_id.
Proof.
  unfold attached. rewrite bool_decide_eq_true. split.
  - intros Hne. apply map_choose in Hne as (k & id & Hk). apply map_lookup_filter_Some in Hk as [Hk Hid]. simpl in Hid. subst. eauto.
  - intros [k Hk] E. assert (H : filter (λ p, p.2 = file_id) (job_input_file db) !! k = None) by (by rewrite E, lookup_empty).
    rewrite map_lookup_filter_None in H. destruct H as [H|H]; [congruence|]. by apply (H file_id Hk).
Qed.

Lemma attached_false file_id db : attached file_id db = false ↔ ∀ k, job_input_file db !! k ≠ Some file_id.
Proof.
  split.
  - intros H k Hk. assert (attached file_id db = true) by (apply attached_spec; eauto). congruence.
  - intros H. apply not_true_is_false. intros [k Hk]%attached_spec. by apply (H k).
Qed.

(** Two ids never share a storage key: an id is the last 37 bytes of its key. *)
Lemma storage_key_inj prefix w w' f f' : is_file_id f = true → is_file_id f' = true →
  storage_key prefix w f = storage_key prefix w' f' → f = f'.
Proof.
  intros (Hl & _)%is_file_id_spec (Hl' & _)%is_file_id_spec E%(f_equal bytes). unfold storage_key in E. rewrite !bytes_app in E.
  rewrite !app_assoc in E. apply (inj bytes). apply app_inj_2 in E as [_ E]; [done|]. by rewrite Hl, Hl'.
Qed.

(** A tally that saw no error hashed and counted the whole stream. *)
Lemma counted_clean max body t : let t' := (counted max body t).2 in
  t_too_large t' = false → t_body_err t' = None → (t_size t ≤ u64_max)%Z →
  ∃ chunks, body = Ok <$> chunks ∧ t_hashed t' = t_hashed t ++ concat chunks ∧
    t_size t' = Z.min u64_max (t_size t + Z.of_nat (length (concat chunks))).
Proof.
  revert t. induction body as [|[chunk|e] body IH]; intros t; cbn [counted].
  - intros _ _ Hm. exists []. split; [done|]. simpl. rewrite app_nil_r. split; [done|]. lia.
  - case_match eqn:E; [done|]. specialize (IH (mkTally (u64_saturating_add (t_size t) (Z.of_nat (length chunk))) (t_hashed t ++ chunk) (t_too_large t) (t_body_err t))).
    destruct (counted max body _) as [out t'] eqn:Ec. cbn [snd] in *. intros H1 H2 Hm. cbn [t_hashed t_size] in IH.
    unfold u64_saturating_add in IH. destruct (IH H1 H2 ltac:(lia)) as (chunks & -> & Hh & Hs).
    exists (chunk :: chunks). split; [done|]. split; [by rewrite Hh, <-app_assoc|].
    cbn [concat]. rewrite length_app, Hs. lia.
  - done.
Qed.

Lemma as_i64_nonneg n : (0 ≤ n ≤ u64_max)%Z → (0 ≤ as_i64 n)%Z → as_i64 n = n ∧ (n < u64_max)%Z.
Proof.
  unfold as_i64, u64_max, u64_modulus. intros Hn H.
  destruct (decide (n < 9223372036854775808)%Z) as [Hlt|Hge]; [rewrite Z.mod_small in * by lia; lia|].
  rewrite <-(Z_mod_plus_full _ (-1)) in H. rewrite Z.mod_small in H by lia. lia.
Qed.
