(* ===== verification/InputFileLife.v ===== *)
(** * The life of an input file

    Uploads, job creations, job deletions and sweeps as processes that
    interleave statement by statement, any of which can fail or die in the
    middle. A file that is attached to a job keeps its row and its bytes. *)
From S2P Require Import Prelude Json Text Lines Utf8 Workflow Db FileField InputFiles.

Section life.
Context (sha256_hex : Bytes → string) (length_limited : string → bool) (prefix : string).

(** An upload whose object is stored, whose row is recorded, or that gave up
    and is about to delete the object. *)
Inductive Upload := UStored (new : NewInputFile) | UInserted (new : NewInputFile) | UDiscard (new : NewInputFile).

(** A sweep of one file: its row is marked, its object is deleted. *)
Inductive Sweep := SMarked (row : InputFileRow) | SBlobGone (row : InputFileRow).

(** [published]: the ids an upload has answered with. *)
Record World := mkWorld {
  w_now : Time;
  w_db : FileTables;
  w_blobs : Blobs;
  w_uploads : gmap nat Upload;
  w_sweeps : gmap nat Sweep;
  w_published : gset string;
}.

Definition up_new (u : Upload) : NewInputFile := match u with UStored n | UInserted n | UDiscard n => n end.
Definition sw_row (s : Sweep) : InputFileRow := match s with SMarked r | SBlobGone r => r end.

(** [new_file_id]: a random id nobody has seen. *)
Record fresh (w : World) (id : string) : Prop := {
  fresh_shape : is_file_id id = true;
  fresh_row : input_file (w_db w) !! id = None;
  fresh_published : (id ∉ w_published w);
  fresh_upload i u : w_uploads w !! i = Some u → nf_file_id (up_new u) ≠ id;
  fresh_sweep i s : w_sweeps w !! i = Some s → f_file_id (sw_row s) ≠ id;
}.

Definition set_uploads (us : gmap nat Upload) (w : World) : World :=
  mkWorld (w_now w) (w_db w) (w_blobs w) us (w_sweeps w) (w_published w).
Definition set_sweeps (ss : gmap nat Sweep) (w : World) : World :=
  mkWorld (w_now w) (w_db w) (w_blobs w) (w_uploads w) ss (w_published w).
Definition set_db (db : FileTables) (w : World) : World :=
  mkWorld (w_now w) db (w_blobs w) (w_uploads w) (w_sweeps w) (w_published w).
Definition set_blobs (b : Blobs) (w : World) : World :=
  mkWorld (w_now w) (w_db w) b (w_uploads w) (w_sweeps w) (w_published w).

Inductive life : World → World → Prop :=
| life_time w t : (w_now w ≤ t)%Z → life w (mkWorld t (w_db w) (w_blobs w) (w_uploads w) (w_sweeps w) (w_published w))
| life_put w i id configured max t len body run discarded blobs' r :
    fresh w id → w_uploads w !! i = None →
    lawful_put (storage_key prefix (ut_ws t) id) body (w_blobs w) run →
    store_blob sha256_hex length_limited configured prefix max t len id body run discarded (w_blobs w) = (blobs', r) →
    life w (set_blobs blobs' (set_uploads (match r with Ok new => <[i := UStored new]> (w_uploads w) | Err _ => w_uploads w end) w))
| life_insert w i new db' :
    w_uploads w !! i = Some (UStored new) → insert_file (w_now w) new (w_db w) = Ok db' →
    life w (set_db db' (set_uploads (<[i := UInserted new]> (w_uploads w)) w))
(** The insert fails, or the answer to it is lost. *)
| life_insert_fails w i new :
    w_uploads w !! i = Some (UStored new) → life w (set_uploads (<[i := UDiscard new]> (w_uploads w)) w)
| life_insert_lost w i new db' :
    w_uploads w !! i = Some (UStored new) → insert_file (w_now w) new (w_db w) = Ok db' →
    life w (set_db db' (set_uploads (<[i := UDiscard new]> (w_uploads w)) w))
| life_answer w i new row :
    w_uploads w !! i = Some (UInserted new) → get_file (nf_file_id new) (w_db w) = Some row →
    life w (mkWorld (w_now w) (w_db w) (w_blobs w) (delete i (w_uploads w)) (w_sweeps w) ({[nf_file_id new]} ∪ w_published w))
(** The row is gone again, or the read fails. *)
| life_read_fails w i new :
    w_uploads w !! i = Some (UInserted new) → life w (set_uploads (<[i := UDiscard new]> (w_uploads w)) w)
| life_discard w i new :
    w_uploads w !! i = Some (UDiscard new) →
    life w (set_blobs (delete (nf_storage_key new) (w_blobs w)) (set_uploads (delete i (w_uploads w)) w))
| life_upload_dies w i : life w (set_uploads (delete i (w_uploads w)) w)
(** A job creation names ids its caller was given. *)
| life_attach w job_id ws task values grant lineage db' :
    Forall (λ v, v.2 ∈ w_published w) values →
    attach_all_tx (w_now w) job_id ws task values grant lineage (w_db w) = Ok db' → life w (set_db db' w)
| life_delete_job w job_id : life w (set_db (delete_attachments job_id (w_db w)) w)
| life_mark w i id db' row :
    w_sweeps w !! i = None → mark_deleting_tx (w_now w) id (w_db w) = (db', Some row) →
    life w (set_db db' (set_sweeps (<[i := SMarked row]> (w_sweeps w)) w))
| life_blob_deleted w i row :
    w_sweeps w !! i = Some (SMarked row) →
    life w (set_blobs (delete (f_storage_key row) (w_blobs w)) (set_sweeps (<[i := SBlobGone row]> (w_sweeps w)) w))
| life_row_deleted w i row :
    w_sweeps w !! i = Some (SBlobGone row) →
    life w (set_db (delete_file (f_file_id row) (w_db w)).1 (set_sweeps (delete i (w_sweeps w)) w))
| life_sweep_dies w i : life w (set_sweeps (delete i (w_sweeps w)) w)
| life_tokens w token row expires_at db' :
    insert_token token row expires_at (w_db w) = Ok db' → life w (set_db db' w)
| life_consume w token : life w (set_db (consume_token (w_now w) token (w_db w)).1 w)
| life_expire w : life w (set_db (delete_expired (w_now w) (w_db w)).1 w).

Definition empty_world (t : Time) : World := mkWorld t (mkFileTables ∅ ∅ ∅) ∅ ∅ ∅ ∅.

(** ** The invariant *)

(** The object of a row is there, with the recorded size and digest. *)
Definition stored (blobs : Blobs) (key : string) (size : Z) (digest : string) : Prop :=
  ∃ data, blobs !! key = Some data ∧ Z.of_nat (length data) = size ∧ sha256_hex data = digest.

Definition row_ok (id : string) (row : InputFileRow) : Prop :=
  is_file_id id = true ∧ f_file_id row = id ∧ ∃ ws, f_storage_key row = storage_key prefix ws id.

Definition new_ok (n : NewInputFile) : Prop :=
  is_file_id (nf_file_id n) = true ∧ ∃ ws, nf_storage_key n = storage_key prefix ws (nf_file_id n).

(** The object behind an upload; a size that does not fit is refused by the insert. *)
Definition new_stored (blobs : Blobs) (n : NewInputFile) : Prop :=
  (0 ≤ nf_size_bytes n)%Z → stored blobs (nf_storage_key n) (nf_size_bytes n) (nf_sha256 n).

Record invariant (w : World) : Prop := {
  inv_row id row : input_file (w_db w) !! id = Some row → row_ok id row;
  inv_blob id row : input_file (w_db w) !! id = Some row → f_deleting_at row = None →
    id ∈ w_published w ∨ (∃ i n, w_uploads w !! i = Some (UInserted n) ∧ nf_file_id n = id) →
    stored (w_blobs w) (f_storage_key row) (f_size_bytes row) (f_sha256 row);
  inv_attached k id : job_input_file (w_db w) !! k = Some id →
    id ∈ w_published w ∧ ∃ row, input_file (w_db w) !! id = Some row ∧ f_deleting_at row = None;
  inv_upload i u : w_uploads w !! i = Some u → new_ok (up_new u) ∧ (nf_file_id (up_new u) ∉ w_published w);
  inv_upload_distinct i j u v : w_uploads w !! i = Some u → w_uploads w !! j = Some v →
    nf_file_id (up_new u) = nf_file_id (up_new v) → i = j;
  inv_stored i n : w_uploads w !! i = Some (UStored n) → new_stored (w_blobs w) n ∧ input_file (w_db w) !! nf_file_id n = None;
  inv_apart i j n s : w_uploads w !! i = Some (UStored n) → w_sweeps w !! j = Some s → nf_file_id n ≠ f_file_id (sw_row s);
  inv_sweep i s : w_sweeps w !! i = Some s → row_ok (f_file_id (sw_row s)) (sw_row s) ∧
    ∀ row, input_file (w_db w) !! f_file_id (sw_row s) = Some row → f_deleting_at row ≠ None;
}.

Lemma invariant_empty t : invariant (empty_world t).
Proof. split; intros *; intros H; try (cbn in H; rewrite lookup_empty in H; discriminate H). Qed.

Lemma stored_other blobs blobs' key size digest :
  blobs' !! key = blobs !! key → stored blobs key size digest → stored blobs' key size digest.
Proof. intros E (data & H & Hrest). exists data. by rewrite E. Qed.

Lemma keys_differ ws ws' f f' : is_file_id f = true → is_file_id f' = true → f ≠ f' → storage_key prefix ws f ≠ storage_key prefix ws' f'.
Proof. intros Hf Hf' Hne E. by apply storage_key_inj in E. Qed.

(** What a finished put leaves. *)
Lemma store_blob_ok configured max t len id body run discarded blobs blobs' r :
  lawful_put (storage_key prefix (ut_ws t) id) body blobs run →
  store_blob sha256_hex length_limited configured prefix max t len id body run discarded blobs = (blobs', r) →
  (∀ k, k ≠ storage_key prefix (ut_ws t) id → blobs' !! k = blobs !! k) ∧
  match r with
  | Ok n => nf_file_id n = id ∧ nf_storage_key n = storage_key prefix (ut_ws t) id ∧ new_stored blobs' n
  | Err _ => True
  end.
Proof.
  intros [Hother Hok] E. unfold store_blob in E. destruct (safe_name (ut_name t)) as [safe|]; [|by simplify_eq].
  destruct configured; cbn [negb] in E; [|by simplify_eq]. destruct (match len with Some n => (max <? n)%Z | None => false end); [by simplify_eq|].
  set (key := storage_key prefix (ut_ws t) id) in *.
  assert (Hd : ∀ k, k ≠ key → (if discarded then delete key (after_put run) else after_put run) !! k = blobs !! k).
  { intros k Hk. destruct discarded; [rewrite lookup_delete_ne by done|]; by apply Hother. }
  unfold put_counted in E. set (tl := (counted max (take (drained run) body) (mkTally 0 [] false None)).2) in *.
  destruct (t_too_large tl || bool_decide (is_Some (t_body_err tl))) eqn:Ebad.
  - assert (Hb : ∀ k, k ≠ key → (if put_ok run then if discarded then delete key (after_put run) else after_put run else after_put run) !! k = blobs !! k)
      by (destruct (put_ok run); [exact Hd|exact Hother]).
    destruct (t_body_err tl) as [e|]; [destruct (t_too_large tl)|]; simplify_eq; done.
  - apply orb_false_iff in Ebad as [Hl He]. apply bool_decide_eq_false in He. destruct (put_ok run) eqn:Eok; [|by simplify_eq].
    injection E as <- <-. split; [exact Hother|]. cbn [nf_file_id nf_storage_key]. split; [done|]. split; [done|].
    destruct (counted_clean max (take (drained run) body) (mkTally 0 [] false None)) as (chunks & Hc & Hh & Hsz).
    { done. } { fold tl. destruct (t_body_err tl); [by destruct He|done]. } { cbn. unfold u64_max. lia. }
    fold tl in Hh, Hsz. cbn [t_hashed t_size app] in Hh, Hsz. rewrite Z.add_0_l in Hsz.
    destruct (Hok eq_refl) as [[e Hin]|[Hdr Hput]].
    { rewrite Hc in Hin. apply list_elem_of_fmap in Hin as (? & ? & _). done. }
    rewrite take_ge in Hc by done. subst body.
    assert (Ho : omap (λ c : result string Bytes, match c with Ok b => Some b | Err _ => None end) (Ok <$> chunks) = chunks)
      by (clear; induction chunks as [|c chunks IH]; [done|cbn; f_equal; exact IH]).
    rewrite Ho in Hput. unfold new_stored. cbn [nf_size_bytes nf_storage_key nf_sha256 size_bytes sha256]. intros Hpos.
    exists (concat chunks). split; [done|]. rewrite Hh. split; [|done].
    destruct (as_i64_nonneg (t_size tl)) as [-> Hlt]; [rewrite Hsz; unfold u64_max; lia|exact Hpos|]. rewrite Hsz in *. lia.
Qed.

(** A statement that touches neither files nor attachments. *)
Lemma invariant_tokens w db : input_file db = input_file (w_db w) → job_input_file db = job_input_file (w_db w) →
  invariant w → invariant (set_db db w).
Proof. intros E1 E2 [I1 I2 I3 I4 I5 I6 I7 I8]. split; cbn; rewrite ?E1, ?E2; eauto. Qed.

(** Processes that end, or uploads that give up. *)
Lemma invariant_fewer w us ss :
  (∀ i u, us !! i = Some u → ∃ v, w_uploads w !! i = Some v ∧ up_new u = up_new v ∧ (u = v ∨ u = UDiscard (up_new u))) →
  (∀ i s, ss !! i = Some s → w_sweeps w !! i = Some s) →
  invariant w → invariant (set_sweeps ss (set_uploads us w)).
Proof.
  intros Hu Hs [I1 I2 I3 I4 I5 I6 I7 I8]. split; cbn.
  - done.
  - intros id row Hr Hd [Hp|(i & n & Hi & Hn)]; [by eapply I2; eauto|]. destruct (Hu _ _ Hi) as (v & Hv & _ & [<-|E]); [|discriminate E].
    eapply I2; eauto.
  - done.
  - intros i u Hi. destruct (Hu _ _ Hi) as (v & Hv & -> & _). by eapply I4.
  - intros i j u v Hi Hj E. destruct (Hu _ _ Hi) as (u' & Hu' & Eu & _), (Hu _ _ Hj) as (v' & Hv' & Ev & _).
    rewrite Eu, Ev in E. by eapply I5.
  - intros i n Hi. destruct (Hu _ _ Hi) as (v & Hv & _ & [<-|E]); [|discriminate E]. by eapply I6.
  - intros i j n s Hi Hj. destruct (Hu _ _ Hi) as (v & Hv & _ & [<-|E]); [|discriminate E]. eapply I7; eauto.
  - intros i s Hi. eapply I8; eauto.
Qed.

Lemma invariant_gives_up w i u : w_uploads w !! i = Some u → invariant w →
  invariant (set_uploads (<[i := UDiscard (up_new u)]> (w_uploads w)) w).
Proof.
  intros Hi Hw. change (invariant (set_sweeps (w_sweeps w) (set_uploads (<[i := UDiscard (up_new u)]> (w_uploads w)) w))).
  apply invariant_fewer; [|done|done]. intros j v. destruct (decide (i = j)) as [<-|Hne].
  - rewrite lookup_insert_eq. intros [= <-]. exists u. auto.
  - rewrite lookup_insert_ne by done. intros Hj. exists v. auto.
Qed.

Lemma invariant_upload_dies w i : invariant w → invariant (set_uploads (delete i (w_uploads w)) w).
Proof.
  intros Hw. change (invariant (set_sweeps (w_sweeps w) (set_uploads (delete i (w_uploads w)) w))).
  apply invariant_fewer; [|done|done]. intros j v [_ Hj]%lookup_delete_Some. exists v. auto.
Qed.

Lemma invariant_sweep_dies w i : invariant w → invariant (set_sweeps (delete i (w_sweeps w)) w).
Proof.
  intros Hw. change (invariant (set_sweeps (delete i (w_sweeps w)) (set_uploads (w_uploads w) w))).
  apply invariant_fewer; [|by intros j s [_ Hj]%lookup_delete_Some|done]. intros j v Hj. exists v. auto.
Qed.

(** An object goes that no live row and no upload under way needs. *)
Lemma invariant_blob w id ws : is_file_id id = true →
  (∀ row, input_file (w_db w) !! id = Some row → f_deleting_at row = None →
     (id ∉ w_published w) ∧ ∀ i n, w_uploads w !! i = Some (UInserted n) → nf_file_id n ≠ id) →
  (∀ i n, w_uploads w !! i = Some (UStored n) → nf_file_id n ≠ id) →
  invariant w → invariant (set_blobs (delete (storage_key prefix ws id) (w_blobs w)) w).
Proof.
  intros Hid Hrow Hup [I1 I2 I3 I4 I5 I6 I7 I8]. split; cbn; try done.
  - intros id' row Hr Hd Hw. apply (stored_other (w_blobs w)); [|by eapply I2].
    destruct (I1 _ _ Hr) as (Hid' & _ & ws' & ->). apply lookup_delete_ne, keys_differ; [done..|]. intros <-.
    destruct (Hrow row Hr Hd) as [Hp Hu]. destruct Hw as [Hw|(i & n & Hi & Hn)]; [done|]. by eapply Hu.
  - intros i n Hi. destruct (I6 i n Hi) as [Hst Hn]. split; [|done]. intros Hpos. apply (stored_other (w_blobs w)); [|by apply Hst].
    destruct (I4 _ _ Hi) as [(Hid' & ws' & Hk) _]. cbn [up_new] in *. rewrite Hk. apply lookup_delete_ne, keys_differ; [done..|].
    intros E. by apply (Hup i n Hi).
Qed.

Lemma invariant_put w i id configured max t len body run discarded blobs' r :
  fresh w id → w_uploads w !! i = None → lawful_put (storage_key prefix (ut_ws t) id) body (w_blobs w) run →
  store_blob sha256_hex length_limited configured prefix max t len id body run discarded (w_blobs w) = (blobs', r) → invariant w →
  invariant (set_blobs blobs' (set_uploads (match r with Ok new => <[i := UStored new]> (w_uploads w) | Err _ => w_uploads w end) w)).
Proof.
  intros [F1 F2 F3 F4 F5] Hi Hput E [I1 I2 I3 I4 I5 I6 I7 I8]. destruct (store_blob_ok _ _ _ _ _ _ _ _ _ _ _ Hput E) as [Hother Hnew].
  assert (Hrows : ∀ id' row, input_file (w_db w) !! id' = Some row → blobs' !! f_storage_key row = w_blobs w !! f_storage_key row).
  { intros id' row Hr. destruct (I1 _ _ Hr) as (Hid' & _ & ws' & ->). apply Hother, keys_differ; [done..|]. congruence. }
  assert (Hups : ∀ j n, w_uploads w !! j = Some (UStored n) → blobs' !! nf_storage_key n = w_blobs w !! nf_storage_key n).
  { intros j n Hj. destruct (I4 _ _ Hj) as [(Hid' & ws' & Hk) _]. cbn [up_new] in *. rewrite Hk. apply Hother, keys_differ; [done..|].
    apply (F4 _ _ Hj). }
  assert (Hst : ∀ j n, w_uploads w !! j = Some (UStored n) → new_stored blobs' n ∧ input_file (w_db w) !! nf_file_id n = None).
  { intros j n Hj. destruct (I6 j n Hj) as [Hs Hn]. split; [|done]. intros Hpos. eapply stored_other; [by eapply Hups|by apply Hs]. }
  destruct r as [n|e].
  2:{ split; cbn; try done. intros id' row Hr Hd Hw. eapply stored_other; [by eapply Hrows|by eapply I2]. }
  destruct Hnew as (Hid & Hkey & Hns).
  assert (Hcase : ∀ j u, <[i := UStored n]> (w_uploads w) !! j = Some u → j = i ∧ u = UStored n ∨ j ≠ i ∧ w_uploads w !! j = Some u).
  { intros j u. destruct (decide (i = j)) as [<-|Hne]; [rewrite lookup_insert_eq; intros [= <-]|rewrite lookup_insert_ne by done]; auto. }
  split; cbn; try done.
  - intros id' row Hr Hd Hw. eapply stored_other; [by eapply Hrows|]. eapply I2; [done..|]. destruct Hw as [Hw|(j & n' & Hj & Hn')]; [by left|].
    apply Hcase in Hj as [[_ Hj]|[_ Hj]]; [discriminate Hj|]. right. eauto.
  - intros j u [[-> ->]|[_ Hj]]%Hcase; [|by eapply I4]. cbn [up_new]. rewrite Hid. split; [|done]. split; [by rewrite Hid|]. rewrite Hid. eauto.
  - intros j k u v [[-> ->]|[Hji Hj]]%Hcase [[-> ->]|[Hki Hk]]%Hcase; cbn [up_new]; [done| | |by eapply I5].
    + rewrite Hid. intros E'. by destruct (F4 _ _ Hk).
    + rewrite Hid. intros E'. by destruct (F4 _ _ Hj).
  - intros j n' [[-> [= ->]]|[_ Hj]]%Hcase; [by rewrite Hid|by eapply Hst].
  - intros j k n' s [[-> [= ->]]|[_ Hj]]%Hcase Hk; [|by eapply I7]. rewrite Hid. intros E'. by destruct (F5 _ _ Hk).
Qed.

Lemma insert_file_ok now n db db' : insert_file now n db = Ok db' →
  (0 ≤ nf_size_bytes n)%Z ∧ job_input_file db' = job_input_file db ∧ ∃ row, input_file db' = <[nf_file_id n := row]> (input_file db) ∧
    f_file_id row = nf_file_id n ∧ f_storage_key row = nf_storage_key n ∧ f_size_bytes row = nf_size_bytes n ∧ f_sha256 row = nf_sha256 n ∧
    f_deleting_at row = None.
Proof.
  unfold insert_file. destruct (_ && _) eqn:E; [|done]. intros [= <-]. rewrite !andb_true_iff, Z.leb_le in E.
  split; [apply E|]. split; [done|]. eexists. split; [reflexivity|]. done.
Qed.

Lemma invariant_insert w i n u db' :
  w_uploads w !! i = Some (UStored n) → insert_file (w_now w) n (w_db w) = Ok db' → u = UInserted n ∨ u = UDiscard n → invariant w →
  invariant (set_db db' (set_uploads (<[i := u]> (w_uploads w)) w)).
Proof.
  intros Hi (Hpos & Hj & row & Hf & Er & Ek & Es & Eh & Ed)%insert_file_ok Hu [I1 I2 I3 I4 I5 I6 I7 I8].
  destruct (I4 _ _ Hi) as [(Hid & ws & Hkey) Hp], (I6 _ _ Hi) as [Hst Hnone]. cbn [up_new] in *.
  assert (Hun : up_new u = n) by by destruct Hu as [-> | ->].
  assert (Hcase : ∀ j v, <[i := u]> (w_uploads w) !! j = Some v → j = i ∧ v = u ∨ j ≠ i ∧ w_uploads w !! j = Some v).
  { intros j v. destruct (decide (i = j)) as [<-|Hne]; [rewrite lookup_insert_eq; intros [= <-]|rewrite lookup_insert_ne by done]; auto. }
  assert (Hrow : ∀ id r, input_file db' !! id = Some r → id = nf_file_id n ∧ r = row ∨ id ≠ nf_file_id n ∧ input_file (w_db w) !! id = Some r).
  { intros id r. rewrite Hf. destruct (decide (nf_file_id n = id)) as [<-|Hne];
      [rewrite lookup_insert_eq; intros [= <-]|rewrite lookup_insert_ne by done]; auto. }
  split; cbn.
  - intros id r [[-> ->]|[_ Hr]]%Hrow; [|by apply I1]. split; [done|]. split; [done|]. rewrite Ek. eauto.
  - intros id r [[-> ->]|[Hne Hr]]%Hrow Hd Hw; [rewrite Ek, Es, Eh; by apply Hst|]. eapply I2; [done..|].
    destruct Hw as [Hw|(j & n' & Hj' & Hn')]; [by left|]. apply Hcase in Hj' as [[-> <-]|[_ Hj']]; [|right; eauto].
    rewrite <-Hn' in Hne. by rewrite <-Hun in Hne.
  - intros k id. rewrite Hj. intros Hk. destruct (I3 _ _ Hk) as (Hpub & r & Hr & Hd). split; [done|]. exists r. split; [|done].
    rewrite Hf, lookup_insert_ne; [done|]. intros <-. congruence.
  - intros j v [[-> ->]|[_ Hj']]%Hcase; [|by eapply I4]. rewrite Hun. split; [|done]. split; [done|eauto].
  - intros j k v v' Hv Hv' E. assert (Hsame : ∀ j v, <[i := u]> (w_uploads w) !! j = Some v → ∃ v0, w_uploads w !! j = Some v0 ∧ up_new v0 = up_new v).
    { intros j' x [[-> ->]|[_ Hx]]%Hcase; [exists (UStored n); by rewrite Hun|eauto]. }
    destruct (Hsame _ _ Hv) as (a & Ha & Ea), (Hsame _ _ Hv') as (b & Hb & Eb). rewrite <-Ea, <-Eb in E. by eapply I5.
  - intros j n' [[-> E]|[Hne Hj']]%Hcase; [by destruct Hu; subst u|]. destruct (I6 _ _ Hj') as [H1 H2]. split; [done|].
    rewrite Hf, lookup_insert_ne; [done|]. intros E. apply Hne. symmetry. by eapply (I5 i j).
  - intros j k n' s [[-> E]|[Hne Hj']]%Hcase Hk; [by destruct Hu; subst u|]. by eapply I7.
  - intros j s Hs. destruct (I8 _ _ Hs) as [H1 H2]. split; [done|]. intros r [[E ->]|[_ Hr]]%Hrow; [|by apply H2].
    by destruct (I7 _ _ _ _ Hi Hs).
Qed.

Lemma invariant_answer w i n row : w_uploads w !! i = Some (UInserted n) → get_file (nf_file_id n) (w_db w) = Some row → invariant w →
  invariant (mkWorld (w_now w) (w_db w) (w_blobs w) (delete i (w_uploads w)) (w_sweeps w) ({[nf_file_id n]} ∪ w_published w)).
Proof.
  intros Hi Hrow [I1 I2 I3 I4 I5 I6 I7 I8].
  assert (Hdel : ∀ j v, delete i (w_uploads w) !! j = Some v → j ≠ i ∧ w_uploads w !! j = Some v).
  { intros j v [Hne Hj]%lookup_delete_Some. auto. }
  split; cbn; try done.
  - intros id r Hr Hd Hw. eapply I2; [done..|]. destruct Hw as [[->%elem_of_singleton|Hw]%elem_of_union|(j & n' & [_ Hj]%Hdel & Hn')]; eauto.
  - intros k id Hk. destruct (I3 _ _ Hk). split; [by apply elem_of_union_r|done].
  - intros j v [Hne Hj]%Hdel. destruct (I4 _ _ Hj) as [H1 H2]. split; [done|].
    intros [E%elem_of_singleton|H]%elem_of_union; [|done]. apply Hne. by eapply (I5 j i).
  - intros j k v v' [_ Hv]%Hdel [_ Hv']%Hdel. by eapply I5.
  - intros j n' [_ Hj]%Hdel. by eapply I6.
  - intros j k n' s [_ Hj]%Hdel. by eapply I7.
Qed.

(** ** Attachments *)

(** A creation only adds rows for files that are live. *)
Lemma attach_loop_ok now job_id rules values db db' : attach_loop now job_id rules values db = Ok db' →
  input_file db' = input_file db ∧ ∀ k id, job_input_file db' !! k = Some id →
    job_input_file db !! k = Some id ∨ id ∈ values.*2 ∧ ∃ row, input_file db !! id = Some row ∧ f_deleting_at row = None.
Proof.
  revert db. induction values as [|[field id] values IH]; intros db; cbn [attach_loop]; [intros [= <-]; auto|].
  unfold attach_tx. destruct (input_file db !! id) as [row|] eqn:Er; cbn [fmap option_fmap option_map]; [|done].
  destruct (f_deleting_at row) eqn:Ed; [done|]. destruct (existsb _ rules); [|done].
  destruct (job_input_file db !! (job_id, field)) eqn:Ek; [done|]. intros [Hf Ha]%IH. cbn in Hf, Ha. split; [done|].
  intros k id' [Hk|(Hin & r & Hr & Hd)]%Ha.
  - destruct (decide ((job_id, field) = k)) as [<-|Hne]; [rewrite lookup_insert_eq in Hk; injection Hk as <-|rewrite lookup_insert_ne in Hk by done; auto].
    right. split; [by left|eauto].
  - right. split; [by right|eauto].
Qed.

Lemma invariant_attachments w db' : input_file db' = input_file (w_db w) →
  (∀ k id, job_input_file db' !! k = Some id → job_input_file (w_db w) !! k = Some id ∨
     id ∈ w_published w ∧ ∃ row, input_file (w_db w) !! id = Some row ∧ f_deleting_at row = None) →
  invariant w → invariant (set_db db' w).
Proof.
  intros Hf Ha [I1 I2 I3 I4 I5 I6 I7 I8]. split; cbn; rewrite ?Hf; try done. intros k id [Hk|H]%Ha; [by eapply I3|done].
Qed.

(** ** Sweeps *)

Lemma mark_deleting_ok now id db db' row : mark_deleting_tx now id db = (db', Some row) →
  job_input_file db' = job_input_file db ∧ (∀ k, job_input_file db !! k ≠ Some id) ∧ input_file db' = <[id := row]> (input_file db) ∧
  ∃ old, input_file db !! id = Some old ∧ f_file_id row = f_file_id old ∧ f_storage_key row = f_storage_key old ∧ f_deleting_at row ≠ None.
Proof.
  unfold mark_deleting_tx. destruct (input_file db !! id) as [old|] eqn:E; [|done]. destruct (attached id db) eqn:Ea; [done|].
  intros [= <- <-]. split; [done|]. split; [by apply attached_false|]. split; [done|]. by exists old.
Qed.

Lemma invariant_mark w i id db' row : w_sweeps w !! i = None → mark_deleting_tx (w_now w) id (w_db w) = (db', Some row) → invariant w →
  invariant (set_db db' (set_sweeps (<[i := SMarked row]> (w_sweeps w)) w)).
Proof.
  intros Hi (Hj & Hun & Hf & old & Ho & Er & Ek & Ed)%mark_deleting_ok [I1 I2 I3 I4 I5 I6 I7 I8].
  destruct (I1 _ _ Ho) as (Hid & Hoid & ws & Hkey).
  assert (Hrow : ∀ id' r, input_file db' !! id' = Some r → id' = id ∧ r = row ∨ id' ≠ id ∧ input_file (w_db w) !! id' = Some r).
  { intros id' r. rewrite Hf. destruct (decide (id = id')) as [<-|Hne]; [rewrite lookup_insert_eq; intros [= <-]|rewrite lookup_insert_ne by done]; auto. }
  assert (Hok : row_ok id row) by (split; [done|split; [by rewrite Er|rewrite Ek; eauto]]).
  assert (Hcase : ∀ j s, <[i := SMarked row]> (w_sweeps w) !! j = Some s → s = SMarked row ∨ w_sweeps w !! j = Some s).
  { intros j s. destruct (decide (i = j)) as [<-|Hne]; [rewrite lookup_insert_eq; intros [= <-]|rewrite lookup_insert_ne by done]; auto. }
  assert (Hfid : f_file_id row = id) by congruence.
  split; cbn; try done.
  - intros id' r [[-> ->]|[_ Hr]]%Hrow; [done|by apply I1].
  - intros id' r [[-> ->]|[_ Hr]]%Hrow Hd Hw; [done|]. by eapply I2.
  - intros k id'. rewrite Hj. intros Hk. destruct (I3 _ _ Hk) as (Hp & r & Hr & Hd). split; [done|]. exists r. split; [|done].
    rewrite Hf, lookup_insert_ne; [done|]. intros <-. by apply (Hun k).
  - intros j n Hn. destruct (I6 _ _ Hn) as [H1 H2]. split; [done|]. rewrite Hf, lookup_insert_ne; [done|]. intros E. congruence.
  - intros j k n s Hn [->|Hs]%Hcase; [|by eapply I7]. cbn [sw_row]. rewrite Hfid. intros E. destruct (I6 _ _ Hn) as [_ H2]. congruence.
  - intros j s [->|Hs]%Hcase; cbn [sw_row].
    + rewrite Hfid. split; [done|]. intros r [[_ ->]|[? _]]%Hrow; done.
    + destruct (I8 _ _ Hs) as [H1 H2]. split; [done|]. intros r [[_ ->]|[_ Hr]]%Hrow; [done|by apply H2].
Qed.

Lemma invariant_sweep_moves w i s s' : w_sweeps w !! i = Some s → sw_row s' = sw_row s → invariant w →
  invariant (set_sweeps (<[i := s']> (w_sweeps w)) w).
Proof.
  intros Hi E [I1 I2 I3 I4 I5 I6 I7 I8].
  assert (Hcase : ∀ j x, <[i := s']> (w_sweeps w) !! j = Some x → ∃ y, w_sweeps w !! j = Some y ∧ sw_row y = sw_row x).
  { intros j x. destruct (decide (i = j)) as [<-|Hne]; [rewrite lookup_insert_eq; intros [= <-]; eauto|rewrite lookup_insert_ne by done; eauto]. }
  split; cbn; try done.
  - intros j k n x Hn (y & Hy & <-)%Hcase. by eapply I7.
  - intros j x (y & Hy & <-)%Hcase. by eapply I8.
Qed.

Lemma invariant_row_deleted w id : invariant w → invariant (set_db (delete_file id (w_db w)).1 w).
Proof.
  intros Hw. unfold delete_file. destruct (input_file (w_db w) !! id) as [f|] eqn:Ef; [|by destruct w].
  destruct (_ && _) eqn:E; [|by destruct w]. apply andb_true_iff in E as [_ Hun%negb_true_iff]. rewrite attached_false in Hun.
  destruct Hw as [I1 I2 I3 I4 I5 I6 I7 I8]. split; cbn; try done.
  - intros id' r [_ Hr]%lookup_delete_Some. by apply I1.
  - intros id' r [_ Hr]%lookup_delete_Some. by apply I2.
  - intros k id' Hk. destruct (I3 _ _ Hk) as (Hp & r & Hr & Hd). split; [done|]. exists r. split; [|done].
    rewrite lookup_delete_ne; [done|]. intros <-. by apply (Hun k).
  - intros j n Hn. destruct (I6 _ _ Hn) as [H1 H2]. split; [done|]. by apply lookup_delete_None; right.
  - intros j s Hs. destruct (I8 _ _ Hs) as [H1 H2]. split; [done|]. intros r [_ Hr]%lookup_delete_Some. by apply H2.
Qed.

Lemma life_preserves w w' : life w w' → invariant w → invariant w'.
Proof.
  intros Hl Hw. destruct Hl.
  - by destruct Hw.
  - by eapply invariant_put.
  - eapply invariant_insert; eauto.
  - by apply (invariant_gives_up w i (UStored new)).
  - eapply invariant_insert; eauto.
  - by eapply invariant_answer.
  - by apply (invariant_gives_up w i (UInserted new)).
  - destruct (inv_upload _ Hw _ _ H) as [(Hid & ws & Hk) Hp]. cbn [up_new] in *. rewrite Hk.
    apply (invariant_blob (set_uploads (delete i (w_uploads w)) w)); [done| | |by apply invariant_upload_dies].
    + intros row _ _. split; [done|]. cbn. intros j n [Hne Hj]%lookup_delete_Some E. apply Hne. by eapply (inv_upload_distinct _ Hw i j).
    + cbn. intros j n [Hne Hj]%lookup_delete_Some E. apply Hne. by eapply (inv_upload_distinct _ Hw i j).
  - by apply invariant_upload_dies.
  - apply attach_loop_ok in H0 as [Hf Ha]. apply invariant_attachments; [done| |done]. intros k id [Hk|(Hin & Hrow)]%Ha; [by left|right].
    split; [|done]. apply list_elem_of_fmap in Hin as (v & -> & Hv). rewrite Forall_forall in H. by apply H.
  - apply invariant_attachments; [done| |done]. cbn. intros k id [Hk _]%map_lookup_filter_Some. by left.
  - by eapply invariant_mark.
  - destruct (inv_sweep _ Hw _ _ H) as [(Hid & _ & ws & Hk) Hd]. cbn [sw_row] in *. rewrite Hk.
    apply (invariant_blob (set_sweeps (<[i := SBlobGone row]> (w_sweeps w)) w)); [done| | |by eapply invariant_sweep_moves].
    + intros r Hr Hn. by destruct (Hd r Hr).
    + intros j n Hn E. by destruct (inv_apart _ Hw _ _ _ _ Hn H).
  - by apply (invariant_row_deleted (set_sweeps (delete i (w_sweeps w)) w)), invariant_sweep_dies.
  - by apply invariant_sweep_dies.
  - unfold insert_token in H. destruct (upload_token (w_db w) !! token); [done|]. injection H as <-. by apply invariant_tokens.
  - apply invariant_tokens; unfold consume_token; repeat case_match; done.
  - by apply invariant_tokens.
Qed.

(** C29. A file that a job holds can be delivered. However uploads, job creations,
    deletions of jobs and sweeps interleave, and wherever they fail or die, a
    file attached to a job has its row, is not being deleted, and its object
    is stored with the recorded size and digest. *)
Theorem attached_files_available t w k id :
  rtc life (empty_world t) w → job_input_file (w_db w) !! k = Some id →
  ∃ row data, input_file (w_db w) !! id = Some row ∧ f_deleting_at row = None ∧
    w_blobs w !! f_storage_key row = Some data ∧ Z.of_nat (length data) = f_size_bytes row ∧ sha256_hex data = f_sha256 row.
Proof.
  intros Hreach Hk. assert (Hw : invariant w).
  { clear Hk. revert Hreach. apply (rtc_ind_r (λ w, invariant w)); [apply invariant_empty|]. intros y z _ Hyz Hy. by eapply life_preserves. }
  destruct (inv_attached _ Hw _ _ Hk) as (Hp & row & Hrow & Hd).
  destruct (inv_blob _ Hw _ _ Hrow Hd (or_introl Hp)) as (data & H1 & H2 & H3). eauto 10.
Qed.
End life.

(** ** What a sweep removes *)

Section sweep.
Context (prefix : string) (env : SweepEnv) (now : Time).

Definition tables_ok (db : FileTables) : Prop := ∀ id row, input_file db !! id = Some row → row_ok prefix id row.

(** The row of a file and its object. *)
Definition same_file (id : string) (st st' : FileTables * Blobs) : Prop :=
  input_file st'.1 !! id = input_file st.1 !! id ∧
  ∀ row, input_file st.1 !! id = Some row → st'.2 !! f_storage_key row = st.2 !! f_storage_key row.

Definition gone (id : string) (st st' : FileTables * Blobs) : Prop :=
  input_file st'.1 !! id = None ∧ ∀ row, input_file st.1 !! id = Some row → st'.2 !! f_storage_key row = None.

Definition no_failures : Prop :=
  (∀ id, mark_fails env id = false) ∧ (∀ k, blob_delete_fails env k = false) ∧ (∀ id, row_delete_fails env id = false).

(** One file: every other file, and the file itself when it is attached, is untouched. *)
Lemma sweep_file_spec st id : tables_ok st.1 → let st' := sweep_file env now st id in
  tables_ok st'.1 ∧ job_input_file st'.1 = job_input_file st.1 ∧
  (∀ id', id' ≠ id ∨ attached id' st.1 = true → same_file id' st st') ∧
  (∀ k, st.2 !! k = None → st'.2 !! k = None) ∧ (input_file st.1 !! id = None → input_file st'.1 !! id = None) ∧
  (no_failures → attached id st.1 = false → is_Some (input_file st.1 !! id) → gone id st st').
Proof.
  destruct st as [db blobs]. cbn [fst snd]. intros Hok. unfold sweep_file, mark_deleting_tx. destruct (mark_fails env id) eqn:Em.
  { split_and!; try done. intros (H & _). specialize (H id). congruence. }
  destruct (input_file db !! id) as [f|] eqn:Ef; [|split_and!; try done; intros _ _ [? ?]; congruence].
  destruct (attached id db) eqn:Ea; [split_and!; done|]. cbn [f_storage_key set_deleting]. destruct (Hok _ _ Ef) as (Hid & Hfid & ws & Hk).
  assert (Hok' : tables_ok (with_input_file (<[id := set_deleting now f]> (input_file db)) db)).
  { intros id' row. cbn. destruct (decide (id = id')) as [<-|Hne]; [rewrite lookup_insert_eq; intros [= <-]; repeat split; eauto|].
    rewrite lookup_insert_ne by done. apply Hok. }
  assert (Hother : ∀ id' row, id' ≠ id ∨ attached id' db = true → input_file db !! id' = Some row → f_storage_key row ≠ f_storage_key f).
  { intros id' row Hne Hr. destruct (Hok _ _ Hr) as (Hid' & _ & ws' & ->). rewrite Hk. apply keys_differ; [done..|].
    intros ->. destruct Hne; [done|congruence]. }
  assert (Hne' : ∀ id', id' ≠ id ∨ attached id' db = true → id ≠ id') by (intros id' [H|H]; [done|intros <-; congruence]).
  destruct (blob_delete_fails env (f_storage_key f)) eqn:Eb.
  { cbn [fst snd]. split_and!; [done..| |done|done|intros (_ & H & _); specialize (H (f_storage_key f)); congruence].
    intros id' H. split; [cbn; by rewrite lookup_insert_ne by eauto|done]. }
  destruct (row_delete_fails env id) eqn:Er; cbn [fst snd].
  { split_and!; [done..| |intros k Hn; apply lookup_delete_None; auto|done|intros (_ & _ & H); specialize (H id); congruence].
    intros id' H. split; [cbn; by rewrite lookup_insert_ne by eauto|]. intros row Hr. cbn [snd]. apply lookup_delete_ne. apply not_eq_sym. eauto. }
  unfold delete_file. cbn [with_input_file input_file]. rewrite lookup_insert_eq.
  replace (attached id (mkFileTables (<[id := set_deleting now f]> (input_file db)) (job_input_file db) (upload_token db))) with (attached id db) by done.
  rewrite Ea. cbn. rewrite delete_insert_eq. split_and!.
  - intros id' row. cbn. intros [_ Hr]%lookup_delete_Some. by apply Hok.
  - done.
  - intros id' H. split; [cbn; by rewrite lookup_delete_ne by eauto|]. intros row Hr. cbn. apply lookup_delete_ne. apply not_eq_sym. eauto.
  - intros k Hn. apply lookup_delete_None. auto.
  - done.
  - intros _ _ _. split; [cbn; by rewrite lookup_delete_eq|]. intros row Hr. cbn in *. rewrite Hr in Ef. injection Ef as ->. by rewrite lookup_delete_eq.
Qed.

Lemma sweep_all_spec ids st : tables_ok st.1 → let st' := fold_left (sweep_file env now) ids st in
  tables_ok st'.1 ∧ job_input_file st'.1 = job_input_file st.1 ∧
  (∀ id, (id ∉ ids) ∨ attached id st.1 = true → same_file id st st') ∧
  (∀ k, st.2 !! k = None → st'.2 !! k = None) ∧ (∀ id, input_file st.1 !! id = None → input_file st'.1 !! id = None) ∧
  (no_failures → ∀ id, id ∈ ids → attached id st.1 = false → is_Some (input_file st.1 !! id) → gone id st st').
Proof.
  revert st. induction ids as [|x ids IH]; intros st Hok; cbn [fold_left].
  { split_and!; try done. intros _ id Hid. by apply elem_of_nil in Hid. }
  destruct (sweep_file_spec st x Hok) as (H1 & H2 & H3 & H4 & H5 & H6). destruct (IH _ H1) as (K1 & K2 & K3 & K5 & K6 & K4).
  assert (Hatt : ∀ id, attached id (sweep_file env now st x).1 = attached id st.1) by (intros id; unfold attached; by rewrite H2).
  split_and!; [done|by rewrite K2| |auto| |].
  - intros id Hid. assert (Hx : id ≠ x ∨ attached id st.1 = true) by (destruct Hid as [Hid|]; [left; intros ->; apply Hid; left|by right]).
    destruct (H3 id Hx) as [E1 E2]. destruct (K3 id) as [F1 F2]; [destruct Hid as [Hid|]; [left; intros ?; apply Hid; by right|right; by rewrite Hatt]|].
    split; [by rewrite F1|]. intros row Hr. rewrite F2 by by rewrite E1. by apply E2.
  - intros id Hn. apply K6. destruct (decide (id = x)) as [->|Hne]; [auto|]. by rewrite (proj1 (H3 id (or_introl Hne))).
  - intros Hnf id Hid Ha Hr. destruct (decide (id = x)) as [->|Hne].
    + destruct (H6 Hnf Ha Hr) as [G1 G2]. split; [auto|]. intros row Hrow. apply K5, (G2 _ Hrow).
    + apply elem_of_cons in Hid as [|Hid]; [done|]. destruct (H3 id (or_introl Hne)) as [E1 E2].
      destruct (K4 Hnf id Hid) as [G1 G2]; [by rewrite Hatt|by rewrite E1|]. split; [done|]. intros row Hrow. apply G2. by rewrite E1.
Qed.
End sweep.

Lemma sweep_candidates_spec `{Collation} prefix now ttl limit db id : tables_ok prefix db → id ∈ sweep_candidates now ttl limit db →
  ∃ row, input_file db !! id = Some row ∧ sweepable now ttl db row = true.
Proof.
  intros Hok (row & -> & Hin)%list_elem_of_fmap. pose proof (elem_of_sublist _ _ _ Hin (sublist_take _ _)) as Hin'.
  apply elem_of_sort_by, elem_of_sql_select in Hin' as (k & Hk & Hs). destruct (Hok _ _ Hk) as (_ & -> & _). eauto.
Qed.

Lemma sweep_candidates_all `{Collation} prefix now ttl limit db id row : tables_ok prefix db → (size (input_file db) ≤ limit)%nat →
  input_file db !! id = Some row → sweepable now ttl db row = true → id ∈ sweep_candidates now ttl limit db.
Proof.
  intros Hok Hlim Hr Hs. unfold sweep_candidates. destruct (Hok _ _ Hr) as (_ & <- & _). apply list_elem_of_fmap. exists row. split; [done|].
  rewrite take_ge; [by apply elem_of_sort_by, elem_of_sql_select; eauto|]. rewrite (Permutation_length (sort_by_perm _ _)).
  unfold sql_select. rewrite length_fmap, length_map_to_list. etransitivity; [|exact Hlim]. apply map_subseteq_size, map_filter_subseteq.
Qed.

(** Expired tokens apart, the state the files are swept in. *)
Lemma sweep_tokens `{Collation} env now ttl limit (st : FileTables * Blobs) : let st1 := if tokens_fail env then st else ((delete_expired now st.1).1, st.2) in
  input_file st1.1 = input_file st.1 ∧ job_input_file st1.1 = job_input_file st.1 ∧ st1.2 = st.2 ∧
  sweep_candidates now ttl limit st1.1 = sweep_candidates now ttl limit st.1 ∧ ∀ id, attached id st1.1 = attached id st.1.
Proof. by destruct (tokens_fail env). Qed.

(** Whatever fails, attached files and files outside the batch are untouched. *)
Lemma sweep_keeps `{Collation} prefix env configured now ttl st id : tables_ok prefix st.1 →
  attached id st.1 = true ∨ (id ∉ sweep_candidates now ttl 1000 st.1) → same_file id st (sweep_input_files env configured now ttl st).
Proof.
  intros Hok Hid. destruct (sweep_tokens env now ttl 1000 st) as (Ef & Ej & Eb & Ec & Ha).
  assert (Hsame : ∀ s, same_file id (if tokens_fail env then st else ((delete_expired now st.1).1, st.2)) s → same_file id st s)
    by (intros s [H1 H2]; rewrite Ef, Eb in *; by split; rewrite ?Ef).
  apply Hsame. unfold sweep_input_files. destruct (negb configured); [done|]. destruct (list_fails env); [done|]. rewrite Ec.
  apply (sweep_all_spec prefix); [intros i row; rewrite Ef; apply Hok|]. rewrite Ha. destruct Hid; auto.
Qed.

(** The sweep removes exactly the unused files. Whatever fails, a file that
    a job holds, and every file outside the batch (at most a thousand files,
    oldest first), keeps its row and its object; the batch holds only files
    that are marked or have passed their time to live unattached. When
    nothing fails, every unattached file of the batch is gone, row and object;
    and a table of at most a thousand files has every such file in the batch. *)
Theorem file_sweep_exact `{Collation} prefix env now ttl st :
  tables_ok prefix st.1 →
  let cands := sweep_candidates now ttl 1000 st.1 in
  let st' := sweep_input_files env true now ttl st in
  (∀ id, attached id st.1 = true ∨ (id ∉ cands) → same_file id st st') ∧
  (∀ id, id ∈ cands → ∃ row, input_file st.1 !! id = Some row ∧
     (f_deleting_at row ≠ None ∨ attached id st.1 = false ∧ (f_created_at row < now - ttl)%Z)) ∧
  (no_failures env → list_fails env = false → ∀ id, id ∈ cands → attached id st.1 = false → gone id st st') ∧
  ((size (input_file st.1) ≤ 1000)%nat → ∀ id row, input_file st.1 !! id = Some row → attached id st.1 = false →
     (f_created_at row < now - ttl)%Z → id ∈ cands).
Proof.
  intros Hok cands st'. destruct (sweep_tokens env now ttl 1000 st) as (Ef & Ej & Eb & Ec & Ha).
  set (st1 := if tokens_fail env then st else ((delete_expired now st.1).1, st.2)) in *.
  assert (Hok1 : tables_ok prefix st1.1) by (intros id row; rewrite Ef; apply Hok).
  assert (Est : list_fails env = false → st' = fold_left (sweep_file env now) cands st1).
  { intros Hl. unfold st', sweep_input_files. fold st1. by rewrite Hl, Ec. }
  destruct (sweep_all_spec prefix env now cands st1 Hok1) as (_ & _ & _ & _ & _ & K4). split_and!.
  - intros id Hid. by apply (sweep_keeps prefix).
  - intros id Hid. destruct (sweep_candidates_spec prefix now ttl 1000 st.1 id Hok Hid) as (row & Hr & Hs). exists row. split; [done|].
    unfold sweepable in Hs. destruct (Hok _ _ Hr) as (_ & Hfid & _). rewrite Hfid in Hs. apply orb_true_iff in Hs as [Hs|Hs].
    + left. by apply negb_true_iff, bool_decide_eq_false in Hs.
    + right. apply andb_true_iff in Hs as [Hs1%negb_true_iff Hs2%Z.ltb_lt]. done.
  - intros Hnf Hl id Hid Hun. rewrite (Est Hl). destruct (sweep_candidates_spec prefix now ttl 1000 st.1 id Hok Hid) as (row & Hr & _).
    destruct (K4 Hnf id Hid) as [G1 G2]; [by rewrite Ha|rewrite Ef; by exists row|]. split; [done|]. intros r Hr'. apply G2. by rewrite Ef.
  - intros Hsz id row Hr Hun Hold. apply (sweep_candidates_all prefix now ttl 1000 st.1 id row); [done..|].
    unfold sweepable. destruct (Hok _ _ Hr) as (_ & -> & _). rewrite Hun, (proj2 (Z.ltb_lt _ _) Hold). apply orb_true_r.
Qed.

(** ** Who may attach a file *)

(** The lineage source holds the file, or it is the caller's own recent upload for this task. *)
Definition granted (now : Time) (ws task : string) (grant : FileGrant) (lineage : option Uuid) (db : FileTables) (id : string) (row : InputFileRow) : Prop :=
  (∃ source field, lineage = Some source ∧ job_input_file db !! (source, field) = Some id) ∨
  (∃ user ttl, grant = Direct user ttl ∧ f_workspace row = ws ∧ f_task_name row = task ∧ f_uploaded_by_user_id row = user ∧
     (now - ttl < f_created_at row)%Z).

Lemma rules_granted now ws task grant lineage db id row : input_file db !! id = Some row →
  existsb (λ r, rule_allows now id r db) (grant_rules ws task grant lineage) = true → granted now ws task grant lineage db id row.
Proof.
  intros Hr (rule & Hin & Hrule)%existsb_exists'. unfold grant_rules in Hin. apply elem_of_app in Hin as [Hin|Hin].
  - destruct lineage as [source|]; simpl in Hin; [|by apply elem_of_nil in Hin]. apply list_elem_of_singleton in Hin as ->. left.
    cbn [rule_allows] in Hrule. apply bool_decide_eq_true in Hrule. apply map_choose in Hrule as ([j field] & id' & Hk).
    apply map_lookup_filter_Some in Hk as [Hk [Hj Hid]]. simpl in Hj, Hid. subst. eauto.
  - destruct grant as [|user ttl|]; [by apply elem_of_nil in Hin| |by apply elem_of_nil in Hin]. apply list_elem_of_singleton in Hin as ->. right.
    cbn [rule_allows] in Hrule. rewrite Hr, !andb_true_iff, !bool_decide_eq_true, Z.ltb_lt in Hrule. naive_solver.
Qed.

(** The attachments a creation has made so far. *)
Record attaching (now : Time) (job_id : Uuid) (ws task : string) (grant : FileGrant) (lineage : option Uuid)
    (values : list (string * string)) (db db' : FileTables) : Prop := {
  at_files : input_file db' = input_file db;
  at_old k id : job_input_file db !! k = Some id → job_input_file db' !! k = Some id;
  at_all field id : (field, id) ∈ values → job_input_file db' !! (job_id, field) = Some id;
  at_new k id : job_input_file db' !! k = Some id → job_input_file db !! k = Some id ∨
    k.1 = job_id ∧ (k.2, id) ∈ values ∧ ∃ row, input_file db !! id = Some row ∧ f_deleting_at row = None ∧ granted now ws task grant lineage db id row;
}.

Lemma attach_loop_granted now job_id ws task grant lineage values db db' : lineage ≠ Some job_id →
  attach_loop now job_id (grant_rules ws task grant lineage) values db = Ok db' → attaching now job_id ws task grant lineage values db db'.
Proof.
  intros Hl. revert db. induction values as [|[field id] values IH]; intros db; cbn [attach_loop].
  { intros [= <-]. split; [done|done| |auto]. intros field id Hin. by apply elem_of_nil in Hin. }
  unfold attach_tx. destruct (input_file db !! id) as [row|] eqn:Er; cbn [fmap option_fmap option_map]; [|done].
  destruct (f_deleting_at row) eqn:Ed; [done|]. destruct (existsb _ _) eqn:Eg; [|done]. apply (rules_granted _ _ _ _ _ _ _ _ Er) in Eg.
  destruct (job_input_file db !! (job_id, field)) eqn:Ek; [done|]. intros [A1 A2 A3 A4]%IH. cbn in *.
  assert (Hnew : job_input_file db' !! (job_id, field) = Some id) by (apply A2; apply lookup_insert_eq). split; [done| | |].
  - intros k x Hk. apply A2. rewrite lookup_insert_ne; [done|]. intros <-. congruence.
  - intros f x [[= -> ->]|Hin]%elem_of_cons; [done|by apply A3].
  - intros k x [Hk|(Hj & Hin & r & Hr & Hd & Hg)]%A4.
    + destruct (decide ((job_id, field) = k)) as [<-|Hne]; [rewrite lookup_insert_eq in Hk; injection Hk as <-|rewrite lookup_insert_ne in Hk by done; auto].
      right. split; [done|]. split; [by left|]. eauto.
    + right. split; [done|]. split; [by right|]. exists r. split; [done|]. split; [done|]. destruct Hg as [(source & f & E & Hs)|Hg]; [left|by right].
      exists source, f. split; [done|]. cbn in Hs. rewrite lookup_insert_ne in Hs; [done|]. intros [= -> _]. done.
Qed.

(** A job gets only files it may use. When a creation succeeds, every file
    value it names is attached under its field and no attachment of another
    job changes; and each new attachment is of a live file that the job it
    was derived from already holds, or, for a creation the caller starts
    directly, that this caller uploaded for this very task and within the
    time to live. *)
Theorem attach_only_granted now job_id ws task values grant lineage db db' :
  lineage ≠ Some job_id → attach_all_tx now job_id ws task values grant lineage db = Ok db' →
  input_file db' = input_file db ∧
  (∀ field id, (field, id) ∈ values → job_input_file db' !! (job_id, field) = Some id) ∧
  (∀ k id, job_input_file db !! k = Some id → job_input_file db' !! k = Some id) ∧
  (∀ k id, job_input_file db' !! k = Some id → job_input_file db !! k = Some id ∨
     k.1 = job_id ∧ (k.2, id) ∈ values ∧ ∃ row, input_file db !! id = Some row ∧ f_deleting_at row = None ∧ granted now ws task grant lineage db id row).
Proof. intros Hl [A1 A2 A3 A4]%attach_loop_granted; [auto|done]. Qed.
