(* ===== verification/Errors.v ===== *)
(** * Typed errors on the creation path

    The error types job creation raises and how [anyhow] carries them: an
    error is its links, outermost first, each a typed value or a message.
    [downcast] finds a link of a type at any depth, [{:#}] joins the links'
    texts, [to_string] is the outermost one. [from_error] and [fmt] are the
    value-free errors of a rendered ref ([templated_ref.rs]);
    [classify_execute_error] is the HTTP answer of [web/api/mod.rs]. *)
From S2P Require Import Prelude Json Text Template TemplateError GitRef Pins InputFiles.

(** ** The types *)

(** [refs.rs] *)
Inductive RefResolveError :=
| LibraryItem (name : string)
| UnknownWorkspace (ws : string)
| RefNotGit (ws : string)
| AgentAction (name : string).

Definition RefResolveError_fmt (e : RefResolveError) : string :=
  match e with
  | LibraryItem name => "'" +:+ name +:+ "' is a library item; library items have no ref"
  | UnknownWorkspace ws => "ref target: unknown workspace '" +:+ ws +:+ "'"
  | RefNotGit ws => "workspace '" +:+ ws +:+ "' is not a git workspace; `ref` needs a git owner"
  | AgentAction name => "action '" +:+ name +:+ "': agent actions cannot be referenced with `ref` yet"
  end.

(** [job_creator.rs] *)
Record MissingAtRef := mkMissing { ms_kind : string; ms_written : string; ms_owner : string; ms_local : string; ms_git_ref : string }.

Definition MissingAtRef_fmt (m : MissingAtRef) : string :=
  ms_kind m +:+ " '" +:+ ms_written m +:+ "': workspace '" +:+ ms_owner m +:+ "' has no " +:+ ms_kind m +:+
  " '" +:+ ms_local m +:+ "' at ref '" +:+ ms_git_ref m +:+ "'".

Inductive ReplayFieldsError := UnknownField | AlsoInInput (field : string) | MissingRequired (field : string).

Definition ReplayFieldsError_fmt (e : ReplayFieldsError) : string :=
  match e with
  | UnknownField => "replay_fields names a field the task does not declare"
  | AlsoInInput field => "field '" +:+ field +:+ "' is both in input and in replay_fields"
  | MissingRequired field => "the source job has no value for required field '" +:+ field +:+ "'"
  end.

(** [template.rs] *)
Inductive ConnectionRefError := NotFound | UnknownConnWorkspace | WorkspaceUnavailable | NotShared | OfflineCrossWorkspace.

#[export] Instance ConnectionRefError_eq_dec : EqDecision ConnectionRefError.
Proof. solve_decision. Defined.

Definition ConnectionRefError_fmt (e : ConnectionRefError) : string :=
  match e with
  | NotFound => "no connection with that name exists"
  | UnknownConnWorkspace => "the connection names an unknown workspace"
  | WorkspaceUnavailable => "the workspace that owns the connection is not available"
  | NotShared => "the connection exists but is not shared (set `shared: true` on it)"
  | OfflineCrossWorkspace =>
      "cross-workspace connection references require a server (run this task through `stroem-api trigger`)"
  end.

Inductive ProvenanceBucket := Caller | ActionDefault.

#[export] Instance ProvenanceBucket_eq_dec : EqDecision ProvenanceBucket.
Proof. solve_decision. Defined.

Definition ProvenanceError_fmt (b : ProvenanceBucket) : string :=
  "resolving " +:+ match b with Caller => "Caller" | ActionDefault => "ActionDefault" end +:+ " inputs".

Definition FileInputError_fmt (e : FileInputError) : string :=
  "Input field '" +:+ fe_field e +:+ "': " +:+
  match fe_kind e with
  | CannotUse => "the file cannot be used"
  | Required => "a file is required"
  | InlineTooLarge cap => "inline content is larger than " +:+ pretty cap +:+ " bytes"
  end.

Definition STORAGE_NOT_CONFIGURED : string := "file storage is not configured".
Definition OWNER_SIDE_RENDER : string := "rendering the task's own defaults".

(** [templated_ref.rs] *)
Inductive RenderedRefKind :=
| KInvalid | KSecretValue | KNotFound (short_sha : bool) | KNotGit | KNoAction | KAgentAction
| KLoadWithheld | KUnavailable | KRender | KUnresolvable.

#[export] Instance RenderedRefKind_eq_dec : EqDecision RenderedRefKind.
Proof. solve_decision. Defined.

Record RenderedRefError := mkRendered { rr_kind : RenderedRefKind; rr_workspace : string; rr_detail : option string }.

Definition RenderedRefError_fmt (e : RenderedRefError) : string :=
  let ws := rr_workspace e in
  match rr_kind e with
  | KInvalid => "the rendered ref is not a valid branch, tag or full commit SHA"
  | KSecretValue => "the rendered ref contains a secret value"
  | KNotFound short_sha =>
      "the rendered ref was not found in workspace '" +:+ ws +:+ "'" +:+
      (if short_sha then " (short commit SHAs are not supported; use the full 40-character SHA)" else "")
  | KNotGit => "workspace '" +:+ ws +:+ "' is not a git workspace; `ref` needs a git owner"
  | KNoAction => "workspace '" +:+ ws +:+ "' has no such action or task at the rendered ref"
  | KAgentAction => "the action at the rendered ref is an agent action; agent actions cannot be referenced with `ref` yet"
  | KLoadWithheld => "workspace '" +:+ ws +:+ "' at the rendered ref cannot be loaded: its configuration does not load"
  | KUnavailable => "workspace '" +:+ ws +:+ "' is not available at the rendered ref yet"
  | KRender =>
      match rr_detail e with
      | Some d => "the ref template could not be rendered: " +:+ d
      | None => "the ref template could not be rendered"
      end
  | KUnresolvable => "the rendered ref could not be resolved in workspace '" +:+ ws +:+ "'"
  end.

(** ** [anyhow::Error] *)

Inductive Link :=
| LMsg (text : string)
| LTemplate (t : TemplateError)
| LPin (e : PinError)
| LWithheld (w : PinLoadWithheld)
| LResolve (e : RefResolveError)
| LGitRef (e : GitRefError)
| LMissing (m : MissingAtRef)
| LReplay (e : ReplayFieldsError)
| LFile (e : FileInputError)
| LStorage                           (* [InputStorageUnavailable] *)
| LRendered (e : RenderedRefError)
| LOwnerSide                         (* [OwnerSideRender] *)
| LProvenance (b : ProvenanceBucket)
| LConnection (e : ConnectionRefError).

Definition link_fmt (l : Link) : string :=
  match l with
  | LMsg text => text
  | LTemplate t => TemplateError_fmt t
  | LPin e => PinError_fmt e
  | LWithheld w => PinLoadWithheld_fmt w
  | LResolve e => RefResolveError_fmt e
  | LGitRef e => GitRefError_fmt e
  | LMissing m => MissingAtRef_fmt m
  | LReplay e => ReplayFieldsError_fmt e
  | LFile e => FileInputError_fmt e
  | LStorage => STORAGE_NOT_CONFIGURED
  | LRendered e => RenderedRefError_fmt e
  | LOwnerSide => OWNER_SIDE_RENDER
  | LProvenance b => ProvenanceError_fmt b
  | LConnection e => ConnectionRefError_fmt e
  end.

Definition AnyError := list Link.

(** ["{:#}"], [to_string()], [.context(link)], [anyhow!(text)], [downcast_ref]. *)
Definition chain_text (e : AnyError) : string := str_join ": " (link_fmt <$> e).
Definition outer_text (e : AnyError) : string := default "" (link_fmt <$> head e).
Definition ctx {A} (l : Link) (r : result AnyError A) : result AnyError A := res_map_err (cons l) r.
Definition bail {A} (text : string) : result AnyError A := Err [LMsg text].
Fixpoint downcast {A} (f : Link → option A) (e : AnyError) : option A :=
  match e with
  | [] => None
  | l :: e' => match f l with Some a => Some a | None => downcast f e' end
  end.

Definition as_template (l : Link) : option TemplateError := match l with LTemplate t => Some t | _ => None end.
Definition as_pin (l : Link) : option PinError := match l with LPin e => Some e | _ => None end.
Definition as_withheld (l : Link) : option PinLoadWithheld := match l with LWithheld w => Some w | _ => None end.
Definition as_resolve (l : Link) : option RefResolveError := match l with LResolve e => Some e | _ => None end.
Definition as_git_ref (l : Link) : option GitRefError := match l with LGitRef e => Some e | _ => None end.
Definition as_missing (l : Link) : option MissingAtRef := match l with LMissing m => Some m | _ => None end.
Definition as_replay (l : Link) : option ReplayFieldsError := match l with LReplay e => Some e | _ => None end.
Definition as_file (l : Link) : option FileInputError := match l with LFile e => Some e | _ => None end.
Definition as_storage (l : Link) : option unit := match l with LStorage => Some () | _ => None end.
Definition as_rendered (l : Link) : option RenderedRefError := match l with LRendered e => Some e | _ => None end.
Definition as_owner_side (l : Link) : option unit := match l with LOwnerSide => Some () | _ => None end.
Definition as_provenance (l : Link) : option ProvenanceBucket := match l with LProvenance b => Some b | _ => None end.

(** ** Rendered refs *)

Definition rendered_new (kind : RenderedRefKind) (ws : string) : RenderedRefError := mkRendered kind ws None.

Definition from_rejection (r : RenderedRefRejection) (ws : string) : RenderedRefError :=
  rendered_new (match r with RejSecretValue => KSecretValue | RejInvalid => KInvalid end) ws.

Definition classify (err : AnyError) : RenderedRefKind :=
  match downcast as_pin err with
  | Some (NotGit _) => KNotGit
  | Some (RefNotFound _ r) => KNotFound (bool_decide (is_Some (short_sha_hint r)))
  | Some (CommitNotFound _ _) => KNotFound false
  | Some (PinLoadFailed _ _ _) => KLoadWithheld
  | Some (PinUnavailable _ _) => KUnavailable
  | None =>
      match downcast as_withheld err with
      | Some _ => KLoadWithheld
      | None =>
          match downcast as_resolve err with
          | Some (RefNotGit _) => KNotGit
          | Some (AgentAction _) => KAgentAction
          | Some (LibraryItem _) | Some (UnknownWorkspace _) => KUnresolvable
          | None =>
              match downcast as_git_ref err with
              | Some _ => KInvalid
              | None => match downcast as_missing err with Some _ => KNoAction | None => KUnresolvable end
              end
          end
      end
  end.

Definition from_error (err : AnyError) (ws : string) : RenderedRefError :=
  match downcast as_template err with
  | Some t => mkRendered KRender ws (Some (TemplateError_fmt t))
  | None => rendered_new (classify err) ws
  end.

Definition from_plan_error (err : RefResolveError) (base_ws : string) : RenderedRefError :=
  from_error [LResolve err] (match err with RefNotGit ws => ws | _ => base_ws end).

(** ** The HTTP answer *)

Inductive AppError :=
| BadRequest (body : string)
| ServiceUnavailable (body : string)
| InternalError (e : AnyError).

Definition precise_user_error (chain : string) : bool :=
  existsb (λ p, str_contains p chain)
    ["is not shared"; "unknown workspace"; "has no connection"; "no connection with that name exists";
     "was removed in 0.18.0"; "must not be empty"; "empty accept list"; "duplicate dependency"; "duplicate outcome"].

Definition legacy_user_error (outer : string) : bool :=
  existsb (λ p, str_contains p outer)
    ["not found"; "does not exist"; "resolve connection"; "has no action"; "has no task"; "required"; "invalid";
     "validation"; "merge input defaults"].

(** The tests run in this order; the first that applies decides. *)
Definition classify_execute_error (e : AnyError) : AppError :=
  match downcast as_storage e with
  | Some _ => ServiceUnavailable STORAGE_NOT_CONFIGURED
  | None =>
  match downcast as_file e with
  | Some f => BadRequest (FileInputError_fmt f)
  | None =>
  match downcast as_rendered e with
  | Some r => match rr_kind r with KUnavailable => InternalError e | _ => BadRequest (RenderedRefError_fmt r) end
  | None =>
  match downcast as_pin e with
  | Some p =>
      if is_transient p then InternalError e
      else match p with
           | PinLoadFailed ws commit _ => BadRequest (PinLoadWithheld_fmt (withheld_for_commit ws commit))
           | _ => BadRequest (chain_text e)
           end
  | None =>
  if bool_decide (is_Some (downcast as_withheld e)) || bool_decide (is_Some (downcast as_resolve e)) ||
     bool_decide (is_Some (downcast as_git_ref e))
  then BadRequest (chain_text e)
  else match downcast as_replay e with
  | Some r => BadRequest (ReplayFieldsError_fmt r)
  | None =>
      let chain := chain_text e in
      if str_contains "is not available" chain then InternalError e
      else if precise_user_error chain then BadRequest chain
      else if legacy_user_error (outer_text e) then BadRequest chain
      else InternalError e
  end end end end end.

(** ** What the answers depend on *)

(** A link with every text a rendered ref or a configuration can be in left
    out. A [TemplateError] keeps its category and position only. *)
Definition erase_template (t : TemplateError) : TemplateError :=
  mkTemplateError (te_message t) (te_line t) (te_column t) None "".

Definition erase_pin (e : PinError) : PinError :=
  match e with
  | NotGit _ => NotGit ""
  | RefNotFound _ r => RefNotFound "" (if bool_decide (is_Some (short_sha_hint r)) then "aaaa" else "")
  | CommitNotFound _ _ => CommitNotFound "" ""
  | PinLoadFailed _ _ _ => PinLoadFailed "" "" ""
  | PinUnavailable _ _ => PinUnavailable "" ""
  end.

Definition erase_resolve (e : RefResolveError) : RefResolveError :=
  match e with
  | LibraryItem _ => LibraryItem ""
  | UnknownWorkspace _ => UnknownWorkspace ""
  | RefNotGit _ => RefNotGit ""
  | AgentAction _ => AgentAction ""
  end.

Definition erase (l : Link) : Link :=
  match l with
  | LMsg _ => LMsg ""
  | LPin e => LPin (erase_pin e)
  | LWithheld _ => LWithheld (mkWithheld "")
  | LResolve e => LResolve (erase_resolve e)
  | LGitRef _ => LGitRef Empty
  | LMissing _ => LMissing (mkMissing "" "" "" "" "")
  | LTemplate t => LTemplate (erase_template t)
  | _ => LMsg ""
  end.

(** [downcast] through a map of the links that keeps the type searched for. *)
Lemma downcast_fmap {A} (f g : Link → option A) (h : Link → Link) (k : A → A) e :
  (∀ l, g (h l) = k <$> f l) → downcast g (h <$> e) = k <$> downcast f e.
Proof.
  intros Hl. induction e as [|l e IH]; simpl; [done|]. rewrite Hl. by destruct (f l).
Qed.

Lemma short_sha_hint_erased r :
  bool_decide (is_Some (short_sha_hint (if bool_decide (is_Some (short_sha_hint r)) then "aaaa" else ""))) =
  bool_decide (is_Some (short_sha_hint r)).
Proof. by destruct (bool_decide (is_Some (short_sha_hint r))). Qed.

Lemma classify_erase e : classify (erase <$> e) = classify e.
Proof.
  unfold classify.
  rewrite (downcast_fmap as_pin as_pin erase erase_pin) by by intros [].
  rewrite (downcast_fmap as_withheld as_withheld erase (λ _, mkWithheld "")) by by intros [].
  rewrite (downcast_fmap as_resolve as_resolve erase erase_resolve) by by intros [].
  rewrite (downcast_fmap as_git_ref as_git_ref erase (λ _, Empty)) by by intros [].
  rewrite (downcast_fmap as_missing as_missing erase (λ _, mkMissing "" "" "" "" "")) by by intros [].
  destruct (downcast as_pin e) as [[]|]; simpl; try done; [by rewrite short_sha_hint_erased|].
  destruct (downcast as_withheld e); simpl; [done|].
  destruct (downcast as_resolve e) as [[]|]; simpl; try done.
  destruct (downcast as_git_ref e); simpl; [done|]. by destruct (downcast as_missing e).
Qed.

Lemma from_error_erase e ws : from_error (erase <$> e) ws = from_error e ws.
Proof.
  unfold from_error. rewrite classify_erase.
  rewrite (downcast_fmap as_template as_template erase erase_template) by by intros [].
  by destruct (downcast as_template e).
Qed.

(** The error a rendered ref leaves with carries nothing of the failure but
    its type: failures that differ only in messages, refs, names, commits or
    loader output give one and the same error, hence the same text. *)
Theorem rendered_ref_error_value_free e1 e2 ws :
  erase <$> e1 = erase <$> e2 → from_error e1 ws = from_error e2 ws.
Proof. intros H. by rewrite <-(from_error_erase e1), <-(from_error_erase e2), H. Qed.

(** A link without the loader's output. *)
Definition hide (l : Link) : Link :=
  match l with LPin (PinLoadFailed ws commit _) => LPin (PinLoadFailed ws commit "") | _ => l end.

Definition hide_pin (e : PinError) : PinError :=
  match e with PinLoadFailed ws commit _ => PinLoadFailed ws commit "" | _ => e end.

Lemma hide_texts e : omap as_pin e = [] → hide <$> e = e.
Proof.
  induction e as [|l e IH]; [done|]. intros H. destruct l; simpl in *; try done; f_equal; by apply IH.
Qed.

Lemma downcast_omap {A} (f : Link → option A) e : downcast f e = head (omap f e).
Proof. induction e as [|l e IH]; simpl; [done|]. by destruct (f l). Qed.

Lemma hide_one_pin e p :
  omap as_pin e = [p] → (∀ ws c m, p ≠ PinLoadFailed ws c m) → hide <$> e = e.
Proof.
  intros Hp Hno. induction e as [|l e IH]; [done|].
  destruct (as_pin l) as [q|] eqn:El; destruct l; simplify_eq/=; try (f_equal; by apply IH).
  f_equal; [|by apply hide_texts]. f_equal. destruct p; try done. by destruct (Hno workspace commit message).
Qed.

(** The body of a 400 never contains the loader's output, which can quote
    secret values: with one pin error in the chain, the answer is the one for
    the chain without that output. *)
Theorem load_failure_text_withheld e body :
  (length (omap as_pin e) ≤ 1)%nat →
  classify_execute_error e = BadRequest body → classify_execute_error (hide <$> e) = BadRequest body.
Proof.
  intros Hone. destruct (omap as_pin e) as [|p [|q ps]] eqn:Hp; [by rewrite hide_texts| |simpl in Hone; lia].
  destruct p as [ws|ws r|ws c|ws c m|ws m]; try by rewrite (hide_one_pin e _ Hp).
  unfold classify_execute_error.
  rewrite (downcast_fmap as_storage as_storage hide id) by by intros [| |[]| | | | | | | | | | |].
  rewrite (downcast_fmap as_file as_file hide id) by by intros [| |[]| | | | | | | | | | |].
  rewrite (downcast_fmap as_rendered as_rendered hide id) by by intros [| |[]| | | | | | | | | | |].
  rewrite (downcast_fmap as_pin as_pin hide hide_pin) by by intros [| |[]| | | | | | | | | | |].
  rewrite !(downcast_omap as_pin), Hp. simpl.
  destruct (downcast as_storage e); [done|]. destruct (downcast as_file e); [done|].
  destruct (downcast as_rendered e) as [r|]; simpl; [|done]. by destruct (rr_kind r).
Qed.
