(* ===== verification/Engine.v ===== *)
(** * Rendering

    The rendering half of [crates/stroem-common/src/template.rs]: templates,
    environment and input maps, the raw value of a simple variable reference.
    The engine (Tera) is an argument: the text or an error, which becomes a
    value-free [TemplateError]. Whether a character outside ASCII is
    alphanumeric is Unicode data and an argument too. *)
From S2P Require Import Prelude Json Text Lines Utf8 Template TemplateError GitRef Workflow Errors.

(** ** The engine *)

Class Tera := {
  (** [Context::from_serialize]: an error or nothing. *)
  from_serialize : json → option TeraError;
  (** [render_str] with the [vals] filter: on failure also what the filter recorded. *)
  render_str : string → json → result (TeraError * option ValsFailure) string;
  (** [render_str] without [vals]. *)
  ref_render_str : string → json → result TeraError string;
}.

Definition is_syntax_error (e : TeraError) : bool := match tera_kind e with SyntaxError _ _ => true | _ => false end.
Definition is_rendering_error (e : TeraError) : bool := match tera_kind e with RenderingError _ _ => true | _ => false end.

Definition render_outer (e : TeraError) : Link :=
  LMsg (if is_syntax_error e then "Failed to parse template" else "Failed to render template").
Definition to_tera_context `{Tera} (context : json) : result AnyError unit :=
  match from_serialize context with
  | None => Ok ()
  | Some e => Err [LMsg "Failed to convert JSON to Tera context"; LTemplate (context_conversion e)]
  end.

(** [render_template] *)
Definition render `{Tera} (template : string) (context : json) : result AnyError string :=
  let? _ := to_tera_context context in
  match render_str template context with
  | Ok text => Ok text
  | Err (e, vals) => Err [render_outer e; LTemplate (from_tera e (Some template) vals)]
  end.

Definition render_ref_template `{Tera} (template : string) (context : json) : result AnyError string :=
  let? _ := to_tera_context context in
  match ref_render_str template context with
  | Ok text => Ok text
  | Err e => Err [render_outer e; LTemplate (from_tera e (Some template) None)]
  end.

(** A runtime error on the empty context means the template compiled. *)
Definition check_ref_template_syntax `{Tera} (src : string) : result TemplateError unit :=
  match ref_render_str src (JObject []) with
  | Ok _ => Ok ()
  | Err e => if is_rendering_error e then Ok () else Err (from_tera e (Some src) None)
  end.

(** The engine of [when] conditions and loops: the same errors, as texts. *)
#[export] Instance tera_template_engine `{Tera} : TemplateEngine :=
  {| render_template template context := res_map_err (fmap link_fmt) (render template context) |}.

(** ** Trees of templates *)

Definition indices (path : list (option nat)) : string :=
  foldr (λ i acc, match i with Some n => "[" +:+ pretty n +:+ "]" +:+ acc | None => acc end) "" path.
Definition only_indices (path : list (option nat)) : bool :=
  negb (bool_decide (path = [])) && forallb (λ i, bool_decide (is_Some i)) path.

Definition render_location (path : list (option nat)) : string :=
  if only_indices path then "Failed to render the template at `" +:+ indices path +:+ "`"
  else "Failed to render a template in this value".

(** The walk; [render] takes the text. [render_json_strings] renders every
    string, [render_value_deep] those with a marker. *)
Fixpoint render_strings_at (render : string → result AnyError string) (only_templated : bool)
    (path : list (option nat)) (value : json) : result AnyError json :=
  match value with
  | JString s =>
      if only_templated && negb (str_contains "{{" s) then Ok value
      else let? rendered := ctx (LMsg (render_location path)) (render s) in Ok (JString rendered)
  | JObject m =>
      (fix go (m : list (string * json)) (acc : list (string * json)) : result AnyError json :=
         match m with
         | [] => Ok (JObject acc)
         | (k, v) :: m' =>
             let? v' := render_strings_at render only_templated (path ++ [None]) v in
             go m' (json_map_insert k v' acc)
         end) m []
  | JArray l =>
      (fix go (i : nat) (l : list json) (acc : list json) : result AnyError json :=
         match l with
         | [] => Ok (JArray acc)
         | v :: l' =>
             let? v' := render_strings_at render only_templated (path ++ [Some i]) v in
             go (S i) l' (acc ++ [v'])
         end) 0%nat l []
  | other => Ok other
  end.

Section render.
Context `{Tera, HashIter}.

Definition render_json_strings (value context : json) : result AnyError json :=
  render_strings_at (λ s, render s context) false [] value.
Definition render_value_deep (value context : json) : result AnyError json :=
  render_strings_at (λ s, render s context) true [] value.

Fixpoint render_env_entries (context : json) (l : list (string * string)) (acc : gmap string string)
    : result AnyError (gmap string string) :=
  match l with
  | [] => Ok acc
  | (key, value) :: rest =>
      let? rendered := ctx (LMsg ("Failed to render env template for key '" +:+ key +:+ "'")) (render value context) in
      render_env_entries context rest (<[key := rendered]> acc)
  end.
Definition render_env_map (env_map : gmap string string) (context : json) : result AnyError (gmap string string) :=
  render_env_entries context (hash_iter env_map) ∅.

Definition render_string_opt (template : option string) (context : json) : result AnyError (option string) :=
  match template with
  | Some s => res_map Some (ctx (LMsg "Failed to render string template") (render s context))
  | None => Ok None
  end.
End render.

(** ** Simple variable references *)

(** [s.chars()], each character as its bytes. *)
Fixpoint chars_fuel (fuel : nat) (l : Bytes) : list Bytes :=
  match fuel, l with
  | S fuel', b :: _ => take (char_len b) l :: chars_fuel fuel' (drop (char_len b) l)
  | _, _ => []
  end.
Definition chars (l : Bytes) : list Bytes := chars_fuel (length l) l.

Class Unicode := unicode_alphanumeric : Bytes → bool.

Definition is_alphanumeric `{Unicode} (c : Bytes) : bool :=
  match c with
  | [b] => byte_in 48 57 b || byte_in 65 90 b || byte_in 97 122 b
  | _ => unicode_alphanumeric c
  end.

(** [s.strip_suffix(p)] *)
Definition strip_suffix_str (p s : string) : option string :=
  if ends_with p s then Some (str_take (String.length s - String.length p) s) else None.

Definition extract_simple_variable_path `{Unicode} (template : string) : option string :=
  let trimmed := trim template in
  rest ← strip_prefix_str "{{" trimmed;
  rest ← strip_suffix_str "}}" rest;
  let inner := trim rest in
  if (inner <>? "") &&
     forallb (λ c, is_alphanumeric c || bool_decide (c = bytes ".") || bool_decide (c = bytes "_")) (chars (bytes inner))
  then Some inner else None.

(** [current.get(part)?], part by part. *)
Definition resolve_context_path (context : json) (path : string) : option json :=
  fold_left (λ cur part, v ← cur; json_get (of_bytes part) v) (split_on "." (bytes path)) (Some context).

Section input_map.
Context `{Tera, HashIter, Unicode}.

(** The value of one entry of an input map. *)
Definition render_entry (context : json) (key : string) (value : json) : result AnyError json :=
  match value with
  | JString s =>
      let rendered := res_map JString (ctx (LMsg ("Failed to render template for key '" +:+ key +:+ "'")) (render s context)) in
      match extract_simple_variable_path s ≫= resolve_context_path context with
      | Some raw => if is_object raw || is_array raw then Ok raw else rendered
      | None => rendered
      end
  | other => Ok other
  end.

Fixpoint render_entries (context : json) (l : list (string * json)) (acc : jmap) : result AnyError jmap :=
  match l with
  | [] => Ok acc
  | (key, value) :: rest =>
      let? v := render_entry context key value in
      render_entries context rest (json_map_insert key v acc)
  end.

Definition render_input_map (input_map : gmap string json) (context : json) : result AnyError json :=
  res_map JObject (render_entries context (hash_iter input_map) []).

(** The entries the author wrote as objects or arrays are rendered inside. *)
Fixpoint project_entries (input_map : gmap string json) (context : json) (top : jmap) (acc : jmap) : result AnyError jmap :=
  match top with
  | [] => Ok acc
  | (key, value) :: rest =>
      let? v :=
        match input_map !! key with
        | Some (JObject _) | Some (JArray _) =>
            ctx (LMsg ("Failed to render a template inside input field '" +:+ key +:+ "'")) (render_json_strings value context)
        | _ => Ok value
        end in
      project_entries input_map context rest (json_map_insert key v acc)
  end.
Definition render_ref_projection (input_map : gmap string json) (context : json) : result AnyError json :=
  let? top := render_input_map input_map context in
  res_map JObject (project_entries input_map context (entries top) []).
End input_map.
