(* ===== verification/JsonField.v ===== *)
(** * [json] input fields

    [crates/stroem-common/src/json_field.rs]: a string inside a [json] value
    is literal text, one [{{ expression }}] evaluated to its native value, or
    an error. The expression is wrapped in a template that encodes its value;
    an error's position in the wrapper is mapped back to the author's
    string. *)
From S2P Require Import Prelude Json Text Lines Utf8 Template TemplateError GitRef Errors Engine.

Definition PREFIX : string := "{% set __stroem_v = ".
Definition SUFFIX : string :=
  " %}{% if __stroem_v is undefined %}{{ __stroem_v }}{% endif %}{{ __stroem_v | json_encode() }}".
Definition DELIMITERS : list string := ["{{"; "}}"; "{%"; "%}"; "{#"; "#}"].
Definition NOT_JSON : string := "the expression's value could not be converted to JSON".

Record SingleExpr := mkSingle { inner : string; start : nat * nat }.
Inductive Classified := Literal | Single (e : SingleExpr) | Mixed.

Definition looks_templated (s : string) : bool := str_contains "{{" s || str_contains "{%" s || str_contains "{#" s.

(** [char::is_ascii_whitespace] *)
Definition is_ascii_ws (b : ascii) : bool := byte_is 32 b || byte_is 9 b || byte_is 10 b || byte_is 12 b || byte_is 13 b.
Fixpoint drop_ws (l : Bytes) : Bytes :=
  match l with b :: l' => if is_ascii_ws b then drop_ws l' else l | [] => [] end.

(** Characters, counted by the bytes that start one; newlines; the text after
    the last newline. *)
Definition char_count (l : Bytes) : nat := length (List.filter (λ b, negb (is_cont b)) l).
Definition newlines (l : Bytes) : nat := length (List.filter (λ b, b ==? nl) l).
Definition last_seg (l : Bytes) : Bytes := fold_left (λ acc b, if b ==? nl then [] else acc ++ [b]) l [].

(** The 1-based line and column right after a text. *)
Definition pos_after (before : Bytes) : nat * nat := (1 + newlines before, 1 + char_count (last_seg before))%nat.
Definition position_of (s : string) (byte : nat) : nat * nat := pos_after (take byte (bytes s)).

Definition classify (s : string) : Classified :=
  if negb (looks_templated s) then Literal
  else
    let l := bytes s in
    let lead := (length l - length (drop_ws l))%nat in
    let trimmed := of_bytes (rev (drop_ws (rev (drop_ws l)))) in
    match strip_prefix_str "{{" trimmed ≫= strip_suffix_str "}}" with
    | None => Mixed
    | Some body =>
        let '(body, open_len) := match strip_prefix_str "-" body with Some b => (b, 3%nat) | None => (body, 2%nat) end in
        let inner := default body (strip_suffix_str "-" body) in
        if existsb (λ d, str_contains d inner) DELIMITERS then Mixed
        else Single (mkSingle inner (position_of s (lead + open_len)))
    end.

Definition map_position (expr : SingleExpr) (pos : nat * nat) : option (nat * nat) :=
  let p := char_count (bytes PREFIX) in
  let '(l, c) := pos in
  let newl := newlines (bytes (inner expr)) in
  let last_line := (1 + newl)%nat in
  let last_col := if (newl =? 0)%nat then (p + char_count (bytes (inner expr)))%nat
                  else char_count (last_seg (bytes (inner expr))) in
  let before_start := (l =? 0)%nat || ((l =? 1)%nat && (c <? p + 1)%nat) in
  let after_end := (last_line <? l)%nat || ((l =? last_line)%nat && (last_col <? c)%nat) in
  if before_start || after_end then None
  else let '(l0, c0) := start expr in
       Some (if (l =? 1)%nat then (l0, (c0 + c - (p + 1))%nat) else ((l0 + l - 1)%nat, c)).

(** The outermost text of an error with more than one link is kept. *)
Definition remap (err : AnyError) (expr : SingleExpr) : AnyError :=
  let outer := if (1 <? length err)%nat then [LMsg (outer_text err)] else [] in
  match downcast as_template err with
  | Some te => outer ++ [LTemplate (with_position te (position te ≫= map_position expr))]
  | None => err
  end.

Definition eval_single `{JsonParser} (expr : SingleExpr) (render : string → result AnyError string) : result AnyError json :=
  match render (PREFIX +:+ inner expr +:+ SUFFIX) with
  | Err e => Err (remap e expr)
  | Ok text => match json_from_str text with Ok v => Ok v | Err _ => bail NOT_JSON end
  end.

Definition location (field : string) (path : list (option nat)) : string :=
  if only_indices path then "Input field '" +:+ field +:+ "' at `" +:+ indices path +:+ "`"
  else "Input field '" +:+ field +:+ "'".

Definition MIXED_TEXT : string := ": a json field takes a literal value or a single {{ expression }}".

Fixpoint walk `{JsonParser} (field : string) (render : string → result AnyError string)
    (path : list (option nat)) (value : json) : result AnyError json :=
  match value with
  | JString s =>
      match classify s with
      | Literal => Ok value
      | Single expr => ctx (LMsg (location field path)) (eval_single expr render)
      | Mixed => bail (location field path +:+ MIXED_TEXT)
      end
  | JObject m =>
      (fix go (m : list (string * json)) (acc : list (string * json)) : result AnyError json :=
         match m with
         | [] => Ok (JObject acc)
         | (k, v) :: m' => let? v' := walk field render (path ++ [None]) v in go m' (json_map_insert k v' acc)
         end) m []
  | JArray l =>
      (fix go (i : nat) (l : list json) (acc : list json) : result AnyError json :=
         match l with
         | [] => Ok (JArray acc)
         | v :: l' => let? v' := walk field render (path ++ [Some i]) v in go (S i) l' (acc ++ [v'])
         end) 0%nat l []
  | other => Ok other
  end.

Definition render_json_value `{Tera, JsonParser} (value : json) (field : string) (context : json) : result AnyError json :=
  walk field (λ t, render t context) [] value.

(** ** The lint of [stroem validate] *)

Record JsonLint := mkLint { lint_mixed : bool; encodes_to_text : bool }.

(** [s.rsplit_once('|')]: the part after the last bar. *)
Definition after_last (c : ascii) (l : Bytes) : option Bytes :=
  match rev (split_on c l) with x :: _ :: _ => Some x | _ => None end.

Definition ends_in_json_encode (inner : string) : bool :=
  match after_last "|" (bytes inner) with
  | None => false
  | Some last =>
      match strip_prefix_str "json_encode" (trim (of_bytes last)) with
      | Some rest => (rest ==? "") || starts_with "(" rest
      | None => false
      end
  end.

Fixpoint lint_walk (lint : JsonLint) (value : json) : JsonLint :=
  match value with
  | JString s =>
      match classify s with
      | Mixed => mkLint true (encodes_to_text lint)
      | Single expr => if ends_in_json_encode (inner expr) then mkLint (lint_mixed lint) true else lint
      | Literal => lint
      end
  | JObject m =>
      (fix go (m : list (string * json)) (acc : JsonLint) : JsonLint :=
         match m with [] => acc | (_, v) :: m' => go m' (lint_walk acc v) end) m lint
  | JArray l =>
      (fix go (l : list json) (acc : JsonLint) : JsonLint :=
         match l with [] => acc | v :: l' => go l' (lint_walk acc v) end) l lint
  | _ => lint
  end.
Definition lint_json_value (value : json) : JsonLint := lint_walk (mkLint false false) value.

Example classify_samples :
  map classify ["plain"; ""; "{{ x }}"; "  {{ x }} "; "{{- x -}}"; "id {{ x }}"; "{{ a }}{{ b }}"; "{# note #}"] =
  [Literal; Literal; Single (mkSingle " x " (1, 3)%nat); Single (mkSingle " x " (1, 5)%nat);
   Single (mkSingle " x " (1, 4)%nat); Mixed; Mixed; Mixed].
Proof. vm_compute. reflexivity. Qed.

(** ** Positions *)

Lemma newlines_app a b : newlines (a ++ b) = (newlines a + newlines b)%nat.
Proof. unfold newlines. by rewrite List.filter_app, length_app. Qed.

Lemma char_count_app a b : char_count (a ++ b) = (char_count a + char_count b)%nat.
Proof. unfold char_count. by rewrite List.filter_app, length_app. Qed.

Lemma last_seg_flat a b : newlines b = 0%nat → last_seg (a ++ b) = last_seg a ++ b.
Proof.
  revert a. induction b as [|c b IH]; intros a Hb; [by rewrite !app_nil_r|].
  change (newlines (c :: b)) with (newlines ([c] ++ b)) in Hb. rewrite newlines_app in Hb.
  replace (a ++ c :: b) with ((a ++ [c]) ++ b) by by rewrite <-app_assoc.
  rewrite IH by lia. unfold last_seg. rewrite fold_left_app. simpl. unfold newlines in Hb. simpl in Hb.
  case_bool_decide; [simpl in Hb; lia|]. by rewrite <-app_assoc.
Qed.

Lemma last_seg_lines a b : newlines b ≠ 0%nat → last_seg (a ++ b) = last_seg b.
Proof.
  intros Hb. induction b as [|c b IH] using rev_ind; [by unfold newlines in Hb|].
  rewrite newlines_app in Hb. rewrite app_assoc. unfold last_seg in *. rewrite !fold_left_app. simpl.
  case_bool_decide as Hc; [done|]. f_equal. rewrite <-fold_left_app. apply IH. unfold newlines in Hb at 2. simpl in Hb.
  rewrite bool_decide_false in Hb by done. simpl in Hb. lia.
Qed.

Lemma newlines_last_seg l : newlines (last_seg l) = 0%nat.
Proof.
  unfold last_seg. induction l as [|c l IH] using rev_ind; [done|]. rewrite fold_left_app. simpl.
  case_bool_decide; [done|]. rewrite newlines_app, IH. unfold newlines. simpl. by rewrite bool_decide_false.
Qed.

Lemma pos_after_flat a b :
  newlines b = 0%nat → pos_after (a ++ b) = ((pos_after a).1, ((pos_after a).2 + char_count b)%nat).
Proof.
  intros Hb. unfold pos_after. rewrite last_seg_flat, char_count_app, newlines_app, Hb by done. simpl. f_equal; lia.
Qed.

Lemma pos_after_lines a b :
  newlines b ≠ 0%nat → pos_after (a ++ b) = (((pos_after a).1 + newlines b)%nat, (1 + char_count (last_seg b))%nat).
Proof. intros Hb. unfold pos_after. rewrite last_seg_lines, newlines_app by done. simpl. f_equal. Qed.

(** A character starts here. *)
Definition at_char (y : Bytes) : Prop := match y with b :: _ => is_cont b = false | [] => False end.

Lemma char_count_pos y : at_char y → (1 ≤ char_count y)%nat.
Proof. destruct y as [|b y]; simpl; [done|]. intros Hb. unfold char_count. simpl. rewrite Hb. simpl. lia. Qed.

Lemma prefix_flat : newlines (bytes PREFIX) = 0%nat.
Proof. reflexivity. Qed.

Lemma pos_prefix x :
  pos_after (bytes PREFIX ++ x) =
  if (newlines x =? 0)%nat then (1, char_count (bytes PREFIX) + 1 + char_count x)%nat
  else ((1 + newlines x)%nat, (1 + char_count (last_seg x))%nat).
Proof.
  destruct (Nat.eqb_spec (newlines x) 0) as [Hx|Hx].
  - rewrite pos_after_flat by done. simpl. reflexivity.
  - by rewrite pos_after_lines.
Qed.

(** An error at a character of the expression is reported at that character
    of the author's string: the wrapper's position of [y], after [x], maps to
    the position of [y] in [pre ++ x ++ y ++ post]. *)
Theorem map_position_correct pre x y inner_ :
  bytes inner_ = x ++ y → at_char y →
  map_position (mkSingle inner_ (pos_after pre)) (pos_after (bytes PREFIX ++ x)) = Some (pos_after (pre ++ x)).
Proof.
  intros Hi Hy. unfold map_position. cbn [inner start]. rewrite Hi.
  rewrite (pos_prefix x), newlines_app, char_count_app.
  pose proof (char_count_pos y Hy) as Hpos. set (p := char_count (bytes PREFIX)).
  destruct (Nat.eqb_spec (newlines x) 0) as [Hx|Hx].
  - rewrite (pos_after_flat pre x), Hx by done.
    repeat match goal with
    | |- context [(?a =? ?b)%nat] => destruct (Nat.eqb_spec a b); try lia
    | |- context [(?a <? ?b)%nat] => destruct (Nat.ltb_spec a b); try lia
    end; simpl; f_equal; f_equal; lia.
  - rewrite (proj2 (Nat.eqb_neq (newlines x + newlines y) 0)) by lia.
    rewrite (proj2 (Nat.eqb_neq (1 + newlines x) 0)), (proj2 (Nat.eqb_neq (1 + newlines x) 1)) by lia.
    rewrite (proj2 (Nat.ltb_ge (1 + (newlines x + newlines y)) (1 + newlines x))) by lia. cbn [orb andb].
    rewrite (pos_after_lines pre x) by done.
    assert (Hend : (1 + newlines x =? 1 + (newlines x + newlines y))%nat &&
        (char_count (last_seg (x ++ y)) <? 1 + char_count (last_seg x))%nat = false).
    { destruct (Nat.eqb_spec (1 + newlines x) (1 + (newlines x + newlines y))) as [E|E]; [|done].
      rewrite last_seg_flat, char_count_app by lia. apply Nat.ltb_ge. lia. }
    rewrite Hend.
    f_equal. f_equal. simpl. lia.
Qed.

(** Where the expression is: [start] is the position of [inner] in the string. *)
Lemma strip_prefix_bytes_eq p s r : strip_prefix_str p s = Some r → bytes s = bytes p ++ bytes r.
Proof. intros ->%strip_prefix_str_spec. apply bytes_app. Qed.

Lemma str_take_bytes n s : bytes (str_take n s) = take n (bytes s).
Proof. revert s. induction n as [|n IH]; intros [|c s]; simpl; auto. by rewrite IH. Qed.

Lemma strip_suffix_bytes_eq p s r : strip_suffix_str p s = Some r → bytes s = bytes r ++ bytes p.
Proof.
  unfold strip_suffix_str. destruct (ends_with p s) eqn:E; [|done]. intros [= <-].
  apply suffix_bytes in E as [k Hk]. rewrite str_take_bytes, <-!length_bytes, Hk, length_app, Nat.add_sub.
  by rewrite take_app_length.
Qed.

Lemma drop_ws_suffix l : ∃ a, l = a ++ drop_ws l.
Proof.
  induction l as [|b l [a IH]]; simpl; [by exists []|]. destruct (is_ascii_ws b); [|by exists []].
  exists (b :: a). simpl. by rewrite <-IH.
Qed.

#[local] Arguments existsb : simpl never.

Lemma classify_single s e :
  classify s = Single e →
  ∃ pre post, bytes s = pre ++ bytes (inner e) ++ post ∧ start e = pos_after pre ∧
    ∀ d, d ∈ DELIMITERS → str_contains d (inner e) = false.
Proof.
  unfold classify. destruct (negb _); [done|].
  destruct (drop_ws_suffix (bytes s)) as [a Ha].
  destruct (drop_ws_suffix (rev (drop_ws (bytes s)))) as [b Hb].
  set (t := rev (drop_ws (rev (drop_ws (bytes s))))) in *.
  assert (Ht : drop_ws (bytes s) = t ++ rev b).
  { by rewrite <-(rev_involutive (drop_ws (bytes s))), Hb, rev_app_distr. }
  destruct (strip_prefix_str "{{" (of_bytes t)) as [r|] eqn:E1; simpl; [|done].
  destruct (strip_suffix_str "}}" r) as [body|] eqn:E2; [|done].
  apply strip_prefix_bytes_eq in E1. apply strip_suffix_bytes_eq in E2. rewrite bytes_of_bytes in E1.
  set (x := match strip_prefix_str "-" body with Some _ => _ | None => _ end).
  assert (∃ o, bytes body = o ++ bytes x.1 ∧ x.2 = (2 + length o)%nat) as (o & Ho & Hx2).
  { subst x. destruct (strip_prefix_str "-" body) eqn:E; simpl; [|by exists []].
    apply strip_prefix_bytes_eq in E. exists (bytes "-"). done. }
  destruct x as [body' n]. simpl in *.
  assert (∃ z, bytes body' = bytes (default body' (strip_suffix_str "-" body')) ++ z) as [z Hz].
  { destruct (strip_suffix_str "-" body') eqn:E; simpl; [|exists []; by rewrite app_nil_r].
    apply strip_suffix_bytes_eq in E. by eexists. }
  destruct (existsb _ DELIMITERS) eqn:Ed; [done|]. intros [= <-]. cbn [inner start].
  assert (Hs : bytes s = (a ++ bytes "{{" ++ o) ++ bytes (default body' (strip_suffix_str "-" body')) ++ (z ++ bytes "}}" ++ rev b)).
  { rewrite Ha at 1. rewrite Ht, E1, E2, Ho, Hz. simpl. by rewrite <-!app_assoc. }
  exists (a ++ bytes "{{" ++ o), (z ++ bytes "}}" ++ rev b). split; [done|]. split.
  - unfold position_of. f_equal.
    assert (length (bytes s) - length (drop_ws (bytes s)) + n = length (a ++ bytes "{{" ++ o))%nat as ->.
    { rewrite Ha at 1. rewrite !length_app, Hx2. simpl. lia. }
    rewrite Hs. by rewrite take_app_length.
  - intros d Hd. apply existsb_false_Forall in Ed. rewrite Forall_forall in Ed. by apply Ed.
Qed.

(** ** Literals *)

(** Every string of the value is literal. *)
Inductive literal_value : json → Prop :=
| lit_null : literal_value JNull
| lit_bool b : literal_value (JBool b)
| lit_number n : literal_value (JNumber n)
| lit_string s : classify s = Literal → literal_value (JString s)
| lit_array l : Forall literal_value l → literal_value (JArray l)
| lit_object m : Forall (λ e, literal_value e.2) m → sorted_map m → literal_value (JObject m).

(** Appending in key order. *)
Lemma json_map_insert_last k v m : Forall (λ x, key_lt x k) m.*1 → json_map_insert k v m = m ++ [(k, v)].
Proof.
  induction m as [|[k' v'] m IH]; simpl; [done|]. intros [Hk Hm]%Forall_cons.
  rewrite string_compare_antisym, Hk. simpl. by rewrite IH.
Qed.

(** A literal value is its own rendering: the engine is not asked. *)
Theorem literal_json_not_rendered `{JsonParser} field render path v :
  literal_value v → walk field render path v = Ok v.
Proof.
  revert path. induction v as [|b|n|s|l IH|m IH] using json_ind'; intros path Hl; inversion Hl; subst; simpl; try done.
  - by rewrite H1.
  - assert (Hgo : ∀ i acc, Forall literal_value l → Forall (λ v, ∀ path, literal_value v → walk field render path v = Ok v) l →
      (fix go (i : nat) (l : list json) (acc : list json) : result AnyError json :=
         match l with
         | [] => Ok (JArray acc)
         | v :: l' => let? v' := walk field render (path ++ [Some i]) v in go (S i) l' (acc ++ [v'])
         end) i l acc = Ok (JArray (acc ++ l))).
    { clear. induction l as [|v l IH]; intros i acc Hl Hw; [by rewrite app_nil_r|].
      apply Forall_cons in Hl as [Hv Hl], Hw as [Hwv Hw]. rewrite Hwv by done. simpl. rewrite IH by done.
      by rewrite <-app_assoc. }
    by rewrite Hgo.
  - assert (Hgo : ∀ acc, Forall (λ e, literal_value e.2) m → sorted_map (acc ++ m) →
      Forall (λ e, ∀ path, literal_value e.2 → walk field render path e.2 = Ok e.2) m →
      (fix go (m : list (string * json)) (acc : list (string * json)) : result AnyError json :=
         match m with
         | [] => Ok (JObject acc)
         | (k, v) :: m' => let? v' := walk field render (path ++ [None]) v in go m' (json_map_insert k v' acc)
         end) m acc = Ok (JObject (acc ++ m))).
    { clear. induction m as [|[k v] m IH]; intros acc Hl Hs Hw; [by rewrite app_nil_r|].
      apply Forall_cons in Hl as [Hv Hl], Hw as [Hwv Hw]. simpl in *. rewrite Hwv by done. simpl.
      rewrite json_map_insert_last.
      - rewrite IH; [by rewrite <-app_assoc|done| |done]. by rewrite <-app_assoc.
      - unfold sorted_map in Hs. rewrite fmap_app in Hs. clear -Hs. induction acc as [|[k' v'] acc IH]; simpl in *; [done|].
        apply StronglySorted_inv in Hs as [Hs Hk]. constructor; [|by apply IH].
        rewrite Forall_forall in Hk. apply Hk. apply elem_of_app. right. by left. }
    by rewrite Hgo.
Qed.
