(* ===== verification/TypedInput.v ===== *)
(** * Typed inputs

    [render_input_typed] and [render_input_typed_with_files] of
    [crates/stroem-common/src/template.rs]: the input map of a step or hook
    rendered against the schema it lands in. *)
From S2P Require Import Prelude Json Text Template TemplateError GitRef Workflow FileField InputFiles Errors Engine JsonField.

Definition JSON_TYPE : string := "json".

Definition type_of (schema : option (gmap string InputFieldDef)) (k : string) : option string :=
  s ← schema; f ← s !! k; Some (field_type f).

Section typed.
Context `{Tera, JsonParser, HashIter, Unicode}.

Fixpoint json_entries (context : json) (l : list (string * json)) (acc : jmap) : result AnyError jmap :=
  match l with
  | [] => Ok acc
  | (k, v) :: rest => let? v' := render_json_value v k context in json_entries context rest (json_map_insert k v' acc)
  end.

(** The id of the file a field names; [None] when it names none. *)
Definition file_entry (files : JobFiles) (context : json) (k : string) (v : json) : result AnyError (option string) :=
  let cannot_use {A} : result AnyError A := Err [LFile (mkFileInputError k CannotUse)] in
  match v with
  | JNull => Ok None
  | JString s =>
      let? text := render s context in
      let text := trim text in
      if text ==? "" then Ok None
      else match resolve_target files text with Some f => Ok (Some (fr_file_id f)) | None => cannot_use end
  | _ => cannot_use
  end.

Fixpoint file_entries (files : JobFiles) (context : json) (l : list (string * json)) (acc : jmap) : result AnyError jmap :=
  match l with
  | [] => Ok acc
  | (k, v) :: rest =>
      let? id := file_entry files context k v in
      file_entries files context rest (match id with Some id => json_map_insert k (JString id) acc | None => acc end)
  end.

Definition render_input_typed_with_files (input_map : gmap string json) (schema : option (gmap string InputFieldDef)) (context : json)
    (files : JobFiles) : result AnyError json :=
  let json_fields := filter (λ p, type_of schema p.1 = Some JSON_TYPE) input_map in
  let file_fields := filter (λ p, type_of schema p.1 = Some FILE_TYPE) input_map in
  let rest := filter (λ p, type_of schema p.1 ≠ Some JSON_TYPE ∧ type_of schema p.1 ≠ Some FILE_TYPE) input_map in
  let? out := render_input_map rest context in
  let? map := json_entries context (hash_iter json_fields) (entries out) in
  res_map JObject (file_entries files context (hash_iter file_fields) map).

Definition render_input_typed (input_map : gmap string json) (schema : option (gmap string InputFieldDef)) (context : json)
    : result AnyError json :=
  render_input_typed_with_files input_map schema context (job_files_new CANONICAL_INPUTS_ROOT []).
End typed.

(** ** What a field becomes *)

Section exact.
Context `{Tera, JsonParser, HashIter, Unicode}.

(** The value of one field, [None] when it is left out. *)
Definition field_value (files : JobFiles) (schema : option (gmap string InputFieldDef)) (context : json) (k : string) (v : json)
    : result AnyError (option json) :=
  if type_of schema k ==? Some JSON_TYPE then res_map Some (render_json_value v k context)
  else if type_of schema k ==? Some FILE_TYPE then res_map (fmap JString) (file_entry files context k v)
  else res_map Some (render_entry context k v).

(** The three loops are one. *)
Fixpoint insert_entries (f : string → json → result AnyError (option json)) (l : list (string * json)) (acc : jmap) : result AnyError jmap :=
  match l with
  | [] => Ok acc
  | (k, v) :: rest =>
      let? o := f k v in
      insert_entries f rest (match o with Some v' => json_map_insert k v' acc | None => acc end)
  end.

Lemma render_entries_insert context l acc :
  render_entries context l acc = insert_entries (λ k v, res_map Some (render_entry context k v)) l acc.
Proof. revert acc. induction l as [|[k v] l IH]; intros acc; simpl; [done|]. destruct (render_entry context k v); simpl; [apply IH|done]. Qed.
Lemma json_entries_insert context l acc :
  json_entries context l acc = insert_entries (λ k v, res_map Some (render_json_value v k context)) l acc.
Proof. revert acc. induction l as [|[k v] l IH]; intros acc; simpl; [done|]. destruct (render_json_value v k context); simpl; [apply IH|done]. Qed.
Lemma file_entries_insert files context l acc :
  file_entries files context l acc = insert_entries (λ k v, res_map (fmap JString) (file_entry files context k v)) l acc.
Proof.
  revert acc. induction l as [|[k v] l IH]; intros acc; simpl; [done|]. destruct (file_entry files context k v) as [[id|]|]; simpl; [apply IH..|done].
Qed.

Lemma insert_entries_ok f l acc o :
  NoDup l.*1 → insert_entries f l acc = Ok o →
  ∀ k, match json_map_lookup k l with
       | Some v => ∃ r, f k v = Ok r ∧ json_map_lookup k o = match r with Some v' => Some v' | None => json_map_lookup k acc end
       | None => json_map_lookup k o = json_map_lookup k acc
       end.
Proof.
  revert acc. induction l as [|[k0 v0] l IH]; intros acc Hnd; cbn [insert_entries]; [by intros [= <-]|].
  cbn in Hnd. apply NoDup_cons in Hnd as [Hk Hnd]. destruct (f k0 v0) as [r|] eqn:Ef; simpl; [|done]. intros E k.
  specialize (IH _ Hnd E k). case_bool_decide as Ek.
  - subst k0. exists r. split; [done|]. destruct (json_map_lookup k l) as [v|] eqn:El.
    + destruct Hk. clear -El. induction l as [|[k1 v1] l IH]; [done|]. simpl in El. case_bool_decide; [subst; left|right; by apply IH].
    + rewrite IH. destruct r; [by rewrite json_map_lookup_insert|done].
  - destruct (json_map_lookup k l) as [v|].
    + destruct IH as (r' & Hr' & ->). exists r'. split; [done|]. destruct r', r; try done. by rewrite json_map_lookup_insert_ne.
    + rewrite IH. destruct r; [by rewrite json_map_lookup_insert_ne|done].
Qed.

Lemma insert_entries_err f l acc e : insert_entries f l acc = Err e → ∃ k v, (k, v) ∈ l ∧ f k v = Err e.
Proof.
  revert acc. induction l as [|[k v] l IH]; intros acc; simpl; [done|]. destruct (f k v) as [r|e'] eqn:Ef; simpl.
  - intros (k' & v' & ? & ?)%IH. exists k', v'. split; [by right|done].
  - intros [= ->]. exists k, v. split; [by left|done].
Qed.

Lemma lookup_hash_iter (m : gmap string json) k : json_map_lookup k (hash_iter m) = m !! k.
Proof.
  destruct (m !! k) as [v|] eqn:Em.
  - apply elem_of_hash_iter in Em. assert (Hnd : NoDup (hash_iter m).*1) by (rewrite hash_iter_perm; apply NoDup_fst_map_to_list).
    induction (hash_iter m) as [|[k0 v0] l IH]; [by apply elem_of_nil in Em|]. cbn in Hnd. apply NoDup_cons in Hnd as [Hk Hnd]. simpl.
    apply elem_of_cons in Em as [[= -> ->]|Hin]; [by rewrite bool_decide_true|]. case_bool_decide; [|by apply IH].
    subst. destruct Hk. change k0 with (k0, v).1. by apply list_elem_of_fmap_2.
  - destruct (json_map_lookup k (hash_iter m)) as [v|] eqn:El; [|done].
    assert (Hin : (k, v) ∈ hash_iter m).
    { clear Em. induction (hash_iter m) as [|[k0 v0] l IH]; [done|]. simpl in El. case_bool_decide; [simplify_eq; left|right; by apply IH]. }
    apply elem_of_hash_iter in Hin. congruence.
Qed.

Lemma NoDup_hash_iter (m : gmap string json) : NoDup (hash_iter m).*1.
Proof. rewrite hash_iter_perm. apply NoDup_fst_map_to_list. Qed.

(** A rendered input has exactly the fields written: a [json] field by the
    json rule, a [file] field as the id of an attached file or left out, any
    other as its rendered text or the value a simple reference names; and it
    fails exactly when a field does. *)
Theorem typed_input_exact m schema context files :
  match render_input_typed_with_files m schema context files with
  | Ok out => ∀ k, match m !! k with
                   | Some v => field_value files schema context k v = Ok (json_get k out)
                   | None => json_get k out = None
                   end
  | Err e => ∃ k v, m !! k = Some v ∧ field_value files schema context k v = Err e
  end.
Proof.
  unfold render_input_typed_with_files, render_input_map. set (mj := filter (λ p, _ = Some JSON_TYPE) m). set (mf := filter (λ p, _ = Some FILE_TYPE) m).
  set (mr := filter (λ p, _ ∧ _) m).
  assert (Hsub : ∀ (P : string * json → Prop) `{∀ p, Decision (P p)} k, filter P m !! k = v ← m !! k; if decide (P (k, v)) then Some v else None).
  { intros P ? k. rewrite map_lookup_filter. destruct (m !! k); simpl; [|done]. case_decide; [by rewrite option_guard_True|by rewrite option_guard_False]. }
  assert (Hmem : ∀ (P : string * json → Prop) `{∀ p, Decision (P p)} k v, (k, v) ∈ hash_iter (filter P m) → m !! k = Some v ∧ P (k, v)).
  { intros P ? k v Hin%elem_of_hash_iter. by apply map_lookup_filter_Some in Hin. }
  rewrite render_entries_insert. destruct (insert_entries _ (hash_iter mr) []) as [o1|e] eqn:E1; simpl.
  2:{ apply insert_entries_err in E1 as (k & v & [Hk [H1' H2']]%Hmem & He). exists k, v. split; [done|]. unfold field_value.
      by rewrite !bool_decide_false. }
  rewrite json_entries_insert. destruct (insert_entries _ (hash_iter mj) o1) as [o2|e] eqn:E2; simpl.
  2:{ apply insert_entries_err in E2 as (k & v & [Hk Hj]%Hmem & He). exists k, v. split; [done|]. unfold field_value. simpl in Hj.
      by rewrite bool_decide_true. }
  rewrite file_entries_insert. destruct (insert_entries _ (hash_iter mf) o2) as [o3|e] eqn:E3; simpl.
  2:{ apply insert_entries_err in E3 as (k & v & [Hk Hj]%Hmem & He). exists k, v. split; [done|]. unfold field_value. simpl in Hj.
      rewrite bool_decide_false by (rewrite Hj; by intros [=]). by rewrite bool_decide_true. }
  intros k. pose proof (insert_entries_ok _ _ _ _ (NoDup_hash_iter mr) E1 k) as H1'.
  pose proof (insert_entries_ok _ _ _ _ (NoDup_hash_iter mj) E2 k) as H2'. pose proof (insert_entries_ok _ _ _ _ (NoDup_hash_iter mf) E3 k) as H3'.
  rewrite lookup_hash_iter in H1', H2', H3'. unfold mr, mj, mf in H1', H2', H3'. rewrite Hsub in H1', H2', H3'.
  destruct (m !! k) as [v|]; simpl in *; [|congruence]. unfold field_value.
  destruct (decide (type_of schema k = Some JSON_TYPE)) as [Ej|Ej].
  - rewrite decide_False in H1' by (rewrite Ej; intuition congruence). rewrite decide_False in H3' by (rewrite Ej; by intros [=]).
    rewrite bool_decide_true by done.
    destruct H2' as (r & Hr & Ho). rewrite Hr. destruct (render_json_value v k context); simplify_eq/=. congruence.
  - destruct (decide (type_of schema k = Some FILE_TYPE)) as [Ef|Ef].
    + rewrite decide_False in H1' by intuition. rewrite bool_decide_false, bool_decide_true by done.
      destruct H3' as (r & Hr & Ho). rewrite Hr. f_equal. rewrite Ho, H2', H1'. by destruct r.
    + rewrite decide_True in H1' by done. rewrite !bool_decide_false by done. destruct H1' as (r & Hr & Ho). rewrite Hr.
      destruct (render_entry context k v); simplify_eq/=. congruence.
Qed.
End exact.
