(* ===== verification/Connections.v ===== *)
(** * Connection inputs

    The resolution half of [crates/stroem-common/src/template.rs]: qualified
    names, canonical connection types, the [shared] gate of a reference that
    crosses a workspace boundary, input defaults, and the input of a step's
    action or of a task prepared by role. [check_connection_values] is
    [validation.rs]'s. *)
From S2P Require Import Prelude Json Text Lines Utf8 Template TemplateError GitRef Workflow FileField InputFiles Errors Engine JsonField TypedInput.

(** ** Qualified names *)

(** [name.split_once('.')] with both halves non-empty. *)
Definition parse_qualified_ref (name : string) : option string * string :=
  match str_find "." name with
  | Some i =>
      let ws := str_take i name in
      let item := str_drop (S i) name in
      if (ws <>? "") && (item <>? "") then (Some ws, item) else (None, name)
  | None => (None, name)
  end.

(** ** Workspace lookup *)

Inductive Lookup := Found (c : WorkspaceConfig) | Unknown | Unavailable.

Record WorkspaceLookup := mkLookup {
  local_name : string;
  lk_get : string → Lookup;
  offline : bool;
}.

Definition SingleWorkspace (name : string) (config : WorkspaceConfig) : WorkspaceLookup :=
  mkLookup name (λ n, if n ==? name then Found config else Unknown) true.

Record CanonicalType := mkCanonical { ct_workspace : string; ct_name : string }.

#[export] Instance CanonicalType_eq_dec : EqDecision CanonicalType.
Proof. solve_decision. Defined.

Definition CanonicalType_fmt (t : CanonicalType) : string := ct_workspace t +:+ "." +:+ ct_name t.

Definition found_config (lookup : WorkspaceLookup) (ws what : string) : result AnyError WorkspaceConfig :=
  match lk_get lookup ws with
  | Found c => Ok c
  | Unknown => bail (what +:+ ": unknown workspace '" +:+ ws +:+ "'")
  | Unavailable => bail (what +:+ ": workspace '" +:+ ws +:+ "' is not available")
  end.

Definition canonical_type_ref (type_ref defining_ws : string) (lookup : WorkspaceLookup) : result AnyError CanonicalType :=
  let local := mkCanonical defining_ws type_ref in
  let? defining_cfg := found_config lookup defining_ws ("connection type '" +:+ type_ref +:+ "'") in
  if bool_decide (is_Some (connection_types defining_cfg !! type_ref)) then Ok local
  else match parse_qualified_ref type_ref with
       | (Some ws, item) =>
           match lk_get lookup ws with
           | Found cfg =>
               if bool_decide (is_Some (connection_types cfg !! item)) then Ok (mkCanonical ws item)
               else bail ("connection type '" +:+ type_ref +:+ "': workspace '" +:+ ws +:+ "' has no connection type '" +:+ item +:+ "'")
           | Unknown => Ok local
           | Unavailable => bail ("connection type '" +:+ type_ref +:+ "': workspace '" +:+ ws +:+ "' is not available")
           end
       | (None, _) => Ok local
       end.

(** ** One reference *)

Record ResolveScope := mkScope {
  lookup : WorkspaceLookup;
  schema_ws : string;
  value_ws : string;
  fallback_ws : option string;
}.

Record ResolvedConnection := mkResolved { rcn_workspace : string; rcn_def : ConnectionDef }.

Definition resolve_fallback (conn_ref : string) (scope : ResolveScope) : result ConnectionRefError ResolvedConnection :=
  match fallback_ws scope with
  | Some fb =>
      if fb ==? value_ws scope then Err NotFound
      else match lk_get (lookup scope) fb with
           | Found cfg =>
               match connections cfg !! conn_ref with
               | Some def => if shared def then Ok (mkResolved fb def) else Err NotShared
               | None => Err NotFound
               end
           | _ => Err NotFound
           end
  | None => Err NotFound
  end.

Definition resolve_connection_ref (conn_ref : string) (scope : ResolveScope) : result ConnectionRefError ResolvedConnection :=
  match lk_get (lookup scope) (value_ws scope) with
  | Unknown => Err UnknownConnWorkspace
  | Unavailable => Err WorkspaceUnavailable
  | Found value_cfg =>
      match connections value_cfg !! conn_ref with
      | Some def => Ok (mkResolved (value_ws scope) def)
      | None =>
          match parse_qualified_ref conn_ref with
          | (Some ws, item) =>
              match lk_get (lookup scope) ws with
              | Found cfg =>
                  match connections cfg !! item with
                  | Some def => if (ws ==? value_ws scope) || shared def then Ok (mkResolved ws def) else Err NotShared
                  | None => Err NotFound
                  end
              | Unknown => Err (if offline (lookup scope) then OfflineCrossWorkspace else UnknownConnWorkspace)
              | Unavailable => Err WorkspaceUnavailable
              end
          | (None, _) => resolve_fallback conn_ref scope
          end
      end
  end.

(** ** Values of a foreign type *)

Section connections.
Context `{HashIter}.

Fixpoint missing_required (values : gmap string json) (props : list (string * ConnectionPropertyDef)) : option string :=
  match props with
  | [] => None
  | (name, p) :: rest =>
      if cp_required p && negb (bool_decide (is_Some (cp_default p))) && negb (bool_decide (is_Some (values !! name)))
      then Some name else missing_required values rest
  end.
Fixpoint empty_value (l : list (string * json)) : option string :=
  match l with
  | [] => None
  | (key, v) :: rest => if bool_decide (as_str v = Some "") then Some key else empty_value rest
  end.

Definition check_connection_values (label : string) (values : gmap string json) (type_name : string)
    (type_def : ConnectionTypeDef) : result AnyError (list string) :=
  match missing_required values (hash_iter (properties type_def)) with
  | Some name => bail (label +:+ " is missing required field '" +:+ name +:+ "' (type '" +:+ type_name +:+ "')")
  | None =>
      let warnings :=
        (λ key, label +:+ " has field '" +:+ key +:+ "' not defined in type '" +:+ type_name +:+ "'") <$>
        List.filter (λ key, negb (bool_decide (is_Some (properties type_def !! key)))) (hash_keys values) in
      match empty_value (hash_iter values) with
      | Some key => bail (label +:+ " field '" +:+ key +:+ "' has an empty value")
      | None => Ok warnings
      end
  end.

(** ** The inputs of a schema *)

Definition PRIMITIVE_TYPES : list string :=
  ["string"; "text"; "integer"; "number"; "boolean"; "date"; "datetime"; JSON_TYPE; FILE_TYPE].
Definition RESERVED_TYPE_NAMES : list string := PRIMITIVE_TYPES ++ ["bool"; "array"; "object"].
Definition is_primitive (def : InputFieldDef) : bool := bool_decide (field_type def ∈ PRIMITIVE_TYPES).

(** The values of the connection a field names. *)
Definition connection_values (scope : ResolveScope) (field_name : string) (field_ct : CanonicalType) (resolved : ResolvedConnection)
    : result AnyError (gmap string json) :=
  let label := "Input field '" +:+ field_name +:+ "'" in
  match connection_type (rcn_def resolved) with
  | None => Ok (values (rcn_def resolved))
  | Some declared =>
      let? conn_ct :=
        res_map_err (λ _, [LMsg (label +:+ ": the type of the connection it names could not be resolved")])
          (canonical_type_ref declared (rcn_workspace resolved) (lookup scope)) in
      if conn_ct <>? field_ct
      then bail (label +:+ " expects type '" +:+ CanonicalType_fmt field_ct +:+
                 "' but the connection it names is type '" +:+ CanonicalType_fmt conn_ct +:+ "'")
      else if ct_workspace conn_ct <>? rcn_workspace resolved
      then
        let? type_cfg := found_config (lookup scope) (ct_workspace conn_ct) "connection type" in
        match connection_types type_cfg !! ct_name conn_ct with
        | None => bail ("connection type '" +:+ CanonicalType_fmt conn_ct +:+ "' vanished")
        | Some type_def =>
            let with_defaults := values_with_type_defaults (rcn_def resolved) type_def in
            let? _ := check_connection_values ("input field '" +:+ field_name +:+ "'") with_defaults
                        (CanonicalType_fmt conn_ct) type_def in
            Ok with_defaults
        end
      else Ok (values (rcn_def resolved))
  end.

(** One field of [resolve_connection_inputs_scoped]. *)
Definition resolve_field (scope : ResolveScope) (field_name : string) (field_def : InputFieldDef) (value : option json)
    : result AnyError Upd :=
  if is_primitive field_def then Ok Keep
  else match value with
       | None => Ok Keep
       | Some (JObject _) => Ok Keep
       | Some (JString conn_name) =>
           let label := "Input field '" +:+ field_name +:+ "'" in
           let? field_ct := ctx (LMsg label) (canonical_type_ref (field_type field_def) (schema_ws scope) (lookup scope)) in
           match resolve_connection_ref conn_name scope with
           | Err kind => bail (label +:+ ": " +:+ ConnectionRefError_fmt kind)
           | Ok resolved => res_map (λ vs, Put (object_of vs)) (connection_values scope field_name field_ct resolved)
           end
       | Some v => bail ("Input field '" +:+ field_name +:+ "' expects a connection name (string), got " +:+ json_type_name v)
       end.

Definition resolve_connection_inputs_scoped (input : json) (schema : gmap string InputFieldDef) (scope : ResolveScope)
    : result AnyError json :=
  res_map JObject (per_field (resolve_field scope) (hash_iter schema) (entries input)).

Definition resolve_connection_inputs (input : json) (schema : gmap string InputFieldDef) (lookup : WorkspaceLookup)
    : result AnyError json :=
  let local := local_name lookup in
  resolve_connection_inputs_scoped input schema (mkScope lookup local local None).

(** ** Re-run sentinels *)

Definition REDACTED_SENTINEL : string := of_bytes (concat (replicate 6 ["226"%char; "128"%char; "162"%char])).

Definition sentinel_field (source : jmap) (field_name : string) (field_def : InputFieldDef) (value : option json)
    : result AnyError Upd :=
  if negb (if_secret field_def || negb (is_primitive field_def)) then Ok Keep
  else match value with
       | None => Ok Keep
       | Some v =>
           if bool_decide (as_str v = Some REDACTED_SENTINEL)
           then Ok (match json_map_lookup field_name source with Some s => Put s | None => Drop end)
           else Ok Keep
       end.
Definition resolve_rerun_sentinels (incoming source_raw_input : json) (schema : gmap string InputFieldDef) : result AnyError json :=
  res_map JObject (per_field (sentinel_field (entries source_raw_input)) (hash_iter schema) (entries incoming)).

(** ** Defaults *)

Section defaults.
Context `{Tera, JsonParser}.

Definition default_text (field_name : string) : Link :=
  LMsg ("Failed to render default template for input field '" +:+ field_name +:+ "'").

(** The value a task default takes. *)
Definition task_default (context : json) (field_name : string) (field_def : InputFieldDef) (default_value : json) : result AnyError json :=
  if field_type field_def ==? JSON_TYPE
  then ctx (default_text field_name) (render_json_value default_value field_name context)
  else match default_value with
       | JString s =>
           if str_contains "{{" s
           then res_map JString (ctx (default_text field_name) (render s context))
           else Ok default_value
       | _ => Ok default_value
       end.
Definition default_field (context : json) (field_name : string) (field_def : InputFieldDef) (value : option json) : result AnyError Upd :=
  match value, if_default field_def with
  | None, Some d => res_map Put (task_default context field_name field_def d)
  | _, _ => Ok Keep
  end.
Definition merge_defaults (user_input : json) (schema : gmap string InputFieldDef) (context : json) : result AnyError json :=
  res_map JObject (per_field (default_field context) (hash_iter schema) (entries user_input)).

(** The value an action default takes: rendered once. *)
Definition action_default (context : json) (field_name : string) (field_def : InputFieldDef) (default_value : json) : result AnyError json :=
  ctx (LMsg "Failed to merge action input defaults")
    (ctx (default_text field_name)
      (if field_type field_def ==? JSON_TYPE then render_json_value default_value field_name context
       else match default_value with
            | JString s => if str_contains "{{" s then res_map JString (render s context) else render_value_deep default_value context
            | _ => render_value_deep default_value context
            end)).
Definition action_default_field (context : json) (field_name : string) (field_def : InputFieldDef) (value : option json) : result AnyError Upd :=
  match value, if_default field_def with
  | None, Some d => res_map Put (action_default context field_name field_def d)
  | _, _ => Ok Keep
  end.
Definition merge_action_defaults (rendered_input : json) (schema : gmap string InputFieldDef) (context : json) : result AnyError json :=
  res_map JObject (per_field (action_default_field context) (hash_iter schema) (entries rendered_input)).

(** ** Roles

    A role's config is a reference: its workspace's name, the address the
    reference holds, and the config there. *)

Record RoleConfig := mkRole { rl_workspace : string; rl_addr : N; rl_config : WorkspaceConfig }.
Record RoleScope := mkRoles {
  caller : RoleConfig;
  action_owner : option RoleConfig;
  task_owner : option RoleConfig;
  others : WorkspaceLookup;
}.

Definition RoleLookup (base : WorkspaceLookup) (first : string * WorkspaceConfig) (second : option (string * WorkspaceConfig))
    : WorkspaceLookup :=
  mkLookup (local_name base)
    (λ name, if name ==? first.1 then Found first.2
             else match second with
                  | Some (n, c) => if name ==? n then Found c else lk_get base name
                  | None => lk_get base name
                  end)
    (offline base).

Definition merged_same_workspace (value fallback : WorkspaceConfig) : WorkspaceConfig :=
  mkWorkspace ∅ (connection_types value ∪ connection_types fallback) (connections value ∪ connections fallback)
    ∅ ∅ ∅ [] [] [] [] ∅.

Definition bucket_scope (value schema_role : RoleConfig) (others : WorkspaceLookup) : ResolveScope :=
  if rl_workspace value ==? rl_workspace schema_role
  then
    let cfg := if (rl_addr value =? rl_addr schema_role)%N then rl_config value
               else merged_same_workspace (rl_config value) (rl_config schema_role) in
    mkScope (RoleLookup others (rl_workspace value, cfg) None) (rl_workspace schema_role) (rl_workspace value) None
  else
    mkScope (RoleLookup others (rl_workspace value, rl_config value) (Some (rl_workspace schema_role, rl_config schema_role)))
      (rl_workspace schema_role) (rl_workspace value) (Some (rl_workspace schema_role)).

Definition resolve_bucket_by_role (input : json) (schema : gmap string InputFieldDef) (value schema_role : RoleConfig)
    (others : WorkspaceLookup) : result AnyError json :=
  resolve_connection_inputs_scoped input schema (bucket_scope value schema_role others).

(** [json!({ "secret": secrets })] *)
Definition secrets_ctx (c : WorkspaceConfig) : json := JObject [("secret", object_of (secrets c))].

Definition prepare_action_input_roles (rendered_input : json) (schema : gmap string InputFieldDef) (roles : RoleScope)
    : result AnyError json :=
  let owner := default (caller roles) (action_owner roles) in
  let? caller_resolved :=
    ctx (LMsg "Failed to resolve action connection inputs")
      (ctx (LProvenance Caller) (resolve_bucket_by_role rendered_input schema (caller roles) owner (others roles))) in
  let? merged :=
    ctx (LMsg "Failed to merge action input defaults")
      (ctx (LProvenance ActionDefault) (merge_action_defaults caller_resolved schema (secrets_ctx (rl_config owner)))) in
  ctx (LMsg "Failed to resolve action connection inputs")
    (ctx (LProvenance ActionDefault) (resolve_bucket_by_role merged schema owner owner (others roles))).

(** The address of a config borrowed from the lookup by name. *)
Definition prepare_action_input_cross (addr_of : string → N) (rendered_input : json) (schema : gmap string InputFieldDef)
    (lookup : WorkspaceLookup) (caller_ws owner_ws : string) : result AnyError json :=
  let? owner_cfg := found_config lookup owner_ws "action owner" in
  let owner := mkRole owner_ws (addr_of owner_ws) owner_cfg in
  let? caller :=
    if caller_ws ==? owner_ws then Ok owner
    else res_map (mkRole caller_ws (addr_of caller_ws)) (found_config lookup caller_ws "caller") in
  prepare_action_input_roles rendered_input schema (mkRoles caller (Some owner) None lookup).

Definition prepare_action_input (addr_of : string → N) (rendered_input : json) (schema : gmap string InputFieldDef)
    (lookup : WorkspaceLookup) : result AnyError json :=
  prepare_action_input_cross addr_of rendered_input schema lookup (local_name lookup) (local_name lookup).

(** ** The input of a task step *)

Fixpoint boundary_violation (map : jmap) (fields : list (string * InputFieldDef)) : option (string * json) :=
  match fields with
  | [] => None
  | (field, def) :: rest =>
      if is_primitive def then boundary_violation map rest
      else match json_map_lookup field map with
           | Some v => if bool_decide (is_Some (as_str v)) then boundary_violation map rest else Some (field, v)
           | None => boundary_violation map rest
           end
  end.

Definition resolve_provenance_bucket (input : json) (task_schema : gmap string InputFieldDef) (value task : RoleConfig)
    (others : WorkspaceLookup) : result AnyError json :=
  match (if rl_workspace value <>? rl_workspace task then boundary_violation (entries input) (hash_iter task_schema) else None) with
  | Some (field, v) =>
      bail ("input '" +:+ field +:+ "': a connection passed across workspaces must be a connection name, got " +:+ json_type_name v)
  | None => resolve_bucket_by_role input task_schema value task others
  end.

(** [entry(k).or_insert(v)] for each default. *)
Definition or_insert_all (out d : jmap) : jmap :=
  fold_left (λ out '(k, v), match json_map_lookup k out with Some _ => out | None => json_map_insert k v out end) d out.

Definition resolve_task_input_by_provenance_roles (caller_input action_defaults : json) (task_schema : gmap string InputFieldDef)
    (roles : RoleScope) : result AnyError json :=
  let task := default (caller roles) (task_owner roles) in
  let action := default (caller roles) (action_owner roles) in
  let? c := ctx (LProvenance Caller) (resolve_provenance_bucket caller_input task_schema (caller roles) task (others roles)) in
  let? d := ctx (LProvenance ActionDefault) (resolve_provenance_bucket action_defaults task_schema action task (others roles)) in
  Ok (JObject (or_insert_all (entries c) (entries d))).

Definition resolve_task_input_by_provenance (addr_of : string → N) (caller_input action_defaults : json)
    (task_schema : gmap string InputFieldDef) (lookup : WorkspaceLookup) (caller_ws action_ws task_ws : string) : result AnyError json :=
  let role ws what := res_map (mkRole ws (addr_of ws)) (found_config lookup ws what) in
  let? c := role caller_ws "caller" in
  let? a := role action_ws "action owner" in
  let? t := role task_ws "task owner" in
  resolve_task_input_by_provenance_roles caller_input action_defaults task_schema (mkRoles c (Some a) (Some t) lookup).
End defaults.
End connections.
