(* ===== verification/ConnectionsProps.v ===== *)
(** * Connection inputs: the gate and what is rendered

    What the resolution of [Connections.v] guarantees: a reference that
    crosses a workspace boundary reaches only shared connections, values the
    caller supplied are passed through unrendered, defaults are the owner's,
    and neither the order of a hash map nor the identity of a config
    reference shows in a result. *)
From S2P Require Import Prelude Json Text Lines Utf8 Template TemplateError GitRef Workflow FileField InputFiles Errors Engine JsonField Connections.

(** ** Schema passes *)

Section schema_pass.
Context {E D : Type} (g : string → D → option json → result E Upd).

Lemma NoDup_hash_iter_keys `{HashIter} {V} (m : gmap string V) : NoDup (hash_iter m).*1.
Proof. apply NoDup_hash_keys. Qed.

(** A pass over a schema, field by field. *)
Lemma schema_pass_ok `{HashIter} (schema : gmap string D) m m' :
  sorted_map m → per_field g (hash_iter schema) m = Ok m' →
  sorted_map m' ∧ ∀ k,
    match schema !! k with
    | Some d => ∃ u, g k d (json_map_lookup k m) = Ok u ∧ json_map_lookup k m' = upd_value u (json_map_lookup k m)
    | None => json_map_lookup k m' = json_map_lookup k m
    end.
Proof.
  intros Hs Hp. destruct (per_field_ok g _ m m' (NoDup_hash_iter_keys schema) Hs Hp) as [Hs' Hd].
  split; [done|]. intros k. destruct (Hd k) as [H1 H2]. destruct (schema !! k) as [d|] eqn:Ek.
  - apply H1. by apply elem_of_hash_iter.
  - apply H2. intros Hin. change (k ∈ hash_keys schema) in Hin. apply elem_of_hash_keys in Hin as [d Hd']. congruence.
Qed.

(** The order of the map does not show in the result. *)
Lemma schema_pass_order (H1 H2 : HashIter) (schema : gmap string D) m :
  sorted_map m →
  match per_field g (@hash_iter H1 _ schema) m, per_field g (@hash_iter H2 _ schema) m with
  | Ok a, Ok b => a = b
  | Err _, Err _ => True
  | _, _ => False
  end.
Proof.
  intros Hs.
  assert (Hp : @hash_iter H1 _ schema ≡ₚ @hash_iter H2 _ schema) by by rewrite !hash_iter_perm.
  assert (Hn1 : NoDup (@hash_iter H1 _ schema).*1) by apply NoDup_hash_iter_keys.
  assert (Hn2 : NoDup (@hash_iter H2 _ schema).*1) by apply NoDup_hash_iter_keys.
  destruct (per_field g (@hash_iter H1 _ schema) m) as [a|e] eqn:Ea.
  - by rewrite (per_field_perm g _ _ m a Hp Hn1 Hs Ea).
  - destruct (per_field g (@hash_iter H2 _ schema) m) as [b|e'] eqn:Eb; [|done].
    symmetry in Hp. by rewrite (per_field_perm g _ _ m b Hp Hn2 Hs Eb) in Ea.
Qed.
End schema_pass.

Lemma res_map_ok {E A B} (f : A → B) (r : result E A) b : res_map f r = Ok b → ∃ a, r = Ok a ∧ b = f a.
Proof. destruct r; simpl; naive_solver. Qed.

Lemma ctx_ok {A} l (r : result AnyError A) a : ctx l r = Ok a ↔ r = Ok a.
Proof. destruct r; simpl; naive_solver. Qed.

(** ** The gate *)

(** [resolved] is a connection of its workspace, as the lookup knows it. *)
Definition is_connection_of (lk : WorkspaceLookup) (resolved : ResolvedConnection) : Prop :=
  ∃ cfg key, lk_get lk (rcn_workspace resolved) = Found cfg ∧ connections cfg !! key = Some (rcn_def resolved).

Lemma resolve_fallback_gate r scope resolved :
  resolve_fallback r scope = Ok resolved →
  is_connection_of (lookup scope) resolved ∧ shared (rcn_def resolved) = true ∧ rcn_workspace resolved ≠ value_ws scope.
Proof.
  unfold resolve_fallback. destruct (fallback_ws scope) as [fb|]; [|done]. case_bool_decide as Hne; [done|].
  destruct (lk_get _ fb) as [cfg| |] eqn:El; try done. destruct (connections cfg !! r) as [d|] eqn:Ed; [|done].
  destruct (shared d) eqn:Es; [|done]. intros [= <-]. split; [by exists cfg, r|done].
Qed.

(** A reference resolves in the value's own workspace, or to a shared
    connection. *)
Theorem resolve_connection_ref_gate r scope resolved :
  resolve_connection_ref r scope = Ok resolved →
  is_connection_of (lookup scope) resolved ∧ (rcn_workspace resolved = value_ws scope ∨ shared (rcn_def resolved) = true).
Proof.
  unfold resolve_connection_ref. destruct (lk_get _ (value_ws scope)) as [cfg| |] eqn:El; try done.
  destruct (connections cfg !! r) as [d|] eqn:Ed; [intros [= <-]; split; [by exists cfg, r|by left]|].
  destruct (parse_qualified_ref r) as [[ws|] item].
  - destruct (lk_get _ ws) as [c| |] eqn:Ec; try done. destruct (connections c !! item) as [d|] eqn:Edd; [|done].
    case_bool_decide as Hw; simpl.
    + intros [= <-]. split; [by exists c, item|by left].
    + destruct (shared d) eqn:Es; [|done]. intros [= <-]. split; [by exists c, item|by right].
  - intros (? & ? & ?)%resolve_fallback_gate. auto.
Qed.

Section props.
Context `{HashIter}.

(** The values a field gets are the connection's own, completed by defaults
    of its type. *)
Lemma connection_values_extend scope f ct resolved vs :
  connection_values scope f ct resolved = Ok vs → values (rcn_def resolved) ⊆ vs.
Proof.
  unfold connection_values. destruct (connection_type _) as [declared|]; [|by intros [= <-]].
  destruct (canonical_type_ref _ _ _) as [c|]; simpl; [|done]. case_bool_decide; simpl; [|done].
  case_bool_decide; simpl; [by intros [= <-]|]. destruct (found_config _ _ _) as [cfg|]; simpl; [|done].
  destruct (_ !! ct_name c) as [td|]; [|done]. destruct (check_connection_values _ _ _ _); simpl; [|done].
  intros [= <-]. apply map_union_subseteq_l.
Qed.

(** [out] is the object of a connection the value's workspace may use. *)
Definition gated (value_ws : string) (lk : WorkspaceLookup) (out : json) : Prop :=
  ∃ resolved vs, out = object_of vs ∧ values (rcn_def resolved) ⊆ vs ∧ is_connection_of lk resolved ∧
    (rcn_workspace resolved = value_ws ∨ shared (rcn_def resolved) = true).

Lemma resolve_field_string scope f def name u :
  is_primitive def = false → resolve_field scope f def (Some (JString name)) = Ok u →
  ∃ out, u = Put out ∧ gated (value_ws scope) (lookup scope) out.
Proof.
  intros Hp. unfold resolve_field. rewrite Hp. destruct (canonical_type_ref _ _ _) as [ct|]; simpl; [|done].
  destruct (resolve_connection_ref name scope) as [resolved|] eqn:Er; [|done].
  intros (vs & Hv & ->)%res_map_ok. eexists. split; [done|].
  apply resolve_connection_ref_gate in Er as [Hc Hg]. apply connection_values_extend in Hv. by exists resolved, vs.
Qed.

(** A pass of the resolution, field by field: a connection name is replaced by
    a gated object, everything else stays as it is. *)
Definition resolved_field (scope : ResolveScope) (schema : gmap string InputFieldDef) (before after : option json) (f : string) : Prop :=
  match schema !! f, before with
  | Some def, Some (JString name) =>
      if is_primitive def then after = before
      else ∃ out, after = Some out ∧ gated (value_ws scope) (lookup scope) out
  | Some def, Some (JObject m) => after = before
  | Some def, Some _ => is_primitive def = true ∧ after = before
  | _, _ => after = before
  end.

Lemma resolve_inputs_fields input schema scope out :
  sorted_map (entries input) → resolve_connection_inputs_scoped input schema scope = Ok out →
  sorted_map (entries out) ∧ ∀ f, resolved_field scope schema (json_map_lookup f (entries input)) (json_get f out) f.
Proof.
  intros Hs. unfold resolve_connection_inputs_scoped. intros (m' & Hp & ->)%res_map_ok.
  apply schema_pass_ok in Hp as [Hs' Hf]; [|done]. split; [done|]. intros f. specialize (Hf f). cbn [json_get].
  unfold resolved_field. destruct (schema !! f) as [def|]; [|done]. destruct Hf as (u & Hu & ->).
  destruct (json_map_lookup f (entries input)) as [v|] eqn:Ev.
  2:{ unfold resolve_field in Hu. destruct (is_primitive def); by simplify_eq. }
  unfold resolve_field in Hu. destruct (is_primitive def) eqn:Ep; [destruct v; by simplify_eq|].
  destruct v as [|b|n|name|l|m]; try done; [|by simplify_eq].
  destruct (resolve_field_string scope f def name u Ep) as (o & -> & Hg); [|by exists o].
  unfold resolve_field. by rewrite Ep.
Qed.

(** ** The input of an action *)

Section action.
Context `{Tera, JsonParser}.
Implicit Types (schema : gmap string InputFieldDef) (roles : RoleScope).

Definition owner_of (roles : RoleScope) : RoleConfig := default (caller roles) (action_owner roles).

Lemma merge_action_defaults_fields input schema context out :
  sorted_map (entries input) → merge_action_defaults input schema context = Ok out →
  sorted_map (entries out) ∧ ∀ f,
    match json_map_lookup f (entries input), schema !! f with
    | None, Some def =>
        match if_default def with
        | Some d => ∃ v, action_default context f def d = Ok v ∧ json_get f out = Some v
        | None => json_get f out = None
        end
    | before, _ => json_get f out = before
    end.
Proof.
  intros Hs. unfold merge_action_defaults. intros (m' & Hp & ->)%res_map_ok.
  apply schema_pass_ok in Hp as [Hs' Hf]; [|done]. split; [done|]. intros f. specialize (Hf f). cbn [json_get].
  destruct (schema !! f) as [def|] eqn:Ef; [|by destruct (json_map_lookup f (entries input))].
  destruct Hf as (u & Hu & ->). unfold action_default_field in Hu.
  destruct (json_map_lookup f (entries input)) as [v|]; [by simplify_eq|].
  destruct (if_default def) as [d|]; [|by simplify_eq].
  apply res_map_ok in Hu as (v & Hv & ->). by exists v.
Qed.

(** The three passes, field by field. *)
Lemma prepare_action_input_passes input schema roles out :
  sorted_map (entries input) → prepare_action_input_roles input schema roles = Ok out →
  ∃ m1 m2,
    (∀ f, resolved_field (bucket_scope (caller roles) (owner_of roles) (others roles)) schema
            (json_map_lookup f (entries input)) (json_get f m1) f) ∧
    (∀ f, match json_get f m1, schema !! f with
          | None, Some def =>
              match if_default def with
              | Some d => ∃ v, action_default (secrets_ctx (rl_config (owner_of roles))) f def d = Ok v ∧ json_get f m2 = Some v
              | None => json_get f m2 = None
              end
          | before, _ => json_get f m2 = before
          end) ∧
    (∀ f, resolved_field (bucket_scope (owner_of roles) (owner_of roles) (others roles)) schema (json_get f m2) (json_get f out) f).
Proof.
  intros Hs. unfold prepare_action_input_roles. fold (owner_of roles).
  intros (m1 & P1 & P2)%res_bind_ok. rewrite !ctx_ok in P1.
  apply res_bind_ok in P2 as (m2 & P2 & P3). rewrite !ctx_ok in P2. rewrite !ctx_ok in P3.
  apply resolve_inputs_fields in P1 as [Hs1 F1]; [|done].
  assert (G1 : ∀ f, json_map_lookup f (entries m1) = json_get f m1) by by destruct m1.
  apply merge_action_defaults_fields in P2 as [Hs2 F2]; [|done].
  assert (G2 : ∀ f, json_map_lookup f (entries m2) = json_get f m2) by by destruct m2.
  apply resolve_inputs_fields in P3 as [Hs3 F3]; [|done].
  exists m1, m2. split; [done|]. split; intros f; [specialize (F2 f); by rewrite G1 in F2|specialize (F3 f); by rewrite G2 in F3].
Qed.

Lemma value_ws_bucket value role lk : value_ws (bucket_scope value role lk) = rl_workspace value.
Proof. unfold bucket_scope. by case_bool_decide. Qed.

Lemma gated_object ws lk v : gated ws lk v → ∃ m, v = JObject m.
Proof. intros (r & vs & -> & _). unfold object_of. eauto. Qed.

(** A resolved object is not touched by a later pass. *)
Lemma resolved_field_object scope schema m after f : resolved_field scope schema (Some (JObject m)) after f → after = Some (JObject m).
Proof. unfold resolved_field. by destruct (schema !! f). Qed.

(** C26. What becomes of a field the caller supplied: a connection name is
    replaced by a connection of the caller's workspace or a shared one; any
    other value is the caller's, byte for byte, rendered with nothing. A field
    the caller left out has the owner's default, rendered once with the
    owner's secrets, or is absent. *)
Theorem prepare_action_input_gated input schema roles out f :
  sorted_map (entries input) → prepare_action_input_roles input schema roles = Ok out →
  match json_map_lookup f (entries input), schema !! f with
  | Some (JString name), Some def =>
      if is_primitive def then json_get f out = Some (JString name)
      else ∃ v, json_get f out = Some v ∧
             gated (rl_workspace (caller roles)) (lookup (bucket_scope (caller roles) (owner_of roles) (others roles))) v
  | Some v, _ => json_get f out = Some v
  | None, None => json_get f out = None
  | None, Some def =>
      match if_default def with
      | None => json_get f out = None
      | Some d => ∃ v v', action_default (secrets_ctx (rl_config (owner_of roles))) f def d = Ok v ∧ json_get f out = Some v' ∧
          (v' = v ∨ ∃ name, v = JString name ∧ is_primitive def = false ∧
             gated (rl_workspace (owner_of roles)) (lookup (bucket_scope (owner_of roles) (owner_of roles) (others roles))) v')
      end
  end.
Proof.
  intros Hs Hp. destruct (prepare_action_input_passes input schema roles out Hs Hp) as (m1 & m2 & F1 & F2 & F3).
  specialize (F1 f). specialize (F2 f). specialize (F3 f).
  unfold resolved_field in F1. destruct (schema !! f) as [def|] eqn:Ef.
  2:{ rewrite F1 in F2. unfold resolved_field in F3. rewrite Ef in F3.
      destruct (json_map_lookup f (entries input)) as [[]|]; by rewrite F3. }
  destruct (json_map_lookup f (entries input)) as [v|].
  - assert (Hkeep : json_get f m1 = Some v → (∀ name, v = JString name → is_primitive def = true) →
      json_get f out = Some v).
    { intros Hm1 Hstr. rewrite Hm1 in F2. rewrite F2 in F3. unfold resolved_field in F3. rewrite Ef in F3.
      destruct v as [|b|n|name|l|m]; try (by destruct F3); try exact F3. by rewrite (Hstr name eq_refl) in F3. }
    destruct v as [|b|n|name|l|m]; [by apply Hkeep; [apply F1|]..| |by apply Hkeep; [apply F1|]|by apply Hkeep].
    destruct (is_primitive def) eqn:Ep; [by apply Hkeep|].
    destruct F1 as (o & Ho & Hg). rewrite Ho in F2. rewrite F2 in F3.
    pose proof Hg as Hg'. rewrite value_ws_bucket in Hg'.
    apply gated_object in Hg as [mo ->]. apply resolved_field_object in F3. by exists (JObject mo).
  - rewrite F1 in F2. destruct (if_default def) as [d|].
    2:{ rewrite F2 in F3. unfold resolved_field in F3. by rewrite Ef in F3. }
    destruct F2 as (v & Hv & Hm2). rewrite Hm2 in F3. unfold resolved_field in F3. rewrite Ef in F3.
    assert (Hsame : json_get f out = Some v → ∃ v0 v', action_default (secrets_ctx (rl_config (owner_of roles))) f def d = Ok v0 ∧
      json_get f out = Some v' ∧ (v' = v0 ∨ ∃ name, v0 = JString name ∧ is_primitive def = false ∧
        gated (rl_workspace (owner_of roles)) (lookup (bucket_scope (owner_of roles) (owner_of roles) (others roles))) v')).
    { intros Hout. exists v, v. auto. }
    destruct v as [|b|n|name|l|m]; [by apply Hsame, F3..| |by apply Hsame, F3|by apply Hsame].
    destruct (is_primitive def) eqn:Ep; [by apply Hsame|].
    destruct F3 as (o & Ho & Hg). rewrite value_ws_bucket in Hg. exists (JString name), o. split_and!; [done..|].
    right. by exists name.
Qed.

(** The tasks' half: a value crossing a workspace boundary into a connection
    field is a name, and what it resolves to is gated. *)
Lemma boundary_violation_none m fields :
  boundary_violation m fields = None →
  ∀ f def v, (f, def) ∈ fields → is_primitive def = false → json_map_lookup f m = Some v → ∃ name, v = JString name.
Proof.
  induction fields as [|[g d] rest IH]; intros Hb f def v Hin Hp Hv; [by apply elem_of_nil in Hin|]. simpl in Hb.
  apply elem_of_cons in Hin as [[= -> ->]|Hin].
  - rewrite Hp, Hv in Hb. destruct v; simpl in Hb; try done. eauto.
  - destruct (is_primitive d); [by eapply IH|]. destruct (json_map_lookup g m) as [w|]; [|by eapply IH].
    case_bool_decide; [by eapply IH|done].
Qed.

Theorem task_input_boundary caller_input action_defaults schema roles out f def v :
  sorted_map (entries caller_input) →
  resolve_task_input_by_provenance_roles caller_input action_defaults schema roles = Ok out →
  rl_workspace (caller roles) ≠ rl_workspace (default (caller roles) (task_owner roles)) →
  schema !! f = Some def → is_primitive def = false → json_map_lookup f (entries caller_input) = Some v →
  ∃ name v', v = JString name ∧ json_get f out = Some v' ∧
    gated (rl_workspace (caller roles))
      (lookup (bucket_scope (caller roles) (default (caller roles) (task_owner roles)) (others roles))) v'.
Proof.
  intros Hs Hr Hne Hf Hp Hv. unfold resolve_task_input_by_provenance_roles in Hr.
  set (task := default (caller roles) (task_owner roles)) in *.
  apply res_bind_ok in Hr as (c & Hc & Hr). rewrite ctx_ok in Hc. apply res_bind_ok in Hr as (d & _ & [= <-]).
  unfold resolve_provenance_bucket in Hc. rewrite bool_decide_false in Hc by done. simpl in Hc.
  destruct (boundary_violation _ _) as [[]|] eqn:Eb; [done|].
  destruct (boundary_violation_none _ _ Eb f def v) as [name ->]; [by apply elem_of_hash_iter|done..|].
  apply resolve_inputs_fields in Hc as [Hs' Hc]; [|done]. specialize (Hc f). unfold resolved_field in Hc.
  rewrite Hf, Hv, Hp in Hc. destruct Hc as (o & Ho & Hg). rewrite value_ws_bucket in Hg.
  exists name, o. split; [done|]. split; [|done]. cbn [json_get].
  assert (Hm : json_map_lookup f (entries c) = Some o) by by destruct c.
  clear -Hm. revert Hm. generalize (entries c) as m. generalize (entries d) as l. unfold or_insert_all.
  induction l as [|[k w] l IH]; intros m Hm; [done|]. simpl. apply IH.
  destruct (json_map_lookup k m) eqn:Ek; [done|]. rewrite json_map_lookup_insert_ne; [done|]. intros ->. congruence.
Qed.
End action.
End props.

(** ** Lookups that answer alike

    Resolution reads only the connections and connection types of a config. *)

Definition config_alike (a b : WorkspaceConfig) : Prop :=
  connections a = connections b ∧ connection_types a = connection_types b.

#[export] Instance lookup_equiv : Equiv WorkspaceLookup := λ l1 l2,
  offline l1 = offline l2 ∧ ∀ n,
    match lk_get l1 n, lk_get l2 n with
    | Found a, Found b => config_alike a b
    | Unknown, Unknown | Unavailable, Unavailable => True
    | _, _ => False
    end.

#[export] Instance lookup_equivalence : Equivalence (≡@{WorkspaceLookup}).
Proof.
  split.
  - intros l. split; [done|]. intros n. by destruct (lk_get l n).
  - intros l1 l2 [Ho H]. split; [done|]. intros n. specialize (H n).
    destruct (lk_get l1 n), (lk_get l2 n); try done. by destruct H.
  - intros l1 l2 l3 [Ho H] [Ho' H']. split; [congruence|]. intros n. specialize (H n). specialize (H' n).
    destruct (lk_get l1 n), (lk_get l2 n), (lk_get l3 n); try done. destruct H, H'. split; congruence.
Qed.

#[export] Instance scope_equiv : Equiv ResolveScope := λ s1 s2,
  lookup s1 ≡ lookup s2 ∧ schema_ws s1 = schema_ws s2 ∧ value_ws s1 = value_ws s2 ∧ fallback_ws s1 = fallback_ws s2.

Ltac alike H n :=
  let Hn := fresh "Hn" in
  pose proof (proj2 H n) as Hn;
  repeat match type of Hn with
  | context [lk_get ?l n] => destruct (lk_get l n) eqn:?
  end; try done; try (destruct Hn as [?Hconn ?Htype]).

#[export] Instance canonical_type_ref_proper : Proper ((=) ==> (=) ==> (≡) ==> (=)) canonical_type_ref.
Proof.
  intros t ? <- d ? <- l1 l2 H. unfold canonical_type_ref, found_config. alike H d; simpl.
  rewrite Htype. case_bool_decide; [done|]. destruct (parse_qualified_ref t) as [[ws|] item]; [|done].
  pose proof (proj2 H ws) as Hw. destruct (lk_get l1 ws), (lk_get l2 ws); try done. by destruct Hw as [_ ->].
Qed.

#[export] Instance resolve_fallback_proper : Proper ((=) ==> (≡) ==> (=)) resolve_fallback.
Proof.
  intros r ? <- s1 s2 (Hl & _ & Hv & Hf). unfold resolve_fallback. rewrite Hf, Hv.
  destruct (fallback_ws s2) as [fb|]; [|done]. case_bool_decide; [done|].
  pose proof (proj2 Hl fb) as Hw. destruct (lk_get _ fb), (lk_get _ fb); try done. by destruct Hw as [-> _].
Qed.

#[export] Instance resolve_connection_ref_proper : Proper ((=) ==> (≡) ==> (=)) resolve_connection_ref.
Proof.
  intros r ? <- s1 s2 Hs. pose proof Hs as (Hl & _ & Hv & Hf). unfold resolve_connection_ref.
  rewrite (resolve_fallback_proper r r eq_refl s1 s2 Hs). rewrite Hv.
  pose proof (proj2 Hl (value_ws s2)) as Hn. destruct (lk_get (lookup s1) (value_ws s2)), (lk_get (lookup s2) (value_ws s2)); try done.
  destruct Hn as [-> _]. destruct (connections _ !! r); [done|].
  destruct (parse_qualified_ref r) as [[ws|] item]; [|done]. pose proof (proj2 Hl ws) as Hw.
  destruct (lk_get (lookup s1) ws), (lk_get (lookup s2) ws); try done; [by destruct Hw as [-> _]|].
  by rewrite (proj1 Hl).
Qed.

Lemma per_field_ext {E D} (g g' : string → D → option json → result E Upd) fields m :
  (∀ k d v, g k d v = g' k d v) → per_field g fields m = per_field g' fields m.
Proof.
  intros Hg. revert m. induction fields as [|[k d] rest IH]; intros m; simpl; [done|]. rewrite Hg.
  destruct (g' k d _); [apply IH|done].
Qed.

Section alike.
Context `{HashIter}.

#[export] Instance connection_values_proper : Proper ((≡) ==> (=) ==> (=) ==> (=) ==> (=)) connection_values.
Proof.
  intros s1 s2 (Hl & _ & _ & _) f ? <- ct ? <- r ? <-. unfold connection_values.
  destruct (connection_type _) as [d|]; [|done]. rewrite (canonical_type_ref_proper d d eq_refl _ _ eq_refl _ _ Hl).
  destruct (canonical_type_ref _ _ _) as [c|]; simpl; [|done]. case_bool_decide; simpl; [|done].
  case_bool_decide; simpl; [done|]. unfold found_config. pose proof (proj2 Hl (ct_workspace c)) as Hw.
  destruct (lk_get (lookup s1) _), (lk_get (lookup s2) _); try done. simpl. by destruct Hw as [_ ->].
Qed.

#[export] Instance resolve_connection_inputs_scoped_proper :
  Proper ((=) ==> (=) ==> (≡) ==> (=)) resolve_connection_inputs_scoped.
Proof.
  intros i ? <- schema ? <- s1 s2 Hs. unfold resolve_connection_inputs_scoped. f_equal. apply per_field_ext.
  intros k d v. unfold resolve_field. destruct (is_primitive d); [done|]. destruct v as [[]|]; try done.
  pose proof Hs as (Hl & Hsw & _ & _). rewrite Hsw, (canonical_type_ref_proper _ _ eq_refl _ _ eq_refl _ _ Hl).
  destruct (canonical_type_ref _ _ _) as [ct|]; simpl; [|done].
  rewrite (resolve_connection_ref_proper _ _ eq_refl _ _ Hs). destruct (resolve_connection_ref _ _); [|done].
  by rewrite (connection_values_proper _ _ Hs _ _ eq_refl _ _ eq_refl _ _ eq_refl).
Qed.

(** The comparison of references in [resolve_bucket_by_role] is a shortcut:
    two roles of one workspace with one config resolve the same whether they
    borrow the same reference or not. *)
Theorem role_identity_irrelevant input schema value role lk addr :
  rl_workspace value = rl_workspace role → rl_config value = rl_config role →
  resolve_bucket_by_role input schema (mkRole (rl_workspace value) addr (rl_config value)) role lk =
  resolve_bucket_by_role input schema value role lk.
Proof.
  intros Hw Hc. unfold resolve_bucket_by_role. apply resolve_connection_inputs_scoped_proper; [done..|].
  unfold bucket_scope. cbn [rl_workspace rl_config rl_addr]. rewrite Hw, bool_decide_true by done.
  assert (Ha : ∀ (b b' : bool), config_alike
    (if b then rl_config value else merged_same_workspace (rl_config value) (rl_config role))
    (if b' then rl_config value else merged_same_workspace (rl_config value) (rl_config role))).
  { intros b b'. rewrite Hc. unfold config_alike, merged_same_workspace.
    destruct b, b'; cbn [connections connection_types]; rewrite ?(idemp_L (∪)); done. }
  split; [|done]. split; [done|]. intros n. cbn [RoleLookup lk_get]. simpl. case_bool_decide; [apply Ha|].
  by destruct (lk_get lk n).
Qed.
End alike.

(** ** The order of a hash map *)

(** The same value, or an error on both sides. *)
Definition agree {E A} (r1 r2 : result E A) : Prop :=
  match r1, r2 with Ok a, Ok b => a = b | Err _, Err _ => True | _, _ => False end.

#[export] Instance agree_equivalence {E A} : Equivalence (@agree E A).
Proof.
  split; [by intros []|by intros [] []; simpl|]. intros [] [] []; simpl; try done. congruence.
Qed.

Lemma agree_bind {E A B} (r1 r2 : result E A) (f1 f2 : A → result E B) :
  agree r1 r2 → (∀ a, r1 = Ok a → agree (f1 a) (f2 a)) → agree (res_bind r1 f1) (res_bind r2 f2).
Proof. destruct r1, r2; simpl; try done. intros -> Hf. by apply Hf. Qed.

Lemma agree_map {E A B} (f : A → B) (r1 r2 : result E A) : agree r1 r2 → agree (res_map f r1) (res_map f r2).
Proof. destruct r1, r2; simpl; try done. by intros ->. Qed.

Lemma agree_ctx {A} l (r1 r2 : result AnyError A) : agree r1 r2 → agree (ctx l r1) (ctx l r2).
Proof. by destruct r1, r2. Qed.

Lemma per_field_agree {E D} (g1 g2 : string → D → option json → result E Upd) fields m :
  (∀ k d v, agree (g1 k d v) (g2 k d v)) → agree (per_field g1 fields m) (per_field g2 fields m).
Proof.
  intros Hg. revert m. induction fields as [|[k d] rest IH]; intros m; simpl; [done|].
  pose proof (Hg k d (json_map_lookup k m)) as Hk. destruct (g1 k d _), (g2 k d _); simpl in Hk; try done. subst. apply IH.
Qed.

Lemma schema_pass_agree {E D} (g1 g2 : string → D → option json → result E Upd) (H1 H2 : HashIter) (schema : gmap string D) m :
  sorted_map m → (∀ k d v, agree (g1 k d v) (g2 k d v)) →
  agree (per_field g1 (@hash_iter H1 _ schema) m) (per_field g2 (@hash_iter H2 _ schema) m).
Proof.
  intros Hs Hg. transitivity (per_field g2 (@hash_iter H1 _ schema) m); [by apply per_field_agree|].
  by apply schema_pass_order.
Qed.

Section order.
Context (H1 H2 : HashIter).

Lemma missing_required_none vs props :
  missing_required vs props = None ↔
  ∀ k p, (k, p) ∈ props → cp_required p = true → is_Some (cp_default p) ∨ is_Some (vs !! k).
Proof.
  induction props as [|[k p] props IH]; simpl; [split; [by intros _ ? ? ?%elem_of_nil|done]|].
  destruct (cp_required p && _ && _) eqn:E.
  - split; [done|]. intros H. rewrite !andb_true_iff, !negb_true_iff, !bool_decide_eq_false in E.
    destruct E as [[Hr Hd] Hv]. by destruct (H k p ltac:(by left) Hr).
  - rewrite IH. setoid_rewrite elem_of_cons. split; [|naive_solver]. intros Hall j q [[= -> ->]|Hin]; [|by apply Hall].
    intros Hr. rewrite Hr in E. simpl in E. apply andb_false_iff in E as [E|E]; apply negb_false_iff, bool_decide_eq_true in E; auto.
Qed.

Lemma empty_value_none l : empty_value l = None ↔ ∀ k v, (k, v) ∈ l → as_str v ≠ Some "".
Proof.
  induction l as [|[k v] l IH]; simpl; [split; [by intros _ ? ? ?%elem_of_nil|done]|].
  case_bool_decide as E.
  - split; [done|]. intros H. by destruct (H k v ltac:(by left)).
  - rewrite IH. setoid_rewrite elem_of_cons. naive_solver.
Qed.

Lemma check_connection_values_order label vs tn td :
  is_ok (@check_connection_values H1 label vs tn td) = is_ok (@check_connection_values H2 label vs tn td).
Proof.
  unfold check_connection_values.
  assert (Hm : missing_required vs (@hash_iter H1 _ (properties td)) = None ↔
               missing_required vs (@hash_iter H2 _ (properties td)) = None).
  { rewrite !missing_required_none. by setoid_rewrite elem_of_hash_iter. }
  assert (He : empty_value (@hash_iter H1 _ vs) = None ↔ empty_value (@hash_iter H2 _ vs) = None).
  { rewrite !empty_value_none. by setoid_rewrite elem_of_hash_iter. }
  destruct (missing_required vs _), (missing_required vs _); try done; [by destruct Hm as [_ ?]; naive_solver|naive_solver|].
  destruct (empty_value _), (empty_value _); try done; naive_solver.
Qed.

Lemma connection_values_order scope f ct r :
  agree (@connection_values H1 scope f ct r) (@connection_values H2 scope f ct r).
Proof.
  unfold connection_values. destruct (connection_type _); [|done]. destruct (canonical_type_ref _ _ _); simpl; [|done].
  case_bool_decide; simpl; [|done]. case_bool_decide; simpl; [done|]. destruct (found_config _ _ _); simpl; [|done].
  destruct (_ !! ct_name _); [|done].
  pose proof (check_connection_values_order ("input field '" +:+ f +:+ "'") (values_with_type_defaults (rcn_def r) c)
    (CanonicalType_fmt a) c) as Hc.
  destruct (@check_connection_values H1 _ _ _ _), (@check_connection_values H2 _ _ _ _); done.
Qed.

Lemma resolve_inputs_order input schema scope :
  sorted_map (entries input) →
  agree (@resolve_connection_inputs_scoped H1 input schema scope) (@resolve_connection_inputs_scoped H2 input schema scope).
Proof.
  intros Hs. unfold resolve_connection_inputs_scoped. apply agree_map, schema_pass_agree; [done|].
  intros k d v. unfold resolve_field. destruct (is_primitive d); [done|]. destruct v as [[]|]; try done.
  destruct (canonical_type_ref _ _ _); simpl; [|done]. destruct (resolve_connection_ref _ _); [|done].
  apply agree_map, connection_values_order.
Qed.

(** The order a hash map is walked in does not show in a prepared input, nor
    in whether it can be prepared: only in which of several errors is named. *)
Theorem prepare_action_input_order `{Tera, JsonParser} input schema roles :
  sorted_map (entries input) →
  agree (@prepare_action_input_roles H1 _ _ input schema roles) (@prepare_action_input_roles H2 _ _ input schema roles).
Proof.
  intros Hs. unfold prepare_action_input_roles. apply agree_bind; [by apply agree_ctx, agree_ctx, resolve_inputs_order|].
  intros m1 E1. rewrite !ctx_ok in E1. apply (@resolve_inputs_fields H1) in E1 as [Hs1 _]; [|done].
  apply agree_bind; [apply agree_ctx, agree_ctx, agree_map, schema_pass_agree; [done|reflexivity]|].
  intros m2 E2. rewrite !ctx_ok in E2. apply (@merge_action_defaults_fields H1) in E2 as [Hs2 _]; [|done].
  by apply agree_ctx, agree_ctx, resolve_inputs_order.
Qed.
End order.
