(* ===== verification/WorkspaceSet.v ===== *)
(** * The set of workspaces

    [crates/stroem-server/src/workspace_set.rs], but for the masking itself:
    the snapshot of every loaded configuration, lookups in it, and the values
    that must be masked. [local_secret_values] is of [workspace/pins.rs]. *)
From S2P Require Import Prelude Json Text Workflow Errors Engine Connections ConnectionsProps.

Record WorkspaceSet := mkWorkspaceSet {
  ws_local_name : string;
  local_override : option WorkspaceConfig;
  configs : gmap string WorkspaceConfig;
  known : gset string;
}.

Definition from_parts (local_name : string) (local_override : option WorkspaceConfig)
    (configs : list (string * WorkspaceConfig)) (known : list string) : WorkspaceSet :=
  let m := fold_left (λ m p, <[p.1 := p.2]> m) configs ∅ in
  mkWorkspaceSet local_name local_override m ({[ local_name ]} ∪ (dom m ∪ list_to_set known)).

Definition set_get (s : WorkspaceSet) (name : string) : Lookup :=
  match (if name ==? ws_local_name s then local_override s else None) with
  | Some cfg => Found cfg
  | None =>
      match configs s !! name with
      | Some cfg => Found cfg
      | None => if bool_decide (name ∈ known s) then Unavailable else Unknown
      end
  end.

(** [impl WorkspaceLookup for WorkspaceSet]; a server is not offline. *)
Definition set_lookup (s : WorkspaceSet) : WorkspaceLookup := mkLookup (ws_local_name s) (set_get s) false.

Definition config_name_leb (a b : string * WorkspaceConfig) : bool := str_leb a.1 b.1.

Section values.
Context `{HashIter}.

(** The local workspace first, then the others by name. *)
Definition iter_configs (s : WorkspaceSet) : list (string * WorkspaceConfig) :=
  match set_get s (ws_local_name s) with Found c => [(ws_local_name s, c)] | _ => [] end ++
  sort_by config_name_leb (List.filter (λ p, p.1 <>? ws_local_name s) (hash_iter (configs s))).

(** Every string in a value. *)
Fixpoint collect_strings (value : json) : list string :=
  match value with
  | JString s => [s]
  | JObject m => flat_map (λ p, collect_strings p.2) m
  | JArray l => flat_map collect_strings l
  | _ => []
  end.

Definition collect_config_secret_values (cfg : WorkspaceConfig) : list string :=
  flat_map (λ p, collect_strings p.2) (hash_iter (secrets cfg)).

(** The strings of the secret properties of one connection, its type's
    defaults included. *)
Definition connection_secret_values (set : WorkspaceSet) (ws_name : string) (conn : ConnectionDef) : list string :=
  match connection_type conn with
  | None => []
  | Some declared =>
      match canonical_type_ref declared ws_name (set_lookup set) with
      | Err _ => []
      | Ok ct =>
          match set_get set (ct_workspace ct) with
          | Found type_cfg =>
              match connection_types type_cfg !! ct_name ct with
              | None => []
              | Some type_def =>
                  let effective := values_with_type_defaults conn type_def in
                  flat_map (λ p, if cp_secret p.2 then match effective !! p.1 with Some v => collect_strings v | None => [] end else [])
                    (hash_iter (properties type_def))
              end
          | _ => []
          end
      end
  end.

Definition config_values (set : WorkspaceSet) (p : string * WorkspaceConfig) : list string :=
  collect_config_secret_values p.2 ++
  flat_map (λ c, connection_secret_values set p.1 c.2) (hash_iter (connections p.2)).

(** [Vec::dedup]: equal neighbours become one. *)
Fixpoint dedup (l : list string) : list string :=
  match l with
  | x :: (y :: _) as rest => if x ==? y then dedup rest else x :: dedup rest
  | _ => l
  end.

Definition collect_redaction_values (set : WorkspaceSet) : list string :=
  dedup (sort_strings (List.filter (λ v, (3 <? String.length v)%nat) (flat_map (config_values set) (iter_configs set)))).

Definition local_secret_values (ws : string) (config : WorkspaceConfig) : list string :=
  collect_redaction_values (from_parts ws (Some config) [] [ws]).
End values.

(** ** What is masked

    [collect_redaction_values] lists exactly the secret strings of the set,
    each once; what the resolution of connection inputs puts into a job's
    input for a secret property is among them. *)

(** ** Sorting and deduplication *)

Lemma str_leb_total x y : str_leb x y = false → str_leb y x = true.
Proof. unfold str_leb. rewrite (String.compare_antisym x y). by destruct (String.compare y x). Qed.

Definition str_le (x y : string) : Prop := str_leb x y = true.

Lemma Sorted_insert_by x l : Sorted str_le l → Sorted str_le (insert_by str_leb x l).
Proof.
  induction 1 as [|y l Hs IH Hd]; simpl; [repeat constructor|]. destruct (str_leb x y) eqn:E.
  - constructor; [by constructor|by constructor].
  - apply str_leb_total in E. constructor; [done|]. destruct l as [|z l]; simpl; [by constructor|].
    inversion Hd; subst. destruct (str_leb x z); by constructor.
Qed.

Lemma Sorted_sort_strings l : Sorted str_le (sort_strings l).
Proof. unfold sort_strings. induction l as [|x l IH]; simpl; [constructor|by apply Sorted_insert_by]. Qed.

Lemma elem_of_dedup x l : x ∈ dedup l ↔ x ∈ l.
Proof.
  induction l as [|y [|z l] IH]; [done..|]. cbn [dedup]. case_bool_decide as E.
  - rewrite IH. subst. rewrite !elem_of_cons. tauto.
  - rewrite elem_of_cons, IH. by rewrite (elem_of_cons (z :: l)).
Qed.

(** Strictly increasing. *)
Definition str_lt (x y : string) : Prop := str_leb x y = true ∧ x ≠ y.

Lemma dedup_head y l : ∃ l', dedup (y :: l) = y :: l'.
Proof.
  induction l as [|z l IH]; [by exists []|]. cbn [dedup]. case_bool_decide as E; [|by eexists]. subst. apply IH.
Qed.

Lemma dedup_strict l : Sorted str_le l → Sorted str_lt (dedup l).
Proof.
  induction 1 as [|x l Hs IH Hd]; [constructor|]. destruct l as [|y l]; [repeat constructor|].
  cbn [dedup]. case_bool_decide as E; [done|]. constructor; [done|].
  destruct (dedup_head y l) as [l' Hl]. cbn [dedup] in Hl |- *. rewrite Hl. inversion Hd; subst. by constructor.
Qed.

(** ** The secret strings of a set *)

Section masked.
Context `{HashIter}.

(** The set's configurations are what its lookup finds. *)
Lemma elem_of_iter_configs s ws cfg : (ws, cfg) ∈ iter_configs s ↔ set_get s ws = Found cfg.
Proof.
  unfold iter_configs. rewrite elem_of_app, elem_of_sort_by, elem_of_lfilter, elem_of_hash_iter.
  cbn [fst snd]. split.
  - intros [Hl|[Hc Hn]].
    + destruct (set_get s (ws_local_name s)) eqn:E; [|by apply elem_of_nil in Hl..].
      apply list_elem_of_singleton in Hl. by simplify_eq.
    + case_bool_decide as E; simpl in Hn; [done|]. unfold set_get. rewrite bool_decide_false by done. by rewrite Hc.
  - intros Hg. destruct (decide (ws = ws_local_name s)) as [->|Hne].
    + left. rewrite Hg. by apply list_elem_of_singleton.
    + right. unfold set_get in Hg. rewrite bool_decide_false in Hg by done.
      destruct (configs s !! ws); [simplify_eq; split; [done|by rewrite bool_decide_false by done]|by case_bool_decide].
Qed.

(** A string of a secret, or of a property some connection's type declares
    secret, in any configuration of the set. *)
Inductive secret_string (set : WorkspaceSet) (s : string) : Prop :=
  | of_secret ws cfg key v :
      set_get set ws = Found cfg → secrets cfg !! key = Some v → s ∈ collect_strings v → secret_string set s
  | of_connection ws cfg key conn declared ct type_cfg type_def prop def v :
      set_get set ws = Found cfg → connections cfg !! key = Some conn → connection_type conn = Some declared →
      canonical_type_ref declared ws (set_lookup set) = Ok ct → set_get set (ct_workspace ct) = Found type_cfg →
      connection_types type_cfg !! ct_name ct = Some type_def → properties type_def !! prop = Some def → cp_secret def = true →
      values_with_type_defaults conn type_def !! prop = Some v → s ∈ collect_strings v → secret_string set s.

(** No string, on either side. *)
#[local] Ltac nothing :=
  split; [by intros ?%elem_of_nil|intros (? & ? & ? & ? & ? & ? & ? & ? & ? & ? & ? & _); simplify_eq; congruence].

Lemma elem_of_connection_secret_values set ws conn s :
  s ∈ connection_secret_values set ws conn ↔
  ∃ declared ct type_cfg type_def prop def v,
    connection_type conn = Some declared ∧ canonical_type_ref declared ws (set_lookup set) = Ok ct ∧
    set_get set (ct_workspace ct) = Found type_cfg ∧ connection_types type_cfg !! ct_name ct = Some type_def ∧
    properties type_def !! prop = Some def ∧ cp_secret def = true ∧
    values_with_type_defaults conn type_def !! prop = Some v ∧ s ∈ collect_strings v.
Proof.
  unfold connection_secret_values. destruct (connection_type conn) as [declared|]; [|nothing].
  destruct (canonical_type_ref _ _ _) as [ct|] eqn:Ec; [|nothing].
  destruct (set_get set (ct_workspace ct)) as [tc| |] eqn:Eg; [|nothing..].
  destruct (connection_types tc !! ct_name ct) as [td|] eqn:Et; [|nothing].
  rewrite elem_of_flat_map. split.
  - intros ([prop def] & Hin & Hs). apply elem_of_hash_iter in Hin. cbn [fst snd] in Hs.
    destruct (cp_secret def) eqn:Es; [|by apply elem_of_nil in Hs].
    destruct (values_with_type_defaults conn td !! prop) as [v|] eqn:Ev; [|by apply elem_of_nil in Hs].
    exists declared, ct, tc, td, prop, def, v. auto 10.
  - intros (? & ct' & tc' & td' & prop & def & v & ? & ? & ? & ? & Hp & Hs & Hv & Hin). simplify_eq.
    assert (ct' = ct) as -> by congruence. assert (tc' = tc) as -> by congruence. assert (td' = td) as -> by congruence.
    exists (prop, def). rewrite elem_of_hash_iter. split; [done|]. cbn [fst snd]. by rewrite Hs, Hv.
Qed.

Lemma elem_of_config_values set ws cfg s :
  s ∈ config_values set (ws, cfg) ↔
  (∃ key v, secrets cfg !! key = Some v ∧ s ∈ collect_strings v) ∨
  (∃ key conn, connections cfg !! key = Some conn ∧ s ∈ connection_secret_values set ws conn).
Proof.
  unfold config_values, collect_config_secret_values. cbn [fst snd]. rewrite elem_of_app, !elem_of_flat_map. f_equiv; split.
  - intros ([k v] & Hin & Hs). rewrite elem_of_hash_iter in Hin. eauto.
  - intros (k & v & Hk & Hs). exists (k, v). by rewrite elem_of_hash_iter.
  - intros ([k v] & Hin & Hs). rewrite elem_of_hash_iter in Hin. eauto.
  - intros (k & v & Hk & Hs). exists (k, v). by rewrite elem_of_hash_iter.
Qed.

Lemma elem_of_redaction_values set s :
  s ∈ collect_redaction_values set ↔ (3 < String.length s)%nat ∧ secret_string set s.
Proof.
  unfold collect_redaction_values. rewrite elem_of_dedup, elem_of_sort_strings, elem_of_lfilter, Nat.ltb_lt, elem_of_flat_map.
  rewrite (comm (∧)). f_equiv. split.
  - intros ([ws cfg] & Hi & Hs). apply elem_of_iter_configs in Hi. apply elem_of_config_values in Hs as [(k & v & ? & ?)|(k & c & Hc & Hs)].
    + by eapply of_secret.
    + apply elem_of_connection_secret_values in Hs as (? & ? & ? & ? & ? & ? & ? & ? & ? & ? & ? & ? & ? & ? & ?).
      by eapply (of_connection set s ws cfg k c).
  - intros [ws cfg k v Hg Hk Hs|ws cfg k conn d ct tc td p def v Hg Hk ? ? ? ? ? ? ? ?]; exists (ws, cfg);
      (split; [by apply elem_of_iter_configs|]); apply elem_of_config_values; [by eauto|].
    right. exists k, conn. split; [done|]. apply elem_of_connection_secret_values. eauto 15.
Qed.

(** The masked values are exactly the secret strings of the set longer than
    three bytes, in increasing order and so each once, whatever the order the
    maps are iterated in. *)
Theorem redaction_values_exact set :
  Sorted str_lt (collect_redaction_values set) ∧
  ∀ s, s ∈ collect_redaction_values set ↔ (3 < String.length s)%nat ∧ secret_string set s.
Proof. split; [apply dedup_strict, Sorted_sort_strings|intros s; apply elem_of_redaction_values]. Qed.

(** ** What a resolved input holds *)

Lemma lookup_fold_insert (l : list (string * json)) acc k v :
  NoDup l.*1 → json_map_lookup k (fold_left (λ acc '(k, v), json_map_insert k v acc) l acc) = Some v →
  (k, v) ∈ l ∨ json_map_lookup k acc = Some v.
Proof.
  revert acc. induction l as [|[k' v'] l IH]; intros acc Hnd; simpl; [by right|]. cbn in Hnd. apply NoDup_cons in Hnd as [Hn Hnd].
  intros [Hin|Hl]%IH; [by left; right| |done]. destruct (decide (k = k')) as [->|Hne].
  - rewrite json_map_lookup_insert in Hl. injection Hl as ->. by left; left.
  - rewrite json_map_lookup_insert_ne in Hl by done. by right.
Qed.

Lemma json_get_object_of k v m : json_get k (object_of m) = Some v → m !! k = Some v.
Proof.
  unfold object_of. cbn [json_get]. intros [Hin|Hl]%lookup_fold_insert; [by apply elem_of_map_to_list| |apply NoDup_fst_map_to_list].
  done.
Qed.

(** The values taken from a typed connection, property by property. *)
Lemma connection_values_typed scope f ct resolved declared vs prop v type_def :
  connection_type (rcn_def resolved) = Some declared → connection_values scope f ct resolved = Ok vs → vs !! prop = Some v →
  (∀ cfg, lk_get (lookup scope) (ct_workspace ct) = Found cfg → connection_types cfg !! ct_name ct = Some type_def) →
  canonical_type_ref declared (rcn_workspace resolved) (lookup scope) = Ok ct ∧
  values_with_type_defaults (rcn_def resolved) type_def !! prop = Some v.
Proof.
  intros Ht Hv Hp Hty. unfold connection_values in Hv. rewrite Ht in Hv.
  destruct (canonical_type_ref _ _ _) as [c|] eqn:Ec; simpl in Hv; [|done].
  case_bool_decide as Hc; simpl in Hv; [|done]. subst c. split; [done|].
  case_bool_decide as Hw; simpl in Hv.
  - simplify_eq. unfold values_with_type_defaults. by apply lookup_union_Some_l.
  - unfold found_config in Hv. destruct (lk_get _ _) as [cfg| |] eqn:El; simpl in Hv; try done.
    rewrite (Hty cfg) in Hv by done. destruct (check_connection_values _ _ _ _); simpl in Hv; [|done]. by simplify_eq.
Qed.

(** The secret properties of a typed connection an input names are masked: of
    the object the resolution puts in the place of the name, every string
    longer than three bytes under a property the field's type declares secret
    is a redaction value of the set the resolution looked in. *)
Theorem resolved_secrets_masked set scope input schema out f def name :
  lookup scope = set_lookup set → sorted_map (entries input) → resolve_connection_inputs_scoped input schema scope = Ok out →
  schema !! f = Some def → is_primitive def = false → json_map_lookup f (entries input) = Some (JString name) →
  ∃ resolved o ct, json_get f out = Some o ∧ resolve_connection_ref name scope = Ok resolved ∧
    canonical_type_ref (field_type def) (schema_ws scope) (lookup scope) = Ok ct ∧
    ∀ cfg type_def prop p v s,
      is_Some (connection_type (rcn_def resolved)) →
      set_get set (ct_workspace ct) = Found cfg → connection_types cfg !! ct_name ct = Some type_def →
      properties type_def !! prop = Some p → cp_secret p = true → json_get prop o = Some v →
      s ∈ collect_strings v → (3 < String.length s)%nat → s ∈ collect_redaction_values set.
Proof.
  intros Hl Hs Hr Hf Hp Hi. unfold resolve_connection_inputs_scoped in Hr. apply res_map_ok in Hr as (m' & Hm & ->).
  apply schema_pass_ok in Hm as [_ Hm]; [|done]. specialize (Hm f). rewrite Hf, Hi in Hm. destruct Hm as (u & Hu & Hg).
  unfold resolve_field in Hu. rewrite Hp in Hu. apply res_bind_ok in Hu as (ct & Hct & Hu). rewrite ctx_ok in Hct.
  destruct (resolve_connection_ref name scope) as [resolved|] eqn:Er; [|done].
  apply res_map_ok in Hu as (vs & Hv & ->). exists resolved, (object_of vs), ct. split_and!; [done..|].
  intros cfg td prop p v s [declared Hd] Hcfg Htd Hprop Hsec Hvp%json_get_object_of Hin Hlen. apply elem_of_redaction_values. split; [done|].
  destruct (connection_values_typed scope f ct resolved declared vs prop v td) as [Hcan Heff]; [done..| |].
  { intros cfg' Hcfg'. rewrite Hl in Hcfg'. simpl in Hcfg'. congruence. }
  apply resolve_connection_ref_gate in Er as [(rcfg & key & Hrc & Hk) _]. rewrite Hl in *.
  by eapply (of_connection set s (rcn_workspace resolved) rcfg key).
Qed.
End masked.
