(* ===== verification/Refs.v ===== *)
(** * Resolving names at refs

    [crates/stroem-server/src/refs.rs], the name resolution of
    [job_creator.rs] (the ref memo, a step's action, a step's task) and
    [trigger_target.rs]. The workspaces and the pin store are an interface:
    the live configurations, what a ref resolves to and what a commit loads
    to. Their answers may change from call to call, so each call is numbered
    and the answer depends on the number. *)
From S2P Require Import Prelude Json Text Template TemplateError GitRef Workflow JobModel Db Pins InputFiles Errors Engine JsonField Connections WorkspaceSet.

(** ** [refs.rs] *)

Inductive OwnerKind := Local | CrossWorkspace.

#[export] Instance OwnerKind_eq_dec : EqDecision OwnerKind.
Proof. solve_decision. Defined.

Record RefTarget := mkTarget { rt_owner : string; rt_local_name : string; rt_kind : OwnerKind }.

Record RefWorld := mkWorld { library_names : gset string; configured : gset string; git : gset string }.

Definition ref_owner (base_ws name : string) (world : RefWorld) : result RefResolveError RefTarget :=
  match parse_qualified_ref name with
  | (None, local) => Ok (mkTarget base_ws local Local)
  | (Some prefix, rest) =>
      if bool_decide (prefix ∈ library_names world) then Err (LibraryItem name)
      else if negb (bool_decide (prefix ∈ configured world)) then Err (UnknownWorkspace prefix)
      else Ok (mkTarget prefix rest (if prefix ==? base_ws then Local else CrossWorkspace))
  end.

Inductive RefPlan := AtRef (target : RefTarget) (git_ref : string) | Today (base_pin : option PinRef).

Definition plan_reference (base_ws : string) (base_pin : option PinRef) (name : string) (git_ref : option string) (world : RefWorld)
    : result RefResolveError RefPlan :=
  match git_ref with
  | Some r =>
      let? target := ref_owner base_ws name world in
      if bool_decide (rt_owner target ∈ git world) then Ok (AtRef target r) else Err (RefNotGit (rt_owner target))
  | None => Ok (Today base_pin)
  end.

Definition inherited_pin (base_ws : string) (base_pin : option PinRef) (resolved_owner : string) : option PinRef :=
  if resolved_owner ==? base_ws then base_pin else None.

(** ** The interface

    What the workspaces answer, by the number of the call: the healthy
    workspaces with the config and revision they publish, what a ref resolves
    to, what a commit loads to. The set of configured names and libraries is
    fixed when the server starts. *)

Record Pinned := mkPinned { pn_config : WorkspaceConfig; pn_secret_values : list string }.

Class Workspaces := {
  entries_names : gset string;
  load_errors : gset string;
  library_paths : gset string;
  is_git : string → bool;
  published : nat → gmap string (WorkspaceConfig * option string);
  pin_resolve : nat → string → string → result PinError string;
  pin_ensure : nat → string → string → result PinError Pinned;
}.

Definition has_workspace `{Workspaces} (name : string) : bool := bool_decide (name ∈ entries_names).
Definition configured_names `{Workspaces} : gset string := entries_names ∪ load_errors.
Definition world `{Workspaces} : RefWorld :=
  mkWorld library_paths configured_names (filter (λ n, is_git n = true) configured_names).
Definition get_config `{Workspaces} (n : nat) (name : string) : option WorkspaceConfig := fst <$> published n !! name.
Definition get_revision `{Workspaces} (n : nat) (name : string) : option string := published n !! name ≫= snd.
Definition get_all_configs `{Workspaces} (n : nat) : list (string * WorkspaceConfig) :=
  (λ p, (p.1, p.2.1)) <$> map_to_list (published n).

(** The memo of one creation and the number of the next call. *)
Record St := mkSt { memo : gmap (string * string) PinRef; calls : nat }.
Definition tick (st : St) : St := mkSt (memo st) (S (calls st)).

Definition MT (E A : Type) : Type := St → result E (A * St).
Definition mret {E A} (a : A) : MT E A := λ st, Ok (a, st).
Definition mlift {E A} (r : result E A) : MT E A := λ st, res_map (λ a, (a, st)) r.
Definition mbind_ {E A B} (m : MT E A) (k : A → MT E B) : MT E B := λ st, let? (a, st') := m st in k a st'.
Abbreviation M := (MT AnyError).
Notation "'let!' x ':=' m 'in' k" := (mbind_ m (λ x, k)) (at level 10, x pattern, k at level 200) : stroem_scope.

Lemma mlift_ok {E A} (r : result E A) st a st' : mlift r st = Ok (a, st') → r = Ok a ∧ st' = st.
Proof. unfold mlift. destruct r; simpl; [|done]. by intros [= -> ->]. Qed.

Lemma mbind_ok {E A B} (m : MT E A) (k : A → MT E B) st b st' :
  mbind_ m k st = Ok (b, st') → ∃ a st1, m st = Ok (a, st1) ∧ k a st1 = Ok (b, st').
Proof. unfold mbind_. destruct (m st) as [[a st1]|]; [|done]. eauto. Qed.

(** ** The memo *)

Definition memo_insert (owner git_ref : string) (pin : PinRef) (m : gmap (string * string) PinRef) : gmap (string * string) PinRef :=
  match m !! (owner, git_ref) with Some _ => m | None => <[(owner, git_ref) := pin]> m end.

Definition seeded (workspace : string) (pin : option PinRef) : gmap (string * string) PinRef :=
  match pin with Some p => memo_insert workspace (Pins.git_ref p) p ∅ | None => ∅ end.

(** A memo from a job's stored rows. *)
Definition from_rows (rows : list RefPinRec) : gmap (string * string) PinRef :=
  fold_left (λ m r, memo_insert (rp_workspace r) (rp_git_ref r) (mkPinRef (rp_git_ref r) (rp_commit r)) m) rows ∅.

(** The memo's entries as rows of a job. *)
Definition memo_entries (job_id : Uuid) (m : gmap (string * string) PinRef) : list RefPinRec :=
  (λ '((ws, r), pin), mkRefPinRec job_id ws r (commit pin)) <$> map_to_list m.

Section resolve.
Context `{Workspaces}.

Definition parse_ref (git_ref what : string) : result AnyError unit :=
  match parse_git_ref git_ref with
  | Ok _ => Ok ()
  | Err e => Err [LMsg (what +:+ ": invalid ref name"); LGitRef e]
  end.

(** [WorkspaceManager::pin_error_for_user]: a loader's output is withheld. *)
Definition pin_error_for_user (ws : string) (pin : PinRef) (err : PinError) : Link :=
  match err with PinLoadFailed _ _ _ => LWithheld (withheld_new ws pin) | _ => LPin err end.

Definition resolve_commit (owner git_ref : string) : M PinRef := λ st,
  match pin_resolve (calls st) owner git_ref with
  | Ok c => Ok (mkPinRef git_ref c, tick st)
  | Err e => Err [LPin e]
  end.
Definition ensure_pin (owner : string) (pin : PinRef) : M Pinned := λ st,
  match pin_ensure (calls st) owner (commit pin) with
  | Ok p => Ok (p, tick st)
  | Err e => Err [pin_error_for_user owner pin e]
  end.

Definition pin_at_ref (owner git_ref : string) : M (PinRef * Pinned) := λ st,
  let? (pin, st) :=
    match memo st !! (owner, git_ref) with
    | Some pin => Ok (pin, st)
    | None =>
        let? (pin, st) := resolve_commit owner git_ref st in
        let m := memo_insert owner git_ref pin (memo st) in
        Ok (default pin (m !! (owner, git_ref)), mkSt m (calls st))
    end in
  let? (pinned, st) := ensure_pin owner pin st in
  Ok ((pin, pinned), st).

(** ** Names in a pinned config *)

Definition action_at (written owner : string) (cfg : WorkspaceConfig) (local git_ref : string) : result AnyError ActionDef :=
  match actions cfg !! local with Some a => Ok a | None => Err [LMissing (mkMissing "action" written owner local git_ref)] end.
Definition task_named_at (task_ref ws : string) (cfg : WorkspaceConfig) (local git_ref : string) : result AnyError TaskDef :=
  match tasks cfg !! local with Some t => Ok t | None => Err [LMissing (mkMissing "task" task_ref ws local git_ref)] end.
Definition task_at (ws : string) (cfg : WorkspaceConfig) (task_ref git_ref : string) : result AnyError (string * TaskDef) :=
  let local := if bool_decide (is_Some (tasks cfg !! task_ref)) then task_ref else (parse_qualified_ref task_ref).2 in
  let? task := task_named_at task_ref ws cfg local git_ref in
  Ok (local, task).

(** ** Tasks *)

Inductive OwnerConfig := Base | Foreign (c : WorkspaceConfig).

Record ResolvedTask := mkResolvedTask { rk_workspace : string; rk_task_name : string; rk_task : TaskDef; rk_config : OwnerConfig }.

Definition resolved_config (r : ResolvedTask) (base : WorkspaceConfig) : WorkspaceConfig :=
  match rk_config r with Base => base | Foreign c => c end.

Inductive TaskRefOwner := BaseKey | Qualified (ws name : string).

Definition task_ref_owner (base_ws : string) (base_cfg : WorkspaceConfig) (task_ref : string) : result AnyError TaskRefOwner :=
  if bool_decide (is_Some (tasks base_cfg !! task_ref)) then Ok BaseKey
  else match parse_qualified_ref task_ref with
       | (Some ws, name) =>
           if has_workspace ws then Ok (Qualified ws name)
           else bail ("task '" +:+ task_ref +:+ "': unknown workspace '" +:+ ws +:+ "'")
       | (None, _) => bail ("Task '" +:+ task_ref +:+ "' not found in workspace '" +:+ base_ws +:+ "'")
       end.

Definition live_config (ws : string) : M (option WorkspaceConfig) := λ st, Ok (get_config (calls st) ws, tick st).
Definition live_revision (ws : string) : M (option string) := λ st, Ok (get_revision (calls st) ws, tick st).

Definition resolve_task_ref (base_ws : string) (base_cfg : WorkspaceConfig) (task_ref : string) : M ResolvedTask :=
  let! owner := mlift (task_ref_owner base_ws base_cfg task_ref) in
  match owner with
  | BaseKey =>
      match tasks base_cfg !! task_ref with
      | Some t => mret (mkResolvedTask base_ws task_ref t Base)
      | None => mlift (bail "")  (* unreachable: the key is there *)
      end
  | Qualified ws name =>
      let! cfg := live_config ws in
      match cfg with
      | None => mlift (bail ("task '" +:+ task_ref +:+ "': workspace '" +:+ ws +:+ "' is not available"))
      | Some cfg =>
          match tasks cfg !! name with
          | Some t => mret (mkResolvedTask ws name t (Foreign cfg))
          | None => mlift (bail ("task '" +:+ task_ref +:+ "': workspace '" +:+ ws +:+ "' has no task '" +:+ name +:+ "'"))
          end
      end
  end.

Definition plan_link {A} (r : result RefResolveError A) : result AnyError A := res_map_err (λ e, [LResolve e]) r.

Definition resolve_task_for_step (base_ws : string) (base_cfg : WorkspaceConfig) (base_pin : option PinRef) (task_ref : string)
    (git_ref : option string) : M (ResolvedTask * option PinRef) :=
  let! _ := mlift (match git_ref with Some r => parse_ref r ("task '" +:+ task_ref +:+ "'") | None => Ok () end) in
  let! plan := mlift (plan_link (plan_reference base_ws base_pin task_ref git_ref world)) in
  match plan with
  | AtRef target r =>
      let! (pin, pinned) := pin_at_ref (rt_owner target) r in
      let! task := mlift (task_named_at task_ref (rt_owner target) (pn_config pinned) (rt_local_name target) r) in
      mret (mkResolvedTask (rt_owner target) (rt_local_name target) task (Foreign (pn_config pinned)), Some pin)
  | Today base_pin =>
      let! o := mlift (task_ref_owner base_ws base_cfg task_ref) in
      let owner := match o with BaseKey => base_ws | Qualified ws _ => ws end in
      match inherited_pin base_ws base_pin owner with
      | None =>
          let! r := resolve_task_ref base_ws base_cfg task_ref in
          mret (r, None)
      | Some pin =>
          let! (name, task) := mlift (task_at base_ws base_cfg task_ref (Pins.git_ref pin)) in
          mret (mkResolvedTask base_ws name task Base, Some pin)
      end
  end.

(** ** Actions *)

Record StepAction := mkStepAction {
  sa_action : ActionDef;
  sa_workspace : option string;
  sa_revision : option string;
  sa_name : string;
  sa_owner_cfg : option WorkspaceConfig;
  sa_pin : option PinRef;
}.

Definition resolve_step_action (workspace_name : string) (workspace_config : WorkspaceConfig) (job_pin : option PinRef)
    (step_name : string) (flow_step : FlowStep) (step_ref : option string) : M StepAction :=
  let name := action flow_step in
  match step_ref with
  | Some step_ref =>
      let! _ := mlift (parse_ref step_ref ("step '" +:+ step_name +:+ "'")) in
      let! plan := mlift (plan_link (plan_reference workspace_name None name (Some step_ref) world)) in
      match plan with
      | Today _ => mlift (bail "")  (* unreachable: a ref was given *)
      | AtRef target r =>
          let! (pin, pinned) := pin_at_ref (rt_owner target) r in
          let! a := mlift (action_at name (rt_owner target) (pn_config pinned) (rt_local_name target) r) in
          if a_action_type a ==? "agent" then mlift (Err [LResolve (AgentAction name)])
          else mret (mkStepAction a (Some (rt_owner target)) (Some (commit pin)) (rt_local_name target) (Some (pn_config pinned)) (Some pin))
      end
  | None =>
      let '(owner_ws, bare_action) := parse_qualified_ref name in
      let qualified_owner :=
        match owner_ws with
        | Some ws => if negb (bool_decide (is_Some (actions workspace_config !! name))) && has_workspace ws then Some ws else None
        | None => None
        end in
      match qualified_owner with
      | None =>
          match actions workspace_config !! name with
          | Some a => mret (mkStepAction a None None name None None)
          | None => mlift (bail ("Action '" +:+ name +:+ "' not found in workspace '" +:+ workspace_name +:+ "'"))
          end
      | Some ws =>
          match inherited_pin workspace_name job_pin ws with
          | Some pin =>
              let! a := mlift (action_at name ws workspace_config bare_action (Pins.git_ref pin)) in
              mret (mkStepAction a (Some ws) (Some (commit pin)) bare_action None (Some pin))
          | None =>
              let! cfg := live_config ws in
              match cfg with
              | None => mlift (bail ("action '" +:+ name +:+ "': workspace '" +:+ ws +:+ "' is not available"))
              | Some owner_cfg =>
                  match actions owner_cfg !! bare_action with
                  | None => mlift (bail ("action '" +:+ name +:+ "': workspace '" +:+ ws +:+ "' has no action '" +:+ bare_action +:+ "'"))
                  | Some a =>
                      let! rev := live_revision ws in
                      mret (mkStepAction a (Some ws) rev bare_action (Some owner_cfg) None)
                  end
              end
          end
      end
  end.
End resolve.
