(* ===== verification/Manager.v ===== *)
(** * Configurations by pin

    The reads of [crates/stroem-server/src/workspace/mod.rs]: the
    configuration a job or step sees, live or at its pin, the errors a user may
    see, and the redaction values of a pin. *)
From S2P Require Import Prelude Json Text Workflow JobModel Db Pins InputFiles Errors Engine JsonField Connections WorkspaceSet Refs.

Inductive ConfigHandle := Live (c : WorkspaceConfig) | PinnedAt (p : Pinned).

Definition handle_config (h : ConfigHandle) : WorkspaceConfig :=
  match h with Live c => c | PinnedAt p => pn_config p end.
Definition pinned_own_secret_values (h : ConfigHandle) : list string :=
  match h with Live _ => [] | PinnedAt p => pn_secret_values p end.
Definition is_pinned (h : ConfigHandle) : bool := match h with PinnedAt _ => true | Live _ => false end.

(** [pins.rs] *)
Definition cannot_be_loaded (ws : string) (pin : PinRef) (err : AnyError) : string :=
  match downcast as_withheld err with
  | Some _ => outer_text err
  | None => "[pin] " +:+ pin_label ws pin +:+ " cannot be loaded: " +:+ chain_text err
  end.

Section manager.
Context `{Workspaces, HashIter}.

Definition ensure_raw (ws commit : string) : M Pinned := λ st,
  match pin_ensure (calls st) ws commit with Ok p => Ok (p, tick st) | Err e => Err [LPin e] end.

Definition config_for (ws : string) (pin : option PinRef) : M (option ConfigHandle) :=
  match pin with
  | None => let! c := live_config ws in mret (Live <$> c)
  | Some p => let! pinned := ensure_raw ws (commit p) in mret (Some (PinnedAt pinned))
  end.

(** A [PinError] at the head is what [downcast] takes out of the error. *)
Definition config_for_user (ws : string) (pin : option PinRef) : M (option ConfigHandle) := λ st,
  match config_for ws pin st, pin with
  | Err e, Some pin =>
      match downcast as_pin e with
      | Some pe => Err [pin_error_for_user ws pin pe]
      | None => Err e
      end
  | result, _ => result
  end.

Definition pinned_config_private (ws commit : string) : M Pinned := λ st,
  match pin_ensure (calls st) ws commit with
  | Ok pinned => Ok (pinned, tick st)
  | Err (PinLoadFailed _ _ _) => Err [LWithheld (withheld_for_commit ws commit)]
  | Err e => Err [LPin e]
  end.

Definition load_set (local_name : string) (local_override : option WorkspaceConfig) : M WorkspaceSet := λ st,
  Ok (from_parts local_name local_override (get_all_configs (calls st)) (elements configured_names), tick st).

Definition pin_redaction_values (ws : string) (pinned : Pinned) : M (list string) := λ st,
  let others := List.filter (λ p, p.1 <>? ws) (get_all_configs (calls st)) in
  let set := from_parts ws (Some (pn_config pinned)) others (elements configured_names) in
  Ok (collect_redaction_values set, tick st).
End manager.

(** ** A pin's redaction values *)

Section pin_values.
Context `{Workspaces, HashIter}.

Lemma fold_insert_spec (l : list (string * WorkspaceConfig)) (m : gmap string WorkspaceConfig) k c :
  NoDup l.*1 → fold_left (λ m p, <[p.1 := p.2]> m) l m !! k = Some c ↔ (k, c) ∈ l ∨ (k ∉ l.*1) ∧ m !! k = Some c.
Proof.
  revert m. induction l as [|[n d] l IH]; intros m Hnd; cbn [fold_left fmap list_fmap fst snd].
  - set_solver.
  - cbn in Hnd. apply NoDup_cons in Hnd as [Hn Hnd]. rewrite IH, elem_of_cons, not_elem_of_cons by done.
    destruct (decide (n = k)) as [<-|Hne].
    + rewrite lookup_insert_eq. split; [|naive_solver]. intros [Hin|[_ [= ->]]]; [|by auto].
      destruct Hn. change n with (n, c).1. by apply list_elem_of_fmap_2.
    + rewrite lookup_insert_ne by done. naive_solver.
Qed.

Lemma elem_of_all_configs n k c : (k, c) ∈ get_all_configs n ↔ get_config n k = Some c.
Proof.
  unfold get_all_configs, get_config. rewrite list_elem_of_fmap, fmap_Some. split.
  - intros ([k' [c' r]] & [= -> ->] & Hin%elem_of_map_to_list). by exists (c', r).
  - intros ([c' r] & Hl & ->). exists (k, (c', r)). by rewrite elem_of_map_to_list.
Qed.

Lemma lfilter_sublist {A} (f : A → bool) l : List.filter f l `sublist_of` l.
Proof. induction l as [|x l IH]; simpl; [constructor|]. destruct (f x); by constructor. Qed.

Lemma NoDup_all_configs n : NoDup (get_all_configs n).*1.
Proof.
  unfold get_all_configs. rewrite <-list_fmap_compose. apply (NoDup_fst_map_to_list (published n)).
Qed.

(** The set a pin is redacted with finds the pin's config under its own name
    and the live ones under the others. *)
Lemma pin_set_get n ws pinned name :
  set_get (from_parts ws (Some (pn_config pinned)) (List.filter (λ p, p.1 <>? ws) (get_all_configs n)) (elements configured_names)) name =
  if name ==? ws then Found (pn_config pinned)
  else match get_config n name with
       | Some c => Found c
       | None => if bool_decide (name ∈ configured_names) then Unavailable else Unknown
       end.
Proof.
  unfold set_get, from_parts. cbn [ws_local_name local_override configs known]. case_bool_decide as Hn; [done|].
  set (l := List.filter _ _).
  assert (Hl : NoDup l.*1).
  { apply (sublist_NoDup _ (get_all_configs n).*1); [apply NoDup_all_configs|]. apply fmap_sublist, lfilter_sublist. }
  assert (Hc : ∀ c, fold_left (λ m p, <[p.1 := p.2]> m) l (∅ : gmap string WorkspaceConfig) !! name = Some c ↔ get_config n name = Some c).
  { intros c. rewrite fold_insert_spec, lookup_empty by done. unfold l. rewrite elem_of_lfilter, elem_of_all_configs. cbn [fst].
    rewrite bool_decide_false by done. naive_solver. }
  destruct (fold_left _ l ∅ !! name) as [c|] eqn:Ef; [by rewrite (proj1 (Hc c) eq_refl)|].
  destruct (get_config n name) as [c|] eqn:Eg; [by pose proof (proj2 (Hc c) eq_refl)|].
  apply not_elem_of_dom in Ef. erewrite bool_decide_ext; [done|]. set_solver.
Qed.
End pin_values.
