(* ===== verification/Redact.v ===== *)
(** * Masking secrets

    [crates/stroem-server/src/workspace_set.rs] ([collect_occurrences],
    [redact_secrets_in_str]) and the tree walks of
    [crates/stroem-server/src/redaction.rs]. A text is its UTF-8 bytes, offsets
    are byte offsets. serde_json's string encoder and [str]'s [Debug] are
    arguments: they return text. *)
From S2P Require Import Prelude Json Text Lines Utf8.

(** ** Occurrences and spans *)

Abbreviation Span := (nat * nat)%type (only parsing).

(** The loop of [collect_occurrences] from an offset. *)
Fixpoint occurrences_from (fuel : nat) (s needle : Bytes) (from : nat) (spans : list Span) : list Span :=
  match fuel with
  | O => spans
  | S fuel' =>
      if (from <=? length s)%nat
      then match find_bytes needle (drop from s) with
           | None => spans
           | Some rel =>
               let begin := (from + rel)%nat in
               let step := match drop begin s with [] => 1%nat | b :: _ => char_len b end in
               occurrences_from fuel' s needle (begin + step) (spans ++ [(begin, begin + length needle)%nat])
           end
      else spans
  end.
Definition collect_occurrences (s needle : Bytes) (spans : list Span) : list Span :=
  occurrences_from (S (S (length s))) s needle 0 spans.

Definition span_leb (x y : Span) : bool := (x.1 <? y.1)%nat || (x.1 =? y.1)%nat && (x.2 <=? y.2)%nat.

(** One span enters the merged list, whose last element is its head here. *)
Definition merge_span (merged : list Span) (x : Span) : list Span :=
  match merged with
  | last :: rest => if (x.1 <=? last.2)%nat then (last.1, Nat.max last.2 x.2) :: rest else x :: merged
  | [] => [x]
  end.
Definition merge_spans (spans : list Span) : list Span := rev (foldl merge_span [] spans).

(** U+2022, and the mask of six of them. *)
Definition bullet : Bytes := ["226"%char; "128"%char; "162"%char].
Definition REDACTED : Bytes := concat (replicate 6 bullet).

(** The text from [cursor] on with the spans replaced by the mask. *)
Fixpoint mask_from (s : Bytes) (cursor : nat) (merged : list Span) : Bytes :=
  match merged with
  | [] => drop cursor s
  | (b, e) :: merged' => take (b - cursor) (drop cursor s) ++ REDACTED ++ mask_from s e merged'
  end.

(** [strip_prefix] and [strip_suffix] of a quote, both or none. *)
Definition strip_quotes (x : Bytes) : Bytes :=
  match x with
  | c :: x' =>
      if (c ==? quote) && (last x' ==? Some quote) then take (length x' - 1) x' else x
  | [] => x
  end.

Section redact.
(** [serde_json::to_string(&str)] and [format!("{:?}")]. *)
Context (to_string : Bytes → option Bytes) (debug : Bytes → Bytes).

Definition json_escaped (secret : Bytes) : option Bytes := strip_quotes <$> to_string secret.
Definition debug_escaped (secret : Bytes) : Bytes := strip_quotes (debug secret).

Definition secret_spans (s : Bytes) (spans : list Span) (secret : Bytes) : list Span :=
  if bool_decide (secret = []) then spans
  else
    let spans := collect_occurrences s secret spans in
    let spans :=
      match json_escaped secret with
      | Some escaped =>
          if negb (escaped ==? secret) && negb (bool_decide (escaped = [])) then collect_occurrences s escaped spans else spans
      | None => spans
      end in
    let escaped := debug_escaped secret in
    if negb (escaped ==? secret) && negb (Some escaped ==? json_escaped secret) && negb (bool_decide (escaped = []))
    then collect_occurrences s escaped spans else spans.

Definition redact_bytes (s : Bytes) (secret_values : list Bytes) : Bytes :=
  let spans := foldl (secret_spans s) [] secret_values in
  if bool_decide (spans = []) then s else mask_from s 0 (merge_spans (sort_by span_leb spans)).

Definition redact_secrets_in_str (s : string) (secret_values : list string) : string :=
  of_bytes (redact_bytes (bytes s) (bytes <$> secret_values)).
End redact.

(** ** JSON trees ([redaction.rs]) *)

Fixpoint map_strings (f : string → string) (v : json) : json :=
  match v with
  | JString s => JString (f s)
  | JObject m => JObject (map (λ p, (p.1, map_strings f p.2)) m)
  | JArray l => JArray (map (map_strings f) l)
  | _ => v
  end.

Definition MASK : string := of_bytes REDACTED.

Section walk.
Context (to_string : Bytes → option Bytes) (debug : Bytes → Bytes).

Definition redact_str (s : string) (secrets : list string) : string :=
  if String.prefix "ref+" s then MASK else redact_secrets_in_str to_string debug s secrets.

Definition redact_value_tree (v : json) (secrets : list string) : json := map_strings (λ s, redact_str s secrets) v.
Definition mask_value_tree (v : json) : json := map_strings (λ _, MASK) v.
End walk.

Definition JOB_IDENTIFIER_KEYS : list string :=
  ["job_id"; "workspace"; "task_name"; "mode"; "status"; "source_type"; "source_id"; "source_job_id";
   "restart_from_step"; "restart_from_steps"; "parent_job_id"; "parent_step_name"; "revision"; "ref"; "task_folder";
   "worker_id"; "created_at"; "started_at"; "completed_at"; "retry_of_job_id"; "retry_job_id"; "retry_attempt";
   "max_retries"; "derived_jobs"].
Definition INPUT_FILE_IDENTIFIER_KEYS : list string := ["field"; "file_id"].
Definition STEP_IDENTIFIER_KEYS : list string :=
  ["step_name"; "action_name"; "action_type"; "runner"; "status"; "worker_id"; "started_at"; "completed_at";
   "suspended_at"; "retry_at"; "retry_attempt"; "max_retries"; "skip_reason"; "loop_source"; "loop_index"; "loop_total";
   "carried_over"; "depends_on"; "action_workspace"; "action_ref"; "action_revision"; "task_workspace"; "task_ref";
   "task_revision"; "job_id"; "workspace"; "task_name"; "job_status"; "child_jobs"].

Definition walk_object_except (skip : list string) (f : json → json) (v : json) : json :=
  match v with
  | JObject m => JObject (map (λ p, (p.1, if bool_decide (p.1 ∈ skip) then p.2 else f p.2)) m)
  | other => f other
  end.

Definition walk_entries (skip : list string) (f : json → json) (v : json) : json :=
  match v with JArray l => JArray (map (walk_object_except skip f) l) | other => f other end.

Definition walk_job_content (f : json → json) (job : json) : json :=
  match job with
  | JObject m => JObject (map (λ p, (p.1,
      if p.1 ==? "steps" then walk_entries STEP_IDENTIFIER_KEYS f p.2
      else if p.1 ==? "input_files" then walk_entries INPUT_FILE_IDENTIFIER_KEYS f p.2
      else if bool_decide (p.1 ∈ JOB_IDENTIFIER_KEYS) then p.2 else f p.2)) m)
  | _ => f job
  end.

Section outlet.
Context (to_string : Bytes → option Bytes) (debug : Bytes → Bytes).

Definition redact_job_response (job : json) (secrets : list string) : json :=
  walk_job_content (λ v, redact_value_tree to_string debug v secrets) job.
Definition mask_job_response (job : json) : json := walk_job_content mask_value_tree job.

Inductive JobRedaction := Values (secrets : list string) | MaskAll.

Definition masks_all (r : JobRedaction) : bool := match r with MaskAll => true | Values _ => false end.

Definition apply_str (r : JobRedaction) (s : string) : string :=
  match r with Values secrets => redact_str to_string debug s secrets | MaskAll => MASK end.
Definition apply_value (r : JobRedaction) (v : json) : json :=
  match r with Values secrets => redact_value_tree to_string debug v secrets | MaskAll => mask_value_tree v end.
Definition apply_job_response (r : JobRedaction) (job : json) : json :=
  match r with Values secrets => redact_job_response job secrets | MaskAll => mask_job_response job end.
End outlet.

(** ** Masking secrets: theorems

    Every occurrence of every form of every secret is found, the merged spans
    cover them, and the text that is left between the masks holds none of
    them. *)

(** ** Occurrences *)

(** An offset that is a character boundary. *)
Definition boundary (s : Bytes) (i : nat) : Prop := (i ≤ length s)%nat ∧ valid_utf8 (take i s) = true ∧ valid_utf8 (drop i s) = true.

Lemma boundary_0 s : valid_utf8 s = true → boundary s 0.
Proof. intros Hs. unfold boundary. rewrite drop_0. split_and!; [lia|done..]. Qed.

Lemma prefix_drop_bound (needle s : Bytes) i : needle ≠ [] → needle `prefix_of` drop i s → (i + length needle ≤ length s)%nat.
Proof. intros Hne Hp. pose proof (prefix_length _ _ Hp) as H. rewrite length_drop in H. destruct needle; [done|]. simpl in *. lia. Qed.

(** Where a text occurs in a text are boundaries, on both sides. *)
Lemma occurrence_boundary needle s i :
  needle ≠ [] → valid_utf8 needle = true → valid_utf8 s = true → needle `prefix_of` drop i s →
  boundary s i ∧ boundary s (i + length needle).
Proof.
  intros Hne Hn Hs Hp. pose proof (prefix_drop_bound _ _ _ Hne Hp) as Hb. destruct Hp as [y Ey].
  assert (Es : s = take i s ++ needle ++ y) by (rewrite <-Ey; symmetry; apply take_drop).
  rewrite Es in Hs. destruct (occurs_valid needle _ _ Hne Hn Hs) as [Hx Hy]. unfold boundary.
  assert (E2 : drop (i + length needle) s = y) by (rewrite <-drop_drop, Ey; apply drop_app_length).
  assert (E1 : take (i + length needle) s = take i s ++ needle).
  { rewrite <-(take_drop i s) at 1. rewrite Ey, app_assoc, take_app_le; [apply take_ge|];
      rewrite !length_app, length_take; lia. }
  split_and!; [lia|done| |lia| |by rewrite E2].
  - rewrite Ey. by rewrite valid_utf8_app.
  - rewrite E1. by rewrite valid_utf8_app.
Qed.

(** After a boundary, the next one is a character further; nothing starts in
    between. *)
Lemma next_boundary s i b l :
  boundary s i → drop i s = b :: l → boundary s (i + char_len b) ∧ (0 < char_len b)%nat ∧
  ∀ j needle, (i < j < i + char_len b)%nat → needle ≠ [] → valid_utf8 needle = true → ¬ needle `prefix_of` drop j s.
Proof.
  intros (Hi & Ht & Hd) E. assert (Hne : drop i s ≠ []) by by rewrite E.
  destruct (valid_utf8_first _ Hne Hd) as (c & l' & E' & Hc & Hl').
  destruct (is_char_shape _ Hc) as (a & t & -> & Ha & Hcont & Hlen). rewrite E in E'. simpl in E'. injection E' as <- El.
  assert (Edrop : drop (i + char_len b) s = l').
  { rewrite <-drop_drop, E, <-Hlen, El. simpl. apply drop_app_length. }
  assert (Hle : (i + char_len b ≤ length s)%nat).
  { pose proof (length_drop s i) as H. rewrite E, El in H. simpl in *. rewrite length_app in H. lia. }
  split_and!.
  - unfold boundary. split_and!; [done| |by rewrite Edrop].
    assert (Etake : take (i + char_len b) s = take i s ++ b :: t).
    { rewrite <-(take_drop i s) at 1. rewrite E, El. change (b :: t ++ l') with ((b :: t) ++ l').
      rewrite app_assoc, take_app_le; [apply take_ge|]; rewrite length_app, length_take; lia. }
    rewrite Etake, valid_utf8_app by done. rewrite <-(app_nil_r (b :: t)). by rewrite valid_utf8_char.
  - rewrite <-Hlen. simpl. lia.
  - intros j needle Hj Hn Hv Hp. pose proof (valid_starts _ Hv) as Hstart. destruct needle as [|d needle]; [done|].
    destruct Hp as [y Ey]. assert (El2 : drop (j - i - 1) (t ++ l') = d :: needle ++ y).
    { rewrite <-El. change l with (drop 1 (b :: l)). rewrite <-E, !drop_drop. change (d :: needle ++ y) with ((d :: needle) ++ y).
      rewrite <-Ey. f_equal. lia. }
    simpl in Hlen. rewrite drop_app_le in El2 by lia.
    destruct (drop (j - i - 1) t) as [|d' t'] eqn:Et.
    { pose proof (length_drop t (j - i - 1)) as H. rewrite Et in H. simpl in H. lia. }
    injection El2 as <- _. assert (Hd' : Forall (λ b, is_cont b = true) (drop (j - i - 1) t)) by by apply Forall_drop.
    rewrite Et in Hd'. apply Forall_cons in Hd' as [Hd' _]. simpl in Hstart. congruence.
Qed.

Lemma occurrences_from_spec fuel s needle from spans x :
  needle ≠ [] → valid_utf8 needle = true → valid_utf8 s = true → boundary s from →
  (length s < from + fuel)%nat →
  x ∈ occurrences_from fuel s needle from spans ↔
  x ∈ spans ∨ (from ≤ x.1)%nat ∧ x.2 = (x.1 + length needle)%nat ∧ needle `prefix_of` drop x.1 s.
Proof.
  intros Hne Hv Hs. revert from spans. induction fuel as [|fuel IH]; intros from spans Hfrom Hfuel.
  { destruct Hfrom. lia. }
  cbn [occurrences_from]. rewrite (proj2 (Nat.leb_le _ _)) by apply Hfrom.
  pose proof (find_bytes_spec needle (drop from s)) as Hfind. destruct (find_bytes needle (drop from s)) as [rel|].
  - destruct Hfind as (Hp & Hle & Hmin). rewrite drop_drop in Hp. set (begin := (from + rel)%nat) in *.
    destruct (occurrence_boundary _ _ _ Hne Hv Hs Hp) as [Hb _].
    destruct (drop begin s) as [|b l] eqn:Ed.
    { destruct Hp as [y Ey]. by destruct needle. }
    destruct (next_boundary s begin b l Hb Ed) as (Hnext & Hpos & Hbetween).
    rewrite IH by (done || lia). rewrite elem_of_app, list_elem_of_singleton. split.
    + intros [[?| ->]|(H1 & H2 & H3)]; [by left|right|right; split_and!; [lia|done..]].
      simpl. rewrite Ed. split_and!; [lia|done|done].
    + intros [?|(H1 & H2 & H3)]; [by left; left|]. destruct (decide (x.1 = begin)) as [E1|Hne1].
      { left. right. destruct x as [x1 x2]. simpl in *. by subst. }
      right. split_and!; [|done..]. destruct (decide (x.1 < begin)%nat) as [Hlt|Hge].
      { destruct (Hmin (x.1 - from)%nat); [lia|]. rewrite drop_drop. by replace (from + (x.1 - from))%nat with x.1 by lia. }
      destruct (decide (x.1 < begin + char_len b)%nat); [|lia]. by destruct (Hbetween x.1 needle ltac:(lia) Hne Hv).
  - split; [by left|]. intros [?|(H1 & _ & H3)]; [done|]. destruct (Hfind (x.1 - from)%nat). rewrite drop_drop.
    by replace (from + (x.1 - from))%nat with x.1 by lia.
Qed.

Lemma collect_occurrences_spec s needle spans x :
  needle ≠ [] → valid_utf8 needle = true → valid_utf8 s = true →
  x ∈ collect_occurrences s needle spans ↔ x ∈ spans ∨ x.2 = (x.1 + length needle)%nat ∧ needle `prefix_of` drop x.1 s.
Proof.
  intros Hne Hv Hs. unfold collect_occurrences. rewrite occurrences_from_spec by (done || by apply boundary_0 || lia).
  intuition lia.
Qed.

(** ** Merged spans *)

Lemma span_leb_total x y : span_leb x y = true ∨ span_leb y x = true.
Proof. unfold span_leb. rewrite !orb_true_iff, !andb_true_iff, !Nat.ltb_lt, !Nat.eqb_eq, !Nat.leb_le. lia. Qed.

(** Spans in order of their starts; each ends at or after its start. *)
Definition by_start (spans : list Span) : Prop := StronglySorted (λ x y, x.1 ≤ y.1)%nat spans.

Lemma sort_spans_by_start spans : by_start (sort_by span_leb spans).
Proof.
  unfold by_start. induction spans as [|x l IH]; simpl; [constructor|].
  induction IH as [|y m Hs IH Hy]; simpl; [by repeat constructor|].
  destruct (span_leb x y) eqn:E.
  - assert (x.1 ≤ y.1)%nat by (unfold span_leb in E; revert E; rewrite orb_true_iff, andb_true_iff, Nat.ltb_lt, Nat.eqb_eq; lia).
    constructor; [by constructor|]. constructor; [done|]. eapply Forall_impl; [done|]. simpl. lia.
  - constructor; [done|]. rewrite insert_by_perm. constructor; [|done].
    destruct (span_leb_total x y) as [?|H]; [congruence|]. unfold span_leb in H.
    revert H. rewrite orb_true_iff, andb_true_iff, Nat.ltb_lt, Nat.eqb_eq. lia.
Qed.

(** What the merged list, last first, is after some spans. *)
Record merged_inv (done acc : list Span) : Prop := {
  mi_cover : ∀ x, x ∈ done → ∃ m, m ∈ acc ∧ (m.1 ≤ x.1)%nat ∧ (x.2 ≤ m.2)%nat;
  mi_apart : StronglySorted (λ x y, y.2 < x.1)%nat acc;
  mi_wf : ∀ m, m ∈ acc → (m.1 ≤ m.2)%nat;
  mi_ends : ∀ m, m ∈ acc → ∃ x y, x ∈ done ∧ y ∈ done ∧ m.1 = x.1 ∧ m.2 = y.2;
}.

Lemma merge_span_inv done acc x :
  merged_inv done acc → (x.1 ≤ x.2)%nat → Forall (λ y, y.1 ≤ x.1)%nat done → merged_inv (done ++ [x]) (merge_span acc x).
Proof.
  intros [Hc Ha Hw He] Hx Hd. rewrite Forall_forall in Hd.
  assert (Hgrow : ∀ m, m ∈ acc → ∃ a b, a ∈ done ++ [x] ∧ b ∈ done ++ [x] ∧ m.1 = a.1 ∧ m.2 = b.2).
  { intros m Hm. destruct (He m Hm) as (a & b & ? & ? & ? & ?). exists a, b. set_solver. }
  destruct acc as [|m rest]; simpl.
  { split.
    - intros y Hy. exists x. apply elem_of_app in Hy as [Hy|Hy]; [destruct (Hc y Hy) as (? & ?%elem_of_nil & _); done|set_solver].
    - repeat constructor.
    - set_solver.
    - intros y Hy. exists x, x. set_solver. }
  apply StronglySorted_inv in Ha as [Har Ham]. rewrite Forall_forall in Ham.
  destruct (Nat.leb_spec x.1 m.2) as [Hle|Hgt].
  - destruct (Hgrow m ltac:(left)) as (a & b & Hina & Hinb & Ea & Eb). pose proof (Hw m ltac:(left)) as Hwm. split.
    + intros y [Hy|Hy%list_elem_of_singleton]%elem_of_app.
      * destruct (Hc y Hy) as (n & [->|Hn]%elem_of_cons & H1 & H2).
        -- exists (m.1, Nat.max m.2 x.2). simpl. split; [left|lia].
        -- exists n. split; [by right|done].
      * subst y. exists (m.1, Nat.max m.2 x.2). simpl. split; [left|]. destruct (He m ltac:(left)) as (a' & _ & Ha' & _ & E & _).
        specialize (Hd a' Ha'). lia.
    + constructor; [done|]. apply Forall_forall. intros n Hn. simpl. by apply Ham.
    + intros n [->|Hn]%elem_of_cons; [simpl; lia|]. apply Hw. by right.
    + intros n [->|Hn]%elem_of_cons; [|apply Hgrow; by right]. simpl.
      destruct (Nat.max_spec m.2 x.2) as [[_ ->]|[_ ->]]; [exists a, x|exists a, b]; set_solver.
  - split.
    + intros y [Hy|Hy%list_elem_of_singleton]%elem_of_app.
      * destruct (Hc y Hy) as (n & Hn & H1). exists n. split; [by right|done].
      * subst y. exists x. split; [left|done].
    + constructor; [by constructor; [|apply Forall_forall]|]. constructor; [done|]. apply Forall_forall. intros n Hn.
      specialize (Ham n Hn). pose proof (Hw m ltac:(left)). simpl in *. lia.
    + intros n [->|Hn]%elem_of_cons; [done|]. by apply Hw.
    + intros n [->|Hn]%elem_of_cons; [exists x, x; set_solver|by apply Hgrow].
Qed.

Lemma merge_spans_inv spans :
  by_start spans → Forall (λ x, x.1 ≤ x.2)%nat spans → merged_inv spans (foldl merge_span [] spans).
Proof.
  induction spans as [|x spans IH] using rev_ind.
  { intros _ _. split; [set_solver|constructor|set_solver|set_solver]. }
  intros Hs Hw. apply Forall_app in Hw as [Hw Hx]. rewrite Forall_singleton in Hx. rewrite foldl_app. simpl.
  assert (Hs' : by_start spans ∧ Forall (λ y, y.1 ≤ x.1)%nat spans).
  { clear IH Hw. unfold by_start in *. induction spans as [|y l IH]; [split; constructor|]. simpl in Hs.
    apply StronglySorted_inv in Hs as [Hs Hy]. apply Forall_app in Hy as [Hy Hyx]. rewrite Forall_singleton in Hyx.
    destruct (IH Hs) as [? ?]. split; by constructor. }
  apply merge_span_inv; [apply IH|..]; naive_solver.
Qed.

(** The merged spans in order: apart, from boundary to boundary. *)
Fixpoint chain (s : Bytes) (cursor : nat) (merged : list Span) : Prop :=
  match merged with
  | [] => True
  | (b, e) :: merged' => (cursor ≤ b)%nat ∧ (b ≤ e)%nat ∧ boundary s b ∧ boundary s e ∧ chain s e merged'
  end.

Lemma chain_intro s cursor merged :
  StronglySorted (λ x y, x.2 < y.1)%nat merged →
  Forall (λ m, (m.1 ≤ m.2)%nat ∧ boundary s m.1 ∧ boundary s m.2) merged →
  Forall (λ m, cursor ≤ m.1)%nat merged → chain s cursor merged.
Proof.
  intros Ha. revert cursor. induction Ha as [|[b e] l Ha IH Hb]; intros cursor Hw Hc; simpl; [done|].
  apply Forall_cons in Hw as [(? & ? & ?) Hw]. apply Forall_cons in Hc as [? _]. simpl in *. split_and!; [done..|].
  apply IH; [done|]. eapply Forall_impl; [exact Hb|]. simpl. lia.
Qed.

Lemma StronglySorted_rev {A} (R : A → A → Prop) l : StronglySorted (λ x y, R y x) l → StronglySorted R (rev l).
Proof.
  induction 1 as [|x l Hs IH Hx]; [constructor|]. simpl. clear Hs. rewrite Forall_forall in Hx.
  assert (Hx' : Forall (λ y, R y x) (rev l)).
  { apply Forall_forall. intros y Hy. apply Hx. rewrite list_elem_of_In in *. by apply in_rev. }
  clear Hx. induction IH as [|y m Hs IH2 Hy]; simpl; [by repeat constructor|].
  apply Forall_cons in Hx' as [? ?]. constructor; [auto|]. apply Forall_app. split; [done|by constructor].
Qed.

(** ** The mask *)

Lemma bullet_char : is_char bullet = true.
Proof. done. Qed.

Lemma REDACTED_valid : valid_utf8 REDACTED = true.
Proof. done. Qed.

Lemma bullets_valid n b : valid_utf8 b = true → valid_utf8 (concat (replicate n bullet) ++ b) = true.
Proof. intros Hb. induction n as [|n IH]; [done|]. cbn [replicate concat]. by rewrite <-app_assoc, valid_utf8_char. Qed.

(** A text without bullets that occurs around the mask occurs on one side. *)
Lemma occurs_around_bullets n v a b :
  v ≠ [] → valid_utf8 v = true → ¬ occurs bullet v → valid_utf8 a = true → valid_utf8 b = true →
  occurs v (a ++ concat (replicate (S n) bullet) ++ b) → occurs v a ∨ occurs v b.
Proof.
  intros Hne Hv Hb Ha Hvb. revert a Ha. induction n as [|n IH]; intros a Ha Ho.
  - by apply (occurs_around v a bullet b).
  - change (concat (replicate (S (S n)) bullet)) with (bullet ++ concat (replicate (S n) bullet)) in Ho.
    rewrite <-app_assoc in Ho. apply occurs_around in Ho as [Ho|Ho]; [by left| |done..|by apply bullets_valid].
    apply (IH [] eq_refl) in Ho as [Ho|Ho]; [by apply occurs_nil in Ho|by right].
Qed.

Lemma occurs_around_mask v a b :
  v ≠ [] → valid_utf8 v = true → ¬ occurs bullet v → valid_utf8 a = true → valid_utf8 b = true →
  occurs v (a ++ REDACTED ++ b) → occurs v a ∨ occurs v b.
Proof. apply (occurs_around_bullets 5). Qed.

(** The text between two boundaries. *)
Lemma slice_valid s i j : (i ≤ j)%nat → boundary s i → boundary s j → valid_utf8 (take (j - i) (drop i s)) = true.
Proof.
  intros Hij (Hi & Hti & Hdi) (Hj & Htj & Hdj).
  assert (E : drop i s = take (j - i) (drop i s) ++ drop j s).
  { rewrite <-(take_drop (j - i) (drop i s)) at 1. rewrite drop_drop. repeat f_equal. lia. }
  rewrite E in Hdi. by apply valid_utf8_split in Hdi as [? _]; [|apply valid_starts].
Qed.

Lemma mask_from_valid s cursor merged : boundary s cursor → chain s cursor merged → valid_utf8 (mask_from s cursor merged) = true.
Proof.
  revert cursor. induction merged as [|[b e] merged IH]; intros cursor Hc; cbn [mask_from chain]; [intros _; apply Hc|].
  intros (H1 & H2 & Hb & He & Hch). rewrite valid_utf8_app by by apply slice_valid.
  rewrite valid_utf8_app by apply REDACTED_valid. by apply IH.
Qed.

(** What survives the mask is an occurrence in the text that no span meets. *)
Lemma mask_from_occurs v s cursor merged :
  v ≠ [] → valid_utf8 v = true → ¬ occurs bullet v → boundary s cursor → chain s cursor merged →
  occurs v (mask_from s cursor merged) →
  ∃ i, (cursor ≤ i)%nat ∧ v `prefix_of` drop i s ∧ ∀ m, m ∈ merged → (i + length v ≤ m.1 ∨ m.2 ≤ i)%nat.
Proof.
  intros Hne Hv Hnb. revert cursor. induction merged as [|[b e] merged IH]; intros cursor Hc Hch Ho; cbn [mask_from] in Ho.
  - destruct Ho as (x & y & E). exists (cursor + length x)%nat. split_and!; [lia| |set_solver].
    rewrite <-drop_drop, E, drop_app_length. by apply prefix_app_r.
  - destruct Hch as (H1 & H2 & Hb & He & Hch). apply occurs_around_mask in Ho as [(x & y & E)|Ho]; [..|done|done|done| |].
    + assert (Hlen : (cursor + length x + length v ≤ b)%nat).
      { apply (f_equal length) in E. rewrite length_take, !length_app in E. lia. }
      exists (cursor + length x)%nat. split_and!; [lia| |].
      * rewrite <-drop_drop, <-(take_drop (b - cursor) (drop cursor s)), E, <-!app_assoc, drop_app_length. by apply prefix_app_r.
      * assert (Hall : ∀ m, m ∈ (b, e) :: merged → (b ≤ m.1)%nat).
        { intros m [->|Hm]%elem_of_cons; [done|]. clear -Hch Hm H2. revert b e H2 Hch.
          induction merged as [|[b2 e2] l IH]; intros b e H2 Hch; [by apply elem_of_nil in Hm|].
          destruct Hch as (K1 & K2 & _ & _ & Hch). apply elem_of_cons in Hm as [->|Hm]; [simpl; lia|].
          specialize (IH Hm b2 e2 K2 Hch). lia. }
        intros m Hm. left. specialize (Hall m Hm). lia.
    + destruct (IH e He Hch Ho) as (i & Hi & Hp & Hm). exists i. split_and!; [lia|done|].
      intros m [->|Hin]%elem_of_cons; [right; simpl; lia|by apply Hm].
    + by apply slice_valid.
    + by apply mask_from_valid.
Qed.

(** ** [redact_secrets_in_str] *)

Section redact.
Context (to_string : Bytes → option Bytes) (debug : Bytes → Bytes).
(** Both return a [String], which is valid UTF-8. *)
Hypothesis to_string_valid : ∀ x y, valid_utf8 x = true → to_string x = Some y → valid_utf8 y = true.
Hypothesis debug_valid : ∀ x, valid_utf8 x = true → valid_utf8 (debug x) = true.

(** The forms a secret is searched for in. *)
Definition forms (secret : Bytes) : list Bytes :=
  secret :: option_list (json_escaped to_string secret) ++ [debug_escaped debug secret].

Lemma strip_quotes_valid x : valid_utf8 x = true → valid_utf8 (strip_quotes x) = true.
Proof.
  destruct x as [|c x]; [done|]. simpl strip_quotes. case_match eqn:E; [|done].
  apply andb_true_iff in E as [->%bool_decide_eq_true Hl%bool_decide_eq_true]. intros Hv.
  change (quote :: x) with ([quote] ++ x) in Hv. rewrite valid_utf8_char in Hv by done.
  apply last_Some in Hl as [x' ->]. rewrite length_app. simpl. rewrite Nat.add_sub, take_app_length.
  by apply valid_utf8_split in Hv as [? _].
Qed.

Lemma forms_valid secret w : valid_utf8 secret = true → w ∈ forms secret → valid_utf8 w = true.
Proof.
  intros Hs. unfold forms, json_escaped, debug_escaped. rewrite elem_of_cons, elem_of_app, list_elem_of_singleton.
  intros [->|[Hw| ->]]; [done| |by apply strip_quotes_valid, debug_valid].
  destruct (to_string secret) as [y|] eqn:E; [|by apply elem_of_nil in Hw].
  apply list_elem_of_singleton in Hw as ->. eapply strip_quotes_valid, to_string_valid; eauto.
Qed.

(** A span at which a form occurs. *)
Definition found (s w : Bytes) (x : Span) : Prop := w ≠ [] ∧ x.2 = (x.1 + length w)%nat ∧ w `prefix_of` drop x.1 s.

Lemma search_more (c : bool) s w spans x :
  valid_utf8 s = true → valid_utf8 w = true → (c = true → w ≠ []) →
  x ∈ (if c then collect_occurrences s w spans else spans) ↔ x ∈ spans ∨ c = true ∧ found s w x.
Proof.
  intros Hs Hw Hc. destruct c; [|naive_solver]. rewrite collect_occurrences_spec by auto. unfold found. naive_solver.
Qed.

(** The spans of one secret: the occurrences of each of its forms. *)
Lemma secret_spans_spec s spans secret x :
  valid_utf8 s = true → valid_utf8 secret = true →
  x ∈ secret_spans to_string debug s spans secret ↔
  x ∈ spans ∨ secret ≠ [] ∧ ∃ w, w ∈ forms secret ∧ found s w x.
Proof.
  intros Hs Hv. unfold secret_spans. case_bool_decide as Hne; [naive_solver|].
  pose proof (λ w, forms_valid secret w Hv) as Hforms. unfold forms in *.
  set (d := debug_escaped debug secret) in *. set (jo := json_escaped to_string secret) in *.
  assert (Hd : valid_utf8 d = true) by (apply Hforms; set_solver).
  assert (Hj : ∀ sp, x ∈ (match jo with
      | Some escaped => if negb (escaped ==? secret) && negb (bool_decide (escaped = []))
          then collect_occurrences s escaped sp else sp
      | None => sp end) ↔ x ∈ sp ∨ ∃ j, jo = Some j ∧ j ≠ secret ∧ found s j x).
  { intros sp. destruct jo as [j|] eqn:Ej; [|naive_solver]. rewrite search_more.
    - rewrite andb_true_iff, !negb_true_iff, !bool_decide_eq_false. unfold found. naive_solver.
    - done.
    - apply Hforms. set_solver.
    - rewrite andb_true_iff, !negb_true_iff, !bool_decide_eq_false. naive_solver. }
  rewrite search_more by
    (done || (rewrite !andb_true_iff, !negb_true_iff, !bool_decide_eq_false; naive_solver)).
  rewrite Hj, collect_occurrences_spec by done.
  rewrite !andb_true_iff, !negb_true_iff, !bool_decide_eq_false. split.
  - intros [[[?|Hx]|(j & Ej & _ & Hx)]|[_ Hx]]; [by left|right; split; [done|]..].
    + exists secret. split; [left|done].
    + exists j. rewrite Ej. split; [set_solver|done].
    + exists d. split; [set_solver|done].
  - intros [?|[_ (w & Hw & Hx)]]; [by left; left; left|].
    assert (Hsec : found s secret x → x.2 = (x.1 + length secret)%nat ∧ secret `prefix_of` drop x.1 s) by (unfold found; tauto).
    assert (Hfj : ∀ j, jo = Some j → found s j x → (x ∈ spans ∨ x.2 = (x.1 + length secret)%nat ∧ secret `prefix_of` drop x.1 s)
        ∨ ∃ j, jo = Some j ∧ j ≠ secret ∧ found s j x).
    { intros j Ej Hf. destruct (decide (j = secret)) as [->|]; [left; right; auto|right; eauto]. }
    rewrite elem_of_cons, elem_of_app, list_elem_of_singleton in Hw. destruct Hw as [->|[Hw| ->]].
    + left. left. right. auto.
    + destruct jo as [j|]; [|by apply elem_of_nil in Hw]. apply list_elem_of_singleton in Hw as ->. left. by apply (Hfj j).
    + destruct (decide (d = secret)) as [Ed|]; [left; left; right; rewrite Ed in Hx; auto|].
      destruct (decide (Some d = jo)) as [Ed|]; [left; by apply (Hfj d)|].
      right. split; [|done]. split_and!; [done|done|apply Hx].
Qed.

Lemma all_spans_spec s spans secrets x :
  valid_utf8 s = true → Forall (λ v, valid_utf8 v = true) secrets →
  x ∈ foldl (secret_spans to_string debug s) spans secrets ↔
  x ∈ spans ∨ ∃ secret w, secret ∈ secrets ∧ secret ≠ [] ∧ w ∈ forms secret ∧ found s w x.
Proof.
  intros Hs Hv. revert spans. induction Hv as [|secret secrets Hv _ IH]; intros spans; simpl.
  { split; [by left|]. intros [?|(k & w & ?%elem_of_nil & _)]; done. }
  rewrite IH, secret_spans_spec by done. setoid_rewrite elem_of_cons. clear. split.
  - intros [[?|[? (w & ? & ?)]]|(k & w & ? & ?)]; [by left|right; exists secret, w; tauto|right; exists k, w; tauto].
  - intros [?|(k & w & [->|?] & ? & ? & ?)]; [by left; left|left; right; eauto|right; exists k, w; tauto].
Qed.

(** The merged spans of a text. *)
Lemma merged_chain s secrets :
  valid_utf8 s = true → Forall (λ v, valid_utf8 v = true) secrets →
  let merged := merge_spans (sort_by span_leb (foldl (secret_spans to_string debug s) [] secrets)) in
  chain s 0 merged ∧
  ∀ x, x ∈ foldl (secret_spans to_string debug s) [] secrets → ∃ m, m ∈ merged ∧ (m.1 ≤ x.1)%nat ∧ (x.2 ≤ m.2)%nat.
Proof.
  intros Hs Hv merged. set (spans := foldl (secret_spans to_string debug s) [] secrets) in *.
  assert (Hsp : ∀ x, x ∈ spans → (x.1 ≤ x.2)%nat ∧ boundary s x.1 ∧ boundary s x.2).
  { intros x Hx. apply all_spans_spec in Hx as [?%elem_of_nil|(secret & w & Hin & _ & Hw & Hne & E & Hp)]; [done| |done..].
    rewrite Forall_forall in Hv. destruct (occurrence_boundary w s x.1) as [H1 H2]; [done|by apply (forms_valid secret); [apply Hv|]|done..|].
    rewrite E. split; [lia|done]. }
  destruct (merge_spans_inv (sort_by span_leb spans)) as [Hc Ha Hw He].
  { apply sort_spans_by_start. }
  { apply Forall_forall. intros x Hx%elem_of_sort_by. by apply Hsp. }
  assert (Hrev : ∀ m, m ∈ merged ↔ m ∈ foldl merge_span [] (sort_by span_leb spans)).
  { intros m. unfold merged, merge_spans. rewrite !list_elem_of_In. symmetry. apply in_rev. }
  split.
  - apply chain_intro.
    + by apply StronglySorted_rev.
    + apply Forall_forall. intros m Hm. apply Hrev in Hm. split; [by apply Hw|].
      destruct (He m Hm) as (x & y & Hx%elem_of_sort_by & Hy%elem_of_sort_by & -> & ->). split; by apply Hsp.
    + apply Forall_forall. intros. lia.
  - intros x Hx. destruct (Hc x) as (m & Hm & ?); [by apply elem_of_sort_by|]. exists m. by rewrite Hrev.
Qed.

(** The mask itself holds no text without bullets. *)
Lemma mask_clean w : w ≠ [] → valid_utf8 w = true → ¬ occurs bullet w → ¬ occurs w REDACTED.
Proof.
  intros Hne Hv Hb Ho. assert (Ho' : occurs w ([] ++ REDACTED ++ [])) by by rewrite app_nil_r.
  by apply occurs_around_mask in Ho' as [H|H]; [by apply occurs_nil in H..| | | | |].
Qed.

Lemma redact_bytes_spec s secrets :
  valid_utf8 s = true → Forall (λ v, valid_utf8 v = true) secrets →
  let out := redact_bytes to_string debug s secrets in
  valid_utf8 out = true ∧
  (∀ secret w, secret ∈ secrets → secret ≠ [] → w ∈ forms secret → w ≠ [] → ¬ occurs bullet w → ¬ occurs w out) ∧
  ((∀ secret w, secret ∈ secrets → secret ≠ [] → w ∈ forms secret → w ≠ [] → ¬ occurs w s) → out = s).
Proof.
  intros Hs Hv out. pose proof (all_spans_spec s [] secrets) as Hsp. destruct (merged_chain s secrets Hs Hv) as [Hch Hcov].
  unfold redact_bytes in out. set (spans := foldl (secret_spans to_string debug s) [] secrets) in *.
  pose proof (boundary_0 s Hs) as H0.
  assert (Hfound : ∀ secret w x y, secret ∈ secrets → secret ≠ [] → w ∈ forms secret → w ≠ [] → s = x ++ w ++ y →
    (length x, length x + length w)%nat ∈ spans).
  { intros secret w x y Hin Hne Hw Hwn E. apply Hsp; [done..|]. right. exists secret, w. split_and!; [done..|].
    unfold found. simpl. split_and!; [done..|]. rewrite E, drop_app_length. by apply prefix_app_r. }
  subst out. case_bool_decide as Hnil.
  - split_and!; [done| |done]. intros secret w Hin Hne Hw Hwn _ (x & y & E).
    pose proof (Hfound _ _ _ _ Hin Hne Hw Hwn E) as H. rewrite Hnil in H. by apply elem_of_nil in H.
  - split_and!.
    + by apply mask_from_valid.
    + intros secret w Hin Hne Hw Hwn Hb Ho. rewrite Forall_forall in Hv.
      apply mask_from_occurs in Ho as (i & _ & Hp & Hm); [|done|by apply (forms_valid secret); [apply Hv|]|done..].
      destruct (Hcov (i, i + length w)%nat) as (m & Hmm & H1 & H2).
      { apply Hsp; [done|by apply Forall_forall|]. right. exists secret, w. by split_and!. }
      simpl in *. specialize (Hm m Hmm). destruct w; [done|]. simpl in *. lia.
    + intros Hclean. destruct Hnil. destruct spans as [|x l] eqn:El; [done|]. exfalso.
      assert (Hx : x ∈ x :: l) by left. apply Hsp in Hx as [?%elem_of_nil|(secret & w & Hin & Hne & Hw & Hwn & _ & [y E])]; [done| |done..].
      eapply (Hclean secret w); [done..|]. exists (take x.1 s), y. by rewrite <-E, take_drop.
Qed.
(** No form of a secret is left in a redacted text: whatever the secrets, how
    they overlap and where they occur, the output of [redact_secrets_in_str]
    is text, and no non-empty value (nor its JSON or [Debug] escape) occurs in
    it, one with the mask's own character excepted; a text in which no form
    occurs is returned unchanged. *)
Theorem redact_leaves_no_secret s secrets :
  valid_utf8 s = true → Forall (λ v, valid_utf8 v = true) secrets →
  let out := redact_bytes to_string debug s secrets in
  valid_utf8 out = true ∧
  (∀ secret w, secret ∈ secrets → secret ≠ [] → w ∈ forms secret → w ≠ [] → ¬ occurs bullet w → ¬ occurs w out) ∧
  ((∀ secret w, secret ∈ secrets → secret ≠ [] → w ∈ forms secret → w ≠ [] → ¬ occurs w s) → out = s).
Proof. apply redact_bytes_spec. Qed.
End redact.

(** ** Trees *)

(** The strings of a tree: its values, not the keys of its objects. *)
Fixpoint strings (v : json) : list string :=
  match v with
  | JString s => [s]
  | JObject m => concat (map (λ p, strings p.2) m)
  | JArray l => concat (map strings l)
  | _ => []
  end.

Lemma strings_map_strings f v : strings (map_strings f v) = f <$> strings v.
Proof.
  induction v as [| | | |l H|m H] using json_ind'; try done; simpl; rewrite map_map.
  - induction H as [|x l Hx _ IHl]; [done|]. simpl. by rewrite Hx, IHl, fmap_app.
  - induction H as [|[k x] m Hx _ IHm]; [done|]. simpl in *. by rewrite Hx, IHm, fmap_app.
Qed.

(** The fields of a served job that hold identifiers, links, timestamps and
    enums, named one by one: the fields of the job, of an entry of its steps,
    and of an entry of its input files. Every other field is content: the
    input and output, errors, the labels and names a user wrote. *)
Definition job_identifiers : list string :=
  ["job_id"; "workspace"; "task_name"; "task_folder"; "mode"; "status"; "revision"; "ref"; "worker_id";
   "source_type"; "source_id"; "source_job_id"; "restart_from_step"; "restart_from_steps";
   "parent_job_id"; "parent_step_name"; "derived_jobs";
   "retry_of_job_id"; "retry_job_id"; "retry_attempt"; "max_retries";
   "created_at"; "started_at"; "completed_at"].
Definition step_identifiers : list string :=
  ["step_name"; "action_name"; "action_type"; "runner"; "status"; "skip_reason"; "carried_over"; "depends_on"; "worker_id";
   "started_at"; "completed_at"; "suspended_at"; "retry_at"; "retry_attempt"; "max_retries";
   "loop_source"; "loop_index"; "loop_total"; "child_jobs";
   "action_workspace"; "action_ref"; "action_revision"; "task_workspace"; "task_ref"; "task_revision";
   "job_id"; "workspace"; "task_name"; "job_status"].
Definition input_file_identifiers : list string := ["field"; "file_id"].

(** The values of a serialised job that are content. *)
Definition object_content (skip : list string) (v : json) : list json :=
  match v with
  | JObject m => concat (map (λ p : string * json, if bool_decide (p.1 ∈ skip) then [] else [p.2]) m)
  | other => [other]
  end.
Definition entries_content (skip : list string) (v : json) : list json :=
  match v with JArray l => concat (map (object_content skip) l) | other => [other] end.
Definition job_content (job : json) : list json :=
  match job with
  | JObject m => concat (map (λ p : string * json,
      if p.1 ==? "steps" then entries_content step_identifiers p.2
      else if p.1 ==? "input_files" then entries_content input_file_identifiers p.2
      else if bool_decide (p.1 ∈ job_identifiers) then [] else [p.2]) m)
  | _ => [job]
  end.

(** The keys the walk passes over are those. *)
Definition same_keys (l l' : list string) : bool :=
  forallb (λ k, bool_decide (k ∈ l')) l && forallb (λ k, bool_decide (k ∈ l)) l'.

Lemma same_keys_iff l l' k : same_keys l l' = true → k ∈ l ↔ k ∈ l'.
Proof.
  unfold same_keys. rewrite andb_true_iff, !forallb_forall. intros [H1 H2].
  split; intros Hk%list_elem_of_In; [apply H1 in Hk|apply H2 in Hk]; by apply bool_decide_eq_true in Hk.
Qed.

Lemma job_keys k : k ∈ JOB_IDENTIFIER_KEYS ↔ k ∈ job_identifiers.
Proof. apply same_keys_iff. by vm_compute. Qed.
Lemma step_keys k : k ∈ STEP_IDENTIFIER_KEYS ↔ k ∈ step_identifiers.
Proof. apply same_keys_iff. by vm_compute. Qed.
Lemma input_file_keys k : k ∈ INPUT_FILE_IDENTIFIER_KEYS ↔ k ∈ input_file_identifiers.
Proof. apply same_keys_iff. by vm_compute. Qed.

(** A visitor that keeps arrays arrays and objects objects. *)
Definition keeps_shape (f : json → json) : Prop :=
  ∀ v, match v, f v with
       | JArray _, JArray _ | JObject _, JObject _ => True
       | JArray _, _ | JObject _, _ | _, JArray _ | _, JObject _ => False
       | _, _ => True
       end.

Lemma map_strings_keeps_shape g : keeps_shape (map_strings g).
Proof. by intros []. Qed.

Section content.
Context (f : json → json) (Hf : keeps_shape f).

(** A value the walk visits whole. *)
Ltac visited :=
  match goal with |- context [f ?v] => generalize (Hf v); simpl; destruct (f v); intros []; done end.

Lemma object_content_walk skip keys v :
  (∀ k, k ∈ keys ↔ k ∈ skip) → object_content skip (walk_object_except keys f v) = f <$> object_content skip v.
Proof.
  intros Hk. destruct v as [| | | |l|m]; simpl; [visited..|].
  induction m as [|[k x] m IH]; [done|]. simpl. rewrite fmap_app, <-IH, (bool_decide_ext _ _ (Hk k)). by case_bool_decide.
Qed.

Lemma entries_content_walk skip keys v :
  (∀ k, k ∈ keys ↔ k ∈ skip) → entries_content skip (walk_entries keys f v) = f <$> entries_content skip v.
Proof.
  intros Hk. destruct v as [| | | |l|m]; simpl; [visited..| |visited].
  induction l as [|x l IH]; [done|]. simpl. by rewrite (object_content_walk _ _ _ Hk), fmap_app, <-IH.
Qed.

(** The walk applies the visitor to every content value, once. *)
Lemma job_content_walk job : job_content (walk_job_content f job) = f <$> job_content job.
Proof.
  destruct job as [| | | |l|m]; [simpl; visited..|]. cbn [walk_job_content job_content].
  induction m as [|[k x] m IH]; [done|]. cbn [map concat fst snd]. rewrite fmap_app, <-IH.
  rewrite (bool_decide_ext _ _ (job_keys k)). repeat case_bool_decide;
    rewrite ?(entries_content_walk _ _ _ step_keys), ?(entries_content_walk _ _ _ input_file_keys); done.
Qed.
End content.

(** ** Outlets *)

(** A [String]. *)
Definition text (s : string) : Prop := valid_utf8 (bytes s) = true.

Section outlets.
Context (to_string : Bytes → option Bytes) (debug : Bytes → Bytes).
Hypothesis to_string_valid : ∀ x y, valid_utf8 x = true → to_string x = Some y → valid_utf8 y = true.
Hypothesis debug_valid : ∀ x, valid_utf8 x = true → valid_utf8 (debug x) = true.

(** A redaction that covers a secret: it masks it, or everything. *)
Definition masks (r : JobRedaction) (secret : string) : Prop :=
  match r with Values secrets => Forall text secrets ∧ secret ∈ secrets | MaskAll => True end.

Lemma apply_str_clean r secret w s :
  masks r secret → text secret → secret ≠ "" → text s →
  w ∈ forms to_string debug (bytes secret) → w ≠ [] → ¬ occurs bullet w →
  ¬ occurs w (bytes (apply_str to_string debug r s)).
Proof.
  intros Hr Ht Hne Hs Hw Hwn Hb. pose proof (forms_valid _ _ to_string_valid debug_valid _ _ Ht Hw) as Hwv.
  assert (Hmask : ¬ occurs w (bytes MASK)) by (unfold MASK; rewrite bytes_of_bytes; by apply mask_clean).
  destruct r as [secrets|]; [|done]. simpl. unfold redact_str. destruct (String.prefix "ref+" s); [done|].
  unfold redact_secrets_in_str. rewrite bytes_of_bytes. destruct Hr as [Hall Hin].
  destruct (redact_bytes_spec _ _ to_string_valid debug_valid (bytes s) (bytes <$> secrets)) as (_ & Hclean & _); [done| |].
  { by apply Forall_fmap. }
  apply (Hclean (bytes secret)); try done; [by apply list_elem_of_fmap_2|]. by destruct secret.
Qed.

(** The strings of a served job's content are masked strings of its content. *)
Lemma response_strings r job v s :
  v ∈ job_content (apply_job_response to_string debug r job) → s ∈ strings v →
  ∃ v0 s0, v0 ∈ job_content job ∧ s0 ∈ strings v0 ∧ s = apply_str to_string debug r s0.
Proof.
  assert (E : job_content (apply_job_response to_string debug r job) = apply_value to_string debug r <$> job_content job).
  { destruct r; apply job_content_walk, map_strings_keeps_shape. }
  rewrite E. intros (v0 & -> & Hv0)%list_elem_of_fmap Hs.
  assert (Ev : strings (apply_value to_string debug r v0) = apply_str to_string debug r <$> strings v0)
    by (destruct r; apply strings_map_strings).
  rewrite Ev in Hs. apply list_elem_of_fmap in Hs as (s0 & -> & Hs0). eauto.
Qed.
End outlets.
