(* ===== verification/JobCreator.v ===== *)
(** * Job creation

    [crates/stroem-server/src/job_creator.rs]: the rows a task's flow becomes
    and the transaction that writes a job, with the repository of
    [job_ref_pin] ([crates/stroem-db/src/repos/job_ref_pin.rs]) and the columns
    [validation.rs] derives from an action. Name resolution is in [Refs],
    connection inputs in [Connections]. The initialisation after the commit
    ([settlement::dispatch::init]) is a parameter. *)
From S2P Require Import Prelude Json Text GitRef Workflow DependsOn JobModel Db StepRepo JobRepo Pins Retry Restart FileField InputFiles TemplateError Errors Engine JsonField Connections WorkspaceSet Refs Manager.

(** ** [validation.rs] *)

Definition compute_required_ability (action : ActionDef) : string :=
  let t := a_action_type action in
  if (t ==? "task") || (t ==? "approval") then ""
  else if t ==? "agent" then "agent"
  else if t ==? "script" then
    match a_runner action with
    | Some r => if r ==? "docker" then "docker" else if r ==? "pod" then "kubernetes" else "script"
    | None => "script"
    end
  else if t ==? "docker" then "docker"
  else if t ==? "pod" then "kubernetes"
  else "script".

(** Each tag once, in order. *)
Definition compute_required_tags (action : ActionDef) : list string :=
  if (a_action_type action ==? "task") || (a_action_type action ==? "approval") then []
  else fold_left (λ tags t, if bool_decide (t ∈ tags) then tags else tags ++ [t]) (a_tags action) [].

Definition derive_runner (action : ActionDef) : string :=
  let t := a_action_type action in
  if t ==? "script" then default "local" (a_runner action)
  else if (t ==? "docker") || (t ==? "pod") then "none"
  else if (t ==? "task") || (t ==? "agent") || (t ==? "approval") then "none"
  else "local".

Fixpoint check_dependency_shapes (task_name : string) (steps : list (string * FlowStep)) : result AnyError unit :=
  match steps with
  | [] => Ok ()
  | (step_name, step) :: rest =>
      if bool_decide (is_Some (legacy_continue_when_skipped step)) then
        bail ("Task '" +:+ task_name +:+ "' step '" +:+ step_name +:+
              "': continue_when_skipped was removed in 0.18.0; see the 0.18 upgrade guide to choose the right `accept` set for this step's dependents — it depends on what else was present on this dependency.")
      else match validate_tree (depends_on step) with
           | Err tree_errors => bail ("Task '" +:+ task_name +:+ "' step '" +:+ step_name +:+ "': " +:+ str_join "; " tree_errors)
           | Ok _ => check_dependency_shapes task_name rest
           end
  end.
Definition validate_task_dependency_shape `{HashIter} (task_name : string) (task : TaskDef) : result AnyError unit :=
  check_dependency_shapes task_name (hash_iter (flow task)).

(** ** [JobRefPinRepo] *)

Definition same_pin_key (a b : RefPinRec) : bool :=
  (rp_job_id a ==? rp_job_id b) && (rp_workspace a ==? rp_workspace b) && (rp_git_ref a ==? rp_git_ref b).

(** [INSERT … ON CONFLICT DO NOTHING] *)
Definition insert_pin (t : list RefPinRec) (r : RefPinRec) : list RefPinRec :=
  if existsb (same_pin_key r) t then t else t ++ [r].
Definition insert_many_tx (rows : list RefPinRec) (db : Db) : Db :=
  with_ref_pin (fold_left insert_pin rows (db_ref_pin db)) db.

Definition pin_get (job_id : Uuid) (workspace git_ref : string) (db : Db) : option string :=
  rp_commit <$> List.find (same_pin_key (mkRefPinRec job_id workspace git_ref "")) (db_ref_pin db).

Definition insert_first_wins (job_id : Uuid) (workspace git_ref commit : string) (db : Db) : Db * result string string :=
  let db' := insert_many_tx [mkRefPinRec job_id workspace git_ref commit] db in
  (db', match pin_get job_id workspace git_ref db' with
        | Some c => Ok c
        | None => Err "job_ref_pin entry missing right after its insert"
        end).

(** The order of the two text columns is the collation's; no use of the list
    depends on it. *)
Definition pins_for_job (job_id : Uuid) (db : Db) : list RefPinRec :=
  List.filter (λ r, rp_job_id r ==? job_id) (db_ref_pin db).

(** ** Replay *)

Fixpoint replay_loop (schema : gmap string InputFieldDef) (source_raw : json) (names : list string) (map : jmap)
    : result ReplayFieldsError jmap :=
  match names with
  | [] => Ok map
  | name :: rest =>
      match schema !! name with
      | None => Err UnknownField
      | Some def =>
          if bool_decide (is_Some (json_map_lookup name map)) then Err (AlsoInInput name)
          else match json_get name source_raw with
               | Some v => replay_loop schema source_raw rest (json_map_insert name v map)
               | None =>
                   if if_required def && negb (bool_decide (is_Some (if_default def))) then Err (MissingRequired name)
                   else replay_loop schema source_raw rest map
               end
      end
  end.

(** The input is an object from the first name on. *)
Definition apply_replay_fields (input : json) (replay_fields : list string) (source_raw : json) (schema : gmap string InputFieldDef)
    : result ReplayFieldsError json :=
  if bool_decide (replay_fields = []) then Ok input
  else res_map JObject (replay_loop schema source_raw replay_fields (entries input)).

(** ** Rows *)

Record JobDefaults := mkDefaults {
  step_timeout_secs : option Z;
  job_timeout_secs : option Z;
  input_storage : bool;
}.

(** An error, or the panic of an [expect]. *)
Inductive Fault := Erred (e : AnyError) | Panics.
Definition fails {A} (r : result AnyError A) : result Fault A := res_map_err Erred r.
Definition panics {A} (o : option A) : result Fault A := match o with Some a => Ok a | None => Err Panics end.
Definition mfails {A} (m : M A) : MT Fault A := λ st, fails (m st).

Record TaskPinStamp := mkStamp { tp_workspace : string; tp_git_ref : string; tp_commit : string }.

(** The serde encoding of an action ([None] on its error), and the compact
    text of a value. *)
Class Serde := {
  action_to_value : ActionDef → option json;
  value_to_string : json → string;
}.

(** [timeout.map(|d| i32::try_from(..).expect(..)).or(default)] *)
Definition timeout_or (timeout default_secs : option Z) : result Fault (option Z) :=
  match timeout with
  | Some d => res_map Some (panics (i32_try_from d))
  | None => Ok default_secs
  end.
Definition step_timeout (flow_step : FlowStep) (defaults : JobDefaults) : result Fault (option Z) :=
  timeout_or (fs_timeout flow_step) (step_timeout_secs defaults).

Definition for_each_text `{Serde} (flow_step : FlowStep) : option string :=
  (λ v, match v with JString s => s | other => value_to_string other end) <$> for_each flow_step.

Definition initial_status (flow_step : FlowStep) : StepStatus :=
  if bool_decide (is_Some (for_each flow_step)) then StepPending
  else if bool_decide (depends_on flow_step = []) && negb (bool_decide (is_Some (when_ flow_step))) then StepReady
  else StepPending.

Section rows.
Context `{Workspaces, HashIter, Tera, JsonParser, Serde}.

Definition build_step (job_id : Uuid) (step_name action_name : string) (flow_step : FlowStep) (action : ActionDef) (input : option json)
    (status : StepStatus) (defaults : JobDefaults) (action_workspace action_revision action_ref : option string)
    (task_pin : option TaskPinStamp) : result Fault NewJobStep :=
  let? retry := panics (retry_cols (resolve_step_retry_config flow_step (a_retry action))) in
  let? timeout := step_timeout flow_step defaults in
  Ok (mkNewJobStep job_id step_name action_name (a_action_type action) (a_image action) (action_to_value action) input
        (StepStatus.as_ref status) (compute_required_ability action) (compute_required_tags action) (derive_runner action)
        timeout (when_ flow_step) (for_each_text flow_step) None None None None
        (rc_max_retries retry) (rc_backoff_secs retry) (rc_strategy retry) (rc_jitter retry)
        action_workspace action_revision action_ref
        (tp_workspace <$> task_pin) (tp_git_ref <$> task_pin) (tp_commit <$> task_pin) None).

(** What every step of one creation resolves against. *)
Record StepRowCtx := mkRowCtx {
  rx_job_id : Uuid;
  rx_workspace_name : string;
  rx_workspace_config : WorkspaceConfig;
  rx_task_name : string;
  rx_job_pin : option PinRef;
  rx_ws_set : WorkspaceSet;
  rx_defaults : JobDefaults;
}.

(** The literal connection names of a step: [(schema, values)]. *)
Definition literal_connections (flow_step : FlowStep) (action : ActionDef) : gmap string InputFieldDef * jmap :=
  fold_left
    (λ '(schema, vals) '(field, def),
      if is_primitive def then (schema, vals)
      else match fs_input flow_step !! field with
           | Some (JString s) =>
               if looks_templated s then (schema, vals)
               else (<[field := def]> schema, json_map_insert field (JString s) vals)
           | _ => (schema, vals)
           end)
    (hash_iter (a_input action)) (∅, []).

Definition precheck_literal_connection_inputs (step_name : string) (flow_step : FlowStep) (action : ActionDef) (roles : RoleScope)
    : result AnyError unit :=
  if bool_decide (is_Some (when_ flow_step)) then Ok ()
  else
    let '(literal_schema, literal_values) := literal_connections flow_step action in
    if bool_decide (literal_schema = ∅) then Ok ()
    else
      let owner := default (caller roles) (action_owner roles) in
      let? _ := ctx (LMsg ("step '" +:+ step_name +:+ "': failed to resolve connection inputs"))
                  (resolve_bucket_by_role (JObject literal_values) literal_schema (caller roles) owner (others roles)) in
      Ok ().

(** The literal values of a task's connection-typed inputs. *)
Definition task_literals (flow_step : FlowStep) (task : TaskDef) : jmap :=
  fold_left
    (λ literals '(field, def),
      if is_primitive def then literals
      else match fs_input flow_step !! field with
           | Some (JString s) => if looks_templated s then literals else json_map_insert field (JString s) literals
           | Some v => json_map_insert field v literals
           | None => literals
           end)
    (hash_iter (td_input task)) [].

(** Configs are borrowed from three places: the job's (address 0), the
    action owner's (1) and the task owner's (2). *)
Definition precheck_task_step_literals (step_name : string) (flow_step : FlowStep) (resolved : ResolvedTask) (caller : RoleConfig)
    (base_addr : N) (base_cfg : WorkspaceConfig) : M unit :=
  if bool_decide (is_Some (when_ flow_step)) then mret ()
  else
    let literals := task_literals flow_step (rk_task resolved) in
    if bool_decide (length literals = 0%nat) then mret ()
    else
      let t_cfg := resolved_config resolved base_cfg in
      let t_addr := match rk_config resolved with Base => base_addr | Foreign _ => 2%N end in
      let! set := load_set (rk_workspace resolved) (Some t_cfg) in
      let roles := mkRoles caller None (Some (mkRole (rk_workspace resolved) t_addr t_cfg)) (set_lookup set) in
      let! _ := mlift (ctx (LMsg ("step '" +:+ step_name +:+ "': failed to resolve connection inputs"))
                  (resolve_task_input_by_provenance_roles (JObject literals) (JObject []) (td_input (rk_task resolved)) roles)) in
      mret ().

(** The pin of the config the action is written in. *)
Definition base_pin_of (action_pin : option PinRef) (action_workspace : option string) (job_pin : option PinRef) : option PinRef :=
  match action_pin, action_workspace with
  | Some p, _ => Some p
  | None, None => job_pin
  | None, Some _ => None
  end.

(** The task pin of a [type: task] step. *)
Definition resolve_task_stamp (x : StepRowCtx) (step_name : string) (flow_step : FlowStep) (sa : StepAction) : M (option TaskPinStamp) :=
  match a_task (sa_action sa) with
  | None => mlift (bail "type: task action missing task field")
  | Some task_ref =>
      match a_git_ref (sa_action sa), bool_decide (classify_ref <$> a_git_ref (sa_action sa) = Some Template) with
      | Some r, true =>
          match check_ref_template_syntax r with
          | Err t => mlift (Err [LMsg ("step '" +:+ step_name +:+ "': action '" +:+ sa_name sa +:+ "' has an invalid `ref` template"); LTemplate t])
          | Ok _ => mret None
          end
      | task_git_ref, _ =>
          let base_ws := default (rx_workspace_name x) (sa_workspace sa) in
          let base_cfg := default (rx_workspace_config x) (sa_owner_cfg sa) in
          let base_addr := match sa_owner_cfg sa with Some _ => 1%N | None => 0%N end in
          let base_pin := base_pin_of (sa_pin sa) (sa_workspace sa) (rx_job_pin x) in
          let! (resolved, pin) := resolve_task_for_step base_ws base_cfg base_pin task_ref task_git_ref in
          if (rk_workspace resolved ==? rx_workspace_name x) && (rk_task_name resolved ==? rx_task_name x) && (pin ==? rx_job_pin x)
          then mlift (bail ("task '" +:+ task_ref +:+ "' is a self-reference to '" +:+ rx_workspace_name x +:+ "/" +:+ rx_task_name x +:+ "' (invalid)"))
          else
            let! _ := precheck_task_step_literals step_name flow_step resolved
                        (mkRole (rx_workspace_name x) 0 (rx_workspace_config x)) base_addr base_cfg in
            mret ((λ p, mkStamp (rk_workspace resolved) (Pins.git_ref p) (commit p)) <$> pin)
      end
  end.

Definition resolve_step_row (x : StepRowCtx) (step_name : string) (flow_step : FlowStep) (status : StepStatus)
    (git_ref_override : option string) : MT Fault NewJobStep :=
  let! sa := mfails (resolve_step_action (rx_workspace_name x) (rx_workspace_config x) (rx_job_pin x) step_name flow_step
                       (match git_ref_override with Some r => Some r | None => Workflow.git_ref flow_step end)) in
  let! task_pin :=
    if a_action_type (sa_action sa) ==? "task" then mfails (resolve_task_stamp x step_name flow_step sa)
    else
      let owner ws := match sa_owner_cfg sa with
                      | Some c => mkRole ws 1 c
                      | None => mkRole ws 0 (rx_workspace_config x)
                      end in
      let roles := mkRoles (mkRole (rx_workspace_name x) 0 (rx_workspace_config x)) (owner <$> sa_workspace sa) None
                     (set_lookup (rx_ws_set x)) in
      let! _ := mlift (fails (precheck_literal_connection_inputs step_name flow_step (sa_action sa) roles)) in
      mret None in
  mlift (build_step (rx_job_id x) step_name (sa_name sa) flow_step (sa_action sa) (Some (object_of (fs_input flow_step))) status
           (rx_defaults x) (sa_workspace sa) (sa_revision sa) (Pins.git_ref <$> sa_pin sa) task_pin).

(** [template]: the templated ref the caller found on the step. *)
Definition deferred_row (x : StepRowCtx) (step_name : string) (flow_step : FlowStep) (template : string) (status : StepStatus)
    : result Fault NewJobStep :=
  let? _ := match check_ref_template_syntax template with
            | Err t => Err (Erred [LMsg ("step '" +:+ step_name +:+ "': invalid `ref` template"); LTemplate t])
            | Ok _ => Ok ()
            end in
  let? plan := fails (plan_link (plan_reference (rx_workspace_name x) None (action flow_step) (Some template) world)) in
  match plan with
  | Today _ => Err Panics  (* unreachable: a ref was given *)
  | AtRef target _ =>
      let? retry := panics (retry_cols (retry flow_step)) in
      let? timeout := step_timeout flow_step (rx_defaults x) in
      Ok (mkNewJobStep (rx_job_id x) step_name (rt_local_name target) DEFERRED_ACTION_TYPE None None
            (Some (object_of (fs_input flow_step))) (StepStatus.as_ref status) DEFERRED_ACTION_TYPE [] "none"
            timeout (when_ flow_step) (for_each_text flow_step) None None None None
            (rc_max_retries retry) (rc_backoff_secs retry) (rc_strategy retry) (rc_jitter retry)
            (Some (rt_owner target)) None None None None None (Some template))
  end.

Definition step_row (x : StepRowCtx) (step_name : string) (flow_step : FlowStep) : MT Fault NewJobStep :=
  let status := initial_status flow_step in
  match Workflow.git_ref flow_step with
  | Some r =>
      match classify_ref r with
      | Template => mlift (deferred_row x step_name flow_step r status)
      | Static => resolve_step_row x step_name flow_step status None
      end
  | None => resolve_step_row x step_name flow_step status None
  end.

Fixpoint step_rows (x : StepRowCtx) (steps : list (string * FlowStep)) : MT Fault (list NewJobStep) :=
  match steps with
  | [] => mret []
  | (step_name, flow_step) :: rest =>
      let! row := step_row x step_name flow_step in
      let! rows := step_rows x rest in
      mret (row :: rows)
  end.
End rows.

(** ** The creation *)

Inductive CreationMode :=
| Normal
| Hook (source_job_id : Uuid)
| Rerun (source_job_id : Uuid) (replay_fields : list string)
| ModeRestart (source : JobRow) (plan : RestartPlan)
| ModeRetry (failed_job_id root_job_id : Uuid) (retry_attempt : Z).

Record CreateArgs := mkCreate {
  ca_config : WorkspaceConfig;
  ca_workspace : string;
  ca_task_name : string;
  ca_input : json;
  ca_source_type : string;
  ca_source_id : option string;
  ca_parent_job_id : option Uuid;
  ca_parent_step_name : option string;
  ca_revision : option string;
  ca_mode : CreationMode;
  ca_defaults : JobDefaults;
  ca_git_ref : option string;
  ca_files : FileGrant;
}.

Abbreviation Tables := (Db * FileTables)%type.

Section creation.
Context `{Workspaces, HashIter, Tera, JsonParser, Serde}.

(** The input with the source's values in it, and the lineage columns. *)
Definition resolve_lineage (a : CreateArgs) (task : TaskDef) (db : Db)
    : result AnyError (json * option Uuid * option RestartLineage) :=
  let input := ca_input a in
  match ca_mode a with
  | Normal | ModeRetry _ _ _ => Ok (input, None, None)
  | Hook source_job_id => Ok (input, Some source_job_id, None)
  | Rerun src_id replay_fields =>
      match JobRepo.get src_id db with
      | None => bail ("Source job " +:+ uuid_text src_id +:+ " not found")
      | Some source_job =>
          if j_workspace source_job <>? ca_workspace a
          then bail ("Source job " +:+ uuid_text src_id +:+ " belongs to workspace '" +:+ j_workspace source_job +:+
                     "', cannot Re-run into '" +:+ ca_workspace a +:+ "'")
          else match j_raw_input source_job with
               | None => bail ("Source job " +:+ uuid_text src_id +:+ " predates Re-run prefill (no raw_input)")
               | Some source_raw =>
                   let? input := res_map_err (λ e, [LReplay e]) (apply_replay_fields input replay_fields source_raw (td_input task)) in
                   let? input := ctx (LMsg "resolve re-run sentinels") (resolve_rerun_sentinels input source_raw (td_input task)) in
                   Ok (input, Some src_id, None)
               end
      end
  | ModeRestart source plan =>
      if j_workspace source <>? ca_workspace a
      then bail ("Source job " +:+ uuid_text (j_job_id source) +:+ " belongs to workspace '" +:+ j_workspace source +:+
                 "', cannot restart into '" +:+ ca_workspace a +:+ "'")
      else
        let lineage := match rp_from plan with RFStep step => FromStep step | AllFailed => FromSteps (start_steps plan) end in
        Ok (input, Some (j_job_id source), Some lineage)
  end.

(** The job a file value may come from. *)
Definition file_lineage (a : CreateArgs) : result AnyError (option Uuid) :=
  match ca_mode a, ca_files a with
  | Rerun src_id _, _ => Ok (Some src_id)
  | ModeRestart source _, _ => Ok (Some (j_job_id source))
  | ModeRetry failed _ _, _ => Ok (Some failed)
  | _, TaskChild =>
      match ca_parent_job_id a with
      | Some p => Ok (Some p)
      | None => bail ("child job of task '" +:+ ca_task_name a +:+ "' in workspace '" +:+ ca_workspace a +:+ "' has no parent job")
      end
  | _, _ => Ok None
  end.

(** The required fields without a default a restart's input lacks. *)
Definition restart_missing (task : TaskDef) (merged : json) : list string :=
  sort_strings (fst <$> List.filter
    (λ p, if_required p.2 && negb (bool_decide (is_Some (if_default p.2))) &&
          negb (bool_decide (is_Some (json_map_lookup p.1 (entries merged))))) (hash_iter (td_input task))).

Definition is_restart (m : CreationMode) : bool := match m with ModeRestart _ _ => true | _ => false end.

(** Everything decided before the transaction opens. *)
Record Prepared := mkPrepared {
  pr_job : NewJob;
  pr_steps : list NewJobStep;
  pr_memo : gmap (string * string) PinRef;
  pr_files : list (string * string);
  pr_file_lineage : option Uuid;
  pr_task : TaskDef;
}.

Definition find_task (a : CreateArgs) : result AnyError TaskDef :=
  match ca_git_ref a, ca_revision a with
  | Some r, None =>
      bail ("job of task '" +:+ ca_task_name a +:+ "' in workspace '" +:+ ca_workspace a +:+ "' would carry ref '" +:+ r +:+ "' without its commit")
  | _, _ =>
      match tasks (ca_config a) !! ca_task_name a with
      | Some task =>
          let? _ := validate_task_dependency_shape (ca_task_name a) task in
          Ok task
      | None => bail ("Task '" +:+ ca_task_name a +:+ "' not found in workspace '" +:+ ca_workspace a +:+ "'")
      end
  end.

Definition job_pin_of (a : CreateArgs) : option PinRef :=
  match ca_git_ref a, ca_revision a with Some r, Some c => Some (mkPinRef r c) | _, _ => None end.

Definition job_retries (task : TaskDef) : result Fault (option Z) :=
  match task_retry task with
  | None => Ok None
  | Some r => if (max_attempts r =? 0)%Z then Err Panics else res_map Some (panics (i32_try_from (max_attempts r - 1)))
  end.

(** [n]: the number of the next call to the workspaces. *)
Definition prepare (job_id : Uuid) (n : nat) (a : CreateArgs) (db : Db) : result Fault Prepared :=
  let? task := fails (find_task a) in
  let? (effective_input, lineage_source, restart_lineage) := fails (resolve_lineage a task db) in
  let? file_lineage := fails (file_lineage a) in
  let? file_values := res_map_err (λ e, Erred [LFile e]) (task_file_values (td_input task) effective_input) in
  if negb (bool_decide (file_values = [])) && negb (input_storage (ca_defaults a)) then Err (Erred [LStorage])
  else
    let? merged_input := fails (ctx (LMsg "Failed to merge input defaults") (ctx LOwnerSide
      (merge_defaults effective_input (td_input task) (secrets_ctx (ca_config a))))) in
    let missing := restart_missing task merged_input in
    if is_restart (ca_mode a) && negb (bool_decide (missing = []))
    then Err (Erred [LMsg ("Restart input is missing required field(s) with no default: " +:+ str_join ", " missing)])
    else
      let job_pin := job_pin_of a in
      let? (ws_set, st) := fails (load_set (ca_workspace a) (Some (ca_config a)) (mkSt (seeded (ca_workspace a) job_pin) n)) in
      let? resolved_input := fails (ctx (LMsg "Failed to resolve connection inputs") (ctx LOwnerSide
        (resolve_connection_inputs merged_input (td_input task) (set_lookup ws_set)))) in
      let x := mkRowCtx job_id (ca_workspace a) (ca_config a) (ca_task_name a) job_pin ws_set (ca_defaults a) in
      let? (new_steps, st) := step_rows x (hash_iter (flow task)) st in
      let? timeout := timeout_or (td_timeout task) (job_timeout_secs (ca_defaults a)) in
      let? max_retries := job_retries task in
      let pin_cols := (λ r, mkJobPinCols r (folder task)) <$> ca_git_ref a in
      let job := mkNewJob (ca_workspace a) (ca_task_name a) (mode task) (Some resolved_input) (ca_source_type a) (ca_source_id a)
                   (ca_parent_job_id a) (ca_parent_step_name a) timeout (ca_revision a) (Some effective_input)
                   lineage_source restart_lineage max_retries pin_cols in
      Ok (mkPrepared job new_steps (memo st) file_values file_lineage task).

Definition db_fail {A} (what : string) (r : result string A) : result AnyError A :=
  res_map_err (λ e, [LMsg what; LMsg e]) r.
Definition attach_fail (e : AttachError) : AnyError :=
  match e with AttachDb e => [LMsg e] | AttachInput e => [LFile e] end.

(** The transaction; an error rolls it back. *)
Definition creation_tx (now host_now : Time) (job_id : Uuid) (a : CreateArgs) (p : Prepared) (t : Tables) : result AnyError Tables :=
  let '(db, ft) := t in
  let? db := db_fail "Failed to create job" (create_with_parent_tx_id now job_id (pr_job p) db) in
  let? ft :=
    if bool_decide (pr_files p = []) then Ok ft
    else res_map_err attach_fail
           (attach_all_tx now job_id (ca_workspace a) (ca_task_name a) (pr_files p) (ca_files a) (pr_file_lineage p) ft) in
  let? db := db_fail "Failed to create job steps" (create_steps_tx host_now (pr_steps p) db) in
  let db := insert_many_tx (memo_entries job_id (pr_memo p)) db in
  let? db := match ca_mode a with
             | ModeRestart _ plan => db_fail "seed carried-over steps" (seed_steps_tx now job_id (carried plan) db)
             | _ => Ok db
             end in
  let? db := match ca_mode a with
             | ModeRetry failed root attempt => db_fail "link the retry job to its chain" (link_retry_tx failed job_id root attempt db)
             | _ => Ok db
             end in
  Ok (db, ft).

(** The job and its live steps are failed in one transaction. [lost]: its
    error, with the context of the statement that failed (the begin and the
    commit included); the transaction then wrote nothing. *)
Definition compensate (now : Time) (job_id : Uuid) (msg : string) (db : Db) : Db :=
  (fail_non_terminal_steps_tx now job_id msg (mark_failed_tx now job_id db)).1.
Definition after_failed_init (lost : option AnyError) (now : Time) (job_id : Uuid) (e : AnyError) (db : Db) : Db * result Fault CreatedJob :=
  match lost with
  | Some e' => (db, Err (Erred e'))
  | None => (compensate now job_id ("[creation] initialisation failed: " +:+ chain_text e) db, Ok (mkCreatedJob job_id true))
  end.

Definition create_job_for_task_inner (now host_now : Time) (job_id : Uuid) (n : nat)
    (init : Uuid → TaskDef → Tables → Tables * result AnyError (option JobStatus)) (lost : option AnyError) (a : CreateArgs) (t : Tables)
    : Tables * result Fault CreatedJob :=
  match prepare job_id n a t.1 with
  | Err e => (t, Err e)
  | Ok p =>
      match creation_tx now host_now job_id a p t with
      | Err e => (t, Err (Erred e))
      | Ok t' =>
          match init job_id (pr_task p) t' with
          | (t'', Ok settled) => (t'', Ok (mkCreatedJob job_id (bool_decide (is_Some settled))))
          | (t'', Err e) =>
              let '(db, r) := after_failed_init lost now job_id e t''.1 in
              ((db, t''.2), r)
          end
      end
  end.

(** ** The entry points *)

Definition create_job_for_task_detailed (config : WorkspaceConfig) (workspace task_name : string) (input : json) (source_type : string)
    (source_id revision : option string) (source_job_id : option Uuid) (defaults : JobDefaults) (files : FileGrant) : CreateArgs :=
  mkCreate config workspace task_name input source_type source_id None None revision
    (match source_job_id with Some id => Rerun id [] | None => Normal end) defaults None files.

Definition create_job_for_rerun (config : WorkspaceConfig) (workspace task_name : string) (input : json) (source_type : string)
    (source_id revision : option string) (source_job_id : Uuid) (replay_fields : list string) (defaults : JobDefaults) (files : FileGrant)
    : CreateArgs :=
  mkCreate config workspace task_name input source_type source_id None None revision (Rerun source_job_id replay_fields) defaults None files.

Definition create_restart_job (config : WorkspaceConfig) (workspace : string) (source : JobRow) (plan : RestartPlan)
    (source_id revision : option string) (defaults : JobDefaults) (git_ref : option string) (files : FileGrant) : result AnyError CreateArgs :=
  match j_raw_input source with
  | None => bail ("Source job " +:+ uuid_text (j_job_id source) +:+ " predates Re-run prefill (no raw_input)")
  | Some raw =>
      Ok (mkCreate config workspace (j_task_name source) raw "restart" source_id None None revision (ModeRestart source plan)
            defaults git_ref files)
  end.

Definition create_child_job_for_task_detailed (config : WorkspaceConfig) (workspace task_name : string) (input : json)
    (source_type : string) (source_id : option string) (parent_job_id : Uuid) (parent_step_name : string) (revision : option string)
    (defaults : JobDefaults) (git_ref : option string) : CreateArgs :=
  mkCreate config workspace task_name input source_type source_id (Some parent_job_id) (Some parent_step_name) revision Normal
    defaults git_ref Indirect.

Definition create_job_for_task_pinned (config : WorkspaceConfig) (workspace task_name : string) (input : json) (source_type : string)
    (source_id : option string) (commit git_ref : string) (mode : CreationMode) (defaults : JobDefaults) (files : FileGrant) : CreateArgs :=
  mkCreate config workspace task_name input source_type source_id None None (Some commit) mode defaults (Some git_ref) files.
End creation.

(** ** Depth *)

(** The chain of parents, cut at the limit. *)
Fixpoint depth_loop (fuel depth : nat) (current_parent : option Uuid) (db : Db) : nat :=
  match fuel, current_parent with
  | S fuel, Some parent_id =>
      let depth := S depth in
      if (MAX_TASK_DEPTH <=? depth)%nat then depth
      else depth_loop fuel depth (JobRepo.get parent_id db ≫= j_parent_job_id) db
  | _, _ => depth
  end.
Definition compute_depth (job : JobRow) (db : Db) : nat := depth_loop MAX_TASK_DEPTH 0 (j_parent_job_id job) db.
