(* ===== verification/JobCreatorProps.v ===== *)
(** * What a creation writes

    The pins of a creation: one commit per owner and ref, whatever the
    workspaces answer in between. The rows of a created job, the atomicity of
    the transaction and the absence of panics on valid configurations. *)
From S2P Require Import Prelude Json Text GitRef Workflow DependsOn JobModel Db StepRepo StepRepoProps JobRepo JobRepoProps Pins Retry Restart FileField InputFiles TemplateError Errors Engine JsonField Connections ConnectionsProps WorkspaceSet Refs Manager JobCreator.

(** ** The memo *)

Abbreviation Memo := (gmap (string * string) PinRef).

(** A commit is filed under the ref it was resolved from. *)
Definition memo_ok (m : Memo) : Prop := ∀ ws r p, m !! (ws, r) = Some p → Pins.git_ref p = r.

Definition recorded (m : Memo) (ws : string) (p : PinRef) : Prop := m !! (ws, Pins.git_ref p) = Some p.

Lemma recorded_mono m m' ws p : m ⊆ m' → recorded m ws p → recorded m' ws p.
Proof. intros Hm Hp. by eapply lookup_weaken. Qed.

(** A step of the creation that starts with [P] only adds to the memo and ends
    with [Q]. *)
Definition mspec {E A : Type} (P : Memo → Prop) (m : MT E A) (Q : Memo → A → Prop) : Prop :=
  ∀ st a st', memo_ok (memo st) → P (memo st) → m st = Ok (a, st') →
    memo st ⊆ memo st' ∧ memo_ok (memo st') ∧ Q (memo st') a.

(** A condition a growing memo keeps. *)
Class Kept (P : Memo → Prop) := kept m m' : m ⊆ m' → P m → P m'.

#[export] Instance kept_True : Kept (λ _, True).
Proof. by intros m m'. Qed.
#[export] Instance kept_pins (o : option PinRef) ws : Kept (λ m, ∀ p, o = Some p → recorded m ws p).
Proof. intros m m' Hm H p Hp. eapply recorded_mono; eauto. Qed.
#[export] Instance kept_lookup k p : Kept (λ m, m !! k = Some p).
Proof. intros m m' Hm H. by eapply lookup_weaken. Qed.
#[export] Instance kept_and (P Q : Memo → Prop) : Kept P → Kept Q → Kept (λ m, P m ∧ Q m).
Proof. intros HP HQ m m' Hm [H1 H2]. split; [by eapply HP|by eapply HQ]. Qed.

Section mspec.
Context {E : Type}.
Implicit Types P : Memo → Prop.

Lemma mspec_ret {A : Type} P (a : A) (Q : Memo → A → Prop) : (∀ m, P m → Q m a) → mspec P (@mret E A a) Q.
Proof. intros HQ st a' st' Hok HP [= <- <-]. auto. Qed.

Lemma mspec_lift {A : Type} P (r : result E A) (Q : Memo → A → Prop) : (∀ m a, P m → r = Ok a → Q m a) → mspec P (mlift r) Q.
Proof. intros HQ st a st' Hok HP. unfold mlift. destruct r; simpl; [|done]. intros [= <- <-]. auto. Qed.

Lemma mspec_bind {A B : Type} P (m : MT E A) (k : A → MT E B) (R : Memo → A → Prop) (Q : Memo → B → Prop) :
  Kept P → mspec P m R → (∀ a, mspec (λ m, P m ∧ R m a) (k a) Q) → mspec P (mbind_ m k) Q.
Proof.
  intros HK Hm Hk st b st' Hok HP. unfold mbind_. destruct (m st) as [[a st1]|] eqn:E1; simpl; [|done]. intros E2.
  destruct (Hm st a st1 Hok HP E1) as (Hs & Hok1 & HR).
  destruct (Hk a st1 b st' Hok1) as (Hs' & ? & ?); [split; [by eapply HK|done]|done|]. split; [by trans (memo st1)|done].
Qed.

Lemma mspec_weaken {A : Type} P P' (m : MT E A) (Q Q' : Memo → A → Prop) :
  (∀ m, P' m → P m) → mspec P m Q → (∀ m a, Q m a → Q' m a) → mspec P' m Q'.
Proof. intros HP Hm HQ st a st' Hok HP' E1. destruct (Hm st a st') as (? & ? & ?); auto. Qed.

(** The memo-independent part of a postcondition is a hypothesis of the rest. *)
Lemma mspec_bind_pure {A B : Type} P (m : MT E A) (k : A → MT E B) (φ : A → Prop) (Q : Memo → B → Prop) :
  Kept P → mspec P m (λ _, φ) → (∀ a, φ a → mspec P (k a) Q) → mspec P (mbind_ m k) Q.
Proof.
  intros HK Hm Hk. eapply mspec_bind; [done|done|]. intros a st b st' Hok [HP Hφ] E1. by apply (Hk a Hφ st b st').
Qed.

Lemma mspec_bind_lift {A B : Type} P (r : result E A) (k : A → MT E B) (Q : Memo → B → Prop) :
  Kept P → (∀ a, r = Ok a → mspec P (k a) Q) → mspec P (mbind_ (mlift r) k) Q.
Proof. intros HK Hk. eapply (mspec_bind_pure _ _ _ (λ a, r = Ok a)); [done| |done]. by apply mspec_lift. Qed.

Lemma mspec_fail {A : Type} P (e : E) (Q : Memo → A → Prop) : mspec P (mlift (Err e : result E A)) Q.
Proof. by apply mspec_lift. Qed.
End mspec.

Lemma mspec_fails {A : Type} (P : Memo → Prop) (m : M A) (Q : Memo → A → Prop) : mspec P m Q → mspec P (mfails m) Q.
Proof. intros Hm st a st' Hok HP. unfold mfails, fails. destruct (m st) as [[a' st1]|] eqn:E1; simpl; [|done]. intros [= <- <-]. by apply Hm. Qed.

(** Errors have no postcondition. *)
#[local] Hint Resolve mspec_fail : core.

Section memo.
Context `{Workspaces, HashIter, Tera, JsonParser, Serde}.

Lemma mspec_quiet {A : Type} (f : St → A) (P : Memo → Prop) (Q : Memo → A → Prop) :
  (∀ m a, P m → Q m a) → mspec P (λ st, Ok (f st, tick st) : result AnyError _) Q.
Proof. intros HQ st a st' Hok HP [= <- <-]. auto. Qed.

Lemma memo_insert_ok ws r p m : memo_ok m → Pins.git_ref p = r → memo_ok (memo_insert ws r p m).
Proof.
  intros Hok Hr ws' r' p'. unfold memo_insert. destruct (m !! (ws, r)); [apply Hok|].
  intros [[[= <- <-] <-]|[_ ?]]%lookup_insert_Some; [done|by eapply Hok].
Qed.

Lemma memo_insert_subseteq ws r p m : m ⊆ memo_insert ws r p m.
Proof. unfold memo_insert. destruct (m !! (ws, r)) eqn:E1; [done|]. by apply insert_subseteq. Qed.

Lemma memo_insert_lookup ws r p m : ∃ p', memo_insert ws r p m !! (ws, r) = Some p'.
Proof. unfold memo_insert. destruct (m !! (ws, r)) as [p'|] eqn:E1; [by exists p'|]. rewrite lookup_insert_eq. by exists p. Qed.

(** The memo decides: once a ref has a commit, no later answer changes it. *)
Lemma pin_at_ref_spec owner r P :
  Kept P → mspec P (pin_at_ref owner r) (λ m a, Pins.git_ref a.1 = r ∧ m !! (owner, r) = Some a.1).
Proof.
  intros HK st [p pinned] st' Hok HP. unfold pin_at_ref, ensure_pin. destruct (memo st !! (owner, r)) as [p0|] eqn:Em.
  - simpl. destruct (pin_ensure _ _ _); simpl; [|done]. intros [= <- <- <-]. split; [done|]. split; [done|].
    simpl. split; [by eapply Hok|done].
  - unfold resolve_commit. destruct (pin_resolve _ _ _) as [c|]; simpl; [|done].
    destruct (pin_ensure _ _ _); simpl; [|done]. intros [= <- <- <-]. simpl.
    destruct (memo_insert_lookup owner r (mkPinRef r c) (memo st)) as [p' Hp']. rewrite Hp'. simpl.
    split; [apply memo_insert_subseteq|]. assert (memo_ok (memo_insert owner r (mkPinRef r c) (memo st))) as Hok' by by apply memo_insert_ok.
    split; [done|]. split; [by eapply Hok'|done].
Qed.

(** The base's own pin is in the memo. *)
Abbreviation base_recorded ws o := (λ m : Memo, ∀ p : PinRef, o = Some p → recorded m ws p).

Lemma live_config_spec ws P : Kept P → mspec P (live_config ws) (λ _ _, True).
Proof. intros _. by apply mspec_quiet. Qed.
Lemma live_revision_spec ws P : Kept P → mspec P (live_revision ws) (λ _ _, True).
Proof. intros _. by apply mspec_quiet. Qed.
Lemma load_set_spec ws o P : Kept P → mspec P (load_set ws o) (λ _ _, True).
Proof. intros _. by apply mspec_quiet. Qed.

Lemma resolve_task_ref_spec base_ws base_cfg task_ref P : Kept P → mspec P (resolve_task_ref base_ws base_cfg task_ref) (λ _ _, True).
Proof.
  intros HK. unfold resolve_task_ref. apply mspec_bind_lift; [done|]. intros [|ws name] _.
  - destruct (tasks base_cfg !! task_ref); [by apply mspec_ret|done].
  - eapply mspec_bind_pure; [done|by apply live_config_spec|]. intros [cfg|] _; [|done].
    destruct (tasks cfg !! name); [by apply mspec_ret|done].
Qed.

Lemma pin_at_ref_bind {B : Type} owner r (k : PinRef * Pinned → M B) P Q :
  Kept P → (∀ pin pinned, Pins.git_ref pin = r → mspec (λ m, P m ∧ recorded m owner pin) (k (pin, pinned)) Q) →
  mspec P (mbind_ (pin_at_ref owner r) k) Q.
Proof.
  intros HK Hk. eapply mspec_bind; [done|by apply pin_at_ref_spec|]. intros [pin pinned] st b st' Hok (HP & Hr & Hl) E1.
  apply (Hk pin pinned Hr st b st'); [done| |done]. simpl in *. subst r. done.
Qed.

Lemma resolve_task_for_step_spec base_ws base_cfg base_pin task_ref r :
  mspec (base_recorded base_ws base_pin) (resolve_task_for_step base_ws base_cfg base_pin task_ref r)
    (λ m a, ∀ p, a.2 = Some p → recorded m (rk_workspace a.1) p).
Proof.
  unfold resolve_task_for_step. apply mspec_bind_lift; [apply _|]. intros _ _. apply mspec_bind_lift; [apply _|].
  intros plan Hplan. assert (∀ b, plan = Today b → b = base_pin) as Hb.
  { intros b ->. unfold plan_link, plan_reference in Hplan. destruct r as [r|]; [|by simplify_eq/=].
    destruct (ref_owner _ _ _) as [target|]; simpl in Hplan; [|done]. by case_bool_decide. }
  destruct plan as [target r'|b].
  - apply pin_at_ref_bind; [apply _|]. intros pin pinned Hr. apply mspec_bind_lift; [apply _|]. intros task _.
    apply mspec_ret. intros m [_ Hrec] p [= <-]. done.
  - rewrite (Hb b eq_refl). apply mspec_bind_lift; [apply _|]. intros o Ho. unfold inherited_pin.
    case_bool_decide as Hown.
    + destruct base_pin as [pin|].
      * apply mspec_bind_lift; [apply _|]. intros [name task] _. apply mspec_ret. intros m Hm p [= <-]. by apply Hm.
      * eapply mspec_bind_pure; [apply _|by apply resolve_task_ref_spec, _|]. intros res _. by apply mspec_ret.
    + eapply mspec_bind_pure; [apply _|by apply resolve_task_ref_spec, _|]. intros res _. by apply mspec_ret.
Qed.

(** A pinned action names its workspace and commit. *)
Definition action_recorded (m : Memo) (sa : StepAction) : Prop :=
  ∀ p, sa_pin sa = Some p → ∃ ws, sa_workspace sa = Some ws ∧ sa_revision sa = Some (commit p) ∧ recorded m ws p.

Lemma resolve_step_action_spec ws cfg job_pin step_name fs r :
  mspec (base_recorded ws job_pin) (resolve_step_action ws cfg job_pin step_name fs r) action_recorded.
Proof.
  unfold resolve_step_action. destruct r as [r|].
  - apply mspec_bind_lift; [apply _|]. intros _ _. apply mspec_bind_lift; [apply _|]. intros [target r'|b] _; [|done].
    apply pin_at_ref_bind; [apply _|]. intros pin pinned Hr. apply mspec_bind_lift; [apply _|]. intros a _.
    case_bool_decide; [done|]. apply mspec_ret. intros m [_ Hrec] p [= <-]. by eexists.
  - destruct (parse_qualified_ref _) as [owner bare]. set (q := match owner with Some _ => _ | None => None end).
    destruct q as [ws'|]; simpl.
    + unfold inherited_pin. case_bool_decide as Hw; [destruct job_pin as [pin|]|].
      * apply mspec_bind_lift; [apply _|]. intros a _. apply mspec_ret. intros m Hm p [= <-]. eexists. subst ws'. split_and!; [done..|].
        by apply Hm.
      * eapply mspec_bind_pure; [apply _|by apply live_config_spec, _|]. intros [c|] _; [|done]. destruct (actions c !! bare); [|done].
        eapply mspec_bind_pure; [apply _|by apply live_revision_spec, _|]. intros rev _. by apply mspec_ret.
      * eapply mspec_bind_pure; [apply _|by apply live_config_spec, _|]. intros [c|] _; [|done]. destruct (actions c !! bare); [|done].
        eapply mspec_bind_pure; [apply _|by apply live_revision_spec, _|]. intros rev _. by apply mspec_ret.
    + destruct (actions cfg !! _); [by apply mspec_ret|done].
Qed.

#[local] Instance kept_action sa : Kept (λ m, action_recorded m sa).
Proof. intros m m' Hm Ha p Hp. destruct (Ha p Hp) as (ws & ? & ? & ?). exists ws. split_and!; [done..|]. by eapply recorded_mono. Qed.

(** The memo has the stamped commit. *)
Definition stamp_recorded (m : Memo) (o : option TaskPinStamp) : Prop :=
  ∀ s, o = Some s → recorded m (tp_workspace s) (mkPinRef (tp_git_ref s) (tp_commit s)).

Lemma precheck_task_spec step_name fs resolved caller addr cfg P :
  Kept P → mspec P (precheck_task_step_literals step_name fs resolved caller addr cfg) (λ _ _, True).
Proof.
  intros HK. unfold precheck_task_step_literals. repeat case_bool_decide; try by apply mspec_ret.
  eapply mspec_bind_pure; [done|by apply load_set_spec|]. intros set _. apply mspec_bind_lift; [done|]. intros _ _. by apply mspec_ret.
Qed.

Lemma resolve_task_stamp_spec x step_name fs sa :
  mspec (λ m, base_recorded (rx_workspace_name x) (rx_job_pin x) m ∧ action_recorded m sa) (resolve_task_stamp x step_name fs sa)
    stamp_recorded.
Proof.
  unfold resolve_task_stamp. destruct (a_task _) as [task_ref|]; [|done].
  set (base_ws := default _ _). set (base_cfg := default _ (sa_owner_cfg sa)). set (bp := base_pin_of _ _ _).
  assert (∀ (r : option string) addr, mspec (λ m, base_recorded (rx_workspace_name x) (rx_job_pin x) m ∧ action_recorded m sa)
    (let! (resolved, pin) := resolve_task_for_step base_ws base_cfg bp task_ref r in
     if (rk_workspace resolved ==? rx_workspace_name x) && (rk_task_name resolved ==? rx_task_name x) && (pin ==? rx_job_pin x)
     then mlift (bail ("task '" +:+ task_ref +:+ "' is a self-reference to '" +:+ rx_workspace_name x +:+ "/" +:+ rx_task_name x +:+ "' (invalid)"))
     else
       let! _ := precheck_task_step_literals step_name fs resolved
                   (mkRole (rx_workspace_name x) 0 (rx_workspace_config x)) addr base_cfg in
       mret ((λ p, mkStamp (rk_workspace resolved) (Pins.git_ref p) (commit p)) <$> pin)) stamp_recorded) as Hmain.
  { intros r addr. eapply mspec_weaken; [|eapply (mspec_bind (base_recorded base_ws bp)); [apply _|apply resolve_task_for_step_spec|]|done].
    - intros m [Hj Ha] p. unfold bp, base_ws, base_pin_of. destruct (sa_pin sa) as [p'|] eqn:Ep.
      + intros [= <-]. destruct (Ha p' Ep) as (ws & -> & _ & Hr). done.
      + destruct (sa_workspace sa); [done|]. apply Hj.
    - intros [resolved pin]. destruct (_ && _ && _); [done|].
      eapply mspec_bind_pure; [|by apply precheck_task_spec, _|].
      { apply kept_and; [apply _|]. apply (kept_pins pin (rk_workspace resolved)). }
      intros _ _. apply mspec_ret. intros m [_ Hp] s. destruct pin as [p|]; [|done]. intros [= <-]. simpl.
      destruct p as [r0 c0]. by apply (Hp _ eq_refl). }
  destruct (a_git_ref (sa_action sa)) as [r|]; [|by apply Hmain].
  destruct (bool_decide _); [|by apply Hmain]. destruct (check_ref_template_syntax r); [by apply mspec_ret|done].
Qed.

(** The pin columns of a row are in the memo. *)
Definition row_recorded (m : Memo) (row : NewJobStep) : Prop :=
  (∀ r, nj_action_ref row = Some r → ∃ ws c,
     nj_action_workspace row = Some ws ∧ nj_action_revision row = Some c ∧ m !! (ws, r) = Some (mkPinRef r c)) ∧
  (∀ r, nj_task_ref row = Some r → ∃ ws c,
     nj_task_workspace row = Some ws ∧ nj_task_revision row = Some c ∧ m !! (ws, r) = Some (mkPinRef r c)).

#[export] Instance kept_row row : Kept (λ m, row_recorded m row).
Proof.
  intros m m' Hm [Ha Ht]. split; intros r Hr; [destruct (Ha r Hr) as (ws & c & ? & ? & ?)|destruct (Ht r Hr) as (ws & c & ? & ? & ?)];
    exists ws, c; split_and!; try done; by eapply lookup_weaken.
Qed.
#[export] Instance kept_rows rows : Kept (λ m, Forall (row_recorded m) rows).
Proof. intros m m' Hm Hf. eapply Forall_impl; [done|]. intros row. by apply kept_row. Qed.

Lemma build_step_pins j n an fs a i st d ws rev r tp row :
  build_step j n an fs a i st d ws rev r tp = Ok row →
  nj_job_id row = j ∧ nj_step_name row = n ∧ nj_status row = StepStatus.as_ref st ∧ nj_action_workspace row = ws ∧
  nj_action_revision row = rev ∧ nj_action_ref row = r ∧ nj_task_workspace row = tp_workspace <$> tp ∧
  nj_task_ref row = tp_git_ref <$> tp ∧ nj_task_revision row = tp_commit <$> tp.
Proof.
  unfold build_step. destruct (panics _); simpl; [|done]. destruct (step_timeout fs d); simpl; [|done]. by intros [= <-].
Qed.

Lemma resolve_step_row_spec x n fs st r :
  mspec (base_recorded (rx_workspace_name x) (rx_job_pin x)) (resolve_step_row x n fs st r)
    (λ m row, row_recorded m row ∧ nj_job_id row = rx_job_id x ∧ nj_step_name row = n ∧ nj_status row = StepStatus.as_ref st).
Proof.
  unfold resolve_step_row. eapply mspec_bind; [apply _|apply mspec_fails, resolve_step_action_spec|]. intros sa.
  eapply (mspec_bind _ _ _ stamp_recorded); [apply _| |].
  - case_bool_decide; [apply mspec_fails, resolve_task_stamp_spec|]. apply mspec_bind_lift; [apply _|]. intros _ _. by apply mspec_ret.
  - intros tp. apply mspec_lift. intros m row [[Hj Ha] Ht] Hb%build_step_pins.
    destruct Hb as (-> & -> & -> & Hw & Hrev & Hr & Htw & Htr & Htc). split; [|done]. unfold row_recorded.
    rewrite Hw, Hrev, Hr, Htw, Htr, Htc. split.
    + intros r' Hr'. destruct (sa_pin sa) as [[r0 c0]|] eqn:Ep; [|done]. simplify_eq/=. destruct (Ha _ Ep) as (ws & ? & ? & Hrec).
      exists ws, c0. auto.
    + intros r' Hr'. destruct tp as [[w0 r0 c0]|]; [|done]. simplify_eq/=. exists w0, c0. split_and!; [done..|]. by apply (Ht _ eq_refl).
Qed.

Lemma deferred_row_pins x n fs t st row :
  deferred_row x n fs t st = Ok row →
  nj_action_ref row = None ∧ nj_task_ref row = None ∧ nj_job_id row = rx_job_id x ∧ nj_step_name row = n ∧
  nj_status row = StepStatus.as_ref st.
Proof.
  unfold deferred_row. destruct (check_ref_template_syntax t); simpl; [|done]. destruct (fails _) as [[target ?|]|]; simpl; try done.
  destruct (panics _); simpl; [|done]. destruct (step_timeout _ _); simpl; [|done]. by intros [= <-].
Qed.

(** One row: its pins are in the memo, its key and status are the step's. *)
Definition row_of (x : StepRowCtx) (n : string) (fs : FlowStep) (row : NewJobStep) : Prop :=
  nj_job_id row = rx_job_id x ∧ nj_step_name row = n ∧ nj_status row = StepStatus.as_ref (initial_status fs).

Lemma step_row_spec x n fs :
  mspec (base_recorded (rx_workspace_name x) (rx_job_pin x)) (step_row x n fs) (λ m row, row_recorded m row ∧ row_of x n fs row).
Proof.
  unfold step_row. destruct (Workflow.git_ref fs) as [r|]; [|apply resolve_step_row_spec].
  destruct (classify_ref r); [apply resolve_step_row_spec|]. apply mspec_lift. intros m row _ Hd%deferred_row_pins.
  destruct Hd as (Ha & Ht & ? & ? & ?). split; [|done]. unfold row_recorded. by rewrite Ha, Ht.
Qed.

Lemma step_rows_spec x steps :
  mspec (base_recorded (rx_workspace_name x) (rx_job_pin x)) (step_rows x steps)
    (λ m rows, Forall (row_recorded m) rows ∧ Forall2 (λ p row, row_of x p.1 p.2 row) steps rows).
Proof.
  induction steps as [|[n fs] rest IH]; simpl; [by apply mspec_ret|].
  eapply (mspec_bind _ _ _ (λ m row, row_recorded m row ∧ row_of x n fs row)); [apply _|apply step_row_spec|]. intros row.
  eapply mspec_bind; [apply kept_and; [apply _|apply kept_and; [apply _|by intros m m']]| |].
  - eapply mspec_weaken; [|apply IH|done]. by intros m [? _].
  - intros rows. apply mspec_ret. intros m [[_ [Hr Hx]] [Hrs Hxs]]. split; by constructor.
Qed.
End memo.

(** ** The statements of the transaction *)

Definition pin_cols (r : JobStepRow) := (js_action_workspace r, js_action_revision r, js_action_ref r, js_task_workspace r, js_task_ref r, js_task_revision r).

Lemma insert_steps_spec hn jobs steps t t' :
  insert_steps hn jobs steps t = Ok t' →
  (∀ s, s ∈ steps → t' !! step_key s = Some (new_step_rec hn s)) ∧ (∀ k, k ∉ step_key <$> steps → t' !! k = t !! k).
Proof.
  revert t. induction steps as [|s rest IH]; intros t; simpl.
  - intros [= <-]. split; [by intros s ?%elem_of_nil|done].
  - destruct (jobs !! nj_job_id s); [|done]. destruct (t !! step_key s) eqn:Ek; [done|]. intros Hi.
    destruct (IH _ Hi) as [H1 H2]. split.
    + intros s' [->|Hin]%elem_of_cons; [|by apply H1]. eapply insert_steps_keeps; [done|]. apply lookup_insert_eq.
    + intros k [Hne Hk]%not_elem_of_cons. rewrite H2 by done. by rewrite lookup_insert_ne by done.
Qed.

Lemma create_steps_spec hn steps db db' :
  create_steps_tx hn steps db = Ok db' →
  db_job db' = db_job db ∧ db_ref_pin db' = db_ref_pin db ∧
  (∀ s, s ∈ steps → db_step db' !! step_key s = Some (new_step_rec hn s)) ∧
  (∀ k, k ∉ step_key <$> steps → db_step db' !! k = db_step db !! k).
Proof.
  unfold create_steps_tx. case_bool_decide as He; [intros [= <-]; subst; split_and!; try done; by intros s ?%elem_of_nil|].
  destruct (_ <? _)%nat; [done|]. destruct (insert_steps _ _ _ _) as [t|] eqn:Ei; simpl; [|done]. intros [= <-].
  apply insert_steps_spec in Ei as [H1 H2]. done.
Qed.

(** A row that carries the result of the source job over. *)
Record seeded_as (now : Time) (s : Seed) (r : StepRec) : Prop := {
  sd_status : sr_status r = seed_status s;
  sd_output : js_output (sr_row r) = seed_output s;
  sd_error : js_error_message (sr_row r) = seed_error_message s;
  sd_skip : js_skip_reason (sr_row r) = seed_skip_reason s;
  sd_carried : js_carried_over (sr_row r) = true;
  sd_completed : js_completed_at (sr_row r) = Some now;
  sd_unclaimed : js_worker_id (sr_row r) = None ∧ js_started_at (sr_row r) = None ∧ sr_ready_at r = None ∧ js_retry_at (sr_row r) = None;
}.

Lemma seed_row_cols now s r : pin_cols (sr_row (seed_row now s r)) = pin_cols (sr_row r) ∧ seeded_as now s (seed_row now s r).
Proof. by destruct r as [[]]. Qed.

Lemma seed_steps_spec now j seeds db db' :
  seed_steps_tx now j seeds db = Ok db' →
  db_job db' = db_job db ∧ db_ref_pin db' = db_ref_pin db ∧ (∀ k, db_step db !! k = None → db_step db' !! k = None) ∧
  ∀ k r, db_step db !! k = Some r →
    ∃ r', db_step db' !! k = Some r' ∧ pin_cols (sr_row r') = pin_cols (sr_row r) ∧
      (r' = r ∧ (k.1 ≠ j ∨ k.2 ∉ seed_step_name <$> seeds) ∨
       k.1 = j ∧ ∃ s, s ∈ seeds ∧ seed_step_name s = k.2 ∧ seeded_as now s r').
Proof.
  revert db. induction seeds as [|s seeds IH]; intros db; simpl.
  - intros [= <-]. split_and!; [done..|]. intros k r Hr. exists r. split_and!; [done..|]. left. split; [done|]. right. apply not_elem_of_nil.
  - destruct (update_step _ _ _ _ _) as [db1 c] eqn:Eu. destruct (c =? 1)%nat; [|done]. intros Hs.
    destruct (IH db1 Hs) as (Hj & Hp & Hnone & Hk). assert (db1 = (update_step j (seed_step_name s) any_row (seed_row now s) db).1) as -> by by rewrite Eu.
    rewrite update_step_db_job in Hj. split_and!; [done|by rewrite Hp, update_step_db_ref_pin|intros k Hr; apply Hnone; by rewrite lookup_update_step, Hr|].
    intros k r Hr. destruct (decide (k = (j, seed_step_name s))) as [->|Hne].
    + destruct (Hk (j, seed_step_name s) (seed_row now s r)) as (r' & Hr' & Hpc & Hor).
      { by rewrite lookup_update_step_eq, Hr. }
      destruct (seed_row_cols now s r) as (Hc1 & Hc2).
      exists r'. split; [done|]. split; [by rewrite Hpc|]. right. split; [done|].
      destruct Hor as [[-> _]|[_ (s' & Hin & Hn & ?)]].
      * exists s. split_and!; [by left|done..].
      * exists s'. split; [by right|done].
    + destruct (Hk k r) as (r' & Hr' & Hpc & Hor); [by rewrite lookup_update_step_ne|]. exists r'. split_and!; [done..|].
      destruct Hor as [[-> Hn]|[Hj' (s' & Hin & Hn & ?)]].
      * left. split; [done|]. destruct (decide (k.1 = j)) as [Hj'|]; [|by left]. right. simpl. apply not_elem_of_cons.
        split; [|by destruct Hn]. intros He. apply Hne. destruct k; simpl in *. by subst.
      * right. split; [done|]. exists s'. split; [by right|done].
Qed.

Lemma find_app {A} (f : A → bool) l1 l2 : List.find f (l1 ++ l2) = match List.find f l1 with Some x => Some x | None => List.find f l2 end.
Proof. induction l1 as [|x l1 IH]; simpl; [done|]. by destruct (f x). Qed.

Lemma same_pin_key_spec a b : same_pin_key a b = true ↔ rp_job_id a = rp_job_id b ∧ rp_workspace a = rp_workspace b ∧ rp_git_ref a = rp_git_ref b.
Proof. unfold same_pin_key. rewrite !andb_true_iff, !bool_decide_eq_true. tauto. Qed.

Lemma same_pin_key_trans k a b : same_pin_key a b = true → same_pin_key k a = same_pin_key k b.
Proof. intros (Ha & Hb & Hc)%same_pin_key_spec. unfold same_pin_key. by rewrite Ha, Hb, Hc. Qed.

(** A key that is there keeps its row; a new one takes the first of the batch. *)
Lemma find_insert_pins k rows t :
  List.find (same_pin_key k) (fold_left insert_pin rows t) =
  match List.find (same_pin_key k) t with Some x => Some x | None => List.find (same_pin_key k) rows end.
Proof.
  revert t. induction rows as [|r rows IH]; intros t; simpl; [by destruct (List.find _ t)|]. rewrite IH. unfold insert_pin.
  destruct (existsb (same_pin_key r) t) eqn:Ee.
  - destruct (List.find (same_pin_key k) t) eqn:Ef; [done|]. destruct (same_pin_key k r) eqn:Ek; [|done].
    apply existsb_exists in Ee as (x & Hx & Hrx). rewrite (same_pin_key_trans k r x Hrx) in Ek.
    by rewrite (find_none _ _ Ef x Hx) in Ek.
  - rewrite find_app. destruct (List.find (same_pin_key k) t); [done|]. simpl. by destruct (same_pin_key k r).
Qed.

Lemma find_memo_entries j ws r m :
  rp_commit <$> List.find (same_pin_key (mkRefPinRec j ws r "")) (memo_entries j m) = commit <$> m !! (ws, r).
Proof.
  destruct (List.find _ _) as [x|] eqn:Ef; simpl.
  - apply find_some in Ef as [Hin (_ & Hw & Hr)%same_pin_key_spec]. apply list_elem_of_In in Hin.
    unfold memo_entries in Hin. apply list_elem_of_fmap in Hin as ([[ws' r'] p] & -> & Hin%elem_of_map_to_list). simpl in *. subst.
    by rewrite Hin.
  - destruct (m !! (ws, r)) as [p|] eqn:Em; [|done]. exfalso.
    assert (same_pin_key (mkRefPinRec j ws r "") (mkRefPinRec j ws r (commit p)) = true) as Hs by by apply same_pin_key_spec.
    rewrite (find_none _ _ Ef) in Hs; [done|]. apply list_elem_of_In. unfold memo_entries. apply list_elem_of_fmap.
    exists ((ws, r), p). split; [done|]. by apply elem_of_map_to_list.
Qed.

(** A new job's table of pins is its memo. *)
Lemma pin_get_new_job j ws r m db :
  (∀ x, x ∈ db_ref_pin db → rp_job_id x ≠ j) → pin_get j ws r (insert_many_tx (memo_entries j m) db) = commit <$> m !! (ws, r).
Proof.
  intros Hfresh. unfold pin_get, insert_many_tx, with_ref_pin. cbn [db_ref_pin]. rewrite find_insert_pins, <-(find_memo_entries j).
  destruct (List.find _ (db_ref_pin db)) as [x|] eqn:Ef; [|done].
  apply find_some in Ef as [Hin (Hj & _)%same_pin_key_spec]. apply list_elem_of_In, Hfresh in Hin. by destruct Hin.
Qed.

(** First writer wins: the answer is what the table holds from then on. *)
Lemma insert_first_wins_stored j ws r c db :
  let '(db', res) := insert_first_wins j ws r c db in
  res = Ok (default c (pin_get j ws r db)) ∧ pin_get j ws r db' = Some (default c (pin_get j ws r db)).
Proof.
  unfold insert_first_wins. assert (pin_get j ws r (insert_many_tx [mkRefPinRec j ws r c] db) = Some (default c (pin_get j ws r db))) as ->.
  { unfold pin_get, insert_many_tx, with_ref_pin. cbn [db_ref_pin]. rewrite find_insert_pins.
    destruct (List.find _ (db_ref_pin db)); [done|]. simpl. unfold same_pin_key. simpl. by rewrite !bool_decide_true by done. }
  done.
Qed.

(** ** Preparation *)

Section prepared.
Context `{Workspaces, HashIter, Tera, JsonParser, Serde}.

Lemma seeded_ok ws o : memo_ok (seeded ws o) ∧ ∀ p, o = Some p → recorded (seeded ws o) ws p.
Proof.
  unfold seeded, memo_insert. destruct o as [p|]; [rewrite lookup_empty|].
  - split; [|intros ? [= <-]; apply lookup_insert_eq]. intros ws' r' p'. rewrite insert_empty, lookup_singleton_Some. naive_solver.
  - split; [intros ws' r' p'; by rewrite lookup_empty|done].
Qed.

(** What is decided before the transaction. *)
Definition prepared (job_id : Uuid) (a : CreateArgs) (p : Prepared) : Prop :=
  tasks (ca_config a) !! ca_task_name a = Some (pr_task p) ∧
  new_workspace (pr_job p) = ca_workspace a ∧ new_task_name (pr_job p) = ca_task_name a ∧ new_revision (pr_job p) = ca_revision a ∧
  pin_git_ref <$> new_pin (pr_job p) = ca_git_ref a ∧ (is_Some (ca_git_ref a) → is_Some (ca_revision a)) ∧
  memo_ok (pr_memo p) ∧ (∀ pin, job_pin_of a = Some pin → recorded (pr_memo p) (ca_workspace a) pin) ∧
  Forall (row_recorded (pr_memo p)) (pr_steps p) ∧
  Forall2 (λ q row, nj_job_id row = job_id ∧ nj_step_name row = q.1 ∧ nj_status row = StepStatus.as_ref (initial_status q.2))
    (hash_iter (flow (pr_task p))) (pr_steps p).

Lemma find_task_ok a task :
  find_task a = Ok task → tasks (ca_config a) !! ca_task_name a = Some task ∧ (is_Some (ca_git_ref a) → is_Some (ca_revision a)).
Proof.
  unfold find_task. destruct (ca_git_ref a), (ca_revision a); try done;
    (destruct (tasks _ !! _); [|done]); destruct (validate_task_dependency_shape _ _); simpl; (try done); intros [= <-]; naive_solver.
Qed.

Lemma fails_ok {A} (r : result AnyError A) a : fails r = Ok a ↔ r = Ok a.
Proof. destruct r; simpl; naive_solver. Qed.

Lemma prepare_ok job_id n a db p : prepare job_id n a db = Ok p → prepared job_id a p.
Proof.
  unfold prepare. intros Hp. apply res_bind_ok in Hp as (task & Ht%fails_ok%find_task_ok & Hp). destruct Ht as [Ht Hrev].
  apply res_bind_ok in Hp as ([[input src] lin] & _ & Hp). apply res_bind_ok in Hp as (fl & _ & Hp).
  apply res_bind_ok in Hp as (fv & _ & Hp). destruct (_ && _); [done|].
  apply res_bind_ok in Hp as (merged & _ & Hp). destruct (_ && _); [done|].
  apply res_bind_ok in Hp as ([set st] & Hset & Hp). apply fails_ok in Hset. unfold load_set in Hset. simplify_eq/=.
  apply res_bind_ok in Hp as (resolved & _ & Hp). apply res_bind_ok in Hp as ([rows st'] & Hrows & Hp).
  apply res_bind_ok in Hp as (to & _ & Hp). apply res_bind_ok in Hp as (mr & _ & Hp). injection Hp as <-.
  destruct (seeded_ok (ca_workspace a) (job_pin_of a)) as [Hok Hrec].
  apply step_rows_spec in Hrows as (Hsub & Hok' & Hrs & Hnames); [|done|done].
  unfold prepared. cbn [pr_task pr_job pr_memo pr_steps new_workspace new_task_name new_revision new_pin].
  split_and!; [done..| |done|done| |done|done].
  - by destruct (ca_git_ref a).
  - intros pin Hpin. eapply recorded_mono; [exact Hsub|by apply Hrec].
Qed.
End prepared.

(** ** The transaction *)

Section transaction.
Context `{Workspaces, HashIter, Tera, JsonParser, Serde}.

(** The row a step was created with, or the seed that overwrote it. *)
(** What a restart carries over. *)
Definition seeds_of (a : CreateArgs) : list Seed := match ca_mode a with ModeRestart _ plan => carried plan | _ => [] end.

Definition created_step (now hn : Time) (a : CreateArgs) (s : NewJobStep) (r : StepRec) : Prop :=
  r = new_step_rec hn s ∧ nj_step_name s ∉ seed_step_name <$> seeds_of a ∨
  ∃ seed, seed ∈ seeds_of a ∧ seed_step_name seed = nj_step_name s ∧ seeded_as now seed r.

Lemma seed_mode_spec now j a db db' :
  match ca_mode a with ModeRestart _ plan => db_fail "seed carried-over steps" (seed_steps_tx now j (carried plan) db) | _ => Ok db end = Ok db' →
  db_job db' = db_job db ∧ db_ref_pin db' = db_ref_pin db ∧ (∀ k, k.1 ≠ j → db_step db' !! k = db_step db !! k) ∧
  ∀ k r, db_step db !! k = Some r → ∃ r', db_step db' !! k = Some r' ∧ pin_cols (sr_row r') = pin_cols (sr_row r) ∧
    (r' = r ∧ (k.1 ≠ j ∨ k.2 ∉ seed_step_name <$> seeds_of a) ∨
     ∃ seed, seed ∈ seeds_of a ∧ seed_step_name seed = k.2 ∧ seeded_as now seed r').
Proof.
  intros Hs. assert (Hseed : seed_steps_tx now j (seeds_of a) db = Ok db').
  { revert Hs. unfold seeds_of. destruct (ca_mode a) as [| | |source plan|]; cbn [seed_steps_tx]; try by intros [= <-].
    by destruct (seed_steps_tx now j (carried plan) db); simpl; intros [= <-]. }
  apply seed_steps_spec in Hseed as (Hj & Hp & Hn & Hk). split_and!; [done|done| |].
  - intros k Hne. destruct (db_step db !! k) as [r|] eqn:Ek; [|by apply Hn].
    destruct (Hk k r Ek) as (r' & -> & _ & [[-> _]|[? _]]); [done|by destruct Hne].
  - intros k r Hr. destruct (Hk k r Hr) as (r' & Hr' & Hpc & Hor). exists r'. split_and!; [done..|].
    destruct Hor as [?|[_ (seed & ? & ? & ?)]]; [by left|]. right. by exists seed.
Qed.

Lemma link_mode_spec j a db db' :
  match ca_mode a with ModeRetry failed root attempt => db_fail "link the retry job to its chain" (link_retry_tx failed j root attempt db) | _ => Ok db end = Ok db' →
  db_step db' = db_step db ∧ db_ref_pin db' = db_ref_pin db ∧
  ∀ k r, db_job db !! k = Some r → ∃ r', db_job db' !! k = Some r' ∧ jr_status r' = jr_status r ∧
    j_workspace (jr_row r') = j_workspace (jr_row r) ∧ j_task_name (jr_row r') = j_task_name (jr_row r) ∧
    j_revision (jr_row r') = j_revision (jr_row r) ∧ j_git_ref (jr_row r') = j_git_ref (jr_row r) ∧
    ((∀ failed root n, ca_mode a = ModeRetry failed root n → k ≠ failed ∧ k ≠ j) → r' = r).
Proof.
  destruct (ca_mode a) as [| | | |failed root n] eqn:Em.
  1-4: intros [= <-]; split_and!; [done..|]; intros k r Hr; exists r; auto 10.
  unfold link_retry_tx. destruct (update_job j any_job _ db) as [db1 c] eqn:Eu. destruct (negb _); simpl; [done|]. intros [= <-].
  assert (db1 = (update_job j any_job (assign [upd_job (jset_retry_of_job_id (Some root)); upd_job (jset_retry_attempt n)]) db).1) as ->
    by by rewrite Eu.
  rewrite update_job_db_step, update_job_db_ref_pin, update_job_db_step, update_job_db_ref_pin. split_and!; [done..|].
  intros k r Hr. rewrite lookup_update_job, lookup_update_job, Hr. simpl. eexists. split; [done|].
  unfold any_job. repeat case_bool_decide; simpl; destruct r as [[] ?]; split_and!; try done; intros Hn; destruct (Hn failed root n eq_refl); done.
Qed.

(** Everything a creation leaves behind. *)
Lemma creation_tx_ok now hn job_id a p db ft db' ft' :
  creation_tx now hn job_id a p (db, ft) = Ok (db', ft') →
  db_job db !! job_id = None ∧
  (∃ rec, db_job db' !! job_id = Some rec ∧ jr_status rec = "pending" ∧ j_workspace (jr_row rec) = new_workspace (pr_job p) ∧
     j_task_name (jr_row rec) = new_task_name (pr_job p) ∧ j_revision (jr_row rec) = new_revision (pr_job p) ∧
     j_git_ref (jr_row rec) = pin_git_ref <$> new_pin (pr_job p)) ∧
  (∀ j rec, db_job db !! j = Some rec → ∃ rec', db_job db' !! j = Some rec' ∧ jr_status rec' = jr_status rec ∧
     ((∀ root n, ca_mode a ≠ ModeRetry j root n) → rec' = rec)) ∧
  db_ref_pin db' = fold_left insert_pin (memo_entries job_id (pr_memo p)) (db_ref_pin db) ∧
  (∀ s, s ∈ pr_steps p → nj_job_id s = job_id → ∃ r, db_step db' !! (job_id, nj_step_name s) = Some r ∧
     pin_cols (sr_row r) = pin_cols (sr_row (new_step_rec hn s)) ∧ created_step now hn a s r) ∧
  (Forall (λ s, nj_job_id s = job_id) (pr_steps p) → ∀ k, k.1 ≠ job_id → db_step db' !! k = db_step db !! k).
Proof.
  unfold creation_tx. intros Ht. apply res_bind_ok in Ht as (db1 & Hc & Ht). apply res_bind_ok in Ht as (ft1 & _ & Ht).
  apply res_bind_ok in Ht as (db2 & Hs & Ht). apply res_bind_ok in Ht as (db3 & Hseed & Ht).
  apply res_bind_ok in Ht as (db4 & Hlink & Ht). injection Ht as <- <-.
  unfold create_with_parent_tx_id in Hc. destruct (bool_decide (is_Some (db_job db !! job_id))) eqn:Ej; simpl in Hc; [done|].
  apply bool_decide_eq_false, eq_None_not_Some in Ej. destruct (job_refs_exist _ _); simpl in Hc; [|done]. injection Hc as <-.
  destruct (create_steps_tx _ _ _) as [db2'|] eqn:Ecs; simpl in Hs; [|done]. injection Hs as ->.
  apply create_steps_spec in Ecs as (Hj2 & Hp2 & Hin2 & Hout2). simpl in Hj2, Hp2, Hout2.
  apply seed_mode_spec in Hseed as (Hj3 & Hp3 & Hout3 & Hin3). simpl in Hj3, Hp3, Hout3, Hin3.
  apply link_mode_spec in Hlink as (Hs4 & Hp4 & Hj4). rewrite Hj3, Hj2 in Hj4.
  split; [done|]. split; [|split; [|split; [|split]]].
  - destruct (Hj4 job_id (new_job_rec now job_id (pr_job p))) as (rec & Hrec & E1 & E2 & E3 & E4 & E5 & _); [apply lookup_insert_eq|].
    exists rec. rewrite E1, E2, E3, E4, E5. auto 10.
  - intros j rec Hr. assert (j ≠ job_id) as Hne by congruence.
    destruct (Hj4 j rec) as (rec' & Hrec & E1 & _ & _ & _ & _ & E2); [by rewrite lookup_insert_ne|]. exists rec'. split_and!; [done..|].
    intros Hn. apply E2. intros failed root n Hm. split; [intros ->; by eapply Hn|done].
  - rewrite Hp4, Hp3, Hp2. done.
  - intros s Hs Hjs. rewrite Hs4. destruct (Hin3 (job_id, nj_step_name s) (new_step_rec hn s)) as (r & Hr & Hpc & Hor).
    { rewrite <-(Hin2 s Hs). unfold step_key. by rewrite Hjs. }
    exists r. split_and!; [done..|]. destruct Hor as [[-> [Hn|Hn]]|(seed & ? & ? & ?)]; [done|by left|]. right. by exists seed.
  - intros Hall k Hk. rewrite Hs4, Hout3 by done. apply Hout2. intros (s & -> & Hin)%list_elem_of_fmap.
    apply Hk. unfold step_key. simpl. by eapply (proj1 (Forall_forall _ _) Hall).
Qed.

(** Where a created job says it comes from. *)
Lemma prepare_lineage job_id n a db p : prepare job_id n a db = Ok p →
  new_source_type (pr_job p) = ca_source_type a ∧ new_parent_job_id (pr_job p) = ca_parent_job_id a ∧
  (∀ src, ca_mode a = Hook src → new_source_job_id (pr_job p) = Some src).
Proof.
  unfold prepare. intros Hp. apply res_bind_ok in Hp as (task & _ & Hp).
  apply res_bind_ok in Hp as ([[input src] lin] & Hl%fails_ok & Hp). apply res_bind_ok in Hp as (fl & _ & Hp).
  apply res_bind_ok in Hp as (fv & _ & Hp). destruct (_ && _); [done|].
  apply res_bind_ok in Hp as (merged & _ & Hp). destruct (_ && _); [done|].
  apply res_bind_ok in Hp as ([set st] & _ & Hp). apply res_bind_ok in Hp as (resolved & _ & Hp).
  apply res_bind_ok in Hp as ([rows st'] & _ & Hp). apply res_bind_ok in Hp as (timeout & _ & Hp).
  apply res_bind_ok in Hp as (retries & _ & [= <-]). split_and!; [done|done|].
  intros s Hm. unfold resolve_lineage in Hl. rewrite Hm in Hl. by simplify_eq/=.
Qed.

Lemma creation_tx_row now hn job_id a p db ft db' ft' :
  (∀ failed root n, ca_mode a ≠ ModeRetry failed root n) →
  creation_tx now hn job_id a p (db, ft) = Ok (db', ft') → db_job db' !! job_id = Some (new_job_rec now job_id (pr_job p)).
Proof.
  intros Hmode. unfold creation_tx. intros Ht. apply res_bind_ok in Ht as (db1 & Hc & Ht). apply res_bind_ok in Ht as (ft1 & _ & Ht).
  apply res_bind_ok in Ht as (db2 & Hs & Ht). apply res_bind_ok in Ht as (db3 & Hseed & Ht).
  apply res_bind_ok in Ht as (db4 & Hlink & Ht). injection Ht as <- <-.
  unfold create_with_parent_tx_id in Hc. destruct (_ || _) in Hc; simpl in Hc; [done|]. injection Hc as <-.
  destruct (create_steps_tx _ _ _) as [db2'|] eqn:Ecs; simpl in Hs; [|done]. injection Hs as ->.
  apply create_steps_spec in Ecs as (Hj2 & _). apply seed_mode_spec in Hseed as (Hj3 & _). simpl in Hj2, Hj3.
  apply link_mode_spec in Hlink as (_ & _ & Hj4). rewrite Hj3, Hj2 in Hj4.
  destruct (Hj4 job_id (new_job_rec now job_id (pr_job p))) as (rec & Hrec & _ & _ & _ & _ & _ & E); [apply lookup_insert_eq|].
  rewrite Hrec, E; [done|]. intros failed root k Hm. by destruct (Hmode failed root k).
Qed.

Lemma prepared_row job_id a p name fs :
  prepared job_id a p → flow (pr_task p) !! name = Some fs →
  ∃ s, s ∈ pr_steps p ∧ nj_job_id s = job_id ∧ nj_step_name s = name ∧ nj_status s = StepStatus.as_ref (initial_status fs) ∧
    row_recorded (pr_memo p) s.
Proof.
  intros (_ & _ & _ & _ & _ & _ & _ & _ & Hrec & Hrows) Hf. apply elem_of_hash_iter in Hf.
  apply list_elem_of_lookup in Hf as [i Hi]. destruct (Forall2_lookup_l _ _ _ _ _ Hrows Hi) as (s & Hs & ? & ? & ?).
  exists s. split_and!; [by eapply list_elem_of_lookup_2|done..|]. eapply Forall_lookup_1; [exact Hrec|exact Hs].
Qed.

Lemma prepared_rows_job job_id a p : prepared job_id a p → Forall (λ s, nj_job_id s = job_id) (pr_steps p).
Proof.
  intros (_ & _ & _ & _ & _ & _ & _ & _ & _ & Hrows). apply Forall_lookup. intros i s Hs.
  destruct (Forall2_lookup_r _ _ _ _ _ Hrows Hs) as (q & _ & ? & _). done.
Qed.

(** C16. In a created job a ref is one commit: the job's own pin and the pin
    columns of every step are the commit the job's table of pins has for that
    owner and ref, whatever the workspaces answered in between. *)
Theorem job_refs_one_commit now hn job_id n a p db ft db' ft' :
  (∀ x, x ∈ db_ref_pin db → is_Some (db_job db !! rp_job_id x)) →
  prepare job_id n a db = Ok p → creation_tx now hn job_id a p (db, ft) = Ok (db', ft') →
  (∀ pin, job_pin_of a = Some pin → pin_get job_id (ca_workspace a) (Pins.git_ref pin) db' = Some (commit pin)) ∧
  ∀ name fs, flow (pr_task p) !! name = Some fs → ∃ r, db_step db' !! (job_id, name) = Some r ∧
    (∀ ref, js_action_ref (sr_row r) = Some ref → ∃ ws c,
       js_action_workspace (sr_row r) = Some ws ∧ js_action_revision (sr_row r) = Some c ∧ pin_get job_id ws ref db' = Some c) ∧
    (∀ ref, js_task_ref (sr_row r) = Some ref → ∃ ws c,
       js_task_workspace (sr_row r) = Some ws ∧ js_task_revision (sr_row r) = Some c ∧ pin_get job_id ws ref db' = Some c).
Proof.
  intros Hfk Hp%prepare_ok Ht. pose proof (creation_tx_ok _ _ _ _ _ _ _ _ _ Ht) as (Hnew & _ & _ & Hpins & Hsteps & _).
  assert (Hget : ∀ ws r, pin_get job_id ws r db' = commit <$> pr_memo p !! (ws, r)).
  { intros ws r. rewrite <-(pin_get_new_job job_id ws r (pr_memo p) db).
    - unfold pin_get, insert_many_tx, with_ref_pin. cbn [db_ref_pin]. by rewrite Hpins.
    - intros x Hx Hj. destruct (Hfk x Hx) as [y Hy]. congruence. }
  split.
  - intros pin Hpin. destruct Hp as (_ & _ & _ & _ & _ & _ & _ & Hjob & _). rewrite Hget. by rewrite (Hjob pin Hpin).
  - intros name fs Hf. destruct (prepared_row _ _ _ _ _ Hp Hf) as (s & Hin & Hj & <- & _ & Ha & Htk).
    destruct (Hsteps s Hin Hj) as (r & Hr & Hpc & _). exists r. split; [done|]. unfold pin_cols in Hpc. simpl in Hpc.
    injection Hpc as -> -> -> -> -> ->. split; intros ref Href.
    + destruct (Ha ref Href) as (ws & c & ? & ? & Hm). exists ws, c. rewrite Hget, Hm. auto.
    + destruct (Htk ref Href) as (ws & c & ? & ? & Hm). exists ws, c. rewrite Hget, Hm. auto.
Qed.

Lemma initial_status_spec fs :
  (StepStatus.as_ref (initial_status fs) = "ready" ∨ StepStatus.as_ref (initial_status fs) = "pending") ∧
  (StepStatus.as_ref (initial_status fs) = "ready" ↔ depends_on fs = [] ∧ when_ fs = None ∧ for_each fs = None).
Proof.
  unfold initial_status. destruct (for_each fs) eqn:Ef; [simpl; split; [by right|]; split; [done|naive_solver]|].
  rewrite bool_decide_false by by intros []. destruct (when_ fs) eqn:Ew.
  - rewrite (bool_decide_true (is_Some _)) by by eexists. rewrite andb_false_r. simpl. split; [by right|]. split; [done|naive_solver].
  - rewrite (bool_decide_false (is_Some _)) by by intros []. case_bool_decide as Hd; simpl.
    + split; [by left|]. naive_solver.
    + split; [by right|]. split; [done|naive_solver].
Qed.

End transaction.

(** ** Outcomes *)

Section outcomes.
Context `{Workspaces, HashIter, Tera, JsonParser, Serde}.

Definition LIVE : list string := ["pending"; "ready"; "claimed"; "running"; "suspended"].

Lemma compensate_spec now j msg db :
  (∀ rec, db_job (compensate now j msg db) !! j = Some rec → jr_status rec = "failed") ∧
  (∀ name r, db_step (compensate now j msg db) !! (j, name) = Some r → sr_status r ∉ LIVE) ∧
  (∀ k, k ≠ j → db_job (compensate now j msg db) !! k = db_job db !! k) ∧
  (∀ k, k.1 ≠ j → db_step (compensate now j msg db) !! k = db_step db !! k).
Proof.
  unfold compensate, fail_non_terminal_steps_tx, mark_failed_tx. split_and!.
  - intros rec. rewrite update_job_steps_db_job, lookup_update_job_eq. by destruct (db_job db !! j) as [r|]; simpl; intros [= <-].
  - intros name r. rewrite lookup_update_job_steps, update_job_db_step. destruct (db_step db !! (j, name)) as [r0|]; [|done].
    cbn [fst snd fmap option_fmap option_map]. rewrite bool_decide_true by done. cbn [andb].
    destruct (status_in _ r0) eqn:Es; intros [= <-]; [|by apply bool_decide_eq_false in Es].
    change (sr_status _) with "failed". apply (bool_decide_unpack _). by vm_compute.
  - intros k Hk. rewrite update_job_steps_db_job, lookup_update_job, bool_decide_false by done. by destruct (db_job db !! k).
  - intros k Hk. rewrite lookup_update_job_steps, update_job_db_step, bool_decide_false by done. by destruct (db_step db !! k).
Qed.

(** A creation answers with the id of the job it committed. When the
    initialisation fails, the job is failed and none of its steps is live,
    unless the transaction that does so fails as well: then the caller gets
    its error and the job stays as the initialisation left it. *)
Lemma creation_outcome now hn job_id n init lost a t p t1 :
  prepare job_id n a t.1 = Ok p → creation_tx now hn job_id a p t = Ok t1 →
  match init job_id (pr_task p) t1, create_job_for_task_inner now hn job_id n init lost a t with
  | (t2, Ok settled), (t', r) => t' = t2 ∧ r = Ok (mkCreatedJob job_id (bool_decide (is_Some settled)))
  | (t2, Err _), (t', Ok c) =>
      lost = None ∧ c = mkCreatedJob job_id true ∧
      (∀ rec, db_job t'.1 !! job_id = Some rec → jr_status rec = "failed") ∧
      (∀ name r, db_step t'.1 !! (job_id, name) = Some r → sr_status r ∉ LIVE)
  | (t2, Err _), (t', Err e) => t' = t2 ∧ ∃ e', lost = Some e' ∧ e = Erred e'
  end.
Proof.
  intros Ep Et. unfold create_job_for_task_inner, after_failed_init. rewrite Ep, Et.
  destruct (init job_id (pr_task p) t1) as [[db2 ft2] [settled|e]]; [done|]. destruct lost as [e'|]; [by eauto|].
  split_and!; [done..| |]; cbn [fst snd]; apply compensate_spec.
Qed.

(** ** Panics *)

Definition fits_i32 (z : Z) : Prop := (0 ≤ z ≤ i32_max)%Z.
Definition retry_fits (o : option RetryConfig) : Prop :=
  ∀ r, o = Some r → (1 ≤ max_attempts r)%Z ∧ fits_i32 (max_attempts r) ∧ fits_i32 (delay r).
Definition timeout_fits (o : option Z) : Prop := ∀ z, o = Some z → fits_i32 z.

Definition config_valid (c : WorkspaceConfig) : Prop := ∀ k act, actions c !! k = Some act → retry_fits (a_retry act).
Definition task_valid (t : TaskDef) : Prop :=
  retry_fits (task_retry t) ∧ timeout_fits (td_timeout t) ∧
  ∀ name fs, flow t !! name = Some fs → retry_fits (Workflow.retry fs) ∧ timeout_fits (fs_timeout fs).

(** The limits of [stroem validate] are within them. *)
Lemma validated_retry_fits r ctx : (0 ≤ max_attempts r)%Z → (0 ≤ delay r)%Z → validate_retry_config r ctx = None → retry_fits (Some r).
Proof.
  intros Hm Hd Hv r' [= <-]. unfold validate_retry_config in Hv. unfold fits_i32, i32_max.
  destruct (Z.eqb_spec (max_attempts r) 0), (Z.ltb_spec 10 (max_attempts r)), (Z.ltb_spec 3600 (delay r)); simpl in Hv; try done. lia.
Qed.

Lemma i32_fits z : fits_i32 z → i32_try_from z = Some z.
Proof. intros Hz. unfold i32_try_from, fits_i32, i32_min, i32_max in *. rewrite !(proj2 (Z.leb_le _ _)) by lia. done. Qed.

Lemma retry_cols_fit o : retry_fits o → is_Some (retry_cols o).
Proof.
  intros Hf. unfold retry_cols. destruct o as [r|]; [|by eexists]. destruct (Hf r eq_refl) as (E1 & E2 & E3).
  destruct (Z.eqb_spec (max_attempts r) 0); [lia|]. rewrite (i32_fits (max_attempts r - 1)) by (unfold fits_i32 in *; lia). rewrite (i32_fits (delay r)) by done. by eexists.
Qed.

Lemma timeout_or_fit o d : timeout_fits o → ∃ z, timeout_or o d = Ok z.
Proof. intros Hf. unfold timeout_or. destruct o as [z|]; [|by eexists]. rewrite (i32_fits z) by by apply Hf. by eexists. Qed.

Lemma build_step_fits j n an fs a i st d ws rev r tp :
  retry_fits (a_retry a) → retry_fits (Workflow.retry fs) → timeout_fits (fs_timeout fs) →
  ∃ row, build_step j n an fs a i st d ws rev r tp = Ok row.
Proof.
  intros Ha Hf Ht. unfold build_step. destruct (retry_cols_fit (resolve_step_retry_config fs (a_retry a))) as [c ->].
  { unfold resolve_step_retry_config. by destruct (Workflow.retry fs). }
  simpl. destruct (timeout_or_fit (fs_timeout fs) (step_timeout_secs d) Ht) as [z Hz]. unfold step_timeout. rewrite Hz. by eexists.
Qed.

(** A computation that does not panic, and the same with its result. *)
Definition calm {A} (r : result Fault A) : Prop := r ≠ Err Panics.

Lemma calm_bind {A B} (r : result Fault A) (k : A → result Fault B) :
  calm r → (∀ a, r = Ok a → calm (k a)) → calm (res_bind r k).
Proof. destruct r as [a|e]; simpl; [auto|]. intros Hr _ [= ->]. by apply Hr. Qed.
Lemma calm_fails {A} (r : result AnyError A) : calm (fails r).
Proof. by destruct r. Qed.

Lemma calm_map_err {E A} (f : E → AnyError) (r : result E A) : calm (res_map_err (λ e, Erred (f e)) r).
Proof. by destruct r. Qed.

Lemma calm_mbind {A B} (m : MT Fault A) (k : A → MT Fault B) st :
  calm (m st) → (∀ a st', m st = Ok (a, st') → calm (k a st')) → calm (mbind_ m k st).
Proof. intros Hm Hk. unfold mbind_. apply calm_bind; [done|]. intros [a st'] E1. by apply Hk. Qed.

Section calm.
Hypothesis live_valid : ∀ n ws c, get_config n ws = Some c → config_valid c.
Hypothesis pin_valid : ∀ n ws c p, pin_ensure n ws c = Ok p → config_valid (pn_config p).

Lemma pin_at_ref_valid owner r st pin pinned st' : pin_at_ref owner r st = Ok ((pin, pinned), st') → config_valid (pn_config pinned).
Proof.
  unfold pin_at_ref. intros Hp. apply res_bind_ok in Hp as ([pin0 st0] & _ & Hp). apply res_bind_ok in Hp as ([p1 st1] & Hp & [= <- <- <-]).
  unfold ensure_pin in Hp. destruct (pin_ensure _ _ _) eqn:Ee; [|done]. simplify_eq. by eapply pin_valid.
Qed.

Lemma action_at_valid w o cfg l r act : config_valid cfg → action_at w o cfg l r = Ok act → retry_fits (a_retry act).
Proof. intros Hc. unfold action_at. destruct (actions cfg !! l) eqn:El; [|done]. intros [= <-]. by eapply Hc. Qed.

Lemma live_config_valid ws st c st' : live_config ws st = Ok (Some c, st') → config_valid c.
Proof. unfold live_config. intros [= Hc _]. by eapply live_valid. Qed.

Lemma step_action_valid ws cfg job_pin step_name fs r st sa st' :
  config_valid cfg → resolve_step_action ws cfg job_pin step_name fs r st = Ok (sa, st') → retry_fits (a_retry (sa_action sa)).
Proof.
  intros Hcfg. unfold resolve_step_action. destruct r as [r|].
  - intros Hr. apply mbind_ok in Hr as (? & ? & _ & Hr). apply mbind_ok in Hr as (plan & ? & _ & Hr).
    destruct plan as [target r'|b]; [|by apply mlift_ok in Hr as [? _]].
    apply mbind_ok in Hr as ([pin pinned] & st1 & Hpin%pin_at_ref_valid & Hr). apply mbind_ok in Hr as (act & ? & [Ha _]%mlift_ok & Hr).
    case_bool_decide; [by apply mlift_ok in Hr as [? _]|]. injection Hr as <- <-. by eapply action_at_valid.
  - destruct (parse_qualified_ref _) as [owner bare]. set (q := match owner with Some _ => _ | None => None end).
    destruct q as [ws'|].
    + assert (Hlive : ∀ k, (let! c := live_config ws' in
          match c with
          | None => mlift (bail ("action '" +:+ action fs +:+ "': workspace '" +:+ ws' +:+ "' is not available"))
          | Some owner_cfg => k owner_cfg
          end) st = Ok (sa, st') → ∃ c st1, config_valid c ∧ k c st1 = Ok (sa, st')).
      { intros k Hr. apply mbind_ok in Hr as ([c|] & st1 & Hc & Hr); [|by apply mlift_ok in Hr as [? _]].
        exists c, st1. split; [by eapply live_config_valid|done]. }
      assert (Hown : ∀ c st1, config_valid c →
          match actions c !! bare with
          | None => mlift (bail ("action '" +:+ action fs +:+ "': workspace '" +:+ ws' +:+ "' has no action '" +:+ bare +:+ "'"))
          | Some a => let! rev := live_revision ws' in mret (mkStepAction a (Some ws') rev bare (Some c) None)
          end st1 = Ok (sa, st') → retry_fits (a_retry (sa_action sa))).
      { intros c st1 Hc. destruct (actions c !! bare) as [act|] eqn:Eb; [|by intros [? _]%mlift_ok].
        intros (rev & st2 & _ & [= <- <-])%mbind_ok. by eapply Hc. }
      unfold inherited_pin. case_bool_decide; [destruct job_pin as [pin|]|].
      * intros Hr. apply mbind_ok in Hr as (act & ? & [Ha _]%mlift_ok & Hr). injection Hr as <- <-. by eapply action_at_valid.
      * intros Hr. apply Hlive in Hr as (c & st1 & Hc & Hr). by eapply Hown.
      * intros Hr. apply Hlive in Hr as (c & st1 & Hc & Hr). by eapply Hown.
    + destruct (actions cfg !! _) eqn:Ea; [|by intros [? _]%mlift_ok]. intros [= <- <-]. by eapply Hcfg.
Qed.

Lemma step_row_calm x name fs st :
  config_valid (rx_workspace_config x) → retry_fits (Workflow.retry fs) → timeout_fits (fs_timeout fs) → calm (step_row x name fs st).
Proof.
  intros Hc Hr Ht. assert (Hres : calm (resolve_step_row x name fs (initial_status fs) None st)).
  { unfold resolve_step_row. apply calm_mbind; [apply calm_fails|]. intros sa st1 Hsa. unfold mfails in Hsa. apply fails_ok, step_action_valid in Hsa; [|done].
    apply calm_mbind.
    - case_bool_decide; [apply calm_fails|]. apply calm_mbind; [|done]. unfold mlift. by destruct (precheck_literal_connection_inputs _ _ _ _).
    - intros tp st2 _. unfold mlift. by edestruct build_step_fits as [row ->]. }
  unfold step_row. destruct (Workflow.git_ref fs) as [r|]; [|done]. destruct (classify_ref r); [done|].
  unfold mlift, deferred_row. destruct (check_ref_template_syntax r); cbn [res_bind res_map]; [|done].
  destruct (plan_reference (rx_workspace_name x) None (action fs) (Some r) world) as [[target ?|b]|] eqn:Ep; simpl; [| |done].
  - destruct (retry_cols_fit _ Hr) as [c ->]. simpl. destruct (timeout_or_fit _ (step_timeout_secs (rx_defaults x)) Ht) as [z Hz].
    unfold step_timeout. by rewrite Hz.
  - unfold plan_reference in Ep. destruct (ref_owner _ _ _); simpl in Ep; [|done]. by case_bool_decide.
Qed.

Lemma step_rows_calm x steps st :
  config_valid (rx_workspace_config x) →
  (∀ name fs, (name, fs) ∈ steps → retry_fits (Workflow.retry fs) ∧ timeout_fits (fs_timeout fs)) → calm (step_rows x steps st).
Proof.
  intros Hc. revert st. induction steps as [|[name fs] rest IH]; intros st Hs; [done|]. simpl. destruct (Hs name fs) as [Hr Ht]; [by left|].
  apply calm_mbind; [by apply step_row_calm|]. intros row st1 _. apply calm_mbind; [|done].
  apply IH. intros n f Hin. apply (Hs n f). by right.
Qed.

(** C27. On validated configurations a creation answers; it does not panic. *)
Theorem creation_never_panics job_id n a db :
  config_valid (ca_config a) → (∀ t, tasks (ca_config a) !! ca_task_name a = Some t → task_valid t) →
  prepare job_id n a db ≠ Err Panics.
Proof.
  intros Hc Htask. change (calm (prepare job_id n a db)). unfold prepare. apply calm_bind; [apply calm_fails|].
  intros task Ht. apply fails_ok, find_task_ok in Ht as [Ht _]. destruct (Htask task Ht) as (Hr & Hto & Hsteps).
  apply calm_bind; [apply calm_fails|]. intros [[input src] lin] _. apply calm_bind; [apply calm_fails|]. intros fl _.
  apply calm_bind; [apply (calm_map_err (λ e, [LFile e]))|]. intros fv _. destruct (_ && _); [done|].
  apply calm_bind; [apply calm_fails|]. intros merged _. destruct (_ && _); [done|].
  apply calm_bind; [apply calm_fails|]. intros [set st] _. apply calm_bind; [apply calm_fails|]. intros resolved _.
  apply calm_bind. { apply step_rows_calm; [done|]. intros name fs Hin. apply (Hsteps name fs). by apply elem_of_hash_iter. }
  intros [rows st'] _. destruct (timeout_or_fit _ (job_timeout_secs (ca_defaults a)) Hto) as [z ->]. simpl.
  unfold job_retries. destruct (task_retry task) as [r|]; [|done]. destruct (Hr r eq_refl) as (E1 & E2 & E3).
  destruct (Z.eqb_spec (max_attempts r) 0); [lia|]. rewrite i32_fits; [done|]. unfold fits_i32 in *. lia.
Qed.
End calm.
End outcomes.
