(* ===== verification/Trigger.v ===== *)
(** * The target of a trigger

    [crates/stroem-server/src/trigger_target.rs]: the workspace, task and
    configuration a fired trigger creates its job from, with a static or a
    templated ref, and the creation of that job. *)
From S2P Require Import Prelude Json Text Template TemplateError GitRef Workflow JobModel Db JobRepo Pins InputFiles Errors Engine JsonField Connections WorkspaceSet RenderContext Refs Manager JobCreator.

Record ResolvedTarget := mkResolvedTarget {
  tg_workspace : string;
  tg_task_name : string;
  tg_pin : option PinRef;
  tg_task_folder : option string;
  tg_config : ConfigHandle;
}.

Definition tg_pin_cols (t : ResolvedTarget) : option JobPinCols :=
  (λ pin, mkJobPinCols (Pins.git_ref pin) (tg_task_folder t)) <$> tg_pin t.

Section targets.
Context `{Workspaces, HashIter, Tera}.

(** The pin's commit, else the live revision at this call. *)
Definition tg_revision (n : nat) (t : ResolvedTarget) : option string :=
  match tg_pin t with Some pin => Some (commit pin) | None => get_revision n (tg_workspace t) end.

(** The call has a memo of its own. *)
Definition resolve_trigger_target (defining_ws : string) (defining_cfg : WorkspaceConfig) (task_ref : string) (git_ref : option string)
    : M ResolvedTarget := λ st,
  let? (p, st1) := resolve_task_for_step defining_ws defining_cfg None task_ref git_ref (mkSt ∅ (calls st)) in
  let '(resolved, pin) := p in
  let task_folder := match pin with Some _ => folder (rk_task resolved) | None => None end in
  let? (config, st2) :=
    match pin with
    | Some p => let? (pinned, st2) := ensure_pin (rk_workspace resolved) p st1 in Ok (PinnedAt pinned, st2)
    | None => Ok (Live (resolved_config resolved defining_cfg), st1)
    end in
  Ok (mkResolvedTarget (rk_workspace resolved) (rk_task_name resolved) pin task_folder config, mkSt (memo st) (calls st2)).

(** An error of a call that must not carry a value. *)
Definition private {A} (owner : string) (m : M A) : MT RenderedRefError A := λ st,
  res_map_err (λ e, from_error e owner) (m st).

Definition pins_resolve (owner value : string) : M string := λ st,
  match pin_resolve (calls st) owner value with Ok c => Ok (c, tick st) | Err e => Err [LPin e] end.

(** [None]: the ref rendered empty, which means no ref. *)
Definition resolve_templated_trigger_target (defining_ws task_ref template : string) (input : json)
    : MT RenderedRefError (option ResolvedTarget) :=
  match plan_reference defining_ws None task_ref (Some template) world with
  | Err e => mlift (Err (from_plan_error e defining_ws))
  | Ok (Today _) => mret None  (* unreachable: a ref was given *)
  | Ok (AtRef target _) =>
      let owner := rt_owner target in
      let! rendered := private owner (mlift (render_ref_template template (rc_value (webhook_ref input)))) in
      match rendered_ref_value rendered with
      | None => mret None
      | Some rendered =>
          let! set := private owner (load_set defining_ws None) in
          let! value := mlift (res_map_err (λ r, from_rejection r owner) (check_rendered_ref rendered (collect_redaction_values set))) in
          let! commit := private owner (pins_resolve owner value) in
          let! pinned := private owner (pinned_config_private owner commit) in
          let! own := private owner (pin_redaction_values owner pinned) in
          let! _ := mlift (res_map_err (λ r, from_rejection r owner) (check_rendered_ref value own)) in
          match tasks (pn_config pinned) !! rt_local_name target with
          | None => mlift (Err (rendered_new KNoAction owner))
          | Some task =>
              mret (Some (mkResolvedTarget owner (rt_local_name target) (Some (mkPinRef value commit)) (folder task) (PinnedAt pinned)))
          end
      end
  end.

(** What the job of a target is created with; [n] is the call that reads the
    live revision. *)
Definition create_target_job (n : nat) (defaults : JobDefaults) (t : ResolvedTarget) (input : json) (source_type source_id : string)
    : CreateArgs :=
  let config := handle_config (tg_config t) in
  match tg_pin t with
  | Some pin =>
      create_job_for_task_pinned config (tg_workspace t) (tg_task_name t) input source_type (Some source_id)
        (commit pin) (Pins.git_ref pin) Normal defaults Indirect
  | None =>
      create_job_for_task_detailed config (tg_workspace t) (tg_task_name t) input source_type (Some source_id)
        (tg_revision n t) None defaults Indirect
  end.
End targets.

(** ** Trimming twice *)

(** No white space in front. *)
Definition lead (l : list ascii) : Prop :=
  match l with
  | [] => True
  | a :: l1 => is_ws1 a = false ∧ match l1 with [] => True | b :: l2 => is_ws2 a b = false ∧ match l2 with [] => True | c :: _ => is_ws3 a b c = false end end
  end.
Definition trail (l : list ascii) : Prop :=
  match l with
  | [] => True
  | a :: l1 => is_ws1 a = false ∧ match l1 with [] => True | b :: l2 => is_ws2 b a = false ∧ match l2 with [] => True | c :: _ => is_ws3 c b a = false end end
  end.

Lemma trim_start_lead l : lead (trim_start_bytes l).
Proof.
  induction l as [l IH] using (induction_ltof1 _ (@length ascii)). unfold ltof in IH. destruct l as [|a [|b [|c l]]]; simpl; [done|..].
  - by destruct (is_ws1 a) eqn:E1; simpl.
  - destruct (is_ws1 a) eqn:E1; [apply (IH [b]); simpl; lia|]. by destruct (is_ws2 a b) eqn:E2; simpl.
  - destruct (is_ws1 a) eqn:E1; [apply (IH (b :: c :: l)); simpl; lia|].
    destruct (is_ws2 a b) eqn:E2; [apply (IH (c :: l)); simpl; lia|]. destruct (is_ws3 a b c) eqn:E3; [apply (IH l); simpl; lia|done].
Qed.

Lemma trim_end_trail l : trail (trim_end_rev l).
Proof.
  induction l as [l IH] using (induction_ltof1 _ (@length ascii)). unfold ltof in IH. destruct l as [|a [|b [|c l]]]; simpl; [done|..].
  - by destruct (is_ws1 a) eqn:E1; simpl.
  - destruct (is_ws1 a) eqn:E1; [apply (IH [b]); simpl; lia|]. by destruct (is_ws2 b a) eqn:E2; simpl.
  - destruct (is_ws1 a) eqn:E1; [apply (IH (b :: c :: l)); simpl; lia|].
    destruct (is_ws2 b a) eqn:E2; [apply (IH (c :: l)); simpl; lia|]. destruct (is_ws3 c b a) eqn:E3; [apply (IH l); simpl; lia|done].
Qed.

Lemma lead_id l : lead l → trim_start_bytes l = l.
Proof. destruct l as [|a [|b [|c l]]]; simpl; intros; destruct_and?; repeat case_match; congruence. Qed.
Lemma trail_id l : trail l → trim_end_rev l = l.
Proof. destruct l as [|a [|b [|c l]]]; simpl; intros; destruct_and?; repeat case_match; congruence. Qed.

Lemma lead_prefix l k : lead (l ++ k) → lead l.
Proof. destruct l as [|a [|b [|c l]]]; simpl; [done|..]; destruct k as [|? [|? ?]]; simpl; tauto. Qed.

Lemma trim_end_suffix l : ∃ k, l = k ++ trim_end_rev l.
Proof.
  induction l as [l IH] using (induction_ltof1 _ (@length ascii)). unfold ltof in IH.
  destruct l as [|a l1]; [by exists []|]. cbn [trim_end_rev].
  destruct (is_ws1 a). { destruct (IH l1) as [k Hk]; [simpl; lia|]. exists (a :: k). simpl. by f_equal. }
  destruct l1 as [|b l2]; [by exists []|]. destruct (is_ws2 b a).
  { destruct (IH l2) as [k Hk]; [simpl; lia|]. exists (a :: b :: k). simpl. by do 2 f_equal. }
  destruct l2 as [|c l3]; [by exists []|]. destruct (is_ws3 c b a); [|by exists []].
  destruct (IH l3) as [k Hk]; [simpl; lia|]. exists (a :: b :: c :: k). simpl. by do 3 f_equal.
Qed.

Lemma trim_trim s : trim (trim s) = trim s.
Proof.
  unfold trim. rewrite bytes_of_bytes. set (l := trim_start_bytes (bytes s)).
  assert (Hl : lead (rev (trim_end_rev (rev l)))).
  { destruct (trim_end_suffix (rev l)) as [k Hk]. apply (f_equal (@rev ascii)) in Hk. rewrite rev_involutive, rev_app_distr in Hk.
    apply (lead_prefix _ (rev k)). rewrite <-Hk. apply trim_start_lead. }
  rewrite lead_id by done. rewrite rev_involutive. by rewrite trail_id by apply trim_end_trail.
Qed.

(** ** What a target is *)

Section correct.
Context `{Workspaces, HashIter, Tera}.

Lemma private_ok {A} owner (m : M A) st a st' : private owner m st = Ok (a, st') → m st = Ok (a, st').
Proof. unfold private. destruct (m st); [|done]. by intros [= ->]. Qed.

Lemma rejection_ok (owner rendered : string) secrets v :
  res_map_err (λ r, from_rejection r owner) (check_rendered_ref rendered secrets) = Ok v → check_rendered_ref rendered secrets = Ok v.
Proof. destruct (check_rendered_ref rendered secrets); [|done]. by intros [= ->]. Qed.

(** A templated trigger that resolves to a target pins the job to a ref in
    which no secret value occurs, neither of the live workspaces nor of the
    commit it selects; the commit is what that ref resolved to, the
    configuration is the commit's and has the task. *)
Theorem templated_target_secret_free defining_ws task_ref template input st t st' :
  resolve_templated_trigger_target defining_ws task_ref template input st = Ok (Some t, st') →
  ∃ pin pinned rendered spec task,
    tg_pin t = Some pin ∧ tg_config t = PinnedAt pinned ∧
    render_ref_template template (rc_value (webhook_ref input)) = Ok rendered ∧ Pins.git_ref pin = trim rendered ∧
    parse_git_ref (Pins.git_ref pin) = Ok spec ∧
    pin_resolve (S (calls st)) (tg_workspace t) (Pins.git_ref pin) = Ok (commit pin) ∧
    pin_ensure (S (S (calls st))) (tg_workspace t) (commit pin) = Ok pinned ∧
    tasks (pn_config pinned) !! tg_task_name t = Some task ∧ tg_task_folder t = folder task ∧
    let live := from_parts defining_ws None (get_all_configs (calls st)) (elements configured_names) in
    let others := List.filter (λ p, p.1 <>? tg_workspace t) (get_all_configs (S (S (S (calls st))))) in
    let own := from_parts (tg_workspace t) (Some (pn_config pinned)) others (elements configured_names) in
    ∀ s, s ∈ collect_redaction_values live ∨ s ∈ collect_redaction_values own → s ≠ "" →
      ¬ infix (bytes s) (bytes (Pins.git_ref pin)).
Proof.
  unfold resolve_templated_trigger_target. destruct (plan_reference _ _ _ _ _) as [[target r|o]|e] eqn:Ep; [|discriminate|discriminate].
  intros (rendered & st1 & [Hr ->]%private_ok%mlift_ok & E)%mbind_ok.
  unfold rendered_ref_value in E. destruct (bool_decide (trim rendered = "")) eqn:Ee; [done|].
  apply mbind_ok in E as (set & st1 & [= <- <-]%private_ok & E).
  apply mbind_ok in E as (value & st2 & [Hv%rejection_ok ->]%mlift_ok & E).
  apply mbind_ok in E as (c & st3 & Hc%private_ok & E).
  unfold pins_resolve in Hc. cbn [calls tick] in Hc. destruct (pin_resolve _ _ _) as [c'|] eqn:Epr; [|done]. injection Hc as -> <-.
  apply mbind_ok in E as (pinned & st4 & Hp%private_ok & E).
  unfold pinned_config_private in Hp. cbn [calls tick] in Hp. destruct (pin_ensure _ _ _) as [pinned'|pe] eqn:Epe; [|by destruct pe].
  injection Hp as -> <-.
  apply mbind_ok in E as (own & st5 & [= <- <-]%private_ok & E). cbn [calls tick] in E.
  apply mbind_ok in E as (v2 & st6 & [Hv2%rejection_ok ->]%mlift_ok & E).
  destruct (tasks (pn_config pinned) !! rt_local_name target) as [task|] eqn:Et; [|done]. injection E as <- <-.
  apply check_rendered_ref_ok in Hv as (-> & [spec Hspec] & Hlive). rewrite !trim_trim in *. apply check_rendered_ref_ok in Hv2 as (-> & _ & Hown). rewrite !trim_trim in *.
  exists (mkPinRef (trim rendered) c), pinned, rendered, spec, task. cbn [tg_pin tg_config tg_workspace tg_task_name tg_task_folder Pins.git_ref commit].
  do 9 (split; [done|]). intros s [Hs|Hs] Hne; [exact (Hlive s Hs Hne)|exact (Hown s Hs Hne)].
Qed.
Lemma pin_at_ref_loads owner r st pin pinned st' :
  pin_at_ref owner r st = Ok ((pin, pinned), st') → ∃ n, pin_ensure n owner (commit pin) = Ok pinned.
Proof.
  unfold pin_at_ref. destruct (match memo st !! _ with Some _ => _ | None => _ end) as [[pin0 st0]|]; [|done].
  simpl. unfold ensure_pin. destruct (pin_ensure _ _ _) as [p|] eqn:E; [|done]. intros [= -> -> _]. eauto.
Qed.

(** Where a reference without a base pin leads: the live task, or the task at
    the commit of the ref. *)
Lemma resolve_unpinned ws cfg task_ref git_ref st r pin st' :
  resolve_task_for_step ws cfg None task_ref git_ref st = Ok ((r, pin), st') →
  match git_ref, pin with
  | Some g, Some p =>
      ∃ pinned n, rk_config r = Foreign (pn_config pinned) ∧ pin_ensure n (rk_workspace r) (commit p) = Ok pinned ∧
        tasks (pn_config pinned) !! rk_task_name r = Some (rk_task r)
  | None, None => tasks (resolved_config r cfg) !! rk_task_name r = Some (rk_task r)
  | _, _ => False
  end.
Proof.
  unfold resolve_task_for_step. intros (u & st1 & [_ ->]%mlift_ok & E)%mbind_ok.
  apply mbind_ok in E as (plan & st1 & [Hp ->]%mlift_ok & E). destruct git_ref as [g|]; simpl in Hp.
  - destruct (ref_owner _ _ _) as [target|]; [|done]. simpl in Hp. case_bool_decide; [|done]. injection Hp as <-.
    apply mbind_ok in E as ([p pinned] & st1 & (n & Hn)%pin_at_ref_loads & E).
    apply mbind_ok in E as (task & st2 & [Ht ->]%mlift_ok & E). injection E as <- <- _.
    unfold task_named_at in Ht. destruct (tasks _ !! _) as [t|] eqn:Et; [|done]. injection Ht as ->. by exists pinned, n.
  - injection Hp as <-. apply mbind_ok in E as (o & st1 & [Ho ->]%mlift_ok & E).
    replace (inherited_pin _ _ _) with (None : option PinRef) in E by (unfold inherited_pin; by case_bool_decide).
    apply mbind_ok in E as (r' & st1 & Hr & [= -> <- _]). revert Hr. unfold resolve_task_ref.
    intros (o' & st2 & [Ho' ->]%mlift_ok & E)%mbind_ok. destruct o' as [|w name].
    + destruct (tasks cfg !! task_ref) as [t|] eqn:Et; [|done]. injection E as <- _. done.
    + apply mbind_ok in E as (c & st3 & _ & E). destruct c as [c|]; [|done].
      destruct (tasks c !! name) as [t|] eqn:Et; [|done]. injection E as <- _. done.
Qed.

(** A trigger's target has its task: the one of the live configuration, or
    with a ref the one at the commit of the ref, whose folder the job is
    stamped with. Commits do not change. *)
Theorem trigger_target_has_task ws cfg task_ref git_ref st t st' :
  (∀ n m w c p q, pin_ensure n w c = Ok p → pin_ensure m w c = Ok q → p = q) →
  resolve_trigger_target ws cfg task_ref git_ref st = Ok (t, st') →
  ∃ task, tasks (handle_config (tg_config t)) !! tg_task_name t = Some task ∧
    match git_ref with
    | Some _ => ∃ pin, tg_pin t = Some pin ∧ tg_pin_cols t = Some (mkJobPinCols (Pins.git_ref pin) (folder task)) ∧
                  ∃ n, (pn_config <$> res_ok (pin_ensure n (tg_workspace t) (commit pin))) = Some (handle_config (tg_config t))
    | None => tg_pin t = None ∧ tg_pin_cols t = None
    end.
Proof.
  intros Himm. unfold resolve_trigger_target. destruct (resolve_task_for_step _ _ _ _ _ _) as [[[r pin] st1]|] eqn:E; [|done].
  apply resolve_unpinned in E. destruct git_ref as [g|], pin as [p|]; try done.
  - destruct E as (pinned & n & _ & Hn & Ht). unfold ensure_pin.
    simpl. destruct (pin_ensure (calls st1) _ _) as [q|] eqn:Eq; [|done]. intros [= <- _].
    assert (q = pinned) as -> by by eapply Himm. exists (rk_task r). cbn. split; [done|]. exists p. split_and!; [done..|].
    exists n. by rewrite Hn.
  - intros [= <- _]. exists (rk_task r). by cbn.
Qed.
End correct.
