(* ===== verification/Scheduler.v ===== *)
(** * The scheduler

    [crates/stroem-server/src/scheduler.rs]: the cron triggers of all
    workspaces, when each runs next, one pass of the loop, the reload of the
    configurations, and firing a trigger under its concurrency policy. The cron
    and time-zone libraries are an interface. *)
From S2P Require Import Prelude Json Text Template Engine GitRef JobModel Gate Workflow Db StepRepo StepRepoProps JobRepo JobRepoProps Pins InputFiles Errors JsonField Connections WorkspaceSet RenderContext Refs Manager JobCreator Trigger Cascade CascadeApply Settle Retry Terminal Settlement CancelProps.

(** [croner] and [chrono_tz]; [find_next_occurrence(start, false)] is later
    than its start. Serialising a trigger definition is [serde]'s. *)
Class CronLib := {
  Cron : Type;
  Tz : Type;
  cron_parse : string → option Cron;
  tz_parse : string → option Tz;
  find_next_occurrence : Cron → option Tz → Time → option Time;
  find_next_after c tz start next : find_next_occurrence c tz start = Some next → (start < next)%Z;
  trigger_to_value : TriggerDef → json;
}.

Section scheduler.
Context `{CronLib}.

Record TriggerState := mkTriggerState {
  ts_cron : Cron;
  ts_cron_expr : string;
  ts_workspace : string;
  ts_task : string;
  ts_git_ref : option string;
  ts_input : gmap string json;
  ts_trigger_name : string;
  ts_concurrency : ConcurrencyPolicy;
  ts_timezone : option Tz;
  ts_timezone_str : option string;
  ts_force_refresh : bool;
  ts_definition : json;
  ts_last_run : option Time;
  ts_next_run : option Time;
}.

Definition with_runs (last next : option Time) (t : TriggerState) : TriggerState :=
  mkTriggerState (ts_cron t) (ts_cron_expr t) (ts_workspace t) (ts_task t) (ts_git_ref t) (ts_input t) (ts_trigger_name t)
    (ts_concurrency t) (ts_timezone t) (ts_timezone_str t) (ts_force_refresh t) (ts_definition t) last next.

Definition compute_next_run (cron : Cron) (last_run : option Time) (now : Time) (timezone : option Tz) : option Time :=
  let start := match last_run with Some lr => if (now <? lr)%Z then lr else now | None => now end in
  find_next_occurrence cron timezone start.

Definition advance_state_after_tick (now : Time) (t : TriggerState) : TriggerState :=
  with_runs (Some now) (compute_next_run (ts_cron t) (Some now) now (ts_timezone t)) t.

Abbreviation Triggers := (gmap string TriggerState).

Definition SECOND : Z := 1000000.
Definition MAX_SLEEP : Z := 30 * SECOND.

(** [to_std] refuses a negative duration. *)
Definition wait_for (now next : Time) : Z := if (next - now <? 0)%Z then SECOND else (next - now)%Z.

(** [Iterator::min] *)
Definition min_of (l : list Z) : option Z :=
  match l with [] => None | x :: l => Some (fold_left Z.min l x) end.

Definition sleep_duration `{HashIter} (triggers : Triggers) (now : Time) : Z :=
  match min_of (wait_for now <$> omap ts_next_run (hash_iter triggers).*2) with
  | None => MAX_SLEEP
  | Some d => Z.min d MAX_SLEEP
  end.

(** ** Loading *)

Definition trigger_key (ws_name trigger_name : string) : string := ws_name +:+ "/" +:+ trigger_name.

(** The state of a trigger definition, [None] when it is not scheduled. *)
Definition load_trigger (previous : option Triggers) (ws_name trigger_name : string) (def : TriggerDef) : option TriggerState :=
  match def with
  | TScheduler s =>
      if negb (sc_enabled s) then None
      else
        match cron_parse (sc_cron s) with
        | None => None
        | Some cron =>
            let tz := sc_timezone s ≫= tz_parse in
            let '(last_run, next_run) :=
              match previous ≫= (λ prev, prev !! trigger_key ws_name trigger_name) with
              | Some old =>
                  if (ts_cron_expr old ==? sc_cron s) && (ts_timezone_str old ==? sc_timezone s)
                  then (ts_last_run old, ts_next_run old) else (None, None)
              | None => (None, None)
              end in
            Some (mkTriggerState cron (sc_cron s) ws_name (sc_task s) (sc_git_ref s) (sc_input s) trigger_name (sc_concurrency s)
                    tz (sc_timezone s) (sc_force_refresh s) (trigger_to_value def) last_run next_run)
        end
  | _ => None
  end.

Definition insert_all (l : list (string * TriggerState)) (m : Triggers) : Triggers :=
  fold_left (λ m p, <[p.1 := p.2]> m) l m.

Section load.
Context `{HashIter} (triggers_enabled : string → bool) (get_config : string → option WorkspaceConfig) (previous : option Triggers).

(** What one workspace contributes: its schedules, or while it is not
    available the schedules last known of it. *)
Definition workspace_triggers (ws_name : string) : list (string * TriggerState) :=
  if negb (triggers_enabled ws_name) then []
  else
    match get_config ws_name with
    | None =>
        match previous with
        | Some prev => List.filter (λ p, ts_workspace p.2 ==? ws_name) (hash_iter prev)
        | None => []
        end
    | Some config =>
        omap (λ p, pair (trigger_key ws_name p.1) <$> load_trigger previous ws_name p.1 p.2) (hash_iter (triggers config))
    end.

Definition load_triggers (names : list string) : Triggers :=
  fold_left (λ m ws, insert_all (workspace_triggers ws) m) names ∅.
End load.

(** ** One pass of the loop *)

Definition prime (now : Time) (t : TriggerState) : TriggerState :=
  match ts_next_run t with
  | None => with_runs (ts_last_run t) (compute_next_run (ts_cron t) (ts_last_run t) now (ts_timezone t)) t
  | Some _ => t
  end.
Definition due (now : Time) (t : TriggerState) : bool :=
  match ts_next_run t with Some next => (next <=? now)%Z | None => false end.

Section pass.
Context `{HashIter} {St : Type} (fire : TriggerState → St → St).

(** The clock is read after every fire, [after] of the key. *)
Definition fire_one (is_leader : bool) (after : string → Time) (acc : Triggers * St) (key : string) : Triggers * St :=
  let '(triggers, st) := acc in
  match triggers !! key with
  | None => acc  (* unreachable: the key comes from the map *)
  | Some t =>
      (<[key := advance_state_after_tick (after key) t]> triggers, if is_leader then fire t st else st)
  end.

Definition to_fire (now : Time) (triggers : Triggers) : list string :=
  (List.filter (λ p, due now p.2) (hash_iter triggers)).*1.

Definition pass (is_leader : bool) (now : Time) (after : string → Time) (triggers : Triggers) (st : St) : Triggers * St :=
  let primed := prime now <$> triggers in
  fold_left (fire_one is_leader after) (to_fire now primed) (primed, st).

(** What a round of the loop reads: whether this replica leads, the clock, and
    after the sleep the workspaces of the reload. *)
Record LoopRound := mkRound {
  rd_leader : bool;
  rd_now : Time;
  rd_after : string → Time;
  rd_enabled : string → bool;
  rd_config : string → option WorkspaceConfig;
  rd_names : list string;
}.

Fixpoint scheduler_loop (rounds : list LoopRound) (triggers : Triggers) (st : St) : Triggers * St :=
  match rounds with
  | [] => (triggers, st)
  | r :: rounds =>
      let '(triggers, st) := pass (rd_leader r) (rd_now r) (rd_after r) triggers st in
      scheduler_loop rounds (load_triggers (rd_enabled r) (rd_config r) (Some triggers) (rd_names r)) st
  end.
End pass.
End scheduler.

(** ** Firing *)

(** The settlement's services, the bounds of its recursions, the clocks and
    fresh ids, the number of the first call to the workspaces, the failures of
    the two reads, the initialisation of a created job and its
    [on_suspended] hooks. *)
Record FireEnv := mkFireEnv {
  fe_services : Services;
  fe_fuel : nat;
  fe_depth : nat;
  fe_host_now : Time;
  fe_job_id : Uuid;
  fe_skip_id : Uuid;
  fe_call : nat;
  fe_defaults : JobDefaults;
  fe_count_fails : bool;
  fe_list_fails : bool;
  fe_init : Uuid → TaskDef → Tables → Tables * result AnyError (option JobStatus);
  (** The error of the transaction that makes up for a failed initialisation. *)
  fe_uncompensated : option AnyError;
  fe_hooks : Uuid → ServerState → ServerState;
}.

Inductive FireOutcome :=
| Missed                          (* the target cannot run *)
| Outdated                        (* no longer defined this way *)
| SkippedFire                     (* an earlier run is active *)
| CreationFailed
| CreationPanicked
| Fired (job_id : Uuid).

Abbreviation FireState := (ServerState * FileTables)%type.

Section fire.
Context `{CronLib, Workspaces, HashIter, Tera, JsonParser, Serde, AgentCodec, Collation, TemplateEngine} (env : FireEnv).
Let now := sv_now (fe_services env).

Definition source_id (t : TriggerState) : string := ts_workspace t +:+ "/" +:+ ts_trigger_name t.

Definition still_defined (t : TriggerState) (config : WorkspaceConfig) : bool :=
  match triggers config !! ts_trigger_name t with
  | Some def => json_eqb (trigger_to_value def) (ts_definition t)
  | None => false
  end.

(** Everything that can make a fire miss, before the concurrency policy. A
    reload publishes under the next call number. *)
Definition fire_target (t : TriggerState) : FireOutcome + (ResolvedTarget * nat) :=
  let n := if ts_force_refresh t then S (fe_call env) else fe_call env in
  match get_config n (ts_workspace t) with
  | None => inl Missed
  | Some config =>
      if negb (still_defined t config) then inl Outdated
      else
        match resolve_trigger_target (ts_workspace t) config (ts_task t) (ts_git_ref t) (mkSt ∅ (S n)) with
        | Err _ => inl Missed
        | Ok (target, st) =>
            match tasks (handle_config (tg_config target)) !! tg_task_name target with
            | Some task =>
                match preflight (td_input task) (object_of (ts_input t)) with
                | Err _ => inl Missed
                | Ok _ => inr (target, calls st)
                end
            | None => inr (target, calls st)
            end
        end
  end.

(** A failed insert is logged. *)
Definition record_skipped (t : TriggerState) (target : ResolvedTarget) (n : nat) (st : ServerState) : ServerState :=
  match create_skipped now (fe_skip_id env) (tg_workspace target) (tg_task_name target) (Some (object_of (ts_input t))) "trigger"
          (Some (source_id t)) (tg_revision n target) (tg_pin_cols target) (st_db st) with
  | Ok (db, _) => with_db db st
  | Err _ => st
  end.

Definition cancel_all (ids : list Uuid) (st : ServerState) : option ServerState :=
  fold_left (λ acc id, st ← acc;
               '(st', _) ← cancel (fe_services env) (λ i s, (advance (fe_services env) (fe_fuel env) i s).1) (fe_depth env) id st;
               Some st') ids (Some st).

(** [inl]: skipped; [inr]: go on. [None]: a recursion bound was too small. *)
Definition apply_concurrency (t : TriggerState) (target : ResolvedTarget) (n : nat) (st : ServerState)
    : option (ServerState + ServerState) :=
  match ts_concurrency t with
  | Workflow.Skip =>
      if negb (fe_count_fails env) && (0 <? count_active_by_source "trigger" (source_id t) (st_db st))%nat
      then Some (inl (record_skipped t target n st)) else Some (inr st)
  | CancelPrevious =>
      if fe_list_fails env then Some (inr st)
      else inr <$> cancel_all (get_active_job_ids_by_source "trigger" (source_id t) (st_db st)) st
  | Workflow.Allow => Some (inr st)
  end.

Definition fire_args (t : TriggerState) (target : ResolvedTarget) (n : nat) : CreateArgs :=
  create_target_job n (fe_defaults env) target (object_of (ts_input t)) "trigger" (source_id t).

Definition create_fired (t : TriggerState) (target : ResolvedTarget) (n : nat) (fs : FireState) : FireState * FireOutcome :=
  let '(st, ft) := fs in
  match create_job_for_task_inner now (fe_host_now env) (fe_job_id env) (S n) (fe_init env) (fe_uncompensated env) (fire_args t target n) (st_db st, ft) with
  | ((db, ft'), Ok created) =>
      let st1 := fe_hooks env (created_job_id created) (with_db db st) in
      ((job_created (λ i s, (advance (fe_services env) (fe_fuel env) i s).1) created st1, ft'), Fired (created_job_id created))
  | ((db, ft'), Err (Erred _)) => ((with_db db st, ft'), CreationFailed)
  | ((db, ft'), Err Panics) => ((with_db db st, ft'), CreationPanicked)
  end.

Definition fire_trigger (t : TriggerState) (fs : FireState) : option (FireState * FireOutcome) :=
  match fire_target t with
  | inl o => Some (fs, o)
  | inr (target, n) =>
      c ← apply_concurrency t target n fs.1;
      match c with
      | inl st => Some ((st, fs.2), SkippedFire)
      | inr st => Some (create_fired t target (S n) (st, fs.2))
      end
  end.
End fire.

(** ** The scheduler fires each occurrence once

    What a pass of the loop does to every trigger, the whole run over passes
    and reloads, the sleep, the reload, and firing under the concurrency
    policies. *)

Abbreviation Triggers := (gmap string TriggerState).

Section schedule.
Context `{CronLib, HashIter}.

Lemma compute_next_after c lr now tz n : compute_next_run c lr now tz = Some n → (now < n)%Z.
Proof.
  unfold compute_next_run. intros Hn%find_next_after. destruct lr as [l|]; [|done]. destruct (Z.ltb_spec now l); lia.
Qed.

Lemma prime_next now t n : ts_next_run (prime now t) = Some n → ts_next_run t = Some n ∨ ts_next_run t = None ∧ (now < n)%Z.
Proof. unfold prime. destruct (ts_next_run t) eqn:E; [by left; congruence|]. intros Hn%compute_next_after. by right. Qed.

(** ** One pass *)

Definition passed (now : Time) (after : string → Time) (key : string) (t : TriggerState) : TriggerState :=
  let p := prime now t in if due now p then advance_state_after_tick (after key) p else p.

Lemma fire_all {St} (fire : TriggerState → St → St) leader after keys (m : Triggers) st :
  NoDup keys → Forall (λ k, is_Some (m !! k)) keys →
  (∀ k, (fold_left (fire_one fire leader after) keys (m, st)).1 !! k =
     if bool_decide (k ∈ keys) then advance_state_after_tick (after k) <$> m !! k else m !! k) ∧
  (fold_left (fire_one fire leader after) keys (m, st)).2 =
     if leader then fold_left (λ st t, fire t st) (omap (λ k, m !! k) keys) st else st.
Proof.
  revert m st. induction keys as [|k keys IH]; intros m st Hnd Hall.
  { split; [done|]. by destruct leader. }
  apply NoDup_cons in Hnd as [Hk Hnd]. apply Forall_cons in Hall as [[t Ht] Hall]. cbn [fold_left]. unfold fire_one at 2 4. rewrite Ht.
  destruct (IH (<[k := advance_state_after_tick (after k) t]> m) (if leader then fire t st else st) Hnd) as [H1 H2].
  { eapply Forall_impl; [exact Hall|]. intros k' [t' Ht']. destruct (decide (k' = k)) as [->|Hne]; [by rewrite lookup_insert_eq|].
    rewrite lookup_insert_ne by done. eauto. }
  split.
  - intros k'. rewrite H1. destruct (decide (k' = k)) as [->|Hne].
    + rewrite (bool_decide_false (k ∈ keys)), bool_decide_true by (done || by left). by rewrite lookup_insert_eq, Ht.
    + rewrite lookup_insert_ne by done. erewrite bool_decide_ext; [done|]. set_solver.
  - rewrite H2. simpl. rewrite Ht. destruct leader; [|done]. simpl. f_equal. apply list_omap_ext, Forall_Forall2_diag, Forall_forall.
    intros k' Hin. rewrite lookup_insert_ne; [done|]. intros ->. done.
Qed.

Lemma elem_of_to_fire now (m : Triggers) k : k ∈ to_fire now m ↔ ∃ t, m !! k = Some t ∧ due now t = true.
Proof.
  unfold to_fire. rewrite list_elem_of_fmap. split.
  - intros ([k' t] & -> & [Hin Hd]%elem_of_lfilter). simpl in *. apply elem_of_hash_iter in Hin. eauto.
  - intros (t & Hm & Hd). exists (k, t). split; [done|]. apply elem_of_lfilter. split; [by apply elem_of_hash_iter|done].
Qed.

Lemma NoDup_to_fire now (m : Triggers) : NoDup (to_fire now m).
Proof.
  unfold to_fire. apply (sublist_NoDup _ (hash_iter m).*1); [|apply fmap_sublist, lfilter_sublist].
  rewrite hash_iter_perm. apply NoDup_fst_map_to_list.
Qed.

(** A pass of the loop: every trigger whose next run has come is advanced past
    the clock, whether this replica leads or not; every other one is primed. A
    leader fires exactly those triggers, each once. Afterwards no trigger's
    next run lies in the past of the pass. *)
Theorem pass_correct {St} (fire : TriggerState → St → St) leader now after (m : Triggers) st :
  (∀ k, (now ≤ after k)%Z) →
  let '(m', st') := pass fire leader now after m st in
  (∀ k, m' !! k = passed now after k <$> m !! k) ∧
  (∀ k t n, m' !! k = Some t → ts_next_run t = Some n → (now < n)%Z) ∧
  ∃ ts, st' = (if leader then fold_left (λ st t, fire t st) ts st else st) ∧
    NoDup (to_fire now (prime now <$> m)) ∧ Forall2 (λ k t, prime now <$> m !! k = Some t ∧ due now t = true) (to_fire now (prime now <$> m)) ts ∧
    ∀ k t, m !! k = Some t → due now (prime now t) = true → prime now t ∈ ts.
Proof.
  intros Hafter. unfold pass. set (p := prime now <$> m). set (keys := to_fire now p).
  assert (Hsome : Forall (λ k, is_Some (p !! k)) keys) by (apply Forall_forall; intros k (t & ? & _)%elem_of_to_fire; eauto).
  destruct (fire_all fire leader after keys p st (NoDup_to_fire _ _) Hsome) as [H1 H2].
  destruct (fold_left _ keys (p, st)) as [m' st']. simpl in H1, H2.
  assert (Hm : ∀ k, m' !! k = passed now after k <$> m !! k).
  { intros k. rewrite H1. assert (p !! k = prime now <$> m !! k) as -> by apply lookup_fmap. unfold passed. destruct (m !! k) as [t|] eqn:Em; simpl; [|by case_bool_decide].
    f_equal. destruct (due now (prime now t)) eqn:Ed.
    - rewrite bool_decide_true; [done|]. apply elem_of_to_fire. exists (prime now t). unfold p. by rewrite lookup_fmap, Em.
    - rewrite bool_decide_false; [done|]. intros (t' & Ht' & Hd)%elem_of_to_fire. unfold p in Ht'. rewrite lookup_fmap, Em in Ht'. simplify_eq/=. congruence. }
  split; [done|]. split.
  - intros k t n Hk Hn. rewrite Hm in Hk. apply fmap_Some in Hk as (t0 & _ & ->). unfold passed in Hn.
    destruct (due now (prime now t0)) eqn:Ed.
    + unfold advance_state_after_tick, with_runs in Hn. simpl in Hn. apply compute_next_after in Hn. specialize (Hafter k). lia.
    + unfold due in Ed. rewrite Hn in Ed. lia.
  - exists (omap (λ k, p !! k) keys). split; [done|]. split; [apply NoDup_to_fire|]. split.
    + assert (Hdue : Forall (λ k, ∃ t, p !! k = Some t ∧ due now t = true) keys) by (apply Forall_forall; by intros k ?%elem_of_to_fire).
      clear -Hdue. induction Hdue as [|k keys (t & Ht & Hd) _ IH]; simpl; [constructor|]. rewrite Ht. constructor; [|done].
      unfold p in Ht. by rewrite lookup_fmap in Ht.
    + intros k t Ht Hd. apply list_elem_of_omap. exists k. assert (Hp : p !! k = Some (prime now t)) by (unfold p; by rewrite lookup_fmap, Ht).
      split; [|done]. apply elem_of_to_fire. eauto.
Qed.

(** ** Reloading *)

Definition keys_ok (m : Triggers) : Prop := ∀ k t, m !! k = Some t → k = source_id t.

Lemma insert_all_lookup (l : list (string * TriggerState)) (m : Triggers) k t :
  insert_all l m !! k = Some t → (k, t) ∈ l ∨ m !! k = Some t.
Proof.
  revert m. induction l as [|[k' t'] l IH]; intros m; [by right|]. cbn [insert_all fold_left]. intros [Hin|Hm]%IH; [left; by right|].
  simpl in Hm. destruct (decide (k' = k)) as [->|Hne]; [rewrite lookup_insert_eq in Hm; simplify_eq; left; by left|].
  rewrite lookup_insert_ne in Hm by done. by right.
Qed.

Lemma load_lookup enabled config prev names k t :
  load_triggers enabled config prev names !! k = Some t → ∃ ws, ws ∈ names ∧ (k, t) ∈ workspace_triggers enabled config prev ws.
Proof.
  unfold load_triggers. enough (∀ (m : Triggers), fold_left (λ m ws, insert_all (workspace_triggers enabled config prev ws) m) names m !! k = Some t →
    (∃ ws, ws ∈ names ∧ (k, t) ∈ workspace_triggers enabled config prev ws) ∨ m !! k = Some t) as Hg.
  { intros [?|?]%Hg; [done|]. by rewrite lookup_empty in *. }
  induction names as [|ws names IH]; intros m; [by right|]. cbn [fold_left]. intros [(w & ? & ?)|[?|?]%insert_all_lookup]%IH; [|left..|by right].
  - left. exists w. split; [by right|done].
  - exists ws. split; [by left|done].
Qed.

(** A trigger after a reload: its key is its source id, and its next run is
    the one it had or still to be computed. *)
Lemma load_keeps enabled config m names k t :
  keys_ok m → load_triggers enabled config (Some m) names !! k = Some t →
  k = source_id t ∧ ∀ n, ts_next_run t = Some n → ∃ old, m !! k = Some old ∧ ts_next_run old = Some n.
Proof.
  intros Hok (ws & _ & Hin)%load_lookup. unfold workspace_triggers in Hin. destruct (negb (enabled ws)); [by apply elem_of_nil in Hin|].
  destruct (config ws) as [c|].
  - apply list_elem_of_omap in Hin as ([name def] & _ & Hl). simpl in Hl. apply fmap_Some in Hl as (t' & Hl & [= -> ->]).
    unfold load_trigger in Hl. destruct def as [s| |]; [|done..]. destruct (negb (sc_enabled s)); [done|].
    destruct (cron_parse (sc_cron s)); [|done]. simpl in Hl. destruct (m !! trigger_key ws name) as [old|] eqn:Eo.
    + destruct (_ && _); injection Hl as <-; (split; [done|]); simpl; intros n Hn; [eauto|done].
    + injection Hl as <-. split; [done|]. done.
  - apply elem_of_lfilter in Hin as [Hin%elem_of_hash_iter _]. split; [by apply Hok|]. eauto.
Qed.

(** ** The run *)

Definition log_fire (t : TriggerState) (log : list (string * Time)) : list (string * Time) :=
  log ++ [(source_id t, default 0%Z (ts_next_run t))].
Definition occurrences (id : string) (log : list (string * Time)) : list Time := (List.filter (λ p, p.1 ==? id) log).*2.

(** The clock of a round never runs back, and not before the last one's. *)
Fixpoint clocks (floor : Time) (rounds : list LoopRound) : Prop :=
  match rounds with
  | [] => True
  | r :: rounds => (floor ≤ rd_now r)%Z ∧ (∀ k, (rd_now r ≤ rd_after r k)%Z) ∧ clocks (rd_now r) rounds
  end.

Lemma filter_key_unique (l : list (string * Time)) id :
  NoDup l.*1 → (List.filter (λ p, p.1 ==? id) l).*2 = [] ∨ ∃ n, (id, n) ∈ l ∧ (List.filter (λ p, p.1 ==? id) l).*2 = [n].
Proof.
  induction l as [|[k n] l IH]; intros Hnd; [by left|]. cbn in Hnd. apply NoDup_cons in Hnd as [Hk Hnd]. cbn [List.filter fst].
  case_bool_decide as E.
  - subst k. right. exists n. split; [by left|]. cbn. f_equal. destruct (IH Hnd) as [->|(n' & Hin & _)]; [done|].
    destruct Hk. change id with (id, n').1. by apply list_elem_of_fmap_2.
  - destruct (IH Hnd) as [->|(n' & Hin & ->)]; [by left|right; exists n'; split; [by right|done]].
Qed.

Lemma log_fire_all ts log :
  fold_left (λ log t, log_fire t log) ts log = log ++ ((λ t, (source_id t, default 0%Z (ts_next_run t))) <$> ts).
Proof. revert log. induction ts as [|t ts IH]; intros log; simpl; [by rewrite app_nil_r|]. rewrite IH. unfold log_fire. by rewrite <-app_assoc. Qed.

Lemma occurrences_app id l1 l2 : occurrences id (l1 ++ l2) = occurrences id l1 ++ occurrences id l2.
Proof. unfold occurrences. by rewrite List.filter_app, fmap_app. Qed.

Lemma sorted_snoc (l : list Z) x : StronglySorted Z.lt l → (∀ y, y ∈ l → (y < x)%Z) → StronglySorted Z.lt (l ++ [x]).
Proof.
  induction 1 as [|y l Hs IH Hy]; intros Hx; simpl; [repeat constructor|]. constructor; [apply IH; intros; apply Hx; by right|].
  apply Forall_app. split; [done|]. constructor; [apply Hx; by left|constructor].
Qed.

(** What has fired lies in the past and before every next run. *)
Record fired_ok (now : Time) (m : Triggers) (log : list (string * Time)) : Prop := {
  fo_keys : keys_ok m;
  fo_sorted id : StronglySorted Z.lt (occurrences id log);
  fo_past id o : o ∈ occurrences id log → (o ≤ now)%Z;
  fo_next id o t n : o ∈ occurrences id log → m !! id = Some t → ts_next_run t = Some n → (o < n)%Z;
}.

Lemma source_id_prime now t : source_id (prime now t) = source_id t.
Proof. unfold prime. by destruct (ts_next_run t). Qed.
Lemma source_id_passed now after k t : source_id (passed now after k t) = source_id t.
Proof. unfold passed. case_match; [change (source_id (prime now t) = source_id t)|]; apply source_id_prime. Qed.

(** One trigger's part in the log of a pass. *)
Lemma pass_occurrences floor leader now after (m : Triggers) log id :
  fired_ok floor m log → (floor ≤ now)%Z → (∀ k, (now ≤ after k)%Z) →
  let log' := (pass log_fire leader now after m log).2 in
  occurrences id log' = occurrences id log ∨
  ∃ t n, m !! id = Some t ∧ ts_next_run (prime now t) = Some n ∧ due now (prime now t) = true ∧ occurrences id log' = occurrences id log ++ [n].
Proof.
  intros Hok Hfl Hafter log'. pose proof (pass_correct log_fire leader now after m log Hafter) as Hp. unfold log'.
  destruct (pass _ _ _ _ _ _) as [m' st']. destruct Hp as (_ & _ & ts & -> & Hnd & H2 & _). cbn [snd].
  destruct leader; [|by left]. rewrite log_fire_all, occurrences_app.
  set (keys := to_fire now (prime now <$> m)) in *. set (es := (λ t, (source_id t, default 0%Z (ts_next_run t))) <$> ts).
  assert (Hes : es.*1 = keys ∧ ∀ k n, (k, n) ∈ es → ∃ t, m !! k = Some t ∧ ts_next_run (prime now t) = Some n ∧ due now (prime now t) = true).
  { clear Hnd. induction H2 as [|k t keys' ts' [Hk Hd] _ [IH1 IH2]]; [split; [done|intros k n Hin; by apply elem_of_nil in Hin]|]. apply fmap_Some in Hk as (t0 & Ht0 & ->).
    pose proof (fo_keys _ _ _ Hok _ _ Ht0) as Hkk. split.
    - unfold es in *. cbn. f_equal; [|done]. by rewrite source_id_prime.
    - intros k' n [[= -> ->]|Hin]%elem_of_cons; [|by apply IH2]. rewrite source_id_prime, <-Hkk. exists t0. split; [done|]. split; [|done].
      unfold due in Hd. by destruct (ts_next_run (prime now t0)). }
  destruct Hes as [Hes1 Hes2]. rewrite <-Hes1 in Hnd.
  destruct (filter_key_unique es id Hnd) as [E|(n & Hin & E)]; fold (occurrences id es) in E; rewrite E; [left; apply app_nil_r|right].
  destruct (Hes2 _ _ Hin) as (t & ? & ? & ?). exists t, n. auto.
Qed.

Lemma round_ok floor r (m : Triggers) log :
  fired_ok floor m log → (floor ≤ rd_now r)%Z → (∀ k, (rd_now r ≤ rd_after r k)%Z) →
  let p := pass log_fire (rd_leader r) (rd_now r) (rd_after r) m log in
  fired_ok (rd_now r) (load_triggers (rd_enabled r) (rd_config r) (Some p.1) (rd_names r)) p.2.
Proof.
  intros Hok Hfl Hafter p. pose proof (pass_correct log_fire (rd_leader r) (rd_now r) (rd_after r) m log Hafter) as Hp.
  pose proof (λ id, pass_occurrences floor (rd_leader r) (rd_now r) (rd_after r) m log id Hok Hfl Hafter) as Hocc.
  subst p. destruct (pass _ _ _ _ _ _) as [m' log']. simpl in *. destruct Hp as (Hm & Hnext & _).
  assert (Hk' : keys_ok m').
  { intros k t Hk. rewrite Hm in Hk. apply fmap_Some in Hk as (t0 & Ht0 & ->). rewrite source_id_passed. by apply (fo_keys _ _ _ Hok). }
  assert (Hpast : ∀ id o, o ∈ occurrences id log' → (o ≤ rd_now r)%Z).
  { intros id o Ho. destruct (Hocc id) as [E|(t & n & _ & Hn & Hd & E)]; rewrite E in Ho.
    - apply (fo_past _ _ _ Hok) in Ho. lia.
    - apply elem_of_app in Ho as [Ho|Ho]; [apply (fo_past _ _ _ Hok) in Ho; lia|]. apply list_elem_of_singleton in Ho as ->. unfold due in Hd. rewrite Hn in Hd. lia. }
  split.
  - intros k t Hk. by apply load_keeps in Hk as [? _].
  - intros id. destruct (Hocc id) as [->|(t & n & Ht & Hn & Hd & ->)]; [apply (fo_sorted _ _ _ Hok)|].
    apply sorted_snoc; [apply (fo_sorted _ _ _ Hok)|]. intros o Ho. apply prime_next in Hn as [Hn|[_ Hn]].
    + by eapply (fo_next _ _ _ Hok).
    + apply (fo_past _ _ _ Hok) in Ho. lia.
  - done.
  - intros id o t n Ho%Hpast Ht Hn. apply load_keeps in Ht as [_ Hold]; [|done]. destruct (Hold n Hn) as (old & Hin & Hn').
    specialize (Hnext _ _ _ Hin Hn'). lia.
Qed.

Lemma run_ok floor rounds (m : Triggers) log :
  fired_ok floor m log → clocks floor rounds → ∀ id, StronglySorted Z.lt (occurrences id (scheduler_loop log_fire rounds m log).2).
Proof.
  revert floor m log. induction rounds as [|r rounds IH]; intros floor m log Hok; [intros _; apply (fo_sorted _ _ _ Hok)|].
  intros (Hfl & Hafter & Hcl). pose proof (round_ok floor r m log Hok Hfl Hafter) as Hr. cbn [scheduler_loop].
  destruct (pass _ _ _ _ _ _) as [m' log']. simpl in Hr. by eapply IH.
Qed.

(** C22. From the load at the start on, over any number of rounds, reloads and
    changes of the leader, a replica fires the occurrences of a trigger in
    strictly increasing order: no occurrence twice. *)
Theorem scheduler_fires_once floor rounds enabled config names :
  clocks floor rounds →
  ∀ id, StronglySorted Z.lt (occurrences id (scheduler_loop log_fire rounds (load_triggers enabled config None names) []).2).
Proof.
  intros Hcl. apply (run_ok floor); [|done]. split; [|intros id; exact (SSorted_nil _)|intros id o Ho; by apply elem_of_nil in Ho|intros id o t n Ho; by apply elem_of_nil in Ho].
  intros k t (ws & _ & Hin)%load_lookup. unfold workspace_triggers in Hin. destruct (negb (enabled ws)); [by apply elem_of_nil in Hin|].
  destruct (config ws) as [c|]; [|by apply elem_of_nil in Hin].
  apply list_elem_of_omap in Hin as ([name def] & _ & Hl). simpl in Hl. apply fmap_Some in Hl as (t' & Hl & [= -> ->]).
  unfold load_trigger in Hl. destruct def as [s| |]; [|done..]. destruct (negb (sc_enabled s)); [done|].
  destruct (cron_parse (sc_cron s)); [|done]. simpl in Hl. by injection Hl as <-.
Qed.
End schedule.

(** ** Sleeping and reloading *)

Section reload.
Context `{CronLib, HashIter}.

Lemma min_of_spec l d : min_of l = Some d → d ∈ l ∧ ∀ x, x ∈ l → (d ≤ x)%Z.
Proof.
  destruct l as [|y l]; [done|]. cbn [min_of]. intros [= <-]. revert y. induction l as [|z l IH]; intros y; cbn [fold_left].
  - split; [by left|]. by intros x ->%list_elem_of_singleton.
  - destruct (IH (Z.min y z)) as [Hin Hle]. split.
    + apply elem_of_cons in Hin as [->|Hin]; [|right; by right]. destruct (Z.min_spec y z) as [[_ ->]|[_ ->]]; [by left|right; by left].
    + intros x [->|[->|Hx]%elem_of_cons]%elem_of_cons; [specialize (Hle (Z.min y z) ltac:(by left)); lia..|]. apply Hle. by right.
Qed.

(** The sleep between two passes: at most thirty seconds, never past the next
    run of a trigger, and at most a second when one is overdue. *)
Theorem sleep_wakes_in_time (m : Triggers) now :
  (0 ≤ sleep_duration m now ≤ 30000000)%Z ∧
  ∀ k t n, m !! k = Some t → ts_next_run t = Some n →
    (now ≤ n → now + sleep_duration m now ≤ n)%Z ∧ (n < now → sleep_duration m now ≤ 1000000)%Z.
Proof.
  unfold sleep_duration. set (l := wait_for now <$> omap ts_next_run (hash_iter m).*2).
  assert (Hpos : ∀ x, x ∈ l → (0 ≤ x)%Z).
  { intros x (n & -> & _)%list_elem_of_fmap. unfold wait_for, SECOND. case_match; lia. }
  assert (Hin : ∀ k t n, m !! k = Some t → ts_next_run t = Some n → wait_for now n ∈ l).
  { intros k t n Hk Hn. apply list_elem_of_fmap_2, list_elem_of_omap. exists t. split; [|done].
    change t with (k, t).2. by apply list_elem_of_fmap_2, elem_of_hash_iter. }
  unfold MAX_SLEEP, SECOND in *. destruct (min_of l) as [d|] eqn:Ed.
  - apply min_of_spec in Ed as [Hd Hle]. split; [specialize (Hpos d Hd); lia|]. intros k t n Hk Hn.
    specialize (Hle _ (Hin k t n Hk Hn)). unfold wait_for, SECOND in Hle. destruct (Z.ltb_spec (n - now) 0); lia.
  - split; [lia|]. intros k t n Hk Hn. specialize (Hin k t n Hk Hn). destruct l; [by apply elem_of_nil in Hin|done].
Qed.

Lemma insert_all_in (l : list (string * TriggerState)) (m : Triggers) k t :
  (∀ t1 t2, (k, t1) ∈ l → (k, t2) ∈ l → t1 = t2) → (k, t) ∈ l ∨ m !! k = Some t ∧ (∀ t', (k, t') ∉ l) → insert_all l m !! k = Some t.
Proof.
  revert m. induction l as [|[k' t'] l IH]; intros m Hf Hor; cbn [insert_all fold_left fst snd].
  - destruct Hor as [Hin|[? _]]; [by apply elem_of_nil in Hin|done].
  - apply IH; [intros; apply Hf; by right|]. destruct (decide (k ∈ l.*1)) as [Hin|Hn].
    + apply list_elem_of_fmap in Hin as ([k2 t2] & -> & Hin). left. destruct Hor as [Ht|[_ Hno]].
      * assert (t = t2) as -> by (apply Hf; [done|by right]). done.
      * destruct (Hno t2). by right.
    + assert (Hno : ∀ t2, (k, t2) ∉ l) by (intros t2 Ht2; apply Hn; change k with (k, t2).1; by apply list_elem_of_fmap_2). right.
      split; [|done]. destruct Hor as [[[= <- <-]|Hin]%elem_of_cons|[Hm Hno2]]; [by rewrite lookup_insert_eq|by destruct (Hno t)|].
      rewrite lookup_insert_ne; [done|]. intros ->. destruct (Hno2 t'). by left.
Qed.

Lemma load_is_insert_all enabled config prev names (m : Triggers) :
  fold_left (λ m ws, insert_all (workspace_triggers enabled config prev ws) m) names m =
  insert_all (names ≫= workspace_triggers enabled config prev) m.
Proof.
  revert m. induction names as [|ws names IH]; intros m; [done|]. cbn [fold_left]. rewrite IH. unfold insert_all. cbn [mbind list_bind].
  by rewrite fold_left_app.
Qed.

(** A workspace name has no slash. *)
Definition no_slash (ws : string) : Prop := "/"%char ∉ bytes ws.

Lemma slash_pivot (l1 l2 r1 r2 : list ascii) (x : ascii) : x ∉ l1 → x ∉ l2 → l1 ++ x :: r1 = l2 ++ x :: r2 → l1 = l2 ∧ r1 = r2.
Proof.
  revert l2. induction l1 as [|a l1 IH]; intros [|b l2] H1 H2 E; simplify_eq/=; [done|set_solver..|].
  destruct (IH l2) as [-> ->]; [set_solver..|done|done].
Qed.

Lemma trigger_key_inj ws1 n1 ws2 n2 : no_slash ws1 → no_slash ws2 → trigger_key ws1 n1 = trigger_key ws2 n2 → ws1 = ws2 ∧ n1 = n2.
Proof.
  intros H1 H2 E. apply (f_equal bytes) in E. unfold trigger_key in E. rewrite !bytes_app in E.
  apply slash_pivot in E as [E1 E2]; [|done|done]. apply (f_equal of_bytes) in E1, E2. by rewrite !of_bytes_bytes in *.
Qed.

(** What one workspace contributes. *)
Definition contributes (enabled : string → bool) (config : string → option WorkspaceConfig) (prev : option Triggers) (ws k : string)
    (t : TriggerState) : Prop :=
  enabled ws = true ∧
  match config ws with
  | Some c => ∃ name def, k = trigger_key ws name ∧ triggers c !! name = Some def ∧ load_trigger prev ws name def = Some t
  | None => ∃ p, prev = Some p ∧ p !! k = Some t ∧ ts_workspace t = ws
  end.

Lemma elem_of_workspace_triggers enabled config prev ws k t :
  (k, t) ∈ workspace_triggers enabled config prev ws ↔ contributes enabled config prev ws k t.
Proof.
  unfold workspace_triggers, contributes. destruct (enabled ws); simpl; [|split; [by intros ?%elem_of_nil|by intros [? _]]].
  destruct (config ws) as [c|].
  - rewrite list_elem_of_omap. split.
    + intros ([name def] & Hin%elem_of_hash_iter & Hl). simpl in Hl. apply fmap_Some in Hl as (t' & Hl & [= -> ->]). split; [done|]. eauto.
    + intros (_ & name & def & -> & Hd & Hl). exists (name, def). split; [by apply elem_of_hash_iter|]. simpl. by rewrite Hl.
  - destruct prev as [p|]; [|split; [by intros ?%elem_of_nil|by intros (_ & ? & ? & _)]].
    rewrite elem_of_lfilter, elem_of_hash_iter. simpl. rewrite bool_decide_eq_true. naive_solver.
Qed.

Lemma contributes_key enabled config prev ws k t :
  (∀ p, prev = Some p → keys_ok p) → contributes enabled config prev ws k t → ∃ name, k = trigger_key ws name.
Proof.
  intros Hok [_ Hc]. destruct (config ws) as [c|].
  - destruct Hc as (name & def & -> & _). eauto.
  - destruct Hc as (p & Hp & Hk & <-). exists (ts_trigger_name t). by apply (Hok p Hp).
Qed.

(** A reload holds exactly the enabled schedules with a valid expression of
    the available workspaces, each with its last and next run when neither
    expression nor time zone changed, and the last known ones of the
    workspaces that are not available. *)
Theorem load_triggers_exact enabled config prev names k t :
  Forall no_slash names → (∀ p, prev = Some p → keys_ok p) →
  load_triggers enabled config prev names !! k = Some t ↔ ∃ ws, ws ∈ names ∧ contributes enabled config prev ws k t.
Proof.
  intros Hns Hok. split.
  - intros (ws & Hws & Hin)%load_lookup. exists ws. split; [done|]. by apply elem_of_workspace_triggers.
  - rewrite Forall_forall in Hns. unfold load_triggers. rewrite load_is_insert_all. intros (ws & Hws & Hc).
    apply insert_all_in.
    + intros t1 t2 (w1 & Hc1%elem_of_workspace_triggers & Hw1)%list_elem_of_bind (w2 & Hc2%elem_of_workspace_triggers & Hw2)%list_elem_of_bind.
      destruct (contributes_key _ _ _ _ _ _ Hok Hc1) as [n1 ->], (contributes_key _ _ _ _ _ _ Hok Hc2) as [n2 E].
      apply trigger_key_inj in E as [<- <-]; [|by apply Hns..]. destruct Hc1 as [_ H1], Hc2 as [_ H2]. destruct (config w1) as [c|].
      * destruct H1 as (m1 & d1 & E1 & Hd1 & Hl1), H2 as (m2 & d2 & E2 & Hd2 & Hl2).
        apply trigger_key_inj in E1 as [_ ->], E2 as [_ ->]; [|by apply Hns..]. congruence.
      * destruct H1 as (? & ? & ? & _), H2 as (? & ? & ? & _). congruence.
    + left. apply list_elem_of_bind. exists ws. split; [|done]. by apply elem_of_workspace_triggers.
Qed.
End reload.

(** ** Firing *)

Section fire.
Context `{CronLib, Workspaces, HashIter, Tera, JsonParser, Serde, AgentCodec, Collation, TemplateEngine} (env : FireEnv).

Lemma elem_of_active_by_source ty id db j :
  jobs_wf db → j ∈ get_active_job_ids_by_source ty id db ↔
  ∃ r, db_job db !! j = Some r ∧ j_source_type (jr_row r) = ty ∧ j_source_id (jr_row r) = Some id ∧ jr_status r ∈ ACTIVE.
Proof.
  intros Hwf. unfold get_active_job_ids_by_source, get_active_by_source. rewrite list_elem_of_fmap. split.
  - intros (row & -> & (k & r & Hr & -> & Hw)%elem_of_select_jobs). destruct (Hwf k r Hr) as [<- _]. exists r. split; [done|].
    apply andb_true_iff in Hw as [[E1%bool_decide_eq_true E2%bool_decide_eq_true]%andb_true_iff E3%bool_decide_eq_true]. done.
  - intros (r & Hr & E1 & E2 & E3). exists (jr_row r). split; [symmetry; by apply (Hwf j r Hr)|].
    apply elem_of_select_jobs. exists j, r. split_and!; [done..|]. rewrite !andb_true_iff. split_and!; by apply bool_decide_eq_true.
Qed.

(** A job that is no child. *)
Definition top (db : Db) (j : Uuid) : Prop := ∃ r, db_job db !! j = Some r ∧ j_parent_job_id (jr_row r) = None.

Lemma top_up db j : top db j → up db j.
Proof. intros (r & Hr & Hn) r' p Hr' Hp. congruence. Qed.
Lemma top_kept db db' j : kept db db' → top db j → top db' j.
Proof. intros Hk (r & Hr & Hn). destruct (kept_job _ _ Hk j r Hr) as (r' & Hr' & E & _). exists r'. split; [done|congruence]. Qed.

Lemma cancel_all_ok (T : Uuid → Prop) ids st :
  jobs_wf (st_db st) → closed T (st_db st) →
  (∀ job k s, jobs_wf (st_db s) → calm (sv_now (fe_services env)) T (st_db s) (st_db (sv_actions (fe_services env) job k s))) →
  Forall (λ j, T j ∧ top (st_db st) j ∧ levels (st_db st) (fe_depth env) j) ids →
  ∃ st', cancel_all env ids st = Some st' ∧ calm (sv_now (fe_services env)) T (st_db st) (st_db st') ∧
    Forall (λ j, active (st_db st) j → stopped (sv_now (fe_services env)) (st_db st') j) ids.
Proof.
  intros Hwf Hcl Hact. unfold cancel_all. revert st Hwf Hcl. induction ids as [|j ids IH]; intros st Hwf Hcl Hall.
  { exists st. split; [done|]. split; [by apply calm_refl|constructor]. }
  apply Forall_cons in Hall as [(HT & Htop & Hlev) Hall]. cbn [fold_left].
  destruct (cancel_walk (sv_now (fe_services env)) T (fe_services env) (λ i s, (advance (fe_services env) (fe_fuel env) i s).1) eq_refl)
    with (depth := fe_depth env) (j := j) (st := st) as (st1 & res & E & Hc & Hstop); [|done|done|done|by apply top_up|done|].
  { intros i s Hs Hcs Hcu. by apply advance_calm. }
  destruct (IH st1) as (st2 & E2 & Hc2 & Hst2); [apply Hc|by eapply calm_closed| |].
  { eapply Forall_impl; [exact Hall|]. intros k (HTk & Htk & Hlk). split; [done|]. split; [|by eapply levels_calm].
    eapply top_kept; [apply Hc|done]. }
  exists st2. simpl. rewrite E. simpl. split; [done|]. split; [by eapply calm_trans|]. constructor.
  - intros Ha. eapply stopped_kept; [apply Hc2|]. by apply (Hstop Ha), rtc_refl.
  - apply Forall_forall. intros k Hk Ha. rewrite Forall_forall in Hst2, Hall. destruct (Hall k Hk) as (HTk & _).
    destruct (calm_active _ _ _ _ Hc k HTk Ha) as [Ha1|Hs]; [by apply Hst2|]. eapply stopped_kept; [apply Hc2|]. apply Hs, rtc_refl.
Qed.

(** The jobs of a trigger and everything below them. *)
Definition source_tree (db : Db) (id : string) (d : Uuid) : Prop :=
  ∃ j, j ∈ get_active_job_ids_by_source "trigger" id db ∧ rtc (child db) j d.

(** Under [cancel_previous] every earlier active run is stopped before the new
    job is created. The earlier runs are no children, and the actions on a
    terminal job leave their trees alone. *)
Lemma cancel_previous_stops t target n fs :
  fire_target env t = inr (target, n) → ts_concurrency t = Workflow.CancelPrevious →
  fe_list_fails env = false → jobs_wf (st_db fs.1) →
  (∀ job k s, jobs_wf (st_db s) →
     calm (sv_now (fe_services env)) (source_tree (st_db fs.1) (source_id t)) (st_db s) (st_db (sv_actions (fe_services env) job k s))) →
  (∀ j, j ∈ get_active_job_ids_by_source "trigger" (source_id t) (st_db fs.1) →
     top (st_db fs.1) j ∧ levels (st_db fs.1) (fe_depth env) j) →
  ∃ st, fire_trigger env t fs = Some (create_fired env t target (S n) (st, fs.2)) ∧ kept (st_db fs.1) (st_db st) ∧
    ∀ j, j ∈ get_active_job_ids_by_source "trigger" (source_id t) (st_db fs.1) → stopped (sv_now (fe_services env)) (st_db st) j.
Proof.
  intros Ht Hpol. unfold fire_trigger. rewrite Ht. unfold apply_concurrency. rewrite Hpol. destruct fs as [st ft]. cbn [fst snd].
  intros -> Hwf Hact Hids. set (ids := get_active_job_ids_by_source "trigger" (source_id t) (st_db st)) in *.
  destruct (cancel_all_ok (source_tree (st_db st) (source_id t)) ids st Hwf) as (st' & E & Hc & Hs); [|done| |].
  - intros p c (j & Hj & Hjp) Hch. exists j. split; [done|]. by eapply rtc_r.
  - apply Forall_forall. intros j Hj. destruct (Hids j Hj). split_and!; [|done..]. exists j. split; [done|apply rtc_refl].
  - rewrite E. simpl. exists st'. split; [done|]. split; [apply Hc|]. intros j Hj. rewrite Forall_forall in Hs. apply Hs; [done|].
    apply elem_of_active_by_source in Hj as (r & Hr & _ & _ & Ha); [|done]. by exists r.
Qed.

(** A job the trigger created is pending or running. *)
Definition earlier_run (t : TriggerState) (db : Db) : Prop :=
  ∃ j r, db_job db !! j = Some r ∧ j_source_type (jr_row r) = "trigger" ∧
    j_source_id (jr_row r) = Some (ts_workspace t +:+ "/" +:+ ts_trigger_name t) ∧ (jr_status r = "pending" ∨ jr_status r = "running").

(** The row a skipped fire leaves. *)
Record skipped_row (t : TriggerState) (target : ResolvedTarget) (now : Time) (r : JobRec) : Prop := {
  sk_status : jr_status r = "skipped";
  sk_target : j_workspace (jr_row r) = tg_workspace target ∧ j_task_name (jr_row r) = tg_task_name target;
  sk_input : j_input (jr_row r) = Some (object_of (ts_input t));
  sk_source : j_source_type (jr_row r) = "trigger" ∧ j_source_id (jr_row r) = Some (ts_workspace t +:+ "/" +:+ ts_trigger_name t);
  sk_times : j_created_at (jr_row r) = now ∧ j_completed_at (jr_row r) = Some now;
  sk_ref : j_git_ref (jr_row r) = Pins.git_ref <$> tg_pin target;
}.

Lemma earlier_run_counted t db : jobs_wf db → earlier_run t db ↔ (0 < count_active_by_source "trigger" (source_id t) db)%nat.
Proof.
  intros Hwf. change (count_active_by_source "trigger" (source_id t) db) with (length (get_active_by_source "trigger" (source_id t) db)). split.
  - intros (j & r & Hr & Hty & Hid & Hst). assert (Hin : j ∈ get_active_job_ids_by_source "trigger" (source_id t) db).
    { apply elem_of_active_by_source; [done|]. exists r. split_and!; [done..|]. destruct Hst as [->| ->]; set_solver. }
    unfold get_active_job_ids_by_source in Hin. apply list_elem_of_fmap in Hin as (row & _ & Hrow).
    destruct (get_active_by_source "trigger" (source_id t) db); [by apply elem_of_nil in Hrow|simpl; lia].
  - intros Hlt. destruct (get_active_by_source "trigger" (source_id t) db) as [|row l] eqn:El; [simpl in Hlt; lia|].
    assert (Hin : j_job_id row ∈ get_active_job_ids_by_source "trigger" (source_id t) db).
    { unfold get_active_job_ids_by_source. rewrite El. left. }
    apply elem_of_active_by_source in Hin as (r & Hr & Hty & Hid & Hst); [|done]. exists (j_job_id row), r. split_and!; [done..|]. set_solver.
Qed.


Lemma fire_target_resolved t target m :
  fire_target env t = inr (target, m) →
  ∃ n config st, get_config n (ts_workspace t) = Some config ∧ still_defined t config = true ∧
    resolve_trigger_target (ts_workspace t) config (ts_task t) (ts_git_ref t) (mkSt ∅ (S n)) = Ok (target, st).
Proof.
  unfold fire_target. set (n := if ts_force_refresh t then _ else _).
  destruct (get_config n (ts_workspace t)) as [config|] eqn:Eg; [|done]. destruct (still_defined t config) eqn:Es; [|done]. cbn [negb].
  destruct (resolve_trigger_target _ _ _ _ _) as [[tg st]|] eqn:Er; [|done]. intros E. exists n, config, st. split_and!; [done..|].
  rewrite Er. repeat case_match; simplify_eq; done.
Qed.

Lemma create_fired_outcome t target n fs : (create_fired env t target n fs).2 ≠ Missed ∧ (create_fired env t target n fs).2 ≠ Outdated.
Proof. destruct fs. unfold create_fired. by repeat case_match. Qed.

(** A fire that cannot create its job, because the workspace is not loaded,
    the trigger is not defined this way any more, its target does not resolve
    or wants a file, changes nothing: no earlier run is cancelled, no row is
    recorded. Any other outcome comes from a definition the workspace still
    has. *)
Theorem missed_fire_harmless t fs fs' o :
  fire_trigger env t fs = Some (fs', o) →
  (o = Missed ∨ o = Outdated → fs' = fs) ∧
  (o ≠ Missed → o ≠ Outdated →
   ∃ n config target st, get_config n (ts_workspace t) = Some config ∧ still_defined t config = true ∧
     resolve_trigger_target (ts_workspace t) config (ts_task t) (ts_git_ref t) (mkSt ∅ (S n)) = Ok (target, st)).
Proof.
  unfold fire_trigger. destruct (fire_target env t) as [o'|[target m]] eqn:Et.
  - intros [= <- <-]. split; [done|]. intros Hm Ho. destruct Hm. revert Et Ho. unfold fire_target. repeat case_match; intros [= <-] ?; done.
  - apply fire_target_resolved in Et as (n & config & st & ? & ? & ?). intros E. split; [|intros; eauto 10]. intros Ho.
    destruct (apply_concurrency env t target m fs.1) as [[st1|st1]|]; [injection E as _ <-; by destruct Ho as [Ho|Ho]|apply (inj Some) in E|done].
    destruct (create_fired_outcome t target (S m) (st1, fs.2)) as [H1' H2']. rewrite E in H1', H2'. by destruct Ho.
Qed.
End fire.
