(* ===== verification/ScriptExec.v ===== *)
(** * Script commands

    [crates/stroem-common/src/language.rs] and
    [crates/stroem-runner/src/script_exec.rs]: the command line a script runs
    with, on the worker and, through [sh -c], in a container. The quoting is
    checked against the words and here-documents of the POSIX shell. Which
    binaries exist, the fresh ids of the file and of the delimiter are
    arguments; writing and removing the temporary file is not modelled. *)
From S2P Require Import Prelude Text Lines Utf8 FileField Errors.

(** ** Languages *)

Inductive ScriptLanguage := Shell | Python | JavaScript | TypeScript | Go.

#[export] Instance ScriptLanguage_eq_dec : EqDecision ScriptLanguage.
Proof. solve_decision. Defined.

Definition from_str_opt (s : option string) : ScriptLanguage :=
  match s with
  | None => Shell
  | Some s =>
      if s ==? "shell" then Shell
      else if s ==? "python" then Python
      else if (s ==? "javascript") || (s ==? "js") then JavaScript
      else if (s ==? "typescript") || (s ==? "ts") then TypeScript
      else if s ==? "go" then Go
      else Shell
  end.

Definition extension (l : ScriptLanguage) : string :=
  match l with Shell => ".sh" | Python => ".py" | JavaScript => ".js" | TypeScript => ".ts" | Go => ".go" end.
Definition is_shell (l : ScriptLanguage) : bool := l ==? Shell.
Definition language_as_str (l : ScriptLanguage) : string :=
  match l with Shell => "shell" | Python => "python" | JavaScript => "javascript" | TypeScript => "typescript" | Go => "go" end.

(** ** Toolchains *)

Definition toolchain_preferences (lang : ScriptLanguage) : list (string * list string) :=
  match lang with
  | Shell => [("bash", []); ("sh", [])]
  | Python => [("uv", ["run"]); ("python3", []); ("python", [])]
  | JavaScript => [("bun", ["run"]); ("node", [])]
  | TypeScript => [("bun", ["run"]); ("deno", ["run"])]
  | Go => [("go", ["run"])]
  end.

(** [which::which] finds a binary. *)
Definition resolve_toolchain (which : string → bool) (lang : ScriptLanguage) (interpreter_override : option string)
    : result AnyError (string * list string) :=
  match interpreter_override with
  | Some interp => Ok (interp, [])
  | None =>
      match List.find (λ p, which p.1) (toolchain_preferences lang) with
      | Some (binary, pre_args) => Ok (binary, pre_args)
      | None =>
          bail ("No interpreter found for language '" +:+ language_as_str lang +:+ "'. Tried: " +:+
                str_join ", " (toolchain_preferences lang).*1)
      end
  end.

(** ** Quoting *)

(** [s.replace('\'', "'\\''")] *)
Definition replace_quotes (s : string) : string :=
  of_bytes (c ← bytes s; if bool_decide (c = "'"%char) then bytes "'\''" else [c]).
Definition shell_escape (s : string) : string := "'" +:+ replace_quotes s +:+ "'".
Definition escaped (l : list string) : string := str_join " " (shell_escape <$> l).

Definition build_dep_install_prefix (lang : ScriptLanguage) (binary : string) (deps : list string) : option string :=
  if bool_decide (deps = []) then None
  else
    match lang with
    | Python => if binary ==? "uv" then None else Some (binary +:+ " -m pip install -q " +:+ escaped deps)
    | JavaScript | TypeScript =>
        if binary ==? "bun" then Some ("bun install " +:+ escaped deps)
        else if binary ==? "node" then Some ("npm install --no-save " +:+ escaped deps)
        else None
    | _ => None
    end.

Definition build_uv_with_args (deps : list string) : list string := d ← deps; ["--with"; d].

(** ** Commands *)

(** On the worker: the program and its arguments. *)
Definition build_script_command (which : string → bool) (lang : ScriptLanguage) (script_path : string) (deps : list string)
    (interpreter_override : option string) (script_args : list string) : result AnyError (string * list string) :=
  let? (binary, pre_args) := resolve_toolchain which lang interpreter_override in
  let with_ := if (binary ==? "uv") && negb (bool_decide (deps = [])) then build_uv_with_args deps else [] in
  Ok (binary, pre_args ++ with_ ++ [script_path] ++ script_args).

Definition args_suffix (script_args : list string) : string :=
  if bool_decide (script_args = []) then "" else " " +:+ escaped script_args.

Definition uv_with (deps : list string) : string := str_join " " ((λ d, "--with " +:+ shell_escape d) <$> deps).

(** The line that runs [path] (a word of the shell) with [binary]. *)
Definition run_line (binary : string) (pre_args : list string) (path suffix : string) : string :=
  let pre := str_join " " pre_args in
  if pre ==? "" then binary +:+ " " +:+ path +:+ suffix else binary +:+ " " +:+ pre +:+ " " +:+ path +:+ suffix.

(** A chosen interpreter: install, then run. *)
Definition override_script (lang : ScriptLanguage) (interp : string) (deps : list string) (path suffix : string) : string :=
  if (interp ==? "uv") && negb (bool_decide (deps = [])) then
    interp +:+ " run " +:+ uv_with deps +:+ " " +:+ path +:+ suffix
  else
    (match build_dep_install_prefix lang interp deps with Some install => install +:+ of_bytes [nl] | None => "" end) +:+
    run_line interp (default [] (snd <$> List.find (λ p, p.1 ==? interp) (toolchain_preferences lang))) path suffix.

(** A branch of the search for an interpreter. *)
Definition branch (lang : ScriptLanguage) (deps : list string) (path suffix : string) (p : string * list string) : string :=
  if (p.1 ==? "uv") && negb (bool_decide (deps = [])) then
    p.1 +:+ " run " +:+ uv_with deps +:+ " " +:+ path +:+ suffix
  else
    (match build_dep_install_prefix lang p.1 deps with Some install => install +:+ of_bytes [nl] +:+ "  " | None => "" end) +:+
    run_line p.1 p.2 path suffix.

Fixpoint detect_branches (keyword : string) (lang : ScriptLanguage) (deps : list string) (path suffix : string) (prefs : list (string * list string))
    : string :=
  match prefs with
  | [] => ""
  | p :: rest =>
      keyword +:+ " command -v " +:+ p.1 +:+ " >/dev/null 2>&1; then" +:+ of_bytes [nl] +:+ "  " +:+ branch lang deps path suffix p +:+ of_bytes [nl] +:+
      detect_branches "elif" lang deps path suffix rest
  end.

Definition detect_script (lang : ScriptLanguage) (deps : list string) (path suffix : string) : string :=
  let prefs := toolchain_preferences lang in
  detect_branches "if" lang deps path suffix prefs +:+
  (if bool_decide (prefs = []) then ""
   else "else" +:+ of_bytes [nl] +:+ "  echo " +:+ of_bytes [quote] +:+ "Error: no interpreter found for '" +:+ language_as_str lang +:+ "'. Tried: " +:+
        str_join ", " prefs.*1 +:+ of_bytes [quote] +:+ " >&2" +:+ of_bytes [nl] +:+ "  exit 127" +:+ of_bytes [nl] +:+ "fi").

Definition invoke_script (lang : ScriptLanguage) (deps : list string) (interpreter_override : option string) (path suffix : string) : string :=
  match interpreter_override with
  | Some interp => override_script lang interp deps path suffix
  | None => detect_script lang deps path suffix
  end.

(** [sh -c] with the arguments after the name, when there are any. *)
Definition passthrough (code : string) (script_args : list string) : list string :=
  if bool_decide (script_args = []) then ["sh"; "-c"; code] else ["sh"; "-c"; code; "sh"] ++ script_args.
Definition is_passthrough (lang : ScriptLanguage) (deps : list string) (interpreter_override : option string) : bool :=
  is_shell lang && bool_decide (deps = []) && bool_decide (interpreter_override = None).

Definition build_container_file_cmd (file_path : string) (lang : ScriptLanguage) (deps : list string) (interpreter_override : option string)
    (script_args : list string) : list string :=
  if is_passthrough lang deps interpreter_override then passthrough file_path script_args
  else ["sh"; "-c"; invoke_script lang deps interpreter_override (shell_escape file_path) (args_suffix script_args)].

(** [file_id] and [delimiter_id] are the fresh ids. *)
Definition script_file (file_id : string) (lang : ScriptLanguage) : string := "/tmp/_stroem_script_" +:+ file_id +:+ extension lang.
Definition heredoc (file delimiter content : string) : string :=
  "cat > " +:+ file +:+ " << '" +:+ delimiter +:+ "'" +:+ of_bytes [nl] +:+ content +:+ of_bytes [nl] +:+ delimiter +:+ of_bytes [nl] +:+
  "chmod +x " +:+ file +:+ of_bytes [nl].

Definition build_container_script_cmd (file_id delimiter_id content : string) (lang : ScriptLanguage) (deps : list string)
    (interpreter_override : option string) (script_args : list string) : list string :=
  if is_passthrough lang deps interpreter_override then passthrough content script_args
  else
    let file := script_file file_id lang in
    ["sh"; "-c"; heredoc file ("STROEM_EOF_" +:+ delimiter_id) content +:+
                 invoke_script lang deps interpreter_override file (args_suffix script_args)].

(** ** The shell

    The words of a list of simple commands (POSIX.1 XCU 2.2 and 2.3), as far as
    a text has neither expansions nor operators: any byte with such a meaning
    outside quotes gives up. *)

Definition plain (c : ascii) : bool := is_ascii_alphanumeric c || bool_decide (c ∈ bytes "._-/+:@%,").
Definition blank (c : ascii) : bool := byte_is 32 c || byte_is 9 c.

Inductive Lexer := Between | InWord (w : Bytes) | Quoted (w : Bytes) | Escaped (w : Bytes).

(** The end of a word and of a command. *)
Definition push_word (w : Bytes) (cmds : list (list Bytes)) : list (list Bytes) :=
  match cmds with [] => [[w]] | cmd :: rest => (w :: cmd) :: rest end.
Definition end_command (cmds : list (list Bytes)) : list (list Bytes) := [] :: cmds.

Fixpoint lex (st : Lexer) (l : Bytes) : option (list (list Bytes)) :=
  match l with
  | [] =>
      match st with
      | Between => Some []
      | InWord w => Some [[w]]
      | _ => None
      end
  | c :: l =>
      match st with
      | Quoted w => if bool_decide (c = "'"%char) then lex (InWord w) l else lex (Quoted (w ++ [c])) l
      | Escaped w => if bool_decide (c = nl) then None else lex (InWord (w ++ [c])) l
      | Between =>
          if blank c then lex Between l
          else if bool_decide (c = nl) then end_command <$> lex Between l
          else if bool_decide (c = "'"%char) then lex (Quoted []) l
          else if bool_decide (c = "\"%char) then lex (Escaped []) l
          else if plain c then lex (InWord [c]) l
          else None
      | InWord w =>
          if blank c then push_word w <$> lex Between l
          else if bool_decide (c = nl) then (λ cmds, push_word w (end_command cmds)) <$> lex Between l
          else if bool_decide (c = "'"%char) then lex (Quoted w) l
          else if bool_decide (c = "\"%char) then lex (Escaped w) l
          else if plain c then lex (InWord (w ++ [c])) l
          else None
      end
  end.

Definition shell_commands (script : string) : option (list (list string)) :=
  option_map (map (map of_bytes)) (lex Between (bytes script)).

(** A here-document: the lines up to the delimiter, and what follows it. *)
Fixpoint heredoc_body (delimiter : Bytes) (lines : list Bytes) : option (list Bytes * list Bytes) :=
  match lines with
  | [] => None
  | line :: rest =>
      if bool_decide (line = delimiter) then Some ([], rest)
      else '(body, after) ← heredoc_body delimiter rest; Some (line :: body, after)
  end.

Example file_command_sample :
  shell_commands (default "" (build_container_file_cmd "/workspace/it's here.py" Python ["a b"] (Some "python3") ["--n"; "$(rm)"] !! 2)) =
  Some [["python3"; "-m"; "pip"; "install"; "-q"; "a b"]; ["python3"; "/workspace/it's here.py"; "--n"; "$(rm)"]].
Proof. vm_compute. reflexivity. Qed.

(** ** Words *)

(** A text that the shell reads as one word. *)
Definition word_of (text : string) (w : Bytes) : Prop := ∀ rest, lex Between (bytes text ++ rest) = lex (InWord w) rest.

Lemma lex_quoted s w rest : lex (Quoted w) (bytes (replace_quotes s) ++ "'"%char :: rest) = lex (InWord (w ++ bytes s)) rest.
Proof.
  unfold replace_quotes. rewrite bytes_of_bytes. revert w. induction (bytes s) as [|c l IH]; intros w; simpl.
  - by rewrite app_nil_r.
  - case_bool_decide as Ec.
    + subst c. simpl. rewrite IH. by rewrite <-app_assoc.
    + simpl. rewrite bool_decide_false by done. rewrite IH. by rewrite <-app_assoc.
Qed.

Lemma escape_word s : word_of (shell_escape s) (bytes s).
Proof.
  intros rest. unfold shell_escape. rewrite !bytes_app, <-app_assoc. cbn [bytes app lex]. simpl.
  rewrite <-app_assoc. apply (lex_quoted s []).
Qed.

Lemma plain_cases c : plain c = true → blank c = false ∧ c ≠ nl ∧ c ≠ "'"%char ∧ c ≠ "\"%char.
Proof. destruct c as [[] [] [] [] [] [] [] []]; vm_compute; intros H; try discriminate H; repeat split; discriminate. Qed.

Lemma plain_in_word l w rest : Forall (λ c, plain c = true) l → lex (InWord w) (l ++ rest) = lex (InWord (w ++ l)) rest.
Proof.
  intros Hl. revert w. induction Hl as [|c l Hc _ IH]; intros w; simpl; [by rewrite app_nil_r|].
  destruct (plain_cases c Hc) as (-> & ? & ? & ?). rewrite !bool_decide_false by done. rewrite Hc, IH. by rewrite <-app_assoc.
Qed.

Lemma plain_word s : s ≠ "" → Forall (λ c, plain c = true) (bytes s) → word_of s (bytes s).
Proof.
  intros Hne Hs rest. destruct s as [|c s]; [done|]. cbn [bytes] in *. apply Forall_cons in Hs as [Hc Hs]. simpl.
  destruct (plain_cases c Hc) as (-> & ? & ? & ?). rewrite !bool_decide_false by done. rewrite Hc. by apply (plain_in_word _ [c]).
Qed.

Lemma lex_space w l : lex (InWord w) (" "%char :: l) = push_word w <$> lex Between l.
Proof. done. Qed.

(** Concatenations in another association. *)
Ltac bytes_eq := apply (inj bytes); repeat (rewrite bytes_app || rewrite <-app_assoc || cbn [bytes app]); reflexivity.

(** Words separated by single spaces are one command. *)
Lemma str_join_cons (sep x y : string) l : str_join sep (x :: y :: l) = x +:+ sep +:+ str_join sep (y :: l).
Proof. done. Qed.

Lemma lex_line texts ws rest k :
  texts ≠ [] → Forall2 word_of texts ws →
  (∀ w, lex (InWord w) rest = push_word w <$> k) → lex Between (bytes (str_join " " texts) ++ rest) = (λ cmds, foldr push_word cmds ws) <$> k.
Proof.
  intros Hne Hw Hk. destruct Hw as [|t w texts ws Ht Hw]; [done|]. clear Hne. revert t w Ht. induction Hw as [|t' w' texts ws Ht' Hw IH]; intros t w Ht.
  - cbn [str_join foldr]. rewrite Ht. apply Hk.
  - rewrite str_join_cons, !bytes_app, <-!app_assoc, Ht. cbn [bytes app]. rewrite lex_space, (IH t' w' Ht'). by destruct k.
Qed.

Lemma foldr_push ws w cmds : foldr push_word cmds (w :: ws) = match cmds with [] => [w :: ws] | cmd :: rest => ((w :: ws) ++ cmd) :: rest end.
Proof.
  revert w. induction ws as [|w' ws IH]; intros w; [by destruct cmds|]. change (foldr push_word cmds (w :: w' :: ws)) with (push_word w (foldr push_word cmds (w' :: ws))).
  rewrite IH. by destruct cmds.
Qed.

(** The last command of a script, and one before others. *)
Definition texts_of (texts words : list string) : Prop := texts ≠ [] ∧ Forall2 word_of texts (bytes <$> words).

Lemma map_of_bytes words : map of_bytes (bytes <$> words) = words.
Proof. induction words; simpl; [done|]. rewrite of_bytes_bytes. by f_equal. Qed.

Lemma last_command texts words : texts_of texts words → shell_commands (str_join " " texts) = Some [words].
Proof.
  intros [Hne Hw]. unfold shell_commands. rewrite <-(app_nil_r (bytes _)). rewrite (lex_line _ _ [] (Some [])) by done. simpl.
  destruct words as [|w words]; [by inversion Hw; subst|]. cbn [fmap list_fmap]. rewrite foldr_push. simpl. rewrite of_bytes_bytes. by rewrite map_of_bytes.
Qed.

Lemma first_command texts words rest blanks :
  texts_of texts words → Forall (λ c, blank c = true) (bytes blanks) →
  shell_commands (str_join " " texts +:+ of_bytes [nl] +:+ blanks +:+ rest) = cons words <$> shell_commands rest.
Proof.
  intros [Hne Hw] Hb. unfold shell_commands. rewrite !bytes_app, bytes_of_bytes. cbn [app].
  assert (Hskip : lex Between (bytes blanks ++ bytes rest) = lex Between (bytes rest)).
  { induction Hb as [|c l Hc _ IH]; simpl; [done|]. by rewrite Hc. }
  rewrite (lex_line texts (bytes <$> words) (nl :: bytes blanks ++ bytes rest) (end_command <$> lex Between (bytes rest))); [|done..|].
  - destruct words as [|w words]; [by inversion Hw; subst|]. destruct (lex Between (bytes rest)) as [cmds|]; [|done]. cbn [fmap option_fmap option_map list_fmap].
    rewrite foldr_push. simpl. rewrite app_nil_r, of_bytes_bytes. by rewrite map_of_bytes.
  - intros w. simpl. rewrite Hskip. by destruct (lex Between (bytes rest)).
Qed.

(** ** The commands of a container *)

(** What an interpreter may be called ([validation.rs]). *)
Definition interpreter_ok (interp : string) : Prop :=
  interp ≠ "" ∧ Forall (λ c, is_ascii_alphanumeric c || bool_decide (c ∈ bytes "._-/+") = true) (bytes interp).

Lemma interpreter_plain interp : interpreter_ok interp → word_of interp (bytes interp).
Proof.
  intros [Hne Hc]. apply plain_word; [done|]. eapply Forall_impl; [done|]. intros c [Ha|Ha]%orb_prop; unfold plain; rewrite ?Ha; [done|].
  apply bool_decide_eq_true in Ha. apply orb_true_iff. right. apply bool_decide_eq_true. revert Ha. unfold bytes. set_solver.
Qed.

(** The commands that install the dependencies, and the one that runs the
    script. *)
Definition install_words (lang : ScriptLanguage) (binary : string) (deps : list string) : list (list string) :=
  if bool_decide (deps = []) then []
  else
    match lang with
    | Python => if binary ==? "uv" then [] else [[binary; "-m"; "pip"; "install"; "-q"] ++ deps]
    | JavaScript | TypeScript =>
        if binary ==? "bun" then [["bun"; "install"] ++ deps]
        else if binary ==? "node" then [["npm"; "install"; "--no-save"] ++ deps]
        else []
    | _ => []
    end.
Definition run_words (binary : string) (pre deps : list string) (path : string) (args : list string) : list string :=
  if (binary ==? "uv") && negb (bool_decide (deps = [])) then [binary; "run"] ++ build_uv_with_args deps ++ [path] ++ args
  else [binary] ++ pre ++ [path] ++ args.

Lemma texts_escaped l : Forall2 word_of (shell_escape <$> l) (bytes <$> l).
Proof. induction l; constructor; [apply escape_word|done]. Qed.

Lemma str_join_app (sep : string) l l' : l ≠ [] → l' ≠ [] → str_join sep (l ++ l') = str_join sep l +:+ sep +:+ str_join sep l'.
Proof.
  intros Hl Hl'. destruct l as [|x l]; [done|]. clear Hl. revert x. induction l as [|y l IH]; intros x.
  - by destruct l'.
  - change ((x :: y :: l) ++ l') with (x :: y :: (l ++ l')). rewrite str_join_cons. change (y :: l ++ l') with ((y :: l) ++ l'). rewrite IH.
    rewrite str_join_cons. bytes_eq.
Qed.

(** The lines as joined texts. *)
Lemma args_text path args : path +:+ args_suffix args = str_join " " (path :: (shell_escape <$> args)).
Proof.
  unfold args_suffix. destruct args as [|a args]; [apply (inj bytes); by rewrite bytes_app, app_nil_r|]. rewrite bool_decide_false by done. done.
Qed.

Lemma run_line_text binary pre path args :
  pre = [] ∨ str_join " " pre ≠ "" → run_line binary pre path (args_suffix args) = str_join " " (binary :: pre ++ path :: (shell_escape <$> args)).
Proof.
  intros Hpre. unfold run_line. rewrite args_text. destruct pre as [|p pre]; [done|]. destruct Hpre as [|Hpre]; [done|]. rewrite bool_decide_false by done.
  change (binary :: (p :: pre) ++ path :: (shell_escape <$> args)) with ([binary] ++ ((p :: pre) ++ path :: (shell_escape <$> args))).
  rewrite (str_join_app " " [binary]) by done. by rewrite (str_join_app " " (p :: pre)).
Qed.

Definition with_texts (deps : list string) : list string := d ← deps; ["--with"; shell_escape d].

Lemma uv_with_text deps : deps ≠ [] → uv_with deps = str_join " " (with_texts deps).
Proof.
  intros Hne. destruct deps as [|d deps]; [done|]. clear Hne. revert d. unfold uv_with, with_texts. induction deps as [|d' deps IH]; intros d; [done|].
  cbn [fmap list_fmap]. rewrite str_join_cons. specialize (IH d'). cbn [fmap list_fmap] in IH. rewrite IH. cbn [mbind list_bind app].
  rewrite !str_join_cons. bytes_eq.
Qed.

Lemma with_words deps : Forall2 word_of (with_texts deps) (bytes <$> build_uv_with_args deps).
Proof.
  unfold with_texts, build_uv_with_args. induction deps as [|d deps IH]; [constructor|]. cbn [mbind list_bind app fmap list_fmap].
  constructor; [|constructor; [apply escape_word|done]]. apply plain_word; [done|]. repeat constructor.
Qed.

(** Names the code writes out. *)
Lemma literal_words l : forallb (λ s, negb (bool_decide (s = "")) && forallb plain (bytes s)) l = true → Forall2 word_of l (bytes <$> l).
Proof.
  induction l as [|s l IH]; simpl; [constructor|]. intros [[Hs Hp]%andb_prop Hl]%andb_prop. constructor; [|by apply IH].
  apply plain_word; [by apply negb_true_iff, bool_decide_eq_false in Hs|by apply forallb_Forall'].
Qed.

Section invocation.
Context (lang : ScriptLanguage) (deps args : list string) (path file : string).
Hypothesis Hpath : word_of path (bytes file).

Lemma run_command binary pre :
  word_of binary (bytes binary) → pre = [] ∨ pre = ["run"] →
  shell_commands (if (binary ==? "uv") && negb (bool_decide (deps = [])) then binary +:+ " run " +:+ uv_with deps +:+ " " +:+ path +:+ args_suffix args
                  else run_line binary pre path (args_suffix args)) = Some [run_words binary pre deps file args].
Proof.
  intros Hb Hpre. unfold run_words.
  assert (Htail : Forall2 word_of (path :: (shell_escape <$> args)) (bytes <$> ([file] ++ args))) by (constructor; [done|apply texts_escaped]).
  destruct (_ && _) eqn:Euv.
  - apply andb_prop in Euv as [_ Hd%negb_true_iff%bool_decide_eq_false]. rewrite args_text, uv_with_text by done.
    rewrite <-(last_command ([binary; "run"] ++ with_texts deps ++ path :: (shell_escape <$> args))); [|split; [done|]].
    + rewrite (str_join_app " " [binary; "run"]) by (try done; destruct deps; done).
      rewrite (str_join_app " " (with_texts deps)) by (try done; destruct deps; done).
      change (str_join " " [binary; "run"]) with (binary +:+ " " +:+ "run"). f_equal. bytes_eq.
    + rewrite !fmap_app. apply Forall2_app; [constructor; [done|by apply literal_words]|]. apply Forall2_app; [apply with_words|]. by rewrite <-fmap_app.
  - rewrite run_line_text by (destruct Hpre as [->| ->]; [by left|by right]). rewrite <-(last_command (binary :: pre ++ path :: (shell_escape <$> args))); [done|split; [done|]].
    change ([binary] ++ pre ++ [file] ++ args) with (binary :: (pre ++ ([file] ++ args))). rewrite fmap_cons, fmap_app. constructor; [done|].
    apply Forall2_app; [|done]. by destruct Hpre as [->| ->]; apply literal_words.
Qed.

(** With the installation before it; [blanks] indent the second line. *)
Lemma install_then binary blanks rest :
  word_of binary (bytes binary) → Forall (λ c, blank c = true) (bytes blanks) →
  shell_commands ((match build_dep_install_prefix lang binary deps with Some install => install +:+ of_bytes [nl] +:+ blanks | None => "" end) +:+ rest) =
  (λ cmds, install_words lang binary deps ++ cmds) <$> shell_commands rest.
Proof.
  intros Hb Hbl. assert (Hnone : shell_commands ("" +:+ rest) = (λ cmds, [] ++ cmds) <$> shell_commands rest) by by destruct (shell_commands rest) eqn:E. unfold build_dep_install_prefix, install_words. case_bool_decide as Hd; [done|].
  assert (Hi : ∀ l, l ≠ [] → Forall2 word_of l (bytes <$> l) →
    shell_commands ((str_join " " l +:+ " " +:+ escaped deps +:+ of_bytes [nl] +:+ blanks) +:+ rest) = cons (l ++ deps) <$> shell_commands rest).
  { intros l Hl Hw. rewrite <-(first_command (l ++ (shell_escape <$> deps)) _ _ blanks); [|split|done].
    - f_equal. rewrite str_join_app by (try done; by destruct deps). unfold escaped. bytes_eq.
    - by destruct l.
    - rewrite fmap_app. apply Forall2_app; [done|apply texts_escaped]. }
  destruct lang; try done.
  - case_bool_decide; [done|]. etrans; [|apply (Hi [binary; "-m"; "pip"; "install"; "-q"]); [done|]].
    + f_equal. rewrite !str_join_cons. cbn [str_join]. bytes_eq.
    + constructor; [done|by apply literal_words].
  - case_bool_decide; [|case_bool_decide; [|by destruct (shell_commands rest)]].
    + etrans; [|apply (Hi ["bun"; "install"]); [done|by apply literal_words]]. done.
    + etrans; [|apply (Hi ["npm"; "install"; "--no-save"]); [done|by apply literal_words]]. done.
  - case_bool_decide; [|case_bool_decide; [|by destruct (shell_commands rest)]].
    + etrans; [|apply (Hi ["bun"; "install"]); [done|by apply literal_words]]. done.
    + etrans; [|apply (Hi ["npm"; "install"; "--no-save"]); [done|by apply literal_words]]. done.
Qed.
End invocation.

Definition prefix_args (lang : ScriptLanguage) (interp : string) : list string :=
  default [] (snd <$> List.find (λ p, p.1 ==? interp) (toolchain_preferences lang)).

Lemma toolchain_pre lang p : p ∈ toolchain_preferences lang → (p.2 = [] ∨ p.2 = ["run"]) ∧ word_of p.1 (bytes p.1).
Proof.
  intros Hp. assert (Hok : forallb (λ p, (bool_decide (p.2 = []) || bool_decide (p.2 = ["run"])) && (negb (bool_decide (p.1 = "")) && forallb plain (bytes p.1)))
    (toolchain_preferences lang) = true) by by destruct lang.
  rewrite forallb_Forall', Forall_forall in Hok. specialize (Hok p Hp). apply andb_prop in Hok as [H1 [H2 H3]%andb_prop]. split.
  - apply orb_prop in H1 as [H1|H1]; apply bool_decide_eq_true in H1; auto.
  - apply plain_word; [by apply negb_true_iff, bool_decide_eq_false in H2|by apply forallb_Forall'].
Qed.

Lemma prefix_args_pre lang interp : prefix_args lang interp = [] ∨ prefix_args lang interp = ["run"].
Proof.
  unfold prefix_args. destruct (List.find _ _) as [p|] eqn:Ep; [|by left]. apply List.find_some in Ep as [Hp _].
  apply list_elem_of_In in Hp. by apply toolchain_pre in Hp as [? _].
Qed.

Lemma no_install_uv lang deps : install_words lang "uv" deps = [].
Proof. unfold install_words. by case_bool_decide; destruct lang. Qed.

Lemma install_and_run lang deps args path file binary pre blanks :
  word_of path (bytes file) → word_of binary (bytes binary) → pre = [] ∨ pre = ["run"] → Forall (λ c, blank c = true) (bytes blanks) →
  shell_commands (if (binary ==? "uv") && negb (bool_decide (deps = [])) then binary +:+ " run " +:+ uv_with deps +:+ " " +:+ path +:+ args_suffix args
                  else (match build_dep_install_prefix lang binary deps with Some install => install +:+ of_bytes [nl] +:+ blanks | None => "" end) +:+
                       run_line binary pre path (args_suffix args)) =
  Some (install_words lang binary deps ++ [run_words binary pre deps file args]).
Proof.
  intros Hp Hb Hpre Hbl. pose proof (run_command deps args path file Hp binary pre Hb Hpre) as Hrun. destruct (_ && _) eqn:Euv.
  - rewrite Hrun. apply andb_prop in Euv as [->%bool_decide_eq_true _]. by rewrite no_install_uv.
  - by rewrite install_then, Hrun.
Qed.

(** ** Theorems *)


(** ** Inline scripts *)

Lemma split_on_ne sep l : split_on sep l ≠ [].
Proof. destruct l; simpl; repeat case_match; done. Qed.

Lemma split_on_concat sep a b : split_on sep (a ++ sep :: b) = split_on sep a ++ split_on sep b.
Proof.
  induction a as [|c a IH]; simpl.
  - pose proof (split_on_ne sep b). destruct (split_on sep b); [done|]. by rewrite bool_decide_true.
  - rewrite IH. pose proof (split_on_ne sep a). destruct (split_on sep a); [done|]. simpl. by case_bool_decide.
Qed.

Lemma heredoc_body_app delimiter body rest : delimiter ∉ body → heredoc_body delimiter (body ++ delimiter :: rest) = Some (body, rest).
Proof.
  induction body as [|line body IH]; intros Hni; simpl; [by rewrite bool_decide_true|]. rewrite not_elem_of_cons in Hni. rewrite bool_decide_false by naive_solver.
  rewrite IH by naive_solver. done.
Qed.

(** The here-document that writes an inline script ends at its own delimiter:
    the file gets exactly the lines of the script unless one of them is the
    delimiter, which holds a fresh id. *)
Theorem heredoc_exact delimiter content rest :
  nl ∉ bytes delimiter → bytes delimiter ∉ split_on nl (bytes content) →
  heredoc_body (bytes delimiter) (split_on nl (bytes (content +:+ of_bytes [nl] +:+ delimiter +:+ of_bytes [nl] +:+ rest))) =
  Some (split_on nl (bytes content), split_on nl (bytes rest)).
Proof.
  intros Hd Hc. rewrite !bytes_app, !bytes_of_bytes. cbn [app]. rewrite split_on_concat, split_on_concat.
  assert (split_on nl (bytes delimiter) = [bytes delimiter]) as ->; [|by apply heredoc_body_app].
  clear Hc. induction (bytes delimiter) as [|c l IH]; [done|]. rewrite not_elem_of_cons in Hd. simpl.
  rewrite IH by naive_solver. by rewrite bool_decide_false by naive_solver.
Qed.

(** ** What [sh -c FILE] does

    For a shell script without dependencies the path itself is the command
    text. The words after it become the positional parameters of that text,
    which does not use them: the script runs without its arguments. And the
    path is read by the shell. *)

Example shell_file_loses_arguments :
  build_container_file_cmd "/workspace/run.sh" Shell [] None ["prod"] = ["sh"; "-c"; "/workspace/run.sh"; "sh"; "prod"] ∧
  shell_commands "/workspace/run.sh" = Some [["/workspace/run.sh"]].
Proof. split; vm_compute; reflexivity. Qed.

Example shell_file_path_is_split :
  build_container_file_cmd "/workspace/my run.sh" Shell [] None [] = ["sh"; "-c"; "/workspace/my run.sh"] ∧
  shell_commands "/workspace/my run.sh" = Some [["/workspace/my"; "run.sh"]].
Proof. split; vm_compute; reflexivity. Qed.
