(* ===== verification/Validation.v ===== *)
(** * Validation of a workspace

    [crates/stroem-common/src/validation.rs]: the checks of a workspace's
    configuration, each an error, a list of warnings or nothing. The template
    checker, the cron, time-zone and URL parsers and the text of a number are
    interfaces. *)
From S2P Require Import Prelude Json Text Lines Utf8 DependsOn Dag Template TemplateError GitRef Workflow FileField InputFiles Errors Engine JsonField TypedInput Connections WorkspaceSet RenderContext JobCreator Retry Scheduler.

Definition MAX_STEP_TIMEOUT_SECS : Z := 86400.
Definition MAX_JOB_TIMEOUT_SECS : Z := 604800.
Definition VALID_LANGUAGE_NAMES : list string := ["shell"; "python"; "javascript"; "typescript"; "go"; "js"; "ts"].

(** [CrossWorkspaceResolver] *)
Record Resolver := mkResolver { has_action : string → string → bool; has_task : string → string → bool }.

(** [check_engine]'s error on the empty context; [url::Url]'s scheme; the text
    of an [f32] given by its bits. *)
Class CheckLib := {
  check_render : string → option TeraError;
  url_scheme : string → option string;
  f32_text : N → string;
}.

(** ** Checks

    An error, or the warnings in order. *)

Abbreviation Chk := (result AnyError (list string)).

Definition pass : Chk := Ok [].
Definition warn (text : string) : Chk := Ok [text].
Definition refuse (b : bool) (text : string) : Chk := if b then bail text else pass.
Definition warn_if (b : bool) (text : string) : Chk := if b then warn text else pass.
Definition also (a b : Chk) : Chk := let? w := a in let? w' := b in Ok (w ++ w').
Notation "a ';;;' b" := (also a b) (at level 60, right associativity) : stroem_scope.

Fixpoint each {A : Type} (f : A → Chk) (l : list A) : Chk :=
  match l with
  | [] => pass
  | x :: l => f x ;;; each f l
  end.
Definition each_entry `{HashIter} {A : Type} (f : string → A → Chk) (m : gmap string A) : Chk :=
  each (λ p, f p.1 p.2) (hash_iter m).
Fixpoint each_index {A : Type} (f : nat → A → Chk) (i : nat) (l : list A) : Chk :=
  match l with
  | [] => pass
  | x :: l => f i x ;;; each_index f (S i) l
  end.

Definition given {A : Type} (o : option A) : bool := match o with Some _ => true | None => false end.
Definition some_items {A : Type} (l : list A) : bool := match l with [] => false | _ => true end.
Definition if_given {A : Type} (o : option A) (f : A → Chk) : Chk := match o with Some a => f a | None => pass end.

(** [chars().all(…)] and [chars().any(…)] for predicates of ASCII characters. *)
Definition all_bytes (f : ascii → bool) (s : string) : bool := forallb f (bytes s).
Definition any_byte (f : ascii → bool) (s : string) : bool := existsb f (bytes s).
Definition one_of (chars : string) (c : ascii) : bool := bool_decide (c ∈ bytes chars).

(** ** Templates and refs *)

Section validation.
Context `{CheckLib, Tera} {iter : HashIter} `{CronLib, Unicode}.

Definition check_template_syntax (src : string) : result TemplateError unit :=
  match check_render src with
  | None => Ok ()
  | Some e => if is_rendering_error e then Ok () else Err (from_tera e (Some src) None)
  end.

Definition check_template (src what : string) : Chk :=
  match check_template_syntax src with
  | Ok _ => pass
  | Err e => Err [LMsg what; LTemplate e]
  end.

Definition check_git_ref (label git_ref : string) : Chk :=
  match parse_git_ref git_ref with
  | Ok _ => pass
  | Err e => bail (label +:+ " has invalid `ref` '" +:+ git_ref +:+ "': " +:+ GitRefError_fmt e)
  end.

Definition check_ref_template (label template : string) : Chk :=
  match check_ref_template_syntax template with
  | Ok _ => pass
  | Err e => Err [LMsg (label +:+ " has an invalid `ref` template"); LTemplate e]
  end.

(** ** Actions *)

Section action.
Context (action : ActionDef) (action_name : string).
Let named : string := "Action '" +:+ action_name +:+ "'".
Let missing (ty field : string) : string := named +:+ " is type '" +:+ ty +:+ "' but missing '" +:+ field +:+ "' field".
Let has (ty field note : string) : string := named +:+ " is type '" +:+ ty +:+ "' but has '" +:+ field +:+ "' field" +:+ note.

Definition check_runner : Chk :=
  if_given (a_runner action) (λ runner,
    refuse (negb (bool_decide (runner ∈ ["local"; "docker"; "pod"])))
      (named +:+ " has invalid runner '" +:+ runner +:+ "' (expected: local, docker, pod)")).

Definition manifest_is_object : Chk :=
  if_given (a_manifest action) (λ manifest,
    refuse (negb (match manifest with JObject _ => true | _ => false end)) (named +:+ " has 'manifest' field but it is not an object")).

Definition check_script_manifest : Chk :=
  if_given (a_manifest action) (λ _,
    let runner := default "local" (a_runner action) in
    refuse (runner <>? "pod")
      (named +:+ " has 'manifest' field but runner is '" +:+ runner +:+ "' (manifest is only valid on pod actions)") ;;;
    manifest_is_object).

Definition check_interpreter : Chk :=
  if_given (a_interpreter action) (λ interp,
    refuse (interp ==? "") (named +:+ " has empty 'interpreter' field") ;;;
    refuse (negb (all_bytes (λ c, is_ascii_alphanumeric c || one_of "._-/+" c) interp))
      (named +:+ " has invalid 'interpreter' value '" +:+ interp +:+
       "': only alphanumeric characters, dots, dashes, underscores, slashes, and plus signs are allowed")).

Definition shell_metachar (c : ascii) : bool :=
  one_of ";&|$`(){}\'" c || bool_decide (c = "010"%char) || bool_decide (c = "013"%char) || bool_decide (c = quote).

Definition check_dependency (dep : string) : Chk :=
  refuse (dep ==? "") (named +:+ " has empty dependency entry") ;;;
  refuse (any_byte shell_metachar dep) (named +:+ " has dependency '" +:+ dep +:+ "' containing shell metacharacters").

Definition validate_script_action : Chk :=
  refuse (given (a_cmd action)) (named +:+ ": 'cmd' is not valid on type: script — use 'script' (inline) or 'source' (file path)") ;;;
  refuse (a_script action ==? Some "") (named +:+ " has empty 'script' field") ;;;
  refuse (a_source action ==? Some "") (named +:+ " has empty 'source' field") ;;;
  refuse (negb (given (a_script action)) && negb (given (a_source action)))
    (named +:+ " is type 'script' but missing 'script' or 'source' field") ;;;
  refuse (given (a_script action) && given (a_source action)) (named +:+ " has both inline script and source file — use only one") ;;;
  refuse (given (a_image action))
    (has "script" "image" ". Use type: docker for container images, or runner: docker for shell-in-container") ;;;
  check_runner ;;;
  refuse (given (a_entrypoint action)) (has "script" "entrypoint" " (only valid for docker/pod)") ;;;
  check_script_manifest ;;;
  if_given (a_language action) (λ lang,
    refuse (negb (bool_decide (lang ∈ VALID_LANGUAGE_NAMES)))
      (named +:+ " has invalid language '" +:+ lang +:+ "' (expected: " +:+ str_join ", " VALID_LANGUAGE_NAMES +:+ ")")) ;;;
  check_interpreter ;;;
  each check_dependency (a_dependencies action) ;;;
  warn_if (some_items (a_dependencies action) && negb (given (a_language action)))
    (named +:+ " has 'dependencies' but no 'language' set (dependencies require a non-shell language)") ;;;
  warn_if (given (a_interpreter action) && negb (given (a_language action))) (named +:+ " has 'interpreter' but no 'language' set") ;;;
  each_index (λ i arg, refuse (arg ==? "") (named +:+ " has empty args entry at index " +:+ pretty i)) 0 (a_args action).

(** What docker and pod actions share. *)
Definition container_head (ty : string) : Chk :=
  refuse (negb (given (a_image action))) (missing ty "image") ;;;
  refuse (given (a_runner action)) (has ty "runner" " (runner is only for script actions)") ;;;
  refuse (given (a_script action)) (has ty "script" (" (script is for type:script actions, use cmd for " +:+ ty +:+ ")")) ;;;
  refuse (given (a_source action)) (has ty "source" " (source is for type:script actions)").
Definition only_script (ty args_note : string) : Chk :=
  refuse (given (a_language action)) (has ty "language" " (only valid for script actions)") ;;;
  refuse (some_items (a_dependencies action)) (has ty "dependencies" " (only valid for script actions)") ;;;
  refuse (given (a_interpreter action)) (has ty "interpreter" " (only valid for script actions)") ;;;
  refuse (some_items (a_args action)) (has ty "args" args_note).

Definition validate_docker_action : Chk :=
  container_head "docker" ;;;
  refuse (given (a_manifest action)) (has "docker" "manifest" " (manifest is only valid on pod actions)") ;;;
  only_script "docker" " (only valid for script actions; use cmd/command/entrypoint for docker)".

Definition validate_pod_action : Chk :=
  container_head "pod" ;;;
  manifest_is_object ;;;
  only_script "pod" " (only valid for script actions; use cmd/command/entrypoint for pod)".

(** The fields that say how to execute, in the order they are refused. *)
Definition no_execution (ty note : string) : Chk :=
  refuse (given (a_cmd action)) (has ty "cmd" note) ;;;
  refuse (given (a_script action)) (has ty "script" note) ;;;
  refuse (given (a_source action)) (has ty "source" note) ;;;
  refuse (given (a_image action)) (has ty "image" note) ;;;
  refuse (given (a_runner action)) (has ty "runner" note) ;;;
  refuse (given (a_manifest action)) (has ty "manifest" note).

Definition validate_task_action : Chk :=
  refuse (negb (given (a_task action))) (missing "task" "task") ;;;
  no_execution "task" " (task actions only reference another task)" ;;;
  only_script "task" " (only valid for script actions)".

(** [(0.0..=2.0).contains(&temp)] on the bits of an [f32]; minus zero is in. *)
Definition temperature_in_range (bits : N) : bool := (bits <=? 0x40000000)%N || (bits =? 0x80000000)%N.

Definition check_tool (tool : AgentToolRef) : Chk :=
  match tool with
  | ToolTask task git_ref =>
      refuse (task ==? "") (named +:+ " has a tool with empty task reference") ;;;
      refuse (given git_ref) (named +:+ " tool task '" +:+ task +:+ "': `ref` is not supported on agent task tools yet")
  | ToolMcp mcp => refuse (mcp ==? "") (named +:+ " has a tool with empty MCP server reference")
  end.

Definition validate_agent_action : Chk :=
  refuse (negb (given (a_provider action))) (missing "agent" "provider") ;;;
  refuse (negb (given (a_prompt action))) (missing "agent" "prompt") ;;;
  no_execution "agent" "" ;;;
  refuse (given (a_task action)) (has "agent" "task" "") ;;;
  refuse (given (a_language action)) (has "agent" "language" "") ;;;
  refuse (given (a_entrypoint action)) (has "agent" "entrypoint" "") ;;;
  refuse (some_items (a_dependencies action)) (has "agent" "dependencies" "") ;;;
  refuse (given (a_interpreter action)) (has "agent" "interpreter" "") ;;;
  refuse (some_items (a_args action)) (has "agent" "args" " (only valid for script actions)") ;;;
  if_given (a_temperature action) (λ temp,
    refuse (negb (temperature_in_range temp)) (named +:+ " temperature must be between 0.0 and 2.0, got " +:+ f32_text temp)) ;;;
  if_given (a_prompt action) (λ prompt, check_template prompt (named +:+ " has an invalid prompt template")) ;;;
  if_given (a_system_prompt action) (λ sp, check_template sp (named +:+ " has an invalid system_prompt template")) ;;;
  if_given (a_max_turns action) (λ turns,
    refuse ((turns =? 0)%Z || (100 <? turns)%Z) (named +:+ " max_turns must be between 1 and 100, got " +:+ pretty turns)) ;;;
  warn_if (given (a_max_turns action) && negb (some_items (a_tools action)) && negb (a_interactive action))
    (named +:+ ": max_turns is set but the action has no tools defined — max_turns has no effect on single-turn agents") ;;;
  warn_if (a_interactive action && negb (some_items (a_tools action)))
    (named +:+ ": interactive=true but the action has no tools defined — interactive mode enables ask_user suspensions but task tools and MCP tools are unavailable") ;;;
  warn_if (a_interactive action && some_items (a_tools action) && negb (given (a_max_turns action)))
    (named +:+ ": interactive=true with no max_turns set — consider setting max_turns to prevent unbounded conversation loops") ;;;
  each check_tool (a_tools action).

(** The first input of a type, in iteration order. *)
Definition input_of_type (ty : string) : option string :=
  fst <$> List.find (λ p, field_type p.2 ==? ty) (hash_iter (a_input action)).

Definition validate_approval_action : Chk :=
  let no {A : Type} (o : option A) (field : string) := refuse (given o) (has "approval" field "") in
  let empty {A : Type} (l : list A) (field note : string) := refuse (some_items l) (has "approval" field note) in
  let no_input ty := if_given (input_of_type ty) (λ field,
    bail (named +:+ " is type 'approval' but input '" +:+ field +:+ "' is type " +:+ ty +:+ " (not supported in approval forms)")) in
  refuse (negb (given (a_message action))) (missing "approval" "message") ;;;
  no_input JSON_TYPE ;;;
  no_input FILE_TYPE ;;;
  no_execution "approval" "" ;;;
  no (a_task action) "task" ;;;
  no (a_entrypoint action) "entrypoint" ;;;
  no (a_command action) "command" ;;;
  no (a_provider action) "provider" ;;;
  no (a_prompt action) "prompt" ;;;
  no (a_system_prompt action) "system_prompt" ;;;
  no (a_temperature action) "temperature" ;;;
  no (a_max_tokens action) "max_tokens" ;;;
  empty (a_tools action) "tools" "" ;;;
  no (a_max_turns action) "max_turns" ;;;
  no (a_language action) "language" ;;;
  empty (a_dependencies action) "dependencies" "" ;;;
  no (a_interpreter action) "interpreter" ;;;
  empty (a_args action) "args" " (only valid for script actions)".

Definition OUTPUT_TYPES : list string := ["string"; "integer"; "number"; "boolean"; "array"; "object"].

Definition check_output : Chk :=
  if_given (a_output action) (λ o,
    each (λ p, refuse (negb (bool_decide (of_type p.2 ∈ OUTPUT_TYPES)))
                 (named +:+ " output field '" +:+ p.1 +:+ "' has invalid type '" +:+ of_type p.2 +:+ "'. Valid types: " +:+
                  str_join ", " OUTPUT_TYPES)) (out_properties o)).

Definition validate_action : Chk :=
  check_output ;;;
  let ty := a_action_type action in
  if ty ==? "script" then validate_script_action
  else if ty ==? "docker" then validate_docker_action
  else if ty ==? "pod" then validate_pod_action
  else if ty ==? "task" then validate_task_action
  else if ty ==? "agent" then validate_agent_action
  else if ty ==? "approval" then validate_approval_action
  else bail (named +:+ " has invalid type '" +:+ ty +:+ "' (expected: script, docker, pod, task, agent, approval)").
End action.

(** ** References *)

Definition check_task_self_reference (config : WorkspaceConfig) (task_name action_name where_ : string) : Chk :=
  match actions config !! action_name with
  | Some action =>
      refuse ((a_action_type action ==? "task") && negb (given (a_git_ref action)) && (a_task action ==? Some task_name))
        ("Task '" +:+ task_name +:+ "' " +:+ where_ +:+ " uses action '" +:+ action_name +:+
         "' which references back to the same task (self-reference)")
  | None => pass
  end.

Section references.
Context (config : WorkspaceConfig) (libraries_resolved : bool) (resolver : option Resolver).

(** The [ref:] of an action. *)
Definition check_action_ref (action_name : string) (action : ActionDef) : Chk :=
  if_given (a_git_ref action) (λ r,
    refuse (a_action_type action <>? "task")
      ("Action '" +:+ action_name +:+ "' has `ref` but is type '" +:+ a_action_type action +:+
       "': `ref` is only valid on type: task actions, where it qualifies `task`") ;;;
    let label := "Action '" +:+ action_name +:+ "'" in
    match classify_ref r with Static => check_git_ref label r | Template => check_ref_template label r end).

(** The task a [type: task] action names. *)
Definition check_action_task (action_name : string) (action : ActionDef) (task_ref : string) : Chk :=
  let missing := "Action '" +:+ action_name +:+ "' references non-existent task '" +:+ task_ref +:+ "'" in
  match a_git_ref action with
  | Some r =>
      let '(at_, when_) :=
        match classify_ref r with
        | Static => ("at ref '" +:+ r +:+ "'", "resolved at job creation")
        | Template => ("at a templated ref", "resolved when the step starts")
        end in
      warn ("Action '" +:+ action_name +:+ "' references task '" +:+ task_ref +:+ "' " +:+ at_ +:+
            " - validation skipped (" +:+ when_ +:+ ")")
  | None =>
      if bool_decide (is_Some (tasks config !! task_ref)) then pass
      else if starts_with "." task_ref || ends_with "." task_ref then
        bail ("Action '" +:+ action_name +:+ "' references malformed task '" +:+ task_ref +:+ "' (empty workspace or task name)")
      else
        match parse_qualified_ref task_ref with
        | (Some ws, name) =>
            if negb libraries_resolved then
              warn ("Action '" +:+ action_name +:+ "' references task '" +:+ task_ref +:+
                    "' outside this workspace - cannot validate cross-workspace task reference offline")
            else
              match resolver with
              | Some r => refuse (negb (has_task r ws name))
                            ("action '" +:+ action_name +:+ "': workspace '" +:+ ws +:+ "' has no task '" +:+ name +:+ "'")
              | None => bail missing
              end
        | (None, _) => bail missing
        end
  end.

Definition check_config_action (action_name : string) (action : ActionDef) : Chk :=
  check_action_ref action_name action ;;;
  validate_action action action_name ;;;
  if a_action_type action ==? "task"
  then match a_task action with
       | Some task_ref => check_action_task action_name action task_ref
       | None => bail "task field is required"  (* [expect]: never reached, [validate_action] requires the field *)
       end
  else pass.

(** [validate_trigger_task] *)
Definition validate_trigger_task (trigger_name task : string) (git_ref : option string) (allow_template : bool) : Chk :=
  let missing := "Trigger '" +:+ trigger_name +:+ "' references non-existent task '" +:+ task +:+ "'" in
  let label := "Trigger '" +:+ trigger_name +:+ "'" in
  match git_ref with
  | Some r =>
      match classify_ref r with
      | Static =>
          check_git_ref label r ;;;
          warn (label +:+ " targets task '" +:+ task +:+ "' at ref '" +:+ r +:+ "' - validation skipped (resolved when the trigger fires)")
      | Template =>
          if allow_template then
            check_ref_template label r ;;;
            warn (label +:+ " targets task '" +:+ task +:+ "' at a templated ref - validation skipped (resolved when the webhook fires)")
          else bail (label +:+ ": a templated `ref` is only supported on webhook triggers")
      end
  | None =>
      if bool_decide (is_Some (tasks config !! task)) then pass
      else
        match parse_qualified_ref task with
        | (Some ws, name) =>
            if negb libraries_resolved then
              warn (label +:+ " targets task '" +:+ task +:+ "' outside this workspace - cannot validate cross-workspace task reference offline")
            else
              match resolver with
              | Some r => refuse (negb (has_task r ws name))
                            ("trigger '" +:+ trigger_name +:+ "': workspace '" +:+ ws +:+ "' has no task '" +:+ name +:+ "'")
              | None => bail missing
              end
        | (None, _) => bail missing
        end
  end.

Definition validate_hook_action_exists (label : string) (hook : HookDef) : Chk :=
  refuse (given (h_git_ref hook)) (label +:+ ": `ref` is not supported on hooks yet") ;;;
  let action := h_action hook in
  if negb libraries_resolved && str_contains "." action then pass
  else
    match actions config !! action with
    | None => bail (label +:+ " references non-existent action '" +:+ action +:+ "'")
    | Some def =>
        if a_action_type def ==? "task" then
          refuse (given (a_git_ref def))
            (label +:+ " uses action '" +:+ action +:+ "' whose task reference carries `ref`: `ref` is not supported on hooks yet") ;;;
          if_given (a_task def) (λ task_ref,
            if negb (bool_decide (is_Some (tasks config !! task_ref))) && str_contains "." task_ref then
              if libraries_resolved then
                bail (label +:+ " uses action '" +:+ action +:+ "' whose task '" +:+ task_ref +:+
                      "' is in another workspace; hook actions cannot call tasks across workspaces")
              else warn (label +:+ " uses action '" +:+ action +:+ "' whose task '" +:+ task_ref +:+ "' is not local - cannot validate offline")
            else pass)
        else pass
    end.

Definition check_hooks (owner list_name : string) (hooks : list HookDef) : Chk :=
  each_index (λ i hook, validate_hook_action_exists (owner +:+ " " +:+ list_name +:+ "[" +:+ pretty i +:+ "]") hook) 0 hooks.

(** ** Tasks *)

Definition self_reference_of_task (task_name : string) (task : TaskDef) : Chk :=
  let hooks list_name l :=
    each_index (λ i hook, check_task_self_reference config task_name (h_action hook) (list_name +:+ "[" +:+ pretty i +:+ "]")) 0 l in
  each_entry (λ step_name step, check_task_self_reference config task_name (action step) ("step '" +:+ step_name +:+ "'")) (flow task) ;;;
  hooks "on_success" (td_on_success task) ;;;
  hooks "on_error" (td_on_error task) ;;;
  hooks "on_suspended" (td_on_suspended task) ;;;
  hooks "on_cancel" (td_on_cancel task).

Definition check_step_action (label : string) (step : FlowStep) : Chk :=
  let action_ref := action step in
  match Workflow.git_ref step with
  | Some r =>
      match classify_ref r with
      | Static =>
          check_git_ref label r ;;;
          warn (label +:+ " references action '" +:+ action_ref +:+ "' at ref '" +:+ r +:+ "' - validation skipped (resolved at job creation)")
      | Template =>
          check_ref_template label r ;;;
          warn (label +:+ " references action '" +:+ action_ref +:+
                "' at a templated ref - validation skipped (resolved when the step starts)")
      end
  | None =>
      if negb libraries_resolved && str_contains "." action_ref then
        warn (label +:+ " references library action '" +:+ action_ref +:+ "' - validation skipped")
      else if negb (bool_decide (is_Some (actions config !! action_ref))) then
        match parse_qualified_ref action_ref, resolver with
        | (Some ws, bare), Some r =>
            refuse (negb (has_action r ws bare))
              ("action '" +:+ action_ref +:+ "': workspace '" +:+ ws +:+ "' has no action '" +:+ bare +:+ "'")
        | _, _ => bail (label +:+ " references non-existent action '" +:+ action_ref +:+ "'")
        end
      else pass
  end.

Definition check_for_each (label : string) (v : json) : Chk :=
  match v with
  | JString expr => check_template expr (label +:+ " has an invalid for_each expression")
  | JArray arr =>
      refuse (10000 <? N.of_nat (length arr))%N (label +:+ " for_each literal array has " +:+ pretty (length arr) +:+ " items (max 10000)")
  | other =>
      bail (label +:+ " field 'for_each' must be a string (Tera template) or array, got a JSON " +:+ json_type_name other)
  end.

Definition check_retry (r : RetryConfig) (label : string) : Chk :=
  match validate_retry_config r label with Some text => bail text | None => pass end.

Definition check_step (task_name : string) (task : TaskDef) (step_name : string) (step : FlowStep) : Chk :=
  let label := "Task '" +:+ task_name +:+ "' step '" +:+ step_name +:+ "'" in
  check_step_action label step ;;;
  each (λ dep, refuse (negb (bool_decide (is_Some (flow task !! dep)))) (label +:+ " depends on non-existent step '" +:+ dep +:+ "'"))
    (collect_names (depends_on step)) ;;;
  if_given (when_ step) (λ e, check_template e (label +:+ " has an invalid when expression")) ;;;
  refuse (str_contains "[" step_name || str_contains "]" step_name)
    (label +:+ " name must not contain '[' or ']' (reserved for for_each instances)") ;;;
  if_given (for_each step) (check_for_each label) ;;;
  warn_if (sequential step && negb (given (for_each step)))
    (label +:+ " has sequential: true but no for_each — sequential has no effect") ;;;
  if_given (fs_timeout step) (λ t,
    refuse (MAX_STEP_TIMEOUT_SECS <? t)%Z
      (label +:+ " timeout " +:+ pretty t +:+ "s exceeds maximum of " +:+ pretty MAX_STEP_TIMEOUT_SECS +:+ "s (24h)")) ;;;
  if_given (retry step) (λ r,
    check_retry r label ;;;
    match actions config !! action step with
    | Some def =>
        warn_if ((a_action_type def ==? "approval") || (a_action_type def ==? "task"))
          (label +:+ " has retry on action type '" +:+ a_action_type def +:+ "' — retry is not meaningful for this type")
    | None => pass
    end).

(** The texts of [validate_dag]; it never panics and its fuel suffices. *)
Definition DagError_fmt (e : DagError) : string :=
  match e with
  | MissingDep step dep => "Step '" +:+ step +:+ "' depends on non-existent step '" +:+ dep +:+ "'"
  | CycleDetected => "Cycle detected in workflow DAG"
  | Panic | OutOfFuel => ""
  end.

Definition check_task (task_name : string) (task : TaskDef) : Chk :=
  let label := "Task '" +:+ task_name +:+ "'" in
  let hooks := check_hooks label in
  (let? _ := validate_task_dependency_shape task_name task in pass) ;;;
  each_entry (check_step task_name task) (flow task) ;;;
  if_given (td_timeout task) (λ t,
    refuse (MAX_JOB_TIMEOUT_SECS <? t)%Z
      (label +:+ " timeout " +:+ pretty t +:+ "s exceeds maximum of " +:+ pretty MAX_JOB_TIMEOUT_SECS +:+ "s (7d)")) ;;;
  if_given (task_retry task) (λ r, check_retry r label) ;;;
  match validate_dag (flow task) with
  | Ok _ => pass
  | Err e => bail (label +:+ " has invalid DAG: " +:+ DagError_fmt e)
  end ;;;
  hooks "on_success" (td_on_success task) ;;;
  hooks "on_error" (td_on_error task) ;;;
  hooks "on_suspended" (td_on_suspended task) ;;;
  hooks "on_cancel" (td_on_cancel task).

(** ** Triggers *)

Definition is_webhook (t : TriggerDef) : bool := match t with TWebhook _ => true | _ => false end.
Definition is_event_source (t : TriggerDef) : bool := match t with TEventSource _ => true | _ => false end.

Definition check_scheduler (label : string) (t : SchedulerTrigger) : Chk :=
  refuse (negb (given (cron_parse (sc_cron t)))) (label +:+ " has invalid cron expression '" +:+ sc_cron t +:+ "'") ;;;
  if_given (sc_timezone t) (λ tz,
    refuse (negb (given (tz_parse tz))) (label +:+ " has invalid timezone '" +:+ tz +:+ "' (must be IANA, e.g., 'Europe/Copenhagen')")).

Definition check_webhook (label : string) (t : WebhookTrigger) : Chk :=
  refuse (negb (all_bytes (λ c, is_ascii_alphanumeric c || one_of "_-" c) (wh_name t)))
    (label +:+ " has invalid webhook name '" +:+ wh_name t +:+ "' (only alphanumeric, hyphens, and underscores allowed)") ;;;
  refuse (wh_name t ==? "") (label +:+ " has empty webhook name") ;;;
  if_given (wh_mode t) (λ m,
    refuse ((m <>? "sync") && (m <>? "async")) (label +:+ " has invalid mode '" +:+ m +:+ "' (must be 'sync' or 'async')")) ;;;
  if_given (wh_timeout_secs t) (λ secs,
    refuse ((secs =? 0)%Z || (300 <? secs)%Z) (label +:+ " has invalid timeout_secs " +:+ pretty secs +:+ " (must be 1..=300)")).

Definition check_event_source (label : string) (t : EventSourceTrigger) : Chk :=
  let local what name :=
    if str_contains "." name then pass
    else refuse (negb (bool_decide (is_Some (tasks config !! name)))) (label +:+ " references non-existent " +:+ what +:+ " task '" +:+ name +:+ "'") in
  refuse (given (es_git_ref t)) (label +:+ ": `ref` is not supported on event_source triggers yet") ;;;
  local "consumer" (es_task t) ;;;
  local "target" (es_target_task t) ;;;
  refuse (es_task t ==? es_target_task t) (label +:+ ": consumer task and target_task cannot be the same ('" +:+ es_task t +:+ "')") ;;;
  refuse (es_backoff_secs t <? 1)%Z (label +:+ " has backoff_secs < 1 (got " +:+ pretty (es_backoff_secs t) +:+ ")") ;;;
  if_given (es_max_in_flight t) (λ mif, refuse (mif <? 1)%Z (label +:+ " has max_in_flight < 1 (got " +:+ pretty mif +:+ ")")).

Definition check_trigger (trigger_name : string) (trigger : TriggerDef) : Chk :=
  (if is_event_source trigger then pass
   else validate_trigger_task trigger_name (TriggerDef.task trigger) (TriggerDef.git_ref trigger) (is_webhook trigger)) ;;;
  let label := "Trigger '" +:+ trigger_name +:+ "'" in
  match trigger with
  | TScheduler t => check_scheduler label t
  | TWebhook t => check_webhook label t
  | TEventSource t => check_event_source label t
  end.
End references.

(** ** Names of tools *)

(** [name.replace('-', "_")] *)
Definition normalized (name : string) : string := of_bytes ((λ c, if bool_decide (c = "-"%char) then "_"%char else c) <$> bytes name).

(** [entry(normalized).or_default().push(name)] for every key. *)
Definition by_normalized (names : list string) : gmap string (list string) :=
  fold_left (λ m name, <[normalized name := default [] (m !! normalized name) ++ [name]]> m) names ∅.

Definition check_collisions (what consequence : string) (names : list string) : Chk :=
  each_entry (λ norm clashing,
    refuse (1 <? length clashing)%nat
      (what +:+ " " +:+ str_join " and " ((λ n, "'" +:+ n +:+ "'") <$> clashing) +:+ " have the same normalized name '" +:+ norm +:+
       "' — " +:+ consequence +:+ " would collide. Rename one to avoid ambiguity.")) (by_normalized names).

(** ** Connections and inputs *)

Section config.
Context (config : WorkspaceConfig).

Definition PROPERTY_TYPES : list string := ["string"; "text"; "integer"; "number"; "boolean"; "date"; "datetime"].

Definition check_connection_type (type_name : string) (type_def : ConnectionTypeDef) : Chk :=
  refuse (bool_decide (type_name ∈ RESERVED_TYPE_NAMES))
    ("Connection type name '" +:+ type_name +:+ "' is reserved (collides with a primitive input-field type or alias)") ;;;
  each_entry (λ prop_name prop_def,
    refuse (negb (bool_decide (property_type prop_def ∈ PROPERTY_TYPES)))
      ("Connection type '" +:+ type_name +:+ "' property '" +:+ prop_name +:+ "' has invalid type '" +:+ property_type prop_def +:+
       "' (expected: string, text, integer, number, boolean, date, datetime)")) (properties type_def).

Definition no_empty_values (conn_name : string) (conn : ConnectionDef) : Chk :=
  each_entry (λ key value,
    refuse (as_str value ==? Some "") ("Connection '" +:+ conn_name +:+ "' field '" +:+ key +:+ "' has an empty value")) (values conn).

Definition check_connection (conn_name : string) (conn : ConnectionDef) : Chk :=
  let label := "Connection '" +:+ conn_name +:+ "'" in
  match connection_type conn with
  | None => no_empty_values conn_name conn
  | Some type_name =>
      match connection_types config !! type_name with
      | Some type_def => check_connection_values label (values conn) type_name type_def
      | None =>
          if str_contains "." type_name then
            warn (label +:+ ": type '" +:+ type_name +:+ "' is a cross-workspace reference; validated at job creation") ;;;
            no_empty_values conn_name conn
          else bail (label +:+ " references non-existent connection type '" +:+ type_name +:+ "'")
      end
  end.

Definition validate_connections : Chk :=
  each_entry check_connection_type (connection_types config) ;;; each_entry check_connection (connections config).

Definition check_connection_input (scope owner field_name : string) (field : InputFieldDef) : Chk :=
  let label := scope +:+ " '" +:+ owner +:+ "' input '" +:+ field_name +:+ "'" in
  let ty := field_type field in
  if bool_decide (ty ∈ PRIMITIVE_TYPES) then pass
  else if negb (bool_decide (is_Some (connection_types config !! ty))) then
    if str_contains "." ty then warn (label +:+ ": type '" +:+ ty +:+ "' is a cross-workspace reference; validated at job creation")
    else bail (label +:+ " references unknown type '" +:+ ty +:+ "' (not a primitive or connection type)")
  else refuse (if_multiple field) (label +:+ ": multiple is not supported on connection-type fields (type '" +:+ ty +:+ "')").

Definition validate_connection_inputs : Chk :=
  each_entry (λ name action, each_entry (check_connection_input "Action" name) (a_input action)) (actions config) ;;;
  each_entry (λ name task, each_entry (check_connection_input "Task" name) (td_input task)) (tasks config).

(** *** Options *)

Definition file_field_attribute (field : InputFieldDef) : option string :=
  if given (if_default field) then Some "default"
  else if given (if_options field) then Some "options"
  else if if_multiple field then Some "multiple"
  else if if_secret field then Some "secret"
  else if if_allow_custom field then Some "allow_custom"
  else None.

Definition check_duplicates (label what : string) (l : list string) : list string :=
  report_duplicates (λ o, label +:+ ": duplicate " +:+ what +:+ " '" +:+ o +:+ "'") [] l.

(** The items of a default of a multi-select; [seen] are the texts met. *)
Fixpoint check_default_items (label : string) (allow_custom : bool) (options : list string) (seen : list string) (items : list json) : list string :=
  match items with
  | [] => []
  | item :: rest =>
      match as_str item with
      | None => (label +:+ ": default array items must be strings") :: check_default_items label allow_custom options seen rest
      | Some s =>
          (if bool_decide (s ∈ seen) then [label +:+ ": duplicate default item '" +:+ s +:+ "'"] else []) ++
          (if negb allow_custom && negb (bool_decide (s ∈ options)) then [label +:+ ": default item '" +:+ s +:+ "' is not in options list"] else []) ++
          check_default_items label allow_custom options (s :: seen) rest
      end
  end.

Definition check_default (label : string) (field : InputFieldDef) (options : list string) (default_ : json) : Chk :=
  if if_multiple field then
    match default_ with
    | JArray items => Ok (check_default_items label (if_allow_custom field) options [] items)
    | _ => warn (label +:+ ": multiple is true but default is not an array")
    end
  else if negb (if_allow_custom field) then
    if_given (as_str default_) (λ s,
      warn_if (negb (bool_decide (s ∈ options))) (label +:+ ": default value '" +:+ s +:+ "' is not in options list"))
  else pass.

Definition check_input_field_options (label : string) (field : InputFieldDef) : Chk :=
  (if field_type field ==? FILE_TYPE
   then if_given (file_field_attribute field) (λ attr, bail (label +:+ " is type file: '" +:+ attr +:+ "' is not supported"))
   else pass) ;;;
  (if field_type field ==? JSON_TYPE then
     refuse (if_secret field) (label +:+ ": secret is not supported on json fields") ;;;
     refuse (if_multiple field) (label +:+ ": multiple is not supported on json fields") ;;;
     refuse (given (if_options field)) (label +:+ ": options are not supported on json fields") ;;;
     refuse (if_allow_custom field) (label +:+ ": allow_custom is not supported on json fields")
   else pass) ;;;
  (if if_multiple field then
     refuse (if_secret field) (label +:+ ": secret and multiple cannot be combined") ;;;
     refuse ((field_type field <>? "string") && (field_type field <>? "text"))
       (label +:+ ": multiple is only supported on string/text fields (got '" +:+ field_type field +:+ "')")
   else pass) ;;;
  match if_options field with
  | Some options =>
      warn_if (negb (some_items options)) (label +:+ ": options list is empty") ;;;
      warn_if (bool_decide ("" ∈ options)) (label +:+ ": options list contains empty string") ;;;
      Ok (check_duplicates label "option" options) ;;;
      if_given (if_default field) (check_default label field options)
  | None =>
      warn_if (if_allow_custom field) (label +:+ ": allow_custom has no effect without options") ;;;
      warn_if (if_multiple field) (label +:+ ": multiple requires options to be set")
  end.

Definition validate_input_options : Chk :=
  each_entry (λ name action, each_entry (λ f, check_input_field_options ("Action '" +:+ name +:+ "' input '" +:+ f +:+ "'")) (a_input action))
    (actions config) ;;;
  each_entry (λ name task, each_entry (λ f, check_input_field_options ("Task '" +:+ name +:+ "' input '" +:+ f +:+ "'")) (td_input task))
    (tasks config).

(** *** File and json fields *)

(** The first required file field by name. *)
Definition required_file_field (task : TaskDef) : option string :=
  head (sort_strings (fst <$> List.filter (λ p, (field_type p.2 ==? FILE_TYPE) && if_required p.2) (hash_iter (td_input task)))).

Definition check_file_trigger (trigger_name : string) (trigger : TriggerDef) : Chk :=
  let '(target, git_ref) :=
    match trigger with
    | TEventSource t => (es_target_task t, es_git_ref t)
    | other => (TriggerDef.task other, TriggerDef.git_ref other)
    end in
  if given git_ref then pass
  else
    if_given (tasks config !! target) (λ task,
      warn_if (given (required_file_field task))
        ("Trigger '" +:+ trigger_name +:+ "' targets task '" +:+ target +:+
         "', which has a required file input: triggers cannot supply a file, so every run will fail")).

Definition check_file_tool (action_name : string) (tool : AgentToolRef) : Chk :=
  match tool with
  | ToolTask tool_task None =>
      if_given (tasks config !! tool_task ≫= required_file_field) (λ field,
        bail ("Action '" +:+ action_name +:+ "' uses task '" +:+ tool_task +:+ "' as an agent tool, but its input '" +:+ field +:+
              "' is a required file (an agent cannot supply a file)"))
  | _ => pass
  end.

Definition validate_file_field_targets : Chk :=
  each_entry check_file_trigger (triggers config) ;;;
  each_entry (λ name action, each (check_file_tool name) (a_tools action)) (actions config).

Definition lint_json (label : string) (value : json) : Chk :=
  let lint := lint_json_value value in
  refuse (lint_mixed lint) (label +:+ ": a json field takes a literal value or a single {{ expression }}") ;;;
  warn_if (encodes_to_text lint)
    (label +:+ ": the expression ends in `json_encode`, so the field receives JSON text (a string); drop `| json_encode()` to pass the value itself").

(** The schema a step's input lands in when it resolves locally. *)
Definition step_target_schema (step : FlowStep) : option (gmap string InputFieldDef) :=
  act ← match inline_action step with Some a => Some a | None => actions config !! action step end;
  if a_action_type act ==? "task" then
    if given (a_git_ref act) then None
    else t ← a_task act; td_input <$> tasks config !! t
  else Some (a_input act).

Definition lint_defaults (owner : string) (fields : gmap string InputFieldDef) : Chk :=
  each_entry (λ name f,
    if field_type f ==? JSON_TYPE then if_given (if_default f) (lint_json (owner +:+ " input '" +:+ name +:+ "' default")) else pass) fields.

Definition lint_step (task_name step_name : string) (step : FlowStep) : Chk :=
  if given (Workflow.git_ref step) then pass
  else
    match step_target_schema step with
    | None => pass
    | Some schema =>
        each_entry (λ key value,
          if bool_decide (field_type <$> schema !! key = Some JSON_TYPE)
          then lint_json ("Task '" +:+ task_name +:+ "' step '" +:+ step_name +:+ "' input '" +:+ key +:+ "'") value else pass) (fs_input step)
    end.

Definition validate_json_fields : Chk :=
  each_entry (λ name action, lint_defaults ("Action '" +:+ name +:+ "'") (a_input action)) (actions config) ;;;
  each_entry (λ name task,
    lint_defaults ("Task '" +:+ name +:+ "'") (td_input task) ;;; each_entry (lint_step name) (flow task)) (tasks config).

(** ** Secrets *)

(** What keeps the leaves of a value from being masked. *)
Fixpoint kinds (v : json) : list string :=
  match v with
  | JString _ => []
  | JNumber _ => ["is a number"]
  | JBool _ => ["is a boolean"]
  | JNull => ["is null"]
  | JArray l => (fix go l := match l with [] => [] | x :: l => kinds x ++ go l end) l
  | JObject m => (fix go m := match m with [] => [] | (_, x) :: m => kinds x ++ go m end) m
  end.
Definition kinds_found (v : json) : list string := dedup (sort_strings (kinds v)).

Definition UNMASKED : string :=
  "so it is never masked in job output or errors; quote it to have it masked (values of 3 characters or fewer are never masked)".

Definition warn_non_string_secrets : list string :=
  ('(name, value) ← hash_iter (secrets config);
   k ← kinds_found value;
   [("secret '" +:+ name +:+ "' " +:+ k +:+ ", " +:+ UNMASKED)]) ++
  ('(conn_name, conn) ← hash_iter (connections config);
   match connection_type conn ≫= (λ t, connection_types config !! t) with
   | None => []
   | Some type_def =>
       '(prop, def) ← hash_iter (properties type_def);
       if negb (cp_secret def) then []
       else
         match values conn !! prop with
         | None => []
         | Some value =>
             k ← kinds_found value;
             [("connection '" +:+ conn_name +:+ "' secret property '" +:+ prop +:+ "' " +:+ k +:+ ", " +:+ UNMASKED)]
         end
   end).

Definition child_path (path name : string) : string := if path ==? "" then name else path +:+ "." +:+ name.

Fixpoint validate_secrets (path : string) (value : json) : Chk :=
  match value with
  | JObject m =>
      (fix go (m : list (string * json)) : Chk :=
         match m with
         | [] => pass
         | (name, val) :: m =>
             (refuse (negb (forallb (λ c, is_alphanumeric c || bool_decide (c = bytes "_")) (chars (bytes name))))
                ("Secret name '" +:+ child_path path name +:+ "' contains invalid characters (only alphanumeric and underscore allowed)") ;;;
              validate_secrets (child_path path name) val) ;;; go m
         end) m
  | JString s => refuse (s ==? "") ("Secret '" +:+ path +:+ "' has an empty value")
  | _ => pass
  end.

(** [{{ secret.xxx.yyy }}] in a text; every round consumes at least the
    marker, so the length is enough fuel. *)
Fixpoint secret_refs (fuel : nat) (remaining : Bytes) : list string :=
  match fuel with
  | O => []
  | S fuel =>
      match find_bytes (bytes "{{ secret.") remaining with
      | None => []
      | Some start =>
          let after := drop (start + 10) remaining in
          match find_bytes (bytes " }}") after with
          | None => []
          | Some end_ =>
              let name := trim (of_bytes (take end_ after)) in
              (if name ==? "" then [] else [name]) ++ secret_refs fuel (drop (end_ + 3) after)
          end
      end
  end.
Definition extract_secret_refs (s : string) : list string := secret_refs (S (String.length s)) (bytes s).

(** [path.splitn(2, '.')] *)
Definition split_path (path : string) : string * option string :=
  match str_find "." path with
  | Some i => (str_take i path, Some (str_drop (S i) path))
  | None => (path, None)
  end.

Fixpoint json_path (fuel : nat) (value : json) (path : string) : bool :=
  match fuel with
  | O => false
  | S fuel =>
      let '(first, rest) := split_path path in
      match json_get first value with
      | Some child => match rest with None => true | Some rest => json_path fuel child rest end
      | None => false
      end
  end.
Definition resolve_json_path (value : json) (path : string) : bool := json_path (S (String.length path)) value path.

Definition resolve_secret_path (path : string) : bool :=
  let '(first, rest) := split_path path in
  match secrets config !! first with
  | Some value => match rest with None => true | Some rest => resolve_json_path value rest end
  | None => false
  end.

Definition check_env_secrets (action_name : string) (action : ActionDef) : Chk :=
  if_given (a_env action) (each_entry (λ env_key env_val,
    each (λ ref_path,
      warn_if (negb (resolve_secret_path ref_path))
        ("Action '" +:+ action_name +:+ "' env '" +:+ env_key +:+ "' references secret '" +:+ ref_path +:+ "' which is not defined in secrets"))
      (extract_secret_refs env_val))).

(** [serde_json::Value::Object] of the secrets. *)
Definition secrets_object : json := json_obj (hash_iter (secrets config)).

(** ** The whole configuration *)

Definition validate_workflow_config_inner (libraries_resolved : bool) (resolver : option Resolver) : Chk :=
  let hooks := check_hooks config libraries_resolved "Workspace" in
  each_entry (check_config_action config libraries_resolved resolver) (actions config) ;;;
  each_entry (self_reference_of_task config) (tasks config) ;;;
  each_entry (check_task config libraries_resolved resolver) (tasks config) ;;;
  each_entry (check_trigger config libraries_resolved resolver) (triggers config) ;;;
  hooks "on_success" (on_success config) ;;;
  hooks "on_error" (on_error config) ;;;
  hooks "on_suspended" (on_suspended config) ;;;
  hooks "on_cancel" (on_cancel config) ;;;
  check_collisions "Tasks" "agent tool names" (hash_keys (tasks config)) ;;;
  check_collisions "MCP servers" "tool name prefixes" (hash_keys (mcp_servers config)) ;;;
  validate_connections ;;;
  validate_connection_inputs ;;;
  validate_input_options ;;;
  validate_file_field_targets ;;;
  validate_json_fields ;;;
  Ok warn_non_string_secrets ;;;
  validate_secrets "" secrets_object ;;;
  each_entry check_env_secrets (actions config).

Definition validate_workflow_config : Chk := validate_workflow_config_inner false None.
Definition validate_workflow_config_with_libraries : Chk := validate_workflow_config_inner true None.
Definition validate_workflow_config_with_cross_workspace_resolver (resolver : Resolver) : Chk :=
  validate_workflow_config_inner true (Some resolver).
End config.

(** ** MCP servers *)

Definition check_mcp_server (name : string) (def : McpServerDef) : Chk :=
  let label := "MCP server '" +:+ name +:+ "'" in
  if transport def ==? "stdio" then
    refuse (negb (given (mcp_command def))) (label +:+ " uses stdio transport but is missing 'command' field") ;;;
    refuse (given (mcp_url def)) (label +:+ " uses stdio transport but has 'url' field (only valid for sse transport)")
  else if transport def ==? "sse" then
    refuse (negb (given (mcp_url def))) (label +:+ " uses sse transport but is missing 'url' field") ;;;
    if_given (mcp_url def) (λ url,
      refuse (match url_scheme url with Some s => (s <>? "http") && (s <>? "https") | None => true end)
        (label +:+ " url must be a valid http or https URL, got '" +:+ url +:+ "'")) ;;;
    warn_if (given (mcp_command def)) (label +:+ ": 'command' field is ignored for sse transport") ;;;
    warn_if (given (mcp_args def)) (label +:+ ": 'args' field is ignored for sse transport")
  else bail (label +:+ " has unknown transport type '" +:+ transport def +:+ "' (expected: stdio, sse)").

Definition validate_mcp_servers (servers : gmap string McpServerDef) : Chk := each_entry check_mcp_server servers.
End validation.
