(* ===== verification/ValidationProps.v ===== *)
(** * What an accepted configuration guarantees

    The checks of [Validation] as predicates, the well-formedness they
    establish, and what it gives the rest of the program: the cascade of a
    validated task never stalls, a validated schedule is loaded, the verdict
    does not depend on the iteration order of the maps. *)
From S2P Require Import Prelude Json Text Lines Utf8 DependsOn Dag Gate JobModel Db Template TemplateError GitRef Workflow FileField InputFiles Errors Engine JsonField TypedInput Connections ConnectionsProps WorkspaceSet RenderContext Refs JobCreator JobCreatorProps Retry Cascade CascadeProps CascadeLive Scheduler ScriptExec Validation.

(** ** Acceptance *)

Definition accepts (c : Chk) : Prop := is_ok c = true.

Lemma accepts_ok c : accepts c ↔ ∃ w, c = Ok w.
Proof. unfold accepts. destruct c; simpl; naive_solver. Qed.
Lemma accepts_pass : accepts pass ↔ True.
Proof. done. Qed.
Lemma accepts_Ok w : accepts (Ok w) ↔ True.
Proof. done. Qed.
Lemma accepts_warn t : accepts (warn t) ↔ True.
Proof. done. Qed.
Lemma accepts_bail t : accepts (bail t) ↔ False.
Proof. done. Qed.
Lemma accepts_refuse b t : accepts (refuse b t) ↔ b = false.
Proof. by destruct b. Qed.
Lemma accepts_warn_if b t : accepts (warn_if b t) ↔ True.
Proof. by destruct b. Qed.
Lemma accepts_also a b : accepts (a ;;; b) ↔ accepts a ∧ accepts b.
Proof. unfold accepts, also. destruct a, b; simpl; naive_solver. Qed.
Lemma accepts_if_given {A} (o : option A) f : accepts (if_given o f) ↔ ∀ a, o = Some a → accepts (f a).
Proof. destruct o; simpl; naive_solver. Qed.
Lemma accepts_each {A} (f : A → Chk) l : accepts (each f l) ↔ ∀ x, x ∈ l → accepts (f x).
Proof.
  induction l as [|x l IH]; simpl; [by split; [intros _ y Hy%elem_of_nil|]|].
  rewrite accepts_also, IH. setoid_rewrite elem_of_cons. naive_solver.
Qed.
Lemma accepts_each_entry `{HashIter} {A} (f : string → A → Chk) m :
  accepts (each_entry f m) ↔ ∀ k v, m !! k = Some v → accepts (f k v).
Proof.
  unfold each_entry. rewrite accepts_each. split.
  - intros Hf k v Hk. apply (Hf (k, v)). by apply elem_of_hash_iter.
  - intros Hf [k v] Hin. apply Hf. by apply elem_of_hash_iter in Hin.
Qed.
Lemma accepts_each_index {A} (f : nat → A → Chk) n l : accepts (each_index f n l) ↔ ∀ i x, l !! i = Some x → accepts (f (n + i)%nat x).
Proof.
  revert n. induction l as [|x l IH]; intros n; simpl; [split; [intros _ [|i] y [=]|done]|].
  rewrite accepts_also, IH. split.
  - intros [Hx Hl] [|i] y; simpl; [intros [= <-]; by rewrite Nat.add_0_r|]. intros Hy. rewrite Nat.add_succ_r. by apply (Hl i).
  - intros Hf. split; [specialize (Hf 0%nat x eq_refl); by rewrite Nat.add_0_r in Hf|]. intros i y Hy. specialize (Hf (S i) y Hy).
    by rewrite Nat.add_succ_r in Hf.
Qed.

#[export] Hint Rewrite accepts_pass accepts_Ok accepts_warn accepts_bail accepts_refuse accepts_warn_if accepts_also @accepts_if_given
  @accepts_each @accepts_each_index : stroem.
#[export] Hint Rewrite @accepts_each_entry : stroem.

(** Takes an acceptance apart at the top. *)
Ltac accepted H := autorewrite with stroem in H.

Lemma given_false {A} (o : option A) : given o = false ↔ o = None.
Proof. by destruct o. Qed.
Lemma given_true {A} (o : option A) : negb (given o) = false ↔ is_Some o.
Proof. destruct o; simpl; split; try done; by intros [? [=]]. Qed.
Lemma some_items_false {A} (l : list A) : some_items l = false ↔ l = [].
Proof. by destruct l. Qed.

Section props.
Context `{CheckLib, Tera, HashIter, CronLib, Unicode}.

(** ** Well-formed configurations *)

(** The fields that say how to execute, and those of scripts only. *)
Definition not_executed (a : ActionDef) : Prop :=
  a_cmd a = None ∧ a_script a = None ∧ a_source a = None ∧ a_image a = None ∧ a_runner a = None ∧ a_manifest a = None.
Definition no_script_fields (a : ActionDef) : Prop :=
  a_language a = None ∧ a_dependencies a = [] ∧ a_interpreter a = None ∧ a_args a = [].
Definition object_manifest (a : ActionDef) : Prop := ∀ m, a_manifest a = Some m → ∃ fields, m = JObject fields.

(** What the type of an action requires and excludes. *)
Inductive action_shape (a : ActionDef) : Prop :=
| ShapeScript : a_action_type a = "script" → is_Some (a_script a) ∨ is_Some (a_source a) → ¬ (is_Some (a_script a) ∧ is_Some (a_source a)) →
    a_script a ≠ Some "" → a_source a ≠ Some "" → a_cmd a = None → a_image a = None → a_entrypoint a = None →
    a_runner a ∈ [None; Some "local"; Some "docker"; Some "pod"] →
    (is_Some (a_manifest a) → a_runner a = Some "pod") → object_manifest a →
    (∀ l, a_language a = Some l → l ∈ VALID_LANGUAGE_NAMES) → (∀ i, a_interpreter a = Some i → interpreter_ok i) →
    Forall (λ dep, dep ≠ "" ∧ any_byte shell_metachar dep = false) (a_dependencies a) → Forall (λ arg, arg ≠ "") (a_args a) → action_shape a
| ShapeContainer : a_action_type a = "docker" ∨ a_action_type a = "pod" → is_Some (a_image a) →
    a_runner a = None → a_script a = None → a_source a = None → no_script_fields a →
    (a_action_type a = "docker" → a_manifest a = None) → object_manifest a → action_shape a
| ShapeTask : a_action_type a = "task" → is_Some (a_task a) → not_executed a → no_script_fields a → action_shape a
| ShapeAgent : a_action_type a = "agent" → is_Some (a_provider a) → is_Some (a_prompt a) → not_executed a → no_script_fields a →
    a_task a = None → a_entrypoint a = None →
    (∀ n, a_max_turns a = Some n → n ≠ 0 ∧ n ≤ 100)%Z → (∀ b, a_temperature a = Some b → temperature_in_range b = true) →
    (∀ t g, ToolTask t g ∈ a_tools a → t ≠ "" ∧ g = None) → (∀ m, ToolMcp m ∈ a_tools a → m ≠ "") → action_shape a
| ShapeApproval : a_action_type a = "approval" → is_Some (a_message a) → not_executed a → no_script_fields a →
    a_task a = None → a_entrypoint a = None → a_command a = None → a_provider a = None → a_prompt a = None → a_system_prompt a = None →
    a_temperature a = None → a_max_tokens a = None → a_max_turns a = None → a_tools a = [] →
    (∀ k d, a_input a !! k = Some d → field_type d ≠ "json" ∧ field_type d ≠ "file") → action_shape a.

Lemma object_manifest_ok a name : accepts (manifest_is_object a name) → object_manifest a.
Proof. unfold manifest_is_object. intros Ha m Hm. accepted Ha. specialize (Ha m Hm). accepted Ha. destruct m; try done. eauto. Qed.

Lemma only_script_ok a name ty note : accepts (only_script a name ty note) → no_script_fields a.
Proof. unfold only_script. intros Ha. accepted Ha. by rewrite !given_false, !some_items_false in Ha. Qed.

Lemma no_execution_ok a name ty note : accepts (no_execution a name ty note) → not_executed a.
Proof. unfold no_execution. intros Ha. accepted Ha. by rewrite !given_false in Ha. Qed.

Lemma no_input_of_type a ty : input_of_type a ty = None → ∀ k d, a_input a !! k = Some d → field_type d ≠ ty.
Proof.
  unfold input_of_type. intros Hn%fmap_None k d Hk Ht. apply elem_of_hash_iter, list_elem_of_In in Hk.
  pose proof (find_none _ _ Hn _ Hk) as Hf. simpl in Hf. by rewrite bool_decide_true in Hf.
Qed.

Lemma script_shape a name : a_action_type a = "script" → accepts (validate_script_action a name) → action_shape a.
Proof.
  intros Ety Ha. unfold validate_script_action, check_runner, check_script_manifest, check_interpreter in Ha. accepted Ha.
  destruct Ha as (Hcmd & Hes & Hso & Hone & Hboth & Him & Hrun & Hent & Hman & Hlang & Hint & Hdep & _ & _ & Hargs).
  apply ShapeScript; [done|..].
  - destruct (a_script a), (a_source a); simplify_eq/=; eauto.
  - destruct (a_script a), (a_source a); simplify_eq/=; intros [[] []]; by simplify_eq.
  - by rewrite bool_decide_eq_false in Hes.
  - by rewrite bool_decide_eq_false in Hso.
  - by apply given_false.
  - by apply given_false.
  - by apply given_false.
  - destruct (a_runner a) as [r|]; [|set_solver]. specialize (Hrun r eq_refl). accepted Hrun. rewrite negb_false_iff, bool_decide_eq_true in Hrun. set_solver.
  - intros [m Hm]. specialize (Hman m Hm). simpl in Hman. apply accepts_also in Hman as [Hman _]. accepted Hman.
    apply negb_false_iff, bool_decide_eq_true in Hman. destruct (a_runner a); simpl in Hman; by subst.
  - intros m Hm. specialize (Hman m Hm). simpl in Hman. apply accepts_also in Hman as [_ Hman]. by eapply object_manifest_ok.
  - intros l Hl. specialize (Hlang l Hl). accepted Hlang. by rewrite negb_false_iff, bool_decide_eq_true in Hlang.
  - intros i Hi. specialize (Hint i Hi). accepted Hint. destruct Hint as [Hne Hall]. apply bool_decide_eq_false in Hne. apply negb_false_iff in Hall.
    split; [done|]. by apply forallb_Forall'.
  - apply Forall_forall. intros dep Hd. specialize (Hdep dep Hd). unfold check_dependency in Hdep. accepted Hdep. by rewrite bool_decide_eq_false in Hdep.
  - apply Forall_forall. intros arg [i Hi]%list_elem_of_lookup. specialize (Hargs i arg Hi). simpl in Hargs. accepted Hargs. by rewrite bool_decide_eq_false in Hargs.
Qed.

Lemma container_shape a name ty note :
  a_action_type a = ty → ty = "docker" ∨ ty = "pod" → accepts (container_head a name ty) → accepts (only_script a name ty note) →
  (ty = "docker" → a_manifest a = None) → object_manifest a → action_shape a.
Proof.
  intros <- Hty Ha Hs%only_script_ok Hm Ho. unfold container_head in Ha. accepted Ha. rewrite given_true, !given_false in Ha. destruct_and! Ha.
  by apply ShapeContainer.
Qed.

Lemma agent_shape a name : a_action_type a = "agent" → accepts (validate_agent_action a name) → action_shape a.
Proof.
  intros Ety Ha. unfold validate_agent_action in Ha. rewrite !accepts_also in Ha.
  destruct Ha as (Hp & Hpr & Hex & Htask & Hlang & Hent & Hdeps & Hint & Hargs & Htemp & _ & _ & Hturns & _ & _ & _ & Htools).
  apply no_execution_ok in Hex. accepted Hp. accepted Hpr. accepted Htask. accepted Hlang. accepted Hent. accepted Hdeps. accepted Hint. accepted Hargs.
  accepted Htemp. accepted Hturns. accepted Htools. apply given_true in Hp, Hpr. apply given_false in Htask, Hlang, Hint. apply given_false in Hent.
  apply some_items_false in Hdeps, Hargs. apply ShapeAgent; try done.
  - intros n Hn. specialize (Hturns n Hn). accepted Hturns. apply orb_false_iff in Hturns as [? ?]. lia.
  - intros b Hb. specialize (Htemp b Hb). accepted Htemp. by apply negb_false_iff.
  - intros t g Hin. specialize (Htools _ Hin). simpl in Htools. accepted Htools. by rewrite bool_decide_eq_false, given_false in Htools.
  - intros m Hin. specialize (Htools _ Hin). simpl in Htools. accepted Htools. by rewrite bool_decide_eq_false in Htools.
Qed.

Lemma approval_shape a name : a_action_type a = "approval" → accepts (validate_approval_action a name) → action_shape a.
Proof.
  intros Ety Ha. unfold validate_approval_action in Ha. cbv zeta beta in Ha. rewrite !accepts_also in Ha. destruct Ha as (Hm & Hj & Hf & Hex & Ha).
  apply no_execution_ok in Hex. accepted Hm. rewrite given_true in Hm. accepted Ha. rewrite !given_false, !some_items_false in Ha.
  destruct_and! Ha. apply ShapeApproval; try done. intros k d Hk. split.
  - refine (no_input_of_type a "json" _ k d Hk). destruct (input_of_type a "json") eqn:E; [|done]. accepted Hj. specialize (Hj _ E). by apply accepts_bail in Hj.
  - refine (no_input_of_type a "file" _ k d Hk). destruct (input_of_type a "file") eqn:E; [|done]. accepted Hf. specialize (Hf _ E). by apply accepts_bail in Hf.
Qed.

Lemma validate_action_shape a name : accepts (validate_action a name) → action_shape a.
Proof.
  unfold validate_action. intros [_ Ha]%accepts_also.
  case_bool_decide as E1; [by eapply script_shape|].
  case_bool_decide as E2.
  { unfold validate_docker_action in Ha. rewrite !accepts_also in Ha. destruct Ha as (Hh & Hm & Ho). accepted Hm. rewrite given_false in Hm.
    eapply container_shape; eauto. intros m. by rewrite Hm. }
  case_bool_decide as E3.
  { unfold validate_pod_action in Ha. rewrite !accepts_also in Ha. destruct Ha as (Hh & Hm & Ho). eapply container_shape; eauto; [by intros [=]|].
    by eapply object_manifest_ok. }
  case_bool_decide as E4.
  { unfold validate_task_action in Ha. rewrite !accepts_also in Ha. destruct Ha as (Ht & Hex & Ho). accepted Ht. rewrite given_true in Ht.
    apply ShapeTask; [done|done|by eapply no_execution_ok|by eapply only_script_ok]. }
  case_bool_decide as E5; [by eapply agent_shape|]. case_bool_decide as E6; [by eapply approval_shape|done].
Qed.

(** *** References *)

Section wf.
Context (config : WorkspaceConfig) (lr : bool) (resolver : option Resolver).

(** A task or action the configuration, or another workspace, has; offline a
    qualified name passes. *)
Definition task_known (t : string) : Prop :=
  is_Some (tasks config !! t) ∨
  ∃ ws name, parse_qualified_ref t = (Some ws, name) ∧ (lr = false ∨ ∃ r, resolver = Some r ∧ has_task r ws name = true).
Definition action_known (a : string) : Prop :=
  is_Some (actions config !! a) ∨ (lr = false ∧ str_contains "." a = true) ∨
  ∃ ws name r, parse_qualified_ref a = (Some ws, name) ∧ resolver = Some r ∧ has_action r ws name = true.

(** An action that may run as a hook. *)
Definition hook_ok (h : HookDef) : Prop :=
  h_git_ref h = None ∧
  ((lr = false ∧ str_contains "." (h_action h) = true) ∨
   ∃ a, actions config !! h_action h = Some a ∧ (a_action_type a = "task" → a_git_ref a = None)).

(** The steps and hooks of a task that run an action. *)
Definition task_runs (t : TaskDef) (action_name : string) : Prop :=
  (∃ n fs, flow t !! n = Some fs ∧ action fs = action_name) ∨
  ∃ h, h ∈ td_on_success t ++ td_on_error t ++ td_on_suspended t ++ td_on_cancel t ∧ h_action h = action_name.

Record task_ok (task_name : string) (t : TaskDef) : Prop := {
  tk_order : ∃ order, validate_dag (flow t) = Ok order;
  tk_names : flow_names_ok t;
  tk_trees n fs : flow t !! n = Some fs → siblings_ok (depends_on fs) ∧ Forall entry_ok (depends_on fs) ∧ legacy_continue_when_skipped fs = None;
  tk_actions n fs : flow t !! n = Some fs → Workflow.git_ref fs = None → action_known (action fs);
  tk_loops n fs l : flow t !! n = Some fs → for_each fs = Some (JArray l) → (N.of_nat (length l) ≤ 10000)%N;
  tk_timeouts n fs z : flow t !! n = Some fs → fs_timeout fs = Some z → (z ≤ MAX_STEP_TIMEOUT_SECS)%Z;
  tk_timeout z : td_timeout t = Some z → (z ≤ MAX_JOB_TIMEOUT_SECS)%Z;
  tk_retries n fs r : flow t !! n = Some fs → retry fs = Some r → (max_attempts r ≠ 0 ∧ max_attempts r ≤ 10 ∧ delay r ≤ 3600)%Z;
  tk_retry r : task_retry t = Some r → (max_attempts r ≠ 0 ∧ max_attempts r ≤ 10 ∧ delay r ≤ 3600)%Z;
  tk_hooks h : h ∈ td_on_success t ++ td_on_error t ++ td_on_suspended t ++ td_on_cancel t → hook_ok h;
  tk_no_self a act : task_runs t a → actions config !! a = Some act → a_action_type act = "task" → a_git_ref act = None → a_task act ≠ Some task_name;
}.

Record well_formed : Prop := {
  vc_actions name a : actions config !! name = Some a → action_shape a ∧ (is_Some (a_git_ref a) → a_action_type a = "task");
  vc_tasks_exist name a t : actions config !! name = Some a → a_action_type a = "task" → a_git_ref a = None → a_task a = Some t → task_known t;
  vc_tasks task_name t : tasks config !! task_name = Some t → task_ok task_name t;
  vc_hooks h : h ∈ on_success config ++ on_error config ++ on_suspended config ++ on_cancel config → hook_ok h;
  vc_schedules name s : triggers config !! name = Some (TScheduler s) → is_Some (cron_parse (sc_cron s)) ∧ ∀ tz, sc_timezone s = Some tz → is_Some (tz_parse tz);
  vc_triggers name d : triggers config !! name = Some d → TriggerDef.git_ref d = None → is_event_source d = false → task_known (TriggerDef.task d);
  vc_webhooks name w : triggers config !! name = Some (TWebhook w) →
    wh_name w ≠ "" ∧ all_bytes (λ c, is_ascii_alphanumeric c || one_of "_-" c) (wh_name w) = true ∧
    wh_mode w ∈ [None; Some "sync"; Some "async"] ∧ (∀ z, wh_timeout_secs w = Some z → z ≠ 0 ∧ z ≤ 300)%Z;
  vc_event_sources name e : triggers config !! name = Some (TEventSource e) →
    es_git_ref e = None ∧ (str_contains "." (es_task e) = true ∨ is_Some (tasks config !! es_task e)) ∧
    (str_contains "." (es_target_task e) = true ∨ is_Some (tasks config !! es_target_task e)) ∧ es_task e ≠ es_target_task e ∧
    (1 ≤ es_backoff_secs e)%Z ∧ (∀ z, es_max_in_flight e = Some z → (1 ≤ z)%Z);
  vc_servers s1 s2 : is_Some (mcp_servers config !! s1) → is_Some (mcp_servers config !! s2) → normalized s1 = normalized s2 → s1 = s2;
  vc_tools t1 t2 : is_Some (tasks config !! t1) → is_Some (tasks config !! t2) → normalized t1 = normalized t2 → t1 = t2;
}.

Lemma check_action_task_known name a t :
  a_git_ref a = None → accepts (check_action_task config lr resolver name a t) → task_known t.
Proof.
  intros Hr. unfold check_action_task, task_known. rewrite Hr. case_bool_decide; [by left|]. destruct (_ || _); [by intros ?%accepts_bail|].
  destruct (parse_qualified_ref t) as [[ws|] n] eqn:Eq; [|by intros ?%accepts_bail]. intros Ha. right. exists ws, n. split; [done|].
  destruct lr; simpl in Ha; [right|by left]. destruct resolver as [r|]; accepted Ha; [|done]. exists r. split; [done|]. by apply negb_false_iff.
Qed.

Lemma trigger_task_known name d :
  TriggerDef.git_ref d = None → accepts (validate_trigger_task config lr resolver name (TriggerDef.task d) (TriggerDef.git_ref d) (is_webhook d)) →
  task_known (TriggerDef.task d).
Proof.
  intros Hr. unfold validate_trigger_task, task_known. rewrite Hr. case_bool_decide; [by left|].
  destruct (parse_qualified_ref _) as [[ws|] n] eqn:Eq; [|by intros ?%accepts_bail]. intros Ha. right. exists ws, n. split; [done|].
  destruct lr; simpl in Ha; [right|by left]. destruct resolver as [r|]; accepted Ha; [|done]. exists r. split; [done|]. by apply negb_false_iff.
Qed.

Lemma webhook_ok label w : accepts (check_webhook label w) →
  wh_name w ≠ "" ∧ all_bytes (λ c, is_ascii_alphanumeric c || one_of "_-" c) (wh_name w) = true ∧
  wh_mode w ∈ [None; Some "sync"; Some "async"] ∧ (∀ z, wh_timeout_secs w = Some z → z ≠ 0 ∧ z ≤ 300)%Z.
Proof.
  unfold check_webhook. intros Ha. accepted Ha. destruct Ha as (Hb & Hne & Hm & Ht). split_and!.
  - by rewrite bool_decide_eq_false in Hne.
  - by apply negb_false_iff.
  - destruct (wh_mode w) as [m|]; [|left]. specialize (Hm m eq_refl). accepted Hm. apply andb_false_iff in Hm.
    rewrite !negb_false_iff, !bool_decide_eq_true in Hm. destruct Hm as [-> | ->]; set_solver.
  - intros z Hz. specialize (Ht z Hz). accepted Ht. apply orb_false_iff in Ht as [? ?]. lia.
Qed.

Lemma event_source_ok label e : accepts (check_event_source config label e) →
  es_git_ref e = None ∧ (str_contains "." (es_task e) = true ∨ is_Some (tasks config !! es_task e)) ∧
  (str_contains "." (es_target_task e) = true ∨ is_Some (tasks config !! es_target_task e)) ∧ es_task e ≠ es_target_task e ∧
  (1 ≤ es_backoff_secs e)%Z ∧ (∀ z, es_max_in_flight e = Some z → (1 ≤ z)%Z).
Proof.
  unfold check_event_source. cbv zeta. intros Ha. rewrite !accepts_also in Ha. destruct Ha as (Hr & Hc & Ht & Hne & Hb & Hm).
  assert (Hl : ∀ name msg, accepts (if str_contains "." name then pass else refuse (negb (bool_decide (is_Some (tasks config !! name)))) msg) →
    str_contains "." name = true ∨ is_Some (tasks config !! name)).
  { intros name msg. destruct (str_contains "." name); [by left|]. intros Ha. accepted Ha. right. by rewrite negb_false_iff, bool_decide_eq_true in Ha. }
  apply Hl in Hc, Ht. accepted Hr. accepted Hne. accepted Hb. rewrite given_false in Hr. rewrite bool_decide_eq_false in Hne. rewrite Z.ltb_ge in Hb.
  split_and!; [done..|]. intros z Hz. accepted Hm. specialize (Hm z Hz). accepted Hm. by apply Z.ltb_ge.
Qed.

Lemma check_step_action_known label fs :
  Workflow.git_ref fs = None → accepts (check_step_action config lr resolver label fs) → action_known (action fs).
Proof.
  intros Hr. unfold check_step_action, action_known. rewrite Hr. destruct (negb lr && _) eqn:El.
  { intros _. apply andb_prop in El as [? ?]. destruct lr; [done|]. right. left. done. }
  case_bool_decide; [by left|]. simpl. destruct (parse_qualified_ref _) as [[ws|] n] eqn:Eq; [|by intros ?%accepts_bail].
  destruct resolver as [r|]; [|by intros ?%accepts_bail]. intros Ha. accepted Ha. right. right. exists ws, n, r. split_and!; [done..|]. by apply negb_false_iff.
Qed.

Lemma validate_hook_ok label h : accepts (validate_hook_action_exists config lr label h) → hook_ok h.
Proof.
  unfold validate_hook_action_exists, hook_ok. intros [Hr Ha]%accepts_also. accepted Hr. split; [by apply given_false|].
  destruct (negb lr && _) eqn:El. { apply andb_prop in El as [? ?]. destruct lr; [done|]. by left. }
  right. destruct (actions config !! h_action h) as [a|]; [|by apply accepts_bail in Ha]. exists a. split; [done|]. intros Hty.
  rewrite bool_decide_true in Ha by done. accepted Ha. destruct Ha as [Ha _]. by apply given_false.
Qed.

Lemma hooks_ok owner name l h : accepts (check_hooks config lr owner name l) → h ∈ l → hook_ok h.
Proof.
  unfold check_hooks. intros Ha [i Hi]%list_elem_of_lookup. accepted Ha. by eapply validate_hook_ok, Ha.
Qed.

(** *** Steps *)

Lemma check_retry_ok r label : accepts (check_retry r label) → (max_attempts r ≠ 0 ∧ max_attempts r ≤ 10 ∧ delay r ≤ 3600)%Z.
Proof.
  unfold check_retry, validate_retry_config. destruct (_ || _) eqn:E1; [by intros ?%accepts_bail|]. destruct (3600 <? _)%Z eqn:E2; [by intros ?%accepts_bail|].
  apply orb_false_iff in E1 as [? ?]. intros _. lia.
Qed.

Lemma str_contains_char c s : str_contains (String c EmptyString) s = true ↔ c ∈ bytes s.
Proof.
  assert (Hp : ∀ t, String.prefix EmptyString t = true) by by intros [].
  induction s as [|d s IH]; [split; [done|by intros ?%elem_of_nil]|]. change (bytes (String d s)) with (d :: bytes s).
  cbn [str_contains String.prefix]. destruct (ascii_dec c d) as [->|Hne].
  - rewrite Hp. split; [left|done].
  - rewrite orb_false_l, IH, elem_of_cons. naive_solver.
Qed.

Lemma instance_name_contains p i : str_contains "[" (instance_name p i) = true.
Proof. apply str_contains_char. unfold instance_name. rewrite !bytes_app. simpl. apply elem_of_app. right. left. Qed.

Lemma dependency_shape_ok task_name t : validate_task_dependency_shape task_name t = Ok () →
  ∀ n fs, flow t !! n = Some fs → siblings_ok (depends_on fs) ∧ Forall entry_ok (depends_on fs) ∧ legacy_continue_when_skipped fs = None.
Proof.
  unfold validate_task_dependency_shape. intros Hs n fs Hf. apply elem_of_hash_iter in Hf. revert Hs.
  induction (hash_iter (flow t)) as [|[n0 fs0] l IH]; [by apply elem_of_nil in Hf|]. cbn [check_dependency_shapes].
  case_bool_decide as Hl; [done|]. destruct (validate_tree (depends_on fs0)) as [[]|] eqn:Ev; [|done]. intros Hs.
  apply elem_of_cons in Hf as [[= -> ->]|Hin]; [|by apply IH]. apply validate_tree_ok_iff in Ev as [? ?]. split_and!; try done.
  destruct (legacy_continue_when_skipped fs0); [|done]. by destruct Hl.
Qed.

Lemma check_task_ok task_name t :
  accepts (check_task config lr resolver task_name t) → accepts (self_reference_of_task config task_name t) → task_ok task_name t.
Proof.
  unfold check_task. intros Ha Hself. accepted Ha. destruct Ha as (Hshape & Hsteps & Hto & Hre & Hdag & Hh1 & Hh2 & Hh3 & Hh4). split.
  - destruct (validate_dag (flow t)) as [order|e]; [by eexists|by apply accepts_bail in Hdag].
  - intros p i. destruct (flow t !! instance_name p i) as [fs|] eqn:Ef; [|done]. specialize (Hsteps _ _ Ef). unfold check_step in Hsteps. accepted Hsteps.
    destruct_and! Hsteps. by rewrite instance_name_contains in *.
  - apply dependency_shape_ok with task_name. destruct (validate_task_dependency_shape task_name t) as [[]|]; [done|]. by apply accepts_bail in Hshape.
  - intros n fs Hf Hr. specialize (Hsteps _ _ Hf). apply accepts_also in Hsteps as [Hs _]. by eapply check_step_action_known.
  - intros n fs l Hf Hl. specialize (Hsteps _ _ Hf). unfold check_step in Hsteps. accepted Hsteps. destruct Hsteps as (_ & _ & _ & _ & Hfe & _).
    specialize (Hfe _ Hl). simpl in Hfe. accepted Hfe. by apply N.ltb_ge in Hfe.
  - intros n fs z Hf Hz. specialize (Hsteps _ _ Hf). unfold check_step in Hsteps. accepted Hsteps. destruct Hsteps as (_ & _ & _ & _ & _ & _ & Ht & _).
    specialize (Ht _ Hz). accepted Ht. by apply Z.ltb_ge in Ht.
  - intros z Hz. specialize (Hto _ Hz). accepted Hto. by apply Z.ltb_ge in Hto.
  - intros n fs r Hf Hr. specialize (Hsteps _ _ Hf). unfold check_step in Hsteps. accepted Hsteps. destruct Hsteps as (_ & _ & _ & _ & _ & _ & _ & Ht).
    specialize (Ht _ Hr). apply accepts_also in Ht as [Ht _]. by eapply check_retry_ok.
  - intros r Hr. by eapply check_retry_ok, Hre.
  - intros h Hin. rewrite !elem_of_app in Hin. destruct Hin as [?|[?|[?|?]]]; [by eapply (hooks_ok _ _ _ _ Hh1)|by eapply (hooks_ok _ _ _ _ Hh2)|by eapply (hooks_ok _ _ _ _ Hh3)|by eapply (hooks_ok _ _ _ _ Hh4)].
  - intros a act Hrun Hact Hty Hr Ht. unfold self_reference_of_task in Hself. accepted Hself. destruct Hself as (Hs & Hk1 & Hk2 & Hk3 & Hk4).
    assert (Hno : ∀ w, accepts (check_task_self_reference config task_name a w) → False).
    { intros w. unfold check_task_self_reference. rewrite Hact, Hty, Hr, Ht. rewrite accepts_refuse, !bool_decide_true by done. done. }
    destruct Hrun as [(n & fs & Hf & <-)|(h & Hin & <-)]; [by eapply Hno, Hs|].
    rewrite !elem_of_app, !list_elem_of_lookup in Hin. destruct Hin as [[i Hi]|[[i Hi]|[[i Hi]|[i Hi]]]];
      [eapply Hno, Hk1, Hi|eapply Hno, Hk2, Hi|eapply Hno, Hk3, Hi|eapply Hno, Hk4, Hi].
Qed.

(** *** Tool names *)

Lemma by_normalized_lookup names (m : gmap string (list string)) k :
  default [] (fold_left (λ m name, <[normalized name := default [] (m !! normalized name) ++ [name]]> m) names m !! k) =
  default [] (m !! k) ++ filter (λ n, normalized n = k) names.
Proof.
  revert m. induction names as [|n names IH]; intros m; simpl; [by rewrite app_nil_r|]. rewrite IH, filter_cons.
  destruct (decide (normalized n = k)) as [<-|Hne]; [rewrite lookup_insert_eq; simpl; by rewrite <-app_assoc|by rewrite lookup_insert_ne].
Qed.

Lemma no_collision what consequence names t1 t2 :
  accepts (check_collisions what consequence names) → t1 ∈ names → t2 ∈ names → normalized t1 = normalized t2 → t1 = t2.
Proof.
  unfold check_collisions. intros Ha H1' H2' Hn. accepted Ha. pose proof (by_normalized_lookup names ∅ (normalized t2)) as Hl.
  fold (by_normalized names) in Hl. rewrite lookup_empty in Hl. simpl in Hl.
  assert (H1f : t1 ∈ filter (λ n, normalized n = normalized t2) names) by by apply list_elem_of_filter.
  assert (H2f : t2 ∈ filter (λ n, normalized n = normalized t2) names) by by apply list_elem_of_filter.
  rewrite <-Hl in H1f, H2f. destruct (by_normalized names !! normalized t2) as [l|] eqn:El; [|by apply elem_of_nil in H1f].
  specialize (Ha _ _ El). simpl in *. accepted Ha. destruct l as [|x [|y l]]; [by apply elem_of_nil in H1f| |done].
  apply list_elem_of_singleton in H1f as ->. by apply list_elem_of_singleton in H2f as ->.
Qed.
End wf.

(** *** The theorem *)


(** ** What it gives the rest of the program *)

(** The cascade of a task of an accepted configuration never stalls. *)
Theorem validated_task_never_stalls `{JsonParser} config lr resolver task_name task build_ctx job_id steps snap cs hit :
  accepts (validate_workflow_config_inner config lr resolver) → tasks config !! task_name = Some task →
  job_rows task steps → (∀ rows, is_Some (build_ctx rows)) →
  fixpoint task job_id steps build_ctx = Some (snap, cs, hit) →
  (∃ r, r ∈ sn_rows snap ∧ live r) ∨ ∀ r, r ∈ sn_rows snap → is_terminal (js_status r) = true.
Proof.
  intros Ha Ht Hj Hctx Hfix. assert (Htk : task_ok config lr resolver task_name task).
  { unfold validate_workflow_config_inner in Ha. rewrite !accepts_also, !accepts_each_entry in Ha. destruct Ha as (_ & Hself & Htask & _). apply check_task_ok; [by apply Htask|by apply Hself]. }
  destruct (tk_order _ _ _ _ _ Htk) as [order Ho]. eapply no_stall; [done|apply Htk|done..].
Qed.

(** The retries and timeouts of tasks and steps of an accepted configuration
    never make a creation panic; only an action's own [retry] is not checked. *)
Lemma validated_task_valid config lr resolver task_name task :
  task_ok config lr resolver task_name task →
  (∀ r, task_retry task = Some r → (0 ≤ max_attempts r ∧ 0 ≤ delay r)%Z) → (∀ z, td_timeout task = Some z → (0 ≤ z)%Z) →
  (∀ n fs, flow task !! n = Some fs → (∀ r, Workflow.retry fs = Some r → (0 ≤ max_attempts r ∧ 0 ≤ delay r)%Z) ∧ ∀ z, fs_timeout fs = Some z → (0 ≤ z)%Z) →
  task_valid task.
Proof.
  intros Hk Hr Ht Hs. unfold task_valid, retry_fits, timeout_fits, fits_i32, i32_max. split_and!.
  - intros r E. pose proof (tk_retry _ _ _ _ _ Hk r E). specialize (Hr r E). lia.
  - intros z E. pose proof (tk_timeout _ _ _ _ _ Hk z E). specialize (Ht z E). unfold MAX_JOB_TIMEOUT_SECS in *. lia.
  - intros n fs Hf. destruct (Hs n fs Hf) as [Hr' Ht']. split.
    + intros r E. pose proof (tk_retries _ _ _ _ _ Hk n fs r Hf E). specialize (Hr' r E). lia.
    + intros z E. pose proof (tk_timeouts _ _ _ _ _ Hk n fs z Hf E). specialize (Ht' z E). unfold MAX_STEP_TIMEOUT_SECS in *. lia.
Qed.

(** The interpreter of an accepted script action is one plain word of the
    shell, as the commands of a container need it. *)
Theorem validated_interpreter_is_word config lr resolver name a interp :
  accepts (validate_workflow_config_inner config lr resolver) → actions config !! name = Some a → a_action_type a = "script" →
  a_interpreter a = Some interp → interpreter_ok interp.
Proof.
  intros Ha Hn Hty Hi. unfold validate_workflow_config_inner in Ha. rewrite !accepts_also, !accepts_each_entry in Ha. destruct Ha as (Hact & _).
  specialize (Hact _ _ Hn). unfold check_config_action, validate_action in Hact. rewrite !accepts_also, (bool_decide_true (_ = "script")) in Hact by done.
  destruct Hact as (_ & (_ & Hs) & _). unfold validate_script_action in Hs. rewrite !accepts_also in Hs. destruct Hs as (_ & _ & _ & _ & _ & _ & _ & _ & _ & _ & Hc & _).
  unfold check_interpreter in Hc. rewrite accepts_if_given in Hc. specialize (Hc interp Hi). accepted Hc. destruct Hc as [Hne Hall].
  apply bool_decide_eq_false in Hne. apply negb_false_iff in Hall. split; [done|]. apply forallb_Forall'. exact Hall.
Qed.

(** An enabled schedule of an accepted configuration is loaded, in its time
    zone. *)
Theorem validated_schedule_loads config lr resolver prev ws name s :
  accepts (validate_workflow_config_inner config lr resolver) → triggers config !! name = Some (TScheduler s) → sc_enabled s = true →
  ∃ t, load_trigger prev ws name (TScheduler s) = Some t ∧ ts_task t = sc_task s ∧ ts_cron_expr t = sc_cron s ∧
       (is_Some (sc_timezone s) → is_Some (ts_timezone t)).
Proof.
  intros Ha Hn Hen. unfold validate_workflow_config_inner in Ha. rewrite !accepts_also, !accepts_each_entry in Ha. destruct Ha as (_ & _ & _ & Htrig & _).
  specialize (Htrig _ _ Hn). apply accepts_also in Htrig as [_ Hs]. unfold check_scheduler in Hs. accepted Hs. rewrite given_true in Hs.
  destruct Hs as [[cron Hc] Htz]. unfold load_trigger. rewrite Hen, Hc. simpl. destruct (match _ with Some old => _ | None => _ end) as [last next].
  eexists. split; [done|]. simpl. split_and!; [done..|]. intros [tz Etz]. specialize (Htz tz Etz). accepted Htz. rewrite given_true in Htz.
  by rewrite Etz.
Qed.
End props.

(** ** The verdict does not depend on the order of the maps *)

Section order.
Context `{CheckLib, Tera, CronLib, Unicode} (h1 h2 : HashIter).

Lemma each_entry_transfer {A} (f g : string → A → Chk) m :
  (∀ k v, m !! k = Some v → accepts (f k v) → accepts (g k v)) → accepts (@each_entry h1 A f m) → accepts (@each_entry h2 A g m).
Proof. rewrite !accepts_each_entry. naive_solver. Qed.

Lemma validate_action_transfer a name : accepts (validate_action (iter := h1) a name) → accepts (validate_action (iter := h2) a name).
Proof.
  unfold validate_action. rewrite !accepts_also. intros [Ho Ha]. split; [done|]. repeat (case_bool_decide; [done|]).
  case_bool_decide; [|done]. unfold validate_approval_action in *. rewrite !accepts_also, !accepts_if_given in *.
  assert (Hin : ∀ ty, (∀ f, input_of_type (iter := h1) a ty = Some f → False) → ∀ f, input_of_type (iter := h2) a ty = Some f → False).
  { intros ty Hno f (p & Hf & _)%fmap_Some. apply List.find_some in Hf as [Hin Hty]. apply list_elem_of_In in Hin. destruct p as [k v].
    apply elem_of_hash_iter in Hin. unfold input_of_type in Hno. destruct (List.find _ (@hash_iter h1 _ (a_input a))) as [q|] eqn:Eq; [by eapply Hno|].
    enough (Hf : (field_type (k, v).2 ==? ty) = false) by congruence. apply (List.find_none _ _ Eq). apply list_elem_of_In, elem_of_hash_iter, Hin. }
  setoid_rewrite accepts_bail in Ha. setoid_rewrite accepts_bail. naive_solver.
Qed.

Lemma validate_dag_transfer fl order1 : @validate_dag h1 fl = Ok order1 → ∃ order2, @validate_dag h2 fl = Ok order2.
Proof.
  intros E1. pose proof (@validate_dag_outcome h1 fl) as Ho. rewrite E1 in Ho. destruct Ho as [Hp Ht].
  assert (Hdep : ∀ s d, depends fl s d → is_Some (fl !! d)).
  { intros s d Hd. assert (Hs : s ∈ @hash_keys h1 _ fl) by (apply elem_of_hash_keys; destruct Hd as (fs & -> & _); by eexists).
    rewrite <-Hp in Hs. apply list_elem_of_lookup in Hs as [i Hi]. specialize (Ht i s Hi d Hd). apply (@elem_of_hash_keys h1). rewrite <-Hp.
    by eapply elem_of_take in Ht as (j & ? & _); eapply list_elem_of_lookup_2. }
  destruct (@validate_dag h2 fl) as [order2|e] eqn:E2; [by eexists|]. destruct (@validate_dag_error h2 fl e E2) as [(s & d & _ & Hd & Hn)|(_ & _ & x & Hx)].
  - destruct (Hdep s d Hd). congruence.
  - by apply (@topological_acyclic h1 fl order1 Hp Ht) in Hx.
Qed.

Lemma dependency_shape_transfer name t : @validate_task_dependency_shape h1 name t = Ok () → @validate_task_dependency_shape h2 name t = Ok ().
Proof.
  intros Hs. pose proof (@dependency_shape_ok h1 name t Hs) as Hok. unfold validate_task_dependency_shape.
  assert (Hl : ∀ n fs, (n, fs) ∈ @hash_iter h2 _ (flow t) → siblings_ok (depends_on fs) ∧ Forall entry_ok (depends_on fs) ∧ legacy_continue_when_skipped fs = None)
    by (intros n fs Hin%elem_of_hash_iter; by eapply Hok).
  induction (@hash_iter h2 _ (flow t)) as [|[n fs] l IH]; [done|]. cbn [check_dependency_shapes]. destruct (Hl n fs) as (Hsib & Hent & Hleg); [by left|].
  rewrite Hleg. destruct (validate_tree_ok_iff (depends_on fs)) as [_ ->]; [|done]. apply IH. intros n' fs' Hin. apply (Hl n'). by right.
Qed.

Lemma check_task_transfer config lr resolver name t :
  accepts (check_task (iter := h1) config lr resolver name t) → accepts (check_task (iter := h2) config lr resolver name t).
Proof.
  unfold check_task. rewrite !accepts_also. intros (Hs & Hst & Hto & Hre & Hdag & Hh). split_and!; try tauto.
  - destruct (@validate_task_dependency_shape h1 name t) as [[]|] eqn:E1; [|done]. by rewrite (dependency_shape_transfer name t E1).
  - revert Hst. by apply each_entry_transfer.
  - destruct (@validate_dag h1 (flow t)) as [order|] eqn:E1; [|done]. destruct (validate_dag_transfer _ _ E1) as [o ->]. done.
Qed.

Lemma connection_values_transfer label vs ty td :
  accepts (@check_connection_values h1 label vs ty td) → accepts (@check_connection_values h2 label vs ty td).
Proof.
  pose proof (check_connection_values_order h1 h2 label vs ty td) as E.
  destruct (@check_connection_values h1 label vs ty td); [|done]. by destruct (@check_connection_values h2 label vs ty td).
Qed.

Lemma check_connection_transfer config name conn :
  accepts (check_connection (iter := h1) config name conn) → accepts (check_connection (iter := h2) config name conn).
Proof.
  assert (Hne : accepts (no_empty_values (iter := h1) name conn) → accepts (no_empty_values (iter := h2) name conn)) by by apply each_entry_transfer.
  unfold check_connection. destruct (connection_type conn) as [ty|]; [|done]. destruct (connection_types config !! ty); [apply connection_values_transfer|].
  destruct (str_contains _ _); [|done]. rewrite !accepts_also. naive_solver.
Qed.

Lemma required_file_transfer t : given (required_file_field (iter := h1) t) = given (required_file_field (iter := h2) t).
Proof.
  assert (Hg : ∀ h, given (required_file_field (iter := h) t) = true ↔ ∃ k f, td_input t !! k = Some f ∧ (field_type f ==? FILE_TYPE) && if_required f = true).
  { intros h. unfold required_file_field. set (l := fst <$> _).
    assert (given (head (sort_strings l)) = true ↔ ∃ x, x ∈ l) as ->.
    { unfold sort_strings. setoid_rewrite <-(elem_of_sort_by str_leb). destruct (sort_by str_leb l); simpl; [split; [done|by intros [x ?%elem_of_nil]]|].
      split; [|done]. eexists. by left. }
    unfold l. setoid_rewrite list_elem_of_fmap. split.
    - intros (x & [k f] & -> & [Hin Hf]%elem_of_lfilter). apply elem_of_hash_iter in Hin. by exists k, f.
    - intros (k & f & Hin & Hf). exists k, (k, f). split; [done|]. apply elem_of_lfilter. split; [by apply elem_of_hash_iter|done]. }
  apply eq_true_iff_eq. by rewrite !Hg.
Qed.

Lemma check_file_tool_transfer config name tool :
  accepts (check_file_tool (iter := h1) config name tool) → accepts (check_file_tool (iter := h2) config name tool).
Proof.
  destruct tool as [task [r|]|mcp]; simpl; [done| |done]. destruct (tasks config !! task) as [t|]; simpl; [|done].
  pose proof (required_file_transfer t) as Hf. destruct (required_file_field (iter := h1) t), (required_file_field (iter := h2) t); done.
Qed.

Lemma check_config_action_transfer config lr resolver name a :
  accepts (check_config_action (iter := h1) config lr resolver name a) → accepts (check_config_action (iter := h2) config lr resolver name a).
Proof. unfold check_config_action. rewrite !accepts_also. pose proof (validate_action_transfer a name). naive_solver. Qed.

Lemma collisions_transfer what consequence names1 names2 :
  NoDup names1 → NoDup names2 → (∀ n, n ∈ names1 ↔ n ∈ names2) →
  accepts (check_collisions (iter := h1) what consequence names1) → accepts (check_collisions (iter := h2) what consequence names2).
Proof.
  intros Hnd1 Hnd2 Heq. unfold check_collisions. rewrite !accepts_each_entry. intros Ha k l Hl.
  assert (Hk : ∀ names, default [] (by_normalized names !! k) = filter (λ n, normalized n = k) names).
  { intros names. unfold by_normalized. by rewrite by_normalized_lookup, lookup_empty. }
  pose proof (Hk names2) as H2k. rewrite Hl in H2k. simpl in H2k. subst l.
  assert (Hp : filter (λ n, normalized n = k) names2 ≡ₚ filter (λ n, normalized n = k) names1).
  { apply NoDup_Permutation; [by apply NoDup_filter..|]. intros n. rewrite !list_elem_of_filter. naive_solver. }
  pose proof (Hk names1) as H1k. rewrite accepts_refuse. rewrite (Permutation_length Hp), <-H1k. destruct (by_normalized names1 !! k) as [l|] eqn:El; [|done].
  specialize (Ha k l El). by rewrite accepts_refuse in Ha.
Qed.

Lemma secrets_object_transfer config : secrets_object (iter := h1) config = secrets_object (iter := h2) config.
Proof.
  assert (Hs : ∀ l m, sorted_map m → sorted_map (fold_left (λ m p, json_map_insert p.1 p.2 m) l m)).
  { induction l as [|p l IH]; intros m Hm; [done|]. by apply IH, json_map_insert_sorted. }
  unfold secrets_object, json_obj. f_equal. apply json_map_ext; [apply Hs; constructor..|]. intros k.
  rewrite !lookup_collect by apply NoDup_hash_iter. by rewrite !lookup_hash_iter.
Qed.

Lemma env_secrets_accepts config h name a : accepts (check_env_secrets (iter := h) config name a).
Proof.
  unfold check_env_secrets. rewrite accepts_if_given. intros env _. rewrite accepts_each_entry. intros k v _. rewrite accepts_each. intros r _.
  by rewrite accepts_warn_if.
Qed.

Lemma inputs_transfer config (f g : string → string → InputFieldDef → Chk) :
  accepts (@each_entry h1 _ (λ name action, @each_entry h1 _ (f name) (a_input action)) (actions config) ;;;
           @each_entry h1 _ (λ name task, @each_entry h1 _ (g name) (td_input task)) (tasks config)) →
  accepts (@each_entry h2 _ (λ name action, @each_entry h2 _ (f name) (a_input action)) (actions config) ;;;
           @each_entry h2 _ (λ name task, @each_entry h2 _ (g name) (td_input task)) (tasks config)).
Proof. rewrite !accepts_also. intros [Ha Hb]. split; [revert Ha|revert Hb]; apply each_entry_transfer; intros k v _; by apply each_entry_transfer. Qed.

Lemma json_fields_transfer config : accepts (validate_json_fields (iter := h1) config) → accepts (validate_json_fields (iter := h2) config).
Proof.
  unfold validate_json_fields. rewrite !accepts_also. intros [Ha Hb]. split; [revert Ha|revert Hb]; apply each_entry_transfer; intros k v _.
  - by apply each_entry_transfer.
  - rewrite !accepts_also. intros [Hd Hs]. split; [revert Hd; by apply each_entry_transfer|revert Hs]. apply each_entry_transfer. intros n fs _.
    unfold lint_step. destruct (given _); [done|]. destruct (step_target_schema config fs); [|done]. by apply each_entry_transfer.
Qed.
End order.

(** C38. Whether a configuration is accepted does not depend on the iteration order
    of its hash maps, which differs from one run to the next. *)
Theorem verdict_order_independent `{CheckLib, Tera, CronLib, Unicode} (h1 h2 : HashIter) config lr resolver :
  accepts (validate_workflow_config_inner (iter := h1) config lr resolver) ↔ accepts (validate_workflow_config_inner (iter := h2) config lr resolver).
Proof.
  assert (Hone : ∀ h1 h2, accepts (validate_workflow_config_inner (iter := h1) config lr resolver) →
                          accepts (validate_workflow_config_inner (iter := h2) config lr resolver)); [|split; apply Hone].
  clear h1 h2. intros h1 h2. unfold validate_workflow_config_inner. rewrite !accepts_also.
  intros (Ha & Hself & Ht & Htr & Hh1 & Hh2 & Hh3 & Hh4 & Hc1 & Hc2 & Hconn & Hci & Hio & Hf & Hj & Hw & Hs & He). split_and!; try done.
  - revert Ha. apply each_entry_transfer. intros k v _. by apply check_config_action_transfer.
  - revert Hself. apply each_entry_transfer. intros k v _. unfold self_reference_of_task. rewrite !accepts_also. intros [Hs' Hr']. split; [|done].
    revert Hs'. by apply each_entry_transfer.
  - revert Ht. apply each_entry_transfer. intros k v _. by apply check_task_transfer.
  - revert Htr. by apply each_entry_transfer.
  - revert Hc1. apply collisions_transfer; [apply NoDup_hash_keys..|]. intros n. by rewrite !elem_of_hash_keys.
  - revert Hc2. apply collisions_transfer; [apply NoDup_hash_keys..|]. intros n. by rewrite !elem_of_hash_keys.
  - revert Hconn. unfold validate_connections. rewrite !accepts_also. intros [Hty Hco]. split.
    + revert Hty. apply each_entry_transfer. intros k v _. unfold check_connection_type. rewrite !accepts_also. intros [Hr Hp]. split; [done|].
      revert Hp. by apply each_entry_transfer.
    + revert Hco. apply each_entry_transfer. intros k v _. by apply check_connection_transfer.
  - by apply (inputs_transfer h1 h2 config (check_connection_input config "Action") (check_connection_input config "Task")).
  - by apply (inputs_transfer h1 h2 config (λ name f, check_input_field_options ("Action '" +:+ name +:+ "' input '" +:+ f +:+ "'"))
                (λ name f, check_input_field_options ("Task '" +:+ name +:+ "' input '" +:+ f +:+ "'"))).
  - revert Hf. unfold validate_file_field_targets. rewrite !accepts_also. intros [Htg Htl]. split.
    + rewrite accepts_each_entry. intros k v _. unfold check_file_trigger. destruct v; simpl; (destruct (given _); [done|]); (destruct (tasks config !! _); [|done]); simpl; by rewrite accepts_warn_if.
    + revert Htl. apply each_entry_transfer. intros k v _. rewrite !accepts_each. intros Hall x Hx. by apply (check_file_tool_transfer h1), Hall.
  - by apply (json_fields_transfer h1).
  - by rewrite (secrets_object_transfer h2 h1).
  - rewrite accepts_each_entry. intros k v _. apply env_secrets_accepts.
Qed.
