(* ===== verification/Server.v ===== *)
(** * The server's state

    The database, the file tables, the number of the next call to the
    workspaces and of the next fresh id, as the dispatch of server-side steps
    threads them. Statements commit one by one, so an error keeps what was
    written before it. *)
From S2P Require Import Prelude Json Text Lines Utf8 Template TemplateError GitRef Workflow JobModel Gate Db StepRepo JobRepo Pins InputFiles Errors Engine JsonField Connections WorkspaceSet RenderContext FileField Refs Manager JobCreator Cascade CascadeApply Settle Redact.

Record Server := mkServer { srv_db : Db; srv_files : FileTables; srv_calls : nat; srv_ids : nat }.

Definition srv_with_db (db : Db) (s : Server) : Server := mkServer db (srv_files s) (srv_calls s) (srv_ids s).

Definition D (A : Type) : Type := Server → Server * result Fault A.
Definition dret {A} (a : A) : D A := λ s, (s, Ok a).
Definition dfail {A} (e : AnyError) : D A := λ s, (s, Err (Erred e)).
Definition dpanic {A} : D A := λ s, (s, Err Panics).
Definition dbind {A B} (m : D A) (k : A → D B) : D B := λ s,
  match m s with (s', Ok a) => k a s' | (s', Err e) => (s', Err e) end.
Notation "'let&' x ':=' m 'in' k" := (dbind m (λ x, k)) (at level 10, x pattern, k at level 200) : stroem_scope.

(** A statement, and a read of the database. *)
Definition dwrite {A} (f : Db → Db * A) : D A := λ s, let '(db, a) := f (srv_db s) in (srv_with_db db s, Ok a).
Definition dupdate (f : Db → Db) : D unit := dwrite (λ db, (f db, ())).
Definition dread {A} (f : Db → A) : D A := λ s, (s, Ok (f (srv_db s))).

(** [.context(…)] *)
Definition dctx {A} (what : string) (m : D A) : D A := λ s,
  match m s with (s', Err (Erred e)) => (s', Err (Erred (LMsg what :: e))) | r => r end.

(** Calls to the workspaces, starting from a memo. A failed one has read an
    unknown number of answers; the next starts well beyond it. *)
Definition dcalls {E A : Type} (m : gmap (string * string) PinRef) (x : MT E A) : D (result E (A * gmap (string * string) PinRef)) := λ s,
  match x (mkSt m (srv_calls s)) with
  | Ok (a, st) => (mkServer (srv_db s) (srv_files s) (calls st) (srv_ids s), Ok (Ok (a, memo st)))
  | Err e => (mkServer (srv_db s) (srv_files s) (srv_calls s + 100) (srv_ids s), Ok (Err e))
  end.
Definition dask {E A : Type} (x : MT E A) : D (result E A) :=
  let& r := dcalls ∅ x in dret (res_map fst r).

(** serde_json's encoder and [Debug], for the masks; a schema out of its JSON. *)
Class TextForms := {
  text_json : Bytes → option Bytes;
  text_debug : Bytes → Bytes;
  schema_from_value : json → result string (gmap string InputFieldDef);
}.

(** [redact_secrets_in_str] *)
Definition mask_text `{TextForms} (s : string) (secret_values : list string) : string :=
  redact_secrets_in_str text_json text_debug s secret_values.

(** The clock, fresh ids, the renewals that found a lease lost, what other
    sessions write while a call waits, and the limits of the configuration. *)
Record Env := mkEnv {
  ev_now : Time;
  ev_host_now : Time;
  ev_id : nat → Uuid;
  ev_lost : nat → bool;
  (** The error of the transaction that makes up for a failed initialisation. *)
  ev_uncompensated : option AnyError;
  ev_others : nat → Db → Db;
  ev_defaults : JobDefaults;
}.

Definition fresh_id (env : Env) : D Uuid := λ s,
  (mkServer (srv_db s) (srv_files s) (srv_calls s) (S (srv_ids s)), Ok (ev_id env (srv_ids s))).

(** Other sessions, between two statements. *)
Definition meanwhile (env : Env) : D unit := λ s,
  (mkServer (ev_others env (srv_ids s) (srv_db s)) (srv_files s) (srv_calls s) (S (srv_ids s)), Ok ()).

(** ** The cascade with its context *)

Section cascade.
Context `{TextForms, Tera, JsonParser, Collation} (env : Env).

Definition job_ctx (ws : WorkspaceConfig) (snapshots : Snapshots) (job : JobRow) : JobContext :=
  mkJobContext (j_job_id job) (j_input job) (secrets ws) (secrets ws) snapshots (j_revision job) (j_git_ref job).

Definition condition_context (ws : WorkspaceConfig) (snapshots : Snapshots) (job : JobRow) (rows : list JobStepRow) : option json :=
  Some (rc_value (build (job_ctx ws snapshots job) (views rows) None Condition)).

(** The scrub of [run]: none without secret values. *)
Definition cascade_scrub (ws : WorkspaceConfig) : option (string → string) :=
  let values := collect_config_secret_values ws in
  if bool_decide (values = []) then None else Some (λ s, mask_text s values).

(** [settlement::cascade_and_settle] on the database as it is. *)
Definition cascade_and_settle_now (job_id : Uuid) (task : TaskDef) (ws : WorkspaceConfig) (snapshots : Snapshots) : D (option JobStatus) := λ s,
  match cascade_and_settle (ev_now env) job_id task (condition_context ws snapshots) (cascade_scrub ws)
          (λ _, srv_db s) (λ _, srv_db s) (λ _, false) id with
  | Ok (db, status) => (srv_with_db db s, Ok status)
  | Err _ => (s, Err (Erred [LMsg "cascade"]))
  end.
End cascade.
