(* ===== verification/EventSources.v ===== *)
(** * Event sources

    [crates/stroem-server/src/event_source.rs]: the long-lived consumer jobs
    of [event_source] triggers. One pass compares the triggers of all
    workspaces with the consumer jobs in the database, cancels what is
    superseded or gone, creates what is missing and restarts what has ended
    under its restart policy. SHA-256 and the JSON encoder are an interface;
    logging and heartbeats are left out. *)
From S2P Require Import Prelude Json Text Template Engine GitRef JobModel Gate Workflow Db StepRepo StepRepoProps JobRepo JobRepoProps Pins InputFiles Errors JsonField Connections WorkspaceSet RenderContext Refs Manager Redact JobCreator Trigger Cascade CascadeApply Settle Retry Terminal Settlement CancelProps Scheduler Server.

(** [sha2] with [hex::encode], and [serde_json]'s [Display]. *)
Class EventLib := { sha256_hex : string → string; json_text : json → string }.

Record DesiredEventSource := mkDesired {
  de_workspace : string;
  de_trigger_name : string;
  de_task : string;
  de_target_task : string;
  de_env : gmap string string;
  de_input_defaults : gmap string json;
  de_restart_policy : RestartPolicy;
  de_backoff_secs : Z;
  de_max_in_flight : option Z;
  de_fingerprint : string;
}.

Definition de_source_id (d : DesiredEventSource) : string := de_workspace d +:+ "/" +:+ de_trigger_name d.

(** ** The fingerprint of a trigger's configuration *)

Definition restart_policy_str (policy : RestartPolicy) : string :=
  match policy with Always => "always" | OnFailure => "on_failure" | Never => "never" end.

Section fingerprint.
Context `{EventLib, HashIter}.

Definition by_key {V} (a b : string * V) : bool := str_leb a.1 b.1.
Definition sorted_pairs {V} (m : gmap string V) : list (string * V) := sort_by by_key (hash_iter m).
Definition hash_pairs {V} (show : V → string) (l : list (string * V)) : string :=
  str_join "" ((λ p, p.1 +:+ "=" +:+ show p.2 +:+ ";") <$> l).

(** The bytes given to the hasher, one [update] after another. *)
Definition fingerprint_text (task target_task : string) (env : gmap string string) (input : gmap string json)
    (restart_policy : RestartPolicy) (backoff_secs : Z) (max_in_flight : option Z) : string :=
  task +:+ "|" +:+ target_task +:+ "|" +:+ hash_pairs id (sorted_pairs env) +:+ "|" +:+ hash_pairs json_text (sorted_pairs input) +:+ "|" +:+
  restart_policy_str restart_policy +:+ "|" +:+ pretty backoff_secs +:+ "|" +:+ from_option pretty "" max_in_flight.

Definition compute_fingerprint (task target_task : string) (env : gmap string string) (input : gmap string json)
    (restart_policy : RestartPolicy) (backoff_secs : Z) (max_in_flight : option Z) : string :=
  sha256_hex (fingerprint_text task target_task env input restart_policy backoff_secs max_in_flight).
End fingerprint.

(** ** What should run *)

Definition env_render_context (cfg : WorkspaceConfig) : json := json_obj [("secret", object_of (secrets cfg))].

Section masks.
Context `{TextForms, HashIter}.

Definition scrub_env_error (text : string) (cfg : WorkspaceConfig) : string := mask_text text (collect_config_secret_values cfg).

Definition env_render_failure_line (ws_name trigger_name : string) (err : AnyError) (cfg : WorkspaceConfig) : string :=
  "EventSourceManager: failed to render env for '" +:+ ws_name +:+ "/" +:+ trigger_name +:+ "': " +:+ scrub_env_error (chain_text err) cfg.
End masks.

Section desired.
Context `{EventLib, HashIter, Tera} (triggers_enabled : string → bool) (get_config : string → option WorkspaceConfig).

(** One trigger: only an enabled event source without a ref whose [env]
    renders is started. *)
Definition desired_of (ws_name : string) (config : WorkspaceConfig) (trigger : string * TriggerDef) : option DesiredEventSource :=
  match trigger.2 with
  | TEventSource t =>
      if bool_decide (es_git_ref t = None) && es_enabled t
      then match render_env_map (es_env t) (env_render_context config) with
           | Ok env => Some (mkDesired ws_name trigger.1 (es_task t) (es_target_task t) env (es_input t) (es_restart_policy t)
                               (es_backoff_secs t) (es_max_in_flight t)
                               (compute_fingerprint (es_task t) (es_target_task t) env (es_input t) (es_restart_policy t)
                                  (es_backoff_secs t) (es_max_in_flight t)))
           | Err _ => None
           end
      else None
  | _ => None
  end.

Definition collect_desired (names : list string) : list DesiredEventSource :=
  flat_map (λ ws_name,
    if negb (triggers_enabled ws_name) then []
    else match get_config ws_name with
         | Some config => omap (desired_of ws_name config) (hash_iter (triggers config))
         | None => []
         end) names.
End desired.

(** ** What the database has *)

Record EventSourceJobRow := mkEventRow {
  er_job_id : Uuid;
  er_source_id : option string;
  er_input : option json;
  er_status : option string;
  er_completed_at : option Time;
}.

Definition load_active_event_source_jobs (db : Db) : list (Uuid * string * string) :=
  (λ j, (j_job_id j, default "" (j_source_id j),
         default "" ((j_input j ≫= json_get "_fingerprint") ≫= as_str))) <$>
  select_jobs (λ j, (j_source_type j ==? "event_source") && negb (sql_in (j_status j) ["completed"; "failed"; "cancelled"; "skipped"])) db.

Definition TEN_MINUTES : Z := 600 * SECOND.

Definition load_terminal_event_source_jobs (now : Time) (db : Db) : list EventSourceJobRow :=
  (λ j, mkEventRow (j_job_id j) (j_source_id j) (j_input j) (Some (j_status j)) (Some (default (j_created_at j) (j_completed_at j)))) <$>
  sort_by_key (λ j, (- j_created_at j)%Z)
    (select_jobs (λ j, (j_source_type j ==? "event_source") && sql_in (j_status j) ["completed"; "failed"] &&
                       (now - TEN_MINUTES <? default (j_created_at j) (j_completed_at j))%Z) db).

(** ** Restarting *)

(** [Value::as_u64] *)
Definition json_as_u64 (v : json) : option Z := match v with JNumber (PosInt n) => Some (Z.of_N n) | _ => None end.

Definition job_failed (row : EventSourceJobRow) : bool := er_status row ==? Some "failed".

Definition should_restart (policy : RestartPolicy) (failed : bool) : bool :=
  match policy with Always => true | OnFailure => failed | Never => false end.

Definition consecutive_failures (row : EventSourceJobRow) : Z :=
  default 0%Z (((er_input row ≫= json_get "_event_source") ≫= json_get "consecutive_failures") ≫= json_as_u64).

(** The counter is a [u64]. *)
Definition next_failures (row : EventSourceJobRow) : Z :=
  if job_failed row then as_u64 (consecutive_failures row + 1) else 0%Z.

Definition delay_secs (backoff_secs failures : Z) : Z :=
  if (failures =? 0)%Z then 1%Z
  else Z.min (u64_saturating_mul backoff_secs (2 ^ Z.min (failures - 1) 10)) 300.

(** [elapsed.num_seconds()] drops the fraction. *)
Definition backoff_over (now : Time) (d : DesiredEventSource) (row : EventSourceJobRow) : bool :=
  match er_completed_at row with
  | Some completed_at => (delay_secs (de_backoff_secs d) (next_failures row) <=? Z.quot (now - completed_at) SECOND)%Z
  | None => true
  end.

Definition restart_due (now : Time) (d : DesiredEventSource) (row : EventSourceJobRow) : bool :=
  should_restart (de_restart_policy d) (job_failed row) && backoff_over now d row.

(** ** One pass *)

Abbreviation ActiveJobs := (gmap string (list (Uuid * string))).

Definition group_active (active : list (Uuid * string * string)) : ActiveJobs :=
  fold_left (λ m a, <[a.1.2 := default [] (m !! a.1.2) ++ [(a.1.1, a.2)]]> m) active ∅.

Definition group_terminal (rows : list EventSourceJobRow) : gmap string EventSourceJobRow :=
  fold_left (λ m r, let sid := default "" (er_source_id r) in if bool_decide (is_Some (m !! sid)) then m else <[sid := r]> m) rows ∅.

Section reconcile.
Context `{HashIter} {St : Type} (cancel : Uuid → St → St) (create : DesiredEventSource → Z → St → St).

(** The job kept: the first with the current fingerprint, else the first. *)
Definition keep_idx (d : DesiredEventSource) (jobs : list (Uuid * string)) : nat :=
  default 0%nat (fst <$> list_find (λ j, j.2 = de_fingerprint d) jobs).

Definition cancel_others (keep : nat) (jobs : list (Uuid * string)) (st : St) : St :=
  fold_left (λ st p, if (p.1 =? keep)%nat then st else cancel p.2.1 st) (imap pair jobs) st.

(** Step 3 for one trigger. *)
Definition ensure_source (active : ActiveJobs) (terminal : gmap string EventSourceJobRow) (st : St) (d : DesiredEventSource) : St :=
  match active !! de_source_id d with
  | None => if bool_decide (is_Some (terminal !! de_source_id d)) then st else create d 0 st
  | Some jobs =>
      match jobs !! keep_idx d jobs with
      | None => st  (* unreachable: a source in the map has a job *)
      | Some (keep_job_id, keep_fp) =>
          let st := cancel_others (keep_idx d jobs) jobs st in
          if keep_fp ==? de_fingerprint d then st else create d 0 (cancel keep_job_id st)
      end
  end.

(** Step 4 for one source. *)
Definition drop_source (desired_ids : list string) (st : St) (p : string * list (Uuid * string)) : St :=
  if bool_decide (p.1 ∈ desired_ids) then st else fold_left (λ st j, cancel j.1 st) p.2 st.

(** Step 5 for one row; [clock] is read for each. *)
Definition restart_source (desired : list DesiredEventSource) (active : ActiveJobs) (clock : Uuid → Time) (st : St) (row : EventSourceJobRow) : St :=
  let sid := default "" (er_source_id row) in
  if negb (bool_decide (sid ∈ (de_source_id <$> desired))) then st
  else if bool_decide (is_Some (active !! sid)) then st
  else
    match snd <$> list_find (λ d, de_source_id d = sid) desired with
    | None => st
    | Some d => if restart_due (clock (er_job_id row)) d row then create d (next_failures row) st else st
    end.

Definition es_reconcile (desired : list DesiredEventSource) (active : list (Uuid * string * string)) (terminal_rows : list EventSourceJobRow)
    (clock : Uuid → Time) (st : St) : St :=
  let active_by_source := group_active active in
  let st := fold_left (ensure_source active_by_source (group_terminal terminal_rows)) desired st in
  let st := fold_left (drop_source (de_source_id <$> desired)) (hash_iter active_by_source) st in
  fold_left (restart_source desired active_by_source clock) terminal_rows st.
End reconcile.

(** ** The pass on the server *)

(** A panic ends the manager's task; a cancellation whose depth bound was too
    small has no result. The environment is the one of each call. *)
Inductive EsRun :=
| Going (fs : FireState) (calls : nat)
| ManagerDied (fs : FireState)
| NoDepth.

Section server.
Context `{EventLib, Workspaces, HashIter, Tera, JsonParser, Serde, AgentCodec, Collation, TemplateEngine} (env : nat → FireEnv).

Definition es_cancel (id : Uuid) (r : EsRun) : EsRun :=
  match r with
  | Going (st, ft) n =>
      let e := env n in
      match cancel (fe_services e) (λ i s, (advance (fe_services e) (fe_fuel e) i s).1) (fe_depth e) id st with
      | Some (st', _) => Going (st', ft) (S n)
      | None => NoDepth
      end
  | _ => r
  end.

Definition event_source_input (d : DesiredEventSource) (failures : Z) : json :=
  json_obj [("_fingerprint", JString (de_fingerprint d));
            ("_event_source", json_obj
               [("target_task", JString (de_target_task d)); ("source_id", JString (de_source_id d));
                ("input_defaults", object_of (de_input_defaults d)); ("max_in_flight", from_option json_int JNull (de_max_in_flight d));
                ("env", object_of (JString <$> de_env d)); ("backoff_secs", json_int (de_backoff_secs d));
                ("consecutive_failures", json_int failures)])].

Definition create_event_source_job (d : DesiredEventSource) (failures : Z) (r : EsRun) : EsRun :=
  match r with
  | Going (st, ft) n =>
      let e := env n in
      match get_config (fe_call e) (de_workspace d) with
      | None => Going (st, ft) (S n)
      | Some config =>
          let args := create_job_for_task_detailed config (de_workspace d) (de_task d) (event_source_input d failures) "event_source"
                        (Some (de_source_id d)) (get_revision (S (fe_call e)) (de_workspace d)) None (fe_defaults e) Indirect in
          match create_job_for_task_inner (sv_now (fe_services e)) (fe_host_now e) (fe_job_id e) (S (S (fe_call e))) (fe_init e) (fe_uncompensated e) args (st_db st, ft) with
          | ((db, ft'), Ok created) =>
              Going (job_created (λ i s, (advance (fe_services e) (fe_fuel e) i s).1) created (with_db db st), ft') (S n)
          | ((db, ft'), Err (Erred _)) => Going (with_db db st, ft') (S n)
          | ((db, ft'), Err Panics) => ManagerDied (with_db db st, ft')
          end
      end
  | _ => r
  end.

(** [reconcile]: a failed read of the active or of the ended jobs ends the
    pass. Other sessions may write between the two reads. *)
Definition es_pass (triggers_enabled : string → bool) (config : string → option WorkspaceConfig) (names : list string)
    (reads_fail : bool) (now : Time) (between : Db → Db) (clock : Uuid → Time) (r : EsRun) : EsRun :=
  match r with
  | Going (st, ft) n =>
      let desired := collect_desired triggers_enabled config names in
      if reads_fail then r
      else
        let active := load_active_event_source_jobs (st_db st) in
        let db := between (st_db st) in
        es_reconcile es_cancel create_event_source_job desired active (load_terminal_event_source_jobs now db) clock
          (Going (with_db db st, ft) n)
  | _ => r
  end.

(** One tick of the loop: only the leader reconciles. *)
Definition es_tick (is_leader : bool) (triggers_enabled : string → bool) (config : string → option WorkspaceConfig) (names : list string)
    (reads_fail : bool) (now : Time) (between : Db → Db) (clock : Uuid → Time) (r : EsRun) : EsRun :=
  if is_leader then es_pass triggers_enabled config names reads_fail now between clock r else r.
End server.

(** ** The plan of a pass *)

Inductive EsAction := ACancel (id : Uuid) | ACreate (d : DesiredEventSource) (failures : Z).

Definition log_cancel (id : Uuid) (l : list EsAction) : list EsAction := l ++ [ACancel id].
Definition log_create (d : DesiredEventSource) (n : Z) (l : list EsAction) : list EsAction := l ++ [ACreate d n].

Definition es_plan `{HashIter} (desired : list DesiredEventSource) (active : list (Uuid * string * string)) (rows : list EventSourceJobRow)
    (clock : Uuid → Time) : list EsAction := es_reconcile log_cancel log_create desired active rows clock [].

Section plan.
Context `{HashIter} {St : Type} (cancel : Uuid → St → St) (create : DesiredEventSource → Z → St → St).

Definition perform (st : St) (a : EsAction) : St := match a with ACancel id => cancel id st | ACreate d n => create d n st end.

(** Two folds in step, the second one over the log of the first. *)
Lemma fold_plan {X} (f : St → X → St) (g : list EsAction → X → list EsAction) xs :
  (∀ l st x, fold_left perform (g l x) st = f (fold_left perform l st) x) →
  ∀ l st, fold_left perform (fold_left g xs l) st = fold_left f xs (fold_left perform l st).
Proof. intros Hstep. induction xs as [|x xs IH]; intros l st; [done|]. cbn [fold_left]. by rewrite IH, Hstep. Qed.

Lemma perform_cancel id l st : fold_left perform (log_cancel id l) st = cancel id (fold_left perform l st).
Proof. unfold log_cancel. by rewrite fold_left_app. Qed.
Lemma perform_create d n l st : fold_left perform (log_create d n l) st = create d n (fold_left perform l st).
Proof. unfold log_create. by rewrite fold_left_app. Qed.

(** What a pass does is decided before it does anything: it performs its plan. *)
Lemma reconcile_performs_plan desired active rows clock st :
  es_reconcile cancel create desired active rows clock st = fold_left perform (es_plan desired active rows clock) st.
Proof.
  unfold es_plan, es_reconcile. symmetry. rewrite (fold_plan (restart_source create desired (group_active active) clock)).
  { f_equal. rewrite (fold_plan (drop_source cancel (de_source_id <$> desired))).
    { f_equal. rewrite (fold_plan (ensure_source cancel create (group_active active) (group_terminal rows))); [done|].
      intros l s d. unfold ensure_source. destruct (group_active active !! _) as [jobs|].
      - destruct (jobs !! _) as [[id fp]|]; [|done]. assert (Hc : ∀ l s, fold_left perform (cancel_others log_cancel (keep_idx d jobs) jobs l) s =
          cancel_others cancel (keep_idx d jobs) jobs (fold_left perform l s)).
        { intros l' s'. unfold cancel_others. apply fold_plan. intros l0 s0 x. case_match; [done|apply perform_cancel]. }
        case_match; [apply Hc|]. by rewrite perform_create, perform_cancel, Hc.
      - case_bool_decide; [done|apply perform_create]. }
    intros l s [sid jobs]. unfold drop_source. case_bool_decide; [done|]. apply fold_plan. intros. apply perform_cancel. }
  intros l s row. unfold restart_source. case_match; [done|]. case_match; [done|]. destruct (snd <$> _); [|done]. case_match; [apply perform_create|done].
Qed.
End plan.

(** ** What a pass does for each source *)

(** The active jobs of a source, in the order they were read. *)
Definition jobs_of (sid : string) (active : list (Uuid * string * string)) : list (Uuid * string) :=
  omap (λ a, if a.1.2 ==? sid then Some (a.1.1, a.2) else None) active.

(** The job of a trigger that is left alone: the first that runs its current
    configuration. *)
Definition kept_job (d : DesiredEventSource) (active : list (Uuid * string * string)) : option Uuid :=
  (λ p, p.2.1) <$> list_find (λ j, j.2 = de_fingerprint d) (jobs_of (de_source_id d) active).

Definition creations (d : DesiredEventSource) (acts : list EsAction) : list Z :=
  omap (λ a, match a with ACreate d' n => if de_source_id d' ==? de_source_id d then Some n else None | ACancel _ => None end) acts.

Lemma group_active_lookup active sid :
  group_active active !! sid = match jobs_of sid active with [] => None | jobs => Some jobs end.
Proof.
  unfold group_active. enough (∀ m : ActiveJobs, (∀ s, m !! s ≠ Some []) →
    fold_left (λ m a, <[a.1.2 := default [] (m !! a.1.2) ++ [(a.1.1, a.2)]]> m) active m !! sid =
    match default [] (m !! sid) ++ jobs_of sid active with [] => None | jobs => Some jobs end) as Hg.
  { rewrite Hg by (intros s; by rewrite lookup_empty). by rewrite lookup_empty. }
  induction active as [|[[id s] fp] active IH]; intros m Hm; simpl.
  - rewrite app_nil_r. specialize (Hm sid). destruct (m !! sid) as [[|]|]; done.
  - rewrite IH.
    + destruct (decide (s = sid)) as [->|Hne].
      * rewrite lookup_insert_eq, bool_decide_true by done. simpl. by rewrite <-app_assoc.
      * by rewrite lookup_insert_ne, bool_decide_false by done.
    + intros s'. destruct (decide (s = s')) as [->|Hne]; [rewrite lookup_insert_eq; intros [= E]; by destruct (default [] _)|by rewrite lookup_insert_ne].
Qed.

Lemma elem_of_jobs_of sid active id fp : (id, fp) ∈ jobs_of sid active ↔ (id, sid, fp) ∈ active.
Proof.
  unfold jobs_of. rewrite list_elem_of_omap. split.
  - intros ([[i s] f] & Hin & E). simpl in E. case_bool_decide; [|done]. by simplify_eq.
  - intros Hin. exists (id, sid, fp). split; [done|]. simpl. by rewrite bool_decide_true.
Qed.

Lemma jobs_of_NoDup sid active : NoDup ((λ a, a.1.1) <$> active) → NoDup (jobs_of sid active).*1.
Proof.
  intros Hnd. induction active as [|[[id s] fp] active IH]; [constructor|]. cbn in Hnd. apply NoDup_cons in Hnd as [Hn Hnd]. unfold jobs_of. simpl.
  case_bool_decide as E; [|by apply IH]. cbn. apply NoDup_cons. split; [|by apply IH]. intros ([i f] & Hi & Hin)%list_elem_of_fmap. simpl in Hi. subst i s.
  fold (jobs_of sid active) in Hin. apply elem_of_jobs_of in Hin. apply Hn. apply list_elem_of_fmap. by exists (id, sid, f).
Qed.

Lemma group_terminal_lookup rows sid :
  is_Some (group_terminal rows !! sid) ↔ ∃ r, r ∈ rows ∧ default "" (er_source_id r) = sid.
Proof.
  unfold group_terminal. enough (∀ m : gmap string EventSourceJobRow,
    is_Some (fold_left (λ m r, let sid := default "" (er_source_id r) in if bool_decide (is_Some (m !! sid)) then m else <[sid := r]> m) rows m !! sid) ↔
    is_Some (m !! sid) ∨ ∃ r, r ∈ rows ∧ default "" (er_source_id r) = sid) as Hg.
  { rewrite Hg, lookup_empty. split; [intros [[? ?]|?]; done|by right]. }
  induction rows as [|r rows IH]; intros m; simpl; [split; [by left|intros [?|(r & ?%elem_of_nil & _)]; done]|]. rewrite IH. setoid_rewrite elem_of_cons.
  case_bool_decide as E.
  - split; [naive_solver|]. intros [?|(r' & [->|?] & <-)]; naive_solver.
  - destruct (decide (default "" (er_source_id r) = sid)) as [<-|Hne].
    + rewrite lookup_insert_eq. naive_solver.
    + rewrite lookup_insert_ne by done. naive_solver.
Qed.

Section acts.
Context `{HashIter}.

Lemma fold_log {X} (g : list EsAction → X → list EsAction) xs l :
  (∀ l x, g l x = l ++ g [] x) → fold_left g xs l = l ++ flat_map (g []) xs.
Proof. intros Hg. revert l. induction xs as [|x xs IH]; intros l; simpl; [by rewrite app_nil_r|]. by rewrite IH, Hg, <-app_assoc. Qed.

Definition others (keep : nat) (jobs : list (Uuid * string)) : list EsAction :=
  flat_map (λ p, if (p.1 =? keep)%nat then [] else [ACancel p.2.1]) (imap pair jobs).

Lemma cancel_others_log keep jobs l : cancel_others log_cancel keep jobs l = l ++ others keep jobs.
Proof.
  unfold cancel_others, others. rewrite fold_log; [|intros l' x; case_match; [by rewrite app_nil_r|done]]. done.
Qed.

Lemma ensure_log active terminal l d :
  ensure_source log_cancel log_create active terminal l d = l ++ ensure_source log_cancel log_create active terminal [] d.
Proof.
  unfold ensure_source. destruct (active !! _) as [jobs|].
  - destruct (jobs !! _) as [[id fp]|]; [|by rewrite app_nil_r]. rewrite !cancel_others_log. simpl. case_match; [done|].
    unfold log_create, log_cancel. by rewrite <-!app_assoc.
  - case_bool_decide; [by rewrite app_nil_r|done].
Qed.

Lemma drop_log ids l p : drop_source log_cancel ids l p = l ++ drop_source log_cancel ids [] p.
Proof.
  unfold drop_source. case_bool_decide; [by rewrite app_nil_r|]. rewrite (fold_log (λ st j, log_cancel j.1 st)) by done.
  by rewrite (fold_log (λ st j, log_cancel j.1 st) p.2 []) by done.
Qed.

Lemma restart_log desired active clock l r :
  restart_source log_create desired active clock l r = l ++ restart_source log_create desired active clock [] r.
Proof.
  unfold restart_source. case_match; [by rewrite app_nil_r|]. case_match; [by rewrite app_nil_r|]. destruct (snd <$> _); [|by rewrite app_nil_r].
  case_match; [done|by rewrite app_nil_r].
Qed.

Lemma plan_parts desired active rows clock :
  es_plan desired active rows clock =
  flat_map (ensure_source log_cancel log_create (group_active active) (group_terminal rows) []) desired ++
  flat_map (drop_source log_cancel (de_source_id <$> desired) []) (hash_iter (group_active active)) ++
  flat_map (restart_source log_create desired (group_active active) clock []) rows.
Proof.
  unfold es_plan, es_reconcile. rewrite (fold_log (restart_source _ _ _ _)) by apply restart_log. rewrite (fold_log (drop_source _ _)) by apply drop_log.
  rewrite (fold_log (ensure_source _ _ _ _)) by apply ensure_log. by rewrite app_nil_l, <-app_assoc.
Qed.

Lemma elem_of_others a keep jobs : a ∈ others keep jobs ↔ ∃ i j, jobs !! i = Some j ∧ i ≠ keep ∧ a = ACancel j.1.
Proof.
  unfold others. rewrite elem_of_flat_map. split.
  - intros ([i j] & (n & x & [= <- <-] & Hx)%elem_of_lookup_imap & Ha). simpl in Ha. destruct (Nat.eqb_spec i keep); [by apply elem_of_nil in Ha|].
    apply list_elem_of_singleton in Ha. eauto.
  - intros (i & j & Hj & Hne & ->). exists (i, j). split; [apply elem_of_lookup_imap; eauto|]. simpl. destruct (Nat.eqb_spec i keep); [done|by left].
Qed.
End acts.

Section each_source.
Context `{HashIter} (active : list (Uuid * string * string)) (Hids : NoDup ((λ a, a.1.1) <$> active)).

Lemma same_position sid i j k x y : jobs_of sid active !! i = Some (k, x) → jobs_of sid active !! j = Some (k, y) → i = j.
Proof.
  intros Hi Hj. apply (NoDup_lookup _ _ _ k (jobs_of_NoDup sid active Hids)); rewrite list_lookup_fmap; by rewrite ?Hi, ?Hj.
Qed.

(** A trigger's jobs are cancelled but for the one that is kept. *)
Lemma ensure_cancels terminal d id :
  ACancel id ∈ ensure_source log_cancel log_create (group_active active) terminal [] d ↔
  (∃ fp, (id, de_source_id d, fp) ∈ active) ∧ kept_job d active ≠ Some id.
Proof.
  setoid_rewrite <-elem_of_jobs_of. unfold ensure_source, kept_job, keep_idx. rewrite group_active_lookup.
  pose proof (same_position (de_source_id d)) as Hpos. revert Hpos. generalize (jobs_of (de_source_id d) active) as jobs. clear Hids. intros jobs Hpos.
  destruct jobs as [|j0 jobs'] eqn:Ejobs.
  { case_bool_decide; cbn; split; try (intros ?%elem_of_nil; done); try (intros ?%list_elem_of_singleton; done); by intros [[fp ?%elem_of_nil] _]. }
  cbv iota. rewrite <-Ejobs in Hpos |- *. destruct (list_find _ jobs) as [[k [kid kfp]]|] eqn:Ef; cbn [fmap option_fmap option_map default from_option fst snd]; unfold Datatypes.id.
  - apply list_find_Some in Ef as (Hk & Hfp & _). rewrite Hk, cancel_others_log. simpl in Hfp. rewrite (bool_decide_true (kfp = _)) by done.
    cbn [app]. rewrite elem_of_others. split.
    + intros (i & [id' fp] & Hi & Hne & [= ->]). split; [exists fp; by eapply list_elem_of_lookup_2|]. intros [= ->]. apply Hne. by eapply Hpos.
    + intros [[fp [i Hi]%list_elem_of_lookup_1] Hne]. exists i, (id, fp). split_and!; [done| |done]. intros ->. rewrite Hk in Hi. by injection Hi as -> _.
  - rewrite cancel_others_log. rewrite Ejobs in *. change ((j0 :: jobs') !! 0%nat) with (Some j0). destruct j0 as [id0 fp0].
    rewrite bool_decide_false by (apply list_find_None, Forall_cons in Ef as [? _]; done).
    unfold log_create, log_cancel. cbn [app]. rewrite !elem_of_app, elem_of_others, !list_elem_of_singleton. split.
    + intros [[Ha|[= ->]]|?]; [|split; [exists fp0; left|done]|done]. destruct Ha as (i & [id' fp] & Hi & _ & [= ->]).
      split; [exists fp; by eapply list_elem_of_lookup_2|done].
    + intros [[fp [i Hi]%list_elem_of_lookup_1] _]. destruct i as [|i]; [injection Hi as -> _; by left; right|]. left; left. by exists (S i), (id, fp).
Qed.

Lemma creations_app d l1 l2 : creations d (l1 ++ l2) = creations d l1 ++ creations d l2.
Proof. unfold creations. apply omap_app. Qed.

Lemma creations_flat_map {X} d (f : X → list EsAction) l : creations d (flat_map f l) = flat_map (λ x, creations d (f x)) l.
Proof. induction l as [|x l IH]; simpl; [done|]. by rewrite creations_app, IH. Qed.

Lemma creations_cancels d l : (∀ a, a ∈ l → ∃ id, a = ACancel id) → creations d l = [].
Proof. induction l as [|a l IH]; intros Hl; [done|]. destruct (Hl a ltac:(by left)) as [id ->]. cbn. apply IH. intros a' Ha. apply Hl. by right. Qed.

(** Whether step 3 creates a job for a trigger. *)
Definition starts (rows : list EventSourceJobRow) (d : DesiredEventSource) : bool :=
  bool_decide (kept_job d active = None) &&
  (negb (bool_decide (jobs_of (de_source_id d) active = [])) || negb (existsb (λ r, default "" (er_source_id r) ==? de_source_id d) rows)).

Lemma ensure_creates rows d d' :
  creations d' (ensure_source log_cancel log_create (group_active active) (group_terminal rows) [] d) =
  if (de_source_id d ==? de_source_id d') && starts rows d then [0%Z] else [].
Proof.
  unfold ensure_source, starts, kept_job, keep_idx. rewrite group_active_lookup. generalize (jobs_of (de_source_id d) active) as jobs. intros jobs.
  destruct jobs as [|j0 jobs'] eqn:Ejobs.
  - cbn. assert (Ht : bool_decide (is_Some (group_terminal rows !! de_source_id d)) = existsb (λ r, default "" (er_source_id r) ==? de_source_id d) rows).
    { apply Bool.eq_iff_eq_true. rewrite bool_decide_eq_true, group_terminal_lookup, existsb_exists. setoid_rewrite <-list_elem_of_In.
      by setoid_rewrite bool_decide_eq_true. }
    rewrite Ht. destruct (existsb _ rows); cbn; [by rewrite andb_false_r|]. by destruct (de_source_id d ==? de_source_id d').
  - cbv iota. rewrite <-Ejobs. assert (Hc : ∀ k, creations d' (others k jobs) = []) by (intros k; apply creations_cancels; intros a (?&?&?&?&->)%elem_of_others; eauto).
    destruct (list_find _ jobs) as [[k [kid kfp]]|] eqn:Ef; cbn [fmap option_fmap option_map default from_option fst snd]; unfold Datatypes.id.
    + apply list_find_Some in Ef as (Hk & Hfp & _). rewrite Hk, cancel_others_log. simpl in Hfp. rewrite (bool_decide_true (kfp = _)) by done.
      cbn [app]. rewrite Hc. by rewrite andb_false_r.
    + rewrite cancel_others_log. rewrite Ejobs in *. change ((j0 :: jobs') !! 0%nat) with (Some j0). destruct j0 as [id0 fp0].
      rewrite (bool_decide_false (fp0 = _)) by (apply list_find_None, Forall_cons in Ef as [? _]; done).
      unfold log_create, log_cancel. cbn [app]. rewrite !creations_app, Hc. cbn. by destruct (de_source_id d ==? de_source_id d').
Qed.
End each_source.

Lemma ensure_creates_own `{HashIter} active terminal d d' n :
  ACreate d n ∈ ensure_source log_cancel log_create active terminal [] d' → d = d'.
Proof.
  unfold ensure_source. destruct (active !! _) as [jobs|].
  - destruct (jobs !! _) as [[id fp]|]; [|by intros ?%elem_of_nil]. rewrite cancel_others_log. cbn [app]. case_match.
    + by intros (?&?&?&?&?)%elem_of_others.
    + unfold log_create, log_cancel. rewrite !elem_of_app, !list_elem_of_singleton. intros [[(?&?&?&?&?)%elem_of_others|?]|[= -> _]]; done.
  - case_bool_decide; [by intros ?%elem_of_nil|]. by intros [= -> _]%list_elem_of_singleton.
Qed.

Lemma drop_cancels ids p a : a ∈ drop_source log_cancel ids [] p → ∃ id, a = ACancel id.
Proof.
  unfold drop_source. case_bool_decide; [by intros ?%elem_of_nil|]. rewrite (fold_log (λ st j, log_cancel j.1 st)), app_nil_l by done.
  intros (j & _ & ->%list_elem_of_singleton)%elem_of_flat_map. eauto.
Qed.

Lemma flat_map_const_nil {A B} (l : list A) : flat_map (λ _, [] : list B) l = [].
Proof. by induction l. Qed.

Lemma restarts_filter {A} (f g : A → bool) (b : bool) (h : A → Z) l :
  flat_map (λ r, if f r && b && g r then [h r] else []) l = if b then h <$> List.filter g (List.filter f l) else [].
Proof.
  destruct b; [|induction l as [|x l IH]; [done|]; cbn; by rewrite andb_false_r, IH].
  induction l as [|x l IH]; [done|]. cbn. rewrite andb_true_r, IH. destruct (f x); cbn; [|done]. by destruct (g x).
Qed.

Lemma ended_none {A} (f : A → bool) l : negb (existsb f l) = bool_decide (List.filter f l = []).
Proof. induction l as [|x l IH]; [done|]. cbn. by destruct (f x). Qed.

Section reconciled.
Context `{HashIter} (desired : list DesiredEventSource) (active : list (Uuid * string * string)) (rows : list EventSourceJobRow) (clock : Uuid → Time).
Context (Hsrc : NoDup (de_source_id <$> desired)).

Lemma desired_unique d d' : d ∈ desired → d' ∈ desired → de_source_id d = de_source_id d' → d = d'.
Proof.
  clear -Hsrc. induction desired as [|x l IH]; [by intros ?%elem_of_nil|]. cbn in Hsrc. apply NoDup_cons in Hsrc as [Hx Hnd].
  intros [->|Hd]%elem_of_cons [->|Hd']%elem_of_cons E; [done| | |by apply IH].
  - destruct Hx. rewrite E. by apply list_elem_of_fmap_2.
  - destruct Hx. rewrite <-E. by apply list_elem_of_fmap_2.
Qed.

Lemma once_desired d (b : DesiredEventSource → bool) :
  d ∈ desired → flat_map (λ x, if (de_source_id x ==? de_source_id d) && b x then [0%Z] else []) desired = if b d then [0%Z] else [].
Proof.
  intros Hd. pose proof desired_unique as Hu. clear -Hd Hu Hsrc.
  assert (Hout : ∀ l, de_source_id d ∉ (de_source_id <$> l) → flat_map (λ x, if (de_source_id x ==? de_source_id d) && b x then [0%Z] else []) l = []).
  { induction l as [|x l IH]; [done|]. cbn. rewrite not_elem_of_cons. intros [Hn Hl]. rewrite bool_decide_false by congruence. by apply IH. }
  induction desired as [|x l IH]; [by apply elem_of_nil in Hd|]. cbn in Hsrc |- *. apply NoDup_cons in Hsrc as [Hx Hnd]. apply elem_of_cons in Hd as [<-|Hd].
  - rewrite bool_decide_true by done. rewrite Hout by done. destruct (b d); done.
  - rewrite bool_decide_false; [apply IH; [done..|]; intros; apply Hu; [by right|by right|done]|]. intros E. destruct Hx. rewrite E. by apply list_elem_of_fmap_2.
Qed.

Lemma find_desired d : d ∈ desired → snd <$> list_find (λ x, de_source_id x = de_source_id d) desired = Some d.
Proof.
  intros Hd. destruct (list_find_elem_of (λ x, de_source_id x = de_source_id d) desired d Hd eq_refl) as [[i d'] Hf]. rewrite Hf. simpl. f_equal.
  apply list_find_Some in Hf as (Hi & E & _). apply desired_unique; [by eapply list_elem_of_lookup_2|done|done].
Qed.

Lemma restart_creates d r :
  d ∈ desired →
  creations d (restart_source log_create desired (group_active active) clock [] r) =
  if (default "" (er_source_id r) ==? de_source_id d) && bool_decide (jobs_of (de_source_id d) active = []) && restart_due (clock (er_job_id r)) d r
  then [next_failures r] else [].
Proof.
  intros Hd. unfold restart_source. rewrite group_active_lookup. destruct (decide (default "" (er_source_id r) = de_source_id d)) as [Es|Es].
  - rewrite Es, (bool_decide_true (de_source_id d = _)) by done. rewrite (bool_decide_true (_ ∈ _)), find_desired by (done || by apply list_elem_of_fmap_2). simpl.
    destruct (jobs_of (de_source_id d) active); simpl; [|done]. destruct (restart_due _ d r); [|done]. cbn. by rewrite bool_decide_true.
  - rewrite (bool_decide_false (_ = de_source_id d)) by done. cbn. case_match; [done|]. case_match; [done|]. destruct (list_find _ _) as [[i d']|] eqn:Ef; [|done]. simpl.
    apply list_find_Some in Ef as (_ & E & _).
    destruct (restart_due _ d' r); [|done]. cbn. rewrite (bool_decide_false (de_source_id d' = _)) by congruence. done.
Qed.

(** What a plan cancels and creates. *)
Lemma plan_exact :
  NoDup ((λ a, a.1.1) <$> active) →
  let acts := es_plan desired active rows clock in
  (∀ id, ACancel id ∈ acts ↔
     ∃ sid fp, (id, sid, fp) ∈ active ∧ ∀ d, d ∈ desired → de_source_id d = sid → kept_job d active ≠ Some id) ∧
  (∀ d n, ACreate d n ∈ acts → d ∈ desired) ∧
  (∀ d, d ∈ desired →
     creations d acts =
     if bool_decide (is_Some (kept_job d active)) then []
     else
       let ended := List.filter (λ r, default "" (er_source_id r) ==? de_source_id d) rows in
       if negb (bool_decide (jobs_of (de_source_id d) active = [])) || bool_decide (ended = []) then [0%Z]
       else next_failures <$> List.filter (λ r, restart_due (clock (er_job_id r)) d r) ended).
Proof.
  intros Hids acts. subst acts. rewrite plan_parts. split_and!.
  - intros id. rewrite !elem_of_app, !elem_of_flat_map. setoid_rewrite ensure_cancels; [|done]. split.
    + intros [(d & Hd & (fp & Hfp) & Hk)|[([sid jobs] & Hin & Ha)|(r & _ & Ha)]].
      * exists (de_source_id d), fp. split; [done|]. intros d' Hd' E. by rewrite (desired_unique d' d Hd' Hd E).
      * apply elem_of_hash_iter in Hin. rewrite group_active_lookup in Hin. unfold drop_source in Ha. case_bool_decide as Hn; [by apply elem_of_nil in Ha|].
        rewrite (fold_log (λ st j, log_cancel j.1 st)), app_nil_l in Ha by done. apply elem_of_flat_map in Ha as ([j fp] & Hj & [= ->]%list_elem_of_singleton).
        exists sid, fp. split; [|intros d Hd <-; destruct Hn; exact (list_elem_of_fmap_2 de_source_id _ _ Hd)]. apply elem_of_jobs_of. destruct (jobs_of sid active); [done|]. by injection Hin as <-.
      * exfalso. revert Ha. unfold restart_source. case_match; [by intros ?%elem_of_nil|]. case_match; [by intros ?%elem_of_nil|].
        destruct (snd <$> _); [|by intros ?%elem_of_nil]. case_match; [by intros ?%list_elem_of_singleton|by intros ?%elem_of_nil].
    + intros (sid & fp & Hin & Hk). destruct (decide (sid ∈ (de_source_id <$> desired))) as [(d & -> & Hd)%list_elem_of_fmap|Hn].
      * left. exists d. eauto.
      * right; left. exists (sid, jobs_of sid active). split.
        { apply elem_of_hash_iter. rewrite group_active_lookup. apply elem_of_jobs_of in Hin. destruct (jobs_of sid active); [by apply elem_of_nil in Hin|done]. }
        unfold drop_source. rewrite bool_decide_false by done. rewrite (fold_log (λ st j, log_cancel j.1 st)), app_nil_l by done.
        apply elem_of_flat_map. exists (id, fp). split; [by apply elem_of_jobs_of|by left].
  - intros d n. rewrite !elem_of_app, !elem_of_flat_map. intros [(d' & Hd' & Ha)|[(p & _ & Ha)|(r & _ & Ha)]].
    + apply ensure_creates_own in Ha. by subst.
    + exfalso. revert Ha. unfold drop_source. case_bool_decide; [by intros ?%elem_of_nil|]. rewrite (fold_log (λ st j, log_cancel j.1 st)), app_nil_l by done.
      by intros (j & _ & ?%list_elem_of_singleton)%elem_of_flat_map.
    + revert Ha. unfold restart_source. case_match; [by intros ?%elem_of_nil|]. case_match; [by intros ?%elem_of_nil|].
      destruct (list_find _ _) as [[i d']|] eqn:Ef; [|by intros ?%elem_of_nil]. simpl. case_match; [intros [= -> _]%list_elem_of_singleton|by intros ?%elem_of_nil].
      apply list_find_Some in Ef as (Hi & _). by eapply list_elem_of_lookup_2.
  - intros d Hd. rewrite !creations_app, !creations_flat_map.
    rewrite (flat_map_ext _ _ (λ x, ensure_creates active rows x d)), once_desired by done.
    rewrite (flat_map_ext _ (λ _, []) (λ p, creations_cancels d _ (drop_cancels _ p))), flat_map_const_nil.
    rewrite (flat_map_ext _ _ (λ r, restart_creates d r Hd)), restarts_filter. cbn [app]. unfold starts, kept_job.
    destruct (list_find _ (jobs_of (de_source_id d) active)) as [[i j]|] eqn:Ef; cbn.
    + rewrite bool_decide_false; [done|]. intros E. by rewrite E in Ef.
    + rewrite ended_none. destruct (bool_decide (jobs_of _ _ = [])); cbn; [|done]. by destruct (bool_decide (List.filter _ _ = [])) eqn:E; [apply bool_decide_eq_true in E as ->|].
Qed.
End reconciled.

(** ** The pass and the database *)

(** A consumer job that has not ended. *)
Definition consumer (db : Db) (id : Uuid) (r : JobRec) : Prop :=
  db_job db !! id = Some r ∧ j_source_type (jr_row r) = "event_source" ∧ jr_status r ∉ ["completed"; "failed"; "cancelled"; "skipped"].
Definition source_of (r : JobRec) : string := default "" (j_source_id (jr_row r)).

(** No job was ever created for the trigger, or all of them are deleted. *)
Definition no_job_of (d : DesiredEventSource) (db : Db) : Prop :=
  ∀ id r, db_job db !! id = Some r → j_source_type (jr_row r) = "event_source" → source_of r ≠ de_source_id d.

Lemma elem_of_load_active db id sid fp : jobs_wf db →
  (id, sid, fp) ∈ load_active_event_source_jobs db ↔
  ∃ r, consumer db id r ∧ source_of r = sid ∧ default "" ((j_input (jr_row r) ≫= json_get "_fingerprint") ≫= as_str) = fp.
Proof.
  intros Hwf. unfold load_active_event_source_jobs. rewrite list_elem_of_fmap. split.
  - intros (j & [= -> -> ->] & (k & r & Hr & -> & Hw)%elem_of_select_jobs). exists r. destruct (Hwf k r Hr) as [Hk _]. rewrite Hk.
    apply andb_true_iff in Hw as [Hty Hst]. apply bool_decide_eq_true in Hty. apply negb_true_iff, bool_decide_eq_false in Hst. done.
  - intros (r & (Hr & Hty & Hst) & <- & <-). exists (jr_row r). destruct (Hwf id r Hr) as [Hk _]. rewrite Hk. split; [done|].
    apply elem_of_select_jobs. exists id, r. split_and!; [done..|]. apply andb_true_iff. split; [by apply bool_decide_eq_true|].
    apply negb_true_iff, bool_decide_eq_false. done.
Qed.

Lemma load_active_NoDup db : jobs_wf db → NoDup ((λ a, a.1.1) <$> load_active_event_source_jobs db).
Proof.
  intros Hwf. unfold load_active_event_source_jobs, select_jobs, sql_select. rewrite <-!list_fmap_compose.
  set (m := filter _ _). erewrite list_fmap_ext; [apply (NoDup_fst_map_to_list m)|].
  intros i [k r] Hi. apply list_elem_of_lookup_2, elem_of_map_to_list, map_lookup_filter_Some in Hi as [Hr _]. cbn. apply (Hwf k r Hr).
Qed.

Lemma no_job_no_active d db : jobs_wf db → no_job_of d db → jobs_of (de_source_id d) (load_active_event_source_jobs db) = [].
Proof.
  intros Hwf Hno. destruct (jobs_of _ _) as [|[id fp] l] eqn:E; [done|].
  assert (Hin : (id, fp) ∈ jobs_of (de_source_id d) (load_active_event_source_jobs db)) by (rewrite E; left).
  apply elem_of_jobs_of, elem_of_load_active in Hin as (r & (Hr & Hty & _) & Hs & _); [|done]. by destruct (Hno id r Hr Hty).
Qed.

Lemma no_job_no_ended d now db : no_job_of d db →
  List.filter (λ r, default "" (er_source_id r) ==? de_source_id d) (load_terminal_event_source_jobs now db) = [].
Proof.
  intros Hno. destruct (List.filter _ _) as [|x l] eqn:E; [done|].
  assert (Hin : x ∈ List.filter (λ r, default "" (er_source_id r) ==? de_source_id d) (load_terminal_event_source_jobs now db)) by (rewrite E; left).
  apply elem_of_lfilter in Hin as [Hin Hs%bool_decide_eq_true]. unfold load_terminal_event_source_jobs in Hin.
  apply list_elem_of_fmap in Hin as (j & -> & Hj). unfold sort_by_key in Hj. rewrite elem_of_sort_by in Hj.
  apply elem_of_select_jobs in Hj as (k & r & Hr & -> & Hw). rewrite !andb_true_iff, bool_decide_eq_true in Hw. by destruct (Hno k r Hr (proj1 (proj1 Hw))).
Qed.

(** The wait before a restart: the trigger's delay doubled for each failure in
    a row before this one, at most ten times and at most five minutes, and a
    second after a clean end. *)
Definition restart_wait (d : DesiredEventSource) (r : EventSourceJobRow) : Z :=
  if er_status r ==? Some "failed"
  then Z.min (Z.min 18446744073709551615 (de_backoff_secs d * 2 ^ Z.min (consecutive_failures r) 10)) 300 else 1.

Lemma restart_due_spec at_ d r t : (0 ≤ consecutive_failures r < u64_max)%Z → er_completed_at r = Some t →
  restart_due at_ d r = match de_restart_policy d with Always => true | OnFailure => er_status r ==? Some "failed" | Never => false end &&
    (restart_wait d r <=? Z.quot (at_ - t) 1000000)%Z ∧
  next_failures r = if er_status r ==? Some "failed" then (consecutive_failures r + 1)%Z else 0%Z.
Proof.
  intros Hf Ht. unfold restart_due, backoff_over, should_restart, delay_secs, restart_wait, next_failures, job_failed. rewrite Ht.
  destruct (er_status r ==? Some "failed").
  - assert (E : as_u64 (consecutive_failures r + 1) = (consecutive_failures r + 1)%Z).
    { unfold as_u64, u64_max, u64_modulus in *. apply Z.mod_small. lia. }
    rewrite E, (proj2 (Z.eqb_neq _ _)) by lia. replace (consecutive_failures r + 1 - 1)%Z with (consecutive_failures r) by lia. by destruct (de_restart_policy d).
  - by destruct (de_restart_policy d).
Qed.

Section pass.
Context `{EventLib, Workspaces, HashIter, Tera, JsonParser, Serde, AgentCodec, Collation, TemplateEngine} (env : nat → FireEnv).

End pass.

(** ** The fingerprint and the backoff *)

Definition key_le {V} (a b : string * V) : Prop := by_key a b = true.

#[export] Instance key_le_trans {V} : Transitive (@key_le V).
Proof.
  intros [a x] [b y] [c z]. unfold key_le, by_key, str_leb. simpl.
  destruct (String.compare a b) eqn:E1; [|destruct (String.compare b c) eqn:E2|done]; intros _; [by apply String.compare_eq_iff in E1 as ->| | |done].
  - apply String.compare_eq_iff in E2 as ->. by rewrite E1.
  - by rewrite (key_lt_trans a b c E1 E2).
Qed.

Lemma sort_pairs_sorted {V} (l : list (string * V)) : Sorted key_le (sort_by by_key l).
Proof.
  assert (Hins : ∀ (x : string * V) l, Sorted key_le l → Sorted key_le (insert_by by_key x l)).
  { intros x l'. induction 1 as [|y l' Hs IH Hd]; simpl; [repeat constructor|]. destruct (by_key x y) eqn:E; [by repeat constructor|].
    assert (key_le y x) by (by apply str_leb_total). constructor; [done|]. destruct l' as [|z l']; simpl; [by constructor|].
    inversion Hd; subst. destruct (by_key x z); by constructor. }
  induction l as [|x l IH]; [constructor|by apply Hins].
Qed.

Lemma sorted_pairs_order {V} (h1 h2 : HashIter) (m : gmap string V) : @sorted_pairs h1 V m = @sorted_pairs h2 V m.
Proof.
  apply (Sorted_unique_strong key_le); [|apply sort_pairs_sorted..|unfold sorted_pairs; by rewrite !sort_by_perm, !hash_iter_perm].
  intros [a x] [b y] Ha%elem_of_sort_by Hb%elem_of_sort_by Hab Hba. apply elem_of_hash_iter in Ha, Hb.
  assert (a = b) as ->; [|naive_solver]. apply String.compare_eq_iff. revert Hab Hba. unfold key_le, by_key, str_leb. simpl.
  rewrite (String.compare_antisym a b). by destruct (String.compare b a).
Qed.

(** The fingerprint of a trigger does not depend on the iteration order of its
    maps: a consumer is not replaced because a map was read in another order. *)
Theorem fingerprint_stable `{EventLib} (h1 h2 : HashIter) task target env input policy backoff in_flight :
  compute_fingerprint (H0 := h1) task target env input policy backoff in_flight =
  compute_fingerprint (H0 := h2) task target env input policy backoff in_flight.
Proof. unfold compute_fingerprint, fingerprint_text. by rewrite !(sorted_pairs_order h1 h2). Qed.

(** The wait before a restart: a second after a clean end, otherwise the
    trigger's delay doubled for each further failure in a row, never above
    five minutes, so the ten minutes of history always cover it. *)
Lemma restart_delay_bounds backoff n :
  (0 ≤ backoff ≤ u64_max)%Z → (0 ≤ n)%Z →
  (0 ≤ delay_secs backoff n ≤ 300)%Z ∧ (delay_secs backoff n * SECOND < TEN_MINUTES)%Z ∧
  (n = 0 → delay_secs backoff n = 1)%Z ∧
  (0 < n → backoff * 2 ^ (n - 1) ≤ 300 → delay_secs backoff n = Z.min (backoff * 2 ^ Z.min (n - 1) 10) 300)%Z ∧
  (0 < n → delay_secs backoff n ≤ delay_secs backoff (n + 1))%Z.
Proof.
  intros Hb Hn. unfold delay_secs, TEN_MINUTES, SECOND, u64_saturating_mul. assert (Hp : ∀ k, (0 < 2 ^ Z.min k 10)%Z ∨ (k < 0)%Z).
  { intros k. destruct (decide (k < 0)%Z); [by right|left]. apply Z.pow_pos_nonneg; lia. }
  assert (0 ≤ Z.min (Z.min u64_max (backoff * 2 ^ Z.min (n - 1) 10)) 300 ≤ 300)%Z.
  { destruct (Hp (n - 1)%Z) as [?|?]; [unfold u64_max in *; nia|]. rewrite Z.pow_neg_r by lia. unfold u64_max in *. lia. }
  destruct (Z.eqb_spec n 0) as [->|Hne]; [split_and!; lia|]. split_and!; try lia.
  - intros ? ?. unfold u64_max. lia.
  - intros Hpos. rewrite (proj2 (Z.eqb_neq (n + 1) 0)) by lia. apply Z.min_le_compat_r, Z.min_le_compat_l, Z.mul_le_mono_nonneg_l; [lia|].
    apply Z.pow_le_mono_r; lia.
Qed.
