(* ===== verification/ClaimRender.v ===== *)
(** * Rendering a claimed step

    [crates/stroem-server/src/web/worker_api/rendering.rs]: the input, the
    action spec and the image a worker gets with a claim. The input is
    rendered from the flow step, filled from the job's input by the persisted
    schema, and prepared by role. *)
From S2P Require Import Prelude Json Text Lines Utf8 Template TemplateError GitRef Workflow FileField InputFiles Errors Engine JsonField TypedInput Connections Db RenderContext Server.

(** A borrowed config: the address it is at, and what is there. *)
Definition ConfigRef : Type := N * WorkspaceConfig.

Record PrepareContext := mkPrepare {
  pc_workspace : ConfigRef;
  pc_task_name : string;
  pc_step : JobStepRow;
  pc_job_input : option json;
  pc_action_workspace : option ConfigRef;
  pc_action_workspace_name : option string;
  pc_lookup : WorkspaceLookup;
  pc_input_schema : option (gmap string InputFieldDef);
  pc_files : JobFiles;
}.

Definition OLD_WORKER_INPUTS : string := "this step has file inputs, which the worker does not support; upgrade the worker".

Definition inputs_root (action_type : string) (runner inputs_dir : option string) : option string :=
  let is_container (s : string) := (s ==? "docker") || (s ==? "pod") in
  if is_container action_type || match runner with Some r => is_container r | None => false end
  then Some CANONICAL_INPUTS_ROOT else inputs_dir.

Definition withheld_owner_error (action_name owner : string) : string :=
  "rendering action '" +:+ action_name +:+ "' of workspace '" +:+ owner +:+ "' failed; details withheld".

Definition is_owner_side_prepare_error (e : AnyError) : bool := bool_decide (downcast as_provenance e = Some ActionDefault).

Definition UNREADABLE_INPUT_SCHEMA : string := "the step's persisted action definition has an unreadable input schema".

Definition step_input_schema `{TextForms} (step : JobStepRow) : result AnyError (option (gmap string InputFieldDef)) :=
  match js_action_spec step with
  | None => Ok None
  | Some spec =>
      match json_get "input" spec with
      | None | Some JNull => Ok None
      | Some v => res_map_err (λ _, [LMsg UNREADABLE_INPUT_SCHEMA]) (res_map Some (schema_from_value v))
      end
  end.

(** The flow step of a row; of a loop instance, its source's. *)
Definition flow_step_of (prep : PrepareContext) : option FlowStep :=
  task ← tasks (pc_workspace prep).2 !! pc_task_name prep;
  match flow task !! js_step_name (pc_step prep) with
  | Some fs => Some fs
  | None => src ← js_loop_source (pc_step prep); flow task !! src
  end.

(** ** Missing fields *)

(** The id of the file a job value names; [None] for a blank one. *)
Definition file_target (field : string) (val : json) (files : JobFiles) : result FileInputError (option string) :=
  let cannot_use := Err (mkFileInputError field CannotUse) in
  match val with
  | JString s =>
      let text := trim s in
      if text ==? "" then Ok None
      else match resolve_target files text with Some f => Ok (Some (fr_file_id f)) | None => cannot_use end
  | _ => cannot_use
  end.

(** The file a job value attaches to a field that is not a [file], and its path. *)
Definition as_path (files : JobFiles) (field : string) (is_file : bool) (val : json) : option (FileRef * string) :=
  f ← field_file files field;
  if negb is_file && bool_decide (as_str val = Some (fr_file_id f))
  then path ← path_of files (fr_file_id f); Some (f, path) else None.

(** A path this merge wrote under another root. *)
Definition is_stale (persisted : bool) (p : option (FileRef * string)) (existing : json) : bool :=
  match p, existing with
  | Some (f, path), JString s =>
      persisted && (s <>? path) && starts_with "/" s && ends_with ("/" +:+ fr_file_id f +:+ "/" +:+ fr_safe_name f) s
  | _, _ => false
  end.

(** One field of [merge_missing_action_fields]. *)
Definition merge_field (job_map : jmap) (files : JobFiles) (persisted : bool) (field : string) (def : InputFieldDef) (old : option json)
    : result FileInputError Upd :=
  match json_map_lookup field job_map with
  | None | Some JNull => Ok Keep
  | Some val =>
      let is_file := field_type def ==? FILE_TYPE in
      let path := as_path files field is_file val in
      if match old with Some existing => negb (is_stale persisted path existing) | None => false end then Ok Keep
      else if is_file
      then let? id := file_target field val files in Ok (match id with Some id => Put (JString id) | None => Keep end)
      else Ok (Put (match path with Some (_, p) => JString p | None => val end))
  end.

Definition merge_missing_action_fields `{HashIter} (input_val : json) (job_input : option json)
    (action_schema : gmap string InputFieldDef) (files : JobFiles) (persisted : bool) : result FileInputError json :=
  match job_input, input_val with
  | Some (JObject job_map), JObject input_obj =>
      res_map JObject (per_field (merge_field job_map files persisted) (hash_iter action_schema) input_obj)
  | _, _ => Ok input_val
  end.

(** ** The claim's input *)

Section claim.
Context `{Tera, JsonParser, HashIter, Unicode}.

Definition render_step_input (context : RenderContext) (prep : PrepareContext) : result AnyError (option json) :=
  match flow_step_of prep with
  | None => Ok (js_input (pc_step prep))
  | Some fs =>
      if bool_decide (fs_input fs = ∅) then Ok (js_input (pc_step prep))
      else
        ctx (LMsg "Failed to render step input template")
          (res_map Some (render_input_typed_with_files (fs_input fs) (pc_input_schema prep) (rc_value context) (pc_files prep)))
  end.

(** The owner of the step's action; one that is not loaded is an error. *)
Definition action_owner_role (prep : PrepareContext) : result AnyError (option RoleConfig) :=
  match pc_action_workspace_name prep, pc_action_workspace prep with
  | Some workspace, Some (addr, config) => Ok (Some (mkRole workspace addr config))
  | Some owner_name, None =>
      Err [LMsg "Failed to prepare action input"; LMsg ("action owner: workspace '" +:+ owner_name +:+ "' is not available")]
  | None, _ => Ok None
  end.

Definition prepare_step_action_input (rendered_input : option json) (prep : PrepareContext) : result AnyError (option json) :=
  match flow_step_of prep with
  | None => Ok rendered_input
  | Some fs =>
      let persisted := bool_decide (fs_input fs = ∅) in
      match pc_input_schema prep with
      | None => Ok rendered_input
      | Some schema =>
          if bool_decide (schema = ∅) then Ok rendered_input
          else
            let input_val := default (JObject []) rendered_input in
            let? input_val :=
              ctx (LMsg "Failed to prepare action input")
                (res_map_err (λ e, [LFile e])
                   (merge_missing_action_fields input_val (pc_job_input prep) schema (pc_files prep) persisted)) in
            let? owner := action_owner_role prep in
            let caller := mkRole (local_name (pc_lookup prep)) (pc_workspace prep).1 (pc_workspace prep).2 in
            ctx (LMsg "Failed to prepare action input")
              (res_map Some (prepare_action_input_roles input_val schema (mkRoles caller owner None (pc_lookup prep))))
      end
  end.

(** ** The action spec and the image *)

(** A string field rendered in place. *)
Definition render_text_field (key what : string) (context : json) (spec : jmap) : result AnyError jmap :=
  match json_map_lookup key spec with
  | Some (JString s) =>
      let? rendered := ctx (LMsg what) (render_string_opt (Some s) context) in
      Ok (match rendered with Some r => json_map_insert key (JString r) spec | None => spec end)
  | _ => Ok spec
  end.

(** Every string of a field rendered in place. *)
Definition render_tree_field (key what : string) (context : json) (spec : jmap) : result AnyError jmap :=
  match json_map_lookup key spec with
  | Some v => let? rendered := ctx (LMsg what) (render_json_strings v context) in Ok (json_map_insert key rendered spec)
  | None => Ok spec
  end.

Definition env_strings (env_obj : jmap) : gmap string string :=
  list_to_map (omap (λ p, s ← as_str p.2; Some (p.1, s)) env_obj).

Definition render_env_field (context : json) (spec : jmap) : result AnyError jmap :=
  match json_map_lookup "env" spec with
  | Some (JObject env_obj) =>
      let? rendered_env := ctx (LMsg "Failed to render env template") (render_env_map (env_strings env_obj) context) in
      Ok (json_map_insert "env" (object_of (JString <$> rendered_env)) spec)
  | _ => Ok spec
  end.

Definition render_action_spec (action_spec : option json) (context : RenderContext) : result AnyError (option json) :=
  match action_spec with
  | None => Ok None
  | Some (JObject spec) =>
      let c := rc_value context in
      let? spec := render_env_field c spec in
      let? spec := render_text_field "cmd" "Failed to render cmd template" c spec in
      let? spec := render_text_field "script" "Failed to render script template" c spec in
      let? spec := render_text_field "source" "Failed to render source template" c spec in
      let? spec := render_tree_field "manifest" "Failed to render manifest template" c spec in
      let? spec := render_tree_field "args" "Failed to render args templates" c spec in
      Ok (Some (JObject spec))
  | Some original => Ok (Some original)
  end.

Definition render_image (image : option string) (context : RenderContext) : result AnyError (option string) :=
  match image with
  | None => Ok None
  | Some s =>
      if negb (str_contains "{{" s) then Ok (Some s)
      else ctx (LMsg "Failed to render image template") (render_string_opt (Some s) (rc_value context))
  end.
End claim.

(** ** Properties of a claim's input

    What the merge of the job's input does to each field, that a step claimed
    again under another inputs root gets the paths of that root, and that an
    error a caller may read does not depend on the owner's secrets. *)

(** ** The merge, field by field *)

Section merge.
Context `{HashIter}.

Lemma per_field_err {E D} (g : string → D → option json → result E Upd) fields m e :
  NoDup fields.*1 → per_field g fields m = Err e → ∃ k d, (k, d) ∈ fields ∧ g k d (json_map_lookup k m) = Err e.
Proof.
  revert m. induction fields as [|[k d] rest IH]; simpl; intros m Hnd; [done|]. apply NoDup_cons in Hnd as [Hk Hnd].
  destruct (g k d _) as [u|e'] eqn:Eg; [|intros [= ->]; exists k, d; split; [by left|done]].
  intros (j & d' & Hin & He)%IH; [|done]. exists j, d'. split; [by right|]. rewrite apply_upd_lookup_ne in He; [done|].
  intros <-. destruct Hk. apply list_elem_of_fmap. by exists (k, d').
Qed.

Lemma NoDup_schema (schema : gmap string InputFieldDef) : NoDup (hash_iter schema).*1.
Proof. rewrite hash_iter_perm. apply NoDup_fst_map_to_list. Qed.

Lemma not_in_schema (schema : gmap string InputFieldDef) k : schema !! k = None → k ∉ (hash_iter schema).*1.
Proof. intros Hk ([? d] & -> & Hin)%list_elem_of_fmap. apply elem_of_hash_iter in Hin. simpl in Hk. congruence. Qed.

(** What the merge made of a field, as the update of that field. *)
Lemma merge_lookup m job schema jf p out :
  sorted_map m → merge_missing_action_fields (JObject m) (Some (JObject job)) schema jf p = Ok out →
  ∃ m', out = JObject m' ∧ sorted_map m' ∧ ∀ k,
    match schema !! k with
    | Some def => ∃ u, merge_field job jf p k def (json_map_lookup k m) = Ok u ∧ json_map_lookup k m' = upd_value u (json_map_lookup k m)
    | None => json_map_lookup k m' = json_map_lookup k m
    end.
Proof.
  intros Hs. simpl. destruct (per_field _ _ _) as [m'|] eqn:E; [|done]. intros [= <-]. exists m'. split; [done|].
  apply per_field_ok in E as [Hs' Hd]; [|apply NoDup_schema|done]. split; [done|]. intros k. destruct (Hd k) as [H1 H2].
  destruct (schema !! k) as [def|] eqn:Ek; [|by apply H2, not_in_schema]. apply H1, elem_of_hash_iter, Ek.
Qed.

Lemma as_path_some jf k is_file val f p : files_wf jf →
  as_path jf k is_file val = Some (f, p) ↔
  is_file = false ∧ field_file jf k = Some f ∧ val = JString (fr_file_id f) ∧ p = ref_path (root jf) f.
Proof.
  intros Hwf. unfold as_path, path_of. split.
  - intros (f' & Hf & E)%bind_Some. destruct is_file; [done|]. simpl in E. case_bool_decide as Ev; [|done].
    apply bind_Some in E as (x & Hx & [= <- <-]). apply fmap_Some in Hx as (g & Hg & ->).
    unfold field_file in Hf. apply bind_Some in Hf as Hf2. destruct Hf2 as (id & Hid & Hfid). destruct (Hwf _ _ Hfid) as [Hsame _].
    rewrite Hsame in Hg. simplify_eq. destruct val; simplify_eq/=. done.
  - intros (-> & Hf & -> & ->). rewrite Hf. simpl. rewrite bool_decide_true by done.
    unfold field_file in Hf. apply bind_Some in Hf as (id & Hid & Hfid). destruct (Hwf _ _ Hfid) as [-> _]. by rewrite Hfid.
Qed.

Lemma file_target_ok k val jf o : file_target k val jf = Ok o →
  ∃ s, val = JString s ∧ (trim s = "" ∧ o = None ∨ ∃ f, resolve_target jf (trim s) = Some f ∧ o = Some (fr_file_id f)).
Proof.
  destruct val as [| | |s| |]; try done. unfold file_target. intros E. exists s. split; [done|]. case_bool_decide; [left; by simplify_eq|].
  destruct (resolve_target _ _); simplify_eq. right. eauto.
Qed.

(** The field of a value the job has. *)
Definition merge_value (jf : JobFiles) (p : bool) (k : string) (def : InputFieldDef) (val : json) (old : option json) : result FileInputError Upd :=
  let is_file := field_type def ==? FILE_TYPE in
  let path := as_path jf k is_file val in
  if match old with Some existing => negb (is_stale p path existing) | None => false end then Ok Keep
  else if is_file
  then let? id := file_target k val jf in Ok (match id with Some id => Put (JString id) | None => Keep end)
  else Ok (Put (match path with Some (_, p) => JString p | None => val end)).

Lemma merge_field_value job jf p k def val old :
  json_map_lookup k job = Some val → val ≠ JNull → merge_field job jf p k def old = merge_value jf p k def val old.
Proof. unfold merge_field. intros ->. by destruct val. Qed.

Lemma merge_field_absent job jf p k def old :
  json_map_lookup k job = None ∨ json_map_lookup k job = Some JNull → merge_field job jf p k def old = Ok Keep.
Proof. unfold merge_field. by intros [-> | ->]. Qed.

Lemma null_or_not (val : json) : val = JNull ∨ val ≠ JNull.
Proof. destruct val; eauto. Qed.

Lemma is_stale_some p path x : is_stale p path x = true → p = true ∧ is_Some path.
Proof. destruct path as [[f q]|], x; try done. simpl. intros E. repeat (apply andb_true_iff in E as [E ?]). eauto. Qed.

Lemma as_path_file jf k val : as_path jf k true val = None.
Proof. unfold as_path. by destruct (field_file jf k). Qed.

(** An error is about an unset [file] field. *)
Lemma merge_field_err job jf p k def old e : merge_field job jf p k def old = Err e →
  ∃ val, json_map_lookup k job = Some val ∧ val ≠ JNull ∧ field_type def = FILE_TYPE ∧ old = None ∧ file_target k val jf = Err e.
Proof.
  intros E. destruct (json_map_lookup k job) as [val|] eqn:Ej; [|by rewrite merge_field_absent in E by auto].
  assert (Hn : val ≠ JNull) by (intros ->; by rewrite merge_field_absent in E by auto).
  rewrite (merge_field_value _ _ _ _ _ _ _ Ej Hn) in E. unfold merge_value in E. exists val.
  destruct old as [x|].
  - destruct (is_stale _ _ _) eqn:Es; simpl in E; [|done]. apply is_stale_some in Es as [_ [? Hp]]. case_bool_decide; [|done].
    by rewrite as_path_file in Hp.
  - case_bool_decide as Ef; [|done]. destruct (file_target k val jf); simplify_eq/=. done.
Qed.

Lemma file_target_err k val jf e : file_target k val jf = Err e →
  e = mkFileInputError k CannotUse ∧ ∀ s, val = JString s → trim s ≠ "" ∧ resolve_target jf (trim s) = None.
Proof.
  destruct val as [| | |s| |]; simpl; try (intros [= <-]; split; [done|naive_solver]). case_bool_decide; [done|].
  destruct (resolve_target jf (trim s)) eqn:Er; [done|]. intros [= <-]. split; [done|]. intros ? [= <-]. done.
Qed.

(** A path to the file attached to this field, in the input an earlier claim
    left in the row ([p]): the job's value is the id of that file, and the text
    is an absolute path that ends with the id and the name of the file. *)
Definition written_path (p : bool) (job : jmap) (schema : gmap string InputFieldDef) (jf : JobFiles) (k : string) (x : json) (f : FileRef) : Prop :=
  p = true ∧ (∃ def, schema !! k = Some def ∧ field_type def ≠ "file") ∧ field_file jf k = Some f ∧
  json_map_lookup k job = Some (JString (fr_file_id f)) ∧
  ∃ s, x = JString s ∧ starts_with "/" s = true ∧ ends_with ("/" +:+ fr_file_id f +:+ "/" +:+ fr_safe_name f) s = true.

(** What the merge makes of a field that is set. *)
Lemma merge_value_set jf p k def val old u job schema : files_wf jf → schema !! k = Some def → json_map_lookup k job = Some val → val ≠ JNull →
  merge_value jf p k def val (Some old) = Ok u →
  ((∀ f, ¬ written_path p job schema jf k old f) → upd_value u (Some old) = Some old) ∧
  (∀ f, written_path p job schema jf k old f → upd_value u (Some old) = Some (JString (ref_path (root jf) f))).
Proof.
  intros Hwf Hk Ej Hn Hu. unfold merge_value in Hu. destruct (as_path jf k (field_type def ==? FILE_TYPE) val) as [[g q]|] eqn:Ea.
  - apply as_path_some in Ea as (Hf & Hg & -> & ->); [|done]. rewrite Hf in Hu. apply bool_decide_eq_false in Hf.
    destruct (is_stale p (Some (g, ref_path (root jf) g)) old) eqn:Es; simpl in Hu; simplify_eq; cbn [upd_value].
    + split; [|intros f (_ & _ & Hff & _); congruence]. destruct old as [| | |s| |]; try done. cbn [is_stale] in Es.
      rewrite !andb_true_iff in Es. destruct Es as [[[? ?] ?] ?]. intros Hnot. destruct (Hnot g). split_and!; [done|by exists def|done|done|by exists s].
    + split; [done|]. intros f (-> & _ & Hff & _ & s & -> & Hs1 & Hs2). rewrite Hg in Hff. simplify_eq. cbn [is_stale] in Es. rewrite Hs1, Hs2 in Es.
      rewrite !andb_true_r in Es. simpl in Es. apply negb_false_iff, bool_decide_eq_true in Es. by rewrite Es.
  - simpl in Hu. simplify_eq. cbn [upd_value]. split; [done|]. intros f (_ & (d & Hd & Ht) & Hff & Hv & _). rewrite Hk in Hd. injection Hd as <-. rewrite Hv in Ej. injection Ej as <-.
    assert (Hx : as_path jf k (field_type def ==? FILE_TYPE) (JString (fr_file_id f)) = Some (f, ref_path (root jf) f))
      by (apply as_path_some; [done|]; split_and!; [by apply bool_decide_false|done..]). congruence.
Qed.

(** C35. A field the step's input does not set is taken from the job's input by
    the action's schema, and nothing else changes, but for one case: where the
    input was left in the row by an earlier claim, a path to the file attached
    to the field becomes the path under this claim's root. Any other value
    stays; so does a field the schema or the job's input does not have. An unset [file] field becomes the id of the file
    attached to the job that the value names, or stays unset for a blank
    value; any other unset field gets the job's value, or the path of the file
    under the claim's root when the value is the id attached to that field, so
    a script never gets a bare file id. The merge fails exactly on an unset
    [file] field whose job value is not blank and names no attached file. *)
Theorem merged_fields_exact m job schema jf p :
  sorted_map m → files_wf jf →
  match merge_missing_action_fields (JObject m) (Some (JObject job)) schema jf p with
  | Ok out => ∀ k,
      (∀ x, json_map_lookup k m = Some x →
         ((∀ f, ¬ written_path p job schema jf k x f) → json_get k out = Some x) ∧
         (∀ f, written_path p job schema jf k x f → json_get k out = Some (JString (ref_path (root jf) f)))) ∧
      (schema !! k = None ∨ json_map_lookup k job = None ∨ json_map_lookup k job = Some JNull → json_get k out = json_map_lookup k m) ∧
      ∀ def val, schema !! k = Some def → json_map_lookup k job = Some val → val ≠ JNull → json_map_lookup k m = None →
        if field_type def ==? FILE_TYPE
        then ∃ s, val = JString s ∧
               (trim s = "" ∧ json_get k out = None ∨
                ∃ f, resolve_target jf (trim s) = Some f ∧ json_get k out = Some (JString (fr_file_id f)))
        else json_get k out =
               Some (match field_file jf k with
                     | Some f => if as_str val ==? Some (fr_file_id f) then JString (ref_path (root jf) f) else val
                     | None => val
                     end)
  | Err e => ∃ k def val, schema !! k = Some def ∧ field_type def = FILE_TYPE ∧ json_map_lookup k m = None ∧
      json_map_lookup k job = Some val ∧ val ≠ JNull ∧ e = mkFileInputError k CannotUse ∧
      ∀ s, val = JString s → trim s ≠ "" ∧ resolve_target jf (trim s) = None
  end.
Proof.
  intros Hs Hwf. destruct (merge_missing_action_fields _ _ _ _ _) as [out|e] eqn:E.
  - apply merge_lookup in E as (m' & -> & _ & Hk); [|done]. intros k. specialize (Hk k). simpl. split_and!.
    + intros x Hx. destruct (schema !! k) as [def|] eqn:Esk.
      2:{ rewrite Hk. split; [done|]. intros f (_ & (d & Hd & _) & _). congruence. }
      destruct Hk as (u & Hu & ->). rewrite Hx in *.
      assert (Habs : json_map_lookup k job = None ∨ json_map_lookup k job = Some JNull → ∀ f, ¬ written_path p job schema jf k x f).
      { intros Ha f (_ & _ & _ & Hv & _). rewrite Hv in Ha. by destruct Ha. }
      destruct (json_map_lookup k job) as [val|] eqn:Ej.
      2:{ rewrite merge_field_absent in Hu by auto. simplify_eq. split; [done|]. intros f Hw. exfalso. by eapply Habs; [left|]. }
      destruct (null_or_not val) as [->|Hn].
      { rewrite merge_field_absent in Hu by auto. simplify_eq. split; [done|]. intros f Hw. exfalso. by eapply Habs; [right|]. }
      rewrite (merge_field_value _ _ _ _ _ _ _ Ej Hn) in Hu. by eapply (merge_value_set _ _ _ _ _ _ _ _ _ Hwf Esk Ej Hn).
    + destruct (schema !! k) as [def|]; [|done]. destruct Hk as (u & Hu & ->).
      intros [?|Ha]; [done|]. rewrite merge_field_absent in Hu by done. by simplify_eq.
    + intros def val Hsch Ej Hn Hm. rewrite Hsch in Hk. destruct Hk as (u & Hu & ->). rewrite Hm in *. rewrite (merge_field_value _ _ _ _ _ _ _ Ej Hn) in Hu.
      unfold merge_value in Hu. case_bool_decide as Ef.
      * destruct (file_target k val jf) as [o|] eqn:Et; simplify_eq/=. apply file_target_ok in Et as (s & -> & [[? ->]|(f & ? & ->)]); eauto 10.
      * simplify_eq/=. f_equal. destruct (as_path jf k false val) as [[f q]|] eqn:Ea.
        -- apply as_path_some in Ea as (_ & -> & -> & ->); [|done]. by rewrite bool_decide_true.
        -- destruct (field_file jf k) as [f|] eqn:Eff; [|done]. case_bool_decide as Ev; [|done]. destruct val as [| | |s| |]; simplify_eq/=.
           assert (Hx : as_path jf k false (JString (fr_file_id f)) = Some (f, ref_path (root jf) f)) by by apply as_path_some.
           congruence.
  - simpl in E. destruct (per_field _ _ _) as [?|e'] eqn:Ep; simplify_eq/=. apply per_field_err in Ep as (k & d & Hin & He); [|apply NoDup_schema].
    apply elem_of_hash_iter in Hin. apply merge_field_err in He as (val & ? & ? & ? & ? & [-> ?]%file_target_err). exists k, d, val. done.
Qed.

(** ** A second claim *)

Lemma ref_path_starts r f : starts_with "/" r = true → starts_with "/" (ref_path r f) = true.
Proof.
  unfold starts_with. destruct r as [|c r]; [done|]. intros Hr. change (ref_path (String c r) f) with (String c (ref_path r f)).
  cbn [String.prefix] in *. destruct (ascii_dec "/" c); [by destruct (ref_path r f)|done].
Qed.

Lemma str_drop_app (s t : string) : str_drop (String.length s) (s +:+ t) = t.
Proof. induction s; [done|]. done. Qed.

Lemma ends_with_app s t : ends_with t (s +:+ t) = true.
Proof.
  unfold ends_with. rewrite <-!length_bytes, bytes_app, length_app, !length_bytes. replace (_ + _ - _)%nat with (String.length s) by lia. rewrite str_drop_app.
  apply andb_true_iff. split; [apply Nat.leb_le; lia|by apply bool_decide_true].
Qed.

Definition attached_here (jf : JobFiles) (job : jmap) (k : string) (def : InputFieldDef) (f : FileRef) : bool :=
  (field_type def <>? FILE_TYPE) && bool_decide (field_file jf k = Some f) &&
  bool_decide ((json_map_lookup k job ≫= as_str) = Some (fr_file_id f)).

Lemma as_path_attached jf job k def val f q : files_wf jf → json_map_lookup k job = Some val →
  as_path jf k (field_type def ==? FILE_TYPE) val = Some (f, q) ↔ attached_here jf job k def f = true ∧ q = ref_path (root jf) f.
Proof.
  intros Hwf Ej. rewrite as_path_some by done. unfold attached_here. rewrite Ej. simpl.
  rewrite !andb_true_iff, negb_true_iff, !bool_decide_eq_true. destruct val; naive_solver.
Qed.

(** After a claim no stale path of its root is left. *)
Lemma merged_not_stale m job schema jf out k def val x :
  sorted_map m → files_wf jf → merge_missing_action_fields (JObject m) (Some (JObject job)) schema jf true = Ok out →
  schema !! k = Some def → json_map_lookup k job = Some val → val ≠ JNull → json_get k out = Some x →
  is_stale true (as_path jf k (field_type def ==? FILE_TYPE) val) x = false.
Proof.
  intros Hs Hwf E Hk Ej Hn Hx. apply merge_lookup in E as (m' & -> & _ & Hd); [|done]. specialize (Hd k). rewrite Hk in Hd.
  destruct Hd as (u & Hu & Hv). simpl in Hx. rewrite Hx in Hv. rewrite (merge_field_value _ _ _ _ _ _ _ Ej Hn) in Hu. unfold merge_value in Hu.
  destruct (as_path jf k (field_type def ==? FILE_TYPE) val) as [[f q]|] eqn:Ea; [|done].
  assert (Hf : (field_type def ==? FILE_TYPE) = false) by (apply as_path_some in Ea as [? _]; done).
  assert (Hq : is_stale true (Some (f, q)) (JString q) = false) by (simpl; by rewrite bool_decide_true).
  rewrite Hf in Hu. destruct (json_map_lookup k m) as [old|] eqn:Em.
  - destruct (is_stale true (Some (f, q)) old) eqn:Eo; simplify_eq/=; done.
  - by simplify_eq/=.
Qed.

(** An absolute path that ends with the file's. *)
Definition path_like (f : FileRef) (s : string) : bool :=
  starts_with "/" s && ends_with ("/" +:+ fr_file_id f +:+ "/" +:+ fr_safe_name f) s.

Lemma is_stale_string f q s : is_stale true (Some (f, q)) (JString s) = (s <>? q) && path_like f s.
Proof. unfold path_like. cbn [is_stale andb]. by rewrite andb_assoc. Qed.

Lemma path_like_ref r f : starts_with "/" r = true → path_like f (ref_path r f) = true.
Proof. intros Hr. unfold path_like. rewrite ref_path_starts by done. simpl. apply ends_with_app. Qed.

Lemma not_attached jf job k def : files_wf jf →
  json_map_lookup k job = None ∨ (∃ val, json_map_lookup k job = Some val ∧ as_path jf k (field_type def ==? FILE_TYPE) val = None) →
  ∀ f, attached_here jf job k def f = false.
Proof.
  intros Hwf Hj f. destruct (attached_here jf job k def f) eqn:E; [|done]. destruct Hj as [Hj|(val & Hj & Ha)].
  - unfold attached_here in E. rewrite Hj in E. by rewrite andb_false_r in E.
  - pose proof (as_path_attached jf job k def val f (ref_path (root jf) f) Hwf Hj) as [_ Hx]. rewrite Ha in Hx. by discriminate Hx.
Qed.

(** A field the first claim left unset is a blank [file] field. *)
Lemma merged_unset m job schema jf p m1 k def val :
  sorted_map m → merge_missing_action_fields (JObject m) (Some (JObject job)) schema jf p = Ok (JObject m1) →
  schema !! k = Some def → json_map_lookup k job = Some val → val ≠ JNull → json_map_lookup k m1 = None →
  field_type def = FILE_TYPE ∧ ∃ s, val = JString s ∧ trim s = "".
Proof.
  intros Hs (m1' & [= <-] & _ & Hd)%merge_lookup Hk Ej Hn Hnone; [|done]. specialize (Hd k). rewrite Hk in Hd. destruct Hd as (u & Hu & Hv).
  rewrite Hnone in Hv. rewrite (merge_field_value _ _ _ _ _ _ _ Ej Hn) in Hu. unfold merge_value in Hu.
  destruct (json_map_lookup k m) as [x|].
  { destruct (is_stale _ _ _) eqn:Es; simplify_eq/=. apply is_stale_some in Es as [_ [? Hp]].
    case_bool_decide; simplify_eq/=. by rewrite as_path_file in Hp. }
  case_bool_decide as Hf; [|by simplify_eq/=]. split; [done|]. destruct (file_target k val jf) as [[id|]|] eqn:Et; simplify_eq/=.
  apply file_target_ok in Et as (s & -> & [[? _]|(f & _ & ?)]); [eauto|done].
Qed.

(** What the second claim does to a field the job has a value for. *)
Lemma merge_value_again jf job k def val r1 r2 old :
  files_wf jf → starts_with "/" r1 = true → json_map_lookup k job = Some val →
  (old = None → field_type def = FILE_TYPE ∧ ∃ s, val = JString s ∧ trim s = "") →
  (∀ x, old = Some x → is_stale true (as_path (with_root jf r1) k (field_type def ==? FILE_TYPE) val) x = false) →
  ∃ u, merge_value (with_root jf r2) true k def val old = Ok u ∧
    upd_value u old =
      match field_file jf k with
      | Some f => if attached_here jf job k def f && bool_decide ((old ≫= as_str) = Some (ref_path r1 f))
                  then Some (JString (ref_path r2 f)) else old
      | None => old
      end.
Proof.
  intros Hwf Hr1 Ej Hunset Hold. unfold merge_value. destruct old as [x|].
  2:{ destruct (Hunset eq_refl) as [Hf (s & -> & Hb)]. rewrite bool_decide_true by done. simpl. rewrite Hb. simpl.
      exists Keep. split; [done|]. destruct (field_file jf k); [|done]. by rewrite andb_false_r. }
  specialize (Hold x eq_refl). destruct (as_path (with_root jf r2) k (field_type def ==? FILE_TYPE) val) as [[f q]|] eqn:Ea.
  2:{ exists Keep. split; [by destruct x|]. destruct (field_file jf k) as [f|]; [|done].
      change (attached_here jf job k def f) with (attached_here (with_root jf r2) job k def f). by rewrite (not_attached (with_root jf r2) job k def) by eauto. }
  pose proof Ea as [Hat ->]%(as_path_attached (with_root jf r2) job); [|done..].
  assert (Ea1 : as_path (with_root jf r1) k (field_type def ==? FILE_TYPE) val = Some (f, ref_path r1 f)).
  { apply (as_path_attached (with_root jf r1) job); [done..|]. by split. }
  rewrite Ea1 in Hold. pose proof Ea as (Hty & Hff & _ & _)%as_path_some; [|done]. change (field_file jf k = Some f) in Hff. rewrite Hff.
  change (attached_here jf job k def f = true) in Hat. rewrite Hat, Hty. cbn [andb root with_root].
  destruct x as [| | |s| |]; try (exists Keep; split; [done|by rewrite bool_decide_false]). cbn [mbind option_bind as_str].
  rewrite is_stale_string in Hold |- *. destruct (decide (s = ref_path r1 f)) as [->|Hne].
  - rewrite (bool_decide_true (Some _ = Some _)) by done. rewrite path_like_ref by done. rewrite andb_true_r.
    destruct (decide (ref_path r1 f = ref_path r2 f)) as [E|E].
    + exists Keep. rewrite bool_decide_true by done. split; [done|]. simpl. by rewrite E.
    + exists (Put (JString (ref_path r2 f))). by rewrite bool_decide_false.
  - rewrite (bool_decide_false (Some _ = Some _)) by congruence. rewrite bool_decide_false in Hold by done. simpl in Hold.
    exists Keep. rewrite Hold, andb_false_r. done.
Qed.

(** A step with no [input:] that is claimed again, under another inputs root,
    gets the paths of that root: the second claim cannot fail on a file, it
    changes exactly the fields that hold the path the first claim wrote for
    the file attached to them, each to the same file's path under the new
    root, and keeps everything else. *)
Theorem reclaimed_paths_follow_root m job schema jf r1 r2 m1 :
  sorted_map m → files_wf jf → starts_with "/" r1 = true →
  merge_missing_action_fields (JObject m) (Some (JObject job)) schema (with_root jf r1) true = Ok (JObject m1) →
  ∃ m2, merge_missing_action_fields (JObject m1) (Some (JObject job)) schema (with_root jf r2) true = Ok (JObject m2) ∧
    ∀ k, json_map_lookup k m2 =
      match schema !! k, field_file jf k with
      | Some def, Some f =>
          if attached_here jf job k def f && bool_decide ((json_map_lookup k m1 ≫= as_str) = Some (ref_path r1 f))
          then Some (JString (ref_path r2 f)) else json_map_lookup k m1
      | _, _ => json_map_lookup k m1
      end.
Proof.
  intros Hs Hwf Hr1 E1. pose proof E1 as (m1' & [= <-] & Hs1 & _)%merge_lookup; [|done].
  assert (Hfield : ∀ k def, schema !! k = Some def → ∃ u, merge_field job (with_root jf r2) true k def (json_map_lookup k m1) = Ok u ∧
    upd_value u (json_map_lookup k m1) = match field_file jf k with
      | Some f => if attached_here jf job k def f && bool_decide ((json_map_lookup k m1 ≫= as_str) = Some (ref_path r1 f))
                  then Some (JString (ref_path r2 f)) else json_map_lookup k m1
      | None => json_map_lookup k m1 end).
  { intros k def Hk. destruct (json_map_lookup k job) as [val|] eqn:Ej; [destruct (null_or_not val) as [->|Hn]|].
    - rewrite merge_field_absent by auto. exists Keep. split; [done|]. destruct (field_file jf k); [|done].
      rewrite (not_attached jf job k def) by (first [exact Hwf|right; exists JNull; split; [done|unfold as_path; by destruct (field_file jf k), (_ ==? FILE_TYPE)]]). done.
    - rewrite (merge_field_value _ _ _ _ _ _ _ Ej Hn). apply merge_value_again; [done..| |].
      + intros Hnone. by eapply (merged_unset m job schema (with_root jf r1) true m1).
      + intros x Hx. by eapply (merged_not_stale m job schema (with_root jf r1) (JObject m1)).
    - rewrite merge_field_absent by auto. exists Keep. split; [done|]. destruct (field_file jf k); [|done].
      by rewrite (not_attached jf job k def) by auto. }
  destruct (per_field_succeeds (merge_field job (with_root jf r2) true) (hash_iter schema) m1 (NoDup_schema schema)) as [m2 E2].
  { intros k def Hin%elem_of_hash_iter. by destruct (Hfield k def Hin) as (u & -> & _). }
  assert (E2' : merge_missing_action_fields (JObject m1) (Some (JObject job)) schema (with_root jf r2) true = Ok (JObject m2)) by (simpl; by rewrite E2).
  exists m2. split; [done|]. apply merge_lookup in E2' as (m2' & [= <-] & _ & Hd); [|done]. intros k. specialize (Hd k).
  destruct (schema !! k) as [def|] eqn:Ek; [|done]. destruct Hd as (u & Hu & ->), (Hfield k def Ek) as (u' & Hu' & <-). congruence.
Qed.
End merge.

(** ** What a visible error depends on *)

(** The same types and connections; anything else may differ. *)
Definition same_connections (c c' : WorkspaceConfig) : Prop :=
  connection_types c = connection_types c' ∧ connections c = connections c'.

Definition same_lookup (l l' : Lookup) : Prop :=
  match l, l' with
  | Found c, Found c' => same_connections c c'
  | Unknown, Unknown | Unavailable, Unavailable => True
  | _, _ => False
  end.
Definition same_workspaces (l l' : WorkspaceLookup) : Prop := offline l = offline l' ∧ ∀ n, same_lookup (lk_get l n) (lk_get l' n).

(** The connections and types of a config are all resolution reads of it. *)
Definition same_scope (s s' : ResolveScope) : Prop :=
  same_workspaces (lookup s) (lookup s') ∧ schema_ws s = schema_ws s' ∧ value_ws s = value_ws s' ∧ fallback_ws s = fallback_ws s'.

Lemma same_canonical_type t ws l l' : same_workspaces l l' → canonical_type_ref t ws l = canonical_type_ref t ws l'.
Proof.
  intros Hl. unfold canonical_type_ref, found_config. pose proof (proj2 Hl ws) as Hn.
  destruct (lk_get l ws) as [c| |], (lk_get l' ws) as [c'| |]; try done. destruct Hn as [Ht _]. simpl. rewrite Ht. case_bool_decide; [done|].
  destruct (parse_qualified_ref t) as [[w|] item]; [|done]. pose proof (proj2 Hl w) as Hw.
  destruct (lk_get l w) as [d| |], (lk_get l' w) as [d'| |]; try done. destruct Hw as [Hw _]. by rewrite Hw.
Qed.

Lemma same_connection_ref r s s' : same_scope s s' → resolve_connection_ref r s = resolve_connection_ref r s'.
Proof.
  intros (Hl & _ & Hv & Hf). unfold resolve_connection_ref, resolve_fallback. rewrite Hv, Hf, (proj1 Hl).
  pose proof (proj2 Hl (value_ws s')) as Hn.
  destruct (lk_get (lookup s) _) as [c| |], (lk_get (lookup s') _) as [c'| |]; try done. destruct Hn as [_ Hc]. rewrite Hc.
  destruct (connections c' !! r); [done|]. destruct (parse_qualified_ref r) as [[w|] item].
  - pose proof (proj2 Hl w) as Hw. destruct (lk_get (lookup s) w) as [d| |], (lk_get (lookup s') w) as [d'| |]; try done.
    destruct Hw as [_ Hw]. by rewrite Hw.
  - destruct (fallback_ws s') as [fb|]; [|done]. case_bool_decide; [done|]. pose proof (proj2 Hl fb) as Hw.
    destruct (lk_get (lookup s) fb) as [d| |], (lk_get (lookup s') fb) as [d'| |]; try done. destruct Hw as [_ Hw]. by rewrite Hw.
Qed.

Section visible.
Context `{HashIter}.

Lemma same_connection_values s s' k ct r : same_scope s s' → connection_values s k ct r = connection_values s' k ct r.
Proof.
  intros (Hl & _). unfold connection_values. destruct (connection_type (rcn_def r)) as [t|]; [|done].
  rewrite (same_canonical_type _ _ _ _ Hl). destruct (canonical_type_ref _ _ _) as [cct|]; [|done]. simpl.
  case_bool_decide; [|done]. simpl. case_bool_decide; [done|]. simpl. unfold found_config. pose proof (proj2 Hl (ct_workspace cct)) as Hw.
  destruct (lk_get (lookup s) _) as [d| |], (lk_get (lookup s') _) as [d'| |]; try done. destruct Hw as [Hw _]. simpl. by rewrite Hw.
Qed.

Lemma same_field s s' k def v : same_scope s s' → resolve_field s k def v = resolve_field s' k def v.
Proof.
  intros Hs. pose proof Hs as (Hl & Hw & _). unfold resolve_field. destruct (is_primitive def); [done|]. destruct v as [[| | |n| |]|]; try done.
  rewrite (same_canonical_type _ _ _ _ Hl), Hw, (same_connection_ref n s s' Hs). destruct (canonical_type_ref _ _ _); [|done]. simpl.
  destruct (resolve_connection_ref n s'); [|done]. by rewrite (same_connection_values s s').
Qed.

Lemma same_inputs s s' input schema : same_scope s s' →
  resolve_connection_inputs_scoped input schema s = resolve_connection_inputs_scoped input schema s'.
Proof.
  intros Hs. unfold resolve_connection_inputs_scoped. f_equal. generalize (entries input). induction (hash_iter schema) as [|[k d] l IH]; intros m; [done|].
  simpl. rewrite (same_field s s') by done. destruct (resolve_field s' _ _ _); [apply IH|done].
Qed.

Definition same_role (r r' : RoleConfig) : Prop :=
  rl_workspace r = rl_workspace r' ∧ rl_addr r = rl_addr r' ∧ same_connections (rl_config r) (rl_config r').

Lemma same_connections_refl c : same_connections c c.
Proof. done. Qed.

Lemma same_lookup_refl l : same_lookup l l.
Proof. by destruct l. Qed.

Lemma same_bucket_scope v v' r r' o : same_role v v' → same_role r r' → same_scope (bucket_scope v r o) (bucket_scope v' r' o).
Proof.
  intros (Hw & Ha & Hc) (Hw' & Ha' & Hc'). unfold bucket_scope, same_scope, same_workspaces. rewrite Hw, Hw', Ha, Ha'.
  case_bool_decide; simpl; split_and!; try done; intros n.
  - case_bool_decide; [|apply same_lookup_refl]. simpl. case_match; [done|]. destruct Hc as [E1 E2], Hc' as [E3 E4].
    unfold same_connections. simpl. by rewrite E1, E2, E3, E4.
  - case_bool_decide; [done|]. case_bool_decide; [done|apply same_lookup_refl].
Qed.
End visible.

Section prepare.
Context `{Tera, JsonParser, HashIter, Unicode}.

(** The owner's config with other secrets. *)
Definition with_owner (c : ConfigRef) (prep : PrepareContext) : PrepareContext :=
  mkPrepare (pc_workspace prep) (pc_task_name prep) (pc_step prep) (pc_job_input prep) (Some c)
    (pc_action_workspace_name prep) (pc_lookup prep) (pc_input_schema prep) (pc_files prep).

(** An error of the preparation that is not withheld from the caller does not
    depend on anything of the owner's config but its connections and their
    types: with other secrets in the owner's config the very same error is
    shown. *)
Theorem visible_prepare_error_secret_free a c c' rendered prep e :
  same_connections c c' →
  prepare_step_action_input rendered (with_owner (a, c) prep) = Err e → is_owner_side_prepare_error e = false →
  prepare_step_action_input rendered (with_owner (a, c') prep) = Err e.
Proof.
  intros Hc. unfold prepare_step_action_input. change (flow_step_of (with_owner ?x prep)) with (flow_step_of prep).
  destruct (flow_step_of prep) as [fs|]; [|done]. cbn [pc_input_schema with_owner pc_job_input pc_files pc_workspace pc_lookup].
  destruct (pc_input_schema prep) as [schema|]; [|done]. case_bool_decide; [done|].
  destruct (merge_missing_action_fields _ _ _ _ _) as [input|fe]; [|done]. cbn [res_map_err ctx res_bind].
  unfold action_owner_role. cbn [pc_action_workspace_name with_owner pc_action_workspace].
  destruct (pc_action_workspace_name prep) as [owner|]; [|done]. cbn [res_bind].
  set (cl := mkRole _ _ _). unfold prepare_action_input_roles. cbn [caller action_owner others default].
  assert (Hb : ∀ i, resolve_bucket_by_role i schema cl (mkRole owner a c) (pc_lookup prep) = resolve_bucket_by_role i schema cl (mkRole owner a c') (pc_lookup prep)).
  { intros i. by apply same_inputs, same_bucket_scope. }
  rewrite Hb. destruct (resolve_bucket_by_role _ _ cl _ _) as [r|e1]; cbn [res_bind res_map res_map_err ctx]; [|done].
  destruct (merge_action_defaults r schema _) as [d|e2]; cbn [res_bind res_map res_map_err ctx].
  - destruct (resolve_bucket_by_role d _ _ _ _) as [d'|e3]; cbn [res_map res_map_err ctx]; [done|]. by intros [= <-].
  - by intros [= <-].
Qed.

(** An owner whose config is not loaded is an error wherever the input would
    have been prepared: the caller's config never stands in for it. *)
Lemma unloaded_owner_fails rendered prep owner fs schema :
  flow_step_of prep = Some fs → pc_input_schema prep = Some schema → schema ≠ ∅ →
  pc_action_workspace_name prep = Some owner → pc_action_workspace prep = None →
  is_ok (prepare_step_action_input rendered prep) = false.
Proof.
  intros Hf Hs Hne Hn Ha. unfold prepare_step_action_input, action_owner_role. rewrite Hf, Hs, Hn, Ha, bool_decide_false by done.
  by destruct (merge_missing_action_fields _ _ _ _ _).
Qed.
End prepare.
