(* ===== verification/WorkerApi.v ===== *)
(** * The worker's interface

    [crates/stroem-server/src/web/worker_api/jobs.rs]: registration, the claim
    of a step with the configurations it is rendered with, and the reports a
    worker sends back. [input_schema_to_json_schema] is of
    [crates/stroem-agent/src/tools.rs]. A handler answers, or the worker has
    hung up; statements commit one by one. *)
From S2P Require Import Prelude Json Text Lines Utf8 Template TemplateError GitRef Workflow JobModel Gate Db StepRepo StepRepoProps JobRepo WorkerRepo Pins FileField InputFiles Errors Engine JsonField TypedInput Connections WorkspaceSet RenderContext Refs Manager Cascade CascadeApply Settle Retry Terminal Redact Settlement Server ClaimRender.

Definition KNOWN_ABILITIES : list string := ["script"; "docker"; "kubernetes"; "agent"].
Definition known_ability (t : string) : bool := bool_decide (t ∈ KNOWN_ABILITIES).
Definition MAX_PIN_RELEASES : Z := 30.
Definition PIN_RELEASE_RETRY_SECS : Z := 10.
Definition INPUT_FILES_UNREADABLE : string := "could not load the job's input files".

(** ["{KNOWN_ABILITIES:?}"] *)
Definition abilities_debug : string :=
  let q (s : string) := of_bytes [quote] +:+ s +:+ of_bytes [quote] in "[" +:+ str_join ", " (q <$> KNOWN_ABILITIES) +:+ "]".
Definition unknown_capability (c : string) : string := "unknown capability '" +:+ c +:+ "'. Known: " +:+ abilities_debug.

Record RegisterRequest := mkRegister {
  rg_name : string; rg_capabilities : list string; rg_tags : list string; rg_exclusive : bool; rg_version : option string;
}.
Record ClaimRequest := mkClaimRequest {
  rq_worker_id : string; rq_capabilities : list string; rq_tags : list string; rq_exclusive : bool; rq_inputs_dir : option string;
}.

(** Abilities out of the tags of an old worker, each once. *)
Definition push_new (l : list string) (t : string) : list string := if bool_decide (t ∈ l) then l else l ++ [t].
Definition split_legacy_tags (capabilities tags : list string) : list string * list string * bool :=
  if negb (bool_decide (capabilities = [])) then (capabilities, tags, false)
  else if negb (existsb known_ability tags) then (capabilities, tags, false)
  else (fold_left push_new (List.filter known_ability tags) [], List.filter (λ t, negb (known_ability t)) tags, true).
Definition migrate_legacy_register (req : RegisterRequest) := split_legacy_tags (rg_capabilities req) (rg_tags req).
Definition migrate_legacy_claim (req : ClaimRequest) := split_legacy_tags (rq_capabilities req) (rq_tags req).

(** ** Registration and heartbeats *)

(** [worker_id] is the fresh id. *)
Definition register_worker (now : Time) (worker_id : Uuid) (req : RegisterRequest) (db : Db) : Db * result AppError Uuid :=
  let '(capabilities, tags, _) := migrate_legacy_register req in
  if bool_decide (capabilities = [])
  then (db, Err (BadRequest "worker registration requires at least one capability (script, docker, kubernetes, agent)"))
  else match List.find (λ c, negb (known_ability c)) capabilities with
  | Some c => (db, Err (BadRequest (unknown_capability c)))
  | None =>
      match List.find known_ability tags with
      | Some t => (db, Err (BadRequest ("`tags` entry '" +:+ t +:+ "' is an ability token, not a taint label. Move it into `capabilities`.")))
      | None =>
          match register now worker_id (rg_name req) capabilities tags (rg_exclusive req) (rg_version req) db with
          | Ok db' => (db', Ok worker_id)
          | Err e => (db, Err (InternalError [LMsg "register worker"; LMsg e]))
          end
      end
  end.

Definition worker_heartbeat (parse_uuid : string → option Uuid) (now : Time) (worker_id : string) (db : Db) : Db * result AppError unit :=
  match parse_uuid worker_id with
  | None => (db, Err (BadRequest "Invalid worker ID"))
  | Some w => (heartbeat now w db, Ok ())
  end.

(** ** A task as a tool *)

Definition map_field_type (t : string) : option string * option string :=
  if (t ==? "string") || (t ==? "text") then (Some "string", None)
  else if t ==? "integer" then (Some "integer", None)
  else if t ==? "number" then (Some "number", None)
  else if t ==? "boolean" then (Some "boolean", None)
  else if t ==? "date" then (Some "string", Some "date")
  else if t ==? "datetime" then (Some "string", Some "date-time")
  else if t ==? JSON_TYPE then (None, None)
  else (Some "object", None).

Definition field_property (field : InputFieldDef) : json :=
  let '(json_type, format) := map_field_type (field_type field) in
  let is_json := field_type field ==? JSON_TYPE in
  let description :=
    match if_description field, is_json with
    | Some d, true => Some (d +:+ " Any JSON value.")
    | None, true => Some "Any JSON value."
    | Some d, false => Some d
    | None, false => None
    end in
  let entry (k : string) (o : option json) : list (string * json) := match o with Some v => [(k, v)] | None => [] end in
  json_obj (entry "type" (JString <$> json_type) ++ entry "format" (JString <$> format) ++ entry "description" (JString <$> description) ++
            entry "default" (if_default field) ++ entry "enum" ((λ l, JArray (JString <$> l)) <$> if_options field)).

Definition input_schema_to_json_schema `{HashIter} (input : gmap string InputFieldDef) : json :=
  if bool_decide (input = ∅) then json_obj [("type", JString "object"); ("properties", JObject [])]
  else
    let fields := List.filter (λ p, field_type p.2 <>? FILE_TYPE) (hash_iter input) in
    let required := (λ p, JString p.1) <$> List.filter (λ p, if_required p.2) fields in
    json_obj ([("type", JString "object"); ("properties", json_obj ((λ p, (p.1, field_property p.2)) <$> fields))] ++
              (if bool_decide (required = []) then [] else [("required", JArray required)])).

(** ** A claim *)

Record ClaimResponse := mkResponse {
  cl_workspace : string;
  cl_job_id : Uuid;
  cl_task_name : string;
  cl_step_name : string;
  cl_action_name : string;
  cl_action_type : string;
  cl_action_image : option string;
  cl_action_spec : option json;
  cl_input : option json;
  cl_runner : string;
  cl_timeout_secs : option Z;
  cl_revision : option string;
  cl_agent_provider_name : option string;
  cl_agent_prompt : option string;
  cl_agent_system_prompt : option string;
  cl_mcp_servers : option (gmap string McpServerDef);
  cl_agent_state : option json;
  cl_agent_tool_tasks : option json;
  cl_event_source_config : option json;
  cl_state_storage_key : option string;
  cl_state_has_json : option bool;
  cl_global_state_storage_key : option string;
  cl_global_state_has_json : option bool;
  cl_input_files : list ClaimedInputFile;
}.

(** [NoWork] has every field unset; [Unprocessable] is a 422. *)
Inductive Response := NoWork | Work (r : ClaimResponse) | Unprocessable (error : string).

(** How a handler ends. *)
Inductive ClaimEnd := Reply (r : Response) | Refused (e : AppError) | HungUp | Panicked.

(** The settlement's state, the number of the next call to the workspaces and
    the lines of the job logs. *)
Record CState := mkCState { cs_srv : ServerState; cs_calls : nat; cs_log : list (Uuid * string) }.
Definition cs_db (s : CState) : Db := st_db (cs_srv s).
Definition cs_with_srv (srv : ServerState) (s : CState) : CState := mkCState srv (cs_calls s) (cs_log s).
Definition cs_with_db (db : Db) (s : CState) : CState := cs_with_srv (with_db db (cs_srv s)) s.

Definition K (A : Type) : Type := CState → CState * (ClaimEnd + A).
Definition kret {A} (a : A) : K A := λ s, (s, inr a).
Definition stop {A} (o : ClaimEnd) : K A := λ s, (s, inl o).
Definition kbind {A B} (m : K A) (k : A → K B) : K B := λ s,
  match m s with (s', inr a) => k a s' | (s', inl o) => (s', inl o) end.
Notation "'let^' x ':=' m 'in' k" := (kbind m (λ x, k)) (at level 10, x pattern, k at level 200) : stroem_scope.

Definition kread {A} (f : Db → A) : K A := λ s, (s, inr (f (cs_db s))).
Definition kupdate (f : Db → Db) : K unit := λ s, (cs_with_db (f (cs_db s)) s, inr ()).
Definition append_server_log (job_id : Uuid) (line : string) : K unit := λ s,
  (mkCState (cs_srv s) (cs_calls s) (cs_log s ++ [(job_id, line)]), inr ()).
Definition append_lines (job_id : Uuid) (lines : list string) : K unit := λ s,
  (mkCState (cs_srv s) (cs_calls s) (cs_log s ++ ((job_id,.) <$> lines)), inr ()).

(** A call to the workspaces. *)
Definition kask {A} (x : M A) : K (result AnyError A) := λ s,
  match x (mkSt ∅ (cs_calls s)) with
  | Ok (a, st) => (mkCState (cs_srv s) (calls st) (cs_log s), inr (Ok a))
  | Err e => (mkCState (cs_srv s) (cs_calls s + 100) (cs_log s), inr (Err e))
  end.

(** How the load of a pin ended, seen from the claim. *)
Inductive Load := InTime | TaskFailed (join : string) | OutOfTime.

(** What a claim meets: the clock, rows another claim has locked, the file
    tables and whether their read fails, the storage that is configured, the
    latest snapshots and what the archive has for a legacy one, the loads of
    pins, whether the worker is still there when they end, and what other
    sessions write in the meantime. *)
Record ClaimEnv := mkClaimEnv {
  ce_now : Time;
  ce_locked : Uuid * string → bool;
  ce_files : FileTables;
  ce_attachments_fail : bool;
  ce_input_blob : bool;
  ce_state_storage : bool;
  ce_snapshots : string → string → option string → Snapshots;
  ce_retrieve : string → option json;
  ce_load : string → PinRef → Load;
  ce_listening : bool;
  ce_others : Db → Db;
}.

Record ClaimFailure := mkFailure { cf_claim : ClaimIdentity; cf_pin_secrets : list string; cf_withheld : option string }.
Record ReleaseTexts := mkTexts { rt_what : string; rt_retrying : string; rt_cancelled : string; rt_cap_reached : string }.
Record ClaimConfigs := mkConfigs {
  cc_ws_handle : option ConfigHandle;
  cc_owner_handle : option ConfigHandle;
  cc_owner_is_job_config : bool;
  cc_pin_secrets : list string;
}.
Inductive ClaimSelection := Configs (c : ClaimConfigs) | Answered (o : ClaimEnd).

Class ActionValue := {
  parse_uuid : string → option Uuid;
  action_from_value : json → option ActionDef;
}.

Section claim.
Context `{AgentCodec, Collation, Tera, JsonParser, HashIter, Unicode, TextForms, Workspaces, RowPick, ActionValue}.
Context (sv : Services) (fuel : nat) (env : ClaimEnv).

Definition claim_redaction_values (ws_set : WorkspaceSet) (pin_secrets : list string) : list string :=
  collect_redaction_values ws_set ++ pin_secrets.

(** An orchestration that fails is logged. *)
Definition settle_claimed_failure (job_id : Uuid) (step_name shown : string) (claim : ClaimIdentity) : K unit := λ s,
  match claimed_step_failed sv fuel job_id step_name shown (Some claim) (cs_srv s) with
  | None => (s, inl Panicked)
  | Some (srv, _, line) => append_lines job_id (option_list line) (cs_with_srv srv s)
  end.

Definition fail_claimed_step (job_id : Uuid) (step_name error_msg : string) (ws_set : WorkspaceSet) (failure : ClaimFailure) : K ClaimEnd :=
  let scrubbed := mask_text error_msg (claim_redaction_values ws_set (cf_pin_secrets failure)) in
  let shown := default scrubbed (cf_withheld failure) in
  let^ _ := append_server_log job_id shown in
  let^ _ := settle_claimed_failure job_id step_name shown (cf_claim failure) in
  kret (Reply (Unprocessable shown)).

(** [sort] and [dedup] *)
Definition tidy (lines : list string) : list string := dedup (sort_strings lines).

Definition fail_claimed_step_with_collisions (job_id : Uuid) (step_name error_msg : string) (ws_set : WorkspaceSet) (failure : ClaimFailure)
    (collision_lines : list string) : K ClaimEnd :=
  let^ _ := append_lines job_id (tidy collision_lines) in
  fail_claimed_step job_id step_name error_msg ws_set failure.

Definition release_or_fail_claim (job_id : Uuid) (step_name : string) (ws_set : WorkspaceSet) (failure : ClaimFailure) (texts : ReleaseTexts)
    : K ClaimEnd := λ s,
  match release_claim (ce_now env) job_id step_name (cf_claim failure) (PIN_RELEASE_RETRY_SECS * 1000000)%Z MAX_PIN_RELEASES (cs_db s) with
  | Err e => (s, inr (Refused (InternalError [LMsg ("release claim after " +:+ rt_what texts); LMsg e])))
  | Ok (db, outcome) =>
      let s := cs_with_db db s in
      match outcome with
      | Released => (let^ _ := append_server_log job_id (rt_retrying texts) in kret (Reply NoWork)) s
      | ReleaseCancelled =>
          (let^ _ := append_server_log job_id (rt_cancelled texts) in
           λ s, (cs_with_srv (advance sv fuel job_id (cs_srv s)).1 s, inr (Reply NoWork))) s
      | CapReached => fail_claimed_step job_id step_name (rt_cap_reached texts) ws_set failure s
      | ReleaseNotApplied => (s, inr (Reply NoWork))
      end
  end.

Definition load_ws_set (name : string) (local : option WorkspaceConfig) : K WorkspaceSet :=
  let^ r := kask (load_set name local) in
  match r with Ok set => kret set | Err _ => stop Panicked end.

Definition pin_failure (job : JobRow) (step : JobStepRow) (ws : string) (pin : option PinRef) (failure : ClaimFailure) (err : AnyError)
    : K ClaimEnd :=
  let label := match pin with Some p => pin_label ws p | None => ws end in
  let^ ws_set := load_ws_set (j_workspace job) None in
  if negb (match downcast as_pin err with Some e => is_transient e | None => false end)
  then
    let msg := match pin with
               | Some p => cannot_be_loaded ws p err
               | None => "[pin] " +:+ label +:+ " cannot be loaded: " +:+ chain_text err
               end in
    fail_claimed_step (j_job_id job) (js_step_name step) msg ws_set failure
  else
    let detail := mask_text (chain_text err) (claim_redaction_values ws_set (cf_pin_secrets failure)) in
    release_or_fail_claim (j_job_id job) (js_step_name step) ws_set failure
      (mkTexts "pin failure"
         ("[pin] " +:+ label +:+ " not available yet on this server, retrying: " +:+ detail)
         ("[pin] " +:+ label +:+ " not available and the job was cancelled; step '" +:+ js_step_name step +:+ "' cancelled")
         ("[pin] " +:+ label +:+ " still unavailable after " +:+ pretty MAX_PIN_RELEASES +:+ " attempts: " +:+ detail)).

(** ** The configurations of a claim *)

Definition config_by_deadline (ws : string) (pin : option PinRef) : K (result AnyError (option ConfigHandle)) :=
  let unavailable message := kret (Err [LPin (PinUnavailable ws message)]) in
  match pin with
  | None => kask (config_for_user ws None)
  | Some p =>
      match ce_load env ws p with
      | InTime => kask (config_for_user ws (Some p))
      | TaskFailed join => unavailable ("the pin load task failed: " +:+ join)
      | OutOfTime => unavailable "its load did not finish within the claim budget (`pin_store.claim_load_budget_secs`) and goes on in the background"
      end
  end.

(** The values of a pin that was loaded. *)
Definition pin_values_of (ws : string) (h : option ConfigHandle) : K (list string) :=
  match h with
  | Some (PinnedAt pinned) =>
      let^ r := kask (pin_redaction_values ws pinned) in
      match r with Ok vs => kret vs | Err _ => stop Panicked end
  | _ => kret []
  end.

Definition owner_name (job : JobRow) (step : JobStepRow) : string := default (j_workspace job) (js_action_workspace step).

Definition owner_is_job_config (job : JobRow) (step : JobStepRow) : bool :=
  bool_decide (js_action_workspace step = None) ||
  ((owner_name job step ==? j_workspace job) && bool_decide (of_step_action step = of_job job)).

Definition answered (m : K ClaimEnd) : K ClaimSelection := let^ o := m in kret (Answered o).

Definition select_claim_configs (job : JobRow) (step : JobStepRow) (claim : ClaimIdentity) : K ClaimSelection :=
  let^ ws := config_by_deadline (j_workspace job) (of_job job) in
  match ws with
  | Err e => answered (pin_failure job step (j_workspace job) (of_job job) (mkFailure claim [] None) e)
  | Ok ws_handle =>
      let^ job_values := pin_values_of (j_workspace job) ws_handle in
      if owner_is_job_config job step then kret (Configs (mkConfigs ws_handle ws_handle true job_values))
      else
        let^ owner := config_by_deadline (owner_name job step) (of_step_action step) in
        match owner with
        | Err e => answered (pin_failure job step (owner_name job step) (of_step_action step) (mkFailure claim job_values None) e)
        | Ok owner_handle =>
            let^ owner_values := pin_values_of (owner_name job step) owner_handle in
            kret (Configs (mkConfigs ws_handle owner_handle false (job_values ++ owner_values)))
        end
  end.

(** In a task of its own: when nobody is left to receive the configurations,
    the claim is given back. *)
Definition select_pinned_claim_configs (job : JobRow) (step : JobStepRow) (claim : ClaimIdentity) : K ClaimSelection :=
  let^ selected := select_claim_configs job step claim in
  if ce_listening env then kret selected
  else
    match selected with
    | Answered _ => stop HungUp
    | Configs configs =>
        let '(ws, pin) := match of_step_action step with
                          | Some pin => (owner_name job step, Some pin)
                          | None => (j_workspace job, of_job job)
                          end in
        let lost := PinUnavailable ws "the claiming worker stopped waiting before its configuration loaded" in
        let^ _ := pin_failure job step ws pin (mkFailure claim (cc_pin_secrets configs) None) [LPin lost] in
        stop HungUp
    end.

(** ** The rendering of a claim *)

(** What a claim renders with. *)
Record ClaimView := mkClaimView {
  cv_request : ClaimRequest;
  cv_job : JobRow;
  cv_step : JobStepRow;
  cv_claim : ClaimIdentity;
  cv_configs : ClaimConfigs;
  cv_set : WorkspaceSet;
  cv_files : JobFiles;
  cv_snapshots : Snapshots;
  cv_steps : list JobStepRow;
}.

(** The error and the fixed sentence shown instead of it. *)
Definition R (A : Type) : Type := result (string * option string) A.

Definition owner_side_withheld (job : JobRow) (step : JobStepRow) : option string :=
  if owner_name job step ==? j_workspace job then None
  else Some (withheld_owner_error (js_action_name step) (owner_name job step)).

Definition secrets_of (h : option ConfigHandle) : gmap string json := match h with Some h => secrets (handle_config h) | None => ∅ end.

Definition claim_job_ctx (v : ClaimView) : JobContext :=
  mkJobContext (js_job_id (cv_step v)) (j_input (cv_job v)) (secrets_of (cc_ws_handle (cv_configs v)))
    (secrets_of (cc_owner_handle (cv_configs v))) (cv_snapshots v) (j_revision (cv_job v)) (j_git_ref (cv_job v)).
Definition claim_context (v : ClaimView) (scope : Scope) : RenderContext :=
  build (claim_job_ctx v) (views (cv_steps v)) (slot_of (cv_step v)) scope.

(** The job's config is at address 0; an owner's own at 1. *)
Definition claim_prepare (v : ClaimView) (ws : ConfigHandle) (schema : option (gmap string InputFieldDef)) : PrepareContext :=
  let step := cv_step v in
  let owner_addr := if cc_owner_is_job_config (cv_configs v) then 0%N else 1%N in
  mkPrepare (0%N, handle_config ws) (j_task_name (cv_job v)) step (j_input (cv_job v))
    (match js_action_workspace step with
     | Some _ => (λ h, (owner_addr, handle_config h)) <$> cc_owner_handle (cv_configs v)
     | None => None
     end)
    (js_action_workspace step) (set_lookup (cv_set v)) schema (cv_files v).

Definition render_claim_input (v : ClaimView) (schema : option (gmap string InputFieldDef)) : R (option json) :=
  match cc_ws_handle (cv_configs v) with
  | None => Ok (js_input (cv_step v))
  | Some ws =>
      let prep := claim_prepare v ws schema in
      let? raw := res_map_err (λ e, ("Failed to render step input template: " +:+ chain_text e, None))
                    (render_step_input (claim_context v StepInput) prep) in
      res_map_err (λ e, (chain_text e, if is_owner_side_prepare_error e then owner_side_withheld (cv_job v) (cv_step v) else None))
        (prepare_step_action_input raw prep)
  end.

Definition render_agent_prompts (action : option ActionDef) (context : json) : result AnyError (option string * option string) :=
  let field_ (name : string) (o : option string) : result AnyError (option string) :=
    match o with
    | Some t => res_map Some (ctx (LMsg ("Failed to render agent " +:+ name +:+ " template")) (render t context))
    | None => Ok None
    end in
  match action with
  | None => Ok (None, None)
  | Some a =>
      let? prompt := field_ "prompt" (a_prompt a) in
      let? system := field_ "system_prompt" (a_system_prompt a) in
      Ok (prompt, system)
  end.

Definition referenced_servers (tools : list AgentToolRef) : list string :=
  omap (λ t, match t with ToolMcp m => Some m | _ => None end) tools.
Definition mcp_servers_of (action : option ActionDef) (ws : option ConfigHandle) : option (gmap string McpServerDef) :=
  a ← action; h ← ws;
  let servers := filter (λ p, p.1 ∈ referenced_servers (a_tools a)) (mcp_servers (handle_config h)) in
  if bool_decide (servers = ∅) then None else Some servers.

Definition tool_entry (ws : WorkspaceConfig) (t : AgentToolRef) : option (string * json) :=
  match t with
  | ToolTask task _ =>
      (λ d, (task, json_obj [("description", json_opt_str (td_description d)); ("input", input_schema_to_json_schema (td_input d))])) <$>
      tasks ws !! task
  | ToolMcp _ => None
  end.
Definition tool_tasks_of (action : option ActionDef) (ws : option ConfigHandle) : option json :=
  a ← action; h ← ws;
  let tools := omap (tool_entry (handle_config h)) (a_tools a) in
  if bool_decide (tools.*1 = []) then None else Some (json_obj tools).

(** The agent's fields. *)
Record AgentFields := mkAgentFields {
  af_provider : option string; af_prompt : option string; af_system : option string;
  af_mcp : option (gmap string McpServerDef); af_state : option json; af_tools : option json;
}.
Definition agent_fields (v : ClaimView) (spec : option json) : R AgentFields :=
  if negb (js_action_type (cv_step v) ==? "agent") then Ok (mkAgentFields None None None None None None)
  else
    let action := spec ≫= action_from_value in
    let? (prompt, system) :=
      res_map_err (λ e, (chain_text e, None)) (render_agent_prompts action (rc_value (claim_context v AgentPrompt))) in
    let ws := cc_ws_handle (cv_configs v) in
    Ok (mkAgentFields (action ≫= a_provider) prompt system (mcp_servers_of action ws) (js_agent_state (cv_step v)) (tool_tasks_of action ws)).

(** The lines of the steps that shadow a variable, as far as rendering got. *)
Definition input_lines (v : ClaimView) : list string :=
  match cc_ws_handle (cv_configs v) with Some _ => log_lines (claim_context v StepInput) | None => [] end.
Definition body_scope (schema : option (gmap string InputFieldDef)) (input : option json) : Scope := ActionBody input schema.

Definition event_source_config_of (job : JobRow) : option json :=
  if j_source_type job ==? "event_source" then j_input job ≫= json_get "_event_source" else None.

(** ** The handler *)

Definition is_agent (step : JobStepRow) : bool := js_action_type step ==? "agent".

(** Legacy snapshots from the archive, for rendering. *)
Definition fill_snapshot (s : RenderContext.Snapshot) : RenderContext.Snapshot :=
  if sn_has_json s && negb (bool_decide (is_Some (sn_json s))) then RenderContext.mkSnapshot (sn_id s) (sn_storage_key s) (sn_has_json s) (ce_retrieve env (sn_storage_key s)) else s.
Definition claim_snapshots (job : JobRow) (files : JobFiles) : Snapshots :=
  let s := ce_snapshots env (j_workspace job) (j_task_name job) (j_git_ref job) in
  if ce_state_storage env then mkSnapshots (fill_snapshot <$> sn_task s) (fill_snapshot <$> sn_global s) files
  else mkSnapshots (sn_task s) (sn_global s) files.

Definition claim_root (req : ClaimRequest) (step : JobStepRow) : string :=
  default CANONICAL_INPUTS_ROOT (if is_agent step then None else inputs_root (js_action_type step) (Some (js_runner step)) (rq_inputs_dir req)).

Definition claim_response (v : ClaimView) (attachments : list JobInputFileRow) (input spec : option json) (image : option string)
    (a : AgentFields) : ClaimResponse :=
  let step := cv_step v in
  let job := cv_job v in
  let stored {A} (o : option A) : option A := if ce_state_storage env then o else None in
  mkResponse (owner_name job step) (js_job_id step) (j_task_name job) (js_step_name step) (js_action_name step) (js_action_type step) image spec
    input (js_runner step) (js_timeout_secs step)
    (match js_action_revision step with Some r => Some r | None => j_revision job end)
    (af_provider a) (af_prompt a) (af_system a) (af_mcp a) (af_state a) (af_tools a) (event_source_config_of job)
    (stored (sn_storage_key <$> sn_task (cv_snapshots v))) (stored (sn_has_json <$> sn_task (cv_snapshots v)))
    (stored (sn_storage_key <$> sn_global (cv_snapshots v))) (stored (sn_has_json <$> sn_global (cv_snapshots v)))
    (if is_agent step then [] else claimed_files attachments).

(** From the step's schema to the answer. *)
Definition render_claim (v : ClaimView) (attachments : list JobInputFileRow) : K ClaimEnd :=
  let step := cv_step v in
  let fail (e : string * option string) (lines : list string) :=
    fail_claimed_step_with_collisions (js_job_id step) (js_step_name step) e.1 (cv_set v)
      (mkFailure (cv_claim v) (cc_pin_secrets (cv_configs v)) e.2) lines in
  match step_input_schema step with
  | Err e => fail (outer_text e, None) []
  | Ok schema =>
      match render_claim_input v schema with
      | Err e => fail e (input_lines v)
      | Ok input =>
          let body := claim_context v (body_scope schema input) in
          let lines := input_lines v ++ log_lines body in
          let owner_side {A} (r : result AnyError A) : R A :=
            res_map_err (λ e, (chain_text e, owner_side_withheld (cv_job v) step)) r in
          match owner_side (render_action_spec (js_action_spec step) body) with
          | Err e => fail e lines
          | Ok spec =>
              match owner_side (render_image (js_action_image step) body) with
              | Err e => fail e lines
              | Ok image =>
                  let^ _ := kupdate (update_input (js_job_id step) (js_step_name step) input) in
                  let lines := lines ++ (if is_agent step then log_lines (claim_context v AgentPrompt) else []) in
                  match agent_fields v spec with
                  | Err e => fail e lines
                  | Ok a =>
                      let^ _ := append_lines (js_job_id step) (tidy lines) in
                      kret (Reply (Work (claim_response v attachments input spec image a)))
                  end
              end
          end
      end
  end.

(** After the claim: the configurations, the files, the rendering. *)
Definition serve_claim (req : ClaimRequest) (job : JobRow) (step : JobStepRow) (claim : ClaimIdentity) : K ClaimEnd :=
  let^ selected :=
    if bool_decide (of_job job = None) && bool_decide (of_step_action step = None)
    then select_claim_configs job step claim else select_pinned_claim_configs job step claim in
  match selected with
  | Answered o => kret o
  | Configs configs =>
      let^ ws_set := load_ws_set (j_workspace job) (handle_config <$> cc_ws_handle configs) in
      let failure := mkFailure claim (cc_pin_secrets configs) None in
      let fail msg := fail_claimed_step (js_job_id step) (js_step_name step) msg ws_set failure in
      if negb (cc_owner_is_job_config configs) && negb (bool_decide (is_Some (cc_owner_handle configs)))
      then fail ("Failed to prepare action input: action owner: workspace '" +:+ owner_name job step +:+ "' is not available")
      else if ce_attachments_fail env
      then
        release_or_fail_claim (js_job_id step) (js_step_name step) ws_set failure
          (mkTexts "an input-file read failure" ("[files] " +:+ INPUT_FILES_UNREADABLE +:+ ", retrying")
             ("[files] " +:+ INPUT_FILES_UNREADABLE +:+ " and the job was cancelled; step '" +:+ js_step_name step +:+ "' cancelled")
             (INPUT_FILES_UNREADABLE +:+ " after " +:+ pretty MAX_PIN_RELEASES +:+ " attempts"))
      else
        let attachments := list_for_job (js_job_id step) (ce_files env) in
        let has_files := negb (is_agent step) && negb (length attachments =? 0)%nat in
        if has_files && negb (ce_input_blob env) then fail STORAGE_NOT_CONFIGURED
        else if has_files && bool_decide (rq_inputs_dir req = None) then fail OLD_WORKER_INPUTS
        else
          let files := job_files attachments (claim_root req step) in
          let^ steps := kread (get_steps_for_job (js_job_id step)) in
          render_claim (mkClaimView req job step claim configs ws_set files (claim_snapshots job files) steps) attachments
  end.

(** [Path::is_absolute] *)
Definition is_absolute (dir : string) : bool := starts_with "/" dir.

Definition claim_body (req : ClaimRequest) : K ClaimEnd :=
  let refuse text := stop (Refused (BadRequest text)) in
  match parse_uuid (rq_worker_id req) with
  | None => refuse "Invalid worker ID"
  | Some worker_id =>
      let '(capabilities, tags, _) := migrate_legacy_claim req in
      if bool_decide (capabilities = []) then refuse "claim requires at least one capability (script, docker, kubernetes, agent)"
      else match List.find (λ c, negb (known_ability c)) capabilities with
      | Some c => refuse (unknown_capability c)
      | None =>
          if match rq_inputs_dir req with Some dir => negb (is_absolute dir) | None => false end
          then refuse "inputs_dir must be an absolute path"
          else
            let^ claimed := λ s,
              let '(db, row) := claim_ready_step (ce_now env) (ce_locked env) capabilities tags (rq_exclusive req) worker_id (cs_db s) in
              (cs_with_db db s, inr row) in
            match claimed with
            | None => kret (Reply NoWork)
            | Some step =>
                match js_started_at step with
                | None => stop (Refused (InternalError [LMsg "claimed step has no started_at"]))
                | Some started_at =>
                    let^ job := kread (get (js_job_id step)) in
                    match job with
                    | None => stop (Refused (InternalError [LMsg "Job not found after claim"]))
                    | Some job =>
                        let^ _ := kupdate (ce_others env) in
                        serve_claim req job step (mkClaim worker_id started_at)
                    end
                end
            end
      end
  end.

Definition claim_job (req : ClaimRequest) (s : CState) : CState * ClaimEnd :=
  match claim_body req s with (s', inl o) | (s', inr o) => (s', o) end.

(** ** Reports *)

Definition start_step (job_id : Uuid) (step_name worker : string) (db : Db) : Db * result AppError unit :=
  match parse_uuid worker with
  | None => (db, Err (BadRequest "Invalid worker ID"))
  | Some w => (mark_running_if_pending (ce_now env) job_id w (mark_running (ce_now env) job_id step_name w db), Ok ())
  end.

Record CompleteStepRequest := mkComplete { cr_output : option json; cr_exit_code : option Z; cr_error : option string }.

Definition exit_text (code : Z) : string := "Process exited with code " +:+ pretty code.

Definition complete_step (job_id : Uuid) (step_name : string) (req : CompleteStepRequest) (st : ServerState) : option ServerState :=
  let failed := negb (default 0 (cr_exit_code req) =? 0)%Z || bool_decide (is_Some (cr_error req)) in
  if failed then
    let msg := default (exit_text (default 1%Z (cr_exit_code req))) (cr_error req) in
    '(st', _, _) ← step_failed sv fuel job_id step_name msg [] None st; Some st'
  else Some (advance sv fuel job_id (with_db (mark_completed (ce_now env) job_id step_name (cr_output req) (st_db st)) st)).1.

Definition check_cancelled (job_id : Uuid) (st : ServerState) : bool := bool_decide (job_id ∈ st_cancelled st).

Definition complete_job (job_id : Uuid) (output : option json) (st : ServerState) : ServerState := worker_completed_job sv fuel job_id output st.

Definition agent_save_state (job_id : Uuid) (step_name : string) (agent_state : json) (st : ServerState) : ServerState :=
  agent_children_registered sv fuel job_id step_name (with_db (update_agent_state job_id step_name agent_state (st_db st)) st).

Definition suspend_agent_step (job_id : Uuid) (step_name message : string) (db : Db) : Db :=
  (update_step job_id step_name (status_is "running")
     (assign [put_status "suspended"; upd_row (set_suspended_at (Some (ce_now env)));
              upd_row (set_output (Some (json_obj [("approval_message", JString message)])))]) db).1.
End claim.

(** ** Properties of the worker's interface

    A claim answers for every step it takes: the step goes to the worker with
    the answer, or it is given back or failed before the answer. A worker
    registers with abilities the claims know. *)

(** The row runs under this claim. *)
Definition held (c : ClaimIdentity) (j : Uuid) (n : string) (db : Db) : Prop :=
  ∃ r, db_step db !! (j, n) = Some r ∧ sr_status r = "running" ∧ claim_is c (sr_row r) = true.

Section claim.
Context `{AgentCodec, Collation, Tera, JsonParser, HashIter, Unicode, TextForms, Workspaces, RowPick, ActionValue}.
Context (sv : Services) (fuel : nat) (env : ClaimEnv).

(** Only step rows of this job may differ. *)
Definition only_steps_of (j : Uuid) (srv srv' : ServerState) : Prop :=
  st_cancelled srv' = st_cancelled srv ∧ db_job (st_db srv') = db_job (st_db srv) ∧
  ∀ k, k.1 ≠ j → db_step (st_db srv') !! k = db_step (st_db srv) !! k.

(** The row was taken from the claim (or its job is gone), nothing outside
    the steps of the job changed, and at most an orchestration of the job
    followed. *)
Definition let_go (c : ClaimIdentity) (j : Uuid) (n : string) (db : Db) : Prop := ¬ held c j n db ∨ db_job db !! j = None.
Definition gives_back (c : ClaimIdentity) (j : Uuid) (n : string) (srv0 srv : ServerState) : Prop :=
  ∃ srv1, let_go c j n (st_db srv1) ∧ only_steps_of j srv0 srv1 ∧ (srv = srv1 ∨ srv = (advance sv fuel j srv1).1).

(** The count of releases in the row the claim holds is at the end of its
    type, so the statement that would release it fails. *)
Definition release_overflows (c : ClaimIdentity) (j : Uuid) (n : string) (srv : ServerState) : Prop :=
  ∃ r, db_step (st_db srv) !! (j, n) = Some r ∧ sr_status r = "running" ∧ claim_is c (sr_row r) = true ∧ (2147483647 <= js_pin_releases (sr_row r))%Z.

(** The row the claim holds has a retry left whose instant is out of the
    clock's range. *)
Definition retry_out_of_range (c : ClaimIdentity) (j : Uuid) (n : string) (srv : ServerState) : Prop :=
  ∃ r max, db_step (st_db srv) !! (j, n) = Some r ∧ sr_status r = "running" ∧ claim_is c (sr_row r) = true ∧
    js_max_retries (sr_row r) = Some max ∧ (js_retry_attempt (sr_row r) < max)%Z ∧
    retry_instant (sv_now sv) (compute_retry_delay (sv_random sv (sr_row r)) (sr_row r)) = None.

(** How a claim that does not hand the step out may end, from the state it
    was taken in to the one it leaves. *)
Definition unserved (c : ClaimIdentity) (j : Uuid) (n : string) (srv0 : ServerState) (o : ClaimEnd) (srv : ServerState) : Prop :=
  match o with
  | Reply (Work _) => False
  | Reply _ => gives_back c j n srv0 srv
  | HungUp => ce_listening env = false ∧ (gives_back c j n srv0 srv ∨ release_overflows c j n srv ∨ retry_out_of_range c j n srv)
  | Refused e => release_overflows c j n srv ∧ only_steps_of j srv0 srv ∧ ∃ what e', e = InternalError [LMsg ("release claim after " +:+ what); LMsg e']
  | Panicked => retry_out_of_range c j n srv ∧ only_steps_of j srv0 srv
  end.

Definition ends (c : ClaimIdentity) (j : Uuid) (n : string) (m : K ClaimEnd) : Prop :=
  ∀ s, match m s with (s', inl o) | (s', inr o) => unserved c j n (cs_srv s) o (cs_srv s') end.

Lemma only_steps_refl j srv : only_steps_of j srv srv.
Proof. done. Qed.
Lemma only_steps_trans j a b d : only_steps_of j a b → only_steps_of j b d → only_steps_of j a d.
Proof. intros (A1 & A2 & A3) (B1 & B2 & B3). split_and!; [congruence..|]. intros k Hk. by rewrite B3, A3. Qed.

Lemma only_steps_update j n w f srv : only_steps_of j srv (with_db (update_step j n w f (st_db srv)).1 srv).
Proof.
  split_and!; [done|apply update_step_db_job|]. intros [k1 k2] Hk. simpl in *. apply lookup_update_step_ne. congruence.
Qed.

Lemma unserved_from c j n a b o srv : only_steps_of j a b → unserved c j n b o srv → unserved c j n a o srv.
Proof.
  intros Ha. assert (Hg : gives_back c j n b srv → gives_back c j n a srv).
  { intros (srv1 & Hl & Ho & Hs). exists srv1. split_and!; [done|by eapply only_steps_trans|done]. }
  pose proof (only_steps_trans j a b srv Ha) as Ht. destruct o as [[|?|?]|?| |]; simpl; naive_solver.
Qed.

(** ** Taking the row from the claim *)

Lemma updated_not_held c j n f db :
  (∀ r, sr_status (f r) ≠ "running") → ¬ held c j n (update_step j n any_row f db).1.
Proof.
  intros Hf (r & Hr & Hs & _). rewrite lookup_update_step_eq in Hr. destruct (db_step db !! (j, n)) as [r0|]; simplify_eq/=. by apply (Hf r0).
Qed.

(** Failing a claimed step takes it from the claim, or is out of range. *)
Lemma failed_not_held c j n msg st :
  match claimed_step_failed sv fuel j n msg (Some c) st with
  | Some (st', _, _) => gives_back c j n st st'
  | None => retry_out_of_range c j n st
  end.
Proof.
  unfold claimed_step_failed, step_failed, fail_or_retry.
  destruct (db_step (st_db st) !! (j, n)) as [rec|] eqn:Er; cbn [mbind option_bind].
  2:{ exists st. destruct st. split_and!; [|done|by left]. left. intros (r & Hr & _). simpl in *. congruence. }
  destruct (negb _ && _) eqn:Est; cbn [mbind option_bind].
  { exists st. destruct st. split_and!; [|done|by left]. left. intros (r & Hr & Hs & _). simpl in *. simplify_eq.
    unfold sr_status in Hs. rewrite Hs in Est. by vm_compute in Est. }
  assert (Hrun : sr_status rec = "running").
  { simpl in Est. rewrite orb_false_r in Est. apply negb_false_iff, bool_decide_eq_true in Est. symmetry. exact Est. }
  destruct (negb (claim_is c (sr_row rec))) eqn:Ec; cbn [mbind option_bind].
  { exists st. destruct st. split_and!; [|done|by left]. left. intros (r & Hr & _ & Hc). simpl in *. simplify_eq. by rewrite Hc in Ec. }
  apply negb_false_iff in Ec.
  destruct (js_max_retries (sr_row rec)) as [mx|] eqn:Em; [destruct (_ <? mx)%Z eqn:El; [destruct (retry_instant _ _) eqn:Ei|]|]; cbn [mbind option_bind].
  2:{ exists rec, mx. apply Z.ltb_lt in El. done. }
  all: match goal with |- gives_back _ _ _ _ ?x => match x with context [with_db ?d ?s] => exists (with_db d s) end end;
    split_and!; [left; by apply updated_not_held|apply only_steps_update|auto].
Qed.

Lemma released_not_held c j n ra srv :
  match release_claim (ce_now env) j n c ra MAX_PIN_RELEASES (st_db srv) with
  | Ok (db', CapReached) => db' = st_db srv
  | Ok (db', _) => let_go c j n db' ∧ only_steps_of j srv (with_db db' srv)
  | Err _ => release_overflows c j n srv
  end.
Proof.
  unfold release_claim, let_go. destruct (db_job (st_db srv) !! j) as [job|] eqn:Ej; [|destruct srv; split; [by right|done]].
  destruct (db_step (st_db srv) !! (j, n)) as [rec|] eqn:Er; [|destruct srv; split; [left; intros (r & Hr & _); simpl in *; congruence|done]].
  destruct (status_is "running" rec && claim_is c (sr_row rec)) eqn:Ec.
  2:{ destruct srv. split; [|done]. left. intros (r & Hr & Hs & Hc). simpl in *. simplify_eq. unfold status_is in Ec. by rewrite Hs, Hc in Ec. }
  apply andb_true_iff in Ec as [Es Ec]. apply bool_decide_eq_true in Es.
  destruct ((jr_status job <>? "pending") && (jr_status job <>? "running")).
  - simpl. split; [left|].
    + intros (r & Hr & Hs & _). unfold cancel_pending_steps_tx in Hr.
      rewrite lookup_update_job_steps, lookup_update_step_eq, Er in Hr. cbn [fmap option_fmap option_map any_row] in Hr.
      injection Hr as <-. destruct (_ && _) in Hs; done.
    + eapply only_steps_trans; [apply only_steps_update|]. split_and!; [done|by apply update_job_steps_db_job|].
      intros [k1 k2] Hk. unfold cancel_pending_steps_tx. simpl in *. rewrite lookup_update_job_steps.
      rewrite (bool_decide_eq_false_2 (k1 = j)) by done. simpl. by destruct (db_step _ !! (k1, k2)).
  - destruct (_ <? _)%Z; [done|]. destruct (_ <? _)%Z eqn:El.
    + exists rec. apply Z.ltb_lt in El. unfold i32_max in El. split_and!; [done|done|done|lia].
    + split; [left; by apply updated_not_held|apply only_steps_update].
Qed.

Lemma fail_ends c j n msg set values withheld :
  ends c j n (fail_claimed_step sv fuel j n msg set (mkFailure c values withheld)).
Proof.
  intros s. unfold fail_claimed_step, kbind, append_server_log, settle_claimed_failure. cbn [cs_srv cf_claim].
  pose proof (failed_not_held c j n (default (mask_text msg (claim_redaction_values set (cf_pin_secrets (mkFailure c values withheld)))) withheld) (cs_srv s)) as Hf.
  cbn [cf_withheld cf_pin_secrets] in *. destruct (claimed_step_failed _ _ _ _ _ _ _) as [[[srv o] line]|]; [done|by split].
Qed.

Lemma fail_collisions_ends c j n msg set values withheld lines :
  ends c j n (fail_claimed_step_with_collisions sv fuel j n msg set (mkFailure c values withheld) lines).
Proof. intros s. unfold fail_claimed_step_with_collisions, kbind, append_lines. exact (fail_ends c j n msg set values withheld _). Qed.

Lemma release_ends c j n set values withheld texts :
  ends c j n (release_or_fail_claim sv fuel env j n set (mkFailure c values withheld) texts).
Proof.
  intros s. unfold release_or_fail_claim. cbn [cf_claim].
  pose proof (released_not_held c j n (PIN_RELEASE_RETRY_SECS * 1000000)%Z (cs_srv s)) as Hl. unfold cs_db.
  destruct (release_claim _ _ _ _ _ _ _) as [[db out]|e]; [|simpl; split_and!; [done|apply only_steps_refl|eauto]].
  destruct out; simpl in Hl.
  1,2,4: destruct Hl as [Hl Ho]; simpl; exists (with_db db (cs_srv s)); split_and!; [exact Hl|exact Ho|auto].
  - rewrite Hl. replace (cs_with_db (st_db (cs_srv s)) s) with s by (by destruct s as [[? ?] ? ?]). apply fail_ends.
Qed.

(** A call to the workspaces changes nothing of the settlement's state. *)
Lemma kask_srv {A} (x : M A) s s' r : kask x s = (s', r) → cs_srv s' = cs_srv s ∧ ∃ a, r = inr a.
Proof. unfold kask. destruct (x _) as [[a st]|e]; intros [= <- <-]; eauto. Qed.

Lemma load_set_srv name local s s' r : load_ws_set name local s = (s', r) → cs_srv s' = cs_srv s ∧ ∃ set, r = inr set.
Proof. unfold load_ws_set, kbind, kask, load_set. intros [= <- <-]. eauto. Qed.

Lemma pin_failure_ends c job step ws pin values err :
  ends c (j_job_id job) (js_step_name step) (pin_failure sv fuel env job step ws pin (mkFailure c values None) err).
Proof.
  intros s. unfold pin_failure, kbind at 1. destruct (load_ws_set _ _ s) as [s1 r] eqn:E. apply load_set_srv in E as [E [set ->]]. rewrite <-E.
  destruct (negb _); [apply fail_ends|apply release_ends].
Qed.

Lemma config_by_deadline_srv ws pin s s' r : config_by_deadline env ws pin s = (s', r) → cs_srv s' = cs_srv s ∧ ∃ a, r = inr a.
Proof.
  unfold config_by_deadline. destruct pin as [p|]; [destruct (ce_load env ws p)|]; try (by intros ?%kask_srv); by intros [= <- <-]; eauto.
Qed.

Lemma pin_values_srv ws h s s' r : pin_values_of ws h s = (s', r) → cs_srv s' = cs_srv s ∧ ∃ a, r = inr a.
Proof.
  unfold pin_values_of. destruct h as [[c|p]|]; intros [= <- <-]; by eauto.
Qed.

(** ** The configurations *)

(** A selection either leaves everything as it was, or has answered. *)
Definition selected_ok (c : ClaimIdentity) (j : Uuid) (n : string) (m : K ClaimSelection) : Prop :=
  ∀ s, match m s with
       | (s', inr (Configs _)) => cs_srv s' = cs_srv s
       | (s', inr (Answered o)) | (s', inl o) => unserved c j n (cs_srv s) o (cs_srv s')
       end.

Lemma answered_ok c j n m : ends c j n m → selected_ok c j n (answered m).
Proof. intros Hm s. unfold answered, kbind. specialize (Hm s). by destruct (m s) as [s' [o|o]]. Qed.

Lemma select_ok c job step : selected_ok c (j_job_id job) (js_step_name step) (select_claim_configs sv fuel env job step c).
Proof.
  intros s. unfold select_claim_configs, kbind at 1. destruct (config_by_deadline _ _ _ s) as [s1 r] eqn:E1.
  apply config_by_deadline_srv in E1 as [H1' [[ws|e] ->]].
  2:{ cbv beta iota. rewrite <-H1'. exact (answered_ok c _ _ _ (pin_failure_ends c job step (j_workspace job) (of_job job) [] e) s1). }
  unfold kbind at 1. destruct (pin_values_of _ _ s1) as [s2 r] eqn:E2. apply pin_values_srv in E2 as [H2' [vs ->]].
  destruct (owner_is_job_config job step); [simpl; congruence|].
  unfold kbind at 1. destruct (config_by_deadline _ _ _ s2) as [s3 r] eqn:E3. apply config_by_deadline_srv in E3 as [H3' [[h|e] ->]].
  2:{ cbv beta iota. rewrite <-H1', <-H2', <-H3'. exact (answered_ok c _ _ _ (pin_failure_ends c job step (owner_name job step) (of_step_action step) vs e) s3). }
  unfold kbind. destruct (pin_values_of _ _ s3) as [s4 r] eqn:E4. apply pin_values_srv in E4 as [H4' [vs' ->]]. simpl. congruence.
Qed.

Lemma unserved_hung_up c j n srv0 o srv : ce_listening env = false → unserved c j n srv0 o srv → unserved c j n srv0 HungUp srv.
Proof. destruct o as [[|r|t]|e| |]; simpl; try tauto. Qed.

(** A claim nobody waits for any more is given back by the task itself. *)
Lemma select_pinned_ok c job step : selected_ok c (j_job_id job) (js_step_name step) (select_pinned_claim_configs sv fuel env job step c).
Proof.
  intros s. unfold select_pinned_claim_configs, kbind at 1. pose proof (select_ok c job step s) as Hs.
  destruct (select_claim_configs _ _ _ _ _ _ s) as [s1 [o|[cfg|o]]]; [done| |].
  - destruct (ce_listening env) eqn:El; [done|].
    destruct (match of_step_action step with Some pin => _ | None => _ end) as [ws pin]. unfold kbind.
    pose proof (pin_failure_ends c job step ws pin (cc_pin_secrets cfg)
      [LPin (PinUnavailable ws "the claiming worker stopped waiting before its configuration loaded")] s1) as Hp.
    rewrite Hs in Hp.
    destruct (pin_failure _ _ _ _ _ _ _ _ _ s1) as [s2 [o|o]]; [done|]. by apply unserved_hung_up in Hp.
  - destruct (ce_listening env) eqn:El; [done|]. by apply unserved_hung_up in Hs.
Qed.

(** ** Handing the step out *)

(** The answer names the step, its action's owner and the revision to run. *)
Definition hands_out (job : JobRow) (step : JobStepRow) (r : ClaimResponse) : Prop :=
  cl_job_id r = js_job_id step ∧ cl_step_name r = js_step_name step ∧ cl_workspace r = owner_name job step ∧
  cl_revision r = match js_action_revision step with Some rev => Some rev | None => j_revision job end.

(** The step is handed out and only its input was written, or it is not. *)
Definition concluded (c : ClaimIdentity) (job : JobRow) (step : JobStepRow) (srv : ServerState) (o : ClaimEnd) (srv' : ServerState) : Prop :=
  (∃ r, o = Reply (Work r) ∧ hands_out job step r ∧
        srv' = with_db (update_input (js_job_id step) (js_step_name step) (cl_input r) (st_db srv)) srv) ∨
  unserved c (js_job_id step) (js_step_name step) srv o srv'.

Definition concludes (c : ClaimIdentity) (job : JobRow) (step : JobStepRow) (m : K ClaimEnd) : Prop :=
  ∀ s, match m s with (s', inl o) | (s', inr o) => concluded c job step (cs_srv s) o (cs_srv s') end.

Lemma ends_concludes c job step m : ends c (js_job_id step) (js_step_name step) m → concludes c job step m.
Proof. intros Hm s. specialize (Hm s). destruct (m s) as [s' [o|o]]; by right. Qed.

Lemma render_concludes v atts : concludes (cv_claim v) (cv_job v) (cv_step v) (render_claim sv fuel env v atts).
Proof.
  intros s. unfold render_claim.
  assert (Hf : ∀ msg w lines s1, only_steps_of (js_job_id (cv_step v)) (cs_srv s) (cs_srv s1) → match fail_claimed_step_with_collisions sv fuel (js_job_id (cv_step v)) (js_step_name (cv_step v)) msg (cv_set v)
      (mkFailure (cv_claim v) (cc_pin_secrets (cv_configs v)) w) lines s1 with (s', inl o) | (s', inr o) => concluded (cv_claim v) (cv_job v) (cv_step v) (cs_srv s) o (cs_srv s') end).
  { intros msg w lines s1 Ho.
    pose proof (fail_collisions_ends (cv_claim v) (js_job_id (cv_step v)) (js_step_name (cv_step v)) msg (cv_set v) (cc_pin_secrets (cv_configs v)) w lines s1) as He.
    destruct (fail_claimed_step_with_collisions _ _ _ _ _ _ _ _ s1) as [s' [o|o]]; right; by eapply unserved_from. }
  destruct (step_input_schema (cv_step v)) as [schema|e]; [|by apply Hf].
  destruct (render_claim_input v schema) as [input|e]; [|by apply Hf].
  destruct (res_map_err _ (render_action_spec _ _)) as [spec|e]; [|by apply Hf].
  destruct (res_map_err _ (render_image _ _)) as [image|e]; [|by apply Hf].
  unfold kbind at 1, kupdate. destruct (agent_fields v spec) as [a|e]; [|apply Hf, only_steps_update].
  left. eexists. split; [reflexivity|]. done.
Qed.

Lemma serve_concludes req job step c : j_job_id job = js_job_id step → concludes c job step (serve_claim sv fuel env req job step c).
Proof.
  intros Hj s. unfold serve_claim, kbind at 1.
  assert (Hsel : match (if bool_decide (of_job job = None) && bool_decide (of_step_action step = None)
      then select_claim_configs sv fuel env job step c else select_pinned_claim_configs sv fuel env job step c) s with
       | (s', inr (Configs _)) => cs_srv s' = cs_srv s
       | (s', inr (Answered o)) | (s', inl o) => unserved c (js_job_id step) (js_step_name step) (cs_srv s) o (cs_srv s')
       end).
  { rewrite <-Hj. destruct (_ && _); [apply select_ok|apply select_pinned_ok]. }
  set (m0 := if bool_decide (of_job job = None) && bool_decide (of_step_action step = None) then _ else _) in *.
  destruct (m0 s) as [s1 [o|[cfg|o]]]; [by right| |by right].
  unfold kbind at 1. destruct (load_ws_set _ _ s1) as [s2 r] eqn:E2. apply load_set_srv in E2 as [H2' [set ->]].
  assert (Hend : ∀ m, ends c (js_job_id step) (js_step_name step) m → match m s2 with (s', inl o) | (s', inr o) => concluded c job step (cs_srv s) o (cs_srv s') end).
  { intros m Hm. specialize (Hm s2). rewrite H2', Hsel in Hm. destruct (m s2) as [s' [o|o]]; by right. }
  cbv zeta. destruct (negb (cc_owner_is_job_config cfg) && _); [apply Hend, fail_ends|]. destruct (ce_attachments_fail env); [apply Hend, release_ends|].
  set (files := negb (is_agent step) && _). destruct (files && negb (ce_input_blob env)); [apply Hend, fail_ends|].
  destruct (files && bool_decide _); [apply Hend, fail_ends|].
  unfold kbind at 1, kread. rewrite <-Hsel, <-H2'. apply (render_concludes (mkClaimView _ _ _ _ _ _ _ _ _)).
Qed.

(** ** The whole claim *)

Definition jobs_keyed (db : Db) : Prop := ∀ k r, db_job db !! k = Some r → j_job_id (jr_row r) = k.

(** The claim [c] took the row of [step], which the request's worker may run;
    the row alone changed. *)
Definition taken (req : ClaimRequest) (db : Db) (step : JobStepRow) (c : ClaimIdentity) (db1 : Db) : Prop :=
  ∃ caps tags r,
    let k := (js_job_id step, js_step_name step) in
    (migrate_legacy_claim req).1 = (caps, tags) ∧ caps ⊆ KNOWN_ABILITIES ∧
    parse_uuid (rq_worker_id req) = Some (claim_worker_id c) ∧ claim_started_at c = ce_now env ∧
    db_step db !! k = Some r ∧ ce_locked env k = false ∧ Claimable (ce_now env) caps tags (rq_exclusive req) r ∧
    step = sr_row (claim_row (ce_now env) (claim_worker_id c) r) ∧
    db_step db1 = <[k := claim_row (ce_now env) (claim_worker_id c) r]> (db_step db) ∧ db_job db1 = db_job db.

Lemma claim_taken req caps tags w db db1 step :
  steps_wf db → (migrate_legacy_claim req).1 = (caps, tags) → caps ⊆ KNOWN_ABILITIES → parse_uuid (rq_worker_id req) = Some w →
  claim_ready_step (ce_now env) (ce_locked env) caps tags (rq_exclusive req) w db = (db1, Some step) →
  js_started_at step = Some (ce_now env) ∧ taken req db step (mkClaim w (ce_now env)) db1.
Proof.
  intros Hwf Hm Hk Hw. unfold claim_ready_step. destruct (pick_row _) as [[j n]|] eqn:Hp; [|done].
  apply pick_row_some, claim_candidates_spec in Hp as (r & Hr & Hl & Hc). destruct (Hwf _ _ Hr) as (Hj & Hn & ts & Hts). simpl in Hj, Hn |- *.
  destruct (update_step j n any_row (claim_row (ce_now env) w) db) as [db' m] eqn:E.
  pose proof (update_step_insert j n (claim_row (ce_now env) w) db r Hr) as Hins.
  pose proof (update_step_db_job j n any_row (claim_row (ce_now env) w) db) as Hjob. rewrite E in Hins, Hjob. simpl in Hins, Hjob.
  rewrite Hins, lookup_insert_eq. intros [= <- <-]. split; [done|]. exists caps, tags, r.
  subst j n. split_and!; [done|done|done|done|exact Hr|exact Hl|by apply (claimable_spec _ _ _ _ _ ts)|done|exact Hins|exact Hjob].
Qed.

Lemma claim_none req caps tags w db db1 :
  steps_wf db → claim_ready_step (ce_now env) (ce_locked env) caps tags (rq_exclusive req) w db = (db1, None) →
  db1 = db ∧ ∀ k r, db_step db !! k = Some r → ce_locked env k = false → ¬ Claimable (ce_now env) caps tags (rq_exclusive req) r.
Proof.
  intros Hwf. unfold claim_ready_step. destruct (pick_row _) as [[j n]|] eqn:Hp.
  - apply pick_row_some, claim_candidates_spec in Hp as (r & Hr & _).
    pose proof (update_step_insert j n (claim_row (ce_now env) w) db r Hr) as Hins. simpl.
    destruct (update_step j n any_row (claim_row (ce_now env) w) db) as [db' m] eqn:E. simpl in Hins. rewrite Hins, lookup_insert_eq. done.
  - intros [= <-]. split; [done|]. intros k r Hr Hl Hc. destruct (Hwf _ _ Hr) as (_ & _ & ts & Hts). apply pick_row_none in Hp.
    apply (claimable_spec _ _ _ _ _ ts) in Hc; [|done]. pose proof (elem_of_claim_candidates _ _ _ _ _ db k r Hr Hl Hc) as Hin.
    rewrite Hp in Hin. by apply elem_of_nil in Hin.
Qed.

End claim.

(** ** Registration *)

Lemma elem_of_push_new l t x : x ∈ push_new l t ↔ x ∈ l ∨ x = t.
Proof. unfold push_new. case_bool_decide; [naive_solver|]. rewrite elem_of_app, list_elem_of_singleton. done. Qed.

Lemma elem_of_push_all ts l x : x ∈ fold_left push_new ts l ↔ x ∈ l ∨ x ∈ ts.
Proof.
  revert l. induction ts as [|t ts IH]; intros l; simpl; [by rewrite elem_of_nil; intuition|]. rewrite IH, elem_of_push_new, elem_of_cons. tauto.
Qed.

(** The two halves of a legacy payload: nothing is lost, abilities become
    capabilities, each once, the rest stays in order. *)
Lemma split_legacy_spec caps tags caps' tags' m :
  split_legacy_tags caps tags = (caps', tags', m) →
  if m then caps = [] ∧ (∀ x, x ∈ caps' ↔ x ∈ tags ∧ x ∈ KNOWN_ABILITIES) ∧ tags' = List.filter (λ t, negb (known_ability t)) tags
  else caps' = caps ∧ tags' = tags.
Proof.
  unfold split_legacy_tags. case_bool_decide as Hc; simpl; [|by intros [= <- <- <-]]. destruct (existsb known_ability tags); simpl; [|by intros [= <- <- <-]].
  intros [= <- <- <-]. split_and!; [done| |done]. intros x. rewrite elem_of_push_all, elem_of_nil, elem_of_lfilter. unfold known_ability.
  rewrite bool_decide_eq_true. tauto.
Qed.

Lemma known_in_filter tags t : List.find known_ability (List.filter (λ t, negb (known_ability t)) tags) = Some t → False.
Proof. intros [Hin Hk]%find_some. apply list_elem_of_In, elem_of_lfilter in Hin as [_ Hn]. by rewrite Hk in Hn. Qed.

(** What a registration leaves. An accepted one adds exactly the new worker,
    active since now, with at least one capability, all of them known, and no
    ability among its tags, so a claim with the same payload is never refused
    for its capabilities; a refused one changes nothing. The payload of an old
    worker (no capabilities, abilities among the tags) is always accepted
    under a fresh id. *)
Theorem registration_sound now w req db :
  match register_worker now w req db with
  | (db', Ok w') => w' = w ∧ ∃ caps tags,
      caps ≠ [] ∧ caps ⊆ KNOWN_ABILITIES ∧ (∀ t, t ∈ tags → t ∉ KNOWN_ABILITIES) ∧ db_worker db !! w = None ∧
      db_worker db' = <[w := mkWorkerRec (rg_name req) (strings_to_json caps) (strings_to_json tags) (rg_exclusive req) (Some now) now "active" (rg_version req)]> (db_worker db) ∧
      (∀ creq, rq_capabilities creq = rg_capabilities req → rq_tags creq = rg_tags req → (migrate_legacy_claim creq).1 = (caps, tags))
  | (db', Err e) => db' = db ∧ (is_Some (db_worker db !! w) ∨ rg_capabilities req ≠ [] ∨ ∀ t, t ∈ rg_tags req → t ∉ KNOWN_ABILITIES)
  end.
Proof.
  unfold register_worker. destruct (migrate_legacy_register req) as [[caps tags] m] eqn:Em. pose proof Em as Hs%split_legacy_spec.
  case_bool_decide as Hc.
  { split; [done|]. right. right. intros t Ht Hk. destruct m; [|destruct Hs as [-> ->]].
    - destruct Hs as (_ & Hx & _). assert (t ∈ caps) as Hin by by apply Hx. rewrite Hc in Hin. by apply elem_of_nil in Hin.
    - unfold migrate_legacy_register, split_legacy_tags in Em. rewrite Hc in Em. simpl in Em.
      destruct (existsb known_ability (rg_tags req)) eqn:Ex; simpl in Em; [done|].
      assert (existsb known_ability (rg_tags req) = true) as Hy by (apply existsb_exists'; exists t; split; [done|by apply bool_decide_eq_true]). congruence. }
  destruct (List.find (λ c, negb (known_ability c)) caps) as [c|] eqn:Hf.
  { split; [done|]. right. left. intros He. apply find_some in Hf as [Hin Hn]. apply list_elem_of_In in Hin. destruct m; [|by destruct Hs as [-> _]].
    destruct Hs as (_ & Hx & _). apply Hx in Hin as [_ Hk]. unfold known_ability in Hn. by rewrite bool_decide_true in Hn. }
  destruct (List.find known_ability tags) as [t|] eqn:Ht.
  { split; [done|]. right. left. intros He. destruct m; [destruct Hs as (_ & _ & ->); by apply known_in_filter in Ht|]. by destruct Hs as [-> _]. }
  unfold register. destruct (db_worker db !! w) as [wr|] eqn:Ew; [split; [done|]; left; by eexists|]. split; [done|]. exists caps, tags. split_and!; try done.
  - intros x Hx%list_elem_of_In. pose proof (find_none _ _ Hf x Hx) as Hn. by apply negb_false_iff, bool_decide_eq_true in Hn.
  - intros t' Hx%list_elem_of_In. pose proof (find_none _ _ Ht t' Hx) as Hn. by apply bool_decide_eq_false in Hn.
  - intros creq H1 H2. unfold migrate_legacy_claim. unfold migrate_legacy_register in Em. by rewrite H1, H2, Em.
Qed.
