(* ===== verification/Deferred.v ===== *)
(** * Deferred steps

    [crates/stroem-server/src/settlement/deferred.rs]: a step whose [ref:] is a
    template waits until this pass renders it, checks the value against the
    secrets, selects the commit of the job for it and writes the step's real
    columns. *)
From S2P Require Import Prelude Json Text Lines Utf8 Template TemplateError GitRef Workflow JobModel Gate Db StepRepo JobRepo Pins InputFiles Errors Engine JsonField Connections WorkspaceSet RenderContext FileField Refs Manager JobCreator JobCreatorProps Cascade CascadeApply Settle Redact Trigger Server.

Definition DEFERRED_LEASE_SECS : Z := 60.
Definition LEASE : Time := (DEFERRED_LEASE_SECS * 1000000)%Z.

Abbreviation Resolution A := (result RenderedRefError A).

Definition pair_leb (a b : string * string) : bool :=
  match String.compare a.1 b.1 with Lt => true | Gt => false | Eq => String.leb a.2 b.2 end.

Definition written_action (owner workspace_name action_name : string) : string :=
  if (owner ==? workspace_name) && negb (str_contains "." action_name) then action_name
  else owner +:+ "." +:+ action_name.

Section deferred.
Context `{Workspaces, HashIter, Tera, JsonParser, Serde, Collation, TextForms} (env : Env).

(** ** Secrets and commits *)

Fixpoint pin_values (pins : list (string * string)) (values : list string) : D (Resolution (list string)) :=
  match pins with
  | [] => dret (Ok values)
  | (ws, commit) :: rest =>
      let& p := dask (pinned_config_private ws commit) in
      match p with
      | Err e => dret (Err (from_error e ws))
      | Ok pinned =>
          let& own := dask (pin_redaction_values ws pinned) in
          pin_values rest (values ++ default [] (res_ok own))
      end
  end.

(** The commits a job is pinned to, in order, each once. *)
Definition job_pins (job : JobRow) (rows : list RefPinRec) : list (string * string) :=
  sort_by pair_leb (remove_dups (option_list ((λ p, (j_workspace job, commit p)) <$> of_job job) ++
                                 ((λ r, (rp_workspace r, rp_commit r)) <$> rows))).

Definition ref_secret_set (job : JobRow) : D (Resolution (list string)) :=
  let& set := dask (load_set (j_workspace job) None) in
  let values := match set with Ok s => collect_redaction_values s | Err _ => [] end in
  let& rows := dread (pins_for_job (j_job_id job)) in
  pin_values (job_pins job rows) values.

Definition dinsert_first_wins (job_id : Uuid) (workspace git_ref commit : string) : D string :=
  let& r := dwrite (insert_first_wins job_id workspace git_ref commit) in
  match r with Ok c => dret c | Err e => dfail [LMsg e] end.

Fixpoint select_loop (tries : nat) (job_id : Uuid) (owner value commit : string) : D (Resolution PinRef) :=
  match tries with
  | O => dret (Err (rendered_new KUnresolvable owner))
  | S tries =>
      let& p := dask (pinned_config_private owner commit) in
      match p with
      | Err e => dret (Err (from_error e owner))
      | Ok pinned =>
          let& own := dask (pin_redaction_values owner pinned) in
          match check_rendered_ref value (default [] (res_ok own)) with
          | Err r => dret (Err (from_rejection r owner))
          | Ok _ =>
              let& _ := meanwhile env in
              let& stored := dinsert_first_wins job_id owner value commit in
              if stored ==? commit then dret (Ok (mkPinRef value commit))
              else select_loop tries job_id owner value stored
          end
      end
  end.

Definition select_commit (job_id : Uuid) (owner value : string) : D (Resolution PinRef) :=
  let& known := dread (pin_get job_id owner value) in
  match known with
  | Some c => select_loop 3 job_id owner value c
  | None =>
      let& r := dask (pins_resolve owner value) in
      match r with
      | Ok c => select_loop 3 job_id owner value c
      | Err e => dret (Err (from_error e owner))
      end
  end.

(** ** The row *)

(** Every pin the row met goes into the job's table, the first writer winning;
    whether all agree. *)
Fixpoint insert_entries_first (job_id : Uuid) (l : list RefPinRec) (agreed : bool) : D bool :=
  match l with
  | [] => dret agreed
  | entry :: rest =>
      let& stored := dinsert_first_wins job_id (rp_workspace entry) (rp_git_ref entry) (rp_commit entry) in
      insert_entries_first job_id rest (agreed && (stored ==? rp_commit entry))
  end.

Section build_row.
Context (cfg : WorkspaceConfig) (workspace_name : string) (job : JobRow).

Fixpoint row_loop (tries : nat) (x : StepRowCtx) (step_name : string) (written : FlowStep) (value : option string)
    (owner action_name : string) : D (Resolution NewJobStep) :=
  match tries with
  | O => dret (Err (rendered_new KUnresolvable owner))
  | S tries =>
      let& rows := dread (pins_for_job (j_job_id job)) in
      let& r := dcalls (from_rows rows) (resolve_step_row x step_name written StepReady value) in
      match r with
      | Err Panics => dpanic
      | Err (Erred e) => dret (Err (from_error e owner))
      | Ok (row, m) =>
          if (default workspace_name (nj_action_workspace row) <>? owner) || (nj_action_name row <>? action_name)
          then dret (Err (rendered_new KUnresolvable owner))
          else
            let& _ := meanwhile env in
            let& agreed := insert_entries_first (j_job_id job) (memo_entries (j_job_id job) m) true in
            if agreed : bool then dret (Ok row)
            else row_loop tries x step_name written value owner action_name
      end
  end.

Definition build_row (step_name : string) (written : FlowStep) (value : option string) (owner action_name : string)
    : D (Resolution NewJobStep) :=
  let& set := dask (load_set workspace_name (Some cfg)) in
  match set with
  | Err e => dfail e  (* unreachable: the load never fails *)
  | Ok set =>
      let x := mkRowCtx (j_job_id job) workspace_name cfg (j_task_name job) (of_job job) set (ev_defaults env) in
      row_loop 3 x step_name written value owner action_name
  end.

(** A flow step with its action respelled, and without its ref when there is
    none. *)
Definition respelled (fs : FlowStep) (action : string) (git_ref : option string) : FlowStep :=
  mkFlowStep action (depends_on fs) (continue_on_failure fs) (when_ fs) (for_each fs) (sequential fs) (retry fs) git_ref
    (fs_name fs) (fs_description fs) (fs_input fs) (legacy_continue_when_skipped fs) (fs_timeout fs) (inline_action fs).

Definition resolve_one (snapshots : Snapshots) (task : TaskDef) (steps : list JobStepRow) (step : JobStepRow) : D (Resolution NewJobStep) :=
  let owner := default workspace_name (js_action_workspace step) in
  let unresolvable := Err (rendered_new KUnresolvable owner) in
  match js_ref_template step with
  | None => dret unresolvable
  | Some template =>
      match flow task !! default (js_step_name step) (js_loop_source step) with
      | None => dret unresolvable
      | Some flow_step =>
          let ctx := build (job_ctx cfg snapshots job) (views steps) (slot_of step) StepRef in
          match render_ref_template template (rc_value ctx) with
          | Err e => dret (Err (from_error e owner))
          | Ok rendered =>
              let act := written_action owner workspace_name (js_action_name step) in
              match rendered_ref_value rendered with
              | None => build_row (js_step_name step) (respelled flow_step act None) None owner (js_action_name step)
              | Some rendered =>
                  let& secrets := ref_secret_set job in
                  match secrets with
                  | Err e => dret (Err e)
                  | Ok secrets =>
                      match check_rendered_ref rendered secrets with
                      | Err r => dret (Err (from_rejection r owner))
                      | Ok value =>
                          let& pin := select_commit (j_job_id job) owner value in
                          match pin with
                          | Err e => dret (Err e)
                          | Ok _ =>
                              build_row (js_step_name step) (respelled flow_step act (Workflow.git_ref flow_step)) (Some value) owner
                                (js_action_name step)
                          end
                      end
                  end
              end
          end
      end
  end.
End build_row.

(** ** The pass *)

(** One step under its lease; whether it was failed. *)
Definition resolve_leased (cfg : WorkspaceConfig) (workspace_name : string) (job : JobRow) (snapshots : Snapshots) (task : TaskDef)
    (steps : list JobStepRow) (step : JobStepRow) : D bool :=
  let name := js_step_name step in
  let& token := fresh_id env in
  let& taken := dwrite (take_resolve_lease (ev_now env) (j_job_id job) name token LEASE) in
  if negb taken then dret false
  else
    let& outcome := resolve_one cfg workspace_name job snapshots task steps step in
    let& _ := meanwhile env in
    let& n := λ s, (s, Ok (srv_ids s)) in
    if ev_lost env n then dret false
    else
      match outcome with
      | Ok row =>
          let& _ := dwrite (resolve_deferred_tx (ev_now env) (j_job_id job) name token row) in
          dret false
      | Err err =>
          let message := "[ref] step '" +:+ name +:+ "': " +:+ RenderedRefError_fmt err in
          let& w := dwrite (fail_deferred_tx (ev_now env) (j_job_id job) name token message) in
          match w with
          | StepRepo.Applied => λ s, ((cascade_and_settle_now env (j_job_id job) task cfg snapshots s).1, Ok true)
          | _ => dret false
          end
      end.

Fixpoint resolve_each (cfg : WorkspaceConfig) (workspace_name : string) (job : JobRow) (snapshots : Snapshots) (task : TaskDef)
    (steps : list JobStepRow) (l : list JobStepRow) (failed_any : bool) : D bool :=
  match l with
  | [] => dret failed_any
  | step :: rest =>
      let& failed := resolve_leased cfg workspace_name job snapshots task steps step in
      resolve_each cfg workspace_name job snapshots task steps rest (failed_any || failed)
  end.

Definition resolve_pass (cfg : WorkspaceConfig) (workspace_name : string) (job_id : Uuid) (snapshots : Snapshots) (task : TaskDef)
    : D (bool * nat) :=
  let& deferred := dread (get_ready_deferred_steps job_id) in
  if bool_decide (deferred = []) then dret (false, 0)
  else
    let& job := dread (JobRepo.get job_id) in
    match job with
    | None => dret (false, 0)
    | Some job =>
        let& steps := dread (get_steps_for_job job_id) in
        let& failed_any := resolve_each cfg workspace_name job snapshots task steps deferred false in
        dret (failed_any, length steps)
    end.

(** [fuel] bounds the passes, which the loop itself bounds by the number of
    steps. *)
Fixpoint resolve_deferred_loop (fuel passes : nat) (cfg : WorkspaceConfig) (workspace_name : string) (job_id : Uuid) (snapshots : Snapshots)
    (task : TaskDef) : D unit :=
  match fuel with
  | O => dret ()
  | S fuel =>
      let& (failed_any, step_count) := resolve_pass cfg workspace_name job_id snapshots task in
      let passes := S passes in
      if negb failed_any || (step_count <? passes)%nat then dret ()
      else resolve_deferred_loop fuel passes cfg workspace_name job_id snapshots task
  end.
Definition resolve_deferred_steps (fuel : nat) := resolve_deferred_loop fuel 0.
End deferred.

(** ** What a deferred step resolves to

    The value of a templated ref is checked before it is used, the commit is
    the job's one commit for it, whatever other resolvers write meanwhile. *)

(** ** The monad *)

Lemma dbind_ok {A B} (m : D A) (k : A → D B) s s' b :
  dbind m k s = (s', Ok b) → ∃ a s1, m s = (s1, Ok a) ∧ k a s1 = (s', Ok b).
Proof. unfold dbind. destruct (m s) as [s1 [a|e]]; [eauto|done]. Qed.

Lemma dask_ok {E A : Type} (x : MT E A) s s' r :
  dask x s = (s', Ok r) → srv_db s' = srv_db s ∧ r = res_map fst (x (mkSt ∅ (srv_calls s))).
Proof. unfold dask, dbind, dcalls, dret. by destruct (x _) as [[a st]|e]; intros [= <- <-]. Qed.

Lemma dread_ok {A} (f : Db → A) s s' a : dread f s = (s', Ok a) → s' = s ∧ a = f (srv_db s).
Proof. by intros [= <- <-]. Qed.

(** ** The job's pins *)

(** What the table of pins holds stays. *)
Definition pins_le (db db' : Db) : Prop := ∀ j w r c, pin_get j w r db = Some c → pin_get j w r db' = Some c.
#[export] Instance pins_le_preorder : PreOrder pins_le.
Proof. split; [by intros db j w r c|]. intros a b c H1 H2 j w r x Hx. by apply H2, H1. Qed.

(** Other sessions never change or drop a pin of a job. *)
Definition pins_kept (env : Env) : Prop := ∀ n db, pins_le db (ev_others env n db).

Lemma insert_pins_le rows db : pins_le db (insert_many_tx rows db).
Proof.
  intros j w r c. unfold pin_get, insert_many_tx, with_ref_pin. cbn [db_ref_pin]. rewrite find_insert_pins.
  by destruct (List.find _ (db_ref_pin db)).
Qed.

Lemma first_wins_ok job w r c s s' stored :
  dinsert_first_wins job w r c s = (s', Ok stored) →
  pins_le (srv_db s) (srv_db s') ∧ pin_get job w r (srv_db s') = Some stored ∧ (stored = c ∨ pin_get job w r (srv_db s) = Some stored).
Proof.
  unfold dinsert_first_wins. intros (x & s1 & E1 & E2)%dbind_ok. unfold dwrite in E1.
  pose proof (insert_first_wins_stored job w r c (srv_db s)) as Hs.
  assert (Hle : pins_le (srv_db s) (insert_first_wins job w r c (srv_db s)).1) by apply insert_pins_le.
  destruct (insert_first_wins job w r c (srv_db s)) as [db res]. destruct Hs as [-> Hg]. injection E1 as <- <-. injection E2 as <- <-.
  split_and!; [done|done|]. destruct (pin_get job w r (srv_db s)) as [c'|] eqn:Eg; [by right|by left].
Qed.

Section commits.
Context `{Workspaces, HashIter, Tera, JsonParser, Serde, Collation, TextForms} (env : Env).
Hypothesis Hkept : pins_kept env.

(** The values masked for a commit, when it loaded. *)
Definition commit_values (n : nat) (ws : string) (pinned : Pinned) : list string :=
  collect_redaction_values
    (from_parts ws (Some (pn_config pinned)) (List.filter (λ p, p.1 <>? ws) (get_all_configs n)) (elements configured_names)).

(** No value a reading of the commit's configuration shows is in the text. *)
Definition clean_at (ws commit value : string) : Prop :=
  ∃ n m pinned, pin_ensure n ws commit = Ok pinned ∧ ∀ s, s ∈ commit_values m ws pinned → s ≠ "" → ¬ infix (bytes s) (bytes (trim value)).

Lemma meanwhile_ok s s' u : meanwhile env s = (s', Ok u) → pins_le (srv_db s) (srv_db s').
Proof. intros [= <- <-]. apply Hkept. Qed.

Lemma pinned_private_ok ws c st p st' : pinned_config_private ws c st = Ok (p, st') → pin_ensure (calls st) ws c = Ok p.
Proof. unfold pinned_config_private. destruct (pin_ensure _ _ _) as [q|[]]; try done. by intros [= -> _]. Qed.

Lemma select_loop_ok tries job owner value c s s' pin :
  select_loop env tries job owner value c s = (s', Ok (Ok pin)) →
  pins_le (srv_db s) (srv_db s') ∧ Pins.git_ref pin = value ∧ pin_get job owner value (srv_db s') = Some (commit pin) ∧
  clean_at owner (commit pin) value.
Proof.
  revert c s. induction tries as [|tries IH]; intros c s; [done|]. cbn [select_loop].
  intros (p & s1 & [Hd1 Hp]%dask_ok & E)%dbind_ok. destruct p as [pinned|e]; [|done].
  destruct (pinned_config_private owner c _) as [[p st]|] eqn:Ep; simplify_eq/=. apply pinned_private_ok in Ep.
  apply dbind_ok in E as (own & s2 & [Hd2 ->]%dask_ok & E). simpl in E.
  destruct (check_rendered_ref value _) as [v|r] eqn:Ec; [|done].
  apply dbind_ok in E as (u & s3 & Hd3%meanwhile_ok & E). apply dbind_ok in E as (stored & s4 & (Hd4 & Hg & Hor)%first_wins_ok & E).
  assert (Hle : pins_le (srv_db s) (srv_db s4)) by (etrans; [|exact Hd4]; etrans; [|exact Hd3]; by rewrite Hd2, Hd1).
  case_bool_decide as Es.
  - subst stored. injection E as <- <-. split_and!; [done|done|done|]. apply check_rendered_ref_ok in Ec as (-> & _ & Hc).
    exists (srv_calls s), (srv_calls s1), p. split; [exact Ep|]. intros x Hx Hne. by apply Hc.
  - apply IH in E as (? & ? & ? & ?). split_and!; [by etrans|done..].
Qed.

Lemma select_commit_ok job owner value s s' pin :
  select_commit env job owner value s = (s', Ok (Ok pin)) →
  pins_le (srv_db s) (srv_db s') ∧ Pins.git_ref pin = value ∧ pin_get job owner value (srv_db s') = Some (commit pin) ∧
  clean_at owner (commit pin) value.
Proof.
  unfold select_commit. intros (known & s1 & [-> ->]%dread_ok & E)%dbind_ok.
  destruct (pin_get job owner value (srv_db s)) as [c|]; [by apply select_loop_ok in E|].
  apply dbind_ok in E as (r & s1 & [Hd _]%dask_ok & E). destruct r as [c|e]; [|done]. apply select_loop_ok in E as (? & ? & ? & ?).
  rewrite Hd in *. done.
Qed.

Lemma pin_values_ok pins values s s' out :
  pin_values pins values s = (s', Ok (Ok out)) →
  srv_db s' = srv_db s ∧ (∀ x, x ∈ values → x ∈ out) ∧
  ∀ w c, (w, c) ∈ pins → ∃ n m pinned, pin_ensure n w c = Ok pinned ∧ ∀ x, x ∈ commit_values m w pinned → x ∈ out.
Proof.
  revert values s. induction pins as [|[w c] pins IH]; intros values s; cbn [pin_values].
  { intros [= <- <-]. split_and!; [done|done|]. intros w c Hin. by apply elem_of_nil in Hin. }
  intros (p & s1 & [Hd1 Hp]%dask_ok & E)%dbind_ok. destruct p as [pinned|e]; [|done].
  destruct (pinned_config_private w c _) as [[p st]|] eqn:Ep; simplify_eq/=. apply pinned_private_ok in Ep.
  apply dbind_ok in E as (own & s2 & [Hd2 ->]%dask_ok & E). simpl in E. apply IH in E as (Hd3 & Hv & Hpins).
  split_and!; [congruence|intros x Hx; apply Hv, elem_of_app; by left|].
  intros w' c' [[= -> ->]|Hin]%elem_of_cons; [|by apply Hpins]. exists (srv_calls s), (srv_calls s1), p. split; [exact Ep|].
  intros x Hx. apply Hv, elem_of_app. by right.
Qed.

Lemma ref_secret_set_ok job s s' out :
  ref_secret_set job s = (s', Ok (Ok out)) →
  srv_db s' = srv_db s ∧
  (∃ n, ∀ x, x ∈ collect_redaction_values (from_parts (j_workspace job) None (get_all_configs n) (elements configured_names)) → x ∈ out) ∧
  ∀ w c, (w, c) ∈ job_pins job (pins_for_job (j_job_id job) (srv_db s)) →
    ∃ n m pinned, pin_ensure n w c = Ok pinned ∧ ∀ x, x ∈ commit_values m w pinned → x ∈ out.
Proof.
  unfold ref_secret_set. intros (set & s1 & [Hd1 ->]%dask_ok & E)%dbind_ok. simpl in E.
  apply dbind_ok in E as (rows & s2 & [-> ->]%dread_ok & E). apply pin_values_ok in E as (Hd & Hv & Hp). rewrite Hd1 in *.
  split_and!; [done|by exists (srv_calls s)|exact Hp].
Qed.
End commits.

(** ** The row *)

Lemma fold_memo_lookup rows m w r :
  fold_left (λ m r, memo_insert (rp_workspace r) (rp_git_ref r) (mkPinRef (rp_git_ref r) (rp_commit r)) m) rows m !! (w, r) =
  match m !! (w, r) with
  | Some p => Some p
  | None => (λ x, mkPinRef r (rp_commit x)) <$> List.find (λ x, (rp_workspace x ==? w) && (rp_git_ref x ==? r)) rows
  end.
Proof.
  revert m. induction rows as [|x rows IH]; intros m; [simpl; by destruct (m !! (w, r))|]. cbn [fold_left]. rewrite IH. cbn [List.find].
  unfold memo_insert. destruct (m !! (rp_workspace x, rp_git_ref x)) as [p|] eqn:Ex.
  - destruct (m !! (w, r)) as [q|] eqn:Em; [done|]. destruct ((rp_workspace x ==? w) && (rp_git_ref x ==? r)) eqn:Ek; [|done].
    apply andb_true_iff in Ek as [Ew%bool_decide_eq_true Er%bool_decide_eq_true]. rewrite Ew, Er in Ex. congruence.
  - destruct (decide ((rp_workspace x, rp_git_ref x) = (w, r))) as [[= Ew Er]|Hne]; [rewrite Ew, Er in *|].
    + rewrite lookup_insert_eq, Ex, !bool_decide_true by done. done.
    + rewrite lookup_insert_ne by done. destruct (m !! (w, r)); [done|].
      destruct ((rp_workspace x ==? w) && (rp_git_ref x ==? r)) eqn:Ek; [|done].
      apply andb_true_iff in Ek as [Ew%bool_decide_eq_true Er%bool_decide_eq_true]. by rewrite Ew, Er in Hne.
Qed.

(** The memo of a resolution starts as the job's table of pins. *)
Lemma from_rows_lookup j db w r : from_rows (pins_for_job j db) !! (w, r) = mkPinRef r <$> pin_get j w r db.
Proof.
  unfold from_rows. rewrite fold_memo_lookup, lookup_empty. unfold pins_for_job, pin_get. induction (db_ref_pin db) as [|x l IH]; [done|].
  cbn [List.filter List.find]. unfold same_pin_key at 1. cbn [rp_job_id rp_workspace rp_git_ref].
  rewrite (bool_decide_ext (j = _) (rp_job_id x = j)) by done. rewrite (bool_decide_ext (w = _) (rp_workspace x = w)) by done.
  rewrite (bool_decide_ext (r = _) (rp_git_ref x = r)) by done.
  case_bool_decide; cbn [andb]; [|done]. cbn [List.find]. destruct (_ && _); [done|exact IH].
Qed.

Lemma from_rows_ok j db : memo_ok (from_rows (pins_for_job j db)).
Proof. intros w r p. rewrite from_rows_lookup. intros (c & _ & ->)%fmap_Some. done. Qed.

Lemma insert_entries_first_ok j l agreed s s' :
  insert_entries_first j l agreed s = (s', Ok true) →
  agreed = true ∧ pins_le (srv_db s) (srv_db s') ∧
  Forall (λ e, pin_get j (rp_workspace e) (rp_git_ref e) (srv_db s') = Some (rp_commit e)) l.
Proof.
  revert agreed s. induction l as [|e l IH]; intros agreed s; cbn [insert_entries_first]; [by intros [= <- ->]|].
  intros (stored & s1 & (Hle & Hg & _)%first_wins_ok & E)%dbind_ok. apply IH in E as ([-> Hs%bool_decide_eq_true]%andb_true_iff & Hle' & Hf).
  split_and!; [done|by etrans|]. constructor; [rewrite <-Hs; by apply Hle'|done].
Qed.

Lemma insert_entries_first_le j l agreed s s' b :
  insert_entries_first j l agreed s = (s', Ok b) → pins_le (srv_db s) (srv_db s').
Proof.
  revert agreed s. induction l as [|e l IH]; intros agreed s; cbn [insert_entries_first]; [by intros [= <- ->]|].
  intros (stored & s1 & (Hle & _)%first_wins_ok & E)%dbind_ok. etrans; [exact Hle|by eapply IH].
Qed.

Lemma elem_of_memo_entries j m w r p : m !! (w, r) = Some p → mkRefPinRec j w r (commit p) ∈ memo_entries j m.
Proof.
  intros Hm. unfold memo_entries. apply list_elem_of_fmap. exists ((w, r), p). split; [done|]. by apply elem_of_map_to_list.
Qed.

Section row.
Context `{Workspaces, HashIter, Tera, JsonParser, Serde, Collation, TextForms} (env : Env).
Hypothesis Hkept : pins_kept env.

(** A resolution at a ref is stamped with that ref. *)
Lemma resolved_at_ref x n fs st v st0 row st1 :
  memo_ok (memo st0) → resolve_step_row x n fs st (Some v) st0 = Ok (row, st1) → nj_action_ref row = Some v.
Proof.
  intros Hok. unfold resolve_step_row. intros (sa & st2 & Ha & E)%mbind_ok.
  assert (Hp : Pins.git_ref <$> sa_pin sa = Some v).
  { unfold mfails in Ha. destruct (resolve_step_action _ _ _ _ _ (Some v) st0) as [[sa' st2']|] eqn:Er; [|done]. injection Ha as -> ->.
    unfold resolve_step_action in Er. apply mbind_ok in Er as (u & st3 & [_ ->]%mlift_ok & Er).
    apply mbind_ok in Er as (plan & st3 & [Hpl ->]%mlift_ok & Er). destruct plan as [target r|b]; [|done].
    assert (r = v) as ->.
    { unfold plan_link, plan_reference in Hpl. destruct (ref_owner _ _ _) as [t|]; simpl in Hpl; [|done].
      destruct (bool_decide (rt_owner t ∈ _)); [|done]. by simplify_eq/=. }
    apply mbind_ok in Er as ([pin pinned] & st3 & Hpin & Er). apply mbind_ok in Er as (act & st4 & [_ ->]%mlift_ok & Er).
    destruct (bool_decide (a_action_type act = _)); [done|]. injection Er as <- _. cbn.
    destruct (pin_at_ref_spec (rt_owner target) v (λ _, True) _ st0 (pin, pinned) st3 Hok I Hpin) as (_ & _ & Hg & _). simpl in Hg. by rewrite Hg. }
  apply mbind_ok in E as (tp & st3 & _ & E). apply mlift_ok in E as [Hb%build_step_pins _].
  destruct Hb as (_ & _ & _ & _ & _ & -> & _). exact Hp.
Qed.

(** What a resolved row says of its pins is what the job's table holds. *)
Definition row_pinned (j : Uuid) (db : Db) (row : NewJobStep) : Prop :=
  (∀ r, nj_action_ref row = Some r → ∃ w c, nj_action_workspace row = Some w ∧ nj_action_revision row = Some c ∧ pin_get j w r db = Some c) ∧
  (∀ r, nj_task_ref row = Some r → ∃ w c, nj_task_workspace row = Some w ∧ nj_task_revision row = Some c ∧ pin_get j w r db = Some c).

Lemma row_loop_ok ws job tries x n fs v owner act s s' row :
  rx_workspace_name x = ws → rx_job_pin x = of_job job →
  (∀ p, of_job job = Some p → pin_get (j_job_id job) ws (Pins.git_ref p) (srv_db s) = Some (commit p)) →
  row_loop env ws job tries x n fs v owner act s = (s', Ok (Ok row)) →
  pins_le (srv_db s) (srv_db s') ∧ row_pinned (j_job_id job) (srv_db s') row ∧ default ws (nj_action_workspace row) = owner ∧
  nj_action_name row = act ∧ (∀ r, v = Some r → nj_action_ref row = Some r).
Proof.
  intros Hx Hxp. revert s. induction tries as [|tries IH]; intros s Hjob; [done|]. cbn [row_loop].
  intros (rows & s1 & [-> ->]%dread_ok & E)%dbind_ok. apply dbind_ok in E as (r & s1 & Hr & E).
  unfold dcalls in Hr. destruct (resolve_step_row x n fs StepReady v _) as [[row' st]|e] eqn:Er; injection Hr as <- <-; cbv iota beta in E.
  2:{ by destruct e. }
  destruct (bool_decide (default ws (nj_action_workspace row') = owner)) eqn:Eo; [|done].
  destruct (bool_decide (nj_action_name row' = act)) eqn:Ea; [|done]. cbn [negb orb] in E.
  apply bool_decide_eq_true in Eo, Ea. apply dbind_ok in E as (u & s2 & Hm%meanwhile_ok & E); [|done]. cbn [srv_db] in Hm.
  apply dbind_ok in E as (agreed & s3 & Hins & E). destruct agreed.
  - apply insert_entries_first_ok in Hins as (_ & Hle & Hall). injection E as <- <-.
    pose proof (resolve_step_row_spec x n fs StepReady v) as Hspec.
    destruct (Hspec (mkSt (from_rows (pins_for_job (j_job_id job) (srv_db s))) (srv_calls s)) row' st) as (_ & _ & Hrec & _);
      [apply from_rows_ok| |exact Er|].
    { intros p Hp. rewrite Hx, Hxp in *. unfold recorded. cbn [memo]. rewrite from_rows_lookup, (Hjob p Hp). by destruct p. }
    rewrite Forall_forall in Hall.
    split_and!; [by etrans| |done|done|].
    + destruct Hrec as [Ha Ht]. split; intros r Hr; [destruct (Ha r Hr) as (w & c & ? & ? & Hl)|destruct (Ht r Hr) as (w & c & ? & ? & Hl)];
        exists w, c; (split_and!; [done..|]); apply (elem_of_memo_entries (j_job_id job)) in Hl; exact (Hall _ Hl).
    + intros r ->. eapply resolved_at_ref; [|exact Er]. apply from_rows_ok.
  - apply insert_entries_first_le in Hins. assert (Hle : pins_le (srv_db s) (srv_db s3)) by by etrans.
    apply IH in E as (? & ? & ? & ? & ?); [|by intros p Hp; apply Hle, Hjob]. split_and!; [by etrans|done..].
Qed.

Lemma build_row_ok cfg ws job n fs v owner act s s' row :
  (∀ p, of_job job = Some p → pin_get (j_job_id job) ws (Pins.git_ref p) (srv_db s) = Some (commit p)) →
  build_row env cfg ws job n fs v owner act s = (s', Ok (Ok row)) →
  pins_le (srv_db s) (srv_db s') ∧ row_pinned (j_job_id job) (srv_db s') row ∧ default ws (nj_action_workspace row) = owner ∧
  nj_action_name row = act ∧ (∀ r, v = Some r → nj_action_ref row = Some r).
Proof.
  intros Hjob. unfold build_row. intros (set & s1 & [Hd ->]%dask_ok & E)%dbind_ok. cbn [res_map load_set fst] in E.
  apply row_loop_ok in E; [by rewrite Hd in E|done|done|by rewrite Hd].
Qed.

(** What a deferred step resolves to: the owner and action decided at
    creation; pins that are the job's one commit for each ref, kept by the
    job's table from then on; and when the template rendered to a ref, that
    ref, a valid one in which no secret occurs: none of the live workspaces,
    none of a commit the job is pinned to, none of the commit it selects. *)
Theorem deferred_ref_sound cfg ws job snapshots task steps step s s' row :
  (∀ p, of_job job = Some p → pin_get (j_job_id job) ws (Pins.git_ref p) (srv_db s) = Some (commit p)) →
  resolve_one env cfg ws job snapshots task steps step s = (s', Ok (Ok row)) →
  default ws (nj_action_workspace row) = default ws (js_action_workspace step) ∧ nj_action_name row = js_action_name step ∧
  pins_le (srv_db s) (srv_db s') ∧ row_pinned (j_job_id job) (srv_db s') row ∧
  ∃ template rendered, js_ref_template step = Some template ∧
    render_ref_template template (rc_value (build (job_ctx cfg snapshots job) (views steps) (slot_of step) StepRef)) = Ok rendered ∧
    (trim rendered ≠ "" →
     nj_action_ref row = Some (trim rendered) ∧ (∃ spec, parse_git_ref (trim rendered) = Ok spec) ∧
     (∃ c, pin_get (j_job_id job) (default ws (js_action_workspace step)) (trim rendered) (srv_db s') = Some c ∧
        clean_at (default ws (js_action_workspace step)) c (trim rendered)) ∧
     (∃ n, ∀ x, x ∈ collect_redaction_values (from_parts (j_workspace job) None (get_all_configs n) (elements configured_names)) → x ≠ "" →
        ¬ infix (bytes x) (bytes (trim rendered))) ∧
     ∀ w c, (w, c) ∈ job_pins job (pins_for_job (j_job_id job) (srv_db s)) → clean_at w c (trim rendered)).
Proof.
  intros Hjob. unfold resolve_one. destruct (js_ref_template step) as [template|]; [|done].
  destruct (flow task !! _) as [fs|]; [|done]. destruct (render_ref_template _ _) as [rendered|e] eqn:Er; [|done].
  unfold rendered_ref_value. case_bool_decide as Ee.
  - intros E%build_row_ok; [|done]. destruct E as (Hle & Hrow & Ho & Ha & _). split_and!; [done..|]. exists template, rendered. done.
  - intros (sec & s1 & Hs & E)%dbind_ok. destruct sec as [sec|e]; [|done]. apply ref_secret_set_ok in Hs as (Hd & (n & Hlive) & Hpins).
    destruct (check_rendered_ref _ _) as [value|] eqn:Ec; [|done]. apply check_rendered_ref_ok in Ec as (-> & Hspec & Hsec).
    rewrite trim_trim in *. apply dbind_ok in E as (pin & s2 & Hsel & E). destruct pin as [pin|e]; [|done].
    apply select_commit_ok in Hsel as (Hle & Hg & Hget & Hclean); [|done]. rewrite Hd in Hle.
    apply build_row_ok in E as (Hle2 & Hrow & Ho & Ha & Hv); [|by intros p Hp; apply Hle, Hjob].
    split_and!; [done|done|by etrans|done|]. exists template, rendered. split_and!; [done..|]. intros _. split_and!; [by apply Hv|done| | |].
    + exists (commit pin). split; [by apply Hle2|]. unfold clean_at in *. rewrite trim_trim in Hclean. by rewrite trim_trim.
    + exists n. intros x Hx Hne. apply Hsec; [by apply Hlive|done].
    + intros w c Hin. destruct (Hpins w c Hin) as (n1 & m1 & pinned & Hens & Hval). exists n1, m1, pinned. split; [done|].
      intros x Hx Hne. rewrite trim_trim. apply Hsec; [by apply Hval|done].
Qed.
End row.
