(* ===== verification/Dispatch.v ===== *)
(** * Server-side dispatch

    [crates/stroem-server/src/settlement/dispatch.rs]: child jobs for ready
    [type: task] steps, suspension of ready approval steps, and the
    initialisation of a job right after its creation, which a child job's
    creation runs in turn. *)
From S2P Require Import Prelude Json Text Lines Utf8 Template TemplateError GitRef Workflow JobModel Gate Db StepRepo StepRepoProps JobRepo JobRepoProps Pins FileField InputFiles Errors Engine JsonField TypedInput Connections WorkspaceSet RenderContext Refs Manager Retry JobCreator JobCreatorProps Cascade CascadeApply Settle Redact Trigger Settlement Server Deferred.

Definition TaskPinCols := option (string * string * string).
Definition stamp_cols (task_stamp : option (string * PinRef)) : TaskPinCols :=
  (λ '(ws, pin), (ws, Pins.git_ref pin, commit pin)) <$> task_stamp.

Definition withheld_owner_render_error (step_name owner : string) : string :=
  "Failed to prepare input for task step '" +:+ step_name +:+ "': rendering in workspace '" +:+ owner +:+
  "' failed (details withheld from this job; see the server log or validate the owner workspace)".

Inductive TemplatedTaskRef :=
| Stamped (t_ws : string) (pin : PinRef)
| NoRef
| Moved
| TaskRefFailed (message : string) (withheld : option string).

(** The entries of a stored input. *)
Definition input_entries (input : option json) : gmap string json :=
  match input with Some (JObject m) => list_to_map m | _ => ∅ end.

Section dispatch.
Context `{Workspaces, HashIter, Tera, JsonParser, Serde, Collation, TextForms, Unicode} (env : Env).

(** ** Failing a step *)

Section job.
Context (cfg : WorkspaceConfig) (workspace_name : string) (task : TaskDef) (snapshots : Snapshots).

(** An error of the cascade is logged. *)
Definition orchestrate_after_server_step_failure (job_id : Uuid) : D unit := λ s,
  ((cascade_and_settle_now env job_id task cfg snapshots s).1, Ok ()).

Definition fail_task_step (job_id : Uuid) (step_name err : string) (extra_secret_values : list string) (persist_override : option string)
    (expected : option (StepStatus * TaskPinCols)) : D bool :=
  let scrubbed := mask_text err (collect_config_secret_values cfg ++ extra_secret_values) in
  let persisted := default scrubbed persist_override in
  let& applied :=
    match expected with
    | Some (status, task_pin) => dwrite (fail_task_dispatch (ev_now env) job_id step_name persisted status task_pin)
    | None => let& _ := dupdate (mark_failed (ev_now env) job_id step_name persisted) in dret true
    end in
  if negb applied then dret false
  else let& _ := orchestrate_after_server_step_failure job_id in dret true.

(** ** The task of a step *)

Definition load_step_pin (ws : string) (pin : PinRef) : D (result string ConfigHandle) :=
  let& r := dask (config_for_user ws (Some pin)) in
  dret match r with
       | Ok (Some handle) => Ok handle
       | Ok None => Err (cannot_be_loaded ws pin [LMsg ("workspace '" +:+ ws +:+ "' is not available")])
       | Err e => Err (cannot_be_loaded ws pin e)
       end.

Definition resolve_stamped_task (t_ws : string) (pin : PinRef) (task_ref : string) : D (result AnyError ResolvedTask) :=
  let& h := load_step_pin t_ws pin in
  dret match h with
       | Err line => Err [LMsg line]
       | Ok h =>
           let? (task_name, t) := task_at t_ws (handle_config h) task_ref (Pins.git_ref pin) in
           Ok (mkResolvedTask t_ws task_name t (Foreign (handle_config h)))
       end.

Definition self_reference (job : JobRow) (step_name task_ref : string) : TemplatedTaskRef :=
  TaskRefFailed ("[ref] step '" +:+ step_name +:+ "': task '" +:+ task_ref +:+ "' is a self-reference to '" +:+
                 j_workspace job +:+ "/" +:+ j_task_name job +:+ "' (invalid)") None.

Definition stamp_step (job_id : Uuid) (step_name ws : string) (pin : PinRef) : D TemplatedTaskRef :=
  let& stamped := dwrite (stamp_task_pin job_id step_name ws (Pins.git_ref pin) (commit pin)) in
  dret (if stamped : bool then Stamped ws pin else Moved).

Definition no_ref_task (job : JobRow) (step : JobStepRow) (task_ref base_ws : string) (base_cfg : WorkspaceConfig) : D TemplatedTaskRef :=
  let job_pin := of_job job in
  let base_pin := base_pin_of (of_step_action step) (js_action_workspace step) job_pin in
  let& r := dask (resolve_task_for_step base_ws base_cfg base_pin task_ref None) in
  match r with
  | Err e => dret (TaskRefFailed ("Failed to resolve task for step '" +:+ js_step_name step +:+ "': " +:+ chain_text e) None)
  | Ok (resolved, pin) =>
      if (rk_workspace resolved ==? j_workspace job) && (rk_task_name resolved ==? j_task_name job) && (pin ==? job_pin)
      then dret (self_reference job (js_step_name step) task_ref)
      else match pin with
           | None => dret NoRef
           | Some pin => stamp_step (j_job_id job) (js_step_name step) (rk_workspace resolved) pin
           end
  end.

Definition resolve_templated_task_ref (job : JobRow) (jc : JobContext) (input_ctx : json) (step : JobStepRow) (template task_ref base_ws : string)
    (base_cfg : WorkspaceConfig) : D TemplatedTaskRef :=
  let name := js_step_name step in
  let failed e := dret (TaskRefFailed ("[ref] step '" +:+ name +:+ "': " +:+ RenderedRefError_fmt e) None) in
  match render_ref_projection (input_entries (js_input step)) input_ctx with
  | Err e => dret (TaskRefFailed ("Failed to render input for task step '" +:+ name +:+ "' (ref input): " +:+ chain_text e) None)
  | Ok ref_input =>
      match render_ref_template template (rc_value (build jc [] None (TaskActionRef ref_input))) with
      | Err e =>
          dret (TaskRefFailed ("[ref] step '" +:+ name +:+ "': " +:+ RenderedRefError_fmt (from_error e base_ws))
                  (if base_ws ==? workspace_name then None else Some (withheld_owner_render_error name base_ws)))
      | Ok rendered =>
          match plan_reference base_ws None task_ref (Some template) world with
          | Err e => failed (from_plan_error e base_ws)
          | Ok (Today _) => dpanic  (* unreachable: a ref was given *)
          | Ok (AtRef target _) =>
              match rendered_ref_value rendered with
              | None => no_ref_task job step task_ref base_ws base_cfg
              | Some rendered =>
                  let& secrets := ref_secret_set job in
                  match secrets with
                  | Err e => failed e
                  | Ok secrets =>
                      match check_rendered_ref rendered secrets with
                      | Err r => failed (from_rejection r (rt_owner target))
                      | Ok value =>
                          let& pin := select_commit env (j_job_id job) (rt_owner target) value in
                          match pin with
                          | Err e => failed e
                          | Ok pin =>
                              if (rt_owner target ==? j_workspace job) && (rt_local_name target ==? j_task_name job) &&
                                 (of_job job ==? Some pin)
                              then dret (self_reference job name task_ref)
                              else
                                let& p := dask (pinned_config_private (rt_owner target) (commit pin)) in
                                match p with
                                | Err e => failed (from_error e (rt_owner target))
                                | Ok p =>
                                    if bool_decide (is_Some (tasks (pn_config p) !! rt_local_name target))
                                    then stamp_step (j_job_id job) name (rt_owner target) pin
                                    else failed (rendered_new KNoAction (rt_owner target))
                                end
                          end
                      end
                  end
              end
          end
      end
  end.

(** ** Preparing a dispatch *)

(** A failure of the step: the message, the further values to mask in it, the
    text persisted instead of it, and the stamp the row is expected to carry. *)
Record StepErr := mkStepErr {
  se_message : string;
  se_extra : list string;
  se_override : option string;
  se_stamp : option (string * PinRef);
}.

Definition DE (A : Type) : Type := D (result StepErr A).
Definition ebind {A B : Type} (m : DE A) (k : A → DE B) : DE B :=
  let& r := m in match r with Ok a => k a | Err e => dret (Err e) end.
Notation "'let%' x ':=' m 'in' k" := (ebind m (λ x, k)) (at level 10, x pattern, k at level 200) : stroem_scope.

Record DispatchPlan := mkPlan {
  dp_stamp : option (string * PinRef);
  dp_resolved : ResolvedTask;
  dp_config : WorkspaceConfig;
  dp_caller : json;
  dp_input : json;
  dp_base_ws : string;
  dp_scrub : list string;
}.

(** The action's owner and its config, [None] for the job's own. *)
Definition action_owner_config (step : JobStepRow) (base_ws : string) : DE (option ConfigHandle) :=
  let fail text := dret (Err (mkStepErr text [] None (of_step_task step))) in
  match of_step_action step with
  | Some pin =>
      let& h := load_step_pin base_ws pin in
      match h with
      | Ok handle => dret (Ok (Some handle))
      | Err line => fail (line +:+ " (owner of action '" +:+ js_action_name step +:+ "')")
      end
  | None =>
      if base_ws ==? workspace_name then dret (Ok None)
      else
        let& c := dask (E := Fault) (λ st, Ok (get_config (calls st) base_ws, tick st)) in
        match c with
        | Ok (Some c) => dret (Ok (Some (Live c)))
        | _ => fail ("workspace '" +:+ base_ws +:+ "' is not available (owner of action '" +:+ js_action_name step +:+ "')")
        end
  end.

(** The stamp the dispatch works with: the row's, or the one a templated ref
    gets now. [None]: the row moved. *)
Definition stamp_of (job : JobRow) (jc : JobContext) (input_ctx : json) (step : JobStepRow) (action_spec : json) (task_ref base_ws : string)
    (base_cfg : WorkspaceConfig) : DE (option (option (string * PinRef))) :=
  let own := of_step_task step in
  match own, (r ← json_get "ref" action_spec ≫= as_str; if bool_decide (classify_ref r = Template) then Some r else None) with
  | None, Some template =>
      let& t := resolve_templated_task_ref job jc input_ctx step template task_ref base_ws base_cfg in
      dret match t with
           | Stamped t_ws pin => Ok (Some (Some (t_ws, pin)))
           | NoRef => Ok (Some None)
           | Moved => Ok None
           | TaskRefFailed message withheld => Err (mkStepErr message (collect_config_secret_values base_cfg) withheld None)
           end
  | _, _ => dret (Ok (Some own))
  end.

Definition resolve_dispatch_task (stamp : option (string * PinRef)) (base_ws : string) (base_cfg : WorkspaceConfig) (task_ref : string)
    : D (result AnyError ResolvedTask) :=
  match stamp with
  | Some (t_ws, pin) => resolve_stamped_task t_ws pin task_ref
  | None => dask (resolve_task_ref base_ws base_cfg task_ref)
  end.

(** The caller's bucket: the step's input rendered against the task's schema. *)
Definition render_step_input (step : JobStepRow) (t : TaskDef) (context : json) : result AnyError json :=
  match js_input step with
  | Some (JObject (_ :: _)) => render_input_typed_with_files (input_entries (js_input step)) (Some (td_input t)) context (sn_files snapshots)
  | _ => Ok (JObject [])
  end.

Definition action_schema_of (action_spec : json) : result string (gmap string InputFieldDef) :=
  match json_get "input" action_spec with
  | None | Some JNull => Ok ∅
  | Some v => schema_from_value v
  end.

(** What the action's defaults add to the caller's bucket. *)
Definition default_bucket (caller_bucket : json) (schema : gmap string InputFieldDef) (base_cfg : WorkspaceConfig) : result AnyError json :=
  if bool_decide (schema = ∅) then Ok (JObject [])
  else
    let? merged := merge_action_defaults caller_bucket schema (secrets_ctx base_cfg) in
    Ok (JObject (List.filter (λ p, negb (bool_decide (is_Some (json_map_lookup p.1 (entries caller_bucket))))) (entries merged))).

(** An error of the action owner's bucket. *)
Definition is_action_default (e : AnyError) : bool := bool_decide (downcast as_provenance e = Some ActionDefault).

Definition prepare_dispatch (job : JobRow) (steps : list JobStepRow) (step : JobStepRow) (action_spec : json) (task_ref : string)
    : DE (option DispatchPlan) :=
  let name := js_step_name step in
  let base_ws := default workspace_name (js_action_workspace step) in
  let% handle := action_owner_config step base_ws in
  let base_cfg := match handle with Some h => handle_config h | None => cfg end in
  let base_addr := match handle with Some _ => 1%N | None => 0%N end in
  let scrub := collect_config_secret_values base_cfg in
  let jc := job_ctx cfg snapshots job in
  let context := rc_value (build jc (views steps) (slot_of step) ChildTaskInput) in
  let% stamp := stamp_of job jc context step action_spec task_ref base_ws base_cfg in
  match stamp with
  | None => dret (Ok None)
  | Some stamp =>
      let fail text scrub withheld := dret (Err (mkStepErr text scrub withheld stamp)) in
      let withhold (owner_side : bool) := if owner_side && (base_ws <>? workspace_name) then Some (withheld_owner_render_error name base_ws) else None in
      let& r := resolve_dispatch_task stamp base_ws base_cfg task_ref in
      match r with
      | Err e => fail ("Failed to resolve task for step '" +:+ name +:+ "': " +:+ chain_text e) scrub None
      | Ok resolved =>
          let t_cfg := resolved_config resolved base_cfg in
          let t_addr := match rk_config resolved with Base => base_addr | Foreign _ => 2%N end in
          let scrub := scrub ++ collect_config_secret_values t_cfg in
          match render_step_input step (rk_task resolved) context with
          | Err e => fail ("Failed to render input for task step '" +:+ name +:+ "': " +:+ chain_text e) scrub None
          | Ok caller_bucket =>
              match action_schema_of action_spec with
              | Err e => fail ("step '" +:+ name +:+ "': action_spec.input is not an input schema: " +:+ e) scrub None
              | Ok schema =>
                  match default_bucket caller_bucket schema base_cfg with
                  | Err e => fail ("Failed to prepare action input for task step '" +:+ name +:+ "': " +:+ chain_text e) scrub (withhold true)
                  | Ok defaults =>
                      let& set := dask (load_set (rk_workspace resolved) (Some t_cfg)) in
                      let others := match set with Ok s => set_lookup s | Err _ => set_lookup (from_parts "" None [] []) end in
                      let roles := mkRoles (mkRole workspace_name 0 cfg) (Some (mkRole base_ws base_addr base_cfg))
                                     (Some (mkRole (rk_workspace resolved) t_addr t_cfg)) others in
                      match resolve_task_input_by_provenance_roles caller_bucket defaults (td_input (rk_task resolved)) roles with
                      | Err e => fail ("Failed to resolve connection inputs for task step '" +:+ name +:+ "': " +:+ chain_text e) scrub (withhold (is_action_default e))
                      | Ok input => dret (Ok (Some (mkPlan stamp resolved t_cfg caller_bucket input base_ws scrub)))
                      end
                  end
              end
          end
      end
  end.

(** ** The child job *)

(** What the child is created with, at [revision] when it is not stamped. *)
Definition child_args (job : JobRow) (step : JobStepRow) (p : DispatchPlan) (revision : option string) : CreateArgs :=
  let '(revision, git_ref) := match dp_stamp p with Some (_, pin) => (Some (commit pin), Some (Pins.git_ref pin)) | None => (revision, None) end in
  mkCreate (dp_config p) (rk_workspace (dp_resolved p)) (rk_task_name (dp_resolved p)) (dp_input p) "task"
    (Some (uuid_text (j_job_id job) +:+ "/" +:+ js_step_name step)) (Some (j_job_id job)) (Some (js_step_name step))
    revision Normal (ev_defaults env) git_ref TaskChild.

(** The revision of an unstamped child. *)
Definition live_child_revision (job : JobRow) (p : DispatchPlan) : D (option string) :=
  if (rk_workspace (dp_resolved p) ==? j_workspace job) && bool_decide (j_git_ref job = None) then dret (j_revision job)
  else
    let& r := dask (E := Fault) (λ st, Ok (get_revision (calls st) (rk_workspace (dp_resolved p)), tick st)) in
    dret (default None (res_ok r)).

Context (child_init : CreateArgs → Uuid → TaskDef → D (option JobStatus)).

(** [create_job_for_task_inner] with the initialisation of the child. *)
Definition create_child (a : CreateArgs) : D CreatedJob :=
  let& job_id := fresh_id env in λ s,
  match prepare job_id (srv_calls s) a (srv_db s) with
  | Err e => (s, Err e)
  | Ok p =>
      match creation_tx (ev_now env) (ev_host_now env) job_id a p (srv_db s, srv_files s) with
      | Err e => (s, Err (Erred e))
      | Ok (db, ft) =>
          match child_init a job_id (pr_task p) (mkServer db ft (srv_calls s + 100) (srv_ids s)) with
          | (s', Ok settled) => (s', Ok (mkCreatedJob job_id (bool_decide (is_Some settled))))
          | (s', Err (Erred e)) =>
              let '(db, r) := after_failed_init (ev_uncompensated env) (ev_now env) job_id e (srv_db s') in
              (srv_with_db db s', r)
          | (s', Err Panics) => (s', Err Panics)
          end
      end
  end.

(** The error of a call as a value; a panic goes on. *)
Definition dtry {A : Type} (m : D A) : D (result AnyError A) := λ s,
  match m s with
  | (s', Ok a) => (s', Ok (Ok a))
  | (s', Err (Erred e)) => (s', Ok (Err e))
  | (s', Err Panics) => (s', Err Panics)
  end.

Definition is_owner_side (e : AnyError) : bool := bool_decide (is_Some (downcast as_owner_side e)).

Definition dispatch_claimed (job : JobRow) (step : JobStepRow) (task_ref : string) (p : DispatchPlan) : D bool :=
  let name := js_step_name step in
  let& claimed := dwrite (claim_task_dispatch (ev_now env) (j_job_id job) name (stamp_cols (dp_stamp p))) in
  if negb claimed then dret false
  else
    let persisted := if dp_base_ws p ==? workspace_name then dp_input p else dp_caller p in
    let& _ := dupdate (update_input (j_job_id job) name (Some persisted)) in
    let& _ := dupdate (mark_running_if_pending_server (ev_now env) (j_job_id job)) in
    let& revision := live_child_revision job p in
    let& created := dtry (create_child (child_args job step p revision)) in
    match created with
    | Ok _ => dret false
    | Err e =>
        let ws := rk_workspace (dp_resolved p) in
        let err := "Failed to create child job for task '" +:+ task_ref +:+ "': " +:+ chain_text e in
        let override := if is_owner_side e && (ws <>? workspace_name) then Some (withheld_owner_render_error name ws) else None in
        fail_task_step (j_job_id job) name err (dp_scrub p) override (Some (StepRunning, stamp_cols (dp_stamp p)))
    end.

Definition dispatch_one (job : JobRow) (steps : list JobStepRow) (step : JobStepRow) : D bool :=
  if negb ((js_status step ==? "ready") && (js_action_type step ==? "task")) then dret false
  else
    match js_action_spec step with
    | None => dfail [LMsg "Missing action_spec for task step"]
    | Some action_spec =>
        match json_get "task" action_spec ≫= as_str with
        | None => dfail [LMsg "Missing task field in action_spec"]
        | Some task_ref =>
            let& depth := dread (compute_depth job) in
            if (MAX_TASK_DEPTH <=? depth)%nat then
              fail_task_step (j_job_id job) (js_step_name step)
                ("Maximum task nesting depth (" +:+ pretty (N.of_nat MAX_TASK_DEPTH) +:+ ") exceeded for task '" +:+ task_ref +:+ "'") [] None
                (Some (StepReady, stamp_cols (of_step_task step)))
            else
              let& r := prepare_dispatch job steps step action_spec task_ref in
              match r with
              | Err e =>
                  fail_task_step (j_job_id job) (js_step_name step) (se_message e) (se_extra e) (se_override e)
                    (Some (StepReady, stamp_cols (se_stamp e)))
              | Ok None => dret false
              | Ok (Some p) => dispatch_claimed job step task_ref p
              end
        end
    end.

Fixpoint dispatch_each (job : JobRow) (steps l : list JobStepRow) (failed_any : bool) : D bool :=
  match l with
  | [] => dret failed_any
  | step :: rest =>
      let& failed := dispatch_one job steps step in
      dispatch_each job steps rest (failed_any || failed)
  end.

Definition handle_task_steps_pass (job_id : Uuid) : D bool :=
  let& steps := dread (get_steps_for_job job_id) in
  let& job := dread (JobRepo.get job_id) in
  match job with
  | None => dfail [LMsg "Job not found"]
  | Some job => dispatch_each job steps steps false
  end.

(** At most one pass more than the flow has steps. *)
Fixpoint task_passes (n : nat) (job_id : Uuid) : D unit :=
  match n with
  | O => dret ()
  | S n =>
      let& failed_any := handle_task_steps_pass job_id in
      if failed_any : bool then task_passes n job_id else dret ()
  end.
Definition handle_task_steps (job_id : Uuid) : D unit := task_passes (S (size (flow task))) job_id.

(** ** Approvals *)

Definition approval_fail (job_id : Uuid) (step_name err : string) : D unit :=
  let& _ := fail_task_step job_id step_name err [] None None in dret ().

(** The rendered input of an approval step, [None] when it has none. *)
Definition render_approval_input (step : JobStepRow) (context : json) : result AnyError (option json) :=
  match js_input step with
  | Some (JObject (_ :: _)) => res_map Some (render_input_map (input_entries (js_input step)) context)
  | _ => Ok None
  end.

Definition set_step_output (job_id : Uuid) (step_name : string) (output : json) (db : Db) : Db :=
  (update_step job_id step_name any_row (upd_row (set_output (Some output))) db).1.

Definition suspend_approval (job : JobRow) (step_name message : string) : D unit :=
  let& _ := dupdate (mark_suspended (ev_now env) (j_job_id job) step_name) in
  let& _ := dupdate (set_step_output (j_job_id job) step_name (json_obj [("approval_message", JString message)])) in
  dupdate (mark_running_if_pending_server (ev_now env) (j_job_id job)).

Definition approval_step (job : JobRow) (steps : list JobStepRow) (step : JobStepRow) : D unit :=
  let name := js_step_name step in
  if negb ((js_status step ==? "ready") && (js_action_type step ==? "approval")) then dret ()
  else
    let raw_message := default "" (spec ← js_action_spec step; m ← json_get "message" spec; as_str m) in
    let jc := job_ctx cfg snapshots job in
    match render_approval_input step (rc_value (build jc (views steps) (slot_of step) ChildTaskInput)) with
    | Err e => approval_fail (j_job_id job) name ("Failed to render input for approval step '" +:+ name +:+ "': " +:+ chain_text e)
    | Ok rendered =>
        let& _ := match rendered with Some v => dupdate (update_input (j_job_id job) name (Some v)) | None => dret () end in
        if raw_message ==? "" then suspend_approval job name ""
        else
          match render raw_message (rc_value (build jc (views steps) (slot_of step) (ApprovalMessage rendered))) with
          | Err e => approval_fail (j_job_id job) name ("Failed to render approval message for step '" +:+ name +:+ "': " +:+ chain_text e)
          | Ok msg => suspend_approval job name msg
          end
    end.

Fixpoint approval_each (job : JobRow) (steps l : list JobStepRow) : D unit :=
  match l with
  | [] => dret ()
  | step :: rest => let& _ := approval_step job steps step in approval_each job steps rest
  end.

Definition handle_approval_steps (job_id : Uuid) : D unit :=
  let& steps := dread (get_steps_for_job job_id) in
  let& job := dread (JobRepo.get job_id) in
  match job with
  | None => dfail [LMsg "Job not found"]
  | Some job => approval_each job steps steps
  end.

(** ** The rounds *)

(** [fuel] bounds the rounds and the passes of the deferred loop, which the
    code bounds by the number of steps. *)
Fixpoint init_rounds (fuel : nat) (job_id : Uuid) (seen : gset string) (repeats : nat) : D unit :=
  let& _ := dctx "resolve deferred steps" (resolve_deferred_steps env fuel cfg workspace_name job_id snapshots task) in
  let& _ := handle_task_steps job_id in
  let& _ := dctx "dispatch initial approval steps" (handle_approval_steps job_id) in
  let& names := dread (deferred_names job_id) in
  let '(seen, new) := absorb_new seen names in
  if negb new then dret ()
  else
    let& count := dread (λ db, length (get_steps_for_job job_id db)) in
    if within_bound (S repeats) count
    then match fuel with O => dret () | S fuel => init_rounds fuel job_id seen (S repeats) end
    else dret ().
End job.

(** ** Initialisation *)

(** The snapshots of the job's state partition are the answer of a read. *)
Context (latest_snapshots : string → string → option string → option RenderContext.Snapshot * option RenderContext.Snapshot) (fuel : nat).

Definition init_body (child_init : CreateArgs → Uuid → TaskDef → D (option JobStatus)) (a : CreateArgs) (job_id : Uuid) (task : TaskDef)
    : D (option JobStatus) :=
  let& git_ref := dread (λ db, JobRepo.get job_id db ≫= j_git_ref) in
  let '(task_state, global_state) := latest_snapshots (ca_workspace a) (ca_task_name a) git_ref in
  let& rows := λ s, (s, Ok (list_for_job job_id (srv_files s))) in
  let snapshots := mkSnapshots task_state global_state (job_files rows CANONICAL_INPUTS_ROOT) in
  let cfg := ca_config a in
  let& _ := λ s,
    match execute (ev_now env) job_id task (condition_context cfg snapshots) (cascade_scrub cfg) (λ _, srv_db s) (λ _, srv_db s) (λ _, false) with
    | Ok (committed, _) => (srv_with_db (default (srv_db s) committed) s, Ok ())
    | Err _ => (s, Err (Erred [LMsg "creation-time step cascade"]))
    end in
  let& names := dread (deferred_names job_id) in
  let& _ := init_rounds cfg (ca_workspace a) task snapshots child_init fuel job_id (list_to_set names) 0 in
  dwrite (λ db, settle_if_all_terminal (ev_now env) job_id task db db).

(** [depth] bounds the nesting of child jobs. *)
Fixpoint init (depth : nat) (a : CreateArgs) (job_id : Uuid) (task : TaskDef) : D (option JobStatus) :=
  match depth with
  | O => dret None
  | S depth => init_body (init depth) a job_id task
  end.
End dispatch.

(** ** What a dispatch creates

    The child of a task step runs the task its stamp names at the commit of the
    stamp, and only the dispatcher that claimed the step creates it. *)

Section plans.
Context `{Workspaces, HashIter, Tera, JsonParser, Serde, Collation, TextForms, Unicode} (env : Env).
Context (cfg : WorkspaceConfig) (workspace_name : string) (task : TaskDef) (snapshots : Snapshots).

Lemma ebind_ok {A B : Type} (m : DE A) (k : A → DE B) s s' b :
  ebind m k s = (s', Ok (Ok b)) → ∃ a s1, m s = (s1, Ok (Ok a)) ∧ k a s1 = (s', Ok (Ok b)).
Proof. unfold ebind. intros (r & s1 & E1 & E2)%dbind_ok. destruct r as [a|e]; [eauto|done]. Qed.

Lemma load_step_pin_ok ws pin s s' h :
  load_step_pin ws pin s = (s', Ok (Ok h)) → srv_db s' = srv_db s ∧ ∃ n pinned, pin_ensure n ws (commit pin) = Ok pinned ∧ h = PinnedAt pinned.
Proof.
  unfold load_step_pin. intros (r & s1 & [Hd ->]%dask_ok & E)%dbind_ok. unfold config_for_user, config_for, mbind_, ensure_raw in E.
  cbn [calls] in E. destruct (pin_ensure _ _ _) as [pinned|e] eqn:Ep; [|by destruct e]. injection E as <- <-.
  split; [done|]. eauto.
Qed.

Lemma task_at_found ws c task_ref r name t : task_at ws c task_ref r = Ok (name, t) → tasks c !! name = Some t.
Proof.
  unfold task_at, task_named_at. destruct (tasks c !! _) as [t'|] eqn:Et; simpl; [|done]. by intros [= <- <-].
Qed.

(** The task of a stamp is the one at its commit, otherwise a live one. *)
Lemma resolve_dispatch_task_ok stamp base_ws base_cfg task_ref s s' r :
  resolve_dispatch_task stamp base_ws base_cfg task_ref s = (s', Ok (Ok r)) →
  srv_db s' = srv_db s ∧ tasks (resolved_config r base_cfg) !! rk_task_name r = Some (rk_task r) ∧
  match stamp with
  | Some (w, pin) => rk_workspace r = w ∧ ∃ n pinned, pin_ensure n w (commit pin) = Ok pinned ∧ rk_config r = Foreign (pn_config pinned)
  | None => True
  end.
Proof.
  unfold resolve_dispatch_task. destruct stamp as [[w pin]|].
  - unfold resolve_stamped_task. intros (h & s1 & Hh & E)%dbind_ok. destruct h as [h|line]; [|done].
    apply load_step_pin_ok in Hh as (Hd & n & pinned & Hp & ->). unfold dret in E.
    destruct (task_at w _ task_ref _) as [[name t]|] eqn:Et; [|done]. apply task_at_found in Et. injection E as <- <-.
    split_and!; [done|done|done|]. cbn. eauto.
  - intros [Hd Hr]%dask_ok. unfold resolve_task_ref in Hr. split_and!; [done| |done].
    destruct (mbind_ _ _ _) as [[r' st]|] eqn:Em; [|done]. injection Hr as ->.
    apply mbind_ok in Em as (o & st1 & [Ho ->]%mlift_ok & E). destruct o as [|w name].
    + destruct (tasks base_cfg !! task_ref) as [t|] eqn:Et; [|done]. injection E as <- _. done.
    + apply mbind_ok in E as (c & st3 & _ & E). destruct c as [c|]; [|done].
      destruct (tasks c !! name) as [t|] eqn:Et; [|done]. injection E as <- _. done.
Qed.

Lemma action_owner_ok step base_ws s s' h :
  action_owner_config workspace_name step base_ws s = (s', Ok (Ok h)) → srv_db s' = srv_db s.
Proof.
  unfold action_owner_config. destruct (of_step_action step) as [pin|].
  - intros (r & s1 & Hr & E)%dbind_ok. destruct r as [h'|line]; [|done]. apply load_step_pin_ok in Hr as [Hd _]. injection E as <- _. done.
  - case_bool_decide; [by intros [= <- _]|]. intros (c & s1 & [Hd ->]%dask_ok & E)%dbind_ok. simpl in E.
    destruct (get_config _ _); [|done]. injection E as <- _. done.
Qed.

(** A row that has a stamp keeps it. *)
Lemma stamp_of_own job jc ctx step spec task_ref base_ws base_cfg s s' st :
  stamp_of env workspace_name job jc ctx step spec task_ref base_ws base_cfg s = (s', Ok (Ok (Some st))) →
  (∀ x, of_step_task step = Some x → st = Some x) ∧ (st = None → of_step_task step = None).
Proof.
  unfold stamp_of. destruct (of_step_task step) as [x|].
  - intros [= _ <-]. split; [by intros ? [= ->]|done].
  - intros _. done.
Qed.

(** A dispatch plan: the task exists in the configuration the child is created
    from; a stamped step runs the task of the stamp's workspace at the stamp's
    commit, a row that had a stamp keeps it, and the caller's part of the input
    is the step's input rendered against that task's schema. *)
Theorem dispatch_plan_sound job steps step spec task_ref s s' p :
  prepare_dispatch env cfg workspace_name snapshots job steps step spec task_ref s = (s', Ok (Ok (Some p))) →
  tasks (dp_config p) !! rk_task_name (dp_resolved p) = Some (rk_task (dp_resolved p)) ∧
  (∀ x, of_step_task step = Some x → dp_stamp p = Some x) ∧
  match dp_stamp p with
  | Some (w, pin) => rk_workspace (dp_resolved p) = w ∧ ∃ n pinned, pin_ensure n w (commit pin) = Ok pinned ∧ dp_config p = pn_config pinned
  | None => of_step_task step = None
  end ∧
  render_step_input snapshots step (rk_task (dp_resolved p))
    (rc_value (build (job_ctx cfg snapshots job) (views steps) (slot_of step) ChildTaskInput)) = Ok (dp_caller p).
Proof.
  unfold prepare_dispatch. intros (handle & s1 & _ & E)%ebind_ok. apply ebind_ok in E as (st & s2 & Hst & E).
  destruct st as [st|]; [|done]. apply stamp_of_own in Hst as [Hown Hnone].
  apply dbind_ok in E as (r & s3 & Hr & E). destruct r as [resolved|e]; [|done].
  apply resolve_dispatch_task_ok in Hr as (_ & Ht & Hw).
  destruct (render_step_input snapshots step _ _) as [caller|] eqn:Er; [|done].
  destruct (action_schema_of spec) as [schema|]; [|done].
  destruct (default_bucket _ _ _) as [defaults|]; [|done]. apply dbind_ok in E as (set & s4 & _ & E).
  destruct (resolve_task_input_by_provenance_roles _ _ _ _) as [input|]; [|done]. injection E as <- <-.
  cbn [dp_config dp_resolved dp_stamp dp_caller]. split_and!; [done|done| |done].
  destruct st as [[w pin]|]; [|by apply Hnone]. destruct Hw as (Hw & n & pinned & Hp & Hc). split; [done|]. exists n, pinned.
  split; [done|]. unfold resolved_config. by rewrite Hc.
Qed.

(** ** The claim *)

Definition dispatchable (db : Db) (j : Uuid) (n : string) (stamp : option (string * PinRef)) : Prop :=
  ∃ r, db_step db !! (j, n) = Some r ∧ sr_status r = "ready" ∧ task_pin_is (stamp_cols stamp) r = true.

Context (child_init : CreateArgs → Uuid → TaskDef → D (option JobStatus)).

Lemma claim_spec now j n stamp db :
  let '(db', ok) := claim_task_dispatch now j n (stamp_cols stamp) db in
  (ok = true ↔ dispatchable db j n stamp) ∧ db_job db' = db_job db ∧ (∀ k, k ≠ (j, n) → db_step db' !! k = db_step db !! k) ∧
  (ok = true → ∃ r, db_step db' !! (j, n) = Some r ∧ sr_status r = "running" ∧ task_pin_is (stamp_cols stamp) r = true) ∧
  (ok = false → db_step db' !! (j, n) = db_step db !! (j, n)).
Proof.
  unfold claim_task_dispatch. set (g := λ r, _ && _). set (f := assign _).
  pose proof (update_step_count j n g f db) as Hc. pose proof (lookup_update_step_eq j n g f db) as Hl.
  pose proof (λ k, lookup_update_step_ne j n g f db k) as Hne. pose proof (update_step_db_job j n g f db) as Hj.
  destruct (update_step j n g f db) as [db' c]. simpl in *. subst c.
  destruct (db_step db !! (j, n)) as [r|] eqn:Er; simpl in *.
  - assert (Hg : g r = true ↔ sr_status r = "ready" ∧ task_pin_is (stamp_cols stamp) r = true).
    { unfold g. rewrite andb_true_iff. unfold status_is. by rewrite bool_decide_eq_true. }
    destruct (g r) eqn:Eg; simpl.
    + destruct (proj1 Hg eq_refl) as [Hs Hp]. split_and!; [split; [intros _; by exists r|done]|done|done| |done].
      intros _. exists (f r). split_and!; [done|done|]. revert Hp. unfold task_pin_is, f. by destruct (stamp_cols stamp) as [[[] ?]|].
    + split_and!; [split; [done|]|done|done|done|done]. intros (r' & Hr' & ? & ?). rewrite Hr' in Er. injection Er as ->.
      by apply Hg.
  - split_and!; [split; [done|by intros (r & ? & _); congruence]|done|done|done|done].
Qed.

(** Creating a child: nothing is written unless the transaction commits; then
    the child exists, pending, below its parent's step and at the pin it was
    given, and its initialisation starts from there. *)
Lemma create_child_spec a s s' res :
  create_child env child_init a s = (s', res) →
  (∃ e, res = Err e ∧ srv_db s' = srv_db s ∧ srv_files s' = srv_files s) ∨
  ∃ p db ft rec, prepare (ev_id env (srv_ids s)) (srv_calls s) a (srv_db s) = Ok p ∧
    creation_tx (ev_now env) (ev_host_now env) (ev_id env (srv_ids s)) a p (srv_db s, srv_files s) = Ok (db, ft) ∧
    db_job db !! ev_id env (srv_ids s) = Some rec ∧ jr_status rec = "pending" ∧ j_workspace (jr_row rec) = ca_workspace a ∧
    j_task_name (jr_row rec) = ca_task_name a ∧ of_job (jr_row rec) = job_pin_of a ∧
    (∀ c, res = Ok c → created_job_id c = ev_id env (srv_ids s)) ∧
    ∃ r, child_init a (ev_id env (srv_ids s)) (pr_task p) (mkServer db ft (srv_calls s + 100) (S (srv_ids s))) = r ∧
      srv_db s' = match r.2 with
                  | Err (Erred e) => (after_failed_init (ev_uncompensated env) (ev_now env) (ev_id env (srv_ids s)) e (srv_db r.1)).1
                  | _ => srv_db r.1
                  end.
Proof.
  unfold create_child, dbind, fresh_id. cbn [srv_calls srv_db srv_files srv_ids].
  destruct (prepare _ _ a _) as [p|e] eqn:Ep; [|intros [= <- <-]; left; by exists e].
  destruct (creation_tx _ _ _ a p _) as [[db ft]|e] eqn:Et; [|intros [= <- <-]; left; by exists (Erred e)].
  intros E. right. exists p, db, ft.
  pose proof (prepare_ok _ _ _ _ _ Ep) as Hp. destruct (creation_tx_ok _ _ _ _ _ _ _ _ _ Et) as (_ & (rec & Hrec & Hst & Hw & Htn & Hrv & Hgr) & _).
  exists rec. split_and!; [done|done|done|done|rewrite Hw; apply Hp|rewrite Htn; apply Hp| | |].
  - unfold of_job, job_pin_of. rewrite Hrv, Hgr. destruct Hp as (_ & _ & _ & -> & -> & _). by destruct (ca_git_ref a), (ca_revision a).
  - unfold after_failed_init in E. destruct (child_init a _ _ _) as [s1 [settled|[e|]]]; [|destruct (ev_uncompensated env)|];
      injection E as _ <-; intros c [= <-]; done.
  - eexists. split; [done|]. unfold after_failed_init in *.
    destruct (child_init a _ _ _) as [s1 [settled|[e|]]]; [|destruct (ev_uncompensated env)|]; injection E as <- _; done.
Qed.

Lemma dbind_eq {A B : Type} (m : D A) (k : A → D B) s s1 a : m s = (s1, Ok a) → dbind m k s = k a s1.
Proof. unfold dbind. by intros ->. Qed.

Lemma live_child_revision_ok job p s : ∃ s1 rev, live_child_revision job p s = (s1, Ok rev) ∧ srv_db s1 = srv_db s.
Proof. unfold live_child_revision. case_match; [by eexists _, _|]. unfold dask, dbind, dcalls, dret. by eexists _, _. Qed.

Lemma child_args_pin job step p revision : job_pin_of (child_args env job step p revision) = snd <$> dp_stamp p.
Proof. unfold child_args, job_pin_of. by destruct (dp_stamp p) as [[w []]|]. Qed.

Lemma update_input_row j n v db r :
  db_step db !! (j, n) = Some r →
  ∃ r', db_step (update_input j n v db) !! (j, n) = Some r' ∧ js_input (sr_row r') = v ∧ sr_status r' = sr_status r ∧
    ∀ stamp, task_pin_is stamp r' = task_pin_is stamp r.
Proof.
  intros Hr. unfold update_input. rewrite lookup_update_step_eq, Hr. simpl. eexists. split; [done|].
  destruct r as [[] ? ? ?]. split_and!; [done|done|]. by intros [[[] ?]|].
Qed.

(** C20. A dispatcher that does not own the step, because another one claimed,
    failed or stamped it, writes nothing and creates no child. The one that
    does has moved the step to running, with the stamp it resolved, before the
    child is created; a stamped child is pinned to the stamp's ref and commit,
    an unstamped one is not pinned. *)
Theorem task_dispatch_exclusive job step task_ref p s :
  let name := js_step_name step in
  let j := j_job_id job in
  let r := dispatch_claimed env cfg workspace_name task snapshots child_init job step task_ref p s in
  (¬ dispatchable (srv_db s) j name (dp_stamp p) →
     r.2 = Ok false ∧ srv_ids r.1 = srv_ids s ∧ srv_files r.1 = srv_files s ∧ db_job (srv_db r.1) = db_job (srv_db s) ∧
     ∀ k, db_step (srv_db r.1) !! k = db_step (srv_db s) !! k) ∧
  (dispatchable (srv_db s) j name (dp_stamp p) →
     ∃ s1 revision, let a := child_args env job step p revision in
       (∃ row, db_step (srv_db s1) !! (j, name) = Some row ∧ sr_status row = "running" ∧ task_pin_is (stamp_cols (dp_stamp p)) row = true ∧
          js_input (sr_row row) = Some (if dp_base_ws p ==? workspace_name then dp_input p else dp_caller p)) ∧
       ca_parent_job_id a = Some j ∧ ca_parent_step_name a = Some name ∧ job_pin_of a = snd <$> dp_stamp p ∧
       match create_child env child_init a s1 with
       | (s2, Ok _) => r = (s2, Ok false)
       | (s2, Err (Erred e)) => ∃ err extra override, r = fail_task_step env cfg task snapshots j name err extra override
                                                        (Some (StepRunning, stamp_cols (dp_stamp p))) s2
       | (s2, Err Panics) => r = (s2, Err Panics)
       end).
Proof.
  intros name j r. unfold r, dispatch_claimed. fold name j.
  pose proof (claim_spec (ev_now env) j name (dp_stamp p) (srv_db s)) as Hc.
  destruct (claim_task_dispatch (ev_now env) j name (stamp_cols (dp_stamp p)) (srv_db s)) as [db1 ok] eqn:Ecl.
  destruct Hc as (Hok & Hj & Hne & Hrun & Hsame).
  rewrite (dbind_eq _ _ s (srv_with_db db1 s) ok) by (unfold dwrite; by rewrite Ecl). destruct ok; cbn [negb].
  - split; [intros Hn; destruct Hn; by apply Hok|]. intros _. destruct (Hrun eq_refl) as (row & Hrow & Hst & Hpin).
    set (v := if dp_base_ws p ==? workspace_name then dp_input p else dp_caller p).
    destruct (update_input_row j name (Some v) db1 row Hrow) as (row' & Hrow' & Hin & Hst' & Hpin').
    rewrite (dbind_eq _ _ _ (srv_with_db (update_input j name (Some v) db1) s) ()) by done.
    set (s0 := srv_with_db (mark_running_if_pending_server (ev_now env) j (update_input j name (Some v) db1)) s).
    rewrite (dbind_eq _ _ _ s0 ()) by done.
    destruct (live_child_revision_ok job p s0) as (s1 & rev & Hrev & Hd). exists s1, rev. cbn zeta. split_and!.
    + exists row'. split_and!; [|congruence|by rewrite Hpin'|done]. rewrite Hd. unfold s0. cbn [srv_db srv_with_db].
      unfold mark_running_if_pending_server, mark_running_if_pending_tx. rewrite update_job_db_step. exact Hrow'.
    + unfold child_args. by destruct (dp_stamp p) as [[]|].
    + unfold child_args. by destruct (dp_stamp p) as [[]|].
    + apply child_args_pin.
    + rewrite (dbind_eq _ _ _ s1 rev Hrev). unfold dbind, dtry. destruct (create_child env child_init _ s1) as [s2 [c|[e|]]]; [done| |done].
      eexists _, _, _. reflexivity.
  - split; [|intros Hcl; by apply Hok in Hcl]. intros _. split_and!; [done..|]. intros k. destruct (decide (k = (j, name))) as [->|Hk]; [by apply Hsame|].
    by apply Hne.
Qed.
End plans.
