(* ===== verification/Hooks.v ===== *)
(** * Hooks

    [crates/stroem-server/src/settlement/hooks.rs]: which hooks a job fires
    when it ends or a step of it is suspended, what their templates see, and
    the jobs they create. The lines for the source job's log are results. *)
From S2P Require Import Prelude Json Text Lines Utf8 Template TemplateError GitRef Workflow JobModel Gate Db StepRepo JobRepo Pins FileField InputFiles Errors Engine JsonField TypedInput Connections WorkspaceSet RenderContext Refs Manager Retry JobCreator JobCreatorProps Cascade CascadeApply Settle Terminal Redact Settlement Server Deferred Dispatch.

Definition is_top_level_source (source_type : string) : bool :=
  bool_decide (source_type ∈ ["api"; "user"; "trigger"; "webhook"; "mcp"; "retry"; "rerun"; "restart"]).

Definition MAX_HOOK_CHAIN_DEPTH : nat := 3.
Definition MAX_HOPS : nat := MAX_HOOK_CHAIN_DEPTH * (MAX_TASK_DEPTH + 1) + 1.

(** Timestamps, durations, URLs and ids as texts. *)
Class HookText := {
  rfc3339 : Time → string;
  chrono_json : Time → string;
  f64_thousandths : Z → json;
  form_urlencode : string → string;
  uuid_of_text : string → option Uuid;
}.

Record ArtifactRow := mkArtifact { ar_name : string; ar_content_type : string; ar_size_bytes : Z; ar_step_name : string; ar_created_at : Time }.

Record FailedStepInfo := mkFailedStep {
  fs_step_name : string;
  fs_action_name : string;
  fs_error_message : option string;
  fs_continue_on_failure : bool;
  fs_tolerated : bool;
  fs_carried_over : bool;
}.

(** ** The chain *)

Definition is_hook_job (job : JobRow) : bool := j_source_type job ==? SourceType.as_ref JobModel.Hook.

Section hooks.
Context `{HookText}.

(** The job a job goes back to: a hook job to the one that fired it. *)
Definition came_from (job : JobRow) : option Uuid :=
  if is_hook_job job
  then match j_source_job_id job with
       | Some id => Some id
       | None => s ← j_source_id job; first ← head (split_on "/" (bytes s)); uuid_of_text (of_bytes first)
       end
  else j_parent_job_id job.

Fixpoint chain_walk (hops depth : nat) (job : JobRow) (db : Db) : nat :=
  match hops with
  | O => depth
  | S hops =>
      let depth := if is_hook_job job then S depth else depth in
      match came_from job ≫= λ id, JobRepo.get id db with
      | Some ancestor => chain_walk hops depth ancestor db
      | None => depth
      end
  end.
Definition hook_chain_depth (job : JobRow) (db : Db) : nat := chain_walk MAX_HOPS 0 job db.

(** ** Which hooks *)

(** The task's hooks, else the workspace's for a top-level job. *)
Definition prefer_task (job : JobRow) (task_hooks ws_hooks : list HookDef) : list HookDef :=
  if negb (length task_hooks =? 0)%nat then task_hooks else if is_top_level_source (j_source_type job) then ws_hooks else [].

Definition hooks_of_kind (cfg : WorkspaceConfig) (job : JobRow) (task : TaskDef) (kind : HookKind) : list HookDef :=
  if is_hook_job job then []
  else match kind with
       | HookSuccess => prefer_task job (td_on_success task) (on_success cfg)
       | HookError => prefer_task job (td_on_error task) (on_error cfg)
       | HookCancel => prefer_task job (td_on_cancel task) (on_cancel cfg)
       | HookNone => []
       end.
Definition suspended_hooks (cfg : WorkspaceConfig) (job : JobRow) (task : TaskDef) : list HookDef :=
  if is_hook_job job then [] else prefer_task job (td_on_suspended task) (on_suspended cfg).

Definition chain_limit_line : string :=
  "[hooks] hook chain depth limit (" +:+ pretty (N.of_nat MAX_HOOK_CHAIN_DEPTH) +:+ ") reached — not firing hooks for this job".

(** ** What their templates see *)

Definition failed_status : string := StepStatus.as_ref StepFailed.

Definition build_failed_steps (task : TaskDef) (steps : list JobStepRow) : list FailedStepInfo :=
  let failed := List.filter (λ s, js_status s ==? failed_status) steps in
  let with_failed_instance := omap js_loop_source failed in
  let kept := List.filter (λ s, bool_decide (is_Some (js_loop_source s)) || negb (bool_decide (js_step_name s ∈ with_failed_instance))) failed in
  (λ s, let own := match flow task !! flow_step_name (js_step_name s) (js_loop_source s) with Some fs => continue_on_failure fs | None => false end in
        mkFailedStep (js_step_name s) (js_action_name s) (js_error_message s) own own (js_carried_over s)) <$> kept.

Definition json_failed_step (f : FailedStepInfo) : json :=
  json_obj [("step_name", JString (fs_step_name f)); ("action_name", JString (fs_action_name f)); ("error_message", json_opt_str (fs_error_message f));
            ("continue_on_failure", JBool (fs_continue_on_failure f)); ("tolerated", JBool (fs_tolerated f)); ("carried_over", JBool (fs_carried_over f))].

Definition json_artifact (job_id : Uuid) (a : ArtifactRow) : json :=
  json_obj [("name", JString (ar_name a)); ("content_type", JString (ar_content_type a)); ("size_bytes", json_int (ar_size_bytes a));
            ("step_name", JString (ar_step_name a)); ("created_at", JString (chrono_json (ar_created_at a)));
            ("url", JString ("/api/jobs/" +:+ uuid_text job_id +:+ "/artifacts/" +:+ form_urlencode (ar_name a)))].

Definition failure_summary (failed : list FailedStepInfo) : option string :=
  if (length failed =? 0)%nat then None
  else Some (str_join "; " ((λ f, "Step '" +:+ fs_step_name f +:+ "': " +:+ default "unknown error" (fs_error_message f)) <$> failed)).

Definition build_hook_context `{Collation} (job : JobRow) (task : TaskDef) (artifacts : list ArtifactRow) (db : Db) : json :=
  let failed := build_failed_steps task (get_steps_for_job (j_job_id job) db) in
  let duration := match j_started_at job, j_completed_at job with Some s, Some e => f64_thousandths (Z.quot (e - s) 1000) | _, _ => JNull end in
  json_obj [("workspace", JString (j_workspace job)); ("task_name", JString (j_task_name job)); ("job_id", JString (uuid_text (j_job_id job)));
            ("status", JString (j_status job)); ("is_success", JBool (j_status job ==? JobStatus.as_ref JobCompleted));
            ("error_message", json_opt_str (failure_summary failed)); ("source_type", JString (j_source_type job));
            ("source_id", json_opt_str (j_source_id job)); ("started_at", json_opt_str (rfc3339 <$> j_started_at job));
            ("completed_at", json_opt_str (rfc3339 <$> j_completed_at job)); ("duration_secs", duration);
            ("failed_steps", JArray (json_failed_step <$> failed)); ("artifacts", JArray (json_artifact (j_job_id job) <$> artifacts));
            ("revision", json_opt_str (j_revision job)); ("ref", json_opt_str (j_git_ref job))].

Definition suspended_context (job : JobRow) (step_name message : string) : json :=
  json_obj [("workspace", JString (j_workspace job)); ("task_name", JString (j_task_name job)); ("job_id", JString (uuid_text (j_job_id job)));
            ("step_name", JString step_name); ("message", JString message); ("source_type", JString (j_source_type job));
            ("source_id", json_opt_str (j_source_id job)); ("revision", json_opt_str (j_revision job)); ("ref", json_opt_str (j_git_ref job))].

Definition hook_type (status : string) : string :=
  if status ==? JobStatus.as_ref JobCompleted then "on_success"
  else if status ==? JobStatus.as_ref JobCancelled then "on_cancel" else "on_error".

(** ** One hook *)

Definition foreign_hook_task_error (hook_action task_ref : string) (is_local_task : bool) : option string :=
  if is_local_task || negb (str_contains "." task_ref) then None
  else Some (match (parse_qualified_ref task_ref).1 with
             | None => "hook uses action '" +:+ hook_action +:+ "' whose task '" +:+ task_ref +:+ "' is malformed (empty workspace or task name)"
             | Some _ => "hook uses action '" +:+ hook_action +:+ "' whose task '" +:+ task_ref +:+
                         "' is in another workspace; hook actions cannot call tasks across workspaces"
             end).

Section fire.
Context `{Workspaces, HashIter, Tera, JsonParser, Serde, Collation, TextForms, Unicode} (env : Env).
(** The initialisation of a created job, and [Settlement::job_created]. *)
Context (child_init : CreateArgs → Uuid → TaskDef → D (option JobStatus)) (job_created : CreatedJob → D unit).

Definition scrub_hook_error (text : string) (cfg : WorkspaceConfig) : string := mask_text text (collect_config_secret_values cfg).

(** The schema a hook's input lands in. *)
Definition hook_schema (cfg : WorkspaceConfig) (action : ActionDef) : option (gmap string InputFieldDef) :=
  if a_action_type action ==? "task" then t ← a_task action; d ← tasks cfg !! t; Some (td_input d) else Some (a_input action).

Definition hook_template_context (cfg : WorkspaceConfig) (ctx_value : json) : json :=
  json_obj (("hook", ctx_value) :: if bool_decide (secrets cfg = ∅) then [] else [("secret", object_of (secrets cfg))]).

Definition render_hook_input (cfg : WorkspaceConfig) (hook : HookDef) (action : ActionDef) (ctx_value : json) : result AnyError json :=
  if bool_decide (h_input hook = ∅) then Ok (JObject [])
  else ctx (LMsg "Failed to render hook input templates") (render_input_typed (h_input hook) (hook_schema cfg action) (hook_template_context cfg ctx_value)).

(** The step of a single-step hook job. *)
Definition hook_flow_step (action : string) : FlowStep := flow_step action [] false None None false None None.

Definition hook_task_args (cfg : WorkspaceConfig) (workspace task_ref : string) (input : json) (source : JobRow) : CreateArgs :=
  mkCreate cfg workspace task_ref input "hook" (Some (uuid_text (j_job_id source))) None None (j_revision source)
    (Hook (j_job_id source)) (ev_defaults env) (j_git_ref source) Indirect.

Definition hook_job_row (workspace action : string) (input : json) (source : JobRow) : NewJob :=
  mkNewJob workspace ("_hook:" +:+ action) "distributed" (Some input) "hook" (Some (uuid_text (j_job_id source))) None None None
    (j_revision source) None (Some (j_job_id source)) None None ((λ r, mkJobPinCols r None) <$> j_git_ref source).

Definition dlift {A} (r : result AnyError A) : D A := match r with Ok a => dret a | Err e => dfail e end.
Definition dfault {A} (r : result Fault A) : D A := λ s, (s, r).

(** One transaction: the job and its step. *)
Definition create_hook_job (workspace : string) (hook : HookDef) (action : ActionDef) (input : json) (source : JobRow) : D Uuid :=
  let& job_id := fresh_id env in
  let& step := dfault (build_step job_id "hook" (h_action hook) (hook_flow_step (h_action hook)) action (Some input) StepReady (ev_defaults env)
                         None None None None) in λ s,
  match create_with_parent_tx (ev_now env) job_id (hook_job_row workspace (h_action hook) input source) (srv_db s) with
  | Err e => (s, Err (Erred [LMsg "Failed to create hook job"; LMsg e]))
  | Ok (db, _) =>
      match create_steps_tx (ev_host_now env) [step] db with
      | Err e => (s, Err (Erred [LMsg "Failed to create hook job step"; LMsg e]))
      | Ok db => (srv_with_db db s, Ok job_id)
      end
  end.

Definition fire_task_hook (cfg : WorkspaceConfig) (workspace : string) (hook : HookDef) (action : ActionDef) (input : json) (source : JobRow) : D unit :=
  match a_task action with
  | None => dfail [LMsg "type: task action missing task field"]
  | Some task_ref =>
      if bool_decide (is_Some (a_git_ref action))
      then dfail [LMsg ("hook action '" +:+ h_action hook +:+ "' is a `type: task` action with `ref`; `ref` is not supported on hooks yet")]
      else match foreign_hook_task_error (h_action hook) task_ref (bool_decide (is_Some (tasks cfg !! task_ref))) with
      | Some msg => dfail [LMsg msg]
      | None =>
          let& created := dctx "Failed to create hook task job" (create_child env child_init (hook_task_args cfg workspace task_ref input source)) in
          job_created created
      end
  end.

Definition fire_single_hook (cfg : WorkspaceConfig) (workspace : string) (hook : HookDef) (ctx_value : json) (source : JobRow) : D unit :=
  if bool_decide (is_Some (h_git_ref hook)) then dfail [LMsg ("`ref` is not supported on hooks yet (hook action '" +:+ h_action hook +:+ "')")]
  else if bool_decide (is_Some (j_git_ref source)) && bool_decide (j_revision source = None)
  then dfail [LMsg ("source job " +:+ uuid_text (j_job_id source) +:+ " carries ref '" +:+ default "" (j_git_ref source) +:+ "' without its commit")]
  else match actions cfg !! h_action hook with
  | None => dfail [LMsg ("Hook action '" +:+ h_action hook +:+ "' not found in workspace '" +:+ workspace +:+ "'")]
  | Some action =>
      let& input := dlift (render_hook_input cfg hook action ctx_value) in
      if a_action_type action ==? "task" then fire_task_hook cfg workspace hook action input source
      else match preflight (a_input action) input with
      | Err e => dfail [LMsg "Hook action cannot be given its file input"; LFile e]
      | Ok _ =>
          let& job_id := create_hook_job workspace hook action input source in
          job_created (mkCreatedJob job_id false)
      end
  end.

(** Each hook in turn; a failed one leaves a line and the others fire. *)
Fixpoint fire_each (cfg : WorkspaceConfig) (label : nat → string) (i : nat) (hooks : list HookDef) (ctx_value : json) (source : JobRow)
    : D (list string) :=
  match hooks with
  | [] => dret []
  | hook :: rest =>
      let& r := dtry (fire_single_hook cfg (j_workspace source) hook ctx_value source) in
      let line := match r with
                  | Ok _ => []
                  | Err e => ["[hooks] Failed to fire " +:+ label i +:+ " for action '" +:+ h_action hook +:+ "': " +:+ scrub_hook_error (chain_text e) cfg]
                  end in
      let& lines := fire_each cfg label (S i) rest ctx_value source in
      dret (line ++ lines)
  end.

(** [artifacts]: the rows, or the failure of their read. *)
Definition fire_hooks_of_kind (cfg : WorkspaceConfig) (job : JobRow) (task : TaskDef) (kind : HookKind) (artifacts : result AnyError (list ArtifactRow))
    : D (list string) :=
  let hooks := hooks_of_kind cfg job task kind in
  if (length hooks =? 0)%nat then dret []
  else
    let& depth := dread (hook_chain_depth job) in
    if (MAX_HOOK_CHAIN_DEPTH <=? depth)%nat then dret [chain_limit_line]
    else match artifacts with
    | Err e => dret ["[hooks] Failed to build hook context: " +:+ chain_text (LMsg "Failed to list artifacts for hook context" :: e)]
    | Ok rows =>
        let& ctx_value := dread (build_hook_context job task rows) in
        fire_each cfg (λ i, "hook " +:+ hook_type (j_status job) +:+ "[" +:+ pretty (N.of_nat i) +:+ "]") 0 hooks ctx_value job
    end.

Definition fire_hooks (cfg : WorkspaceConfig) (job : JobRow) (task : TaskDef) (artifacts : result AnyError (list ArtifactRow)) : D (list string) :=
  fire_hooks_of_kind cfg job task (hook_kind (j_status job)) artifacts.

Definition fire_suspended_hooks (cfg : WorkspaceConfig) (job : JobRow) (task : TaskDef) (step_name message : string) : D (list string) :=
  let hooks := suspended_hooks cfg job task in
  if (length hooks =? 0)%nat then dret []
  else
    let& depth := dread (hook_chain_depth job) in
    if (MAX_HOOK_CHAIN_DEPTH <=? depth)%nat then dret [chain_limit_line]
    else fire_each cfg (λ i, "on_suspended hook[" +:+ pretty (N.of_nat i) +:+ "]") 0 hooks (suspended_context job step_name message) job.
End fire.
End hooks.

(** ** Properties of hooks

    The walk over a job's ancestry counts its hook links exactly as far as the
    limit needs it, so indirect hook cycles stop; what [hook.failed_steps]
    holds; and the cycle a task-level retry leaves open. *)

Section chain.
Context `{HookText}.

Definition ancestor (job : JobRow) (db : Db) : option JobRow := came_from job ≫= λ id, JobRepo.get id db.

(** The ancestry of a job: how many hook links it has, and how many jobs of
    other kinds come before the first; never more than the nesting limit. *)
Inductive chain (db : Db) : JobRow → nat → nat → Prop :=
| chain_end job : ancestor job db = None → chain db job (if is_hook_job job then 1 else 0) 0
| chain_hook job a n p : is_hook_job job = true → ancestor job db = Some a → chain db a n p → chain db job (S n) 0
| chain_task job a n p : is_hook_job job = false → ancestor job db = Some a → chain db a n p → (p < MAX_TASK_DEPTH)%nat → chain db job n (S p).

Lemma chain_plain db job n p : chain db job n p → (p ≤ MAX_TASK_DEPTH)%nat.
Proof. destruct 1; lia. Qed.

Lemma walk_ge hops d job db : (d ≤ chain_walk hops d job db)%nat.
Proof.
  revert d job. induction hops as [|h IH]; intros d job; simpl; [lia|]. destruct (came_from job ≫= _) as [a|].
  - specialize (IH (if is_hook_job job then S d else d) a). destruct (is_hook_job job); lia.
  - destruct (is_hook_job job); lia.
Qed.

Lemma walk_le db job n p : chain db job n p → ∀ hops d, (chain_walk hops d job db ≤ d + n)%nat.
Proof.
  induction 1 as [job Ha|job a n p Hh Ha _ IH|job a n p Hh Ha _ IH _]; intros [|hops] d; simpl; try lia; unfold ancestor in Ha; rewrite Ha.
  - destruct (is_hook_job job); lia.
  - rewrite Hh. specialize (IH hops (S d)). lia.
  - rewrite Hh. apply IH.
Qed.

(** [t] hook links are found in [p + 1] hops for the first and a full nesting
    more for each other. *)
Lemma walk_finds db job n p : chain db job n p → ∀ t hops d,
  (1 ≤ t ≤ n)%nat → (p + 1 + (MAX_TASK_DEPTH + 1) * (t - 1) ≤ hops)%nat → (d + t ≤ chain_walk hops d job db)%nat.
Proof.
  induction 1 as [job Ha|job a n p Hh Ha Hc IH|job a n p Hh Ha Hc IH Hp]; intros t [|hops] d Ht Hhops; simpl; try lia; unfold ancestor in Ha; rewrite Ha.
  - destruct (is_hook_job job); lia.
  - rewrite Hh. destruct (decide (t = 1%nat)) as [->|Hne]; [pose proof (walk_ge hops (S d) a db); lia|].
    apply chain_plain in Hc. enough (S d + (t - 1) ≤ chain_walk hops (S d) a db)%nat by lia. apply IH; [lia|].
    replace (t - 1)%nat with (S (t - 1 - 1)) in Hhops by lia. lia.
  - rewrite Hh. apply IH; lia.
Qed.

Lemma depth_reaches_limit db job n p : chain db job n p →
  (MAX_HOOK_CHAIN_DEPTH ≤ hook_chain_depth job db)%nat ↔ (MAX_HOOK_CHAIN_DEPTH ≤ n)%nat.
Proof.
  intros Hc. unfold hook_chain_depth. pose proof (walk_le db job n p Hc MAX_HOPS 0) as Hle. split; [lia|]. intros Hn.
  apply (walk_finds db job n p Hc MAX_HOOK_CHAIN_DEPTH MAX_HOPS 0); [unfold MAX_HOOK_CHAIN_DEPTH in *; lia|].
  apply chain_plain in Hc. unfold MAX_HOPS, MAX_HOOK_CHAIN_DEPTH in *. lia.
Qed.

(** A row whose hook link leads to [source] is one link further; one below it
    as a task is not. *)
Lemma hook_row_chain db source row n p : chain db source n p → JobRepo.get (j_job_id source) db = Some source →
  j_source_type row = "hook" → j_source_job_id row = Some (j_job_id source) → chain db row (S n) 0.
Proof.
  intros Hc Hg Ht Hs. assert (Hh : is_hook_job row = true) by (unfold is_hook_job; rewrite Ht; done).
  eapply chain_hook; [done| |exact Hc]. unfold ancestor, came_from. rewrite Hh, Hs. exact Hg.
Qed.

Lemma task_row_chain db source row n p : chain db source n p → JobRepo.get (j_job_id source) db = Some source →
  j_source_type row = "task" → j_parent_job_id row = Some (j_job_id source) → (p < MAX_TASK_DEPTH)%nat → chain db row n (S p).
Proof.
  intros Hc Hg Ht Hs Hp. assert (Hh : is_hook_job row = false) by (unfold is_hook_job; rewrite Ht; done).
  eapply chain_task; [done| |exact Hc|done]. unfold ancestor, came_from. rewrite Hh, Hs. exact Hg.
Qed.

Section fire.
Context `{Workspaces, HashIter, Tera, JsonParser, Serde, Collation, TextForms, Unicode} (env : Env).
Context (child_init : CreateArgs → Uuid → TaskDef → D (option JobStatus)) (job_created : CreatedJob → D unit).

Definition silent (m : D (list string)) (s : Server) : Prop := ∃ lines, m s = (s, Ok lines) ∧ (lines = [] ∨ lines = [chain_limit_line]).

(** The row of a single-step hook. *)
Lemma create_hook_job_row ws hook action input source s s' id :
  create_hook_job env ws hook action input source s = (s', Ok id) →
  ∃ rec, db_job (srv_db s') !! id = Some rec ∧ j_source_type (jr_row rec) = "hook" ∧ j_source_job_id (jr_row rec) = Some (j_job_id source).
Proof.
  unfold create_hook_job, dbind, fresh_id, dfault, create_with_parent_tx. cbn [srv_db].
  destruct (build_step _ _ _ _ _ _ _ _ _ _ _ _) as [step|e]; [|done]. cbn [srv_db].
  destruct (create_with_parent_tx_id _ _ _ _) as [db|e] eqn:Ec; [|done]. cbn [res_map].
  destruct (create_steps_tx _ _ _) as [db'|e] eqn:Es; [|done]. intros [= <- <-]. cbn [srv_db srv_with_db].
  apply create_steps_spec in Es as (-> & _). unfold create_with_parent_tx_id in Ec. destruct (_ || _); [done|]. injection Ec as <-.
  simpl. rewrite lookup_insert_eq. by eexists.
Qed.

(** The row of a job a creation commits, when it is no retry. *)
Lemma created_row now hn id k a p db ft db' ft' :
  prepare id k a db = Ok p → creation_tx now hn id a p (db, ft) = Ok (db', ft') → (∀ failed root m, ca_mode a ≠ ModeRetry failed root m) →
  ∃ rec, db_job db' !! id = Some rec ∧ j_source_type (jr_row rec) = ca_source_type a ∧ j_parent_job_id (jr_row rec) = ca_parent_job_id a ∧
    (∀ src, ca_mode a = JobCreator.Hook src → j_source_job_id (jr_row rec) = Some src).
Proof.
  intros (Hs & Hp & Hh)%prepare_lineage Ht Hm. eexists. split; [by eapply creation_tx_row|]. done.
Qed.

End fire.
End chain.

(** ** Failed steps *)

Lemma elem_of_failed task steps f : f ∈ build_failed_steps task steps ↔
  ∃ s, s ∈ steps ∧ js_status s = failed_status ∧
    (is_Some (js_loop_source s) ∨ ¬ ∃ i, i ∈ steps ∧ js_status i = failed_status ∧ js_loop_source i = Some (js_step_name s)) ∧
    f = mkFailedStep (js_step_name s) (js_action_name s) (js_error_message s)
          (match flow task !! flow_step_name (js_step_name s) (js_loop_source s) with Some fs => continue_on_failure fs | None => false end)
          (match flow task !! flow_step_name (js_step_name s) (js_loop_source s) with Some fs => continue_on_failure fs | None => false end)
          (js_carried_over s).
Proof.
  assert (Hi : ∀ n, n ∈ omap js_loop_source (List.filter (λ s, js_status s ==? failed_status) steps) ↔
    ∃ i, i ∈ steps ∧ js_status i = failed_status ∧ js_loop_source i = Some n).
  { intros n. rewrite list_elem_of_omap. split.
    - intros (i & [Hin Hf%bool_decide_eq_true]%elem_of_lfilter & Hn). eauto.
    - intros (i & Hin & Hf & Hn). exists i. split; [|done]. apply elem_of_lfilter. split; [done|by apply bool_decide_eq_true]. }
  unfold build_failed_steps. rewrite list_elem_of_fmap. split.
  - intros (s & -> & [[Hin Hf%bool_decide_eq_true]%elem_of_lfilter Hk]%elem_of_lfilter). exists s. split_and!; [done|done| |done].
    apply orb_true_iff in Hk as [Hk%bool_decide_eq_true|Hk]; [by left|right]. apply negb_true_iff, bool_decide_eq_false in Hk. by rewrite Hi in Hk.
  - intros (s & Hin & Hf & Hk & ->). exists s. split; [done|]. apply elem_of_lfilter. split; [apply elem_of_lfilter; split; [done|by apply bool_decide_eq_true]|].
    apply orb_true_iff. rewrite bool_decide_eq_true, negb_true_iff, bool_decide_eq_false, Hi. tauto.
Qed.

(** C36. [hook.failed_steps] reports every failure once. Each entry is a failed
    row with its own error; a failed row is an entry itself unless it is the
    placeholder of a loop with a failed instance, and then that instance is an
    entry; a loop is never reported both as itself and by an instance. *)
Theorem failures_reported_once task steps :
  (∀ f, f ∈ build_failed_steps task steps → ∃ s, s ∈ steps ∧ js_status s = failed_status ∧ fs_step_name f = js_step_name s ∧ fs_error_message f = js_error_message s) ∧
  (∀ s, s ∈ steps → js_status s = failed_status →
     ∃ f r, f ∈ build_failed_steps task steps ∧ r ∈ steps ∧ js_status r = failed_status ∧ fs_step_name f = js_step_name r ∧ fs_error_message f = js_error_message r ∧
            (r = s ∨ js_loop_source s = None ∧ js_loop_source r = Some (js_step_name s))) ∧
  (∀ s i, s ∈ steps → i ∈ steps → js_status i = failed_status → js_loop_source i = Some (js_step_name s) → js_loop_source s = None →
     (∀ s', s' ∈ steps → js_step_name s' = js_step_name s → s' = s) → ∀ f, f ∈ build_failed_steps task steps → fs_step_name f ≠ js_step_name s).
Proof.
  split_and!.
  - intros f (s & ? & ? & _ & ->)%elem_of_failed. by exists s.
  - intros s Hin Hf. destruct (js_loop_source s) as [src|] eqn:El.
    + eexists _, s. split_and!; [apply elem_of_failed; exists s; split_and!; [done|done|left; by eexists|reflexivity]|done..|by left].
    + destruct (decide (Exists (λ i, js_status i = failed_status ∧ js_loop_source i = Some (js_step_name s)) steps)) as [Hex|Hno].
      * apply Exists_exists in Hex as (i & Hi & Hfi & Hli). eexists _, i.
        split_and!; [apply elem_of_failed; exists i; split_and!; [done|done|left; by eexists|reflexivity]|done..|by right].
      * eexists _, s. split_and!; [apply elem_of_failed; exists s; split_and!; [done|done| |reflexivity]|done..|by left].
        right. intros (i & Hi & Hfi & Hli). apply Hno, Exists_exists. eauto.
  - intros s i Hs Hi Hfi Hli Hls Huniq f (r & Hr & Hfr & Hk & ->)%elem_of_failed E. simpl in E. apply Huniq in E as ->; [|done].
    destruct Hk as [[x Hx]|Hk]; [congruence|]. apply Hk. eauto.
Qed.
