(* ===== verification/TarballCache.v ===== *)
(** * The tarball cache

    [tarball_cache.rs]: workspace tarballs by workspace and revision under one
    directory each, and [recovery.rs::tarball_cache_cleanup], which evicts
    what neither the database nor the loaded workspaces need. *)
From S2P Require Import Prelude Text Lines Utf8 Db JobRepo FileField.

(** ** File names *)

(** [sanitize_revision]: the character class is the one of safe names. *)
Definition sanitize_revision (revision : string) : string :=
  let s := of_bytes (sanitize (bytes revision)) in
  if s ==? ".." then "_dotdot_" else if s ==? "." then "_dot_" else s.

Definition pinned_cache_key (revision : string) : string := "pin-" +:+ revision.
Definition TAR_GZ : string := ".tar.gz".
Definition tarball_name (revision : string) : string := sanitize_revision revision +:+ TAR_GZ.

(** The stem before [suffix], when the name ends with it. *)
Definition strip_suffix (suffix name : string) : option string :=
  let n := bytes name in
  let k := (length n - length (bytes suffix))%nat in
  if (length (bytes suffix) <=? length n)%nat && bool_decide (drop k n = bytes suffix) then Some (of_bytes (take k n)) else None.

(** ** The cache *)

(** The files of each workspace directory. *)
Definition Cache : Type := gmap string (gmap string Bytes).

Definition cache_get (c : Cache) (workspace revision : string) : option Bytes :=
  dir ← (c : gmap string (gmap string Bytes)) !! workspace; dir !! tarball_name revision.

(** A write to a temporary file and a rename. *)
Definition tmp_name (revision : string) (seq : nat) : string := sanitize_revision revision +:+ "." +:+ pretty seq +:+ ".tmp".
Definition cache_put (c : Cache) (workspace revision : string) (data : Bytes) (seq : nat) : Cache :=
  let dir := default ∅ ((c : gmap string (gmap string Bytes)) !! workspace) in
  let dir := <[tmp_name revision seq := data]> dir in
  <[workspace := <[tarball_name revision := data]> (delete (tmp_name revision seq) dir)]> (c : gmap string (gmap string Bytes)).

(** Whether [cleanup_workspace] removes a file. *)
Definition stale_file (keep_sanitized : gset string) (file_name : string) : bool :=
  match strip_suffix ".tmp" file_name with
  | Some _ => true
  | None =>
      match strip_suffix TAR_GZ file_name with
      | Some stem => negb (bool_decide (stem ∈ keep_sanitized))
      | None => false
      end
  end.

(** [fails]: the files the file system refuses to remove. *)
Definition cleanup_workspace (fails : string → bool) (keep_revisions : gset string) (dir : gmap string Bytes) : gmap string Bytes :=
  let keep_sanitized : gset string := set_map sanitize_revision keep_revisions in
  filter (λ p, stale_file keep_sanitized p.1 && negb (fails p.1) = false) dir.

Definition cleanup_all (fails : string → string → bool) (dir_fails : string → bool) (keep_map : gmap string (gset string)) (c : Cache) : Cache :=
  map_imap (λ ws dir, match keep_map !! ws with
                      | Some keep => Some (cleanup_workspace (fails ws) keep dir)
                      | None => if dir_fails ws then Some dir else None
                      end) (c : gmap string (gmap string Bytes)).

(** ** The keep map *)

Definition keep_entry (m : gmap string (gset string)) (p : string * string) : gmap string (gset string) :=
  <[p.1 := {[p.2]} ∪ default ∅ (m !! p.1)]> m.

(** [keep_revisions]: the result of the query; [current]: the revision of each
    loaded workspace. *)
Definition keep_map_of (keep_revisions current : list (string * string)) : gmap string (gset string) :=
  let m := fold_left keep_entry current (fold_left keep_entry keep_revisions ∅) in
  (λ revs, revs ∪ set_map pinned_cache_key revs) <$> m.

(** [None] for the query: it failed and nothing is evicted. *)
Definition tarball_cache_cleanup (fails : string → string → bool) (dir_fails : string → bool)
    (keep_revisions : option (list (string * string))) (current : list (string * string)) (c : Cache) : Cache :=
  match keep_revisions with
  | None => c
  | Some keep => cleanup_all fails dir_fails (keep_map_of keep current) c
  end.

(** ** Facts *)

Lemma strip_suffix_app suffix stem : strip_suffix suffix (stem +:+ suffix) = Some stem.
Proof.
  unfold strip_suffix. rewrite bytes_app, length_app, Nat.add_sub, drop_app_length, take_app_length, of_bytes_bytes, bool_decide_true by done.
  by rewrite (proj2 (Nat.leb_le _ _)) by lia.
Qed.

Lemma tarball_not_tmp stem : strip_suffix ".tmp" (stem +:+ TAR_GZ) = None.
Proof.
  unfold strip_suffix. rewrite bytes_app, length_app. cbn [bytes length].
  replace (length (bytes stem) + length (bytes TAR_GZ) - 4)%nat with (length (bytes stem) + 3)%nat by (cbn; lia).
  rewrite drop_app_add. by rewrite andb_false_r.
Qed.

Lemma elem_of_keep_entries l m ws rev : rev ∈ default ∅ (fold_left keep_entry l m !! ws) ↔ (ws, rev) ∈ l ∨ rev ∈ default ∅ (m !! ws).
Proof.
  revert m. induction l as [|[w r] l IH]; intros m; cbn [fold_left].
  { split; [auto|]. intros [H|H]; [by apply elem_of_nil in H|done]. }
  rewrite IH, elem_of_cons. unfold keep_entry. cbn [fst snd]. destruct (decide (w = ws)) as [<-|Hne].
  - rewrite lookup_insert_eq. cbn [default]. set_solver.
  - rewrite lookup_insert_ne by done. split; [naive_solver|]. intros [[[= <- <-]|H]|H]; auto. done.
Qed.

Lemma elem_of_keep_map keep current ws key :
  key ∈ default ∅ (keep_map_of keep current !! ws) ↔
  ∃ rev, ((ws, rev) ∈ keep ∨ (ws, rev) ∈ current) ∧ (key = rev ∨ key = pinned_cache_key rev).
Proof.
  unfold keep_map_of. set (m := fold_left keep_entry current _). rewrite lookup_fmap.
  assert (Hm : ∀ rev, rev ∈ default ∅ (m !! ws) ↔ (ws, rev) ∈ keep ∨ (ws, rev) ∈ current).
  { intros rev. unfold m. rewrite !elem_of_keep_entries. cbn. rewrite lookup_empty. cbn. set_solver. }
  destruct (m !! ws) as [revs|] eqn:E; simpl in *.
  - rewrite elem_of_union, elem_of_map. setoid_rewrite Hm. naive_solver.
  - split; [set_solver|]. intros (rev & Hin & _). apply Hm in Hin. set_solver.
Qed.

(** A directory that is left keeps what is not stale. *)
Lemma cache_get_cleanup fails dir_fails km c ws rev keep :
  km !! ws = Some keep →
  cache_get (cleanup_all fails dir_fails km c) ws rev =
    if bool_decide (sanitize_revision rev ∈ (set_map sanitize_revision keep : gset string)) || fails ws (tarball_name rev)
    then cache_get c ws rev else None.
Proof.
  intros Hk. unfold cache_get, cleanup_all. rewrite map_lookup_imap. destruct ((c : gmap string (gmap string Bytes)) !! ws) as [dir|];
    cbn [mbind option_bind]; [|by destruct (_ || _)].
  rewrite Hk. cbn [mbind option_bind]. unfold cleanup_workspace.
  assert (Es : stale_file (set_map sanitize_revision keep) (tarball_name rev) =
    negb (bool_decide (sanitize_revision rev ∈ (set_map sanitize_revision keep : gset string)))).
  { unfold stale_file, tarball_name. by rewrite tarball_not_tmp, strip_suffix_app. }
  rewrite map_lookup_filter. destruct (dir !! tarball_name rev) as [d|]; cbn [mbind option_bind]; [|by destruct (_ || _)].
  unfold guard. cbn [fst].
  assert (Eb : stale_file (set_map sanitize_revision keep) (tarball_name rev) && negb (fails ws (tarball_name rev)) =
    negb (bool_decide (sanitize_revision rev ∈ (set_map sanitize_revision keep : gset string)) || fails ws (tarball_name rev)))
    by (rewrite Es; by destruct (bool_decide _), (fails _ _)).
  destruct (bool_decide _ || fails _ _) eqn:Eo; simpl in Eb; destruct (decide _) as [H|H]; try done; cbn [fst] in H; congruence.
Qed.

(** What a job can still need stays cached. After a cleanup, the tarball of
    every revision the database names for a live job, a live step or a failed
    job owed a retry, and of every loaded workspace, is cached as it was, the
    live one and the pinned one alike; when nothing fails, a workspace with no
    such revision has no cache left, and of the other workspaces only
    tarballs that share the file name of a kept revision remain. *)
Theorem tarball_cleanup_keeps_needed fails dir_fails now db current c :
  let kept ws rev := (ws, rev) ∈ tarball_keep_revisions now db ∨ (ws, rev) ∈ current in
  let c' := tarball_cache_cleanup fails dir_fails (Some (tarball_keep_revisions now db)) current c in
  (∀ ws rev, kept ws rev →
     cache_get c' ws rev = cache_get c ws rev ∧ cache_get c' ws (pinned_cache_key rev) = cache_get c ws (pinned_cache_key rev)) ∧
  ((∀ ws f, fails ws f = false) → (∀ ws, dir_fails ws = false) → ∀ ws key data, cache_get c' ws key = Some data →
     cache_get c ws key = Some data ∧
     ∃ rev, kept ws rev ∧ (sanitize_revision key = sanitize_revision rev ∨ sanitize_revision key = sanitize_revision (pinned_cache_key rev))).
Proof.
  intros kept c'. pose proof (elem_of_keep_map (tarball_keep_revisions now db) current) as Hkm.
  set (km := keep_map_of (tarball_keep_revisions now db) current) in *. split.
  - assert (H : ∀ ws rev key, kept ws rev → key = rev ∨ key = pinned_cache_key rev → cache_get c' ws key = cache_get c ws key).
    { intros ws rev key Hk Hkey. assert (Hin : key ∈ default ∅ (km !! ws)) by (apply Hkm; eauto).
      destruct (km !! ws) as [keep|] eqn:E; simpl in Hin; [|set_solver]. unfold c'. cbn [tarball_cache_cleanup].
      fold km. rewrite (cache_get_cleanup _ _ _ _ _ _ _ E), bool_decide_true by (apply elem_of_map; eauto). done. }
    intros ws rev Hk. split; eapply H; eauto.
  - intros Hf Hd ws key data Hc. unfold c' in Hc. cbn [tarball_cache_cleanup] in Hc. fold km in Hc. destruct (km !! ws) as [keep|] eqn:E.
    + rewrite (cache_get_cleanup _ _ _ _ _ _ _ E), Hf, orb_false_r in Hc. case_bool_decide as Hin; [|done]. split; [done|].
      apply elem_of_map in Hin as (k & Ek & Hin). destruct (proj1 (Hkm ws k)) as (rev & Hrev & Hor); [by rewrite E|].
      exists rev. split; [done|]. destruct Hor as [->| ->]; auto.
    + unfold cache_get, cleanup_all in Hc. rewrite map_lookup_imap in Hc. destruct ((c : gmap string (gmap string Bytes)) !! ws); simpl in Hc; [|done].
      by rewrite E, Hd in Hc.
Qed.

(** A tarball that was put is served, whatever else is cached. *)
Lemma cache_get_put c ws rev data seq : cache_get (cache_put c ws rev data seq) ws rev = Some data.
Proof. unfold cache_get, cache_put. rewrite lookup_insert_eq. cbn [mbind option_bind]. apply lookup_insert_eq. Qed.
