(* ===== verification/Recovery.v ===== *)
(** * The recovery sweep

    [crates/stroem-server/src/recovery.rs]: the phases of one sweep on top of
    the settlement entries and the bounded re-advance phases with their
    cursors (retention is in [Retention.v]). [NOW()] is the sweep's instant.
    [between] is whatever workers and other replicas do between two calls of a
    phase; the results of the pin store's cache and the elapsed time are
    arguments. [None] is a call that panics. *)
From S2P Require Import Prelude Json Template JobModel Gate Workflow Db WorkerRepo StepRepo StepRepoProps JobRepo JobRepoProps Cascade CascadeApply Settle Retry Terminal Settlement.

Record RecoveryConfig := mkRecoveryConfig {
  heartbeat_timeout_secs : Z;
  unmatched_step_timeout_secs : Z;
}.

Record StalledSweepBounds := mkStalledBounds { sweep_max_jobs : nat; sweep_budget_secs : nat }.
Definition default_bounds : StalledSweepBounds := mkStalledBounds 50 60.

(** What the sweeper keeps between sweeps beside the server's state. *)
Record Cursors := mkCursors { stalled_pinned_cursor : option Uuid; deferred_steps_cursor : option Uuid }.

Definition secs (n : Z) : Time := (n * 1000000)%Z.

Definition WORKER_TIMEOUT (show : Uuid → string) (s : StaleStepInfo) : string :=
  "Worker heartbeat timeout (worker " +:+ default "unknown" (show <$> st_worker_id s) +:+ " unresponsive)".
Definition STEP_TIMEOUT : string := "Step timed out (server-side enforcement)".
Definition APPROVAL_TIMEOUT : string := "Approval timed out".
Definition NO_MATCHING_WORKER : string := "No active worker with required capability/tags to run this step".

(** A loop whose body may panic. *)
Definition each {A} (f : A → ServerState → option ServerState) (l : list A) (st : ServerState) : option ServerState :=
  fold_left (λ acc x, st ← acc; f x st) l (Some st).

(** ** Re-advancing: the loops of phases 4.5 and 4.6 *)

Section readvance.
Context (adv : Uuid → ServerState → ServerState).
(** Whether the budget is spent before the i-th job, and whether a commit is
    in the pin store after the i-th job's advance. *)
Context (spent : nat → bool) (cached : nat → string * string → bool).

Definition still_live (job_id : Uuid) (st : ServerState) : bool :=
  match get job_id (st_db st) with Some row => sql_in (j_status row) ["pending"; "running"] | None => false end.

(** The state, the cursor, and the jobs advanced in order. *)
Fixpoint readvance_loop (i : nat) (stalled : list JobRow) (unavailable : gset (string * string)) (cursor : option Uuid)
    (st : ServerState) : ServerState * option Uuid * list Uuid :=
  match stalled with
  | [] => (st, cursor, [])
  | job :: rest =>
      if (0 <? i)%nat && spent i then (st, cursor, [])
      else
        let pin := pair (j_workspace job) <$> j_revision job in
        if match pin with Some p => bool_decide (p ∈ unavailable) | None => false end
        then readvance_loop (S i) rest unavailable cursor st
        else
          let st1 := adv (j_job_id job) st in
          let unavailable' :=
            match pin with
            | Some p => if still_live (j_job_id job) st1 && negb (cached i p) then {[p]} ∪ unavailable else unavailable
            | None => unavailable
            end in
          let '(st2, cursor2, done) := readvance_loop (S i) rest unavailable' (Some (j_job_id job)) st1 in
          (st2, cursor2, j_job_id job :: done)
  end.

Definition readvance_stalled_pinned_jobs (bounds : StalledSweepBounds) (cursor : option Uuid) (st : ServerState)
    : ServerState * option Uuid * list Uuid :=
  readvance_loop 0 (get_stalled_pinned_jobs cursor (sweep_max_jobs bounds) (st_db st)) ∅ cursor st.

Fixpoint deferred_loop (i : nat) (jobs : list Uuid) (cursor : option Uuid) (st : ServerState) : ServerState * option Uuid :=
  match jobs with
  | [] => (st, cursor)
  | job_id :: rest =>
      if (0 <? i)%nat && spent i then (st, cursor) else deferred_loop (S i) rest (Some job_id) (adv job_id st)
  end.

Definition readvance_deferred_steps (now older_than : Time) (bounds : StalledSweepBounds) (cursor : option Uuid) (st : ServerState)
    : ServerState * option Uuid :=
  deferred_loop 0 (get_jobs_with_stranded_deferred_steps now older_than cursor (sweep_max_jobs bounds) (st_db st)) cursor st.
End readvance.

(** ** The sweep *)

Section sweep.
Context `{AgentCodec, Collation, TemplateEngine, JsonParser} (sv : Services) (fuel depth : nat).
Context (cfg : RecoveryConfig) (between : ServerState → ServerState).
Context (spent : nat → bool) (cached : nat → string * string → bool).

Let adv (i : Uuid) (st : ServerState) : ServerState := (advance sv fuel i st).1.

Definition fail_claimed (error : StaleStepInfo → string) (s : StaleStepInfo) (st : ServerState) : option ServerState :=
  '(st', _, _) ← claimed_step_failed sv fuel (st_job_id s) (st_step_name s) (error s) (stale_claim s) (between st); Some st'.

Definition fail_unclaimed (error : string) (s : StaleStepInfo) (st : ServerState) : option ServerState :=
  '(st', _, _) ← step_failed sv fuel (st_job_id s) (st_step_name s) error [] None (between st); Some st'.

Definition phase_stale_workers (st : ServerState) : option ServerState :=
  let '(db1, workers) := mark_stale_inactive (sv_now sv) (secs (heartbeat_timeout_secs cfg)) (st_db st) in
  each (fail_claimed (WORKER_TIMEOUT (sv_show sv))) (get_running_steps_for_workers workers db1) (with_db db1 st).

Definition phase_step_timeouts (st : ServerState) : option ServerState :=
  each (fail_claimed (λ _, STEP_TIMEOUT)) (get_timed_out_steps (sv_now sv) (st_db st)) st.

Definition phase_approval_timeouts (st : ServerState) : option ServerState :=
  each (fail_unclaimed APPROVAL_TIMEOUT) (get_timed_out_suspended_steps (sv_now sv) (st_db st)) st.

Definition cancel_timed_out (job_id : Uuid) (st : ServerState) : option ServerState :=
  '(st', _) ← cancel sv adv depth job_id (between st); Some st'.

Definition phase_job_timeouts (st : ServerState) : option ServerState :=
  each cancel_timed_out (get_timed_out_jobs (sv_now sv) (st_db st)) st.

Definition phase_unmatched (st : ServerState) : option ServerState :=
  each (fail_unclaimed NO_MATCHING_WORKER)
    (get_unmatched_ready_steps (sv_now sv) (secs (unmatched_step_timeout_secs cfg)) (st_db st)) st.

(** Phases 1 to 4.6. *)
Definition sweep (cur : Cursors) (st : ServerState) : option (ServerState * Cursors) :=
  st1 ← phase_stale_workers st;
  st2 ← phase_step_timeouts (between st1);
  st3 ← phase_approval_timeouts (between st2);
  st4 ← phase_job_timeouts (between st3);
  st5 ← phase_unmatched (between st4);
  let '(st6, c1, _) := readvance_stalled_pinned_jobs adv spent cached default_bounds (stalled_pinned_cursor cur) st5 in
  let '(st7, c2) := readvance_deferred_steps adv spent (sv_now sv) (secs (unmatched_step_timeout_secs cfg))
                      default_bounds (deferred_steps_cursor cur) st6 in
  Some (st7, mkCursors c1 c2).

(** One tick of the loop: only the leader sweeps. *)
Definition tick (is_leader : bool) (cur : Cursors) (st : ServerState) : option (ServerState * Cursors) :=
  if is_leader then sweep cur st else Some (st, cur).
End sweep.

(** ** The recovery sweep: theorems *)

(** The row at a key is replaced, and nothing else of the tables changes. *)
Definition only_step (key : Uuid * string) (r : StepRec) (db db' : Db) : Prop :=
  db_step db' = <[key := r]> (db_step db) ∧ db_job db' = db_job db ∧ db_worker db' = db_worker db ∧ db_ref_pin db' = db_ref_pin db.

Lemma only_step_update j n f db r :
  db_step db !! (j, n) = Some r → only_step (j, n) (f r) db (update_step j n any_row f db).1.
Proof.
  intros Hr. split_and!; try done. apply map_eq. intros k. destruct (decide (k = (j, n))) as [->|Hk].
  - by rewrite lookup_update_step_eq, Hr, lookup_insert_eq.
  - by rewrite lookup_update_step_ne, lookup_insert_ne by done.
Qed.

(** Retries are left to a step. *)
Definition retryable (r : StepRec) : Prop := ∃ max, js_max_retries (sr_row r) = Some max ∧ (js_retry_attempt (sr_row r) < max)%Z.

(** The row goes back to the queue until [t], one attempt on. *)
Definition requeued (now t : Time) (r r' : StepRec) : Prop :=
  sr_status r' = "ready" ∧ js_retry_attempt (sr_row r') = (js_retry_attempt (sr_row r) + 1)%Z ∧
  js_retry_at (sr_row r') = Some t ∧ sr_ready_at r' = Some now ∧ js_worker_id (sr_row r') = None ∧
  js_started_at (sr_row r') = None ∧ js_error_message (sr_row r') = None ∧ js_output (sr_row r') = None.

Definition failed_with (now : Time) (error : string) (r' : StepRec) : Prop :=
  sr_status r' = "failed" ∧ js_error_message (sr_row r') = Some error ∧ js_completed_at (sr_row r') = Some now.

Section failures.
Context `{AgentCodec, Collation, TemplateEngine, JsonParser} (sv : Services) (fuel : nat) (cfg : RecoveryConfig).
Context (between : ServerState → ServerState).

Definition retry_time (r : StepRec) : option Time :=
  retry_instant (sv_now sv) (compute_retry_delay (sv_random sv (sr_row r)) (sr_row r)).

(** What failing the step at a key does to the state: nothing but its row
    changes before the job of a failed step is advanced. *)
Definition fails (j : Uuid) (n error : string) (r : StepRec) (st : ServerState) (res : option ServerState) : Prop :=
  (retryable r → ∀ t, retry_time r = Some t →
     ∃ db r', res = Some (with_db db st) ∧ only_step (j, n) r' (st_db st) db ∧ requeued (sv_now sv) t r r') ∧
  (retryable r → retry_time r = None → res = None) ∧
  (¬ retryable r →
     ∃ db r', res = Some (advance sv fuel j (with_db db st)).1 ∧ only_step (j, n) r' (st_db st) db ∧
       failed_with (sv_now sv) error r').

(** The claim the sweep saw is still the row's. *)
Definition same_claim (s : StaleStepInfo) (r : StepRec) : Prop :=
  sr_status r = "running" ∧
  ∀ w t, st_worker_id s = Some w → st_started_at s = Some t → js_worker_id (sr_row r) = Some w ∧ js_started_at (sr_row r) = Some t.

Lemma step_failed_fails j n error expected claim st r :
  db_step (st_db st) !! (j, n) = Some r →
  negb (bool_decide (expected = [])) && negb (existsb (λ s, StepStatus.as_ref s ==? js_status (sr_row r)) expected) = false →
  match claim with Some c => claim_is c (sr_row r) = true | None => True end →
  fails j n error r st ('(st', _, _) ← step_failed sv fuel j n error expected claim st; Some st').
Proof.
  intros Hr Hex Hc. unfold step_failed, fail_or_retry. rewrite Hr, Hex.
  assert (match claim with Some c => negb (claim_is c (sr_row r)) | None => false end = false) as ->.
  { destruct claim; [by rewrite Hc|done]. }
  split_and!.
  - intros (max & -> & Hlt%Z.ltb_lt) t Ht. unfold retry_time in Ht. rewrite Hlt, Ht. simpl.
    eexists _, _. split; [done|]. split; [by apply only_step_update|]. by split_and!.
  - intros (max & -> & Hlt%Z.ltb_lt) Ht. unfold retry_time in Ht. by rewrite Hlt, Ht.
  - intros Hn. assert (Hm : ∀ max, js_max_retries (sr_row r) = Some max → (js_retry_attempt (sr_row r) <? max)%Z = false).
    { intros max Hmax. apply Z.ltb_ge. destruct (Z.le_gt_cases max (js_retry_attempt (sr_row r))); [done|].
      destruct Hn. by exists max. }
    destruct (js_max_retries (sr_row r)) as [max|] eqn:Em; [rewrite Hm by done|]; simpl; eexists _, _; (split; [done|]);
      (split; [by apply only_step_update|]); by split_and!.
Qed.

(** A claim the step no longer has is not failed. *)
Lemma fail_claimed_guard err s st :
  (∀ r, db_step (st_db (between st)) !! (st_job_id s, st_step_name s) = Some r → ¬ same_claim s r) →
  fail_claimed sv fuel between err s st = Some (between st).
Proof.
  intros Hr. unfold fail_claimed, claimed_step_failed, step_failed, fail_or_retry.
  assert (Est : with_db (st_db (between st)) (between st) = between st) by by destruct (between st).
  destruct (db_step (st_db (between st)) !! (st_job_id s, st_step_name s)) as [r|]; [|simpl; by rewrite Est].
  specialize (Hr r eq_refl). rewrite bool_decide_false by done. cbn [negb andb existsb]. rewrite orb_false_r.
  change (StepStatus.as_ref StepRunning) with "running". case_bool_decide as Es; [|simpl; by rewrite Est].
  cbn [negb]. assert (match stale_claim s with Some c => negb (claim_is c (sr_row r)) | None => false end = true) as ->;
    [|simpl; by rewrite Est].
  unfold same_claim, sr_status in Hr. unfold stale_claim, claim_is.
  destruct (st_worker_id s) as [w|], (st_started_at s) as [t|]; cbn [claim_worker_id claim_started_at];
    try (destruct Hr; split; [by symmetry|]; intros ? ? [=]; by intros [=]).
  apply negb_true_iff, andb_false_iff. rewrite !bool_decide_eq_false.
  destruct (decide (js_worker_id (sr_row r) = Some w)) as [Hw|]; [|by left].
  destruct (decide (js_started_at (sr_row r) = Some t)) as [Ht|]; [|by right].
  destruct Hr. split; [by symmetry|]. intros ? ? [= <-] [= <-]. done.
Qed.

Lemma fail_claimed_fails err s st r :
  db_step (st_db (between st)) !! (st_job_id s, st_step_name s) = Some r → same_claim s r →
  fails (st_job_id s) (st_step_name s) (err s) r (between st) (fail_claimed sv fuel between err s st).
Proof.
  intros Hr [Hs Hc]. apply step_failed_fails; [done| |].
  - unfold sr_status in Hs. by rewrite Hs, bool_decide_false by done.
  - unfold stale_claim. destruct (st_worker_id s) as [w|] eqn:Ew, (st_started_at s) as [t|] eqn:Et; try done.
    destruct (Hc w t eq_refl eq_refl) as [Hw Ht]. unfold claim_is. cbn. rewrite Hw, Ht. by rewrite !bool_decide_true by done.
Qed.

Lemma elem_of_running_for ws db s :
  steps_wf db →
  s ∈ get_running_steps_for_workers ws db ↔
  ∃ j n r w, db_step db !! (j, n) = Some r ∧ sr_status r = "running" ∧ js_worker_id (sr_row r) = Some w ∧ w ∈ ws ∧
    s = mkStale j n (Some w) (js_started_at (sr_row r)).
Proof.
  intros Hwf. unfold get_running_steps_for_workers. case_bool_decide as E.
  { subst ws. split; [by intros ?%elem_of_nil|]. by intros (? & ? & ? & ? & _ & _ & _ & ?%elem_of_nil & _). }
  rewrite list_elem_of_fmap. setoid_rewrite elem_of_sql_select. split.
  - intros (r & -> & [j n] & Hr & [Hs%bool_decide_eq_true Hw]%andb_true_iff).
    destruct (js_worker_id (sr_row r)) as [w|] eqn:Ew; [|done]. apply bool_decide_eq_true in Hw.
    destruct (Hwf _ _ Hr) as (Ej & En & _). simpl in *. exists j, n, r, w. split_and!; try done.
    unfold stale_of. by rewrite Ej, En, Ew.
  - intros (j & n & r & w & Hr & Hs & Hw & Hin & ->). destruct (Hwf _ _ Hr) as (Ej & En & _). simpl in *.
    exists r. split; [unfold stale_of; by rewrite Ej, En, Hw|]. exists (j, n). split; [done|].
    unfold status_is. by rewrite Hs, Hw, !bool_decide_true by done.
Qed.

Lemma elem_of_timed_out_steps now db s :
  steps_wf db →
  s ∈ get_timed_out_steps now db ↔
  ∃ j n r t secs, db_step db !! (j, n) = Some r ∧ sr_status r = "running" ∧ js_started_at (sr_row r) = Some t ∧
    js_timeout_secs (sr_row r) = Some secs ∧ (t + secs * 1000000 < now)%Z ∧ s = mkStale j n (js_worker_id (sr_row r)) (Some t).
Proof.
  intros Hwf. unfold get_timed_out_steps, deadline_passed. rewrite list_elem_of_fmap. setoid_rewrite elem_of_sql_select. split.
  - intros (r & -> & [j n] & Hr & [Hs%bool_decide_eq_true Hd]%andb_true_iff). destruct (Hwf _ _ Hr) as (Ej & En & _).
    destruct (js_timeout_secs (sr_row r)) as [secs|] eqn:Et, (js_started_at (sr_row r)) as [t|] eqn:Es; try done.
    apply Z.ltb_lt in Hd. exists j, n, r, t, secs. split_and!; try done. unfold stale_of. simpl in *. by rewrite Ej, En, Es.
  - intros (j & n & r & t & secs & Hr & Hs & Es & Et & Hd & ->). destruct (Hwf _ _ Hr) as (Ej & En & _). simpl in *.
    exists r. split; [unfold stale_of; by rewrite Ej, En, Es|]. exists (j, n). split; [done|].
    unfold status_is. rewrite Hs, Et, Es, bool_decide_true by done. by apply Z.ltb_lt.
Qed.

(** C30. What recovery does about dead workers and late steps. Exactly the
    active workers whose last heartbeat is older than the timeout become
    inactive, and no other worker row changes; the steps picked up are exactly
    the running ones of those workers, and the running ones past their
    timeout, each with the claim it is running under. Whatever happened in
    between: a picked step that is no longer running under that claim is left
    alone with everything else; one that is goes back to the queue with its
    next attempt when it has retries left, and nothing else changes (a retry
    time out of range is a panic); otherwise it fails with the error and only
    then its job is advanced. *)
Theorem recovery_failures_exact st :
  steps_wf (st_db st) →
  let '(db1, silent) := mark_stale_inactive (sv_now sv) (secs (heartbeat_timeout_secs cfg)) (st_db st) in
  (∀ k, k ∈ silent ↔ ∃ w h, db_worker (st_db st) !! k = Some w ∧ w_status w = "active" ∧ w_last_heartbeat w = Some h ∧
     (h < sv_now sv - secs (heartbeat_timeout_secs cfg))%Z) ∧
  (∀ k w, db_worker (st_db st) !! k = Some w →
     ∃ w', db_worker db1 !! k = Some w' ∧ if decide (k ∈ silent) then w_status w' = "inactive" else w' = w) ∧
  (∀ s, s ∈ get_running_steps_for_workers silent db1 ↔
     ∃ j n r w, db_step (st_db st) !! (j, n) = Some r ∧ sr_status r = "running" ∧ js_worker_id (sr_row r) = Some w ∧ w ∈ silent ∧
       s = mkStale j n (Some w) (js_started_at (sr_row r))) ∧
  (∀ s, s ∈ get_timed_out_steps (sv_now sv) (st_db st) ↔
     ∃ j n r t secs, db_step (st_db st) !! (j, n) = Some r ∧ sr_status r = "running" ∧ js_started_at (sr_row r) = Some t ∧
       js_timeout_secs (sr_row r) = Some secs ∧ (t + secs * 1000000 < sv_now sv)%Z ∧ s = mkStale j n (js_worker_id (sr_row r)) (Some t)) ∧
  (∀ err s st,
     (∀ r, db_step (st_db (between st)) !! (st_job_id s, st_step_name s) = Some r → ¬ same_claim s r) →
     fail_claimed sv fuel between err s st = Some (between st)) ∧
  (∀ err s st r,
     db_step (st_db (between st)) !! (st_job_id s, st_step_name s) = Some r → same_claim s r →
     fails (st_job_id s) (st_step_name s) (err s) r (between st) (fail_claimed sv fuel between err s st)).
Proof.
  intros Hwf. destruct (mark_stale_inactive _ _ _) as [db1 silent] eqn:E.
  pose proof (λ k, elem_of_mark_stale (sv_now sv) (secs (heartbeat_timeout_secs cfg)) (st_db st) k) as Hst.
  pose proof (λ k, lookup_mark_stale (sv_now sv) (secs (heartbeat_timeout_secs cfg)) (st_db st) k) as Hlook.
  assert (Es : db_step db1 = db_step (st_db st)) by (apply (f_equal fst) in E; simpl in E; by subst db1).
  rewrite E in Hst, Hlook. simpl in Hst, Hlook. split_and!.
  - intros k. rewrite Hst. unfold stale, heartbeat_before. setoid_rewrite andb_true_iff. setoid_rewrite bool_decide_eq_true. split.
    + intros (w & Hw & Ha & Hh). destruct (w_last_heartbeat w) as [h|] eqn:Eh; [|done]. exists w, h. by rewrite <-Z.ltb_lt.
    + intros (w & h & Hw & Ha & Eh & Hh). exists w. rewrite Eh, Z.ltb_lt. done.
  - intros k w Hw. rewrite Hlook, Hw. eexists. split; [done|]. destruct (decide (k ∈ silent)) as [Hk|Hk].
    + apply Hst in Hk as (w' & Hw' & Estale). simplify_eq. by rewrite Estale.
    + destruct (stale _ _ w) eqn:Estale; [|done]. destruct Hk. apply Hst. eauto.
  - intros s. rewrite elem_of_running_for, Es; [done|]. intros k r. rewrite Es. apply Hwf.
  - intros s. by apply elem_of_timed_out_steps.
  - intros err s st0. apply fail_claimed_guard.
  - intros err s st0 r. apply fail_claimed_fails.
Qed.
End failures.

(** ** The cursor of the stalled jobs *)

(** The first job listed is always advanced, and the cursor is the last one
    that was. *)
Lemma readvance_first adv spent cached job l cur st :
  ∃ rest, (readvance_loop adv spent cached 0 (job :: l) ∅ cur st).2 = j_job_id job :: rest.
Proof.
  cbn [readvance_loop]. destruct (j_revision job) as [c|]; simpl; rewrite ?bool_decide_false by apply not_elem_of_empty;
    destruct (readvance_loop _ _ _ 1 l _ _ _) as [[st2 c2] done]; by eexists.
Qed.

(** Three stalled jobs: the first two on one commit, the third on another. *)
Definition stalled_job (k : Uuid) (commit : string) : JobRec :=
  mkJobRec (mkJobRow k "ws" "t" "distributed" None None "running" "api" None None (Some commit) 0%Z None None None None None
              None None None 0%Z None None None None None (Some "main") None) None.
Definition stalled_state : ServerState :=
  mkServerState (mkDb (<[1%N := stalled_job 1%N "c1"]> (<[2%N := stalled_job 2%N "c1"]> {[3%N := stalled_job 3%N "c2"]})) ∅ ∅ []) ∅.

(** The jobs advanced by [n] sweeps while the first commit cannot be loaded:
    an [advance] returns without effect. *)
Fixpoint stalled_sweeps (n : nat) (cursor : option Uuid) : list Uuid :=
  match n with
  | O => []
  | S n' =>
      let '(_, cursor', advanced) :=
        readvance_stalled_pinned_jobs (λ _ st, st) (λ _, false) (λ _ p, p.2 ==? "c2") default_bounds cursor stalled_state in
      advanced ++ stalled_sweeps n' cursor'
  end.

(** A job that a sweep skips because its commit was just seen unavailable does
    not come first in the next sweep when a job after it is advanced: as long
    as its commit stays unavailable, it is skipped behind the same failing job
    in every sweep. *)
Theorem skipped_job_never_first n : stalled_sweeps n None = concat (replicate n [1%N; 3%N]).
Proof.
  assert (H : ∀ cursor, cursor = None ∨ cursor = Some 3%N → stalled_sweeps n cursor = concat (replicate n [1%N; 3%N])); [|auto].
  induction n as [|n IH]; intros cursor Hc; [done|]. cbn [stalled_sweeps replicate concat].
  destruct (readvance_stalled_pinned_jobs _ _ _ _ _ _) as [[st cursor'] advanced] eqn:E.
  assert (E' : cursor' = Some 3%N ∧ advanced = [1%N; 3%N]) by (destruct Hc as [->| ->]; vm_compute in E; by injection E as <- <- <-).
  destruct E' as [-> ->]. rewrite IH by auto. done.
Qed.
