(* ===== verification/Retention.v ===== *)
(** * Retention

    Phase 5 of the recovery sweep, [recovery.rs::retention_cleanup]: stale
    workers, the tarball cache, old terminal jobs with their logs, artifacts
    and rows, and unused input files. What fails, and the loaded workspaces,
    are an argument. *)
From S2P Require Import Prelude Json JobModel Db WorkerRepo JobRepo JobRepoProps Terminal Settlement FileField InputFiles InputFileLife TarballCache Recovery.

Record RetentionState := mkRetention {
  rt_db : Db;
  rt_files : FileTables;
  rt_input_blobs : Blobs;
  rt_tarballs : Cache;
  artifact_rows : gset Uuid;
  artifact_blobs : gset Uuid;
  local_logs : gset Uuid;
  archive_logs : gset Uuid;
}.

Record RetentionEnv := mkRetentionEnv {
  workers_fail : bool;
  keep_query_fails : bool;
  current_revisions : list (string * string);
  tarball_fails : string → string → bool;
  tarball_dir_fails : string → bool;
  jobs_fail : bool;
  (** [delete_local_log] only warns when the file cannot be removed. *)
  local_log_fails : Uuid → bool;
  (** Also where no archive is configured: nothing is deleted then. *)
  archive_log_fails : Uuid → bool;
  (** The artifact backend, when one is configured, with the jobs whose prefix it fails to delete. *)
  blob_fails : option (Uuid → bool);
  check_fails : Uuid → bool;
  rows_fail : Uuid → bool;
  delete_fails : Uuid → bool;
  input_configured : bool;
  file_env : SweepEnv;
  upload_ttl : Time;
}.

Definition on_db (f : Db → Db) (rs : RetentionState) : RetentionState :=
  mkRetention (f (rt_db rs)) (rt_files rs) (rt_input_blobs rs) (rt_tarballs rs) (artifact_rows rs) (artifact_blobs rs) (local_logs rs) (archive_logs rs).
Definition on_files (f : FileTables * Blobs → FileTables * Blobs) (rs : RetentionState) : RetentionState :=
  let '(db, blobs) := f (rt_files rs, rt_input_blobs rs) in
  mkRetention (rt_db rs) db blobs (rt_tarballs rs) (artifact_rows rs) (artifact_blobs rs) (local_logs rs) (archive_logs rs).
Definition on_tarballs (f : Cache → Cache) (rs : RetentionState) : RetentionState :=
  mkRetention (rt_db rs) (rt_files rs) (rt_input_blobs rs) (f (rt_tarballs rs)) (artifact_rows rs) (artifact_blobs rs) (local_logs rs) (archive_logs rs).
Definition on_artifacts (f g : gset Uuid → gset Uuid) (rs : RetentionState) : RetentionState :=
  mkRetention (rt_db rs) (rt_files rs) (rt_input_blobs rs) (rt_tarballs rs) (f (artifact_rows rs)) (g (artifact_blobs rs)) (local_logs rs) (archive_logs rs).
Definition on_logs (f g : gset Uuid → gset Uuid) (rs : RetentionState) : RetentionState :=
  mkRetention (rt_db rs) (rt_files rs) (rt_input_blobs rs) (rt_tarballs rs) (artifact_rows rs) (artifact_blobs rs) (f (local_logs rs)) (g (archive_logs rs)).

Definition remove (job_id : Uuid) (s : gset Uuid) : gset Uuid := s ∖ {[job_id]}.

(** [JobRepo::delete]: the attachments and the row, in one transaction. *)
Definition delete_job_rows (job_id : Uuid) (rs : RetentionState) : RetentionState :=
  on_db (delete_job job_id) (on_files (λ '(db, blobs), (delete_attachments job_id db, blobs)) rs).

(** One job of the batch: its logs, its artifact blobs, its artifact rows
    ([job_artifact.job_id] restricts the deletion of a job row), its row. *)
Definition retain_job (env : RetentionEnv) (rs : RetentionState) (job_id : Uuid) : RetentionState :=
  let rs := on_logs (if local_log_fails env job_id then id else remove job_id) (if archive_log_fails env job_id then id else remove job_id) rs in
  let delete_rows (rs : RetentionState) :=
    if rows_fail env job_id then rs
    else
      let rs := on_artifacts (remove job_id) id rs in
      if delete_fails env job_id then rs else delete_job_rows job_id rs in
  match blob_fails env with
  | Some fails => if fails job_id then rs else delete_rows (on_artifacts id (remove job_id) rs)
  | None =>
      if check_fails env job_id then rs
      (** The refusal is written to the log of the job. *)
      else if bool_decide (job_id ∈ artifact_rows rs) then on_logs (λ s, {[job_id]} ∪ s) id rs
      else delete_rows rs
  end.

Definition BATCH_SIZE : nat := 1000.

Definition old_jobs (now : Time) (days : Z) (db : Db) : list Uuid :=
  j_job_id <$> get_old_terminal_jobs now (secs (days * 86400)) BATCH_SIZE db.

Definition delete_old_jobs (env : RetentionEnv) (now : Time) (job_days : option Z) (rs : RetentionState) : RetentionState :=
  match job_days with
  | Some days => if jobs_fail env then rs else fold_left (retain_job env) (old_jobs now days (rt_db rs)) rs
  | None => rs
  end.

Definition delete_old_workers (env : RetentionEnv) (now : Time) (worker_hours : option Z) (rs : RetentionState) : RetentionState :=
  match worker_hours with
  | Some hours => if workers_fail env then rs else on_db (λ db, (delete_stale now (secs (hours * 3600)) db).1) rs
  | None => rs
  end.

Definition clean_tarballs (env : RetentionEnv) (now : Time) (rs : RetentionState) : RetentionState :=
  on_tarballs (tarball_cache_cleanup (tarball_fails env) (tarball_dir_fails env)
    (if keep_query_fails env then None else Some (tarball_keep_revisions now (rt_db rs))) (current_revisions env)) rs.

Definition retention_cleanup `{Collation} (env : RetentionEnv) (now : Time) (worker_hours job_days : option Z) (rs : RetentionState) : RetentionState :=
  let rs := delete_old_workers env now worker_hours rs in
  let rs := clean_tarballs env now rs in
  let rs := delete_old_jobs env now job_days rs in
  on_files (sweep_input_files (file_env env) (input_configured env) now (upload_ttl env)) rs.

(** Phase 5 of the sweep: at most once in an interval. *)
Definition phase_retention `{Collation} (env : RetentionEnv) (now : Time) (interval last : Z) (worker_hours job_days : option Z) (rs : RetentionState) :
    RetentionState * Z :=
  let seconds := (now / 1000000)%Z in
  if (interval <=? seconds - last)%Z then (retention_cleanup env now worker_hours job_days rs, seconds) else (rs, last).

(** ** Facts *)

Section retention.
Context (env : RetentionEnv).

(** What went with the row of a job. *)
Record cleaned (rs0 rs : RetentionState) (k : Uuid) : Prop := {
  cl_local : (k ∈ local_logs rs) → local_log_fails env k = true;
  cl_archive : (k ∈ archive_logs rs) → archive_log_fails env k = true;
  cl_rows : (k ∉ artifact_rows rs);
  cl_blobs : match blob_fails env with Some _ => (k ∉ artifact_blobs rs) | None => (k ∉ artifact_rows rs0) end;
  cl_attachments field : job_input_file (rt_files rs) !! (k, field) = None;
}.

(** What a part of the batch does: only listed rows go, and only cleaned. *)
Record retained (l : list Uuid) (rs rs' : RetentionState) : Prop := {
  rt_other k : (k ∉ l) → is_Some (db_job (rt_db rs') !! k) ↔ is_Some (db_job (rt_db rs) !! k);
  rt_back k : is_Some (db_job (rt_db rs') !! k) → is_Some (db_job (rt_db rs) !! k);
  rt_rows : artifact_rows rs' ⊆ artifact_rows rs;
  rt_rows_only : artifact_rows rs ⊆ artifact_rows rs' ∪ list_to_set l;
  rt_blobs : artifact_blobs rs' ⊆ artifact_blobs rs;
  rt_local : local_logs rs' ⊆ local_logs rs ∪ artifact_rows rs;
  rt_archive : archive_logs rs' ⊆ archive_logs rs;
  rt_files_same : input_file (rt_files rs') = input_file (rt_files rs) ∧ rt_input_blobs rs' = rt_input_blobs rs;
  rt_attachments : job_input_file (rt_files rs') ⊆ job_input_file (rt_files rs);
  rt_attached k field id : job_input_file (rt_files rs) !! (k, field) = Some id →
    job_input_file (rt_files rs') !! (k, field) = Some id ∨ db_job (rt_db rs') !! k = None;
  rt_no_backend : blob_fails env = None → artifact_rows rs ⊆ artifact_rows rs';
  rt_gone k : is_Some (db_job (rt_db rs) !! k) → db_job (rt_db rs') !! k = None → cleaned rs rs' k;
}.

(** A step that keeps the rows. *)
Lemma retained_same j rs rs' :
  rt_db rs' = rt_db rs → rt_files rs' = rt_files rs → rt_input_blobs rs' = rt_input_blobs rs →
  artifact_rows rs' ⊆ artifact_rows rs → artifact_rows rs ⊆ artifact_rows rs' ∪ {[j]} →
  artifact_blobs rs' ⊆ artifact_blobs rs → local_logs rs' ⊆ local_logs rs ∪ artifact_rows rs → archive_logs rs' ⊆ archive_logs rs →
  (blob_fails env = None → artifact_rows rs ⊆ artifact_rows rs') → retained [j] rs rs'.
Proof.
  intros Hdb Hf Hb. split; rewrite ?Hdb, ?Hf; try done; [set_solver|by left|]. intros k [r Hr] Hn. congruence.
Qed.

(** The step that deletes the row. *)
Lemma retained_deleted j rs rs' : rt_db rs' = rt_db rs → rt_files rs' = rt_files rs → rt_input_blobs rs' = rt_input_blobs rs →
  (j ∉ artifact_rows rs') → artifact_rows rs' ⊆ artifact_rows rs → artifact_rows rs ⊆ artifact_rows rs' ∪ {[j]} →
  artifact_blobs rs' ⊆ artifact_blobs rs → local_logs rs' ⊆ local_logs rs → (j ∈ local_logs rs' → local_log_fails env j = true) → archive_logs rs' ⊆ archive_logs rs →
  (j ∈ archive_logs rs' → archive_log_fails env j = true) → (blob_fails env = None → artifact_rows rs ⊆ artifact_rows rs') →
  match blob_fails env with Some _ => (j ∉ artifact_blobs rs') | None => (j ∉ artifact_rows rs) end →
  retained [j] rs (delete_job_rows j rs').
Proof.
  intros Hdb Hf Hib Hj Hr1 Hr2 Hb Hl Hjl Ha Hja Hn Hm. unfold delete_job_rows, on_files, on_db, delete_job.
  split; cbn [rt_db rt_files rt_input_blobs artifact_rows artifact_blobs local_logs archive_logs db_job]; rewrite ?Hdb, ?Hf; try done.
  - intros k Hk%not_elem_of_cons. rewrite lookup_fmap, lookup_delete_ne by naive_solver. by destruct (db_job (rt_db rs) !! k); split; intros [? ?].
  - intros k. rewrite lookup_fmap. destruct (decide (k = j)) as [->|Hk]; [rewrite lookup_delete_eq; by intros []|].
    rewrite lookup_delete_ne by done. by destruct (db_job (rt_db rs) !! k); intros [? ?].
  - set_solver.
  - set_solver.
  - apply map_filter_subseteq.
  - intros k field id Hk. cbn. destruct (decide (k = j)) as [->|Hne]; [right; by rewrite lookup_fmap, lookup_delete_eq|].
    left. apply map_lookup_filter_Some. done.
  - intros k [r Hr]. rewrite lookup_fmap. destruct (decide (k = j)) as [->|Hk]; [|rewrite lookup_delete_ne, Hr by done; done].
    intros _. split; cbn [rt_files local_logs archive_logs artifact_rows artifact_blobs]; try done.
    intros field. cbn. apply map_lookup_filter_None. right. naive_solver.
Qed.

(** The inclusions of one step. *)
Ltac sets :=
  intros; unfold remove, id in *; first [done|congruence|set_solver|
    match goal with |- _ ⊆ _ ∖ {[?j]} ∪ {[?j]} => let x := fresh in intros x ?; destruct (decide (x = j)); set_solver end].

Lemma retain_job_spec rs j : retained [j] rs (retain_job env rs j).
Proof.
  unfold retain_job. destruct (blob_fails env) as [fails|] eqn:Eb.
  - destruct (fails j); [|destruct (rows_fail env j); [|destruct (delete_fails env j)]]; [apply retained_same..|apply retained_deleted];
      cbn [on_logs on_artifacts rt_db rt_files rt_input_blobs artifact_rows artifact_blobs local_logs archive_logs]; rewrite ?Eb;
      destruct (local_log_fails env j), (archive_log_fails env j); sets.
  - destruct (check_fails env j); [|case_bool_decide; [|destruct (rows_fail env j); [|destruct (delete_fails env j)]]];
      [apply retained_same..|apply retained_deleted];
      cbn [on_logs on_artifacts rt_db rt_files rt_input_blobs artifact_rows artifact_blobs local_logs archive_logs] in *; rewrite ?Eb;
      destruct (local_log_fails env j), (archive_log_fails env j); sets.
Qed.

Lemma retain_all_spec l rs : retained l rs (fold_left (retain_job env) l rs).
Proof.
  revert rs. induction l as [|j l IH]; intros rs; cbn [fold_left].
  { split; try done; [clear; set_solver|clear; set_solver|by left|]. intros k [r Hr] Hn. congruence. }
  destruct (retain_job_spec rs j) as [A1 A2 A3 A4 A5 A6 A7 [A8 A8'] A9 A10 A11 A12].
  destruct (IH (retain_job env rs j)) as [B1 B2 B3 B4 B5 B6 B7 [B8 B8'] B9 B10 B11 B12]. set (rs1 := retain_job env rs j) in *.
  set (rs' := fold_left (retain_job env) l rs1) in *. split.
  - intros k [Hk Hl]%not_elem_of_cons. rewrite B1 by done. apply A1. by intros ->%list_elem_of_singleton.
  - auto.
  - by etrans.
  - clear -A4 B4. set_solver.
  - by etrans.
  - clear -A3 A6 B6. set_solver.
  - by etrans.
  - split; congruence.
  - by etrans.
  - intros k field id Hk. destruct (A10 k field id Hk) as [H1|H1]; [by apply B10|]. right.
    destruct (db_job (rt_db rs') !! k) eqn:E; [|done]. destruct (B2 k ltac:(eauto)) as [? ?]. congruence.
  - intros E. etrans; [by apply A11|by apply B11].
  - intros k Hk Hn. destruct (decide (is_Some (db_job (rt_db rs1) !! k))) as [H1|H1].
    + destruct (B12 k H1 Hn) as [C1 C2 C3 C4 C5]. split; try done. destruct (blob_fails env); [done|]. intros Hin. by apply C4, (A11 eq_refl).
    + apply eq_None_not_Some in H1. destruct (A12 k Hk H1) as [C1 C2 C3 C4 C5]. split.
      * clear -C1 C3 B6. set_solver.
      * intros Hin. by apply C2, B7.
      * intros Hin. by apply C3, B3.
      * destruct (blob_fails env); [|done]. intros Hin. by apply C4, B5.
      * intros field. destruct (job_input_file (rt_files rs') !! (k, field)) eqn:E; [|done]. rewrite <-(C5 field). symmetry.
        by apply (lookup_weaken _ _ _ _ E B9).
Qed.

(** The sweep of the files does not touch attachments. *)
Lemma sweep_input_files_attachments `{Collation} fenv configured now ttl st :
  job_input_file (sweep_input_files fenv configured now ttl st).1 = job_input_file st.1.
Proof.
  unfold sweep_input_files. set (st1 := if tokens_fail fenv then st else _).
  assert (E1 : job_input_file st1.1 = job_input_file st.1) by (unfold st1; by destruct (tokens_fail fenv)).
  destruct (negb configured); [done|]. destruct (list_fails fenv); [done|]. rewrite <-E1. generalize (sweep_candidates now ttl 1000 st1.1).
  generalize st1. clear. intros st1 l. revert st1. induction l as [|x l IH]; intros st; cbn [fold_left]; [done|]. rewrite IH.
  destruct st as [db blobs]. unfold sweep_file, mark_deleting_tx, delete_file. repeat case_match; simplify_eq; try done.
Qed.

(** Created and ended before the retention period. *)
Definition past (now : Time) (days : Z) (r : JobRec) : Prop :=
  (j_created_at (jr_row r) < now - days * 86400 * 1000000)%Z ∧
  (default (j_created_at (jr_row r)) (j_completed_at (jr_row r)) < now - days * 86400 * 1000000)%Z.

(** Only terminal jobs past the retention period are listed. *)
Lemma old_jobs_spec now days db k : jobs_wf db → k ∈ old_jobs now days db →
  ∃ r, db_job db !! k = Some r ∧ over r ∧ past now days r.
Proof.
  intros Hwf (row & -> & Hrow)%list_elem_of_fmap. unfold get_old_terminal_jobs in Hrow.
  pose proof (elem_of_sublist _ _ _ Hrow (sublist_take _ _)) as Hin.
  apply elem_of_select_jobs in Hin as (k & r & Hr & -> & Hw). exists r. rewrite (proj1 (Hwf _ _ Hr)).
  rewrite !andb_true_iff, !Z.ltb_lt in Hw. destruct Hw as [[Hs Hc] He]. split_and!; [done| |by split].
  unfold over, jr_status. apply bool_decide_eq_true in Hs.
  repeat (apply elem_of_cons in Hs as [->|Hs]; [done|]). by apply elem_of_nil in Hs.
Qed.

(** The batch of a run, whole. *)
Lemma delete_old_jobs_spec now job_days rs : jobs_wf (rt_db rs) → ∃ l, retained l rs (delete_old_jobs env now job_days rs) ∧
  ∀ k, k ∈ l → ∃ r days, db_job (rt_db rs) !! k = Some r ∧ over r ∧ job_days = Some days ∧ past now days r.
Proof.
  intros Hwf. unfold delete_old_jobs. assert (H0 : retained [] rs rs) by apply (retain_all_spec [] rs).
  destruct job_days as [days|]; [|exists []; split; [done|intros k H; by apply elem_of_nil in H]].
  destruct (jobs_fail env); [exists []; split; [done|intros k H; by apply elem_of_nil in H]|].
  exists (old_jobs now days (rt_db rs)). split; [apply retain_all_spec|]. intros k Hk.
  destruct (old_jobs_spec now days (rt_db rs) k Hwf Hk) as (r & ? & ? & ?). eauto 10.
Qed.

(** A job of the batch goes when nothing about it fails. *)
Lemma retain_job_deletes rs j fails : blob_fails env = Some fails → fails j = false → rows_fail env j = false → delete_fails env j = false →
  db_job (rt_db (retain_job env rs j)) !! j = None.
Proof. intros Eb Ef Er Ed. unfold retain_job. rewrite Eb, Ef, Er, Ed. cbn. by rewrite lookup_fmap, lookup_delete_eq. Qed.

Lemma retain_all_deletes rs l j fails : j ∈ l → blob_fails env = Some fails → fails j = false → rows_fail env j = false → delete_fails env j = false →
  db_job (rt_db (fold_left (retain_job env) l rs)) !! j = None.
Proof.
  intros (l1 & l2 & ->)%list_elem_of_split Eb Ef Er Ed. rewrite fold_left_app. cbn [fold_left]. set (rs1 := fold_left _ l1 rs).
  destruct (retain_all_spec l2 (retain_job env rs1 j)) as [_ Hback]. apply eq_None_not_Some. intros Hs%Hback.
  rewrite (retain_job_deletes rs1 j fails) in Hs by done. by destruct Hs.
Qed.

(** C31. Retention deletes a job only when nothing of it would be left behind, and
    takes nothing a job still holds. A job row that is gone belonged to a
    terminal job created and ended before the retention period; its local
    log is left only where its removal failed (the code warns and goes on),
    its archived log only where the archive refused or there is none, no
    artifact row and no attachment of it is left (so the deletion could never
    be refused), and its artifact blobs are deleted; without a blob backend
    only jobs that had no artifact rows go. Artifact rows of jobs that are not
    over stay. A job that stays keeps its attachments, with the row and the
    bytes of each attached file. With a backend, every job of the batch of a
    thousand for which nothing fails is gone. *)
Theorem retention_deletes_safely `{Collation} prefix now worker_hours job_days rs :
  jobs_wf (rt_db rs) → tables_ok prefix (rt_files rs) →
  let rs' := retention_cleanup env now worker_hours job_days rs in
  (∀ k r, db_job (rt_db rs) !! k = Some r → db_job (rt_db rs') !! k = None →
    over r ∧ cleaned rs rs' k ∧
    ∃ days, job_days = Some days ∧ past now days r) ∧
  (∀ k, k ∈ artifact_rows rs → k ∉ artifact_rows rs' → ∃ r, db_job (rt_db rs) !! k = Some r ∧ over r) ∧
  (∀ k field id, job_input_file (rt_files rs) !! (k, field) = Some id → is_Some (db_job (rt_db rs') !! k) →
    job_input_file (rt_files rs') !! (k, field) = Some id ∧
    same_file id (rt_files rs, rt_input_blobs rs) (rt_files rs', rt_input_blobs rs')) ∧
  (∀ days fails k, job_days = Some days → jobs_fail env = false → k ∈ old_jobs now days (rt_db rs) →
    blob_fails env = Some fails → fails k = false → rows_fail env k = false → delete_fails env k = false → db_job (rt_db rs') !! k = None).
Proof.
  intros Hwf Hok rs'. set (rs1 := clean_tarballs env now (delete_old_workers env now worker_hours rs)).
  assert (E1 : db_job (rt_db rs1) = db_job (rt_db rs) ∧ rt_files rs1 = rt_files rs ∧ rt_input_blobs rs1 = rt_input_blobs rs ∧ artifact_rows rs1 = artifact_rows rs).
  { unfold rs1, delete_old_workers. by destruct worker_hours; [destruct (workers_fail env)|]. }
  destruct E1 as (Ej & Ef & Eib & Er). assert (Hwf1 : jobs_wf (rt_db rs1)) by (intros k r Hr; rewrite Ej in Hr; by apply Hwf).
  destruct (delete_old_jobs_spec now job_days rs1 Hwf1) as (l & [B1 B2 B3 B4 B5 B6 B7 [B8 B8'] B9 B10 B11 B12] & Hold).
  set (rs2 := delete_old_jobs env now job_days rs1) in *. rewrite Ej in *.
  set (sw := sweep_input_files (file_env env) (input_configured env) now (upload_ttl env)).
  assert (Er' : rs' = on_files sw rs2) by done. clearbody rs'. subst rs'.
  pose proof (sweep_input_files_attachments (file_env env) (input_configured env) now (upload_ttl env) (rt_files rs2, rt_input_blobs rs2)) as Hatt.
  fold sw in Hatt. unfold on_files. destruct (sw (rt_files rs2, rt_input_blobs rs2)) as [fdb blobs] eqn:Esw. cbn [fst] in Hatt.
  cbn [rt_db artifact_rows rt_files rt_input_blobs]. split_and!.
  - intros k r Hr Hn. assert (Hs : is_Some (db_job (rt_db rs) !! k)) by by exists r. pose proof (B12 k Hs Hn) as [C1 C2 C3 C4 C5].
    destruct (decide (k ∈ l)) as [Hin|Hin]; [|apply B1 in Hin; destruct (proj2 Hin Hs); congruence].
    destruct (Hold k Hin) as (r' & days & Hr' & Ho & Hd & Hc). rewrite Hr in Hr'. injection Hr' as <-. split; [done|]. split; [|eauto].
    split; cbn [local_logs archive_logs artifact_rows artifact_blobs rt_files]; try done; [by rewrite <-Er|]. intros field. by rewrite Hatt.
  - intros k Hk Hn. assert (Hin : k ∈ l) by (rewrite <-Er in Hk; clear -Hk Hn B4; set_solver). destruct (Hold k Hin) as (r & days & Hr & Ho & _). eauto.
  - intros k field id Hk Hs. assert (Hk2 : job_input_file (rt_files rs2) !! (k, field) = Some id).
    { destruct (B10 k field id) as [H1|H1]; [by rewrite Ef|done|]. destruct Hs. congruence. }
    split; [by rewrite Hatt|].
    assert (Hok2 : tables_ok prefix (rt_files rs2)) by (intros i row; rewrite B8, Ef; apply Hok).
    pose proof (sweep_keeps prefix (file_env env) (input_configured env) now (upload_ttl env) (rt_files rs2, rt_input_blobs rs2) id Hok2) as [S1 S2].
    { left. apply attached_spec. eauto. }
    fold sw in S1, S2. rewrite Esw in S1, S2. cbn [fst snd] in S1, S2. rewrite B8, Ef in S1, S2. rewrite B8', Eib in S2. by split.
  - intros days fails k -> Ejf Hk Eb Ef' Er' Ed. unfold rs2, delete_old_jobs. rewrite Ejf. apply (retain_all_deletes _ _ _ fails); try done.
    revert Hk. unfold old_jobs, get_old_terminal_jobs, select_jobs. by rewrite Ej.
Qed.
End retention.
