(* ===== verification/LogSplit.v ===== *)
(** * The line splitter of the log readers

    [crates/stroem-server/src/log_read/splitter.rs]: [LineSplitter::next] lends
    the lines of a reader from one accumulator, and [filtered_stream] streams
    the lines of a step. The reader is whatever [fill_buf] will return: blocks
    of bytes and faults, in this order, then the end. The theorems show that
    neither depends on how the bytes are cut into blocks. *)
From S2P Require Import Prelude Text Lines.

(** ** The reader *)

Inductive Block := Data (b : Bytes) | Fault (e : string).

(** [AsyncBufRead::fill_buf]: the unread rest of the current block, empty at
    the end; a fault is reported once. *)
Definition fill_buf (rd : list Block) : list Block * result string Bytes :=
  match rd with
  | [] => ([], Ok [])
  | Data b :: _ => (rd, Ok b)
  | Fault e :: rd' => (rd', Err e)
  end.

(** [AsyncBufRead::consume] *)
Definition consume (n : nat) (rd : list Block) : list Block :=
  match rd with
  | Data b :: rd' => if bool_decide (drop n b = []) then rd' else Data (drop n b) :: rd'
  | _ => rd
  end.

(** ** [LineSplitter] *)

Inductive LineRef := Line (l : Bytes) | Unterminated (l : Bytes) | Skipped (bytes : nat).

Record LineSplitter := mkSplitter {
  reader : list Block;
  acc : Bytes;
  max_line : nat;
  discarding : option nat;
  lent : bool;
  consumed : nat;
}.

Definition splitter_new (rd : list Block) (max_line : nat) : LineSplitter := mkSplitter rd [] max_line None false 0.

(** A turn of the loop of [next] on a block [buf]: the answer, or the state to
    go on with. *)
Definition next_block (s : LineSplitter) (buf : Bytes) : (LineSplitter * result string (option LineRef)) + LineSplitter :=
  let newline := nl_position buf in
  let tk := default (length buf) newline in
  let used := (tk + if newline is Some _ then 1 else 0)%nat in
  match discarding s with
  | Some n =>
      let rd := consume used (reader s) in
      let n' := (n + tk)%nat in
      match newline with
      | Some _ => inl (mkSplitter rd (acc s) (max_line s) None (lent s) (consumed s + used), Ok (Some (Skipped n')))
      | None => inr (mkSplitter rd (acc s) (max_line s) (Some n') (lent s) (consumed s + used))
      end
  | None =>
      if (max_line s <? length (acc s) + tk)%nat
      then inr (mkSplitter (reader s) [] (max_line s) (Some (length (acc s))) (lent s) (consumed s))
      else
        let rd := consume used (reader s) in
        let a := acc s ++ take tk buf in
        match newline with
        | Some _ => inl (mkSplitter rd a (max_line s) None true (consumed s + used), Ok (Some (Line a)))
        | None => inr (mkSplitter rd a (max_line s) None (lent s) (consumed s + used))
        end
  end.

(** The whole turn, the accumulator not lent. *)
Definition next_turn (s : LineSplitter) : (LineSplitter * result string (option LineRef)) + LineSplitter :=
  let '(rd, r) := fill_buf (reader s) in
  match r with
  | Err e => inl (mkSplitter rd (acc s) (max_line s) (discarding s) (lent s) (consumed s), Err e)
  | Ok buf =>
      if bool_decide (buf = []) then
        match discarding s with
        | Some n => inl (mkSplitter rd (acc s) (max_line s) None (lent s) (consumed s), Ok (Some (Skipped n)))
        | None =>
            if bool_decide (acc s = []) then inl (mkSplitter rd [] (max_line s) None (lent s) (consumed s), Ok None)
            else inl (mkSplitter rd (acc s) (max_line s) None true (consumed s), Ok (Some (Unterminated (acc s))))
        end
      else next_block s buf
  end.

(** [None]: out of fuel. *)
Fixpoint next_loop (fuel : nat) (s : LineSplitter) : option (LineSplitter * result string (option LineRef)) :=
  match fuel with
  | O => None
  | S fuel' => match next_turn s with inl r => Some r | inr s' => next_loop fuel' s' end
  end.

(** Every turn reads a byte of the reader, or starts to discard. *)
Definition unread (rd : list Block) : nat := sum_list ((λ b, match b with Data b => length b | Fault _ => 0%nat end) <$> rd).
Definition turns (s : LineSplitter) : nat := (2 * unread (reader s) + if discarding s is Some _ then 0 else 1)%nat.

Definition next (s : LineSplitter) : option (LineSplitter * result string (option LineRef)) :=
  let s' := if lent s then mkSplitter (reader s) [] (max_line s) (discarding s) false (consumed s) else s in
  next_loop (S (turns s')) s'.

(** ** The lines of a byte string *)

Definition line_item (max : nat) (x : Bytes) : LineRef :=
  if (length x <=? max)%nat then Line x else Skipped (length x).
Definition rest_item (max : nat) (r : Bytes) : list LineRef :=
  match r with [] => [] | _ => [if (length r <=? max)%nat then Unterminated r else Skipped (length r)] end.
Definition line_items (max : nat) (l : Bytes) : list LineRef :=
  let '(ls, r) := split_nl l in (line_item max <$> ls) ++ rest_item max r.

(** A reader of blocks, none of them empty, that are the bytes [l]. *)
Definition reads (rd : list Block) (l : Bytes) : Prop :=
  ∃ bs, rd = Data <$> bs ∧ Forall (λ b, b ≠ []) bs ∧ concat bs = l.

(** The bytes of the line the splitter is in. *)
Definition in_line (s : LineSplitter) (p : Bytes) (l : Bytes) : Prop :=
  flat p ∧ lent s = false ∧
  match discarding s with
  | None => acc s = p ∧ (length p ≤ max_line s)%nat
  | Some n => acc s = [] ∧ n = length p ∧
      (max_line s < length p + length (head_line l))%nat
  end.

(** At a line start: nothing pending, or the last line lent. *)
Definition at_start (s : LineSplitter) : Prop := discarding s = None ∧ (acc s = [] ∨ lent s = true).

Lemma reads_nil l : reads [] l ↔ l = [].
Proof.
  split.
  - intros (bs & E & _ & <-). by destruct bs.
  - intros ->. by exists [].
Qed.

Lemma reads_data rd l : l ≠ [] → reads rd l → ∃ b rd' l', rd = Data b :: rd' ∧ b ≠ [] ∧ reads rd' l' ∧ l = b ++ l'.
Proof.
  intros Hl (bs & -> & Hb & <-). destruct bs as [|b bs]; [done|]. apply Forall_cons in Hb as [Hb Hbs].
  exists b, (Data <$> bs), (concat bs). split_and!; [done|done|by exists bs|done].
Qed.

Lemma unread_reads rd l : reads rd l → unread rd = length l.
Proof.
  intros (bs & -> & _ & <-). unfold unread. induction bs as [|b bs IH]; [done|].
  cbn. rewrite length_app. by rewrite IH.
Qed.

Lemma consume_reads b rd' l' n :
  reads rd' l' → (n ≤ length b)%nat → reads (consume n (Data b :: rd')) (drop n b ++ l').
Proof.
  intros (bs & -> & Hb & <-) Hn. simpl. case_bool_decide as E; [rewrite E; by exists bs|].
  exists (drop n b :: bs). split_and!; [done| |done]. by constructor.
Qed.

Lemma line_items_line max x l : flat x → line_items max (x ++ nl :: l) = line_item max x :: line_items max l.
Proof. intros Hx. unfold line_items. rewrite split_nl_line by done. by destruct (split_nl l). Qed.

Lemma line_items_flat max r : flat r → line_items max r = rest_item max r.
Proof. intros Hr. unfold line_items. by rewrite split_nl_flat. Qed.

(** ** One turn *)

(** What a turn makes of a splitter inside the line [p], with [l] unread: an
    answer, the first item of [p ++ l], with [l'] left; or less to do. *)
Definition answers (s : LineSplitter) (p l : Bytes) (s' : LineSplitter) (item : option LineRef) (l' : Bytes) : Prop :=
  at_start s' ∧ max_line s' = max_line s ∧ (length (acc s') ≤ max_line s)%nat ∧ reads (reader s') l' ∧
  (consumed s' + length l' = consumed s + length l)%nat ∧
  line_items (max_line s) (p ++ l) = option_list item ++ line_items (max_line s) l' ∧
  match item with None => l' = [] | Some _ => (length l' < length (p ++ l))%nat end.
Definition goes_on (s : LineSplitter) (p l : Bytes) (s' : LineSplitter) (p' l' : Bytes) : Prop :=
  reads (reader s') l' ∧ in_line s' p' l' ∧ max_line s' = max_line s ∧ p' ++ l' = p ++ l ∧
  (turns s' < turns s)%nat ∧ (consumed s' + length l' = consumed s + length l)%nat.

Lemma turn_eof s p : reads (reader s) [] → in_line s p [] → ∃ s' item, next_turn s = inl (s', Ok item) ∧ answers s p [] s' item [].
Proof.
  destruct s as [rd a max d le co]. intros (bs & E & Hbs & Hc) (Hp & Hle & Hin). simpl in *. subst le rd.
  destruct bs as [|b bs]; [|apply Forall_cons in Hbs as [Hb _]; by destruct b].
  unfold next_turn. simpl. unfold answers. rewrite app_nil_r, (line_items_flat _ p) by done. simpl. destruct d as [n|].
  - destruct Hin as (-> & -> & Hlt). rewrite Nat.add_0_r in Hlt. eexists _, _.
    split; [done|]. split_and!; [by split; [|left]|done|simpl; lia|by apply reads_nil|done| |simpl; lia].
    destruct p as [|c p]; [simpl in Hlt; lia|]. unfold rest_item. by rewrite (proj2 (Nat.leb_gt _ _) Hlt).
  - destruct Hin as [-> Hlen]. case_bool_decide as E; eexists _, _;
      (split; [done|]); (split_and!; [|done|simpl; lia|by apply reads_nil|done| |]).
    + by split; [|left].
    + by subst p.
    + done.
    + by split; [|right].
    + destruct p as [|c p]; [done|]. unfold rest_item. by rewrite (proj2 (Nat.leb_le _ _) Hlen).
    + destruct p; [done|simpl; lia].
Qed.

Lemma next_turn_block s b rd' : reader s = Data b :: rd' → b ≠ [] → next_turn s = next_block s b.
Proof. intros E Hb. unfold next_turn. rewrite E. simpl. by rewrite bool_decide_false. Qed.

Lemma reads_cons b rd' l' : b ≠ [] → reads rd' l' → reads (Data b :: rd') (b ++ l').
Proof. intros Hb (bs & -> & Hbs & <-). exists (b :: bs). split_and!; [done|by constructor|done]. Qed.

(** Starting to discard leaves the text as it is. *)
Lemma turn_discard s p l :
  reads (reader s) l → in_line s p l → discarding s = None → (max_line s < length p + length (head_line l))%nat →
  goes_on s p l (mkSplitter (reader s) [] (max_line s) (Some (length (acc s))) (lent s) (consumed s)) p l.
Proof.
  intros Hrd (Hp & Hle & Hin) Hd Hlt. rewrite Hd in Hin. destruct Hin as [<- _].
  split_and!; [done| |done|done|unfold turns; rewrite Hd; simpl; lia|done]. by split_and!.
Qed.

(** The block holds the end of the line. *)
Lemma turn_newline s p x rest rd' l' :
  reader s = Data (x ++ nl :: rest) :: rd' → reads rd' l' → flat x → in_line s p (x ++ nl :: rest ++ l') →
  (∃ s' item, next_turn s = inl (s', Ok item) ∧ answers s p (x ++ nl :: rest ++ l') s' item (rest ++ l')) ∨
  (∃ s', next_turn s = inr s' ∧ goes_on s p (x ++ nl :: rest ++ l') s' p (x ++ nl :: rest ++ l')).
Proof.
  intros Hrd Hr Hx Hin. assert (Hb : x ++ nl :: rest ≠ []) by by destruct x.
  rewrite (next_turn_block _ _ _ Hrd Hb). destruct (Hin) as (Hp & Hle & Hd).
  assert (Hitems : line_items (max_line s) (p ++ x ++ nl :: rest ++ l') =
            line_item (max_line s) (p ++ x) :: line_items (max_line s) (rest ++ l')).
  { rewrite app_assoc. apply line_items_line. by apply flat_app. }
  assert (Hco : reads (consume (length x + 1) (reader s)) (rest ++ l')).
  { rewrite Hrd. pose proof (consume_reads (x ++ nl :: rest) rd' l' (length x + 1) Hr) as H.
    rewrite drop_app_add in H. simpl in H. rewrite drop_0 in H. apply H. rewrite length_app. simpl. lia. }
  assert (Hcount : ∀ co, (co + (length x + 1) + length (rest ++ l') = co + length (x ++ nl :: rest ++ l'))%nat).
  { intros co. rewrite (length_app x). simpl. lia. }
  unfold next_block. rewrite nl_position_line by done. cbn [default from_option]; unfold id.
  destruct (discarding s) as [n|] eqn:Ed.
  - destruct Hd as (Ha & -> & Hlt). rewrite head_line_line in Hlt by done. left. eexists _, _. split; [reflexivity|].
    split_and!; [by split; [|left]|done|simpl; rewrite Ha; simpl; lia|done|simpl; by rewrite Hcount| |rewrite !length_app; simpl; rewrite length_app; lia].
    rewrite Hitems. simpl. f_equal. unfold line_item. by rewrite length_app, (proj2 (Nat.leb_gt _ _)).
  - destruct Hd as [<- Hlen]. destruct (Nat.ltb_spec (max_line s) (length (acc s) + length x)) as [Hlt|Hge].
    + right. eexists. split; [reflexivity|]. apply turn_discard; [|done|done|by rewrite head_line_line].
      rewrite Hrd. by apply (reads_cons _ _ _ Hb) in Hr; rewrite <-app_assoc in Hr.
    + left. eexists _, _. split; [reflexivity|]. rewrite take_app_length.
      split_and!; [by split; [|right]|done|simpl; rewrite length_app; lia|done|simpl; by rewrite Hcount| |rewrite !length_app; simpl; rewrite length_app; lia].
      rewrite Hitems. simpl. f_equal. unfold line_item. by rewrite length_app, (proj2 (Nat.leb_le _ _)).
Qed.

(** The line goes on after the block. *)
Lemma turn_block s p b rd' l' :
  reader s = Data b :: rd' → b ≠ [] → reads rd' l' → flat b → in_line s p (b ++ l') →
  ∃ s' p' l2, next_turn s = inr s' ∧ goes_on s p (b ++ l') s' p' l2.
Proof.
  intros Hrd Hb Hr Hfl Hin. rewrite (next_turn_block _ _ _ Hrd Hb). destruct (Hin) as (Hp & Hle & Hd).
  assert (Hco : reads (consume (length b + 0) (reader s)) l').
  { rewrite Hrd, Nat.add_0_r. pose proof (consume_reads b rd' l' (length b) Hr) as Hc. rewrite drop_all in Hc. by apply Hc. }
  assert (Hread : reads (reader s) (b ++ l')) by (rewrite Hrd; by apply reads_cons).
  assert (Hbl : (0 < length b)%nat) by (destruct b; [done|simpl; lia]).
  assert (Hpb : flat (p ++ b)) by by apply flat_app.
  assert (Hturns : ∀ a d c, (is_Some d ↔ is_Some (discarding s)) →
    (turns (mkSplitter (consume (length b + 0) (reader s)) a (max_line s) d false c) < turns s)%nat).
  { intros a d c Hiff. unfold turns. cbn [reader discarding]. rewrite (unread_reads _ _ Hco), (unread_reads _ _ Hread), length_app.
    destruct d, (discarding s); [lia| | |lia]; destruct Hiff as [H1 H2];
      [destruct (H1 (mk_is_Some _ _ eq_refl))|destruct (H2 (mk_is_Some _ _ eq_refl))]; done. }
  unfold next_block. rewrite nl_position_flat by done. cbn [default from_option]; unfold id. rewrite Hle.
  destruct (discarding s) as [n|] eqn:Ed.
  - destruct Hd as (Ha & -> & Hlt). rewrite head_line_prepend, length_app in Hlt by done.
    eexists _, (p ++ b), l'. split; [reflexivity|].
    split_and!; [done| |done|by rewrite app_assoc|by apply Hturns|simpl; rewrite length_app; lia].
    split_and!; [done|done|]. cbn. rewrite length_app. split_and!; [done|done|lia].
  - destruct Hd as [<- Hlen]. destruct (Nat.ltb_spec (max_line s) (length (acc s) + length b)) as [Hlt|Hge].
    + eexists _, (acc s), (b ++ l'). split; [reflexivity|]. rewrite <-Hle. apply turn_discard; [done|done|done|].
      rewrite head_line_prepend, length_app by done. lia.
    + rewrite firstn_all. eexists _, (acc s ++ b), l'. split; [reflexivity|].
      split_and!; [done| |done|by rewrite app_assoc|by apply Hturns|simpl; rewrite length_app; lia].
      split_and!; [done|done|]. cbn. rewrite length_app. split; [done|lia].
Qed.

(** ** The whole text *)

Lemma next_loop_spec fuel s p l :
  reads (reader s) l → in_line s p l → (turns s < fuel)%nat →
  ∃ s' item l', next_loop fuel s = Some (s', Ok item) ∧ answers s p l s' item l'.
Proof.
  revert s p l. induction fuel as [|fuel IH]; intros s p l Hrd Hin Hf; [lia|]. simpl.
  assert (Hgo : ∀ s1 p1 l1, next_turn s = inr s1 → goes_on s p l s1 p1 l1 →
    ∃ s' item l', match next_turn s with inl r => Some r | inr s' => next_loop fuel s' end = Some (s', Ok item) ∧
      answers s p l s' item l').
  { intros s1 p1 l1 -> (H1 & H2 & H3 & H4 & H5 & H6). destruct (IH s1 p1 l1) as (s' & it & l2 & E & A1 & A2 & A3 & A4 & A5 & A6 & A7);
      [done|done|lia|]. rewrite H3 in *. rewrite H4 in *. exists s', it, l2. split; [done|]. split_and!; [done..|lia|done|done]. }
  destruct (decide (l = [])) as [->|Hl].
  { destruct (turn_eof s p Hrd Hin) as (s' & it & -> & Ha). by exists s', it, []. }
  destruct (reads_data _ l Hl Hrd) as (b & rd' & l' & Er & Hb & Hrd' & ->).
  destruct (first_line b) as [Hfl|(x & rest & -> & Hx)].
  - destruct (turn_block s p b rd' l') as (s1 & p1 & l1 & E & Hg); [done..|]. by eapply Hgo.
  - rewrite <-app_assoc in *. simpl in *.
    destruct (turn_newline s p x rest rd' l') as [(s' & it & -> & Ha)|(s1 & E & Hg)]; [done..| |by eapply Hgo].
    by exists s', it, (rest ++ l').
Qed.

Lemma next_spec s l :
  at_start s → reads (reader s) l →
  ∃ s' item l', next s = Some (s', Ok item) ∧ answers s [] l s' item l'.
Proof.
  intros [Hd Ha] Hrd. unfold next. set (s0 := if lent s then _ else s).
  assert (E0 : reader s0 = reader s ∧ max_line s0 = max_line s ∧ consumed s0 = consumed s ∧ acc s0 = [] ∧ lent s0 = false ∧ discarding s0 = None).
  { unfold s0. destruct Ha as [Ha| ->]; [|done]. destruct (lent s) eqn:El; [done|]. done. }
  destruct E0 as (E1 & E2 & E3 & E4 & E5 & E6).
  destruct (next_loop_spec (S (turns s0)) s0 [] l) as (s' & it & l' & E & A); [by rewrite E1| |lia|].
  - split_and!; [apply flat_nil|done|]. rewrite E6. split; [done|simpl; lia].
  - exists s', it, l'. split; [done|]. unfold answers in *. by rewrite E2, E3 in A.
Qed.

(** [items] is what the calls of [next] give one after another, then the end. *)
Fixpoint yields (s : LineSplitter) (items : list LineRef) : Prop :=
  match items with
  | [] => ∃ s', next s = Some (s', Ok None)
  | x :: items' => ∃ s', next s = Some (s', Ok (Some x)) ∧ yields s' items'
  end.

Lemma yields_items s l : at_start s → reads (reader s) l → yields s (line_items (max_line s) l).
Proof.
  intros Hs Hrd. remember (line_items (max_line s) l) as items eqn:Ei. revert s l Hs Hrd Ei.
  induction items as [|x items IH]; intros s l Hs Hrd Ei;
    destruct (next_spec s l Hs Hrd) as (s' & it & l' & E & A1 & A2 & A3 & A4 & A5 & A6 & A7); simpl in A6; rewrite <-Ei in A6;
    destruct it as [y|]; simpl in A6; try done.
  - by exists s'.
  - injection A6 as -> ->. exists s'. split; [done|]. apply (IH s' l'); [done|done|by rewrite A2].
  - by rewrite A7 in A6.
Qed.

(** ** [filtered_stream] *)

Definition CHUNK : N := 65536.
Definition size (l : Bytes) : N := N.of_nat (length l).

Section filtered.
(** [matcher::matches_bytes]: whether a line is a record of a step. *)
Context (matches_bytes : Bytes → string → bool).

Record StreamState := mkStream { split : LineSplitter; step : string; keep_unterminated : bool; done_ : bool }.

Definition filtered_stream (rd : list Block) (step : string) (max_line : nat) (keep_unterminated : bool) : StreamState :=
  mkStream (splitter_new rd max_line) step keep_unterminated false.

(** What one item adds to the chunk. *)
Definition emit (st : StreamState) (item : LineRef) : Bytes :=
  match item with
  | Skipped _ => []
  | Unterminated line => if keep_unterminated st && matches_bytes line (step st) then line ++ [nl] else []
  | Line line => if matches_bytes line (step st) then line ++ [nl] else []
  end.

Definition with_split (st : StreamState) (s : LineSplitter) (d : bool) : StreamState :=
  mkStream s (step st) (keep_unterminated st) d.

(** The loop that fills one chunk: the chunk or error, if any, and the state.
    The outer [None]: out of fuel. *)
Fixpoint fill_chunk (fuel : nat) (st : StreamState) (out : Bytes) : option (option (result string Bytes) * StreamState) :=
  match fuel with
  | O => None
  | S fuel' =>
      '(s', r) ← next (split st);
      match r with
      | Err e => Some (Some (Err e), with_split st s' true)
      | Ok None => Some (if bool_decide (out = []) then None else Some (Ok out), with_split st s' true)
      | Ok (Some item) =>
          let out' := out ++ emit st item in
          if (size out' <? CHUNK)%N then fill_chunk fuel' (with_split st s' false) out'
          else Some (Some (Ok out'), with_split st s' false)
      end
  end.

(** One poll of the stream. *)
Definition stream_next (st : StreamState) : option (option (result string Bytes) * StreamState) :=
  if done_ st then Some (None, st) else fill_chunk (S (unread (reader (split st)))) st [].

(** The stream gives the chunks [cs] and ends. *)
Fixpoint streams (st : StreamState) (cs : list Bytes) : Prop :=
  match cs with
  | [] => ∃ st', stream_next st = Some (None, st')
  | c :: cs' => ∃ st', stream_next st = Some (Some (Ok c), st') ∧ streams st' cs'
  end.

(** The lines the stream keeps. *)
Definition wanted (st : StreamState) (item : LineRef) : option Bytes :=
  match item with
  | Skipped _ => None
  | Unterminated line => if keep_unterminated st && matches_bytes line (step st) then Some line else None
  | Line line => if matches_bytes line (step st) then Some line else None
  end.

Lemma emit_wanted st item : emit st item = unlines (option_list (wanted st item)).
Proof. destruct item; simpl; try case_match; simpl; by rewrite ?unlines_cons. Qed.

Lemma length_line_items max l : (length (line_items max l) ≤ length l)%nat.
Proof.
  unfold line_items. destruct (split_nl l) as [ls r] eqn:E. apply split_nl_sound in E as (-> & _).
  rewrite !length_app, length_fmap. assert (length (rest_item max r) ≤ length r)%nat by (destruct r; simpl; lia).
  assert (length ls ≤ length (unlines ls))%nat; [|lia].
  induction ls as [|x ls IH]; [done|]. rewrite length_unlines_cons. simpl. lia.
Qed.

(** Lines longer than the maximum never reach a chunk. *)
Lemma line_items_bound max l it : it ∈ line_items max l → ∀ st, (length (emit st it) ≤ S max)%nat.
Proof.
  unfold line_items. destruct (split_nl l) as [ls r]. rewrite elem_of_app, list_elem_of_fmap.
  assert (H : ∀ st (x : Bytes), (length x ≤ max)%nat → (length (emit st (Line x)) ≤ S max)%nat ∧ (length (emit st (Unterminated x)) ≤ S max)%nat).
  { intros st x Hx. split; simpl; case_match; rewrite ?length_app; simpl; lia. }
  intros [(x & -> & _)|Hit] st.
  - unfold line_item. destruct (Nat.leb_spec (length x) max); [by apply H|simpl; lia].
  - destruct r as [|c r]; [by apply elem_of_nil in Hit|]. unfold rest_item in Hit. apply list_elem_of_singleton in Hit as ->.
    destruct (Nat.leb_spec (length (c :: r)) max); [by apply H|simpl; lia].
Qed.

(** A stream that is not done, with the text [l] left. *)
Definition left_over (st : StreamState) (l : Bytes) : Prop :=
  done_ st = false ∧ at_start (split st) ∧ reads (reader (split st)) l.

Definition kept (st : StreamState) (l : Bytes) : Bytes :=
  unlines (omap (wanted st) (line_items (max_line (split st)) l)).

(** The settings of a stream do not change. *)
Definition same_settings (st st' : StreamState) : Prop :=
  max_line (split st') = max_line (split st) ∧ step st' = step st ∧ keep_unterminated st' = keep_unterminated st.

Lemma kept_same st st' l : same_settings st st' → kept st' l = kept st l.
Proof.
  intros (E1 & E2 & E3). unfold kept. rewrite E1. f_equal. apply list_omap_ext. apply Forall_Forall2_diag, Forall_true.
  intros it. unfold wanted. by rewrite E2, E3.
Qed.

(** One chunk: all that is left, when it is less than a chunk, and the end; or
    a chunk of at least [CHUNK] bytes and what is left after it. *)
Definition last_chunk (st : StreamState) (l out : Bytes) (r : option (result string Bytes)) (st' : StreamState) : Prop :=
  r = (if bool_decide (out ++ kept st l = []) then None else Some (Ok (out ++ kept st l))) ∧
  done_ st' = true ∧ (size (out ++ kept st l) < CHUNK)%N.
Definition full_chunk (st : StreamState) (l out : Bytes) (r : option (result string Bytes)) (st' : StreamState) : Prop :=
  ∃ c l', r = Some (Ok c) ∧ left_over st' l' ∧ out ++ kept st l = c ++ kept st l' ∧ (length l' < length l)%nat ∧
    (CHUNK ≤ size c)%N ∧ (size c ≤ CHUNK + N.of_nat (max_line (split st)))%N.

Lemma kept_cons st l item l' :
  line_items (max_line (split st)) l = item :: line_items (max_line (split st)) l' →
  kept st l = emit st item ++ kept st l'.
Proof.
  intros E. unfold kept. rewrite E, emit_wanted, <-unlines_app. f_equal. simpl. by destruct (wanted st item).
Qed.

Lemma fill_chunk_spec fuel st l out :
  left_over st l → (length (line_items (max_line (split st)) l) < fuel)%nat → (size out < CHUNK)%N →
  ∃ r st', fill_chunk fuel st out = Some (r, st') ∧ same_settings st st' ∧
    (last_chunk st l out r st' ∨ full_chunk st l out r st').
Proof.
  revert st l out. induction fuel as [|fuel IH]; intros st l out (Hd & Hs & Hrd) Hf Hout; [lia|].
  destruct (next_spec (split st) l Hs Hrd) as (s' & it & l' & E & A1 & A2 & A3 & A4 & A5 & A6 & A7). simpl in A6, A7.
  cbn [fill_chunk]. rewrite E. cbn [mbind option_bind]. destruct it as [item|].
  2:{ subst l'. eexists _, _. split; [reflexivity|]. split; [done|]. left. unfold last_chunk, kept. rewrite A6. simpl.
      by rewrite app_nil_r. }
  pose proof (kept_cons st l item l' A6) as Ek. rewrite A6 in Hf. simpl in Hf.
  destruct (N.ltb_spec (size (out ++ emit st item)) CHUNK) as [Hsz|Hsz].
  - assert (Hsame : same_settings st (with_split st s' false)) by done.
    destruct (IH (with_split st s' false) l' (out ++ emit st item)) as (r & st' & E2 & (S1 & S2 & S3) & H);
      [done|simpl; rewrite A2; lia|done|].
    exists r, st'. split; [done|]. split; [split_and!; [by rewrite S1|by rewrite S2|by rewrite S3]|].
    unfold last_chunk, full_chunk in *. rewrite Ek, (app_assoc out). rewrite (kept_same _ _ l' Hsame) in H.
    destruct H as [H|(c & l2 & Hc & Hl & Hk & Hlen & Hsz2)]; [by left|right]. rewrite (kept_same _ _ l2 Hsame) in Hk.
    exists c, l2. split_and!; [done|done|done|lia|apply Hsz2|]. simpl in Hsz2. rewrite A2 in Hsz2. apply Hsz2.
  - eexists _, _. split; [reflexivity|]. split; [done|]. right. exists (out ++ emit st item), l'.
    split_and!; [done|done|by rewrite Ek, app_assoc|done|done|].
    assert (length (emit st item) ≤ S (max_line (split st)))%nat.
    { apply (line_items_bound _ l). rewrite A6. left. }
    unfold size in *. rewrite length_app. lia.
Qed.

Lemma streams_all n st l :
  (length l ≤ n)%nat → left_over st l →
  ∃ cs, streams st cs ∧ concat cs = kept st l ∧
    Forall (λ c, c ≠ [] ∧ (size c ≤ CHUNK + N.of_nat (max_line (split st)))%N) cs ∧
    ∀ pre c, cs = pre ++ [c] → Forall (λ c, CHUNK ≤ size c)%N pre.
Proof.
  revert st l. induction n as [n IH] using lt_wf_ind. intros st l Hn Hl. destruct (Hl) as (Hd & Hs & Hrd).
  destruct (fill_chunk_spec (S (unread (reader (split st)))) st l []) as (r & st' & E & Hsame & H); [done| |done|].
  { rewrite (unread_reads _ _ Hrd). pose proof (length_line_items (max_line (split st)) l). lia. }
  assert (En : stream_next st = Some (r, st')) by (unfold stream_next; by rewrite Hd).
  destruct H as [(-> & Hdone & Hsz)|(c & l' & -> & Hl' & Hk & Hlen & Hsz1 & Hsz2)]; simpl in *.
  - case_bool_decide as Ek.
    + exists []. split_and!; [by exists st'|done|constructor|]. intros pre c Ec. by destruct pre.
    + exists [kept st l]. split_and!; [|simpl; by rewrite app_nil_r| |].
      * exists st'. split; [done|]. exists st'. unfold stream_next. by rewrite Hdone.
      * constructor; [|constructor]. split; [done|]. lia.
      * intros pre c Ec. destruct pre as [|? pre]; [constructor|]. by destruct pre.
  - destruct (IH (length l')) with (st := st') (l := l') as (cs & Hst & Hc & Hall & Hpre); [lia|done|done|].
    rewrite (kept_same _ _ _ Hsame) in Hc. destruct Hsame as (Hm & _ & _). rewrite Hm in Hall.
    exists (c :: cs). split_and!; [by exists st'|simpl; by rewrite Hc| |].
    + constructor; [|done]. split; [|done]. intros ->. by vm_compute in Hsz1.
    + intros pre c' Ec. destruct pre as [|c0 pre]; [constructor|]. injection Ec as <- Ec. constructor; [done|by eapply Hpre].
Qed.

(** Streaming the lines of a step gives exactly the lines it has. Whatever
    blocks the reader delivers the text in, the stream ends, its chunks
    together are the matching lines of at most [max_line] bytes, in order,
    each with a newline (an unterminated last line only when those are kept);
    no chunk is empty or exceeds the preallocated buffer, and each but the
    last has at least [CHUNK] bytes. *)
Theorem filtered_stream_correct rd l st_name max keep :
  reads rd l →
  let st := filtered_stream rd st_name max keep in
  ∃ cs, streams st cs ∧ concat cs = unlines (omap (wanted st) (line_items max l)) ∧
    Forall (λ c, c ≠ [] ∧ (size c ≤ CHUNK + N.of_nat max)%N) cs ∧
    ∀ pre c, cs = pre ++ [c] → Forall (λ c, CHUNK ≤ size c)%N pre.
Proof.
  intros Hrd st. apply (streams_all (length l)); [done|]. split_and!; [done|by split; [|left]|done].
Qed.
End filtered.
