(* ===== verification/LogTail.v ===== *)
(** * Tails of a log

    The bounded reads of a log's end: [local.rs] ([tail_unfiltered] and the
    backward scan [tail_step]), [archive.rs] ([byte_ring_tail] and
    [line_ring_tail] over the decompressed stream) and the buffer functions of
    [log_read/mod.rs]. A file is its bytes; a read past its end is the error
    the code reports for a file that shrank. *)
From S2P Require Import Prelude Text Lines LogSplit.

(** ** Buffers ([log_read/mod.rs]) *)

Definition count_lines (buf : Bytes) : nat :=
  let '(ls, r) := split_nl buf in length (List.filter (λ x, negb (bool_decide (x = []))) (ls ++ [r])).

(** Slicing off a character boundary is the panic of [String::drain]; the
    callers' strings are UTF-8, so the cuts are at boundaries. *)
Definition cut_front_to_lines (s : Bytes) (max : nat) : Bytes * bool :=
  if (length s <=? max)%nat then (s, false)
  else
    let start := (length s - max)%nat in
    let cut :=
      if s !! (start - 1)%nat ==? Some nl then start
      else default (length s) ((λ p, start + p + 1)%nat <$> nl_position (drop start s)) in
    (drop cut s, true).

Definition trim_torn (buf : Bytes) : Bytes * bool :=
  if (last buf ==? None) || (last buf ==? Some nl) then (buf, false)
  else (take (default O (S <$> nl_rposition buf)) buf, true).

Section matcher.
(** [matcher::matches_bytes] *)
Context (matches_bytes : Bytes → string → bool).

(** The loop of [retain_matching_lines] over the unread part of the buffer:
    what is kept of it. *)
Fixpoint retain_loop (fuel : nat) (buf : Bytes) (step : string) (max_line : nat) : Bytes :=
  match fuel, buf with
  | O, _ | _, [] => []
  | S fuel', _ =>
      let stop := default (length buf) (S <$> nl_position buf) in
      let line := take stop buf in
      let body := match nl_position buf with Some p => take p line | None => line end in
      let keep := (length body <=? max_line)%nat && matches_bytes body step in
      (if keep then line else []) ++ retain_loop fuel' (drop stop buf) step max_line
  end.
Definition retain_matching_lines (buf : Bytes) (step : string) (max_line : nat) : Bytes :=
  retain_loop (length buf) buf step max_line.

(** ** The local file ([local.rs]) *)

Inductive LocalKind := Jsonl | Legacy.

#[export] Instance LocalKind_eq_dec : EqDecision LocalKind.
Proof. solve_decision. Defined.

(** The bytes now in the file, and its length when opened. *)
Record LocalFile := mkLocalFile { file : Bytes; kind : LocalKind; len : nat }.

Record LocalTail := mkLocalTail { lt_logs : Bytes; lt_truncated : bool; lt_len : nat }.

Inductive IoError := UnexpectedEof | InvalidData.

Definition read_range_exact (file : Bytes) (start stop : nat) : result IoError Bytes :=
  let buf := take (stop - start) (drop start file) in
  if (length buf <? stop - start)%nat then Err UnexpectedEof else Ok buf.

Definition utf8 (buf : Bytes) : result IoError Bytes := if valid_utf8 buf then Ok buf else Err InvalidData.

Definition tail_unfiltered (f : LocalFile) (t : nat) : result IoError LocalTail :=
  let start := (len f - t)%nat in
  let from := (start - 1)%nat in
  let? buf := read_range_exact (file f) from (len f) in
  let head :=
    if (start =? 0)%nat then O
    else if buf !! O ==? Some nl then 1%nat
    else default (length buf) (S <$> nl_position buf) in
  let torn :=
    (kind f ==? Jsonl) && (head <? length buf)%nat && negb (last buf ==? Some nl) in
  let stop := if torn then default head ((λ p, head + p + 1)%nat <$> nl_rposition (drop head buf)) else length buf in
  let? logs := utf8 (drop head (take stop buf)) in
  Ok (mkLocalTail logs ((0 <? start)%nat || torn) (len f)).

(** [StepScan]: [out[w..]] is [collected]. *)
Record StepScan := mkScan {
  w : nat;
  collected : Bytes;
  first_line : bool;
  first_line_written : bool;
  scan_truncated : bool;
  stop : bool;
}.

Definition oversize (sc : StepScan) : StepScan :=
  mkScan (w sc) (collected sc) false (first_line_written sc) true (stop sc).

Section scan.
Context (step : string) (max_line : nat) (jsonl : bool).

Definition complete (sc : StepScan) (line : Bytes) : StepScan :=
  let is_first := first_line sc in
  if is_first && negb (bool_decide (line = [])) && jsonl
  then mkScan (w sc) (collected sc) false (first_line_written sc) true (stop sc)
  else if bool_decide (line = [])
  then mkScan (w sc) (collected sc) false (first_line_written sc) (scan_truncated sc) (stop sc)
  else if (max_line <? length line)%nat
  then mkScan (w sc) (collected sc) false (first_line_written sc) true (stop sc)
  else if negb (matches_bytes line step)
  then mkScan (w sc) (collected sc) false (first_line_written sc) (scan_truncated sc) (stop sc)
  else
    let need := S (length line) in
    if (w sc <? need)%nat
    then mkScan (w sc) (collected sc) false (first_line_written sc) true true
    else mkScan (w sc - need) (line ++ nl :: collected sc) false (first_line_written sc || is_first)
           (scan_truncated sc) (stop sc).

(** The bytes of the line the scan is in: [None] once it is over the
    maximum. *)
Definition Pending : Type := option Bytes.

Definition prepend (pending : Pending) (seg : Bytes) : Pending :=
  match pending with
  | None => None
  | Some p => if (max_line <? length p + length seg)%nat then None else Some (seg ++ p)
  end.

Definition finish (sc : StepScan) (pending : Pending) : StepScan :=
  match pending with None => oversize sc | Some p => complete sc p end.

(** The inner loop over one window: [i] bytes of it are left. *)
Fixpoint scan_window (fuel : nat) (window : Bytes) (pending : Pending) (sc : StepScan) : Pending * StepScan :=
  match fuel with
  | O => (pending, sc)
  | S fuel' =>
      if stop sc then (pending, sc)
      else match nl_rposition window with
           | Some k =>
               let seg := drop (S k) window in
               let sc' := if pending ==? Some [] then complete sc seg else finish sc (prepend pending seg) in
               scan_window fuel' (take k window) (Some []) sc'
           | None => (prepend pending window, sc)
           end
  end.
End scan.

(** The windows, from the end of the file: the position reached, the pending
    line and the scan. *)
Fixpoint scan_windows (fuel : nat) (f : LocalFile) (step : string) (max_line window_len scan_max : nat)
    (pos scanned : nat) (pending : Pending) (sc : StepScan) : result IoError (nat * Pending * StepScan) :=
  match fuel with
  | O => Ok (pos, pending, sc)
  | S fuel' =>
      if (pos =? 0)%nat || stop sc then Ok (pos, pending, sc)
      else if (scan_max <=? scanned)%nat
      then Ok (pos, pending, mkScan (w sc) (collected sc) (first_line sc) (first_line_written sc) true (stop sc))
      else
        let start := (pos - window_len)%nat in
        let? window := read_range_exact (file f) start pos in
        let '(pending', sc') := scan_window step max_line (kind f ==? Jsonl) (S (length window)) window pending sc in
        scan_windows fuel' f step max_line window_len scan_max start (scanned + (pos - start)) pending' sc'
  end.

Definition tail_step (f : LocalFile) (step : string) (t max_line scan_max : nat) : result IoError LocalTail :=
  let window_len := Nat.max (Nat.min t (len f)) 1 in
  let cap := Nat.min t (S (len f)) in
  let? scanned := scan_windows (S (len f)) f step max_line window_len scan_max (len f) 0 (Some [])
                    (mkScan cap [] true false false false) in
  let '(pos, pending, sc) := scanned in
  let sc' := if (pos =? 0)%nat && negb (stop sc) then finish step max_line (kind f ==? Jsonl) sc pending else sc in
  let? logs := utf8 (collected sc') in
  Ok (mkLocalTail logs (scan_truncated sc' || (0 <? pos)%nat) (if first_line_written sc' then S (len f) else len f)).

(** ** The archive ([archive.rs]) *)

Record ArchiveTail := mkArchiveTail { at_logs : Bytes; at_truncated : bool; decompressed : nat }.

(** A block enters the ring of the last [cap] bytes; [before] is the byte
    before the ring, once one was evicted. *)
Definition ring_push (cap : nat) (ring : Bytes) (before : option ascii) (buf : Bytes) : Bytes * option ascii :=
  let n := length buf in
  if (cap <=? n)%nat
  then (drop (n - cap) buf,
        if (cap <? n)%nat then buf !! (n - cap - 1)%nat else match last ring with Some b => Some b | None => before end)
  else
    let overflow := (length ring + n - cap)%nat in
    if (0 <? overflow)%nat then (drop overflow ring ++ buf, ring !! (overflow - 1)%nat) else (ring ++ buf, before).

(** The blocks up to the end of the stream or a fault. *)
Fixpoint ring_all (cap : nat) (rd : list Block) (ring : Bytes) (before : option ascii) (total : nat)
    : result string (Bytes * option ascii * nat) :=
  match rd with
  | [] => Ok (ring, before, total)
  | Fault e :: _ => Err e
  | Data buf :: rd' =>
      if bool_decide (buf = []) then Ok (ring, before, total)
      else let '(ring', before') := ring_push cap ring before buf in
           ring_all cap rd' ring' before' (total + length buf)
  end.

Definition byte_ring_tail (rd : list Block) (t : nat) : result string ArchiveTail :=
  let? rung := ring_all t rd [] None 0 in
  let '(ring, before, total) := rung in
  let evicted := (length ring <? total)%nat in
  let head := if evicted && negb (before ==? Some nl) then default (length ring) (S <$> nl_position ring) else O in
  let '(v, torn) := trim_torn (drop head ring) in
  if valid_utf8 v then Ok (mkArchiveTail v (evicted || torn) total) else Err "invalid utf-8".

(** The ring of whole lines: one item of the splitter. *)
Definition line_ring_push (cap : nat) (step : string) (ring : Bytes) (truncated : bool) (item : LineRef) : Bytes * bool :=
  match item with
  | Skipped _ | Unterminated _ => (ring, true)
  | Line line =>
      if bool_decide (line = []) || negb (matches_bytes line step) then (ring, truncated)
      else
        let need := S (length line) in
        if (cap <? need)%nat then ([], true)
        else if (cap <? length ring + need)%nat
        then
          let must_free := (length ring + need - cap)%nat in
          let cut := default (length ring) ((λ p, must_free + p)%nat <$> nl_position (drop (must_free - 1) ring)) in
          (drop cut ring ++ line ++ [nl], true)
        else (ring ++ line ++ [nl], truncated)
  end.

Fixpoint line_ring_all (fuel cap : nat) (step : string) (split : LineSplitter) (ring : Bytes) (truncated : bool)
    : option (result string (LineSplitter * Bytes * bool)) :=
  match fuel with
  | O => None
  | S fuel' =>
      '(split', r) ← next split;
      match r with
      | Err e => Some (Err e)
      | Ok None => Some (Ok (split', ring, truncated))
      | Ok (Some item) =>
          let '(ring', truncated') := line_ring_push cap step ring truncated item in
          line_ring_all fuel' cap step split' ring' truncated'
      end
  end.

Definition line_ring_tail (rd : list Block) (step : string) (t max_line : nat) : option (result string ArchiveTail) :=
  r ← line_ring_all (S (unread rd)) t step (splitter_new rd max_line) [] false;
  Some (let? rung := r in
        let '(split, ring, truncated) := rung in
        if valid_utf8 ring then Ok (mkArchiveTail ring truncated (consumed split)) else Err "invalid utf-8").
End matcher.

(** ** The tails are the newest whole lines

    Every tail read returns the longest suffix of whole (matching) lines
    within the budget, and says exactly when something was left out; the
    local and the archived log give the same answer for the same bytes. *)

(** ** A window that starts inside a line *)

(** The rest of the line a text starts in. *)
Definition skip_line (l : Bytes) : Bytes := drop (default (length l) (S <$> nl_position l)) l.

Lemma skip_line_flat l : flat l → skip_line l = [].
Proof. intros Hl. unfold skip_line. rewrite nl_position_flat by done. simpl. by rewrite drop_all. Qed.

Lemma skip_line_line x l : flat x → skip_line (x ++ nl :: l) = l.
Proof.
  intros Hx. unfold skip_line. rewrite nl_position_line by done. simpl. unfold id.
  replace (S (length x)) with (length x + 1)%nat by lia. by rewrite drop_app_add.
Qed.

Lemma flat_drop n x : flat x → flat (drop n x).
Proof. intros H Hin. apply H. rewrite <-(take_drop n x). apply elem_of_app. by right. Qed.

(** The window of the last [t] bytes and one more: after the line it starts
    in come exactly the newest lines that fit with the rest. *)
Lemma window_cut ls r t :
  Forall flat ls → flat r → (t < length (unlines ls ++ r))%nat →
  skip_line (drop (length (unlines ls ++ r) - t - 1) (unlines ls ++ r)) =
  if (length r <=? t)%nat then unlines (newest_fit (t - length r) ls) ++ r else [].
Proof.
  intros Hls Hr Ht. rewrite length_app in *. destruct (Nat.leb_spec (length r) t) as [Hle|Hgt].
  2:{ apply skip_line_flat. rewrite drop_app_ge by lia. by apply flat_drop. }
  set (K := newest_fit (t - length r) ls). destruct (newest_fit_suffix (t - length r) ls) as [pre Epre]. fold K in Epre.
  pose proof (newest_fit_bound (t - length r) ls) as Hb. fold K in Hb.
  destruct pre as [|y pre _] using rev_ind.
  { simpl in Epre. rewrite Epre in Ht. lia. }
  assert (Hy : (t - length r < length (unlines (y :: K)))%nat).
  { apply Nat.nle_gt. intros Hfit. apply (newest_fit_longest _ ls) in Hfit.
    - fold K in Hfit. apply suffix_length in Hfit. simpl in Hfit. lia.
    - exists pre. by rewrite Epre, <-app_assoc. }
  rewrite length_unlines_cons in Hy.
  assert (Hfy : flat y).
  { rewrite Epre, !Forall_app in Hls. destruct Hls as [[_ Hy'] _]. exact (proj1 (Forall_singleton _ _) Hy'). }
  assert (E : unlines ls ++ r = unlines pre ++ y ++ nl :: unlines K ++ r).
  { rewrite Epre, unlines_app, unlines_snoc, <-!app_assoc. done. }
  assert (El : length (unlines ls) = (length (unlines pre) + length y + 1 + length (unlines K))%nat).
  { rewrite Epre, !length_unlines_app, length_unlines_cons. simpl. lia. }
  rewrite E, drop_app_ge by lia. rewrite drop_app_le by lia. apply skip_line_line. by apply flat_drop.
Qed.

Lemma trim_torn_spec ls r : flat r → trim_torn (unlines ls ++ r) = (unlines ls, negb (bool_decide (r = []))).
Proof.
  intros Hr. unfold trim_torn. destruct r as [|c r _] using rev_ind.
  - rewrite app_nil_r. destruct ls as [|x ls _] using rev_ind; [done|]. rewrite unlines_snoc, app_assoc, last_snoc.
    rewrite bool_decide_false by done. by rewrite bool_decide_true.
  - assert (Hc : c ≠ nl) by (intros ->; apply Hr, elem_of_app; right; left).
    rewrite app_assoc, last_snoc, !bool_decide_false by congruence. simpl.
    rewrite (bool_decide_false (r ++ [c] = [])) by (by destruct r). rewrite <-app_assoc. f_equal.
    destruct ls as [|x ls _] using rev_ind; [by rewrite nl_rposition_flat|].
    rewrite unlines_snoc.
    replace ((unlines ls ++ x ++ [nl]) ++ r ++ [c]) with ((unlines ls ++ x) ++ nl :: r ++ [c]) by by rewrite <-!app_assoc.
    rewrite nl_rposition_last by done. simpl. unfold id.
    replace (S (length (unlines ls ++ x))) with (length (unlines ls ++ x) + 1)%nat by lia. rewrite take_app_add. by rewrite <-app_assoc.
Qed.

(** ** Reading the local file *)

Lemma read_range_file f c start :
  take (len f) (file f) = c → length c = len f → (start ≤ len f)%nat →
  read_range_exact (file f) start (len f) = Ok (drop start c).
Proof.
  intros Hc Hl Hs. unfold read_range_exact. assert (take (len f - start) (drop start (file f)) = drop start c) as ->.
  { rewrite take_drop_commute. replace (start + (len f - start))%nat with (len f) by lia. by rewrite Hc. }
  rewrite length_drop, Hl. by rewrite Nat.ltb_irrefl.
Qed.

Lemma drop_take_first k n (l : Bytes) : drop k (take (k + n) l) = take n (drop k l).
Proof. by rewrite take_drop_commute. Qed.

Lemma valid_parts c ls r : valid_utf8 c = true → split_nl c = (ls, r) → forallb valid_utf8 ls = true ∧ valid_utf8 r = true.
Proof.
  intros Hv E. apply split_nl_sound in E as (-> & _ & _). rewrite valid_utf8_unlines in Hv. by apply andb_true_iff.
Qed.

Lemma newest_fit_sub budget ls x : x ∈ newest_fit budget ls → x ∈ ls.
Proof. destruct (newest_fit_suffix budget ls) as [k E]. intros Hx. rewrite E. apply elem_of_app. by right. Qed.

(** The lines an unfiltered tail returns. *)
Definition unfiltered_logs (kind : LocalKind) (ls : list Bytes) (r : Bytes) (t : nat) : Bytes :=
  match kind with
  | Jsonl => unlines (newest_fit (t - length r) ls)
  | Legacy => if (length r <=? t)%nat then unlines (newest_fit (t - length r) ls) ++ r else []
  end.

Lemma unfiltered_logs_valid kind ls r t :
  forallb valid_utf8 ls = true → valid_utf8 r = true → valid_utf8 (unfiltered_logs kind ls r t) = true.
Proof.
  intros Hls Hr. assert (H : valid_utf8 (unlines (newest_fit (t - length r) ls)) = true).
  { eapply valid_utf8_sublist; [|done]. apply newest_fit_sub. }
  destruct kind; simpl; [done|]. destruct (Nat.leb (length r) t); [|done].
  rewrite valid_utf8_unlines, Hr, andb_true_r. rewrite forallb_Forall', Forall_forall in *.
  intros x Hx. eapply Hls, newest_fit_sub, Hx.
Qed.

(** ** [tail_unfiltered] *)

Lemma newest_fit_0 ls : newest_fit 0 ls = [].
Proof. destruct ls as [|x ls _] using rev_ind; [done|]. by rewrite newest_fit_snoc. Qed.

(** What the window holds after its head is cut. *)
Definition fitting (ls : list Bytes) (r : Bytes) (t : nat) : Bytes :=
  if (length r <=? t)%nat then unlines (newest_fit (t - length r) ls) ++ r else [].

Lemma fitting_all ls r t : (length (unlines ls ++ r) ≤ t)%nat → fitting ls r t = unlines ls ++ r.
Proof.
  rewrite length_app. intros H. unfold fitting. rewrite (proj2 (Nat.leb_le _ _)) by lia.
  by rewrite newest_fit_all by lia.
Qed.

Lemma tail_head_spec ls r t :
  Forall flat ls → flat r → let c := unlines ls ++ r in let buf := drop (length c - t - 1) c in
  let head := if (length c - t =? 0)%nat then 0%nat else if buf !! 0%nat ==? Some nl then 1%nat
              else default (length buf) (S <$> nl_position buf) in
  (head ≤ length buf)%nat ∧ drop head buf = fitting ls r t.
Proof.
  intros Hls Hr c buf head. destruct (Nat.eqb_spec (length c - t) 0) as [E|E].
  - assert (Hb : buf = c) by (unfold buf; rewrite E; apply drop_0). unfold head. split; [lia|].
    rewrite Hb, fitting_all; [done|]. fold c. lia.
  - assert (Eh : head = default (length buf) (S <$> nl_position buf)).
    { unfold head. case_bool_decide as En; [|done]. destruct buf as [|b buf']; [done|]. injection En as ->. done. }
    rewrite Eh. split.
    + pose proof (nl_position_cases buf) as Hp. destruct (nl_position buf) as [k|]; simpl; [unfold id; lia|done].
    + apply window_cut; [done|done|]. fold c. lia.
Qed.

(** The cut of a torn last line, and the flag. *)
Lemma tail_torn_spec ls r t buf head :
  flat r → (head ≤ length buf)%nat → drop head buf = fitting ls r t →
  let torn := (head <? length buf)%nat && negb (last buf ==? Some nl) in
  torn = (length r <=? t)%nat && negb (bool_decide (r = [])) ∧
  (torn = true → drop head (take (default head ((λ p, head + p + 1)%nat <$> nl_rposition (drop head buf))) buf) =
     unlines (newest_fit (t - length r) ls)).
Proof.
  intros Hr Hh Hd torn. set (K := newest_fit (t - length r) ls).
  assert (Elen : length (drop head buf) = (length buf - head)%nat) by apply length_drop.
  assert (Elast : drop head buf ≠ [] → last buf = last (drop head buf)).
  { intros Hne. rewrite <-(take_drop head buf) at 1. rewrite last_app. by destruct (last (drop head buf)) eqn:El; [|apply last_None in El]. }
  assert (Etorn : torn = negb (bool_decide (drop head buf = [])) && negb (last (drop head buf) ==? Some nl)).
  { unfold torn. destruct (decide (drop head buf = [])) as [E|E].
    - rewrite (bool_decide_true (drop head buf = [])) by done. rewrite E in Elen. simpl in Elen.
      by rewrite (proj2 (Nat.ltb_ge _ _)) by lia.
    - rewrite (bool_decide_false (drop head buf = [])) by done. rewrite (Elast E).
      rewrite (proj2 (Nat.ltb_lt _ _)); [done|]. destruct (drop head buf); [done|]. simpl in Elen. lia. }
  pose proof (trim_torn_spec K r Hr) as Htrim. unfold fitting in Hd. fold K in Hd.
  destruct (Nat.leb_spec (length r) t) as [Hle|Hgt].
  2:{ rewrite Hd in Etorn. simpl in Etorn. split; [done|]. by rewrite Etorn. }
  simpl. unfold trim_torn in Htrim. rewrite <-Hd in Htrim. split.
  - rewrite Etorn. destruct (decide (drop head buf = [])) as [E|E].
    { rewrite E in Htrim |- *. simpl in *. by injection Htrim as _ <-. }
    rewrite (bool_decide_false _ E). destruct (last (drop head buf)) as [z|] eqn:Ez; [|by apply last_None in Ez].
    rewrite (bool_decide_false (Some z = None)) in Htrim by done. simpl in *.
    by case_bool_decide; injection Htrim as _ <-.
  - rewrite Etorn. intros [H1 H2]%andb_true_iff. apply negb_true_iff, bool_decide_eq_false in H1, H2.
    destruct (last (drop head buf)) as [z|] eqn:Ez; [|by apply last_None in Ez].
    rewrite !bool_decide_false in Htrim by congruence. simpl in Htrim. injection Htrim as <- _.
    destruct (nl_rposition (drop head buf)) as [k|]; simpl; unfold id.
    + rewrite <-Nat.add_assoc, Nat.add_1_r. by rewrite drop_take_first.
    + rewrite <-(Nat.add_0_r head) at 2. by rewrite drop_take_first.
Qed.

Lemma tail_unfiltered_spec f c ls r t :
  take (len f) (file f) = c → length c = len f → split_nl c = (ls, r) → valid_utf8 c = true →
  tail_unfiltered f t = Ok (mkLocalTail (unfiltered_logs (kind f) ls r t)
    ((t <? len f)%nat || (kind f ==? Jsonl) && negb (bool_decide (r = []))) (len f)).
Proof.
  intros Hc Hl Es Hv. destruct (valid_parts _ _ _ Hv Es) as [Hvl Hvr].
  destruct (split_nl_sound _ _ _ Es) as (Ec & Hls & Hr).
  unfold tail_unfiltered. rewrite (read_range_file f c) by (done || lia). cbn [res_bind]. rewrite <-Hl.
  pose proof (tail_head_spec ls r t Hls Hr) as Hhead. rewrite <-Ec in Hhead. cbn zeta in Hhead.
  set (buf := drop (length c - t - 1) c) in *. set (head := if (length c - t =? 0)%nat then _ else _) in *.
  destruct Hhead as [Hh Hd]. pose proof (tail_torn_spec ls r t buf head Hr Hh Hd) as [Et1 Et2].
  set (torn := (head <? length buf)%nat && _) in *.
  assert (Hlogs : ∀ logs, logs = unfiltered_logs (kind f) ls r t → utf8 logs = Ok logs).
  { intros logs ->. unfold utf8. by rewrite unfiltered_logs_valid. }
  assert (Efit : fitting ls r t = unfiltered_logs Legacy ls r t) by done.
  assert (Hlong : (t < length r)%nat → (t < length c)%nat) by (rewrite Ec, length_app; lia).
  replace (0 <? length c - t)%nat with (t <? length c)%nat
    by (destruct (Nat.ltb_spec t (length c)), (Nat.ltb_spec 0 (length c - t)); lia || done).
  destruct (kind f) eqn:Ek; simpl.
  - fold torn. destruct torn eqn:Etn.
    + rewrite (Et2 eq_refl), Hlogs by done. simpl. symmetry in Et1. apply andb_true_iff in Et1 as [_ ->]. done.
    + rewrite firstn_all, Hd.
      assert (Ef : fitting ls r t = unlines (newest_fit (t - length r) ls) ∧ ((t <? length c)%nat || false = (t <? length c)%nat || negb (bool_decide (r = [])))).
      { unfold fitting. destruct (Nat.leb_spec (length r) t) as [Hle|Hgt]; simpl in Et1.
        - symmetry in Et1. rewrite Et1. apply negb_false_iff, bool_decide_eq_true in Et1 as ->. by rewrite app_nil_r.
        - replace (t - length r)%nat with 0%nat by lia. rewrite newest_fit_0. rewrite (proj2 (Nat.ltb_lt _ _)) by auto. done. }
      destruct Ef as [-> <-]. by rewrite Hlogs.
  - rewrite firstn_all, Hd, Efit. by rewrite Hlogs.
Qed.

(** ** [byte_ring_tail] *)

(** The ring after the bytes [c]. *)
Definition ringed (cap : nat) (c ring : Bytes) (before : option ascii) : Prop :=
  ring = drop (length c - cap) c ∧ ((cap < length c)%nat → before = c !! (length c - cap - 1)%nat).

Lemma ring_push_spec cap c ring before buf :
  buf ≠ [] → ringed cap c ring before →
  ringed cap (c ++ buf) (ring_push cap ring before buf).1 (ring_push cap ring before buf).2.
Proof.
  intros Hne [-> Hb]. unfold ring_push, ringed. rewrite length_app, length_drop.
  assert (Hn : (0 < length buf)%nat) by (destruct buf; [done|simpl; lia]).
  destruct (Nat.leb_spec cap (length buf)) as [H1|H1]; simpl.
  - split.
    + rewrite drop_app_ge by lia. f_equal. lia.
    + intros Hlt. destruct (Nat.ltb_spec cap (length buf)) as [H2|H2].
      * rewrite lookup_app_r by lia. f_equal. lia.
      * rewrite last_lookup, length_drop, lookup_drop. rewrite lookup_app_l by lia.
        replace (length c - cap + pred (length c - (length c - cap)))%nat with (length c - 1)%nat by lia.
        replace (length c + length buf - cap - 1)%nat with (length c - 1)%nat by lia.
        by destruct (lookup_lt_is_Some_2 c (length c - 1)) as [z ->]; [lia|].
  - replace (length c - (length c - cap) + length buf - cap)%nat with (Nat.min (length c) cap + length buf - cap)%nat by lia.
    destruct (Nat.ltb_spec 0 (Nat.min (length c) cap + length buf - cap)) as [H2|H2]; simpl; split.
    + rewrite drop_drop, drop_app_le by lia. f_equal. f_equal. lia.
    + intros Hlt. rewrite lookup_drop, lookup_app_l by lia. f_equal. lia.
    + rewrite drop_app_le by lia. f_equal. f_equal. lia.
    + intros Hlt. lia.
Qed.

Lemma ring_all_spec cap rd c c0 ring before :
  reads rd c → ringed cap c0 ring before →
  ∃ ring' before', ring_all cap rd ring before (length c0) = Ok (ring', before', length (c0 ++ c)) ∧
    ringed cap (c0 ++ c) ring' before'.
Proof.
  intros (bs & -> & Hbs & <-). revert c0 ring before. induction Hbs as [|b bs Hb Hbs IH]; intros c0 ring before Hr.
  - simpl. rewrite app_nil_r. by exists ring, before.
  - rewrite fmap_cons. cbn [ring_all concat]. rewrite bool_decide_false by done. pose proof (ring_push_spec cap c0 ring before b Hb Hr) as Hp.
    destruct (ring_push cap ring before b) as [ring1 before1]. simpl in Hp.
    destruct (IH (c0 ++ b) ring1 before1 Hp) as (ring' & before' & E & Hr'). rewrite length_app in E.
    rewrite app_assoc. exists ring', before'. split; [|done]. by rewrite E.
Qed.

(** The head cut of the ring is the one of the window. *)
Lemma ring_head_spec ls r t ring before :
  Forall flat ls → flat r → let c := unlines ls ++ r in ringed t c ring before →
  let evicted := (length ring <? length c)%nat in
  evicted = (t <? length c)%nat ∧
  drop (if evicted && negb (before ==? Some nl) then default (length ring) (S <$> nl_position ring) else 0%nat) ring =
    fitting ls r t.
Proof.
  intros Hls Hr c [-> Hb] evicted.
  assert (Ee : evicted = (t <? length c)%nat).
  { unfold evicted. rewrite length_drop. by destruct (Nat.ltb_spec t (length c)), (Nat.ltb_spec (length c - (length c - t)) (length c)); lia || done. }
  split; [done|]. rewrite Ee. destruct (Nat.ltb_spec t (length c)) as [Hlt|Hge]; simpl.
  - unfold fitting. rewrite <-(window_cut ls r t Hls Hr Hlt). fold c. rewrite (Hb Hlt). unfold skip_line.
    destruct (lookup_lt_is_Some_2 c (length c - t - 1)) as [z Hz]; [lia|]. rewrite Hz. rewrite (drop_S _ _ _ Hz).
    replace (S (length c - t - 1)) with (length c - t)%nat by lia. cbn [nl_position length drop].
    destruct (decide (z = nl)) as [->|Hz'].
    + by rewrite !bool_decide_true.
    + rewrite !bool_decide_false by congruence. simpl. by destruct (nl_position (drop (length c - t) c)).
  - replace (length c - t)%nat with 0%nat by lia. by rewrite drop_0, fitting_all.
Qed.

Lemma byte_ring_tail_spec rd c ls r t :
  reads rd c → split_nl c = (ls, r) → valid_utf8 c = true →
  byte_ring_tail rd t = Ok (mkArchiveTail (unfiltered_logs Jsonl ls r t)
    ((t <? length c)%nat || negb (bool_decide (r = []))) (length c)).
Proof.
  intros Hrd Es Hv. destruct (valid_parts _ _ _ Hv Es) as [Hvl Hvr]. destruct (split_nl_sound _ _ _ Es) as (Ec & Hls & Hr).
  unfold byte_ring_tail. destruct (ring_all_spec t rd c [] [] None) as (ring & before & E & Hring); [done|by split|].
  simpl in E. rewrite E. cbn [res_bind]. simpl in Hring. rewrite Ec in Hring.
  destruct (ring_head_spec ls r t ring before Hls Hr Hring) as [Ee Ed]. rewrite <-Ec in Ee, Ed.
  rewrite Ed, Ee. unfold fitting. destruct (Nat.leb_spec (length r) t) as [Hle|Hgt].
  - rewrite trim_torn_spec by done. pose proof (unfiltered_logs_valid Jsonl ls r t Hvl Hvr) as Hval. simpl in Hval. by rewrite Hval.
  - simpl. replace (t - length r)%nat with 0%nat by lia. rewrite newest_fit_0.
    assert (Hlt : (t < length c)%nat) by (rewrite Ec, length_app; lia). by rewrite (proj2 (Nat.ltb_lt _ _) Hlt).
Qed.

(** ** [tail_step]: the backward scan *)

Section matcher.
Context (matches_bytes : Bytes → string → bool) (step : string) (max_line : nat).

(** A line the read returns, and one it passes over with a warning. *)
Definition good (x : Bytes) : bool :=
  negb (bool_decide (x = [])) && (length x <=? max_line)%nat && matches_bytes x step.
Definition over (x : Bytes) : bool := (max_line <? length x)%nat.

Section scan.
Context (jsonl : bool).
Abbreviation complete := (complete matches_bytes step max_line jsonl).
Abbreviation finish := (finish matches_bytes step max_line jsonl).
Abbreviation scan_window := (scan_window matches_bytes step max_line jsonl).

(** The lines one after another, newest first, until the scan stops. *)
Definition scan_lines (sc : StepScan) (xs : list Bytes) : StepScan :=
  fold_left (λ sc x, if stop sc then sc else complete sc x) xs sc.

Lemma scan_lines_stopped sc xs : stop sc = true → scan_lines sc xs = sc.
Proof. intros Hs. induction xs as [|x xs IH]; [done|]. simpl. by rewrite Hs. Qed.

Lemma scan_lines_cons sc x xs : stop sc = false → scan_lines sc (x :: xs) = scan_lines (complete sc x) xs.
Proof. intros Hs. simpl. by rewrite Hs. Qed.

Lemma scan_lines_app sc xs ys : scan_lines sc (xs ++ ys) = scan_lines (scan_lines sc xs) ys.
Proof. apply fold_left_app. Qed.

(** [pending] stands for the bytes [p]. *)
Definition stands_for (pending : Pending) (p : Bytes) : Prop :=
  pending = if (max_line <? length p)%nat then None else Some p.

Lemma prepend_stands pending p seg :
  stands_for pending p → stands_for (prepend max_line pending seg) (seg ++ p).
Proof.
  unfold stands_for. intros ->. rewrite length_app. destruct (Nat.ltb_spec max_line (length p)); simpl.
  - by rewrite (proj2 (Nat.ltb_lt _ _)) by lia.
  - rewrite (Nat.add_comm (length p)). by destruct (max_line <? _)%nat.
Qed.

Lemma finish_stands sc pending p : stands_for pending p → finish sc pending = complete sc p.
Proof.
  unfold stands_for. intros ->. unfold LogTail.finish. destruct (Nat.ltb_spec max_line (length p)) as [H|H]; [|done].
  unfold LogTail.complete, oversize. rewrite (bool_decide_false (p = [])) by (intros ->; simpl in H; lia).
  rewrite (proj2 (Nat.ltb_lt _ _) H). by destruct (first_line sc && _ && jsonl).
Qed.

Lemma stands_nil p : stands_for (Some []) p → p = [].
Proof. unfold stands_for. by destruct (max_line <? length p)%nat; intros [=]. Qed.

Lemma stands_empty : stands_for (Some []) [].
Proof. unfold stands_for. by destruct (Nat.ltb_spec max_line (length (@nil ascii))); [simpl in *; lia|]. Qed.

(** The text of the segments [q :: rev xs], joined by newlines. *)
Definition joined (q : Bytes) (xs : list Bytes) : Bytes := q ++ concat ((λ x, nl :: x) <$> rev xs).

(** One window: all its lines [xs] but the oldest, which is pending. *)
Lemma scan_window_spec fuel win pending p sc :
  (length win < fuel)%nat → flat p → stands_for pending p →
  ∃ xs q, win ++ p = joined q xs ∧ Forall flat xs ∧ flat q ∧
    (scan_window fuel win pending sc).2 = scan_lines sc xs ∧
    (stop (scan_lines sc xs) = false → stands_for (scan_window fuel win pending sc).1 q).
Proof.
  revert win pending p sc. induction fuel as [|fuel IH]; intros win pending p sc Hf Hp Hst; [lia|]. simpl.
  destruct (last_line win) as [Hfl|(l' & x & -> & Hx)].
  - exists [], (win ++ p). split_and!; [by unfold joined; rewrite app_nil_r|constructor|by apply flat_app| |].
    + rewrite nl_rposition_flat by done. by destruct (stop sc).
    + simpl. intros ->. rewrite nl_rposition_flat by done. by apply prepend_stands.
  - rewrite nl_rposition_last by done. rewrite length_app in Hf. simpl in Hf.
    replace (S (length l')) with (length l' + 1)%nat by lia. rewrite drop_app_add, take_app_length. simpl. rewrite drop_0.
    set (sc' := if pending ==? Some [] then complete sc x else finish sc (prepend max_line pending x)).
    assert (Esc : sc' = complete sc (x ++ p)).
    { unfold sc'. case_bool_decide as E; [subst; apply stands_nil in Hst as ->; by rewrite app_nil_r|].
      by apply finish_stands, prepend_stands. }
    destruct (IH l' (Some []) [] sc') as (xs & q & E & Hxs & Hq & H2 & H1); [lia|apply flat_nil|apply stands_empty|].
    exists ((x ++ p) :: xs), q. split_and!; [| |done| |].
    + rewrite app_nil_r in E. rewrite <-app_assoc, E. unfold joined. simpl. rewrite fmap_app, concat_app. simpl.
      by rewrite app_nil_r, <-app_assoc.
    + constructor; [by apply flat_app|done].
    + destruct (stop sc) eqn:Es; [by rewrite scan_lines_stopped|]. rewrite scan_lines_cons by done. by rewrite <-Esc.
    + destruct (stop sc) eqn:Es; [rewrite scan_lines_stopped by done; congruence|].
      rewrite scan_lines_cons, <-Esc by done. done.
Qed.

(** The segments of a text ending in scanned ones. *)
Lemma joined_split a q xs :
  Forall flat xs → ∃ more, (split_nl (a ++ joined q xs)).2 :: rev (split_nl (a ++ joined q xs)).1 = xs ++ more ∧
    (a = [] → flat q → more = [q]).
Proof.
  intros Hxs. unfold joined.
  assert (H : ∀ b ys, Forall flat ys → split_nl (b ++ concat ((λ x, nl :: x) <$> ys)) =
    match rev ys with [] => split_nl b | y :: ys' => ((split_nl b).1 ++ (split_nl b).2 :: rev ys', y) end).
  { intros b ys. induction ys as [|y ys IH] using rev_ind; intros Hys; [simpl; by rewrite app_nil_r|].
    apply Forall_app in Hys as [Hys Hy]. rewrite Forall_singleton in Hy. rewrite fmap_app, concat_app, app_assoc. simpl. rewrite app_nil_r.
    rewrite rev_app_distr. simpl.
    destruct (split_nl (b ++ concat ((λ x, nl :: x) <$> ys))) as [ls r] eqn:E.
    pose proof (split_nl_sound _ _ _ E) as (Ec & Hls & Hr). rewrite Ec.
    replace ((unlines ls ++ r) ++ nl :: y) with (unlines (ls ++ [r]) ++ y) by (rewrite unlines_snoc, <-!app_assoc; done).
    rewrite split_nl_complete; [|apply Forall_app; split; [done|by constructor]|done].
    specialize (IH Hys). f_equal. destruct (rev ys) as [|z ys'] eqn:Ez.
    - simpl. by rewrite <-IH.
    - injection IH as -> ->. simpl. by rewrite <-app_assoc. }
  rewrite app_assoc, H by (apply Forall_rev; by rewrite ?rev_involutive). rewrite rev_involutive.
  destruct xs as [|x xs]; simpl.
  - eexists. split; [reflexivity|]. intros -> Hq. simpl. by rewrite split_nl_flat.
  - rewrite rev_app_distr. simpl. rewrite rev_involutive, <-app_assoc. eexists. split; [reflexivity|].
    intros -> Hq. simpl. by rewrite split_nl_flat.
Qed.

(** ** The windows *)

(** Nothing else than the position and the scan depends on the windows: at
    the end the scanned lines are the newest ones of the snapshot, all of
    them unless the scan stopped. *)
Lemma scan_windows_spec fuel f c window_len scan_max pos scanned pending sc0 xs0 q0 :
  take (len f) (file f) = c → length c = len f → kind f = (if jsonl then Jsonl else Legacy) →
  (0 < window_len)%nat → (len f ≤ scan_max)%nat → (scanned + pos = len f)%nat → (pos < fuel)%nat →
  drop pos c = joined q0 xs0 → Forall flat xs0 → flat q0 →
  (stop (scan_lines sc0 xs0) = false → stands_for pending q0) →
  ∃ pos' pending' xs q,
    scan_windows matches_bytes fuel f step max_line window_len scan_max pos scanned pending (scan_lines sc0 xs0) =
      Ok (pos', pending', scan_lines sc0 xs) ∧
    drop pos' c = joined q xs ∧ Forall flat xs ∧ flat q ∧
    (stop (scan_lines sc0 xs) = false → pos' = 0%nat ∧ stands_for pending' q).
Proof.
  intros Hc Hl Hk Hw Hmax. revert pos scanned pending xs0 q0.
  induction fuel as [|fuel IH]; intros pos scanned pending xs0 q0 Hpos Hf Hd Hxs Hq Hst; [lia|]. cbn [scan_windows].
  destruct (decide (pos = 0%nat)) as [->|Hp].
  { simpl. exists 0%nat, pending, xs0, q0. split_and!; [done..|]. auto. }
  rewrite (proj2 (Nat.eqb_neq _ _) Hp). cbn [orb]. destruct (stop (scan_lines sc0 xs0)) eqn:Es.
  { exists pos, pending, xs0, q0. split_and!; [done..|]. congruence. }
  rewrite (proj2 (Nat.leb_gt _ _)) by lia.
  set (start := (pos - window_len)%nat). set (win := take (pos - start) (drop start c)).
  assert (Hread : read_range_exact (file f) start pos = Ok win).
  { unfold read_range_exact. assert (take (pos - start) (drop start (file f)) = win) as ->.
    { unfold win. rewrite <-Hc. rewrite !take_drop_commute. replace (start + (pos - start))%nat with pos by lia.
      rewrite take_take, Nat.min_l by lia. done. }
    unfold win. rewrite length_take, length_drop. rewrite (proj2 (Nat.ltb_ge _ _)) by lia. done. }
  rewrite Hread. cbn [res_bind].
  assert (Hjs : (kind f ==? Jsonl) = jsonl) by (rewrite Hk; by destruct jsonl). rewrite Hjs.
  destruct (scan_window_spec (S (length win)) win pending q0 (scan_lines sc0 xs0)) as (xs & q & E & Hxs' & Hq' & H2 & H1);
    [lia|done|by apply Hst|].
  destruct (scan_window (S (length win)) win pending (scan_lines sc0 xs0)) as [pending' sc']. simpl in H1, H2. subst sc'.
  rewrite <-scan_lines_app in *. apply IH with (q0 := q).
  - lia.
  - unfold start. lia.
  - assert (drop start c = win ++ drop pos c) as ->.
    { rewrite <-(take_drop (pos - start) (drop start c)) at 1. rewrite drop_drop. f_equal. f_equal. lia. }
    rewrite Hd. unfold joined in *. rewrite app_assoc, E, rev_app_distr, fmap_app, concat_app. by rewrite <-app_assoc.
  - by apply Forall_app.
  - done.
  - done.
Qed.

(** ** The scanned lines *)

(** One line that is not the file's last. *)
Lemma complete_spec sc x :
  first_line sc = false →
  complete sc x =
    if good x then
      if (S (length x) <=? w sc)%nat
      then mkScan (w sc - S (length x)) (x ++ nl :: collected sc) false (first_line_written sc) (scan_truncated sc) (stop sc)
      else mkScan (w sc) (collected sc) false (first_line_written sc) true true
    else mkScan (w sc) (collected sc) false (first_line_written sc) (scan_truncated sc || over x) (stop sc).
Proof.
  intros Hfi. unfold LogTail.complete, good, over. rewrite Hfi. cbn [andb].
  destruct (decide (x = [])) as [->|Hx].
  { rewrite bool_decide_true by done. cbn [negb andb length]. by rewrite (proj2 (Nat.ltb_ge _ _)), orb_false_r by lia. }
  rewrite bool_decide_false by done. cbn [negb andb].
  rewrite (Nat.leb_antisym max_line). destruct (max_line <? length x)%nat; cbn [negb andb]; [by rewrite orb_true_r|].
  destruct (matches_bytes x step); cbn [negb]; [|by rewrite orb_false_r].
  rewrite orb_false_r, (Nat.leb_antisym (w sc)). by destruct (w sc <? S (length x))%nat.
Qed.

(** A scan past the last line. *)
Lemma scan_lines_rev sc ls :
  first_line sc = false → stop sc = false →
  let gs := List.filter good ls in let sc' := scan_lines sc (rev ls) in
  collected sc' = unlines (newest_fit (w sc) gs) ++ collected sc ∧ first_line_written sc' = first_line_written sc ∧
  scan_truncated sc' = scan_truncated sc || existsb over ls || (w sc <? length (unlines gs))%nat.
Proof.
  revert sc. induction ls as [|x ls IH] using rev_ind; intros sc Hfi Hst.
  { simpl. by rewrite !orb_false_r. }
  rewrite rev_app_distr. cbn [rev app]. rewrite scan_lines_cons, complete_spec by done. rewrite List.filter_app, existsb_app.
  cbn zeta. cbn [List.filter existsb]. rewrite orb_false_r.
  destruct (good x) eqn:Eg; [destruct (Nat.leb_spec (S (length x)) (w sc)) as [Hle|Hgt]|].
  - assert (Ho : over x = false).
    { unfold good in Eg. apply andb_true_iff in Eg as [[_ Eg]%andb_true_iff _]. unfold over. by rewrite Nat.ltb_antisym, Eg. }
    destruct (IH (mkScan (w sc - S (length x)) (x ++ nl :: collected sc) false (first_line_written sc) (scan_truncated sc) (stop sc)))
      as (I1 & I2 & I3); [done|done|]. cbn [w collected first_line_written scan_truncated] in *.
    split_and!; [| |].
    + rewrite I1, newest_fit_snoc, (proj2 (Nat.leb_le _ _) Hle), unlines_snoc. by rewrite <-!app_assoc.
    + done.
    + rewrite I3, Ho, orb_false_r. f_equal. rewrite length_unlines_app, length_unlines_cons. simpl.
      destruct (Nat.ltb_spec (w sc - S (length x)) (length (unlines (List.filter good ls)))),
        (Nat.ltb_spec (w sc) (length (unlines (List.filter good ls)) + S (length x + 0))); lia || done.
  - rewrite scan_lines_stopped by done. simpl. rewrite newest_fit_snoc, (proj2 (Nat.leb_gt _ _) Hgt). split_and!; [done|done|].
    rewrite (proj2 (Nat.ltb_lt _ _)), orb_true_r; [done|]. rewrite length_unlines_app, length_unlines_cons. lia.
  - destruct (IH (mkScan (w sc) (collected sc) false (first_line_written sc) (scan_truncated sc || over x) (stop sc)))
      as (I1 & I2 & I3); [done|done|]. cbn [w collected first_line_written scan_truncated] in *. rewrite app_nil_r.
    split_and!; [done|done|]. rewrite I3. by destruct (scan_truncated sc), (over x), (existsb over ls).
Qed.

Lemma scan_stop_truncated sc xs :
  (stop sc = true → scan_truncated sc = true) → stop (scan_lines sc xs) = true → scan_truncated (scan_lines sc xs) = true.
Proof.
  revert sc. induction xs as [|x xs IH]; intros sc Hsc; [done|]. simpl. destruct (stop sc) eqn:Es.
  - apply IH. by rewrite Es.
  - apply IH. unfold LogTail.complete. repeat case_match; simpl; congruence.
Qed.

(** The read is the scan of all the lines, newest first. *)
Lemma tail_step_scan f c ls r t scan_max :
  take (len f) (file f) = c → length c = len f → kind f = (if jsonl then Jsonl else Legacy) →
  (len f ≤ scan_max)%nat → split_nl c = (ls, r) →
  let sc := scan_lines (mkScan (Nat.min t (S (len f))) [] true false false false) (r :: rev ls) in
  tail_step matches_bytes f step t max_line scan_max =
    let? logs := utf8 (collected sc) in
    Ok (mkLocalTail logs (scan_truncated sc) (if first_line_written sc then S (len f) else len f)).
Proof.
  intros Hc Hl Hk Hmax Es sc. unfold tail_step. set (sc0 := mkScan (Nat.min t (S (len f))) [] true false false false) in *.
  destruct (scan_windows_spec (S (len f)) f c (Nat.max (Nat.min t (len f)) 1) scan_max (len f) 0 (Some []) sc0 [] [])
    as (pos & pending & xs & q & E & Hd & Hxs & Hq & Hend); [done|done|done|lia|done|done|lia|by rewrite drop_ge by lia|constructor|apply flat_nil| |].
  { intros _. apply stands_empty. }
  change (scan_lines sc0 []) with sc0 in E. rewrite E. cbn [res_bind].
  destruct (joined_split (take pos c) q xs Hxs) as (more & Em & Hmore). rewrite <-Hd, take_drop, Es in Em. simpl in Em.
  unfold sc. rewrite Em, scan_lines_app.
  assert (Hjs : (kind f ==? Jsonl) = jsonl) by (rewrite Hk; by destruct jsonl). rewrite Hjs.
  destruct (stop (scan_lines sc0 xs)) eqn:Est.
  - rewrite andb_false_r. rewrite (scan_lines_stopped _ more Est).
    rewrite (scan_stop_truncated sc0 xs); [done|done|done].
  - destruct (Hend eq_refl) as [-> Hp]. rewrite (Hmore eq_refl Hq). simpl. rewrite Est, (finish_stands _ _ _ Hp).
    by rewrite orb_false_r.
Qed.
End scan.

(** ** [tail_step] of a JSONL log *)

Lemma good_in ls x : x ∈ List.filter good ls → x ∈ ls.
Proof. intros [Hx _]%elem_of_lfilter. done. Qed.

Lemma length_unlines_filter (p : Bytes → bool) ls : (length (unlines (List.filter p ls)) ≤ length (unlines ls))%nat.
Proof.
  induction ls as [|x ls IH]; [done|]. simpl. destruct (p x); rewrite ?length_unlines_cons; lia.
Qed.

Lemma newest_fit_big b ls : newest_fit (Nat.min b (S (length (unlines ls)))) ls = newest_fit b ls.
Proof.
  destruct (Nat.min_spec b (S (length (unlines ls)))) as [[_ ->]|[H ->]]; [done|].
  rewrite !newest_fit_all by lia. done.
Qed.

(** What a step read of a JSONL log leaves out. *)
Definition step_truncated (ls : list Bytes) (r : Bytes) (t : nat) : bool :=
  negb (bool_decide (r = [])) || existsb over ls || (t <? length (unlines (List.filter good ls)))%nat.

Lemma good_logs_valid ls t : forallb valid_utf8 ls = true → valid_utf8 (unlines (newest_fit t (List.filter good ls))) = true.
Proof. intros H. eapply valid_utf8_sublist; [|exact H]. intros x Hx. eapply good_in, newest_fit_sub, Hx. Qed.

Lemma tail_step_spec f c ls r t scan_max :
  take (len f) (file f) = c → length c = len f → kind f = Jsonl → (len f ≤ scan_max)%nat →
  split_nl c = (ls, r) → valid_utf8 c = true →
  tail_step matches_bytes f step t max_line scan_max =
    Ok (mkLocalTail (unlines (newest_fit t (List.filter good ls))) (step_truncated ls r t) (len f)).
Proof.
  intros Hc Hl Hk Hmax Es Hv. destruct (valid_parts _ _ _ Hv Es) as [Hvl _]. destruct (split_nl_sound _ _ _ Es) as (Ec & _ & _).
  rewrite (tail_step_scan true f c ls r) by done. cbn zeta. rewrite scan_lines_cons by done.
  set (sc1 := complete _ _ _ true _ r).
  assert (E1 : sc1 = mkScan (Nat.min t (S (len f))) [] false false (negb (bool_decide (r = []))) false).
  { unfold sc1, complete. simpl. rewrite andb_true_r. by case_bool_decide. }
  destruct (scan_lines_rev true sc1 ls) as (I1 & I2 & I3); [by rewrite E1..|]. rewrite E1 in *. simpl in I1, I2, I3.
  rewrite I1, I2, I3, app_nil_r.
  pose proof (length_unlines_filter good ls) as Hlen. assert (Hlc : (length (unlines ls) ≤ len f)%nat) by (rewrite <-Hl, Ec, length_app; lia).
  assert (Efit : newest_fit (Nat.min t (S (len f))) (List.filter good ls) = newest_fit t (List.filter good ls)).
  { destruct (Nat.min_spec t (S (len f))) as [[_ ->]|[H ->]]; [done|]. by rewrite !newest_fit_all by lia. }
  rewrite Efit. unfold utf8. rewrite good_logs_valid by done. simpl. f_equal. f_equal. unfold step_truncated. f_equal.
  destruct (Nat.ltb_spec (Nat.min t (S (len f))) (length (unlines (List.filter good ls)))),
    (Nat.ltb_spec t (length (unlines (List.filter good ls)))); lia || done.
Qed.

(** ** [line_ring_tail] *)

(** The lines that fit, in the bytes of the ring. *)
Lemma ring_cut R b :
  Forall flat R → (b < length (unlines R))%nat →
  let must_free := (length (unlines R) - b)%nat in
  drop (default (length (unlines R)) ((λ p, must_free + p)%nat <$> nl_position (drop (must_free - 1) (unlines R)))) (unlines R) =
  unlines (newest_fit b R).
Proof.
  intros HR Hb mf. pose proof (window_cut R [] b HR flat_nil) as Hw. rewrite app_nil_r in Hw. specialize (Hw Hb).
  simpl in Hw. rewrite Nat.sub_0_r, app_nil_r in Hw. rewrite <-Hw. unfold skip_line. fold mf.
  destruct (nl_position (drop (mf - 1) (unlines R))) as [p|] eqn:Ep; simpl; unfold id; rewrite drop_drop; f_equal; [lia|].
  rewrite length_drop. lia.
Qed.

(** What the ring holds after the items of [done]. *)
Definition ring_holds (cap : nat) (done : list Bytes) (skipped : bool) (ring : Bytes) (truncated : bool) : Prop :=
  ring = unlines (newest_fit cap (List.filter good done)) ∧
  truncated = skipped || (cap <? length (unlines (List.filter good done)))%nat.

Lemma good_flat ls : Forall flat ls → Forall flat (List.filter good ls).
Proof. rewrite !Forall_forall. intros H x Hx. by apply H, good_in. Qed.

Lemma line_ring_push_spec cap done skipped ring truncated x :
  Forall flat done → (length x ≤ max_line)%nat → ring_holds cap done skipped ring truncated →
  let '(ring', truncated') := line_ring_push matches_bytes cap step ring truncated (Line x) in
  ring_holds cap (done ++ [x]) skipped ring' truncated'.
Proof.
  intros Hd Hx [-> ->]. unfold ring_holds. simpl. rewrite List.filter_app. cbn [List.filter].
  assert (Eg : good x = negb (bool_decide (x = []) || negb (matches_bytes x step))).
  { unfold good. rewrite (proj2 (Nat.leb_le _ _) Hx), andb_true_r. by rewrite negb_orb, negb_involutive. }
  rewrite Eg. destruct (_ || _); cbn [negb]; [by rewrite app_nil_r|].
  set (gs := List.filter good done). rewrite newest_fit_snoc, length_unlines_app, length_unlines_cons. cbn [unlines concat fmap].
  pose proof (newest_fit_bound cap gs) as Hb. change (length (unlines [])) with 0%nat. rewrite Nat.add_0_r.
  rewrite (Nat.leb_antisym cap). destruct (Nat.ltb_spec cap (S (length x))) as [Hbig|Hfit]; cbn [negb].
  { split; [done|]. by rewrite (proj2 (Nat.ltb_lt _ _)), orb_true_r by lia. }
  rewrite unlines_snoc.
  assert (Htot : (length (unlines (newest_fit cap gs)) ≤ length (unlines gs))%nat).
  { destruct (newest_fit_suffix cap gs) as [k E]. rewrite E at 2. rewrite length_unlines_app. lia. }
  destruct (Nat.ltb_spec cap (length (unlines (newest_fit cap gs)) + S (length x))) as [Hov|Hok].
  - split.
    + rewrite <-(newest_fit_fit (cap - S (length x)) cap gs) by lia. f_equal.
      rewrite <-(ring_cut (newest_fit cap gs) (cap - S (length x))); [| |lia].
      * by replace (length (unlines (newest_fit cap gs)) + S (length x) - cap)%nat with
          (length (unlines (newest_fit cap gs)) - (cap - S (length x)))%nat by lia.
      * apply good_flat in Hd. rewrite Forall_forall in *. intros y Hy. eapply Hd, newest_fit_sub, Hy.
    + by rewrite (proj2 (Nat.ltb_lt _ _)), orb_true_r by lia.
  - split.
    + f_equal. rewrite <-(newest_fit_fit (cap - S (length x)) cap gs) by lia. by rewrite (newest_fit_all (cap - S (length x))) by lia.
    + f_equal. destruct (Nat.ltb_spec cap (length (unlines gs))) as [Hc|Hc].
      * by rewrite (proj2 (Nat.ltb_lt _ _)) by lia.
      * rewrite newest_fit_all in Hok by lia. by rewrite (proj2 (Nat.ltb_ge _ _)) by lia.
Qed.

(** The items of the splitter: its whole lines, and whether there are others. *)
Definition whole (item : LineRef) : option Bytes := match item with Line x => Some x | _ => None end.
Definition broken (item : LineRef) : bool := match item with Line _ => false | _ => true end.

Lemma line_ring_all_spec fuel cap split l done skipped ring truncated :
  at_start split → reads (reader split) l → LogSplit.max_line split = max_line →
  (length (line_items max_line l) < fuel)%nat → Forall flat done → ring_holds cap done skipped ring truncated →
  let items := line_items max_line l in
  ∃ split' ring' truncated', line_ring_all matches_bytes fuel cap step split ring truncated = Some (Ok (split', ring', truncated')) ∧
    consumed split' = (consumed split + length l)%nat ∧
    ring_holds cap (done ++ omap whole items) (skipped || existsb broken items) ring' truncated'.
Proof.
  revert split l done skipped ring truncated. induction fuel as [|fuel IH]; intros split l done skipped ring truncated Hs Hrd Hm Hf Hfl Hh; [lia|].
  destruct (next_spec split l Hs Hrd) as (s' & it & l' & E & A1 & A2 & A3 & A4 & A5 & A6 & A7). rewrite Hm in A2, A6. simpl in A6, A7.
  cbn [line_ring_all]. rewrite E. cbn [mbind option_bind]. cbn zeta. rewrite A6 in Hf |- *. destruct it as [item|].
  2:{ subst l'. simpl. exists s', ring, truncated. rewrite app_nil_r, orb_false_r. simpl in A5. split_and!; [done|lia|done]. }
  change (option_list (Some item) ++ line_items max_line l') with (item :: line_items max_line l') in *.
  cbn [length] in Hf.
  destruct (line_ring_push matches_bytes cap step ring truncated item) as [ring1 truncated1] eqn:Ep.
  assert (Hstep : Forall flat (done ++ option_list (whole item)) ∧
    ring_holds cap (done ++ option_list (whole item)) (skipped || broken item) ring1 truncated1).
  { assert (Hin : item ∈ line_items max_line l) by (rewrite A6; left).
    destruct item as [x|x|n]; simpl in *; [|rewrite app_nil_r, orb_true_r; injection Ep as <- <-; split; [done|]; by destruct Hh as [-> _]..].
    assert (Hx : (length x ≤ max_line)%nat ∧ flat x).
    { unfold line_items in Hin. destruct (split_nl l) as [ls r] eqn:El. apply split_nl_sound in El as (_ & Hls & _).
      apply elem_of_app in Hin as [(y & Ey & Hy)%list_elem_of_fmap|Hin].
      - unfold line_item in Ey. destruct (Nat.leb_spec (length y) max_line); [|done]. injection Ey as ->. split; [done|].
        rewrite Forall_forall in Hls. by apply Hls.
      - destruct r; [by apply elem_of_nil in Hin|]. apply list_elem_of_singleton in Hin. by destruct (Nat.leb _ _) in Hin. }
    destruct Hx as [Hx Hfx]. rewrite orb_false_r. split; [apply Forall_app; split; [done|by constructor]|].
    pose proof (line_ring_push_spec cap done skipped ring truncated x Hfl Hx Hh) as Hp. simpl in Hp. by rewrite Ep in Hp. }
  destruct Hstep as [Hfl1 Hh1].
  destruct (IH s' l' _ _ _ _ A1 A4 A2 ltac:(lia) Hfl1 Hh1) as (split' & ring' & tr' & E' & Hco & Hr).
  exists split', ring', tr'. split_and!; [done|lia|]. cbn [omap list_omap existsb].
  rewrite orb_assoc. rewrite <-app_assoc in Hr. by destruct (whole item).
Qed.

(** Lines over the maximum are the skipped ones. *)
Lemma whole_items l ls r :
  split_nl l = (ls, r) → List.filter good (omap whole (line_items max_line l)) = List.filter good ls ∧
  existsb broken (line_items max_line l) = existsb over ls || negb (bool_decide (r = [])).
Proof.
  intros E. unfold line_items. rewrite E. rewrite omap_app, List.filter_app, existsb_app.
  assert (Er : omap whole (rest_item max_line r) = [] ∧ existsb broken (rest_item max_line r) = negb (bool_decide (r = []))).
  { destruct r as [|b r]; [done|]. unfold rest_item. rewrite bool_decide_false by done. by destruct (Nat.leb _ _). }
  destruct Er as [-> ->]. rewrite app_nil_r. clear E.
  assert (H : List.filter good (omap whole (line_item max_line <$> ls)) = List.filter good ls ∧
    existsb broken (line_item max_line <$> ls) = existsb over ls).
  { induction ls as [|x ls [IH1 IH2]]; [done|]. rewrite fmap_cons. cbn [omap list_omap existsb List.filter].
    assert (Hx : whole (line_item max_line x) = (if over x then None else Some x) ∧ broken (line_item max_line x) = over x ∧
      (over x = true → good x = false)).
    { unfold line_item, over, good. destruct (Nat.leb_spec (length x) max_line), (Nat.ltb_spec max_line (length x)); try lia;
        split_and!; try done. by rewrite andb_false_r. }
    destruct Hx as (-> & -> & Hg). rewrite IH2. destruct (over x); cbn [List.filter]; rewrite IH1; [by rewrite Hg|done]. }
  destruct H as [-> ->]. done.
Qed.

Lemma line_ring_tail_spec rd c ls r t :
  reads rd c → split_nl c = (ls, r) → valid_utf8 c = true →
  line_ring_tail matches_bytes rd step t max_line =
    Some (Ok (mkArchiveTail (unlines (newest_fit t (List.filter good ls))) (step_truncated ls r t) (length c))).
Proof.
  intros Hrd Es Hv. destruct (valid_parts _ _ _ Hv Es) as [Hvl _]. destruct (whole_items c ls r Es) as [Ew Eb].
  unfold line_ring_tail. rewrite (unread_reads _ _ Hrd).
  destruct (line_ring_all_spec (S (length c)) t (splitter_new rd max_line) c [] false [] false) as (s' & ring & tr & E & Hco & -> & ->).
  - by split; [|left].
  - done.
  - done.
  - pose proof (length_line_items max_line c). lia.
  - constructor.
  - by split.
  - rewrite E. cbn [mbind option_bind]. simpl. rewrite Ew, Eb. rewrite good_logs_valid by done. simpl in Hco. rewrite Hco.
    f_equal. f_equal. f_equal. unfold step_truncated. by rewrite (orb_comm (existsb over ls)).
Qed.

(** ** The claim *)

(** The tail of a log does not depend on where it is read from. For a log of
    valid UTF-8 in a local JSONL file, and the same bytes from the archive in
    any blocks, the unfiltered reads return the longest suffix of whole lines
    that fits the budget with the unfinished last record, the reads of one
    step the longest suffix of its lines (of at most [max_line] bytes) that
    fits; both flags are the same, and false exactly when nothing was left
    out. *)
Theorem tails_agree f c ls r rd t scan_max :
  take (len f) (file f) = c → length c = len f → kind f = Jsonl → (len f ≤ scan_max)%nat → reads rd c →
  split_nl c = (ls, r) → valid_utf8 c = true →
  (let logs := unlines (newest_fit (t - length r) ls) in
   let truncated := (t <? len f)%nat || negb (bool_decide (r = [])) in
   tail_unfiltered f t = Ok (mkLocalTail logs truncated (len f)) ∧
   byte_ring_tail rd t = Ok (mkArchiveTail logs truncated (len f)) ∧ (truncated = false ↔ logs = c)) ∧
  (let mine := List.filter good ls in
   let logs := unlines (newest_fit t mine) in
   let truncated := step_truncated ls r t in
   tail_step matches_bytes f step t max_line scan_max = Ok (mkLocalTail logs truncated (len f)) ∧
   line_ring_tail matches_bytes rd step t max_line = Some (Ok (mkArchiveTail logs truncated (len f))) ∧
   (truncated = false ↔ r = [] ∧ Forall (λ x, length x ≤ max_line)%nat ls ∧ logs = unlines mine)).
Proof.
  intros Hc Hl Hk Hmax Hrd Es Hv. destruct (split_nl_sound _ _ _ Es) as (Ec & Hls & Hr). split; cbn zeta.
  - pose proof (tail_unfiltered_spec f c ls r t Hc Hl Es Hv) as Hu. rewrite Hk in Hu. simpl in Hu.
    pose proof (byte_ring_tail_spec rd c ls r t Hrd Es Hv) as Hb. rewrite Hl in Hb. simpl in Hb. split_and!; [done|done|].
    rewrite orb_false_iff, Nat.ltb_ge, negb_false_iff, bool_decide_eq_true. split.
    + intros [Ht ->]. rewrite Ec, app_nil_r in *. rewrite newest_fit_all by (simpl; lia). done.
    + intros E. pose proof (newest_fit_bound (t - length r) ls) as Hlen. rewrite E in Hlen. split; [lia|].
      assert (Hf : Forall flat (newest_fit (t - length r) ls)).
      { rewrite Forall_forall in *. intros x Hx. eapply Hls, newest_fit_sub, Hx. }
      pose proof (split_nl_complete _ [] Hf flat_nil) as E2. rewrite app_nil_r, E, Es in E2. by injection E2.
  - pose proof (line_ring_tail_spec rd c ls r t Hrd Es Hv) as Hb. rewrite Hl in Hb.
    split_and!; [by apply (tail_step_spec f c ls r)|done|].
    unfold step_truncated. rewrite !orb_false_iff, Nat.ltb_ge, negb_false_iff, bool_decide_eq_true, existsb_false_Forall.
    assert (Ho : Forall (λ x, over x = false) ls ↔ Forall (λ x, length x ≤ max_line)%nat ls).
    { apply Forall_iff. intros x. unfold over. apply Nat.ltb_ge. }
    rewrite Ho. split.
    + intros [[-> H1] H2]. by rewrite newest_fit_all.
    + intros (-> & H1 & E). pose proof (newest_fit_bound t (List.filter good ls)) as Hlen. rewrite E in Hlen. done.
Qed.
End matcher.
