(* ===== verification/LogMerge.v ===== *)
(** * Log storage: merging sources, tails and the archive round trip

    [crates/stroem-server/src/log_storage.rs]: the union of two JSONL texts,
    the combination of a local and an archived tail, [read_tail], and the
    writing side ([append_log], [close_log], [delete_local_log],
    [upload_to_archive]); and [read_merged_full] of [log_read/archive.rs].

    The disk is a map from file names to bytes and the archive is anything
    that satisfies [BlobArchive]. The gzip encoder and decoder, and the date
    formats in an archive key, are arguments. *)
From S2P Require Import Prelude Text Lines Utf8 LogSplit LogTail.

(** ** [str] functions *)

(** [str::lines]: a line ends at a newline or a carriage return and a newline. *)
Definition strip_cr (x : Bytes) : Bytes :=
  match last x with Some "013"%char => take (length x - 1) x | _ => x end.
Definition str_lines (s : Bytes) : list Bytes :=
  let '(ls, r) := split_nl s in (strip_cr <$> ls) ++ (if bool_decide (r = []) then [] else [r]).

(** [Ord] of [str] and of [Option<&str>]. *)
Fixpoint bytes_leb (a b : Bytes) : bool :=
  match a, b with
  | [], _ => true
  | _ :: _, [] => false
  | c :: a', d :: b' =>
      if c ==? d then bytes_leb a' b' else (N_of_ascii c <? N_of_ascii d)%N
  end.
Definition opt_bytes_leb (a b : option Bytes) : bool :=
  match a, b with None, _ => true | Some _, None => false | Some x, Some y => bytes_leb x y end.

(** ** [merge_jsonl_logs] *)

Definition TS_KEY : Bytes := quote :: bytes "ts" ++ [quote; ":"%char; quote].

Definition extract_ts (line : Bytes) : option Bytes :=
  k ← find_bytes TS_KEY line;
  let rest := drop (k + length TS_KEY) line in
  stop ← find_bytes [quote] rest;
  Some (take stop rest).

(** The lines not seen before, in order. *)
Fixpoint unseen (seen : gset Bytes) (ls : list Bytes) : list Bytes :=
  match ls with
  | [] => []
  | x :: ls' =>
      if bool_decide (x = []) || bool_decide (x ∈ seen) then unseen seen ls'
      else x :: unseen ({[x]} ∪ seen) ls'
  end.

Definition ts_leb (x y : Bytes) : bool := opt_bytes_leb (extract_ts x) (extract_ts y).

Definition merge_jsonl_logs (a b : Bytes) : Bytes :=
  unlines (sort_by ts_leb (unseen ∅ (str_lines a ++ str_lines b))).

(** ** Tails *)

Inductive LogSource := Local | Archive | Merged | NoSource.

Record Tail := mkTail { logs : Bytes; truncated : bool; total_bytes : nat; source : LogSource }.

Definition empty_tail : Tail := mkTail [] false 0 NoSource.

Inductive StepFilter := All | OnlyStep (step : string).

Definition step_of (f : StepFilter) : option string := match f with All => None | OnlyStep s => Some s end.

Record LogReadConfig := mkReadConfig {
  tail_default_bytes : nat;
  tail_max_bytes : nat;
  tail_scan_max_bytes : nat;
  max_line_bytes : nat;
  merge_max_bytes : nat;
  merge_max_lines : nat;
}.

Definition combine_tails (local : option LocalTail) (archive : option ArchiveTail) (t max_lines : nat) : Tail :=
  match local, archive with
  | None, None => empty_tail
  | Some l, None => mkTail (lt_logs l) (lt_truncated l) (lt_len l) Local
  | None, Some a => mkTail (at_logs a) (at_truncated a) (decompressed a) Archive
  | Some l, Some a =>
      let total := (lt_len l + decompressed a + 2)%nat in
      if (max_lines <? count_lines (lt_logs l) + count_lines (at_logs a))%nat
      then mkTail (lt_logs l) true total Local
      else
        let '(out, cut) := cut_front_to_lines (merge_jsonl_logs (lt_logs l) (at_logs a)) t in
        mkTail out (lt_truncated l || at_truncated a || cut) total Merged
  end.

(** ** The archive interface *)

Record ArchiveObject := mkObject { obj_key : string; obj_size : nat }.

(** What a backend promises: an object put under a key is the object opened
    there, ranges read back what was put, and other keys are left alone. *)
Class BlobArchive (St : Type) := {
  put : St → string → Bytes → result string St;
  delete : St → string → result string St;
  open : St → string → result string (option ArchiveObject);
  read_range : St → ArchiveObject → nat → nat → result string Bytes;
  put_open : ∀ st st' k data, put st k data = Ok st' → open st' k = Ok (Some (mkObject k (length data)));
  put_range : ∀ st st' k data from n, put st k data = Ok st' → (from + n ≤ length data)%nat →
    read_range st' (mkObject k (length data)) from n = Ok (take n (drop from data));
  put_other : ∀ st st' k k' data, put st k data = Ok st' → k' ≠ k → open st' k' = open st k';
  delete_open : ∀ st st' k, delete st k = Ok st' → open st' k = Ok None;
}.

#[export] Program Instance map_archive : BlobArchive (gmap string Bytes) := {|
  put := λ st k data, Ok (<[k := data]> st);
  delete := λ st k, Ok (base.delete k st);
  open := λ st k, Ok ((λ data, mkObject k (length data)) <$> st !! k);
  read_range := λ st obj from n,
    match st !! obj_key obj with
    | Some data => Ok (take n (drop from data))
    | None => Err "not found"
    end;
|}.
Next Obligation. intros st st' k data [= <-]. by rewrite lookup_insert_eq. Qed.
Next Obligation. intros st st' k data from n [= <-] _. simpl. by rewrite lookup_insert_eq. Qed.
Next Obligation. intros st st' k k' data [= <-] Hk. by rewrite lookup_insert_ne. Qed.
Next Obligation. intros st st' k [= <-]. by rewrite lookup_delete_eq. Qed.

(** ** [LogStorage] *)

Record JobLogMeta := mkMeta { meta_workspace : string; meta_task_name : string; meta_created_at : Z }.

(** The files of [base_dir] by name, the jobs with a cached append handle, the
    archive with its key prefix, and the read bounds. *)
Record LogStorage (St : Type) := mkStorage {
  files : gmap string Bytes;
  file_cache : gset string;
  archive : option St;
  archive_prefix : string;
  read : LogReadConfig;
}.
Arguments mkStorage {St}.
Arguments files {St}.
Arguments file_cache {St}.
Arguments archive {St}.
Arguments archive_prefix {St}.
Arguments read {St}.

Definition log_path (job_id : string) : string := job_id +:+ ".jsonl".
Definition legacy_log_path (job_id : string) : string := job_id +:+ ".log".

Section storage.
Context `{BlobArchive St}.
(** [DateTime::format], the gzip encoder and decoder, and
    [matcher::matches_bytes]. *)
Context (format : Z → string → string) (gzip : Bytes → Bytes) (decode : St → ArchiveObject → list Block).
Context (matches_bytes : Bytes → string → bool).

Definition archive_key (prefix job_id : string) (meta : JobLogMeta) : string :=
  let dt := meta_created_at meta in
  prefix +:+ meta_workspace meta +:+ "/" +:+ meta_task_name meta +:+ "/" +:+ format dt "%Y" +:+ "/" +:+
  format dt "%m/%d" +:+ "/" +:+ format dt "%Y-%m-%dT%H-%M-%S" +:+ "_" +:+ job_id +:+ ".jsonl.gz".

Definition with_files (s : LogStorage St) (fs : gmap string Bytes) (cache : gset string) : LogStorage St :=
  mkStorage fs cache (archive s) (archive_prefix s) (read s).

(** The open creates the file; the file keeps its bytes. *)
Definition get_or_open (s : LogStorage St) (job_id : string) : LogStorage St :=
  if bool_decide (job_id ∈ file_cache s) then s
  else with_files s (<[log_path job_id := default [] (files s !! log_path job_id)]> (files s)) ({[job_id]} ∪ file_cache s).

(** A write through a handle reaches the file while it is linked. *)
Definition append_log (s : LogStorage St) (job_id : string) (chunk : Bytes) : LogStorage St :=
  let s := get_or_open s job_id in
  with_files s (alter (λ c, c ++ chunk) (log_path job_id) (files s)) (file_cache s).

Definition close_log (s : LogStorage St) (job_id : string) : LogStorage St :=
  with_files s (files s) (file_cache s ∖ {[job_id]}).

Definition delete_local_log (s : LogStorage St) (job_id : string) : LogStorage St * bool :=
  let s := close_log s job_id in
  (with_files s (base.delete (legacy_log_path job_id) (base.delete (log_path job_id) (files s))) (file_cache s),
   bool_decide (is_Some (files s !! log_path job_id)) || bool_decide (is_Some (files s !! legacy_log_path job_id))).

Definition with_archive (s : LogStorage St) (a : St) : LogStorage St :=
  mkStorage (files s) (file_cache s) (Some a) (archive_prefix s) (read s).

Definition delete_archive_log (s : LogStorage St) (job_id : string) (meta : JobLogMeta) : result string (LogStorage St) :=
  match archive s with
  | None => Ok s
  | Some a => let? a' := delete a (archive_key (archive_prefix s) job_id meta) in Ok (with_archive s a')
  end.

Definition upload_to_archive (s : LogStorage St) (job_id : string) (meta : JobLogMeta) : result string (LogStorage St) :=
  let s := close_log s job_id in
  match archive s with
  | None => Ok s
  | Some a =>
      match files s !! log_path job_id with
      | None => Ok s
      | Some raw =>
          let? a' := put a (archive_key (archive_prefix s) job_id meta) (gzip raw) in Ok (with_archive s a')
      end
  end.

Definition open_local (s : LogStorage St) (job_id : string) : option LocalFile :=
  match files s !! log_path job_id, files s !! legacy_log_path job_id with
  | Some c, _ => Some (mkLocalFile c Jsonl (length c))
  | None, Some c => Some (mkLocalFile c Legacy (length c))
  | None, None => None
  end.

(** [archive.rs::tail] *)
Definition tail (a : St) (obj : ArchiveObject) (filter : option string) (t max_line : nat) : option (result string ArchiveTail) :=
  match filter with
  | None => Some (byte_ring_tail (decode a obj) t)
  | Some step => line_ring_tail matches_bytes (decode a obj) step t max_line
  end.

(** Every error of the archive is [None]: the read goes on with the local
    tail. *)
Definition archive_tail (s : LogStorage St) (job_id : string) (meta : JobLogMeta) (f : StepFilter) (t : nat)
    : option (option ArchiveTail) :=
  match archive s with
  | None => Some None
  | Some a =>
      match open a (archive_key (archive_prefix s) job_id meta) with
      | Err _ | Ok None => Some None
      | Ok (Some obj) =>
          r ← tail a obj (step_of f) t (max_line_bytes (read s));
          Some (match r with Ok x => Some x | Err _ => None end)
      end
  end.

Definition local_tail (s : LogStorage St) (lf : LocalFile) (f : StepFilter) (t : nat) : result IoError LocalTail :=
  match f with
  | All => tail_unfiltered lf t
  | OnlyStep step => tail_step matches_bytes lf step t (max_line_bytes (read s)) (tail_scan_max_bytes (read s))
  end.

Definition read_tail (s : LogStorage St) (job_id : string) (meta : JobLogMeta) (is_terminal : bool) (f : StepFilter) (t : nat)
    : option (result IoError Tail) :=
  match match open_local s job_id with
        | None => Ok None
        | Some lf => res_map Some (local_tail s lf f t)
        end with
  | Err e => Some (Err e)
  | Ok local =>
      arch ← (if is_terminal then archive_tail s job_id meta f t else Some None);
      Some (Ok (combine_tails local arch t (merge_max_lines (read s))))
  end.

(** [gzip_isize]: the length in the trailer. *)
Definition gzip_isize (a : St) (obj : ArchiveObject) : result string nat :=
  if (obj_size obj <? 18)%nat then Err "too short to be gzip"
  else
    let? trailer := read_range a obj (obj_size obj - 4) 4 in
    match trailer with
    | [b0; b1; b2; b3] => Ok (nat_of_ascii b0 + 256 * (nat_of_ascii b1 + 256 * (nat_of_ascii b2 + 256 * nat_of_ascii b3)))%nat
    | _ => Err "short gzip trailer read"
    end.

(** [read_to_end] of the first [n] bytes of a stream. *)
Fixpoint read_to_end (n : nat) (rd : list Block) : result string Bytes :=
  match n, rd with
  | O, _ | _, [] => Ok []
  | _, Fault e :: _ => Err e
  | _, Data buf :: rd' =>
      if bool_decide (buf = []) then Ok []
      else let? rest := read_to_end (n - length buf) rd' in Ok (take n buf ++ rest)
  end.

Definition read_merged_full (s : LogStorage St) (a : St) (local : LocalFile) (obj : ArchiveObject) (filter : option string)
    : result string (option Bytes) :=
  let cfg := read s in
  let? isize := gzip_isize a obj in
  if (merge_max_bytes cfg <? len local + isize)%nat then Ok None
  else
    let? l := res_map_err (λ _, "read local log for merge") (read_range_exact (file local) 0 (len local)) in
    let? arch := read_to_end (S isize) (decode a obj) in
    if negb (length arch =? isize)%nat then Ok None
    else
      let l := if kind local ==? Jsonl then (trim_torn l).1 else l in
      let arch := (trim_torn arch).1 in
      let '(l, arch) :=
        match filter with
        | None => (l, arch)
        | Some step => (retain_matching_lines matches_bytes l step (max_line_bytes cfg),
                        retain_matching_lines matches_bytes arch step (max_line_bytes cfg))
        end in
      if (merge_max_lines cfg <? count_lines l + count_lines arch)%nat then Ok None
      else if negb (valid_utf8 l) then Err "local log is not UTF-8"
      else if negb (valid_utf8 arch) then Err "archived log is not UTF-8"
      else Ok (Some (merge_jsonl_logs l arch)).
End storage.

(** ** Log storage: theorems

    The merge of two logs is the duplicate-free union of their lines in time
    order, a tail of a terminal job is bounded and exact when it is not
    flagged, and a log that was appended, uploaded and deleted locally is read
    back from the archive as it was read before. *)

(** ** The order of lines *)

Section total_sort.
Context {A : Type} (leb : A → A → bool).
Context (leb_total : ∀ x y, leb x y = true ∨ leb y x = true).
Context (leb_trans : ∀ x y z, leb x y = true → leb y z = true → leb x z = true).

Lemma sort_by_sorted l : StronglySorted (λ x y, leb x y = true) (sort_by leb l).
Proof.
  induction l as [|x l IH]; simpl; [constructor|]. induction IH as [|y m Hs IH Hy]; simpl; [by repeat constructor|].
  destruct (leb x y) eqn:E.
  - constructor; [by constructor|]. constructor; [done|]. eapply Forall_impl; [done|]. intros z. by apply leb_trans.
  - constructor; [done|]. rewrite insert_by_perm. constructor; [|done]. destruct (leb_total x y); congruence.
Qed.
End total_sort.

Lemma N_of_ascii_inj a b : N_of_ascii a = N_of_ascii b → a = b.
Proof. intros E. by rewrite <-(ascii_N_embedding a), E, ascii_N_embedding. Qed.

Lemma bytes_leb_total a b : bytes_leb a b = true ∨ bytes_leb b a = true.
Proof.
  revert b. induction a as [|c a IH]; intros [|d b]; simpl; auto.
  destruct (decide (c = d)) as [->|Hcd]; [rewrite bool_decide_true by done; apply IH|].
  rewrite !bool_decide_false by done. rewrite !N.ltb_lt.
  destruct (N.lt_total (N_of_ascii c) (N_of_ascii d)) as [?|[?%N_of_ascii_inj|?]]; auto; done.
Qed.

Lemma bytes_leb_trans a b c : bytes_leb a b = true → bytes_leb b c = true → bytes_leb a c = true.
Proof.
  revert b c. induction a as [|x a IH]; intros [|y b] [|z c]; simpl; try done.
  destruct (decide (x = y)) as [->|Hxy], (decide (y = z)) as [->|Hyz];
    rewrite ?(bool_decide_true (_ = _)), ?(bool_decide_false (y = z)), ?(bool_decide_false (x = y)),
      ?(bool_decide_false (x = z)) by done; rewrite ?N.ltb_lt; try done.
  - apply IH.
  - intros H1 H2. destruct (decide (x = z)) as [->|]; [lia|]. rewrite bool_decide_false by done. rewrite N.ltb_lt. lia.
Qed.

Lemma ts_leb_total x y : ts_leb x y = true ∨ ts_leb y x = true.
Proof. unfold ts_leb. destruct (extract_ts x), (extract_ts y); simpl; auto using bytes_leb_total. Qed.

Lemma ts_leb_trans x y z : ts_leb x y = true → ts_leb y z = true → ts_leb x z = true.
Proof. unfold ts_leb. destruct (extract_ts x), (extract_ts y), (extract_ts z); simpl; try done. apply bytes_leb_trans. Qed.

(** ** The merge *)

Lemma elem_of_unseen x seen ls : (x ∈ unseen seen ls) ↔ x ≠ [] ∧ (x ∉ seen) ∧ x ∈ ls.
Proof.
  revert seen. induction ls as [|y ls IH]; intros seen; simpl; [rewrite elem_of_nil; naive_solver|].
  rewrite elem_of_cons. destruct (decide (y = [])) as [->|Hy].
  { rewrite bool_decide_true by done. simpl. rewrite IH. naive_solver. }
  rewrite (bool_decide_false (y = [])) by done. simpl. destruct (decide (y ∈ seen)) as [Hs|Hs].
  - rewrite bool_decide_true, IH by done. naive_solver.
  - rewrite bool_decide_false, elem_of_cons, IH, not_elem_of_union, not_elem_of_singleton by done.
    destruct (decide (x = y)); naive_solver.
Qed.

Lemma NoDup_unseen seen ls : NoDup (unseen seen ls).
Proof.
  revert seen. induction ls as [|y ls IH]; intros seen; simpl; [constructor|].
  case_match; [apply IH|]. constructor; [|apply IH]. rewrite elem_of_unseen. set_solver.
Qed.

(** What a merge of two texts must be. *)
Definition union_of (xs ys ms : list Bytes) : Prop :=
  NoDup ms ∧ StronglySorted (λ x y, ts_leb x y = true) ms ∧
  ∀ x, x ∈ ms ↔ x ≠ [] ∧ (x ∈ xs ∨ x ∈ ys).

Lemma merge_jsonl_logs_union a b : ∃ ms, merge_jsonl_logs a b = unlines ms ∧ union_of (str_lines a) (str_lines b) ms.
Proof.
  eexists. split; [reflexivity|]. split_and!.
  - rewrite sort_by_perm. apply NoDup_unseen.
  - apply sort_by_sorted; [apply ts_leb_total|apply ts_leb_trans].
  - intros x. rewrite elem_of_sort_by, elem_of_unseen, elem_of_app. set_solver.
Qed.

Lemma strip_cr_flat x : flat x → flat (strip_cr x).
Proof.
  unfold strip_cr, flat. intros Hx. repeat case_match; try done. intros Hin. apply Hx.
  rewrite <-(take_drop (length x - 1) x). apply elem_of_app. by left.
Qed.

Lemma str_lines_unlines ls : Forall flat ls → str_lines (unlines ls) = strip_cr <$> ls.
Proof.
  intros H. unfold str_lines. rewrite <-(app_nil_r (unlines ls)), split_nl_complete by (done || apply flat_nil).
  by rewrite bool_decide_true, app_nil_r.
Qed.

Lemma union_flat xs ys ms : Forall flat xs → Forall flat ys → union_of xs ys ms → Forall flat ms.
Proof.
  rewrite !Forall_forall. intros Hx Hy (_ & _ & Hms) x [_ [H|H]]%Hms; auto.
Qed.

(** ** The cut of a merged text *)

Lemma cut_front_to_lines_spec ms t :
  Forall flat ms → cut_front_to_lines (unlines ms) t = (unlines (newest_fit t ms), (t <? length (unlines ms))%nat).
Proof.
  intros Hms. unfold cut_front_to_lines. destruct (Nat.leb_spec (length (unlines ms)) t) as [Hle|Hgt].
  { rewrite newest_fit_all by done. f_equal. symmetry. by apply Nat.ltb_ge. }
  rewrite (proj2 (Nat.ltb_lt _ _)) by done. f_equal.
  pose proof (window_cut ms [] t Hms flat_nil) as Hw. rewrite !app_nil_r in Hw. specialize (Hw Hgt).
  simpl in Hw. rewrite Nat.sub_0_r in Hw. rewrite <-Hw. unfold skip_line.
  set (c := unlines ms) in *. destruct (lookup_lt_is_Some_2 c (length c - t - 1)) as [z Hz]; [lia|].
  rewrite Hz, (drop_S _ _ _ Hz). replace (S (length c - t - 1)) with (length c - t)%nat by lia. cbn [nl_position length].
  destruct (decide (z = nl)) as [->|Hne].
  - by rewrite !bool_decide_true.
  - rewrite !bool_decide_false by congruence. destruct (nl_position (drop (length c - t) c)) as [p|]; simpl; unfold id.
    + rewrite drop_drop. f_equal. lia.
    + rewrite !drop_ge; [done|rewrite length_drop; lia|lia].
Qed.

(** ** Tails of one storage *)

Section storage.
Context `{BlobArchive St}.
Context (format : Z → string → string) (gzip : Bytes → Bytes) (decode : St → ArchiveObject → list Block).
Context (matches_bytes : Bytes → string → bool).

Abbreviation archive_key := (archive_key format).
Abbreviation archive_tail := (archive_tail format decode matches_bytes).
Abbreviation local_tail := (local_tail matches_bytes).
Abbreviation read_tail := (read_tail format decode matches_bytes).
Abbreviation upload_to_archive := (upload_to_archive format gzip).

(** The complete lines a filter selects, and the tail of them. *)
Definition selected (cfg : LogReadConfig) (f : StepFilter) (ls : list Bytes) : list Bytes :=
  match f with All => ls | OnlyStep step => List.filter (good matches_bytes step (max_line_bytes cfg)) ls end.

Definition tail_lines (cfg : LogReadConfig) (f : StepFilter) (ls : list Bytes) (r : Bytes) (t : nat) : list Bytes :=
  match f with
  | All => newest_fit (t - length r) ls
  | OnlyStep _ => newest_fit t (selected cfg f ls)
  end.

Definition tail_flag (cfg : LogReadConfig) (f : StepFilter) (c : Bytes) (ls : list Bytes) (r : Bytes) (t : nat) : bool :=
  match f with
  | All => (t <? length c)%nat || negb (bool_decide (r = []))
  | OnlyStep step => step_truncated matches_bytes step (max_line_bytes cfg) ls r t
  end.

Lemma tail_lines_sub cfg f ls r t x : x ∈ tail_lines cfg f ls r t → x ∈ selected cfg f ls.
Proof. destruct f; simpl; apply newest_fit_sub. Qed.

Lemma selected_sub cfg f ls x : x ∈ selected cfg f ls → x ∈ ls.
Proof. destruct f; [done|]. apply good_in. Qed.

Lemma tail_lines_flat cfg f ls r t : Forall flat ls → Forall flat (tail_lines cfg f ls r t).
Proof. rewrite !Forall_forall. intros Hls x Hx. eapply Hls, selected_sub, tail_lines_sub, Hx. Qed.

Lemma tail_lines_bound cfg f ls r t : (length (unlines (tail_lines cfg f ls r t)) ≤ t)%nat.
Proof. destruct f; simpl; [etransitivity; [apply newest_fit_bound|lia]|apply newest_fit_bound]. Qed.

(** An unflagged tail is everything selected. *)
Lemma tail_flag_false cfg f c ls r t :
  split_nl c = (ls, r) → tail_flag cfg f c ls r t = false → r = [] ∧ tail_lines cfg f ls r t = selected cfg f ls.
Proof.
  intros Es. destruct (split_nl_sound _ _ _ Es) as (-> & _ & _). destruct f as [|step]; simpl.
  - rewrite orb_false_iff, Nat.ltb_ge, negb_false_iff, bool_decide_eq_true. intros [Ht ->]. split; [done|].
    rewrite app_nil_r in Ht. apply newest_fit_all. simpl. lia.
  - unfold step_truncated. rewrite !orb_false_iff, Nat.ltb_ge, negb_false_iff, bool_decide_eq_true. intros [[-> _] Ht].
    split; [done|]. by apply newest_fit_all.
Qed.

Lemma local_tail_spec (s : LogStorage St) f c ls r t :
  (length c ≤ tail_scan_max_bytes (read s))%nat → split_nl c = (ls, r) → valid_utf8 c = true →
  local_tail s (mkLocalFile c Jsonl (length c)) f t =
    Ok (mkLocalTail (unlines (tail_lines (read s) f ls r t)) (tail_flag (read s) f c ls r t) (length c)).
Proof.
  intros Hmax Es Hv. assert (Et : take (length c) c = c) by by apply take_ge. destruct f as [|step]; simpl.
  - by apply (tail_unfiltered_spec (mkLocalFile c Jsonl (length c)) c).
  - by apply (tail_step_spec matches_bytes step _ (mkLocalFile c Jsonl (length c)) c ls r).
Qed.

Lemma archive_tail_spec (s : LogStorage St) a job_id meta obj f c ls r t :
  archive s = Some a → open a (archive_key (archive_prefix s) job_id meta) = Ok (Some obj) → reads (decode a obj) c →
  split_nl c = (ls, r) → valid_utf8 c = true →
  archive_tail s job_id meta f t =
    Some (Some (mkArchiveTail (unlines (tail_lines (read s) f ls r t)) (tail_flag (read s) f c ls r t) (length c))).
Proof.
  intros Ea Eo Hrd Es Hv. unfold LogMerge.archive_tail. rewrite Ea, Eo. destruct f as [|step]; simpl.
  - by rewrite (byte_ring_tail_spec _ c ls r).
  - by rewrite (line_ring_tail_spec matches_bytes step _ _ c ls r).
Qed.

(** The tail of a finished job whose log is in a local JSONL file and in the
    archive. It never exceeds the budget, and when it is not flagged as
    truncated it is exactly the duplicate-free union of the two logs' selected
    lines in time order: nothing either source holds was left out, up to a
    carriage return at the end of a line. *)
Theorem read_tail_exact (s : LogStorage St) a job_id meta obj f t cl lsl rl ca lsa ra :
  files s !! log_path job_id = Some cl → archive s = Some a →
  open a (archive_key (archive_prefix s) job_id meta) = Ok (Some obj) → reads (decode a obj) ca →
  (length cl ≤ tail_scan_max_bytes (read s))%nat → split_nl cl = (lsl, rl) → split_nl ca = (lsa, ra) →
  valid_utf8 cl = true → valid_utf8 ca = true →
  ∃ tl, read_tail s job_id meta true f t = Some (Ok tl) ∧ (length (logs tl) ≤ t)%nat ∧
    total_bytes tl = (length cl + length ca + 2)%nat ∧
    (truncated tl = false → rl = [] ∧ ra = [] ∧
      ∃ ms, logs tl = unlines ms ∧
        union_of (strip_cr <$> selected (read s) f lsl) (strip_cr <$> selected (read s) f lsa) ms).
Proof.
  intros El Ea Eo Hrd Hmax Esl Esa Hvl Hva. unfold LogMerge.read_tail, open_local. rewrite El.
  rewrite (local_tail_spec s f cl lsl rl), (archive_tail_spec s a job_id meta obj f ca lsa ra) by done. simpl.
  eexists. split; [reflexivity|]. case_match.
  { simpl. split_and!; [apply tail_lines_bound|done|done]. }
  destruct (split_nl_sound _ _ _ Esl) as (_ & Hfl & _). destruct (split_nl_sound _ _ _ Esa) as (_ & Hfa & _).
  destruct (merge_jsonl_logs_union (unlines (tail_lines (read s) f lsl rl t)) (unlines (tail_lines (read s) f lsa ra t)))
    as (ms & -> & Hms). rewrite !str_lines_unlines in Hms by by apply tail_lines_flat.
  rewrite cut_front_to_lines_spec.
  2:{ eapply union_flat; [..|exact Hms]; apply Forall_fmap; (eapply Forall_impl; [by apply tail_lines_flat|]);
      intros x; apply strip_cr_flat. }
  simpl. split_and!; [apply newest_fit_bound|done|].
  rewrite !orb_false_iff, Nat.ltb_ge. intros [[H1 H2] H3].
  destruct (tail_flag_false _ _ _ _ _ _ Esl H1) as [-> El']. destruct (tail_flag_false _ _ _ _ _ _ Esa H2) as [-> Ea'].
  split_and!; [done..|]. exists ms. rewrite newest_fit_all by done. by rewrite El', Ea' in Hms.
Qed.

(** ** The full merge *)

Lemma read_to_end_short n rd c : reads rd c → (length c < n)%nat → read_to_end n rd = Ok c.
Proof.
  intros (bs & -> & Hne & <-). revert n. induction Hne as [|b bs Hb Hne IH]; intros n Hn; [by destruct n|].
  simpl in Hn. rewrite length_app in Hn. destruct n as [|n]; [lia|]. cbn [fmap list_fmap read_to_end].
  rewrite bool_decide_false by done. rewrite IH by lia. cbn [res_bind]. by rewrite take_ge by lia.
Qed.

Lemma trim_torn_line c ls r : split_nl c = (ls, r) → (trim_torn c).1 = unlines ls.
Proof.
  intros Es. destruct (split_nl_sound _ _ _ Es) as (-> & Hls & Hr). unfold trim_torn.
  destruct r as [|x r _] using rev_ind.
  - rewrite app_nil_r. destruct ls as [|y ls _] using rev_ind; [done|].
    rewrite unlines_snoc, app_assoc, last_snoc.
    by rewrite (bool_decide_true (Some nl = Some nl)), orb_true_r.
  - rewrite app_assoc, last_snoc. assert (x ≠ nl) by (intros ->; apply Hr; set_solver).
    rewrite !bool_decide_false by congruence. simpl. rewrite <-app_assoc.
    destruct ls as [|y ls _] using rev_ind; [by rewrite nl_rposition_flat|].
    set (z := r ++ [x]) in *. rewrite unlines_snoc, (app_assoc (unlines ls)).
    assert (Ez : ((unlines ls ++ y) ++ [nl]) ++ z = (unlines ls ++ y) ++ nl :: z) by by rewrite <-app_assoc.
    rewrite Ez at 1. rewrite nl_rposition_last by done. simpl.
    rewrite take_app_le; [apply take_ge|]; rewrite !length_app; simpl; lia.
Qed.

Lemma retain_loop_line fuel x l step max_line :
  flat x →
  retain_loop matches_bytes (S fuel) (x ++ nl :: l) step max_line =
  (if (length x <=? max_line)%nat && matches_bytes x step then x ++ [nl] else []) ++
  retain_loop matches_bytes fuel l step max_line.
Proof.
  intros Hx. assert (Et : take (S (length x)) (x ++ nl :: l) = x ++ [nl]).
  { replace (S (length x)) with (length x + 1)%nat by lia. by rewrite take_app_add. }
  assert (Ed : drop (S (length x)) (x ++ nl :: l) = l).
  { replace (S (length x)) with (length x + 1)%nat by lia. by rewrite drop_app_add. }
  pose proof (nl_position_line x l Hx) as En.
  destruct (x ++ nl :: l) as [|c buf] eqn:Eb; [by destruct x|]. rewrite <-Eb in *.
  transitivity ((if (length (take (length x) (take (S (length x)) (x ++ nl :: l))) <=? max_line)%nat &&
                    matches_bytes (take (length x) (take (S (length x)) (x ++ nl :: l))) step
                 then take (S (length x)) (x ++ nl :: l) else []) ++
                retain_loop matches_bytes fuel (drop (S (length x)) (x ++ nl :: l)) step max_line).
  { rewrite Eb. cbn [retain_loop]. rewrite <-Eb, En. done. }
  by rewrite Ed, Et, take_app_length.
Qed.

Lemma retain_loop_unlines fuel ls step max_line :
  Forall flat ls → (length (unlines ls) ≤ fuel)%nat →
  retain_loop matches_bytes fuel (unlines ls) step max_line =
  unlines (List.filter (λ x, (length x <=? max_line)%nat && matches_bytes x step) ls).
Proof.
  intros Hls. revert fuel. induction Hls as [|x ls Hx Hls IH]; intros fuel Hf; [by destruct fuel|].
  rewrite unlines_cons in *. rewrite length_app in Hf. simpl in Hf. destruct fuel as [|fuel]; [lia|].
  rewrite retain_loop_line, IH by (done || lia). cbn [List.filter]. case_match; [|done].
  by rewrite unlines_cons, <-app_assoc.
Qed.

(** The lines of a full read: those the retained lines of the merge are
    taken from. *)
Lemma union_of_ext xs ys xs' ys' ms :
  (∀ x, x ≠ [] → x ∈ xs ↔ x ∈ xs') → (∀ x, x ≠ [] → x ∈ ys ↔ x ∈ ys') → union_of xs ys ms → union_of xs' ys' ms.
Proof. intros Hx Hy (H1 & H2 & H3). split_and!; [done..|]. intros x. rewrite H3. naive_solver. Qed.

Definition retained (cfg : LogReadConfig) (filter : option string) (ls : list Bytes) : list Bytes :=
  match filter with
  | None => ls
  | Some step => List.filter (λ x, (length x <=? max_line_bytes cfg)%nat && matches_bytes x step) ls
  end.

Lemma retained_sub cfg filter ls x : x ∈ retained cfg filter ls → x ∈ ls.
Proof. destruct filter; [|done]. simpl. rewrite !list_elem_of_In, filter_In. tauto. Qed.

(** Only blank lines distinguish what a tail selects from what a full read
    retains. *)
Lemma retained_selected cfg f ls x :
  x ≠ [] → x ∈ strip_cr <$> retained cfg (step_of f) ls ↔ x ∈ strip_cr <$> selected cfg f ls.
Proof.
  intros Hx. rewrite !list_elem_of_fmap. destruct f as [|step]; [done|]. simpl. apply exist_proper. intros y.
  rewrite !list_elem_of_In, !filter_In. unfold good.
  destruct (decide (y = [])) as [->|Hy]; [naive_solver|]. rewrite bool_decide_false by done. done.
Qed.

Lemma retain_unlines cfg filter ls :
  Forall flat ls →
  match filter with None => unlines ls | Some step => retain_matching_lines matches_bytes (unlines ls) step (max_line_bytes cfg) end =
  unlines (retained cfg filter ls).
Proof. intros Hls. destruct filter; [|done]. by apply retain_loop_unlines. Qed.

(** A full read under the caps whose trailer tells the truth is exactly the
    duplicate-free union, in time order, of the selected lines of both
    sources: the lines an unflagged tail has. *)
Theorem merged_full_exact (s : LogStorage St) a local obj f cl lsl rl ca lsa ra :
  kind local = Jsonl → file local = cl → len local = length cl →
  gzip_isize a obj = Ok (length ca) → reads (decode a obj) ca →
  split_nl cl = (lsl, rl) → split_nl ca = (lsa, ra) → valid_utf8 cl = true → valid_utf8 ca = true →
  (length cl + length ca ≤ merge_max_bytes (read s))%nat →
  (count_lines (unlines (retained (read s) (step_of f) lsl)) + count_lines (unlines (retained (read s) (step_of f) lsa))
     ≤ merge_max_lines (read s))%nat →
  ∃ ms, read_merged_full decode matches_bytes s a local obj (step_of f) = Ok (Some (unlines ms)) ∧
    union_of (strip_cr <$> selected (read s) f lsl) (strip_cr <$> selected (read s) f lsa) ms.
Proof.
  intros Hk Hf Hl Hi Hrd Esl Esa Hvl Hva Hb Hn. unfold read_merged_full. rewrite Hi. cbn [res_bind].
  rewrite Hl, (proj2 (Nat.ltb_ge _ _)) by done. unfold read_range_exact. rewrite Hf, drop_0, Nat.sub_0_r, take_ge by done.
  rewrite Nat.ltb_irrefl. cbn [res_map_err res_bind]. rewrite (read_to_end_short _ _ ca) by (done || lia). cbn [res_bind].
  rewrite Nat.eqb_refl, Hk, (bool_decide_true (Jsonl = Jsonl)) by done. cbn [negb].
  rewrite (trim_torn_line _ _ _ Esl), (trim_torn_line _ _ _ Esa).
  destruct (split_nl_sound _ _ _ Esl) as (_ & Hfl & _). destruct (split_nl_sound _ _ _ Esa) as (_ & Hfa & _).
  destruct (valid_parts _ _ _ Hvl Esl) as [Hvll _]. destruct (valid_parts _ _ _ Hva Esa) as [Hvla _].
  pose proof (retain_unlines (read s) (step_of f) lsl Hfl) as Erl.
  pose proof (retain_unlines (read s) (step_of f) lsa Hfa) as Era.
  replace (match step_of f with None => _ | Some _ => _ end)
    with (unlines (retained (read s) (step_of f) lsl), unlines (retained (read s) (step_of f) lsa))
    by (rewrite <-Erl, <-Era; by destruct f).
  rewrite (proj2 (Nat.ltb_ge _ _)) by done.
  rewrite !(valid_utf8_sublist _ _ (retained_sub _ _ _)) by done. cbn [negb].
  destruct (merge_jsonl_logs_union (unlines (retained (read s) (step_of f) lsl)) (unlines (retained (read s) (step_of f) lsa)))
    as (ms & -> & Hms). exists ms. split; [done|].
  rewrite !str_lines_unlines in Hms by (rewrite Forall_forall in *; intros x Hx; eauto using retained_sub).
  eapply union_of_ext; [..|exact Hms]; intros x; apply retained_selected.
Qed.

(** ** Writing, uploading and reading back *)

(** A cached handle writes to the file under its name. *)
Definition cache_linked (s : LogStorage St) : Prop :=
  ∀ job_id, job_id ∈ file_cache s → is_Some (files s !! log_path job_id).

Lemma append_inj_l (a b c : string) : a +:+ c = b +:+ c → a = b.
Proof. intros E%(f_equal bytes). rewrite !bytes_app in E. by apply app_inv_tail, bytes_inj in E. Qed.

Lemma log_path_inj a b : log_path a = log_path b → a = b.
Proof. apply append_inj_l. Qed.

Lemma legacy_ne_log job_id : legacy_log_path job_id ≠ log_path job_id.
Proof. unfold legacy_log_path, log_path. by intros ?%(inj (String.append job_id)). Qed.

Lemma get_or_open_files (s : LogStorage St) job_id :
  cache_linked s →
  files (get_or_open s job_id) = <[log_path job_id := default [] (files s !! log_path job_id)]> (files s).
Proof.
  intros Hc. unfold get_or_open. case_bool_decide as Hin; [|done].
  destruct (Hc _ Hin) as [c E]. rewrite E. simpl. by rewrite insert_id.
Qed.

(** Appending adds the chunk at the end of the job's file, which the open
    creates, and leaves every other file alone. *)
Lemma append_log_files (s : LogStorage St) job_id chunk :
  cache_linked s →
  files (append_log s job_id chunk) = <[log_path job_id := default [] (files s !! log_path job_id) ++ chunk]> (files s).
Proof.
  intros Hc. unfold append_log, with_files. cbn [files]. rewrite get_or_open_files by done.
  by rewrite alter_insert_eq.
Qed.

Lemma append_log_linked (s : LogStorage St) job_id chunk : cache_linked s → cache_linked (append_log s job_id chunk).
Proof.
  intros Hc k Hk. rewrite append_log_files by done. destruct (decide (k = job_id)) as [->|Hne].
  - rewrite lookup_insert_eq. by eexists.
  - rewrite lookup_insert_ne by by intros ?%log_path_inj. apply Hc. revert Hk.
    unfold append_log, get_or_open, with_files. case_bool_decide; simpl; set_solver.
Qed.

Lemma close_log_linked (s : LogStorage St) job_id : cache_linked s → cache_linked (close_log s job_id).
Proof. intros Hc k Hk. apply Hc. simpl in Hk. set_solver. Qed.

(** A storage after a job's chunks were appended. *)
Definition append_all (s : LogStorage St) (job_id : string) (chunks : list Bytes) : LogStorage St :=
  foldl (λ s chunk, append_log s job_id chunk) s chunks.

Lemma append_log_rest (s : LogStorage St) job_id chunk :
  archive (append_log s job_id chunk) = archive s ∧ archive_prefix (append_log s job_id chunk) = archive_prefix s ∧
  read (append_log s job_id chunk) = read s.
Proof. unfold append_log, get_or_open, with_files. by case_bool_decide. Qed.

Lemma append_all_spec (s : LogStorage St) job_id chunk chunks :
  cache_linked s →
  let s' := append_all s job_id (chunk :: chunks) in
  files s' !! log_path job_id = Some (default [] (files s !! log_path job_id) ++ chunk ++ concat chunks) ∧
  archive s' = archive s ∧ archive_prefix s' = archive_prefix s ∧ read s' = read s.
Proof.
  revert s chunk. induction chunks as [|chunk' chunks IH]; intros s chunk Hc s'.
  - split; [|apply append_log_rest]. subst s'. unfold append_all. cbn [foldl concat].
    rewrite append_log_files, lookup_insert_eq by done. by rewrite app_nil_r.
  - destruct (IH (append_log s job_id chunk) chunk') as (Ef & Ea & Ep & Er); [by apply append_log_linked|].
    destruct (append_log_rest s job_id chunk) as (Ea' & Ep' & Er'). subst s'.
    change (append_all s job_id (chunk :: chunk' :: chunks)) with (append_all (append_log s job_id chunk) job_id (chunk' :: chunks)).
    rewrite Ea, Ep, Er, Ef, append_log_files, lookup_insert_eq by done. simpl. split; [|done]. f_equal.
    by rewrite <-!app_assoc.
Qed.

(** Gzip: an object whose ranges read back the compressed bytes decodes to
    the bytes. *)
Definition gzip_inverse : Prop :=
  ∀ st obj c, obj_size obj = length (gzip c) →
    (∀ from n, (from + n ≤ length (gzip c))%nat → read_range st obj from n = Ok (take n (drop from (gzip c)))) →
    reads (decode st obj) c.

(** The complete lines a reader asks for: all, or those of one step, without
    the empty ones and those longer than the configured line. *)
Definition asked (cfg : LogReadConfig) (f : StepFilter) (ls : list Bytes) : list Bytes :=
  match f with
  | All => ls
  | OnlyStep step =>
      List.filter (λ x, negb (bool_decide (x = [])) && (length x <=? max_line_bytes cfg)%nat && matches_bytes x step) ls
  end.

(** A tail of [t] bytes of the lines [ls] followed by an unfinished line [r]:
    the longest run of newest lines that fits (an unfinished line counts when
    all lines are asked for), and whether something was left out. *)
Definition newest_lines (cfg : LogReadConfig) (f : StepFilter) (ls : list Bytes) (r : Bytes) (t : nat) (shown : list Bytes) (cut : bool) : Prop :=
  let budget := match f with All => (t - length r)%nat | OnlyStep _ => t end in
  shown `suffix_of` asked cfg f ls ∧ (length (unlines shown) ≤ budget)%nat ∧
  (∀ more, more `suffix_of` asked cfg f ls → (length (unlines more) ≤ budget)%nat → more `suffix_of` shown) ∧
  (cut = false ↔ r = [] ∧ shown = asked cfg f ls ∧
     match f with All => True | OnlyStep _ => Forall (λ x, length x ≤ max_line_bytes cfg)%nat ls end).

Lemma tail_newest cfg f c ls r t :
  split_nl c = (ls, r) → newest_lines cfg f ls r t (tail_lines cfg f ls r t) (tail_flag cfg f c ls r t).
Proof.
  intros Es. destruct (split_nl_sound _ _ _ Es) as (Ec & _ & _). unfold newest_lines.
  destruct f as [|step]; (split_and!; [apply newest_fit_suffix|apply newest_fit_bound|intros more; apply newest_fit_longest|]).
  - cbn [tail_flag tail_lines asked]. rewrite orb_false_iff, Nat.ltb_ge, negb_false_iff, bool_decide_eq_true. split.
    + intros [Ht ->]. rewrite app_nil_r in Ec. subst c. split_and!; try done. apply newest_fit_all. simpl. lia.
    + intros (-> & E & _). split; [|done]. rewrite app_nil_r in Ec. subst c.
      pose proof (newest_fit_bound (t - length (A:=ascii) []) ls) as Hb. rewrite E in Hb. simpl in Hb. lia.
  - cbn [tail_flag]. unfold step_truncated. rewrite !orb_false_iff, Nat.ltb_ge, negb_false_iff, bool_decide_eq_true, existsb_false_Forall.
    assert (Ho : Forall (λ x, LogTail.over (max_line_bytes cfg) x = false) ls ↔ Forall (λ x, length x ≤ max_line_bytes cfg)%nat ls).
    { apply Forall_iff. intros x. unfold LogTail.over. apply Nat.ltb_ge. }
    rewrite Ho. split.
    + intros [[-> H1] H2]. split_and!; try done. by apply newest_fit_all.
    + intros (-> & E & H1). split_and!; try done. pose proof (newest_fit_bound t (selected cfg (OnlyStep step) ls)) as Hb.
      cbn [tail_lines] in E. by rewrite E in Hb.
Qed.

(** C32. A job's log survives the archive. The bytes the job appended, cut
    into complete lines and an unfinished last one, are what a tail shows: the
    longest run of newest lines (all of them, or those of one step) within the
    asked size, flagged exactly when something was left out. After the upload
    and the deletion of the local file, the tail of the finished job, served
    by the archive, has the lines, the flag and the size of the local one
    before. For a log of valid UTF-8 no longer than the scan limit, whose
    upload succeeded. *)
Theorem archived_log_survives (s s2 : LogStorage St) a job_id meta chunk chunks f t ls r :
  gzip_inverse → cache_linked s → archive s = Some a →
  let s1 := append_all s job_id (chunk :: chunks) in
  let c := default [] (files s !! log_path job_id) ++ chunk ++ concat chunks in
  c = unlines ls ++ r → Forall flat ls → flat r →
  valid_utf8 c = true → (length c ≤ tail_scan_max_bytes (read s))%nat →
  upload_to_archive s1 job_id meta = Ok s2 →
  let s3 := (delete_local_log s2 job_id).1 in
  ∃ shown cut,
    newest_lines (read s) f ls r t shown cut ∧
    read_tail s1 job_id meta false f t = Some (Ok (mkTail (unlines shown) cut (length c) Local)) ∧
    read_tail s3 job_id meta true f t = Some (Ok (mkTail (unlines shown) cut (length c) Archive)) ∧
    (delete_local_log s2 job_id).2 = true.
Proof.
  intros Hgz Hc Ea s1 c Ec Hls Hr Hv Hmax Hup s3. pose proof (split_nl_complete ls r Hls Hr) as Es. rewrite <-Ec in Es.
  destruct (append_all_spec s job_id chunk chunks Hc) as (Ef & Ea1 & Ep1 & Er1). fold s1 in Ef, Ea1, Ep1, Er1. fold c in Ef.
  unfold LogMerge.upload_to_archive, close_log, with_files in Hup. simpl in Hup. rewrite Ea1, Ea, Ef in Hup.
  destruct (put a _ (gzip c)) as [a'|] eqn:Eput; simpl in Hup; [|done]. injection Hup as <-.
  exists (tail_lines (read s) f ls r t), (tail_flag (read s) f c ls r t). split_and!.
  - by apply tail_newest.
  - unfold LogMerge.read_tail, open_local. rewrite Ef, (local_tail_spec s1 f c ls r) by (rewrite ?Er1; done).
    by rewrite Er1.
  - unfold LogMerge.read_tail, open_local. subst s3. simpl.
    rewrite lookup_delete_eq, lookup_delete_ne, lookup_delete_eq by apply legacy_ne_log.
    rewrite (archive_tail_spec _ a' job_id meta (mkObject (archive_key (archive_prefix s1) job_id meta) (length (gzip c))) f c ls r).
    + simpl. by rewrite Er1.
    + done.
    + simpl. by apply put_open in Eput.
    + apply Hgz; [done|]. intros from n Hn. eapply put_range; eauto.
    + done.
    + done.
  - simpl. by rewrite Ef.
Qed.
End storage.
