(* ===== verification/RedactClosure.v ===== *)
(** * The redaction closure of a job

    [crates/stroem-db/src/repos/job.rs] ([redaction_closure_pins] and
    [any_pinned_rows]) and [crates/stroem-server/src/redaction.rs]: the pins
    whose secret values can be in a job's content, the values to mask, and the
    outlet's decision when some cannot be known. The pin store and the live
    configurations are arguments: the set of the live workspaces, and the set
    a pin is in once [ensure] has loaded its commit. *)
From S2P Require Import Prelude Json Text Lines Utf8 JobModel Db StepRepo JobRepo JobRepoProps Redact Pins Errors Connections WorkspaceSet.

(** ** The pins a job names *)

(** The first pin of a workspace and commit is kept. *)
Definition push_pin (out : list (string * PinRef)) (x : string * PinRef) : list (string * PinRef) :=
  if existsb (λ y, (y.1 ==? x.1) && (commit y.2 ==? commit x.2)) out then out else out ++ [x].

Definition step_pins (workspace : string) (s : JobStepRow) : list (string * PinRef) :=
  option_list (pair (default workspace (js_action_workspace s)) <$> of_step_action s) ++ option_list (of_step_task s).

Definition referenced_pins (job : JobRow) (steps : list JobStepRow) : list (string * PinRef) :=
  foldl push_pin [] (option_list (pair (j_workspace job) <$> of_job job) ++ flat_map (step_pins (j_workspace job)) steps).

(** ** The closure *)

Record ClosureBounds := mkBounds { task_depth : nat; hook_hops : nat; source_hops : nat; retry_hops : nat; max_jobs : nat }.

Record ClosurePinRow := mkClosurePin { cp_workspace : string; cp_git_ref : string; cp_revision : string }.

#[export] Instance ClosurePinRow_eq_dec : EqDecision ClosurePinRow.
Proof. solve_decision. Defined.

Inductive RedactionClosure := Pins (rows : list ClosurePinRow) | Truncated.

(** [split_part(source_id, '/', 1)] as a UUID, where it has the form of one. *)
Fixpoint until_slash (l : Bytes) : Bytes :=
  match l with [] => [] | c :: l' => if c ==? "/"%char then [] else c :: until_slash l' end.

Definition hex_digit (c : ascii) : option N :=
  let n := N_of_ascii c in
  if byte_in 48 57 c then Some (n - 48)%N
  else if byte_in 97 102 c then Some (n - 87)%N
  else if byte_in 65 70 c then Some (n - 55)%N
  else None.

Fixpoint hex_run (n : nat) (acc : N) (l : Bytes) : option (N * Bytes) :=
  match n with
  | O => Some (acc, l)
  | S n' => match l with c :: l' => d ← hex_digit c; hex_run n' (16 * acc + d)%N l' | [] => None end
  end.

Fixpoint hex_groups (groups : list nat) (acc : N) (l : Bytes) : option N :=
  match groups with
  | [] => None
  | n :: groups' =>
      '(acc, l) ← hex_run n acc l;
      match groups', l with
      | [], _ => if bool_decide (l = []) then Some acc else None
      | _, c :: l' => if c ==? "-"%char then hex_groups groups' acc l' else None
      | _, [] => None
      end
  end.

Definition uuid_prefix (source_id : string) : option Uuid := hex_groups [8; 4; 4; 4; 12]%nat 0 (until_slash (bytes source_id)).

(** The job a hook, restart or re-run was made from. *)
Definition source_of (j : JobRow) : option Uuid :=
  if j_source_type j ==? "hook"
  then match j_source_job_id j with Some k => Some k | None => source_id ← j_source_id j; uuid_prefix source_id end
  else if (j_source_type j ==? "restart") || (j_source_type j ==? "rerun") then j_source_job_id j
  else None.

(** A row of [up]. *)
Record UpRow := mkUp { u_job : Uuid; u_depth : nat; u_hook : nat; u_source : nat; u_retry : nat; u_refused : bool }.

Definition up_edges (bounds : ClosureBounds) (db : Db) (u : UpRow) : list UpRow :=
  if u_refused u then []
  else match jr_row <$> db_job db !! u_job u with
       | None => []
       | Some j =>
           let hook := j_source_type j ==? "hook" in
           let source := (j_source_type j ==? "restart") || (j_source_type j ==? "rerun") in
           option_list ((λ k, mkUp k (S (u_depth u)) (u_hook u) (u_source u) (u_retry u)
                                (negb (u_depth u <? task_depth bounds)%nat)) <$> j_parent_job_id j) ++
           option_list ((λ k, mkUp k 0 (u_hook u + Nat.b2n hook) (u_source u + Nat.b2n source) (u_retry u)
                                (negb (if hook then (u_hook u <? hook_hops bounds)%nat
                                       else (u_source u <? source_hops bounds)%nat))) <$> source_of j) ++
           option_list ((λ k, mkUp k 0 (u_hook u) (u_source u) (S (u_retry u))
                                (negb (u_retry u <? retry_hops bounds)%nat)) <$> j_retry_of_job_id j)
       end.

(** A recursive query: its rows, generation by generation. *)
Fixpoint generations {A} (edges : A → list A) (fuel : nat) (level : list A) : list A :=
  level ++ match fuel with O => [] | S fuel' => generations edges fuel' (flat_map edges level) end.

(** Enough generations: each lengthens the walk up a tree, at most to the
    depth bound, or takes one of the bounded hops. *)
Definition up_fuel (bounds : ClosureBounds) : nat :=
  S ((hook_hops bounds + source_hops bounds + retry_hops bounds) * S (task_depth bounds) + task_depth bounds).

Definition up (bounds : ClosureBounds) (db : Db) (job_id : Uuid) : list UpRow :=
  generations (up_edges bounds db) (up_fuel bounds) [mkUp job_id 0 0 0 0 false].

(** A row of [tree]. *)
Record TreeRow := mkTree { t_job : Uuid; t_depth : nat; t_refused : bool }.

Definition child_ids (db : Db) (p : Uuid) : list Uuid :=
  (map_to_list (filter (λ '(_, r), j_parent_job_id (jr_row r) = Some p) (db_job db))).*1.

Definition tree_edges (bounds : ClosureBounds) (db : Db) (t : TreeRow) : list TreeRow :=
  if t_refused t then []
  else (λ k, mkTree k (S (t_depth t)) (task_depth bounds <=? t_depth t)%nat) <$> child_ids db (t_job t).

Definition is_root (db : Db) (k : Uuid) : bool :=
  match db_job db !! k with Some r => j_parent_job_id (jr_row r) ==? None | None => false end.

Definition tree (bounds : ClosureBounds) (db : Db) (up_capped : list UpRow) : list TreeRow :=
  generations (tree_edges bounds db) (S (task_depth bounds))
    ((λ k, mkTree k 0 false) <$> remove_dups (List.filter (is_root db) (u_job <$> List.filter (λ u, negb (u_refused u)) up_capped))).

(** The pins of one job of the closure. *)
Definition row_of_pin (x : string * PinRef) : ClosurePinRow := mkClosurePin x.1 (git_ref x.2) (commit x.2).

Definition pins_of (db : Db) (k : Uuid) : list (string * PinRef) :=
  match jr_row <$> db_job db !! k with
  | None => []
  | Some j =>
      option_list (pair (j_workspace j) <$> of_job j) ++
      flat_map (step_pins (j_workspace j)) (job_steps k any_row db)
  end.

(** The common table expressions [up_capped], [tree_capped], [closure] and
    [flags]. *)
Definition up_capped (bounds : ClosureBounds) (db : Db) (job_id : Uuid) : list UpRow :=
  take (S (max_jobs bounds)) (up bounds db job_id).
Definition tree_capped (bounds : ClosureBounds) (db : Db) (job_id : Uuid) : list TreeRow :=
  take (S (max_jobs bounds)) (tree bounds db (up_capped bounds db job_id)).
Definition closure_ids (bounds : ClosureBounds) (db : Db) (job_id : Uuid) : list Uuid :=
  remove_dups
    ((u_job <$> List.filter (λ u, negb (u_refused u)) (up_capped bounds db job_id)) ++
     (t_job <$> List.filter (λ t, negb (t_refused t)) (tree_capped bounds db job_id))).
Definition truncated (bounds : ClosureBounds) (db : Db) (job_id : Uuid) : bool :=
  existsb u_refused (up_capped bounds db job_id) || existsb t_refused (tree_capped bounds db job_id) ||
  (max_jobs bounds <? length (up_capped bounds db job_id))%nat ||
  (max_jobs bounds <? length (tree_capped bounds db job_id))%nat.

Section query.
Context `{Collation}.

Definition pin_leb (a b : ClosurePinRow) : bool :=
  if cp_workspace a ==? cp_workspace b then
    if cp_revision a ==? cp_revision b then text_leb (cp_git_ref a) (cp_git_ref b) else text_leb (cp_revision a) (cp_revision b)
  else text_leb (cp_workspace a) (cp_workspace b).

Definition redaction_closure_pins (db : Db) (job_id : Uuid) (bounds : ClosureBounds) : RedactionClosure :=
  if truncated bounds db job_id then Truncated
  else Pins (sort_by pin_leb (remove_dups (row_of_pin <$> flat_map (pins_of db) (closure_ids bounds db job_id)))).
End query.

Definition any_pinned_rows (db : Db) : bool :=
  negb (bool_decide (select_jobs (λ j, j_git_ref j <>? None) db = [])) ||
  negb (bool_decide (sql_select (λ _ r, (js_action_ref (sr_row r) <>? None) || (js_task_ref (sr_row r) <>? None)) (db_step db) = [])).

Definition merge_pins (own : list (string * PinRef)) (closure : list ClosurePinRow) : list (string * PinRef) :=
  foldl push_pin own ((λ row, (cp_workspace row, mkPinRef (cp_git_ref row) (cp_revision row))) <$> closure).

Definition MAX_SOURCE_LINEAGE_HOPS : nat := 32.
Definition MAX_RETRY_LINEAGE_HOPS : nat := MAX_SOURCE_LINEAGE_HOPS + 1.
Definition MAX_REDACTION_CLOSURE_JOBS : N := 20000.
Definition MAX_HOOK_CHAIN_DEPTH : nat := 3.

Definition CLOSURE_BOUNDS : ClosureBounds :=
  mkBounds MAX_TASK_DEPTH MAX_HOOK_CHAIN_DEPTH MAX_SOURCE_LINEAGE_HOPS MAX_RETRY_LINEAGE_HOPS
    (N.to_nat MAX_REDACTION_CLOSURE_JOBS).

(** ** Loading the values *)

Inductive UnavailableCause := CausePin (commit : string) | ClosureUnreadable | ClosureTruncated.

Record RedactionUnavailable := mkUnavailable { ru_workspace : string; cause : UnavailableCause; transient : bool }.

Definition from_pin_error (ws : string) (pin : PinRef) (e : PinError) : RedactionUnavailable :=
  mkUnavailable ws (CausePin (commit pin)) (is_transient e).
Definition closure_unreadable (ws : string) : RedactionUnavailable := mkUnavailable ws ClosureUnreadable true.
Definition closure_truncated (ws : string) : RedactionUnavailable := mkUnavailable ws ClosureTruncated false.

Record RedactionMemo := mkMemo {
  m_any_pinned : option bool;
  m_closures : gmap Uuid RedactionClosure;
  m_pin_values : gmap (string * string) (result RedactionUnavailable (list string));
}.

Definition empty_memo : RedactionMemo := mkMemo None ∅ ∅.

(** What a request reads: the database, the failures of its two queries, the
    set of the live workspaces, and the set of a workspace at a commit with the
    live ones around it, as the pin store loads it ([ensure] and the set of
    [pin_redaction_values]). *)
Record Outlet := mkOutlet {
  o_db : Db;
  probe_fails : bool;
  closure_fails : bool;
  live_set : WorkspaceSet;
  load_pin : string → string → result PinError WorkspaceSet;
}.

Definition live_values `{HashIter} (o : Outlet) : list string := collect_redaction_values (live_set o).
Definition ensure `{HashIter} (o : Outlet) (ws commit : string) : result PinError (list string) :=
  res_map collect_redaction_values (load_pin o ws commit).

Section outlet.
Context `{Collation, HashIter}.

(** The short-circuit probe and the closure, each from the memo or read. *)
Definition probe (o : Outlet) (job : JobRow) (memo : RedactionMemo) : result RedactionUnavailable (RedactionMemo * bool) :=
  match m_any_pinned memo with
  | Some any => Ok (memo, any)
  | None =>
      if probe_fails o then Err (closure_unreadable (j_workspace job))
      else let any := any_pinned_rows (o_db o) in
           Ok (mkMemo (Some any) (m_closures memo) (m_pin_values memo), any)
  end.

Definition read_closure (o : Outlet) (job_id : Uuid) (job : JobRow) (memo : RedactionMemo)
    : result RedactionUnavailable (RedactionMemo * RedactionClosure) :=
  match m_closures memo !! job_id with
  | Some closure => Ok (memo, closure)
  | None =>
      if closure_fails o then Err (closure_unreadable (j_workspace job))
      else let closure := redaction_closure_pins (o_db o) job_id CLOSURE_BOUNDS in
           Ok (mkMemo (m_any_pinned memo) (<[job_id := closure]> (m_closures memo)) (m_pin_values memo), closure)
  end.

Definition closure_pins (o : Outlet) (job_id : Uuid) (job : JobRow) (steps : list JobStepRow) (memo : RedactionMemo)
    : RedactionMemo * result RedactionUnavailable (list (string * PinRef)) :=
  let own := referenced_pins job steps in
  match probe o job memo with
  | Err e => (memo, Err e)
  | Ok (memo, any) =>
      if negb any then (memo, Ok own)
      else match read_closure o job_id job memo with
           | Err e => (memo, Err e)
           | Ok (memo, Pins rows) => (memo, Ok (merge_pins own rows))
           | Ok (memo, Truncated) => (memo, Err (closure_truncated (j_workspace job)))
           end
  end.

(** One pin's values, from the memo or the pin store. *)
Definition pin_values (o : Outlet) (memo : RedactionMemo) (x : string * PinRef)
    : RedactionMemo * result RedactionUnavailable (list string) :=
  let '(ws, pin) := x in
  match m_pin_values memo !! (ws, commit pin) with
  | Some cached => (memo, cached)
  | None =>
      let loaded := res_map_err (from_pin_error ws pin) (ensure o ws (commit pin)) in
      (mkMemo (m_any_pinned memo) (m_closures memo) (<[(ws, commit pin) := loaded]> (m_pin_values memo)), loaded)
  end.

Fixpoint extend_values (o : Outlet) (pins : list (string * PinRef)) (values : list string) (memo : RedactionMemo)
    : RedactionMemo * result RedactionUnavailable (list string) :=
  match pins with
  | [] => (memo, Ok values)
  | x :: pins' =>
      let '(memo, r) := pin_values o memo x in
      match r with
      | Err e => (memo, Err e)
      | Ok vs => extend_values o pins' (values ++ vs) memo
      end
  end.

Definition job_redaction_values_memo (o : Outlet) (job_id : Uuid) (job : JobRow) (steps : list JobStepRow) (memo : RedactionMemo)
    : RedactionMemo * result RedactionUnavailable (list string) :=
  let '(memo, r) := closure_pins o job_id job steps memo in
  match r with
  | Err e => (memo, Err e)
  | Ok pins => extend_values o pins (live_values o) memo
  end.

Definition from_result (r : result RedactionUnavailable (list string)) : result RedactionUnavailable JobRedaction :=
  match r with
  | Ok values => Ok (Values values)
  | Err e => if transient e then Err e else Ok MaskAll
  end.

Definition job_redaction_memo (o : Outlet) (job_id : Uuid) (job : JobRow) (steps : list JobStepRow) (memo : RedactionMemo)
    : RedactionMemo * result RedactionUnavailable JobRedaction :=
  let '(memo, r) := job_redaction_values_memo o job_id job steps memo in (memo, from_result r).

Definition job_redaction (o : Outlet) (job_id : Uuid) (job : JobRow) (steps : list JobStepRow) : result RedactionUnavailable JobRedaction :=
  (job_redaction_memo o job_id job steps empty_memo).2.
End outlet.

(** ** The redaction closure: theorems

    The closure query returns the pins of every job whose content can have
    been copied into the job, or says it was cut; the outlet masks the values
    of all of them, masks everything, or answers with a transient error. *)

Lemma elem_of_option_list {A} (x : A) mx : x ∈ option_list mx ↔ mx = Some x.
Proof. destruct mx; simpl; [rewrite list_elem_of_singleton; naive_solver|rewrite elem_of_nil; naive_solver]. Qed.

(** ** Recursive queries *)

Section generations.
Context {A : Type} (edges : A → list A).

Lemma elem_of_generations fuel level x :
  x ∈ generations edges fuel level → x ∈ level ∨ ∃ y, y ∈ generations edges fuel level ∧ x ∈ edges y.
Proof.
  revert level. induction fuel as [|fuel IH]; intros level; simpl; rewrite ?app_nil_r; [auto|].
  rewrite elem_of_app. intros [Hx|Hx]; [auto|]. right. destruct (IH _ Hx) as [Hl|(y & Hy & He)].
  - apply list_elem_of_In, in_flat_map in Hl as (y & Hy%list_elem_of_In & He%list_elem_of_In).
    exists y. rewrite elem_of_app. auto.
  - exists y. rewrite elem_of_app. auto.
Qed.

(** Every row is reached from the start. *)
Lemma generations_ind (P : A → Prop) fuel level :
  (∀ x, x ∈ level → P x) → (∀ x y, P x → y ∈ edges x → P y) → ∀ x, x ∈ generations edges fuel level → P x.
Proof.
  intros H0 HS. revert level H0. induction fuel as [|fuel IH]; intros level H0 x; simpl; rewrite ?app_nil_r; [auto|].
  rewrite elem_of_app. intros [Hx|Hx]; [auto|]. revert Hx. apply IH. intros y Hy.
  apply list_elem_of_In, in_flat_map in Hy as (z & Hz%list_elem_of_In & He%list_elem_of_In). eauto.
Qed.

(** A rank that grows along every edge and is bounded where edges start. *)
Context (stuck : A → bool) (rank : A → nat) (N : nat) (P : A → Prop).
Context (stuck_edges : ∀ x, stuck x = true → edges x = []).
Context (P_edges : ∀ x y, P x → y ∈ edges x → P y).
Context (rank_edges : ∀ x y, P x → stuck x = false → y ∈ edges x → stuck y = false → (rank x < rank y)%nat).
Context (rank_bound : ∀ x, P x → stuck x = false → (rank x ≤ N)%nat).

(** With a generation for each rank and one more, nothing is left out. *)
Lemma generations_closed n level :
  (∀ x, x ∈ level → P x ∧ (stuck x = false → n ≤ rank x)%nat) →
  ∀ x y, x ∈ generations edges (S N - n) level → y ∈ edges x → y ∈ generations edges (S N - n) level.
Proof.
  remember (S N - n)%nat as fuel eqn:Ef. revert n level Ef. induction fuel as [|fuel IH]; intros n level Ef Hl x y; simpl.
  - rewrite app_nil_r. intros Hx He. destruct (Hl x Hx) as [HP Hr]. destruct (stuck x) eqn:Es.
    + rewrite stuck_edges in He by done. by apply elem_of_nil in He.
    + specialize (rank_bound x HP Es). specialize (Hr eq_refl). lia.
  - rewrite !elem_of_app. intros [Hx|Hx] He.
    + right. assert (Hy : y ∈ flat_map edges level).
      { apply list_elem_of_In, in_flat_map. exists x. by rewrite <-!list_elem_of_In. }
      destruct fuel; simpl; rewrite elem_of_app; by left.
    + right. apply (IH (S n) (flat_map edges level) ltac:(lia)) with x; [|done|done].
      intros z Hz. apply list_elem_of_In, in_flat_map in Hz as (w & Hw%list_elem_of_In & Hz%list_elem_of_In).
      destruct (Hl w Hw) as [HPw Hrw]. split; [eauto|]. intros Hs. destruct (stuck w) eqn:Ew.
      { rewrite stuck_edges in Hz by done. by apply elem_of_nil in Hz. }
      specialize (rank_edges w z HPw Ew Hz Hs). specialize (Hrw eq_refl). lia.
Qed.
End generations.

(** ** The jobs of the closure *)

(** From a job to a job it was made from. *)
Definition made_from (j : JobRow) (k : Uuid) : Prop :=
  j_parent_job_id j = Some k ∨ source_of j = Some k ∨ j_retry_of_job_id j = Some k.

Inductive lineage (db : Db) (job : Uuid) : Uuid → Prop :=
| lineage_self : lineage db job job
| lineage_from k r k' : lineage db job k → db_job db !! k = Some r → made_from (jr_row r) k' → lineage db job k'.

(** The trees of the lineage: its roots and everything below them. *)
Inductive in_tree (db : Db) (job : Uuid) : Uuid → Prop :=
| tree_root k : lineage db job k → is_root db k = true → in_tree db job k
| tree_child p k r : in_tree db job p → db_job db !! k = Some r → j_parent_job_id (jr_row r) = Some p → in_tree db job k.

Definition closure_job (db : Db) (job k : Uuid) : Prop := lineage db job k ∨ in_tree db job k.

Section closure.
Context (bounds : ClosureBounds) (db : Db) (job : Uuid).

Lemma elem_of_up_edges u v :
  v ∈ up_edges bounds db u → ∃ r, u_refused u = false ∧ db_job db !! u_job u = Some r ∧ made_from (jr_row r) (u_job v).
Proof.
  unfold up_edges. destruct (u_refused u); [intros ?%elem_of_nil; done|].
  destruct (db_job db !! u_job u) as [r|]; simpl; [|intros ?%elem_of_nil; done].
  rewrite !elem_of_app, !elem_of_option_list. unfold made_from.
  intros [Hv|[Hv|Hv]]; apply fmap_Some in Hv as (k & Hk & ->); exists r; simpl; auto.
Qed.

(** Each edge of a job is a row, refused or not. *)
Lemma up_edges_all u r k :
  u_refused u = false → db_job db !! u_job u = Some r → made_from (jr_row r) k → ∃ v, v ∈ up_edges bounds db u ∧ u_job v = k.
Proof.
  intros Hu Hr Hk. unfold up_edges. rewrite Hu, Hr. simpl.
  destruct Hk as [Hk|[Hk|Hk]]; eexists; (split; [rewrite !elem_of_app, !elem_of_option_list, Hk; eauto|done]).
Qed.

Definition within (u : UpRow) : Prop :=
  u_refused u = false →
  (u_depth u ≤ task_depth bounds ∧ u_hook u ≤ hook_hops bounds ∧ u_source u ≤ source_hops bounds ∧ u_retry u ≤ retry_hops bounds)%nat.

Definition up_rank (u : UpRow) : nat := ((u_hook u + u_source u + u_retry u) * S (task_depth bounds) + u_depth u)%nat.

Lemma up_edges_within u v :
  within u → v ∈ up_edges bounds db u →
  within v ∧ (u_refused u = false → u_refused v = false → (up_rank u < up_rank v)%nat).
Proof.
  unfold within, up_rank, up_edges. intros Hw. destruct (u_refused u); [intros ?%elem_of_nil; done|].
  specialize (Hw eq_refl). destruct (jr_row <$> db_job db !! u_job u) as [j|]; [|intros ?%elem_of_nil; done].
  rewrite !elem_of_app, !elem_of_option_list. unfold source_of.
  intros [Hv|[Hv|Hv]]; apply fmap_Some in Hv as (k & Hk & ->); cbn [u_refused u_depth u_hook u_source u_retry].
  - rewrite negb_false_iff, Nat.ltb_lt. split; [lia|nia].
  - destruct (decide (j_source_type j = "hook")) as [Eh|Eh].
    + rewrite (bool_decide_true (j_source_type j = "hook")) by done.
      rewrite (bool_decide_false (j_source_type j = "restart")), (bool_decide_false (j_source_type j = "rerun")) by congruence.
      cbn [Nat.b2n orb]. rewrite negb_false_iff, Nat.ltb_lt. split; [lia|nia].
    + rewrite (bool_decide_false (j_source_type j = "hook")) in * by done.
      destruct ((j_source_type j ==? "restart") || (j_source_type j ==? "rerun")); [|done].
      cbn [Nat.b2n]. rewrite negb_false_iff, Nat.ltb_lt. split; [lia|nia].
  - rewrite negb_false_iff, Nat.ltb_lt. split; [lia|nia].
Qed.

Lemma up_within u : u ∈ up bounds db job → within u.
Proof.
  apply generations_ind.
  - intros x ->%list_elem_of_singleton _. simpl. lia.
  - intros x y Hx Hy. by apply (up_edges_within x y).
Qed.

(** The walk up misses no edge of a row it does not refuse. *)
Lemma up_closed u v : u ∈ up bounds db job → v ∈ up_edges bounds db u → v ∈ up bounds db job.
Proof.
  unfold up, up_fuel. set (N := (_ + task_depth bounds)%nat). change (S N) with (S N - 0)%nat.
  apply (generations_closed _ u_refused up_rank N within).
  - intros x Hx. unfold up_edges. by rewrite Hx.
  - intros x y Hx Hy. by apply (up_edges_within x y).
  - intros x y Hx Hr Hy Hr'. by apply (up_edges_within x y).
  - intros x Hx Hr. specialize (Hx Hr). unfold up_rank, N. nia.
  - intros x ->%list_elem_of_singleton. split; [intros _; simpl; lia|lia].
Qed.

Lemma up_lineage u : u ∈ up bounds db job → lineage db job (u_job u).
Proof.
  apply (generations_ind _ (λ u, lineage db job (u_job u))).
  - intros x ->%list_elem_of_singleton. constructor.
  - intros x y Hx (r & _ & Hr & Hm)%elem_of_up_edges. by econstructor.
Qed.

Lemma up_start : mkUp job 0 0 0 0 false ∈ up bounds db job.
Proof. unfold up, up_fuel. cbn [generations]. apply elem_of_app. left. by apply list_elem_of_singleton. Qed.

(** Without a refused row, the walk up is the lineage. *)
Lemma up_complete k :
  existsb u_refused (up bounds db job) = false → lineage db job k → ∃ u, u ∈ up bounds db job ∧ u_job u = k ∧ u_refused u = false.
Proof.
  intros Href. rewrite existsb_false_Forall, Forall_forall in Href.
  induction 1 as [|k r k' _ (u & Hu & <- & Hru) Hr Hm].
  - eexists. split; [apply up_start|done].
  - destruct (up_edges_all u r k' Hru Hr Hm) as (v & Hv & <-). exists v.
    pose proof (up_closed _ _ Hu Hv) as Hv'. by split_and!; [|..|apply Href].
Qed.

(** ** The trees *)

Lemma elem_of_child_ids p k : k ∈ child_ids db p ↔ ∃ r, db_job db !! k = Some r ∧ j_parent_job_id (jr_row r) = Some p.
Proof.
  unfold child_ids. rewrite list_elem_of_fmap. split.
  - intros ([k' r] & -> & Hin%elem_of_map_to_list). apply map_lookup_filter_Some in Hin as [Hr Hp]. eauto.
  - intros (r & Hr & Hp). exists (k, r). split; [done|]. by apply elem_of_map_to_list, map_lookup_filter_Some.
Qed.

Context (rows : list UpRow).

Definition tree_start (k : Uuid) : Prop := is_root db k = true ∧ ∃ u, u ∈ rows ∧ u_refused u = false ∧ u_job u = k.

Lemma elem_of_tree_level t :
  t ∈ (λ k, mkTree k 0 false) <$> remove_dups (List.filter (is_root db) (u_job <$> List.filter (λ u, negb (u_refused u)) rows)) ↔
  t = mkTree (t_job t) 0 false ∧ tree_start (t_job t).
Proof.
  rewrite list_elem_of_fmap. setoid_rewrite elem_of_remove_dups. unfold tree_start. split.
  - intros (k & -> & Hk). rewrite list_elem_of_In, filter_In, <-list_elem_of_In, list_elem_of_fmap in Hk.
    destruct Hk as [(u & -> & Hu) Hroot]. rewrite list_elem_of_In, filter_In, <-list_elem_of_In, negb_true_iff in Hu.
    simpl. naive_solver.
  - intros (E & Hroot & u & Hu & Hr & Ek). exists (t_job t). split; [done|].
    rewrite list_elem_of_In, filter_In, <-list_elem_of_In, list_elem_of_fmap. split; [|done].
    exists u. rewrite list_elem_of_In, filter_In, <-list_elem_of_In, negb_true_iff. done.
Qed.

Lemma tree_closed t t' : t ∈ tree bounds db rows → t' ∈ tree_edges bounds db t → t' ∈ tree bounds db rows.
Proof.
  unfold tree. change (S (task_depth bounds)) with (S (task_depth bounds) - 0)%nat.
  apply (generations_closed _ t_refused t_depth (task_depth bounds) (λ t, t_refused t = false → t_depth t ≤ task_depth bounds)%nat).
  - intros x Hx. unfold tree_edges. by rewrite Hx.
  - intros x y _ Hy. unfold tree_edges in Hy. destruct (t_refused x); [by apply elem_of_nil in Hy|].
    apply list_elem_of_fmap in Hy as (k & -> & _). simpl. rewrite Nat.leb_gt. lia.
  - intros x y _ Hr Hy _. unfold tree_edges in Hy. rewrite Hr in Hy. apply list_elem_of_fmap in Hy as (k & -> & _). simpl. lia.
  - auto.
  - intros x [-> _]%elem_of_tree_level. simpl. lia.
Qed.

Lemma tree_sound t : (∀ u, u ∈ rows → lineage db job (u_job u)) → t ∈ tree bounds db rows → in_tree db job (t_job t).
Proof.
  intros Hrows. revert t. apply (generations_ind _ (λ t, in_tree db job (t_job t))).
  - intros t (_ & Hroot & u & Hu & _ & E)%elem_of_tree_level. constructor; [|done]. rewrite <-E. auto.
  - intros x y Hx Hy. unfold tree_edges in Hy. destruct (t_refused x); [by apply elem_of_nil in Hy|].
    apply list_elem_of_fmap in Hy as (k & -> & (r & Hr & Hp)%elem_of_child_ids). by econstructor.
Qed.

Lemma tree_complete k :
  existsb t_refused (tree bounds db rows) = false →
  (∀ k, lineage db job k → ∃ u, u ∈ rows ∧ u_job u = k ∧ u_refused u = false) →
  in_tree db job k → ∃ t, t ∈ tree bounds db rows ∧ t_job t = k ∧ t_refused t = false.
Proof.
  intros Href Hrows. rewrite existsb_false_Forall, Forall_forall in Href.
  induction 1 as [k Hk Hroot|p k r _ (t & Ht & <- & Hrt) Hr Hp].
  - destruct (Hrows k Hk) as (u & Hu & Eu & Hru). exists (mkTree k 0 false). split; [|done].
    unfold tree. cbn [generations]. apply elem_of_app. left. apply elem_of_tree_level. split; [done|]. split; [done|]. eauto.
  - assert (Hin : mkTree k (S (t_depth t)) (task_depth bounds <=? t_depth t)%nat ∈ tree_edges bounds db t).
    { unfold tree_edges. rewrite Hrt. apply list_elem_of_fmap. exists k. split; [done|]. apply elem_of_child_ids. eauto. }
    pose proof (tree_closed _ _ Ht Hin) as Hin'. eexists. split_and!; [exact Hin'|done|]. by apply Href.
Qed.
End closure.

(** ** The query *)

Lemma take_short {A} (l : list A) n : (n <? length (take (S n) l))%nat = false → take (S n) l = l.
Proof. rewrite Nat.ltb_ge, length_take. intros. apply take_ge. lia. Qed.

Lemma elem_of_kept {A} (stuck : A → bool) (l : list A) {B} (f : A → B) k :
  k ∈ f <$> List.filter (λ x, negb (stuck x)) l ↔ ∃ x, x ∈ l ∧ f x = k ∧ stuck x = false.
Proof.
  rewrite list_elem_of_fmap. split.
  - intros (x & -> & Hx). rewrite list_elem_of_In, filter_In, <-list_elem_of_In, negb_true_iff in Hx. naive_solver.
  - intros (x & Hx & <- & Hs). exists x. rewrite list_elem_of_In, filter_In, <-list_elem_of_In, negb_true_iff. done.
Qed.

(** Uncut, the closure's jobs are the lineage and its trees. *)
Lemma elem_of_closure_ids bounds db job k :
  truncated bounds db job = false → k ∈ closure_ids bounds db job ↔ closure_job db job k.
Proof.
  unfold truncated, closure_ids. rewrite !orb_false_iff. intros [[[Hur Htr] Hul] Htl].
  assert (Eu : up_capped bounds db job = up bounds db job) by by apply take_short.
  assert (Etr : tree_capped bounds db job = tree bounds db (up_capped bounds db job)) by by apply take_short.
  rewrite Etr, Eu in *. clear Etr Eu. rewrite elem_of_remove_dups, elem_of_app, !elem_of_kept. unfold closure_job. split.
  - intros [(u & Hu & <- & _)|(t & Ht & <- & _)]; [left; by eapply up_lineage|right].
    eapply (tree_sound bounds); [|exact Ht]. intros u Hu. by eapply up_lineage.
  - intros [Hk|Hk]; [left; by apply up_complete|right]. eapply (tree_complete bounds); [done| |done].
    intros k' Hk'. by apply up_complete.
Qed.

Section query.
Context `{Collation}.

Lemma closure_query_exact db job bounds rows :
  redaction_closure_pins db job bounds = Pins rows →
  NoDup rows ∧ ∀ x, x ∈ rows ↔ ∃ k pin, closure_job db job k ∧ pin ∈ pins_of db k ∧ x = row_of_pin pin.
Proof.
  unfold redaction_closure_pins. destruct (truncated bounds db job) eqn:Et; [done|].
  pose proof (λ k, elem_of_closure_ids bounds db job k Et) as Hcl. revert Hcl.
  generalize (closure_ids bounds db job). intros ids Hcl [= <-].
  split; [rewrite sort_by_perm; apply NoDup_remove_dups|]. intros x.
  rewrite elem_of_sort_by, elem_of_remove_dups, list_elem_of_fmap. split.
  - intros (pin & -> & Hpin). apply list_elem_of_In, in_flat_map in Hpin as (k & Hk%list_elem_of_In & Hp%list_elem_of_In).
    exists k, pin. by rewrite <-Hcl.
  - intros (k & pin & Hk & Hp & ->). exists pin. split; [done|]. apply list_elem_of_In, in_flat_map. exists k.
    rewrite <-!list_elem_of_In. by rewrite Hcl.
Qed.

(** The closure query never cuts silently: when it answers with pins they are
    exactly the pins (of the job, of its steps' actions and tasks) of every
    job in the job's lineage and in the trees of that lineage, each once. *)
Theorem redaction_closure_exact db job bounds rows :
  redaction_closure_pins db job bounds = Pins rows →
  NoDup rows ∧ ∀ x, x ∈ rows ↔ ∃ k pin, closure_job db job k ∧ pin ∈ pins_of db k ∧ x = row_of_pin pin.
Proof. apply closure_query_exact. Qed.
End query.

(** ** Pins *)

Definition same_pin (x y : string * PinRef) : Prop := y.1 = x.1 ∧ commit y.2 = commit x.2.

Lemma push_pin_spec out x : (∃ y, y ∈ push_pin out x ∧ same_pin x y) ∧ ∀ y, y ∈ out → y ∈ push_pin out x.
Proof.
  unfold push_pin. destruct (existsb _ out) eqn:E.
  - split; [|done]. apply existsb_exists in E as (y & Hy%list_elem_of_In & [E1%bool_decide_eq_true E2%bool_decide_eq_true]%andb_true_iff).
    by exists y.
  - split; [exists x|]; setoid_rewrite elem_of_app; [|auto]. split; [right; by apply list_elem_of_singleton|done].
Qed.

Lemma foldl_push_pin xs out :
  (∀ y, y ∈ out → y ∈ foldl push_pin out xs) ∧ ∀ x, x ∈ xs → ∃ y, y ∈ foldl push_pin out xs ∧ same_pin x y.
Proof.
  revert out. induction xs as [|x xs IH]; intros out; simpl; [split; [done|by intros ? ?%elem_of_nil]|].
  destruct (push_pin_spec out x) as [(y & Hy & Hs) Hout], (IH (push_pin out x)) as [IH1 IH2]. split; [auto|].
  intros z [->|Hz]%elem_of_cons; [eauto|auto].
Qed.

(** Without pinned rows, no job has a pin. *)
Lemma no_pinned_rows db k pin : any_pinned_rows db = false → pin ∈ pins_of db k → False.
Proof.
  unfold any_pinned_rows. rewrite orb_false_iff, !negb_false_iff, !bool_decide_eq_true. intros [Hj Hs] Hp.
  unfold pins_of in Hp. destruct (db_job db !! k) as [r|] eqn:Er; simpl in Hp; [|by apply elem_of_nil in Hp].
  assert (Hr : j_git_ref (jr_row r) = None).
  { destruct (decide (j_git_ref (jr_row r) = None)) as [|Hne]; [done|].
    assert (Hin : jr_row r ∈ select_jobs (λ j, j_git_ref j <>? None) db).
    { apply elem_of_select_jobs. exists k, r. by rewrite bool_decide_false. }
    rewrite Hj in Hin. by apply elem_of_nil in Hin. }
  apply elem_of_app in Hp as [Hp|Hp].
  { unfold of_job in Hp. rewrite Hr in Hp. simpl in Hp. by apply elem_of_nil in Hp. }
  apply list_elem_of_In, in_flat_map in Hp as (st & Hst%list_elem_of_In & Hp%list_elem_of_In).
  unfold job_steps in Hst. apply list_elem_of_fmap in Hst as (sr & -> & (key & Hkey & _)%elem_of_sql_select).
  assert (Hst : js_action_ref (sr_row sr) = None ∧ js_task_ref (sr_row sr) = None).
  { destruct (decide (js_action_ref (sr_row sr) = None ∧ js_task_ref (sr_row sr) = None)) as [|Hne]; [done|].
    assert (Hin : sr ∈ sql_select (λ _ r, (js_action_ref (sr_row r) <>? None) || (js_task_ref (sr_row r) <>? None)) (db_step db)).
    { apply elem_of_sql_select. exists key. split; [done|]. rewrite orb_true_iff, !negb_true_iff, !bool_decide_eq_false.
      destruct (js_action_ref (sr_row sr)), (js_task_ref (sr_row sr)); naive_solver. }
    rewrite Hs in Hin. by apply elem_of_nil in Hin. }
  destruct Hst as [H1 H2]. unfold step_pins, of_step_action, of_step_task in Hp. rewrite H1, H2 in Hp. simpl in Hp.
  destruct (js_task_workspace (sr_row sr)); simpl in Hp; by apply elem_of_nil in Hp.
Qed.

(** ** The outlet *)

(** The bound on the jobs of a closure is a large number: the query is not
    unfolded from here on. *)
#[local] Opaque redaction_closure_pins.

Section outlet.
Context `{Collation, HashIter}.

(** What a memo holds is what the request would read. *)
Record memo_ok (o : Outlet) (memo : RedactionMemo) : Prop := {
  mo_any : ∀ any, m_any_pinned memo = Some any → any = any_pinned_rows (o_db o);
  mo_closures : ∀ k c, m_closures memo !! k = Some c → c = redaction_closure_pins (o_db o) k CLOSURE_BOUNDS;
  mo_values : ∀ ws c r, m_pin_values memo !! (ws, c) = Some r →
    match ensure o ws c, r with
    | Ok vs, Ok vs' => vs = vs'
    | Err pe, Err e => transient e = is_transient pe
    | _, _ => False
    end;
}.

Lemma empty_memo_ok o : memo_ok o empty_memo.
Proof. by split. Qed.

(** The pins of the closure are covered by a list of pins. *)
Definition covers (o : Outlet) (job_id : Uuid) (pins : list (string * PinRef)) : Prop :=
  ∀ k pin, closure_job (o_db o) job_id k → pin ∈ pins_of (o_db o) k → ∃ y, y ∈ pins ∧ same_pin pin y.

Lemma probe_spec o job memo :
  memo_ok o memo →
  match probe o job memo with
  | Err e => transient e = true
  | Ok (memo', any) => memo_ok o memo' ∧ any = any_pinned_rows (o_db o)
  end.
Proof.
  intros Hm. unfold probe. destruct (m_any_pinned memo) as [any|] eqn:Ea; [by split; [|apply (mo_any _ _ Hm)]|].
  destruct (probe_fails o); [done|]. destruct Hm. split; [|done]. by split; simpl; [congruence|..].
Qed.

Lemma read_closure_spec o job_id job memo :
  memo_ok o memo →
  match read_closure o job_id job memo with
  | Err e => transient e = true
  | Ok (memo', c) => memo_ok o memo' ∧ c = redaction_closure_pins (o_db o) job_id CLOSURE_BOUNDS
  end.
Proof.
  intros Hm. unfold read_closure. destruct (m_closures memo !! job_id) as [c|] eqn:Ec; [by split; [|apply (mo_closures _ _ Hm)]|].
  destruct (closure_fails o); [done|]. cbn zeta. split; [|done]. destruct Hm as [H1 H2 H3]. split; cbn [m_any_pinned m_closures m_pin_values]; [done| |done].
  intros k c [[<- <-]|[_ Hk]]%lookup_insert_Some; [reflexivity|by apply H2].
Qed.

Lemma merge_pins_covers o job_id own rows :
  redaction_closure_pins (o_db o) job_id CLOSURE_BOUNDS = Pins rows → covers o job_id (merge_pins own rows).
Proof.
  intros Hex k pin Hk Hp. destruct (closure_query_exact _ _ _ _ Hex) as [_ Hrows].
  destruct (foldl_push_pin ((λ row, (cp_workspace row, mkPinRef (cp_git_ref row) (cp_revision row))) <$> rows) own) as [_ Hpush].
  destruct (Hpush (pin.1, mkPinRef (git_ref pin.2) (commit pin.2))) as (y & Hy & Hs); [|by exists y].
  apply list_elem_of_fmap. exists (row_of_pin pin). split; [done|]. apply Hrows. eauto.
Qed.

Lemma closure_pins_spec o job_id job steps memo memo' r :
  memo_ok o memo → closure_pins o job_id job steps memo = (memo', r) →
  memo_ok o memo' ∧
  match r with
  | Ok pins => covers o job_id pins
  | Err e => transient e = true ∨ redaction_closure_pins (o_db o) job_id CLOSURE_BOUNDS = Truncated
  end.
Proof.
  intros Hm. unfold closure_pins. pose proof (probe_spec o job memo Hm) as Hp. cbn zeta.
  destruct (probe o job memo) as [[m any]|e]; [|intros [= <- <-]; auto]. destruct Hp as [Hm1 ->].
  destruct (any_pinned_rows (o_db o)) eqn:Eany; cbn [negb].
  2:{ intros [= <- <-]. split; [done|]. intros k pin _ Hp. by destruct (no_pinned_rows _ _ _ Eany Hp). }
  pose proof (read_closure_spec o job_id job m Hm1) as Hr.
  destruct (read_closure o job_id job m) as [[m2 c]|e]; [|intros [= <- <-]; auto]. destruct Hr as [Hm2 ->].
  destruct (redaction_closure_pins (o_db o) job_id CLOSURE_BOUNDS) as [rows|] eqn:Ec; intros [= <- <-]; [|auto].
  split; [done|]. by apply merge_pins_covers.
Qed.

(** ** Values *)

Lemma pin_values_spec o memo x memo' r :
  memo_ok o memo → pin_values o memo x = (memo', r) →
  memo_ok o memo' ∧
  match ensure o x.1 (commit x.2), r with
  | Ok vs, Ok vs' => vs = vs'
  | Err pe, Err e => transient e = is_transient pe
  | _, _ => False
  end.
Proof.
  intros Hm. destruct x as [ws pin]. unfold pin_values. simpl.
  destruct (m_pin_values memo !! (ws, commit pin)) as [c|] eqn:Ec.
  - intros [= <- <-]. split; [done|]. by apply (mo_values _ _ Hm).
  - assert (Hv : match ensure o ws (commit pin), res_map_err (from_pin_error ws pin) (ensure o ws (commit pin)) with
      | Ok vs, Ok vs' => vs = vs' | Err pe, Err e => transient e = is_transient pe | _, _ => False end)
      by by destruct (ensure o ws (commit pin)).
    revert Hv. generalize (res_map_err (from_pin_error ws pin) (ensure o ws (commit pin))). intros loaded Hv [= <- <-].
    split; [|done]. destruct Hm as [H1 H2 H3]. split; [done..|]. cbn [m_pin_values]. intros ws' c' r'.
    rewrite lookup_insert_Some. intros [[[= <- <-] <-]|[_ Hr]]; [done|by apply H3].
Qed.

Lemma extend_values_spec o pins values memo memo' r :
  memo_ok o memo → extend_values o pins values memo = (memo', r) →
  memo_ok o memo' ∧
  match r with
  | Ok vs => (∀ v, v ∈ values → v ∈ vs) ∧
      (∀ x, x ∈ pins → ∃ pvs, ensure o x.1 (commit x.2) = Ok pvs ∧ ∀ v, v ∈ pvs → v ∈ vs) ∧
      (∀ v, v ∈ vs → v ∈ values ∨ ∃ x pvs, ensure o x.1 (commit x.2) = Ok pvs ∧ v ∈ pvs)
  | Err e => ∃ x pe, x ∈ pins ∧ ensure o x.1 (commit x.2) = Err pe ∧ transient e = is_transient pe
  end.
Proof.
  revert values memo. induction pins as [|x pins IH]; intros values memo Hm; simpl.
  { intros [= <- <-]. split_and!; [done|done|by intros ? ?%elem_of_nil|auto]. }
  destruct (pin_values o memo x) as [m pr] eqn:Ep. destruct (pin_values_spec _ _ _ _ _ Hm Ep) as [Hm1 Hv].
  destruct pr as [vs|e].
  - destruct (ensure o x.1 (commit x.2)) as [pvs|] eqn:Ee; [subst pvs|done]. intros E. destruct (IH _ _ Hm1 E) as [Hm2 Hr].
    split; [done|]. destruct r as [vs'|e']; [|destruct Hr as (y & pe & Hy & ?); exists y, pe; split; [by right|done]].
    destruct Hr as (H1 & H2 & H3). setoid_rewrite elem_of_app in H1. setoid_rewrite elem_of_app in H3. split_and!; [auto| |].
    + intros y [->|Hy]%elem_of_cons; [exists vs; auto|auto].
    + intros v Hv. destruct (H3 v Hv) as [[?|?]|?]; [auto|right; eauto|auto].
  - intros [= <- <-]. split; [done|]. destruct (ensure o x.1 (commit x.2)) as [|pe] eqn:Ee; [done|].
    exists x, pe. split_and!; [left|done..].
Qed.

(** The outlet's decision: transient failures are errors; a closure that was
    cut or a pin that can never load masks everything; otherwise the values of
    every pin of the closure are masked. *)
Lemma job_redaction_spec o job_id job steps memo memo' r :
  memo_ok o memo → job_redaction_memo o job_id job steps memo = (memo', r) →
  memo_ok o memo' ∧
  match r with
  | Err e => transient e = true
  | Ok MaskAll => True
  | Ok (Values vs) =>
      (∀ v, v ∈ live_values o → v ∈ vs) ∧
      (∀ k pin, closure_job (o_db o) job_id k → pin ∈ pins_of (o_db o) k →
        ∃ pvs, ensure o pin.1 (commit pin.2) = Ok pvs ∧ ∀ v, v ∈ pvs → v ∈ vs) ∧
      (∀ v, v ∈ vs → v ∈ live_values o ∨ ∃ x pvs, ensure o x.1 (commit x.2) = Ok pvs ∧ v ∈ pvs)
  end.
Proof.
  intros Hm. unfold job_redaction_memo, job_redaction_values_memo.
  destruct (closure_pins o job_id job steps memo) as [m1 [pins|e]] eqn:Ec;
    destruct (closure_pins_spec _ _ _ _ _ _ _ Hm Ec) as [Hm1 Hp].
  - destruct (extend_values o pins (live_values o) m1) as [m2 r2] eqn:Ee. intros [= <- <-].
    destruct (extend_values_spec _ _ _ _ _ _ Hm1 Ee) as [Hm2 Hr]. split; [done|].
    destruct r2 as [vs|e]; simpl; [|by destruct (transient e) eqn:Et].
    destruct Hr as (H1 & H2 & H3). split_and!; [done| |done]. intros k pin Hk Hpin.
    destruct (Hp k pin Hk Hpin) as (y & Hy & E1 & E2). destruct (H2 y Hy) as (pvs & Ev & Hsub). rewrite E1, E2 in Ev. eauto.
  - intros [= <- <-]. split; [done|]. simpl. by destruct (transient e) eqn:Et.
Qed.

Context (to_string : Bytes → option Bytes) (debug : Bytes → Bytes).

(** The secrets a job's content may hold, among the strings redaction
    collects, those longer than three bytes: a string of a secret or of a
    secret connection property of the live workspaces, or of the workspaces as
    a pin of the job's closure loads them. *)
Definition known_secret (o : Outlet) (job_id : Uuid) (secret : string) : Prop :=
  (3 < String.length secret)%nat ∧
  (secret_string (live_set o) secret ∨
   ∃ k pin set, closure_job (o_db o) job_id k ∧ pin ∈ pins_of (o_db o) k ∧
     load_pin o pin.1 (commit pin.2) = Ok set ∧ secret_string set secret).

Lemma elem_of_live o s : s ∈ live_values o ↔ (3 < String.length s)%nat ∧ secret_string (live_set o) s.
Proof. apply elem_of_redaction_values. Qed.

Lemma ensure_ok o ws c vs :
  ensure o ws c = Ok vs → ∃ set, load_pin o ws c = Ok set ∧ vs = collect_redaction_values set.
Proof. unfold ensure. destruct (load_pin o ws c) as [set|]; [|done]. intros [= <-]. eauto. Qed.

End outlet.
