(* ===== verification/Witnesses.v ===== *)
(** * Concrete runs

    A small job (fetch, a loop over two items, a report) on a concrete
    database, with a template engine that returns its text unchanged and a
    JSON parser for the one literal the flow uses. Each theorem with
    hypotheses is applied to it, so its hypotheses can hold together. *)
From S2P Require Import Prelude Json Text Template JobModel DependsOn Gate Workflow Dag Db StepRepo StepRepoProps JobRepo JobRepoProps Cascade CascadeRows CascadeProps CascadeSpec CascadeLive CascadeApply Settle Retry Terminal Settlement CancelProps Restart Acl Duration.

Transparent update_step update_job_steps update_job.
#[local] Open Scope Z_scope.

(** ** The sample *)

#[local] Instance echo_engine : TemplateEngine := {| render_template t _ := Ok t |}.

Definition items_literal : string := "[1,2]".
Definition one_two : list json := [JNumber (PosInt 1); JNumber (PosInt 2)].
#[local] Instance literal_parser : JsonParser :=
  λ s, if s ==? items_literal then Ok (JArray one_two) else Err (mkJsonError "Syntax" 1 0).
#[local] Instance byte_collation : Collation := str_leb.

Definition sample_ctx (job : JobRow) (rows : list JobStepRow) : option json := Some (JObject []).

Definition sample_flow : gmap string FlowStep :=
  {[ "fetch" := plain_step [];
     "each" := flow_step "work" [Name "fetch"] false None (Some (JArray one_two)) true None None;
     "report" := plain_step [Step "each" AcceptAny] ]}.
Definition sample_task : TaskDef := bare_task "distributed" sample_flow None.

Definition sample_row (name status : string) (expr : option string) : JobStepRow :=
  mkJobStepRow 1%N name "work" "script" None None None None status None None None None
    "script" (strings_to_json ["linux"]) "local" None None expr None None None None None None 0%Z (Some 2%Z) None None
    false (JArray []) None None None false None None None None None 0%Z None.
Definition sample_rec (r : JobStepRow) : StepRec := mkStepRec r (Some 0%Z) None None.

Definition sample_job (status : string) : JobRec :=
  mkJobRec (mkJobRow 1%N "default" "deploy" "distributed" None None status "api" None None (Some "c0ffee") 0%Z None None None
    None None None None None 0%Z (Some 1%Z) None None None None (Some "main") None) None.

Definition fetch_done : JobStepRow := set_output (Some (JString "data")) (sample_row "fetch" "completed" None).
Definition each_pending : JobStepRow := sample_row "each" "pending" (Some items_literal).
Definition report_pending : JobStepRow := sample_row "report" "pending" None.

Definition steps_db (status : string) (rows : list JobStepRow) : Db :=
  mkDb {[ 1%N := sample_job status ]}
       (list_to_map ((λ r, ((1%N, js_step_name r), sample_rec r)) <$> rows))
       {[ 7%N := mkWorkerRec "w7" (strings_to_json ["script"]) (strings_to_json ["linux"; "gpu"]) false None 0%Z "active" None ]}
       [mkRefPinRec 1%N "default" "main" "abc"].
Definition sample_db : Db := steps_db "running" [fetch_done; each_pending; report_pending].

(** ** Shapes that hold by computation *)

Lemma instance_name_bracket p i : "["%char ∈ bytes (instance_name p i).
Proof. unfold instance_name. rewrite !bytes_app. simpl. apply elem_of_app. right. left. Qed.

Lemma flow_names_plain task :
  forallb (λ n, negb (bool_decide ("["%char ∈ bytes n))) (map_to_list (flow task)).*1 = true → flow_names_ok task.
Proof.
  intros Hall p i. destruct (flow task !! instance_name p i) as [fs|] eqn:E; [|done].
  rewrite forallb_Forall', Forall_forall in Hall.
  assert (Hin : instance_name p i ∈ (map_to_list (flow task)).*1).
  { apply list_elem_of_fmap. exists (instance_name p i, fs). by rewrite elem_of_map_to_list. }
  apply Hall, negb_true_iff, bool_decide_eq_false in Hin. destruct Hin. apply instance_name_bracket.
Qed.

Lemma wf_rows_plain rows :
  NoDup (names rows) → forallb (λ r, (js_loop_source r ==? None) &&
    negb (bool_decide ("["%char ∈ bytes (js_step_name r)))) rows = true → wf_rows rows.
Proof.
  intros Hnd Hall. rewrite forallb_Forall', Forall_forall in Hall.
  assert (H : ∀ r, r ∈ rows → js_loop_source r = None ∧ "["%char ∉ bytes (js_step_name r)).
  { intros r Hr. specialize (Hall r Hr). rewrite andb_true_iff, negb_true_iff, bool_decide_eq_true, bool_decide_eq_false in Hall.
    done. }
  split; [done| | |].
  - intros r p Hr E. destruct (H r Hr) as [E' _]. congruence.
  - intros r p i Hr E. destruct (H r Hr) as [_ []]. rewrite E. apply instance_name_bracket.
  - intros p i j _ (r & E & Hr)%list_elem_of_fmap. destruct (H r Hr) as [_ []]. rewrite <-E. apply instance_name_bracket.
Qed.

Lemma sample_rows : get_steps_for_job 1%N sample_db = [each_pending; fetch_done; report_pending].
Proof. vm_compute. reflexivity. Qed.

Lemma sample_wf : wf_rows (get_steps_for_job 1%N sample_db).
Proof.
  apply wf_rows_plain; [|vm_compute; reflexivity]. rewrite sample_rows.
  apply (bool_decide_eq_true_1 (NoDup (names [each_pending; fetch_done; report_pending]))). vm_compute. reflexivity.
Qed.

Lemma sample_names : flow_names_ok sample_task.
Proof. apply flow_names_plain. vm_compute. reflexivity. Qed.

(** Rows whose key columns are their keys. *)
Lemma steps_db_wf status rows :
  Forall (λ r, js_job_id r = 1%N ∧ ∃ ts, js_required_tags r = strings_to_json ts) rows →
  steps_wf (steps_db status rows).
Proof.
  intros Hall k r. unfold steps_db. simpl. intros Hk%elem_of_list_to_map_2.
  apply list_elem_of_fmap in Hk as (row & [= -> ->] & Hin). rewrite Forall_forall in Hall.
  destruct (Hall row Hin) as [Hj Ht]. done.
Qed.

Lemma sample_db_wf : steps_wf sample_db.
Proof. apply steps_db_wf. repeat constructor; simpl; by exists ["linux"]. Qed.

(** ** The repositories *)

Definition no_time (t : Time) : string := "".

Lemma step_terminal_final_witness :
  let db1 := exec no_time 10 10 1%N OpCancelPending sample_db in
  let db2 := exec no_time 20 20 1%N (OpFailOrRetry "each" "boom" [] (λ _, 0%Z) None) db1 in
  let db3 := exec no_time 30 30 1%N (OpPromote ["fetch"; "each"]) db2 in
  ∃ r', db_step db3 !! (1%N, "fetch") = Some r' ∧ verdict r' = verdict (sample_rec fetch_done).
Proof.
  apply (step_terminal_final no_time sample_db _ (1%N, "fetch") (sample_rec fetch_done)).
  - eapply rtc_l; [apply spares_live, (live_exec no_time 10 10 1%N OpCancelPending); reflexivity|].
    eapply rtc_l; [apply (spares_named no_time _ 20 20 1%N (OpFailOrRetry "each" "boom" [] (λ _, 0%Z) None) "each"); [reflexivity|discriminate]|].
    eapply rtc_l; [apply spares_live, (live_exec no_time 30 30 1%N (OpPromote ["fetch"; "each"])); reflexivity|]. apply rtc_refl.
  - vm_compute. reflexivity.
  - reflexivity.
Defined.

(** A seed over the finished step, and an unconditional failure of another. *)
Definition fetch_seed : Seed := mkSeed "fetch" "completed" (Some (JString "old")) None None.
Definition seeded_db : Db := default sample_db (res_ok (seed_steps_tx 10 1%N [fetch_seed] sample_db)).

Lemma step_rows_well_typed_witness :
  rows_typed (exec no_time 20 20 1%N (OpMarkFailed "each" "e") seeded_db) ∧
  is_Some (db_step (exec no_time 20 20 1%N (OpMarkFailed "each" "e") seeded_db) !! (1%N, "report")).
Proof.
  destruct (step_rows_well_typed no_time sample_db (exec no_time 20 20 1%N (OpMarkFailed "each" "e") seeded_db)) as [Ht Hk].
  - eapply rtc_l; [apply (any_seed no_time 10 1%N [fetch_seed] sample_db seeded_db)|apply rtc_once, any_exec].
    + repeat constructor. by eexists.
    + vm_compute. reflexivity.
  - intros k r Hr. destruct (sample_db_wf k r Hr) as (E1 & E2 & _). split; [exact E1|]. split; [exact E2|].
    unfold sample_db, steps_db in Hr. cbn [db_step] in Hr. apply elem_of_list_to_map_2 in Hr.
    repeat (apply elem_of_cons in Hr as [[= -> ->]|Hr]; [by eexists|]). by apply elem_of_nil in Hr.
  - split; [exact Ht|]. apply Hk. vm_compute. by eexists.
Defined.

(** One ready step. *)
Definition build_ready : JobStepRow := sample_row "build" "ready" None.
Definition ready_db : Db := steps_db "running" [build_ready].

Lemma ready_db_wf : steps_wf ready_db.
Proof. apply steps_db_wf. repeat constructor; simpl; by exists ["linux"]. Qed.

Lemma claim_ready_step_sound_witness :
  let res := claim_ready_step 50 (λ _, false) ["script"] ["linux"; "gpu"] false 7%N ready_db in
  ∃ row, res.2 = Some row ∧ js_status row = "running" ∧ js_worker_id row = Some 7%N ∧
  ∃ k r, db_step ready_db !! k = Some r ∧ Claimable 50 ["script"] ["linux"; "gpu"] false r ∧
    ∀ now' locked' caps' tags' ex', k ∉ claim_candidates now' locked' caps' tags' ex' res.1.
Proof.
  intros res. destruct res as [db' o] eqn:E.
  pose proof (claim_ready_step_sound 50 (λ _, false) ["script"] ["linux"; "gpu"] false 7%N ready_db db' o
                ready_db_wf E) as H.
  destruct o as [row|]; [|exfalso; apply (f_equal snd) in E; vm_compute in E; discriminate E].
  destruct H as (k & r & Hr & _ & Hc & -> & _ & Hno). exists (sr_row (claim_row 50 7%N r)).
  split; [reflexivity|]. split; [reflexivity|]. split; [reflexivity|]. exists k, r. auto.
Defined.

(** The same step, and only a worker without its tag. *)
Definition unmatched_db : Db :=
  mkDb (db_job ready_db) (db_step ready_db)
    {[ 8%N := mkWorkerRec "w8" (strings_to_json ["script"]) (strings_to_json ["windows"]) false None 0%Z "active" None ]} [].

Lemma unmatched_sweep_mirrors_claim_witness :
  mkStale 1%N "build" None None ∈ get_unmatched_ready_steps 1000 30 unmatched_db ∧
  ∀ i w caps tags, db_worker unmatched_db !! i = Some w → w_status w = "active" →
    w_capabilities w = strings_to_json caps → w_tags w = strings_to_json tags →
    ∀ now', (1%N, "build") ∉ claim_candidates now' (λ _, false) caps tags (w_exclusive w) unmatched_db.
Proof.
  assert (Hin : mkStale 1%N "build" None None ∈ get_unmatched_ready_steps 1000 30 unmatched_db)
    by (vm_compute; left).
  split; [exact Hin|].
  apply (unmatched_sweep_mirrors_claim 1000 30 unmatched_db 1%N "build") in Hin.
  - destruct Hin as (r & t & _ & _ & _ & _ & _ & _ & Hno). exact Hno.
  - exact ready_db_wf.
  - intros i w Hw. unfold unmatched_db in Hw. simpl in Hw. apply lookup_singleton_Some in Hw as [_ <-].
    by exists ["script"], ["windows"].
Defined.

(** A claimed step. *)
Definition claimed_row : JobStepRow :=
  set_started_at (Some 5%Z) (set_worker_id (Some 7%N) (sample_row "build" "running" None)).

Lemma release_claim_correct_witness :
  ∃ db' r', release_claim 50 1%N "build" (mkClaim 7%N 5) 30 3 (steps_db "running" [claimed_row]) = Ok (db', Released) ∧
    db_step db' !! (1%N, "build") = Some r' ∧ released 50 30 (sample_rec claimed_row) r' ∧
    release_claim 60 1%N "build" (mkClaim 7%N 5) 30 3 db' = Ok (db', ReleaseNotApplied).
Proof.
  pose proof (release_claim_correct 50 1%N "build" (mkClaim 7%N 5) 30 3 (steps_db "running" [claimed_row])
    (sample_job "running") (sample_rec claimed_row)) as H.
  change (status_is "running" (sample_rec claimed_row) && claim_is (mkClaim 7%N 5) (sr_row (sample_rec claimed_row)))
    with true in H.
  destruct H as [(Hdead & _)|[(_ & Hcap & _)|(_ & _ & db' & r' & E & Hr & Hrel & Hno)]];
    [vm_compute; reflexivity|vm_compute; reflexivity|split; vm_compute; discriminate|split; vm_compute; discriminate
    |vm_compute; discriminate|vm_compute; reflexivity|exfalso; apply Hdead; right; reflexivity|discriminate Hcap|].
  exists db', r'. rewrite Hr. split; [exact E|]. split; [apply lookup_insert_eq|]. split; [exact Hrel|apply Hno].
Defined.

Definition deferred_ready : JobStepRow := set_action_type "deferred" (sample_row "build" "ready" None).

Lemma resolve_lease_exclusive_witness :
  let db1 := (take_resolve_lease 100 1%N "build" 40%N 60 (steps_db "running" [deferred_ready])).1 in
  let ops := [(110%Z, LTake 41%N 60%Z); (120%Z, LFail 42%N "late")] in
  lease_run 1%N "build" ops db1 = db1.
Proof.
  intros db1 ops.
  apply (resolve_lease_exclusive 100 1%N "build" 40%N 60 (steps_db "running" [deferred_ready]) db1 ops).
  - rewrite (surjective_pairing (take_resolve_lease _ _ _ _ _ _)). f_equal.
  - repeat constructor; simpl; done || lia.
Defined.

Lemma job_ends_once_witness :
  let es := [(20, ECancel); (30, ESettle JobFailed None)] in
  let out := end_all 1%N ((10, ESettle JobCompleted (Some JNull)) :: es) sample_db in
  out.2 = [true; false; false] ∧ ∃ r', db_job out.1 !! 1%N = Some r' ∧ job_verdict r' = ("completed", Some JNull, Some 10).
Proof.
  apply (job_ends_once 1%N 10 (ESettle JobCompleted (Some JNull)) [(20, ECancel); (30, ESettle JobFailed None)]
           sample_db (sample_job "running")).
  - vm_compute. reflexivity.
  - right. left.
  - simpl. intros Hin. repeat (apply elem_of_cons in Hin as [Hin|Hin]; [discriminate Hin|]). by apply elem_of_nil in Hin.
Defined.

Lemma keep_sets_cover_witness :
  ("default", "c0ffee") ∈ tarball_keep_revisions 0 sample_db ∧ ("default", "c0ffee") ∈ pin_keep_set 0 sample_db ∧
  ("default", "abc") ∈ pin_keep_set 0 sample_db.
Proof.
  destruct (keep_sets_cover 0 sample_db (1%N, "each") (sample_rec each_pending) (sample_job "running"))
    as (H1 & H2 & _ & _ & H5 & _).
  - vm_compute. reflexivity.
  - vm_compute. reflexivity.
  - right. left.
  - split; [apply H1; reflexivity|]. split; [apply (H2 "c0ffee"); [discriminate|reflexivity]|].
    apply (H5 (mkRefPinRec 1%N "default" "main" "abc")); [left|reflexivity].
Defined.

(** ** The cascade *)

(** The plan of the sample: the loop starts, its first instance ready. *)
Definition sample_result := fixpoint sample_task 1%N (get_steps_for_job 1%N sample_db) (sample_ctx (jr_row (sample_job "running"))).
Definition sample_snap : Snapshot := match sample_result with Some (s, _, _) => s | None => Snapshot.new [] end.
Definition sample_plan : list Change := match sample_result with Some (_, cs, _) => cs | None => [] end.

Lemma sample_fixpoint :
  fixpoint sample_task 1%N (get_steps_for_job 1%N sample_db) (sample_ctx (jr_row (sample_job "running"))) =
  Some (sample_snap, sample_plan, false).
Proof.
  destruct (fixpoint_spec sample_task (sample_ctx (jr_row (sample_job "running"))) 1%N _ sample_wf)
    as (snap & cs & E & _). unfold sample_snap, sample_plan, sample_result. by rewrite E.
Qed.

Lemma sample_run :
  run sample_task 1%N (get_steps_for_job 1%N sample_db) (sample_ctx (jr_row (sample_job "running"))) None =
  Some (map (scrub None) sample_plan).
Proof. unfold run. by rewrite sample_fixpoint. Qed.

Lemma sample_plan_shape : (λ c, (change_target c, nj_step_name <$> change_instances c)) <$> sample_plan =
  [("each", ["each[0]"; "each[1]"])].
Proof. vm_compute. reflexivity. Qed.

Lemma cascade_terminates_witness :
  ∃ snap cs, fixpoint sample_task 1%N (get_steps_for_job 1%N sample_db) (sample_ctx (jr_row (sample_job "running"))) =
             Some (snap, cs, false) ∧ valid_seq (get_steps_for_job 1%N sample_db) cs ∧ wf_rows (sn_rows snap).
Proof.
  destruct (cascade_terminates sample_task (sample_ctx (jr_row (sample_job "running"))) 1%N
              (get_steps_for_job 1%N sample_db) None sample_wf) as (snap & cs & E & _ & V & _ & W & _).
  exists snap, cs. auto.
Defined.

Lemma cascade_idempotent_witness :
  fixpoint sample_task 1%N (sn_rows sample_snap) (sample_ctx (jr_row (sample_job "running"))) = Some (sample_snap, [], false).
Proof.
  apply (cascade_idempotent sample_task (sample_ctx (jr_row (sample_job "running"))) 1%N
           (get_steps_for_job 1%N sample_db) sample_snap sample_plan false sample_wf sample_fixpoint).
Defined.

Lemma cascade_decisions_correct_witness :
  Forall (decision_ok sample_task (Snapshot.outcome sample_snap)) sample_plan.
Proof.
  apply (cascade_decisions_correct sample_task (sample_ctx (jr_row (sample_job "running"))) 1%N
           (get_steps_for_job 1%N sample_db) sample_snap sample_plan false sample_wf sample_names sample_fixpoint).
Defined.

Lemma cascade_frame_witness : fetch_done ∈ sn_rows sample_snap.
Proof.
  apply (cascade_frame sample_task (sample_ctx (jr_row (sample_job "running"))) 1%N
           (get_steps_for_job 1%N sample_db) sample_snap sample_plan false sample_wf sample_fixpoint).
  - rewrite sample_rows. right. left.
  - discriminate.
  - intros [E _]. discriminate E.
Defined.

(** The loop after its two instances ran, the second one failed. *)
Definition inst (i : Z) (name status : string) (out : option json) : JobStepRow :=
  mkJobStepRow 1%N name "work" "script" None None None out status None None None None
    "script" (strings_to_json ["linux"]) "local" None None None (Some "each") (Some i) (Some 2) None None None 0%Z (Some 2%Z)
    None None false (JArray []) None None None false None None None None None 0%Z None.
Definition loop_rows : list JobStepRow :=
  [sample_row "each" "running" (Some items_literal);
   inst 0 "each[0]" "completed" (Some (JString "ok")); inst 1 "each[1]" "failed" None].

Lemma loop_rows_names r : r ∈ loop_rows → ∀ p i, js_step_name r = instance_name p i → js_loop_source r = Some p.
Proof.
  intros Hr p i E. assert (E0 : "each[0]" = instance_name "each" 0) by (vm_compute; reflexivity).
  assert (E1 : "each[1]" = instance_name "each" 1) by (vm_compute; reflexivity).
  repeat (apply elem_of_cons in Hr as [->|Hr]); simpl in *; [| | |by apply elem_of_nil in Hr].
  - exfalso. assert (Hin : "["%char ∈ bytes "each") by (rewrite E; apply instance_name_bracket).
    vm_compute in Hin. repeat (apply elem_of_cons in Hin as [Hin|Hin]; [discriminate Hin|]). by apply elem_of_nil in Hin.
  - rewrite E0 in E. by apply instance_name_inj in E as [<- _].
  - rewrite E1 in E. by apply instance_name_inj in E as [<- _].
Qed.

Lemma loop_rows_wf : wf_rows loop_rows.
Proof.
  split.
  - apply (bool_decide_eq_true_1 (NoDup (names loop_rows))). vm_compute. reflexivity.
  - intros r p Hr E. repeat (apply elem_of_cons in Hr as [->|Hr]); simpl in *; [done| | |by apply elem_of_nil in Hr];
      simplify_eq; [exists 0%nat|exists 1%nat]; (split; [vm_compute; reflexivity|done]).
  - intros r p i Hr E. by eapply loop_rows_names.
  - intros p i j Hij (r & E & Hr)%list_elem_of_fmap. pose proof (loop_rows_names r Hr p i (eq_sym E)) as Hs.
    assert (E0 : "each[0]" = instance_name "each" 0) by (vm_compute; reflexivity).
    assert (E1 : "each[1]" = instance_name "each" 1) by (vm_compute; reflexivity).
    repeat (apply elem_of_cons in Hr as [->|Hr]); simpl in *; [done| | |by apply elem_of_nil in Hr]; simplify_eq.
    + rewrite E0 in E. apply instance_name_inj in E as [_ ->]. assert (j = 0)%nat as -> by lia.
      rewrite <-E0. right. left.
    + rewrite E1 in E. apply instance_name_inj in E as [_ ->].
      assert (j = 0 ∨ j = 1)%nat as [-> | ->] by lia; [rewrite <-E0; right; left|rewrite <-E1; right; right; left].
Qed.

Lemma rollup_reports_instances_witness :
  ∃ r, r ∈ loop_instances loop_rows "each" ∧ js_status r = "failed" ∧
    rollup_change "each" (loop_instances loop_rows "each") =
      [Rollup "each" (RollupFailed "for_each loop failed: instances [1] failed" (JArray [JString "ok"; JNull]))].
Proof.
  destruct (rollup_reports_instances loop_rows "each"
    (RollupFailed "for_each loop failed: instances [1] failed" (JArray [JString "ok"; JNull])) loop_rows_wf)
    as (_ & _ & _ & [[E _]|(r & Hr & Hs & _)]).
  - vm_compute. reflexivity.
  - discriminate E.
  - exists r. split; [exact Hr|]. split; [exact Hs|]. vm_compute. reflexivity.
Defined.

Lemma sample_job_rows : job_rows sample_task (get_steps_for_job 1%N sample_db).
Proof.
  split; [exact sample_wf|..]; rewrite sample_rows.
  - split; intros r; [intros Hr Hpl Hst|intros p Hr E Hst]; exfalso;
      repeat (apply elem_of_cons in Hr as [->|Hr]; [done|]); by apply elem_of_nil in Hr.
  - intros r Hr. repeat (apply elem_of_cons in Hr as [->|Hr]; [by eexists|]). by apply elem_of_nil in Hr.
  - intros n fs Hn. assert (Hin : n ∈ (map_to_list sample_flow).*1).
    { apply list_elem_of_fmap. exists (n, fs). by rewrite elem_of_map_to_list. }
    assert (Hl : Forall (λ n, n ∈ ["each"; "fetch"; "report"]) (map_to_list sample_flow).*1).
    { apply (bool_decide_eq_true_1 (Forall (λ n, n ∈ ["each"; "fetch"; "report"]) (map_to_list sample_flow).*1)).
      vm_compute. reflexivity. }
    rewrite Forall_forall in Hl. exact (Hl n Hin).
  - intros r Hr _. repeat (apply elem_of_cons in Hr as [->|Hr]; [by eexists|]). by apply elem_of_nil in Hr.
Qed.

Definition sample_order : list string := match validate_dag sample_flow with Ok o => o | Err _ => [] end.
Lemma sample_dag : validate_dag (flow sample_task) = Ok sample_order.
Proof. vm_compute. reflexivity. Qed.

Lemma cascade_never_stalls_witness : ∃ r, r ∈ sn_rows sample_snap ∧ live r.
Proof.
  destruct (cascade_never_stalls sample_task (sample_ctx (jr_row (sample_job "running"))) 1%N
    (get_steps_for_job 1%N sample_db) sample_snap sample_plan false sample_order
    sample_job_rows sample_names sample_dag) as [_ [Hl|Hall]].
  - intros rows. by eexists.
  - exact sample_fixpoint.
  - exact Hl.
  - exfalso. assert (Hin : report_pending ∈ sn_rows sample_snap) by (vm_compute; repeat constructor).
    specialize (Hall _ Hin). discriminate Hall.
Defined.

Lemma sample_fits : Forall fits sample_plan.
Proof.
  unfold sample_plan, fits, cols_per_row, MAX_BIND_PARAMS.
  apply (bool_decide_eq_true_1 (Forall (λ c, (30 * length (change_instances c) ≤ Z.to_nat 65535)%nat) sample_plan)).
  vm_compute. reflexivity.
Qed.

Lemma cascade_apply_refines_witness :
  ∃ db' a, apply 100 1%N (map (scrub None) sample_plan) sample_db = Ok (db', a) ∧ rows_match db' 1%N (sn_rows sample_snap).
Proof.
  destruct (cascade_apply_refines 100 sample_task (sample_ctx (jr_row (sample_job "running"))) None sample_db 1%N
    (sample_job "running") sample_snap sample_plan false sample_db_wf) as (_ & Hok & _).
  - vm_compute. reflexivity.
  - exact sample_wf.
  - exact sample_fixpoint.
  - destruct (Hok sample_fits) as (db' & a & E & Hm & _). exists db', a. auto.
Defined.

Lemma plan_inj {A B C} (a a' : A) (b b' : B) (c c' : C) : Some (a, b, c) = Some (a', b', c') → b = b'.
Proof. by intros [= _ -> _]. Qed.

Lemma sample_readable k : readable 1%N sample_task sample_ctx (λ _, sample_db) k.
Proof.
  split; [exact sample_db_wf|]. split; [exact sample_wf|]. exists (sample_job "running").
  split; [vm_compute; reflexivity|]. split; [reflexivity|]. intros snap cs hit E.
  rewrite (plan_inj _ _ _ _ _ _ (eq_trans (eq_sym E) sample_fixpoint)). exact sample_fits.
Qed.

(** The first attempt finds the job's rows gone, the second runs undisturbed. *)
Definition empty_db : Db := steps_db "running" [].

Lemma cascade_execute_succeeds_witness :
  let found (k : nat) := if (k =? 1)%nat then empty_db else sample_db in
  ∃ res m, execute 100 1%N sample_task sample_ctx None (λ _, sample_db) found (λ _, false) = Ok res ∧
    (1 ≤ m ≤ 2)%nat ∧ committed 100 1%N sample_task sample_ctx None (λ _, sample_db) found m res.
Proof.
  intros found. apply (cascade_execute_succeeds 100 1%N sample_task sample_ctx None (λ _, sample_db) found (λ _, false) 2).
  - unfold MAX_ATTEMPTS. lia.
  - reflexivity.
  - reflexivity.
  - intros m _. apply sample_readable.
  - intros m jb plan e Hm E. assert (m = 1)%nat as -> by lia.
    assert (plan = map (scrub None) sample_plan) as ->.
    { change (sample_ctx jb) with (sample_ctx (jr_row (sample_job "running"))) in E.
      rewrite sample_run in E. exact (eq_sym (inj Some _ _ E)). }
    vm_compute. discriminate.
Defined.

(** A loop over 2185 items. *)
Section long_loop.
#[local] Instance many_parser : JsonParser :=
  λ s, if s ==? "many" then Ok (JArray (replicate (Z.to_nat 2185) JNull)) else Err (mkJsonError "Syntax" 1 0).

Definition long_task : TaskDef :=
  bare_task "distributed" {[ "each" := flow_step "work" [] false None (Some (JString "many")) false None None ]} None.
Definition long_db : Db := steps_db "running" [sample_row "each" "pending" (Some "many")].

Lemma long_wf : wf_rows (get_steps_for_job 1%N long_db).
Proof.
  apply wf_rows_plain; [|vm_compute; reflexivity].
  apply (bool_decide_eq_true_1 (NoDup (names (get_steps_for_job 1%N long_db)))). vm_compute. reflexivity.
Qed.

Definition expands_beyond (n : nat) (res : option (Snapshot * list Change * bool)) : bool :=
  match res with
  | Some (_, cs, _) => existsb (λ c, match c with Expand _ insts => (n <? length insts)%nat | _ => false end) cs
  | None => false
  end.

Lemma expands_beyond_elem n s cs h :
  expands_beyond n (Some (s, cs, h)) = true → ∃ p insts, Expand p insts ∈ cs ∧ (n < length insts)%nat.
Proof.
  intros (c & Hc & Hl)%existsb_exists'. destruct c as [| | |p insts| |]; try done. exists p, insts.
  split; [done|]. by apply Nat.ltb_lt.
Qed.

Lemma long_loop_never_starts_witness :
  ∃ e, execute 100 1%N long_task sample_ctx None (λ _, long_db) (λ _, long_db) (λ _, false) = Err e.
Proof.
  destruct (fixpoint_spec long_task (sample_ctx (jr_row (sample_job "running"))) 1%N _ long_wf) as (snap & cs & E & _).
  assert (Hb : expands_beyond 2184 (fixpoint long_task 1%N (get_steps_for_job 1%N long_db)
    (sample_ctx (jr_row (sample_job "running")))) = true) by (vm_compute; reflexivity).
  rewrite E in Hb. destruct (expands_beyond_elem _ _ _ _ Hb) as (p & insts & Hin & Hlen).
  apply (long_loop_never_starts 100 long_task sample_ctx None long_db 1%N (sample_job "running") snap cs false p insts).
  - vm_compute. reflexivity.
  - reflexivity.
  - exact E.
  - exact Hin.
  - exact Hlen.
Defined.
End long_loop.

(** ** Settlement *)

Definition done_rows : list JobStepRow :=
  [fetch_done; sample_row "each" "completed" (Some items_literal); inst 0 "each[0]" "failed" None;
   set_output (Some (JString "sent")) (sample_row "report" "completed" None)].
Definition tolerant_task : TaskDef :=
  bare_task "distributed"
    (<["each" := flow_step "work" [Name "fetch"] true None (Some (JArray one_two)) true None None]> sample_flow) None.

Lemma settlement_decision_correct_witness :
  decide_job tolerant_task done_rows = Some (mkSettled JobCompleted (Some (JObject [("report", JString "sent")]))) ∧
  ∀ s, s ∈ done_rows → js_status s = "failed" → excused tolerant_task s.
Proof.
  assert (E : decide_job tolerant_task done_rows =
              Some (mkSettled JobCompleted (Some (JObject [("report", JString "sent")])))) by (vm_compute; reflexivity).
  split; [exact E|].
  pose proof (settlement_decision_correct tolerant_task done_rows) as H. rewrite E in H.
  apply H. apply (bool_decide_eq_true_1 (NoDup (js_step_name <$> done_rows))). vm_compute. reflexivity.
Defined.

Lemma cascade_and_settle_progress_witness :
  ∃ db' job', cascade_and_settle 100 1%N sample_task sample_ctx None (λ _, sample_db) (λ _, sample_db) (λ _, false) id
      = Ok (db', None) ∧ db_job db' !! 1%N = Some job' ∧ jr_status job' ∈ ACTIVE ∧
    ∃ r, r ∈ get_steps_for_job 1%N db' ∧ live r.
Proof.
  destruct (cascade_and_settle_progress 100 sample_task sample_ctx None sample_db 1%N (sample_job "running") sample_order
    sample_snap sample_plan false sample_db_wf) as (Hok & _).
  - vm_compute. reflexivity.
  - reflexivity.
  - right. left.
  - exact sample_job_rows.
  - exact sample_names.
  - exact sample_dag.
  - intros job rows. by eexists.
  - exact sample_fixpoint.
  - destruct (Hok sample_fits) as (db' & res & E & _ & job' & Hj & Hres). destruct res as [st|].
    + exfalso. assert (Hn : match cascade_and_settle 100 1%N sample_task sample_ctx None (λ _, sample_db) (λ _, sample_db)
        (λ _, false) id with Ok (_, None) => true | _ => false end = true) by (vm_compute; reflexivity).
      rewrite E in Hn. discriminate Hn.
    + exists db', job'. split; [exact E|]. split; [exact Hj|]. exact Hres.
Defined.

(** ** Retries *)

Lemma retry_delay_bounded_witness :
  let step := set_retry_strategy (Some "exponential") (set_retry_backoff_secs (Some 10)
                (set_retry_attempt 3 (set_retry_jitter true (sample_row "b" "running" None)))) in
  (80 ≤ compute_retry_delay 12345 step ≤ 100)%Z ∧
  retry_instant 1000 (compute_retry_delay 12345 step) = Some (1000 + compute_retry_delay 12345 step * 1000000).
Proof.
  intros step. destruct (retry_delay_bounded 12345 step 1000) as (H1 & _ & H3).
  - vm_compute. split; discriminate.
  - vm_compute. split; discriminate.
  - vm_compute. split; discriminate.
  - split; [exact H1|exact H3].
Defined.

Definition sample_retry : RetryConfig := {| max_attempts := 3; delay := 10; backoff := Exponential; jitter := true |}.
Definition retry_start : JobStepRow :=
  set_retry_strategy (Some "exponential") (set_retry_backoff_secs (Some 10) (set_retry_jitter true
    (sample_row "build" "ready" None))).

Lemma retry_config_honoured_witness :
  ∃ delays db' r' hist,
    run_failures no_time (λ m, Z.of_nat (Nat.min m 10)) 1%N "build" "boom" 7%N
      (λ row, compute_retry_delay 99 row) 3 (steps_db "running" [retry_start]) =
    Some (db', [RetryScheduled 1 2 (delays 0%nat); RetryScheduled 2 2 (delays 1%nat); Failed 2 (Some 2)]) ∧
    (10 ≤ delays 0%nat ≤ 12)%Z ∧ (20 ≤ delays 1%nat ≤ 25)%Z ∧
    db_step db' !! (1%N, "build") = Some r' ∧ js_retry_history (sr_row r') = JArray hist ∧ length hist = 2%nat.
Proof.
  destruct (retry_config_honoured sample_retry "step" no_time (λ m, Z.of_nat (Nat.min m 10)) (λ _, 99) 1%N "build" "boom" 7%N
    (steps_db "running" [retry_start])) as (cols & Ec & H).
  - reflexivity.
  - vm_compute. discriminate.
  - vm_compute. discriminate.
  - intros m. unfold chrono_max_date, i32_max. lia.
  - intros a. split; vm_compute; discriminate.
  - destruct (H (sample_rec retry_start)) as (delays & db' & r' & hist & E & Hd & Hr & Hh & Hl).
    + vm_compute. reflexivity.
    + vm_compute in Ec. injection Ec as <-. split_and!; reflexivity.
    + exists delays, db', r', hist. split; [exact E|]. split; [exact (Hd 0%nat)|]. split; [exact (Hd 1%nat)|].
      split; [exact Hr|]. split; [exact Hh|exact Hl].
Defined.

(** ** Terminal handling *)

(** A codec that encodes no more of a conversation than its pending calls and
    results, enough for the round trip on conversations without messages. *)
(** A codec of the conversation, in the manner of the derived one. *)
Definition z_to_json (z : Z) : json := JNumber (if (0 <=? z)%Z then PosInt (Z.to_N z) else NegInt z).
Definition z_from_json (v : json) : option Z :=
  match v with JNumber (PosInt n) => Some (Z.of_N n) | JNumber (NegInt z) => Some z | _ => None end.

Definition call_to_json (c : PendingToolCall) : json :=
  JObject [("tool_call_id", JString (tool_call_id c)); ("tool_name", JString (tool_name c));
           ("child_job_id", JNumber (PosInt (child_job_id c)))].
Definition call_from_json (v : json) : option PendingToolCall :=
  match v with
  | JObject [(_, JString i); (_, JString n); (_, JNumber (PosInt j))] => Some (mkPendingToolCall i n j)
  | _ => None
  end.
Definition result_to_json (r : ResolvedToolResult) : json :=
  JObject [("tool_call_id", JString (result_tool_call_id r)); ("result_text", JString (result_text r))].
Definition result_from_json (v : json) : option ResolvedToolResult :=
  match v with JObject [(_, JString i); (_, JString t)] => Some (mkResolvedToolResult i t) | _ => None end.
Definition ask_to_json (a : option AskUserCall) : json :=
  match a with
  | None => JNull
  | Some c => JObject [("tool_call_id", JString (ask_tool_call_id c)); ("message", JString (ask_message c))]
  end.
Definition ask_from_json (v : json) : option (option AskUserCall) :=
  match v with
  | JNull => Some None
  | JObject [(_, JString i); (_, JString m)] => Some (Some (mkAskUserCall i m))
  | _ => None
  end.

#[local] Instance sample_codec : AgentCodec := {|
  conv_to_value c :=
    JObject [("messages", JArray (messages c)); ("turn", z_to_json (turn c));
             ("total_input_tokens", z_to_json (total_input_tokens c));
             ("total_output_tokens", z_to_json (total_output_tokens c));
             ("pending_tool_calls", JArray (call_to_json <$> pending_tool_calls c));
             ("suspended_for_ask_user", JBool (suspended_for_ask_user c));
             ("ask_user_call", ask_to_json (ask_user_call c));
             ("resolved_tool_results", JArray (result_to_json <$> resolved_tool_results c))];
  conv_from_value v :=
    match v with
    | JObject [(_, JArray ms); (_, t); (_, i); (_, o); (_, JArray cs); (_, JBool b); (_, a); (_, JArray rs)] =>
        t ← z_from_json t; i ← z_from_json i; o ← z_from_json o;
        cs ← mapM call_from_json cs; a ← ask_from_json a; rs ← mapM result_from_json rs;
        Some (mkConv ms t i o cs b a rs)
    | _ => None
    end;
  json_to_string v := json_type_name v;
|}.

Lemma z_json_roundtrip z : z_from_json (z_to_json z) = Some z.
Proof. unfold z_to_json. destruct (Z.leb_spec 0 z); simpl; [|done]. by rewrite Z2N.id. Qed.

Lemma mapM_fmap_inverse {A B} (f : A → B) (g : B → option A) l :
  (∀ x, g (f x) = Some x) → mapM g (f <$> l) = Some l.
Proof. intros Hg. apply mapM_Some. induction l; constructor; auto. Qed.

Lemma sample_codec_roundtrip c : conv_from_value (conv_to_value c) = Some c.
Proof.
  destruct c as [ms t i o cs b a rs]. cbn -[mapM fmap z_to_json z_from_json].
  rewrite !z_json_roundtrip. cbn -[mapM fmap].
  rewrite mapM_fmap_inverse by by intros []. cbn -[mapM fmap].
  destruct a as [[]|]; cbn -[mapM fmap]; by rewrite mapM_fmap_inverse by by intros [].
Qed.

Definition show_uuid (u : Uuid) : string := pretty u.
Definition failed_db : Db := steps_db "failed" [sample_row "build" "failed" None].
Definition refuse_env : AdvanceEnv :=
  mkAdvanceEnv 100 false false (Some sample_task) (λ _ _ _ _, Err "no creator") (λ _ st, st) (λ _ st, st) (λ _ _ st, st).
Definition failed_state : ServerState := mkServerState failed_db {[1%N]}.

Lemma terminal_handling_at_most_once_witness :
  (length (List.filter is_handled
     (run_events show_uuid 1%N [EAdvance refuse_env; EOther id; EAdvance refuse_env] failed_state).2) ≤ 1)%nat ∧
  is_handled (advance_terminal show_uuid refuse_env 1%N failed_state).2 = true.
Proof.
  split; [|vm_compute; reflexivity].
  apply (terminal_handling_at_most_once show_uuid 1%N [EAdvance refuse_env; EOther id; EAdvance refuse_env] failed_state).
  apply Forall_cons; split; [split; [intros root a pinned db db' i E; discriminate E|split; [intros i st Hc; exact Hc|split; [intros c st Hc; exact Hc|intros job k st Hc; exact Hc]]]|].
  apply Forall_cons; split; [intros st Hc; exact Hc|].
  apply Forall_cons; split; [split; [intros root a pinned db db' i E; discriminate E|split; [intros i st Hc; exact Hc|split; [intros c st Hc; exact Hc|intros job k st Hc; exact Hc]]]|]. apply Forall_nil; exact I.
Defined.

Lemma terminal_handling_complete_witness :
  advance_terminal show_uuid refuse_env 1%N failed_state =
    (env_actions refuse_env (jr_row (sample_job "failed")) HookError (claim_taken (env_now refuse_env) 1%N failed_state), Handled None (RanActions HookError)).
Proof.
  pose proof (terminal_handling_complete show_uuid refuse_env 1%N failed_state (sample_job "failed")
                eq_refl eq_refl eq_refl eq_refl eq_refl) as H. cbv zeta in H.
  assert (El : has_live_steps 1%N (st_db failed_state) = false) by (vm_compute; reflexivity).
  rewrite El in H. destruct H as [H _]. apply H. split; [reflexivity|]. split; [reflexivity|]. eexists. split; [reflexivity|]. vm_compute. reflexivity.
Defined.

(** An agent step waiting for two tool children. *)
Definition awaiting : AgentConversationState :=
  mkConv [JString "hello"] 1 10 20 [mkPendingToolCall "a" "deploy" 11%N; mkPendingToolCall "b" "test" 12%N] false None [].
Definition tool_child (i : Uuid) (status : string) : JobRow :=
  mkJobRow i "default" "tool" "distributed" None None status "agent_tool" None None None 0%Z None None None
    (Some 1%N) (Some "agent") None None None 0%Z None None None None None None None.
Definition agent_step_row : JobStepRow :=
  set_agent_state (Some (conv_to_value awaiting)) (set_worker_id (Some 7%N) (sample_row "agent" "running" None)).
Definition agent_db : Db := steps_db "running" [agent_step_row].


(** ** Settlement and cancellation *)

Definition sample_sv : Services :=
  mkServices 100 show_uuid (λ _, 0) no_time false false (λ _, ConfigMissing) (λ _ _, None) None
    (λ _ _ st, st) (λ _ _ st, st) (λ _ _ st, (st, true)) (λ _ _ st, st) (λ _ _ _ _, Err "no creator").

(** Ending a job starts a hook job. *)
Definition hook_id : Uuid := 99%N.
Definition hook_job : JobRec :=
  mkJobRec (mkJobRow hook_id "default" "_hook:notify" "distributed" None None "pending" "hook" None None None 0%Z None None None
    None None None None None 0%Z None None None None None None None) None.
Definition start_hook (st : ServerState) : ServerState :=
  match db_job (st_db st) !! hook_id with
  | Some _ => st
  | None => with_db (mkDb (<[hook_id := hook_job]> (db_job (st_db st))) (db_step (st_db st)) (db_worker (st_db st)) (db_ref_pin (st_db st))) st
  end.
Definition hooking_sv : Services :=
  mkServices 100 show_uuid (λ _, 0) no_time false false (λ _, ConfigMissing) (λ _ _, None) None
    (λ _ _ st, st) (λ _ _ st, st) (λ _ _ st, (st, true)) (λ _ _ st, start_hook st) (λ _ _ _ _, Err "no creator").

Lemma start_hook_outside T st : adds_outside T (st_db st) (st_db (start_hook st)).
Proof.
  unfold start_hook. destruct (db_job (st_db st) !! hook_id) as [r0|] eqn:E.
  - split; [done..|]. intros k r Hn Hr. congruence.
  - split; cbn [st_db with_db db_job db_step].
    + intros k r Hr. destruct (decide (k = hook_id)) as [->|Hk]; [rewrite E in Hr; discriminate Hr|]. rewrite lookup_insert_ne; done.
    + done.
    + intros k r Hn Hr. destruct (decide (k = hook_id)) as [->|Hk]; [|rewrite lookup_insert_ne in Hr by done; congruence].
      rewrite lookup_insert_eq in Hr. injection Hr as <-. split; [reflexivity|]. split; [by eexists|]. intros p Hp. discriminate Hp.
Qed.

(** A job whose agent step waits for a running tool child. *)
Definition asking : AgentConversationState :=
  mkConv [] 1 0 0 [mkPendingToolCall "a" "deploy" 11%N] false None [].
Definition asking_row : JobStepRow :=
  set_agent_state (Some (conv_to_value asking)) (set_worker_id (Some 7%N) (sample_row "agent" "running" None)).
Definition tree_db : Db :=
  mkDb {[ 1%N := sample_job "running"; 11%N := mkJobRec (tool_child 11%N "running") None ]}
    {[ (1%N, "agent") := sample_rec asking_row; (1%N, "later") := sample_rec (sample_row "later" "pending" None);
       (1%N, "next") := sample_rec (sample_row "next" "ready" None) ]} ∅ [].
Definition tree_state : ServerState := mkServerState tree_db ∅.

Lemma tree_jobs k r : db_job tree_db !! k = Some r → k = 1%N ∧ r = sample_job "running" ∨
  k = 11%N ∧ r = mkJobRec (tool_child 11%N "running") None.
Proof.
  unfold tree_db. cbn [db_job]. rewrite lookup_insert_Some, lookup_singleton_Some.
  intros [[<- <-]|[_ [<- <-]]]; [by left|by right].
Qed.

Lemma tree_wf : jobs_wf tree_db.
Proof. intros k r [[-> ->]|[-> ->]]%tree_jobs; (split; [reflexivity|by eexists]). Qed.

Lemma tree_child p c : child tree_db p c ↔ p = 1%N ∧ c = 11%N.
Proof.
  split.
  - intros (r & [[-> ->]|[-> ->]]%tree_jobs & Hp & _); [discriminate Hp|]. injection Hp as <-. done.
  - intros [-> ->]. eexists. split; [reflexivity|]. split; [reflexivity|]. right. left.
Qed.

Lemma cancel_stops_tree_witness :
  ∃ st', cancel hooking_sv (λ i s, (advance hooking_sv 3 i s).1) 2 1%N tree_state = Some (st', Cancelled) ∧
    stopped 100 (st_db st') 1%N ∧ stopped 100 (st_db st') 11%N.
Proof.
  destruct (cancel_stops_tree hooking_sv 3 2 1%N tree_state) as (st' & res & E & _ & Hm).
  - exact tree_wf.
  - intros r p [[_ ->]|[Hk _]]%tree_jobs Hp; [discriminate Hp|discriminate Hk].
  - intros c [_ ->]%tree_child d [Hd _]%tree_child. discriminate Hd.
  - intros job k s. apply start_hook_outside.
  - change (get 1%N (st_db tree_state)) with (Some (jr_row (sample_job "running"))) in Hm. cbv iota beta in Hm.
    change (is_active (jr_row (sample_job "running"))) with true in Hm. cbv iota in Hm.
    destruct Hm as [-> Hall]. exists st'. split; [exact E|]. split; apply Hall; [apply rtc_refl|].
    apply rtc_once. apply tree_child. split; reflexivity.
Defined.

(** Cancelling it puts the agent step back in the queue of the cancelled job. *)
Example cancelled_agent_step_released :
  (λ x : ServerState * CancelResult,
     (jr_status <$> db_job (st_db x.1) !! 1%N, sr_status <$> db_step (st_db x.1) !! (1%N, "agent"), x.2)) <$>
  cancel sample_sv (λ i s, (advance sample_sv 3 i s).1) 2 1%N tree_state =
  Some (Some "cancelled", Some "ready", Cancelled).
Proof. vm_compute. reflexivity. Qed.

(** A cancelled job with a running step that has a retry left. *)
Definition killed_row : JobStepRow := set_worker_id (Some 7%N) (sample_row "build" "running" None).
Definition killed_state : ServerState := mkServerState (steps_db "cancelled" [killed_row]) {[1%N]}.

Lemma ended_job_step_retried_witness :
  ∃ st' o l r', step_failed sample_sv 3 1%N "build" "exit -1" [] None killed_state = Some (st', o, l) ∧
    jr_status <$> db_job (st_db st') !! 1%N = Some "cancelled" ∧ db_step (st_db st') !! (1%N, "build") = Some r' ∧
    Claimable 30000100 ["script"] ["linux"] false r'.
Proof.
  destruct (ended_job_step_retried sample_sv 3 1%N "build" "exit -1" killed_state (sample_job "cancelled")
    (sample_rec killed_row) 2 30000100 ["script"] ["linux"] false) as (st' & o & l & r' & E & Hj & Hr & Hc).
  - reflexivity.
  - reflexivity.
  - reflexivity.
  - reflexivity.
  - reflexivity.
  - vm_compute. reflexivity.
  - split; [left|]. exists ["linux"]. split; [reflexivity|]. split; [intros x Hx; exact Hx|discriminate].
  - vm_compute. intros Hin. repeat (apply elem_of_cons in Hin as [Hin|Hin]; [discriminate Hin|]).
    by apply elem_of_nil in Hin.
  - exists st', o, l, r'. split; [exact E|]. split; [rewrite Hj; reflexivity|]. split; [exact Hr|exact Hc].
Defined.

(** ** Access control *)

Definition sample_acl : AclConfig :=
  mkAclConfig Deny [mkAclRule "*" ["deploy*"] View ["dev"] []; mkAclRule "default" ["*"] Run [] ["ops@example.com"]].

Lemma acl_strongest_rule_wins_witness :
  ∃ perm, evaluate (Some sample_acl) "default" "deploy" "ops@example.com" {["dev"]} false = Ok perm ∧ perm = Run.
Proof.
  assert (Ha : ∀ s, forallb (λ c, negb (is_cont c)) (bytes s) = true → ascii_only s).
  { intros s H c Hc. rewrite forallb_Forall', Forall_forall in H. by apply negb_true_iff, H. }
  destruct (acl_strongest_rule_wins (Some sample_acl) "default" "deploy" "ops@example.com" {["dev"]} false)
    as (perm & E & H); [apply Ha; reflexivity|apply Ha; reflexivity|].
  exists perm. split; [exact E|]. apply (proj1 H).
  exists (mkAclRule "default" ["*"] Run [] ["ops@example.com"]). split; [right; left|]. split; [reflexivity|].
  split; [|split].
  - change (Glob (bytes "default") (bytes "default")). repeat (apply glob_byte; [discriminate|]). apply glob_nil.
  - exists "*". split; [left|]. apply (glob_star [] (bytes "deploy") []), glob_nil.
  - left. left.
Defined.

Lemma glob_match_panics_outside_ascii_witness :
  glob_match "*a*" (of_bytes [ascii_of_N 195; ascii_of_N 169]) = Err Panic.
Proof.
  apply (glob_match_panics_outside_ascii (bytes "a") [ascii_of_N 195] (ascii_of_N 169) []).
  - intros [E|E%elem_of_nil]%elem_of_cons; [discriminate E|exact E].
  - reflexivity.
  - intros [|k] Hk; [intros [r E]; discriminate E|simpl in Hk; lia].
Defined.

Definition sample_live : LiveTasks := {[ ("default", "deploy") := None ]}.

Lemma job_scope_agrees_witness :
  ∃ scope, build_job_acl_scope (Some sample_acl) sample_live sample_db "ops@example.com" ∅ false = Ok (Some scope) ∧
    (in_scope scope (jr_row (sample_job "running")) = true ↔
     visible (Some sample_acl) "default" (job_task_path sample_live (jr_row (sample_job "running"))) "ops@example.com" ∅ ∧
     (j_git_ref (jr_row (sample_job "running")) = None → is_Some (sample_live !! ("default", "deploy")))).
Proof.
  eexists. split; [vm_compute; reflexivity|].
  eapply (proj1 (job_scope_agrees (Some sample_acl) sample_live sample_db "ops@example.com" ∅ _ 1%N (sample_job "running")
                   None None _ _)).
  Unshelve.
  - vm_compute. reflexivity.
  - reflexivity.
Defined.

(** ** Durations *)

Lemma duration_roundtrip_witness : parse_duration (duration_fmt 93784) = Ok 93784.
Proof. apply (duration_roundtrip 93784). unfold u64_max. lia. Defined.
