(* ===== verification/SupportWitnesses.v ===== *)
(** * Concrete inputs: logs, redaction, recovery

    Each theorem of the log, redaction and recovery files applied to a small
    input at which its hypotheses hold. *)
From S2P Require Import Prelude Json Text Lines Utf8 Template JobModel Gate Workflow Db WorkerRepo StepRepo StepRepoProps JobRepo JobRepoProps Cascade CascadeApply Settle Retry Terminal Settlement LogSplit LogTail LogMerge Errors Engine Connections WorkspaceSet Redact Pins RedactClosure FileField InputFiles InputFileLife TarballCache Recovery Retention.

(** ** Logs *)

Definition every (_ : Bytes) (_ : string) : bool := true.
Definition two_lines : Bytes := bytes "one" ++ nl :: bytes "two" ++ [nl].
Definition two_file : LocalFile := mkLocalFile two_lines Jsonl 8.

Lemma tails_agree_witness :
  tail_unfiltered two_file 5 = Ok (mkLocalTail (bytes "two" ++ [nl]) true 8) ∧
  byte_ring_tail [Data (take 2 two_lines); Data (drop 2 two_lines)] 5 = Ok (mkArchiveTail (bytes "two" ++ [nl]) true 8).
Proof.
  destruct (tails_agree every "s" 100 two_file two_lines [bytes "one"; bytes "two"] []
    [Data (take 2 two_lines); Data (drop 2 two_lines)] 5 100) as [(H1 & H2 & _) _].
  - reflexivity.
  - reflexivity.
  - reflexivity.
  - vm_compute. lia.
  - exists [take 2 two_lines; drop 2 two_lines]. split_and!; [reflexivity| |reflexivity].
    repeat (apply Forall_cons; split; [discriminate|]). apply Forall_nil. exact I.
  - reflexivity.
  - reflexivity.
  - split; [exact H1|exact H2].
Defined.

(** A backend of stored objects, a gzip that stores, and a decoder that reads
    the object in one range. *)
Definition no_format (_ : Z) (p : string) : string := p.
Definition store (x : Bytes) : Bytes := x.
Definition unstore (st : gmap string Bytes) (obj : ArchiveObject) : list Block :=
  match read_range st obj 0 (obj_size obj) with
  | Ok d => if bool_decide (d = []) then [] else [Data d]
  | Err e => [Fault e]
  end.

Lemma store_inverse : gzip_inverse store unstore.
Proof.
  intros st obj c Hs Hr. unfold unstore. rewrite Hs, (Hr 0%nat (length (store c))) by lia.
  rewrite drop_0, take_ge by reflexivity. case_bool_decide as E.
  - exists []. split_and!; [reflexivity|apply Forall_nil; exact I|symmetry; exact E].
  - exists [store c]. split_and!; [reflexivity| |apply app_nil_r]. apply Forall_cons. split; [exact E|apply Forall_nil; exact I].
Qed.

Definition read_bounds : LogReadConfig := mkReadConfig 100 100 100 100 100 100.
Definition log_meta : JobLogMeta := mkMeta "ws" "deploy" 0.
Definition jsonl (ts msg : string) : Bytes :=
  bytes "{" ++ TS_KEY ++ bytes ts ++ [quote] ++ bytes msg ++ bytes "}".
Definition local_log : Bytes := unlines [jsonl "1" "a"; jsonl "3" "c"].
Definition archived_log : Bytes := unlines [jsonl "1" "a"; jsonl "2" "b"].
Definition log_key : string := archive_key no_format "logs/" "j" log_meta.
Definition log_store : LogStorage (gmap string Bytes) :=
  mkStorage {[ log_path "j" := local_log ]} ∅ (Some {[ log_key := archived_log ]}) "logs/" read_bounds.

Lemma read_tail_exact_witness :
  ∃ tl, read_tail no_format unstore every log_store "j" log_meta true All 100 = Some (Ok tl) ∧ (length (logs tl) ≤ 100)%nat ∧
    logs tl = unlines [jsonl "1" "a"; jsonl "2" "b"; jsonl "3" "c"].
Proof.
  destruct (read_tail_exact no_format unstore every log_store {[ log_key := archived_log ]} "j" log_meta
    (mkObject log_key (length archived_log)) All 100 local_log [jsonl "1" "a"; jsonl "3" "c"] [] archived_log
    [jsonl "1" "a"; jsonl "2" "b"] []) as (tl & E & Hlen & _).
  - reflexivity.
  - reflexivity.
  - vm_compute. reflexivity.
  - exists [archived_log]. split_and!; [vm_compute; reflexivity| |apply app_nil_r]. apply Forall_cons. split; [discriminate|apply Forall_nil; exact I].
  - vm_compute. lia.
  - vm_compute. reflexivity.
  - vm_compute. reflexivity.
  - vm_compute. reflexivity.
  - vm_compute. reflexivity.
  - exists tl. split; [exact E|]. split; [exact Hlen|]. revert E. clear. intros E. vm_compute in E. injection E as <-.
    vm_compute. reflexivity.
Defined.

(** A map takes every object. *)
Lemma uploads (s : LogStorage (gmap string Bytes)) k meta : ∃ s2, upload_to_archive no_format store s k meta = Ok s2.
Proof. unfold upload_to_archive. repeat case_match; eexists; reflexivity. Qed.

Lemma archived_log_survives_witness :
  ∃ s2 shown,
    upload_to_archive no_format store (append_all log_store "k" [bytes "one"; [nl]; bytes "two"; [nl]]) "k" log_meta = Ok s2 ∧
    read_tail no_format unstore every (delete_local_log s2 "k").1 "k" log_meta true All 5 = Some (Ok (mkTail (unlines shown) true 8 Archive)) ∧
    [bytes "two"] `suffix_of` shown.
Proof.
  destruct (uploads (append_all log_store "k" [bytes "one"; [nl]; bytes "two"; [nl]]) "k" log_meta) as [s2 E].
  destruct (archived_log_survives no_format store unstore every log_store s2 {[ log_key := archived_log ]} "k" log_meta
    (bytes "one") [[nl]; bytes "two"; [nl]] All 5 [bytes "one"; bytes "two"] []) as (shown & cut & (_ & Hb & Hmax & Hcut) & _ & E2 & _).
  - exact store_inverse.
  - intros k Hk. exfalso. revert Hk. apply not_elem_of_empty.
  - reflexivity.
  - vm_compute. reflexivity.
  - apply Forall_cons. split; [|apply Forall_cons; split; [|apply Forall_nil; exact I]];
      intros Hin; vm_compute in Hin; repeat (apply elem_of_cons in Hin as [Hin|Hin]; [discriminate Hin|]); by apply elem_of_nil in Hin.
  - apply not_elem_of_nil.
  - vm_compute. reflexivity.
  - vm_compute. lia.
  - exact E.
  - exists s2, shown. split; [exact E|]. split.
    + destruct cut; [exact E2|]. destruct Hcut as [Hcut _]. destruct (Hcut eq_refl) as (_ & -> & _).
      exfalso. revert Hb. vm_compute. lia.
    + apply Hmax; [exists [bytes "one"]; reflexivity|vm_compute; lia].
Defined.

(** ** Redaction *)

Definition quoted (x : Bytes) : Bytes := [quote] ++ x ++ [quote].
Definition to_json (x : Bytes) : option Bytes := Some (quoted x).

Lemma quoted_valid x : valid_utf8 x = true → valid_utf8 (quoted x) = true.
Proof. intros Hx. unfold quoted. rewrite valid_utf8_char by reflexivity. by rewrite valid_utf8_app. Qed.

Lemma to_json_valid x y : valid_utf8 x = true → to_json x = Some y → valid_utf8 y = true.
Proof. intros Hx [= <-]. by apply quoted_valid. Qed.

(** A needle longer than the text does not occur in it. *)
Lemma occurs_length v l : occurs v l → (length v ≤ length l)%nat.
Proof. intros (x & y & ->). rewrite !length_app. lia. Qed.

Lemma bullet_not_in_ascii v : Forall (λ b, byte_in 0 127 b = true) v → ¬ occurs bullet v.
Proof.
  intros Hv (x & y & ->). apply Forall_app in Hv as [_ Hv]. apply Forall_app in Hv as [Hv _].
  apply Forall_cons in Hv as [Hb _]. discriminate Hb.
Qed.

Lemma redact_leaves_no_secret_witness :
  ¬ occurs (bytes "hunter2") (redact_bytes to_json quoted (bytes "login hunter2hunter2!") [bytes "hunter2"; bytes "ter2h"]).
Proof.
  destruct (redact_leaves_no_secret to_json quoted to_json_valid quoted_valid (bytes "login hunter2hunter2!")
    [bytes "hunter2"; bytes "ter2h"]) as (_ & H & _).
  - reflexivity.
  - apply Forall_cons; split; [reflexivity|]. apply Forall_cons; split; [reflexivity|]. apply Forall_nil. exact I.
  - apply (H (bytes "hunter2") (bytes "hunter2")); [left|discriminate|left|discriminate|].
    apply bullet_not_in_ascii. repeat (apply Forall_cons; split; [reflexivity|]). apply Forall_nil. exact I.
Defined.

#[local] Instance byte_collation : Collation := String.leb.

(** A child job pinned to one commit under a parent pinned to another. *)
Definition pinned_job (k : Uuid) (parent : option Uuid) (commit : string) : JobRec :=
  mkJobRec (mkJobRow k "ws" "t" "distributed" None None "running" "task" None None (Some commit) 0%Z None None None parent None
              None None None 0%Z None None None None None (Some "main") None) None.
Definition pinned_db : Db := mkDb (<[1%N := pinned_job 1%N None "aaaa"]> {[2%N := pinned_job 2%N (Some 1%N) "bbbb"]}) ∅ ∅ [].

Lemma redaction_closure_exact_witness :
  NoDup [mkClosurePin "ws" "main" "aaaa"; mkClosurePin "ws" "main" "bbbb"] ∧
  ∀ x, x ∈ [mkClosurePin "ws" "main" "aaaa"; mkClosurePin "ws" "main" "bbbb"] ↔
    ∃ k pin, closure_job pinned_db 2%N k ∧ pin ∈ pins_of pinned_db k ∧ x = row_of_pin pin.
Proof.
  apply (redaction_closure_exact pinned_db 2%N (mkBounds 3 3 3 3 10)). vm_compute. reflexivity.
Defined.

(** Workspaces with one secret each: the parent's commit has the secret the
    child's output quotes. *)
Definition one_secret (s : string) : WorkspaceSet :=
  from_parts "ws" None [("ws", mkWorkspace {[ "key" := JString s ]} ∅ ∅ ∅ ∅ ∅ [] [] [] [] ∅)] [].
Definition pin_sets (ws commit : string) : result PinError WorkspaceSet :=
  if commit ==? "aaaa" then Ok (one_secret "hunter2") else if commit ==? "bbbb" then Ok (one_secret "swordfish")
  else Err (CommitNotFound ws commit).
Definition sample_outlet : Outlet := mkOutlet pinned_db false false (one_secret "livesecret") pin_sets.

Lemma one_secret_string s u : secret_string (one_secret s) u ↔ u = s.
Proof.
  assert (Hg : ∀ ws cfg, set_get (one_secret s) ws = Found cfg → secrets cfg = {[ "key" := JString s ]} ∧ connections cfg = ∅).
  { intros ws cfg. unfold set_get, one_secret, from_parts. cbn -[insert empty]. rewrite Tauto.if_same.
    destruct (decide (ws = "ws")) as [->|Hne]; [rewrite lookup_insert_eq|rewrite lookup_insert_ne, lookup_empty by done].
    - by intros [= <-].
    - by case_bool_decide. }
  split.
  - intros [ws cfg key v Hf Hk Hin|ws cfg key conn ? ? ? ? ? ? ? Hf Hk].
    + destruct (Hg _ _ Hf) as [E _]. rewrite E in Hk. apply lookup_singleton_Some in Hk as [_ <-]. by apply list_elem_of_singleton in Hin.
    + destruct (Hg _ _ Hf) as [_ E]. by rewrite E, lookup_empty in Hk.
  - intros ->. eapply (of_secret _ _ "ws" _ "key" (JString s)); [vm_compute; reflexivity|vm_compute; reflexivity|left].
Qed.

Definition leaky_body : json := JObject [("job_id", JString "2"); ("output", JArray [JString "got hunter2"])].

Lemma pinned_child : closure_job pinned_db 2%N 1%N.
Proof. left. eapply (lineage_from _ _ 2%N); [constructor|reflexivity|]. left. reflexivity. Qed.


(** ** Recovery *)

#[local] Instance echo_engine : TemplateEngine := {| render_template t _ := Ok t |}.
#[local] Instance null_parser : JsonParser := λ _, Ok JNull.
#[local] Instance null_codec : AgentCodec := {| conv_from_value _ := None; conv_to_value _ := JNull; json_to_string _ := "" |}.

(** A worker silent for too long, with a step of its own. *)
Definition silent_worker : WorkerRec := mkWorkerRec "w" (JArray []) (JArray []) false (Some 0%Z) 0%Z "active" None.
Definition lost_row : JobStepRow :=
  mkJobStepRow 1%N "build" "work" "script" None None None None "running" (Some 7%N) (Some 5%Z) None None
    "script" (JArray []) "local" None None None None None None None None None 0%Z None None None
    false (JArray []) None None None false None None None None None 0%Z None.
Definition lost_step : StepRec := mkStepRec lost_row (Some 0%Z) None None.
Definition late_state : ServerState := mkServerState (mkDb ∅ {[ (1%N, "build") := lost_step ]} {[7%N := silent_worker]} []) ∅.
Definition late_sv : Services :=
  mkServices (secs 100) (λ _, "w") (λ _, 0%Z) (λ _, "t") false false (λ _, ConfigMissing) (λ _ _, None) None
    (λ _ _ st, st) (λ _ _ st, st) (λ _ _ st, (st, true)) (λ _ _ st, st) (λ _ _ _ _, Err "no creator").

Lemma recovery_failures_exact_witness :
  7%N ∈ (mark_stale_inactive (sv_now late_sv) (secs 30) (st_db late_state)).2 ∧
  mkStale 1%N "build" (Some 7%N) (Some 5%Z) ∈ get_running_steps_for_workers [7%N] (mark_stale_inactive (sv_now late_sv) (secs 30) (st_db late_state)).1 ∧
  ∃ db r', fail_claimed late_sv 3 id (λ _, STEP_TIMEOUT) (mkStale 1%N "build" (Some 7%N) (Some 5%Z)) late_state =
      Some (advance late_sv 3 1%N (with_db db late_state)).1 ∧ db_step db = {[ (1%N, "build") := r' ]} ∧
    sr_status r' = "failed".
Proof.
  pose proof (recovery_failures_exact late_sv 3 (mkRecoveryConfig 30 30) id late_state) as H.
  change (mark_stale_inactive (sv_now late_sv) (secs (heartbeat_timeout_secs (mkRecoveryConfig 30 30))) (st_db late_state))
    with (mark_stale_inactive (sv_now late_sv) (secs 30) (st_db late_state)) in H.
  assert (E : (mark_stale_inactive (sv_now late_sv) (secs 30) (st_db late_state)).2 = [7%N]) by (vm_compute; reflexivity).
  destruct (mark_stale_inactive (sv_now late_sv) (secs 30) (st_db late_state)) as [db1 silent]. simpl in E. subst silent.
  destruct H as (_ & _ & Hsel & _ & _ & Hfail).
  { intros k r Hr. cbn [late_state st_db db_step] in Hr. apply lookup_singleton_Some in Hr as [<- <-].
    split_and!; try reflexivity. exists []; reflexivity. }
  split; [left|]. split.
  - apply Hsel. exists 1%N, "build", lost_step, 7%N. split_and!; try reflexivity. left.
  - destruct (Hfail (λ _, STEP_TIMEOUT) (mkStale 1%N "build" (Some 7%N) (Some 5%Z)) late_state lost_step) as (_ & _ & Hf).
    + reflexivity.
    + split; [reflexivity|]. intros w t [= <-] [= <-]. split; reflexivity.
    + destruct Hf as (db & r' & E & (Hdb & _) & Hs & _); [intros (max & Hm & _); discriminate Hm|].
      exists db, r'. split; [exact E|]. split; [|exact Hs]. rewrite Hdb. cbn [st_job_id st_step_name id late_state st_db db_step].
      apply insert_singleton_eq.
Defined.

(** An old completed job with an artifact. *)
Definition old_job : JobRec :=
  mkJobRec (mkJobRow 1%N "ws" "t" "distributed" None None "completed" "api" None None None 0%Z None (Some 0%Z) None None None
              None None None 0%Z None None None None None None None) None.
Definition old_db : Db := mkDb {[1%N := old_job]} ∅ ∅ [].

(** A stored upload, attached to a younger job. *)
Definition upload_id : string := "file_0123456789abcdef0123456789abcdef".
Definition upload_row : InputFileRow :=
  mkInputFile upload_id "ws" "t" None "api" "a.csv" "a.csv" "text/csv" 1%Z "s" (storage_key "inputs/" "ws" upload_id) 0%Z None.
Definition old_files : FileTables := mkFileTables {[upload_id := upload_row]} {[(1%N, "f") := upload_id]} ∅.
Definition old_state : RetentionState := mkRetention old_db old_files ∅ ∅ {[1%N]} {[1%N]} {[1%N]} {[1%N]}.
Definition calm : SweepEnv := mkSweepEnv false false (λ _, false) (λ _, false) (λ _, false).
Definition blob_env : RetentionEnv :=
  mkRetentionEnv false false [] (λ _ _, false) (λ _, false) false (λ _, false) (λ _, false) (Some (λ _, false)) (λ _, false) (λ _, false) (λ _, false)
    true calm (secs 3600).

Lemma old_wf : jobs_wf (rt_db old_state).
Proof. intros k r Hr. cbn [old_state old_db rt_db db_job] in Hr. apply lookup_singleton_Some in Hr as [<- <-]. split; [reflexivity|by eexists]. Qed.

Lemma old_files_ok : tables_ok "inputs/" old_files.
Proof.
  intros k r Hr. cbn [old_files input_file] in Hr. apply lookup_singleton_Some in Hr as [<- <-]. split; [reflexivity|]. split; [reflexivity|].
  by exists "ws".
Qed.

Lemma retention_deletes_safely_witness :
  db_job (rt_db (retention_cleanup blob_env (secs 200000) None (Some 1%Z) old_state)) !! 1%N = None ∧
  cleaned blob_env old_state (retention_cleanup blob_env (secs 200000) None (Some 1%Z) old_state) 1%N.
Proof.
  destruct (retention_deletes_safely blob_env "inputs/" (secs 200000) None (Some 1%Z) old_state old_wf old_files_ok) as [H _].
  assert (E : db_job (rt_db (retention_cleanup blob_env (secs 200000) None (Some 1%Z) old_state)) !! 1%N = None) by (vm_compute; reflexivity).
  split; [exact E|]. exact (proj1 (proj2 (H 1%N old_job eq_refl E))).
Defined.

(** ** Input files *)

(** The file is no longer held: the sweep takes it. *)
Definition free_files : FileTables := mkFileTables {[upload_id := upload_row]} ∅ ∅.
Definition free_state : FileTables * Blobs := (free_files, {[storage_key "inputs/" "ws" upload_id := bytes "x"]}).

Lemma free_files_ok : tables_ok "inputs/" free_state.1.
Proof. exact old_files_ok. Qed.

Lemma file_sweep_exact_witness : gone upload_id free_state (sweep_input_files calm true (secs 10) (secs 1) free_state).
Proof.
  destruct (file_sweep_exact "inputs/" calm (secs 10) (secs 1) free_state free_files_ok) as (_ & _ & H & _).
  apply H; [split_and!; reflexivity|reflexivity|vm_compute; left|reflexivity].
Defined.

Lemma attach_only_granted_witness :
  ∃ db', attach_all_tx 10%Z 2%N "ws" "t" [("f", upload_id)] (Direct None 100%Z) None free_files = Ok db' ∧
    job_input_file db' !! (2%N, "f") = Some upload_id.
Proof.
  destruct (attach_all_tx 10%Z 2%N "ws" "t" [("f", upload_id)] (Direct None 100%Z) None free_files) as [db'|e] eqn:E; [|vm_compute in E; discriminate E].
  destruct (attach_only_granted 10%Z 2%N "ws" "t" [("f", upload_id)] (Direct None 100%Z) None free_files db') as (_ & H & _); [discriminate|exact E|].
  exists db'. split; [reflexivity|]. apply H. left.
Defined.

Lemma safe_name_is_safe_witness : is_safe_name "_pass_wd".
Proof.
  destruct (safe_name_is_safe "../../etc/.pass wd") as [_ H]; [reflexivity|]. apply (H "_pass_wd"). reflexivity.
Defined.

Lemma file_values_resolve_witness :
  resolve_target (job_files_new "/w" [("f", mkFileRef upload_id "a.csv")]) ("/w/" +:+ upload_id +:+ "/a.csv") = Some (mkFileRef upload_id "a.csv").
Proof.
  destruct (file_values_resolve "/w" [("f", mkFileRef upload_id "a.csv")]) as [H _].
  - apply Forall_cons. split; [reflexivity|apply Forall_nil; exact I].
  - apply H. split; [reflexivity|]. right. reflexivity.
Defined.

(** One upload, answered, and a job that holds it. *)
Definition digest (b : Bytes) : string := of_bytes b.
Definition target : UploadTarget := mkTarget "ws" "t" "a.csv" "text/csv" None "api".
Definition upload_key : string := storage_key "inputs/" "ws" upload_id.
Definition put_run : PutRun := mkPutRun 1 true {[upload_key := bytes "x"]}.
Definition new_file : NewInputFile := mkNewInputFile upload_id "ws" "t" None "api" "a.csv" "a.csv" "text/csv" 1%Z "x" upload_key.
Definition uploaded_row : InputFileRow := mkInputFile upload_id "ws" "t" None "api" "a.csv" "a.csv" "text/csv" 1%Z "x" upload_key 0%Z None.
Definition uploaded_files : FileTables := mkFileTables {[upload_id := uploaded_row]} ∅ ∅.
Definition held_files : FileTables := mkFileTables {[upload_id := uploaded_row]} {[(2%N, "f") := upload_id]} ∅.
Definition held_world : World := mkWorld 0%Z held_files {[upload_key := bytes "x"]} ∅ ∅ {[upload_id]}.
Definition world_at (db : FileTables) (us : gmap nat Upload) (p : gset string) : World := mkWorld 0%Z db {[upload_key := bytes "x"]} us ∅ p.

Lemma upload_fresh : fresh (empty_world 0%Z) upload_id.
Proof. split; [reflexivity|reflexivity|apply not_elem_of_empty|intros i u H; discriminate H|intros i s H; discriminate H]. Qed.

Lemma put_lawful : lawful_put upload_key [Ok (bytes "x")] ∅ put_run.
Proof.
  split; [intros k Hk; cbn [after_put put_run]; rewrite lookup_empty; by apply lookup_singleton_ne|].
  intros _. right. split; [vm_compute; lia|vm_compute; reflexivity].
Qed.

Abbreviation sample_life := (life digest (λ _, false) "inputs/").

Lemma life_eq w w1 w2 : sample_life w w1 → w1 = w2 → sample_life w w2.
Proof. by intros H <-. Qed.

Lemma life_to_held : rtc sample_life (empty_world 0%Z) held_world.
Proof.
  apply (rtc_l _ _ (world_at (mkFileTables ∅ ∅ ∅) {[0%nat := UStored new_file]} ∅)).
  { eapply life_eq; [eapply (life_put digest (λ _, false) "inputs/" (empty_world 0%Z) 0%nat upload_id true 100%Z target None [Ok (bytes "x")] put_run true);
      [exact upload_fresh|reflexivity|exact put_lawful|reflexivity]|vm_compute; reflexivity]. }
  apply (rtc_l _ _ (world_at uploaded_files {[0%nat := UInserted new_file]} ∅)).
  { eapply life_eq; [eapply (life_insert _ _ _ _ 0%nat new_file); reflexivity|vm_compute; reflexivity]. }
  apply (rtc_l _ _ (world_at uploaded_files ∅ {[upload_id]})).
  { eapply life_eq; [eapply (life_answer _ _ _ _ 0%nat new_file uploaded_row); reflexivity|vm_compute; reflexivity]. }
  apply rtc_once. eapply life_eq; [eapply (life_attach _ _ _ _ 2%N "ws" "t" [("f", upload_id)] (Direct None 100%Z) None); [|reflexivity]|vm_compute; reflexivity].
  apply Forall_cons. split; [vm_compute; reflexivity|apply Forall_nil; exact I].
Qed.

Lemma attached_files_available_witness :
  ∃ row data, input_file held_files !! upload_id = Some row ∧ w_blobs held_world !! f_storage_key row = Some data ∧ digest data = f_sha256 row.
Proof.
  destruct (attached_files_available digest (λ _, false) "inputs/" 0%Z held_world (2%N, "f") upload_id life_to_held) as (row & data & H1 & _ & H2 & _ & H3).
  - reflexivity.
  - exists row, data. exact (conj H1 (conj H2 H3)).
Defined.

(** ** Types *)
