(* ===== verification/CreationWitnesses.v ===== *)
(** * Concrete inputs: templates, connections, job creation

    Each theorem of the template, connection and creation files applied to a
    small input at which its hypotheses hold. *)
From S2P Require Import Prelude Json Text GitRef Workflow DependsOn JobModel Db StepRepo JobRepo Pins Retry Restart FileField InputFiles TemplateError Errors Engine JsonField Connections ConnectionsProps WorkspaceSet Refs Manager JobCreator JobCreatorProps.

(** ** A server with one git workspace *)

(** Templates render to themselves. *)
#[local] Instance plain_tera : Tera :=
  {| from_serialize _ := None; render_str t _ := Ok t; ref_render_str t _ := Ok t |}.
#[local] Instance null_parser : JsonParser := λ _, Ok JNull.
#[local] Instance no_serde : Serde := {| action_to_value _ := None; value_to_string _ := "" |}.

Definition script_action (input : gmap string InputFieldDef) (retry : option RetryConfig) : ActionDef :=
  mkAction "script" None None None None (Some "make") None None None None [] None [] [] None None None None None None input None None
    None None None None None None [] None false None retry.

Definition one_field (type : string) : InputFieldDef := mkInputField type None None false false None None false false None.

Definition pg_type : ConnectionTypeDef :=
  mkConnType {[ "password" := mkConnProperty "string" true None true ]}.
Definition acme_cfg : WorkspaceConfig :=
  mkWorkspace ∅ {[ "pg" := pg_type ]} {[ "db" := mkConn (Some "pg") false {[ "password" := JString "hunter22" ]} ]}
    {[ "build" := script_action ∅ None ]}
    {[ "deploy" := bare_task "distributed"
         {[ "a" := flow_step "build" [] false None None false None (Some "main");
            "b" := flow_step "build" [] false None None false None (Some "main") ]} None ]}
    ∅ [] [] [] [] ∅.

Definition commit_of (n : nat) : string := if Nat.even n then "1111111111111111111111111111111111111111" else "2222222222222222222222222222222222222222".

(** The branch moves with every call. *)
#[local] Instance acme : Workspaces :=
  {| entries_names := {[ "acme" ]}; load_errors := ∅; library_paths := ∅; is_git n := n ==? "acme";
     published _ := {[ "acme" := (acme_cfg, None) ]};
     pin_resolve n _ _ := Ok (commit_of n); pin_ensure _ _ _ := Ok (mkPinned acme_cfg []) |}.

Definition no_defaults : JobDefaults := mkDefaults None None true.
Definition deploy : CreateArgs := create_job_for_task_detailed acme_cfg "acme" "deploy" (JObject []) "api" None None None no_defaults Indirect.
Definition empty_db : Db := mkDb ∅ ∅ ∅ [].
Definition empty_files : FileTables := mkFileTables ∅ ∅ ∅.
Definition new_id : Uuid := 7%N.
Definition prep : Prepared :=
  match prepare new_id 0 deploy empty_db with
  | Ok p => p
  | Err _ => mkPrepared (mkNewJob "" "" "" None "" None None None None None None None None None None) [] ∅ [] None (bare_task "" ∅ None)
  end.
Definition after : Tables :=
  match creation_tx 5%Z 5%Z new_id deploy prep (empty_db, empty_files) with Ok t => t | Err _ => (empty_db, empty_files) end.

Lemma prep_ok : prepare new_id 0 deploy empty_db = Ok prep.
Proof. vm_compute. reflexivity. Qed.
Lemma after_ok : creation_tx 5%Z 5%Z new_id deploy prep (empty_db, empty_files) = Ok (after.1, after.2).
Proof. vm_compute. reflexivity. Qed.

Lemma job_refs_one_commit_witness :
  ∃ r1 r2, db_step after.1 !! (new_id, "a") = Some r1 ∧ db_step after.1 !! (new_id, "b") = Some r2 ∧
    js_action_revision (sr_row r1) = js_action_revision (sr_row r2) ∧ is_Some (js_action_revision (sr_row r1)).
Proof.
  destruct (job_refs_one_commit 5%Z 5%Z new_id 0 deploy prep empty_db empty_files after.1 after.2) as [_ Hs].
  - intros x Hx. apply elem_of_nil in Hx. destruct Hx.
  - apply prep_ok.
  - apply after_ok.
  - destruct (Hs "a" (flow_step "build" [] false None None false None (Some "main"))) as (r1 & H1 & Ha1 & _); [vm_compute; reflexivity|].
    destruct (Hs "b" (flow_step "build" [] false None None false None (Some "main"))) as (r2 & H2 & Ha2 & _); [vm_compute; reflexivity|].
    exists r1, r2. split; [exact H1|split; [exact H2|]].
    assert (E1 : js_action_ref (sr_row r1) = Some "main" ∧ js_action_workspace (sr_row r1) = Some "acme").
    { vm_compute in H1. injection H1 as <-. split; reflexivity. }
    assert (E2 : js_action_ref (sr_row r2) = Some "main" ∧ js_action_workspace (sr_row r2) = Some "acme").
    { vm_compute in H2. injection H2 as <-. split; reflexivity. }
    destruct (Ha1 "main" (proj1 E1)) as (w1 & c1 & Hw1 & Hc1 & Hp1). destruct (Ha2 "main" (proj1 E2)) as (w2 & c2 & Hw2 & Hc2 & Hp2).
    rewrite (proj2 E1) in Hw1. injection Hw1 as <-. rewrite (proj2 E2) in Hw2. injection Hw2 as <-.
    rewrite Hp1 in Hp2. injection Hp2 as <-. rewrite Hc1, Hc2. split; [reflexivity|exists c1; reflexivity].
Defined.


Lemma acme_valid : config_valid acme_cfg.
Proof.
  intros k act Hk. unfold acme_cfg in Hk. cbn [actions] in Hk. apply lookup_singleton_Some in Hk as [_ <-]. intros r Hr. discriminate Hr.
Qed.

Lemma creation_never_panics_witness : prepare new_id 0 deploy empty_db ≠ Err Panics.
Proof.
  apply creation_never_panics.
  - intros n ws c. unfold get_config. cbn [published acme]. intros Hc. apply fmap_Some in Hc as ([c' r] & Hl & ->).
    apply lookup_singleton_Some in Hl as [_ Heq]. injection Heq as <- <-. apply acme_valid.
  - intros n ws c p Hp. cbn [pin_ensure acme] in Hp. injection Hp as <-. apply acme_valid.
  - apply acme_valid.
  - intros t Ht. unfold deploy, create_job_for_task_detailed, acme_cfg in Ht. cbn [ca_config ca_task_name tasks] in Ht.
    apply lookup_singleton_Some in Ht as [_ <-]. split; [intros r Hr; discriminate Hr|split; [intros z Hz; discriminate Hz|]].
    intros name fs Hf. cbn [flow bare_task] in Hf.
    apply lookup_insert_Some in Hf as [[_ <-]|[_ Hf]]; [|apply lookup_singleton_Some in Hf as [_ <-]];
      (split; [intros r Hr; discriminate Hr|intros z Hz; discriminate Hz]).
Defined.

(** An action with [max_attempts: 0], which no creation path refuses, stops the
    creation with a panic. *)
Definition zero_retry : RetryConfig := {| max_attempts := 0; delay := 30; backoff := Fixed; jitter := false |}.
Definition zero_cfg : WorkspaceConfig :=
  mkWorkspace ∅ ∅ ∅ {[ "build" := script_action ∅ (Some zero_retry) ]}
    {[ "deploy" := bare_task "distributed" {[ "a" := flow_step "build" [] false None None false None None ]} None ]}
    ∅ [] [] [] [] ∅.
Example zero_attempts_panics :
  prepare new_id 0 (create_job_for_task_detailed zero_cfg "acme" "deploy" (JObject []) "api" None None None no_defaults Indirect) empty_db = Err Panics.
Proof. vm_compute. reflexivity. Qed.

(** ** Connections *)

Definition db_schema : gmap string InputFieldDef := {[ "conn" := one_field "pg" ]}.
Definition db_input : json := JObject [("conn", JString "db")].
Definition acme_set : WorkspaceSet := from_parts "acme" None [("acme", acme_cfg)] [].
Definition acme_scope : ResolveScope := mkScope (set_lookup acme_set) "acme" "acme" None.
Definition db_out : json :=
  match resolve_connection_inputs_scoped db_input db_schema acme_scope with Ok v => v | Err _ => JNull end.

Lemma resolved_secrets_masked_witness : "hunter22" ∈ collect_redaction_values acme_set.
Proof.
  destruct (resolved_secrets_masked acme_set acme_scope db_input db_schema db_out "conn" (one_field "pg") "db")
    as (resolved & o & ct & Hout & Hres & Hct & Hmask).
  - reflexivity.
  - vm_compute. repeat constructor.
  - vm_compute. reflexivity.
  - vm_compute. reflexivity.
  - vm_compute. reflexivity.
  - vm_compute. reflexivity.
  - assert (Hr : resolved = mkResolved "acme" (mkConn (Some "pg") false {[ "password" := JString "hunter22" ]})).
    { vm_compute in Hres. injection Hres as <-. reflexivity. }
    assert (Hc : ct = mkCanonical "acme" "pg") by (vm_compute in Hct; injection Hct as <-; reflexivity).
    assert (Ho : o = JObject [("password", JString "hunter22")]) by (vm_compute in Hout; injection Hout as <-; reflexivity).
    apply (Hmask acme_cfg pg_type "password" (mkConnProperty "string" true None true) (JString "hunter22") "hunter22").
    + rewrite Hr. eexists. reflexivity.
    + rewrite Hc. vm_compute. reflexivity.
    + rewrite Hc. vm_compute. reflexivity.
    + vm_compute. reflexivity.
    + reflexivity.
    + rewrite Ho. reflexivity.
    + left.
    + vm_compute. lia.
Defined.

(** The caller names a private connection of its own. *)
Definition acme_role : RoleConfig := mkRole "acme" 0 acme_cfg.
Definition acme_roles : RoleScope := mkRoles acme_role None None (set_lookup acme_set).
Definition gated_out : json := match prepare_action_input_roles db_input db_schema acme_roles with Ok v => v | Err _ => JNull end.

Lemma prepare_action_input_gated_witness :
  ∃ v, json_get "conn" gated_out = Some v ∧
    gated "acme" (lookup (bucket_scope acme_role (owner_of acme_roles) (set_lookup acme_set))) v.
Proof.
  assert (H := prepare_action_input_gated db_input db_schema acme_roles gated_out "conn").
  assert (Hs : sorted_map (entries db_input)) by (vm_compute; repeat constructor).
  assert (Hp : prepare_action_input_roles db_input db_schema acme_roles = Ok gated_out) by (vm_compute; reflexivity).
  specialize (H Hs Hp).
  change (json_map_lookup "conn" (entries db_input)) with (Some (JString "db")) in H. change (db_schema !! "conn") with (Some (one_field "pg")) in H.
  change (is_primitive (one_field "pg")) with false in H. exact H.
Defined.
