(* ===== verification/TriggerWitnesses.v ===== *)
(** * Concrete inputs: triggers and the scheduler

    A server with one git workspace, a task fired every minute, and a run of
    the scheduler over it. *)
From S2P Require Import Prelude Json Text Template Engine GitRef JobModel Gate Workflow Db StepRepo StepRepoProps JobRepo JobRepoProps Pins InputFiles Errors JsonField Connections WorkspaceSet RenderContext Refs Manager JobCreator Trigger Cascade CascadeApply Settle Retry Terminal Settlement CancelProps Scheduler Server EventSources.

#[local] Instance plain_tera : Tera :=
  {| from_serialize _ := None; render_str t _ := Ok t; ref_render_str t _ := Ok t |}.
#[local] Instance null_parser : JsonParser := λ _, Ok JNull.
#[local] Instance no_serde : Serde := {| action_to_value _ := None; value_to_string _ := "" |}.
#[local] Instance byte_collation : Collation := String.leb.
#[local] Instance echo_engine : TemplateEngine := {| render_template t _ := Ok t |}.
#[local] Instance null_codec : AgentCodec := {| conv_from_value _ := None; conv_to_value _ := JNull; json_to_string _ := "" |}.

(** Every expression means every full minute. *)
Definition next_minute (start : Time) : Time := ((start / 60000000 + 1) * 60000000)%Z.
Lemma next_minute_after start : (start < next_minute start)%Z.
Proof. unfold next_minute. pose proof (Z.div_mod start 60000000). pose proof (Z.mod_pos_bound start 60000000). lia. Qed.
#[local] Instance minutes : CronLib.
Proof.
  refine {| Cron := unit; Tz := unit; cron_parse _ := Some tt; tz_parse _ := None;
            find_next_occurrence _ _ start := Some (next_minute start);
            trigger_to_value def := JString (TriggerDef.task def) |}.
  intros _ _ start next [= <-]. apply next_minute_after.
Defined.

Definition every_minute (policy : ConcurrencyPolicy) : TriggerDef :=
  TScheduler (mkScheduler "* * * * *" "deploy" ∅ true policy None false None).
Definition acme_cfg (policy : ConcurrencyPolicy) : WorkspaceConfig :=
  mkWorkspace {[ "token" := JString "hunter22" ]} ∅ ∅ ∅ {[ "deploy" := bare_task "distributed" ∅ None ]}
    {[ "tick" := every_minute policy ]} [] [] [] [] ∅.
#[local] Instance acme : Workspaces :=
  {| entries_names := {[ "acme" ]}; load_errors := ∅; library_paths := ∅; is_git n := n ==? "acme";
     published _ := {[ "acme" := (acme_cfg CancelPrevious, None) ]};
     pin_resolve n _ _ := Ok "1111111111111111111111111111111111111111";
     pin_ensure _ _ _ := Ok (mkPinned (acme_cfg CancelPrevious) []) |}.

(** ** Targets *)

Definition main_target : ResolvedTarget :=
  mkResolvedTarget "acme" "deploy" (Some (mkPinRef "main" "1111111111111111111111111111111111111111")) None
    (PinnedAt (mkPinned (acme_cfg CancelPrevious) [])).

Lemma templated_target_secret_free_witness : ¬ infix (bytes "hunter22") (bytes "main").
Proof.
  destruct (templated_target_secret_free "acme" "deploy" " main " JNull (mkSt ∅ 0) main_target (mkSt ∅ 4))
    as (pin & pinned & rendered & spec & task & Hpin & _ & _ & _ & _ & _ & _ & _ & _ & Hs).
  - vm_compute. reflexivity.
  - injection Hpin as <-. apply (Hs "hunter22"); [left|discriminate]. vm_compute. repeat constructor.
Defined.

Lemma trigger_target_has_task_witness :
  ∃ task, tasks (acme_cfg CancelPrevious) !! "deploy" = Some task ∧ tg_pin_cols main_target = Some (mkJobPinCols "main" (folder task)).
Proof.
  destruct (trigger_target_has_task "acme" (acme_cfg CancelPrevious) "deploy" (Some "main") (mkSt ∅ 0) main_target (mkSt ∅ 3)) as (task & Ht & pin & Hp & Hc & _).
  - intros n m w c p q [= <-] [= <-]. reflexivity.
  - vm_compute. reflexivity.
  - exists task. split; [exact Ht|]. injection Hp as <-. exact Hc.
Defined.

(** ** A run *)

Definition round_at (now : Time) : LoopRound :=
  mkRound true now (λ _, now) (λ _, true) (λ ws, if ws ==? "acme" then Some (acme_cfg CancelPrevious) else None) ["acme"].
Definition start_triggers : gmap string TriggerState :=
  load_triggers (λ _, true) (λ ws, if ws ==? "acme" then Some (acme_cfg CancelPrevious) else None) None ["acme"].
Definition minute_rounds : list LoopRound := round_at <$> [5000000; 60000000; 61000000; 125000000]%Z.

Lemma scheduler_fires_once_witness :
  StronglySorted Z.lt (occurrences "acme/tick" (scheduler_loop log_fire minute_rounds start_triggers []).2) ∧
  occurrences "acme/tick" (scheduler_loop log_fire minute_rounds start_triggers []).2 = [60000000; 120000000]%Z.
Proof.
  split; [|vm_compute; reflexivity]. apply (scheduler_fires_once 0%Z). cbn [minute_rounds fmap list_fmap clocks round_at rd_now rd_after].
  repeat split; intros; lia.
Defined.

Lemma load_triggers_exact_witness : ∃ t, start_triggers !! "acme/tick" = Some t.
Proof.
  eexists. apply (load_triggers_exact (λ _, true)).
  - constructor; [|constructor]. intros Hin. vm_compute in Hin. repeat (apply elem_of_cons in Hin as [Hin|Hin]; [discriminate Hin|]).
    apply elem_of_nil in Hin. destruct Hin.
  - intros p Hp. discriminate Hp.
  - exists "acme". split; [left|]. split; [reflexivity|]. exists "tick", (every_minute CancelPrevious).
    split; [reflexivity|]. split; reflexivity.
Defined.

(** ** A fire over an active run *)

Definition quiet_sv : Services :=
  mkServices 100%Z uuid_text (λ _, 0%Z) (λ _, "") false false (λ _, ConfigMissing) (λ _ _, None) None
    (λ _ _ st, st) (λ _ _ st, st) (λ _ _ st, (st, true)) (λ _ _ st, st) (λ _ _ _ _, Err "no creator").
Definition tick_env : FireEnv :=
  mkFireEnv quiet_sv 3 1 100%Z 9%N 8%N 0 (mkDefaults None None true) false false (λ _ _ t, (t, Ok None)) None (λ _ st, st).
Definition tick_state : TriggerState :=
  mkTriggerState () "* * * * *" "acme" "deploy" None ∅ "tick" CancelPrevious None None false
    (trigger_to_value (every_minute CancelPrevious)) None None.
Definition running_job : JobRec :=
  mkJobRec (mkJobRow 1%N "acme" "deploy" "distributed" None None "running" "trigger" (Some "acme/tick") None None 0%Z None None None
    None None None None None 0%Z (Some 1%Z) None None None None None None) None.
Definition running_db : Db := mkDb {[ 1%N := running_job ]} ∅ ∅ [].
Definition running_state : FireState := (mkServerState running_db ∅, mkFileTables ∅ ∅ ∅).
Definition live_target : ResolvedTarget := mkResolvedTarget "acme" "deploy" None None (Live (acme_cfg CancelPrevious)).

Lemma running_wf : jobs_wf running_db.
Proof.
  intros k r Hr. unfold running_db in Hr. cbn [db_job] in Hr. apply lookup_singleton_Some in Hr as [<- <-].
  split; [reflexivity|exists JobRunning; reflexivity].
Qed.

Lemma tick_cancels :
  ∃ st, fire_trigger tick_env tick_state running_state = Some (create_fired tick_env tick_state live_target 2 (st, running_state.2)) ∧
    stopped 100%Z (st_db st) 1%N.
Proof.
  destruct (cancel_previous_stops tick_env tick_state live_target 1 running_state) as (st & E & _ & Hs).
  - vm_compute. reflexivity.
  - reflexivity.
  - reflexivity.
  - exact running_wf.
  - intros job k s Hwf. apply calm_refl. exact Hwf.
  - intros j Hj. vm_compute in Hj. apply elem_of_cons in Hj as [->|Hj]; [|apply elem_of_nil in Hj; destruct Hj]. split.
    + exists running_job. split; reflexivity.
    + intros c (r & Hr & Hp & _). cbn [running_state fst st_db running_db db_job] in Hr.
      apply lookup_singleton_Some in Hr as [_ <-]. discriminate Hp.
  - exists st. split; [exact E|]. apply Hs. vm_compute. left.
Defined.

(** The same trigger under [skip]. *)
Definition skipping_state : TriggerState :=
  mkTriggerState () "* * * * *" "acme" "deploy" None ∅ "tick" Workflow.Skip None None false
    (trigger_to_value (every_minute CancelPrevious)) None None.


Lemma missed_fire_harmless_witness : ∃ fs o, fire_trigger tick_env (with_runs None None tick_state) running_state = Some (fs, o) ∧ (o = Missed ∨ o = Outdated → fs = running_state).
Proof.
  destruct (fire_trigger tick_env (with_runs None None tick_state) running_state) as [[fs o]|] eqn:E.
  - exists fs, o. split; [reflexivity|]. apply (missed_fire_harmless tick_env (with_runs None None tick_state) running_state fs o E).
  - vm_compute in E. discriminate E.
Defined.

(** ** Event sources *)

#[local] Instance toy_events : EventLib := {| sha256_hex s := s; json_text _ := "null" |}.

Definition source (name : string) (policy : RestartPolicy) (fp : string) : DesiredEventSource :=
  mkDesired "acme" name "consume" "handle" ∅ ∅ policy 10%Z None fp.
(** A workspace with an event source whose consumer runs an old configuration,
    and a consumer of a trigger that is gone. *)
Definition orders_trigger : TriggerDef := TEventSource (mkEventSource "consume" "handle" true ∅ ∅ Always 10 None None).
Definition sources_cfg : WorkspaceConfig := mkWorkspace ∅ ∅ ∅ ∅ ∅ {[ "orders" := orders_trigger ]} [] [] [] [] ∅.
Definition sources_of (ws : string) : option WorkspaceConfig := if ws ==? "acme" then Some sources_cfg else None.
Definition orders : DesiredEventSource :=
  mkDesired "acme" "orders" "consume" "handle" ∅ ∅ Always 10%Z None (compute_fingerprint "consume" "handle" ∅ ∅ Always 10 None).
Definition consumer_job (id : Uuid) (sid fp : string) : JobRec :=
  mkJobRec (mkJobRow id "acme" "consume" "distributed" (Some (json_obj [("_fingerprint", JString fp)])) None "running" "event_source" (Some sid) None None 0%Z None
    None None None None None None None 0%Z None None None None None None None) None.
Definition consumers_db : Db := mkDb {[ 1%N := consumer_job 1%N "acme/orders" "old"; 2%N := consumer_job 2%N "acme/gone" "same" ]} ∅ ∅ [].
Definition consumers_state : ServerState := mkServerState consumers_db ∅.

Lemma consumers_wf : jobs_wf consumers_db.
Proof.
  intros k r Hr. unfold consumers_db in Hr. cbn [db_job] in Hr. apply lookup_insert_Some in Hr as [[<- <-]|[_ Hr]].
  - split; [reflexivity|exists JobRunning; reflexivity].
  - apply lookup_singleton_Some in Hr as [<- <-]. split; [reflexivity|exists JobRunning; reflexivity].
Qed.

Lemma consumer_running id k sid fp : db_job consumers_db !! id = Some (consumer_job k sid fp) → consumer consumers_db id (consumer_job k sid fp).
Proof.
  intros Hr. split; [exact Hr|]. split; [reflexivity|]. intros Hin. repeat (apply elem_of_cons in Hin as [Hin|Hin]; [discriminate Hin|]).
  by apply elem_of_nil in Hin.
Qed.

Lemma orders_desired : collect_desired (λ _, true) sources_of ["acme"] = [orders].
Proof. vm_compute. reflexivity. Qed.


Definition ended (id : Uuid) (status : string) (at_ : Time) (failures : Z) : EventSourceJobRow :=
  mkEventRow id (Some "acme/orders")
    (Some (json_obj [("_event_source", json_obj [("consecutive_failures", json_int failures)])])) (Some status) (Some at_).

(** The newest failure asks for five minutes and is ten seconds old; an older
    row of the same source, whose own wait is over, restarts it at once. *)
Example older_failure_restarts_early :
  let d := source "orders" Always "new" in
  let newest := ended 9%N "failed" (990 * SECOND)%Z 5 in
  restart_due (1000 * SECOND)%Z d newest = false ∧
  es_plan [d] [] [newest; ended 8%N "failed" (700 * SECOND)%Z 4] (λ _, (1000 * SECOND)%Z) = [ACreate d 5].
Proof. vm_compute. split; reflexivity. Qed.

(** Two ended rows whose wait is over restart the source twice. *)
Example two_consumers_at_once :
  let d := source "orders" Always "new" in
  es_plan [d] [] [ended 9%N "failed" (500 * SECOND)%Z 0; ended 8%N "failed" (480 * SECOND)%Z 0] (λ _, (1000 * SECOND)%Z) = [ACreate d 1; ACreate d 1].
Proof. vm_compute. reflexivity. Qed.

(** A source that must never be restarted is started anew as soon as its ended
    job is older than ten minutes. *)
Example never_source_started_again :
  let d := source "orders" Never "new" in
  let row := mkJobRow 1%N "acme" "consume" "distributed" None None "completed" "event_source" (Some "acme/orders") None None 0%Z None (Some (300 * SECOND)%Z) None
    None None None None None 0%Z None None None None None None None in
  let db := mkDb {[ 1%N := mkJobRec row None ]} ∅ ∅ [] in
  let pass now := es_plan [d] (load_active_event_source_jobs db) (load_terminal_event_source_jobs now db) (λ _, now) in
  pass (899 * SECOND)%Z = [] ∧ pass (901 * SECOND)%Z = [ACreate d 0].
Proof. vm_compute. split; reflexivity. Qed.

(** The separators of the hashed text are not escaped: two configurations with
    different environments have one fingerprint. *)
Example fingerprints_collide :
  fingerprint_text "consume" "handle" {[ "A" := "1;B=2" ]} ∅ Always 5 None =
  fingerprint_text "consume" "handle" {[ "A" := "1"; "B" := "2" ]} ∅ Always 5 None.
Proof. vm_compute. reflexivity. Qed.
