(* ===== verification/ValidationWitnesses.v ===== *)
(** * Concrete inputs: validation

    A workspace with two scripts, a task that calls another one, and a schedule;
    and a workspace the validation accepts although its jobs cannot be
    created. *)
From S2P Require Import Prelude Json Text DependsOn Dag Template TemplateError Engine GitRef JobModel Gate Workflow Db StepRepo JobRepo Pins InputFiles Errors JsonField Connections WorkspaceSet Refs Manager JobCreator JobCreatorProps Retry Cascade CascadeLive Scheduler Validation ValidationProps.

#[local] Instance plain_tera : Tera :=
  {| from_serialize _ := None; render_str t _ := Ok t; ref_render_str t _ := Ok t |}.
#[local] Instance null_parser : JsonParser := λ _, Ok JNull.
#[local] Instance no_serde : Serde := {| action_to_value _ := None; value_to_string _ := "" |}.
#[local] Instance no_unicode : Unicode := λ _, false.
#[local] Instance plain_checks : CheckLib := {| check_render _ := None; url_scheme _ := Some "https"; f32_text _ := "" |}.
#[local] Instance never : CronLib.
Proof.
  refine {| Cron := unit; Tz := unit; cron_parse _ := Some tt; tz_parse _ := Some tt; find_next_occurrence _ _ _ := None;
            trigger_to_value def := JString (TriggerDef.task def) |}.
  intros _ _ start next [=].
Defined.

Definition script (code : string) (retry : option RetryConfig) : ActionDef :=
  mkAction "script" None None None None None (Some code) None None None [] None [] [] None None None None None None ∅ None None
    None None None None None None [] None false None retry.
Definition call (task : string) : ActionDef :=
  mkAction "task" None None (Some task) None None None None None None [] None [] [] None None None None None None ∅ None None
    None None None None None None [] None false None None.

Definition build_flow_step : FlowStep := flow_step "build" [] false None None false None None.
Definition ship_step : FlowStep := flow_step "ship" [DependsOn.Name "build"] false None None false None None.
Definition deploy_task : TaskDef := bare_task "distributed" {[ "build" := build_flow_step; "ship" := ship_step ]} None.
Definition shop_cfg : WorkspaceConfig :=
  mkWorkspace {[ "token" := JString "hunter22" ]} ∅ ∅ {[ "build" := script "make" None; "ship" := call "upload" ]}
    {[ "deploy" := deploy_task;
       "upload" := bare_task "distributed" {[ "put" := build_flow_step ]} None ]}
    {[ "nightly" := TScheduler (mkScheduler "0 3 * * *" "deploy" ∅ true Allow (Some "Europe/Copenhagen") false None) ]} [] [] [] [] ∅.

Lemma shop_accepted : accepts (validate_workflow_config_with_libraries shop_cfg).
Proof. vm_compute. reflexivity. Qed.

Lemma deploy_found : tasks shop_cfg !! "deploy" = Some deploy_task.
Proof. vm_compute. reflexivity. Qed.
Lemma ship_found : actions shop_cfg !! "ship" = Some (call "upload").
Proof. vm_compute. reflexivity. Qed.
Lemma ship_run : task_runs deploy_task "ship".
Proof. left. exists "ship", ship_step. split; [vm_compute; reflexivity|reflexivity]. Qed.


Lemma validated_schedule_loads_witness :
  ∃ t, load_trigger None "acme" "nightly" (TScheduler (mkScheduler "0 3 * * *" "deploy" ∅ true Allow (Some "Europe/Copenhagen") false None)) = Some t ∧
       is_Some (ts_timezone t).
Proof.
  destruct (validated_schedule_loads shop_cfg true None None "acme" "nightly" _ shop_accepted eq_refl eq_refl) as (t & E & _ & _ & Htz).
  exists t. split; [exact E|]. apply Htz. eexists. reflexivity.
Defined.

(** ** An accepted workspace whose jobs cannot be created

    The [retry] of an action is not looked at, and a step without its own takes
    it: zero attempts stop the creation with a panic. *)

Definition zero_retry : RetryConfig := {| max_attempts := 0; delay := 30; backoff := Fixed; jitter := false |}.
Definition zero_cfg : WorkspaceConfig :=
  mkWorkspace ∅ ∅ ∅ {[ "build" := script "make" (Some zero_retry) ]}
    {[ "deploy" := bare_task "distributed" {[ "build" := build_flow_step ]} None ]} ∅ [] [] [] [] ∅.
#[local] Instance zero : Workspaces :=
  {| entries_names := {[ "acme" ]}; load_errors := ∅; library_paths := ∅; is_git n := false;
     published _ := {[ "acme" := (zero_cfg, None) ]};
     pin_resolve n _ _ := Ok ""; pin_ensure _ _ _ := Ok (mkPinned zero_cfg []) |}.

Example accepted_action_retry_panics :
  validate_workflow_config_with_libraries zero_cfg = Ok [] ∧
  prepare 7%N 0 (create_job_for_task_detailed zero_cfg "acme" "deploy" (JObject []) "api" None None None (mkDefaults None None true) Indirect)
    (mkDb ∅ ∅ ∅ []) = Err Panics.
Proof. split; vm_compute; reflexivity. Qed.
