(* ===== verification/WorkerWitnesses.v ===== *)
(** * Concrete inputs: claims

    A worker that claims the one ready step of a pinned job, the input of a
    step claimed twice, and a container command. *)
From S2P Require Import Prelude Json Text Lines Utf8 Template TemplateError GitRef Workflow JobModel Gate Db StepRepo StepRepoProps JobRepo WorkerRepo Pins FileField InputFiles Errors Engine JsonField TypedInput Connections WorkspaceSet RenderContext Refs Manager Cascade CascadeApply Settle Retry Terminal Redact Settlement Server ClaimRender WorkerApi ScriptExec Witnesses.

#[local] Instance plain_tera : Tera :=
  {| from_serialize _ := None; render_str t _ := Ok t; ref_render_str t _ := Ok t |}.
#[local] Instance null_parser : JsonParser := λ _, Ok JNull.
#[local] Instance byte_collation : Collation := String.leb.
#[local] Instance null_codec : AgentCodec := {| conv_from_value _ := None; conv_to_value _ := JNull; json_to_string _ := "" |}.
#[local] Instance no_unicode : Unicode := λ _, false.
#[local] Instance plain_forms : TextForms :=
  {| text_json s := Some s; text_debug s := s; schema_from_value _ := Err "unreadable" |}.
#[local] Instance digits : ActionValue := {| parse_uuid s := if s ==? "7" then Some 7%N else None; action_from_value _ := None |}.

Definition build_flow_step : FlowStep :=
  mkFlowStep "work" [] false None None false None None None None {[ "target" := JString "prod" ]} None None None.
Definition pinned_cfg : WorkspaceConfig :=
  mkWorkspace {[ "token" := JString "hunter22" ]} ∅ ∅ ∅ {[ "deploy" := bare_task "distributed" {[ "build" := build_flow_step ]} None ]} ∅ [] [] [] [] ∅.
#[local] Instance one_pin : Workspaces :=
  {| entries_names := {[ "default" ]}; load_errors := ∅; library_paths := ∅; is_git _ := true;
     published _ := {[ "default" := (pinned_cfg, None) ]};
     pin_resolve _ _ _ := Ok "c0ffee"; pin_ensure _ _ _ := Ok (mkPinned pinned_cfg ["hunter22"]) |}.

Definition claim_env (load : Load) : ClaimEnv :=
  mkClaimEnv 50%Z (λ _, false) (mkFileTables ∅ ∅ ∅) false false false
    (λ _ _ _, mkSnapshots None None (job_files_new CANONICAL_INPUTS_ROOT [])) (λ _, None) (λ _ _, load) true id.
Definition claim_sv : Services :=
  mkServices 50%Z uuid_text (λ _, 0%Z) (λ _, "") false false (λ _, ConfigMissing) (λ _ _, None) None
    (λ _ _ st, st) (λ _ _ st, st) (λ _ _ st, (st, true)) (λ _ _ st, st) (λ _ _ _ _, Err "no creator").
Definition claim_request : ClaimRequest := mkClaimRequest "7" [] ["script"; "linux"; "gpu"] false None.
Definition claim_state : CState := mkCState (mkServerState ready_db ∅) 0 [].

Lemma ready_jobs_keyed : jobs_keyed ready_db.
Proof.
  intros k r Hk. unfold ready_db, steps_db in Hk. simpl in Hk. apply lookup_singleton_Some in Hk as [<- <-]. reflexivity.
Qed.

Lemma ready_only k r : db_step ready_db !! k = Some r → k = (1%N, "build").
Proof.
  unfold ready_db, steps_db. simpl. intros [[<- _]|[_ Hk]]%lookup_insert_Some; [done|]. by rewrite lookup_empty in Hk.
Qed.

(** The step is handed out with its rendered input. *)
Example claim_hands_out :
  match (claim_job claim_sv 3 (claim_env InTime) claim_request claim_state).2 with
  | Reply (Work r) => cl_input r = Some (JObject [("target", JString "prod")]) ∧ cl_revision r = Some "c0ffee"
  | _ => False
  end.
Proof. vm_compute. split; reflexivity. Qed.


(** ** The input of a step claimed twice *)

Definition report_id : string := "file_0123456789abcdef0123456789abcdef".
Definition report : FileRef := mkFileRef report_id "report.csv".
Definition report_files (r : string) : JobFiles := job_files_new r [("data", report)].
Definition plain_field (t : string) : InputFieldDef := mkInputField t None None false false None None false false None.
Definition data_schema : gmap string InputFieldDef := {[ "data" := plain_field "string" ]}.
Definition data_job : jmap := [("data", JString report_id)].

Lemma report_files_wf r : files_wf (report_files r).
Proof. apply job_files_wf. repeat constructor. Qed.

Lemma merged_fields_exact_witness :
  ∃ out, merge_missing_action_fields (JObject []) (Some (JObject data_job)) data_schema (report_files "/inputs") false = Ok out ∧
         json_get "data" out = Some (JString (ref_path "/inputs" report)).
Proof.
  pose proof (merged_fields_exact [] data_job data_schema (report_files "/inputs") false ltac:(constructor) (report_files_wf _)) as Hm.
  destruct (merge_missing_action_fields _ _ _ _ _) as [out|e] eqn:E; [|vm_compute in E; discriminate E].
  exists out. split; [reflexivity|]. destruct (Hm "data") as (_ & _ & Hv).
  pose proof (Hv (plain_field "string") (JString report_id) eq_refl eq_refl ltac:(discriminate) eq_refl) as Hd. vm_compute in Hd |- *. exact Hd.
Defined.

Lemma reclaimed_paths_follow_root_witness :
  ∃ m2, merge_missing_action_fields (JObject [("data", JString (ref_path "/run/a" report))]) (Some (JObject data_job)) data_schema
          (report_files "/run/b") true = Ok (JObject m2) ∧
        json_map_lookup "data" m2 = Some (JString (ref_path "/run/b" report)).
Proof.
  destruct (reclaimed_paths_follow_root [] data_job data_schema (report_files "/run/a") "/run/a" "/run/b" [("data", JString (ref_path "/run/a" report))])
    as (m2 & Hm & Hk).
  - constructor.
  - apply report_files_wf.
  - reflexivity.
  - vm_compute. reflexivity.
  - exists m2. split; [exact Hm|]. rewrite Hk. vm_compute. reflexivity.
Defined.

(** ** An error the caller may read *)

Definition owner_cfg (secret : string) : WorkspaceConfig :=
  mkWorkspace {[ "token" := JString secret ]} {[ "db" := mkConnType ∅ ]} ∅ ∅ ∅ ∅ [] [] [] [] ∅.
Definition typed_prep : PrepareContext :=
  mkPrepare (0%N, pinned_cfg) "deploy" build_ready None None (Some "owner")
    (mkLookup "default" (λ n, if n ==? "default" then Found pinned_cfg else Unknown) false)
    (Some {[ "conn" := plain_field "db" ]}) (job_files_new "/inputs" []).

Lemma visible_prepare_error_secret_free_witness :
  ∃ e, prepare_step_action_input (Some (JObject [("conn", JString "missing")])) (with_owner (1%N, owner_cfg "first1") typed_prep) = Err e ∧
       prepare_step_action_input (Some (JObject [("conn", JString "missing")])) (with_owner (1%N, owner_cfg "second2") typed_prep) = Err e.
Proof.
  destruct (prepare_step_action_input (Some (JObject [("conn", JString "missing")])) (with_owner (1%N, owner_cfg "first1") typed_prep)) as [x|e] eqn:E.
  - vm_compute in E. discriminate E.
  - exists e. split; [reflexivity|].
    apply (visible_prepare_error_secret_free 1%N (owner_cfg "first1") (owner_cfg "second2") _ typed_prep e).
    + split; reflexivity.
    + exact E.
    + vm_compute in E. injection E as <-. vm_compute. reflexivity.
Defined.

(** ** A container command *)

