(* ===== verification/HookWitnesses.v ===== *)
(** * Concrete inputs: hooks

    A chain of hook jobs at the limit, and what a task-level retry makes of
    it. *)
From S2P Require Import Prelude Json Text Lines Utf8 Template TemplateError GitRef Workflow JobModel Gate Db StepRepo JobRepo Pins FileField InputFiles Errors Engine JsonField TypedInput Connections WorkspaceSet RenderContext Refs Manager Retry JobCreator Cascade CascadeApply Settle Terminal Redact Settlement Server Deferred Dispatch Hooks.

#[local] Instance plain_tera : Tera :=
  {| from_serialize _ := None; render_str t _ := Ok t; ref_render_str t _ := Ok t |}.
#[local] Instance null_parser : JsonParser := λ _, Ok JNull.
#[local] Instance no_serde : Serde := {| action_to_value _ := None; value_to_string _ := "" |}.
#[local] Instance byte_collation : Collation := String.leb.
#[local] Instance no_unicode : Unicode := λ _, false.
#[local] Instance plain_forms : TextForms :=
  {| text_json s := Some s; text_debug s := s; schema_from_value _ := Err "unreadable" |}.
#[local] Instance plain_texts : HookText :=
  {| rfc3339 _ := ""; chrono_json _ := ""; f64_thousandths _ := JNull; form_urlencode s := s; uuid_of_text _ := None |}.

(** Every failed run of the workspace is announced by the task [notify], which
    may be attempted twice. *)
Definition notify_action : ActionDef :=
  mkAction "task" None None (Some "notify") None None None None None None [] None [] [] None None None None None None ∅ None None
    None None None None None None [] None false None None.
Definition notify_task : TaskDef := bare_task "distributed" ∅ (Some {| max_attempts := 2; delay := 0; backoff := Fixed; jitter := false |}).
Definition hook_cfg : WorkspaceConfig :=
  mkWorkspace ∅ ∅ ∅ {[ "announce" := notify_action ]} {[ "notify" := notify_task ]} ∅ [] [mkHook "announce" ∅ None] [] [] ∅.
#[local] Instance acme : Workspaces :=
  {| entries_names := {[ "acme" ]}; load_errors := ∅; library_paths := ∅; is_git _ := false;
     published _ := {[ "acme" := (hook_cfg, None) ]};
     pin_resolve _ _ _ := Ok ""; pin_ensure _ _ _ := Ok (mkPinned hook_cfg []) |}.

Definition hook_env : Env := mkEnv 5%Z 5%Z N.of_nat (λ _, false) None (λ _ db, db) (mkDefaults None None true).

(** Job [i] of the chain, fired by job [i - 1]. *)
Definition chain_job (i : N) (source : option Uuid) : JobRec :=
  mkJobRec (mkJobRow i "acme" "notify" "distributed" None None "failed" (if bool_decide (is_Some source) then "hook" else "api") None None None
    0%Z None None None None None None None None 0%Z (Some 1%Z) None source None None None None) None.
Definition chain_db : Db :=
  mkDb {[ 1%N := chain_job 1 None; 2%N := chain_job 2 (Some 1%N); 3%N := chain_job 3 (Some 2%N); 4%N := chain_job 4 (Some 3%N) ]} ∅ ∅ [].
Definition last_hook : JobRow := jr_row (chain_job 4 (Some 3%N)).
Definition hook_server : Server := mkServer chain_db (mkFileTables ∅ ∅ ∅) 0 50.

Lemma chain_of_last : chain chain_db last_hook 3 0.
Proof.
  apply (chain_hook _ _ (jr_row (chain_job 3 (Some 2%N))) 2 0); [reflexivity|vm_compute; reflexivity|].
  apply (chain_hook _ _ (jr_row (chain_job 2 (Some 1%N))) 1 0); [reflexivity|vm_compute; reflexivity|].
  apply (chain_hook _ _ (jr_row (chain_job 1 None)) 0 0); [reflexivity|vm_compute; reflexivity|].
  apply (chain_end chain_db (jr_row (chain_job 1 None))). reflexivity.
Qed.

Definition no_init (a : CreateArgs) (id : Uuid) (t : TaskDef) : D (option JobStatus) := dret None.
Definition nothing_more (c : CreatedJob) : D unit := dret ().


(** ** The retry of a hook job *)

(** The failed hook job is retried as any top-level job is. *)
Definition retry_args : CreateArgs :=
  mkCreate hook_cfg "acme" "notify" (JObject []) "retry" (Some (uuid_text 4%N)) None None None (ModeRetry 4%N 4%N 1%Z) (mkDefaults None None true) None Indirect.
Definition retry_created : Server := (create_child hook_env no_init retry_args hook_server).1.
Definition retried_hook_row : option JobRow := JobRepo.get 50%N (srv_db retry_created).

(** The retry counts no link although its source has three, so when it fails
    in turn the workspace's hook fires again, and a new hook job with its own
    retry follows: the chain limit never stops the loop. *)
Example retried_hook_starts_over :
  plan_retry (plan last_hook) = true ∧ hook_chain_depth last_hook chain_db = 3%nat ∧
  match retried_hook_row with
  | Some r => j_retry_of_job_id r = Some 4%N ∧ is_hook_job r = false ∧ hook_chain_depth r (srv_db retry_created) = 0%nat ∧
      hooks_of_kind hook_cfg r notify_task HookError = [mkHook "announce" ∅ None] ∧
      let s' := (fire_hooks_of_kind hook_env no_init nothing_more hook_cfg r notify_task HookError (Ok []) retry_created).1 in
      match JobRepo.get 51%N (srv_db s') with
      | Some h => is_hook_job h = true ∧ j_source_job_id h = Some 50%N ∧ j_max_retries h = Some 1%Z ∧ hook_chain_depth h (srv_db s') = 1%nat
      | None => False
      end
  | None => False
  end.
Proof. vm_compute. repeat split; reflexivity. Qed.
